(* ===== verification/_CoqProject ===== *)
-Q . S2P
Prelude.v
Ordered.v
TopologyTypes.v
HashRing.v
BalancedRing.v
TokenPlacement.v
HostPort.v
KeyHelper.v
Hasher.v
MemoryKvStore.v
TtlManager.v
WatchRegistry.v
WatchDispatcher.v
DispatcherSafety.v
DispatcherClaims.v
CoordinatorStore.v
StoreProgram.v
BackendInterface.v
StoreBackend.v
HistoryFrame.v
BackendTheory.v
RingTheory.v
HashAlgorithm.v
OwnerSpec.v
PlanningInterface.v
HashPlans.v
Snapshot.v
RepositoryCodec.v
CodecClaims.v
MembershipTypes.v
MembershipCodec.v
TopologyRepository.v
RepositoryTheory.v
TaskProgress.v
RepositoryClaims.v
TaskMaterializer.v
PlanBuilder.v
TopologySafety.v
MaterializerTheory.v
TaskIdentity.v
MaterializerClaims.v
SnapshotState.v
PublicationTheory.v
SnapshotReaders.v
PublicationClaims.v
EndpointView.v
EndpointClaims.v
TopologyReader.v
TopologyTaskJanitor.v
JanitorClaims.v
RecoveryKeys.v
FailureClassifier.v
FailureClaims.v
ControllerTypes.v
ControllerBatch.v
ControllerFailure.v
TopologyController.v
TopologySteps.v
ControllerHistory.v
ControllerSafety.v
ControllerClaims.v
TopologyRecoveryManager.v
RecoveryInvariant.v
RecoveryHandlers.v
RecoverySafety.v
RecoveryDeadline.v
RecoveryClaims.v
EventDispatcher.v
Double.v
EvictionList.v
EvictionClaims.v
HeatSelection.v
PlacementFacade.v
MetadataRedirect.v
RouteResolver.v
RoutingClaims.v
RefTables.v
RefClaims.v
ShmRefTable.v
ShmRefClaims.v
