(* ===== verification/Prelude.v ===== *)
(** * openYuanrong DataSystem: a verification library for its cluster core

    The DataSystem is a distributed cache.  Its workers agree on one *topology*,
    the members of a hash ring with their tokens, which decides which worker owns
    a key.  A coordinator process stores the topology, the tasks that move data
    and the membership leases in a versioned key-value store with watches; a
    controller observes the membership, starts and finishes changes of the
    topology, and materializes the tasks; every worker keeps a published snapshot
    of the topology and routes with it.  This library models that core and proves
    it correct; sources are named relative to src/src/datasystem/.

    ** Parts and files

    Shared
    - Prelude: status codes, the [res] monad of fallible calls, machine integers,
      list lemmas, [inv_ok], [no_elem] and the hint database [u32_db].
    - Ordered: [std::map], [std::sort], [lower_bound] over keys with a strict
      total order (class [LtKey] with the instances the code uses).
    - TopologyTypes: cluster/model/topology_types.h, cluster/algorithm/topology_algorithm.h.
    - MembershipTypes: cluster/membership/membership_types.h.

    Placement (cluster/algorithm, common/util)
    - HashRing: MurmurHash3 and tokens (common/util/hash_algorithm.cpp, hash_ring_token.cpp).
    - BalancedRing: arcs and shares (balanced_ring.cpp).
    - TokenPlacement: sequential and balanced selection (token_placement.cpp).
    - HashAlgorithm: validation, ownership, the three planners (hash_algorithm.cpp);
      RingTheory and OwnerSpec give the abstract owner of a token, HashPlans the
      proofs, PlanningInterface the contract: class [IPlanningAlgorithm] of the
      planner's operations, [PlanningLaws] of what their plans promise and
      [PlanningProgress] of when they succeed.  The plan builder and the
      materializer are proved against the classes; HashPlans discharges them for
      the hash algorithm.

    Topology state (cluster/model, cluster/control, cluster/repository)
    - HostPort (common/util/net_util.cpp), KeyHelper (topology_key_helper.cpp),
      Hasher (common/ak_sk/hasher.cpp).
    - Snapshot: topology_snapshot.cpp, canonical form, indexes, routing, fences.
    - PlanBuilder: topology_plan_builder.cpp, every start, replan and final step;
      TopologySafety: the reachable topologies and the commits.
    - RepositoryCodec, CodecClaims: topology_repository_codec.cpp.
    - TaskMaterializer, MaterializerTheory, TaskIdentity, MaterializerClaims:
      topology_task_materializer.cpp and the key filter of cluster/executor.
    - FailureClassifier, FailureClaims: topology_failure_classifier.cpp.

    A worker's view (cluster/runtime, cluster/membership)
    - SnapshotState, PublicationTheory, SnapshotReaders, PublicationClaims:
      topology_snapshot_state.cpp, with the lock-free readers.
    - EndpointView, EndpointClaims: membership_endpoint_view.cpp.
    - EventDispatcher: cluster/runtime/coordination_event_dispatcher.cpp.

    Coordinator (common/coordinator)
    - MemoryKvStore, TtlManager, WatchRegistry, WatchDispatcher: one file each;
      DispatcherSafety runs the dispatcher's threads in every interleaving,
      DispatcherClaims states what follows; CoordinatorStore composes them.

    Storage of the topology (coordinator, cluster/repository, cluster/control)
    - StoreProgram: clients of the coordinator store as programs of store
      requests, run alone ([run]) or in a pool of threads whose requests
      interleave with each other and with foreign requests ([pool_step]); a
      rely-guarantee rule ([pool_sound]) lifts a proof about one client to the
      pool.
    - BackendInterface: class [CoordinationBackend] of the operations of
      coordination_backend.h the repository calls and [CoordinationBackendLaws],
      [BackendFootprint] of what they promise; the laws have a parameter [lossy]:
      whether a write may be stored and reported as an error.  StoreBackend is the
      process-local implementation (coordinator/coordinator_store_backend.cpp),
      BackendTheory discharges the laws for it, and for a backend that loses the
      answers of its writes.
    - MembershipCodec: membership_value_codec.cpp.
    - TopologyRepository: topology_repository.cpp over the interface;
      RepositoryTheory, TaskProgress and RepositoryClaims its proofs.
    - TopologyReader: cluster/runtime/topology_reader.cpp.
    - TopologyTaskJanitor, JanitorClaims: topology_task_janitor.cpp.

    The controller (cluster/control/topology_controller.cpp)
    - ControllerTypes: options, state and the callbacks of the host;
      ControllerBatch: memberships, derived state and batches; ControllerFailure:
      restarts, witness and active probes, collective absence, confirmation of
      failures; TopologyController: event consumption, the tick, recovery and the
      loop.  A controller is a program of store requests; a host callback is
      called with the number of the call, so it may answer differently each time,
      and so are the clocks.
    - TopologySteps: the member lifecycle as a relation between topologies;
      HistoryFrame, ControllerHistory, ControllerSafety: every write of a
      controller is a step of it; ControllerClaims: pools of controllers.

    Recovery (coordinator/topology_recovery_manager.cpp)
    - RecoveryKeys: parsing of coordination keys.
    - TopologyRecoveryManager: rounds, contexts, reports, validation, admission,
      installation and delayed reconciliation as tasks of critical sections,
      store requests and uses of the leader fence; an oracle answers clocks and
      thread pools.
    - RecoveryInvariant, RecoveryHandlers: the invariant and every critical
      section; RecoverySafety: the threads, by rely-guarantee with ghost state;
      RecoveryDeadline: runs after the hard deadline; RecoveryClaims.

    Routing of requests (cluster/routing, master, worker)
    - PlacementFacade: placement_facade.cpp, over the class [IRoutingAlgorithm];
      [RoutingLaws] is what it promises, discharged for the hash algorithm.
    - MetadataRedirect: master/metadata_redirect_helper.cpp and the requester's
      retry loop (worker_oc_service_crud_common_api.h).
    - RouteResolver: worker/metadata_route_resolver.cpp.
    - RoutingClaims: decisions, requests and groups of keys.

    A worker's cache (worker/object_cache, common/object_cache)
    - Double: IEEE double arithmetic (Stdlib's [SpecFloat]) and its order.
    - EvictionList: eviction_list.cpp, the clock and the heat policy;
      EvictionClaims its invariant, sweep and sequences of operations,
      HeatSelection the bounded candidate scan.
    - RefTables, RefClaims: the reference sets and the global reference table
      (object_ref_info.h); the persistence callbacks are arguments.
    - ShmRefTable, ShmRefClaims: the shared-memory reference table
      (object_ref_info.cpp), with the living units in a store of their own and
      [None] for a pointer to a unit that was freed.

    ** How the code is represented

    A class is a [Record] of its fields, a method a function from the state (and
    the arguments) to the new state and its result; a returned [Status] is
    [res A], with the out-parameters in [Ok] and the code in [Err].  A critical
    section is one transition; where threads interleave (DispatcherSafety,
    CoordinatorStore, SnapshotReaders) a step relation interleaves the critical
    sections and the atomic accesses between them.  The event of a store mutation
    is produced with the mutation: MemoryKvStore hands it to its callback after
    releasing the mutex, and the order in which concurrent mutations reach the
    dispatcher is not modelled; the dispatcher's theorems take events in the order
    of their revisions.  Integers are [Z] with their
    wrap-around written out ([u32], [u64], [i64]).  Loops are folds ([foldl],
    [foldM]) or structural recursion on the list they traverse; a loop that
    advances an index carries fuel equal to the number of iterations the code can
    make (the length of the list for task slices and key chunks, the candidate bound
    of a token search, the time left for a retry loop), and its theorems show that
    this is enough.  The compare-and-swap loop is bounded by the code itself (16 attempts), not by fuel.

    Code that is not in the repository is a class with its documented behaviour:
    [RE2] (regular expressions), [SHA256], [Protobuf] with [ProtobufLaws] and
    [NotifyFieldOrder] (serialization), [MapIteration] (the order of an unordered
    container), [StringHash] (std::hash), [StdAlgorithms] with
    [StdAlgorithmsLaws] (heaps and sorting), [ExactParse] (a serialized message parses
    to itself only).  [std::pow] and the format of long double are arguments of the
    definitions that use them.  Every theorem that uses such a law has a
    witness with a concrete instance.

    ** What is proved

    - Placement: the incrementally kept shares equal the recomputed ones; the
      bounded candidate scan equals a full scan; owner differences are exactly the
      tokens whose owner changes; the planners meet their contracts.
    - Topology: every topology the plan builder reaches is accepted by
      canonicalization and, when it has a committed member or none at all, by the
      algorithm's validation; starting and finishing
      a change moves exactly the planned tokens; planned migrations pass the
      fence; while a scale-out or scale-in runs the prospective owner is the owner
      after the commit.
    - Repository: encode/decode round trips of topologies, tasks and
      notifications; the exact condition under which a stored topology reads back.
    - Shared storage: concurrent topology updates form one history in which no
      version is skipped or lost and each caller's answer is right, also when the
      backend stores a write and reports an error; a task is
      created and finished once whatever the callers' interleaving; listings are
      exact; the janitor's pages reach every entry and its deletions spare the
      work of the running batch; membership values of both formats decode.
    - Tasks: rebuilt tasks cover every moving token once and are encodable;
      rebuilding succeeds for every started batch, and in general exactly for
      failure batches and batches after which a committed member stays; digest
      inputs are injective.
    - Failure detection: the timers refine one stopwatch per member that runs
      while the membership is readable; no failure is confirmed early.
    - Worker view: publication outcomes, no version regression, hand-off ranges
      as a set, fresh lock-free reads, the membership view as a past state of the
      store, a consistent candidate index, usable write candidates.
    - Controller: in every interleaving of controllers that read the store the
      stored topologies follow the member lifecycle, and a member that owns
      tokens never disappears unless it failed, left in a scale-in or the cluster
      was shut down or replaced.  The mode in which an external etcd holds the
      topology is modelled and not covered by these two theorems.
    - Recovery: what is installed is the newest reported topology, once, by the
      leader of the round; the books of work and bytes are exact and bounded;
      after the hard deadline a cluster is ready.  The fence is held exclusively
      by changes of leadership and a leader term is not used again, as the
      service guarantees.
    - Coordinator: replayed watch events reproduce the store, guarded writes and
      expiry lose no update, watchers match exactly, the dispatcher duplicates
      and reorders no event and loses none that is alone at its revision (the
      events of one range delete beyond a batch are dropped), a watched range with its events
      reproduces the store, no TTL is forgotten; and a reachable interleaving in
      which a watcher is never told to re-watch.

    - Events: between restarts an accepted doorbell is delivered, queued or
      replaced by a newer one of its key, and one refused for lack of room is
      recorded as a pending resynchronization.
    - Eviction: list, index and heat table agree after every operation; the clock
      ends at the first node with the least counter; the heat scan picks the
      coldest candidates and orders them by preference or by heat per byte.
    - Routing: on one snapshot one member processes a key and every other is sent
      to it; a metadata request ends within its time, at the member that has the
      metadata unless it is lost on the way; keys handed over are grouped by their next owner, each once.
    - References: the two sides of the reference tables describe one relation, in
      the global table as long as removals persist; a removal that does not persist
      drops the reference on one side only.  The counter of a shared-memory unit is
      never below the sum of its references, and equal to it unless a client with
      several references to a unit was removed, which leaves the counter behind.

    ** Not modelled

    The controller's wake-ups and diagnostics, the start and stop of threads, the
    control host, the executor (topology_task_executor.cpp), the RPC handlers of
    the coordinator service, the etcd and RPC backends (clients of external
    services), the engine's life cycle, logging and metrics; the hop-counting retry
    template of metadata_redirect_helper.h; the rest of the object cache and the
    stream cache (shared memory, RPC and metadata services), the transports (RDMA,
    URMA), the clients and the language bindings. *)

From Stdlib Require Export ZArith Lia String Ascii Permutation Sorted.
From stdpp Require Export base tactics option list gmap strings pretty.
From stdpp Require Import sorting.
#[global] Open Scope Z_scope.

(** ** Status codes and fallible results

    [StatusCode] of include/datasystem/utils/status.h, restricted to the codes
    the modelled components return.  A [Status] value is modelled by its code;
    the message text is diagnostic only and is dropped. *)

Inductive StatusCode :=
  | K_DUPLICATED | K_INVALID | K_NOT_FOUND | K_RUNTIME_ERROR | K_NOT_READY
  | K_TRY_AGAIN | K_DATA_INCONSISTENCY | K_KVSTORE_ERROR | K_NOT_SUPPORTED
  | K_SHUTTING_DOWN | K_RPC_DEADLINE_EXCEEDED.

#[global] Instance StatusCode_eq_dec : EqDecision StatusCode.
Proof. solve_decision. Defined.

(** [std::optional::has_value]. *)
Definition has_value {A} (o : option A) : bool := match o with Some _ => true | None => false end.

(** A C++ function returning [Status] with out-parameters becomes a function
    into [res A]: [Ok] carries the out-parameters, [Err] the status code. *)
Inductive res (A : Type) : Type :=
  | Ok (a : A)
  | Err (c : StatusCode).
Arguments Ok {A} a.
Arguments Err {A} c.

#[global] Instance res_ret : MRet res := fun A x => Ok x.
#[global] Instance res_bind : MBind res := fun A B f m =>
  match m with Ok a => f a | Err c => Err c end.
#[global] Instance res_fmap : FMap res := fun A B f m =>
  match m with Ok a => Ok (f a) | Err c => Err c end.

(** [CHECK_FAIL_RETURN_STATUS(cond, code, msg)]: continue iff [cond]. *)
Definition check (cond : bool) (c : StatusCode) : res unit :=
  if cond then Ok tt else Err c.

(** [status.IsOk()]. *)
Definition is_ok {A} (m : res A) : bool :=
  match m with Ok _ => true | Err _ => false end.

(** A [for] loop whose body may return an error early: left fold in [res]. *)
Fixpoint foldM {A S} (f : S -> A -> res S) (s : S) (l : list A) : res S :=
  match l with
  | [] => Ok s
  | x :: l => s' ← f s x; foldM f s' l
  end.

(** ** Machine integers *)

Definition u32 (z : Z) : Z := z mod 2 ^ 32.
Definition u64 (z : Z) : Z := z mod 2 ^ 64.
Definition UINT32_MAX : Z := 2 ^ 32 - 1.
Definition INT64_MAX : Z := 2 ^ 63 - 1.

(** Two's-complement wrap-around of a 64-bit signed counter. *)
Definition i64 (z : Z) : Z := (z + 2 ^ 63) mod 2 ^ 64 - 2 ^ 63.

Definition is_u32 (z : Z) : Prop := 0 <= z < 2 ^ 32.

Lemma u32_bounds z : is_u32 (u32 z).
Proof. unfold is_u32, u32. apply Z.mod_pos_bound. lia. Qed.

(** Closure of the 32-bit range under the operations of the hash functions. *)
Create HintDb u32_db.
#[export] Hint Resolve u32_bounds : u32_db.

Lemma u32_small z : is_u32 z -> u32 z = z.
Proof. apply Z.mod_small. Qed.

Lemma u64_small z : 0 <= z < 2 ^ 64 -> u64 z = z.
Proof. apply Z.mod_small. Qed.

Lemma i64_small z : - 2 ^ 63 <= z <= INT64_MAX -> i64 z = z.
Proof. unfold i64, INT64_MAX. intros. rewrite Z.mod_small; lia. Qed.

(** ** Inversion of results *)

Lemma bind_Ok {A B} (m : res A) (f : A -> res B) b :
  (m ≫= f) = Ok b <-> exists a, m = Ok a /\ f a = Ok b.
Proof. destruct m as [a|c]; cbn; naive_solver. Qed.

Lemma check_Ok cond c u : check cond c = Ok u <-> cond = true.
Proof. unfold check. destruct cond, u; naive_solver. Qed.

(** Take apart every successful bind and check among the hypotheses. *)
Ltac inv_ok :=
  repeat match goal with
  | H : (_ ≫= _) = Ok _ |- _ =>
      apply bind_Ok in H;
      let a := fresh "x" in let H1 := fresh "Hok" in let H2 := fresh "Hok" in
      destruct H as (a & H1 & H2)
  | H : check _ _ = Ok _ |- _ => apply check_Ok in H
  | H : Ok _ = Ok _ |- _ => injection H as H; subst
  | H : Err _ = Ok _ |- _ => discriminate H
  | H : mret _ = Ok _ |- _ => change (Ok _ = Ok _) in H
  end.

(** ** Lists *)

(** [vec.empty()] *)
Definition is_empty {A} (l : list A) : bool := match l with [] => true | _ => false end.

(** A property of all elements of an empty list. *)
Ltac no_elem := first [by intros ? ?%not_elem_of_nil | by intros ?? ?%not_elem_of_nil].

Lemma filter_all {A} (P : A -> Prop) `{!forall x, Decision (P x)} l :
  Forall P l -> filter P l = l.
Proof.
  induction 1 as [|x l Hx Hl IH]; [done|]. by rewrite filter_cons, decide_True, IH.
Qed.

Lemma filter_none {A} (P : A -> Prop) `{!forall x, Decision (P x)} l :
  Forall (fun x => ~ P x) l -> filter P l = [].
Proof.
  induction 1 as [|x l Hx Hl IH]; [done|]. by rewrite filter_cons, decide_False.
Qed.

(** The [bool]-valued filters and searches of the standard algorithms. *)
Lemma elem_of_filter_bool {A} (f : A -> bool) (l : list A) x : x ∈ List.filter f l <-> x ∈ l /\ f x = true.
Proof. by rewrite !list_elem_of_In, filter_In. Qed.

Lemma filter_bool_sublist {A} (f : A -> bool) l : List.filter f l `sublist_of` l.
Proof. induction l as [|x l IH]; cbn; [done|]. destruct (f x); by constructor. Qed.

Lemma existsb_elem {A} (f : A -> bool) l : existsb f l = true <-> exists x, x ∈ l /\ f x = true.
Proof. rewrite existsb_exists. by setoid_rewrite list_elem_of_In. Qed.

Lemma forallb_elem {A} (f : A -> bool) l : forallb f l = true <-> forall x, x ∈ l -> f x = true.
Proof. rewrite forallb_forall. by setoid_rewrite list_elem_of_In. Qed.

(** [v.pop_back()] *)
Lemma removelast_snoc {A} (l : list A) x : removelast (l ++ [x]) = l.
Proof. rewrite removelast_app by done. cbn. apply app_nil_r. Qed.

(** Uniform lookup law for [v[i] = f(v[i])]. *)
Lemma lookup_alter_if {A} (f : A -> A) (l : list A) i j :
  alter f i l !! j = (fun x => if decide (i = j) then f x else x) <$> l !! j.
Proof.
  rewrite list_lookup_alter. case_decide; subst; [done|]. by destruct (l !! j).
Qed.

Lemma elem_of_snoc {A} (x y : A) l : x ∈ l ++ [y] <-> x ∈ l \/ x = y.
Proof. by rewrite elem_of_app, list_elem_of_singleton. Qed.

(** Loop rule for [for (index = 0; index < n; ++index)] with early return. *)
Lemma foldM_app {A S} (f : S -> A -> res S) s l l' :
  foldM f s (l ++ l') = (foldM f s l ≫= fun s' => foldM f s' l').
Proof.
  revert s. induction l as [|x l IH]; intros s; cbn; [done|].
  destruct (f s x); cbn; [apply IH|done].
Qed.

Lemma foldM_inv {A S} (f : S -> A -> res S) (I : list A -> S -> Prop) l s s' :
  I [] s ->
  (forall pre x post s s', l = pre ++ x :: post -> I pre s -> f s x = Ok s' -> I (pre ++ [x]) s') ->
  foldM f s l = Ok s' -> I l s'.
Proof.
  intros H0 Hstep.
  assert (Hgen : forall post pre s0, l = pre ++ post -> I pre s0 -> foldM f s0 post = Ok s' -> I l s').
  { induction post as [|x post IH]; intros pre s0 -> Hpre Hf; cbn in Hf.
    - inv_ok. by rewrite app_nil_r.
    - inv_ok. eapply (IH (pre ++ [x])); [by rewrite <-app_assoc| |done]. by eapply Hstep. }
  intros Hf. by apply (Hgen l [] s).
Qed.

Lemma foldM_seqZ_inv {S} (f : S -> Z -> res S) (I : Z -> S -> Prop) n s s' :
  0 <= n -> I 0 s ->
  (forall k s s', 0 <= k < n -> I k s -> f s k = Ok s' -> I (k + 1) s') ->
  foldM f s (seqZ 0 n) = Ok s' -> I n s'.
Proof.
  intros Hn H0 Hstep Hf.
  apply (foldM_inv f (fun l s => I (Z.of_nat (length l)) s)) in Hf.
  - rewrite length_seqZ in Hf. by rewrite Z2Nat.id in Hf.
  - done.
  - intros pre x post s0 s1 Heq Hpre Hx.
    assert (Hk : seqZ 0 n !! length pre = Some x) by (rewrite Heq; by rewrite list_lookup_middle).
    apply lookup_seqZ in Hk as [-> Hk]. rewrite length_app. cbn [length].
    replace (Z.of_nat (length pre + 1)) with (Z.of_nat (length pre) + 1) by lia.
    rewrite Z.add_0_l in *. eapply Hstep; [lia|done|done].
Qed.
