(* ===== verification/Ordered.v ===== *)
(** * Ordered containers of the C++ standard library

    The modelled code keeps several [std::map]s and [std::set]s and sorts
    vectors with [std::sort].  This file gives them executable models on lists
    together with the laws the components use:
    - [LtKey]: a strict total order with a boolean test, with instances for
      integers, byte strings and [std::pair];
    - [sort_on]: [std::sort] with a comparator that compares a key;
    - [om_*]: [std::map] as a list strictly sorted by key;
    - [drop_while] / [take_while]: iteration from [std::lower_bound]. *)

From S2P Require Import Prelude.

(** ** Strict total orders *)

Class LtKey (K : Type) := {
  ltk : K -> K -> bool;
  ltk_irrefl x : ltk x x = false;
  ltk_trans x y z : ltk x y = true -> ltk y z = true -> ltk x z = true;
  ltk_total x y : ltk x y = false -> ltk y x = false -> x = y
}.

#[global] Arguments ltk : simpl never.

Definition string_ltb (a b : string) : bool :=
  match String.compare a b with Lt => true | _ => false end.

Definition pair_ltb {A B} `{LtKey A, LtKey B} (x y : A * B) : bool :=
  ltk x.1 y.1 || (negb (ltk y.1 x.1) && ltk x.2 y.2).

(** ** [std::sort] *)

Section sort.
Context {A K : Type} `{LtKey K} (key : A -> K).

Fixpoint insert_on (x : A) (l : list A) : list A :=
  match l with
  | [] => [x]
  | y :: l' => if ltk (key y) (key x) then y :: insert_on x l' else x :: y :: l'
  end.

(** The order of elements with equal keys is unspecified in C++; this model
    keeps them stable.  [sort_on_unique] below shows that with distinct keys
    every sorting algorithm gives this result. *)
Fixpoint sort_on (l : list A) : list A :=
  match l with
  | [] => []
  | x :: l' => insert_on x (sort_on l')
  end.
End sort.

(** ** Scans *)

Fixpoint drop_while {A} (p : A -> bool) (l : list A) : list A :=
  match l with
  | [] => []
  | x :: l' => if p x then drop_while p l' else l
  end.

Fixpoint take_while {A} (p : A -> bool) (l : list A) : list A :=
  match l with
  | [] => []
  | x :: l' => if p x then x :: take_while p l' else []
  end.

(** [vec.erase(std::unique(vec.begin(), vec.end()), vec.end())]. *)
Fixpoint dedup_adjacent {A} `{EqDecision A} (l : list A) : list A :=
  match l with
  | [] => []
  | x :: l' =>
      match l' with
      | [] => [x]
      | y :: _ => if decide (x = y) then dedup_adjacent l' else x :: dedup_adjacent l'
      end
  end.

(** ** [std::map] *)

Section ordmap.
Context {K V : Type} `{LtKey K} `{EqDecision K}.
Implicit Types m : list (K * V).

Fixpoint om_find (k : K) m : option V :=
  match m with
  | [] => None
  | (k', v) :: m' => if decide (k = k') then Some v else om_find k m'
  end.

(** [m[k] = v] *)
Fixpoint om_insert (k : K) (v : V) m : list (K * V) :=
  match m with
  | [] => [(k, v)]
  | (k', v') :: m' =>
      if ltk k k' then (k, v) :: m
      else if ltk k' k then (k', v') :: om_insert k v m'
      else (k, v) :: m'
  end.

(** [m.emplace(k, v)]: an existing key keeps its value. *)
Definition om_emplace (k : K) (v : V) m : list (K * V) :=
  match om_find k m with Some _ => m | None => om_insert k v m end.

(** [m.erase(k)] *)
Fixpoint om_erase (k : K) m : list (K * V) :=
  match m with
  | [] => []
  | (k', v) :: m' => if decide (k = k') then m' else (k', v) :: om_erase k m'
  end.

(** The iterations from [m.lower_bound(k)] and from [m.upper_bound(k)]. *)
Definition om_lower_bound (k : K) m : list (K * V) := drop_while (fun kv => ltk kv.1 k) m.
Definition om_upper_bound (k : K) m : list (K * V) :=
  drop_while (fun kv => negb (ltk k kv.1)) m.
End ordmap.

(** ** [std::set] *)

Section ordset.
Context {K : Type} `{LtKey K} `{EqDecision K}.

Fixpoint os_insert (a : K) (s : list K) : list K :=
  match s with
  | [] => [a]
  | b :: s' => if ltk a b then a :: s else if ltk b a then b :: os_insert a s' else s
  end.

Fixpoint os_erase (a : K) (s : list K) : list K :=
  match s with
  | [] => []
  | b :: s' => if decide (a = b) then s' else b :: os_erase a s'
  end.
End ordset.

Definition os_sorted {K} `{LtKey K} (s : list K) : Prop :=
  StronglySorted (fun a b => ltk a b = true) s.

(** Representation invariant of the map: keys strictly increase. *)
Definition key_lt {K V} `{LtKey K} (a b : K * V) : Prop := ltk a.1 b.1 = true.
Definition om_sorted {K V} `{LtKey K} (m : list (K * V)) : Prop := StronglySorted key_lt m.

(** ** Instances *)

#[global, program] Instance Z_LtKey : LtKey Z := {| ltk := Z.ltb |}.
Next Obligation. intros; apply Z.ltb_irrefl. Qed.
Next Obligation. intros x y z; rewrite !Z.ltb_lt; lia. Qed.
Next Obligation. intros x y; rewrite !Z.ltb_ge; lia. Qed.

Lemma ascii_compare_trans a b c :
  Ascii.compare a b = Lt -> Ascii.compare b c = Lt -> Ascii.compare a c = Lt.
Proof. unfold Ascii.compare. rewrite !N.compare_lt_iff. lia. Qed.

Lemma ascii_compare_eq a b : Ascii.compare a b = Eq -> a = b.
Proof. apply Ascii.compare_eq_iff. Qed.

Lemma ascii_compare_refl a : Ascii.compare a a = Eq.
Proof. unfold Ascii.compare. apply N.compare_refl. Qed.

Lemma string_compare_refl s : String.compare s s = Eq.
Proof. induction s; cbn; [done|]. by rewrite ascii_compare_refl. Qed.

Lemma string_compare_trans a b c :
  String.compare a b = Lt -> String.compare b c = Lt -> String.compare a c = Lt.
Proof.
  revert b c. induction a as [|x a IH]; intros [|y b] [|z c]; cbn; try done.
  destruct (Ascii.compare x y) eqn:E1; [| |done];
  destruct (Ascii.compare y z) eqn:E2; try done; intros ??.
  - apply ascii_compare_eq in E1 as ->. rewrite E2. eauto.
  - apply ascii_compare_eq in E1 as ->. by rewrite E2.
  - apply ascii_compare_eq in E2 as ->. by rewrite E1.
  - by rewrite (ascii_compare_trans _ _ _ E1 E2).
Qed.

#[global, program] Instance string_LtKey : LtKey string := {| ltk := string_ltb |}.
Next Obligation. intros x. unfold string_ltb. by rewrite string_compare_refl. Qed.
Next Obligation.
  intros x y z. unfold string_ltb.
  destruct (String.compare x y) eqn:E1; try done.
  destruct (String.compare y z) eqn:E2; try done.
  by rewrite (string_compare_trans _ _ _ E1 E2).
Qed.
Next Obligation.
  intros x y. unfold string_ltb. rewrite (String.compare_antisym y x).
  destruct (String.compare x y) eqn:E; try done.
  intros _ _. by apply String.compare_eq_iff.
Qed.

Lemma ltk_asym {K} `{LtKey K} x y : ltk x y = true -> ltk y x = false.
Proof.
  intros Hxy. destruct (ltk y x) eqn:Hyx; [|done].
  pose proof (ltk_trans _ _ _ Hxy Hyx). by rewrite ltk_irrefl in H0.
Qed.

Lemma ltk_ne {K} `{LtKey K} x y : ltk x y = true -> x <> y.
Proof. intros Hlt ->. by rewrite ltk_irrefl in Hlt. Qed.

(** [x <= y < z] implies [x < z], with [<=] as the negated test. *)
Lemma ltk_le_trans {K} `{LtKey K} x y z : ltk y x = false -> ltk y z = true -> ltk x z = true.
Proof.
  intros Hle Hlt. destruct (ltk x y) eqn:Hxy; [by eapply ltk_trans|].
  by rewrite (ltk_total _ _ Hxy Hle).
Qed.

Lemma ltk_nlt_trans {K} `{LtKey K} x y z : ltk y x = false -> ltk z y = false -> ltk z x = false.
Proof.
  intros Hxy Hyz. destruct (ltk z x) eqn:Hzx; [|done].
  destruct (ltk x y) eqn:E.
  - by rewrite (ltk_trans _ _ _ Hzx E) in Hyz.
  - rewrite (ltk_total _ _ E Hxy) in Hzx. congruence.
Qed.

#[global, program] Instance prod_LtKey {A B} `{LtKey A, LtKey B} : LtKey (A * B) :=
  {| ltk := pair_ltb |}.
Next Obligation. intros A B ?? [a b]. unfold pair_ltb; cbn. by rewrite !ltk_irrefl. Qed.
Next Obligation.
  intros A B HA HB [a b] [a' b'] [a'' b'']. unfold pair_ltb; cbn.
  rewrite !orb_true_iff, !andb_true_iff, !negb_true_iff.
  intros [H1|[H1 H2]] [H3|[H3 H4]].
  - left. by eapply ltk_trans.
  - left. destruct (ltk a' a'') eqn:E; [by eapply ltk_trans|]. by rewrite <-(ltk_total _ _ E H3).
  - left. by eapply ltk_le_trans.
  - right. split; [by eapply ltk_nlt_trans|by eapply ltk_trans].
Qed.
Next Obligation.
  intros A B HA HB [a b] [a' b']. unfold pair_ltb; cbn.
  rewrite !orb_false_iff, !andb_false_iff, !negb_false_iff.
  intros [H1 H2] [H3 H4]. assert (a = a') as -> by by apply ltk_total.
  rewrite ltk_irrefl in H2, H4. f_equal. apply ltk_total; naive_solver.
Qed.

(** ** Laws of [sort_on] *)

Section sort_laws.
Context {A K : Type} `{LtKey K} (key : A -> K).
Implicit Types l : list A.

Definition key_le (a b : A) : Prop := ltk (key b) (key a) = false.

Lemma insert_on_perm x l : insert_on key x l ≡ₚ x :: l.
Proof.
  induction l as [|y l IH]; cbn; [done|]. case_match; [|done].
  rewrite IH. apply perm_swap.
Qed.

Lemma sort_on_perm l : sort_on key l ≡ₚ l.
Proof. induction l as [|x l IH]; cbn; [done|]. by rewrite insert_on_perm, IH. Qed.

Lemma insert_on_sorted x l :
  StronglySorted key_le l -> StronglySorted key_le (insert_on key x l).
Proof.
  induction 1 as [|y l Hs IH Hall]; cbn; [by repeat constructor|].
  case_match eqn:E.
  - constructor; [done|]. rewrite insert_on_perm. constructor; [|done].
    by apply ltk_asym.
  - constructor; [by constructor|]. constructor; [done|].
    eapply Forall_impl; [exact Hall|]. intros z Hz. by eapply ltk_nlt_trans.
Qed.

Lemma sort_on_sorted l : StronglySorted key_le (sort_on key l).
Proof. induction l; cbn; [constructor|]. by apply insert_on_sorted. Qed.

Lemma elem_of_sort_on x l : x ∈ sort_on key l <-> x ∈ l.
Proof. by rewrite sort_on_perm. Qed.

Lemma length_sort_on l : length (sort_on key l) = length l.
Proof. by rewrite sort_on_perm. Qed.

(** With distinct keys a sorted arrangement is unique, so the result of
    [std::sort] does not depend on the algorithm. *)
Lemma sorted_unique l1 l2 :
  NoDup (key <$> l1) -> StronglySorted key_le l1 -> StronglySorted key_le l2 ->
  l1 ≡ₚ l2 -> l1 = l2.
Proof.
  intros Hnd Hs1. revert l2 Hnd. induction Hs1 as [|x l1 Hs1 IH Hall]; intros l2 Hnd Hs2 Hp.
  { by apply Permutation_nil in Hp as ->. }
  destruct Hs2 as [|y l2 Hs2 Hall2]; [by apply Permutation_sym, Permutation_nil in Hp|].
  cbn in Hnd. apply NoDup_cons in Hnd as [Hx Hnd].
  assert (x = y) as ->.
  { assert (Hy : y ∈ x :: l1) by (rewrite Hp; left).
    assert (Hx' : x ∈ y :: l2) by (rewrite <-Hp; left).
    apply elem_of_cons in Hy as [->|Hy]; [done|].
    apply elem_of_cons in Hx' as [->|Hx']; [done|].
    rewrite Forall_forall in Hall, Hall2.
    exfalso. apply Hx. apply list_elem_of_fmap. exists y. split; [|done].
    apply ltk_total; [by apply Hall2|by apply Hall]. }
  f_equal. apply IH; [done..|]. by apply Permutation_cons_inv in Hp.
Qed.

Lemma sort_on_unique l l' :
  NoDup (key <$> l) -> StronglySorted key_le l' -> l' ≡ₚ l -> l' = sort_on key l.
Proof.
  intros Hnd Hs Hp. apply sorted_unique; [|done|apply sort_on_sorted|].
  - by rewrite Hp.
  - by rewrite sort_on_perm.
Qed.
End sort_laws.

(** ** Scans of sorted lists *)

Lemma drop_while_filter {A} (p : A -> bool) l :
  StronglySorted (fun a b => p b = true -> p a = true) l ->
  drop_while p l = filter (fun x => p x = false) l.
Proof.
  induction 1 as [|x l Hs IH Hall]; [done|].
  rewrite filter_cons. cbn [drop_while take_while]. destruct (p x) eqn:Hx.
  - by rewrite decide_False by congruence.
  - rewrite decide_True by done. f_equal. symmetry. apply filter_all.
    eapply Forall_impl; [exact Hall|]. cbn. intros y Hy.
    destruct (p y); [|done]. specialize (Hy eq_refl); congruence.
Qed.

Lemma take_while_filter {A} (p : A -> bool) l :
  StronglySorted (fun a b => p b = true -> p a = true) l ->
  take_while p l = filter (fun x => p x = true) l.
Proof.
  induction 1 as [|x l Hs IH Hall]; [done|].
  rewrite filter_cons. cbn [drop_while take_while]. destruct (p x) eqn:Hx.
  - by rewrite decide_True, IH.
  - rewrite decide_False by done. symmetry. apply filter_none.
    eapply Forall_impl; [exact Hall|]. cbn. intros y Hy Hpy. specialize (Hy Hpy); congruence.
Qed.

Lemma StronglySorted_impl {A} (R R' : A -> A -> Prop) l :
  (forall x y, R x y -> R' x y) -> StronglySorted R l -> StronglySorted R' l.
Proof.
  intros Himp. induction 1 as [|x l Hs IH Hall]; constructor; [done|].
  eapply Forall_impl; [exact Hall|]. eauto.
Qed.

Lemma StronglySorted_filter {A} (R : A -> A -> Prop) (P : A -> Prop) `{!forall x, Decision (P x)} l :
  StronglySorted R l -> StronglySorted R (filter P l).
Proof.
  induction 1 as [|x l Hs IH Hall]; [constructor|].
  rewrite filter_cons. case_decide; [|done]. constructor; [done|].
  apply Forall_forall. intros y [_ Hy]%list_elem_of_filter. by rewrite Forall_forall in Hall; apply Hall.
Qed.

Lemma StronglySorted_filter_bool {A} (R : A -> A -> Prop) (f : A -> bool) l :
  StronglySorted R l -> StronglySorted R (List.filter f l).
Proof.
  induction 1 as [|x l Hs IH Hall]; cbn; [constructor|]. destruct (f x); [|done]. constructor; [done|].
  rewrite Forall_forall in *. intros y Hy. rewrite list_elem_of_In, filter_In, <-list_elem_of_In in Hy. naive_solver.
Qed.

Lemma StronglySorted_lookup {A} (R : A -> A -> Prop) l i j x y :
  StronglySorted R l -> l !! i = Some x -> l !! j = Some y -> (i < j)%nat -> R x y.
Proof.
  intros Hs. revert i j. induction Hs as [|z l Hs IH Hall]; intros [|i] [|j] Hi Hj Hlt;
    cbn in *; simplify_eq; try lia.
  - rewrite Forall_forall in Hall. apply Hall. by eapply list_elem_of_lookup_2.
  - eapply IH; eauto. lia.
Qed.

Lemma StronglySorted_snoc {A} (R : A -> A -> Prop) l x :
  StronglySorted R l -> (forall y, y ∈ l -> R y x) -> StronglySorted R (l ++ [x]).
Proof.
  induction 1 as [|a l Hs IH Hall]; cbn; intros Hx; [repeat constructor|].
  constructor; [apply IH; set_solver|]. apply Forall_app. split; [done|]. constructor; [|done].
  apply Hx. left.
Qed.

Lemma StronglySorted_rev {A} (R : A -> A -> Prop) l :
  StronglySorted (fun a b => R b a) l -> StronglySorted R (rev l).
Proof.
  induction 1 as [|a l Hs IH Hall]; cbn; [constructor|]. apply StronglySorted_snoc; [done|].
  intros y Hy. rewrite <-Permutation_rev in Hy. by rewrite Forall_forall in Hall; apply Hall.
Qed.

Lemma dedup_adjacent_elem {A} `{EqDecision A} (l : list A) x :
  x ∈ dedup_adjacent l <-> x ∈ l.
Proof.
  induction l as [|y l IH]; [done|]. destruct l as [|z l]; [done|].
  change (dedup_adjacent (y :: z :: l)) with
    (if decide (y = z) then dedup_adjacent (z :: l) else y :: dedup_adjacent (z :: l)).
  case_decide as Hd.
  - subst. rewrite IH. set_solver.
  - rewrite !elem_of_cons in *. rewrite IH. set_solver.
Qed.

Lemma dedup_adjacent_sorted {A} `{LtKey A} `{EqDecision A} (l : list A) :
  StronglySorted (key_le id) l ->
  StronglySorted (fun a b => ltk a b = true) (dedup_adjacent l).
Proof.
  induction 1 as [|y l Hs IH Hall]; [constructor|]. destruct l as [|z l]; [by repeat constructor|].
  change (dedup_adjacent (y :: z :: l)) with
    (if decide (y = z) then dedup_adjacent (z :: l) else y :: dedup_adjacent (z :: l)).
  case_decide as Hd; [done|]. constructor; [done|].
  assert (Hyz : ltk y z = true).
  { apply Forall_inv in Hall. unfold key_le, id in Hall. destruct (ltk y z) eqn:E; [done|].
    exfalso. by apply Hd, ltk_total. }
  apply Forall_forall. intros w Hw. rewrite dedup_adjacent_elem in Hw.
  apply elem_of_cons in Hw as [->|Hw]; [done|].
  inversion_clear Hs as [|?? _ Hall']. rewrite Forall_forall in Hall'. apply Hall' in Hw.
  unfold key_le, id in Hw. destruct (ltk z w) eqn:E; [by eapply ltk_trans|].
  by rewrite <-(ltk_total _ _ E Hw).
Qed.

(** ** Laws of the ordered map *)

Section ordmap_laws.
Context {K V : Type} `{LtKey K} `{EqDecision K}.
Implicit Types m : list (K * V).

Lemma om_find_insert_eq k v m : om_find k (om_insert k v m) = Some v.
Proof.
  induction m as [|[k' v'] m IH]; cbn; [by rewrite decide_True|].
  destruct (ltk k k') eqn:E1; cbn; [by rewrite decide_True|].
  destruct (ltk k' k) eqn:E2; cbn; [|by rewrite decide_True].
  rewrite decide_False; [done|]. intros ->. by rewrite ltk_irrefl in E2.
Qed.

Lemma om_find_insert_ne k k' v m : k <> k' -> om_find k' (om_insert k v m) = om_find k' m.
Proof.
  intros Hne. induction m as [|[k0 v0] m IH]; cbn; [by rewrite decide_False|].
  destruct (ltk k k0) eqn:E1; cbn; [by rewrite decide_False|].
  destruct (ltk k0 k) eqn:E2; cbn.
  - by rewrite IH.
  - rewrite (ltk_total _ _ E1 E2) in *. by rewrite !decide_False by done.
Qed.

Lemma om_find_insert k k' v m :
  om_find k' (om_insert k v m) = if decide (k = k') then Some v else om_find k' m.
Proof.
  case_decide; [subst; apply om_find_insert_eq|by apply om_find_insert_ne].
Qed.

Lemma om_find_elem_1 k v m : om_find k m = Some v -> (k, v) ∈ m.
Proof.
  induction m as [|[k' v'] m IH]; cbn; [done|]. case_decide; intros.
  - simplify_eq. left.
  - right. auto.
Qed.

Lemma om_sorted_cons kv m :
  om_sorted (kv :: m) <-> om_sorted m /\ forall kv', kv' ∈ m -> ltk kv.1 kv'.1 = true.
Proof.
  unfold om_sorted. split.
  - inversion_clear 1 as [|?? Hs Hall]. by rewrite Forall_forall in Hall.
  - intros [Hs Hall]. constructor; [done|]. by apply Forall_forall.
Qed.

Lemma om_find_elem k v m : om_sorted m -> om_find k m = Some v <-> (k, v) ∈ m.
Proof.
  intros Hs. split; [apply om_find_elem_1|].
  induction m as [|[k' v'] m IH]; cbn; [by intros ?%not_elem_of_nil|].
  apply om_sorted_cons in Hs as [Hs Hall]. rewrite elem_of_cons. intros [?|Hin].
  - simplify_eq. by rewrite decide_True.
  - rewrite decide_False; [auto|]. intros ->. apply Hall in Hin. cbn in Hin.
    by rewrite ltk_irrefl in Hin.
Qed.

Lemma om_find_None k m : om_find k m = None <-> forall v, (k, v) ∉ m.
Proof.
  induction m as [|[k' v'] m IH]; cbn; [set_solver|]. case_decide; subst.
  - split; [done|]. intros Hv. exfalso. apply (Hv v'). left.
  - rewrite IH. split; intros Hv v; specialize (Hv v); set_solver.
Qed.

Lemma om_insert_elem k v m kv :
  om_sorted m -> kv ∈ om_insert k v m <-> kv = (k, v) \/ (kv ∈ m /\ kv.1 <> k).
Proof.
  induction m as [|[k' v'] m IH]; cbn; [set_solver|]. intros [Hs Hall]%om_sorted_cons.
  destruct (ltk k k') eqn:E1; [|destruct (ltk k' k) eqn:E2].
  - rewrite elem_of_cons. split; [|tauto]. intros [->|Hin]; [tauto|]. right. split; [done|].
    apply elem_of_cons in Hin as [->|Hin]; cbn; [intros ->|intros <-].
    + by rewrite ltk_irrefl in E1.
    + apply Hall in Hin; cbn in *. by rewrite (ltk_asym _ _ Hin) in E1.
  - rewrite elem_of_cons, IH by done. rewrite elem_of_cons. split; [|tauto].
    intros [->|[->|[? ?]]]; [|tauto..]. right. split; [tauto|]. cbn. intros ->.
    by rewrite ltk_irrefl in E2.
  - pose proof (ltk_total _ _ E1 E2) as <-. rewrite !elem_of_cons. split.
    + intros [->|Hin]; [tauto|]. right. split; [tauto|]. intros <-.
      apply Hall in Hin; cbn in *. by rewrite ltk_irrefl in Hin.
    + intros [->|[[->|Hin] Hne]]; [tauto|done|tauto].
Qed.

Lemma om_insert_sorted k v m : om_sorted m -> om_sorted (om_insert k v m).
Proof.
  induction m as [|[k' v'] m IH]; cbn; intros Hs; [repeat constructor|].
  pose proof Hs as [Hs' Hall]%om_sorted_cons.
  destruct (ltk k k') eqn:E1; [|destruct (ltk k' k) eqn:E2].
  - apply om_sorted_cons. split; [done|]. intros kv [->|Hin]%elem_of_cons; cbn; [done|].
    eapply ltk_trans; [done|]. by apply Hall.
  - apply om_sorted_cons. split; [auto|]. intros kv Hin.
    apply om_insert_elem in Hin as [->|[Hin _]]; [done|by apply Hall|done].
  - apply om_sorted_cons. split; [done|]. pose proof (ltk_total _ _ E1 E2) as <-.
    exact Hall.
Qed.

Lemma om_erase_elem k m kv : om_sorted m -> kv ∈ om_erase k m <-> kv ∈ m /\ kv.1 <> k.
Proof.
  induction m as [|[k' v'] m IH]; cbn; [set_solver|]. intros [Hs Hall]%om_sorted_cons.
  case_decide; subst.
  - rewrite elem_of_cons. split; [|naive_solver]. intros Hin. split; [tauto|]. intros <-.
    apply Hall in Hin; cbn in *. by rewrite ltk_irrefl in Hin.
  - rewrite !elem_of_cons, IH by done. naive_solver.
Qed.

Lemma om_erase_sorted k m : om_sorted m -> om_sorted (om_erase k m).
Proof.
  induction m as [|[k' v'] m IH]; cbn; [done|]. intros [Hs Hall]%om_sorted_cons.
  case_decide; [done|]. apply om_sorted_cons. split; [auto|].
  intros kv Hin. apply om_erase_elem in Hin as [? _]; [by apply Hall|done].
Qed.

Lemma om_find_erase k k' m :
  om_sorted m -> om_find k' (om_erase k m) = if decide (k = k') then None else om_find k' m.
Proof.
  intros Hs. pose proof (om_erase_sorted k m Hs) as Hs'. case_decide; subst.
  - apply om_find_None. intros v [_ Hne]%om_erase_elem; [done|done].
  - apply option_eq. intros v. rewrite !om_find_elem, om_erase_elem by done. naive_solver.
Qed.

Lemma om_find_emplace k k' v m :
  om_find k' (om_emplace k v m) =
    if decide (k = k' /\ om_find k m = None) then Some v else om_find k' m.
Proof.
  unfold om_emplace. destruct (om_find k m) eqn:E.
  - rewrite decide_False; [done|naive_solver].
  - rewrite om_find_insert. case_decide; [rewrite decide_True by done|rewrite decide_False by naive_solver]; done.
Qed.

Lemma om_emplace_sorted k v m : om_sorted m -> om_sorted (om_emplace k v m).
Proof. unfold om_emplace. case_match; [done|apply om_insert_sorted]. Qed.

Lemma om_lower_bound_filter k m :
  om_sorted m -> om_lower_bound k m = filter (fun kv => ltk kv.1 k = false) m.
Proof.
  intros Hs. apply drop_while_filter. eapply StronglySorted_impl; [|exact Hs].
  unfold key_lt. cbn. intros x y Hxy Hy. by eapply ltk_trans.
Qed.
End ordmap_laws.

Lemma om_insert_split {K V} `{LtKey K, EqDecision K} (l r : list (K * V)) k v :
  (forall kv, kv ∈ l -> ltk kv.1 k = true) -> (forall kv, kv ∈ r -> ltk k kv.1 = true) ->
  om_insert k v (l ++ r) = l ++ (k, v) :: r.
Proof.
  intros Hl Hr. induction l as [|[k' v'] l IH]; cbn.
  - destruct r as [|[k' v'] r]; [done|]. cbn.
    assert (E : ltk k k' = true) by (apply (Hr (k', v')); left). by rewrite E.
  - assert (E : ltk k' k = true) by (apply (Hl (k', v')); left).
    rewrite (ltk_asym _ _ E), E, IH; [done|]. intros kv ?. apply Hl. by right.
Qed.

Lemma om_upper_bound_split {K V} `{LtKey K, EqDecision K} (l r : list (K * V)) k :
  (forall kv, kv ∈ l -> ltk kv.1 k = true) -> (forall kv, kv ∈ r -> ltk k kv.1 = true) ->
  om_upper_bound k (l ++ r) = r.
Proof.
  intros Hl Hr. unfold om_upper_bound. induction l as [|[k' v'] l IH]; cbn.
  - destruct r as [|[k' v'] r]; [done|]. cbn.
    assert (E : ltk k k' = true) by (apply (Hr (k', v')); left). by rewrite E.
  - assert (E : ltk k' k = true) by (apply (Hl (k', v')); left).
    rewrite (ltk_asym _ _ E). cbn. apply IH. intros kv ?. apply Hl. by right.
Qed.

(** An absent key splits a sorted map into the smaller and the larger keys. *)
Lemma om_split {K V} `{LtKey K, EqDecision K} (m : list (K * V)) k :
  om_sorted m -> om_find k m = None ->
  exists l r, m = l ++ r /\ (forall kv, kv ∈ l -> ltk kv.1 k = true) /\
              (forall kv, kv ∈ r -> ltk k kv.1 = true).
Proof.
  induction m as [|[k' v'] m IH]; cbn; intros Hs Hf.
  { exists [], []. set_solver. }
  apply om_sorted_cons in Hs as [Hs Hall]. case_decide; [done|].
  destruct (ltk k' k) eqn:E.
  - destruct IH as (l & r & -> & Hl & Hr); [done..|].
    exists ((k', v') :: l), r. set_solver.
  - exists [], ((k', v') :: m). split; [done|]. split; [set_solver|].
    assert (Hk : ltk k k' = true).
    { destruct (ltk k k') eqn:E'; [done|]. exfalso. naive_solver eauto using ltk_total. }
    intros kv [->|Hin]%elem_of_cons; [done|]. eapply ltk_trans; [done|]. by apply Hall.
Qed.

(** ** Laws of the ordered set *)

Section ordset_laws.
Context {K : Type} `{LtKey K} `{EqDecision K}.
Implicit Types s : list K.

Lemma os_sorted_cons a s : os_sorted (a :: s) <-> os_sorted s /\ forall b, b ∈ s -> ltk a b = true.
Proof.
  unfold os_sorted. split.
  - inversion_clear 1 as [|?? Hs Hall]. by rewrite Forall_forall in Hall.
  - intros [Hs Hall]. constructor; [done|]. by apply Forall_forall.
Qed.

Lemma elem_of_os_insert a b s : b ∈ os_insert a s <-> b = a \/ b ∈ s.
Proof.
  induction s as [|c s IH]; cbn; [set_solver|].
  destruct (ltk a c) eqn:E1; [set_solver|]. destruct (ltk c a) eqn:E2; [set_solver|].
  rewrite (ltk_total _ _ E1 E2). set_solver.
Qed.

Lemma os_insert_sorted a s : os_sorted s -> os_sorted (os_insert a s).
Proof.
  induction s as [|c s IH]; cbn; intros Hs; [repeat constructor|].
  pose proof Hs as [Hs' Hall]%os_sorted_cons.
  destruct (ltk a c) eqn:E1; [|destruct (ltk c a) eqn:E2; [|done]]; apply os_sorted_cons.
  - split; [done|]. intros b [->|Hb]%elem_of_cons; [done|]. eapply ltk_trans; eauto.
  - split; [auto|]. intros b [->|Hb]%elem_of_os_insert; auto.
Qed.

Lemma elem_of_os_erase a b s : os_sorted s -> b ∈ os_erase a s <-> b ∈ s /\ b <> a.
Proof.
  induction s as [|c s IH]; cbn; [set_solver|]. intros [Hs Hall]%os_sorted_cons.
  case_decide; subst.
  - rewrite elem_of_cons. split; [|naive_solver]. intros Hin. split; [tauto|]. intros ->.
    apply Hall in Hin. by rewrite ltk_irrefl in Hin.
  - rewrite !elem_of_cons, IH by done. naive_solver.
Qed.

Lemma os_erase_sorted a s : os_sorted s -> os_sorted (os_erase a s).
Proof.
  induction s as [|c s IH]; cbn; [done|]. intros [Hs Hall]%os_sorted_cons.
  case_decide; [done|]. apply os_sorted_cons. split; [auto|].
  intros b [? _]%elem_of_os_erase; auto.
Qed.
End ordset_laws.
