(* ===== verification/TopologyTypes.v ===== *)
(** * Topology data model

    The types of src/datasystem/cluster/model/topology_types.h and the input
    records of cluster/algorithm/topology_algorithm.h.  Unsigned integers are
    [Z] values; strings are byte strings. *)

From S2P Require Import Prelude Ordered.

Inductive MemberState := INITIAL | JOINING | ACTIVE | PRE_LEAVING | LEAVING | FAILED.
Inductive TopologyChangeType := SCALE_OUT | SCALE_IN | FAILURE.
Inductive TopologyTaskKind := MIGRATE | DELETE_MEMBER.
Inductive TopologyCallbackPhase := PH_SCALE_OUT | PH_SCALE_IN | PH_SCALE_IN_CLEANUP | PH_FAILURE.

#[global] Instance MemberState_eq_dec : EqDecision MemberState.
Proof. solve_decision. Defined.
#[global] Instance TopologyChangeType_eq_dec : EqDecision TopologyChangeType.
Proof. solve_decision. Defined.
#[global] Instance TopologyTaskKind_eq_dec : EqDecision TopologyTaskKind.
Proof. solve_decision. Defined.
#[global] Instance TopologyCallbackPhase_eq_dec : EqDecision TopologyCallbackPhase.
Proof. solve_decision. Defined.

Definition MAX_MEMBER_ADDRESS_BYTES : Z := 1024.
Definition MAX_TOPOLOGY_TASK_RANGES : nat := 4096.
Definition DEFAULT_HASH_RING_TOKENS_PER_MEMBER : Z := 32.

Definition IsCommittedMemberState (s : MemberState) : bool :=
  match s with ACTIVE | PRE_LEAVING | LEAVING => true | _ => false end.

Definition IsAdmittedScaleInMigrationTargetState (s : MemberState) : bool :=
  match s with ACTIVE | PRE_LEAVING => true | _ => false end.

Record MemberIdentity := { mi_id : string; mi_address : string }.
#[global] Instance MemberIdentity_eq_dec : EqDecision MemberIdentity.
Proof. solve_decision. Defined.

(** Inclusive on both ends. *)
Record TokenRange := { tr_from : Z; tr_end : Z }.
#[global] Instance TokenRange_eq_dec : EqDecision TokenRange.
Proof. solve_decision. Defined.

Record TokenSeedOverride := { so_tokenIndex : Z; so_tokenSeed : Z }.
#[global] Instance TokenSeedOverride_eq_dec : EqDecision TokenSeedOverride.
Proof. solve_decision. Defined.

Record Member := {
  m_identity : MemberIdentity;
  m_state : MemberState;
  m_tokens : list Z;
  m_tokenSeedOverrides : list TokenSeedOverride
}.
#[global] Instance Member_eq_dec : EqDecision Member.
Proof. solve_decision. Defined.

Record ActiveBatch := { ab_type : TopologyChangeType; ab_epoch : Z }.
#[global] Instance ActiveBatch_eq_dec : EqDecision ActiveBatch.
Proof. solve_decision. Defined.

Record TopologyMigrationFence := {
  mf_topologyVersion : Z;
  mf_batchEpoch : Z;
  mf_source : MemberIdentity;
  mf_target : MemberIdentity
}.

Record TopologyState := {
  ts_clusterHasInit : bool;
  ts_version : Z;
  ts_members : list Member;
  ts_activeBatch : option ActiveBatch;
  ts_tokensPerMember : Z
}.
#[global] Instance TopologyState_eq_dec : EqDecision TopologyState.
Proof. solve_decision. Defined.

(** [TopologyState{}] *)
Definition default_TopologyState : TopologyState := {|
  ts_clusterHasInit := false; ts_version := 0; ts_members := [];
  ts_activeBatch := None; ts_tokensPerMember := DEFAULT_HASH_RING_TOKENS_PER_MEMBER |}.

Record TopologyTaskRange := {
  tk_ownerAddress : string;
  tk_range : TokenRange;
  tk_finished : bool
}.
#[global] Instance TopologyTaskRange_eq_dec : EqDecision TopologyTaskRange.
Proof. solve_decision. Defined.

Record TopologyMigrateTask := {
  mt_taskId : string;
  mt_type : TopologyChangeType;
  mt_epoch : Z;
  mt_executorAddress : string;
  mt_targetAddress : string;
  mt_sourceRanges : list TopologyTaskRange
}.

Record TopologyDeleteTask := {
  dt_taskId : string;
  dt_epoch : Z;
  dt_executorAddress : string;
  dt_failedAddress : string;
  dt_recoveryRanges : list TopologyTaskRange
}.

(** [std::variant<TopologyMigrateTask, TopologyDeleteTask>] *)
Inductive TopologyTask :=
  | TaskMigrate (t : TopologyMigrateTask)
  | TaskDelete (t : TopologyDeleteTask).

Definition TaskKind (t : TopologyTask) : TopologyTaskKind :=
  match t with TaskMigrate _ => MIGRATE | TaskDelete _ => DELETE_MEMBER end.

Record TopologyTaskNotify := {
  tn_activeBatch : option ActiveBatch;
  tn_taskIds : list string;
  tn_restartTimestampsByAddress : list (string * Z)
}.

Record TopologyExecutionFence := {
  ef_taskId : string;
  ef_taskKind : TopologyTaskKind;
  ef_batchType : TopologyChangeType;
  ef_batchEpoch : Z;
  ef_phase : TopologyCallbackPhase;
  ef_executor : MemberIdentity;
  ef_source : option MemberIdentity;
  ef_target : option MemberIdentity;
  ef_failed : option MemberIdentity;
  ef_ranges : list TokenRange
}.

Record TopologyOwnerChange := {
  oc_source : option MemberIdentity;
  oc_target : MemberIdentity;
  oc_ranges : list TokenRange
}.

Record TopologyPlan := {
  tp_next : TopologyState;
  tp_ownerChanges : list TopologyOwnerChange
}.

(** Inputs of the planning algorithm. *)
Record ScaleOutPlanInput := {
  so_current : TopologyState;
  so_joining : list MemberIdentity;
  so_tokensPerMember : Z
}.
Record ScaleInPlanInput := { si_current : TopologyState; si_leaving : list MemberIdentity }.
Record FailurePlanInput := { fi_current : TopologyState; fi_failed : list MemberIdentity }.

(** Field updates: [member.state = s], [state.members = ms], ... *)
Definition set_member_state (s : MemberState) (m : Member) : Member := {|
  m_identity := m_identity m; m_state := s; m_tokens := m_tokens m;
  m_tokenSeedOverrides := m_tokenSeedOverrides m |}.
Definition set_members (ms : list Member) (t : TopologyState) : TopologyState := {|
  ts_clusterHasInit := ts_clusterHasInit t; ts_version := ts_version t; ts_members := ms;
  ts_activeBatch := ts_activeBatch t; ts_tokensPerMember := ts_tokensPerMember t |}.
Definition set_version_batch (v : Z) (b : option ActiveBatch) (t : TopologyState) : TopologyState := {|
  ts_clusterHasInit := ts_clusterHasInit t; ts_version := v; ts_members := ts_members t;
  ts_activeBatch := b; ts_tokensPerMember := ts_tokensPerMember t |}.
Definition set_tokensPerMember (n : Z) (t : TopologyState) : TopologyState := {|
  ts_clusterHasInit := ts_clusterHasInit t; ts_version := ts_version t; ts_members := ts_members t;
  ts_activeBatch := ts_activeBatch t; ts_tokensPerMember := n |}.
Definition set_clusterHasInit (b : bool) (t : TopologyState) : TopologyState := {|
  ts_clusterHasInit := b; ts_version := ts_version t; ts_members := ts_members t;
  ts_activeBatch := ts_activeBatch t; ts_tokensPerMember := ts_tokensPerMember t |}.

(** The address and the id of a member, used as lookup keys throughout. *)
Abbreviation m_address m := (mi_address (m_identity m)).
Abbreviation m_id m := (mi_id (m_identity m)).

Definition in_range (t : Z) (r : TokenRange) : Prop := tr_from r <= t <= tr_end r.
