(* ===== verification/HashRing.v ===== *)
(** * Hash-ring tokens

    - common/util/hash_algorithm.cpp: [MurmurHash3_32] at its 32-bit width,
      little-endian block reads included;
    - common/util/hash_ring_token.cpp: token derivation.  The C++ code reuses a
      character buffer; here the buffer prefix that is hashed is written out as
      a string, so the three derivation routines differ as they do in the code. *)

From S2P Require Import Prelude Ordered.

(** ** MurmurHash3 *)

Definition C1 : Z := 0xcc9e2d51.
Definition C2 : Z := 0x1b873593.
Definition R1 : Z := 15.
Definition R2 : Z := 13.
Definition MURMUR_M : Z := 5.
Definition MURMUR_N : Z := 0xe6546b64.

(** Left rotation of a 32-bit value, with the code's shortcut for zero. *)
Definition Rotl (val r : Z) : Z :=
  if val =? 0 then val else Z.lor (u32 (Z.shiftl val r)) (Z.shiftr val (32 - r)).

Definition Fmix (val : Z) : Z :=
  let val := Z.lxor val (Z.shiftr val 16) in
  let val := u32 (val * 0x85ebca6b) in
  let val := Z.lxor val (Z.shiftr val 13) in
  let val := u32 (val * 0xc2b2ae35) in
  Z.lxor val (Z.shiftr val 16).

Definition byte_at (c : ascii) : Z := Z.of_N (N_of_ascii c).

(** [GetRemain(remain, mod)]: the loop runs from [index = mod - 1] down to 0. *)
Fixpoint GetRemain_from (index : nat) (remain : list Z) (k : Z) : Z :=
  let k := Z.lxor k (u32 (Z.shiftl (default 0 (remain !! index)) (Z.of_nat index * 8))) in
  match index with
  | O => k
  | S index' => GetRemain_from index' remain k
  end.
Definition GetRemain (remain : list Z) : Z :=
  match length remain with O => 0 | S n => GetRemain_from n remain 0 end.

(** [k *= C1; k = Rotl(k, R1); k *= C2;] *)
Definition mix_k (k : Z) : Z := u32 (Rotl (u32 (k * C1)) R1 * C2).

(** A 32-bit block is read in the little-endian order of the supported targets. *)
Definition block_le (b0 b1 b2 b3 : Z) : Z :=
  Z.lor b0 (Z.lor (Z.shiftl b1 8) (Z.lor (Z.shiftl b2 16) (Z.shiftl b3 24))).

Fixpoint murmur_body (data : list Z) (result : Z) : Z :=
  match data with
  | b0 :: b1 :: b2 :: b3 :: rest =>
      let result := Z.lxor result (mix_k (block_le b0 b1 b2 b3)) in
      let result := Rotl result R2 in
      murmur_body rest (u32 (result * MURMUR_M + MURMUR_N))
  | [] => result
  | remain => Z.lxor result (mix_k (GetRemain remain))
  end.

Definition bytes_of (s : string) : list Z := byte_at <$> String.list_ascii_of_string s.

(** [result ^= len] converts the 64-bit length to the 32-bit accumulator. *)
Definition MurmurHash3_32 (data : string) (seed : Z) : Z :=
  let result := murmur_body (bytes_of data) seed in
  Fmix (u32 (Z.lxor result (Z.of_nat (String.length data)))).

(** ** Token derivation *)

Definition MAX_HASH_RING_TOKEN_SEEDS : Z := 10000.
Definition MAX_HASH_RING_TOKENS_PER_MEMBER : Z := 4096.
Definition BALANCED_PLACEMENT_SEED_CANDIDATES : Z := 1000.

Definition TOKEN_SEPARATOR : string := "#".

(** [std::to_chars] of an unsigned integer. *)
Definition to_chars (n : Z) : string := pretty (Z.to_N n).

(** The buffer prefix written by [InitializeTokenBuffer]. *)
Definition InitializeTokenBuffer (address : string) : string := address +:+ TOKEN_SEPARATOR.

Definition MakeTokenWithBuffer (prefix : string) (index seed : Z) : Z :=
  let next := prefix +:+ to_chars index in
  let next := if 0 <? seed then next +:+ TOKEN_SEPARATOR +:+ to_chars seed else next in
  MurmurHash3_32 next 0.

Definition MakeHashRingToken (address : string) (index seed : Z) : Z :=
  MakeTokenWithBuffer (InitializeTokenBuffer address) index seed.

Definition MakeHashRingTokens (address : string) (seeds : list Z) : list Z :=
  imap (fun index seed => MakeTokenWithBuffer (InitializeTokenBuffer address) (u32 (Z.of_nat index)) seed)
       seeds.

(** Seed 0 is derived before the loop, seeds 1 .. [candidateSeeds - 1] in it. *)
Definition MakeHashRingTokenCandidates (address : string) (index candidateSeeds : Z) : list Z :=
  let indexEnd := InitializeTokenBuffer address +:+ to_chars index in
  MurmurHash3_32 indexEnd 0 ::
    ((fun seed => MurmurHash3_32 (indexEnd +:+ TOKEN_SEPARATOR +:+ to_chars seed) 0)
       <$> seqZ 1 (candidateSeeds - 1)).

(** ** The hash stays in 32 bits *)

Lemma lt_pow2_of_log2 a n : 0 <= a -> 0 < n -> Z.log2 a < n -> a < 2 ^ n.
Proof.
  intros Ha Hn Hl. destruct (decide (a = 0)) as [->|]; [lia|].
  apply Z.log2_lt_pow2; lia.
Qed.

Lemma log2_u32 a : is_u32 a -> Z.log2 a < 32.
Proof.
  intros [Ha Hb]. destruct (decide (a = 0)) as [->|]; [cbn; lia|].
  apply Z.log2_lt_pow2; lia.
Qed.

Lemma lxor_u32 a b : is_u32 a -> is_u32 b -> is_u32 (Z.lxor a b).
Proof.
  intros Ha Hb. pose proof (log2_u32 _ Ha). pose proof (log2_u32 _ Hb).
  destruct Ha, Hb. assert (0 <= Z.lxor a b) by (by apply Z.lxor_nonneg).
  split; [done|]. apply lt_pow2_of_log2; [done|lia|].
  pose proof (Z.log2_lxor a b). lia.
Qed.

Lemma lor_u32 a b : is_u32 a -> is_u32 b -> is_u32 (Z.lor a b).
Proof.
  intros Ha Hb. pose proof (log2_u32 _ Ha). pose proof (log2_u32 _ Hb).
  destruct Ha, Hb. assert (0 <= Z.lor a b) by (by apply Z.lor_nonneg).
  split; [done|]. apply lt_pow2_of_log2; [done|lia|].
  rewrite Z.log2_lor by done. lia.
Qed.

Lemma shiftr_u32 a n : is_u32 a -> 0 <= n -> is_u32 (Z.shiftr a n).
Proof.
  intros [Ha Hb] Hn. rewrite Z.shiftr_div_pow2 by done. split.
  - apply Z.div_pos; lia.
  - apply Z.div_lt_upper_bound; [lia|]. nia.
Qed.

#[export] Hint Resolve lxor_u32 lor_u32 shiftr_u32 : u32_db.

Lemma Rotl_u32 v r : is_u32 v -> 0 <= r <= 32 -> is_u32 (Rotl v r).
Proof. intros. unfold Rotl. case_match; [done|]. auto with u32_db lia. Qed.

Lemma Fmix_u32 v : is_u32 v -> is_u32 (Fmix v).
Proof. intros. unfold Fmix. cbv zeta. auto 10 with u32_db lia. Qed.

Lemma murmur_body_u32 n data result :
  (length data <= n)%nat -> is_u32 result -> is_u32 (murmur_body data result).
Proof.
  revert data result. induction n as [|n IH]; intros data result Hlen Hr.
  { destruct data; [done|]. cbn in Hlen; lia. }
  destruct data as [|b0 [|b1 [|b2 [|b3 rest]]]]; [done|..];
    unfold murmur_body; fold murmur_body.
  1-3: apply lxor_u32; [done|apply u32_bounds].
  apply IH; [cbn in Hlen; lia|apply u32_bounds].
Qed.

(** The accumulator and the result stay 32-bit values on every input. *)
Lemma MurmurHash3_32_u32 data seed : is_u32 seed ->
  is_u32 (murmur_body (bytes_of data) seed) /\ is_u32 (MurmurHash3_32 data seed).
Proof.
  intros Hs. split; [by eapply murmur_body_u32|].
  unfold MurmurHash3_32. apply Fmix_u32, u32_bounds.
Qed.

Lemma MakeHashRingToken_u32 address index seed : is_u32 (MakeHashRingToken address index seed).
Proof. apply MurmurHash3_32_u32. done. Qed.

(** ** Candidate derivation agrees with single-token derivation *)

Lemma candidate_eq address index seed : 0 < seed ->
  MakeHashRingToken address index seed =
  MurmurHash3_32 ((InitializeTokenBuffer address +:+ to_chars index) +:+ TOKEN_SEPARATOR +:+ to_chars seed) 0.
Proof.
  intros. unfold MakeHashRingToken, MakeTokenWithBuffer.
  by rewrite (proj2 (Z.ltb_lt 0 seed)) by done.
Qed.

Lemma MakeHashRingTokenCandidates_eq address index candidateSeeds :
  1 <= candidateSeeds ->
  MakeHashRingTokenCandidates address index candidateSeeds =
  MakeHashRingToken address index <$> seqZ 0 candidateSeeds.
Proof.
  intros Hc. rewrite (seqZ_cons 0 candidateSeeds) by lia. cbn [fmap list_fmap].
  unfold MakeHashRingTokenCandidates. f_equal.
  replace (Z.succ 0) with 1 by lia. replace (Z.pred candidateSeeds) with (candidateSeeds - 1) by lia.
  apply list_fmap_ext. intros i seed [-> ?]%lookup_seqZ. symmetry. apply candidate_eq. lia.
Qed.
