(* ===== verification/BalancedRing.v ===== *)
(** * Balanced ring bookkeeping

    cluster/algorithm/balanced_ring.{h,cpp}.  [ring_] is a [std::map] from token
    to member index, [memberArcs_] a vector of [std::set<ArcRecord, ArcOrder>],
    [memberShares_] a vector of 64-bit sums.  [VerifyShares] recomputes the
    shares and only logs when they differ; the model returns the comparison.

    The main result is that the incremental bookkeeping never drifts: after any
    construction and any sequence of [Insert] / [AdmitNewMember] calls with
    fresh tokens and in-range owners, [VerifyShares] holds. *)

From S2P Require Import Prelude Ordered.

Definition RING_SPACE : Z := 2 ^ 32.

Record PlacementOwner := { po_token : Z; po_memberIndex : nat }.
Record ArcRecord := { arc_length : Z; arc_start : Z }.
#[global] Instance ArcRecord_eq_dec : EqDecision ArcRecord.
Proof. solve_decision. Defined.

(** Largest arc first, ties broken by the smaller start token. *)
Definition ArcOrder (left right : ArcRecord) : bool :=
  if negb (arc_length left =? arc_length right) then arc_length right <? arc_length left
  else arc_start left <? arc_start right.

(** The order of [std::set<ArcRecord, ArcOrder>]; its operations are [os_insert]
    and [os_erase]. *)
#[global, program] Instance ArcRecord_LtKey : LtKey ArcRecord := {| ltk := ArcOrder |}.
Next Obligation. intros [l s]. unfold ArcOrder; cbn. rewrite Z.eqb_refl. cbn. lia. Qed.
Next Obligation.
  intros [l1 s1] [l2 s2] [l3 s3]. unfold ArcOrder; cbn.
  destruct (Z.eqb_spec l1 l2), (Z.eqb_spec l2 l3), (Z.eqb_spec l1 l3); cbn; lia.
Qed.
Next Obligation.
  intros [l1 s1] [l2 s2]. unfold ArcOrder; cbn.
  destruct (Z.eqb_spec l1 l2), (Z.eqb_spec l2 l1); cbn; intros; f_equal; lia.
Qed.

Record BalancedRing := {
  br_ring : list (Z * nat);
  br_memberArcs : list (list ArcRecord);
  br_memberShares : list Z;
  br_memberCount : nat
}.

Definition set_arcs_shares arcs shares (b : BalancedRing) : BalancedRing := {|
  br_ring := br_ring b; br_memberArcs := arcs; br_memberShares := shares;
  br_memberCount := br_memberCount b |}.

Definition AddArc (member : nat) (arc : ArcRecord) (b : BalancedRing) : BalancedRing :=
  set_arcs_shares (alter (os_insert arc) member (br_memberArcs b))
                  (alter (fun s => u64 (s + arc_length arc)) member (br_memberShares b)) b.

(** [static_cast<uint64_t>(t) + (t <= prev ? RING_SPACE : 0)] *)
Definition lin (t prev : Z) : Z := t + (if t <=? prev then RING_SPACE else 0).

(** The arc ending at each token of the iteration, [prev] being the token before
    the first one; [std::prev(ring_.end())] closes the circle. *)
Fixpoint arcs_from (prev : Z) (r : list (Z * nat)) : list (nat * ArcRecord) :=
  match r with
  | [] => []
  | (t, o) :: r' => (o, {| arc_length := lin t prev - prev; arc_start := prev |}) :: arcs_from t r'
  end.
Definition ring_arcs (r : list (Z * nat)) : list (nat * ArcRecord) :=
  match last r with None => [] | Some (p, _) => arcs_from p r end.

Definition BuildArcs (b : BalancedRing) : BalancedRing :=
  foldl (fun b oa => AddArc oa.1 oa.2 b) b (ring_arcs (br_ring b)).

(** The constructor; [occupied] receives every owner token. *)
Definition new_BalancedRing (owners : list PlacementOwner) (occupied : gset Z)
    : BalancedRing * gset Z :=
  let maxMember := foldl (fun m o => Nat.max m (po_memberIndex o)) 0%nat owners in
  let ring := foldl (fun r o => om_emplace (po_token o) (po_memberIndex o) r) [] owners in
  let occupied := foldl (fun s o => {[po_token o]} ∪ s) occupied owners in
  let memberCount := match owners with [] => 0%nat | _ => S maxMember end in
  (BuildArcs {| br_ring := ring; br_memberArcs := replicate (S memberCount) [];
                br_memberShares := replicate (S memberCount) 0;
                br_memberCount := memberCount |}, occupied).

Definition Empty (b : BalancedRing) : bool := match br_ring b with [] => true | _ => false end.

Definition TotalMembers (b : BalancedRing) : nat := S (br_memberCount b).

(** [std::max_element]: the first index of a largest share. *)
Fixpoint max_element_from (i best : nat) (bestShare : Z) (shares : list Z) : nat :=
  match shares with
  | [] => best
  | s :: shares' =>
      if bestShare <? s then max_element_from (S i) i s shares'
      else max_element_from (S i) best bestShare shares'
  end.
Definition HeaviestMember (b : BalancedRing) : nat :=
  match br_memberShares b with
  | [] => 0%nat
  | s :: shares => max_element_from 1 0 s shares
  end.

Definition TakeTarget (member : nat) (idealShare : Z) (b : BalancedRing) : Z :=
  match default [] (br_memberArcs b !! member) with
  | [] => 0
  | largest :: _ =>
      if idealShare <=? arc_length largest then u32 (arc_start largest + u32 idealShare)
      else u32 (arc_start largest + arc_length largest - 1)
  end.

Definition Insert (token : Z) (owner : nat) (b : BalancedRing) : BalancedRing :=
  match br_ring b with
  | [] =>
      AddArc owner {| arc_length := RING_SPACE; arc_start := token |}
        {| br_ring := [(token, owner)]; br_memberArcs := br_memberArcs b;
           br_memberShares := br_memberShares b; br_memberCount := br_memberCount b |}
  | first :: _ =>
      let next := om_upper_bound token (br_ring b) in
      (** [next == begin] iff nothing precedes it. *)
      let before := take (length (br_ring b) - length next) (br_ring b) in
      let prev := match last before with
                  | Some e => e | None => default first (last (br_ring b)) end in
      let prevToken := prev.1 in
      let nextToken := match next with [] => first.1 | n :: _ => n.1 end in
      let nextOwner := default 0%nat (om_find nextToken (br_ring b)) in
      let nextLin := lin nextToken prevToken in
      let tokenLin := lin token prevToken in
      let taken := u64 (tokenLin - prevToken) in
      let arcs := alter (os_erase {| arc_length := u64 (nextLin - prevToken);
                                         arc_start := prevToken |}) nextOwner (br_memberArcs b) in
      let arcs := alter (os_insert {| arc_length := u64 (nextLin - tokenLin);
                                          arc_start := token |}) nextOwner arcs in
      let b1 := AddArc owner {| arc_length := taken; arc_start := prevToken |}
                  (set_arcs_shares arcs (br_memberShares b) b) in
      {| br_ring := om_emplace token owner (br_ring b);
         br_memberArcs := br_memberArcs b1;
         br_memberShares := alter (fun s => u64 (s - taken)) nextOwner (br_memberShares b1);
         br_memberCount := br_memberCount b |}
  end.

Definition AdmitNewMember (b : BalancedRing) : BalancedRing := {|
  br_ring := br_ring b; br_memberArcs := br_memberArcs b ++ [[]];
  br_memberShares := br_memberShares b ++ [0]; br_memberCount := S (br_memberCount b) |}.

(** [true] when the recomputed shares agree with the incremental ones. *)
Definition VerifyShares (b : BalancedRing) : bool :=
  bool_decide (
    foldl (fun shares oa => alter (fun s => u64 (s + arc_length oa.2)) oa.1 shares)
      (replicate (length (br_memberShares b)) 0) (ring_arcs (br_ring b))
    = br_memberShares b).

(** ** Arcs of a ring *)

(** The share a member holds according to a list of owned arcs. *)
Definition share_of (i : nat) (l : list (nat * ArcRecord)) : Z :=
  foldr (fun oa s => (if decide (oa.1 = i) then arc_length oa.2 else 0) + s) 0 l.
Definition total_length (l : list (nat * ArcRecord)) : Z :=
  foldr (fun oa s => arc_length oa.2 + s) 0 l.
Definition last_tok (p : Z) (l : list (Z * nat)) : Z :=
  match last l with Some e => e.1 | None => p end.
Definition ring_u32 (r : list (Z * nat)) : Prop := forall e, e ∈ r -> is_u32 e.1.

Lemma share_of_perm i l l' : l ≡ₚ l' -> share_of i l = share_of i l'.
Proof. unfold share_of. induction 1; simpl in *; lia. Qed.

Lemma total_length_perm l l' : l ≡ₚ l' -> total_length l = total_length l'.
Proof. unfold total_length. induction 1; simpl in *; lia. Qed.

Lemma share_of_app i l l' : share_of i (l ++ l') = share_of i l + share_of i l'.
Proof. unfold share_of. induction l; simpl in *; lia. Qed.

Lemma total_length_app l l' : total_length (l ++ l') = total_length l + total_length l'.
Proof. unfold total_length. induction l; simpl in *; lia. Qed.

Lemma last_tok_cons p e l : last_tok p (e :: l) = last_tok e.1 l.
Proof. unfold last_tok. rewrite last_cons. by destruct (last l). Qed.

Lemma arcs_from_app p l r : arcs_from p (l ++ r) = arcs_from p l ++ arcs_from (last_tok p l) r.
Proof.
  revert p. induction l as [|[t o] l IH]; intros p; [done|].
  cbn [arcs_from app]. by rewrite IH, last_tok_cons.
Qed.

Lemma ring_arcs_unfold r e : last r = Some e -> ring_arcs r = arcs_from e.1 r.
Proof. unfold ring_arcs. intros ->. by destruct e. Qed.

Lemma sorted_app_lt (l r : list (Z * nat)) a b :
  om_sorted (l ++ r) -> a ∈ l -> b ∈ r -> a.1 < b.1.
Proof.
  induction l as [|c l IH]; cbn; [by intros _ ?%not_elem_of_nil|].
  intros [Hs Hall]%om_sorted_cons [->|Ha]%elem_of_cons Hb; [|auto].
  specialize (Hall b). rewrite elem_of_app in Hall. specialize (Hall (or_intror Hb)).
  by apply Z.ltb_lt in Hall.
Qed.

Lemma last_elem {A} (l : list A) x : last l = Some x -> x ∈ l.
Proof. intros [l' ->]%last_Some. rewrite elem_of_app. right. left. Qed.

Lemma sorted_last_ge (r : list (Z * nat)) a e :
  om_sorted r -> last r = Some e -> a ∈ r -> a.1 <= e.1.
Proof.
  intros Hs [l ->]%last_Some Ha. apply elem_of_app in Ha as [Ha|Ha].
  - assert (a.1 < e.1); [|lia]. eapply sorted_app_lt; [done..|]. left.
  - apply list_elem_of_singleton in Ha as ->. lia.
Qed.

Lemma lin_gt t p : p < t -> lin t p = t.
Proof. intros. unfold lin. rewrite (proj2 (Z.leb_gt t p)) by done. lia. Qed.

Lemma lin_le t p : t <= p -> lin t p = t + RING_SPACE.
Proof. intros. unfold lin. by rewrite (proj2 (Z.leb_le t p)). Qed.

(** Splitting the arc that ends at the next token is all an insertion does. *)
Lemma ring_arcs_insert l r t o n p :
  om_sorted (l ++ r) ->
  (forall e, e ∈ l -> e.1 < t) -> (forall e, e ∈ r -> t < e.1) ->
  head (r ++ l) = Some n -> fst <$> last (r ++ l) = Some p ->
  lin n.1 t - t = lin n.1 p - lin t p /\
  exists rest,
    ring_arcs (l ++ r) ≡ₚ (n.2, {| arc_length := lin n.1 p - p; arc_start := p |}) :: rest /\
    ring_arcs (l ++ (t, o) :: r) ≡ₚ
      (o, {| arc_length := lin t p - p; arc_start := p |}) ::
      (n.2, {| arc_length := lin n.1 t - t; arc_start := t |}) :: rest.
Proof.
  intros Hs Hl Hr Hn Hp. destruct r as [|n' r].
  - (* the new token is the largest *)
    destruct l as [|n' l]; [done|]. cbn in Hn. simplify_eq. cbn [app] in Hp.
    destruct (last (n :: l)) as [e|] eqn:He; [|done]. cbn in Hp. simplify_eq.
    assert (Hep : e.1 < t) by (by apply Hl, last_elem).
    assert (Hne : n.1 <= e.1).
    { rewrite app_nil_r in Hs. eapply sorted_last_ge; [done..|left]. }
    rewrite app_nil_r. split; [rewrite !lin_le, lin_gt by lia; lia|].
    exists (arcs_from n.1 l). rewrite (ring_arcs_unfold _ e) by done.
    rewrite (ring_arcs_unfold _ (t, o)) by (by rewrite last_snoc).
    destruct n as [nt no]. cbn [arcs_from app fst snd]. split; [done|].
    rewrite arcs_from_app. cbn [arcs_from].
    replace (last_tok nt l) with e.1 by (rewrite last_cons in He; unfold last_tok; destruct (last l); naive_solver).
    rewrite Permutation_app_comm. cbn. apply perm_swap.
  - cbn in Hn. simplify_eq.
    assert (exists q, last (n :: r) = Some q) as [q Hq] by (rewrite last_cons; destruct (last r); eauto).
    assert (Hpl : p = last_tok q.1 l).
    { rewrite last_app in Hp. unfold last_tok. destruct (last l); cbn in Hp; [naive_solver|].
      rewrite Hq in Hp. naive_solver. }
    assert (Htn : t < n.1) by (apply Hr; left).
    assert (Hnq : n.1 <= q.1).
    { eapply (sorted_last_ge (l ++ n :: r)); [done| |set_solver]. by rewrite last_app, Hq. }
    split.
    { rewrite (lin_gt n.1 t) by done. unfold last_tok in Hpl. destruct (last l) as [e|] eqn:He.
      - assert (e.1 < t) by (by apply Hl, last_elem). rewrite !lin_gt by lia. lia.
      - rewrite !lin_le by lia. lia. }
    exists (arcs_from q.1 l ++ arcs_from n.1 r).
    rewrite (ring_arcs_unfold _ q) by (by rewrite last_app, Hq).
    rewrite (ring_arcs_unfold _ q) by (by rewrite last_app, last_cons, Hq).
    rewrite !arcs_from_app. destruct n as [nt no]. cbn [arcs_from fst snd]. rewrite <-Hpl. split.
    + by rewrite Permutation_middle.
    + by rewrite <-!Permutation_middle.
Qed.

Lemma arcs_from_total p r e :
  om_sorted r -> last r = Some e -> (forall x, x ∈ r -> p < x.1) -> total_length (arcs_from p r) = e.1 - p.
Proof.
  revert p. induction r as [|[t o] r IH]; intros p Hs He Hp; [done|].
  cbn [arcs_from total_length foldr]. fold (total_length (arcs_from t r)).
  assert (p < t) by (apply (Hp (t, o)); left). cbn [arc_length snd]. rewrite lin_gt by done.
  rewrite last_cons in He. destruct (last r) as [e'|] eqn:Er.
  - injection He as ->. apply om_sorted_cons in Hs as [Hs Hall]. rewrite (IH t); [lia|done|done|].
    intros x Hx. by apply Z.ltb_lt, Hall.
  - injection He as <-. apply last_None in Er as ->. cbn. lia.
Qed.

(** The arcs of a non-empty ring tile the whole token space. *)
Lemma ring_arcs_total r : om_sorted r -> r <> [] -> total_length (ring_arcs r) = RING_SPACE.
Proof.
  intros Hs Hne. destruct (last r) as [e|] eqn:He; [|by apply last_None in He].
  rewrite (ring_arcs_unfold _ e) by done. destruct r as [|[t o] r]; [done|].
  cbn [arcs_from total_length foldr snd arc_length]. fold (total_length (arcs_from t r)).
  assert (t <= e.1) by (eapply (sorted_last_ge ((t, o) :: r) (t, o)); [done..|left]).
  rewrite lin_le by done. apply om_sorted_cons in Hs as [Hs Hall].
  rewrite last_cons in He. destruct (last r) as [e'|] eqn:Er.
  - injection He as ->. rewrite (arcs_from_total t r e); [lia|done|done|].
    intros x Hx. by apply Z.ltb_lt, Hall.
  - injection He as <-. apply last_None in Er as ->. cbn. lia.
Qed.

Lemma arcs_from_starts p r : (fun oa => arc_start oa.2) <$> arcs_from p r = take (length r) (p :: (fst <$> r)).
Proof.
  revert p. induction r as [|[t o] r IH]; intros p; [done|]. cbn. f_equal. apply IH.
Qed.

Lemma arcs_from_pos p r oa :
  is_u32 p -> ring_u32 r -> oa ∈ arcs_from p r -> 0 < arc_length oa.2 <= RING_SPACE.
Proof.
  revert p. induction r as [|[t o] r IH]; intros p Hp Hr; cbn; [by intros ?%not_elem_of_nil|].
  assert (Ht : is_u32 t) by (apply (Hr (t, o)); left).
  intros [->|Hin]%elem_of_cons.
  - cbn. unfold is_u32, RING_SPACE in *. destruct (decide (p < t)).
    + rewrite lin_gt by done. lia.
    + rewrite lin_le by lia. unfold RING_SPACE. lia.
  - eapply IH; [done| |done]. intros e ?. apply Hr. by right.
Qed.

Lemma ring_arcs_pos r oa : ring_u32 r -> oa ∈ ring_arcs r -> 0 < arc_length oa.2 <= RING_SPACE.
Proof.
  unfold ring_arcs. intros Hr. destruct (last r) as [[p o]|] eqn:He; [|by intros ?%not_elem_of_nil].
  apply arcs_from_pos; [|done]. by apply last_elem, Hr in He.
Qed.

Lemma share_of_bounds i l :
  (forall oa, oa ∈ l -> 0 < arc_length oa.2) -> 0 <= share_of i l <= total_length l.
Proof.
  induction l as [|oa l IH]; cbn; intros Hpos; [lia|].
  assert (0 < arc_length oa.2) by (apply Hpos; left).
  specialize (IH ltac:(intros; apply Hpos; by right)). unfold share_of, total_length in IH.
  case_decide; lia.
Qed.

(** ** The bookkeeping invariant *)

(** [memberArcs_] and [memberShares_] describe exactly the arcs of [L]. *)
Record arcs_inv (b : BalancedRing) (L : list (nat * ArcRecord)) : Prop := {
  ai_arcs_len : length (br_memberArcs b) = S (br_memberCount b);
  ai_shares_len : length (br_memberShares b) = S (br_memberCount b);
  ai_share : forall i s, br_memberShares b !! i = Some s -> s = share_of i L;
  ai_arcs : forall i s, br_memberArcs b !! i = Some s ->
            os_sorted s /\ forall a, a ∈ s <-> (i, a) ∈ L
}.

Record ring_inv (b : BalancedRing) : Prop := {
  ri_sorted : om_sorted (br_ring b);
  ri_u32 : ring_u32 (br_ring b);
  ri_owner : forall e, e ∈ br_ring b -> (e.2 < S (br_memberCount b))%nat;
  ri_arcs : arcs_inv b (ring_arcs (br_ring b))
}.

Lemma arcs_inv_perm b L L' : L ≡ₚ L' -> arcs_inv b L -> arcs_inv b L'.
Proof.
  intros Hp [H1 H2 H3 H4]. split; [done..| |].
  - intros i s ?. erewrite <-share_of_perm; eauto.
  - intros i s ?. setoid_rewrite <-Hp. eauto.
Qed.

Lemma AddArc_inv b L o a :
  arcs_inv b L -> 0 < arc_length a ->
  (forall oa, oa ∈ L -> 0 < arc_length oa.2) -> total_length L + arc_length a <= 2 ^ 40 ->
  arcs_inv (AddArc o a b) ((o, a) :: L).
Proof.
  intros [H1 H2 H3 H4] Ha Hpos Htot. split; cbn [AddArc set_arcs_shares br_memberArcs br_memberShares br_memberCount].
  - by rewrite length_alter.
  - by rewrite length_alter.
  - intros i s. rewrite list_lookup_alter. cbn. case_decide; subst; [|intros ->%H3; done].
    destruct (br_memberShares b !! i) as [s'|] eqn:E; [|done]. intros [= <-].
    apply H3 in E as ->. pose proof (share_of_bounds i L Hpos). rewrite u64_small; [|lia].
    unfold share_of. lia.
  - intros i s. rewrite list_lookup_alter. case_decide; subst.
    + destruct (br_memberArcs b !! i) as [s'|] eqn:E; [|done]. intros [= <-].
      apply H4 in E as [Hs Hin]. split; [by apply os_insert_sorted|].
      intros a'. rewrite elem_of_os_insert, Hin, elem_of_cons. naive_solver.
    + intros [Hs Hin]%H4. split; [done|]. intros a'. rewrite Hin, elem_of_cons. naive_solver.
Qed.

Lemma fold_AddArc_inv l b L :
  arcs_inv b L -> (forall oa, oa ∈ L ++ l -> 0 < arc_length oa.2) ->
  total_length (L ++ l) <= 2 ^ 40 ->
  arcs_inv (foldl (fun b oa => AddArc oa.1 oa.2 b) b l) (L ++ l).
Proof.
  revert b L. induction l as [|[o a] l IH]; intros b L Hinv Hpos Htot; cbn [foldl].
  { by rewrite app_nil_r. }
  rewrite total_length_app in Htot. cbn in Htot.
  assert (0 <= total_length l).
  { opose proof* (share_of_bounds 0 l); [|lia]. intros. apply Hpos. set_solver. }
  eapply (arcs_inv_perm _ (((o, a) :: L) ++ l)); [by rewrite <-Permutation_middle|].
  apply IH.
  - apply AddArc_inv; [done| | |].
    + apply (Hpos (o, a)). set_solver.
    + intros. apply Hpos. set_solver.
    + unfold total_length in *. cbn. lia.
  - intros oa Hoa. apply Hpos. set_solver.
  - rewrite total_length_app. cbn. unfold total_length in *. lia.
Qed.

Lemma om_sorted_NoDup {K V} `{LtKey K, EqDecision K} (m : list (K * V)) :
  om_sorted m -> NoDup m.*1.
Proof.
  induction m as [|[k v] m IH]; [constructor|]. intros [Hs Hall]%om_sorted_cons.
  cbn. constructor; [|auto]. intros ([k' v'] & -> & Hin)%list_elem_of_fmap.
  apply Hall in Hin. cbn in Hin. by rewrite ltk_irrefl in Hin.
Qed.

Lemma ring_arcs_starts r : om_sorted r -> NoDup ((fun oa => arc_start oa.2) <$> ring_arcs r).
Proof.
  intros Hs%om_sorted_NoDup. unfold ring_arcs.
  destruct (last r) as [[p o]|] eqn:He; [|constructor].
  rewrite arcs_from_starts. apply last_Some in He as [l ->].
  rewrite fmap_app in *. rewrite length_app. cbn.
  replace (length l + 1)%nat with (S (length (l.*1))) by (rewrite length_fmap; lia).
  cbn. rewrite take_app_length. cbn in Hs.
  by rewrite <-Permutation_cons_append in Hs.
Qed.

Lemma ring_inv_arcs_pos b : ring_inv b -> forall oa, oa ∈ ring_arcs (br_ring b) -> 0 < arc_length oa.2.
Proof. intros Hb oa Hin. pose proof (ring_arcs_pos _ _ (ri_u32 _ Hb) Hin). lia. Qed.

Lemma ring_arcs_total_le r : om_sorted r -> total_length (ring_arcs r) <= RING_SPACE.
Proof.
  intros Hs. destruct r as [|e r]; [done|]. rewrite ring_arcs_total; [lia|done|done].
Qed.

(** The neighbours [Insert] computes, and the record it builds from them. *)
Lemma Insert_unfold t o b :
  om_sorted (br_ring b) -> br_ring b <> [] -> om_find t (br_ring b) = None ->
  exists l r n p,
    br_ring b = l ++ r /\ (forall e, e ∈ l -> e.1 < t) /\ (forall e, e ∈ r -> t < e.1) /\
    head (r ++ l) = Some n /\ fst <$> last (r ++ l) = Some p /\
    Insert t o b =
      let taken := u64 (lin t p - p) in
      let arcs := alter (os_insert {| arc_length := u64 (lin n.1 p - lin t p); arc_start := t |}) n.2
                    (alter (os_erase {| arc_length := u64 (lin n.1 p - p); arc_start := p |}) n.2
                       (br_memberArcs b)) in
      {| br_ring := l ++ (t, o) :: r;
         br_memberArcs := alter (os_insert {| arc_length := taken; arc_start := p |}) o arcs;
         br_memberShares := alter (fun s => u64 (s - taken)) n.2
                              (alter (fun s => u64 (s + taken)) o (br_memberShares b));
         br_memberCount := br_memberCount b |}.
Proof.
  intros Hs Hne Hf. destruct (om_split _ t Hs Hf) as (l & r & Hr & Hl1 & Hr1).
  assert (Hl : forall e, e ∈ l -> e.1 < t) by (intros e He; by apply Z.ltb_lt, Hl1).
  assert (Hr2 : forall e, e ∈ r -> t < e.1) by (intros e He; by apply Z.ltb_lt, Hr1).
  destruct (head (r ++ l)) as [n|] eqn:Hn; [|destruct r, l; done].
  destruct (last (r ++ l)) as [p|] eqn:Hp; [|by apply last_None in Hp; destruct r, l].
  exists l, r, n, p.1. do 4 (split; [done|]). split; [by rewrite Hp|].
  assert (Hup : om_upper_bound t (br_ring b) = r) by (rewrite Hr; by apply om_upper_bound_split).
  assert (Htk : take (length (br_ring b) - length r) (br_ring b) = l).
  { rewrite Hr, length_app. replace (length l + length r - length r)%nat with (length l) by lia.
    apply take_app_length. }
  assert (Hno : default 0%nat (om_find n.1 (br_ring b)) = n.2).
  { erewrite (proj2 (om_find_elem n.1 n.2 _ Hs)); [done|]. rewrite Hr.
    destruct n. destruct r; cbn in Hn; [destruct l; naive_solver set_solver|].
    simplify_eq. set_solver. }
  unfold Insert. destruct (br_ring b) as [|first tl] eqn:Hring; [done|].
  rewrite Hup, Htk. unfold om_emplace. rewrite Hf.
  assert (Hprev : match last l with Some e => e | None => default first (last (first :: tl)) end = p).
  { rewrite Hr. rewrite !last_app in *. destruct (last l) eqn:El; [naive_solver|]. by rewrite Hp. }
  assert (Hnext : match r with [] => first.1 | m :: _ => m.1 end = n.1).
  { destruct r; cbn in Hn; [|naive_solver]. rewrite app_nil_r in Hr. subst l. cbn in Hn. naive_solver. }
  rewrite Hprev, Hnext, Hno. cbn [AddArc set_arcs_shares br_ring br_memberArcs br_memberShares br_memberCount arc_length].
  rewrite Hr, om_insert_split; [done| |]; [intros e He; apply Z.ltb_lt; auto..].
Qed.

Lemma om_sorted_insert_mid (l r : list (Z * nat)) t o :
  om_sorted (l ++ r) -> (forall e, e ∈ l -> e.1 < t) -> (forall e, e ∈ r -> t < e.1) ->
  om_sorted (l ++ (t, o) :: r).
Proof.
  intros Hs Hl Hr. rewrite <-om_insert_split.
  - by apply om_insert_sorted.
  - intros e He. by apply Z.ltb_lt, Hl.
  - intros e He. by apply Z.ltb_lt, Hr.
Qed.

(** The arc sets after replacing [old] by [a2] at [no] and adding [a1] at [o]. *)
Lemma replace_arcs_inv b rest no o old a1 a2 :
  arcs_inv b ((no, old) :: rest) ->
  NoDup ((fun oa => arc_start oa.2) <$> ((no, old) :: rest)) ->
  forall i s,
    alter (os_insert a1) o (alter (os_insert a2) no (alter (os_erase old) no (br_memberArcs b))) !! i = Some s ->
    os_sorted s /\ forall a, a ∈ s <-> (i, a) ∈ (o, a1) :: (no, a2) :: rest.
Proof.
  intros Hinv Hnd i s Hi. apply NoDup_cons in Hnd as [Hnd _].
  assert (Hold : forall j a, (j, a) ∈ rest -> a <> old).
  { intros j a Hin ->. apply Hnd, list_elem_of_fmap. by exists (j, old). }
  rewrite !lookup_alter_if in Hi. destruct (br_memberArcs b !! i) as [s0|] eqn:E0; [|done].
  cbn [fmap option_fmap option_map] in Hi. injection Hi as <-.
  destruct (ai_arcs _ _ Hinv _ _ E0) as [Hs Hin].
  assert (Hstep1 : forall a, a ∈ (if decide (no = i) then os_insert a2 (if decide (no = i) then os_erase old s0 else s0)
              else (if decide (no = i) then os_erase old s0 else s0)) <-> (i, a) ∈ (no, a2) :: rest).
  { intros a. rewrite elem_of_cons. case_decide; subst.
    - rewrite elem_of_os_insert, elem_of_os_erase, Hin, elem_of_cons by done.
      naive_solver.
    - rewrite Hin, elem_of_cons. naive_solver. }
  assert (Hs1 : os_sorted (if decide (no = i) then os_insert a2 (if decide (no = i) then os_erase old s0 else s0)
              else (if decide (no = i) then os_erase old s0 else s0))).
  { case_decide; [by apply os_insert_sorted, os_erase_sorted|done]. }
  destruct (decide (o = i)).
  - split; [by apply os_insert_sorted|]. intros a. rewrite elem_of_os_insert, Hstep1, !elem_of_cons.
    naive_solver.
  - split; [done|]. intros a. rewrite Hstep1, !elem_of_cons. naive_solver.
Qed.

Lemma Insert_inv t o b :
  ring_inv b -> is_u32 t -> om_find t (br_ring b) = None -> (o < S (br_memberCount b))%nat ->
  br_ring b <> [] -> ring_inv (Insert t o b).
Proof.
  intros Hb Ht Hf Ho Hne. pose proof Hb as [Hs Hu Hown Harcs].
  destruct (Insert_unfold t o b Hs Hne Hf) as (l & r & n & p & Hring & Hl & Hr & Hn & Hp & ->).
  rewrite Hring in *. pose proof (om_sorted_insert_mid l r t o Hs Hl Hr) as Hs'.
  assert (Hu' : ring_u32 (l ++ (t, o) :: r)).
  { intros e [He|[->|He]%elem_of_cons]%elem_of_app; [apply Hu; set_solver|done|apply Hu; set_solver]. }
  destruct (ring_arcs_insert l r t o n p Hs Hl Hr Hn Hp) as (Hlin & rest & Hold & Hnew).
  pose proof (fun oa H => ring_arcs_pos _ oa Hu H) as Hpos0.
  pose proof (fun oa H => ring_arcs_pos _ oa Hu' H) as Hpos1.
  setoid_rewrite Hold in Hpos0. setoid_rewrite Hnew in Hpos1.
  pose proof (Hpos0 _ (list_elem_of_here _ _)) as H0. cbn in H0.
  pose proof (Hpos1 _ (list_elem_of_here _ _)) as H1. cbn in H1.
  pose proof (Hpos1 _ (list_elem_of_further _ _ _ (list_elem_of_here _ _))) as H2. cbn in H2.
  rewrite Hlin in H2. unfold RING_SPACE in *.
  cbv zeta. rewrite !u64_small by lia.
  apply (arcs_inv_perm _ _ _ Hold) in Harcs as Hinv.
  split; cbn [br_ring br_memberCount]; [done|done| |].
  { intros e [He|[->|He]%elem_of_cons]%elem_of_app; [apply Hown; set_solver|done|apply Hown; set_solver]. }
  eapply arcs_inv_perm; [symmetry; exact Hnew|]. rewrite Hlin.
  split; cbn [br_memberArcs br_memberShares br_memberCount]; rewrite ?length_alter; [apply Hinv|apply Hinv| |].
  - intros i s. rewrite !lookup_alter_if. destruct (br_memberShares b !! i) as [s0|] eqn:E; [|done].
    cbn [fmap option_fmap option_map]. intros [= <-]. apply (ai_share _ _ Hinv) in E as ->.
    assert (Hrest : forall oa, oa ∈ rest -> 0 < arc_length oa.2).
    { intros oa Hoa. by destruct (Hpos0 oa (list_elem_of_further _ _ _ Hoa)). }
    pose proof (share_of_bounds i rest Hrest) as Hb1.
    pose proof (ring_arcs_total_le _ Hs) as Htot. rewrite (total_length_perm _ _ Hold) in Htot.
    cbn in Htot. fold (total_length rest) in Htot. unfold RING_SPACE in Htot.
    cbn [share_of foldr fst snd arc_length]. fold (share_of i rest).
    repeat case_decide; rewrite ?(u64_small (_ + _)) by lia; rewrite ?u64_small by lia; lia.
  - eapply replace_arcs_inv; [exact Hinv|]. rewrite <-Hold. by apply ring_arcs_starts.
Qed.

Lemma Insert_empty_inv t o b :
  ring_inv b -> is_u32 t -> (o < S (br_memberCount b))%nat -> br_ring b = [] ->
  ring_inv (Insert t o b).
Proof.
  intros Hb Ht Ho He. destruct Hb as [Hs Hu Hown Harcs]. unfold Insert. rewrite He in *.
  split; cbn [AddArc set_arcs_shares br_ring br_memberCount].
  - repeat constructor.
  - intros e ->%list_elem_of_singleton. done.
  - intros e ->%list_elem_of_singleton. done.
  - replace (ring_arcs [(t, o)]) with [(o, {| arc_length := RING_SPACE; arc_start := t |})].
    + apply AddArc_inv; [|cbn; unfold RING_SPACE; lia|no_elem|cbn; unfold RING_SPACE; lia].
      destruct Harcs as [A1 A2 A3 A4]. by split.
    + cbn. rewrite lin_le by lia. unfold RING_SPACE. do 3 f_equal. lia.
Qed.

Lemma ring_arcs_owner r n oa :
  (forall e, e ∈ r -> (e.2 < n)%nat) -> oa ∈ ring_arcs r -> (oa.1 < n)%nat.
Proof.
  intros Hr. unfold ring_arcs. destruct (last r) as [[p o]|]; [|by intros ?%not_elem_of_nil].
  generalize p. clear p o. induction r as [|[t o] r IH]; cbn; intros p; [by intros ?%not_elem_of_nil|].
  intros [->|Hin]%elem_of_cons; [apply (Hr (t, o)); left|]. eapply IH; [|done].
  intros e ?. apply Hr. by right.
Qed.

Lemma AdmitNewMember_inv b : ring_inv b -> ring_inv (AdmitNewMember b).
Proof.
  intros [Hs Hu Hown [H1 H2 H3 H4]].
  assert (Hfresh : forall oa, oa ∈ ring_arcs (br_ring b) -> (oa.1 < S (br_memberCount b))%nat).
  { intros oa. by apply ring_arcs_owner. }
  split; cbn [AdmitNewMember br_ring br_memberCount]; [done..| |].
  { intros e He. specialize (Hown e He). lia. }
  split; cbn [AdmitNewMember br_memberArcs br_memberShares br_memberCount]; rewrite ?length_app; cbn [length]; [lia|lia| |].
  - intros i s [Hi|[Hi Hs1]]%lookup_app_Some; [by apply H3|].
    destruct (i - length (br_memberShares b))%nat eqn:E; [|done]. cbn in Hs1. simplify_eq.
    symmetry. assert (i = S (br_memberCount b)) as -> by lia. clear -Hfresh.
    induction (ring_arcs (br_ring b)) as [|oa L IH]; [done|]. unfold share_of in *. cbn.
    rewrite decide_False by (specialize (Hfresh oa ltac:(left)); lia).
    rewrite IH; [done|]. intros. apply Hfresh. by right.
  - intros i s [Hi|[Hi Hs1]]%lookup_app_Some; [by apply H4|].
    destruct (i - length (br_memberArcs b))%nat eqn:E; [|done]. cbn in Hs1. simplify_eq.
    split; [constructor|]. intros a. split; [by intros ?%not_elem_of_nil|].
    intros Hin%Hfresh. cbn in Hin. lia.
Qed.

Lemma ring_inv_VerifyShares b : ring_inv b -> VerifyShares b = true.
Proof.
  intros Hb. unfold VerifyShares. apply bool_decide_eq_true_2.
  pose proof Hb as [Hs Hu Hown Harcs].
  pose (b0 := {| br_ring := br_ring b; br_memberArcs := replicate (S (br_memberCount b)) [];
                 br_memberShares := replicate (length (br_memberShares b)) 0;
                 br_memberCount := br_memberCount b |}).
  assert (H0 : arcs_inv b0 []).
  { split; cbn; rewrite ?length_replicate; [done|apply Harcs| |].
    - by intros i s [-> _]%lookup_replicate.
    - intros i s Hi. change ([] :: replicate (br_memberCount b) []) with
        (replicate (S (br_memberCount b)) ([] : list ArcRecord)) in Hi.
      apply lookup_replicate in Hi as [-> _]. split; [constructor|set_solver]. }
  pose proof (fold_AddArc_inv (ring_arcs (br_ring b)) b0 [] H0 (ring_inv_arcs_pos b Hb)) as Hf.
  pose proof (ring_arcs_total_le _ Hs) as Htot.
  specialize (Hf ltac:(unfold RING_SPACE in Htot; cbn [app]; lia)). cbn [app] in Hf.
  assert (Heq : forall l b1, br_memberShares (foldl (fun b oa => AddArc oa.1 oa.2 b) b1 l) =
     foldl (fun shares oa => alter (fun s => u64 (s + arc_length oa.2)) oa.1 shares) (br_memberShares b1) l).
  { induction l as [|oa l IH]; intros b1; cbn; [done|]. by rewrite IH. }
  change (replicate (length (br_memberShares b)) 0) with (br_memberShares b0).
  rewrite <-Heq. apply list_eq_same_length with (n := S (br_memberCount b)).
  - apply Harcs.
  - rewrite (ai_shares_len _ _ Hf).
    assert (Hc : forall l b1, br_memberCount (foldl (fun b oa => AddArc oa.1 oa.2 b) b1 l) = br_memberCount b1).
    { induction l as [|oa l IH]; intros b1; cbn; [done|]. by rewrite IH. }
    by rewrite Hc.
  - intros i x y _ Hx Hy. apply (ai_share _ _ Hf) in Hx as ->. by apply (ai_share _ _ Harcs) in Hy as ->.
Qed.

(** ** Construction *)

Lemma fold_max_ge owners m o :
  o ∈ owners -> (po_memberIndex o <= foldl (fun m o => Nat.max m (po_memberIndex o)) m owners)%nat.
Proof.
  assert (Hmono : forall owners m, (m <= foldl (fun m o => Nat.max m (po_memberIndex o)) m owners)%nat).
  { intros l. induction l as [|o' l IH]; intros m'; simpl; [lia|]. etrans; [|apply IH]. lia. }
  revert m. induction owners as [|o' owners IH]; intros m; [by intros ?%not_elem_of_nil|].
  intros [->|Hin]%elem_of_cons; simpl; [|by apply IH]. etrans; [|apply Hmono]. lia.
Qed.

Lemma fold_emplace_ring owners r :
  om_sorted r ->
  let r' := foldl (fun r o => om_emplace (po_token o) (po_memberIndex o) r) r owners in
  om_sorted r' /\
  (forall e, e ∈ r' -> e ∈ r \/ exists o, o ∈ owners /\ e = (po_token o, po_memberIndex o)) /\
  (forall o, o ∈ owners -> is_Some (om_find (po_token o) r')) /\
  (forall t, is_Some (om_find t r) -> is_Some (om_find t r')).
Proof.
  revert r. induction owners as [|o owners IH]; intros r Hs; cbn.
  { repeat split; [done|by left|no_elem|done]. }
  destruct (IH (om_emplace (po_token o) (po_memberIndex o) r)) as (H1 & H2 & H3 & H4).
  { by apply om_emplace_sorted. }
  assert (Hkeep : forall t, is_Some (om_find t r) ->
     is_Some (om_find t (om_emplace (po_token o) (po_memberIndex o) r))).
  { intros t Ht. rewrite om_find_emplace. by case_decide. }
  split; [done|]. split; [|split].
  - intros e He. apply H2 in He as [He|(o' & Ho' & ->)]; [|right; exists o'; set_solver].
    unfold om_emplace in He. destruct (om_find (po_token o) r) eqn:E; [by left|].
    apply om_insert_elem in He as [->|[? _]]; [right; exists o; set_solver|by left|done].
  - intros o' [->|Ho']%elem_of_cons; [|by apply H3]. apply H4. rewrite om_find_emplace.
    destruct (om_find (po_token o) r) eqn:E; case_decide; naive_solver.
  - intros t Ht. by apply H4, Hkeep.
Qed.

Lemma new_BalancedRing_occupied owners occupied :
  (new_BalancedRing owners occupied).2 = list_to_set (po_token <$> owners) ∪ occupied.
Proof.
  cbn. revert occupied. induction owners as [|o owners IH]; intros occ; cbn; [set_solver|].
  rewrite IH. set_solver.
Qed.

Lemma BuildArcs_ring b : br_ring (BuildArcs b) = br_ring b /\ br_memberCount (BuildArcs b) = br_memberCount b.
Proof.
  unfold BuildArcs. generalize (ring_arcs (br_ring b)) as l. intros l. revert b.
  induction l as [|oa l IH]; intros b; cbn; [done|]. apply (IH (AddArc oa.1 oa.2 b)).
Qed.

Lemma new_BalancedRing_ring owners occupied :
  br_ring (new_BalancedRing owners occupied).1 =
  foldl (fun r o => om_emplace (po_token o) (po_memberIndex o) r) [] owners.
Proof. unfold new_BalancedRing. cbn [fst]. by rewrite (proj1 (BuildArcs_ring _)). Qed.

Lemma new_BalancedRing_inv owners occupied :
  (forall o, o ∈ owners -> is_u32 (po_token o)) -> ring_inv (new_BalancedRing owners occupied).1.
Proof.
  intros Hu. unfold new_BalancedRing. cbn [fst].
  set (ring := foldl _ [] owners). set (n := match owners with [] => _ | _ => _ end).
  set (b0 := {| br_ring := ring |}). destruct (BuildArcs_ring b0) as [Er Ec].
  destruct (fold_emplace_ring owners []) as (Hs & Hin & _ & _); [constructor|].
  fold ring in Hs, Hin.
  assert (Hel : forall e, e ∈ ring -> is_u32 e.1 /\ (e.2 < S n)%nat).
  { intros e [?%not_elem_of_nil|(o & Ho & ->)]%Hin; [done|]. cbn. split; [by apply Hu|].
    pose proof (fold_max_ge owners 0 o Ho). subst n. destruct owners; [by apply not_elem_of_nil in Ho|].
    cbn [length] in *. lia. }
  split; rewrite ?Er, ?Ec; [done|by intros e He; apply Hel|by intros e He; apply Hel|].
  change (arcs_inv (foldl (fun b oa => AddArc oa.1 oa.2 b) b0 (ring_arcs ring)) ([] ++ ring_arcs ring)).
  apply fold_AddArc_inv.
  - split; cbn [b0 br_memberArcs br_memberShares br_memberCount]; rewrite ?length_replicate; [done..| |].
    + by intros i s [-> _]%lookup_replicate.
    + intros i s [-> _]%lookup_replicate. split; [constructor|set_solver].
  - intros oa Hoa. cbn in Hoa. eapply ring_arcs_pos in Hoa; [lia|]. intros e He. by apply Hel.
  - cbn [app]. pose proof (ring_arcs_total_le _ Hs). unfold RING_SPACE in *. lia.
Qed.

(** ** Reachable rings *)

(** The rings the placement code can build: construction from 32-bit tokens,
    insertion of a token not yet on the ring for an existing member slot, and
    admission of the next member. *)
Inductive ring_reachable : BalancedRing -> Prop :=
  | rr_new owners occupied :
      (forall o, o ∈ owners -> is_u32 (po_token o)) ->
      ring_reachable (new_BalancedRing owners occupied).1
  | rr_insert b t o :
      ring_reachable b -> is_u32 t -> om_find t (br_ring b) = None ->
      (o < TotalMembers b)%nat -> ring_reachable (Insert t o b)
  | rr_admit b : ring_reachable b -> ring_reachable (AdmitNewMember b).

Lemma Insert_inv_all t o b :
  ring_inv b -> is_u32 t -> om_find t (br_ring b) = None -> (o < TotalMembers b)%nat ->
  ring_inv (Insert t o b).
Proof.
  intros. destruct (decide (br_ring b = [])); [by apply Insert_empty_inv|by apply Insert_inv].
Qed.

Lemma ring_reachable_inv b : ring_reachable b -> ring_inv b.
Proof.
  induction 1; [by apply new_BalancedRing_inv|by apply Insert_inv_all|by apply AdmitNewMember_inv].
Qed.

Lemma sum_indicator (n o : nat) x :
  foldr Z.add 0 ((fun i => if decide (o = i) then x else 0) <$> seq 0 n) =
  if decide (o < n)%nat then x else 0.
Proof.
  assert (Hgen : forall k, foldr Z.add 0 ((fun i => if decide (o = i) then x else 0) <$> seq k n) =
    if decide (k <= o < k + n)%nat then x else 0).
  { induction n as [|n IH]; intros k; cbn [seq fmap list_fmap foldr].
    - rewrite decide_False by lia. done.
    - rewrite IH. repeat case_decide; lia. }
  rewrite Hgen. repeat case_decide; lia.
Qed.

Lemma sum_share_of n L :
  (forall oa, oa ∈ L -> (oa.1 < n)%nat) ->
  foldr Z.add 0 ((fun i => share_of i L) <$> seq 0 n) = total_length L.
Proof.
  induction L as [|oa L IH]; intros Hown; cbn [total_length foldr].
  - clear. induction (seq 0 n) as [|i s IH]; [done|]. cbn in *. lia.
  - fold (total_length L). rewrite <-IH by (intros; apply Hown; by right).
    assert (Hlt : (oa.1 < n)%nat) by (apply Hown; left).
    pose proof (sum_indicator n oa.1 (arc_length oa.2)) as Hsum. rewrite decide_True in Hsum by done.
    rewrite <-Hsum. clear. unfold share_of. induction (seq 0 n) as [|i s IH]; cbn in *; lia.
Qed.

(** C18: the incremental share bookkeeping never drifts from the ring.  On every
    ring the placement code can reach, the recomputation in [VerifyShares]
    agrees with [memberShares_], and on a non-empty ring the shares add up to
    the whole token space. *)
Theorem VerifyShares_reachable b :
  ring_reachable b ->
  VerifyShares b = true /\
  (Empty b = false -> foldr Z.add 0 (br_memberShares b) = RING_SPACE).
Proof.
  intros Hb%ring_reachable_inv. split; [by apply ring_inv_VerifyShares|].
  unfold Empty. intros Hne. destruct Hb as [Hs Hu Hown Harcs].
  replace (br_memberShares b) with ((fun i => share_of i (ring_arcs (br_ring b))) <$> seq 0 (S (br_memberCount b))).
  - rewrite sum_share_of.
    + apply ring_arcs_total; [done|]. by destruct (br_ring b).
    + intros oa Hoa. by eapply ring_arcs_owner.
  - apply list_eq_same_length with (n := S (br_memberCount b)).
    + apply Harcs.
    + by rewrite length_fmap, length_seq.
    + intros i x y Hi Hx Hy. apply (ai_share _ _ Harcs) in Hy as ->.
      rewrite list_lookup_fmap, lookup_seq_lt in Hx by done. by injection Hx as <-.
Qed.

Lemma VerifyShares_reachable_witness :
  let b := Insert 7 1 (AdmitNewMember (Insert 2147483648 0 (new_BalancedRing [] ∅).1)) in
  VerifyShares b = true /\ (Empty b = false -> foldr Z.add 0 (br_memberShares b) = RING_SPACE).
Proof.
  apply VerifyShares_reachable. repeat apply rr_insert; try apply rr_admit; repeat apply rr_insert;
    try (apply rr_new; no_elem); try (unfold is_u32; lia);
    try reflexivity; unfold TotalMembers; cbn; lia.
Defined.

(** [TakeTarget] aims at the member's largest arc: the returned point lies
    on it, at an offset from its start that never exceeds its length nor the
    requested share. *)
Theorem TakeTarget_largest_arc b member idealShare s :
  ring_reachable b -> br_memberArcs b !! member = Some s -> s <> [] -> 0 < idealShare < RING_SPACE ->
  exists a d,
    (member, a) ∈ ring_arcs (br_ring b) /\
    (forall a', (member, a') ∈ ring_arcs (br_ring b) -> arc_length a' <= arc_length a) /\
    TakeTarget member idealShare b = u32 (arc_start a + d) /\
    0 <= d <= arc_length a /\ d <= idealShare.
Proof.
  intros Hb%ring_reachable_inv Hm Hne Hi. pose proof Hb as [Hs Hu Hown Harcs].
  destruct (ai_arcs _ _ Harcs _ _ Hm) as [Hsorted Hin].
  destruct s as [|a s]; [done|]. apply os_sorted_cons in Hsorted as [_ Hall].
  assert (Hmem : (member, a) ∈ ring_arcs (br_ring b)) by (apply Hin; left).
  pose proof (ring_arcs_pos _ _ Hu Hmem) as Hlen. cbn in Hlen.
  unfold TakeTarget. rewrite Hm. simpl default. cbv beta iota delta [id].
  exists a, (if idealShare <=? arc_length a then idealShare else arc_length a - 1).
  split; [done|]. split.
  { intros a' [->|Ha']%Hin%elem_of_cons; [lia|]. apply Hall in Ha'. unfold ltk in Ha'; cbn in Ha'.
    unfold ArcOrder in Ha'. destruct (Z.eqb_spec (arc_length a) (arc_length a')); cbn in Ha'; lia. }
  destruct (Z.leb_spec idealShare (arc_length a)).
  - split; [rewrite (u32_small idealShare); [done|unfold is_u32, RING_SPACE in *; lia]|lia].
  - split; [f_equal; lia|lia].
Qed.

Lemma TakeTarget_largest_arc_witness :
  let b := Insert 2147483648 0 (new_BalancedRing [] ∅).1 in
  exists a d, (0%nat, a) ∈ ring_arcs (br_ring b) /\
    (forall a', (0%nat, a') ∈ ring_arcs (br_ring b) -> arc_length a' <= arc_length a) /\
    TakeTarget 0 1000 b = u32 (arc_start a + d) /\ 0 <= d <= arc_length a /\ d <= 1000.
Proof.
  eapply (TakeTarget_largest_arc _ 0 1000).
  - apply rr_insert; [apply rr_new; no_elem|unfold is_u32; lia|reflexivity|].
    unfold TotalMembers; cbn; lia.
  - reflexivity.
  - done.
  - unfold RING_SPACE; lia.
Defined.
