(* ===== verification/TokenPlacement.v ===== *)
(** * Token placement for new ring members

    cluster/algorithm/token_placement.{h,cpp}.  The object's reference member
    [occupied_] and its optional [ring_] are the explicit state
    [TokenPlacement]; out-parameters are returned.

    The fuel of [ProbeUniqueToken_from] is the number of seeds left in the probe
    budget, so the loop bound is the one of the C++ loop. *)

From S2P Require Import Prelude Ordered TopologyTypes HashRing BalancedRing.

Definition BALANCED_PLACEMENT_MAX_RING_TOKENS : Z := 2000.

Record TokenProbe := { pb_token : Z; pb_seed : Z }.

(** [std::min(token - target, target - token)] on unsigned 32-bit values. *)
Definition CyclicDistance (token target : Z) : Z :=
  Z.min (u32 (token - target)) (u32 (target - token)).

Fixpoint ProbeUniqueToken_from (fuel : nat) (address : string) (index seed : Z) (occupied : gset Z)
    : res (gset Z * TokenProbe) :=
  match fuel with
  | O => Err K_INVALID
  | S fuel' =>
      let token := MakeHashRingToken address index seed in
      if decide (token ∈ occupied) then ProbeUniqueToken_from fuel' address index (seed + 1) occupied
      else Ok ({[token]} ∪ occupied, {| pb_token := token; pb_seed := seed |})
  end.

Definition ProbeUniqueToken (identity : MemberIdentity) (index startSeed : Z) (occupied : gset Z)
    : res (gset Z * TokenProbe) :=
  ProbeUniqueToken_from (Z.to_nat (MAX_HASH_RING_TOKEN_SEEDS - startSeed))
    (mi_address identity) index startSeed occupied.

(** The out-parameters [tokens] and [overrides] of the selection routines. *)
Abbreviation Selection := (list Z * list TokenSeedOverride)%type.

(** [tokens.emplace_back(token); if (seed > 0) overrides.emplace_back({index, seed});] *)
Definition push_token (sel : Selection) (index token seed : Z) : Selection :=
  (sel.1 ++ [token],
   if 0 <? seed then sel.2 ++ [{| so_tokenIndex := index; so_tokenSeed := seed |}] else sel.2).

Definition SelectSequentialTokens (identity : MemberIdentity) (count : Z) (occupied : gset Z)
    (sel : Selection) : res (gset Z * Selection) :=
  foldM (fun st index =>
      probe ← ProbeUniqueToken identity index 0 st.1;
      Ok (probe.1, push_token st.2 index (pb_token probe.2) (pb_seed probe.2)))
    (occupied, sel) (seqZ 0 count).

(** ** Nearest free candidate *)

Definition nearestCandidateDepth : nat := 4.

(** The array [nearest] holds (distance, seed) pairs in ascending distance; it is
    represented here from its last used slot [depth - 1] down to slot 0.  The
    inner loop shifts entries with a larger distance one slot up. *)
Fixpoint shift_insert (distance seed : Z) (nearest : list (Z * Z)) : list (Z * Z) :=
  match nearest with
  | [] => [(distance, seed)]
  | e :: rest => if distance <? e.1 then e :: shift_insert distance seed rest
                 else (distance, seed) :: nearest
  end.

Definition nearest_step (target : Z) (nearest : list (Z * Z)) (seed_token : Z * Z) : list (Z * Z) :=
  let distance := CyclicDistance seed_token.2 target in
  match nearest with
  | worst :: others =>
      if (length nearest <? nearestCandidateDepth)%nat then shift_insert distance seed_token.1 nearest
      else if distance <? worst.1 then shift_insert distance seed_token.1 others
      else nearest
  | [] => shift_insert distance seed_token.1 nearest
  end.

(** Candidates with their seeds, in the order of the seed loop. *)
Definition with_seeds (candidates : list Z) : list (Z * Z) :=
  imap (fun seed token => (Z.of_nat seed, token)) candidates.

Definition nearest_of (candidates : list Z) (target : Z) : list (Z * Z) :=
  foldl (nearest_step target) [] (with_seeds candidates).

Definition candidate_at (candidates : list Z) (seed : Z) : Z :=
  default 0 (candidates !! Z.to_nat seed).

(** The fallback loop over every seed. *)
Definition scan_step (occupied : gset Z) (target : Z) (best : option (Z * Z * Z)) (seed_token : Z * Z)
    : option (Z * Z * Z) :=
  let '(seed, token) := seed_token in
  if decide (token ∈ occupied) then best
  else
    let distance := CyclicDistance token target in
    match best with
    | Some (bestDistance, _, _) => if distance <? bestDistance then Some (distance, token, seed) else best
    | None => Some (distance, token, seed)
    end.

Definition full_scan (candidates : list Z) (target : Z) (occupied : gset Z) : option (Z * Z) :=
  (fun b => (b.1.2, b.2)) <$> foldl (scan_step occupied target) None (with_seeds candidates).

(** [Some (bestToken, bestSeed)] when the C++ function returns [true]. *)
Definition PickNearestToken (candidates : list Z) (target : Z) (occupied : gset Z) : option (Z * Z) :=
  match list_find (fun e => candidate_at candidates e.2 ∉ occupied) (rev (nearest_of candidates target)) with
  | Some (_, e) => Some (candidate_at candidates e.2, e.2)
  | None => full_scan candidates target occupied
  end.

(** ** The placement object *)

Record TokenPlacement := { tp_occupied : gset Z; tp_ring : option BalancedRing }.

Definition new_TokenPlacement (owners : list PlacementOwner) (occupied : gset Z) (balanced : bool)
    : TokenPlacement :=
  if balanced then
    let '(ring, occupied) := new_BalancedRing owners occupied in
    {| tp_occupied := occupied; tp_ring := Some ring |}
  else {| tp_occupied := occupied; tp_ring := None |}.

Definition SelectBalancedTokens (identity : MemberIdentity) (count : Z) (occupied : gset Z)
    (ring : BalancedRing) (sel : Selection) : res (gset Z * BalancedRing * Selection) :=
  if count =? 0 then Ok (occupied, ring, sel)
  else
    let newMember := (TotalMembers ring - 1)%nat in
    let idealPerToken := RING_SPACE / Z.of_nat (TotalMembers ring) / count in
    st ← foldM (fun st index =>
        let '(occupied, ring, sel) := st in
        let target := TakeTarget (HeaviestMember ring) idealPerToken ring in
        let candidates := MakeHashRingTokenCandidates (mi_address identity) index
                            BALANCED_PLACEMENT_SEED_CANDIDATES in
        match PickNearestToken candidates target occupied with
        | Some (bestToken, bestSeed) =>
            Ok ({[bestToken]} ∪ occupied, Insert bestToken newMember ring,
                push_token sel index bestToken bestSeed)
        | None =>
            probe ← ProbeUniqueToken identity index BALANCED_PLACEMENT_SEED_CANDIDATES occupied;
            Ok (probe.1, Insert (pb_token probe.2) newMember ring,
                push_token sel index (pb_token probe.2) (pb_seed probe.2))
        end)
      (occupied, ring, sel) (seqZ 0 count);
    Ok (st.1.1, AdmitNewMember st.1.2, st.2).

Definition SelectTokens (identity : MemberIdentity) (count : Z) (p : TokenPlacement)
    : res (TokenPlacement * Selection) :=
  if count =? 0 then Ok (p, ([], []))
  else match tp_ring p with
  | None =>
      st ← SelectSequentialTokens identity count (tp_occupied p) ([], []);
      Ok ({| tp_occupied := st.1; tp_ring := None |}, st.2)
  | Some ring =>
      if Empty ring then
        st ← SelectSequentialTokens identity count (tp_occupied p) ([], []);
        let ring := foldl (fun r token => Insert token 0 r) ring st.2.1 in
        Ok ({| tp_occupied := st.1; tp_ring := Some (AdmitNewMember ring) |}, st.2)
      else
        st ← SelectBalancedTokens identity count (tp_occupied p) ring ([], []);
        Ok ({| tp_occupied := st.1.1; tp_ring := Some st.1.2 |}, st.2)
  end.

(** ** [PickNearestToken] agrees with probing every candidate *)

Section nearest.
Context (target : Z).
Implicit Types (L : list (Z * Z)) (N : list (Z * Z)).

(** Candidates are ranked by distance, then by seed. *)
Definition rank (st : Z * Z) : Z * Z := (CyclicDistance st.2 target, st.1).

Definition is_best (occupied : gset Z) L (st : Z * Z) : Prop :=
  st ∈ L /\ st.2 ∉ occupied /\
  forall st', st' ∈ L -> st'.2 ∉ occupied -> ltk (rank st') (rank st) = false.

Definition seeds_increase L : Prop := StronglySorted (fun a b => a.1 < b.1) L.

Lemma seeds_increase_snoc L x :
  seeds_increase (L ++ [x]) -> seeds_increase L /\ forall y, y ∈ L -> y.1 < x.1.
Proof.
  induction L as [|a L IH]; cbn; [intros _; split; [constructor|no_elem]|].
  inversion_clear 1 as [|?? Hs Hall]. apply IH in Hs as [Hs Hlt]. apply Forall_app in Hall as [Ha Hx].
  split; [by constructor|]. intros y [->|Hy]%elem_of_cons; [by apply Forall_inv in Hx|auto].
Qed.

Lemma seeds_increase_inj L a b : seeds_increase L -> a ∈ L -> b ∈ L -> a.1 = b.1 -> a = b.
Proof.
  induction 1 as [|x L Hs IH Hall]; [by intros ?%not_elem_of_nil|].
  rewrite Forall_forall in Hall.
  intros [->|Ha]%elem_of_cons [->|Hb]%elem_of_cons Heq; [done| | |auto].
  - apply Hall in Hb. lia.
  - apply Hall in Ha. lia.
Qed.

Lemma is_best_unique occupied L a b :
  seeds_increase L -> is_best occupied L a -> is_best occupied L b -> a = b.
Proof.
  intros Hinc (Ha & Hao & Hab) (Hb & Hbo & Hbb).
  assert (Hr : rank a = rank b) by (apply ltk_total; auto).
  eapply seeds_increase_inj; [done..|]. by injection Hr.
Qed.

Lemma rank_ltk d s d' s' : ltk (d, s) (d', s') = true <-> d < d' \/ d = d' /\ s < s'.
Proof.
  unfold ltk; cbn. unfold pair_ltb, ltk; cbn.
  rewrite orb_true_iff, andb_true_iff, negb_true_iff, !Z.ltb_lt, Z.ltb_ge. lia.
Qed.

Lemma full_scan_spec occupied L :
  seeds_increase L ->
  match foldl (scan_step occupied target) None L with
  | Some (d, token, seed) => is_best occupied L (seed, token) /\ d = CyclicDistance token target
  | None => forall st, st ∈ L -> st.2 ∈ occupied
  end.
Proof.
  induction L as [|[seed token] L IH] using rev_ind; intros Hinc; [no_elem|].
  apply seeds_increase_snoc in Hinc as [Hinc Hlt]. specialize (IH Hinc).
  rewrite foldl_snoc. cbn [scan_step].
  destruct (foldl (scan_step occupied target) None L) as [[[d t] s]|] eqn:E; case_decide as Ho.
  - destruct IH as [(Hin & Hfree & Hbest) Hd]. split; [|done]. split; [set_solver|]. split; [done|].
    intros st' [Hst| ->]%elem_of_snoc Hfree'; [by apply Hbest|done].
  - destruct IH as [(Hin & Hfree & Hbest) ->].
    assert (Hs : s < seed) by (by apply (Hlt (s, t))).
    destruct (Z.ltb_spec (CyclicDistance token target) (CyclicDistance t target)) as [Hd|Hd].
    + split; [|done]. split; [set_solver|]. split; [done|].
      intros st' [Hst| ->]%elem_of_snoc Hfree'; [|by rewrite ltk_irrefl].
      specialize (Hbest _ Hst Hfree'). destruct st' as [s' t'].
      apply not_true_iff_false in Hbest. apply not_true_iff_false. unfold rank in *; cbn in *.
      rewrite rank_ltk in *. lia.
    + split; [|done]. split; [set_solver|]. split; [done|].
      intros st' [Hst| ->]%elem_of_snoc Hfree'; [by apply Hbest|].
      apply not_true_iff_false. unfold rank; cbn. rewrite rank_ltk. lia.
  - intros st [Hst| ->]%elem_of_snoc; [by apply IH|done].
  - split; [|done]. split; [set_solver|]. split; [done|].
    intros st' [Hst| ->]%elem_of_snoc Hfree'; [|by rewrite ltk_irrefl].
    by apply IH in Hst.
Qed.

(** Invariant of the bounded insertion sort after the candidates [L]. *)
Record nearest_inv L N : Prop := {
  ni_from : forall e, e ∈ N -> exists st, st ∈ L /\ e = rank st;
  ni_sorted : StronglySorted (fun a b => ltk b a = true) N;
  ni_cover : forall st, st ∈ L -> rank st ∈ N \/
    (nearestCandidateDepth <= length N)%nat /\ forall e, e ∈ N -> ltk e (rank st) = true
}.

Lemma elem_of_shift_insert d s N e : e ∈ shift_insert d s N <-> e = (d, s) \/ e ∈ N.
Proof. induction N as [|e' N IH]; cbn; [set_solver|]. case_match; set_solver. Qed.

Lemma shift_insert_sorted d s N :
  StronglySorted (fun a b => ltk b a = true) N -> (forall e, e ∈ N -> e.2 < s) ->
  StronglySorted (fun a b => ltk b a = true) (shift_insert d s N).
Proof.
  induction 1 as [|e N Hs IH Hall]; cbn; intros Hlt; [repeat constructor|].
  assert (He : e.2 < s) by (apply Hlt; left). destruct e as [d' s']; cbn in *.
  destruct (Z.ltb_spec d d').
  - constructor; [apply IH; intros; apply Hlt; by right|]. apply Forall_forall.
    intros e [->|Hin]%elem_of_shift_insert; [rewrite rank_ltk; lia|].
    by rewrite Forall_forall in Hall; apply Hall.
  - assert (Hnew : ltk (d', s') (d, s) = true) by (rewrite rank_ltk; lia).
    constructor; [by constructor|]. constructor; [done|].
    eapply Forall_impl; [exact Hall|]. cbn. intros e Hlte. by eapply ltk_trans.
Qed.

Lemma length_shift_insert d s N : length (shift_insert d s N) = S (length N).
Proof. induction N as [|e N IH]; cbn; [done|]. case_match; cbn; [by rewrite IH|done]. Qed.

(** A candidate joins a window [N'] that still has a free slot: either nothing
    was dropped yet, or the worst entry [w] of [w :: N'] was just given up for it. *)
Lemma nearest_insert_inv L N N' st :
  nearest_inv L N -> (forall y, y ∈ L -> y.1 < st.1) ->
  (N = N' /\ (length N < nearestCandidateDepth)%nat) \/
  (exists w, N = w :: N' /\ (nearestCandidateDepth <= length N)%nat /\ ltk (rank st) w = true) ->
  nearest_inv (L ++ [st]) (shift_insert (CyclicDistance st.2 target) st.1 N').
Proof.
  intros [H1 H2 H3] Hlt Hcase.
  assert (Hsub : forall e, e ∈ N' -> e ∈ N) by (destruct Hcase as [[-> _]|(w & -> & _ & _)]; set_solver).
  assert (Hs' : StronglySorted (fun a b => ltk b a = true) N').
  { destruct Hcase as [[-> _]|(w & -> & _ & _)]; [done|by inversion H2]. }
  split.
  - intros e [->|He]%elem_of_shift_insert; [exists st; set_solver|].
    destruct (H1 e (Hsub e He)) as (st' & Hin & ->). exists st'. set_solver.
  - apply shift_insert_sorted; [done|]. intros e He.
    destruct (H1 e (Hsub e He)) as (st' & Hin & ->). by apply Hlt.
  - rewrite length_shift_insert. setoid_rewrite elem_of_shift_insert.
    intros st' [Hst'| ->]%elem_of_snoc; [|by left; left].
    destruct Hcase as [[-> Hlen]|(w & -> & Hl & Hw)].
    { destruct (H3 _ Hst') as [Hin|[? _]]; [by left; right|lia]. }
    inversion_clear H2 as [|?? _ Hall]. rewrite Forall_forall in Hall.
    destruct (H3 _ Hst') as [Hin|[Hlen Hbig]].
    + apply elem_of_cons in Hin as [Hin|Hin]; [|by left; right].
      right. split; [done|]. intros e [->|He]; rewrite Hin; [done|auto].
    + right. split; [done|]. intros e [->|He].
      * eapply ltk_trans; [exact Hw|]. apply Hbig. left.
      * apply Hbig. by right.
Qed.

Lemma nearest_step_inv L N st :
  nearest_inv L N -> (forall y, y ∈ L -> y.1 < st.1) ->
  nearest_inv (L ++ [st]) (nearest_step target N st).
Proof.
  intros Hinv Hlt. unfold nearest_step. destruct N as [|w N].
  { apply (nearest_insert_inv L []); [done..|]. left. split; [done|]. cbn. unfold nearestCandidateDepth. lia. }
  destruct (Nat.ltb_spec (length (w :: N)) nearestCandidateDepth) as [Hlen|Hlen].
  { eapply nearest_insert_inv; [done..|]. by left. }
  destruct (Z.ltb_spec (CyclicDistance st.2 target) w.1) as [Hd|Hd].
  - eapply (nearest_insert_inv L (w :: N)); [done..|]. right. exists w. split; [done|]. split; [done|].
    destruct w. unfold rank. rewrite rank_ltk. cbn in *. lia.
  - destruct Hinv as [H1 H2 H3]. split; [|done|].
    + intros e He. destruct (H1 e He) as (st' & Hin & ->). exists st'. set_solver.
    + intros st' [Hst'| ->]%elem_of_snoc; [auto|]. right. split; [done|].
      assert (Hw : ltk w (rank st) = true).
      { destruct (H1 w ltac:(left)) as (st0 & Hin0 & ->). apply Hlt in Hin0.
        unfold rank in *. rewrite rank_ltk. cbn in *. lia. }
      inversion_clear H2 as [|?? _ Hall]. rewrite Forall_forall in Hall.
      intros e [->|He]%elem_of_cons; [done|]. eapply ltk_trans; [by apply Hall|done].
Qed.

Lemma nearest_fold_inv L :
  seeds_increase L -> nearest_inv L (foldl (nearest_step target) [] L).
Proof.
  induction L as [|st L IH] using rev_ind; intros Hinc.
  { split; [no_elem|constructor|no_elem]. }
  apply seeds_increase_snoc in Hinc as [Hinc Hlt]. rewrite foldl_snoc.
  apply nearest_step_inv; auto.
Qed.
End nearest.

Lemma elem_of_with_seeds candidates st :
  st ∈ with_seeds candidates <-> 0 <= st.1 /\ candidates !! Z.to_nat st.1 = Some st.2.
Proof.
  unfold with_seeds. rewrite elem_of_lookup_imap. destruct st as [s t]; cbn. split.
  - intros (i & x & Heq & Hi). simplify_eq. rewrite Nat2Z.id. split; [lia|done].
  - intros [Hs Ht]. exists (Z.to_nat s), t. rewrite Z2Nat.id by done. done.
Qed.

Lemma with_seeds_increase candidates : seeds_increase (with_seeds candidates).
Proof.
  unfold with_seeds, seeds_increase.
  assert (Hgen : forall k, StronglySorted (fun a b : Z * Z => a.1 < b.1)
     (imap (fun seed token => (Z.of_nat (k + seed), token)) candidates)); [|apply (Hgen 0%nat)].
  induction candidates as [|c l IH]; intros k; cbn; [constructor|]. constructor.
  - specialize (IH (S k)). erewrite imap_ext; [exact IH|]. intros; cbn. do 2 f_equal. lia.
  - apply Forall_forall. intros st (i & x & -> & _)%elem_of_lookup_imap. cbn. lia.
Qed.

Lemma candidate_at_seed candidates st :
  st ∈ with_seeds candidates -> candidate_at candidates st.1 = st.2.
Proof. intros [_ H]%elem_of_with_seeds. unfold candidate_at. by rewrite H. Qed.

(** The window search finds the overall best free candidate. *)
Lemma PickNearestToken_window candidates target occupied i e :
  list_find (fun e => candidate_at candidates e.2 ∉ occupied) (rev (nearest_of candidates target)) = Some (i, e) ->
  is_best target occupied (with_seeds candidates) (e.2, candidate_at candidates e.2).
Proof.
  intros (Hi & Hfree & Hbefore)%list_find_Some.
  pose proof (nearest_fold_inv target _ (with_seeds_increase candidates)) as [H1 H2 H3].
  fold (nearest_of candidates target) in H1, H2, H3.
  assert (He : e ∈ nearest_of candidates target).
  { apply list_elem_of_lookup_2 in Hi. by rewrite <-Permutation_rev in Hi. }
  destruct (H1 e He) as (st & Hst & ->). cbn [rank snd].
  pose proof (candidate_at_seed _ _ Hst) as Hc. destruct st as [s t]. cbn in *. rewrite Hc in *.
  split; [done|]. split; [done|]. intros st' Hst' Hfree'.
  destruct (H3 _ Hst') as [Hin|[_ Hall]]; [|by apply ltk_asym, Hall].
  rewrite Permutation_rev in Hin. apply list_elem_of_lookup in Hin as [j Hj].
  destruct (decide (j < i)%nat) as [Hji|Hji].
  { exfalso. eapply (Hbefore j); [exact Hj|done|]. cbn. by rewrite (candidate_at_seed _ _ Hst'). }
  destruct (decide (j = i)) as [->|Hne].
  { rewrite Hi in Hj. injection Hj as Hr1 Hr2. unfold rank; cbn. rewrite Hr1, Hr2. apply ltk_irrefl. }
  apply ltk_asym.
  assert (Hs : StronglySorted (fun a b => ltk a b = true) (rev (nearest_of candidates target))).
  { by apply StronglySorted_rev. }
  eapply (StronglySorted_lookup _ _ i j) in Hs; [exact Hs|done|done|lia].
Qed.

(** C17: the four-entry search window is only an optimisation:
    [PickNearestToken] returns exactly what probing every candidate returns. *)
Theorem PickNearestToken_full_scan candidates target occupied :
  PickNearestToken candidates target occupied = full_scan candidates target occupied.
Proof.
  unfold PickNearestToken. destruct (list_find _ _) as [[i e]|] eqn:E; [|done].
  apply PickNearestToken_window in E as Hbest. unfold full_scan.
  pose proof (full_scan_spec target occupied _ (with_seeds_increase candidates)) as Hs.
  destruct (foldl _ None (with_seeds candidates)) as [[[d t] s]|].
  - destruct Hs as [Hs _]. pose proof (is_best_unique _ _ _ _ _ (with_seeds_increase candidates) Hbest Hs) as Heq.
    injection Heq as -> ->. done.
  - destruct Hbest as (Hin & Hfree & _). by apply Hs in Hin.
Qed.

(** ** What a selection guarantees *)

(** The overrides recorded for a list of per-index seeds. *)
Definition overrides_of (seeds : list Z) : list TokenSeedOverride :=
  omap (fun e => if 0 <? e.2 then Some {| so_tokenIndex := e.1; so_tokenSeed := e.2 |} else None)
       (imap (fun i s => (Z.of_nat i, s)) seeds).

(** After selecting [k] tokens for [address] starting from [occupied0]. *)
Record sel_inv (address : string) (occupied0 : gset Z) (k : Z) (occupied : gset Z) (sel : Selection) : Prop := {
  si_derived : exists seeds, Z.of_nat (length seeds) = k /\
      sel.1 = imap (fun i s => MakeHashRingToken address (Z.of_nat i) s) seeds /\
      sel.2 = overrides_of seeds /\
      Forall (fun s => 0 <= s < MAX_HASH_RING_TOKEN_SEEDS) seeds;
  si_nodup : NoDup sel.1;
  si_fresh : forall t, t ∈ sel.1 -> t ∉ occupied0;
  si_occupied : occupied = list_to_set sel.1 ∪ occupied0
}.

Lemma sel_inv_start address occupied : sel_inv address occupied 0 occupied ([], []).
Proof.
  split; cbn; [by exists []|constructor|no_elem|set_solver].
Qed.

Lemma push_token_inv address occupied0 k occupied sel seed :
  sel_inv address occupied0 k occupied sel -> 0 <= seed < MAX_HASH_RING_TOKEN_SEEDS ->
  MakeHashRingToken address k seed ∉ occupied ->
  sel_inv address occupied0 (k + 1) ({[MakeHashRingToken address k seed]} ∪ occupied)
    (push_token sel k (MakeHashRingToken address k seed) seed).
Proof.
  intros [(seeds & Hk & Ht & Ho & Hs) Hnd Hfresh ->] Hseed Hnew. unfold push_token.
  split; cbn [fst snd].
  - exists (seeds ++ [seed]). rewrite length_app; cbn [length]. split; [lia|].
    unfold overrides_of. rewrite !imap_app, omap_app. cbn. rewrite Nat.add_0_r, Hk, Ht. split; [done|].
    split; [|apply Forall_app; auto].
    rewrite Ho. unfold overrides_of. destruct (0 <? seed); [done|by rewrite app_nil_r].
  - apply NoDup_app. split; [done|]. split; [set_solver|apply NoDup_singleton].
  - intros t [?| ->]%elem_of_snoc; [by apply Hfresh|set_solver].
  - rewrite list_to_set_app_L. set_solver.
Qed.

Lemma ProbeUniqueToken_from_spec fuel address index seed occupied occupied' probe :
  ProbeUniqueToken_from fuel address index seed occupied = Ok (occupied', probe) ->
  seed <= pb_seed probe < seed + Z.of_nat fuel /\
  pb_token probe = MakeHashRingToken address index (pb_seed probe) /\
  pb_token probe ∉ occupied /\ occupied' = {[pb_token probe]} ∪ occupied.
Proof.
  revert seed. induction fuel as [|fuel IH]; intros seed; cbn; [done|]. case_decide.
  - intros Hp%IH. destruct Hp as (? & ? & ? & ?). repeat split; [lia|lia|done..].
  - intros [= <- <-]. cbn. repeat split; [lia|lia|done].
Qed.

Lemma ProbeUniqueToken_spec identity index startSeed occupied r :
  0 <= startSeed <= MAX_HASH_RING_TOKEN_SEEDS ->
  ProbeUniqueToken identity index startSeed occupied = Ok r ->
  startSeed <= pb_seed r.2 < MAX_HASH_RING_TOKEN_SEEDS /\
  pb_token r.2 = MakeHashRingToken (mi_address identity) index (pb_seed r.2) /\
  pb_token r.2 ∉ occupied /\ r.1 = {[pb_token r.2]} ∪ occupied.
Proof.
  intros Hs. destruct r as [occ probe]. intros Hp%ProbeUniqueToken_from_spec. cbn. split; [lia|tauto].
Qed.

Lemma PickNearestToken_candidate address index target occupied t s :
  PickNearestToken (MakeHashRingTokenCandidates address index BALANCED_PLACEMENT_SEED_CANDIDATES)
    target occupied = Some (t, s) ->
  0 <= s < MAX_HASH_RING_TOKEN_SEEDS /\ t = MakeHashRingToken address index s /\ t ∉ occupied.
Proof.
  rewrite PickNearestToken_full_scan, MakeHashRingTokenCandidates_eq by (unfold BALANCED_PLACEMENT_SEED_CANDIDATES; lia).
  unfold full_scan. set (cs := MakeHashRingToken address index <$> _).
  pose proof (full_scan_spec target occupied _ (with_seeds_increase cs)) as Hs.
  destruct (foldl _ None (with_seeds cs)) as [[[d t'] s']|]; [|done]. intros [= -> ->].
  destruct Hs as [(Hin & Hfree & _) _]. apply elem_of_with_seeds in Hin as [H0 Hin]. cbn in *.
  unfold cs in Hin. rewrite list_lookup_fmap in Hin.
  destruct (seqZ 0 BALANCED_PLACEMENT_SEED_CANDIDATES !! Z.to_nat s) as [s'|] eqn:E; [|done].
  apply lookup_seqZ in E as [-> Hlt]. cbn in Hin. injection Hin as <-.
  rewrite Z2Nat.id in * by done. rewrite Z.add_0_l.
  unfold BALANCED_PLACEMENT_SEED_CANDIDATES, MAX_HASH_RING_TOKEN_SEEDS in *. split; [lia|done].
Qed.

Lemma SelectSequentialTokens_spec identity count occupied st :
  0 <= count ->
  SelectSequentialTokens identity count occupied ([], []) = Ok st ->
  sel_inv (mi_address identity) occupied count st.1 st.2.
Proof.
  intros Hc. unfold SelectSequentialTokens.
  apply (foldM_seqZ_inv _ (fun k st => sel_inv (mi_address identity) occupied k st.1 st.2)); [done|apply sel_inv_start|].
  intros k s s' Hk Hinv Hf. inv_ok. apply ProbeUniqueToken_spec in Hok as (Hr & Ht & Hn & ->).
  - cbn [fst snd]. rewrite Ht in *. apply push_token_inv; [done|lia|done].
  - unfold MAX_HASH_RING_TOKEN_SEEDS. lia.
Qed.

(** The ring is well kept and every ring token is recorded as occupied. *)
Definition ring_tracked (occupied : gset Z) (ring : BalancedRing) : Prop :=
  ring_reachable ring /\ forall e, e ∈ br_ring ring -> e.1 ∈ occupied.

Definition placement_inv (p : TokenPlacement) : Prop :=
  match tp_ring p with None => True | Some ring => ring_tracked (tp_occupied p) ring end.

Lemma Insert_ring_elem t o b e :
  ring_inv b -> om_find t (br_ring b) = None -> e ∈ br_ring (Insert t o b) <-> e = (t, o) \/ e ∈ br_ring b.
Proof.
  intros Hb Hf. destruct (decide (br_ring b = [])) as [He|Hne].
  - unfold Insert. rewrite He. cbn. set_solver.
  - destruct (Insert_unfold t o b (ri_sorted _ Hb) Hne Hf) as (l & r & n & p & Hr & _ & _ & _ & _ & ->).
    cbn [br_ring]. rewrite Hr. set_solver.
Qed.

Lemma Insert_count t o b : br_memberCount (Insert t o b) = br_memberCount b.
Proof. unfold Insert. by destruct (br_ring b). Qed.

Lemma Insert_tracked t o occupied b :
  ring_tracked occupied b -> is_u32 t -> t ∉ occupied -> (o < TotalMembers b)%nat ->
  ring_tracked ({[t]} ∪ occupied) (Insert t o b).
Proof.
  intros [Hr Hocc] Ht Hn Ho. pose proof (ring_reachable_inv _ Hr) as Hinv.
  assert (Hf : om_find t (br_ring b) = None).
  { apply om_find_None. intros v Hv. by apply Hocc in Hv. }
  split; [by apply rr_insert|]. intros e [->|He]%Insert_ring_elem; [set_solver|set_solver|done|done].
Qed.

Lemma foldl_Insert_tracked o tokens occupied b :
  ring_tracked occupied b -> (forall t, t ∈ tokens -> is_u32 t) -> NoDup tokens ->
  (forall t, t ∈ tokens -> t ∉ occupied) -> (o < TotalMembers b)%nat ->
  let b' := foldl (fun r token => Insert token o r) b tokens in
  ring_tracked (list_to_set tokens ∪ occupied) b' /\ br_memberCount b' = br_memberCount b.
Proof.
  revert occupied b. induction tokens as [|t tokens IH]; intros occupied b Hb Hu Hnd Hfr Ho; cbn.
  { split; [|done]. by rewrite union_empty_l_L. }
  apply NoDup_cons in Hnd as [Ht Hnd].
  destruct (IH ({[t]} ∪ occupied) (Insert t o b)) as [H1 H2].
  - apply Insert_tracked; [done|apply Hu; left|apply Hfr; left|done].
  - intros. apply Hu. by right.
  - done.
  - intros t' Ht'. specialize (Hfr t' ltac:(by right)). set_solver.
  - unfold TotalMembers. by rewrite Insert_count.
  - rewrite H2, Insert_count. split; [|done].
    replace ({[t]} ∪ list_to_set tokens ∪ occupied) with (list_to_set tokens ∪ ({[t]} ∪ occupied)) by set_solver.
    done.
Qed.

Lemma new_TokenPlacement_inv owners occupied balanced :
  (forall o, o ∈ owners -> is_u32 (po_token o)) ->
  placement_inv (new_TokenPlacement owners occupied balanced).
Proof.
  intros Hu. unfold placement_inv, new_TokenPlacement. destruct balanced; [|done].
  pose proof (new_BalancedRing_occupied owners occupied) as Ho.
  pose proof (rr_new owners occupied Hu) as Hr.
  assert (Hin : forall e, e ∈ br_ring (new_BalancedRing owners occupied).1 ->
                exists o, o ∈ owners /\ e = (po_token o, po_memberIndex o)).
  { intros e. rewrite new_BalancedRing_ring.
    destruct (fold_emplace_ring owners [] ltac:(constructor)) as (_ & Hel & _).
    intros [?%not_elem_of_nil|?]%Hel; done. }
  destruct (new_BalancedRing owners occupied) as [ring occ]. cbn in *. split; [done|].
  intros e He. apply Hin in He as (o & Ho' & ->). subst occ. cbn.
  apply elem_of_union_l, elem_of_list_to_set, list_elem_of_fmap. eauto.
Qed.

Lemma SelectBalancedTokens_spec identity count occupied ring st :
  0 <= count -> ring_tracked occupied ring ->
  SelectBalancedTokens identity count occupied ring ([], []) = Ok st ->
  sel_inv (mi_address identity) occupied count st.1.1 st.2 /\ ring_tracked st.1.1 st.1.2.
Proof.
  intros Hc Hring. unfold SelectBalancedTokens. destruct (Z.eqb_spec count 0) as [->|Hne].
  { intros. inv_ok. cbn. split; [apply sel_inv_start|done]. }
  intros. inv_ok. cbn [fst snd].
  apply (foldM_seqZ_inv _ (fun k st => sel_inv (mi_address identity) occupied k st.1.1 st.2 /\
      ring_tracked st.1.1 st.1.2 /\ TotalMembers st.1.2 = TotalMembers ring)) in Hok;
    [| done | by split; [apply sel_inv_start|] |].
  - destruct Hok as (? & [Hr Ho] & _). split; [done|]. split; [by apply rr_admit|done].
  - clear x Hok. intros k [[occ r] sel] s' Hk (Hsel & Htr & Htm) Hf. cbn [fst snd] in *.
    assert (Hnm : (TotalMembers ring - 1 < TotalMembers r)%nat) by (unfold TotalMembers in *; lia).
    destruct (PickNearestToken _ _ _) as [[t s]|] eqn:Ep.
    + apply PickNearestToken_candidate in Ep as (Hs & -> & Hfree). inv_ok. cbn [fst snd].
      split; [by apply push_token_inv|]. split.
      * apply Insert_tracked; [done|apply MakeHashRingToken_u32|done|done].
      * unfold TotalMembers. by rewrite Insert_count.
    + inv_ok. apply ProbeUniqueToken_spec in Hok as (Hr & Ht & Hn & ->);
        [|unfold BALANCED_PLACEMENT_SEED_CANDIDATES, MAX_HASH_RING_TOKEN_SEEDS; lia].
      cbn [fst snd]. rewrite Ht in *. unfold BALANCED_PLACEMENT_SEED_CANDIDATES in *.
      split; [apply push_token_inv; [done|lia|done]|]. split.
      * apply Insert_tracked; [done|apply MakeHashRingToken_u32|done|done].
      * unfold TotalMembers. by rewrite Insert_count.
Qed.

Lemma sel_inv_u32 address occupied0 k occupied sel t :
  sel_inv address occupied0 k occupied sel -> t ∈ sel.1 -> is_u32 t.
Proof.
  intros [(seeds & _ & -> & _) _ _ _] (i & s & -> & _)%elem_of_lookup_imap. apply MakeHashRingToken_u32.
Qed.

Lemma SelectTokens_spec identity count p p' sel :
  0 <= count -> placement_inv p -> SelectTokens identity count p = Ok (p', sel) ->
  placement_inv p' /\ sel_inv (mi_address identity) (tp_occupied p) count (tp_occupied p') sel.
Proof.
  intros Hc Hp. unfold SelectTokens, placement_inv in *.
  destruct (Z.eqb_spec count 0) as [->|Hne].
  { intros. simplify_eq. split; [done|apply sel_inv_start]. }
  destruct (tp_ring p) as [ring|] eqn:Er.
  - destruct (Empty ring) eqn:Ee; intros; inv_ok; cbn [tp_ring tp_occupied].
    + apply SelectSequentialTokens_spec in Hok as Hsel; [|done]. split; [|by simplify_eq].
      simplify_eq. destruct (foldl_Insert_tracked 0 x.2.1 (tp_occupied p) ring) as [[H1 H2] H3].
      * done.
      * intros t. by eapply sel_inv_u32.
      * apply Hsel.
      * apply Hsel.
      * unfold TotalMembers; lia.
      * rewrite (si_occupied _ _ _ _ _ Hsel). cbn [tp_ring tp_occupied].
        split; [by apply rr_admit|done].
    + apply SelectBalancedTokens_spec in Hok as [Hsel Htr]; [|done|done]. simplify_eq. done.
  - intros; inv_ok. apply SelectSequentialTokens_spec in Hok; [|done]. by simplify_eq.
Qed.

Lemma MakeHashRingTokens_imap address seeds :
  Z.of_nat (length seeds) <= 2 ^ 32 ->
  MakeHashRingTokens address seeds = imap (fun i s => MakeHashRingToken address (Z.of_nat i) s) seeds.
Proof.
  intros Hlen. unfold MakeHashRingTokens, MakeHashRingToken. apply imap_ext.
  intros i x Hi. apply lookup_lt_Some in Hi. rewrite u32_small; [done|]. unfold is_u32. lia.
Qed.

(** a successful selection returns [count] pairwise distinct 32-bit tokens,
    none of them occupied before and all of them occupied after; they are the
    tokens derived from per-index seeds whose non-zero entries are exactly the
    returned overrides; and the share bookkeeping of the ring still verifies. *)
Theorem SelectTokens_sound identity count p p' tokens overrides :
  0 <= count <= MAX_HASH_RING_TOKENS_PER_MEMBER -> placement_inv p ->
  SelectTokens identity count p = Ok (p', (tokens, overrides)) ->
  placement_inv p' /\
  match tp_ring p' with Some ring => VerifyShares ring = true | None => True end /\
  NoDup tokens /\ (forall t, t ∈ tokens -> is_u32 t /\ t ∉ tp_occupied p) /\
  tp_occupied p' = list_to_set tokens ∪ tp_occupied p /\
  exists seeds, Z.of_nat (length seeds) = count /\
    tokens = MakeHashRingTokens (mi_address identity) seeds /\ overrides = overrides_of seeds.
Proof.
  intros Hc Hp Hsel. apply SelectTokens_spec in Hsel as [Hp' Hinv]; [|lia|done].
  split; [done|]. split.
  { unfold placement_inv in Hp'. destruct (tp_ring p'); [|done].
    apply ring_inv_VerifyShares, ring_reachable_inv, Hp'. }
  pose proof (fun t => sel_inv_u32 _ _ _ _ _ t Hinv) as Hu.
  destruct Hinv as [(seeds & Hk & Ht & Ho & _) Hnd Hfr Hocc].
  assert (Hlen : Z.of_nat (length seeds) <= 2 ^ 32)
    by (unfold MAX_HASH_RING_TOKENS_PER_MEMBER in *; lia).
  cbn [fst snd] in *.
  split; [done|]. split; [auto|]. split; [done|]. exists seeds.
  by rewrite MakeHashRingTokens_imap.
Qed.

Lemma SelectTokens_sound_witness :
  exists p' tokens overrides,
    SelectTokens {| mi_id := "m"; mi_address := "10.0.0.1:31501" |} 2
      (new_TokenPlacement [] ∅ true) = Ok (p', (tokens, overrides)) /\
    NoDup tokens /\ tp_occupied p' = list_to_set tokens ∪ ∅.
Proof.
  assert (Hok : is_ok (SelectTokens {| mi_id := "m"; mi_address := "10.0.0.1:31501" |} 2
      (new_TokenPlacement [] ∅ true)) = true) by (vm_compute; reflexivity).
  assert (Hinv : placement_inv (new_TokenPlacement [] ∅ true))
    by (apply new_TokenPlacement_inv; intros e He; apply not_elem_of_nil in He; destruct He).
  assert (Hocc : tp_occupied (new_TokenPlacement [] ∅ true) = ∅) by reflexivity.
  revert Hok Hinv Hocc. generalize (new_TokenPlacement [] ∅ true). intros p Hok Hinv Hocc.
  destruct (SelectTokens _ 2 p) as [[p' [tokens overrides]]|c] eqn:E; [|discriminate Hok].
  exists p', tokens, overrides.
  destruct (SelectTokens_sound _ 2 p p' tokens overrides
    ltac:(unfold MAX_HASH_RING_TOKENS_PER_MEMBER; lia) Hinv E) as (_ & _ & Hnd & _ & Hp' & _).
  rewrite Hocc in Hp'. done.
Defined.
