(* ===== verification/HostPort.v ===== *)
(** * Endpoint strings

    [HostPort] of src/datasystem/common/util/net_util.{h,cpp}, the validators of
    common/util/validator.h it calls and [StringToInt] of
    common/util/strings_util.h.  The regular-expression engine RE2 is a
    third-party library: it enters as the class [RE2], and the two facts about
    the languages of the source's patterns that the theorems need are the
    fields of [RE2Laws]. *)

From S2P Require Import Prelude.

(** [re2::RE2::FullMatch(value, pattern)]. *)
Class RE2 := FullMatch (pattern value : string) : bool.

(** ** Standard library string operations used here *)

Definition is_space (a : ascii) : bool :=
  let n := nat_of_ascii a in ((9 <=? n) && (n <=? 13) || (n =? 32))%nat.

Definition digit_of (a : ascii) : option Z :=
  let n := Z.of_nat (nat_of_ascii a) in
  if (48 <=? n) && (n <=? 57) then Some (n - 48) else None.

Fixpoint skip_space (s : string) : string :=
  match s with
  | String a s' => if is_space a then skip_space s' else s
  | EmptyString => s
  end.

Fixpoint read_digits (acc : Z) (s : string) : Z :=
  match s with
  | String a s' => match digit_of a with Some d => read_digits (acc * 10 + d) s' | None => acc end
  | EmptyString => acc
  end.

Definition has_digit (s : string) : bool :=
  match s with String a _ => bool_decide (is_Some (digit_of a)) | EmptyString => false end.

(** [std::stoi]: [None] when it throws. *)
Definition stoi (s : string) : option Z :=
  let s := skip_space s in
  let '(neg, s) := match s with
    | String "-" s' => (true, s')
    | String "+" s' => (false, s')
    | _ => (false, s) end in
  if has_digit s then
    let v := if neg : bool then - read_digits 0 s else read_digits 0 s in
    if (- 2 ^ 31 <=? v) && (v <? 2 ^ 31) then Some v else None
  else None.

(** [num] keeps its value when the conversion throws. *)
Definition StringToInt (str : string) (num : Z) : Z * bool :=
  match stoi str with Some v => (v, true) | None => (num, false) end.

(** [s.find_last_of(c)] with [npos] as [None]. *)
Fixpoint find_last_of (c : ascii) (s : string) : option nat :=
  match s with
  | EmptyString => None
  | String a s' =>
      match find_last_of c s' with
      | Some n => Some (S n)
      | None => if decide (a = c) then Some O else None
      end
  end.

Definition contains (c : ascii) (s : string) : bool := bool_decide (is_Some (find_last_of c s)).

(** [s.substr(pos)] and [s.substr(pos, count)] for [pos <= s.size()]. *)
Definition substr_from (pos : nat) (s : string) : string := substring pos (String.length s - pos) s.
Definition substr (pos count : nat) (s : string) : string := substring pos count s.

(** ** validator.h *)

Definition IPV4_HOST_PORT_RE : string :=
  "^(((25[0-5]|2[0-4][0-9]|1[0-9][0-9]|[0-9]{1,2})(\.(25[0-5]|2[0-4][0-9]|1[0-9][0-9]|[0-9]{1,2})){3})|(" +:+
  "localhost))(:((6553[0-5])|(655[0-2][0-9])|(65[0-4][0-9]{2})|" +:+
  "(6[0-4][0-9]{3})|([1-5][0-9]{4})|([1-5][0-5]{0,4})|([1-9][0-9]{0,3})))$".

Definition PORT_RE : string :=
  "^((6553[0-5])|(655[0-2][0-9])|(65[0-4][0-9]{2})|(6[0-4][0-9]{3})|" +:+
  "([1-5][0-9]{4})|([1-5][0-5]{0,4})|([1-9][0-9]{0,3}))$".

Section endpoint.
Context `{RE2}.

Definition IsInPortRange (value : string) (allowEmpty : bool) : bool :=
  if negb allowEmpty && bool_decide (value = EmptyString) then false else FullMatch PORT_RE value.

Definition IsValidIPv4HostPortString (value : string) : bool :=
  FullMatch IPV4_HOST_PORT_RE value || bool_decide (value = EmptyString).

Definition IsValidIPv6HostPortString (value : string) : bool :=
  if negb (bool_decide (String.get 0 value = Some "["%char)) then false
  else match find_last_of ":"%char value with
  | None => false
  | Some pos =>
      if negb (bool_decide (String.get (pos - 1) value = Some "]"%char)) then false
      else
        let addrPrefix := substr 1 4 value in
        if (bool_decide (addrPrefix = "fe80") || bool_decide (addrPrefix = "FE80")) &&
           negb (contains "%"%char value) then false
        else IsInPortRange (substr_from (pos + 1) value) false
  end.

(** [value[0]] of an empty string is the terminating NUL, not a bracket. *)
Definition ValidateHostPortString (value : string) : bool :=
  if negb (bool_decide (String.get 0 value = Some "["%char)) then IsValidIPv4HostPortString value
  else IsValidIPv6HostPortString value.

(** ** net_util *)

Record HostPort := { host_ : string; port_ : Z; isIPv6_ : bool }.

(** [HostPort endpoint;] *)
Definition default_HostPort : HostPort := {| host_ := ""; port_ := -1; isIPv6_ := false |}.

(** [HostPort(host, port)] *)
Definition new_HostPort (host : string) (port : Z) : HostPort :=
  {| host_ := host; port_ := port; isIPv6_ := contains ":"%char host |}.

(** Returns the out-parameters [host], [port] and [isIPv6].  [find_last_of]
    yields [npos] only for the empty string, where [pos + 1] wraps to 0. *)
Definition ParseToHostPortString (str : string) (isIPv6 : bool) : res (string * string * bool) :=
  if ValidateHostPortString str then
    let '(pos, next) := match find_last_of ":"%char str with
      | Some pos => (pos, (pos + 1)%nat)
      | None => (String.length str, O) end in
    let portNumStr := substr_from next str in
    if negb (bool_decide (String.get 0 str = Some "["%char))
    then Ok (substr 0 pos str, portNumStr, isIPv6)
    else Ok (substr 1 (pos - 2) str, portNumStr, true)
  else Err K_INVALID.

Definition ParseString (str : string) (self : HostPort) : res HostPort :=
  r ← ParseToHostPortString str (isIPv6_ self);
  let '(host, port, isIPv6) := r in
  Ok {| host_ := host; port_ := (StringToInt port (port_ self)).1; isIPv6_ := isIPv6 |}.

Definition ToString (self : HostPort) : string :=
  if bool_decide (host_ self = EmptyString) && (port_ self =? -1) then ""
  else if negb (isIPv6_ self) then host_ self +:+ ":" +:+ pretty (port_ self)
  else "[" +:+ host_ self +:+ "]:" +:+ pretty (port_ self).

(** The test [endpoint.ParseString(a).IsOk() && endpoint.ToString() == a] made
    on member addresses throughout the cluster code. *)
Definition canonical_address (address : string) : bool :=
  match ParseString address default_HostPort with
  | Ok endpoint => bool_decide (ToString endpoint = address)
  | Err _ => false
  end.
End endpoint.

(** What the theorems use of the engine: the strings each pattern matches.  A
    port is a decimal numeral from 1 to 65535 without leading zeros. *)
Definition is_port (s : string) : Prop := exists n, 1 <= n <= 65535 /\ s = pretty n.

Class RE2Laws `{RE2} := {
  port_language s : FullMatch PORT_RE s = true -> is_port s;
  ipv4_language s : FullMatch IPV4_HOST_PORT_RE s = true ->
    exists host port, s = host +:+ ":" +:+ port /\ is_port port /\
      host <> EmptyString /\ String.get 0 host <> Some "["%char
}.

(** ** Round trip of accepted endpoints *)

Lemma digit_of_pretty x : (x < 10)%N -> digit_of (pretty_N_char x) = Some (Z.of_N x).
Proof.
  intros Hx. assert (x ∈ [0;1;2;3;4;5;6;7;8;9]%N) as Hin by (rewrite !elem_of_cons; lia).
  rewrite !elem_of_cons in Hin. destruct_or! Hin; subst; try reflexivity.
  by apply not_elem_of_nil in Hin.
Qed.

Lemma read_digits_pretty_go x s :
  read_digits 0 (pretty_N_go x s) = read_digits (Z.of_N x) s.
Proof.
  revert s. induction (N.lt_wf_0 x) as [x _ IH]; intros s.
  destruct (decide (0 < x)%N) as [Hx|Hx].
  - rewrite pretty_N_go_step by done. rewrite IH by (apply N.div_lt; lia). cbn [read_digits].
    rewrite digit_of_pretty by (apply N.mod_lt; lia). f_equal.
    rewrite (N.div_mod x 10) at 3 by lia. lia.
  - assert (x = 0%N) as -> by lia. by rewrite pretty_N_go_0.
Qed.

Lemma pretty_N_go_head x s : (0 < x)%N -> has_digit (pretty_N_go x s) = true.
Proof.
  revert s. induction (N.lt_wf_0 x) as [x _ IH]; intros s Hx.
  rewrite pretty_N_go_step by done.
  destruct (decide (0 < x `div` 10)%N) as [Hd|Hd].
  - apply IH; [apply N.div_lt; lia|done].
  - assert (x `div` 10 = 0)%N as -> by (revert Hd; generalize (x `div` 10)%N; lia).
    rewrite pretty_N_go_0. cbn [has_digit].
    apply bool_decide_eq_true. rewrite digit_of_pretty by (apply N.mod_lt; lia). eauto.
Qed.

Lemma has_digit_no_sign a s : has_digit (String a s) = true ->
  is_space a = false /\ a <> "-"%char /\ a <> "+"%char.
Proof.
  cbn. intros [d Hd]%bool_decide_eq_true. unfold digit_of, is_space in *.
  case_match eqn:E; [|done]. apply andb_prop in E as [E1 E2].
  split; [|split; intros ->; vm_compute in E1; done].
  apply Z.leb_le in E1, E2. apply not_true_is_false. intros Hs.
  rewrite orb_true_iff, andb_true_iff, !Nat.leb_le, Nat.eqb_eq in Hs. lia.
Qed.

Lemma stoi_pretty n : 1 <= n < 2 ^ 31 -> stoi (pretty n) = Some n.
Proof.
  intros Hn. destruct n as [|p|p]; [lia| |lia]. change (pretty (Z.pos p)) with (pretty (N.pos p)).
  unfold pretty at 1, pretty_N. rewrite decide_False by done. unfold stoi.
  pose proof (pretty_N_go_head (N.pos p) "" eq_refl) as Hd.
  pose proof (read_digits_pretty_go (N.pos p) "") as Hr.
  destruct (pretty_N_go (N.pos p) "") as [|a s]; [done|].
  destruct (has_digit_no_sign a s Hd) as (Hs & Hm & Hp). cbn [skip_space]. rewrite Hs.
  assert (Hsign : match String a s with
    | String "-" s' => (true, s') | String "+" s' => (false, s') | _ => (false, String a s) end
    = (false, String a s)) by (destruct a as [[] [] [] [] [] [] [] []]; done).
  rewrite Hsign, Hd, Hr. cbn [read_digits Z.of_N].
  rewrite (proj2 (Z.leb_le _ _)), (proj2 (Z.ltb_lt _ _)) by lia. done.
Qed.

Lemma substring_app_l a b : substring 0 (String.length a) (a +:+ b) = a.
Proof. induction a as [|x a IH]; [by destruct b|]. by apply (f_equal (String x)), IH. Qed.

Lemma substring_all b : substring 0 (String.length b) b = b.
Proof. induction b as [|x b IH]; [done|]. by apply (f_equal (String x)), IH. Qed.

Lemma substr_from_app a b : substr_from (String.length a) (a +:+ b) = b.
Proof.
  unfold substr_from. induction a as [|x a IH]; cbn; [|done].
  rewrite Nat.sub_0_r. apply substring_all.
Qed.

#[local] Arguments String.append : simpl never.

Lemma append_String x (a b : string) : String x a +:+ b = String x (a +:+ b).
Proof. done. Qed.

Lemma str_length_app (a b : string) :
  String.length (a +:+ b) = (String.length a + String.length b)%nat.
Proof. induction a as [|x a IH]; [done|]. rewrite append_String. cbn. by rewrite IH. Qed.

Lemma get_app_length a x b : String.get (String.length a) (a +:+ String x b) = Some x.
Proof. induction a as [|y a IH]; [done|]. cbn. done. Qed.

Lemma find_last_of_Some c s pos : find_last_of c s = Some pos ->
  exists a b, s = a +:+ String c b /\ String.length a = pos.
Proof.
  revert pos. induction s as [|x s IH]; intros pos; cbn; [done|].
  destruct (find_last_of c s) as [n|]; intros.
  - simplify_eq. destruct (IH n eq_refl) as (a & b & -> & <-). by exists (String x a), b.
  - case_decide; simplify_eq. by exists EmptyString, s.
Qed.

Lemma find_last_of_last c a b : find_last_of c b = None ->
  find_last_of c (a +:+ String c b) = Some (String.length a).
Proof.
  intros Hb. induction a as [|x a IH].
  - change (EmptyString +:+ String c b) with (String c b). cbn [find_last_of]. rewrite Hb. by rewrite decide_True.
  - change (String x a +:+ String c b) with (String x (a +:+ String c b)).
    cbn [find_last_of]. by rewrite IH.
Qed.

Lemma string_snoc s : s <> EmptyString -> exists m x, s = m +:+ String x "".
Proof.
  induction s as [|x s IH]; [done|]. intros _. destruct s as [|y s].
  - by exists EmptyString, x.
  - destruct IH as (m & z & E); [done|]. rewrite E. by exists (String x m), z.
Qed.

Lemma str_app_nil (s : string) : s +:+ "" = s.
Proof. induction s as [|c s IH]; [done|]. by rewrite append_String, IH. Qed.

Lemma prefix_app a b : String.prefix a (a +:+ b) = true.
Proof.
  induction a as [|c a IH]; [by destruct b|]. rewrite append_String. cbn. destruct (ascii_dec c c); [done|congruence].
Qed.

Lemma str_app_assoc (a b c : string) : (a +:+ b) +:+ c = a +:+ b +:+ c.
Proof. induction a as [|x a IH]; [done|]. by apply (f_equal (String x)), IH. Qed.

Lemma find_last_of_colon_pretty_go x s : find_last_of ":" s = None ->
  find_last_of ":" (pretty_N_go x s) = None.
Proof.
  revert s. induction (N.lt_wf_0 x) as [x _ IH]; intros s Hs.
  destruct (decide (0 < x)%N) as [Hx|Hx].
  - rewrite pretty_N_go_step by done. apply IH; [apply N.div_lt; lia|]. cbn. rewrite Hs.
    rewrite decide_False; [done|]. intros E.
    assert (Hm : (x `mod` 10 < 10)%N) by (apply N.mod_lt; lia).
    apply digit_of_pretty in Hm. by rewrite E in Hm.
  - assert (x = 0%N) as -> by lia. by rewrite pretty_N_go_0.
Qed.

Lemma is_port_facts s : is_port s -> exists n, 1 <= n <= 65535 /\ s = pretty n /\
  stoi s = Some n /\ find_last_of ":" s = None.
Proof.
  intros (n & Hn & ->). exists n. split; [done|]. split; [done|].
  split; [apply stoi_pretty; lia|]. destruct n as [|p|p]; [lia| |lia].
  change (pretty (Z.pos p)) with (pretty (N.pos p)). unfold pretty, pretty_N.
  rewrite decide_False by done. by apply find_last_of_colon_pretty_go.
Qed.

Section roundtrip.
Context `{RE2Laws}.

(** The two shapes of an accepted, non-empty endpoint string. *)
Lemma ValidateHostPortString_shape str : str <> EmptyString -> ValidateHostPortString str = true ->
  exists port, is_port port /\
    ((exists host, str = host +:+ ":" +:+ port /\ host <> EmptyString /\
        String.get 0 host <> Some "["%char) \/
     (exists host, str = "[" +:+ host +:+ "]:" +:+ port)).
Proof.
  intros Hne. unfold ValidateHostPortString. case_bool_decide as Hb; cbn [negb].
  - unfold IsValidIPv6HostPortString. rewrite bool_decide_true by done. cbn [negb].
    destruct (find_last_of ":"%char str) as [pos|] eqn:Ef; [|done].
    case_bool_decide as Hbr; cbn [negb]; [|done]. case_match; [done|].
    destruct (find_last_of_Some _ _ _ Ef) as (a & b & -> & <-).
    unfold IsInPortRange. case_match; [done|]. intros Hp%port_language.
    replace (String.length a + 1)%nat with (String.length (a +:+ ":")) in Hp
      by (rewrite str_length_app; cbn; lia).
    replace (a +:+ String ":" b) with ((a +:+ ":") +:+ b) in Hp by (by rewrite str_app_assoc).
    rewrite substr_from_app in Hp. exists b. split; [done|]. right.
    destruct a as [|x a]; [discriminate Hb|]. rewrite append_String in Hb. cbn in Hb. simplify_eq.
    destruct (decide (a = EmptyString)) as [->|Ha]; [discriminate Hbr|].
    destruct (string_snoc a Ha) as (m & y & ->).
    cbn [String.length] in Hbr. rewrite str_length_app in Hbr.
    replace (S (String.length m + String.length (String y "")) - 1)%nat
      with (String.length (String "["%char m)) in Hbr by (cbn; lia).
    replace (String "[" (m +:+ String y "") +:+ String ":" b)
      with (String "["%char m +:+ String y (String ":" b)) in Hbr by (by rewrite !append_String, str_app_assoc).
    rewrite get_app_length in Hbr. simplify_eq. exists m. by rewrite !append_String, !str_app_assoc.
  - unfold IsValidIPv4HostPortString. rewrite (bool_decide_false (str = "")) by done.
    rewrite orb_false_r. intros (host & port & -> & Hp & Hh & Hg)%ipv4_language.
    exists port. split; [done|]. left. by exists host.
Qed.

Lemma ParseString_v4 host port n : is_port port -> port = pretty n -> 1 <= n <= 65535 ->
  host <> EmptyString -> String.get 0 host <> Some "["%char ->
  ValidateHostPortString (host +:+ ":" +:+ port) = true ->
  ParseString (host +:+ ":" +:+ port) default_HostPort =
    Ok {| host_ := host; port_ := n; isIPv6_ := false |}.
Proof.
  intros Hp -> Hn Hne Hg Hv. destruct (is_port_facts _ Hp) as (k & _ & _ & _ & Hcolon).
  unfold ParseString, ParseToHostPortString. rewrite Hv.
  change (":" +:+ pretty n) with (String ":" (pretty n)). rewrite find_last_of_last by done.
  rewrite bool_decide_false by (destruct host; [done|exact Hg]). cbn [negb mbind res_bind].
  unfold substr. rewrite substring_app_l.
  replace (String.length host + 1)%nat with (String.length (host +:+ ":"))
    by (rewrite str_length_app; done).
  replace (host +:+ String ":" (pretty n)) with ((host +:+ ":") +:+ pretty n)
    by (by rewrite str_app_assoc).
  rewrite substr_from_app. unfold StringToInt. by rewrite stoi_pretty by lia.
Qed.

Lemma ParseString_v6 host port n : is_port port -> port = pretty n -> 1 <= n <= 65535 ->
  ValidateHostPortString ("[" +:+ host +:+ "]:" +:+ port) = true ->
  ParseString ("[" +:+ host +:+ "]:" +:+ port) default_HostPort =
    Ok {| host_ := host; port_ := n; isIPv6_ := true |}.
Proof.
  intros Hp -> Hn Hv. destruct (is_port_facts _ Hp) as (k & _ & _ & _ & Hcolon).
  unfold ParseString, ParseToHostPortString. rewrite Hv.
  set (a := "[" +:+ host +:+ "]").
  assert (Ha : "[" +:+ host +:+ "]:" +:+ pretty n = a +:+ String ":" (pretty n))
    by (unfold a; by rewrite !str_app_assoc).
  assert (Hl : String.length a = (2 + String.length host)%nat)
    by (unfold a; rewrite !str_length_app; cbn; lia).
  rewrite Ha, find_last_of_last by done.
  rewrite bool_decide_true by done. cbn [negb mbind res_bind].
  replace (substr 1 (String.length a - 2) (a +:+ String ":" (pretty n))) with host.
  2:{ rewrite Hl. unfold a, substr.
      change (substring 1 ?k (("[" +:+ host +:+ "]") +:+ ?t))
        with (substring 0 k ((host +:+ "]") +:+ t)).
      replace (2 + String.length host - 2)%nat with (String.length host) by lia.
      rewrite str_app_assoc. by rewrite substring_app_l. }
  replace (String.length a + 1)%nat with (String.length (a +:+ ":"))
    by (rewrite str_length_app; done).
  replace (a +:+ String ":" (pretty n)) with ((a +:+ ":") +:+ pretty n)
    by (by rewrite str_app_assoc).
  rewrite substr_from_app. unfold StringToInt. by rewrite stoi_pretty by lia.
Qed.

(** parsing and printing endpoints round-trip.  A string is accepted by the
    validator exactly when it parses and prints back to itself, so the
    "canonical address" test rejects no valid address; an accepted non-empty
    string parses to a port between 1 and 65535 and a flag that says whether it
    is bracketed. *)
Theorem HostPort_roundtrip str :
  canonical_address str = ValidateHostPortString str /\
  (ValidateHostPortString str = true -> str <> EmptyString ->
   exists e, ParseString str default_HostPort = Ok e /\ ToString e = str /\
     1 <= port_ e <= 65535 /\ (isIPv6_ e = true <-> String.get 0 str = Some "["%char)).
Proof.
  assert (Hmain : ValidateHostPortString str = true -> str <> EmptyString ->
   exists e, ParseString str default_HostPort = Ok e /\ ToString e = str /\
     1 <= port_ e <= 65535 /\ (isIPv6_ e = true <-> String.get 0 str = Some "["%char)).
  { intros Hv Hne. destruct (ValidateHostPortString_shape str Hne Hv)
      as (port & Hp & [(host & -> & Hh & Hg)|(host & ->)]).
    - destruct (is_port_facts _ Hp) as (n & Hn & Heq & _).
      eexists. split; [by eapply ParseString_v4|].
      split_and!; [|cbn; lia..|destruct host; [done|by split]].
      unfold ToString. cbn [host_ port_ isIPv6_]. rewrite bool_decide_false by done. by subst.
    - destruct (is_port_facts _ Hp) as (n & Hn & Heq & _).
      eexists. split; [by eapply ParseString_v6|].
      split_and!; [|cbn; lia..|done].
      unfold ToString. cbn [host_ port_ isIPv6_].
      rewrite (proj2 (Z.eqb_neq n (-1))) by lia. rewrite andb_false_r. by subst. }
  split; [|done]. destruct (ValidateHostPortString str) eqn:Hv.
  - destruct (decide (str = EmptyString)) as [->|Hne].
    + unfold canonical_address, ParseString, ParseToHostPortString. by rewrite Hv.
    + destruct (Hmain eq_refl Hne) as (e & He & Hs & _). unfold canonical_address. rewrite He.
      by apply bool_decide_true.
  - unfold canonical_address, ParseString, ParseToHostPortString. by rewrite Hv.
Qed.
End roundtrip.

(** ** A concrete engine, used only to evaluate examples

    It recognises the two languages directly and satisfies [RE2Laws]. *)
Module ReferenceEngine.

Fixpoint split_on (c : ascii) (s : string) : list string :=
  match s with
  | EmptyString => [EmptyString]
  | String a s' =>
      if decide (a = c) then EmptyString :: split_on c s'
      else match split_on c s' with
           | part :: parts => String a part :: parts
           | [] => [String a EmptyString]
           end
  end.

Definition all_digits (s : string) : bool :=
  forallb (fun a => bool_decide (is_Some (digit_of a))) (String.list_ascii_of_string s).

Definition is_octet (s : string) : bool :=
  all_digits s &&
  match String.length s with
  | 1%nat | 2%nat => true
  | 3%nat => (100 <=? read_digits 0 s) && (read_digits 0 s <=? 255)
  | _ => false
  end.

Definition is_host (s : string) : bool :=
  bool_decide (s = "localhost") ||
  has_digit s && (length (split_on "." s) =? 4)%nat && forallb is_octet (split_on "." s).

Definition port_matches (s : string) : bool :=
  match stoi s with
  | Some n => (1 <=? n) && (n <=? 65535) && bool_decide (s = pretty n)
  | None => false
  end.

Definition endpoint_matches (s : string) : bool :=
  match find_last_of ":" s with
  | Some pos => is_host (substr 0 pos s) && port_matches (substr_from (pos + 1) s)
  | None => false
  end.

#[export] Instance engine : RE2 := fun pattern value =>
  if decide (pattern = PORT_RE) then port_matches value
  else if decide (pattern = IPV4_HOST_PORT_RE) then endpoint_matches value
  else false.

Lemma port_matches_sound s : port_matches s = true -> is_port s.
Proof.
  unfold port_matches. destruct (stoi s) as [n|]; [|done].
  intros [[H1%Z.leb_le H2%Z.leb_le]%andb_prop H3%bool_decide_eq_true]%andb_prop.
  by exists n.
Qed.

#[export] Instance engine_laws : RE2Laws.
Proof.
  split; intros s; unfold FullMatch, engine.
  - rewrite decide_True by done. apply port_matches_sound.
  - rewrite decide_False by done. rewrite decide_True by done. unfold endpoint_matches.
    destruct (find_last_of ":" s) as [pos|] eqn:E; [|done].
    destruct (find_last_of_Some _ _ _ E) as (a & b & -> & <-).
    unfold substr. rewrite substring_app_l.
    replace (String.length a + 1)%nat with (String.length (a +:+ ":")) by (rewrite str_length_app; done).
    replace (substr_from (String.length (a +:+ ":")) (a +:+ String ":" b)) with b
      by (replace (a +:+ String ":" b) with ((a +:+ ":") +:+ b) by (by rewrite str_app_assoc);
          by rewrite substr_from_app).
    intros [Hh Hp%port_matches_sound]%andb_prop. exists a, b. split; [done|]. split; [done|].
    unfold is_host in Hh. destruct a as [|x a]; [done|]. split; [done|]. cbn. intros [= ->].
    by rewrite !bool_decide_false in Hh by (intros; by destruct_and?; discriminate || naive_solver).
Qed.
End ReferenceEngine.

Import ReferenceEngine.

Lemma HostPort_roundtrip_witness :
  exists e, ParseString "[fe80::1%eth0]:31501" default_HostPort = Ok e /\
    ToString e = "[fe80::1%eth0]:31501" /\ isIPv6_ e = true.
Proof.
  destruct (HostPort_roundtrip "[fe80::1%eth0]:31501") as [_ Hrt].
  destruct Hrt as (e & He & Hs & _ & Hv6); [vm_compute; reflexivity|discriminate|].
  exists e. split; [exact He|]. split; [exact Hs|]. apply Hv6. reflexivity.
Defined.
