(* ===== verification/KeyHelper.v ===== *)
(** * Keyspace of the cluster topology

    src/datasystem/cluster/repository/topology_key_helper.{h,cpp}: the physical
    tables of a cluster, the validation of logical keys and the classification
    of raw watch keys.  The theorems show that keys are classified by the table
    they were built from, and that two clusters never share a key. *)

From S2P Require Import Prelude HostPort.

#[local] Arguments String.append : simpl never.

Definition MAX_CLUSTER_NAME_SIZE : nat := 128.
Definition TASK_DIGEST_SIZE : nat := 32.
Definition TASK_KIND_PREFIX_SIZE : nat := 3.
Definition MIN_TASK_ID_SIZE : nat := TASK_KIND_PREFIX_SIZE + 1 + 1 + TASK_DIGEST_SIZE.
Definition MAX_SOURCE_ID_SIZE : nat := 128.
Definition COORDINATION_CLUSTER_TABLE : string := "datasystem/cluster".
Definition COORDINATION_CONTROL_TABLE : string := "control".
Definition ROOT_PREFIX : string := "/datasystem".
Definition RESERVED_CLUSTER_NAMES : list string :=
  ["topology"; "tasks"; "notify"; "probe"; "cluster"; "ub_health"; "scale-in-metadata-done"; COORDINATION_CONTROL_TABLE].

Definition in_chars (lo hi c : ascii) : bool := (nat_of_ascii lo <=? nat_of_ascii c)%nat && (nat_of_ascii c <=? nat_of_ascii hi)%nat.

Definition IsAlphaNumeric (value : ascii) : bool := in_chars "0" "9" value || in_chars "A" "Z" value || in_chars "a" "z" value.

Definition IsLowerHex (value : ascii) : bool := in_chars "0" "9" value || in_chars "a" "f" value.

Definition all_chars (p : ascii -> bool) (s : string) : bool := forallb p (String.list_ascii_of_string s).

Definition IsValidClusterName (name : string) : bool :=
  match name with
  | EmptyString => false
  | String front _ =>
      if (MAX_CLUSTER_NAME_SIZE <? String.length name)%nat || negb (IsAlphaNumeric front) then false
      else if bool_decide (name ∈ RESERVED_CLUSTER_NAMES) then false
      else all_chars (fun c => IsAlphaNumeric c || bool_decide (c = ".")%char || bool_decide (c = "_")%char ||
                               bool_decide (c = "-")%char) name
  end.

Definition MatchesExactPhysicalKey (physicalKey table relativeKey : string) : bool :=
  let separator := String.length table in
  (String.length physicalKey =? separator + 1 + String.length relativeKey)%nat &&
  bool_decide (substr 0 separator physicalKey = table) &&
  bool_decide (String.get separator physicalKey = Some "/"%char) &&
  bool_decide (substr (separator + 1) (String.length relativeKey) physicalKey = relativeKey).

Definition MatchesPhysicalTablePrefix (physicalKey table : string) : bool :=
  (String.length table + 1 <=? String.length physicalKey)%nat &&
  bool_decide (substr 0 (String.length table) physicalKey = table) &&
  bool_decide (String.get (String.length table) physicalKey = Some "/"%char).

(** [s.find(c, pos)]. *)
Fixpoint find_char (c : ascii) (s : string) : option nat :=
  match s with
  | EmptyString => None
  | String a s' => if decide (a = c) then Some O else S <$> find_char c s'
  end.
Definition find_from (c : ascii) (pos : nat) (s : string) : option nat := Nat.add pos <$> find_char c (substr_from pos s).

Definition is_digit (c : ascii) : bool := in_chars "0" "9" c.

Definition IsValidTaskId (taskId : string) : bool :=
  if (String.length taskId <? MIN_TASK_ID_SIZE)%nat ||
     (negb (String.prefix "m-e" taskId) && negb (String.prefix "d-e" taskId)) then false
  else match find_from "-" TASK_KIND_PREFIX_SIZE taskId with
  | None => false
  | Some separator =>
      match String.get TASK_KIND_PREFIX_SIZE taskId with
      | None => false
      | Some first =>
          if (separator =? TASK_KIND_PREFIX_SIZE)%nat || negb (in_chars "1" "9" first) ||
             negb (String.length taskId - separator - 1 =? TASK_DIGEST_SIZE)%nat then false
          else all_chars is_digit (substr TASK_KIND_PREFIX_SIZE (separator - TASK_KIND_PREFIX_SIZE) taskId) &&
               all_chars IsLowerHex (substr_from (separator + 1) taskId)
      end
  end.

Section keys.
Context `{RE2}.

Definition ValidateAddress (address : string) : res unit :=
  if bool_decide (address = EmptyString) then Err K_INVALID
  else check (canonical_address address) K_INVALID.

Definition TaskKey (taskId : string) : res string := if IsValidTaskId taskId then Ok taskId else Err K_INVALID.
Definition NotifyKey (address : string) : res string := _ ← ValidateAddress address; Ok address.
Definition ProbeKey (address : string) : res string := _ ← ValidateAddress address; Ok address.
Definition MembershipKey (address : string) : res string := _ ← ValidateAddress address; Ok address.
Definition UbHealthKey (address : string) : res string := _ ← ValidateAddress address; Ok address.
End keys.

Definition ValidateSourceId (sourceId : string) : res unit :=
  check (negb (bool_decide (sourceId = EmptyString)) && (String.length sourceId <=? MAX_SOURCE_ID_SIZE)%nat) K_INVALID.

Definition LOWER_HEX : string := "0123456789abcdef".

(** [LOWER_HEX[nibble]]. *)
Definition hex_at (nibble : nat) : ascii := default "0"%char (String.get nibble LOWER_HEX).

Fixpoint EncodeScaleInMetadataSourceId (sourceId : string) : string :=
  match sourceId with
  | EmptyString => EmptyString
  | String value rest =>
      String (hex_at (Nat.shiftr (nat_of_ascii value) 4))
        (String (hex_at (Nat.land (nat_of_ascii value) 15)) (EncodeScaleInMetadataSourceId rest))
  end.

Definition ScaleInMetadataDonePrefix (batchEpoch : Z) (sourceId : string) : res string :=
  _ ← check (0 <? batchEpoch) K_INVALID;
  _ ← ValidateSourceId sourceId;
  Ok ("e" +:+ pretty batchEpoch +:+ "/" +:+ EncodeScaleInMetadataSourceId sourceId +:+ "/").

Definition ScaleInMetadataDoneKey (batchEpoch : Z) (sourceId taskId : string) : res string :=
  prefix ← ScaleInMetadataDonePrefix batchEpoch sourceId;
  key ← TaskKey taskId;
  Ok (prefix +:+ key).

Record TopologyKeyHelper := {
  clusterName_ : string;
  topologyTable_ : string;
  migrateTaskTable_ : string;
  deleteTaskTable_ : string;
  notifyTable_ : string;
  probeTable_ : string;
  membershipTable_ : string;
  ubHealthTable_ : string;
  etcdMembershipTablePrefix_ : string;
  scaleInMetadataDoneTable_ : string;
  rolloutTable_ : string
}.

Definition new_TopologyKeyHelper (clusterName : string) : TopologyKeyHelper :=
  let root := if bool_decide (clusterName = EmptyString) then ROOT_PREFIX else ROOT_PREFIX +:+ "/" +:+ clusterName in
  let legacyMembershipTable := "/" +:+ COORDINATION_CLUSTER_TABLE in
  {| clusterName_ := clusterName;
     topologyTable_ := root +:+ "/topology";
     migrateTaskTable_ := root +:+ "/tasks/migrate";
     deleteTaskTable_ := root +:+ "/tasks/delete";
     notifyTable_ := root +:+ "/notify";
     probeTable_ := root +:+ "/probe";
     membershipTable_ := root +:+ "/cluster";
     ubHealthTable_ := root +:+ "/ub_health";
     etcdMembershipTablePrefix_ := if bool_decide (clusterName = EmptyString) then legacyMembershipTable
                                   else "/" +:+ clusterName +:+ legacyMembershipTable;
     scaleInMetadataDoneTable_ := root +:+ "/scale-in-metadata-done";
     rolloutTable_ := root +:+ "/" +:+ COORDINATION_CONTROL_TABLE |}.

Definition Create (clusterName : string) : res TopologyKeyHelper :=
  if negb (bool_decide (clusterName = EmptyString)) && negb (IsValidClusterName clusterName) then Err K_INVALID
  else Ok (new_TopologyKeyHelper clusterName).

Inductive TopologyPhysicalKeyKind :=
  | KIND_UNKNOWN | KIND_TOPOLOGY | KIND_LOCAL_NOTIFY | KIND_LOCAL_PROBE | KIND_MEMBERSHIP | KIND_MIGRATE_TASK | KIND_DELETE_TASK.
#[global] Instance TopologyPhysicalKeyKind_eq_dec : EqDecision TopologyPhysicalKeyKind.
Proof. solve_decision. Defined.

Definition TopologyKey : string := EmptyString.

Definition ClassifyPhysicalKey (physicalKey localAddress : string) (self : TopologyKeyHelper) : TopologyPhysicalKeyKind :=
  if MatchesExactPhysicalKey physicalKey (topologyTable_ self) TopologyKey then KIND_TOPOLOGY
  else if MatchesExactPhysicalKey physicalKey (notifyTable_ self) localAddress then KIND_LOCAL_NOTIFY
  else if MatchesExactPhysicalKey physicalKey (probeTable_ self) localAddress then KIND_LOCAL_PROBE
  else if MatchesPhysicalTablePrefix physicalKey (membershipTable_ self) ||
          MatchesPhysicalTablePrefix physicalKey (etcdMembershipTablePrefix_ self) then KIND_MEMBERSHIP
  else if MatchesPhysicalTablePrefix physicalKey (migrateTaskTable_ self) then KIND_MIGRATE_TASK
  else if MatchesPhysicalTablePrefix physicalKey (deleteTaskTable_ self) then KIND_DELETE_TASK
  else KIND_UNKNOWN.

(** ** Matching *)

Lemma split_by_prefix table c k : substring 0 (String.length table) k = table ->
  String.get (String.length table) k = Some c ->
  exists rest, k = table +:+ String c rest.
Proof.
  revert k. induction table as [|x table IH]; intros k Hs Hg.
  - destruct k as [|a k]; cbn in Hg; [done|]. injection Hg as ->. by exists k.
  - destruct k as [|a k]; cbn in Hs, Hg; [done|]. injection Hs as -> Hs.
    destruct (IH k Hs Hg) as [rest ->]. by exists rest.
Qed.

Lemma substring_drop_app (a b : string) n : substring (String.length a) n (a +:+ b) = substring 0 n b.
Proof. induction a as [|x a IH]; [done|]. exact IH. Qed.

Lemma MatchesPrefix_spec k table : MatchesPhysicalTablePrefix k table = true <-> exists rest, k = table +:+ "/" +:+ rest.
Proof.
  unfold MatchesPhysicalTablePrefix, substr. rewrite !andb_true_iff, !bool_decide_eq_true. split.
  - intros [[_ Hs] Hg]. by apply split_by_prefix.
  - intros [rest ->]. split_and!.
    + apply Nat.leb_le. rewrite !str_length_app. cbn. lia.
    + apply substring_app_l.
    + apply get_app_length.
Qed.

Lemma MatchesExact_spec k table rel : MatchesExactPhysicalKey k table rel = true <-> k = table +:+ "/" +:+ rel.
Proof.
  unfold MatchesExactPhysicalKey, substr. rewrite !andb_true_iff, !bool_decide_eq_true, Nat.eqb_eq. split.
  - intros [[[Hlen Hs] Hg] Hrel]. destruct (split_by_prefix _ _ _ Hs Hg) as [rest ->].
    replace (String.length table + 1)%nat with (String.length (table +:+ "/")) in Hrel by (rewrite str_length_app; done).
    replace (table +:+ String "/" rest) with ((table +:+ "/") +:+ rest) in Hrel by (by rewrite str_app_assoc).
    rewrite substring_drop_app in Hrel. rewrite str_length_app in Hlen. cbn in Hlen.
    assert (String.length rest = String.length rel) as Hl by lia. rewrite <-Hl, substring_all in Hrel. by subst.
  - intros ->. split_and!.
    + rewrite !str_length_app. cbn. lia.
    + apply substring_app_l.
    + apply get_app_length.
    + replace (String.length table + 1)%nat with (String.length (table +:+ "/")) by (rewrite str_length_app; done).
      rewrite <-str_app_assoc, substring_drop_app. apply substring_all.
Qed.

(** ** Paths as lists of segments *)

Fixpoint split_slash (s : string) : list string :=
  match s with
  | EmptyString => [EmptyString]
  | String a s' =>
      if decide (a = "/"%char) then EmptyString :: split_slash s'
      else match split_slash s' with
           | part :: parts => String a part :: parts
           | [] => [String a EmptyString]
           end
  end.

Definition slash_free (s : string) : Prop := "/"%char ∉ String.list_ascii_of_string s.

Definition path (l : list string) : string := foldr (fun seg s => "/" +:+ seg +:+ s) EmptyString l.

Lemma split_slash_nonempty s : split_slash s <> [].
Proof. destruct s as [|x s]; [done|]. cbn. case_decide; [done|]. by destruct (split_slash s). Qed.

Lemma split_slash_app (a b : string) : split_slash (a +:+ "/" +:+ b) = split_slash a ++ split_slash b.
Proof.
  induction a as [|x a IH]; [done|]. rewrite append_String. cbn [split_slash]. rewrite IH.
  case_decide; [done|]. pose proof (split_slash_nonempty a). by destruct (split_slash a).
Qed.

Lemma split_slash_free s : slash_free s -> split_slash s = [s].
Proof.
  induction s as [|x s IH]; intros Hs; [done|]. unfold slash_free in *. cbn in Hs. apply not_elem_of_cons in Hs as [Hx Hs].
  cbn [split_slash]. rewrite decide_False by congruence. by rewrite IH.
Qed.

Lemma split_path_segs l rest : Forall slash_free l ->
  split_slash (path l +:+ "/" +:+ rest) = EmptyString :: l ++ split_slash rest.
Proof.
  induction l as [|x l IH]; intros Hl; [done|]. inversion Hl as [|?? Hx Hl']; subst.
  cbn [path foldr]. fold (path l). rewrite !str_app_assoc.
  change ("/" +:+ x +:+ path l +:+ "/" +:+ rest) with (EmptyString +:+ "/" +:+ x +:+ path l +:+ "/" +:+ rest).
  rewrite split_slash_app. cbn [split_slash app].
  assert (Hgo : split_slash (x +:+ path l +:+ "/" +:+ rest) = x :: l ++ split_slash rest); [|by rewrite Hgo].
  specialize (IH Hl'). destruct l as [|y l].
  - change (path [] +:+ "/" +:+ rest) with ("/" +:+ rest). rewrite split_slash_app, split_slash_free by done. done.
  - cbn [path foldr] in *. fold (path l) in *. rewrite !str_app_assoc in *.
    change ("/" +:+ y +:+ path l +:+ "/" +:+ rest) with (EmptyString +:+ "/" +:+ y +:+ path l +:+ "/" +:+ rest) in IH.
    rewrite split_slash_app in IH. cbn [split_slash app] in IH. injection IH as IH.
    rewrite split_slash_app, split_slash_free, IH by done. done.
Qed.

Lemma valid_name_slash_free name : IsValidClusterName name = true -> slash_free name /\ name ∉ RESERVED_CLUSTER_NAMES /\ name <> EmptyString.
Proof.
  unfold IsValidClusterName. destruct name as [|x name]; [done|]. case_match; [done|].
  destruct (bool_decide (String x name ∈ RESERVED_CLUSTER_NAMES)) eqn:Er; [done|].
  apply bool_decide_eq_false in Er. intros Hall. split_and!; [|done|done].
  unfold slash_free. intros Hin. unfold all_chars in Hall. rewrite forallb_elem in Hall. by specialize (Hall _ Hin).
Qed.

(** The segments of the watched tables of a cluster. *)
Definition root_segments (name : string) : list string :=
  if bool_decide (name = EmptyString) then ["datasystem"] else ["datasystem"; name].

Definition table_segments (name : string) : list (list string) :=
  [root_segments name ++ ["topology"]; root_segments name ++ ["notify"]; root_segments name ++ ["probe"];
   root_segments name ++ ["cluster"]; (if bool_decide (name = EmptyString) then [] else [name]) ++ ["datasystem"; "cluster"];
   root_segments name ++ ["tasks"; "migrate"]; root_segments name ++ ["tasks"; "delete"]].

Lemma tables_are_paths name : let h := new_TopologyKeyHelper name in
  [topologyTable_ h; notifyTable_ h; probeTable_ h; membershipTable_ h; etcdMembershipTablePrefix_ h;
   migrateTaskTable_ h; deleteTaskTable_ h] = path <$> table_segments name.
Proof.
  cbv zeta. unfold new_TopologyKeyHelper, table_segments, root_segments. case_bool_decide; [done|].
  cbn. rewrite !str_app_assoc. done.
Qed.

(** A classified key lies below one of the tables. *)
Lemma classified_in_table k local name : ClassifyPhysicalKey k local (new_TopologyKeyHelper name) <> KIND_UNKNOWN ->
  exists segs rest, segs ∈ table_segments name /\ k = path segs +:+ "/" +:+ rest.
Proof.
  intros Hk.
  assert (Htab : exists table rest, table ∈ path <$> table_segments name /\ k = table +:+ "/" +:+ rest).
  { rewrite <-tables_are_paths. unfold ClassifyPhysicalKey in Hk. set (h := new_TopologyKeyHelper name) in *.
    repeat match type of Hk with
    | (if ?b then _ else _) <> _ => destruct b eqn:?
    end; try done;
    repeat match goal with
    | H : MatchesExactPhysicalKey _ _ _ = true |- _ => apply MatchesExact_spec in H
    | H : (_ || _) = true |- _ => apply orb_true_iff in H as [H|H]
    | H : MatchesPhysicalTablePrefix _ _ = true |- _ => apply MatchesPrefix_spec in H as [? H]
    | H : _ = false |- _ => clear H
    end; do 2 eexists; (split; [|eassumption]); apply list_elem_of_In; cbn; tauto. }
  destruct Htab as (table & rest & Ht & ->). apply list_elem_of_fmap in Ht as (segs & -> & Hs). eauto.
Qed.

Definition usable_name (name : string) : Prop := name = EmptyString \/ IsValidClusterName name = true.

Lemma table_segments_free name segs : usable_name name -> segs ∈ table_segments name -> Forall slash_free segs.
Proof.
  intros Hn Hs. assert (Hname : slash_free name).
  { destruct Hn as [->|Hn]; [apply not_elem_of_nil|by apply valid_name_slash_free]. }
  assert (Hlit : Forall slash_free ["datasystem"; "topology"; "notify"; "probe"; "cluster"; "tasks"; "migrate"; "delete"]%string).
  { repeat constructor; unfold slash_free; rewrite list_elem_of_In; cbn; intuition discriminate. }
  rewrite Forall_forall in *. intros x Hx. unfold table_segments, root_segments in Hs.
  destruct (decide (x = name)) as [->|Hne]; [done|]. apply Hlit.
  apply list_elem_of_In in Hs, Hx. apply list_elem_of_In.
  case_bool_decide; cbn in Hs; (repeat destruct Hs as [<-|Hs]); cbn in Hx; cbn; intuition congruence.
Qed.

(** Tables of different clusters are on different branches. *)
Lemma tables_disjoint n m s1 s2 r1 r2 : usable_name n -> usable_name m -> n <> m ->
  s1 ∈ table_segments n -> s2 ∈ table_segments m -> s1 ++ r1 = s2 ++ r2 -> False.
Proof.
  intros Hn Hm Hne H1 H2 Heq.
  assert (Hres : forall x, usable_name x -> x ∈ RESERVED_CLUSTER_NAMES -> False).
  { intros x [->|Hx] Hin; [|by apply valid_name_slash_free in Hx as (_ & ? & _)].
    apply list_elem_of_In in Hin. cbn in Hin. intuition discriminate. }
  assert (Hlit : forall x, x ∈ RESERVED_CLUSTER_NAMES -> n <> x /\ m <> x) by (intros x Hx; split; intros <-; eauto).
  destruct (Hlit "topology") as [??]; [by left|]. destruct (Hlit "tasks") as [??]; [right; by left|].
  destruct (Hlit "notify") as [??]; [do 2 right; by left|]. destruct (Hlit "probe") as [??]; [do 3 right; by left|].
  destruct (Hlit "cluster") as [??]; [do 4 right; by left|]. clear Hlit Hres Hn Hm.
  apply list_elem_of_In in H1, H2. unfold table_segments, root_segments in H1, H2.
  repeat case_bool_decide; cbn in H1, H2; (repeat destruct H1 as [<-|H1]); try done;
    (repeat destruct H2 as [<-|H2]); try done; cbn in Heq; congruence.
Qed.

(** Clusters are isolated: a key that one cluster's helper classifies as anything
    but unknown is unknown to the helper of every other cluster. *)
Theorem clusters_isolated n m h h' k local local' :
  Create n = Ok h -> Create m = Ok h' -> n <> m ->
  ClassifyPhysicalKey k local h <> KIND_UNKNOWN -> ClassifyPhysicalKey k local' h' = KIND_UNKNOWN.
Proof.
  intros Hh Hh' Hne Hk.
  assert (Huse : forall x y, Create x = Ok y -> usable_name x /\ y = new_TopologyKeyHelper x).
  { intros x y Hx. unfold Create in Hx. destruct (negb _ && negb _) eqn:E; [done|]. injection Hx as <-. split; [|done].
    apply andb_false_iff in E as [E|E]; apply negb_false_iff in E; [left; by apply bool_decide_eq_true in E|by right]. }
  destruct (Huse _ _ Hh) as [Hn ->], (Huse _ _ Hh') as [Hm ->].
  destruct (decide (ClassifyPhysicalKey k local' (new_TopologyKeyHelper m) = KIND_UNKNOWN)) as [|Hk']; [done|exfalso].
  destruct (classified_in_table _ _ _ Hk) as (s1 & r1 & H1 & ->).
  destruct (classified_in_table _ _ _ Hk') as (s2 & r2 & H2 & Heq).
  apply (f_equal split_slash) in Heq. rewrite !split_path_segs in Heq by eauto using table_segments_free.
  injection Heq as Heq. by eapply (tables_disjoint n m s1 s2).
Qed.

Lemma clusters_isolated_witness : exists h h', Create "a" = Ok h /\ Create "b" = Ok h' /\
  ClassifyPhysicalKey "/datasystem/a/tasks/migrate/x" "l" h = KIND_MIGRATE_TASK /\
  ClassifyPhysicalKey "/datasystem/a/tasks/migrate/x" "l" h' = KIND_UNKNOWN.
Proof.
  destruct (Create "a") as [h|c] eqn:Ea; [|vm_compute in Ea; discriminate Ea].
  destruct (Create "b") as [h'|c] eqn:Eb; [|vm_compute in Eb; discriminate Eb].
  exists h, h'. split; [reflexivity|]. split; [reflexivity|].
  assert (Hk : ClassifyPhysicalKey "/datasystem/a/tasks/migrate/x" "l" h = KIND_MIGRATE_TASK)
    by (vm_compute in Ea; injection Ea as <-; vm_compute; reflexivity).
  split; [exact Hk|].
  apply (clusters_isolated "a" "b" h h' "/datasystem/a/tasks/migrate/x" "l" "l" Ea Eb); [discriminate|].
  rewrite Hk. discriminate.
Defined.
