(* ===== verification/Hasher.v ===== *)
(** * Content digests

    [Hasher] of src/datasystem/common/ak_sk/hasher.cpp as the cluster code uses
    it.  The SHA-256 primitive belongs to OpenSSL and enters as the class
    [SHA256]; hex encoding and the canonical text of a string map are modelled. *)

From S2P Require Import Prelude Ordered HostPort.

(** [HashSHA256(data)]: the digest bytes, or an error of the library. *)
Class SHA256 := HashSHA256 (data : string) : res (list Z).

(** A digest has 32 bytes. *)
Class SHA256Laws `{SHA256} : Prop :=
  sha256_length data digest : HashSHA256 data = Ok digest -> length digest = 32%nat /\ Forall (fun b => 0 <= b < 256) digest.

Definition hex_digit (d : Z) : ascii :=
  ascii_of_nat (Z.to_nat (if d <? 10 then 48 + d else 97 + (d - 10))).

(** [sprintf("%02x", byte)] per byte. *)
Fixpoint HexEncode (bytes : list Z) : string :=
  match bytes with
  | [] => EmptyString
  | b :: bytes => String (hex_digit (b / 16)) (String (hex_digit (b mod 16)) (HexEncode bytes))
  end.

(** [std::to_string(size) + ":"] followed by the bytes. *)
Definition length_prefixed (s : string) : string :=
  pretty (N.of_nat (String.length s)) +:+ ":" +:+ s.

Definition append_entry (kv : string * string) (rest : string) : string :=
  length_prefixed kv.1 +:+ length_prefixed kv.2 +:+ rest.

Definition canonical_entries (entries : list (string * string)) : string :=
  foldr append_entry EmptyString entries.

Definition string_map_canonical (values : gmap string string) : string :=
  canonical_entries (sort_on (fun kv => kv) (map_to_list values)).

Section hasher.
Context `{SHA256}.

Definition GetSha256Hex (str : string) : res string :=
  digest ← HashSHA256 str; Ok (HexEncode digest).

Definition GetStringMapSha256Hex (values : gmap string string) : res string :=
  GetSha256Hex (string_map_canonical values).
End hasher.

(** ** The canonical text determines the map *)

Lemma find_last_of_pretty (n : N) : find_last_of ":" (pretty n) = None.
Proof.
  unfold pretty, pretty_N. case_decide; [done|]. by apply find_last_of_colon_pretty_go.
Qed.

Lemma split_at_colon (a b x y : string) :
  find_last_of ":" a = None -> find_last_of ":" b = None ->
  a +:+ String ":" x = b +:+ String ":" y -> a = b /\ x = y.
Proof.
  revert b. induction a as [|c a IH]; intros [|d b] Ha Hb; rewrite ?append_String.
  - intros [= ->]. done.
  - intros [= <- _]. cbn in Hb. destruct (find_last_of ":" b); [done|]. by rewrite decide_True in Hb.
  - intros [= -> _]. cbn in Ha. destruct (find_last_of ":" a); [done|]. by rewrite decide_True in Ha.
  - intros [= -> E]. cbn in Ha, Hb.
    destruct (find_last_of ":" a) eqn:Ea; [done|]. destruct (find_last_of ":" b) eqn:Eb; [done|].
    destruct (IH b eq_refl Eb E) as [-> ->]. done.
Qed.

Lemma append_inj_length (a b x y : string) : String.length a = String.length b ->
  a +:+ x = b +:+ y -> a = b /\ x = y.
Proof.
  revert b. induction a as [|c a IH]; intros [|d b] Hl; cbn in Hl; try done.
  rewrite !append_String. intros [= -> E]. destruct (IH b ltac:(lia) E) as [-> ->]. done.
Qed.

Lemma length_prefixed_inj (a b x y : string) :
  length_prefixed a +:+ x = length_prefixed b +:+ y -> a = b /\ x = y.
Proof.
  unfold length_prefixed. rewrite !str_app_assoc.
  intros [Hp E]%split_at_colon; [|apply find_last_of_pretty..].
  apply (inj pretty) in Hp. apply append_inj_length in E; [done|lia].
Qed.

Lemma length_prefixed_nonempty a x : length_prefixed a +:+ x <> EmptyString.
Proof.
  unfold length_prefixed. rewrite str_app_assoc. intros E%(f_equal String.length).
  rewrite !str_length_app in E. cbn [String.length] in E. lia.
Qed.

Lemma canonical_entries_inj l l' : canonical_entries l = canonical_entries l' -> l = l'.
Proof.
  revert l'. induction l as [|[k v] l IH]; intros [|[k' v'] l'] E; cbn [canonical_entries foldr] in E.
  - done.
  - symmetry in E. by apply length_prefixed_nonempty in E.
  - by apply length_prefixed_nonempty in E.
  - unfold append_entry in E. cbn [fst snd] in E.
    apply length_prefixed_inj in E as [-> E]. apply length_prefixed_inj in E as [-> E].
    by rewrite (IH l' E).
Qed.

(** two string maps with the same canonical text are equal: the digest of a
    map depends on its contents only and no two maps share the hashed text. *)
Theorem string_map_canonical_injective m m' :
  string_map_canonical m = string_map_canonical m' -> m = m'.
Proof.
  intros E%canonical_entries_inj. apply map_to_list_inj.
  by rewrite <-(sort_on_perm (fun kv => kv) (map_to_list m)), E, sort_on_perm.
Qed.

Lemma string_map_canonical_injective_witness :
  string_map_canonical {[ "10.0.0.1:31501" := "host-a" ]} = "14:10.0.0.1:315016:host-a" /\
  ({[ "10.0.0.1:31501" := "host-a" ]} : gmap string string) = {[ "10.0.0.1:31501" := "host-a" ]}.
Proof.
  split; [vm_compute; reflexivity|].
  apply (string_map_canonical_injective {[ "10.0.0.1:31501" := "host-a" ]} {[ "10.0.0.1:31501" := "host-a" ]}).
  reflexivity.
Defined.

(** ** A concrete digest, used only to evaluate examples *)
Module ReferenceDigest.
#[export] Instance digest : SHA256 := fun data => Ok (replicate 31 0 ++ [Z.of_nat (String.length data) mod 256]).

#[export] Instance digest_laws : SHA256Laws.
Proof.
  intros data d [= <-]. split; [done|].
  repeat (apply Forall_cons; split; [lia|]). apply Forall_singleton, Z.mod_pos_bound. lia.
Qed.
End ReferenceDigest.
