(* ===== verification/MemoryKvStore.v ===== *)
(** * The coordinator's in-memory key-value store

    src/datasystem/common/coordinator/memory_kv_store.{h,cpp} with
    key_value_entry.h and watch_event.h.  Each operation runs under the store
    mutex, so an operation is one transition of the store; the watch events it
    hands to the mutation callback after releasing the mutex are returned in
    the order of the calls. *)

From S2P Require Import Prelude Ordered.

Definition COORDINATOR_NO_VERSION_CHECK : Z := -1.
Definition COORDINATOR_KEY_NOT_EXISTS_VERSION : Z := 0.
Definition COORDINATOR_NO_MOD_REVISION_CHECK : Z := 0.
Definition COORDINATOR_NO_GLOBAL_REVISION_CHECK : Z := 0.

Record KeyValueEntry := { kv_key : string; kv_value : string; kv_version : Z; kv_modRevision : Z }.
#[global] Instance KeyValueEntry_eq_dec : EqDecision KeyValueEntry.
Proof. solve_decision. Defined.

Inductive WatchEventType := EV_PUT | EV_DELETE | EV_REWATCH.
#[global] Instance WatchEventType_eq_dec : EqDecision WatchEventType.
Proof. solve_decision. Defined.

Record WatchEvent := { we_type : WatchEventType; we_entry : KeyValueEntry; we_revision : Z }.
#[global] Instance WatchEvent_eq_dec : EqDecision WatchEvent.
Proof. solve_decision. Defined.

Record ValueEntry := {
  ve_value : string;
  ve_version : Z;
  ve_createRevision : Z;
  ve_modRevision : Z;
  ve_ttlMs : Z;
  ve_ttlGeneration : Z
}.
#[global] Instance ValueEntry_eq_dec : EqDecision ValueEntry.
Proof. solve_decision. Defined.

(** [mutationCallback_] is either unset or the function that receives events. *)
Record MemoryKvStore := {
  data_ : list (string * ValueEntry);
  revision_ : Z;
  hasMutationCallback_ : bool
}.

Definition new_MemoryKvStore : MemoryKvStore :=
  {| data_ := []; revision_ := 1; hasMutationCallback_ := false |}.

Definition SetMutationCallback (s : MemoryKvStore) : MemoryKvStore :=
  {| data_ := data_ s; revision_ := revision_ s; hasMutationCallback_ := true |}.

Definition entry_of (key : string) (e : ValueEntry) : KeyValueEntry :=
  {| kv_key := key; kv_value := ve_value e; kv_version := ve_version e; kv_modRevision := ve_modRevision e |}.

Definition emit (s : MemoryKvStore) (events : list WatchEvent) : list WatchEvent :=
  if hasMutationCallback_ s then events else [].

Record PutResult := { pr_version : Z; pr_revision : Z; pr_ttlGeneration : Z }.

Definition Put (key value : string) (ttlMs expectedVersion expectedModRevision expectedGlobalRevision : Z)
    (s : MemoryKvStore) : res (MemoryKvStore * PutResult * list WatchEvent) :=
  let it := om_find key (data_ s) in
  _ ← check ((expectedGlobalRevision =? COORDINATOR_NO_GLOBAL_REVISION_CHECK) ||
             (revision_ s =? expectedGlobalRevision)) K_DATA_INCONSISTENCY;
  _ ← (if negb (expectedModRevision =? COORDINATOR_NO_MOD_REVISION_CHECK) then
         match it with
         | None => Err K_NOT_FOUND
         | Some e => check (ve_modRevision e =? expectedModRevision) K_DATA_INCONSISTENCY
         end
       else Ok tt);
  _ ← (if expectedVersion =? COORDINATOR_KEY_NOT_EXISTS_VERSION then
         match it with Some _ => Err K_DUPLICATED | None => Ok tt end
       else if negb (expectedVersion =? COORDINATOR_NO_VERSION_CHECK) then
         match it with
         | None => Err K_NOT_FOUND
         | Some e => check (ve_version e =? expectedVersion) K_DATA_INCONSISTENCY
         end
       else Ok tt);
  let newRevision := i64 (revision_ s + 1) in
  let stored := match it with
    | Some e => {| ve_value := value; ve_version := i64 (ve_version e + 1);
                   ve_createRevision := ve_createRevision e; ve_modRevision := newRevision;
                   ve_ttlMs := ttlMs; ve_ttlGeneration := u64 (ve_ttlGeneration e + 1) |}
    | None => {| ve_value := value; ve_version := 1; ve_createRevision := newRevision;
                 ve_modRevision := newRevision; ve_ttlMs := ttlMs; ve_ttlGeneration := 1 |}
    end in
  Ok ({| data_ := om_insert key stored (data_ s); revision_ := newRevision;
         hasMutationCallback_ := hasMutationCallback_ s |},
      {| pr_version := ve_version stored; pr_revision := newRevision; pr_ttlGeneration := ve_ttlGeneration stored |},
      emit s [{| we_type := EV_PUT; we_entry := entry_of key stored; we_revision := newRevision |}]).

(** [lower_bound(key)] up to the first key not below [rangeEnd]. *)
Definition entries_between (key rangeEnd : string) (data : list (string * ValueEntry)) : list (string * ValueEntry) :=
  take_while (fun kv => ltk kv.1 rangeEnd) (om_lower_bound key data).

Definition select_entries (key rangeEnd : string) (s : MemoryKvStore) : list (string * ValueEntry) :=
  if bool_decide (rangeEnd = EmptyString) then
    match om_find key (data_ s) with Some e => [(key, e)] | None => [] end
  else entries_between key rangeEnd (data_ s).

Record RangeResult := { rr_kvs : list KeyValueEntry; rr_revision : Z; rr_unchanged : bool }.

(** [wantUnchanged] says whether the caller passed the [unchanged] out-pointer. *)
Definition Range (key rangeEnd : string) (knownModRevision : Z) (wantUnchanged : bool) (s : MemoryKvStore)
    : RangeResult :=
  if bool_decide (rangeEnd = EmptyString) then
    match om_find key (data_ s) with
    | Some e =>
        if wantUnchanged && (0 <? knownModRevision) && (ve_modRevision e =? knownModRevision)
        then {| rr_kvs := []; rr_revision := revision_ s; rr_unchanged := true |}
        else {| rr_kvs := [entry_of key e]; rr_revision := revision_ s; rr_unchanged := false |}
    | None => {| rr_kvs := []; rr_revision := revision_ s; rr_unchanged := false |}
    end
  else {| rr_kvs := (fun kv => entry_of kv.1 kv.2) <$> entries_between key rangeEnd (data_ s);
          rr_revision := revision_ s; rr_unchanged := false |}.

Record DeleteResult := { dr_deleted : Z; dr_revision : Z; dr_entries : list KeyValueEntry }.

Definition erase_keys (keys : list string) (data : list (string * ValueEntry)) : list (string * ValueEntry) :=
  foldl (fun data key => om_erase key data) data keys.

Definition Delete (key rangeEnd : string) (expectedModRevision : Z) (s : MemoryKvStore)
    : res (MemoryKvStore * DeleteResult * list WatchEvent) :=
  _ ← check ((expectedModRevision =? COORDINATOR_NO_MOD_REVISION_CHECK) ||
             bool_decide (rangeEnd = EmptyString)) K_INVALID;
  let toDelete := select_entries key rangeEnd s in
  match toDelete with
  | [] => Ok (s, {| dr_deleted := 0; dr_revision := revision_ s; dr_entries := [] |}, [])
  | (_, front) :: _ =>
      _ ← check ((expectedModRevision =? COORDINATOR_NO_MOD_REVISION_CHECK) ||
                 (ve_modRevision front =? expectedModRevision)) K_TRY_AGAIN;
      let newRevision := i64 (revision_ s + 1) in
      let deletedEntries := (fun kv => entry_of kv.1 kv.2) <$> toDelete in
      Ok ({| data_ := erase_keys toDelete.*1 (data_ s); revision_ := newRevision;
             hasMutationCallback_ := hasMutationCallback_ s |},
          {| dr_deleted := Z.of_nat (length deletedEntries); dr_revision := newRevision;
             dr_entries := deletedEntries |},
          emit s ((fun kve => {| we_type := EV_DELETE; we_entry := kve; we_revision := newRevision |}) <$> deletedEntries))
  end.

Definition DeleteIfTtlExpired (key : string) (revision ttlGeneration : Z) (s : MemoryKvStore)
    : MemoryKvStore * bool * list WatchEvent :=
  match om_find key (data_ s) with
  | None => (s, false, [])
  | Some e =>
      if negb (ve_modRevision e =? revision) then (s, false, [])
      else if (ve_ttlMs e <=? 0) || negb (ve_ttlGeneration e =? ttlGeneration) then (s, false, [])
      else
        let deleteRevision := i64 (revision_ s + 1) in
        ({| data_ := om_erase key (data_ s); revision_ := deleteRevision;
            hasMutationCallback_ := hasMutationCallback_ s |}, true,
         emit s [{| we_type := EV_DELETE; we_entry := entry_of key e; we_revision := deleteRevision |}])
  end.

Record KeepAliveResult := { kr_ttlMs : Z; kr_remainingTtlMs : Z; kr_revision : Z; kr_ttlGeneration : Z }.

Definition KeepAlive (key : string) (expectedModRevision : Z) (s : MemoryKvStore)
    : res (MemoryKvStore * KeepAliveResult) :=
  match om_find key (data_ s) with
  | None => Err K_NOT_FOUND
  | Some e =>
      if ve_ttlMs e <=? 0 then Err K_NOT_FOUND
      else
        _ ← check ((expectedModRevision =? COORDINATOR_NO_MOD_REVISION_CHECK) ||
                   (ve_modRevision e =? expectedModRevision)) K_TRY_AGAIN;
        let e' := {| ve_value := ve_value e; ve_version := ve_version e; ve_createRevision := ve_createRevision e;
                     ve_modRevision := ve_modRevision e; ve_ttlMs := ve_ttlMs e;
                     ve_ttlGeneration := u64 (ve_ttlGeneration e + 1) |} in
        Ok ({| data_ := om_insert key e' (data_ s); revision_ := revision_ s;
               hasMutationCallback_ := hasMutationCallback_ s |},
            {| kr_ttlMs := ve_ttlMs e; kr_remainingTtlMs := ve_ttlMs e; kr_revision := ve_modRevision e;
               kr_ttlGeneration := ve_ttlGeneration e' |})
  end.

Definition CurrentRevision (s : MemoryKvStore) : Z := revision_ s.

(** ** Abstract view and event replay *)

(** What a reader sees of a key: value, version and modification revision. *)
Abbreviation View := (gmap string KeyValueEntry).

Definition view (s : MemoryKvStore) : View := list_to_map ((fun kv => (kv.1, entry_of kv.1 kv.2)) <$> data_ s).

(** What a watcher does with an event. *)
Definition apply_event (v : View) (e : WatchEvent) : View :=
  match we_type e with
  | EV_PUT => <[kv_key (we_entry e) := we_entry e]> v
  | EV_DELETE => base.delete (kv_key (we_entry e)) v
  | EV_REWATCH => v
  end.

(** ** Store transitions *)

Inductive kv_step : MemoryKvStore -> list WatchEvent -> MemoryKvStore -> Prop :=
  | kv_put s key value ttlMs ev em eg s' r events :
      Put key value ttlMs ev em eg s = Ok (s', r, events) -> kv_step s events s'
  | kv_delete s key rangeEnd em s' r events :
      Delete key rangeEnd em s = Ok (s', r, events) -> kv_step s events s'
  | kv_expire s key revision gen s' ok events :
      DeleteIfTtlExpired key revision gen s = (s', ok, events) -> kv_step s events s'
  | kv_keep_alive s key em s' r :
      KeepAlive key em s = Ok (s', r) -> kv_step s [] s'.

(** [n] operations and the events they emit, in order. *)
Inductive kv_run : nat -> MemoryKvStore -> list WatchEvent -> MemoryKvStore -> Prop :=
  | kv_nil s : kv_run 0 s [] s
  | kv_cons n s e1 s1 e2 s2 : kv_step s e1 s1 -> kv_run n s1 e2 s2 -> kv_run (S n) s (e1 ++ e2) s2.

(** ** Views *)

Lemma list_to_map_data (data : list (string * ValueEntry)) k : om_sorted data ->
  (list_to_map ((fun kv => (kv.1, entry_of kv.1 kv.2)) <$> data) : View) !! k =
  entry_of k <$> om_find k data.
Proof.
  induction data as [|[k0 e0] data IH]; intros Hs; cbn; [done|].
  apply om_sorted_cons in Hs as [Hs _]. rewrite lookup_insert. case_decide as E.
  - subst. by rewrite decide_True.
  - rewrite decide_False by done. auto.
Qed.

Lemma lookup_view s k : om_sorted (data_ s) -> view s !! k = entry_of k <$> om_find k (data_ s).
Proof. apply list_to_map_data. Qed.

Lemma om_find_erase_keys keys data k : om_sorted data ->
  om_find k (erase_keys keys data) = (if decide (k ∈ keys) then None else om_find k data) /\
  om_sorted (erase_keys keys data).
Proof.
  unfold erase_keys. revert data. induction keys as [|k0 keys IH]; intros data Hs; cbn [foldl].
  - split; [|done]. rewrite decide_False by apply not_elem_of_nil. done.
  - destruct (IH (om_erase k0 data)) as [E1 E2]; [by apply om_erase_sorted|]. split; [|done]. rewrite E1.
    rewrite om_find_erase by done. destruct (decide (k = k0)) as [->|Hne].
    + rewrite (decide_True (P := k0 ∈ k0 :: keys)) by left. rewrite (decide_True (P := k0 = k0)) by done. by case_decide.
    + rewrite (decide_False (P := k0 = k)) by done.
      destruct (decide (k ∈ keys)); [rewrite decide_True by (by right)|rewrite decide_False by set_solver]; done.
Qed.

Lemma elem_of_entries_between key rangeEnd data kv : om_sorted data ->
  kv ∈ entries_between key rangeEnd data <-> kv ∈ data /\ ltk kv.1 key = false /\ ltk kv.1 rangeEnd = true.
Proof.
  intros Hs. unfold entries_between. rewrite om_lower_bound_filter by done.
  rewrite take_while_filter.
  - rewrite !list_elem_of_filter. naive_solver.
  - eapply StronglySorted_impl; [|apply StronglySorted_filter, Hs]. intros a b Hab Hb. by eapply ltk_trans.
Qed.

Lemma entries_between_sorted key rangeEnd data : om_sorted data -> om_sorted (entries_between key rangeEnd data).
Proof.
  intros Hs. unfold entries_between. rewrite om_lower_bound_filter by done. rewrite take_while_filter.
  - by repeat apply StronglySorted_filter.
  - eapply StronglySorted_impl; [|apply StronglySorted_filter, Hs]. intros a b Hab Hb. by eapply ltk_trans.
Qed.

Lemma elem_of_select key rangeEnd s kv : om_sorted (data_ s) ->
  kv ∈ select_entries key rangeEnd s <-> kv ∈ data_ s /\
    (if bool_decide (rangeEnd = EmptyString) then kv.1 = key
     else ltk kv.1 key = false /\ ltk kv.1 rangeEnd = true).
Proof.
  intros Hs. unfold select_entries. case_bool_decide.
  - destruct (om_find key (data_ s)) as [e|] eqn:E.
    + apply om_find_elem in E; [|done]. rewrite list_elem_of_singleton. split; [by intros ->|].
      intros [Hin Hk]. destruct kv as [k e']. cbn in *. subst k.
      apply om_find_elem in E, Hin; [|done..]. congruence.
    + split; [by intros ?%not_elem_of_nil|]. intros [Hin Hk]. destruct kv as [k e']. cbn in *. subst k.
      apply om_find_elem in Hin; [|done]. congruence.
  - by apply elem_of_entries_between.
Qed.

(** ** Invariant and effect of one operation *)

Record kv_inv (s : MemoryKvStore) : Prop := {
  ki_sorted : om_sorted (data_ s);
  ki_revision : 1 <= revision_ s;
  ki_entry k e : om_find k (data_ s) = Some e ->
    1 < ve_createRevision e <= ve_modRevision e /\ ve_modRevision e <= revision_ s;
  ki_distinct k k' e e' : om_find k (data_ s) = Some e -> om_find k' (data_ s) = Some e' ->
    ve_modRevision e = ve_modRevision e' -> k = k'
}.

(** [e'] is [e] with its time-to-live generation advanced at most once. *)
Definition renewed (e e' : ValueEntry) : Prop :=
  ve_value e' = ve_value e /\ ve_version e' = ve_version e /\ ve_createRevision e' = ve_createRevision e /\
  ve_modRevision e' = ve_modRevision e /\ ve_ttlMs e' = ve_ttlMs e /\
  (ve_ttlGeneration e' = ve_ttlGeneration e \/ ve_ttlGeneration e' = u64 (ve_ttlGeneration e + 1)).

Record kv_effect (s : MemoryKvStore) (events : list WatchEvent) (s' : MemoryKvStore) : Prop := {
  ke_sorted : om_sorted (data_ s');
  ke_callback : hasMutationCallback_ s' = hasMutationCallback_ s;
  ke_view : hasMutationCallback_ s = true -> view s' = foldl apply_event (view s) events;
  ke_revision : revision_ s' = revision_ s \/ revision_ s' = i64 (revision_ s + 1);
  ke_events e : e ∈ events -> we_revision e = revision_ s' /\ revision_ s' = i64 (revision_ s + 1);
  ke_entry k e' : om_find k (data_ s') = Some e' ->
    (revision_ s' = i64 (revision_ s + 1) /\ ve_modRevision e' = revision_ s' /\
       (forall k2 e2, k2 <> k -> om_find k2 (data_ s') = Some e2 -> om_find k2 (data_ s) = Some e2) /\
       (ve_createRevision e' = revision_ s' \/ exists e, om_find k (data_ s) = Some e /\
          ve_createRevision e' = ve_createRevision e)) \/
    exists e, om_find k (data_ s) = Some e /\ renewed e e'
}.

Lemma renewed_refl e : renewed e e.
Proof. unfold renewed. naive_solver. Qed.

Lemma Put_effect key value ttlMs ev em eg s s' r events : om_sorted (data_ s) ->
  Put key value ttlMs ev em eg s = Ok (s', r, events) -> kv_effect s events s'.
Proof.
  intros Hs Hok. unfold Put in Hok.
  apply bind_Ok in Hok as (u1 & _ & Hok). apply bind_Ok in Hok as (u2 & _ & Hok).
  apply bind_Ok in Hok as (u3 & _ & Hok).
  set (stored := match om_find key (data_ s) with Some e => _ | None => _ end) in Hok.
  injection Hok as <- <- <-.
  assert (Hsrt : om_sorted (om_insert key stored (data_ s))) by (by apply om_insert_sorted).
  assert (Hmod : ve_modRevision stored = i64 (revision_ s + 1)) by (unfold stored; by destruct (om_find _ _)).
  split; cbn [data_ revision_ hasMutationCallback_]; [done|done| |by right| |].
  - intros Hcb. unfold emit. rewrite Hcb. cbn [foldl]. apply map_eq. intros k.
    rewrite lookup_view by done. cbn [data_ apply_event we_type we_entry]. rewrite om_find_insert.
    cbn [entry_of kv_key]. rewrite lookup_insert. case_decide; [by subst|]. by rewrite lookup_view.
  - intros e He. unfold emit in He. destruct (hasMutationCallback_ s); [|by apply not_elem_of_nil in He].
    by apply list_elem_of_singleton in He as ->.
  - intros k e'. rewrite om_find_insert. case_decide as Hk; [|intros He; right; eauto using renewed_refl].
    intros [= <-]. subst k. left. split_and!; [done|done| |].
    + intros k2 e2 Hne. rewrite om_find_insert, decide_False by done. done.
    + unfold stored. destruct (om_find key (data_ s)) as [e|]; [right|left]; cbn; eauto.
Qed.

Lemma foldl_delete_events rev (kvs : list (string * ValueEntry)) (v : View) k :
  foldl apply_event v ((fun kve => {| we_type := EV_DELETE; we_entry := kve; we_revision := rev |}) <$>
     ((fun kv => entry_of kv.1 kv.2) <$> kvs)) !! k = if decide (k ∈ kvs.*1) then None else v !! k.
Proof.
  revert v. induction kvs as [|[k0 e0] kvs IH]; intros v; cbn [foldl fmap list_fmap].
  - by rewrite decide_False by apply not_elem_of_nil.
  - cbn [apply_event we_type we_entry entry_of kv_key fst snd] in *. rewrite IH.
    destruct (decide (k ∈ kvs.*1)) as [Hin|Hin].
    + by rewrite decide_True by (by right).
    + destruct (decide (k = k0)) as [->|Hne].
      * rewrite decide_True by left. by rewrite lookup_delete_eq.
      * rewrite decide_False by (rewrite elem_of_cons; naive_solver). by rewrite lookup_delete_ne.
Qed.

Lemma Delete_effect key rangeEnd em s s' r events : om_sorted (data_ s) ->
  Delete key rangeEnd em s = Ok (s', r, events) -> kv_effect s events s'.
Proof.
  intros Hs Hok. unfold Delete in Hok. apply bind_Ok in Hok as (u1 & _ & Hok).
  destruct (select_entries key rangeEnd s) as [|[k0 front] rest] eqn:Esel.
  { injection Hok as <- <- <-. split; [done|done|done|by left|no_elem|].
    intros k e He. right. eauto using renewed_refl. }
  rewrite <-Esel in Hok. apply bind_Ok in Hok as (u2 & _ & [= <- <- <-]).
  set (kvs := select_entries key rangeEnd s) in *.
  pose proof (fun k => om_find_erase_keys kvs.*1 (data_ s) k Hs) as Her.
  split; cbn [data_ revision_ hasMutationCallback_]; [apply (Her key)|done| |by right| |].
  - intros Hcb. unfold emit. rewrite Hcb. apply map_eq. intros k. rewrite foldl_delete_events.
    rewrite lookup_view by apply (Her key). cbn [data_]. rewrite (proj1 (Her k)).
    case_decide; [done|]. by rewrite lookup_view.
  - intros e He. unfold emit in He. destruct (hasMutationCallback_ s); [|by apply not_elem_of_nil in He].
    by apply list_elem_of_fmap in He as (kve & -> & _).
  - intros k e'. rewrite (proj1 (Her k)). case_decide; [done|]. intros He. right. eauto using renewed_refl.
Qed.

Lemma DeleteIfTtlExpired_effect key rev gen s s' ok events : om_sorted (data_ s) ->
  DeleteIfTtlExpired key rev gen s = (s', ok, events) -> kv_effect s events s'.
Proof.
  intros Hs Hok. unfold DeleteIfTtlExpired in Hok.
  assert (Hid : kv_effect s [] s).
  { split; [done|done|done|by left|no_elem|]. intros k e He. right. eauto using renewed_refl. }
  destruct (om_find key (data_ s)) as [e|] eqn:Ef; [|by simplify_eq].
  case_match; [by simplify_eq|]. case_match; [by simplify_eq|]. injection Hok as <- <- <-.
  split; cbn [data_ revision_ hasMutationCallback_]; [by apply om_erase_sorted|done| |by right| |].
  - intros Hcb. unfold emit. rewrite Hcb. apply map_eq. intros k. cbn [foldl apply_event we_type we_entry entry_of kv_key].
    rewrite lookup_view by (by apply om_erase_sorted). cbn [data_]. rewrite om_find_erase by done.
    destruct (decide (key = k)) as [->|Hne]; [by rewrite lookup_delete_eq|].
    rewrite lookup_delete_ne by done. by rewrite lookup_view.
  - intros ev He. unfold emit in He. destruct (hasMutationCallback_ s); [|by apply not_elem_of_nil in He].
    by apply list_elem_of_singleton in He as ->.
  - intros k e'. rewrite om_find_erase by done. case_decide; [done|]. intros He. right. eauto using renewed_refl.
Qed.

Lemma KeepAlive_effect key em s s' r : om_sorted (data_ s) ->
  KeepAlive key em s = Ok (s', r) -> kv_effect s [] s'.
Proof.
  intros Hs Hok. unfold KeepAlive in Hok. destruct (om_find key (data_ s)) as [e|] eqn:Ef; [|done].
  case_match; [done|]. apply bind_Ok in Hok as (u1 & _ & [= <- <-]).
  split; cbn [data_ revision_ hasMutationCallback_]; [by apply om_insert_sorted|done| |by left|no_elem|].
  - intros _. apply map_eq. intros k. cbn [foldl]. rewrite !lookup_view by (done || by apply om_insert_sorted).
    cbn [data_]. rewrite om_find_insert. case_decide; [|done]. subst. by rewrite Ef.
  - intros k e'. rewrite om_find_insert. case_decide as Hk; [|intros He; right; eauto using renewed_refl].
    intros [= <-]. subst k. right. exists e. split; [done|]. unfold renewed. cbn. naive_solver.
Qed.

Lemma kv_step_effect s events s' : om_sorted (data_ s) -> kv_step s events s' -> kv_effect s events s'.
Proof.
  intros Hs Hstep. destruct Hstep; eauto using Put_effect, Delete_effect, DeleteIfTtlExpired_effect, KeepAlive_effect.
Qed.

Lemma i64_next r : 1 <= r < INT64_MAX -> i64 (r + 1) = r + 1.
Proof. unfold INT64_MAX. intros. apply i64_small. unfold INT64_MAX. lia. Qed.

Lemma kv_step_inv s events s' : kv_inv s -> revision_ s < INT64_MAX -> kv_step s events s' -> kv_inv s'.
Proof.
  intros [Hs Hr He Hd] Hmax Hstep. destruct (kv_step_effect _ _ _ Hs Hstep) as [Hs' _ _ Hrev _ Hent].
  rewrite i64_next in Hrev, Hent by lia. split; [done|destruct Hrev; lia| |].
  - intros k e' Hk. destruct (Hent k e' Hk) as [(E1 & E2 & _ & Hc)|(e & Hf & (_ & _ & Ec & Em & _))].
    + destruct Hc as [->|(e & Hf & ->)]; [lia|]. apply He in Hf. lia.
    + apply He in Hf. rewrite Ec, Em. destruct Hrev; lia.
  - assert (Hnew : forall k e k' e', om_find k (data_ s') = Some e -> om_find k' (data_ s') = Some e' ->
       (revision_ s' = revision_ s + 1 /\ ve_modRevision e = revision_ s' /\
        (forall k2 e2, k2 <> k -> om_find k2 (data_ s') = Some e2 -> om_find k2 (data_ s) = Some e2)) ->
       ve_modRevision e = ve_modRevision e' -> k = k').
    { intros k e k' e' Hk Hk' (E1 & E2 & Hoth) Heq. destruct (decide (k = k')) as [|Hne]; [done|].
      apply Hoth in Hk'; [|done]. apply He in Hk'. lia. }
    intros k k' e e' Hk Hk' Heq.
    destruct (Hent k e Hk) as [(E1 & E2 & E3 & _)|(e0 & Hf & (_ & _ & _ & Em & _))]; [by eapply Hnew|].
    destruct (Hent k' e' Hk') as [(E1 & E2 & E3 & _)|(e1 & Hf' & (_ & _ & _ & Em' & _))].
    + symmetry. by eapply Hnew.
    + apply (Hd k k' e0 e1); [done|done|congruence].
Qed.

(** An entry of the store [n] operations later that was last modified before
    they started: its contents are those it had, and its generation advanced by
    at most [n]. *)
Definition unmodified (n : nat) (e0 e : ValueEntry) : Prop :=
  ve_value e = ve_value e0 /\ ve_version e = ve_version e0 /\ ve_createRevision e = ve_createRevision e0 /\
  ve_modRevision e = ve_modRevision e0 /\ ve_ttlMs e = ve_ttlMs e0 /\
  (0 <= ve_ttlGeneration e0 -> ve_ttlGeneration e0 + Z.of_nat n < 2 ^ 64 ->
   ve_ttlGeneration e0 <= ve_ttlGeneration e <= ve_ttlGeneration e0 + Z.of_nat n).

Lemma kv_run_facts n s events s' : kv_run n s events s' -> kv_inv s ->
  revision_ s + Z.of_nat n <= INT64_MAX ->
  kv_inv s' /\ revision_ s <= revision_ s' <= revision_ s + Z.of_nat n /\
  (hasMutationCallback_ s = true -> view s' = foldl apply_event (view s) events) /\
  StronglySorted (fun a b => we_revision a <= we_revision b) events /\
  (forall e, e ∈ events -> revision_ s < we_revision e <= revision_ s') /\
  (forall k e, om_find k (data_ s') = Some e -> ve_modRevision e <= revision_ s ->
     exists e0, om_find k (data_ s) = Some e0 /\ unmodified n e0 e).
Proof.
  induction 1 as [s|n s e1 s1 e2 s2 Hstep Hrun IH]; intros Hinv Hmax.
  { split_and!; try done; try lia; [constructor|no_elem|].
    intros k e Hk _. exists e. split; [done|]. unfold unmodified. split_and!; try done. lia. }
  pose proof (kv_step_inv _ _ _ Hinv ltac:(lia) Hstep) as Hinv1.
  destruct (kv_step_effect _ _ _ (ki_sorted _ Hinv) Hstep) as [_ Hcb Hview Hrev Hev Hent].
  pose proof (ki_revision _ Hinv) as H1. rewrite i64_next in Hrev, Hev, Hent by lia.
  destruct (IH Hinv1 ltac:(destruct Hrev; lia)) as (Hinv2 & Hr2 & Hv2 & Hs2 & He2 & Hu2).
  split_and!.
  - done.
  - destruct Hrev; lia.
  - destruct Hrev; lia.
  - intros Hc. rewrite foldl_app, <-Hview by done. apply Hv2. by rewrite Hcb.
  - clear -Hs2 He2 Hev. assert (Hall : forall a, a ∈ e1 -> we_revision a = revision_ s1) by (intros a Ha; by apply Hev).
    clear Hev. induction e1 as [|a e1 IH1]; [done|]. cbn. constructor; [apply IH1; intros; apply Hall; by right|].
    apply Forall_forall. intros b [Hb|Hb]%elem_of_app; rewrite (Hall a ltac:(left)).
    + rewrite (Hall b ltac:(by right)). lia.
    + apply He2 in Hb. lia.
  - intros a [Ha|Ha]%elem_of_app; [apply Hev in Ha; lia|apply He2 in Ha; destruct Hrev; lia].
  - intros k e Hk Hle. destruct (Hu2 k e Hk) as (e' & Hk' & (U1 & U2 & U3 & U4 & U5 & U6)); [destruct Hrev; lia|].
    destruct (Hent k e' Hk') as [(E1 & E2 & _)|(e0 & Hk0 & (R1 & R2 & R3 & R4 & R5 & R6))]; [lia|].
    exists e0. split; [done|]. unfold unmodified. split_and!; try congruence.
    intros H0 Hb. destruct R6 as [R6|R6]; [|rewrite u64_small in R6 by lia]; rewrite R6 in U6; lia.
Qed.

(** ** Theorems *)

(** C21: a watcher that applies the emitted events in order to the contents it
    read reconstructs the contents of the store after any run of operations;
    event revisions never decrease and are newer than the read. *)
Theorem kv_events_replay n s events s' :
  kv_inv s -> hasMutationCallback_ s = true -> revision_ s + Z.of_nat n <= INT64_MAX ->
  kv_run n s events s' ->
  view s' = foldl apply_event (view s) events /\
  StronglySorted (fun a b => we_revision a <= we_revision b) events /\
  (forall e, e ∈ events -> revision_ s < we_revision e <= revision_ s').
Proof.
  intros Hinv Hcb Hmax Hrun. destruct (kv_run_facts _ _ _ _ Hrun Hinv Hmax) as (_ & _ & Hv & Hs & He & _). auto.
Qed.

(** compare-and-swap loses no update.  If [Put] guarded by the modification
    revision a client read earlier succeeds after any run of other operations,
    the key's contents are still exactly the ones the client read. *)
Theorem Put_no_lost_update n s0 events s key entry value ttlMs ev eg s' r events' :
  kv_inv s0 -> revision_ s0 + Z.of_nat n <= INT64_MAX ->
  view s0 !! key = Some entry -> kv_run n s0 events s ->
  Put key value ttlMs ev (kv_modRevision entry) eg s = Ok (s', r, events') ->
  view s !! key = Some entry.
Proof.
  intros Hinv Hmax Hview Hrun Hput.
  destruct (kv_run_facts _ _ _ _ Hrun Hinv Hmax) as (Hinv' & _ & _ & _ & _ & Hun).
  rewrite lookup_view in Hview by apply Hinv. apply fmap_Some in Hview as (e0 & Hf0 & ->).
  destruct (ki_entry _ Hinv _ _ Hf0) as [Hc0 Hm0].
  unfold Put in Hput. apply bind_Ok in Hput as (u1 & _ & Hput). apply bind_Ok in Hput as (u2 & Hguard & _).
  cbn [kv_modRevision entry_of] in Hguard.
  rewrite (proj2 (Z.eqb_neq (ve_modRevision e0) COORDINATOR_NO_MOD_REVISION_CHECK)) in Hguard
    by (unfold COORDINATOR_NO_MOD_REVISION_CHECK; lia).
  cbn [negb] in Hguard. destruct (om_find key (data_ s)) as [e|] eqn:Ef; [|done].
  apply check_Ok, Z.eqb_eq in Hguard.
  destruct (Hun key e Ef ltac:(lia)) as (e0' & Hf0' & (U1 & U2 & _ & U4 & _)).
  rewrite Hf0 in Hf0'. injection Hf0' as <-.
  rewrite lookup_view by apply Hinv'. rewrite Ef. cbn. f_equal. unfold entry_of. by rewrite U1, U2, U4.
Qed.

(** expiry never removes a renewed key.  If the expiry of the pair of
    revision and generation recorded at some state succeeds later, the key has
    been neither rewritten nor kept alive in between: its whole entry is the
    recorded one. *)
Theorem DeleteIfTtlExpired_safe n s0 events s key e0 s' events' :
  kv_inv s0 -> revision_ s0 + Z.of_nat n <= INT64_MAX ->
  om_find key (data_ s0) = Some e0 -> 0 <= ve_ttlGeneration e0 -> ve_ttlGeneration e0 + Z.of_nat n < 2 ^ 64 ->
  kv_run n s0 events s ->
  DeleteIfTtlExpired key (ve_modRevision e0) (ve_ttlGeneration e0) s = (s', true, events') ->
  om_find key (data_ s) = Some e0 /\ om_find key (data_ s') = None /\
  forall k, k <> key -> om_find k (data_ s') = om_find k (data_ s).
Proof.
  intros Hinv Hmax Hf0 Hg0 Hgn Hrun Hdel.
  destruct (kv_run_facts _ _ _ _ Hrun Hinv Hmax) as (Hinv' & _ & _ & _ & _ & Hun).
  destruct (ki_entry _ Hinv _ _ Hf0) as [_ Hm0].
  unfold DeleteIfTtlExpired in Hdel. destruct (om_find key (data_ s)) as [e|] eqn:Ef; [|done].
  destruct (negb (ve_modRevision e =? ve_modRevision e0)) eqn:E1; [done|].
  destruct (_ || _) eqn:E2 in Hdel; [done|].
  apply negb_false_iff, Z.eqb_eq in E1. apply orb_false_iff in E2 as [_ E2%negb_false_iff%Z.eqb_eq].
  injection Hdel as <- _. destruct (Hun key e Ef ltac:(lia)) as (e0' & Hf0' & (U1 & U2 & U3 & U4 & U5 & _)).
  rewrite Hf0 in Hf0'. injection Hf0' as <-. cbn [data_]. split_and!.
  - f_equal. destruct e, e0. cbn in *. congruence.
  - rewrite om_find_erase by apply Hinv'. by rewrite decide_True.
  - intros k Hk. rewrite om_find_erase by apply Hinv'. by rewrite decide_False.
Qed.

(** The keys an interval request addresses. *)
Definition addressed (key rangeEnd k : string) : Prop :=
  if bool_decide (rangeEnd = EmptyString) then k = key else ltk k key = false /\ ltk k rangeEnd = true.

Lemma select_entries_spec key rangeEnd s : om_sorted (data_ s) ->
  StronglySorted (fun a b => ltk a.1 b.1 = true) (select_entries key rangeEnd s) /\
  forall k e, (k, e) ∈ select_entries key rangeEnd s <-> om_find k (data_ s) = Some e /\ addressed key rangeEnd k.
Proof.
  intros Hs. split.
  - unfold select_entries. case_bool_decide.
    + destruct (om_find key (data_ s)); repeat constructor.
    + by apply entries_between_sorted.
  - intros k e. rewrite elem_of_select, om_find_elem by done. done.
Qed.

(** an interval read returns exactly the entries whose key is addressed, in
    increasing key order, at the current revision; it reports "unchanged"
    instead only for the exact key whose modification revision the caller holds. *)
Theorem Range_exact key rangeEnd known want s : kv_inv s ->
  let r := Range key rangeEnd known want s in
  rr_revision r = revision_ s /\
  (rr_unchanged r = true -> rr_kvs r = [] /\ want = true /\ rangeEnd = EmptyString /\
     exists e, view s !! key = Some e /\ kv_modRevision e = known) /\
  (rr_unchanged r = false ->
     StronglySorted (fun a b => ltk (kv_key a) (kv_key b) = true) (rr_kvs r) /\
     forall e, e ∈ rr_kvs r <-> view s !! kv_key e = Some e /\ addressed key rangeEnd (kv_key e)).
Proof.
  intros [Hs _ _ _]. cbv zeta.
  assert (Hsel : forall r, rr_kvs r = (fun kv => entry_of kv.1 kv.2) <$> select_entries key rangeEnd s ->
     StronglySorted (fun a b => ltk (kv_key a) (kv_key b) = true) (rr_kvs r) /\
     forall e, e ∈ rr_kvs r <-> view s !! kv_key e = Some e /\ addressed key rangeEnd (kv_key e)).
  { intros r ->. destruct (select_entries_spec key rangeEnd s Hs) as [Hsrt Hel]. split.
    - clear Hel. induction Hsrt as [|[k e] l Hl IH Hall]; cbn; constructor; [done|].
      apply Forall_forall. intros x ([k' e'] & -> & Hin)%list_elem_of_fmap.
      rewrite Forall_forall in Hall. apply (Hall _ Hin).
    - intros e. rewrite list_elem_of_fmap, lookup_view by done. split.
      + intros ([k v] & -> & [Hf Ha]%Hel). cbn. by rewrite Hf.
      + intros [(v & Hf & Heq)%fmap_Some Ha]. exists (kv_key e, v). split; [by destruct e|]. by apply Hel. }
  unfold Range. unfold select_entries in Hsel. case_bool_decide as Hre; [|split; [done|]; split; [done|]; intros _; by apply Hsel].
  destruct (om_find key (data_ s)) as [e|] eqn:Ef; [|split; [done|]; split; [done|]; intros _; by apply Hsel].
  destruct (_ && _) eqn:Eu; (split; [done|]); (split; [|intros ?; try done; by apply Hsel]); [|done].
  intros _. apply andb_prop in Eu as [[-> _]%andb_prop Em%Z.eqb_eq]. split_and!; [done..|].
  exists (entry_of key e). rewrite lookup_view, Ef by done. done.
Qed.

(** a successful delete removes exactly the entries an interval read returns
    at that moment, reports them, leaves every other key alone and advances the
    revision once, and only when something was removed. *)
Theorem Delete_exact key rangeEnd em s s' r events : kv_inv s ->
  Delete key rangeEnd em s = Ok (s', r, events) ->
  dr_entries r = rr_kvs (Range key rangeEnd 0 false s) /\
  dr_deleted r = Z.of_nat (length (dr_entries r)) /\ dr_revision r = revision_ s' /\
  revision_ s' = (if is_empty (dr_entries r) then revision_ s else i64 (revision_ s + 1)) /\
  forall k, view s' !! k = if decide (k ∈ kv_key <$> dr_entries r) then None else view s !! k.
Proof.
  intros Hinv Hok. pose proof (ki_sorted _ Hinv) as Hs.
  assert (Hr : rr_kvs (Range key rangeEnd 0 false s) = (fun kv => entry_of kv.1 kv.2) <$> select_entries key rangeEnd s).
  { unfold Range, select_entries. case_bool_decide; [|done]. by destruct (om_find key (data_ s)). }
  rewrite Hr. unfold Delete in Hok. apply bind_Ok in Hok as (u1 & _ & Hok).
  destruct (select_entries key rangeEnd s) as [|[k0 front] rest] eqn:Esel.
  { injection Hok as <- <- <-. split_and!; try done. }
  rewrite <-Esel in Hok |- *. apply bind_Ok in Hok as (u2 & _ & [= <- <- <-]).
  set (kvs := select_entries key rangeEnd s) in *.
  cbn [dr_entries dr_deleted dr_revision revision_]. split_and!; try done.
  { by rewrite Esel. }
  intros k. destruct (om_find_erase_keys kvs.*1 (data_ s) k Hs) as [E1 E2].
  rewrite !lookup_view by done. cbn [data_]. rewrite E1.
  replace (kv_key <$> ((fun kv => entry_of kv.1 kv.2) <$> kvs)) with (kvs.*1)
    by (rewrite <-list_fmap_compose; by apply list_fmap_ext).
  by case_decide.
Qed.

(** The guards of [Put], as one condition. *)
Definition put_allowed (key : string) (ev em eg : Z) (s : MemoryKvStore) : Prop :=
  (eg = 0 \/ revision_ s = eg) /\
  (em = 0 \/ exists e, view s !! key = Some e /\ kv_modRevision e = em) /\
  (ev = -1 \/ (ev = 0 /\ view s !! key = None) \/
   (ev <> 0 /\ exists e, view s !! key = Some e /\ kv_version e = ev)).

(** A guard returns success exactly when [P] holds and a code of [L] otherwise. *)
Definition guard_spec (P : Prop) (L : list StatusCode) (r : res unit) : Prop :=
  match r with Ok _ => P | Err c => ~ P /\ c ∈ L end.

(** [Put] succeeds iff its global-revision, modification-revision and version
    guards all hold; it then stores the value with the next version at the next
    global revision and changes no other key.  A refused [Put] reports
    [K_DATA_INCONSISTENCY], [K_NOT_FOUND] or [K_DUPLICATED]. *)
Theorem Put_spec key value ttlMs ev em eg s : kv_inv s ->
  match Put key value ttlMs ev em eg s with
  | Ok (s', r, events) =>
      put_allowed key ev em eg s /\ revision_ s' = i64 (revision_ s + 1) /\ pr_revision r = revision_ s' /\
      pr_version r = match view s !! key with Some e => i64 (kv_version e + 1) | None => 1 end /\
      view s' = <[key := {| kv_key := key; kv_value := value; kv_version := pr_version r;
                            kv_modRevision := revision_ s' |}]> (view s)
  | Err c => ~ put_allowed key ev em eg s /\ c ∈ [K_DATA_INCONSISTENCY; K_NOT_FOUND; K_DUPLICATED]
  end.
Proof.
  intros [Hs _ _ _]. unfold put_allowed. rewrite !lookup_view by done. unfold Put.
  set (L := [K_DATA_INCONSISTENCY; K_NOT_FOUND; K_DUPLICATED]).
  set (it := om_find key (data_ s)).
  assert (G1 : guard_spec (eg = 0 \/ revision_ s = eg) L
     (check ((eg =? COORDINATOR_NO_GLOBAL_REVISION_CHECK) || (revision_ s =? eg)) K_DATA_INCONSISTENCY)).
  { unfold guard_spec, COORDINATOR_NO_GLOBAL_REVISION_CHECK, L.
    destruct (Z.eqb_spec eg 0), (Z.eqb_spec (revision_ s) eg); cbn; try tauto; split; [tauto|left]. }
  assert (G2 : guard_spec (em = 0 \/ exists e, entry_of key <$> it = Some e /\ kv_modRevision e = em) L
     (if negb (em =? COORDINATOR_NO_MOD_REVISION_CHECK) then
         match it with None => Err K_NOT_FOUND
         | Some e => check (ve_modRevision e =? em) K_DATA_INCONSISTENCY end else Ok tt)).
  { unfold guard_spec, COORDINATOR_NO_MOD_REVISION_CHECK, L. destruct (Z.eqb_spec em 0); cbn [negb]; [tauto|].
    destruct it as [e|]; cbn.
    - destruct (Z.eqb_spec (ve_modRevision e) em); cbn; [eauto|]. split; [naive_solver|left].
    - split; [naive_solver|right; left]. }
  assert (G3 : guard_spec (ev = -1 \/ (ev = 0 /\ entry_of key <$> it = None) \/
       (ev <> 0 /\ exists e, entry_of key <$> it = Some e /\ kv_version e = ev)) L
     (if ev =? COORDINATOR_KEY_NOT_EXISTS_VERSION then
         match it with Some _ => Err K_DUPLICATED | None => Ok tt end
       else if negb (ev =? COORDINATOR_NO_VERSION_CHECK) then
         match it with None => Err K_NOT_FOUND
         | Some e => check (ve_version e =? ev) K_DATA_INCONSISTENCY end
       else Ok tt)).
  { unfold guard_spec, COORDINATOR_KEY_NOT_EXISTS_VERSION, COORDINATOR_NO_VERSION_CHECK, L.
    destruct (Z.eqb_spec ev 0) as [->|]; [destruct it; cbn; [split; [naive_solver lia|right; right; left]|auto]|].
    destruct (Z.eqb_spec ev (-1)); cbn [negb]; [tauto|]. destruct it as [e|]; cbn.
    - destruct (Z.eqb_spec (ve_version e) ev); cbn; [eauto 10|]. split; [naive_solver|left].
    - split; [naive_solver|right; left]. }
  destruct (check _ _) as [[]|c]; cbn [guard_spec mbind res_bind] in *; [|destruct G1; split; tauto].
  destruct (if negb _ then _ else _) as [[]|c] in G2 |- *; cbn [guard_spec mbind res_bind] in *; [|destruct G2; split; tauto].
  destruct (if ev =? _ then _ else _) as [[]|c] in G3 |- *; cbn [guard_spec mbind res_bind] in *; [|destruct G3; split; tauto].
  cbn [revision_ pr_revision pr_version]. split_and!; try done.
  - by destruct it.
  - apply map_eq. intros k. rewrite lookup_view by (by apply om_insert_sorted). cbn [data_]. rewrite om_find_insert, lookup_insert.
    destruct (decide (key = k)) as [<-|Hne]; [|by rewrite lookup_view]. by destruct it.
Qed.

(** ** Witnesses *)

Lemma initial_kv_inv : kv_inv (SetMutationCallback new_MemoryKvStore).
Proof. split; [constructor|cbn; lia|done|done]. Qed.

Module KvDemo.
Definition s0 : MemoryKvStore := SetMutationCallback new_MemoryKvStore.
Definition put (key value : string) (s : MemoryKvStore) : MemoryKvStore :=
  match Put key value 100 (-1) 0 0 s with Ok (s', _, _) => s' | Err _ => s end.
Definition s1 : MemoryKvStore := put "a" "1" s0.
Definition e1 : ValueEntry := {| ve_value := "1"; ve_version := 1; ve_createRevision := 2; ve_modRevision := 2;
  ve_ttlMs := 100; ve_ttlGeneration := 1 |}.

Lemma s1_inv : kv_inv s1.
Proof.
  apply (kv_step_inv s0 [{| we_type := EV_PUT; we_entry := entry_of "a" e1; we_revision := 2 |}]);
    [apply initial_kv_inv|unfold INT64_MAX; cbn; lia|].
  eapply (kv_put s0 "a" "1" 100 (-1) 0 0). reflexivity.
Qed.

(** Another key is written after [s1]. *)
Definition s2 : MemoryKvStore := put "b" "2" s1.
Definition events2 : list WatchEvent :=
  match Put "b" "2" 100 (-1) 0 0 s1 with Ok (_, _, ev) => ev | Err _ => [] end.

Lemma s1_run : kv_run 1 s1 (events2 ++ []) s2.
Proof. eapply kv_cons; [|apply kv_nil]. eapply (kv_put s1 "b" "2" 100 (-1) 0 0). reflexivity. Qed.
End KvDemo.
Import KvDemo.

Lemma kv_events_replay_witness : view s2 = foldl apply_event (view s1) (events2 ++ []).
Proof.
  exact (proj1 (kv_events_replay 1 s1 (events2 ++ []) s2 s1_inv eq_refl
    ltac:(vm_compute; discriminate) s1_run)).
Defined.

Lemma Put_no_lost_update_witness :
  exists s' r ev, Put "a" "3" 0 (-1) 2 0 s2 = Ok (s', r, ev) /\ view s2 !! "a" = Some (entry_of "a" e1).
Proof.
  destruct (Put "a" "3" 0 (-1) 2 0 s2) as [[[s' r] ev]|c] eqn:E; [|discriminate E].
  exists s', r, ev. split; [reflexivity|].
  exact (Put_no_lost_update 1 s1 (events2 ++ []) s2 "a" (entry_of "a" e1) "3" 0 (-1) 0 s' r ev s1_inv
    ltac:(vm_compute; discriminate) ltac:(vm_compute; reflexivity) s1_run E).
Defined.

Lemma DeleteIfTtlExpired_safe_witness :
  exists s' ev, DeleteIfTtlExpired "a" 2 1 s2 = (s', true, ev) /\ om_find "a" (data_ s2) = Some e1.
Proof.
  destruct (DeleteIfTtlExpired "a" 2 1 s2) as [[s' ok] ev] eqn:E.
  assert (ok = true) as -> by (vm_compute in E; injection E as <- <- <-; reflexivity).
  exists s', ev. split; [reflexivity|].
  exact (proj1 (DeleteIfTtlExpired_safe 1 s1 (events2 ++ []) s2 "a" e1 s' ev s1_inv
    ltac:(vm_compute; discriminate) ltac:(vm_compute; reflexivity) ltac:(vm_compute; discriminate) ltac:(vm_compute; reflexivity) s1_run E)).
Defined.

Lemma Range_exact_witness : rr_revision (Range "a" "" 0 false s1) = 2.
Proof. exact (proj1 (Range_exact "a" "" 0 false s1 s1_inv)). Defined.

Lemma Delete_exact_witness :
  exists s' r ev, Delete "a" "b" 0 s1 = Ok (s', r, ev) /\ dr_entries r = rr_kvs (Range "a" "b" 0 false s1).
Proof.
  destruct (Delete "a" "b" 0 s1) as [[[s' r] ev]|c] eqn:E; [|discriminate E].
  exists s', r, ev. split; [reflexivity|]. exact (proj1 (Delete_exact "a" "b" 0 s1 s' r ev s1_inv E)).
Defined.

Lemma Put_spec_witness : ~ put_allowed "a" 0 0 0 s1.
Proof.
  pose proof (Put_spec "a" "9" 0 0 0 0 s1 s1_inv) as H.
  destruct (Put "a" "9" 0 0 0 0 s1) as [[[s' r] ev]|c] eqn:E; [vm_compute in E; discriminate E|exact (proj1 H)].
Defined.
