(* ===== verification/TtlManager.v ===== *)
(** * Expiry schedule of the coordinator

    src/datasystem/common/coordinator/ttl_manager.{h,cpp}.  [expiryMap_] is a
    [std::multimap] ordered by expiry time, and [expiryIndex_] maps a key to an
    iterator of it.  An iterator is modelled by the identity of the node it
    points to, so erasing through the index and comparing iterators have their
    C++ meaning.  One iteration of the expiry thread is one call of
    [CheckExpiration_pass]; it runs under the mutex except for the callbacks,
    which are returned.  Times are in clock ticks; [ticks] converts
    milliseconds. *)

From S2P Require Import Prelude Ordered.

Definition MAX_EXPIRED_KEYS_PER_CHECK : nat := 1024.
Definition TICKS_PER_MS : Z := 1000000.

Record TtlScheduleRecord := { ts_key : string; ts_revision : Z; ts_ttlGeneration : Z; ts_expireTime : Z }.
Record ExpiredTtlRecord := { ex_key : string; ex_revision : Z; ex_ttlGeneration : Z }.

Record Node := { n_id : nat; n_record : TtlScheduleRecord }.

Record TtlManager := {
  expiryMap_ : list (Z * Node);
  expiryIndex_ : gmap string nat;
  nextNode_ : nat
}.

Definition new_TtlManager : TtlManager := {| expiryMap_ := []; expiryIndex_ := ∅; nextNode_ := 0 |}.

(** [std::multimap::emplace]: after every element with an equivalent key. *)
Fixpoint mm_emplace (t : Z) (n : Node) (m : list (Z * Node)) : list (Z * Node) :=
  match m with
  | [] => [(t, n)]
  | x :: m' => if x.1 <=? t then x :: mm_emplace t n m' else (t, n) :: m
  end.

(** [std::multimap::erase(iterator)]. *)
Definition mm_erase (i : nat) (m : list (Z * Node)) : list (Z * Node) :=
  List.filter (fun x => negb (n_id x.2 =? i)%nat) m.

(** Dereferencing an iterator. *)
Definition mm_find (i : nat) (m : list (Z * Node)) : option (Z * Node) :=
  List.find (fun x => n_id x.2 =? i)%nat m.

Definition Schedule (key : string) (ttlMs revision ttlGeneration now : Z) (self : TtlManager) : TtlManager :=
  if ttlMs <=? 0 then self
  else
    let expireTime := now + ttlMs * TICKS_PER_MS in
    let existing := expiryIndex_ self !! key ≫= fun i => mm_find i (expiryMap_ self) in
    let older := match existing with
      | Some (_, n) => (revision <? ts_revision (n_record n)) ||
          ((revision =? ts_revision (n_record n)) && (ttlGeneration <? ts_ttlGeneration (n_record n)))
      | None => false
      end in
    if older then self
    else
      let map := match expiryIndex_ self !! key with
        | Some i => mm_erase i (expiryMap_ self)
        | None => expiryMap_ self
        end in
      let node := {| n_id := nextNode_ self; n_record := {| ts_key := key; ts_revision := revision;
                     ts_ttlGeneration := ttlGeneration; ts_expireTime := expireTime |} |} in
      {| expiryMap_ := mm_emplace expireTime node map;
         expiryIndex_ := <[key := nextNode_ self]> (expiryIndex_ self);
         nextNode_ := S (nextNode_ self) |}.

(** The inner loop of [CheckExpiration]; [fuel] is the room left in the batch. *)
Fixpoint pop_expired (fuel : nat) (now : Z) (self : TtlManager) : TtlManager * list ExpiredTtlRecord :=
  match fuel with
  | O => (self, [])
  | S fuel' =>
      match expiryMap_ self with
      | (t, n) :: rest =>
          if t <=? now then
            let record := n_record n in
            let index := match expiryIndex_ self !! ts_key record with
              | Some i => if (i =? n_id n)%nat then base.delete (ts_key record) (expiryIndex_ self) else expiryIndex_ self
              | None => expiryIndex_ self
              end in
            let r := pop_expired fuel' now
                       {| expiryMap_ := rest; expiryIndex_ := index; nextNode_ := nextNode_ self |} in
            (r.1, {| ex_key := ts_key record; ex_revision := ts_revision record;
                     ex_ttlGeneration := ts_ttlGeneration record |} :: r.2)
          else (self, [])
      | [] => (self, [])
      end
  end.

(** One iteration of the expiry thread: the records whose callback it calls. *)
Definition CheckExpiration_pass (now : Z) (self : TtlManager) : TtlManager * list ExpiredTtlRecord :=
  pop_expired MAX_EXPIRED_KEYS_PER_CHECK now self.

(** ** Invariant: one live node per key, ordered by time *)

Record ttl_inv (self : TtlManager) : Prop := {
  tl_sorted : StronglySorted (fun a b => a.1 <= b.1) (expiryMap_ self);
  tl_nodes : NoDup ((fun x => n_id x.2) <$> expiryMap_ self);
  tl_fresh x : x ∈ expiryMap_ self -> (n_id x.2 < nextNode_ self)%nat;
  tl_time x : x ∈ expiryMap_ self -> x.1 = ts_expireTime (n_record x.2);
  tl_index k i : expiryIndex_ self !! k = Some i <->
     exists x, x ∈ expiryMap_ self /\ n_id x.2 = i /\ ts_key (n_record x.2) = k
}.

(** The record scheduled for a key. *)
Definition scheduled (self : TtlManager) (k : string) (r : TtlScheduleRecord) : Prop :=
  exists x, x ∈ expiryMap_ self /\ n_record x.2 = r /\ ts_key r = k.

Lemma node_inj self x y : ttl_inv self -> x ∈ expiryMap_ self -> y ∈ expiryMap_ self ->
  n_id x.2 = n_id y.2 -> x = y.
Proof.
  intros Hinv [i Hi]%list_elem_of_lookup [j Hj]%list_elem_of_lookup Heq.
  pose proof (tl_nodes _ Hinv) as Hnd. rewrite NoDup_alt in Hnd. assert (i = j) as ->; [|congruence].
  eapply (Hnd i j (n_id x.2)); rewrite list_lookup_fmap; [by rewrite Hi|rewrite Hj; cbn; by rewrite Heq].
Qed.

(** A key has at most one scheduled record. *)
Lemma scheduled_unique self k x y : ttl_inv self -> x ∈ expiryMap_ self -> y ∈ expiryMap_ self ->
  ts_key (n_record x.2) = k -> ts_key (n_record y.2) = k -> x = y.
Proof.
  intros Hinv Hx Hy Hkx Hky. apply (node_inj self); [done..|].
  assert (expiryIndex_ self !! k = Some (n_id x.2)) by (apply (tl_index _ Hinv); eauto).
  assert (expiryIndex_ self !! k = Some (n_id y.2)) by (apply (tl_index _ Hinv); eauto). congruence.
Qed.

Lemma mm_find_elem i m x : NoDup ((fun x => n_id x.2) <$> m) -> mm_find i m = Some x <-> x ∈ m /\ n_id x.2 = i.
Proof.
  intros Hnd. unfold mm_find. split.
  - intros [Hin He%Nat.eqb_eq]%List.find_some. by rewrite list_elem_of_In.
  - intros [Hin He]. induction m as [|y m IH]; [by apply not_elem_of_nil in Hin|].
    rewrite fmap_cons, NoDup_cons in Hnd. destruct Hnd as [Hy Hnd]. cbn.
    destruct (Nat.eqb_spec (n_id y.2) i) as [E|E].
    + apply elem_of_cons in Hin as [->|Hin]; [done|]. destruct Hy.
      rewrite E, <-He. by apply (list_elem_of_fmap_2 (fun x => n_id x.2)).
    + apply elem_of_cons in Hin as [->|Hin]; [done|auto].
Qed.

Lemma elem_of_mm_emplace t n m x : x ∈ mm_emplace t n m <-> x = (t, n) \/ x ∈ m.
Proof.
  induction m as [|y m IH]; cbn; [by rewrite list_elem_of_singleton, elem_of_nil; naive_solver|].
  case_match; rewrite !elem_of_cons, ?IH; naive_solver.
Qed.

Lemma mm_emplace_perm t n m : mm_emplace t n m ≡ₚ (t, n) :: m.
Proof.
  induction m as [|y m IH]; cbn; [done|]. case_match; [|done]. rewrite IH. apply perm_swap.
Qed.

Lemma mm_emplace_sorted t n m : StronglySorted (fun a b => a.1 <= b.1) m ->
  StronglySorted (fun a b => a.1 <= b.1) (mm_emplace t n m).
Proof.
  induction 1 as [|y m Hs IH Hall]; cbn; [repeat constructor|].
  destruct (Z.leb_spec y.1 t).
  - constructor; [done|]. rewrite mm_emplace_perm. constructor; [done|done].
  - constructor; [by constructor|]. constructor; [cbn; lia|].
    eapply Forall_impl; [exact Hall|]. cbn. intros; lia.
Qed.

(** The map without the node of [key]. *)
Definition without_key (key : string) (self : TtlManager) : list (Z * Node) :=
  match expiryIndex_ self !! key with
  | Some i => mm_erase i (expiryMap_ self)
  | None => expiryMap_ self
  end.

Lemma without_key_spec key self : ttl_inv self ->
  without_key key self `sublist_of` expiryMap_ self /\
  forall x, x ∈ without_key key self <-> x ∈ expiryMap_ self /\ ts_key (n_record x.2) <> key.
Proof.
  intros Hinv. unfold without_key. destruct (expiryIndex_ self !! key) as [i|] eqn:Ei.
  - apply (tl_index _ Hinv) in Ei as (y & Hy & Hid & Hk). split.
    + unfold mm_erase. clear. induction (expiryMap_ self) as [|x m IH]; cbn; [done|]. destruct (negb _); by constructor.
    + intros x. unfold mm_erase. rewrite elem_of_filter_bool, negb_true_iff, Nat.eqb_neq. split.
      * intros [Hx Hne]. split; [done|]. intros Hkx. by rewrite (scheduled_unique self key x y) in Hne.
      * intros [Hx Hne]. split; [done|]. intros E. apply Hne. by rewrite (node_inj self x y) by congruence.
  - split; [done|]. intros x. split; [|by intros []]. intros Hx. split; [done|]. intros Hk.
    assert (expiryIndex_ self !! key = Some (n_id x.2)) by (apply (tl_index _ Hinv); eauto). congruence.
Qed.

Lemma sublist_StronglySorted {A} (R : A -> A -> Prop) l l' : l `sublist_of` l' -> StronglySorted R l' -> StronglySorted R l.
Proof.
  induction 1 as [|x l l' Hsub IH|x l l' Hsub IH]; intros Hs; [done|..]; inversion_clear Hs as [|?? Hs' Hall]; [|auto].
  constructor; [auto|]. rewrite Forall_forall in Hall. apply Forall_forall. intros y Hy. apply Hall. by eapply elem_of_sublist.
Qed.

(** Is a record newer than a [(revision, generation)] pair? *)
Definition newer (r : TtlScheduleRecord) (revision ttlGeneration : Z) : Prop :=
  revision < ts_revision r \/ (revision = ts_revision r /\ ttlGeneration < ts_ttlGeneration r).

Lemma Schedule_cases key ttlMs revision gen now self : ttl_inv self -> 0 < ttlMs ->
  (exists r, scheduled self key r /\ newer r revision gen /\ Schedule key ttlMs revision gen now self = self) \/
  ((forall r, scheduled self key r -> ~ newer r revision gen) /\
   Schedule key ttlMs revision gen now self =
     {| expiryMap_ := mm_emplace (now + ttlMs * TICKS_PER_MS) {| n_id := nextNode_ self; n_record :=
          {| ts_key := key; ts_revision := revision; ts_ttlGeneration := gen;
             ts_expireTime := now + ttlMs * TICKS_PER_MS |} |} (without_key key self);
        expiryIndex_ := <[key := nextNode_ self]> (expiryIndex_ self); nextNode_ := S (nextNode_ self) |}).
Proof.
  intros Hinv Httl. unfold Schedule, without_key. rewrite (proj2 (Z.leb_gt ttlMs 0)) by lia.
  destruct (expiryIndex_ self !! key) as [i|] eqn:Ei; cbn [mbind option_bind].
  - pose proof Ei as (y & Hy & Hid & Hk)%(tl_index _ Hinv).
    assert (mm_find i (expiryMap_ self) = Some y) as -> by (by apply mm_find_elem; [apply Hinv|]).
    destruct y as [ty ny]. cbn [snd] in *.
    assert (Honly : forall r, scheduled self key r -> r = n_record ny).
    { intros r (x & Hx & <- & Hkx). by rewrite (scheduled_unique self key x (ty, ny)). }
    destruct (_ || _) eqn:Eo.
    + left. exists (n_record ny). split; [by exists (ty, ny)|]. split; [|done]. unfold newer. lia.
    + right. split; [|done]. intros r ->%Honly Hn. unfold newer in Hn.
      apply orb_false_iff in Eo as [E1%Z.ltb_ge E2]. apply andb_false_iff in E2 as [E2%Z.eqb_neq|E2%Z.ltb_ge]; lia.
  - right. split; [|done]. intros r (x & Hx & <- & Hkx).
    assert (expiryIndex_ self !! key = Some (n_id x.2)) by (apply (tl_index _ Hinv); eauto). congruence.
Qed.

Lemma Schedule_inv key ttlMs revision gen now self : ttl_inv self ->
  ttl_inv (Schedule key ttlMs revision gen now self).
Proof.
  intros Hinv. destruct (decide (0 < ttlMs)) as [Httl|Httl].
  2:{ unfold Schedule. by rewrite (proj2 (Z.leb_le ttlMs 0)) by lia. }
  destruct (Schedule_cases key ttlMs revision gen now self Hinv Httl) as [(r & _ & _ & ->)|[_ ->]]; [done|].
  destruct (without_key_spec key self Hinv) as [Hsub Hel]. destruct Hinv as [H1 H2 H3 H4 H5].
  assert (Hfr : forall x, x ∈ without_key key self -> (n_id x.2 < nextNode_ self)%nat) by (intros x [Hx _]%Hel; auto).
  split; cbn [expiryMap_ expiryIndex_ nextNode_].
  - apply mm_emplace_sorted. by eapply sublist_StronglySorted.
  - rewrite mm_emplace_perm. cbn. constructor.
    + intros (x & Hid & Hx)%list_elem_of_fmap. apply Hfr in Hx. lia.
    + eapply sublist_NoDup; [exact H2|]. by apply fmap_sublist.
  - intros x [->|Hx]%elem_of_mm_emplace; [cbn; lia|]. apply Hfr in Hx. lia.
  - intros x [->|[Hx _]%Hel]%elem_of_mm_emplace; [done|auto].
  - intros k i. setoid_rewrite elem_of_mm_emplace. rewrite lookup_insert. case_decide as Hk.
    + subst k. split.
      * intros [= <-]. eexists. split; [by left|done].
      * intros (x & [->|[Hx Hne]%Hel] & Hid & Hkx); [cbn in Hid; by subst|done].
    + rewrite H5. split.
      * intros (x & Hx & Hid & Hkx). exists x. split; [right; apply Hel; split; [done|congruence]|done].
      * intros (x & [->|[Hx _]%Hel] & Hid & Hkx); [done|eauto].
Qed.

(** scheduling a key replaces its record unless the one present is of a newer
    revision or generation, never touches another key's record, and keeps the
    schedule well formed. *)
Theorem Schedule_latest key ttlMs revision gen now self : ttl_inv self -> 0 < ttlMs ->
  let self' := Schedule key ttlMs revision gen now self in
  ttl_inv self' /\
  (forall k r, k <> key -> scheduled self' k r <-> scheduled self k r) /\
  (forall r, scheduled self' key r <->
     (scheduled self key r /\ newer r revision gen) \/
     ((forall r0, scheduled self key r0 -> ~ newer r0 revision gen) /\
      r = {| ts_key := key; ts_revision := revision; ts_ttlGeneration := gen;
             ts_expireTime := now + ttlMs * TICKS_PER_MS |})).
Proof.
  intros Hinv Httl. cbv zeta. split; [by apply Schedule_inv|].
  destruct (without_key_spec key self Hinv) as [_ Hel].
  destruct (Schedule_cases key ttlMs revision gen now self Hinv Httl) as [(r0 & Hr0 & Hn & ->)|[Hno ->]].
  - split; [done|]. intros r. split; [|intros [[? _]|[Hc _]]; [done|by destruct (Hc r0)]].
    intros Hr. left. split; [done|]. destruct Hr as (x & Hx & <- & Hk), Hr0 as (y & Hy & <- & Hk').
    by rewrite (scheduled_unique self key x y).
  - unfold scheduled at 1 3. cbn [expiryMap_]. setoid_rewrite elem_of_mm_emplace. split.
    + intros k r Hk. split.
      * intros (x & [->|[Hx _]%Hel] & <- & Hkx); [done|by exists x].
      * intros (x & Hx & <- & Hkx). exists x. split; [right; apply Hel; split; [done|congruence]|done].
    + intros r. split.
      * intros (x & [->|[Hx Hne]%Hel] & <- & Hkx); [right; done|done].
      * intros [[Hr Hn]|[_ ->]]; [by destruct (Hno r Hr)|]. eexists. split; [by left|done].
Qed.

Definition expired_of (x : Z * Node) : ExpiredTtlRecord :=
  {| ex_key := ts_key (n_record x.2); ex_revision := ts_revision (n_record x.2);
     ex_ttlGeneration := ts_ttlGeneration (n_record x.2) |}.

Lemma pop_head_inv t n rest self : ttl_inv self -> expiryMap_ self = (t, n) :: rest ->
  ttl_inv {| expiryMap_ := rest;
     expiryIndex_ := match expiryIndex_ self !! ts_key (n_record n) with
       | Some i => if (i =? n_id n)%nat then base.delete (ts_key (n_record n)) (expiryIndex_ self) else expiryIndex_ self
       | None => expiryIndex_ self end;
     nextNode_ := nextNode_ self |}.
Proof.
  intros Hinv Em. assert (Hin : (t, n) ∈ expiryMap_ self) by (rewrite Em; left).
  assert (Hrest : forall x, x ∈ rest -> x ∈ expiryMap_ self /\ x <> (t, n)).
  { pose proof (tl_nodes _ Hinv) as Hnd. rewrite Em, fmap_cons, NoDup_cons in Hnd. destruct Hnd as [Hnd _].
    intros x Hx. rewrite Em. split; [by right|]. intros ->.
    by apply Hnd, (list_elem_of_fmap_2 (fun x => n_id x.2) _ (t, n)). }
  assert (expiryIndex_ self !! ts_key (n_record n) = Some (n_id n)) as -> by (apply (tl_index _ Hinv); eauto).
  rewrite Nat.eqb_refl.
  pose proof Hinv as [H1 H2 H3 H4 H5]. rewrite Em in H1, H2. inversion_clear H1 as [|?? Hs _].
  rewrite fmap_cons, NoDup_cons in H2. destruct H2 as [_ Hnd].
  split; cbn [expiryMap_ expiryIndex_ nextNode_]; [done|done| | |].
  - intros x [Hx _]%Hrest. auto.
  - intros x [Hx _]%Hrest. auto.
  - intros k i. destruct (decide (ts_key (n_record n) = k)) as [<-|Hne].
    + rewrite lookup_delete_eq. split; [done|]. intros (x & [Hx Hne]%Hrest & Hid & Hkx). destruct Hne.
      by apply (scheduled_unique self (ts_key (n_record n))).
    + rewrite lookup_delete_ne, H5 by done. split.
      * intros (x & Hx & Hid & Hkx). rewrite Em in Hx. apply elem_of_cons in Hx as [->|Hx]; [done|eauto].
      * intros (x & [Hx _]%Hrest & Hid & Hkx). eauto.
Qed.

Lemma pop_expired_spec fuel now self : ttl_inv self ->
  let '(self', expired) := pop_expired fuel now self in
  ttl_inv self' /\ exists popped, expiryMap_ self = popped ++ expiryMap_ self' /\
    expired = expired_of <$> popped /\ (length popped <= fuel)%nat /\
    (forall x, x ∈ popped -> x.1 <= now) /\
    ((length popped < fuel)%nat -> forall x, x ∈ expiryMap_ self' -> now < x.1).
Proof.
  revert self. induction fuel as [|fuel IH]; intros self Hinv; cbn [pop_expired].
  { split; [done|]. exists []. split_and!; try done; [no_elem|cbn; lia]. }
  destruct (expiryMap_ self) as [|[t n] rest] eqn:Em.
  { split; [done|]. exists []. rewrite Em. split_and!; try done; [cbn; lia|no_elem|].
    by intros _ ? ?%not_elem_of_nil. }
  destruct (Z.leb_spec t now) as [Hle|Hgt].
  - pose proof (pop_head_inv t n rest self Hinv Em) as Hinv'. specialize (IH _ Hinv').
    destruct (pop_expired fuel now _) as [self' expired]. cbn [fst snd].
    destruct IH as (Hi & popped & Hmap & -> & Hlen & Hdue & Hrest). cbn [expiryMap_] in Hmap.
    split; [done|]. exists ((t, n) :: popped). cbn [app]. split_and!; [by rewrite Hmap|done|cbn; lia| |].
    + intros x [->|Hx]%elem_of_cons; [done|auto].
    + cbn [length]. intros Hl. apply Hrest. lia.
  - split; [done|]. exists []. rewrite Em. split_and!; try done; [cbn; lia|no_elem|].
    intros _ x Hx. pose proof (tl_sorted _ Hinv) as Hs. rewrite Em in Hs. inversion_clear Hs as [|?? _ Hall].
    rewrite Forall_forall in Hall. apply elem_of_cons in Hx as [->|Hx]; [done|]. apply Hall in Hx. cbn in Hx. lia.
Qed.

(** one pass of the expiry thread calls back exactly the due records, oldest
    first and never one before its time, at most [MAX_EXPIRED_KEYS_PER_CHECK]
    of them; when it calls back fewer, no due record is left behind. *)
Theorem CheckExpiration_pass_exact now self : ttl_inv self ->
  let '(self', expired) := CheckExpiration_pass now self in
  ttl_inv self' /\ exists popped, expiryMap_ self = popped ++ expiryMap_ self' /\
    expired = expired_of <$> popped /\ (length popped <= MAX_EXPIRED_KEYS_PER_CHECK)%nat /\
    (forall x, x ∈ popped -> ts_expireTime (n_record x.2) <= now) /\
    ((length popped < MAX_EXPIRED_KEYS_PER_CHECK)%nat ->
       forall k r, scheduled self' k r -> now < ts_expireTime r).
Proof.
  intros Hinv. unfold CheckExpiration_pass. pose proof (pop_expired_spec MAX_EXPIRED_KEYS_PER_CHECK now self Hinv) as Hp.
  destruct (pop_expired MAX_EXPIRED_KEYS_PER_CHECK now self) as [self' expired].
  destruct Hp as (Hi & popped & Hmap & -> & Hlen & Hdue & Hrest). split; [done|]. exists popped.
  split_and!; try done.
  - intros x Hx. rewrite <-(tl_time _ Hinv x); [auto|]. rewrite Hmap. apply elem_of_app. by left.
  - intros Hl k r (x & Hx & <- & _). rewrite <-(tl_time _ Hi x) by done. auto.
Qed.

Lemma new_TtlManager_inv : ttl_inv new_TtlManager.
Proof. split; cbn; [constructor|constructor|no_elem..|]. intros k i. split; [done|]. by intros (x & ?%not_elem_of_nil & _). Qed.

Lemma Schedule_latest_witness :
  ttl_inv (Schedule "a" 100 7 1 0 new_TtlManager) /\
  scheduled (Schedule "a" 100 7 1 0 new_TtlManager) "a"
    {| ts_key := "a"; ts_revision := 7; ts_ttlGeneration := 1; ts_expireTime := 100000000 |}.
Proof.
  destruct (Schedule_latest "a" 100 7 1 0 new_TtlManager new_TtlManager_inv ltac:(lia)) as (Hi & _ & Hs).
  split; [exact Hi|]. apply Hs. right. split; [|reflexivity]. intros r (x & Hx & _). by apply not_elem_of_nil in Hx.
Defined.

Lemma CheckExpiration_pass_exact_witness :
  let self := Schedule "a" 100 7 1 0 new_TtlManager in
  (CheckExpiration_pass 100000000 self).2 = [{| ex_key := "a"; ex_revision := 7; ex_ttlGeneration := 1 |}] /\
  ttl_inv (CheckExpiration_pass 100000000 self).1.
Proof.
  cbv zeta. split; [vm_compute; reflexivity|].
  pose proof (CheckExpiration_pass_exact 100000000 (Schedule "a" 100 7 1 0 new_TtlManager)
    (Schedule_inv _ _ _ _ _ _ new_TtlManager_inv)) as H.
  destruct (CheckExpiration_pass 100000000 (Schedule "a" 100 7 1 0 new_TtlManager)). exact (proj1 H).
Defined.
