(* ===== verification/WatchRegistry.v ===== *)
(** * Watch registrations of the coordinator

    src/datasystem/common/coordinator/watch_registry.{h,cpp}: watchers indexed by
    exact key and by key range.  Every operation runs under the registry's
    mutex.  The iteration order of an [unordered_set] is unspecified; [elements]
    fixes one, and the theorems do not depend on it. *)

From S2P Require Import Prelude Ordered.

Record WatcherEntry := {
  we_watchId : Z;
  we_watcherAddr : string;
  we_registrationId : string;
  we_active : bool
}.

Record WatchRange := { wr_key : string; wr_rangeEnd : string; wr_watchIds : gset Z }.

Record WatchRegistry := {
  watchers_ : gmap Z WatcherEntry;
  watchIdsByRegistrationId_ : gmap string Z;
  watchScopesById_ : gmap Z (string * string);
  exactWatchIdsByKey_ : gmap string (gset Z);
  rangeWatches_ : list WatchRange;
  nextWatchId_ : Z
}.

Definition new_WatchRegistry : WatchRegistry := {|
  watchers_ := ∅; watchIdsByRegistrationId_ := ∅; watchScopesById_ := ∅; exactWatchIdsByKey_ := ∅;
  rangeWatches_ := []; nextWatchId_ := 1 |}.

Definition IsSameRange (watchRange : WatchRange) (key rangeEnd : string) : bool :=
  bool_decide (wr_key watchRange = key) && bool_decide (wr_rangeEnd watchRange = rangeEnd).

(** [watchRange.key <= key && key < watchRange.rangeEnd] on byte strings. *)
Definition IsKeyInRange (key : string) (watchRange : WatchRange) : bool :=
  negb (ltk key (wr_key watchRange)) && ltk key (wr_rangeEnd watchRange).

Definition IsInTableScope (key table : string) : bool :=
  bool_decide (key = table) ||
  ((String.length table <? String.length key)%nat && String.prefix table key &&
   bool_decide (String.get (String.length table) key = Some "/"%char)).

Definition range_id_insert (watchId : Z) (g : WatchRange) : WatchRange :=
  {| wr_key := wr_key g; wr_rangeEnd := wr_rangeEnd g; wr_watchIds := {[watchId]} ∪ wr_watchIds g |}.

(** [std::find_if] for the group, then insert into it or append a new group. *)
Fixpoint add_to_range (key rangeEnd : string) (watchId : Z) (groups : list WatchRange) : list WatchRange :=
  match groups with
  | [] => [{| wr_key := key; wr_rangeEnd := rangeEnd; wr_watchIds := {[watchId]} |}]
  | g :: groups' =>
      if IsSameRange g key rangeEnd then range_id_insert watchId g :: groups'
      else g :: add_to_range key rangeEnd watchId groups'
  end.

(** Returns the out-parameters [watchId] and [created]. *)
Definition Register (key rangeEnd watcherAddr registrationId : string) (self : WatchRegistry)
    : res (WatchRegistry * Z * bool) :=
  let fresh :=
    let watchId := nextWatchId_ self in
    let entry := {| we_watchId := watchId; we_watcherAddr := watcherAddr; we_registrationId := registrationId;
                    we_active := true |} in
    let registered := if bool_decide (registrationId = EmptyString) then watchIdsByRegistrationId_ self
                      else <[registrationId := watchId]> (watchIdsByRegistrationId_ self) in
    Ok ({| watchers_ := <[watchId := entry]> (watchers_ self);
           watchIdsByRegistrationId_ := registered;
           watchScopesById_ := <[watchId := (key, rangeEnd)]> (watchScopesById_ self);
           exactWatchIdsByKey_ := if bool_decide (rangeEnd = EmptyString)
             then <[key := {[watchId]} ∪ default ∅ (exactWatchIdsByKey_ self !! key)]> (exactWatchIdsByKey_ self)
             else exactWatchIdsByKey_ self;
           rangeWatches_ := if bool_decide (rangeEnd = EmptyString) then rangeWatches_ self
             else add_to_range key rangeEnd watchId (rangeWatches_ self);
           nextWatchId_ := i64 (watchId + 1) |}, watchId, true) in
  if bool_decide (registrationId = EmptyString) then fresh
  else match watchIdsByRegistrationId_ self !! registrationId with
  | None => fresh
  | Some i =>
      match watchers_ self !! i with
      | Some w =>
          _ ← check (bool_decide (we_watcherAddr w = watcherAddr)) K_INVALID;
          _ ← check (bool_decide (watchScopesById_ self !! i = Some (key, rangeEnd))) K_INVALID;
          Ok (self, i, false)
      | None => Err K_INVALID
      end
  end.

(** Erase the id from every group and drop the groups that become empty. *)
Definition remove_from_ranges (watchId : Z) (groups : list WatchRange) : list WatchRange :=
  List.filter (fun g => negb (bool_decide (wr_watchIds g = ∅)))
    ((fun g => {| wr_key := wr_key g; wr_rangeEnd := wr_rangeEnd g; wr_watchIds := wr_watchIds g ∖ {[watchId]} |})
       <$> groups).

Definition Cancel (watchId : Z) (watcherAddr : string) (self : WatchRegistry) : res WatchRegistry :=
  match watchers_ self !! watchId with
  | None => Err K_NOT_FOUND
  | Some w =>
      _ ← check (bool_decide (watcherAddr = EmptyString) || bool_decide (we_watcherAddr w = watcherAddr)) K_INVALID;
      let registered := if bool_decide (we_registrationId w = EmptyString) then watchIdsByRegistrationId_ self
                        else base.delete (we_registrationId w) (watchIdsByRegistrationId_ self) in
      let scope := watchScopesById_ self !! watchId in
      let is_exact := match scope with Some (_, rangeEnd) => bool_decide (rangeEnd = EmptyString) | None => false end in
      let exact := match scope with
        | Some (key, _) =>
            match exactWatchIdsByKey_ self !! key with
            | Some ids =>
                if bool_decide (ids ∖ {[watchId]} = ∅) then base.delete key (exactWatchIdsByKey_ self)
                else <[key := ids ∖ {[watchId]}]> (exactWatchIdsByKey_ self)
            | None => exactWatchIdsByKey_ self
            end
        | None => exactWatchIdsByKey_ self
        end in
      Ok {| watchers_ := base.delete watchId (watchers_ self);
            watchIdsByRegistrationId_ := registered;
            watchScopesById_ := base.delete watchId (watchScopesById_ self);
            exactWatchIdsByKey_ := if is_exact then exact else exactWatchIdsByKey_ self;
            rangeWatches_ := if is_exact then rangeWatches_ self else remove_from_ranges watchId (rangeWatches_ self);
            nextWatchId_ := nextWatchId_ self |}
  end.

(** The active watchers among [ids]. *)
Definition active_watchers (ids : gset Z) (self : WatchRegistry) : list WatcherEntry :=
  omap (fun i => match watchers_ self !! i with
                 | Some w => if we_active w then Some w else None
                 | None => None
                 end) (elements ids).

Definition MatchWatchers (key : string) (self : WatchRegistry) : list WatcherEntry :=
  (match exactWatchIdsByKey_ self !! key with Some ids => active_watchers ids self | None => [] end) ++
  (List.filter (IsKeyInRange key) (rangeWatches_ self) ≫= fun g => active_watchers (wr_watchIds g) self).

Definition IsWatchInScopes (watchId : Z) (tableScopes : list string) (self : WatchRegistry) : bool :=
  match watchScopesById_ self !! watchId with
  | None => false
  | Some (key, _) => existsb (IsInTableScope key) tableScopes
  end.

(** ** Invariant *)

Record registry_inv (self : WatchRegistry) : Prop := {
  rg_next i : is_Some (watchScopesById_ self !! i) -> i < nextWatchId_ self;
  rg_dom i : is_Some (watchers_ self !! i) <-> is_Some (watchScopesById_ self !! i);
  rg_entry i w : watchers_ self !! i = Some w -> we_watchId w = i /\ we_active w = true;
  rg_registered r i : watchIdsByRegistrationId_ self !! r = Some i <->
    exists w, watchers_ self !! i = Some w /\ we_registrationId w = r /\ r <> EmptyString;
  rg_exact k i : (exists ids, exactWatchIdsByKey_ self !! k = Some ids /\ i ∈ ids) <->
    watchScopesById_ self !! i = Some (k, EmptyString);
  rg_range g i : g ∈ rangeWatches_ self ->
    wr_rangeEnd g <> EmptyString /\
    (i ∈ wr_watchIds g <-> watchScopesById_ self !! i = Some (wr_key g, wr_rangeEnd g));
  rg_group i k e : watchScopesById_ self !! i = Some (k, e) -> e <> EmptyString ->
    exists g, g ∈ rangeWatches_ self /\ wr_key g = k /\ wr_rangeEnd g = e;
  rg_groups : NoDup ((fun g => (wr_key g, wr_rangeEnd g)) <$> rangeWatches_ self)
}.

(** A registered watcher covers a key. *)
Definition covers (key : string) (scope : string * string) : bool :=
  if bool_decide (scope.2 = EmptyString) then bool_decide (scope.1 = key)
  else negb (ltk key scope.1) && ltk key scope.2.

Lemma elem_of_active_watchers ids self w : registry_inv self ->
  w ∈ active_watchers ids self <-> exists i, i ∈ ids /\ watchers_ self !! i = Some w.
Proof.
  intros Hinv. unfold active_watchers. rewrite list_elem_of_omap. setoid_rewrite elem_of_elements. split.
  - intros (i & Hi & Hw). exists i. split; [done|]. destruct (watchers_ self !! i) as [w'|]; [|done].
    by destruct (we_active w'); simplify_eq.
  - intros (i & Hi & Hw). exists i. rewrite Hw. destruct (rg_entry _ Hinv i w Hw) as [_ ->]. done.
Qed.

Lemma elem_of_MatchWatchers key self w : registry_inv self ->
  w ∈ MatchWatchers key self <->
  exists i scope, watchers_ self !! i = Some w /\ watchScopesById_ self !! i = Some scope /\ covers key scope = true.
Proof.
  intros Hinv. unfold MatchWatchers. rewrite elem_of_app, list_elem_of_bind.
  setoid_rewrite elem_of_filter_bool. unfold covers. split.
  - intros [Hw|(g & Hw & Hg & Hk)].
    + destruct (exactWatchIdsByKey_ self !! key) as [ids|] eqn:Ee; [|by apply not_elem_of_nil in Hw].
      apply elem_of_active_watchers in Hw as (i & Hi & Hw); [|done]. exists i, (key, EmptyString).
      split_and!; [done|apply (rg_exact _ Hinv); eauto|]. cbn. by rewrite !bool_decide_true.
    + apply elem_of_active_watchers in Hw as (i & Hi & Hw); [|done].
      destruct (rg_range _ Hinv g i Hg) as [Hne Hiff]. exists i, (wr_key g, wr_rangeEnd g).
      split_and!; [done|by apply Hiff|]. cbn. by rewrite bool_decide_false.
  - intros (i & [k e] & Hw & Hs & Hc). cbn in Hc. case_bool_decide as He.
    + subst e. apply bool_decide_eq_true in Hc as ->. left.
      destruct (proj2 (rg_exact _ Hinv key i) Hs) as (ids & -> & Hi). apply elem_of_active_watchers; eauto.
    + right. destruct (rg_group _ Hinv i k e Hs He) as (g & Hg & <- & <-). exists g. split_and!; [|done..].
      apply elem_of_active_watchers; [done|]. exists i. split; [|done]. by apply (rg_range _ Hinv g i Hg).
Qed.

Lemma NoDup_of_submseteq {A} (l k : list A) : NoDup k -> l ⊆+ k -> NoDup l.
Proof. intros Hk (k' & Hp)%submseteq_Permutation. rewrite Hp in Hk. by apply NoDup_app in Hk as [? _]. Qed.

Lemma active_watchers_ids ids self : registry_inv self -> we_watchId <$> active_watchers ids self ⊆+ elements ids.
Proof.
  intros Hinv. unfold active_watchers. induction (elements ids) as [|i l IH]; [done|]. cbn.
  destruct (watchers_ self !! i) as [w|] eqn:Ew; cbn; [|by apply submseteq_cons].
  destruct (rg_entry _ Hinv i w Ew) as [Hid ->]. cbn. rewrite Hid. by apply submseteq_skip.
Qed.

Lemma NoDup_active_watchers ids self : registry_inv self -> NoDup (we_watchId <$> active_watchers ids self).
Proof. intros Hinv. apply (NoDup_of_submseteq _ (elements ids)); [apply NoDup_elements|by apply active_watchers_ids]. Qed.

Lemma elem_of_active_ids i ids self : registry_inv self -> i ∈ we_watchId <$> active_watchers ids self -> i ∈ ids.
Proof. intros Hinv Hi. apply elem_of_elements. eapply elem_of_submseteq; [exact Hi|by apply active_watchers_ids]. Qed.

Lemma NoDup_MatchWatchers key self : registry_inv self -> NoDup (we_watchId <$> MatchWatchers key self).
Proof.
  intros Hinv. unfold MatchWatchers. rewrite fmap_app. apply NoDup_app. split_and!.
  - case_match; [by apply NoDup_active_watchers|constructor].
  - intros i Hi Hi'. destruct (exactWatchIdsByKey_ self !! key) as [ids|] eqn:Ee; [|by apply not_elem_of_nil in Hi].
    apply elem_of_active_ids in Hi; [|done].
    assert (Hs : watchScopesById_ self !! i = Some (key, EmptyString)) by (apply (rg_exact _ Hinv); eauto).
    apply list_elem_of_fmap in Hi' as (w & -> & Hw). apply list_elem_of_bind in Hw as (g & Hw & Hg).
    apply elem_of_filter_bool in Hg as [Hg _]. destruct (rg_range _ Hinv g (we_watchId w) Hg) as [Hne Hiff].
    assert (Hin : we_watchId w ∈ wr_watchIds g)
      by (apply (elem_of_active_ids _ _ self Hinv), list_elem_of_fmap; eauto).
    apply Hiff in Hin. congruence.
  - assert (Hsub : forall g, g ∈ List.filter (IsKeyInRange key) (rangeWatches_ self) -> g ∈ rangeWatches_ self)
      by (intros g [??]%elem_of_filter_bool; done).
    assert (Hnd : NoDup ((fun g => (wr_key g, wr_rangeEnd g)) <$> List.filter (IsKeyInRange key) (rangeWatches_ self))).
    { eapply NoDup_of_submseteq; [apply (rg_groups _ Hinv)|]. apply fmap_submseteq. clear.
      induction (rangeWatches_ self) as [|g l IH]; cbn; [done|].
      destruct (IsKeyInRange key g); [by apply submseteq_skip|by apply submseteq_cons]. }
    revert Hsub Hnd. generalize (List.filter (IsKeyInRange key) (rangeWatches_ self)) as groups.
    induction groups as [|g groups IH]; intros Hsub Hnd; cbn; [constructor|].
    apply NoDup_cons in Hnd as [Hg Hnd]. rewrite fmap_app. apply NoDup_app. split_and!.
    + by apply NoDup_active_watchers.
    + intros i Hi Hi'. apply elem_of_active_ids in Hi; [|done].
      apply list_elem_of_fmap in Hi' as (w & -> & Hw). apply list_elem_of_bind in Hw as (g' & Hw & Hg').
      assert (Hin : we_watchId w ∈ wr_watchIds g')
        by (apply (elem_of_active_ids _ _ self Hinv), list_elem_of_fmap; eauto).
      apply (rg_range _ Hinv g) in Hi; [|apply Hsub; by left]. apply (rg_range _ Hinv g') in Hin; [|apply Hsub; by right].
      apply Hg, list_elem_of_fmap. exists g'. split; [|done]. by rewrite Hi in Hin; injection Hin as -> ->.
    + apply IH; [|done]. intros g' Hg'. apply Hsub. by right.
Qed.

(** ** Registration *)

Lemma add_to_range_keys key e id groups : exists rest,
  (fun g => (wr_key g, wr_rangeEnd g)) <$> add_to_range key e id groups =
  ((fun g => (wr_key g, wr_rangeEnd g)) <$> groups) ++ rest /\
  (rest = [] \/ (rest = [(key, e)] /\ (key, e) ∉ (fun g => (wr_key g, wr_rangeEnd g)) <$> groups)).
Proof.
  induction groups as [|g groups (rest & Heq & Hrest)]; cbn.
  - exists [(key, e)]. split; [done|]. right. split; [done|]. apply not_elem_of_nil.
  - destruct (IsSameRange g key e) eqn:Es; cbn.
    + exists []. rewrite app_nil_r. split; [done|by left].
    + exists rest. rewrite Heq. split; [done|]. destruct Hrest as [->|[-> Hno]]; [by left|]. right. split; [done|].
      intros [Hk|Hk]%elem_of_cons; [|done]. injection Hk as -> ->. unfold IsSameRange in Es.
      by rewrite !bool_decide_true in Es.
Qed.

Lemma elem_of_add_to_range key e id groups g : NoDup ((fun g => (wr_key g, wr_rangeEnd g)) <$> groups) ->
  g ∈ add_to_range key e id groups <->
  (g ∈ groups /\ (wr_key g, wr_rangeEnd g) <> (key, e)) \/
  (exists g0, g0 ∈ groups /\ wr_key g0 = key /\ wr_rangeEnd g0 = e /\ g = range_id_insert id g0) \/
  ((forall g0, g0 ∈ groups -> (wr_key g0, wr_rangeEnd g0) <> (key, e)) /\
   g = {| wr_key := key; wr_rangeEnd := e; wr_watchIds := {[id]} |}).
Proof.
  induction groups as [|h groups IH]; intros Hnd; cbn [add_to_range].
  { rewrite list_elem_of_singleton. split.
    - intros ->. right. right. split; [no_elem|done].
    - intros [[?%not_elem_of_nil _]|[(g0 & ?%not_elem_of_nil & _)|[_ ->]]]; done. }
  rewrite fmap_cons, NoDup_cons in Hnd. destruct Hnd as [Hh Hnd].
  assert (Hoth : forall g0, g0 ∈ groups -> (wr_key g0, wr_rangeEnd g0) <> (wr_key h, wr_rangeEnd h)).
  { intros g0 Hg0 E. apply Hh. rewrite <-E. by apply (list_elem_of_fmap_2 (fun g => (wr_key g, wr_rangeEnd g))). }
  unfold IsSameRange. destruct (decide (wr_key h = key /\ wr_rangeEnd h = e)) as [[<- <-]|Hne].
  - rewrite !bool_decide_true by done. cbn [andb]. rewrite elem_of_cons. split.
    + intros [->|Hg]; [right; left; exists h; split_and!; [left|done..]|]. left. split; [by right|by apply Hoth].
    + intros [[Hg Hk]|[(g0 & Hg0 & E1 & E2 & ->)|[Hno _]]].
      * apply elem_of_cons in Hg as [->|Hg]; [done|by right].
      * apply elem_of_cons in Hg0 as [->|Hg0]; [by left|]. destruct (Hoth g0 Hg0). congruence.
      * by destruct (Hno h ltac:(left)).
  - assert (bool_decide (wr_key h = key) && bool_decide (wr_rangeEnd h = e) = false) as ->.
    { apply not_true_is_false. intros [?%bool_decide_eq_true ?%bool_decide_eq_true]%andb_prop. tauto. }
    rewrite elem_of_cons, (IH Hnd). split.
    + intros [->|[[Hg Hk]|[(g0 & Hg0 & E1 & E2 & ->)|[Hno ->]]]].
      * left. split; [left|naive_solver].
      * left. split; [by right|done].
      * right. left. exists g0. split_and!; [by right|done..].
      * right. right. split; [|done]. intros g0 [->|Hg0]%elem_of_cons; [naive_solver|auto].
    + intros [[Hg Hk]|[(g0 & Hg0 & E1 & E2 & ->)|[Hno ->]]].
      * apply elem_of_cons in Hg as [->|Hg]; [by left|tauto].
      * apply elem_of_cons in Hg0 as [->|Hg0]; [tauto|]. right. right. left. by exists g0.
      * right. right. right. split; [|done]. intros g0 Hg0. apply Hno. by right.
Qed.

(** The registry after a registration that created [id]. *)
Definition registered_with (id : Z) (key e addr rid : string) (self self' : WatchRegistry) : Prop :=
  watchers_ self' = <[id := {| we_watchId := id; we_watcherAddr := addr; we_registrationId := rid; we_active := true |}]>
     (watchers_ self) /\
  watchScopesById_ self' = <[id := (key, e)]> (watchScopesById_ self).

Lemma Register_cases key e addr rid self r : Register key e addr rid self = Ok r ->
  (r.2 = false /\ r.1.1 = self /\ watchIdsByRegistrationId_ self !! rid = Some r.1.2 /\
     watchScopesById_ self !! r.1.2 = Some (key, e) /\ rid <> EmptyString) \/
  (r.2 = true /\ r.1.2 = nextWatchId_ self /\ registered_with (nextWatchId_ self) key e addr rid self r.1.1 /\
     (rid = EmptyString \/ watchIdsByRegistrationId_ self !! rid = None) /\
     watchIdsByRegistrationId_ r.1.1 = (if bool_decide (rid = EmptyString) then watchIdsByRegistrationId_ self
       else <[rid := nextWatchId_ self]> (watchIdsByRegistrationId_ self)) /\
     exactWatchIdsByKey_ r.1.1 = (if bool_decide (e = EmptyString)
       then <[key := {[nextWatchId_ self]} ∪ default ∅ (exactWatchIdsByKey_ self !! key)]> (exactWatchIdsByKey_ self)
       else exactWatchIdsByKey_ self) /\
     rangeWatches_ r.1.1 = (if bool_decide (e = EmptyString) then rangeWatches_ self
       else add_to_range key e (nextWatchId_ self) (rangeWatches_ self)) /\
     nextWatchId_ r.1.1 = i64 (nextWatchId_ self + 1)).
Proof.
  unfold Register. case_bool_decide as Hr; [intros [= <-]; right; split_and!; try done; by left|].
  destruct (watchIdsByRegistrationId_ self !! rid) as [i|] eqn:Ei.
  - destruct (watchers_ self !! i) as [w|]; [|done].
    intros (u1 & _ & Hok)%bind_Ok. apply bind_Ok in Hok as (u2 & Hs%check_Ok%bool_decide_eq_true & [= <-]). left. done.
  - intros [= <-]. right. split_and!; try done. by right.
Qed.

(** *** Registration, index by index *)

Lemma register_registered (watchers : gmap Z WatcherEntry) (registered : gmap string Z) rid id w0 :
  (forall r i, registered !! r = Some i <-> exists w, watchers !! i = Some w /\ we_registrationId w = r /\ r <> EmptyString) ->
  watchers !! id = None -> we_registrationId w0 = rid -> (rid = EmptyString \/ registered !! rid = None) -> forall rr i,
  (if bool_decide (rid = EmptyString) then registered else <[rid := id]> registered) !! rr = Some i <->
  exists w, <[id := w0]> watchers !! i = Some w /\ we_registrationId w = rr /\ rr <> EmptyString.
Proof.
  intros R4 Hfw Hw0 Hrid rr i. setoid_rewrite lookup_insert. case_bool_decide as Hr.
  + rewrite R4. split.
    * intros (w & Hwi & ?). exists w. rewrite decide_False by congruence. done.
    * intros (w & Hwi & Hrr & Hne). case_decide; [simplify_eq; cbn in *; congruence|eauto].
  + destruct Hrid as [Hrid|Hrid]; [done|]. rewrite lookup_insert. destruct (decide (rid = rr)) as [<-|Hrr].
    * split.
      { intros [= <-]. eexists. rewrite decide_True by done. done. }
      { intros (w & Hwi & Hrr & _). case_decide as E; [by rewrite E|]. exfalso.
        assert (registered !! rid = Some i) by (apply R4; eauto). congruence. }
    * rewrite R4. split.
      { intros (w & Hwi & ?). exists w. rewrite decide_False by congruence. done. }
      { intros (w & Hwi & Hrr' & Hne). case_decide; [simplify_eq; cbn in *; congruence|eauto]. }
Qed.

Lemma register_exact (scopes : gmap Z (string * string)) (exact : gmap string (gset Z)) key e id :
  (forall k i, (exists ids, exact !! k = Some ids /\ i ∈ ids) <-> scopes !! i = Some (k, EmptyString)) ->
  scopes !! id = None -> forall k i,
  (exists ids, (if bool_decide (e = EmptyString) then <[key := {[id]} ∪ default ∅ (exact !! key)]> exact else exact) !! k = Some ids
     /\ i ∈ ids) <-> <[id := (key, e)]> scopes !! i = Some (k, EmptyString).
Proof.
  intros R5 Hfresh k i. rewrite (lookup_insert _ id i). case_bool_decide as He.
  + subst e. destruct (decide (key = k)) as [<-|Hk].
    * rewrite lookup_insert_eq. split.
      { intros (ids & [= <-] & [->%elem_of_singleton|Hi]%elem_of_union); [by rewrite decide_True|].
        rewrite decide_False; [apply R5; destruct (exact !! key) eqn:E; [eauto|set_solver]|].
        intros <-. destruct (exact !! key) eqn:E; [|set_solver].
        assert (scopes !! id = Some (key, EmptyString)) by (apply R5; eauto). congruence. }
      { intros Hi. eexists. split; [reflexivity|]. case_decide; [set_solver|].
        apply R5 in Hi as (ids & -> & Hi). set_solver. }
    * rewrite lookup_insert_ne by done. rewrite R5. case_decide as E; [|done]. rewrite <-E, Hfresh. split; congruence.
  + rewrite R5. case_decide as E; [|done]. rewrite <-E, Hfresh. split; [done|]. intros [= -> ->]. done.
Qed.

Lemma register_range (scopes : gmap Z (string * string)) groups key e id :
  NoDup ((fun g => (wr_key g, wr_rangeEnd g)) <$> groups) ->
  (forall g i, g ∈ groups -> wr_rangeEnd g <> EmptyString /\ (i ∈ wr_watchIds g <-> scopes !! i = Some (wr_key g, wr_rangeEnd g))) ->
  (forall i k e, scopes !! i = Some (k, e) -> e <> EmptyString -> exists g, g ∈ groups /\ wr_key g = k /\ wr_rangeEnd g = e) ->
  scopes !! id = None -> forall g i,
  g ∈ (if bool_decide (e = EmptyString) then groups else add_to_range key e id groups) ->
  wr_rangeEnd g <> EmptyString /\ (i ∈ wr_watchIds g <-> <[id := (key, e)]> scopes !! i = Some (wr_key g, wr_rangeEnd g)).
Proof.
  intros R8 R6 R7 Hfresh g i. rewrite (lookup_insert _ id i). case_bool_decide as He.
  + intros Hg. destruct (R6 g i Hg) as [Hne Hiff]. split; [done|]. rewrite Hiff. case_decide as E; [|done].
    rewrite <-E, Hfresh. split; [done|]. intros [= ? ?]. congruence.
  + rewrite elem_of_add_to_range by done. intros [[Hg Hk]|[(g0 & Hg & <- & <- & ->)|[Hno ->]]]; cbn.
    * destruct (R6 g i Hg) as [Hne Hiff]. split; [done|]. rewrite Hiff. case_decide as E; [|done].
      rewrite <-E, Hfresh. split; [done|]. intros [= ? ?]. congruence.
    * destruct (R6 g0 i Hg) as [Hne Hiff]. split; [done|]. rewrite elem_of_union, elem_of_singleton, Hiff.
      case_decide as E; naive_solver.
    * split; [done|]. rewrite elem_of_singleton. case_decide as E; [naive_solver|]. split; [naive_solver|].
      intros Hsc. destruct (R7 i key e Hsc He) as (g & Hg & <- & <-). by destruct (Hno g Hg).
Qed.

Lemma register_group (scopes : gmap Z (string * string)) groups key e id :
  NoDup ((fun g => (wr_key g, wr_rangeEnd g)) <$> groups) ->
  (forall i k e, scopes !! i = Some (k, e) -> e <> EmptyString -> exists g, g ∈ groups /\ wr_key g = k /\ wr_rangeEnd g = e) ->
  scopes !! id = None -> forall i k e', <[id := (key, e)]> scopes !! i = Some (k, e') -> e' <> EmptyString ->
  exists g, g ∈ (if bool_decide (e = EmptyString) then groups else add_to_range key e id groups) /\ wr_key g = k /\ wr_rangeEnd g = e'.
Proof.
  intros R8 R7 Hfresh i k e'. rewrite (lookup_insert _ id i). intros Hsc Hne. case_bool_decide as He.
  + case_decide as E; [simplify_eq|]. eauto.
  + setoid_rewrite elem_of_add_to_range; [|done].
    destruct (decide ((k, e') = (key, e))) as [[= -> ->]|Hke].
    * destruct (decide (Exists (fun g => (wr_key g, wr_rangeEnd g) = (key, e)) (groups))) as [Hx|Hx].
      { apply Exists_exists in Hx as (g & Hg & [= <- <-]). exists (range_id_insert id g). split; [right; left; eauto|done]. }
      { eexists. split; [right; right; split; [|reflexivity]|done]. intros g Hg Heq. apply Hx, Exists_exists. eauto. }
    * case_decide as E; [simplify_eq|]. destruct (R7 i k e' Hsc Hne) as (g & Hg & <- & <-). exists g. split; [left; done|done].
Qed.

Lemma Register_inv key e addr rid self r : registry_inv self -> nextWatchId_ self < INT64_MAX -> 1 <= nextWatchId_ self ->
  Register key e addr rid self = Ok r -> registry_inv r.1.1.
Proof.
  intros Hinv Hmax Hpos Hok.
  destruct (Register_cases _ _ _ _ _ _ Hok) as [(_ & -> & _)|(_ & _ & [Hw Hs] & Hrid & Hreg & Hex & Hrg & Hnx)]; [done|].
  set (id := nextWatchId_ self) in *. destruct Hinv as [R1 R2 R3 R4 R5 R6 R7 R8].
  assert (Hfresh : watchScopesById_ self !! id = None).
  { destruct (watchScopesById_ self !! id) eqn:E; [|done]. specialize (R1 id ltac:(eauto)). unfold id in R1. lia. }
  assert (Hfw : watchers_ self !! id = None).
  { destruct (watchers_ self !! id) eqn:E; [|done]. destruct (proj1 (R2 id) ltac:(eauto)) as [? ?]. congruence. }
  rewrite i64_small in Hnx by (unfold INT64_MAX in *; unfold id; lia).
  split; rewrite ?Hw, ?Hs, ?Hnx.
  - intros i. clear Hex Hrg Hreg. rewrite lookup_insert. case_decide as E; [intros _; lia|]. intros ?%R1. unfold id. lia.
  - intros i. clear Hex Hrg Hreg. rewrite !lookup_insert. case_decide; [|apply R2]. split; eauto.
  - intros i w. clear Hex Hrg Hreg. rewrite lookup_insert. case_decide; [|apply R3]. intros [= <-]. done.
  - rewrite Hreg. by apply register_registered.
  - rewrite Hex. by apply register_exact.
  - rewrite Hrg. by apply register_range.
  - rewrite Hrg. by apply register_group.
  - rewrite Hrg. clear Hex Hrg Hreg. case_bool_decide; [done|]. destruct (add_to_range_keys key e id (rangeWatches_ self)) as (rest & -> & Hrest).
    destruct Hrest as [->|[-> Hno]]; [by rewrite app_nil_r|]. apply NoDup_app.
    split_and!; [done| |apply NoDup_singleton]. intros x Hx ->%list_elem_of_singleton. done.
Qed.

(** ** Cancellation *)

Lemma elem_of_remove_from_ranges id groups g :
  g ∈ remove_from_ranges id groups <->
  exists g0, g0 ∈ groups /\ wr_key g = wr_key g0 /\ wr_rangeEnd g = wr_rangeEnd g0 /\
    wr_watchIds g = wr_watchIds g0 ∖ {[id]} /\ wr_watchIds g <> ∅.
Proof.
  unfold remove_from_ranges. rewrite elem_of_filter_bool, negb_true_iff, bool_decide_eq_false, list_elem_of_fmap. split.
  - intros [(g0 & -> & Hg0) Hne]. eauto 10.
  - intros (g0 & Hg0 & E1 & E2 & E3 & Hne). split; [|done]. exists g0. split; [|done]. destruct g; cbn in *. by subst.
Qed.

Lemma remove_from_ranges_keys id groups :
  (fun g => (wr_key g, wr_rangeEnd g)) <$> remove_from_ranges id groups `sublist_of`
  (fun g => (wr_key g, wr_rangeEnd g)) <$> groups.
Proof.
  unfold remove_from_ranges. induction groups as [|g groups IH]; cbn; [done|]. case_match; cbn; by constructor.
Qed.

(** The exact index after the watch [id] of key [k] is removed. *)
Lemma cancel_exact (scopes : gmap Z (string * string)) (exact : gmap string (gset Z)) id k e :
  (forall k i, (exists ids, exact !! k = Some ids /\ i ∈ ids) <-> scopes !! i = Some (k, EmptyString)) ->
  scopes !! id = Some (k, e) -> forall k' i,
  (exists ids, (if bool_decide (e = EmptyString) then
       match exact !! k with
       | Some ids => if bool_decide (ids ∖ {[id]} = ∅) then base.delete k exact else <[k := ids ∖ {[id]}]> exact
       | None => exact
       end else exact) !! k' = Some ids /\ i ∈ ids) <-> base.delete id scopes !! i = Some (k', EmptyString).
Proof.
  intros R5 Es k' i. rewrite lookup_delete_Some, <-R5. case_bool_decide as He.
  + subst e. destruct (proj2 (R5 k id) Es) as (ids & Hids & Hin). rewrite Hids.
    destruct (decide (k = k')) as [<-|Hk].
    * rewrite Hids. case_bool_decide as Hemp.
      { rewrite lookup_delete_eq. split; [by intros (? & ? & _)|]. intros [Hne (ids' & [= <-] & Hi)]. set_solver. }
      { rewrite lookup_insert_eq. split; [intros (ids' & [= <-] & Hi); set_solver|].
        intros [Hne (ids' & [= <-] & Hi)]. eexists. split; [reflexivity|]. set_solver. }
    * assert (Hid : forall ids', exact !! k' = Some ids' -> id ∉ ids').
      { intros ids' Hk' Hi'. assert (scopes !! id = Some (k', EmptyString)) by (apply R5; eauto). congruence. }
      replace ((if bool_decide (ids ∖ {[id]} = ∅) then base.delete k (exact)
         else <[k:=ids ∖ {[id]}]> (exact)) !! k') with (exact !! k')
        by (case_bool_decide; [by rewrite lookup_delete_ne|by rewrite lookup_insert_ne]).
      split; [|by intros [_ ?]]. intros (ids' & Hk' & Hi'). split; [|eauto]. intros <-. by eapply Hid.
  + split; [|by intros [_ ?]]. intros (ids' & Hk' & Hi'). split; [|eauto]. intros <-.
    assert (scopes !! id = Some (k', EmptyString)) by (apply R5; eauto). congruence.
Qed.

Lemma Cancel_inv id addr self self' : registry_inv self -> Cancel id addr self = Ok self' ->
  registry_inv self' /\ watchers_ self' = base.delete id (watchers_ self) /\
  watchScopesById_ self' = base.delete id (watchScopesById_ self).
Proof.
  intros Hinv Hok. unfold Cancel in Hok. destruct (watchers_ self !! id) as [w|] eqn:Ew; [|done].
  apply bind_Ok in Hok as (u & _ & [= <-]). split; [|done].
  destruct (proj1 (rg_dom _ Hinv id) ltac:(eauto)) as [[k e] Es]. rewrite Es.
  destruct Hinv as [R1 R2 R3 R4 R5 R6 R7 R8].
  split; cbn [watchers_ watchIdsByRegistrationId_ watchScopesById_ exactWatchIdsByKey_ rangeWatches_ nextWatchId_].
  - intros i. rewrite lookup_delete_is_Some. naive_solver.
  - intros i. rewrite !lookup_delete_is_Some. by rewrite R2.
  - intros i w' [_ ?]%lookup_delete_Some. auto.
  - intros r i. setoid_rewrite lookup_delete_Some. case_bool_decide as Hr.
    + rewrite R4. split; intros (w' & Hw' & H1 & H2); exists w'; [|naive_solver].
      split_and!; try done. intros <-. congruence.
    + rewrite lookup_delete_Some, R4. split.
      * intros (Hne & w' & Hw' & H1 & H2). exists w'. split_and!; try done. intros <-. congruence.
      * intros (w' & [Hne Hw'] & H1 & H2). split; [|eauto]. intros <-.
        assert (watchIdsByRegistrationId_ self !! we_registrationId w = Some id) by (apply R4; eauto).
        assert (watchIdsByRegistrationId_ self !! we_registrationId w = Some i) by (apply R4; eauto). congruence.
  - by apply cancel_exact.
  - intros g i. rewrite lookup_delete_Some. case_bool_decide as He.
    + intros Hg. destruct (R6 g i Hg) as [Hne Hiff]. split; [done|]. rewrite Hiff. split; [|by intros [_ ?]].
      intros Hs. split; [|done]. intros <-. congruence.
    + rewrite elem_of_remove_from_ranges. intros (g0 & Hg0 & -> & -> & -> & _).
      destruct (R6 g0 i Hg0) as [Hne Hiff]. split; [done|]. rewrite elem_of_difference, Hiff, elem_of_singleton. naive_solver.
  - intros i k' e' [Hne Hs]%lookup_delete_Some He'. destruct (R7 i k' e' Hs He') as (g & Hg & <- & <-).
    case_bool_decide as He; [eauto|]. setoid_rewrite elem_of_remove_from_ranges.
    exists {| wr_key := wr_key g; wr_rangeEnd := wr_rangeEnd g; wr_watchIds := wr_watchIds g ∖ {[id]} |}.
    split; [|done]. exists g. split_and!; try done. apply (R6 g i Hg) in Hs. set_solver.
  - case_bool_decide; [done|]. eapply sublist_NoDup; [exact R8|]. apply remove_from_ranges_keys.
Qed.

(** ** Reachable registries *)

Inductive registry_step : WatchRegistry -> WatchRegistry -> Prop :=
  | reg_register self key e addr rid r :
      Register key e addr rid self = Ok r -> registry_step self r.1.1
  | reg_cancel self id addr self' :
      Cancel id addr self = Ok self' -> registry_step self self'.

Lemma new_WatchRegistry_inv : registry_inv new_WatchRegistry.
Proof.
  split; cbn; try done.
  - by intros i [? ?].
  - intros i. split; by intros [? ?].
  - intros r i. split; [done|]. by intros (w & ? & _).
  - intros k i. split; [by intros (? & ? & _)|done].
  - by intros g i ?%not_elem_of_nil.
  - constructor.
Qed.

Lemma registry_run_inv n self self' : nsteps registry_step n self self' -> registry_inv self ->
  1 <= nextWatchId_ self -> nextWatchId_ self + Z.of_nat n <= INT64_MAX ->
  registry_inv self' /\ 1 <= nextWatchId_ self' <= nextWatchId_ self + Z.of_nat n.
Proof.
  induction 1 as [self|n self s1 self' Hstep _ IH]; intros Hinv H1 Hmax; [split; [done|lia]|].
  assert (Hs1 : registry_inv s1 /\ 1 <= nextWatchId_ s1 <= nextWatchId_ self + 1).
  { destruct Hstep as [self key e addr rid r Hok|self id addr s1 Hok].
    - split; [eapply Register_inv; [done|lia|done|done]|].
      destruct (Register_cases _ _ _ _ _ _ Hok) as [(_ & -> & _)|(_ & _ & _ & _ & _ & _ & _ & Hn)]; [lia|].
      rewrite i64_small in Hn by (unfold INT64_MAX in *; lia). lia.
    - destruct (Cancel_inv _ _ _ _ Hinv Hok) as [Hi _]. split; [done|]. unfold Cancel in Hok.
      destruct (watchers_ self !! id); [|done]. apply bind_Ok in Hok as (u & _ & [= <-]). cbn. lia. }
  destruct Hs1 as [Hi1 Hn1]. destruct (IH Hi1 ltac:(lia) ltac:(lia)) as [Hi Hn]. split; [done|lia].
Qed.

(** after any sequence of registrations and cancellations, the watchers
    matched for a key are exactly the registered, not cancelled ones whose exact
    key is the key or whose half-open range contains it, each matched once. *)
Theorem MatchWatchers_exact n self key :
  nsteps registry_step n new_WatchRegistry self -> 1 + Z.of_nat n <= INT64_MAX ->
  NoDup (we_watchId <$> MatchWatchers key self) /\
  forall w, w ∈ MatchWatchers key self <->
    exists i scope, watchers_ self !! i = Some w /\ watchScopesById_ self !! i = Some scope /\ covers key scope = true.
Proof.
  intros Hrun Hmax. destruct (registry_run_inv n _ _ Hrun new_WatchRegistry_inv ltac:(cbn; lia) Hmax) as [Hinv _].
  split; [by apply NoDup_MatchWatchers|]. intros w. by apply elem_of_MatchWatchers.
Qed.

(** registering the same registration id, watcher and range again returns the
    first watch id and changes nothing; another watcher or range is refused. *)
Theorem Register_idempotent key e addr rid self self1 id created key2 e2 addr2 :
  registry_inv self -> 1 <= nextWatchId_ self < INT64_MAX -> rid <> EmptyString ->
  Register key e addr rid self = Ok (self1, id, created) ->
  Register key2 e2 addr2 rid self1 =
    if bool_decide (addr2 = addr) && bool_decide ((key2, e2) = (key, e)) then Ok (self1, id, false) else Err K_INVALID.
Proof.
  intros Hinv Hnx Hrid Hok.
  assert (Hst : watchIdsByRegistrationId_ self1 !! rid = Some id /\ watchScopesById_ self1 !! id = Some (key, e) /\
     exists w, watchers_ self1 !! id = Some w /\ we_watcherAddr w = addr).
  { destruct (Register_cases _ _ _ _ _ _ Hok) as [(_ & H1 & H2 & H3 & _)|(_ & H1 & [Hw Hs] & Hr & Hreg & _)];
      cbn [fst snd] in *.
    - subst self1. split_and!; [done..|]. unfold Register in Hok. rewrite bool_decide_false, H2 in Hok by done.
      destruct (watchers_ self !! id) as [w|]; [|done]. apply bind_Ok in Hok as (u & Ha%check_Ok%bool_decide_eq_true & _). eauto.
    - subst id. rewrite Hreg, Hs, Hw, bool_decide_false, !lookup_insert_eq by done. eauto. }
  destruct Hst as (H1 & H2 & w & H3 & <-). unfold Register. rewrite bool_decide_false, H1, H3, H2 by done.
  destruct (decide (we_watcherAddr w = addr2)) as [<-|Ha].
  - rewrite !(bool_decide_true (we_watcherAddr w = _)) by done. cbn [check mbind res_bind andb].
    destruct (decide ((key2, e2) = (key, e))) as [[= -> ->]|Hk]; [by rewrite !bool_decide_true|].
    rewrite !bool_decide_false by (intros ?; congruence). done.
  - rewrite (bool_decide_false (we_watcherAddr w = addr2)), (bool_decide_false (addr2 = _)) by congruence. done.
Qed.

Lemma MatchWatchers_exact_witness :
  exists self w, nsteps registry_step 1 new_WatchRegistry self /\ w ∈ MatchWatchers "/t/k" self.
Proof.
  destruct (Register "/t/" "/t0" "10.0.0.1:1" "" new_WatchRegistry) as [r|c] eqn:E; [|discriminate E].
  assert (Hrun : nsteps registry_step 1 new_WatchRegistry r.1.1) by (apply nsteps_once; exact (reg_register _ _ _ _ _ _ E)).
  exists r.1.1, {| we_watchId := 1; we_watcherAddr := "10.0.0.1:1"; we_registrationId := ""; we_active := true |}.
  split; [exact Hrun|].
  apply (MatchWatchers_exact 1 r.1.1 "/t/k" Hrun ltac:(unfold INT64_MAX; cbn; lia)).
  injection E as <-. exists 1, ("/t/", "/t0")%string. split; [vm_compute; reflexivity|]. split; vm_compute; reflexivity.
Defined.

Lemma Register_idempotent_witness :
  exists self1 id created, Register "/t" "" "10.0.0.1:1" "r" new_WatchRegistry = Ok (self1, id, created) /\
    Register "/t" "" "10.0.0.1:1" "r" self1 = Ok (self1, id, false).
Proof.
  destruct (Register "/t" "" "10.0.0.1:1" "r" new_WatchRegistry) as [[[self1 id] created]|c] eqn:E; [|discriminate E].
  exists self1, id, created. split; [reflexivity|].
  exact (Register_idempotent "/t" "" "10.0.0.1:1" "r" new_WatchRegistry self1 id created "/t" "" "10.0.0.1:1"
    new_WatchRegistry_inv ltac:(unfold INT64_MAX; cbn; lia) ltac:(discriminate) E).
Defined.
