(* ===== verification/WatchDispatcher.v ===== *)
(** * Watch event dispatch of the coordinator

    src/datasystem/common/coordinator/watch_dispatcher.{h,cpp} with the batch
    limits of watch_event.h.  A [WatcherChannel] is shared through
    [std::shared_ptr] by the channel map, the ready and retry queues and the
    workers, so channels live in a heap and everything else holds references
    (type [ref]); replacing a channel in the map leaves the old object alive
    and cancelled, as in the code.

    [HandleChannelEvents] and [DispatchLoop] release the mutexes between their
    critical sections, so they are split there; DispatcherSafety interleaves
    the pieces. *)

From S2P Require Import Prelude Ordered MemoryKvStore WatchRegistry.

Definition MAX_PENDING_EVENTS : nat := 10000.
Definition INITIAL_RETRY_DELAY_MS : Z := 100.
Definition MAX_RETRY_DELAY_MS : Z := 5000.
Definition RETRY_DELAY_MULTIPLIER : Z := 2.
Definition RETRY_JITTER_PERCENT : Z := 20.
Definition PERCENT_SCALE : Z := 100.
Definition BTHREADS_PER_DISPATCH_THREAD : nat := 4.
Definition MAX_READY_CHANNEL_GROUPS : nat := 8.
Definition MAX_WATCH_EVENTS_PER_FAN_OUT : nat := 4096.
Definition MAX_WATCH_EVENTS_PER_BATCH : nat := 32.
Definition WATCH_EVENT_BATCH_MERGE_THRESHOLD_BYTES : Z := 256 * 1024.
Definition WATCH_EVENT_WIRE_OVERHEAD_BYTES : Z := 128.
(** The default member initializer of [WatcherChannel::backpressureLimit]. *)
Definition DEFAULT_BACKPRESSURE_LIMIT : nat := 1024.

Abbreviation ref := nat.

Record WatcherChannel := {
  wc_watchId : Z;
  wc_watcherAddr : string;
  wc_queue : list WatchEvent;
  wc_backpressureLimit : nat;
  wc_snapshotRevision : Z;
  wc_needReWatch : bool;
  wc_dispatchQueued : bool;
  wc_retryDelayMs : Z;
  wc_cancelled : bool
}.

Definition new_WatcherChannel (watchId : Z) (watcherAddr : string) : WatcherChannel := {|
  wc_watchId := watchId; wc_watcherAddr := watcherAddr; wc_queue := [];
  wc_backpressureLimit := DEFAULT_BACKPRESSURE_LIMIT; wc_snapshotRevision := 0; wc_needReWatch := false;
  wc_dispatchQueued := false; wc_retryDelayMs := 0; wc_cancelled := false |}.

(** Field assignments. *)
Definition set_queue (q : list WatchEvent) (c : WatcherChannel) : WatcherChannel := {|
  wc_watchId := wc_watchId c; wc_watcherAddr := wc_watcherAddr c; wc_queue := q;
  wc_backpressureLimit := wc_backpressureLimit c; wc_snapshotRevision := wc_snapshotRevision c;
  wc_needReWatch := wc_needReWatch c; wc_dispatchQueued := wc_dispatchQueued c;
  wc_retryDelayMs := wc_retryDelayMs c; wc_cancelled := wc_cancelled c |}.

Definition set_snapshotRevision (v : Z) (c : WatcherChannel) : WatcherChannel := {|
  wc_watchId := wc_watchId c; wc_watcherAddr := wc_watcherAddr c; wc_queue := wc_queue c;
  wc_backpressureLimit := wc_backpressureLimit c; wc_snapshotRevision := v;
  wc_needReWatch := wc_needReWatch c; wc_dispatchQueued := wc_dispatchQueued c;
  wc_retryDelayMs := wc_retryDelayMs c; wc_cancelled := wc_cancelled c |}.

Definition set_dispatchQueued (b : bool) (c : WatcherChannel) : WatcherChannel := {|
  wc_watchId := wc_watchId c; wc_watcherAddr := wc_watcherAddr c; wc_queue := wc_queue c;
  wc_backpressureLimit := wc_backpressureLimit c; wc_snapshotRevision := wc_snapshotRevision c;
  wc_needReWatch := wc_needReWatch c; wc_dispatchQueued := b;
  wc_retryDelayMs := wc_retryDelayMs c; wc_cancelled := wc_cancelled c |}.

Definition set_retryDelayMs (v : Z) (c : WatcherChannel) : WatcherChannel := {|
  wc_watchId := wc_watchId c; wc_watcherAddr := wc_watcherAddr c; wc_queue := wc_queue c;
  wc_backpressureLimit := wc_backpressureLimit c; wc_snapshotRevision := wc_snapshotRevision c;
  wc_needReWatch := wc_needReWatch c; wc_dispatchQueued := wc_dispatchQueued c;
  wc_retryDelayMs := v; wc_cancelled := wc_cancelled c |}.

(** [queue.clear(); queue.push_back(rewatchEvent); needReWatch = true]. *)
Definition set_rewatch (e : WatchEvent) (c : WatcherChannel) : WatcherChannel := {|
  wc_watchId := wc_watchId c; wc_watcherAddr := wc_watcherAddr c; wc_queue := [e];
  wc_backpressureLimit := wc_backpressureLimit c; wc_snapshotRevision := wc_snapshotRevision c;
  wc_needReWatch := true; wc_dispatchQueued := wc_dispatchQueued c;
  wc_retryDelayMs := wc_retryDelayMs c; wc_cancelled := wc_cancelled c |}.

(** The fields [CancelChannel] assigns. *)
Definition set_cancelled (c : WatcherChannel) : WatcherChannel := {|
  wc_watchId := wc_watchId c; wc_watcherAddr := wc_watcherAddr c; wc_queue := [];
  wc_backpressureLimit := wc_backpressureLimit c; wc_snapshotRevision := wc_snapshotRevision c;
  wc_needReWatch := wc_needReWatch c; wc_dispatchQueued := false;
  wc_retryDelayMs := 0; wc_cancelled := true |}.

(** [retryChannels] holds ready times (clock ticks) and channels. *)
Record DispatchChannelGroup := { readyChannels : list ref; retryChannels : list (Z * ref) }.

Definition new_DispatchChannelGroup : DispatchChannelGroup := {| readyChannels := []; retryChannels := [] |}.

Record WatchDispatcher := {
  watchRegistry_ : WatchRegistry;
  heap_ : gmap ref WatcherChannel;
  nextRef_ : ref;
  pendingQueue_ : list WatchEvent;
  pendingOverflow_ : bool;
  droppedPendingEvents_ : Z;
  channels_ : gmap Z ref;
  watchIdsByWatcher_ : gmap string (gset Z);
  dispatchChannelGroups_ : list DispatchChannelGroup;
  dispatchThreadCount_ : nat;
  running_ : bool
}.

Definition new_WatchDispatcher (dispatchThreadCount : nat) (registry : WatchRegistry) : WatchDispatcher := {|
  watchRegistry_ := registry; heap_ := ∅; nextRef_ := 0%nat; pendingQueue_ := []; pendingOverflow_ := false;
  droppedPendingEvents_ := 0; channels_ := ∅; watchIdsByWatcher_ := ∅; dispatchChannelGroups_ := [];
  dispatchThreadCount_ := dispatchThreadCount; running_ := false |}.

Definition set_registry (r : WatchRegistry) (d : WatchDispatcher) : WatchDispatcher := {|
  watchRegistry_ := r; heap_ := heap_ d; nextRef_ := nextRef_ d; pendingQueue_ := pendingQueue_ d;
  pendingOverflow_ := pendingOverflow_ d; droppedPendingEvents_ := droppedPendingEvents_ d;
  channels_ := channels_ d; watchIdsByWatcher_ := watchIdsByWatcher_ d;
  dispatchChannelGroups_ := dispatchChannelGroups_ d; dispatchThreadCount_ := dispatchThreadCount_ d;
  running_ := running_ d |}.

Definition set_heap (h : gmap ref WatcherChannel) (d : WatchDispatcher) : WatchDispatcher := {|
  watchRegistry_ := watchRegistry_ d; heap_ := h; nextRef_ := nextRef_ d; pendingQueue_ := pendingQueue_ d;
  pendingOverflow_ := pendingOverflow_ d; droppedPendingEvents_ := droppedPendingEvents_ d;
  channels_ := channels_ d; watchIdsByWatcher_ := watchIdsByWatcher_ d;
  dispatchChannelGroups_ := dispatchChannelGroups_ d; dispatchThreadCount_ := dispatchThreadCount_ d;
  running_ := running_ d |}.

Definition set_pending (q : list WatchEvent) (overflow : bool) (dropped : Z) (d : WatchDispatcher) : WatchDispatcher := {|
  watchRegistry_ := watchRegistry_ d; heap_ := heap_ d; nextRef_ := nextRef_ d; pendingQueue_ := q;
  pendingOverflow_ := overflow; droppedPendingEvents_ := dropped;
  channels_ := channels_ d; watchIdsByWatcher_ := watchIdsByWatcher_ d;
  dispatchChannelGroups_ := dispatchChannelGroups_ d; dispatchThreadCount_ := dispatchThreadCount_ d;
  running_ := running_ d |}.

Definition set_channels (m : gmap Z ref) (idx : gmap string (gset Z)) (d : WatchDispatcher) : WatchDispatcher := {|
  watchRegistry_ := watchRegistry_ d; heap_ := heap_ d; nextRef_ := nextRef_ d; pendingQueue_ := pendingQueue_ d;
  pendingOverflow_ := pendingOverflow_ d; droppedPendingEvents_ := droppedPendingEvents_ d;
  channels_ := m; watchIdsByWatcher_ := idx;
  dispatchChannelGroups_ := dispatchChannelGroups_ d; dispatchThreadCount_ := dispatchThreadCount_ d;
  running_ := running_ d |}.

Definition set_groups (g : list DispatchChannelGroup) (run : bool) (d : WatchDispatcher) : WatchDispatcher := {|
  watchRegistry_ := watchRegistry_ d; heap_ := heap_ d; nextRef_ := nextRef_ d; pendingQueue_ := pendingQueue_ d;
  pendingOverflow_ := pendingOverflow_ d; droppedPendingEvents_ := droppedPendingEvents_ d;
  channels_ := channels_ d; watchIdsByWatcher_ := watchIdsByWatcher_ d;
  dispatchChannelGroups_ := g; dispatchThreadCount_ := dispatchThreadCount_ d; running_ := run |}.

(** [std::make_shared]. *)
Definition alloc (c : WatcherChannel) (d : WatchDispatcher) : WatchDispatcher * ref :=
  ({| watchRegistry_ := watchRegistry_ d; heap_ := <[nextRef_ d := c]> (heap_ d); nextRef_ := S (nextRef_ d);
      pendingQueue_ := pendingQueue_ d; pendingOverflow_ := pendingOverflow_ d;
      droppedPendingEvents_ := droppedPendingEvents_ d; channels_ := channels_ d;
      watchIdsByWatcher_ := watchIdsByWatcher_ d; dispatchChannelGroups_ := dispatchChannelGroups_ d;
      dispatchThreadCount_ := dispatchThreadCount_ d; running_ := running_ d |}, nextRef_ d).

Definition upd (r : ref) (f : WatcherChannel -> WatcherChannel) (d : WatchDispatcher) : WatchDispatcher :=
  set_heap (alter f r (heap_ d)) d.

Definition is_cancelled (r : ref) (d : WatchDispatcher) : bool :=
  match heap_ d !! r with Some c => wc_cancelled c | None => true end.

(** ** Operations *)

Definition MakeRewatchEvent (overflowEvent : option WatchEvent) : WatchEvent := {|
  we_type := EV_REWATCH;
  we_entry := {| kv_key := EmptyString; kv_value := EmptyString; kv_version := 0; kv_modRevision := 0 |};
  we_revision := match overflowEvent with Some e => we_revision e | None => 0 end |}.

Definition Enqueue (event : WatchEvent) (d : WatchDispatcher) : WatchDispatcher :=
  if (MAX_PENDING_EVENTS <=? length (pendingQueue_ d))%nat
  then set_pending (pendingQueue_ d) true (u64 (droppedPendingEvents_ d + 1)) d
  else set_pending (pendingQueue_ d ++ [event]) (pendingOverflow_ d) (droppedPendingEvents_ d) d.

Definition CancelChannel (r : ref) (d : WatchDispatcher) : WatchDispatcher := upd r set_cancelled d.

(** Erase the id; drop the set once it is empty. *)
Definition RemoveReverseIndexLocked (r : ref) (d : WatchDispatcher) : WatchDispatcher :=
  match heap_ d !! r with
  | Some c =>
      match watchIdsByWatcher_ d !! wc_watcherAddr c with
      | Some ids =>
          let ids' := ids ∖ {[wc_watchId c]} in
          set_channels (channels_ d)
            (if bool_decide (ids' = ∅) then base.delete (wc_watcherAddr c) (watchIdsByWatcher_ d)
             else <[wc_watcherAddr c := ids']> (watchIdsByWatcher_ d)) d
      | None => d
      end
  | None => d
  end.

Definition AddChannel (watchId : Z) (watcherAddr : string) (d : WatchDispatcher) : WatchDispatcher :=
  let '(d, channel) := alloc (new_WatcherChannel watchId watcherAddr) d in
  let d := match channels_ d !! watchId with
    | Some old => RemoveReverseIndexLocked old (CancelChannel old d)
    | None => d
    end in
  set_channels (<[watchId := channel]> (channels_ d))
    (<[watcherAddr := {[watchId]} ∪ default ∅ (watchIdsByWatcher_ d !! watcherAddr)]> (watchIdsByWatcher_ d)) d.

Definition RemoveChannel (watchId : Z) (d : WatchDispatcher) : WatchDispatcher :=
  match channels_ d !! watchId with
  | None => d
  | Some r =>
      let d := RemoveReverseIndexLocked r (CancelChannel r d) in
      set_channels (base.delete watchId (channels_ d)) (watchIdsByWatcher_ d) d
  end.

(** [watchRegistry_->Cancel]; every error status is only logged. *)
Definition registry_cancel (watchId : Z) (watcherAddr : string) (d : WatchDispatcher) : WatchDispatcher :=
  match Cancel watchId watcherAddr (watchRegistry_ d) with Ok reg => set_registry reg d | Err _ => d end.

Definition RemoveChannelsByWatcher (watcherAddr : string) (d : WatchDispatcher) : WatchDispatcher :=
  match watchIdsByWatcher_ d !! watcherAddr with
  | None => d
  | Some ids =>
      let watchIds := elements ids in
      let d := foldl (fun d watchId => registry_cancel watchId watcherAddr d) d watchIds in
      foldl (fun d watchId => RemoveChannel watchId d) d watchIds
  end.

Definition RemoveChannelsByWatcherInScopes (watcherAddr : string) (tableScopes : list string) (d : WatchDispatcher)
    : WatchDispatcher :=
  match watchIdsByWatcher_ d !! watcherAddr with
  | None => d
  | Some ids =>
      let watchIds := List.filter (fun i => IsWatchInScopes i tableScopes (watchRegistry_ d)) (elements ids) in
      foldl (fun d watchId => registry_cancel watchId watcherAddr (RemoveChannel watchId d)) d watchIds
  end.

(** [std::hash<int64_t>] is the identity on the bits. *)
Definition GetReadyGroupIndex (c : WatcherChannel) (d : WatchDispatcher) : nat :=
  Z.to_nat (u64 (wc_watchId c) mod Z.of_nat (length (dispatchChannelGroups_ d))).

Definition push_ready (r : ref) (g : DispatchChannelGroup) : DispatchChannelGroup :=
  {| readyChannels := readyChannels g ++ [r]; retryChannels := retryChannels g |}.

Definition ScheduleChannelLocked (r : ref) (d : WatchDispatcher) : WatchDispatcher :=
  match heap_ d !! r with
  | Some c =>
      if wc_cancelled c || wc_dispatchQueued c || is_empty (dispatchChannelGroups_ d) then d
      else
        let d := upd r (set_dispatchQueued true) d in
        set_groups (alter (push_ready r) (GetReadyGroupIndex c d) (dispatchChannelGroups_ d)) (running_ d) d
  | None => d
  end.

Definition SetSnapshotRevision (watchId revision : Z) (d : WatchDispatcher) : WatchDispatcher :=
  match channels_ d !! watchId with
  | None => d
  | Some r =>
      let d := upd r (set_snapshotRevision revision) d in
      match heap_ d !! r with
      | Some c => if is_empty (wc_queue c) then d else ScheduleChannelLocked r d
      | None => d
      end
  end.

(** [startOk] is the status of the thread executor's [Start]. *)
Definition Start (startOk : bool) (d : WatchDispatcher) : WatchDispatcher :=
  if running_ d then d
  else if startOk then
    let groupCount := Nat.min (dispatchThreadCount_ d) MAX_READY_CHANNEL_GROUPS in
    set_groups (dispatchChannelGroups_ d ++ repeat new_DispatchChannelGroup groupCount) true d
  else set_groups [] false d.

Definition Stop (d : WatchDispatcher) : WatchDispatcher :=
  if running_ d then set_groups [] false d else d.

Definition ScheduleAllChannelsForRewatch (d : WatchDispatcher) : WatchDispatcher :=
  foldl (fun d r =>
    match heap_ d !! r with
    | Some c =>
        if wc_cancelled c || wc_needReWatch c then d
        else ScheduleChannelLocked r (upd r (set_rewatch (MakeRewatchEvent None)) d)
    | None => d
    end) d (map_to_list (channels_ d)).*2.

(** *** Fan-out *)

(** The critical section of [FanOutLoop] that takes a batch. *)
Definition FanOut_take (d : WatchDispatcher) : WatchDispatcher * list WatchEvent :=
  let count := Nat.min MAX_WATCH_EVENTS_PER_FAN_OUT (length (pendingQueue_ d)) in
  (set_pending (drop count (pendingQueue_ d)) (pendingOverflow_ d) (droppedPendingEvents_ d) d,
   take count (pendingQueue_ d)).

(** [if (pendingOverflow_.exchange(false)) ScheduleAllChannelsForRewatch()]. *)
Definition FanOut_overflow (d : WatchDispatcher) : WatchDispatcher :=
  if pendingOverflow_ d
  then ScheduleAllChannelsForRewatch (set_pending (pendingQueue_ d) false (droppedPendingEvents_ d) d)
  else d.

(** One event for one channel, under the channel mutex. *)
Definition FanOut_channel (event : WatchEvent) (r : ref) (d : WatchDispatcher) : WatchDispatcher :=
  match heap_ d !! r with
  | Some c =>
      if wc_cancelled c || wc_needReWatch c then d
      else
        let d := if (length (wc_queue c) <? wc_backpressureLimit c)%nat
                 then upd r (set_queue (wc_queue c ++ [event])) d
                 else upd r (set_rewatch (MakeRewatchEvent (Some event))) d in
        ScheduleChannelLocked r d
  | None => d
  end.

Definition FanOut_visit (event : WatchEvent) (watcher : WatcherEntry) (d : WatchDispatcher) : WatchDispatcher :=
  match channels_ d !! we_watchId watcher with
  | None => d
  | Some r => FanOut_channel event r d
  end.

(** One event of the batch: match the watchers, then visit their channels. *)
Definition FanOut_event (event : WatchEvent) (d : WatchDispatcher) : WatchDispatcher :=
  foldl (fun d watcher => FanOut_visit event watcher d) d
    (MatchWatchers (kv_key (we_entry event)) (watchRegistry_ d)).

(** *** Dispatch *)

Inductive HandleResult := NONE | READY_AGAIN | RETRY_LATER.

(** What [PrepareChannelEvents] hands to [DoNotify]. *)
Record Batch := { b_events : list WatchEvent; b_needReWatch : bool; b_maxEventRevision : Z }.

Definition event_bytes (e : WatchEvent) : Z :=
  WATCH_EVENT_WIRE_OVERHEAD_BYTES +
  match we_type e with
  | EV_REWATCH => 0
  | _ => Z.of_nat (String.length (kv_key (we_entry e))) + Z.of_nat (String.length (kv_value (we_entry e)))
  end.

(** The batch loop: at most [count] events, stopping after the one that
    exceeds the byte threshold. *)
Fixpoint collect_batch (count : nat) (batchBytes : Z) (queue : list WatchEvent) : list WatchEvent :=
  match count, queue with
  | S count', e :: queue' =>
      let batchBytes := batchBytes + event_bytes e in
      if WATCH_EVENT_BATCH_MERGE_THRESHOLD_BYTES <? batchBytes then [e]
      else e :: collect_batch count' batchBytes queue'
  | _, _ => []
  end.

Definition max_revision (events : list WatchEvent) : Z :=
  foldl (fun m e => Z.max m (we_revision e)) 0 events.

(** [while (!queue.empty() && queue.front()->revision <= bound) queue.pop_front()]. *)
Definition pop_through (bound : Z) (queue : list WatchEvent) : list WatchEvent :=
  drop_while (fun e => we_revision e <=? bound) queue.

(** [None] stands for the return value true: nothing to send. *)
Definition PrepareChannelEvents (r : ref) (d : WatchDispatcher) : WatchDispatcher * option Batch :=
  match heap_ d !! r with
  | None => (d, None)
  | Some c =>
      if negb (running_ d) || wc_cancelled c then (d, None)
      else if is_empty (wc_queue c) then (upd r (set_dispatchQueued false) d, None)
      else if wc_needReWatch c then
        (d, Some {| b_events := take 1 (wc_queue c); b_needReWatch := true; b_maxEventRevision := 0 |})
      else if wc_snapshotRevision c <=? 0 then (upd r (set_dispatchQueued false) d, None)
      else
        let queue := pop_through (wc_snapshotRevision c) (wc_queue c) in
        let d := upd r (set_queue queue) d in
        if is_empty queue then (upd r (set_dispatchQueued false) d, None)
        else
          let events := collect_batch (Nat.min MAX_WATCH_EVENTS_PER_BATCH (length queue)) 0 queue in
          (d, Some {| b_events := events; b_needReWatch := false; b_maxEventRevision := max_revision events |})
  end.

Definition RemoveRewatchRequiredWatcher (watchId : Z) (watcherAddr : string) (d : WatchDispatcher) : WatchDispatcher :=
  RemoveChannel watchId (registry_cancel watchId watcherAddr d).

(** [HandleChannelEvents] from the return of [DoNotify] on. *)
Definition CommitChannelEvents (r : ref) (batch : Batch) (status : res unit) (d : WatchDispatcher)
    : WatchDispatcher * HandleResult :=
  match heap_ d !! r with
  | None => (d, NONE)
  | Some c =>
      if negb (running_ d) || wc_cancelled c then (d, NONE)
      else match status with
      | Err K_NOT_FOUND => (RemoveRewatchRequiredWatcher (wc_watchId c) (wc_watcherAddr c) d, NONE)
      | Err _ => (d, RETRY_LATER)
      | Ok _ =>
          if b_needReWatch batch
          then (RemoveRewatchRequiredWatcher (wc_watchId c) (wc_watcherAddr c) d, NONE)
          else
            let queue := pop_through (b_maxEventRevision batch) (wc_queue c) in
            let d := upd r (fun c => set_queue queue (set_retryDelayMs 0 c)) d in
            if is_empty queue then (upd r (set_dispatchQueued false) d, NONE) else (d, READY_AGAIN)
      end
  end.

(** An uninterrupted call; [DoNotify] is virtual, hence an argument. *)
Definition HandleChannelEvents (DoNotify : Z -> string -> list WatchEvent -> res unit) (r : ref) (d : WatchDispatcher)
    : WatchDispatcher * HandleResult :=
  match PrepareChannelEvents r d with
  | (d, None) => (d, NONE)
  | (d, Some batch) =>
      match heap_ d !! r with
      | Some c => CommitChannelEvents r batch (DoNotify (wc_watchId c) (wc_watcherAddr c) (b_events batch)) d
      | None => (d, NONE)
      end
  end.

(** The delay of the next retry, [None] when the retry must not be queued. *)
Definition PrepareRetry (r : ref) (d : WatchDispatcher) : WatchDispatcher * option Z :=
  match heap_ d !! r with
  | None => (d, None)
  | Some c =>
      if negb (running_ d) || wc_cancelled c then (d, None)
      else
        let retryDelayMs := if wc_retryDelayMs c =? 0 then INITIAL_RETRY_DELAY_MS
                            else Z.min (wc_retryDelayMs c * RETRY_DELAY_MULTIPLIER) MAX_RETRY_DELAY_MS in
        let jitterRange := retryDelayMs * RETRY_JITTER_PERCENT ÷ PERCENT_SCALE in
        let jitterWidth := u64 (jitterRange * RETRY_DELAY_MULTIPLIER + 1) in
        let seed := Z.lxor (u64 (wc_watchId c)) (u64 retryDelayMs) in
        let offset := seed mod jitterWidth - jitterRange in
        (upd r (set_retryDelayMs retryDelayMs) d,
         Some (Z.max INITIAL_RETRY_DELAY_MS (Z.min (retryDelayMs + offset) MAX_RETRY_DELAY_MS)))
  end.

(** [std::upper_bound] by ready time, then insert. *)
Fixpoint insert_retry (readyTime : Z) (r : ref) (l : list (Z * ref)) : list (Z * ref) :=
  match l with
  | [] => [(readyTime, r)]
  | q :: l' => if readyTime <? q.1 then (readyTime, r) :: l else q :: insert_retry readyTime r l'
  end.

Definition InsertRetryLocked (readyTime : Z) (r : ref) (g : DispatchChannelGroup) : DispatchChannelGroup :=
  {| readyChannels := readyChannels g; retryChannels := insert_retry readyTime r (retryChannels g) |}.

(** The loop moving due retries to the ready queue. *)
Fixpoint move_due (cancelled : ref -> bool) (now : Z) (retries : list (Z * ref)) (ready : list ref)
    : list (Z * ref) * list ref :=
  match retries with
  | (t, r) :: retries' =>
      if t <=? now then move_due cancelled now retries' (if cancelled r then ready else ready ++ [r])
      else (retries, ready)
  | [] => ([], ready)
  end.

(** The loop taking the first channel that is not cancelled. *)
Fixpoint pop_ready (cancelled : ref -> bool) (ready : list ref) : list ref * option ref :=
  match ready with
  | [] => ([], None)
  | r :: ready' => if cancelled r then pop_ready cancelled ready' else (ready', Some r)
  end.

(** One iteration of the outer loop of [WaitForReadyChannel]; [None] when it
    goes on to wait on the condition variable. *)
Definition WaitForReadyChannel_pass (groupIndex : nat) (now : Z) (d : WatchDispatcher) : WatchDispatcher * option ref :=
  match dispatchChannelGroups_ d !! groupIndex with
  | None => (d, None)
  | Some g =>
      let cancelled r := is_cancelled r d in
      let '(retries, ready) := move_due cancelled now (retryChannels g) (readyChannels g) in
      let '(ready, result) := pop_ready cancelled ready in
      (set_groups (<[groupIndex := {| readyChannels := ready; retryChannels := retries |}]> (dispatchChannelGroups_ d))
         (running_ d) d, result)
  end.
