(* ===== verification/DispatcherSafety.v ===== *)
(** * Interleavings of the watch dispatcher

    A step relation whose steps are the critical sections of the threads of
    WatchDispatcher: producers and administrators calling the public
    operations, the fan-out thread (its batch and the watchers it still has to
    visit are its locals), and the dispatch workers with their program
    counters.  [DoNotify] returns any status.  Ghost fields record, per
    channel, the events pushed to its queue, the events of successful
    notifications, and the highest snapshot revision it was given.

    Proved of every reachable state: a channel is scheduled in at most one
    place and never forgotten while it has something to send; a channel that
    does not need a re-watch duplicates nothing, keeps the order, and loses at
    most events that share their revision with a delivered one. *)

From S2P Require Import Prelude Ordered MemoryKvStore WatchRegistry WatchDispatcher.

(** The program counter of a worker in [DispatchLoop]. *)
Inductive Worker :=
  | WIdle                                                  (* in WaitForReadyChannel *)
  | WReady (r : ref)                                       (* HandleChannelEvents called *)
  | WNotifying (r : ref) (b : Batch)                       (* about to call DoNotify *)
  | WNotified (r : ref) (b : Batch) (status : res unit)    (* DoNotify returned *)
  | WAgain (r : ref)                                       (* READY_AGAIN *)
  | WRetry (r : ref)                                       (* RETRY_LATER *)
  | WInsert (r : ref) (delay : Z).                         (* delay prepared *)

Definition worker_ref (k : Worker) : option ref :=
  match k with
  | WIdle => None
  | WReady r | WNotifying r _ | WNotified r _ _ | WAgain r | WRetry r | WInsert r _ => Some r
  end.

Record World := {
  w_disp : WatchDispatcher;
  w_batch : list WatchEvent;
  w_visiting : option (WatchEvent * list WatcherEntry);
  w_workers : list Worker;
  g_enqueued : list WatchEvent;
  g_pushed : ref -> list WatchEvent;
  g_delivered : ref -> list WatchEvent;
  g_snapshot : ref -> Z
}.

(** Updates of the real state. *)
Definition with_disp (d : WatchDispatcher) (w : World) : World :=
  {| w_disp := d; w_batch := w_batch w; w_visiting := w_visiting w; w_workers := w_workers w; g_enqueued := g_enqueued w;
     g_pushed := g_pushed w; g_delivered := g_delivered w; g_snapshot := g_snapshot w |}.
Definition with_fan (b : list WatchEvent) (v : option (WatchEvent * list WatcherEntry)) (w : World) : World :=
  {| w_disp := w_disp w; w_batch := b; w_visiting := v; w_workers := w_workers w; g_enqueued := g_enqueued w;
     g_pushed := g_pushed w; g_delivered := g_delivered w; g_snapshot := g_snapshot w |}.
Definition with_worker (j : nat) (k : Worker) (w : World) : World :=
  {| w_disp := w_disp w; w_batch := w_batch w; w_visiting := w_visiting w; w_workers := <[j := k]> (w_workers w);
     g_enqueued := g_enqueued w; g_pushed := g_pushed w; g_delivered := g_delivered w; g_snapshot := g_snapshot w |}.

(** Updates of the ghost state. *)
Definition gupd {A} (r : ref) (x : A) (f : ref -> A) : ref -> A := fun r' => if decide (r' = r) then x else f r'.
Definition note_enqueued (l : list WatchEvent) (w : World) : World :=
  {| w_disp := w_disp w; w_batch := w_batch w; w_visiting := w_visiting w; w_workers := w_workers w; g_enqueued := l;
     g_pushed := g_pushed w; g_delivered := g_delivered w; g_snapshot := g_snapshot w |}.
Definition note_pushed (o : option ref) (e : WatchEvent) (w : World) : World :=
  match o with
  | None => w
  | Some r =>
      {| w_disp := w_disp w; w_batch := w_batch w; w_visiting := w_visiting w; w_workers := w_workers w;
         g_enqueued := g_enqueued w; g_pushed := gupd r (g_pushed w r ++ [e]) (g_pushed w);
         g_delivered := g_delivered w; g_snapshot := g_snapshot w |}
  end.
Definition note_delivered (r : ref) (b : Batch) (status : res unit) (w : World) : World :=
  if is_ok status && negb (b_needReWatch b) then
    {| w_disp := w_disp w; w_batch := w_batch w; w_visiting := w_visiting w; w_workers := w_workers w;
       g_enqueued := g_enqueued w; g_pushed := g_pushed w;
       g_delivered := gupd r (g_delivered w r ++ b_events b) (g_delivered w); g_snapshot := g_snapshot w |}
  else w.
Definition note_snapshot (o : option ref) (v : Z) (w : World) : World :=
  match o with
  | None => w
  | Some r =>
      {| w_disp := w_disp w; w_batch := w_batch w; w_visiting := w_visiting w; w_workers := w_workers w;
         g_enqueued := g_enqueued w; g_pushed := g_pushed w; g_delivered := g_delivered w;
         g_snapshot := gupd r (Z.max (g_snapshot w r) v) (g_snapshot w) |}
  end.

(** The channel whose queue [FanOut_visit] extends. *)
Definition pushes_to (watcher : WatcherEntry) (d : WatchDispatcher) : option ref :=
  match channels_ d !! we_watchId watcher with
  | None => None
  | Some r =>
      match heap_ d !! r with
      | Some c => if negb (wc_cancelled c || wc_needReWatch c) && (length (wc_queue c) <? wc_backpressureLimit c)%nat
                  then Some r else None
      | None => None
      end
  end.

Definition group_of_worker (j : nat) (d : WatchDispatcher) : nat :=
  (j mod length (dispatchChannelGroups_ d))%nat.

Definition after_handle (r : ref) (h : HandleResult) : Worker :=
  match h with NONE => WIdle | READY_AGAIN => WAgain r | RETRY_LATER => WRetry r end.

(** The order of events: by revision, and no event comes twice. *)
Definition before (x y : WatchEvent) : Prop := we_revision x <= we_revision y /\ x <> y.

Inductive step (w : World) : World -> Prop :=
  (* public operations; events come in the order of their revisions, and the
     events of one revision (a range delete has several) are distinct *)
  | st_register k e addr rid reg id created :
      nextWatchId_ (watchRegistry_ (w_disp w)) < INT64_MAX ->
      Register k e addr rid (watchRegistry_ (w_disp w)) = Ok (reg, id, created) ->
      step w (with_disp (set_registry reg (w_disp w)) w)
  | st_cancel id addr : step w (with_disp (registry_cancel id addr (w_disp w)) w)
  | st_add id addr : step w (with_disp (AddChannel id addr (w_disp w)) w)
  | st_remove id : step w (with_disp (RemoveChannel id (w_disp w)) w)
  | st_remove_by addr : step w (with_disp (RemoveChannelsByWatcher addr (w_disp w)) w)
  | st_remove_scopes addr scopes : step w (with_disp (RemoveChannelsByWatcherInScopes addr scopes (w_disp w)) w)
  | st_snapshot id v :
      step w (note_snapshot (channels_ (w_disp w) !! id) v (with_disp (SetSnapshotRevision id v (w_disp w)) w))
  | st_enqueue e :
      0 < we_revision e -> (forall x, x ∈ g_enqueued w -> before x e) ->
      step w (note_enqueued (g_enqueued w ++ [e]) (with_disp (Enqueue e (w_disp w)) w))
  (* the fan-out thread *)
  | st_take :
      w_batch w = [] -> w_visiting w = None ->
      step w (with_fan (FanOut_take (w_disp w)).2 None (with_disp (FanOut_take (w_disp w)).1 w))
  | st_overflow : w_visiting w = None -> step w (with_disp (FanOut_overflow (w_disp w)) w)
  | st_match e b :
      w_batch w = e :: b -> w_visiting w = None ->
      step w (with_fan b (Some (e, MatchWatchers (kv_key (we_entry e)) (watchRegistry_ (w_disp w)))) w)
  | st_visit e x ws :
      w_visiting w = Some (e, x :: ws) ->
      step w (note_pushed (pushes_to x (w_disp w)) e
                (with_fan (w_batch w) (Some (e, ws)) (with_disp (FanOut_visit e x (w_disp w)) w)))
  | st_visited e : w_visiting w = Some (e, []) -> step w (with_fan (w_batch w) None w)
  (* the dispatch workers *)
  | st_wait j now d o :
      w_workers w !! j = Some WIdle ->
      WaitForReadyChannel_pass (group_of_worker j (w_disp w)) now (w_disp w) = (d, o) ->
      step w (with_worker j (match o with Some r => WReady r | None => WIdle end) (with_disp d w))
  | st_prepare j r d o :
      w_workers w !! j = Some (WReady r) -> PrepareChannelEvents r (w_disp w) = (d, o) ->
      step w (with_worker j (match o with Some b => WNotifying r b | None => WIdle end) (with_disp d w))
  | st_notify_skip j r b :
      w_workers w !! j = Some (WNotifying r b) -> is_cancelled r (w_disp w) = true ->
      step w (with_worker j WIdle w)
  | st_notify j r b status :
      w_workers w !! j = Some (WNotifying r b) ->
      step w (note_delivered r b status (with_worker j (WNotified r b status) w))
  | st_commit j r b status d h :
      w_workers w !! j = Some (WNotified r b status) -> CommitChannelEvents r b status (w_disp w) = (d, h) ->
      step w (with_worker j (after_handle r h) (with_disp d w))
  | st_again j r :
      w_workers w !! j = Some (WAgain r) ->
      step w (with_worker j WIdle (with_disp
        (if is_cancelled r (w_disp w) then w_disp w
         else set_groups (alter (push_ready r) (group_of_worker j (w_disp w)) (dispatchChannelGroups_ (w_disp w)))
                (running_ (w_disp w)) (w_disp w)) w))
  | st_retry j r d o :
      w_workers w !! j = Some (WRetry r) -> PrepareRetry r (w_disp w) = (d, o) ->
      step w (with_worker j (match o with Some delay => WInsert r delay | None => WIdle end) (with_disp d w))
  | st_insert j r delay now c :
      w_workers w !! j = Some (WInsert r delay) -> heap_ (w_disp w) !! r = Some c ->
      step w (with_worker j WIdle (with_disp
        (if wc_cancelled c then w_disp w
         else set_groups (alter (InsertRetryLocked (now + delay) r) (GetReadyGroupIndex c (w_disp w))
                            (dispatchChannelGroups_ (w_disp w))) (running_ (w_disp w)) (w_disp w)) w)).

(** A dispatcher just started on a fresh registry, all workers waiting. *)
Definition initial_world (threads : nat) : World := {|
  w_disp := Start true (new_WatchDispatcher threads new_WatchRegistry);
  w_batch := []; w_visiting := None; w_workers := repeat WIdle (threads * BTHREADS_PER_DISPATCH_THREAD);
  g_enqueued := []; g_pushed := fun _ => []; g_delivered := fun _ => []; g_snapshot := fun _ => 0 |}.

Definition reachable (threads : nat) : World -> Prop := rtc step (initial_world threads).

(** ** Who holds a channel *)

Definition occ (r : ref) (l : list ref) : nat := length (filter (fun x => x = r) l).
Definition group_occ (r : ref) (g : DispatchChannelGroup) : nat :=
  (occ r (readyChannels g) + occ r (retryChannels g).*2)%nat.
Definition worker_occ (r : ref) (k : Worker) : nat := if decide (worker_ref k = Some r) then 1%nat else 0%nat.

(** The number of places that hold the channel: ready and retry queues and
    workers. *)
Definition holders (r : ref) (d : WatchDispatcher) (ws : list Worker) : nat :=
  (sum_list_with (group_occ r) (dispatchChannelGroups_ d) + sum_list_with (worker_occ r) ws)%nat.

Lemma occ_app r l l' : occ r (l ++ l') = (occ r l + occ r l')%nat.
Proof. unfold occ. by rewrite filter_app, length_app. Qed.

Lemma occ_cons r x l : occ r (x :: l) = ((if decide (x = r) then 1 else 0) + occ r l)%nat.
Proof. unfold occ. rewrite filter_cons. by case_decide. Qed.

Lemma sum_insert {A} (f : A -> nat) l i x y :
  l !! i = Some x -> (sum_list_with f (<[i := y]> l) + f x = sum_list_with f l + f y)%nat.
Proof.
  revert i. induction l as [|z l IH]; intros [|i] Hi; simpl in Hi; simplify_eq; [simpl; lia|].
  specialize (IH i Hi). change (<[S i := y]> (z :: l)) with (z :: <[i := y]> l). simpl. lia.
Qed.

Lemma sum_alter {A} (f : A -> nat) (g : A -> A) l i x :
  l !! i = Some x -> (sum_list_with f (alter g i l) + f x = sum_list_with f l + f (g x))%nat.
Proof.
  intros Hi. rewrite <-(sum_insert f l i x (g x) Hi). f_equal. f_equal.
  apply list_eq. intros j. rewrite lookup_alter_if, list_lookup_insert.
  destruct (decide (i = j)) as [->|]; [|rewrite decide_False by naive_solver; by destruct (l !! j)].
  rewrite Hi, decide_True; [done|]. eauto using lookup_lt_Some.
Qed.

Lemma sum_elem_le {A} (f : A -> nat) l i x : l !! i = Some x -> (f x <= sum_list_with f l)%nat.
Proof. revert i. induction l as [|z l IH]; intros [|i] Hi; cbn in *; simplify_eq; [lia|]. specialize (IH i Hi). lia. Qed.

Lemma sum_two_le {A} (f : A -> nat) l i j x y :
  l !! i = Some x -> l !! j = Some y -> i <> j -> (f x + f y <= sum_list_with f l)%nat.
Proof.
  revert i j. induction l as [|z l IH]; intros [|i] [|j] Hi Hj Hne; cbn in *; simplify_eq.
  - pose proof (sum_elem_le f _ _ _ Hj). lia.
  - pose proof (sum_elem_le f _ _ _ Hi). lia.
  - specialize (IH i j Hi Hj ltac:(lia)). lia.
Qed.

Lemma group_occ_push r' r g : group_occ r' (push_ready r g) = (group_occ r' g + if decide (r = r') then 1 else 0)%nat.
Proof.
  unfold group_occ, push_ready. cbn [readyChannels retryChannels]. rewrite occ_app, occ_cons.
  change (occ r' []) with 0%nat. lia.
Qed.

Lemma occ_insert_retry r' t r l :
  occ r' (insert_retry t r l).*2 = (occ r' l.*2 + if decide (r = r') then 1 else 0)%nat.
Proof.
  induction l as [|q l IH]; cbn [insert_retry].
  - cbn [fmap list_fmap snd]. rewrite occ_cons. lia.
  - destruct (t <? q.1); rewrite !fmap_cons, !occ_cons; cbn [snd]; [lia|]. rewrite IH. lia.
Qed.

Lemma group_occ_insert r' t r g :
  group_occ r' (InsertRetryLocked t r g) = (group_occ r' g + if decide (r = r') then 1 else 0)%nat.
Proof. unfold group_occ, InsertRetryLocked. cbn [readyChannels retryChannels]. rewrite occ_insert_retry. lia. Qed.

(** ** The scheduling invariant *)

Definition live (d : WatchDispatcher) (r : ref) (c : WatcherChannel) : Prop :=
  heap_ d !! r = Some c /\ wc_cancelled c = false.

(** Something to send: a re-watch notice, or events with the snapshot known. *)
Definition has_work (c : WatcherChannel) : Prop :=
  wc_queue c <> [] /\ (wc_needReWatch c = true \/ 0 < wc_snapshotRevision c).

(** [x] is a channel excused from the last clause, for the middle of an
    operation. *)
Record own_inv (x : option ref) (d : WatchDispatcher) (ws : list Worker) : Prop := {
  o_groups : dispatchChannelGroups_ d <> [];
  o_running : running_ d = true;
  o_registry : registry_inv (watchRegistry_ d) /\ 1 <= nextWatchId_ (watchRegistry_ d);
  o_next r : is_Some (heap_ d !! r) <-> (r < nextRef_ d)%nat;
  o_map i r : channels_ d !! i = Some r -> exists c, live d r c /\ wc_watchId c = i;
  o_live r c : live d r c -> channels_ d !! wc_watchId c = Some r;
  o_le r : (holders r d ws <= 1)%nat;
  o_fresh r : heap_ d !! r = None -> holders r d ws = 0%nat;
  o_excl r c : live d r c -> holders r d ws = if wc_dispatchQueued c then 1%nat else 0%nat;
  o_wake r c : live d r c -> has_work c -> x <> Some r -> wc_dispatchQueued c = true
}.

(** The rule for a step that touches one channel. *)
Lemma own_update x r f d ws d' ws' :
  own_inv x d ws ->
  dispatchChannelGroups_ d' <> [] -> running_ d' = true ->
  registry_inv (watchRegistry_ d') /\ 1 <= nextWatchId_ (watchRegistry_ d') ->
  nextRef_ d' = nextRef_ d -> channels_ d' = channels_ d ->
  heap_ d' = alter f r (heap_ d) ->
  (forall r', r' <> r -> holders r' d' ws' = holders r' d ws) ->
  (forall c, wc_watchId (f c) = wc_watchId c /\ wc_cancelled (f c) = wc_cancelled c) ->
  (holders r d' ws' <= holders r d ws \/ exists c, live d r c)%nat ->
  (forall c, live d r c ->
     holders r d' ws' = (if wc_dispatchQueued (f c) then 1%nat else 0%nat) /\
     (has_work (f c) -> x <> Some r -> wc_dispatchQueued (f c) = true)) ->
  own_inv x d' ws'.
Proof.
  intros [I1 I2 I3 I4 I5 IL I6 I7 I8 I9] G1 G2 G3 Gn Gm Gh Go Gf Gd Gr.
  assert (Hlive : forall c', live d' r c' -> exists c, live d r c /\ c' = f c).
  { intros c' [H1 H2]. rewrite Gh, lookup_alter_eq in H1. apply fmap_Some in H1 as (c & Hc & ->).
    exists c. split; [|done]. split; [done|]. by rewrite <-(proj2 (Gf c)). }
  assert (Hother : forall r' c', r' <> r -> live d' r' c' -> live d r' c').
  { intros r' c' Hne [H1 H2]. rewrite Gh, lookup_alter_ne in H1 by done. by split. }
  assert (Hr : (holders r d' ws' <= 1)%nat).
  { destruct Gd as [Hle|[c Hc]]; [specialize (I6 r); lia|].
    destruct (Gr c Hc) as [-> _]. case_match; lia. }
  split; [done|done|done| | | | | | |].
  - intros r'. rewrite Gh, Gn, <-I4. destruct (decide (r' = r)) as [->|Hne].
    + rewrite lookup_alter_eq. apply fmap_is_Some.
    + by rewrite lookup_alter_ne.
  - intros i r' Hi. rewrite Gm in Hi. destruct (I5 i r' Hi) as (c & [Hc Hl] & <-). destruct (decide (r' = r)) as [->|Hne].
    + exists (f c). destruct (Gf c) as [Hid Hcc]. split; [|done]. split; [by rewrite Gh, lookup_alter_eq, Hc|congruence].
    + exists c. split; [|done]. split; [by rewrite Gh, lookup_alter_ne|done].
  - intros r' c' Hc'. rewrite Gm. destruct (decide (r' = r)) as [->|Hne]; [|by apply IL, Hother].
    destruct (Hlive c' Hc') as (c & Hc & ->). rewrite (proj1 (Gf c)). by apply IL.
  - intros r'. destruct (decide (r' = r)) as [->|Hne]; [done|]. by rewrite Go.
  - intros r' Hr'. destruct (decide (r' = r)) as [->|Hne].
    + rewrite Gh, lookup_alter_eq, fmap_None in Hr'. destruct Gd as [Hle|[c [Hc _]]]; [|congruence].
      rewrite I7 in Hle by done. lia.
    + rewrite Gh, lookup_alter_ne in Hr' by done. by rewrite Go, I7.
  - intros r' c' Hc'. destruct (decide (r' = r)) as [->|Hne].
    + destruct (Hlive c' Hc') as (c & Hc & ->). by apply Gr.
    + rewrite Go by done. apply I8. by apply Hother.
  - intros r' c' Hc' Hw Hx. destruct (decide (r' = r)) as [->|Hne].
    + destruct (Hlive c' Hc') as (c & Hc & ->). by apply (Gr c Hc).
    + eapply I9; [by apply Hother|done|done].
Qed.

Lemma own_frame x d ws d' :
  own_inv x d ws ->
  dispatchChannelGroups_ d' = dispatchChannelGroups_ d -> running_ d' = running_ d ->
  registry_inv (watchRegistry_ d') /\ 1 <= nextWatchId_ (watchRegistry_ d') ->
  nextRef_ d' = nextRef_ d -> heap_ d' = heap_ d -> channels_ d' = channels_ d ->
  own_inv x d' ws.
Proof.
  intros [I1 I2 I3 I4 I5 IL I6 I7 I8 I9] Eg Er Hreg En Eh Em.
  assert (Ho : forall r, holders r d' ws = holders r d ws) by (intros r; unfold holders; by rewrite Eg).
  unfold live in *. split; rewrite ?Eg, ?Er, ?En; setoid_rewrite Ho || idtac; try done; unfold live; rewrite ?Eh, ?Em; done.
Qed.

Lemma own_weaken x d ws : own_inv None d ws -> own_inv x d ws.
Proof. intros [I1 I2 I3 I4 I5 IL I6 I7 I8 I9]. split; try done. intros r c Hl Hw _. by eapply I9. Qed.

Lemma own_strengthen r d ws :
  own_inv (Some r) d ws -> (forall c, live d r c -> has_work c -> wc_dispatchQueued c = true) -> own_inv None d ws.
Proof.
  intros [I1 I2 I3 I4 I5 IL I6 I7 I8 I9] Hr. split; try done.
  intros r' c Hl Hw _. destruct (decide (r' = r)) as [->|Hne]; [by apply Hr|]. apply (I9 r' c); [done|done|congruence].
Qed.

(** Assigning fields other than the flags the invariant reads. *)
Lemma own_upd r f d ws :
  own_inv None d ws ->
  (forall c, wc_watchId (f c) = wc_watchId c /\ wc_cancelled (f c) = wc_cancelled c) ->
  (forall c, wc_dispatchQueued (f c) = wc_dispatchQueued c) ->
  own_inv (Some r) (upd r f d) ws.
Proof.
  intros Hinv Hf Hq. pose proof (own_weaken (Some r) _ _ Hinv) as Hx.
  eapply (own_update _ r f d ws); try apply Hx; try done.
  - by left.
  - intros c Hc. rewrite Hq. split; [by apply (o_excl _ _ _ Hinv)|done].
Qed.

(** The same when the assignment leaves the channel nothing more to send. *)
Lemma own_upd_quiet r f d ws :
  own_inv None d ws ->
  (forall c, wc_watchId (f c) = wc_watchId c /\ wc_cancelled (f c) = wc_cancelled c) ->
  (forall c, wc_dispatchQueued (f c) = wc_dispatchQueued c) ->
  (forall c, live d r c -> has_work (f c) -> has_work c \/ wc_dispatchQueued c = true) ->
  own_inv None (upd r f d) ws.
Proof.
  intros Hinv Hf Hq Hw. apply (own_strengthen r); [by apply own_upd|].
  intros c' [Hc' Hl'] Hwork. unfold upd in Hc'. cbn [heap_ set_heap] in Hc'. rewrite lookup_alter_eq in Hc'.
  apply fmap_Some in Hc' as (c & Hc & ->). destruct (Hf c) as [_ Hcc]. rewrite Hcc in Hl'.
  assert (Hl : live d r c) by done. rewrite Hq. destruct (Hw c Hl Hwork) as [H|H]; [|done].
  by apply (o_wake _ _ _ Hinv r c).
Qed.

Lemma group_index c d : dispatchChannelGroups_ d <> [] -> is_Some (dispatchChannelGroups_ d !! GetReadyGroupIndex c d).
Proof.
  intros Hne. apply lookup_lt_is_Some_2. unfold GetReadyGroupIndex.
  destruct (dispatchChannelGroups_ d) as [|g l]; [done|].
  pose proof (Z.mod_pos_bound (u64 (wc_watchId c)) (Z.of_nat (length (g :: l))) ltac:(cbn; lia)). lia.
Qed.

Lemma alter_nonempty {A} (f : A -> A) i (l : list A) : l <> [] -> alter f i l <> [].
Proof. by destruct l, i. Qed.

(** Adding one occurrence of [r] to a group. *)
Lemma holders_alter d ws r g i run r' d0 :
  (forall r', exists x, dispatchChannelGroups_ d !! i = Some x /\
     group_occ r' (g x) = (group_occ r' x + if decide (r = r') then 1 else 0)%nat) ->
  holders r' (set_groups (alter g i (dispatchChannelGroups_ d)) run d0) ws =
  (holders r' d ws + if decide (r = r') then 1 else 0)%nat.
Proof.
  intros Hg. destruct (Hg r') as (x & Hx & Ho). unfold holders. cbn [dispatchChannelGroups_ set_groups].
  pose proof (sum_alter (group_occ r') g _ _ _ Hx). lia.
Qed.

Lemma Schedule_own r d ws : own_inv (Some r) d ws -> own_inv None (ScheduleChannelLocked r d) ws.
Proof.
  intros Hinv. unfold ScheduleChannelLocked.
  destruct (heap_ d !! r) as [c|] eqn:Ec; [|apply (own_strengthen r); [done|]; intros c [??]; congruence].
  destruct (wc_cancelled c) eqn:Ecc; cbn [orb].
  { apply (own_strengthen r); [done|]. intros c' [??]; congruence. }
  destruct (wc_dispatchQueued c) eqn:Eq; cbn [orb].
  { apply (own_strengthen r); [done|]. intros c' [??]; congruence. }
  destruct (is_empty (dispatchChannelGroups_ d)) eqn:Ee.
  { destruct (o_groups _ _ _ Hinv). by destruct (dispatchChannelGroups_ d). }
  assert (Hl : live d r c) by done.
  assert (H0 : holders r d ws = 0%nat) by (rewrite (o_excl _ _ _ Hinv r c Hl); by rewrite Eq).
  assert (Hh : forall r', holders r' (set_groups (alter (push_ready r) (GetReadyGroupIndex c (upd r (set_dispatchQueued true) d))
      (dispatchChannelGroups_ (upd r (set_dispatchQueued true) d))) (running_ (upd r (set_dispatchQueued true) d))
      (upd r (set_dispatchQueued true) d)) ws = (holders r' d ws + if decide (r = r') then 1 else 0)%nat).
  { intros r'. apply (holders_alter d). intros r''.
    destruct (group_index c d (o_groups _ _ _ Hinv)) as [g Hg]. exists g. split; [exact Hg|apply group_occ_push]. }
  apply (own_strengthen r).
  - eapply (own_update _ r (set_dispatchQueued true) d ws); try apply Hinv; try done.
    + cbn. apply alter_nonempty, (o_groups _ _ _ Hinv).
    + intros r' Hne. rewrite Hh, decide_False by congruence. lia.
    + right. eauto.
    + intros c' _. split; [|done]. rewrite Hh, decide_True by done. cbn. lia.
  - intros c' [Hc' _] _. cbn in Hc'. rewrite lookup_alter_eq, Ec in Hc'. cbn in Hc'. by injection Hc' as <-.
Qed.

(** ** Administrative operations keep the scheduling invariant *)

Lemma reverse_index_frame r d : exists idx, RemoveReverseIndexLocked r d = set_channels (channels_ d) idx d.
Proof.
  unfold RemoveReverseIndexLocked. assert (Hid : d = set_channels (channels_ d) (watchIdsByWatcher_ d) d) by by destruct d.
  destruct (heap_ d !! r) as [c|]; [|eauto]. destruct (watchIdsByWatcher_ d !! _); eauto.
Qed.

Lemma registry_cancel_frame id addr d : registry_inv (watchRegistry_ d) /\ 1 <= nextWatchId_ (watchRegistry_ d) ->
  exists reg, registry_cancel id addr d = set_registry reg d /\ registry_inv reg /\ 1 <= nextWatchId_ reg.
Proof.
  intros [H1 H2]. unfold registry_cancel. destruct (Cancel id addr (watchRegistry_ d)) as [reg|c] eqn:E.
  - exists reg. split; [done|]. destruct (Cancel_inv _ _ _ _ H1 E) as (Hi & _). split; [done|].
    unfold Cancel in E. destruct (watchers_ _ !! id); [|done]. inv_ok. done.
  - exists (watchRegistry_ d). by destruct d.
Qed.

Lemma registry_cancel_own id addr d ws : own_inv None d ws -> own_inv None (registry_cancel id addr d) ws.
Proof.
  intros Hinv. destruct (registry_cancel_frame id addr d (o_registry _ _ _ Hinv)) as (reg & -> & Hr).
  by apply (own_frame _ d).
Qed.

(** Cancelling the channel of [id] and taking it out of the map. *)
Lemma own_cancel d ws id r idx : own_inv None d ws -> channels_ d !! id = Some r ->
  own_inv None (set_channels (base.delete id (channels_ d)) idx (CancelChannel r d)) ws.
Proof.
  intros [I1 I2 I3 I4 I5 IL I6 I7 I8 I9] Hr.
  destruct (I5 id r Hr) as (c & [Hc Hl] & Hid).
  assert (Hother : forall r' c', live (set_channels (base.delete id (channels_ d)) idx (CancelChannel r d)) r' c' ->
    r' <> r /\ live d r' c').
  { intros r' c' [Hc' Hl']. cbn in Hc'. destruct (decide (r' = r)) as [->|Hne].
    - rewrite lookup_alter_eq, Hc in Hc'. by simplify_option_eq.
    - rewrite lookup_alter_ne in Hc' by done. done. }
  split; try done.
  - intros r'. cbn [heap_ set_channels CancelChannel upd set_heap nextRef_]. rewrite <-I4.
    destruct (decide (r' = r)) as [->|Hne]; [rewrite lookup_alter_eq; apply fmap_is_Some|by rewrite lookup_alter_ne].
  - intros i r' Hi. cbn in Hi. apply lookup_delete_Some in Hi as [Hne Hi].
    destruct (I5 i r' Hi) as (c' & [Hc' Hl'] & Hid'). exists c'. split; [|done]. split; [|done]. cbn.
    rewrite lookup_alter_ne; [done|]. intros <-. congruence.
  - intros r' c' [Hne Hl']%Hother. cbn. pose proof (IL r' c' Hl') as Hm. rewrite lookup_delete_ne; [done|]. congruence.
  - intros r' Hr'. cbn in Hr'. apply I7. destruct (decide (r' = r)) as [->|Hne].
    + by rewrite lookup_alter_eq, fmap_None in Hr'.
    + by rewrite lookup_alter_ne in Hr'.
  - intros r' c' [Hne Hl']%Hother. by apply I8.
  - intros r' c' [Hne Hl']%Hother Hw Hx. by eapply I9.
Qed.

Lemma RemoveChannel_own id d ws : own_inv None d ws -> own_inv None (RemoveChannel id d) ws.
Proof.
  intros Hinv. unfold RemoveChannel. destruct (channels_ d !! id) as [r|] eqn:Er; [|done].
  destruct (reverse_index_frame r (CancelChannel r d)) as [idx ->].
  by apply (own_cancel d ws id r idx).
Qed.

Lemma foldl_own {A} (f : WatchDispatcher -> A -> WatchDispatcher) ws l d :
  (forall d x, own_inv None d ws -> own_inv None (f d x) ws) -> own_inv None d ws -> own_inv None (foldl f d l) ws.
Proof. intros Hf. revert d. induction l as [|x l IH]; intros d Hd; cbn; [done|]. by apply IH, Hf. Qed.

Lemma RemoveChannelsByWatcher_own addr d ws :
  own_inv None d ws -> own_inv None (RemoveChannelsByWatcher addr d) ws.
Proof.
  intros Hinv. unfold RemoveChannelsByWatcher. case_match; [|done].
  apply foldl_own; [intros; by apply RemoveChannel_own|].
  apply foldl_own; [intros; by apply registry_cancel_own|done].
Qed.

Lemma RemoveChannelsByWatcherInScopes_own addr scopes d ws :
  own_inv None d ws -> own_inv None (RemoveChannelsByWatcherInScopes addr scopes d) ws.
Proof.
  intros Hinv. unfold RemoveChannelsByWatcherInScopes. case_match; [|done].
  apply foldl_own; [|done]. intros. by apply registry_cancel_own, RemoveChannel_own.
Qed.

Lemma own_alloc d ws id addr m idx :
  own_inv None d ws -> (forall i r, m !! i = Some r <-> channels_ d !! i = Some r /\ i <> id) -> channels_ d !! id = None ->
  own_inv None (set_channels (<[id := nextRef_ d]> m) idx (alloc (new_WatcherChannel id addr) d).1) ws.
Proof.
  intros [I1 I2 I3 I4 I5 IL I6 I7 I8 I9] Hm Hnone.
  assert (Hnew : heap_ d !! nextRef_ d = None).
  { destruct (heap_ d !! nextRef_ d) eqn:E; [|done]. assert (nextRef_ d < nextRef_ d)%nat; [|lia]. apply I4. by eexists. }
  assert (Hlk : forall r, heap_ (set_channels (<[id := nextRef_ d]> m) idx (alloc (new_WatcherChannel id addr) d).1) !! r =
    if decide (nextRef_ d = r) then Some (new_WatcherChannel id addr) else heap_ d !! r).
  { intros r. cbn. case_decide; [subst; by rewrite lookup_insert_eq|by rewrite lookup_insert_ne]. }
  split; try done.
  - intros r. rewrite Hlk. cbn [nextRef_ set_channels alloc fst]. case_decide as Hr; [|rewrite I4]; split; intros H; [lia|eauto|lia|lia].
  - intros i r Hi. cbn [channels_ set_channels] in Hi. apply lookup_insert_Some in Hi as [[-> <-]|[Hne Hi]].
    + exists (new_WatcherChannel i addr). split; [|done]. split; [|done]. by rewrite Hlk, decide_True.
    + apply Hm in Hi as [Hi _]. destruct (I5 i r Hi) as (c & [Hc Hl] & Hid). exists c. split; [|done]. split; [|done].
      rewrite Hlk, decide_False; [done|]. intros <-. congruence.
  - intros r c [Hc Hl]. rewrite Hlk in Hc. cbn [channels_ set_channels]. case_decide as E.
    + injection Hc as <-. subst r. cbn. by rewrite lookup_insert_eq.
    + pose proof (IL r c (conj Hc Hl)) as Hi. rewrite lookup_insert_ne by congruence. apply Hm. split; [done|congruence].
  - intros r Hr. rewrite Hlk in Hr. case_decide; [done|]. by apply I7.
  - intros r c [Hc Hl]. rewrite Hlk in Hc. case_decide as E; [|by apply I8]. injection Hc as <-. subst r. by apply I7.
  - intros r c [Hc Hl] Hw Hx. rewrite Hlk in Hc. case_decide as E; [|by eapply I9]. injection Hc as <-. by destruct Hw.
Qed.

Lemma AddChannel_own id addr d ws : own_inv None d ws -> own_inv None (AddChannel id addr d) ws.
Proof.
  intros Hinv. unfold AddChannel. destruct (alloc (new_WatcherChannel id addr) d) as [d1 r] eqn:E.
  unfold alloc in E. injection E as <- <-. cbn [channels_].
  destruct (channels_ d !! id) as [old|] eqn:Eo.
  - assert (Hold : (old < nextRef_ d)%nat).
    { apply (o_next _ _ _ Hinv). destruct (o_map _ _ _ Hinv id old Eo) as (c & [Hc _] & _). by eexists. }
    match goal with |- context [RemoveReverseIndexLocked old ?x] => destruct (reverse_index_frame old x) as [idx ->] end.
    pose proof (own_cancel d ws id old idx Hinv Eo) as Hc.
    pose proof (own_alloc _ ws id addr (base.delete id (channels_ d))
      (<[addr := {[id]} ∪ default ∅ (idx !! addr)]> idx) Hc) as Ha.
    match type of Ha with _ -> _ -> own_inv None ?x _ => match goal with |- own_inv None ?y _ => replace y with x end end.
    + apply Ha; [|by cbn; rewrite lookup_delete_eq]. intros i r. cbn [channels_ set_channels].
      rewrite lookup_delete_Some. naive_solver.
    + unfold set_channels, alloc, CancelChannel, upd, set_heap. cbn. f_equal.
      * rewrite alter_insert_ne by lia. done.
      * by rewrite insert_delete_eq.
  - apply (own_alloc d ws id addr (channels_ d) _ Hinv); [|done]. intros i r. naive_solver congruence.
Qed.

(** ** Producers and the fan-out thread *)

Lemma SetSnapshotRevision_own id v d ws : own_inv None d ws -> own_inv None (SetSnapshotRevision id v d) ws.
Proof.
  intros Hinv. unfold SetSnapshotRevision. destruct (channels_ d !! id) as [r|] eqn:Er; [|done].
  pose proof (own_upd r (set_snapshotRevision v) d ws Hinv ltac:(done) ltac:(done)) as Hu.
  destruct (heap_ (upd r (set_snapshotRevision v) d) !! r) as [c|] eqn:Ec.
  - destruct (is_empty (wc_queue c)) eqn:Ee; [|by apply Schedule_own].
    apply (own_strengthen r); [done|]. intros c' [Hc' _] [Hq _]. assert (c' = c) as -> by congruence.
    by destruct (wc_queue c).
  - apply (own_strengthen r); [done|]. intros c' [Hc' _]. congruence.
Qed.

Lemma ScheduleAll_own d ws : own_inv None d ws -> own_inv None (ScheduleAllChannelsForRewatch d) ws.
Proof.
  intros Hinv. unfold ScheduleAllChannelsForRewatch. apply foldl_own; [|done]. clear.
  intros d r Hinv. destruct (heap_ d !! r) as [c|]; [|done]. destruct (wc_cancelled c || wc_needReWatch c); [done|].
  by apply Schedule_own, own_upd.
Qed.

Lemma set_pending_own q o n d ws : own_inv None d ws -> own_inv None (set_pending q o n d) ws.
Proof. intros Hinv. by apply (own_frame _ d); try apply Hinv. Qed.

Lemma FanOut_overflow_own d ws : own_inv None d ws -> own_inv None (FanOut_overflow d) ws.
Proof. intros Hinv. unfold FanOut_overflow. case_match; [|done]. by apply ScheduleAll_own, set_pending_own. Qed.

Lemma FanOut_channel_own e r d ws : own_inv None d ws -> own_inv None (FanOut_channel e r d) ws.
Proof.
  intros Hinv. unfold FanOut_channel. destruct (heap_ d !! r) as [c|]; [|done].
  destruct (wc_cancelled c || wc_needReWatch c); [done|].
  case_match; by apply Schedule_own, own_upd.
Qed.

Lemma FanOut_visit_own e x d ws : own_inv None d ws -> own_inv None (FanOut_visit e x d) ws.
Proof. intros Hinv. unfold FanOut_visit. case_match; [by apply FanOut_channel_own|done]. Qed.

Lemma Enqueue_own e d ws : own_inv None d ws -> own_inv None (Enqueue e d) ws.
Proof. intros Hinv. unfold Enqueue. case_match; by apply set_pending_own. Qed.

(** ** The workers *)

Lemma worker_occ_insert ws j k k' r : ws !! j = Some k ->
  (sum_list_with (worker_occ r) (<[j := k']> ws) + worker_occ r k =
   sum_list_with (worker_occ r) ws + worker_occ r k')%nat.
Proof. apply sum_insert. Qed.

(** A worker moves on while holding the same channel. *)
Lemma holders_move d ws j k k' r : ws !! j = Some k -> worker_ref k = worker_ref k' ->
  holders r d (<[j := k']> ws) = holders r d ws.
Proof.
  intros Hk Heq. unfold holders. pose proof (worker_occ_insert ws j k k' r Hk).
  unfold worker_occ in *. rewrite Heq in *. lia.
Qed.

Lemma own_move x d ws j k k' : ws !! j = Some k -> worker_ref k = worker_ref k' ->
  own_inv x d ws -> own_inv x d (<[j := k']> ws).
Proof.
  intros Hk Heq [I1 I2 I3 I4 I5 IL I6 I7 I8 I9].
  split; try done; setoid_rewrite (holders_move d ws j k k'); try done.
Qed.

(** A worker lets go of its channel. *)
Lemma holders_release d ws j k r r' : ws !! j = Some k -> worker_ref k = Some r ->
  (holders r' d (<[j := WIdle]> ws) + (if decide (r = r') then 1 else 0) = holders r' d ws)%nat.
Proof.
  intros Hk Heq. unfold holders. pose proof (worker_occ_insert ws j k WIdle r' Hk) as H.
  assert (H1 : worker_occ r' k = if decide (r = r') then 1%nat else 0%nat)
    by (unfold worker_occ; rewrite Heq; repeat case_decide; naive_solver).
  assert (H2 : worker_occ r' WIdle = 0%nat) by done. lia.
Qed.

Lemma own_release_cancelled d ws j k r : ws !! j = Some k -> worker_ref k = Some r ->
  is_cancelled r d = true -> own_inv None d ws -> own_inv None d (<[j := WIdle]> ws).
Proof.
  intros Hk Heq Hcc [I1 I2 I3 I4 I5 IL I6 I7 I8 I9].
  pose proof (fun r' => holders_release d ws j k r r' Hk Heq) as Hrel.
  split; try done.
  - intros r'. specialize (I6 r'). specialize (Hrel r'). lia.
  - intros r' Hr'. specialize (I7 r' Hr'). specialize (Hrel r'). lia.
  - intros r' c [Hc Hl]. specialize (Hrel r'). rewrite <-(I8 r' c) by done.
    rewrite decide_False in Hrel; [lia|]. intros ->. unfold is_cancelled in Hcc. rewrite Hc in Hcc. congruence.
Qed.

(** A worker clears [dispatchQueued] and lets go. *)
Lemma own_release d ws j k r c f : ws !! j = Some k -> worker_ref k = Some r -> own_inv None d ws ->
  live d r c -> (forall c, wc_watchId (f c) = wc_watchId c /\ wc_cancelled (f c) = wc_cancelled c) ->
  wc_dispatchQueued (f c) = false -> (~ has_work (f c)) ->
  own_inv None (upd r f d) (<[j := WIdle]> ws).
Proof.
  intros Hk Heq Hinv Hl Hf Hq Hw.
  pose proof (fun r' => holders_release d ws j k r r' Hk Heq) as Hrel.
  eapply (own_update _ r f d ws); try apply Hinv; try done.
  - intros r' Hne. specialize (Hrel r'). rewrite decide_False in Hrel by congruence.
    change (holders r' (upd r f d) (<[j:=WIdle]> ws)) with (holders r' d (<[j:=WIdle]> ws)). lia.
  - left. specialize (Hrel r). change (holders r (upd r f d) (<[j:=WIdle]> ws)) with (holders r d (<[j:=WIdle]> ws)). lia.
  - intros c' Hl'. assert (c' = c) as -> by (destruct Hl, Hl'; congruence). rewrite Hq. split; [|done].
    specialize (Hrel r). rewrite decide_True in Hrel by done. pose proof (o_le _ _ _ Hinv r).
    change (holders r (upd r f d) (<[j:=WIdle]> ws)) with (holders r d (<[j:=WIdle]> ws)). lia.
Qed.

(** A worker puts its channel back into a queue. *)
Lemma own_requeue d ws j k r g i : ws !! j = Some k -> worker_ref k = Some r -> own_inv None d ws ->
  (forall r', exists x, dispatchChannelGroups_ d !! i = Some x /\
     group_occ r' (g x) = (group_occ r' x + if decide (r = r') then 1 else 0)%nat) ->
  own_inv None (set_groups (alter g i (dispatchChannelGroups_ d)) (running_ d) d) (<[j := WIdle]> ws).
Proof.
  intros Hk Heq Hinv Hg.
  assert (Hh : forall r', holders r' (set_groups (alter g i (dispatchChannelGroups_ d)) (running_ d) d) (<[j := WIdle]> ws) =
    holders r' d ws).
  { intros r'. rewrite (holders_alter d _ r) by done. by rewrite (holders_release d ws j k). }
  destruct Hinv as [I1 I2 I3 I4 I5 IL I6 I7 I8 I9]. split; try done; try (setoid_rewrite Hh; done).
  cbn. by apply alter_nonempty.
Qed.

Lemma move_due_occ cancelled now retries ready retries' ready' r :
  move_due cancelled now retries ready = (retries', ready') ->
  (occ r retries'.*2 + occ r ready' <= occ r retries.*2 + occ r ready)%nat /\
  (cancelled r = false -> occ r retries'.*2 + occ r ready' = occ r retries.*2 + occ r ready)%nat.
Proof.
  revert ready. induction retries as [|[t x] retries IH]; intros ready Hm; cbn [move_due] in Hm.
  { injection Hm as <- <-. lia. }
  destruct (t <=? now); [|injection Hm as <- <-; lia].
  apply IH in Hm as [H1 H2]. rewrite fmap_cons, occ_cons. cbn [snd]. destruct (cancelled x) eqn:Ex.
  - split; [lia|]. intros Hr. rewrite decide_False by (intros ->; congruence). specialize (H2 Hr). lia.
  - rewrite occ_app, occ_cons in *. change (occ r []) with 0%nat in *. split; [lia|]. intros Hr. specialize (H2 Hr). lia.
Qed.

Lemma pop_ready_occ cancelled ready ready' o r :
  pop_ready cancelled ready = (ready', o) ->
  (occ r ready' + (if decide (o = Some r) then 1 else 0) <= occ r ready)%nat /\
  (cancelled r = false -> occ r ready' + (if decide (o = Some r) then 1 else 0) = occ r ready)%nat.
Proof.
  induction ready as [|x ready IH]; intros Hp; cbn [pop_ready] in Hp.
  { injection Hp as <- <-. rewrite decide_False by done. lia. }
  rewrite occ_cons. destruct (cancelled x) eqn:Ex.
  - apply IH in Hp as [H1 H2]. split; [lia|]. intros Hr. specialize (H2 Hr).
    rewrite (decide_False (P := x = r)) by (intros ->; congruence). lia.
  - injection Hp as <- <-. destruct (decide (x = r)) as [->|Hne].
    + rewrite decide_True by done. lia.
    + rewrite decide_False by congruence. lia.
Qed.

Lemma own_wait d ws j i now d' o : own_inv None d ws -> ws !! j = Some WIdle ->
  WaitForReadyChannel_pass i now d = (d', o) ->
  own_inv None d' (<[j := match o with Some r => WReady r | None => WIdle end]> ws).
Proof.
  intros Hinv Hj Hpass. unfold WaitForReadyChannel_pass in Hpass.
  destruct (dispatchChannelGroups_ d !! i) as [g|] eqn:Eg.
  2: { injection Hpass as <- <-. by apply (own_move _ _ _ _ WIdle). }
  destruct (move_due _ now (retryChannels g) (readyChannels g)) as [retries ready] eqn:Em.
  destruct (pop_ready _ ready) as [ready' o'] eqn:Ep. injection Hpass as <- <-.
  set (k := match o' with Some r => WReady r | None => WIdle end).
  set (g' := {| readyChannels := ready'; retryChannels := retries |}).
  assert (Hh : forall r,
    (holders r (set_groups (<[i:=g']> (dispatchChannelGroups_ d)) (running_ d) d) (<[j:=k]> ws) <= holders r d ws)%nat /\
    (is_cancelled r d = false ->
     holders r (set_groups (<[i:=g']> (dispatchChannelGroups_ d)) (running_ d) d) (<[j:=k]> ws) = holders r d ws)).
  { intros r. unfold holders. cbn [dispatchChannelGroups_ set_groups].
    pose proof (sum_insert (group_occ r) _ i g g' Eg) as Hs.
    pose proof (worker_occ_insert ws j WIdle k r Hj) as Hw. change (worker_occ r WIdle) with 0%nat in Hw.
    assert (Hk : worker_occ r k = if decide (o' = Some r) then 1%nat else 0%nat) by (unfold worker_occ, k; by destruct o').
    assert (Hg' : group_occ r g' = (occ r ready' + occ r retries.*2)%nat) by reflexivity.
    assert (Hg : group_occ r g = (occ r (readyChannels g) + occ r (retryChannels g).*2)%nat) by reflexivity.
    destruct (move_due_occ _ _ _ _ _ _ r Em) as [M1 M2]. destruct (pop_ready_occ _ _ _ _ r Ep) as [P1 P2].
    split; [lia|]. intros Hr. specialize (M2 Hr). specialize (P2 Hr). lia. }
  destruct Hinv as [I1 I2 I3 I4 I5 IL I6 I7 I8 I9]. split; try done.
  - cbn. destruct (dispatchChannelGroups_ d); [done|]. by destruct i.
  - intros r. destruct (Hh r) as [H _]. specialize (I6 r). lia.
  - intros r Hr. destruct (Hh r) as [H _]. specialize (I7 r Hr). lia.
  - intros r c [Hc Hl]. rewrite <-(I8 r c) by done. apply Hh. unfold is_cancelled. cbn in Hc. by rewrite Hc.
Qed.

Lemma pop_through_nonempty v q : pop_through v q <> [] -> q <> [].
Proof. by destruct q. Qed.

Lemma own_prepare d ws j r d' o : own_inv None d ws -> ws !! j = Some (WReady r) ->
  PrepareChannelEvents r d = (d', o) ->
  own_inv None d' (<[j := match o with Some b => WNotifying r b | None => WIdle end]> ws).
Proof.
  intros Hinv Hj Hp. unfold PrepareChannelEvents in Hp. rewrite (o_running _ _ _ Hinv) in Hp. cbn [negb orb] in Hp.
  destruct (heap_ d !! r) as [c|] eqn:Ec.
  2: { injection Hp as <- <-. apply (own_release_cancelled _ _ _ (WReady r) r); try done. unfold is_cancelled. by rewrite Ec. }
  destruct (wc_cancelled c) eqn:Ecc.
  { injection Hp as <- <-. apply (own_release_cancelled _ _ _ (WReady r) r); try done. unfold is_cancelled. by rewrite Ec. }
  destruct (is_empty (wc_queue c)) eqn:Ee.
  { injection Hp as <- <-. apply (own_release _ _ _ (WReady r) r c); try done.
    intros [H _]. cbn in H. by destruct (wc_queue c). }
  destruct (wc_needReWatch c) eqn:En.
  { injection Hp as <- <-. by apply (own_move _ _ _ _ (WReady r)). }
  destruct (wc_snapshotRevision c <=? 0) eqn:Es.
  { injection Hp as <- <-. apply (own_release _ _ _ (WReady r) r c); try done.
    intros [_ [H|H]]; cbn in H; [congruence|lia]. }
  set (q := pop_through (wc_snapshotRevision c) (wc_queue c)) in *.
  assert (Hu : own_inv None (upd r (set_queue q) d) ws).
  { apply own_upd_quiet; try done. intros c' [Hc' _] [Hq Hw]. assert (c' = c) as -> by congruence. left.
    split; [|done]. cbn in Hq. by eapply pop_through_nonempty. }
  destruct (is_empty q) eqn:Eq; injection Hp as <- <-; [|by apply (own_move _ _ _ _ (WReady r))].
  apply (own_release _ _ _ (WReady r) r (set_queue q c)); try done.
  - split; [|done]. cbn. by rewrite lookup_alter_eq, Ec.
  - intros [H _]. cbn in H. by destruct q.
Qed.

Lemma RemoveChannel_cancels d ws r c : own_inv None d ws -> live d r c ->
  is_cancelled r (RemoveChannel (wc_watchId c) d) = true.
Proof.
  intros Hinv Hl. unfold RemoveChannel. rewrite (o_live _ _ _ Hinv r c Hl).
  destruct (reverse_index_frame r (CancelChannel r d)) as [idx ->]. unfold is_cancelled. cbn.
  rewrite lookup_alter_eq. by destruct (heap_ d !! r).
Qed.

Lemma own_rewatch_removed d ws j k r c : own_inv None d ws -> ws !! j = Some k -> worker_ref k = Some r -> live d r c ->
  own_inv None (RemoveRewatchRequiredWatcher (wc_watchId c) (wc_watcherAddr c) d) (<[j := WIdle]> ws).
Proof.
  intros Hinv Hj Hk Hl. unfold RemoveRewatchRequiredWatcher.
  pose proof (registry_cancel_own (wc_watchId c) (wc_watcherAddr c) d ws Hinv) as Hr.
  apply (own_release_cancelled _ _ _ k r); [done|done| |by apply RemoveChannel_own].
  apply (RemoveChannel_cancels _ ws); [done|].
  by destruct (registry_cancel_frame (wc_watchId c) (wc_watcherAddr c) d (o_registry _ _ _ Hinv)) as (reg & -> & _).
Qed.

Lemma own_commit d ws j r b status d' h : own_inv None d ws -> ws !! j = Some (WNotified r b status) ->
  CommitChannelEvents r b status d = (d', h) -> own_inv None d' (<[j := after_handle r h]> ws).
Proof.
  intros Hinv Hj Hp. unfold CommitChannelEvents in Hp. rewrite (o_running _ _ _ Hinv) in Hp. cbn [negb orb] in Hp.
  destruct (heap_ d !! r) as [c|] eqn:Ec.
  2: { injection Hp as <- <-. eapply own_release_cancelled; try done. unfold is_cancelled. by rewrite Ec. }
  destruct (wc_cancelled c) eqn:Ecc.
  { injection Hp as <- <-. eapply own_release_cancelled; try done. unfold is_cancelled. by rewrite Ec. }
  assert (Hl : live d r c) by done.
  assert (Hretry : own_inv None d (<[j := after_handle r RETRY_LATER]> ws)) by by apply (own_move _ _ _ _ (WNotified r b status)).
  pose proof (own_rewatch_removed d ws j _ r c Hinv Hj eq_refl Hl) as Hrem.
  destruct status as [[]|code]; [|destruct code; by injection Hp as <- <-].
  destruct (b_needReWatch b); [by injection Hp as <- <-|].
  set (q := pop_through (b_maxEventRevision b) (wc_queue c)) in *.
  assert (Hu : own_inv None (upd r (fun c => set_queue q (set_retryDelayMs 0 c)) d) ws).
  { apply own_upd_quiet; try done. intros c' [Hc' _] [Hq Hw]. assert (c' = c) as -> by congruence. left.
    split; [|done]. cbn in Hq. by eapply pop_through_nonempty. }
  destruct (is_empty q) eqn:Eq; injection Hp as <- <-; [|by apply (own_move _ _ _ _ (WNotified r b (Ok ())))].
  eapply (own_release _ _ _ _ r (set_queue q (set_retryDelayMs 0 c))); try done.
  - split; [|done]. cbn. by rewrite lookup_alter_eq, Ec.
  - intros [H _]. cbn in H. by destruct q.
Qed.

Lemma own_retry d ws j r d' o : own_inv None d ws -> ws !! j = Some (WRetry r) ->
  PrepareRetry r d = (d', o) ->
  own_inv None d' (<[j := match o with Some delay => WInsert r delay | None => WIdle end]> ws).
Proof.
  intros Hinv Hj Hp. unfold PrepareRetry in Hp. rewrite (o_running _ _ _ Hinv) in Hp. cbn [negb orb] in Hp.
  destruct (heap_ d !! r) as [c|] eqn:Ec.
  2: { injection Hp as <- <-. eapply own_release_cancelled; try done. unfold is_cancelled. by rewrite Ec. }
  destruct (wc_cancelled c) eqn:Ecc.
  { injection Hp as <- <-. eapply own_release_cancelled; try done. unfold is_cancelled. by rewrite Ec. }
  injection Hp as <- <-. eapply own_move; [done|done|]. apply own_upd_quiet; try done. by left.
Qed.

Lemma worker_group j d : dispatchChannelGroups_ d <> [] ->
  is_Some (dispatchChannelGroups_ d !! group_of_worker j d).
Proof.
  intros Hne. apply lookup_lt_is_Some_2. unfold group_of_worker. apply Nat.mod_upper_bound.
  by destruct (dispatchChannelGroups_ d).
Qed.

Lemma Register_own k e addr rid d reg id created ws : own_inv None d ws ->
  nextWatchId_ (watchRegistry_ d) < INT64_MAX ->
  Register k e addr rid (watchRegistry_ d) = Ok (reg, id, created) -> own_inv None (set_registry reg d) ws.
Proof.
  intros Hinv Hmax Hreg. destruct (o_registry _ _ _ Hinv) as [Hr H1]. apply (own_frame _ d); try done; try apply Hinv.
  split; [by apply (Register_inv _ _ _ _ _ _ Hr Hmax H1 Hreg)|]. cbn.
  assert (Hstep : nsteps registry_step 1 (watchRegistry_ d) reg)
    by (apply nsteps_once; exact (reg_register _ _ _ _ _ _ Hreg)).
  destruct (registry_run_inv 1 _ _ Hstep Hr H1 ltac:(lia)) as [_ [Hn _]]. exact Hn.
Qed.

Definition world_own (w : World) : Prop := own_inv None (w_disp w) (w_workers w).

Lemma note_disp_delivered r b s w : w_disp (note_delivered r b s w) = w_disp w /\ w_workers (note_delivered r b s w) = w_workers w.
Proof. unfold note_delivered. by case_match. Qed.

Lemma step_own w w' : step w w' -> world_own w -> world_own w'.
Proof.
  unfold world_own. intros Hstep Hinv.
  destruct Hstep as [k e addr rid reg id created Hmax Hreg|id addr|id addr|id|addr|addr scopes|id v|e Hpos Hlt|Hb Hv|Hv|e b Hb Hv
    |e x ws Hv|e Hv|j now d o Hj Hp|j r d o Hj Hp|j r b Hj Hcc|j r b status Hj|j r b status d h Hj Hp|j r Hj
    |j r d o Hj Hp|j r delay now c Hj Hc].
  - by eapply Register_own.
  - by apply registry_cancel_own.
  - by apply AddChannel_own.
  - by apply RemoveChannel_own.
  - by apply RemoveChannelsByWatcher_own.
  - by apply RemoveChannelsByWatcherInScopes_own.
  - destruct (channels_ (w_disp w) !! id); by apply SetSnapshotRevision_own.
  - by apply Enqueue_own.
  - by apply set_pending_own.
  - by apply FanOut_overflow_own.
  - done.
  - destruct (pushes_to x (w_disp w)); by apply FanOut_visit_own.
  - done.
  - by eapply own_wait.
  - by eapply own_prepare.
  - by eapply own_release_cancelled.
  - destruct (note_disp_delivered r b status (with_worker j (WNotified r b status) w)) as [-> ->]. by eapply own_move.
  - by eapply own_commit.
  - cbn. destruct (is_cancelled r (w_disp w)) eqn:Ec; [by eapply own_release_cancelled|].
    eapply own_requeue; [done|done|done|]. intros r'. destruct (worker_group j _ (o_groups _ _ _ Hinv)) as [g Hg].
    exists g. split; [done|apply group_occ_push].
  - by eapply own_retry.
  - cbn. destruct (wc_cancelled c) eqn:Ec.
    + eapply own_release_cancelled; try done. unfold is_cancelled. by rewrite Hc.
    + eapply own_requeue; [done|done|done|]. intros r'. destruct (group_index c _ (o_groups _ _ _ Hinv)) as [g Hg].
      exists g. split; [done|apply group_occ_insert].
Qed.

Lemma sum_repeat_zero {A} (f : A -> nat) x n : f x = 0%nat -> sum_list_with f (repeat x n) = 0%nat.
Proof. intros Hx. induction n as [|n IH]; cbn; [done|]. by rewrite Hx, IH. Qed.

Lemma initial_own threads : (0 < threads)%nat -> world_own (initial_world threads).
Proof.
  intros Ht. unfold world_own, initial_world. cbn [w_disp w_workers].
  set (d := Start true _).
  assert (H0 : forall r, holders r d (repeat WIdle (threads * BTHREADS_PER_DISPATCH_THREAD)) = 0%nat).
  { intros r. unfold holders.
    change (dispatchChannelGroups_ d) with (repeat new_DispatchChannelGroup (Nat.min threads MAX_READY_CHANNEL_GROUPS)).
    by rewrite (sum_repeat_zero (group_occ r)), (sum_repeat_zero (worker_occ r)). }
  split; try done.
  - cbn. destruct threads; [lia|done].
  - split; [apply new_WatchRegistry_inv|cbn; lia].
  - intros r. cbn. rewrite lookup_empty. split; [by intros []|lia].
  - intros r c [Hc _]. cbn in Hc. by rewrite lookup_empty in Hc.
  - intros r. rewrite H0. lia.
  - intros r c [Hc _]. cbn in Hc. by rewrite lookup_empty in Hc.
  - intros r c [Hc _]. cbn in Hc. by rewrite lookup_empty in Hc.
Qed.

Lemma reachable_own threads w : (0 < threads)%nat -> reachable threads w -> world_own w.
Proof.
  intros Ht Hr. unfold reachable in Hr. apply (rtc_ind_r (fun w => world_own w)) in Hr; [done|by apply initial_own|].
  intros w1 w2 _ Hs Hw. by eapply step_own.
Qed.

(** ** Accounting of events *)

Definition increasing (l : list WatchEvent) : Prop := StronglySorted before l.

(** A worker holds a successfully notified, not yet committed batch; a worker
    is about to notify a batch. *)
Definition sent (r : ref) (ws : list Worker) (b : Batch) : Prop :=
  b_needReWatch b = false /\ exists j, ws !! j = Some (WNotified r b (Ok tt)).
Definition sending (r : ref) (ws : list Worker) (b : Batch) : Prop :=
  b_needReWatch b = false /\ exists j, ws !! j = Some (WNotifying r b).

(** An event that left the queue of a channel: it was delivered, is covered by a
    snapshot, or shares its revision with a delivered event. *)
Definition settled (D : list WatchEvent) (S : Z) (e : WatchEvent) : Prop :=
  e ∈ D \/ we_revision e <= S \/ exists e', e' ∈ D /\ we_revision e' = we_revision e.

Lemma settled_mono D D' S S' e : settled D S e -> (forall x, x ∈ D -> x ∈ D') -> S <= S' -> settled D' S' e.
Proof. intros [H|[H|(x & H & E)]] HD HS; [left; eauto|right; left; lia|right; right; eauto]. Qed.

(** What was pushed is what left the queue followed by the queue. *)
Definition chan_acct (ws : list Worker) (r : ref) (P D : list WatchEvent) (S : Z) (c : WatcherChannel) : Prop :=
  exists X, P = X ++ wc_queue c /\
    (forall e, e ∈ X -> settled D S e) /\
    wc_snapshotRevision c <= S /\
    (forall b, sent r ws b -> (exists rest, wc_queue c = b_events b ++ rest) /\
       D `sublist_of` X ++ b_events b /\ (forall e, e ∈ b_events b -> e ∈ D)) /\
    ((forall b, ~ sent r ws b) -> D `sublist_of` X) /\
    (forall b, sending r ws b -> exists rest, wc_queue c = b_events b ++ rest).

Definition fan_pending (w : World) : list WatchEvent :=
  match w_visiting w with Some (e, _) => [e] | None => [] end ++ w_batch w ++ pendingQueue_ (w_disp w).

Record acct_inv (w : World) : Prop := {
  a_pending : increasing (fan_pending w);
  a_pending_range e : e ∈ fan_pending w -> 0 < we_revision e /\ e ∈ g_enqueued w;
  a_pushed r : increasing (g_pushed w r);
  a_pushed_range r e : e ∈ g_pushed w r -> 0 < we_revision e /\ e ∈ g_enqueued w;
  a_order r e e' : e ∈ g_pushed w r -> e' ∈ w_batch w ++ pendingQueue_ (w_disp w) -> before e e';
  a_visiting e ws : w_visiting w = Some (e, ws) ->
    NoDup (we_watchId <$> ws) /\
    (forall r x, x ∈ g_pushed w r -> we_revision x <= we_revision e) /\
    (forall r c x, live (w_disp w) r c -> wc_needReWatch c = false -> wc_watchId c ∈ we_watchId <$> ws ->
       x ∈ g_pushed w r -> before x e);
  a_fresh r : heap_ (w_disp w) !! r = None -> g_pushed w r = [] /\ g_delivered w r = [] /\ g_snapshot w r = 0;
  a_sublist r : g_delivered w r `sublist_of` g_pushed w r;
  a_sending r b : sending r (w_workers w) b -> g_delivered w r ++ b_events b `sublist_of` g_pushed w r;
  a_batch r b : sending r (w_workers w) b \/ sent r (w_workers w) b -> b_maxEventRevision b = max_revision (b_events b);
  a_chan r c : live (w_disp w) r c -> wc_needReWatch c = false ->
    chan_acct (w_workers w) r (g_pushed w r) (g_delivered w r) (g_snapshot w r) c
}.

(** Steps that leave the queue and the snapshot of every channel alone, except
    for channels that become cancelled or need a re-watch, and fresh ones. *)
Definition dframe (d d' : WatchDispatcher) : Prop :=
  (forall r, heap_ d' !! r = None -> heap_ d !! r = None) /\
  (forall r c', live d' r c' -> wc_needReWatch c' = false ->
     (exists c, live d r c /\ wc_needReWatch c = false /\ wc_watchId c' = wc_watchId c /\
        wc_queue c' = wc_queue c /\ wc_snapshotRevision c' = wc_snapshotRevision c) \/
     (heap_ d !! r = None /\ wc_queue c' = [] /\ wc_snapshotRevision c' = 0)).

Lemma dframe_refl d d' : heap_ d' = heap_ d -> dframe d d'.
Proof. intros Eh. unfold dframe, live. rewrite Eh. split; [done|]. intros r c' Hl Hn. left. eauto 10. Qed.

Lemma dframe_trans d d' d'' : dframe d d' -> dframe d' d'' -> dframe d d''.
Proof.
  intros [H1 H2] [H3 H4]. split; [eauto|]. intros r c'' Hl Hn.
  destruct (H4 r c'' Hl Hn) as [(c' & Hl' & Hn' & E1 & E2 & E3)|(Hh & E2 & E3)]; [|right; eauto].
  destruct (H2 r c' Hl' Hn') as [(c & Hl0 & Hn0 & F1 & F2 & F3)|(Hh & F2 & F3)]; [left; exists c|right];
    split_and!; congruence || done.
Qed.

Lemma dframe_upd r f d :
  (forall c, wc_watchId (f c) = wc_watchId c) ->
  (forall c, heap_ d !! r = Some c -> wc_cancelled (f c) = false -> wc_needReWatch (f c) = false ->
     wc_cancelled c = false /\ wc_needReWatch c = false /\ wc_queue (f c) = wc_queue c /\
     wc_snapshotRevision (f c) = wc_snapshotRevision c) ->
  dframe d (upd r f d).
Proof.
  intros Hid Hf. split.
  - intros r' Hr'. cbn in Hr'. destruct (decide (r' = r)) as [->|Hne].
    + by rewrite lookup_alter_eq, fmap_None in Hr'.
    + by rewrite lookup_alter_ne in Hr'.
  - intros r' c' [Hc' Hl'] Hn'. cbn in Hc'. left. destruct (decide (r' = r)) as [->|Hne].
    + rewrite lookup_alter_eq in Hc'. apply fmap_Some in Hc' as (c & Hc & ->).
      destruct (Hf c Hc Hl' Hn') as (H1 & H2 & H3 & H4). exists c. by split_and!.
    + rewrite lookup_alter_ne in Hc' by done. exists c'. by split_and!.
Qed.

Lemma dframe_foldl {A} (f : WatchDispatcher -> A -> WatchDispatcher) l d :
  (forall d x, dframe d (f d x)) -> dframe d (foldl f d l).
Proof.
  intros Hf. revert d. induction l as [|x l IH]; intros d; cbn; [by apply dframe_refl|].
  eapply dframe_trans; [apply Hf|apply IH].
Qed.

Lemma dframe_Schedule r d : dframe d (ScheduleChannelLocked r d).
Proof.
  unfold ScheduleChannelLocked. destruct (heap_ d !! r) as [c|] eqn:Ec; [|by apply dframe_refl].
  case_match; [by apply dframe_refl|].
  eapply dframe_trans; [apply (dframe_upd r (set_dispatchQueued true)); [done|]|by apply dframe_refl].
  intros c' _ H1 H2. by split_and!.
Qed.

Lemma dframe_registry_cancel id addr d : dframe d (registry_cancel id addr d).
Proof. unfold registry_cancel. case_match; by apply dframe_refl. Qed.

Lemma dframe_Cancel r d : dframe d (CancelChannel r d).
Proof. by apply dframe_upd. Qed.

Lemma dframe_reverse r d : dframe d (RemoveReverseIndexLocked r d).
Proof. destruct (reverse_index_frame r d) as [idx ->]. by apply dframe_refl. Qed.

Lemma dframe_Remove id d : dframe d (RemoveChannel id d).
Proof.
  unfold RemoveChannel. case_match; [|by apply dframe_refl].
  eapply dframe_trans; [apply dframe_Cancel|]. eapply dframe_trans; [apply dframe_reverse|]. by apply dframe_refl.
Qed.

Lemma dframe_Add id addr d : heap_ d !! nextRef_ d = None -> dframe d (AddChannel id addr d).
Proof.
  intros Hnew. unfold AddChannel. destruct (alloc (new_WatcherChannel id addr) d) as [d1 r] eqn:E.
  unfold alloc in E. injection E as E <-.
  assert (H1 : dframe d d1).
  { subst d1. split; cbn.
    - intros r. rewrite lookup_insert_None. by intros [? _].
    - intros r c [Hc Hl] Hn. cbn in Hc. apply lookup_insert_Some in Hc as [[<- <-]|[Hne Hc]].
      + by right.
      + left. exists c. by split_and!. }
  eapply dframe_trans; [exact H1|]. cbn zeta. destruct (channels_ d1 !! id) as [old|].
  - eapply dframe_trans; [apply (dframe_Cancel old)|]. eapply dframe_trans; [apply (dframe_reverse old)|].
    by apply dframe_refl.
  - by apply dframe_refl.
Qed.

Lemma dframe_ScheduleAll d : dframe d (ScheduleAllChannelsForRewatch d).
Proof.
  unfold ScheduleAllChannelsForRewatch. apply dframe_foldl. clear. intros d r.
  destruct (heap_ d !! r) as [c|]; [|by apply dframe_refl]. case_match; [by apply dframe_refl|].
  eapply dframe_trans; [|apply dframe_Schedule]. by apply dframe_upd.
Qed.

Lemma worker_holds d ws j k r : ws !! j = Some k -> worker_ref k = Some r -> (1 <= holders r d ws)%nat.
Proof.
  intros Hj Hk. unfold holders. pose proof (sum_elem_le (worker_occ r) ws j k Hj) as H.
  unfold worker_occ in H at 1. rewrite decide_True in H by done. lia.
Qed.

(** Only one worker holds a channel. *)
Lemma worker_unique x d ws i j k k' r : own_inv x d ws -> ws !! i = Some k -> ws !! j = Some k' ->
  worker_ref k = Some r -> worker_ref k' = Some r -> i = j.
Proof.
  intros Hinv Hi Hj Hk Hk'. destruct (decide (i = j)) as [|Hne]; [done|exfalso].
  pose proof (sum_two_le (worker_occ r) ws i j k k' Hi Hj Hne) as H. unfold worker_occ in H at 1 2.
  rewrite !decide_True in H by done. pose proof (o_le _ _ _ Hinv r) as Hle. unfold holders in Hle. lia.
Qed.

Lemma fresh_unheld x d ws r b : own_inv x d ws -> heap_ d !! r = None -> ~ sent r ws b /\ ~ sending r ws b.
Proof.
  intros Hinv Hr. pose proof (o_fresh _ _ _ Hinv r Hr) as H0.
  split; intros (_ & j & Hj); pose proof (worker_holds d ws j _ r Hj eq_refl); lia.
Qed.

Lemma chan_acct_ext ws ws' r P D S c c' :
  (forall b, sent r ws' b <-> sent r ws b) -> (forall b, sending r ws' b -> sending r ws b) ->
  wc_queue c' = wc_queue c -> wc_snapshotRevision c' = wc_snapshotRevision c ->
  chan_acct ws r P D S c -> chan_acct ws' r P D S c'.
Proof.
  intros Hs Hs' Eq Es (X & H1 & H2 & H3 & H4 & H5 & H6). exists X. rewrite Eq, Es. split_and!; try done.
  - intros b Hb. apply H4. by apply Hs.
  - intros Hno. apply H5. intros b Hb. by apply (Hno b), Hs.
  - intros b Hb. by apply H6, Hs'.
Qed.

Lemma acct_frame o w w' :
  own_inv o (w_disp w) (w_workers w) -> acct_inv w -> dframe (w_disp w) (w_disp w') ->
  w_batch w' = w_batch w -> w_visiting w' = w_visiting w ->
  pendingQueue_ (w_disp w') = pendingQueue_ (w_disp w) ->
  g_enqueued w' = g_enqueued w -> g_pushed w' = g_pushed w -> g_delivered w' = g_delivered w -> g_snapshot w' = g_snapshot w ->
  (forall r b, sent r (w_workers w') b <-> sent r (w_workers w) b) ->
  (forall r b, sending r (w_workers w') b -> sending r (w_workers w) b) ->
  acct_inv w'.
Proof.
  intros Hown [A2 A3 A4 A5 A6 A7 A8 A9 A10 A11 A12] [Hf1 Hf2] Eb Ev Ep El EP ED ES Hs Hs'.
  assert (Ef : fan_pending w' = fan_pending w) by (unfold fan_pending; by rewrite Eb, Ev, Ep).
  split; rewrite ?Ef, ?Eb, ?Ep, ?El, ?EP, ?ED, ?ES; try done.
  - intros e ws Hv. rewrite Ev in Hv. destruct (A7 e ws Hv) as (H1 & H2 & H3). split_and!; [done|done|].
    intros r c' x Hl Hn Hid Hx. destruct (Hf2 r c' Hl Hn) as [(c & Hl0 & Hn0 & F1 & _)|(Hh & _)].
    + eapply H3; [done|done|by rewrite <-F1|done].
    + destruct (A8 r Hh) as [Hnil _]. rewrite Hnil in Hx. by apply not_elem_of_nil in Hx.
  - intros r Hr. by apply A8, Hf1.
  - intros r b Hb. by apply A10, Hs'.
  - intros r b [Hb|Hb]; [apply (A11 r); left; by apply Hs'|apply (A11 r); right; by apply Hs].
  - intros r c' Hl Hn. destruct (Hf2 r c' Hl Hn) as [(c & Hl0 & Hn0 & F1 & F2 & F3)|(Hh & F2 & F3)].
    + eapply chan_acct_ext; [apply Hs|apply Hs'|exact F2|exact F3|by apply A12].
    + destruct (A8 r Hh) as (-> & -> & ->). exists []. rewrite F2, F3. split_and!; [done|..|done|].
      * intros e He. by apply not_elem_of_nil in He.
      * done.
      * intros b Hb%Hs. by destruct (fresh_unheld _ _ _ r b Hown Hh).
      * intros b Hb%Hs'. by destruct (fresh_unheld _ _ _ r b Hown Hh).
Qed.

(** Worker moves between program points that hold no batch. *)
Definition no_batch (k : Worker) : Prop :=
  match k with WNotifying _ b | WNotified _ b (Ok _) => b_needReWatch b = true | _ => True end.

Lemma sent_insert ws j k k' r b : ws !! j = Some k -> no_batch k -> no_batch k' ->
  (sent r (<[j := k']> ws) b <-> sent r ws b) /\ (sending r (<[j := k']> ws) b <-> sending r ws b).
Proof.
  intros Hj Hk Hk'. assert (Hlt : (j < length ws)%nat) by eauto using lookup_lt_Some.
  unfold sent, sending.
  assert (Hgen : forall (K : Worker), ~ (no_batch K /\ b_needReWatch b = false) ->
    (b_needReWatch b = false /\ exists i, <[j := k']> ws !! i = Some K) <-> (b_needReWatch b = false /\ exists i, ws !! i = Some K)).
  { intros K HK. split; intros (Hb & i & Hi); (split; [done|]); exists i.
    - apply list_lookup_insert_Some in Hi as [(-> & -> & _)|[_ Hi]]; [|done]. by destruct HK.
    - destruct (decide (i = j)) as [->|Hne]; [|by rewrite list_lookup_insert_ne].
      rewrite Hj in Hi. injection Hi as <-. by destruct HK. }
  split; apply Hgen; cbn; intros [??]; congruence.
Qed.

(** The rule for a step about one channel that pushes nothing. *)
Lemma acct_point w w' r :
  acct_inv w ->
  w_batch w' = w_batch w -> w_visiting w' = w_visiting w ->
  pendingQueue_ (w_disp w') = pendingQueue_ (w_disp w) -> g_enqueued w' = g_enqueued w -> g_pushed w' = g_pushed w ->
  (forall r', r' <> r -> heap_ (w_disp w') !! r' = heap_ (w_disp w) !! r' /\
     g_delivered w' r' = g_delivered w r' /\ g_snapshot w' r' = g_snapshot w r' /\
     (forall b, (sent r' (w_workers w') b <-> sent r' (w_workers w) b) /\
                (sending r' (w_workers w') b -> sending r' (w_workers w) b))) ->
  (heap_ (w_disp w') !! r = None ->
     heap_ (w_disp w) !! r = None /\ g_delivered w' r = g_delivered w r /\ g_snapshot w' r = g_snapshot w r) ->
  g_delivered w' r `sublist_of` g_pushed w r ->
  (forall b, sending r (w_workers w') b -> g_delivered w' r ++ b_events b `sublist_of` g_pushed w r) ->
  (forall b, sending r (w_workers w') b \/ sent r (w_workers w') b -> b_maxEventRevision b = max_revision (b_events b)) ->
  (forall c', live (w_disp w') r c' -> wc_needReWatch c' = false ->
     (exists c, live (w_disp w) r c /\ wc_needReWatch c = false /\ wc_watchId c' = wc_watchId c) /\
     chan_acct (w_workers w') r (g_pushed w r) (g_delivered w' r) (g_snapshot w' r) c') ->
  acct_inv w'.
Proof.
  intros [A2 A3 A4 A5 A6 A7 A8 A9 A10 A11 A12] Eb Ev Ep El EP Ho Hn Hsub Hsend Hbat Hch.
  assert (Ef : fan_pending w' = fan_pending w) by (unfold fan_pending; by rewrite Eb, Ev, Ep).
  assert (Hlive : forall r' c', r' <> r -> live (w_disp w') r' c' -> live (w_disp w) r' c').
  { intros r' c' Hne [H1 H2]. destruct (Ho r' Hne) as [E _]. rewrite E in H1. done. }
  split; rewrite ?Ef, ?Eb, ?Ep, ?El, ?EP; try done.
  - intros e ws Hv. rewrite Ev in Hv. destruct (A7 e ws Hv) as (H1 & H2 & H3). split_and!; [done|done|].
    intros r' c' x Hl Hnr Hid Hx. destruct (decide (r' = r)) as [->|Hne].
    + destruct (Hch c' Hl Hnr) as [(c & Hl0 & Hn0 & F1) _]. eapply H3; [done|done|by rewrite <-F1|done].
    + eapply H3; [by apply Hlive|done|done|done].
  - intros r' Hr'. destruct (decide (r' = r)) as [->|Hne].
    + destruct (Hn Hr') as (H & -> & ->). by apply A8.
    + destruct (Ho r' Hne) as (E & -> & -> & _). rewrite E in Hr'. by apply A8.
  - intros r'. destruct (decide (r' = r)) as [->|Hne]; [done|]. destruct (Ho r' Hne) as (_ & -> & _). done.
  - intros r' b Hb. destruct (decide (r' = r)) as [->|Hne]; [by apply Hsend|].
    destruct (Ho r' Hne) as (_ & -> & _ & Hw). by apply A10, Hw.
  - intros r' b Hb. destruct (decide (r' = r)) as [->|Hne]; [by apply Hbat|].
    destruct (Ho r' Hne) as (_ & _ & _ & Hw). apply (A11 r'). destruct Hb as [Hb|Hb]; [left|right]; by apply Hw.
  - intros r' c' Hl Hnr. destruct (decide (r' = r)) as [->|Hne]; [by apply Hch|].
    destruct (Ho r' Hne) as (_ & -> & -> & Hw).
    eapply chan_acct_ext; [apply Hw|apply Hw|reflexivity|reflexivity|]. apply A12; [by apply Hlive|done].
Qed.

Lemma gupd_eq {A} r (x : A) f : gupd r x f r = x.
Proof. unfold gupd. by rewrite decide_True. Qed.

Lemma gupd_ne {A} r r' (x : A) f : r' <> r -> gupd r x f r' = f r'.
Proof. intros H. unfold gupd. by rewrite decide_False. Qed.

Lemma upd_ne r r' f d : r' <> r -> heap_ (upd r f d) !! r' = heap_ d !! r'.
Proof. intros H. cbn. by rewrite lookup_alter_ne. Qed.

Lemma upd_None r f d : heap_ (upd r f d) !! r = None -> heap_ d !! r = None.
Proof. cbn. rewrite lookup_alter_eq. apply fmap_None. Qed.

Lemma upd_live r f d c' : live (upd r f d) r c' -> exists c, heap_ d !! r = Some c /\ c' = f c /\ wc_cancelled (f c) = false.
Proof. intros [H1 H2]. cbn in H1. rewrite lookup_alter_eq in H1. apply fmap_Some in H1 as (c & Hc & ->). eauto. Qed.

Lemma acct_snapshot w id v : world_own w -> acct_inv w ->
  acct_inv (note_snapshot (channels_ (w_disp w) !! id) v (with_disp (SetSnapshotRevision id v (w_disp w)) w)).
Proof.
  intros Hown Hinv. destruct (channels_ (w_disp w) !! id) as [r|] eqn:Er; cbn [note_snapshot].
  2: { unfold SetSnapshotRevision. rewrite Er. by destruct w. }
  set (w1 := note_snapshot (Some r) v (with_disp (upd r (set_snapshotRevision v) (w_disp w)) w)).
  assert (H1 : acct_inv w1).
  { apply (acct_point w w1 r); try done; unfold w1; cbn [note_snapshot with_disp w_disp w_workers g_delivered g_snapshot].
    - intros r' Hne. rewrite upd_ne, gupd_ne by done. done.
    - intros Hnone. apply upd_None in Hnone. destruct (o_map _ _ _ Hown id r Er) as (c & [Hc _] & _). congruence.
    - apply (a_sublist _ Hinv).
    - apply (a_sending _ Hinv).
    - apply (a_batch _ Hinv).
    - intros c' Hl Hn. apply upd_live in Hl as (c & Hc & -> & Hcc). split; [exists c; by split_and!|].
      rewrite gupd_eq. destruct (a_chan _ Hinv r c (conj Hc Hcc) Hn) as (X & K1 & K2 & K3 & K4 & K5 & K6).
      exists X. cbn. split_and!; try done; [|lia]. intros e He. eapply settled_mono; [by apply K2|done|lia]. }
  assert (Ho : own_inv (Some r) (w_disp w1) (w_workers w1)) by (unfold w1; cbn; by apply own_upd).
  eapply (acct_frame (Some r) w1); try done; cbn [w_disp]; unfold SetSnapshotRevision; rewrite Er;
    destruct (heap_ (upd r (set_snapshotRevision v) (w_disp w)) !! r) as [c|]; try done;
    try (destruct (is_empty (wc_queue c)); try done);
    try (by apply dframe_refl); try apply dframe_Schedule;
    unfold ScheduleChannelLocked; repeat (case_match; try done).
Qed.

(** ** Batches and queues *)

Lemma max_revision_foldl m b : m <= foldl (fun m e => Z.max m (we_revision e)) m b /\
  (forall e, e ∈ b -> we_revision e <= foldl (fun m e => Z.max m (we_revision e)) m b) /\
  (forall v, m < v -> (forall e, e ∈ b -> we_revision e < v) -> foldl (fun m e => Z.max m (we_revision e)) m b < v).
Proof.
  revert m. induction b as [|e b IH]; intros m; cbn [foldl].
  - split_and!; [done|intros e He; by apply not_elem_of_nil in He|done].
  - destruct (IH (Z.max m (we_revision e))) as (H1 & H2 & H3). split_and!; [lia| |].
    + intros e' [->|He]%elem_of_cons; [lia|by apply H2].
    + intros v Hm Hv. apply H3; [|intros e' He; apply Hv; by right].
      pose proof (Hv e ltac:(by left)). lia.
Qed.

Lemma increasing_app l l' : increasing (l ++ l') <->
  increasing l /\ increasing l' /\ (forall e e', e ∈ l -> e' ∈ l' -> before e e').
Proof.
  unfold increasing. induction l as [|x l IH]; cbn.
  - split; [intros H; split_and!; [constructor|done|]|by intros (_ & ? & _)]. intros e e' He. by apply not_elem_of_nil in He.
  - split.
    + inversion 1 as [|? ? Hs Hall]; subst. apply IH in Hs as (H1 & H2 & H3). rewrite Forall_app in Hall.
      destruct Hall as [F1 F2]. split_and!; [by constructor|done|].
      intros e e' [->|He]%elem_of_cons He'; [|by apply H3]. rewrite Forall_forall in F2. by apply F2.
    + intros (H1 & H2 & H3). inversion H1 as [|? ? Hs Hall]; subst. constructor.
      * apply IH. split_and!; [done|done|]. intros e e' He. apply H3. by right.
      * rewrite Forall_app. split; [done|]. rewrite Forall_forall. intros e' He'.
        apply H3; [by left|done].
Qed.

Lemma increasing_sublist l l' : l `sublist_of` l' -> increasing l' -> increasing l.
Proof.
  unfold increasing. induction 1 as [|x l l' Hs IH|x l l' Hs IH]; intros Hi; cbn; [constructor| |].
  - inversion Hi as [|? ? Hs' Hall]; subst. constructor; [by apply IH|].
    rewrite Forall_forall in *. intros e He. apply Hall. by eapply elem_of_sublist.
  - inversion Hi; subst. by apply IH.
Qed.

Lemma increasing_NoDup l : increasing l -> NoDup l.
Proof.
  induction 1 as [|x l Hs IH Hall]; constructor; [|done]. intros Hx.
  rewrite Forall_forall in Hall. by destruct (Hall x Hx).
Qed.

Lemma pop_through_app v l l' : (forall e, e ∈ l -> we_revision e <= v) -> pop_through v (l ++ l') = pop_through v l'.
Proof.
  unfold pop_through. induction l as [|e l IH]; intros Hv; cbn; [done|].
  rewrite (proj2 (Z.leb_le _ _)) by (apply Hv; by left). apply IH. intros e' He. apply Hv. by right.
Qed.

Lemma pop_through_id v l : (forall e, e ∈ l -> v < we_revision e) -> pop_through v l = l.
Proof. unfold pop_through. destruct l as [|e l]; intros Hv; cbn; [done|]. pose proof (Hv e ltac:(by left)). case_match; [lia|done]. Qed.

(** What the snapshot covers is a prefix. *)
Lemma pop_through_split v q : exists Y, q = Y ++ pop_through v q /\ (forall e, e ∈ Y -> we_revision e <= v).
Proof.
  unfold pop_through. induction q as [|e q (Y & Hq & HY)]; cbn.
  - exists []. split; [done|]. intros e He. by apply not_elem_of_nil in He.
  - destruct (we_revision e <=? v) eqn:Ev.
    + exists (e :: Y). cbn. split; [by f_equal|]. intros e' [->|He]%elem_of_cons; [lia|by apply HY].
    + exists []. split; [done|]. intros e' He. by apply not_elem_of_nil in He.
Qed.

(** Committing a batch that heads an increasing queue removes the batch and the
    events that share its last revision. *)
Lemma pop_batch b rest : increasing (b ++ rest) -> (forall e, e ∈ b ++ rest -> 0 < we_revision e) ->
  exists Z, rest = Z ++ pop_through (max_revision b) (b ++ rest) /\
    (forall e, e ∈ Z -> exists e', e' ∈ b /\ we_revision e' = we_revision e).
Proof.
  intros Hi Hpos. destruct (max_revision_foldl 0 b) as (_ & Hub & Hlub). unfold max_revision.
  rewrite pop_through_app by done. set (v := foldl _ 0 b) in *.
  destruct (pop_through_split v rest) as (Z & HZ & Hle). exists Z. split; [done|]. intros e He.
  assert (Her : e ∈ rest) by (rewrite HZ; apply elem_of_app; by left).
  apply increasing_app in Hi as (_ & _ & Hlt). pose proof (Hle e He) as Hev.
  destruct (decide (Exists (fun e' => we_revision e <= we_revision e') b)) as [Hex|Hnex].
  - apply Exists_exists in Hex as (e' & He' & Hge). exists e'. split; [done|].
    destruct (Hlt e' e He' Her). lia.
  - exfalso. assert (v < we_revision e); [|lia]. apply Hlub.
    + apply Hpos, elem_of_app. by right.
    + intros e' He'. destruct (Z.lt_ge_cases (we_revision e') (we_revision e)); [done|].
      destruct Hnex. apply Exists_exists. eauto.
Qed.

Lemma collect_batch_prefix n v q : exists rest, q = collect_batch n v q ++ rest.
Proof.
  revert v q. induction n as [|n IH]; intros v q; cbn; [by exists q|].
  destruct q as [|e q]; [by exists []|]. case_match; [by exists q|].
  destruct (IH (v + event_bytes e) q) as [rest Hr]. exists rest. cbn. by f_equal.
Qed.

Lemma collect_batch_length n v q : (length (collect_batch n v q) <= n)%nat.
Proof.
  revert v q. induction n as [|n IH]; intros v q; cbn; [lia|]. destruct q as [|e q]; cbn; [lia|].
  case_match; cbn; [lia|]. specialize (IH (v + event_bytes e) q). lia.
Qed.

(** ** Sent and pending batches when one worker moves *)

Lemma sent_self x d ws j k k' r b : own_inv x d ws -> ws !! j = Some k -> worker_ref k = Some r ->
  (sent r (<[j := k']> ws) b -> k' = WNotified r b (Ok tt) /\ b_needReWatch b = false) /\
  (sending r (<[j := k']> ws) b -> k' = WNotifying r b /\ b_needReWatch b = false).
Proof.
  intros Hinv Hj Hk. split; intros (Hb & i & Hi);
    apply list_lookup_insert_Some in Hi as [(-> & -> & _)|[Hne Hi]]; try done;
    destruct Hne; eapply worker_unique; [exact Hinv|exact Hj|exact Hi|exact Hk|done|exact Hinv|exact Hj|exact Hi|exact Hk|done].
Qed.

Lemma sent_held x d ws j k r b : own_inv x d ws -> ws !! j = Some k -> worker_ref k = Some r ->
  (sent r ws b -> k = WNotified r b (Ok tt) /\ b_needReWatch b = false) /\
  (sending r ws b -> k = WNotifying r b /\ b_needReWatch b = false).
Proof.
  intros Hinv Hj Hk. pose proof (sent_self x d ws j k k r b Hinv Hj Hk) as H. by rewrite list_insert_id in H.
Qed.

Lemma sent_other ws j k k' r r' b : ws !! j = Some k -> worker_ref k = Some r ->
  (worker_ref k' = Some r \/ worker_ref k' = None) -> r' <> r ->
  (sent r' (<[j := k']> ws) b <-> sent r' ws b) /\ (sending r' (<[j := k']> ws) b <-> sending r' ws b).
Proof.
  intros Hj Hk Hk' Hne. unfold sent, sending.
  assert (Hgen : forall K, worker_ref K = Some r' ->
    (b_needReWatch b = false /\ exists i, <[j := k']> ws !! i = Some K) <-> (b_needReWatch b = false /\ exists i, ws !! i = Some K)).
  { intros K HK. split; intros (Hb & i & Hi); (split; [done|]); exists i.
    - apply list_lookup_insert_Some in Hi as [(-> & -> & _)|[_ Hi]]; [|done]. destruct Hk'; congruence.
    - rewrite list_lookup_insert_ne; [done|]. intros ->. congruence. }
  split; by apply Hgen.
Qed.

(** ** The workers keep the accounting *)

(** Steps of a worker that holds [r] and changes no queue. *)
Lemma acct_worker w j k k' r d : world_own w -> acct_inv w -> w_workers w !! j = Some k -> worker_ref k = Some r ->
  (worker_ref k' = Some r \/ worker_ref k' = None) -> dframe (w_disp w) d -> pendingQueue_ d = pendingQueue_ (w_disp w) ->
  (forall b, k = WNotified r b (Ok tt) -> b_needReWatch b = true) ->
  (forall b, k' <> WNotified r b (Ok tt) /\ k' <> WNotifying r b) ->
  acct_inv (with_worker j k' (with_disp d w)).
Proof.
  intros Hown Hinv Hj Hk Hk' Hd Hp Hks Hks'.
  apply (acct_frame None w); try done; cbn [w_workers with_worker with_disp].
  - intros r' b. destruct (decide (r' = r)) as [->|Hne].
    + split; intros Hs; exfalso.
      * apply (sent_self _ _ _ _ _ _ _ _ Hown Hj Hk) in Hs as [Heq _]. by destruct (Hks' b) as [H _].
      * apply (sent_held _ _ _ _ _ _ _ Hown Hj Hk) in Hs as [Heq Hn]. rewrite (Hks b Heq) in Hn. done.
    + by apply (sent_other _ _ k _ r).
  - intros r' b. destruct (decide (r' = r)) as [->|Hne].
    + intros Hs. apply (sent_self _ _ _ _ _ _ _ _ Hown Hj Hk) in Hs as [Heq _]. by destruct (Hks' b) as [_ H].
    + by apply (sent_other _ _ k _ r).
Qed.

(** An update that keeps what the accounting reads of a channel. *)
Definition acct_neutral (f : WatcherChannel -> WatcherChannel) : Prop := forall c,
  wc_watchId (f c) = wc_watchId c /\ wc_cancelled (f c) = wc_cancelled c /\
  wc_needReWatch (f c) = wc_needReWatch c /\ wc_queue (f c) = wc_queue c /\ wc_snapshotRevision (f c) = wc_snapshotRevision c.

(** Dropping the prefix [Y] the snapshot covers, and starting to send a prefix of the rest [q]. *)
Lemma acct_trim w j r c X Y q k' f : world_own w -> acct_inv w -> w_workers w !! j = Some (WReady r) ->
  heap_ (w_disp w) !! r = Some c -> live (w_disp w) r c -> wc_needReWatch c = false -> wc_snapshotRevision c <= g_snapshot w r ->
  g_pushed w r = (X ++ Y) ++ q -> (forall e, e ∈ X ++ Y -> settled (g_delivered w r) (g_snapshot w r) e) ->
  g_delivered w r `sublist_of` X ++ Y -> acct_neutral f ->
  (k' = WIdle \/ exists b, k' = WNotifying r b /\ b_maxEventRevision b = max_revision (b_events b) /\ exists rest, q = b_events b ++ rest) ->
  acct_inv (with_worker j k' (with_disp (upd r f (upd r (set_queue q) (w_disp w))) w)).
Proof.
  intros Hown Hinv Hj Ec Hl En K3 K1 HXY HD Hf Hk'.
  assert (Hks : forall b, sending r (<[j := k']> (w_workers w)) b ->
    b_maxEventRevision b = max_revision (b_events b) /\ exists rest, q = b_events b ++ rest).
  { intros b Hb. apply (sent_self _ _ _ _ _ _ _ _ Hown Hj eq_refl) in Hb as [Heq _].
    destruct Hk' as [->|(b' & -> & H)]; [done|]. by injection Heq as <-. }
  assert (Hkn : forall b, ~ sent r (<[j := k']> (w_workers w)) b).
  { intros b Hb. apply (sent_self _ _ _ _ _ _ _ _ Hown Hj eq_refl) in Hb as [Heq _].
    destruct Hk' as [->|(b' & -> & H)]; done. }
  apply (acct_point w _ r); try done; cbn [w_disp w_workers with_worker with_disp g_delivered g_snapshot].
  - intros r' Hne. rewrite !upd_ne by done. split_and!; try done.
    intros b. destruct (sent_other (w_workers w) j (WReady r) k' r r' b Hj eq_refl) as [S1 S2]; [|done|].
    + destruct Hk' as [->|(b' & -> & H)]; [by right|by left].
    + by rewrite S1, S2.
  - intros H%upd_None%upd_None. done.
  - apply (a_sublist _ Hinv).
  - intros b Hb. destruct (Hks b Hb) as (_ & rest & Hr). rewrite K1, Hr. apply sublist_app; [done|]. by apply sublist_inserts_r.
  - intros b [Hb|Hb]; [by apply Hks|by destruct (Hkn b)].
  - intros c' Hc' _. apply upd_live in Hc' as (c1 & Hc1 & -> & _). cbn in Hc1.
    rewrite lookup_alter_eq, Ec in Hc1. injection Hc1 as <-.
    destruct (Hf (set_queue q c)) as (F1 & F2 & F3 & F4 & F5). split; [exists c; by rewrite F1|].
    exists (X ++ Y). rewrite F4, F5. cbn. split_and!; try done.
    + intros b Hb. by destruct (Hkn b).
    + intros b Hb. by apply Hks.
Qed.

Lemma acct_prepare w j r d o : world_own w -> acct_inv w -> w_workers w !! j = Some (WReady r) ->
  PrepareChannelEvents r (w_disp w) = (d, o) ->
  acct_inv (with_worker j (match o with Some b => WNotifying r b | None => WIdle end) (with_disp d w)).
Proof.
  intros Hown Hinv Hj Hp. unfold PrepareChannelEvents in Hp. rewrite (o_running _ _ _ Hown) in Hp. cbn [negb orb] in Hp.
  assert (Hidle : forall f, acct_neutral f -> acct_inv (with_worker j WIdle (with_disp (upd r f (w_disp w)) w))).
  { intros f Hf. apply (acct_worker w j (WReady r) WIdle r); try done; [by right|].
    apply dframe_upd; [apply Hf|]. intros c _ H1 H2. destruct (Hf c) as (? & ? & ? & ? & ?). split_and!; congruence || done. }
  assert (Hsame : acct_inv (with_worker j WIdle (with_disp (w_disp w) w))).
  { apply (acct_worker w j (WReady r) WIdle r); try done; [by right|by apply dframe_refl]. }
  destruct (heap_ (w_disp w) !! r) as [c|] eqn:Ec; [|by injection Hp as <- <-].
  destruct (wc_cancelled c) eqn:Ecc; [by injection Hp as <- <-|].
  destruct (is_empty (wc_queue c)); [injection Hp as <- <-; by apply Hidle|].
  destruct (wc_needReWatch c) eqn:En.
  { injection Hp as <- <-. set (b := {| b_events := _ |}).
    apply (acct_frame None w); try done; cbn [w_workers with_worker with_disp]; [by apply dframe_refl|..];
      intros r' b'; by apply (sent_insert _ _ (WReady r)). }
  destruct (wc_snapshotRevision c <=? 0) eqn:Es; [injection Hp as <- <-; by apply Hidle|].
  set (q := pop_through (wc_snapshotRevision c) (wc_queue c)) in *.
  destruct (pop_through_split (wc_snapshotRevision c) (wc_queue c)) as (Y & Hq & HY). fold q in Hq.
  assert (Hl : live (w_disp w) r c) by done.
  destruct (a_chan _ Hinv r c Hl En) as (X & K1 & K2 & K3 & K4 & K5 & K6).
  assert (HD : g_delivered w r `sublist_of` X ++ Y).
  { apply sublist_inserts_r, K5. intros b Hb. by apply (sent_held _ _ _ _ _ _ _ Hown Hj eq_refl) in Hb as [? _]. }
  assert (HXY : forall e, e ∈ X ++ Y -> settled (g_delivered w r) (g_snapshot w r) e).
  { intros e [He|He]%elem_of_app; [by apply K2|right; left]. specialize (HY e He). lia. }
  rewrite Hq, app_assoc in K1.
  assert (Hw := fun k' f => acct_trim w j r c X Y q k' f Hown Hinv Hj Ec Hl En K3 K1 HXY HD).
  destruct (is_empty q); injection Hp as <- <-.
  - apply Hw; [done|by left].
  - replace (upd r (set_queue q) (w_disp w)) with (upd r id (upd r (set_queue q) (w_disp w))).
    + apply Hw; [done|]. right. eexists. split; [done|]. split; [done|]. apply collect_batch_prefix.
    + unfold upd at 1, set_heap. rewrite alter_id by done. done.
Qed.

Lemma with_disp_id w : with_disp (w_disp w) w = w.
Proof. by destruct w. Qed.

Lemma acct_notify w j r b status : world_own w -> acct_inv w -> w_workers w !! j = Some (WNotifying r b) ->
  acct_inv (note_delivered r b status (with_worker j (WNotified r b status) w)).
Proof.
  intros Hown Hinv Hj. unfold note_delivered.
  destruct (b_needReWatch b) eqn:En; [rewrite andb_false_r|rewrite andb_true_r; destruct status as [[]|code]; cbn [is_ok]].
  - apply (acct_frame None w); try done; cbn [w_workers with_worker]; [by apply dframe_refl|..];
      intros r' b'; apply (sent_insert _ _ (WNotifying r b)); cbn; try done; by destruct status.
  - assert (Hsnd : sending r (w_workers w) b) by (split; eauto).
    set (ws' := <[j := WNotified r b (Ok ())]> (w_workers w)).
    assert (Hs : sent r ws' b).
    { split; [done|]. exists j. unfold ws'. apply list_lookup_insert_eq. eauto using lookup_lt_Some. }
    assert (Hs' : forall b', sent r ws' b' -> b' = b).
    { intros b' Hb'. apply (sent_self _ _ _ _ _ _ _ _ Hown Hj eq_refl) in Hb' as [Heq _]. by injection Heq. }
    assert (Hn : forall b', ~ sending r ws' b').
    { intros b' Hb'. by apply (sent_self _ _ _ _ _ _ _ _ Hown Hj eq_refl) in Hb' as [Heq _]. }
    apply (acct_point w _ r); try done; cbn [w_disp w_workers with_worker g_delivered g_snapshot]; rewrite ?gupd_eq; fold ws'.
    + intros r' Hne. rewrite gupd_ne by done. split_and!; try done. intros b'.
      destruct (sent_other (w_workers w) j (WNotifying r b) (WNotified r b (Ok ())) r r' b' Hj eq_refl) as [S1 S2]; [by left|done|].
      unfold ws'. by rewrite S1, S2.
    + intros Hnone. exfalso. by destruct (fresh_unheld _ _ _ r b Hown Hnone) as [_ []].
    + by apply (a_sending _ Hinv).
    + intros b' Hb'. by destruct (Hn b').
    + intros b' [Hb'|Hb']; [by destruct (Hn b')|]. rewrite (Hs' b' Hb'). apply (a_batch _ Hinv r). by left.
    + intros c Hl Hnr. split; [by exists c|]. destruct (a_chan _ Hinv r c Hl Hnr) as (X & K1 & K2 & K3 & K4 & K5 & K6).
      assert (HD : g_delivered w r `sublist_of` X).
      { apply K5. intros b' Hb'. by apply (sent_held _ _ _ _ _ _ _ Hown Hj eq_refl) in Hb' as [? _]. }
      exists X. split_and!; try done.
      * intros e He. eapply settled_mono; [by apply K2| |done]. intros x Hx. apply elem_of_app. by left.
      * intros b' Hb'. rewrite (Hs' b' Hb'). split_and!; [by apply K6|by apply sublist_app|].
        intros e He. rewrite elem_of_app. by right.
      * intros Hno. by destruct (Hno b).
      * intros b' Hb'. by destruct (Hn b').
  - pose proof (acct_worker w j (WNotifying r b) (WNotified r b (Err code)) r (w_disp w) Hown Hinv Hj) as H.
    rewrite with_disp_id in H. apply H; try done; [by left|by apply dframe_refl].
Qed.

(** A commit: whatever happens to the channel, the batch is gone. *)
Lemma acct_commit_point w j r b status k' d : world_own w -> acct_inv w ->
  w_workers w !! j = Some (WNotified r b status) -> (worker_ref k' = Some r \/ worker_ref k' = None) ->
  (forall b, k' <> WNotified r b (Ok tt) /\ k' <> WNotifying r b) ->
  pendingQueue_ d = pendingQueue_ (w_disp w) ->
  (forall r', r' <> r -> heap_ d !! r' = heap_ (w_disp w) !! r') ->
  (heap_ d !! r = None -> heap_ (w_disp w) !! r = None) ->
  (forall c', live d r c' -> wc_needReWatch c' = false -> exists c, live (w_disp w) r c /\ wc_needReWatch c = false /\
     wc_watchId c' = wc_watchId c /\ wc_snapshotRevision c' = wc_snapshotRevision c /\
     status = Ok tt /\ b_needReWatch b = false /\ wc_queue c' = pop_through (b_maxEventRevision b) (wc_queue c)) ->
  acct_inv (with_worker j k' (with_disp d w)).
Proof.
  intros Hown Hinv Hj Hk' Hks Hp Ho Hn Hc.
  assert (Hns : forall b', ~ sent r (<[j := k']> (w_workers w)) b' /\ ~ sending r (<[j := k']> (w_workers w)) b').
  { intros b'. destruct (Hks b'). split; intros Hb';
      apply (sent_self _ _ _ _ _ _ _ _ Hown Hj eq_refl) in Hb' as [Heq _]; done. }
  apply (acct_point w _ r); try done; cbn [w_disp w_workers with_worker with_disp g_delivered g_snapshot].
  - intros r' Hne. rewrite Ho by done. split_and!; try done. intros b'.
    destruct (sent_other (w_workers w) j _ k' r r' b' Hj eq_refl Hk' Hne) as [S1 S2]. by rewrite S1, S2.
  - intros Hnone. by split_and!; [apply Hn|..].
  - apply (a_sublist _ Hinv).
  - intros b' Hb'. by destruct (Hns b').
  - intros b' [Hb'|Hb']; by destruct (Hns b').
  - intros c' Hl' Hnr'. destruct (Hc c' Hl' Hnr') as (c & Hl & Hnr & E1 & E2 & -> & Hb & E3). split; [by exists c|].
    assert (Hs : sent r (w_workers w) b) by (split; eauto).
    destruct (a_chan _ Hinv r c Hl Hnr) as (X & K1 & K2 & K3 & K4 & K5 & K6).
    destruct (K4 b Hs) as ((rest & Hq) & HD & Hin).
    assert (Hpop : exists Z, rest = Z ++ wc_queue c' /\
      (forall e, e ∈ Z -> exists e', e' ∈ b_events b /\ we_revision e' = we_revision e)).
    { rewrite E3, Hq, (a_batch _ Hinv r b) by by right. apply pop_batch.
      - pose proof (a_pushed _ Hinv r) as Hi. rewrite K1, Hq in Hi. by apply increasing_app in Hi as (_ & ? & _).
      - intros e He. apply (a_pushed_range _ Hinv r). rewrite K1, Hq. apply elem_of_app. by right. }
    destruct Hpop as (Z & HZ & Hsame).
    exists (X ++ b_events b ++ Z). rewrite E2. split_and!; try done.
    + rewrite K1, Hq, <-!app_assoc. do 2 f_equal. exact HZ.
    + intros e [He|[He|He]%elem_of_app]%elem_of_app; [by apply K2|left; by apply Hin|].
      destruct (Hsame e He) as (e' & He' & Er). right. right. exists e'. split; [by apply Hin|done].
    + intros b' Hb'. by destruct (Hns b').
    + intros _. rewrite app_assoc. by apply sublist_inserts_r.
    + intros b' Hb'. by destruct (Hns b').
Qed.

Lemma RemoveRewatch_effect d ws r c : own_inv None d ws -> live d r c ->
  heap_ (RemoveRewatchRequiredWatcher (wc_watchId c) (wc_watcherAddr c) d) = alter set_cancelled r (heap_ d) /\
  pendingQueue_ (RemoveRewatchRequiredWatcher (wc_watchId c) (wc_watcherAddr c) d) = pendingQueue_ d.
Proof.
  intros Hinv Hl. unfold RemoveRewatchRequiredWatcher.
  destruct (registry_cancel_frame (wc_watchId c) (wc_watcherAddr c) d (o_registry _ _ _ Hinv)) as (reg & -> & _).
  unfold RemoveChannel. cbn [channels_ set_registry]. rewrite (o_live _ _ _ Hinv r c Hl).
  by destruct (reverse_index_frame r (CancelChannel r (set_registry reg d))) as [idx ->].
Qed.

Lemma acct_commit w j r b status d h : world_own w -> acct_inv w ->
  w_workers w !! j = Some (WNotified r b status) -> CommitChannelEvents r b status (w_disp w) = (d, h) ->
  acct_inv (with_worker j (after_handle r h) (with_disp d w)).
Proof.
  intros Hown Hinv Hj Hp.
  assert (Hk : forall h, (worker_ref (after_handle r h) = Some r \/ worker_ref (after_handle r h) = None) /\
    (forall b, after_handle r h <> WNotified r b (Ok tt) /\ after_handle r h <> WNotifying r b))
    by (intros []; cbn; eauto).
  unfold CommitChannelEvents in Hp. rewrite (o_running _ _ _ Hown) in Hp. cbn [negb orb] in Hp.
  destruct (heap_ (w_disp w) !! r) as [c|] eqn:Ec.
  2: { injection Hp as <- <-. apply (acct_commit_point w j r b status); try done; try apply (Hk NONE).
       intros c' [H _]. congruence. }
  destruct (wc_cancelled c) eqn:Ecc.
  { injection Hp as <- <-. apply (acct_commit_point w j r b status); try done; try apply (Hk NONE).
    intros c' [H1 H2]. congruence. }
  assert (Hl : live (w_disp w) r c) by done.
  assert (Hrem : acct_inv (with_worker j WIdle (with_disp
    (RemoveRewatchRequiredWatcher (wc_watchId c) (wc_watcherAddr c) (w_disp w)) w))).
  { destruct (RemoveRewatch_effect _ _ r c Hown Hl) as [Eh Ep].
    apply (acct_commit_point w j r b status); try done; try apply (Hk NONE).
    - intros r' Hne. by rewrite Eh, lookup_alter_ne.
    - by rewrite Eh, lookup_alter_eq, fmap_None.
    - intros c' [H1 H2]. rewrite Eh, lookup_alter_eq, Ec in H1. by simplify_option_eq. }
  destruct status as [[]|code].
  2: { assert (Hret : acct_inv (with_worker j (WRetry r) (with_disp (w_disp w) w))).
       { apply (acct_worker w j (WNotified r b (Err code)) (WRetry r) r); try done; [by left|by apply dframe_refl]. }
       destruct code; by injection Hp as <- <-. }
  destruct (b_needReWatch b) eqn:En; [by injection Hp as <- <-|].
  set (q := pop_through (b_maxEventRevision b) (wc_queue c)) in *.
  assert (Hpop : forall h f, (forall c, wc_watchId (f c) = wc_watchId c /\ wc_cancelled (f c) = wc_cancelled c /\
      wc_needReWatch (f c) = wc_needReWatch c /\ wc_queue (f c) = wc_queue c /\ wc_snapshotRevision (f c) = wc_snapshotRevision c) ->
      acct_inv (with_worker j (after_handle r h)
        (with_disp (upd r f (upd r (fun c => set_queue q (set_retryDelayMs 0 c)) (w_disp w))) w))).
  { intros h' f Hf. apply (acct_commit_point w j r b (Ok ())); try done; try apply (Hk h').
    - intros r' Hne. by rewrite !upd_ne.
    - by intros ?%upd_None%upd_None.
    - intros c' Hc' Hn. apply upd_live in Hc' as (c1 & Hc1 & -> & _). cbn in Hc1.
      rewrite lookup_alter_eq, Ec in Hc1. injection Hc1 as <-.
      destruct (Hf (set_queue q (set_retryDelayMs 0 c))) as (F1 & F2 & F3 & F4 & F5).
      exists c. rewrite F1, F4, F5. rewrite F3 in Hn. by split_and!. }
  destruct (is_empty q); injection Hp as <- <-; [by apply (Hpop NONE)|].
  replace (upd r (fun c => set_queue q (set_retryDelayMs 0 c)) (w_disp w))
    with (upd r id (upd r (fun c => set_queue q (set_retryDelayMs 0 c)) (w_disp w))); [by apply (Hpop READY_AGAIN)|].
  unfold upd at 1, set_heap. by rewrite alter_id.
Qed.

(** ** The fan-out thread keeps the accounting *)

(** The fan-out thread moves on to fewer watchers. *)
Lemma acct_tail w e x ws : acct_inv w -> w_visiting w = Some (e, x :: ws) -> acct_inv (with_fan (w_batch w) (Some (e, ws)) w).
Proof.
  intros [A2 A3 A4 A5 A6 A7 A8 A9 A10 A11 A12] Hv. destruct (A7 _ _ Hv) as (V1 & V2 & V3).
  assert (Ef : fan_pending (with_fan (w_batch w) (Some (e, ws)) w) = fan_pending w) by (unfold fan_pending; cbn; by rewrite Hv).
  split; rewrite ?Ef; try done. cbn. intros e' ws' [= <- <-]. split_and!; [by apply NoDup_cons in V1 as [_ ?]|done|].
  intros r c y Hl Hn Hid Hy. eapply V3; [done|done|by right|done].
Qed.

(** Appending the visited event to the queue of the visited watcher. *)
Lemma acct_push w e x ws r c : world_own w -> acct_inv w -> w_visiting w = Some (e, x :: ws) ->
  channels_ (w_disp w) !! we_watchId x = Some r -> live (w_disp w) r c -> wc_needReWatch c = false ->
  acct_inv (note_pushed (Some r) e (with_fan (w_batch w) (Some (e, ws))
    (with_disp (upd r (set_queue (wc_queue c ++ [e])) (w_disp w)) w))).
Proof.
  intros Hown Hinv Hv Hr Hl Hn. pose proof Hl as [Hc Hcc].
  assert (Hid : wc_watchId c = we_watchId x).
  { destruct (o_map _ _ _ Hown _ _ Hr) as (c' & [Hc' _] & <-). congruence. }
  destruct Hinv as [A2 A3 A4 A5 A6 A7 A8 A9 A10 A11 A12]. destruct (A7 _ _ Hv) as (V1 & V2 & V3).
  apply NoDup_cons in V1 as [Vx Vnd].
  assert (He : e ∈ fan_pending w) by (unfold fan_pending; rewrite Hv; apply elem_of_app; left; by left).
  assert (Hlt : forall y, y ∈ g_pushed w r -> before y e).
  { intros y Hy. eapply (V3 r c); [done|done| |done]. rewrite Hid. by left. }
  set (w' := note_pushed _ _ _).
  assert (Ef : fan_pending w' = fan_pending w) by (unfold fan_pending; cbn; by rewrite Hv).
  assert (HP : forall r' y, y ∈ g_pushed w' r' -> y ∈ g_pushed w r' \/ (r' = r /\ y = e)).
  { intros r' y. cbn. unfold gupd. case_decide as E; [subst; rewrite elem_of_snoc; naive_solver|by left]. }
  assert (Hlive : forall r' c', live (w_disp w') r' c' -> r' <> r -> live (w_disp w) r' c').
  { intros r' c' [H1 H2] Hne. cbn in H1. rewrite lookup_alter_ne in H1 by done. done. }
  split; rewrite ?Ef; try done.
  - intros r'. cbn. unfold gupd. case_decide as E; [|done]. subst. apply increasing_app. split_and!; [done|repeat constructor|].
    intros y y' Hy ->%list_elem_of_singleton. by apply Hlt.
  - intros r' y [Hy|[-> ->]]%HP; [by eapply A5|by apply A3].
  - intros r' y y' [Hy|[-> ->]]%HP Hy'; cbn in Hy'; [by eapply A6|].
    unfold fan_pending in A2. rewrite Hv in A2. apply increasing_app in A2 as (_ & _ & A2). apply A2; [by left|done].
  - intros e' ws' [= <- <-]. split_and!; [done| |].
    + intros r' y [Hy|[-> ->]]%HP; [by eapply V2|done].
    + intros r' c' y Hl' Hn' Hin [Hy|[-> ->]]%HP.
      * destruct (decide (r' = r)) as [->|Hne]; [by apply Hlt|]. eapply V3; [by apply Hlive|done|by right|done].
      * exfalso. apply Vx. destruct Hl' as [H1 _]. cbn in H1. rewrite lookup_alter_eq, Hc in H1.
        injection H1 as <-. cbn in Hin. by rewrite Hid in Hin.
  - intros r' Hr'. cbn in Hr' |- *. destruct (decide (r' = r)) as [->|Hne].
    + rewrite lookup_alter_eq, Hc in Hr'. done.
    + rewrite gupd_ne by done. rewrite lookup_alter_ne in Hr' by done. by apply A8.
  - intros r'. cbn. unfold gupd. case_decide as E; [subst; by apply sublist_inserts_r|done].
  - intros r' b Hb. cbn. unfold gupd. case_decide as E; [subst; by apply sublist_inserts_r, A10|by apply A10].
  - intros r' c' Hl' Hn'. cbn [g_pushed g_delivered g_snapshot w_workers w' note_pushed with_fan with_disp].
    destruct (decide (r' = r)) as [->|Hne]; [|rewrite gupd_ne by done; by apply A12; [apply Hlive|]].
    rewrite gupd_eq. destruct Hl' as [H1 _]. cbn in H1. rewrite lookup_alter_eq, Hc in H1. injection H1 as <-.
    destruct (A12 r c Hl Hn) as (X & K1 & K2 & K3 & K4 & K5 & K6). exists X. cbn. split_and!; try done.
    + by rewrite K1, app_assoc.
    + intros b Hb. destruct (K4 b Hb) as ((rest & ->) & H2 & H3). split; [|done]. exists (rest ++ [e]). by rewrite app_assoc.
    + intros b Hb. destruct (K6 b Hb) as (rest & ->). exists (rest ++ [e]). by rewrite app_assoc.
Qed.

Lemma Schedule_pending r d : pendingQueue_ (ScheduleChannelLocked r d) = pendingQueue_ d.
Proof. unfold ScheduleChannelLocked. by repeat case_match. Qed.

Lemma ScheduleAll_pending d : pendingQueue_ (ScheduleAllChannelsForRewatch d) = pendingQueue_ d.
Proof.
  unfold ScheduleAllChannelsForRewatch. generalize ((map_to_list (channels_ d)).*2) as l. intros l. revert d.
  induction l as [|r l IH]; intros d; cbn; [done|]. rewrite IH. repeat case_match; try done. by rewrite Schedule_pending.
Qed.

Lemma RemoveChannel_pending id d : pendingQueue_ (RemoveChannel id d) = pendingQueue_ d.
Proof.
  unfold RemoveChannel. case_match; [|done]. by match goal with |- context [RemoveReverseIndexLocked ?r ?x] =>
    destruct (reverse_index_frame r x) as [idx ->] end.
Qed.

Lemma registry_cancel_pending id addr d : pendingQueue_ (registry_cancel id addr d) = pendingQueue_ d.
Proof. unfold registry_cancel. by case_match. Qed.

Lemma foldl_pending {A} (f : WatchDispatcher -> A -> WatchDispatcher) l d :
  (forall d x, pendingQueue_ (f d x) = pendingQueue_ d) -> pendingQueue_ (foldl f d l) = pendingQueue_ d.
Proof. intros Hf. revert d. induction l as [|x l IH]; intros d; cbn; [done|]. by rewrite IH, Hf. Qed.

(** A step that changes only the dispatcher, within the frame. *)
Lemma acct_disp w d : world_own w -> acct_inv w -> dframe (w_disp w) d -> pendingQueue_ d = pendingQueue_ (w_disp w) ->
  acct_inv (with_disp d w).
Proof. intros Hown Hinv Hf Hp. by apply (acct_frame None w). Qed.

Lemma acct_visit w e x ws : world_own w -> acct_inv w -> w_visiting w = Some (e, x :: ws) ->
  acct_inv (note_pushed (pushes_to x (w_disp w)) e
    (with_fan (w_batch w) (Some (e, ws)) (with_disp (FanOut_visit e x (w_disp w)) w))).
Proof.
  intros Hown Hinv Hv. pose proof (acct_tail _ _ _ _ Hinv Hv) as Ht.
  assert (Hskip : forall d, dframe (w_disp w) d -> pendingQueue_ d = pendingQueue_ (w_disp w) ->
    acct_inv (with_fan (w_batch w) (Some (e, ws)) (with_disp d w))).
  { intros d Hf Hp. exact (acct_disp (with_fan (w_batch w) (Some (e, ws)) w) d Hown Ht Hf Hp). }
  unfold pushes_to, FanOut_visit, FanOut_channel.
  destruct (channels_ (w_disp w) !! we_watchId x) as [r|] eqn:Er; [|by apply Hskip; [apply dframe_refl|]].
  destruct (heap_ (w_disp w) !! r) as [c|] eqn:Ec; [|by apply Hskip; [apply dframe_refl|]].
  destruct (wc_cancelled c) eqn:Ecc; cbn [orb negb andb]; [by apply Hskip; [apply dframe_refl|]|].
  destruct (wc_needReWatch c) eqn:En; cbn [orb negb andb]; [by apply Hskip; [apply dframe_refl|]|].
  destruct (length (wc_queue c) <? wc_backpressureLimit c)%nat.
  - pose proof (acct_push w e x ws r c Hown Hinv Hv Er (conj Ec Ecc) En) as Hpush.
    eapply (acct_frame (Some r)); [|exact Hpush|..]; try done; cbn [note_pushed with_fan with_disp w_disp w_workers].
    + by apply own_upd.
    + apply dframe_Schedule.
    + by rewrite Schedule_pending.
  - apply Hskip; [|by rewrite Schedule_pending]. eapply dframe_trans; [|apply dframe_Schedule]. by apply dframe_upd.
Qed.

(** A step of the fan-out thread or a producer on the pending events. *)
Lemma acct_pending w w' : acct_inv w ->
  heap_ (w_disp w') = heap_ (w_disp w) -> w_workers w' = w_workers w -> g_pushed w' = g_pushed w ->
  g_delivered w' = g_delivered w -> g_snapshot w' = g_snapshot w ->
  (forall e, e ∈ g_enqueued w -> e ∈ g_enqueued w') -> increasing (fan_pending w') ->
  (forall e, e ∈ fan_pending w' -> 0 < we_revision e /\ e ∈ g_enqueued w') ->
  (forall r e e', e ∈ g_pushed w r -> e' ∈ w_batch w' ++ pendingQueue_ (w_disp w') -> before e e') ->
  (forall e ws, w_visiting w' = Some (e, ws) -> NoDup (we_watchId <$> ws) /\
    (forall r x, x ∈ g_pushed w r -> we_revision x <= we_revision e) /\
    (forall r c x, live (w_disp w) r c -> wc_needReWatch c = false -> wc_watchId c ∈ we_watchId <$> ws ->
       x ∈ g_pushed w r -> before x e)) ->
  acct_inv w'.
Proof.
  intros [A2 A3 A4 A5 A6 A7 A8 A9 A10 A11 A12] Eh Ew EP ED ES El Hi Hr Ho Hv.
  unfold live in *. split; unfold live; rewrite ?Eh, ?Ew, ?EP, ?ED, ?ES; try done.
  intros r e He. destruct (A5 r e He). auto.
Qed.

Lemma acct_enqueue w e : acct_inv w -> 0 < we_revision e -> (forall x, x ∈ g_enqueued w -> before x e) ->
  acct_inv (note_enqueued (g_enqueued w ++ [e]) (with_disp (Enqueue e (w_disp w)) w)).
Proof.
  intros Hinv Hpos Hlt. pose proof Hinv as [A2 A3 A4 A5 A6 A7 A8 A9 A10 A11 A12].
  assert (Hpq : pendingQueue_ (Enqueue e (w_disp w)) = pendingQueue_ (w_disp w) \/
    pendingQueue_ (Enqueue e (w_disp w)) = pendingQueue_ (w_disp w) ++ [e]) by (unfold Enqueue; case_match; eauto).
  assert (Hh : heap_ (Enqueue e (w_disp w)) = heap_ (w_disp w)) by (unfold Enqueue; by case_match).
  apply (acct_pending w); try done; cbn [note_enqueued with_disp g_enqueued w_disp w_batch w_visiting].
  - intros y Hy. apply elem_of_app. by left.
  - unfold fan_pending in *. cbn [note_enqueued with_disp w_disp w_batch w_visiting]. destruct Hpq as [->|Eq]; [done|].
    rewrite Eq, !app_assoc. rewrite !app_assoc in A2. apply increasing_app. split_and!; [done|repeat constructor|].
    intros y y' Hy ->%list_elem_of_singleton. rewrite <-app_assoc in Hy. apply Hlt, (A3 y Hy).
  - unfold fan_pending in *. cbn [note_enqueued with_disp w_disp w_batch w_visiting]. intros y Hy.
    assert (Hy' : y ∈ (match w_visiting w with Some (e, _) => [e] | None => [] end ++ w_batch w ++ pendingQueue_ (w_disp w)) \/ y = e).
    { destruct Hpq as [Eq|Eq]; rewrite Eq in Hy; [by left|]. rewrite !app_assoc, elem_of_snoc in Hy. by rewrite <-app_assoc in Hy. }
    rewrite elem_of_snoc. destruct Hy' as [Hy'| ->]; [destruct (A3 y Hy')|]; auto.
  - intros r y y' Hy Hy'.
    assert (H : y' ∈ w_batch w ++ pendingQueue_ (w_disp w) \/ y' = e).
    { destruct Hpq as [Eq|Eq]; rewrite Eq in Hy'; [by left|]. by rewrite app_assoc, elem_of_snoc in Hy'. }
    destruct H as [H| ->]; [by eapply A6|]. apply Hlt, (A5 r y Hy).
Qed.

Lemma acct_fan w : acct_inv w -> w_visiting w = None ->
  (w_batch w = [] -> acct_inv (with_fan (FanOut_take (w_disp w)).2 None (with_disp (FanOut_take (w_disp w)).1 w))) /\
  (forall e b ws, w_batch w = e :: b -> NoDup (we_watchId <$> ws) -> acct_inv (with_fan b (Some (e, ws)) w)).
Proof.
  intros Hinv Hv. pose proof Hinv as [A2 A3 A4 A5 A6 A7 A8 A9 A10 A11 A12].
  unfold fan_pending in A2, A3. rewrite Hv in A2, A3. split.
  - intros Hb. rewrite Hb in *. cbn [app] in A2, A3, A6. unfold FanOut_take. cbn [fst snd].
    generalize (Nat.min MAX_WATCH_EVENTS_PER_FAN_OUT (length (pendingQueue_ (w_disp w)))) as n. intros n.
    apply (acct_pending w); try done; unfold fan_pending; cbn; rewrite ?take_drop; done.
  - intros e b ws Hb Hnd. rewrite Hb in *.
    assert (Hlt : forall r x, x ∈ g_pushed w r -> before x e) by (intros r x Hx; eapply A6; [done|by left]).
    apply (acct_pending w); try done; cbn.
    + intros r x x' Hx Hx'. eapply A6; [done|]. by right.
    + intros e' ws' [= <- <-]. split_and!; [done|intros r x Hx; apply (Hlt r x Hx)|eauto].
Qed.

Lemma wait_frame i now d d' o : WaitForReadyChannel_pass i now d = (d', o) ->
  heap_ d' = heap_ d /\ pendingQueue_ d' = pendingQueue_ d.
Proof.
  unfold WaitForReadyChannel_pass. destruct (dispatchChannelGroups_ d !! i) as [g|]; [|by intros [= <- _]].
  destruct (move_due _ _ _ _) as [retries ready]. destruct (pop_ready _ _) as [ready' o']. by intros [= <- _].
Qed.

Lemma acct_wait w j i now d o : world_own w -> acct_inv w -> w_workers w !! j = Some WIdle ->
  WaitForReadyChannel_pass i now (w_disp w) = (d, o) ->
  acct_inv (with_worker j (match o with Some r => WReady r | None => WIdle end) (with_disp d w)).
Proof.
  intros Hown Hinv Hj Hp. destruct (wait_frame _ _ _ _ _ Hp) as [Eh Ep].
  assert (Hk : no_batch (match o with Some r => WReady r | None => WIdle end)) by by destruct o.
  apply (acct_frame None w); try done; cbn [w_workers with_worker with_disp]; [by apply dframe_refl|..];
    intros r b; by apply (sent_insert _ _ WIdle).
Qed.

Lemma acct_retry w j r d o : world_own w -> acct_inv w -> w_workers w !! j = Some (WRetry r) ->
  PrepareRetry r (w_disp w) = (d, o) ->
  acct_inv (with_worker j (match o with Some delay => WInsert r delay | None => WIdle end) (with_disp d w)).
Proof.
  intros Hown Hinv Hj Hp.
  assert (Hf : dframe (w_disp w) d /\ pendingQueue_ d = pendingQueue_ (w_disp w)).
  { unfold PrepareRetry in Hp. destruct (heap_ (w_disp w) !! r) as [c|]; [|injection Hp as <- _; split; [by apply dframe_refl|done]].
    destruct (negb (running_ (w_disp w)) || wc_cancelled c); injection Hp as <- _; (split; [|done]);
      [by apply dframe_refl|by apply dframe_upd]. }
  destruct Hf as [Hf Hq]. apply (acct_worker w j (WRetry r) _ r); try done; destruct o; eauto.
Qed.

(** A worker hands its channel back without touching it. *)
Lemma acct_give_back w j k r d : world_own w -> acct_inv w -> w_workers w !! j = Some k -> worker_ref k = Some r ->
  (forall b, k <> WNotified r b (Ok tt)) -> heap_ d = heap_ (w_disp w) -> pendingQueue_ d = pendingQueue_ (w_disp w) ->
  acct_inv (with_worker j WIdle (with_disp d w)).
Proof.
  intros Hown Hinv Hj Hk Hn Eh Ep. apply (acct_worker w j k WIdle r); try done; [by right|by apply dframe_refl|].
  intros b Hb. by destruct (Hn b).
Qed.

Lemma step_acct w w' : step w w' -> world_own w -> acct_inv w -> acct_inv w'.
Proof.
  intros Hstep Hown Hinv.
  destruct Hstep as [k e addr rid reg id created Hmax Hreg|id addr|id addr|id|addr|addr scopes|id v|e Hpos Hlt|Hb Hv|Hv|e b Hb Hv
    |e x ws Hv|e Hv|j now d o Hj Hp|j r d o Hj Hp|j r b Hj Hcc|j r b status Hj|j r b status d h Hj Hp|j r Hj
    |j r d o Hj Hp|j r delay now c Hj Hc].
  - apply acct_disp; try done. by apply dframe_refl.
  - apply acct_disp; [done|done|apply dframe_registry_cancel|apply registry_cancel_pending].
  - apply acct_disp; [done|done| |].
    + apply dframe_Add. destruct (heap_ (w_disp w) !! nextRef_ (w_disp w)) eqn:E; [|done].
      pose proof (proj1 (o_next _ _ _ Hown (nextRef_ (w_disp w))) ltac:(by eexists)). lia.
    + unfold AddChannel, alloc. cbn zeta. cbn [channels_ pendingQueue_ set_channels]. case_match; [|done].
      by match goal with |- context [RemoveReverseIndexLocked ?r ?x] => destruct (reverse_index_frame r x) as [idx ->] end.
  - apply acct_disp; [done|done|apply dframe_Remove|apply RemoveChannel_pending].
  - apply acct_disp; [done|done|..]; unfold RemoveChannelsByWatcher; (case_match; [|by try apply dframe_refl]).
    + eapply dframe_trans; [apply (dframe_foldl (fun d i => registry_cancel i addr d)); intros; apply dframe_registry_cancel|].
      apply dframe_foldl. intros. apply dframe_Remove.
    + rewrite !foldl_pending; [done|intros; apply registry_cancel_pending|intros; apply RemoveChannel_pending].
  - apply acct_disp; [done|done|..]; unfold RemoveChannelsByWatcherInScopes; (case_match; [|by try apply dframe_refl]).
    + apply dframe_foldl. intros. eapply dframe_trans; [apply dframe_Remove|apply dframe_registry_cancel].
    + apply foldl_pending. intros. by rewrite registry_cancel_pending, RemoveChannel_pending.
  - by apply acct_snapshot.
  - by apply acct_enqueue.
  - by apply acct_fan.
  - apply acct_disp; [done|done|..]; unfold FanOut_overflow; (case_match; [|by try apply dframe_refl]).
    + eapply dframe_trans; [|apply dframe_ScheduleAll]. by apply dframe_refl.
    + by rewrite ScheduleAll_pending.
  - apply acct_fan; [done|done|done|]. apply NoDup_MatchWatchers, (o_registry _ _ _ Hown).
  - by apply acct_visit.
  - pose proof Hinv as [A2 A3 A4 A5 A6 A7 A8 A9 A10 A11 A12]. unfold fan_pending in A2, A3. rewrite Hv in A2, A3.
    apply increasing_app in A2 as (_ & A2 & _).
    apply (acct_pending w); try done. intros e' He'. apply A3, elem_of_app. by right.
  - by eapply acct_wait.
  - by apply acct_prepare.
  - rewrite <-(with_disp_id w) at 1. by eapply (acct_give_back w j (WNotifying r b) r).
  - by apply acct_notify.
  - by eapply acct_commit.
  - eapply (acct_give_back w j (WAgain r) r); try done; by case_match.
  - by apply acct_retry.
  - eapply (acct_give_back w j (WInsert r delay) r); try done; by case_match.
Qed.

Lemma initial_acct threads : acct_inv (initial_world threads).
Proof.
  assert (Hidle : forall r b, ~ sending r (w_workers (initial_world threads)) b /\ ~ sent r (w_workers (initial_world threads)) b).
  { intros r b. split; intros (_ & j & Hj); cbn [w_workers initial_world] in Hj;
      apply list_elem_of_lookup_2, list_elem_of_In, repeat_spec in Hj; done. }
  assert (Hnil : forall e : WatchEvent, ~ e ∈ []) by (intros e; apply not_elem_of_nil).
  split; cbn [initial_world g_enqueued g_pushed g_delivered g_snapshot w_batch w_visiting w_disp]; try done.
  - constructor.
  - intros e He. by destruct (Hnil e).
  - intros _. constructor.
  - intros _ e He. by destruct (Hnil e).
  - intros _ e e' He. by destruct (Hnil e).
  - intros r b Hb. by destruct (Hidle r b).
  - intros r b Hb. destruct (Hidle r b). naive_solver.
  - intros r c [Hc _]. cbn in Hc. by rewrite lookup_empty in Hc.
Qed.

Lemma reachable_acct threads w : (0 < threads)%nat -> reachable threads w -> world_own w /\ acct_inv w.
Proof.
  intros Ht Hr. unfold reachable in Hr.
  apply (rtc_ind_r (fun w => world_own w /\ acct_inv w)) in Hr; [done|split; [by apply initial_own|apply initial_acct]|].
  intros w1 w2 _ Hs [Ho Ha]. split; [by eapply step_own|by eapply step_acct].
Qed.

(** ** Retry delays *)

(** The delay before jitter after [n] consecutive failures. *)
Definition backoff (n : nat) : Z :=
  match n with O => 0 | S n => Z.min (INITIAL_RETRY_DELAY_MS * 2 ^ Z.of_nat n) MAX_RETRY_DELAY_MS end.

Lemma backoff_range n : INITIAL_RETRY_DELAY_MS <= backoff (S n) <= MAX_RETRY_DELAY_MS.
Proof.
  unfold backoff, INITIAL_RETRY_DELAY_MS, MAX_RETRY_DELAY_MS.
  pose proof (Z.pow_pos_nonneg 2 (Z.of_nat n) ltac:(lia) ltac:(lia)). lia.
Qed.

Lemma backoff_succ n : backoff (S (S n)) = Z.min (backoff (S n) * RETRY_DELAY_MULTIPLIER) MAX_RETRY_DELAY_MS.
Proof.
  unfold backoff, INITIAL_RETRY_DELAY_MS, MAX_RETRY_DELAY_MS, RETRY_DELAY_MULTIPLIER.
  rewrite Nat2Z.inj_succ, Z.pow_succ_r by lia. pose proof (Z.pow_pos_nonneg 2 (Z.of_nat n) ltac:(lia) ltac:(lia)). lia.
Qed.

Lemma PrepareRetry_backoff r d c n : live d r c -> running_ d = true -> wc_retryDelayMs c = backoff n ->
  exists delay, PrepareRetry r d = (upd r (set_retryDelayMs (backoff (S n))) d, Some delay) /\
    INITIAL_RETRY_DELAY_MS <= delay <= MAX_RETRY_DELAY_MS /\
    PERCENT_SCALE * Z.abs (delay - backoff (S n)) <= RETRY_JITTER_PERCENT * backoff (S n).
Proof.
  intros [Hc Hl] Hrun Hd. unfold PrepareRetry. rewrite Hc, Hl, Hrun. cbn [negb orb].
  assert (Hb : (if wc_retryDelayMs c =? 0 then INITIAL_RETRY_DELAY_MS
     else Z.min (wc_retryDelayMs c * RETRY_DELAY_MULTIPLIER) MAX_RETRY_DELAY_MS) = backoff (S n)).
  { rewrite Hd. destruct n as [|n]; [done|]. rewrite backoff_succ. pose proof (backoff_range n).
    rewrite (proj2 (Z.eqb_neq _ _)); [done|]. unfold INITIAL_RETRY_DELAY_MS in *. lia. }
  rewrite Hb. eexists. split; [done|]. pose proof (backoff_range n) as Hr.
  set (v := backoff (S n)) in *. set (x := Z.lxor _ _).
  unfold INITIAL_RETRY_DELAY_MS, MAX_RETRY_DELAY_MS, RETRY_JITTER_PERCENT, PERCENT_SCALE, RETRY_DELAY_MULTIPLIER in *.
  rewrite Z.quot_div_nonneg by lia.
  assert (Hdiv : 0 <= v * 20 / 100 <= 1000) by (split; [apply Z.div_pos; lia|apply Z.div_le_upper_bound; lia]).
  rewrite u64_small by lia. pose proof (Z.mod_pos_bound x (v * 20 / 100 * 2 + 1) ltac:(lia)).
  pose proof (Z.mul_div_le (v * 20) 100 ltac:(lia)). split; lia.
Qed.
