(* ===== verification/DispatcherClaims.v ===== *)
(** * What the dispatcher guarantees its watchers

    Corollaries of the invariants of DispatcherSafety for every reachable
    interleaving, with a concrete run as witness, and two behaviours that the
    code does not rule out: a global pending overflow while a notification is
    in flight strands the watcher, and events that share a revision are lost
    when they do not fit one batch. *)

From S2P Require Import Prelude Ordered MemoryKvStore WatchRegistry WatchDispatcher DispatcherSafety.

(** in every interleaving of producers, fan-out and workers, a channel
    that is not cancelled is held by at most one ready queue, retry queue or
    worker, and a channel with something to send (a re-watch notice, or queued
    events with the snapshot revision set) is held by exactly one: no lost
    wake-up, no concurrent dispatch of one channel. *)
Theorem dispatch_exclusive threads w r c :
  (0 < threads)%nat -> reachable threads w -> live (w_disp w) r c ->
  (holders r (w_disp w) (w_workers w) <= 1)%nat /\
  (has_work c -> holders r (w_disp w) (w_workers w) = 1%nat).
Proof.
  intros Ht Hr Hl. pose proof (reachable_own threads w Ht Hr) as Hown. split; [apply (o_le _ _ _ Hown)|].
  intros Hw. by rewrite (o_excl _ _ _ Hown r c Hl), (o_wake _ _ _ Hown r c Hl Hw).
Qed.

(** C19: with events enqueued in the order of their revisions (any number of
    distinct events may share one), what successful notifications delivered to a
    channel is a subsequence of what was fanned out to it, in revision order and
    each event once; and as long as the channel is neither cancelled nor waiting
    for a re-watch, every event fanned out to it has been delivered, is still
    queued, is not newer than a snapshot revision given to the channel, or shares
    its revision with a delivered event.  So an event that is alone at its
    revision is never lost. *)
Theorem dispatch_no_loss threads w r :
  (0 < threads)%nat -> reachable threads w ->
  increasing (g_delivered w r) /\ NoDup (g_delivered w r) /\ g_delivered w r `sublist_of` g_pushed w r /\
  (forall c e, live (w_disp w) r c -> wc_needReWatch c = false -> e ∈ g_pushed w r ->
     (e ∈ g_delivered w r \/ e ∈ wc_queue c \/ we_revision e <= g_snapshot w r \/
      exists e', e' ∈ g_delivered w r /\ we_revision e' = we_revision e) /\
     ((forall e', e' ∈ g_pushed w r -> we_revision e' = we_revision e -> e' = e) ->
      e ∈ g_delivered w r \/ e ∈ wc_queue c \/ we_revision e <= g_snapshot w r)).
Proof.
  intros Ht Hr. destruct (reachable_acct threads w Ht Hr) as [_ Ha].
  assert (Hi : increasing (g_delivered w r)) by (eapply increasing_sublist; [apply (a_sublist _ Ha)|apply (a_pushed _ Ha)]).
  split_and!; [done|by apply increasing_NoDup|apply (a_sublist _ Ha)|].
  intros c e Hl Hn He. destruct (a_chan _ Ha r c Hl Hn) as (X & HP & HX & _).
  assert (Hin : e ∈ wc_queue c \/ settled (g_delivered w r) (g_snapshot w r) e).
  { rewrite HP in He. apply elem_of_app in He as [He|He]; eauto. }
  split; [unfold settled in Hin; tauto|]. intros Hone. destruct Hin as [H|[H|[H|(e' & He' & Er)]]]; [tauto..|].
  left. rewrite <-(Hone e'); [done| |done]. eapply elem_of_sublist; [exact He'|apply (a_sublist _ Ha)].
Qed.

(** consecutive failed notifications of a channel back off exponentially:
    after [n] failures the stored delay is 100 ms doubled [n - 1] times and
    capped at 5 s, and the delay used stays within 20 % of it and within the
    two limits, whatever the watch id. *)
Theorem retry_backoff r d c n :
  live d r c -> running_ d = true -> wc_retryDelayMs c = backoff n ->
  exists d' delay c', PrepareRetry r d = (d', Some delay) /\
    live d' r c' /\ wc_retryDelayMs c' = backoff (S n) /\
    INITIAL_RETRY_DELAY_MS <= delay <= MAX_RETRY_DELAY_MS /\
    PERCENT_SCALE * Z.abs (delay - backoff (S n)) <= RETRY_JITTER_PERCENT * backoff (S n).
Proof.
  intros Hl Hrun Hd. destruct (PrepareRetry_backoff r d c n Hl Hrun Hd) as (delay & Hp & H1 & H2).
  destruct Hl as [Hc Hcc]. exists (upd r (set_retryDelayMs (backoff (S n))) d), delay, (set_retryDelayMs (backoff (S n)) c).
  split_and!; try done; try lia. split; [|done]. cbn. by rewrite lookup_alter_eq, Hc.
Qed.

(** ** A concrete run *)

Definition sample_event (key : string) (rev : Z) : WatchEvent :=
  {| we_type := EV_PUT; we_entry := {| kv_key := key; kv_value := "v"; kv_version := 1; kv_modRevision := rev |};
     we_revision := rev |}.

Definition sample_registry : WatchRegistry :=
  match Register "/t/a" "" "10.0.0.1:1" "" new_WatchRegistry with Ok (r, _, _) => r | Err _ => new_WatchRegistry end.

(** One watcher with its snapshot at revision 1, one newer event fanned out to
    it, and a worker that has prepared the batch. *)
Definition run0 : World := initial_world 1.
Definition run1 : World := with_disp (set_registry sample_registry (w_disp run0)) run0.
Definition run2 : World := with_disp (AddChannel 1 "10.0.0.1:1" (w_disp run1)) run1.
Definition run3 : World :=
  note_snapshot (channels_ (w_disp run2) !! 1) 1 (with_disp (SetSnapshotRevision 1 1 (w_disp run2)) run2).
Definition run4 : World := note_enqueued [sample_event "/t/a" 2] (with_disp (Enqueue (sample_event "/t/a" 2) (w_disp run3)) run3).
Definition run5 : World := with_fan (FanOut_take (w_disp run4)).2 None (with_disp (FanOut_take (w_disp run4)).1 run4).
Definition run6 : World :=
  with_fan [] (Some (sample_event "/t/a" 2, MatchWatchers "/t/a" (watchRegistry_ (w_disp run5)))) run5.
Definition sample_watcher : WatcherEntry :=
  {| we_watchId := 1; we_watcherAddr := "10.0.0.1:1"; we_registrationId := ""; we_active := true |}.
Definition run7 : World :=
  note_pushed (pushes_to sample_watcher (w_disp run6)) (sample_event "/t/a" 2)
    (with_fan (w_batch run6) (Some (sample_event "/t/a" 2, []))
       (with_disp (FanOut_visit (sample_event "/t/a" 2) sample_watcher (w_disp run6)) run6)).
Definition run8 : World := with_fan (w_batch run7) None run7.
Definition run9 : World :=
  with_worker 0 (match (WaitForReadyChannel_pass (group_of_worker 0 (w_disp run8)) 0 (w_disp run8)).2 with
                 | Some r => WReady r | None => WIdle end)
    (with_disp (WaitForReadyChannel_pass (group_of_worker 0 (w_disp run8)) 0 (w_disp run8)).1 run8).
Definition run10 : World :=
  with_worker 0 (match (PrepareChannelEvents 0 (w_disp run9)).2 with Some b => WNotifying 0 b | None => WIdle end)
    (with_disp (PrepareChannelEvents 0 (w_disp run9)).1 run9).

Lemma run8_reachable : reachable 1 run8.
Proof.
  unfold reachable.
  apply (rtc_l _ run0 run1); [apply (st_register run0 "/t/a" "" "10.0.0.1:1" "" sample_registry 1 true); vm_compute; reflexivity|].
  apply (rtc_l _ run1 run2); [apply st_add|].
  apply (rtc_l _ run2 run3); [apply st_snapshot|].
  apply (rtc_l _ run3 run4); [apply (st_enqueue run3 (sample_event "/t/a" 2)); [reflexivity|intros x Hx; by apply not_elem_of_nil in Hx]|].
  apply (rtc_l _ run4 run5); [apply st_take; vm_compute; reflexivity|].
  apply (rtc_l _ run5 run6); [apply (st_match run5 (sample_event "/t/a" 2) []); vm_compute; reflexivity|].
  apply (rtc_l _ run6 run7); [apply st_visit; vm_compute; reflexivity|].
  apply rtc_once. apply (st_visited run7 (sample_event "/t/a" 2)). vm_compute. reflexivity.
Qed.

Lemma run10_reachable : reachable 1 run10.
Proof.
  eapply rtc_r; [eapply rtc_r; [apply run8_reachable|]|].
  - apply (st_wait run8 0 0); [vm_compute; reflexivity|]. apply surjective_pairing.
  - apply (st_prepare run9 0 0); [vm_compute; reflexivity|]. apply surjective_pairing.
Qed.

Definition run11 : World := note_delivered 0 {| b_events := [sample_event "/t/a" 2]; b_needReWatch := false; b_maxEventRevision := 2 |}
  (Ok tt) (with_worker 0 (WNotified 0 {| b_events := [sample_event "/t/a" 2]; b_needReWatch := false; b_maxEventRevision := 2 |} (Ok tt)) run10).

Lemma run11_reachable : reachable 1 run11.
Proof. eapply rtc_r; [apply run10_reachable|]. apply st_notify. vm_compute. reflexivity. Qed.

Lemma dispatch_exclusive_witness :
  exists c, live (w_disp run8) 0%nat c /\ has_work c /\ holders 0 (w_disp run8) (w_workers run8) = 1%nat.
Proof.
  destruct (heap_ (w_disp run8) !! 0%nat) as [c|] eqn:E; [|vm_compute in E; discriminate E].
  assert (Hl : live (w_disp run8) 0%nat c) by (split; [exact E|vm_compute in E; injection E as <-; reflexivity]).
  assert (Hw : has_work c).
  { vm_compute in E. injection E as <-. split; [discriminate|right; reflexivity]. }
  exists c. split; [exact Hl|]. split; [exact Hw|].
  exact (proj2 (dispatch_exclusive 1 run8 0%nat c ltac:(lia) run8_reachable Hl) Hw).
Defined.

Lemma dispatch_no_loss_witness :
  sample_event "/t/a" 2 ∈ g_delivered run11 0%nat /\ increasing (g_delivered run11 0%nat) /\
  g_delivered run11 0%nat `sublist_of` g_pushed run11 0%nat.
Proof.
  destruct (dispatch_no_loss 1 run11 0%nat ltac:(lia) run11_reachable) as (H1 & _ & H2 & _).
  split; [|split; [exact H1|exact H2]].
  replace (g_delivered run11 0%nat) with [sample_event "/t/a" 2] by (vm_compute; reflexivity). apply list_elem_of_singleton. reflexivity.
Defined.

Lemma retry_backoff_witness : exists d' delay, PrepareRetry 0 (w_disp run8) = (d', Some delay) /\ 100 <= delay <= 5000.
Proof.
  destruct (heap_ (w_disp run8) !! 0%nat) as [c|] eqn:E; [|vm_compute in E; discriminate E].
  assert (Hl : live (w_disp run8) 0%nat c) by (split; [exact E|vm_compute in E; injection E as <-; reflexivity]).
  destruct (retry_backoff 0%nat (w_disp run8) c 0 Hl ltac:(vm_compute; reflexivity)
    ltac:(vm_compute in E; injection E as <-; reflexivity)) as (d' & delay & c' & Hp & _ & _ & Hd & _).
  exists d', delay. split; [exact Hp|exact Hd].
Defined.

(** ** A global overflow can strand a watcher

    [ScheduleAllChannelsForRewatch] queues a notice with revision 0.  A worker
    whose notification was in flight then commits its batch and pops every
    queued event up to its highest revision, the notice included. *)

(** An event newer than all enqueued so far. *)
Definition fresh_event (l : list WatchEvent) : WatchEvent := sample_event "/t/b" (max_revision l + 1).

Lemma fresh_event_step w : step w (note_enqueued (g_enqueued w ++ [fresh_event (g_enqueued w)])
  (with_disp (Enqueue (fresh_event (g_enqueued w)) (w_disp w)) w)).
Proof.
  destruct (max_revision_foldl 0 (g_enqueued w)) as (H0 & Hub & _). fold (max_revision (g_enqueued w)) in *.
  apply st_enqueue; [cbn; lia|]. intros x Hx. specialize (Hub x Hx). split; [cbn; lia|].
  intros ->. cbn in Hub. lia.
Qed.

Lemma fill_pending k : forall w, (length (pendingQueue_ (w_disp w)) + k = MAX_PENDING_EVENTS)%nat ->
  exists q l, length q = MAX_PENDING_EVENTS /\
    rtc step w (note_enqueued l (with_disp
      (set_pending q (pendingOverflow_ (w_disp w)) (droppedPendingEvents_ (w_disp w)) (w_disp w)) w)).
Proof.
  induction k as [|k IH]; intros w Hk.
  - exists (pendingQueue_ (w_disp w)), (g_enqueued w). split; [lia|]. destruct w as [[]]. apply rtc_refl.
  - set (e := fresh_event (g_enqueued w)).
    assert (He : Enqueue e (w_disp w) = set_pending (pendingQueue_ (w_disp w) ++ [e]) (pendingOverflow_ (w_disp w))
      (droppedPendingEvents_ (w_disp w)) (w_disp w)).
    { unfold Enqueue. rewrite (proj2 (Nat.leb_gt _ _)) by lia. done. }
    pose proof (fresh_event_step w) as Hs. fold e in Hs.
    rewrite He in Hs. match type of Hs with step w ?x => destruct (IH x) as (q & l & Hq & Hr) end.
    { cbn [w_disp note_enqueued with_disp pendingQueue_ set_pending]. rewrite length_app. cbn [length]. lia. }
    exists q, l. split; [done|]. eapply rtc_l; [exact Hs|exact Hr].
Qed.

Lemma flood w : pendingQueue_ (w_disp w) = [] ->
  exists q n l, rtc step w (note_enqueued l (with_disp (set_pending q true n (w_disp w)) w)).
Proof.
  intros Hp. destruct (fill_pending MAX_PENDING_EVENTS w) as (q & l & Hq & Hr); [by rewrite Hp|].
  eexists q, (u64 (droppedPendingEvents_ (w_disp w) + 1)), (l ++ [fresh_event l]).
  eapply rtc_r; [exact Hr|]. set (w1 := note_enqueued l _).
  pose proof (fresh_event_step w1) as Hs. cbn [g_enqueued w1 note_enqueued] in Hs.
  unfold Enqueue in Hs at 1. cbn [w_disp w1 note_enqueued with_disp pendingQueue_ set_pending] in Hs.
  rewrite (proj2 (Nat.leb_le _ _)) in Hs by lia. exact Hs.
Qed.

Definition stranded (r : ref) (w : World) : Prop :=
  exists c, live (w_disp w) r c /\ wc_needReWatch c = true /\ wc_queue c = [] /\ holders r (w_disp w) (w_workers w) = 0%nat.

(** C20: A reachable state with a registered watcher that waits for a re-watch notice
    which is in no queue and with no worker. *)
Lemma overflow_strands_watcher : exists w r, reachable 1 w /\ stranded r w.
Proof.
  destruct (flood run10 ltac:(vm_compute; reflexivity)) as (q & n & last & Hf).
  set (f0 := note_enqueued _ _) in Hf.
  set (b := {| b_events := [sample_event "/t/a" 2]; b_needReWatch := false; b_maxEventRevision := 2 |}).
  set (f1 := with_disp (FanOut_overflow (w_disp f0)) f0).
  set (f2 := note_delivered 0 b (Ok tt) (with_worker 0 (WNotified 0 b (Ok tt)) f1)).
  set (p := CommitChannelEvents 0 b (Ok tt) (w_disp f2)).
  set (f3 := with_worker 0 (after_handle 0 p.2) (with_disp p.1 f2)).
  exists f3, 0%nat. split.
  - unfold reachable. eapply rtc_r; [eapply rtc_r; [eapply rtc_r; [etransitivity; [exact run10_reachable|exact Hf]|]|]|].
    + apply (st_overflow f0). vm_compute. reflexivity.
    + apply (st_notify f1 0 0 b (Ok tt)). vm_compute. reflexivity.
    + apply (st_commit f2 0 0 b (Ok tt) p.1 p.2); [vm_compute; reflexivity|apply surjective_pairing].
  - destruct (heap_ (w_disp f3) !! 0%nat) as [c|] eqn:E; [|vm_compute in E; discriminate E].
    exists c. vm_compute in E. injection E as <-. repeat split; vm_compute; reflexivity.
Qed.

(** ** Events of one revision that exceed a batch

    A range delete emits all its events with one revision.  When they exceed a
    batch, committing the first batch drops the rest. *)
Lemma same_revision_loss r d c v :
  live d r c -> running_ d = true -> wc_needReWatch c = false -> 0 < wc_snapshotRevision c < v ->
  (forall e, e ∈ wc_queue c -> we_revision e = v) -> wc_queue c <> [] ->
  exists d1 b d2 c2, PrepareChannelEvents r d = (d1, Some b) /\ (length (b_events b) <= MAX_WATCH_EVENTS_PER_BATCH)%nat /\
    HandleChannelEvents (fun _ _ _ => Ok tt) r d = (d2, NONE) /\ live d2 r c2 /\ wc_queue c2 = [].
Proof.
  intros [Hc Hl] Hrun Hn Hs Hv Hne. unfold HandleChannelEvents, PrepareChannelEvents. rewrite Hc, Hl, Hrun, Hn. cbn [negb orb].
  destruct (wc_queue c) as [|e q] eqn:Eq; [done|]. cbn [is_empty].
  rewrite (proj2 (Z.leb_gt _ _)) by lia.
  rewrite pop_through_id by (intros e' He'; rewrite (Hv e' He'); lia). cbn [is_empty].
  set (n := Nat.min MAX_WATCH_EVENTS_PER_BATCH (length (e :: q))). set (events := collect_batch n 0 (e :: q)).
  assert (Hn1 : exists n', n = S n') by (exists (pred n); unfold n, MAX_WATCH_EVENTS_PER_BATCH; cbn [length]; lia).
  assert (He : e ∈ events).
  { unfold events. destruct Hn1 as [n' ->]. cbn [collect_batch]. case_match; by left. }
  assert (Hmax : v <= max_revision events).
  { rewrite <-(Hv e ltac:(by left)). by apply max_revision_foldl. }
  assert (Hpop : pop_through (max_revision events) (e :: q) = []).
  { rewrite <-(app_nil_r (e :: q)), pop_through_app; [done|]. intros e' He'. rewrite (Hv e' He'). lia. }
  do 2 eexists. eexists (upd r (set_dispatchQueued false) (upd r (fun c => set_queue [] (set_retryDelayMs 0 c))
    (upd r (set_queue (e :: q)) d))), (set_dispatchQueued false (set_queue [] (set_retryDelayMs 0 (set_queue (e :: q) c)))).
  split; [reflexivity|]. split; [cbn [b_events]; unfold events; pose proof (collect_batch_length n 0 (e :: q)); lia|].
  assert (Hc1 : heap_ (upd r (set_queue (e :: q)) d) !! r = Some (set_queue (e :: q) c)) by (cbn; by rewrite lookup_alter_eq, Hc).
  rewrite Hc1. unfold CommitChannelEvents. rewrite Hc1. cbn [running_ upd set_heap b_needReWatch b_maxEventRevision].
  change (wc_cancelled (set_queue (e :: q) c)) with (wc_cancelled c). rewrite Hrun, Hl. cbn [negb orb].
  change (wc_queue (set_queue (e :: q) c)) with (e :: q). rewrite Hpop. cbn [is_empty].
  split; [reflexivity|]. split; [|done]. split; [|done]. cbn. by rewrite !lookup_alter_eq, Hc.
Qed.
