(* ===== verification/CoordinatorStore.v ===== *)
(** * The coordinator store: store, schedule and watches composed

    src/datasystem/common/coordinator/coordinator_store.cpp.  The four
    components are reached through shared pointers; the operations first check
    that all four are set.  The dispatcher holds the same registry object as the
    store, which is the registry inside [watchDispatcher_].  The mutation
    callback logs the event, informs an observer and enqueues the event in the
    dispatcher; logging and observing do not change the modelled state.

    The sequential operations come first.  [coord_step] then interleaves their
    critical sections: after the key-value store has committed, the events and
    the [Schedule] call of an operation are still pending, and so are the
    callbacks of an expiry pass. *)

From S2P Require Import Prelude Ordered MemoryKvStore TtlManager WatchRegistry WatchDispatcher.

Record CoordinatorStore := {
  memKvStore_ : MemoryKvStore;
  watchDispatcher_ : WatchDispatcher;
  ttlManager_ : TtlManager
}.

(** The pointers of a store, possibly null. *)
Record Pointers := {
  pt_memKvStore : option MemoryKvStore;
  pt_watchDispatcher : option WatchDispatcher;
  pt_hasRegistry : bool;
  pt_ttlManager : option TtlManager
}.

Definition CheckInitialized (p : Pointers) : res CoordinatorStore :=
  match pt_memKvStore p, pt_hasRegistry p, pt_watchDispatcher p, pt_ttlManager p with
  | Some kv, true, Some d, Some t => Ok {| memKvStore_ := kv; watchDispatcher_ := d; ttlManager_ := t |}
  | _, _, _, _ => Err K_NOT_READY
  end.

Definition pointers_to (s : CoordinatorStore) : Pointers :=
  {| pt_memKvStore := Some (memKvStore_ s); pt_watchDispatcher := Some (watchDispatcher_ s); pt_hasRegistry := true;
     pt_ttlManager := Some (ttlManager_ s) |}.

(** The constructor: [BindCallbacks] installs the mutation callback when both
    ends exist; the expiry callback is [DeleteIfTtlExpired] of the store. *)
Definition BindCallbacks (p : Pointers) : Pointers :=
  {| pt_memKvStore := match pt_watchDispatcher p with
       | Some _ => SetMutationCallback <$> pt_memKvStore p
       | None => pt_memKvStore p end;
     pt_watchDispatcher := pt_watchDispatcher p; pt_hasRegistry := pt_hasRegistry p; pt_ttlManager := pt_ttlManager p |}.

Definition EnqueueAll (events : list WatchEvent) (d : WatchDispatcher) : WatchDispatcher :=
  foldl (fun d e => Enqueue e d) d events.

(** *** Operations; [now] is the clock reading of the schedule *)

Definition cs_Put (key value : string) (ttlMs expectedVersion expectedModRevision expectedGlobalRevision now : Z)
    (p : Pointers) : res (Pointers * Z * Z) :=
  s ← CheckInitialized p;
  '(kv, r, events) ← Put key value ttlMs expectedVersion expectedModRevision expectedGlobalRevision (memKvStore_ s);
  let d := EnqueueAll events (watchDispatcher_ s) in
  let t := if 0 <? ttlMs then Schedule key ttlMs (pr_revision r) (pr_ttlGeneration r) now (ttlManager_ s)
           else ttlManager_ s in
  Ok (pointers_to {| memKvStore_ := kv; watchDispatcher_ := d; ttlManager_ := t |}, pr_version r, pr_revision r).

Definition cs_Range (key rangeEnd : string) (knownModRevision : Z) (wantUnchanged : bool) (p : Pointers) : res RangeResult :=
  s ← CheckInitialized p;
  Ok (Range key rangeEnd knownModRevision wantUnchanged (memKvStore_ s)).

Definition cs_DeleteRange (key rangeEnd : string) (expectedModRevision : Z) (p : Pointers) : res (Pointers * Z * Z) :=
  s ← CheckInitialized p;
  '(kv, r, events) ← Delete key rangeEnd expectedModRevision (memKvStore_ s);
  Ok (pointers_to {| memKvStore_ := kv; watchDispatcher_ := EnqueueAll events (watchDispatcher_ s);
                     ttlManager_ := ttlManager_ s |}, dr_deleted r, dr_revision r).

Record WatchRangeResult := { wrr_watchId : Z; wrr_initialKvs : list KeyValueEntry; wrr_initialRevision : Z }.

Definition cs_WatchRange (key rangeEnd watcherAddr registrationId : string) (skipInitialKvs : bool) (p : Pointers)
    : res (Pointers * WatchRangeResult) :=
  s ← CheckInitialized p;
  '(reg, watchId, created) ← Register key rangeEnd watcherAddr registrationId (watchRegistry_ (watchDispatcher_ s));
  let d := set_registry reg (watchDispatcher_ s) in
  let d := if (created : bool) then AddChannel watchId watcherAddr d else d in
  let '(initialKvs, snapshotRevision) :=
    if skipInitialKvs then ([], CurrentRevision (memKvStore_ s))
    else let r := Range key rangeEnd 0 false (memKvStore_ s) in (rr_kvs r, rr_revision r) in
  let d := SetSnapshotRevision watchId snapshotRevision d in
  Ok (pointers_to {| memKvStore_ := memKvStore_ s; watchDispatcher_ := d; ttlManager_ := ttlManager_ s |},
      {| wrr_watchId := watchId; wrr_initialKvs := initialKvs; wrr_initialRevision := snapshotRevision |}).

(** Every id is processed; the first error is returned. *)
Definition cancel_watch_step (watcherAddr : string) (acc : WatchDispatcher * res unit) (watchId : Z)
    : WatchDispatcher * res unit :=
  let '(d, firstError) := acc in
  match Cancel watchId watcherAddr (watchRegistry_ d) with
  | Ok reg => (RemoveChannel watchId (set_registry reg d), firstError)
  | Err K_NOT_FOUND => (RemoveChannel watchId d, firstError)
  | Err c => (d, if is_ok firstError then Err c else firstError)
  end.

Definition cs_CancelWatch (watcherAddr : string) (watchIds : list Z) (p : Pointers) : Pointers * res unit :=
  match CheckInitialized p with
  | Err c => (p, Err c)
  | Ok s =>
      let '(d, firstError) := foldl (cancel_watch_step watcherAddr) (watchDispatcher_ s, Ok tt) watchIds in
      (pointers_to {| memKvStore_ := memKvStore_ s; watchDispatcher_ := d; ttlManager_ := ttlManager_ s |}, firstError)
  end.

Definition cs_KeepAlive (key : string) (expectedModRevision now : Z) (p : Pointers) : res (Pointers * Z * Z) :=
  s ← CheckInitialized p;
  '(kv, r) ← KeepAlive key expectedModRevision (memKvStore_ s);
  let t := Schedule key (kr_ttlMs r) (kr_revision r) (kr_ttlGeneration r) now (ttlManager_ s) in
  Ok (pointers_to {| memKvStore_ := kv; watchDispatcher_ := watchDispatcher_ s; ttlManager_ := t |},
      kr_ttlMs r, kr_remainingTtlMs r).

(** The expiry callback installed by [BindCallbacks]. *)
Definition expire_callback (record : ExpiredTtlRecord) (s : CoordinatorStore) : CoordinatorStore :=
  let '(kv, _, events) := DeleteIfTtlExpired (ex_key record) (ex_revision record) (ex_ttlGeneration record) (memKvStore_ s) in
  {| memKvStore_ := kv; watchDispatcher_ := EnqueueAll events (watchDispatcher_ s); ttlManager_ := ttlManager_ s |}.

(** [Shutdown], the schedule thread stopped: events go nowhere from now on. *)
Definition Shutdown (shutdown : bool) (s : CoordinatorStore) : CoordinatorStore * bool :=
  if shutdown then (s, true)
  else ({| memKvStore_ := {| data_ := data_ (memKvStore_ s); revision_ := revision_ (memKvStore_ s);
                             hasMutationCallback_ := false |};
           watchDispatcher_ := Stop (watchDispatcher_ s); ttlManager_ := ttlManager_ s |}, true).

(** ** Interleaving *)

(** A [Schedule] call whose key-value operation has committed. *)
Record ScheduleCall := { sc_key : string; sc_ttlMs : Z; sc_revision : Z; sc_ttlGeneration : Z }.

Record Coord := {
  co_kv : MemoryKvStore;
  co_ttl : TtlManager;
  co_calls : list ScheduleCall;
  co_expired : list ExpiredTtlRecord
}.

Inductive coord_step : Coord -> Coord -> Prop :=
  | co_put w key value ttlMs ev em eg kv r events :
      Put key value ttlMs ev em eg (co_kv w) = Ok (kv, r, events) ->
      coord_step w {| co_kv := kv; co_ttl := co_ttl w; co_expired := co_expired w;
        co_calls := if 0 <? ttlMs then {| sc_key := key; sc_ttlMs := ttlMs; sc_revision := pr_revision r;
                                          sc_ttlGeneration := pr_ttlGeneration r |} :: co_calls w
                    else co_calls w |}
  | co_keep_alive w key em kv r :
      KeepAlive key em (co_kv w) = Ok (kv, r) ->
      coord_step w {| co_kv := kv; co_ttl := co_ttl w; co_expired := co_expired w;
        co_calls := {| sc_key := key; sc_ttlMs := kr_ttlMs r; sc_revision := kr_revision r;
                       sc_ttlGeneration := kr_ttlGeneration r |} :: co_calls w |}
  | co_delete w key rangeEnd em kv r events :
      Delete key rangeEnd em (co_kv w) = Ok (kv, r, events) ->
      coord_step w {| co_kv := kv; co_ttl := co_ttl w; co_calls := co_calls w; co_expired := co_expired w |}
  | co_schedule w pre c post now :
      co_calls w = pre ++ c :: post ->
      coord_step w {| co_kv := co_kv w; co_expired := co_expired w; co_calls := pre ++ post;
        co_ttl := Schedule (sc_key c) (sc_ttlMs c) (sc_revision c) (sc_ttlGeneration c) now (co_ttl w) |}
  | co_pass w now :
      coord_step w {| co_kv := co_kv w; co_calls := co_calls w; co_ttl := (CheckExpiration_pass now (co_ttl w)).1;
        co_expired := co_expired w ++ (CheckExpiration_pass now (co_ttl w)).2 |}
  | co_callback w pre x post kv ok events :
      co_expired w = pre ++ x :: post ->
      DeleteIfTtlExpired (ex_key x) (ex_revision x) (ex_ttlGeneration x) (co_kv w) = (kv, ok, events) ->
      coord_step w {| co_kv := kv; co_ttl := co_ttl w; co_calls := co_calls w; co_expired := pre ++ post |}.

Definition initial_coord : Coord :=
  {| co_kv := SetMutationCallback new_MemoryKvStore; co_ttl := new_TtlManager; co_calls := []; co_expired := [] |}.

(** ** What the store operations do to entries *)

Lemma Put_stored key value ttlMs ev em eg s s' r events : Put key value ttlMs ev em eg s = Ok (s', r, events) ->
  exists stored, data_ s' = om_insert key stored (data_ s) /\ revision_ s' = i64 (revision_ s + 1) /\
    ve_modRevision stored = revision_ s' /\ ve_ttlMs stored = ttlMs /\
    pr_revision r = ve_modRevision stored /\ pr_ttlGeneration r = ve_ttlGeneration stored /\
    (ve_ttlGeneration stored = 1 \/
     exists e, om_find key (data_ s) = Some e /\ ve_ttlGeneration stored = u64 (ve_ttlGeneration e + 1)).
Proof.
  intros Hok. unfold Put in Hok. apply bind_Ok in Hok as (u1 & _ & Hok). apply bind_Ok in Hok as (u2 & _ & Hok).
  apply bind_Ok in Hok as (u3 & _ & Hok). injection Hok as <- <- <-. eexists. split; [reflexivity|].
  cbn [revision_ pr_revision pr_ttlGeneration]. destruct (om_find key (data_ s)) as [e|]; cbn; split_and!; try done; eauto.
Qed.

Lemma KeepAlive_stored key em s s' r : KeepAlive key em s = Ok (s', r) ->
  exists e stored, om_find key (data_ s) = Some e /\ data_ s' = om_insert key stored (data_ s) /\
    revision_ s' = revision_ s /\ 0 < ve_ttlMs e /\ ve_ttlMs stored = ve_ttlMs e /\
    ve_modRevision stored = ve_modRevision e /\ ve_ttlGeneration stored = u64 (ve_ttlGeneration e + 1) /\
    kr_ttlMs r = ve_ttlMs stored /\ kr_revision r = ve_modRevision stored /\ kr_ttlGeneration r = ve_ttlGeneration stored.
Proof.
  intros Hok. unfold KeepAlive in Hok. destruct (om_find key (data_ s)) as [e|]; [|done].
  destruct (Z.leb_spec (ve_ttlMs e) 0); [done|]. apply bind_Ok in Hok as (u & _ & Hok). injection Hok as <- <-.
  eexists _, _. split_and!; done || lia.
Qed.

Lemma Delete_shrinks key rangeEnd em s s' r events : om_sorted (data_ s) -> Delete key rangeEnd em s = Ok (s', r, events) ->
  forall k e, om_find k (data_ s') = Some e -> om_find k (data_ s) = Some e.
Proof.
  intros Hs Hok k e Hk. unfold Delete in Hok. apply bind_Ok in Hok as (u & _ & Hok).
  destruct (select_entries key rangeEnd s) as [|[k0 e0] l] eqn:El; [by injection Hok as <- _ _|].
  apply bind_Ok in Hok as (u2 & _ & Hok). injection Hok as <- _ _.
  change (om_find k (erase_keys (((k0, e0) :: l).*1) (data_ s)) = Some e) in Hk.
  rewrite (proj1 (om_find_erase_keys _ _ k Hs)) in Hk. by case_decide.
Qed.

Lemma Expire_shrinks key rev gen s s' ok events : om_sorted (data_ s) ->
  DeleteIfTtlExpired key rev gen s = (s', ok, events) ->
  (forall k e, om_find k (data_ s') = Some e -> om_find k (data_ s) = Some e) /\
  (forall e, om_find key (data_ s') = Some e -> 0 < ve_ttlMs e -> ~ (ve_modRevision e = rev /\ ve_ttlGeneration e = gen)).
Proof.
  intros Hs Hok. unfold DeleteIfTtlExpired in Hok. destruct (om_find key (data_ s)) as [e0|] eqn:Ef.
  2: { injection Hok as <- _ _. split; [done|]. intros e He. congruence. }
  destruct (Z.eqb_spec (ve_modRevision e0) rev) as [Hr|Hr]; cbn [negb] in Hok.
  2: { injection Hok as <- _ _. split; [done|]. intros e He _ [H1 _]. congruence. }
  destruct ((ve_ttlMs e0 <=? 0) || negb (ve_ttlGeneration e0 =? gen)) eqn:Eg.
  { injection Hok as <- _ _. split; [done|]. intros e He Ht [_ H2]. assert (e = e0) as -> by congruence.
    apply orb_true_iff in Eg as [Eg%Z.leb_le|Eg%negb_true_iff%Z.eqb_neq]; [lia|done]. }
  injection Hok as <- _ _. cbn [data_]. split.
  - intros k e. rewrite om_find_erase by done. by case_decide.
  - intros e. rewrite om_find_erase by done. by rewrite decide_True.
Qed.

(** ** Every key with a time to live stays accounted for *)

(** The pair [(r, g)] is scheduled for [k], about to be scheduled, or handed to
    an expiry callback that is still to run. *)
Definition token (w : Coord) (k : string) (r g : Z) : Prop :=
  (exists rec, scheduled (co_ttl w) k rec /\ ts_revision rec = r /\ ts_ttlGeneration rec = g) \/
  (exists c, c ∈ co_calls w /\ sc_key c = k /\ sc_revision c = r /\ sc_ttlGeneration c = g) \/
  (exists x, x ∈ co_expired w /\ ex_key x = k /\ ex_revision x = r /\ ex_ttlGeneration x = g).

Definition pair_le (r g r' g' : Z) : Prop := r < r' \/ (r = r' /\ g <= g').

Record coord_inv (n : Z) (w : Coord) : Prop := {
  ci_kv : kv_inv (co_kv w);
  ci_ttl : ttl_inv (co_ttl w);
  ci_calls c : c ∈ co_calls w -> 0 < sc_ttlMs c;
  ci_gen k e : om_find k (data_ (co_kv w)) = Some e -> 0 <= ve_ttlGeneration e <= n;
  ci_revision : revision_ (co_kv w) <= 1 + n;
  ci_token k r g : token w k r g -> r <= revision_ (co_kv w) /\
    forall e, om_find k (data_ (co_kv w)) = Some e -> pair_le r g (ve_modRevision e) (ve_ttlGeneration e);
  ci_cover k e : om_find k (data_ (co_kv w)) = Some e -> 0 < ve_ttlMs e ->
    token w k (ve_modRevision e) (ve_ttlGeneration e)
}.

Lemma ci_weaken n n' w : n <= n' -> coord_inv n w -> coord_inv n' w.
Proof. intros Hn [I1 I2 I3 I4 I5 I6 I7]. split; try done; [|lia]. intros k e He. specialize (I4 k e He). lia. Qed.

(** Steps that only remove entries and keep the tokens of the entries left. *)
Lemma ci_shrink n w w' : coord_inv n w -> kv_inv (co_kv w') -> ttl_inv (co_ttl w') ->
  revision_ (co_kv w) <= revision_ (co_kv w') <= 1 + n ->
  (forall k e, om_find k (data_ (co_kv w')) = Some e -> om_find k (data_ (co_kv w)) = Some e) ->
  (forall c, c ∈ co_calls w' -> c ∈ co_calls w) ->
  (forall k r g, token w' k r g -> token w k r g) ->
  (forall k e, om_find k (data_ (co_kv w')) = Some e -> 0 < ve_ttlMs e -> token w k (ve_modRevision e) (ve_ttlGeneration e) ->
     token w' k (ve_modRevision e) (ve_ttlGeneration e)) ->
  coord_inv n w'.
Proof.
  intros [I1 I2 I3 I4 I5 I6 I7] Hkv Ht Hr Hsh Hc Htok Hcov. split; try done; [eauto|eauto|lia| |].
  - intros k r g Hk. destruct (I6 k r g (Htok _ _ _ Hk)) as [H1 H2]. split; [lia|]. eauto.
  - intros k e He Hm. apply Hcov; eauto.
Qed.

(** Writing one entry and announcing its schedule call. *)
Lemma ci_write n w kv key stored calls : coord_inv n w -> kv_inv kv ->
  data_ kv = om_insert key stored (data_ (co_kv w)) -> revision_ (co_kv w) <= revision_ kv <= 2 + n ->
  0 <= ve_ttlGeneration stored <= n + 1 -> ve_modRevision stored <= revision_ kv ->
  (forall k r g, token w k r g -> k = key -> pair_le r g (ve_modRevision stored) (ve_ttlGeneration stored)) ->
  (forall c, c ∈ calls <-> c ∈ co_calls w \/ (0 < ve_ttlMs stored /\
     c = {| sc_key := key; sc_ttlMs := ve_ttlMs stored; sc_revision := ve_modRevision stored;
            sc_ttlGeneration := ve_ttlGeneration stored |})) ->
  coord_inv (n + 1) {| co_kv := kv; co_ttl := co_ttl w; co_calls := calls; co_expired := co_expired w |}.
Proof.
  intros [I1 I2 I3 I4 I5 I6 I7] Hkv Hd Hr Hg Hm Hle Hcalls.
  assert (Hfind : forall k, om_find k (data_ kv) = if decide (key = k) then Some stored else om_find k (data_ (co_kv w)))
    by (intros k; rewrite Hd; apply om_find_insert).
  assert (Hold : forall k r g, token w k r g -> token {| co_kv := kv; co_ttl := co_ttl w; co_calls := calls; co_expired := co_expired w |} k r g).
  { intros k r g [H|[(c & Hc & H)|H]]; [by left| |by right; right]. right; left. exists c. split; [|done]. apply Hcalls. by left. }
  assert (Hnew : forall k r g, token {| co_kv := kv; co_ttl := co_ttl w; co_calls := calls; co_expired := co_expired w |} k r g ->
    token w k r g \/ (k = key /\ r = ve_modRevision stored /\ g = ve_ttlGeneration stored)).
  { intros k r g [H|[(c & Hc & H1 & H2 & H3)|H]]; [left; by left| |left; by right; right].
    cbn [co_calls] in Hc. apply Hcalls in Hc as [Hc|[_ ->]]; [left; right; left; by exists c|right; cbn in *; auto]. }
  split; cbn [co_kv co_ttl co_calls co_expired]; try done.
  - intros c [Hc|[Ht ->]]%Hcalls; [by apply I3|done].
  - intros k e He. rewrite Hfind in He. case_decide; [injection He as <-; lia|]. specialize (I4 k e He). lia.
  - lia.
  - intros k r g [Hk|(-> & -> & ->)]%Hnew.
    + destruct (I6 k r g Hk) as [H1 H2]. split; [lia|]. intros e He. rewrite Hfind in He. case_decide as E.
      * injection He as <-. subst k. by eapply Hle.
      * by apply H2.
    + split; [done|]. intros e He. rewrite Hfind, decide_True in He by done. injection He as <-. right. lia.
  - intros k e He Hms. rewrite Hfind in He. case_decide as E; [|by apply Hold, I7].
    injection He as <-. subst k. right; left. eexists. split; [apply Hcalls; right; split; [done|reflexivity]|done].
Qed.

Lemma elem_of_split_drop {A} (pre post : list A) (x y : A) : y ∈ pre ++ x :: post <-> y ∈ pre ++ post \/ y = x.
Proof. rewrite !elem_of_app, elem_of_cons. naive_solver. Qed.

Lemma ci_put n w key value ttlMs ev em eg kv r events : coord_inv n w -> 0 <= n < INT64_MAX - 1 ->
  Put key value ttlMs ev em eg (co_kv w) = Ok (kv, r, events) ->
  coord_inv (n + 1) {| co_kv := kv; co_ttl := co_ttl w; co_expired := co_expired w;
    co_calls := if 0 <? ttlMs then {| sc_key := key; sc_ttlMs := ttlMs; sc_revision := pr_revision r;
                                      sc_ttlGeneration := pr_ttlGeneration r |} :: co_calls w else co_calls w |}.
Proof.
  intros Hinv Hn Hput. pose proof Hinv as [I1 I2 I3 I4 I5 I6 I7]. pose proof (ki_revision _ I1) as H1.
  assert (Hkv : kv_inv kv) by (eapply (kv_step_inv (co_kv w)); [done|lia|by eapply kv_put]).
  destruct (Put_stored _ _ _ _ _ _ _ _ _ _ Hput) as (stored & Hd & Hr & Hm & Ht & -> & -> & Hg).
  rewrite i64_next in Hr by lia. apply (ci_write n w kv key stored); try done; try lia.
  - destruct Hg as [->|(e & He & ->)]; [lia|]. specialize (I4 _ _ He). rewrite u64_small by (unfold INT64_MAX in Hn; lia). lia.
  - intros k r0 g Hk ->. destruct (I6 _ _ _ Hk) as [Hle _]. left. lia.
  - intros c. rewrite <-Ht. destruct (Z.ltb_spec 0 (ve_ttlMs stored)); [rewrite elem_of_cons|]; naive_solver lia.
Qed.

Lemma ci_keep_alive n w key em kv r : coord_inv n w -> 0 <= n < INT64_MAX - 1 ->
  KeepAlive key em (co_kv w) = Ok (kv, r) ->
  coord_inv (n + 1) {| co_kv := kv; co_ttl := co_ttl w; co_expired := co_expired w;
    co_calls := {| sc_key := key; sc_ttlMs := kr_ttlMs r; sc_revision := kr_revision r;
                   sc_ttlGeneration := kr_ttlGeneration r |} :: co_calls w |}.
Proof.
  intros Hinv Hn Hka. pose proof Hinv as [I1 I2 I3 I4 I5 I6 I7].
  assert (Hkv : kv_inv kv) by (eapply (kv_step_inv (co_kv w)); [done|lia|by eapply kv_keep_alive]).
  destruct (KeepAlive_stored _ _ _ _ _ Hka) as (e & stored & He & Hd & Hr & Hpos & Ht & Hm & Hg & -> & -> & ->).
  pose proof (I4 _ _ He) as Hge. rewrite u64_small in Hg by (unfold INT64_MAX in Hn; lia).
  destruct (ki_entry _ I1 _ _ He) as [_ Hle]. apply (ci_write n w kv key stored); try done; try lia.
  - intros k r0 g Hk ->. destruct (I6 _ _ _ Hk) as [_ Hle']. specialize (Hle' e He).
    unfold pair_le in *. rewrite Hm, Hg. lia.
  - intros c. rewrite elem_of_cons. naive_solver lia.
Qed.

Lemma ci_schedule n w pre c post now : coord_inv n w -> co_calls w = pre ++ c :: post ->
  coord_inv n {| co_kv := co_kv w; co_expired := co_expired w; co_calls := pre ++ post;
    co_ttl := Schedule (sc_key c) (sc_ttlMs c) (sc_revision c) (sc_ttlGeneration c) now (co_ttl w) |}.
Proof.
  intros Hinv Hc. pose proof Hinv as [I1 I2 I3 I4 I5 I6 I7].
  assert (Hin : c ∈ co_calls w) by (rewrite Hc, elem_of_app, elem_of_cons; auto).
  pose proof (I3 c Hin) as Hms.
  destruct (Schedule_cases (sc_key c) (sc_ttlMs c) (sc_revision c) (sc_ttlGeneration c) now (co_ttl w) I2 Hms)
    as [(rec & Hrec & Hnew & ->)|[Hno Heq]].
  - (* an older call is ignored *)
    apply (ci_shrink n w); try done; cbn [co_kv co_calls co_ttl]; [by rewrite Hc; setoid_rewrite elem_of_split_drop; auto|..].
    + intros k r g [H|[(c' & Hc' & H)|H]]; [by left| |by right; right]. right; left. exists c'.
      rewrite Hc, elem_of_split_drop. auto.
    + intros k e He Ht [H|[(c' & Hc' & H)|H]]; [by left| |by right; right]. rewrite Hc, elem_of_split_drop in Hc'.
      destruct Hc' as [Hc'| ->]; [right; left; by exists c'|]. destruct H as (<- & Hr & Hg). exfalso.
      destruct (I6 (sc_key c) (ts_revision rec) (ts_ttlGeneration rec)) as [_ Hle]; [left; by exists rec|].
      specialize (Hle e He). unfold newer, pair_le in *. lia.
  - (* the call installs its record *)
    pose proof (Schedule_inv (sc_key c) (sc_ttlMs c) (sc_revision c) (sc_ttlGeneration c) now _ I2) as Ht'.
    rewrite Heq in Ht' |- *. destruct (without_key_spec (sc_key c) (co_ttl w) I2) as [_ Hel].
    apply (ci_shrink n w); try done; cbn [co_kv co_calls co_ttl]; [by rewrite Hc; setoid_rewrite elem_of_split_drop; auto|..].
    + intros k r g [(rec & (x & Hx & <- & Hk) & H)|[(c' & Hc' & H)|H]]; [| |by right; right].
      * cbn [co_ttl expiryMap_] in Hx. apply elem_of_mm_emplace in Hx as [->|[Hx _]%Hel].
        -- right; left. exists c. cbn in *. naive_solver.
        -- left. exists (n_record x.2). split; [by exists x|done].
      * right; left. exists c'. rewrite Hc, elem_of_split_drop. auto.
    + intros k e He Ht [(rec & (x & Hx & <- & Hk) & H)|[(c' & Hc' & H)|H]]; [| |by right; right].
      * destruct (decide (k = sc_key c)) as [->|Hne].
        -- left. eexists. split; [eexists; split; [apply elem_of_mm_emplace; by left|]; split; [reflexivity|done]|]. cbn.
           assert (Hle : pair_le (sc_revision c) (sc_ttlGeneration c) (ve_modRevision e) (ve_ttlGeneration e)).
           { apply (I6 (sc_key c)); [right; left; by exists c|done]. }
           assert (Hnn : ~ newer (n_record x.2) (sc_revision c) (sc_ttlGeneration c)) by (apply Hno; by exists x).
           unfold pair_le, newer in *. lia.
        -- left. exists (n_record x.2). split; [|done]. exists x. split; [|done]. apply elem_of_mm_emplace. right.
           apply Hel. split; [done|congruence].
      * rewrite Hc, elem_of_split_drop in Hc'. destruct Hc' as [Hc'| ->]; [right; left; by exists c'|].
        destruct H as (<- & H1 & H2). left. eexists. split; [eexists; split; [apply elem_of_mm_emplace; by left|]; split; [reflexivity|done]|]. done.
Qed.

Lemma ci_pass n w now : coord_inv n w ->
  coord_inv n {| co_kv := co_kv w; co_calls := co_calls w; co_ttl := (CheckExpiration_pass now (co_ttl w)).1;
    co_expired := co_expired w ++ (CheckExpiration_pass now (co_ttl w)).2 |}.
Proof.
  intros Hinv. pose proof Hinv as [I1 I2 I3 I4 I5 I6 I7].
  pose proof (pop_expired_spec MAX_EXPIRED_KEYS_PER_CHECK now (co_ttl w) I2) as Hp. unfold CheckExpiration_pass.
  destruct (pop_expired MAX_EXPIRED_KEYS_PER_CHECK now (co_ttl w)) as [t ex]. cbn [fst snd].
  destruct Hp as (Ht & popped & Hmap & -> & _).
  apply (ci_shrink n w); try done; cbn [co_kv co_calls co_ttl].
  - intros k r g [(rec & (x & Hx & <- & Hk) & H)|[H|(x & Hx & H)]]; [|by right; left|].
    + left. exists (n_record x.2). split; [|done]. exists x. split; [|done]. rewrite Hmap. apply elem_of_app. by right.
    + cbn [co_expired] in Hx. apply elem_of_app in Hx as [Hx|Hx]; [right; right; by exists x|].
      apply list_elem_of_fmap in Hx as (y & -> & Hy). left. exists (n_record y.2). cbn in H. destruct H as (H1 & H2 & H3).
      split; [|done]. exists y. rewrite Hmap, elem_of_app. auto.
  - intros k e He Hms [(rec & (x & Hx & <- & Hk) & H)|[H|(x & Hx & H)]]; [|by right; left|].
    + rewrite Hmap in Hx. apply elem_of_app in Hx as [Hx|Hx]; [|left; exists (n_record x.2); split; [by exists x|done]].
      right; right. exists (expired_of x). split; [cbn; apply elem_of_app; right; by apply (list_elem_of_fmap_2 expired_of)|]. done.
    + right; right. exists x. split; [|done]. cbn. apply elem_of_app. by left.
Qed.

Lemma ci_callback n w pre x post kv ok events : coord_inv n w -> 0 <= n < INT64_MAX - 1 -> co_expired w = pre ++ x :: post ->
  DeleteIfTtlExpired (ex_key x) (ex_revision x) (ex_ttlGeneration x) (co_kv w) = (kv, ok, events) ->
  coord_inv (n + 1) {| co_kv := kv; co_ttl := co_ttl w; co_calls := co_calls w; co_expired := pre ++ post |}.
Proof.
  intros Hinv Hn Hx Hdel. pose proof (ci_weaken n (n + 1) w ltac:(lia) Hinv) as Hinv'.
  pose proof Hinv as [I1 I2 I3 I4 I5 I6 I7]. pose proof (ki_revision _ I1) as H1.
  assert (Hstep : kv_step (co_kv w) events kv) by by eapply kv_expire.
  assert (Hkv : kv_inv kv) by (eapply (kv_step_inv (co_kv w)); [done|lia|done]).
  destruct (kv_step_effect _ _ _ (ki_sorted _ I1) Hstep) as [_ _ _ Hrev _ _]. rewrite i64_next in Hrev by lia.
  destruct (Expire_shrinks _ _ _ _ _ _ _ (ki_sorted _ I1) Hdel) as [Hsh Hgone].
  apply (ci_shrink (n + 1) w); try done; cbn [co_kv co_calls co_ttl co_expired]; [destruct Hrev; lia|..].
  - intros k r g [H|[H|(y & Hy & H)]]; [by left|by right; left|]. right; right. exists y.
    split; [|done]. rewrite Hx, elem_of_split_drop. by left.
  - intros k e He Hms [H|[H|(y & Hy & H)]]; [by left|by right; left|]. rewrite Hx, elem_of_split_drop in Hy.
    destruct Hy as [Hy| ->]; [right; right; by exists y|]. destruct H as (<- & Hr & Hg). by destruct (Hgone e He Hms).
Qed.

Lemma ci_delete n w key rangeEnd em kv r events : coord_inv n w -> 0 <= n < INT64_MAX - 1 ->
  Delete key rangeEnd em (co_kv w) = Ok (kv, r, events) ->
  coord_inv (n + 1) {| co_kv := kv; co_ttl := co_ttl w; co_calls := co_calls w; co_expired := co_expired w |}.
Proof.
  intros Hinv Hn Hdel. pose proof (ci_weaken n (n + 1) w ltac:(lia) Hinv) as Hinv'.
  pose proof Hinv as [I1 I2 I3 I4 I5 I6 I7]. pose proof (ki_revision _ I1) as H1.
  assert (Hstep : kv_step (co_kv w) events kv) by by eapply kv_delete.
  assert (Hkv : kv_inv kv) by (eapply (kv_step_inv (co_kv w)); [done|lia|done]).
  destruct (kv_step_effect _ _ _ (ki_sorted _ I1) Hstep) as [_ _ _ Hrev _ _]. rewrite i64_next in Hrev by lia.
  apply (ci_shrink (n + 1) w); try done; cbn [co_kv co_calls co_ttl]; [destruct Hrev; lia|].
  by eapply Delete_shrinks; [apply I1|].
Qed.

Lemma coord_step_inv n w w' : coord_inv n w -> 0 <= n < INT64_MAX - 1 -> coord_step w w' -> coord_inv (n + 1) w'.
Proof.
  intros Hinv Hn Hstep.
  destruct Hstep as [w key value ttlMs ev em eg kv r events Hp|w key em kv r Hp|w key rangeEnd em kv r events Hp
    |w pre c post now Hc|w now|w pre x post kv ok events Hx Hp].
  - by eapply ci_put.
  - by eapply ci_keep_alive.
  - by eapply ci_delete.
  - apply (ci_weaken n); [lia|]. by apply ci_schedule.
  - apply (ci_weaken n); [lia|]. by apply ci_pass.
  - by eapply ci_callback.
Qed.

Lemma initial_coord_inv : coord_inv 0 initial_coord.
Proof.
  split; cbn; try done; try lia.
  - apply initial_kv_inv.
  - apply new_TtlManager_inv.
  - intros c Hc. by apply not_elem_of_nil in Hc.
  - intros k r g [(rec & (x & Hx & _) & _)|[(x & Hx & _)|(x & Hx & _)]]; by apply not_elem_of_nil in Hx.
Qed.

Lemma coord_run_inv n w : nsteps coord_step n initial_coord w -> Z.of_nat n < INT64_MAX -> coord_inv (Z.of_nat n) w.
Proof.
  intros Hrun. remember initial_coord as w0 eqn:E.
  assert (Hgen : forall k, coord_inv k w0 -> 0 <= k -> k + Z.of_nat n < INT64_MAX -> coord_inv (k + Z.of_nat n) w).
  { clear E. induction Hrun as [w|n w0 w1 w Hstep _ IH]; intros k Hk H0 Hlt; [by rewrite Z.add_0_r|].
    replace (k + Z.of_nat (S n)) with (k + 1 + Z.of_nat n) by lia.
    apply IH; [|lia|lia]. by eapply coord_step_inv; [|lia|]. }
  intros Hlt. apply (Hgen 0); [subst; apply initial_coord_inv|lia|lia].
Qed.

(** C22: whatever the interleaving of writes, renewals, deletions, schedule calls,
    expiry passes and expiry callbacks, a stored key with a time to live is
    never forgotten: its current revision and generation are scheduled, about
    to be scheduled, or in the hands of an expiry callback; and what is
    scheduled for a key is never newer than the key itself. *)
Theorem ttl_never_forgotten n w key e :
  nsteps coord_step n initial_coord w -> Z.of_nat n < INT64_MAX ->
  om_find key (data_ (co_kv w)) = Some e ->
  (0 < ve_ttlMs e -> token w key (ve_modRevision e) (ve_ttlGeneration e)) /\
  (forall r g, token w key r g -> pair_le r g (ve_modRevision e) (ve_ttlGeneration e)).
Proof.
  intros Hrun Hn He. pose proof (coord_run_inv n w Hrun Hn) as Hinv. split.
  - by apply (ci_cover _ _ Hinv).
  - intros r g Ht. by apply (ci_token _ _ Hinv key r g Ht).
Qed.

Lemma ttl_never_forgotten_witness : exists w e, nsteps coord_step 1 initial_coord w /\
  om_find "k" (data_ (co_kv w)) = Some e /\ token w "k" (ve_modRevision e) (ve_ttlGeneration e).
Proof.
  destruct (Put "k" "v" 1000 (-1) 0 0 (co_kv initial_coord)) as [[[kv r] events]|c] eqn:E; [|vm_compute in E; discriminate E].
  pose proof (co_put initial_coord "k" "v" 1000 (-1) 0 0 kv r events E) as Hstep.
  match type of Hstep with coord_step _ ?x => set (w := x) in Hstep end.
  assert (Hrun : nsteps coord_step 1 initial_coord w) by (apply nsteps_once; exact Hstep).
  destruct (om_find "k" (data_ (co_kv w))) as [e|] eqn:Ef.
  2: { vm_compute in E. injection E as <- <- <-. vm_compute in Ef. discriminate Ef. }
  exists w, e. split; [exact Hrun|]. split; [exact Ef|].
  refine (proj1 (ttl_never_forgotten 1 w "k" e Hrun ltac:(vm_compute; reflexivity) Ef) _).
  vm_compute in E. injection E as <- <- <-. vm_compute in Ef. injection Ef as <-. vm_compute. reflexivity.
Defined.

(** ** What a new watcher starts from *)

(** The entries a watcher received, as a map. *)
Definition as_view (kvs : list KeyValueEntry) : View := list_to_map ((fun e => (kv_key e, e)) <$> kvs).

Lemma foldl_apply_lookup (p : WatchEvent -> bool) events k : forall v v' : View, v !! k = v' !! k ->
  (forall e, e ∈ events -> kv_key (we_entry e) = k -> p e = true) ->
  foldl apply_event v (List.filter p events) !! k = foldl apply_event v' events !! k.
Proof.
  induction events as [|e events IH]; intros v v' Hv Hp; [done|]. cbn [List.filter foldl].
  assert (Hp' : forall e', e' ∈ events -> kv_key (we_entry e') = k -> p e' = true) by (intros; apply Hp; [by right|done]).
  destruct (decide (kv_key (we_entry e) = k)) as [Hk|Hk].
  - rewrite (Hp e) by (by left || done). cbn [foldl]. apply IH; [|done].
    unfold apply_event. destruct (we_type e); rewrite ?Hk, ?lookup_insert_eq, ?lookup_delete_eq; done.
  - assert (Hsame : forall u : View, apply_event u e !! k = u !! k).
    { intros u. unfold apply_event. by destruct (we_type e); rewrite ?lookup_insert_ne, ?lookup_delete_ne by done. }
    destruct (p e); cbn [foldl]; apply IH; rewrite ?Hsame; done.
Qed.

Lemma Range_as_view key rangeEnd s k : kv_inv s -> covers k (key, rangeEnd) = true ->
  as_view (rr_kvs (Range key rangeEnd 0 false s)) !! k = view s !! k.
Proof.
  intros Hinv Hk. rewrite lookup_view by apply Hinv. pose proof (ki_sorted _ Hinv) as Hs.
  unfold Range, covers in *. cbn [fst snd] in Hk. case_bool_decide as He.
  - apply bool_decide_eq_true in Hk as ->. destruct (om_find k (data_ s)) as [e|]; [|done].
    cbn. by rewrite lookup_insert_eq.
  - cbn [rr_kvs]. unfold as_view. rewrite <-list_fmap_compose.
    change (((fun e => (kv_key e, e)) ∘ (fun kv : string * ValueEntry => entry_of kv.1 kv.2)))
      with (fun kv : string * ValueEntry => (kv.1, entry_of kv.1 kv.2)).
    rewrite list_to_map_data by by apply entries_between_sorted.
    apply andb_true_iff in Hk as [Hk1%negb_true_iff Hk2].
    f_equal. apply option_eq. intros e. rewrite !om_find_elem by (done || by apply entries_between_sorted).
    rewrite elem_of_entries_between by done. cbn. naive_solver.
Qed.

Lemma WatchRange_result key rangeEnd addr rid p p' r s : CheckInitialized p = Ok s ->
  cs_WatchRange key rangeEnd addr rid false p = Ok (p', r) ->
  wrr_initialKvs r = rr_kvs (Range key rangeEnd 0 false (memKvStore_ s)) /\
  wrr_initialRevision r = revision_ (memKvStore_ s) /\ pt_memKvStore p' = Some (memKvStore_ s).
Proof.
  intros Hp Hok. unfold cs_WatchRange in Hok. rewrite Hp in Hok. cbn [mbind res_bind] in Hok.
  apply bind_Ok in Hok as ([[reg id] created] & _ & Hok). injection Hok as <- <-. cbn. split_and!; try done.
  unfold Range. repeat case_match; done.
Qed.

(** C23: a watcher that starts from the entries [WatchRange] returned and applies
    the later events of its keys in order sees, for every watched key, what the
    store holds after any run of operations, and every such event is newer
    than the revision [WatchRange] returned, so none is taken for part of the
    snapshot. *)
Theorem watch_range_consistent key rangeEnd addr rid p p' r s n events s' k :
  CheckInitialized p = Ok s -> kv_inv (memKvStore_ s) -> hasMutationCallback_ (memKvStore_ s) = true ->
  cs_WatchRange key rangeEnd addr rid false p = Ok (p', r) ->
  kv_run n (memKvStore_ s) events s' -> revision_ (memKvStore_ s) + Z.of_nat n <= INT64_MAX ->
  covers k (key, rangeEnd) = true ->
  view s' !! k =
    foldl apply_event (as_view (wrr_initialKvs r))
      (List.filter (fun e => covers (kv_key (we_entry e)) (key, rangeEnd)) events) !! k /\
  (forall e, e ∈ events -> wrr_initialRevision r < we_revision e).
Proof.
  intros Hp Hinv Hcb Hok Hrun Hmax Hk. destruct (WatchRange_result _ _ _ _ _ _ _ _ Hp Hok) as (-> & -> & _).
  destruct (kv_run_facts _ _ _ _ Hrun Hinv Hmax) as (_ & _ & Hv & _ & He & _). split.
  - rewrite Hv by done. symmetry. apply foldl_apply_lookup; [by apply Range_as_view|]. intros e _ <-. done.
  - intros e Hin. by apply He.
Qed.

Definition sample_pointers : Pointers := BindCallbacks
  {| pt_memKvStore := Some new_MemoryKvStore; pt_watchDispatcher := Some (new_WatchDispatcher 1 new_WatchRegistry);
     pt_hasRegistry := true; pt_ttlManager := Some new_TtlManager |}.

Lemma watch_range_consistent_witness : exists r s' events, view s' !! "/t/a" =
    foldl apply_event (as_view (wrr_initialKvs r))
      (List.filter (fun e => covers (kv_key (we_entry e)) ("/t/"%string, "/t0"%string)) events) !! "/t/a".
Proof.
  destruct (CheckInitialized sample_pointers) as [s|c] eqn:Es; [|discriminate Es].
  destruct (cs_WatchRange "/t/" "/t0" "10.0.0.1:1" "" false sample_pointers) as [[p' r]|c] eqn:Ew; [|vm_compute in Ew; discriminate Ew].
  assert (Hs : memKvStore_ s = SetMutationCallback new_MemoryKvStore) by (injection Es as <-; reflexivity).
  assert (Hinv : kv_inv (memKvStore_ s)) by (rewrite Hs; exact initial_kv_inv).
  destruct (Put "/t/a" "v" 0 (-1) 0 0 (memKvStore_ s)) as [[[s' pr] events]|c] eqn:Ep; [|rewrite Hs in Ep; vm_compute in Ep; discriminate Ep].
  exists r, s', (events ++ []).
  refine (proj1 (watch_range_consistent "/t/" "/t0" "10.0.0.1:1" "" sample_pointers p' r s 1 (events ++ []) s' "/t/a"
    Es Hinv _ Ew _ _ _)).
  - rewrite Hs. reflexivity.
  - exact (kv_cons 0 _ events s' [] s' (kv_put _ _ _ _ _ _ _ _ _ _ Ep) (kv_nil s')).
  - rewrite Hs. vm_compute. discriminate.
  - vm_compute. reflexivity.
Defined.
