(* ===== verification/StoreProgram.v ===== *)
(** * Programs over the coordinator store and their interleavings

    The coordination backend and the topology repository reach the coordinator
    store through single requests, each atomic under the store mutex; between
    two requests of one caller any other caller may run.  A caller is a [prog]:
    a finite tree of requests whose continuation receives the answer.  [run]
    executes a program alone, [pool_step] interleaves any number of programs and
    an environment.  [safe] is the rely-guarantee logic used to reason about one
    program at a time, and [pool_sound] is its soundness. *)

From S2P Require Import Prelude Ordered MemoryKvStore TtlManager WatchRegistry WatchDispatcher CoordinatorStore.

(** ** Requests *)

Inductive StoreCall :=
  | CallPut (key value : string) (ttlMs expectedVersion expectedModRevision expectedGlobalRevision : Z)
  | CallRange (key rangeEnd : string)
  | CallDeleteRange (key rangeEnd : string).

Definition answer (c : StoreCall) : Type :=
  match c with
  | CallPut _ _ _ _ _ _ => res (Z * Z)
  | CallRange _ _ => res RangeResult
  | CallDeleteRange _ _ => res (Z * Z)
  end.

(** A failed request leaves the store as it was. *)
Definition committed {A} (p : Pointers) (r : res (Pointers * A)) : Pointers * res A :=
  match r with Ok (p', a) => (p', Ok a) | Err c => (p, Err c) end.

Definition exec (now : Z) (c : StoreCall) (p : Pointers) : Pointers * answer c :=
  match c with
  | CallPut key value ttlMs ev em eg =>
      committed p ((fun x => (x.1.1, (x.1.2, x.2))) <$> cs_Put key value ttlMs ev em eg now p)
  | CallRange key rangeEnd => (p, cs_Range key rangeEnd 0 false p)
  | CallDeleteRange key rangeEnd =>
      committed p ((fun x => (x.1.1, (x.1.2, x.2))) <$> cs_DeleteRange key rangeEnd COORDINATOR_NO_MOD_REVISION_CHECK p)
  end.

(** ** Programs *)

Inductive prog (A : Type) : Type :=
  | Ret (a : A)
  | Call (c : StoreCall) (k : answer c -> prog A).
Arguments Ret {A} a.
Arguments Call {A} c k.

#[global] Instance prog_ret : MRet prog := @Ret.
#[global] Instance prog_bind : MBind prog := fun A B f =>
  fix go p := match p with Ret a => f a | Call c k => Call c (fun a => go (k a)) end.

Definition request (c : StoreCall) : prog (answer c) := Call c (fun a => Ret a).

(** [RETURN_IF_NOT_OK(...)]: the statement may touch the store and may fail. *)
Definition try_bind {A B} (p : prog (res A)) (f : A -> prog (res B)) : prog (res B) :=
  p ≫= fun r => match r with Ok a => f a | Err c => Ret (Err c) end.

Declare Scope prog_scope.
Delimit Scope prog_scope with prog.
Notation "x ⇐ p ; q" := (try_bind p (fun x => q))
  (at level 20, p at level 100, q at level 200, only parsing) : prog_scope.
Notation "' x ⇐ p ; q" := (try_bind p (fun x => q))
  (at level 20, x pattern, p at level 100, q at level 200, only parsing) : prog_scope.
#[global] Open Scope prog_scope.

(** A step of [res] inside a program. *)
Definition lift {A} (r : res A) : prog (res A) := Ret r.

(** ** Execution without interference *)

Fixpoint run {A} (now : Z) (p : prog A) (s : Pointers) : A * Pointers :=
  match p with
  | Ret a => (a, s)
  | Call c k => run now (k (exec now c s).2) (exec now c s).1
  end.

(** ** What a program may request, whatever the answers *)

Fixpoint issues_only {A} (P : StoreCall -> Prop) (p : prog A) : Prop :=
  match p with Ret _ => True | Call c k => P c /\ forall a, issues_only P (k a) end.

Lemma issues_bind {A B} P (p : prog A) (f : A -> prog B) :
  issues_only P p -> (forall a, issues_only P (f a)) -> issues_only P (p ≫= f).
Proof. intros Hp Hf. induction p as [a|c k IH]; cbn; [auto|]. destruct Hp as [Hc Hk]. split; auto. Qed.

Lemma issues_try {A B} P (p : prog (res A)) (f : A -> prog (res B)) :
  issues_only P p -> (forall a, issues_only P (f a)) -> issues_only P (try_bind p f).
Proof. intros Hp Hf. apply issues_bind; [done|]. by intros [a|c]. Qed.

Lemma issues_mono {A} (P Q : StoreCall -> Prop) (p : prog A) :
  (forall c, P c -> Q c) -> issues_only P p -> issues_only Q p.
Proof. intros HPQ. induction p as [a|c k IH]; cbn; [done|]. intros [Hc Hk]. split; auto. Qed.

(** The request may change the entry of [key]. *)
Definition modifies (key : string) (c : StoreCall) : Prop :=
  match c with
  | CallPut k _ _ _ _ _ => k = key
  | CallRange _ _ => False
  | CallDeleteRange k rangeEnd =>
      if bool_decide (rangeEnd = EmptyString) then k = key else ltk key k = false /\ ltk key rangeEnd = true
  end.

(** Only keys of [P] change. *)
Definition confined {A} (P : string -> Prop) (p : prog A) : Prop :=
  issues_only (fun c => forall key, modifies key c -> P key) p.

Lemma confined_mono {A} (P Q : string -> Prop) (p : prog A) : (forall k, P k -> Q k) -> confined P p -> confined Q p.
Proof. intros HPQ. apply issues_mono. auto. Qed.

(** ** Interleaved execution *)

Section pool.
Context {Req A : Type}.
Variable code : Req -> prog A.
Variable allowed : Req -> Prop.
Variable env : Pointers -> Pointers -> Prop.

(** The threads started so far, each with the request it serves. *)
Record Pool := { pool_store : Pointers; pool_threads : list (Req * prog A) }.

Inductive pool_step : Pool -> Pool -> Prop :=
  | pool_spawn w req : allowed req ->
      pool_step w {| pool_store := pool_store w; pool_threads := pool_threads w ++ [(req, code req)] |}
  | pool_call w i req c k now :
      pool_threads w !! i = Some (req, Call c k) ->
      pool_step w {| pool_store := (exec now c (pool_store w)).1;
                     pool_threads := <[i := (req, k (exec now c (pool_store w)).2)]> (pool_threads w) |}
  | pool_env w s' :
      env (pool_store w) s' -> pool_step w {| pool_store := s'; pool_threads := pool_threads w |}.

Definition start (s : Pointers) : Pool := {| pool_store := s; pool_threads := [] |}.

(** A given interleaving, executed. *)
Inductive Event := Spawn (req : Req) | Step (i : nat) (now : Z).

Definition do_event (w : Pool) (e : Event) : Pool :=
  match e with
  | Spawn req => {| pool_store := pool_store w; pool_threads := pool_threads w ++ [(req, code req)] |}
  | Step i now =>
      match pool_threads w !! i with
      | Some (req, Call c k) =>
          {| pool_store := (exec now c (pool_store w)).1;
             pool_threads := <[i := (req, k (exec now c (pool_store w)).2)]> (pool_threads w) |}
      | _ => w
      end
  end.

Lemma schedule_reaches events w : (forall req, Spawn req ∈ events -> allowed req) ->
  rtc pool_step w (foldl do_event w events).
Proof.
  revert w. induction events as [|e events IH]; intros w Ha; [done|]. cbn [foldl].
  trans (do_event w e); [|apply IH; intros req Hr; apply Ha; by right].
  destruct e as [req|i now]; cbn [do_event]; [apply rtc_once; constructor; apply Ha; by left|].
  destruct (pool_threads w !! i) as [[req [a|c k]]|] eqn:E; [done| |done]. apply rtc_once. by econstructor.
Qed.
End pool.

(** ** Rely and guarantee

    [Ghost] is what the reasoning remembers of the past; thread [i] may change it
    by [guar i] and must tolerate the changes [rely i] of everybody else; [fresh i]
    says that thread [i] has not run yet. *)

Record discipline (Ghost : Type) := {
  inv : Ghost -> Pointers -> Prop;
  guar : nat -> Ghost -> Ghost -> Prop;
  rely : nat -> Ghost -> Ghost -> Prop;
  fresh : nat -> Ghost -> Prop
}.
Arguments inv {Ghost} d g s.
Arguments guar {Ghost} d i g g'.
Arguments rely {Ghost} d i g g'.
Arguments fresh {Ghost} d i g.

Class Discipline {Ghost} (d : discipline Ghost) : Prop := {
  #[global] rely_preorder i :: PreOrder (rely d i);
  guar_rely i j g g' : i <> j -> guar d i g g' -> rely d j g g';
  rely_fresh i g g' : rely d i g g' -> fresh d i g -> fresh d i g'
}.

Section logic.
Context {Ghost : Type} (d : discipline Ghost) `{!Discipline d}.

Fixpoint safe {A} (i : nat) (p : prog A) (Q : Ghost -> A -> Prop) (g : Ghost) : Prop :=
  match p with
  | Ret a => Q g a
  | Call c k => forall g1 now s, rely d i g g1 -> inv d g1 s ->
      exists g2, guar d i g1 g2 /\ inv d g2 (exec now c s).1 /\ safe i (k (exec now c s).2) Q g2
  end.

(** The postcondition survives what other threads do. *)
Definition stable {A} (i : nat) (Q : Ghost -> A -> Prop) : Prop :=
  forall g g' a, rely d i g g' -> Q g a -> Q g' a.

Lemma safe_rely {A} i (p : prog A) Q g g' : stable i Q -> rely d i g g' -> safe i p Q g -> safe i p Q g'.
Proof.
  intros HQ Hr. destruct p as [a|c k]; cbn; [by apply HQ|]. intros Hs g1 now s H1. apply Hs. by etrans.
Qed.

Lemma safe_mono {A} i (p : prog A) (Q Q' : Ghost -> A -> Prop) g :
  (forall g a, Q g a -> Q' g a) -> safe i p Q g -> safe i p Q' g.
Proof.
  intros HQ. revert g. induction p as [a|c k IH]; intros g; cbn; [apply HQ|].
  intros Hs g1 now s H1 H2. destruct (Hs g1 now s H1 H2) as (g2 & ? & ? & ?). eauto.
Qed.

Lemma safe_bind {A B} i (p : prog A) (f : A -> prog B) Q Q' g :
  safe i p Q g -> (forall g a, Q g a -> safe i (f a) Q' g) -> safe i (p ≫= f) Q' g.
Proof.
  intros Hp Hf. revert g Hp. induction p as [a|c k IH]; intros g; cbn; [apply Hf|].
  intros Hs g1 now s H1 H2. destruct (Hs g1 now s H1 H2) as (g2 & ? & ? & ?). eauto.
Qed.

Lemma safe_try {A B} i (p : prog (res A)) (f : A -> prog (res B)) Q Q' g :
  safe i p Q g -> (forall g a, Q g (Ok a) -> safe i (f a) Q' g) -> (forall g c, Q g (Err c) -> Q' g (Err c)) ->
  safe i (try_bind p f) Q' g.
Proof. intros Hp Hf He. eapply safe_bind; [done|]. intros g' [a|c] HQ; cbn; auto. Qed.

(** One request. *)
Lemma safe_request i c Q g :
  (forall g1 now s, rely d i g g1 -> inv d g1 s ->
     exists g2, guar d i g1 g2 /\ inv d g2 (exec now c s).1 /\ Q g2 (exec now c s).2) ->
  safe i (request c) Q g.
Proof. intros H. cbn. auto. Qed.

(** ** Soundness for a pool of threads *)

Section sound.
Context {Req A : Type} (code : Req -> prog A) (allowed : Req -> Prop) (env : Pointers -> Pointers -> Prop).
Variable Q : nat -> Req -> Ghost -> A -> Prop.
Hypothesis code_safe : forall i req g, allowed req -> fresh d i g -> safe i (code req) (Q i req) g.
Hypothesis Q_stable : forall i req, stable i (Q i req).
Hypothesis env_inv : forall g s s', inv d g s -> env s s' -> exists g', (forall i, rely d i g g') /\ inv d g' s'.

Definition pool_ok (g : Ghost) (w : Pool) : Prop :=
  inv d g (pool_store w) /\ (forall i, (length (pool_threads w) <= i)%nat -> fresh d i g) /\
  forall i req p, pool_threads w !! i = Some (req, p) -> safe i p (Q i req) g.

Lemma pool_step_ok w w' g : pool_ok g w -> pool_step code allowed env w w' -> exists g', pool_ok g' w'.
Proof.
  intros (Hi & Hf & Ht) Hs. destruct Hs as [w req Ha|w i req c k now E|w s' He].
  - exists g. split; [done|]. cbn. split; [intros j; rewrite length_app; cbn; intros; apply Hf; lia|].
    intros j rq p [[_ Hj]|[-> Hj]]%lookup_snoc_Some; [eauto|]. injection Hj as <- <-. apply code_safe; auto.
  - destruct (Ht i req _ E g now (pool_store w)) as (g2 & Hg & Hinv & Hk); [reflexivity|done|].
    pose proof (lookup_lt_Some _ _ _ E). exists g2. split; [done|]. cbn. rewrite length_insert. split.
    { intros j Hj. eapply rely_fresh; [|by apply Hf]. eapply guar_rely; [|done]. lia. }
    intros j rq p. destruct (decide (i = j)) as [<-|Hne].
    + rewrite list_lookup_insert_eq by done. by intros [= <- <-].
    + rewrite list_lookup_insert_ne by done. intros Hj. eapply safe_rely; [apply Q_stable| |eauto]. by eapply guar_rely.
  - destruct (env_inv g (pool_store w) s' Hi He) as (g' & Hr & Hinv). exists g'. split; [done|]. cbn. split.
    + intros j Hj. eapply rely_fresh; [apply Hr|auto].
    + intros j rq p Hj. eapply safe_rely; [apply Q_stable|apply Hr|eauto].
Qed.

Lemma pool_sound s g w : inv d g s -> (forall i, fresh d i g) -> rtc (pool_step code allowed env) (start s) w ->
  exists g', inv d g' (pool_store w) /\
    forall i req a, pool_threads w !! i = Some (req, Ret a) -> Q i req g' a.
Proof.
  intros Hi Hf Hw.
  assert (exists g', pool_ok g' w) as (g' & Hinv & _ & Ht).
  { assert (Hok : pool_ok g (start s)) by (split_and!; [done|auto|by intros [|?] ??]).
    clear Hi Hf. revert g Hok. induction Hw as [|w1 w2 w3 Hs _ IH]; intros g Hok; [eauto|].
    destruct (pool_step_ok _ _ _ Hok Hs) as [g' Hok']. eauto. }
  exists g'. split; [done|]. intros i req a Hi'. apply (Ht _ _ _ Hi').
Qed.
End sound.
End logic.
