(* ===== verification/BackendInterface.v ===== *)
(** * The coordination backend as an interface

    [ICoordinationBackend] of cluster/coordination_backend/coordination_backend.h,
    restricted to the operations the topology repository calls, and what the
    repository relies on.  The promises are stated for one key whose values form
    a history: a read returns the newest value, and a compare-and-swap appends
    to the history exactly what its callback computed from the newest value. *)

From S2P Require Import Prelude Ordered MemoryKvStore TtlManager WatchRegistry WatchDispatcher CoordinatorStore.
From S2P Require Import StoreProgram.

Record RangeSearchResult := { rs_key : string; rs_value : string; rs_coordinatorId : string; rs_version : Z; rs_modRevision : Z }.

(** The callback of a compare-and-swap: [C] holds the variables it captures by
    reference; it returns the status, the new value if any, and [retry]. *)
Definition ProcessFunction (C : Type) : Type := C -> string -> C * res (option string) * bool.

Class CoordinationBackend := {
  be_GetAll (tableName : string) : prog (res (list (string * string) * Z));
  be_Get (tableName key : string) : prog (res RangeSearchResult);
  be_GetIfChanged (tableName key : string) (knownModRevision : Z) (knownCoordinatorId : string)
    : prog (res (RangeSearchResult * bool));
  be_CAS {C : Type} (tableName key : string) (process : ProcessFunction C) (c : C) : prog (C * res RangeSearchResult);
  be_CASAtRevision {C : Type} (tableName key : string) (process : ProcessFunction C) (expectedRevision : Z) (c : C)
    : prog (C * res RangeSearchResult);
  be_Delete (tableName key : string) : prog (res unit)
}.

(** ** The entry of a key *)

Definition BuildPhysicalKey (tableName key : string) : string := tableName +:+ "/" +:+ key.

Definition stored (p : Pointers) (key : string) : option ValueEntry :=
  match CheckInitialized p with Ok s => om_find key (data_ (memKvStore_ s)) | Err _ => None end.

Definition store_ok (p : Pointers) : Prop :=
  match CheckInitialized p with Ok s => om_sorted (data_ (memKvStore_ s)) | Err _ => True end.

(** ** Histories

    All values a key has had, the oldest first, each with the thread that wrote
    it.  [ok] is what the writers of the key agree to keep true. *)

Abbreviation history := (list (string * nat)).

(** What a reader sees: the newest value, or nothing. *)
Definition newest (h : history) : string := match last h with Some (v, _) => v | None => EmptyString end.

Definition tracks (key : string) (h : history) (p : Pointers) : Prop :=
  match last h with
  | None => stored p key = None
  | Some (v, _) => exists e, stored p key = Some e /\ ve_value e = v /\ ve_version e = Z.of_nat (length h)
  end.

Definition history_discipline (key : string) (ok : history -> Prop) : discipline history := {|
  inv h p := store_ok p /\ tracks key h p /\ ok h;
  guar i h h' := exists l, h' = h ++ l /\ Forall (fun x => x.2 = i) l;
  rely i h h' := exists l, h' = h ++ l /\ Forall (fun x => x.2 <> i) l;
  fresh i h := Forall (fun x => x.2 <> i) h
|}.

#[global] Instance history_discipline_ok key ok : Discipline (history_discipline key ok).
Proof.
  split; cbn.
  - intros i. split.
    + intros h. exists []. by rewrite app_nil_r.
    + intros h1 h2 h3 (l1 & -> & H1) (l2 & -> & H2). exists (l1 ++ l2). by rewrite app_assoc, Forall_app.
  - intros i j h h' Hij (l & -> & Hl). exists l. split; [done|]. eapply Forall_impl; [done|]. cbn. congruence.
  - intros i h h' (l & -> & Hl) Hh. by apply Forall_app.
Qed.

Definition wrote_nothing (i : nat) (h : history) : Prop := Forall (fun x => x.2 <> i) h.

Lemma wrote_nothing_rely i h h' key ok :
  rely (history_discipline key ok) i h h' -> wrote_nothing i h -> wrote_nothing i h'.
Proof. intros (l & -> & Hl) Hw. by apply Forall_app. Qed.

Lemma lookup_rely i h h' key ok j x : rely (history_discipline key ok) i h h' -> h !! j = Some x -> h' !! j = Some x.
Proof. intros (l & -> & _). apply lookup_app_l_Some. Qed.

(** Everything else that happens to the store: requests, renewals and expiry of
    other keys. *)
Definition untouched (key : string) (p p' : Pointers) : Prop :=
  (store_ok p -> store_ok p') /\ stored p' key = stored p key.

Lemma untouched_inv key ok h p p' : inv (history_discipline key ok) h p -> untouched key p p' ->
  exists h', (forall i, rely (history_discipline key ok) i h h') /\ inv (history_discipline key ok) h' p'.
Proof.
  intros (Hk1 & Hk2 & Hk3) [He1 He2]. exists h. split; [reflexivity|]. cbn. split_and!; [auto| |done].
  unfold tracks in *. by rewrite He2.
Qed.

(** The version counter of the store cannot wrap. *)
Definition bounded (ok : history -> Prop) : Prop := forall h, ok h -> Z.of_nat (length h) <= INT64_MAX.

(** What the callback must establish from the newest value; [J] describes the
    captured variables at the start of an attempt, [Q] them and the status at the
    end of the operation.  A failed attempt may be followed by another one or by an
    error.  In a [lossy] backend, as with a remote store, this holds of every
    attempt: its value may have been stored while the answer was lost. *)
Record process_spec {C} (lossy : bool) (ok : history -> Prop) (i : nat) (process : ProcessFunction C)
    (J : history -> C -> Prop) (Q : history -> C -> res unit -> Prop) : Prop := {
  ps_stable h h' c : rely (history_discipline EmptyString ok) i h h' -> J h c -> J h' c;
  ps_error h c code : J h c -> Q h c (Err code);
  ps_attempt h c : ok h -> J h c ->
    match process c (newest h) with
    | (c', Ok (Some next), _) => J h c' /\ ok (h ++ [(next, i)]) /\ (lossy = true -> J (h ++ [(next, i)]) c') /\ Q (h ++ [(next, i)]) c' (Ok tt)
    | (c', Ok None, _) => (lossy = true -> J h c') /\ Q h c' (Ok tt)
    | (c', Err code, retry) => J h c' /\ Q h c' (Err code)
    end
}.

Definition erase {A} (r : res A) : res unit := match r with Ok _ => Ok tt | Err c => Err c end.

(** [lossy]: an error may be reported for a value that was stored. *)
Class CoordinationBackendLaws (lossy : bool) `{CoordinationBackend} : Prop := {
  be_Get_law ok table key i h : bounded ok ->
    safe (history_discipline (BuildPhysicalKey table key) ok) i (be_Get table key)
      (fun h' r => rely (history_discipline (BuildPhysicalKey table key) ok) i h h' /\
         match r with Ok result => ok h' /\ h' <> [] /\ rs_value result = newest h' | Err _ => True end) h;
  be_CAS_law {C} ok table key i (process : ProcessFunction C) J Q c h : bounded ok -> process_spec lossy ok i process J Q ->
    J h c -> safe (history_discipline (BuildPhysicalKey table key) ok) i (be_CAS table key process c)
      (fun h' r => Q h' r.1 (erase r.2)) h;
  be_CASAtRevision_law {C} ok table key i (process : ProcessFunction C) revision J Q c h : bounded ok ->
    process_spec lossy ok i process J Q -> J h c ->
    safe (history_discipline (BuildPhysicalKey table key) ok) i (be_CASAtRevision table key process revision c)
      (fun h' r => Q h' r.1 (erase r.2)) h
}.

(** ** Footprints: reads change nothing and a write changes only its key *)

Class BackendFootprint `{CoordinationBackend} : Prop := {
  fp_GetAll table : confined (fun _ => False) (be_GetAll table);
  fp_Get table key : confined (fun _ => False) (be_Get table key);
  fp_CAS {C} table key (process : ProcessFunction C) c :
    confined (fun k => k = BuildPhysicalKey table key) (be_CAS table key process c);
  fp_Delete table key : confined (fun k => k = BuildPhysicalKey table key) (be_Delete table key)
}.
