(* ===== verification/StoreBackend.v ===== *)
(** * The process-local coordination backend

    src/datasystem/coordinator/coordinator_store_backend.cpp implements
    [ICoordinationBackend] over a [CoordinatorStore]: logical tables become key
    prefixes and compare-and-swap becomes a bounded read-modify-write loop over
    the version-checked [Put] of the store.  The operations the adapter refuses
    (watches, leases, lifecycle) return their status without touching the store
    and have no model.  [StringPlusOne] is from common/util/strings_util.h and
    [IsCoordinatorCasConflict] from common/coordinator/coordinator_status.h. *)

From S2P Require Import Prelude Ordered HostPort MemoryKvStore TtlManager WatchRegistry WatchDispatcher CoordinatorStore.
From S2P Require Import StoreProgram BackendInterface.

Definition MAX_CAS_ATTEMPTS : nat := 16.

(** [physicalKey.substr(tableName.size() + 1)] *)
Definition RemoveTablePrefix (physicalKey tableName : string) : string :=
  substr_from (String.length tableName + 1) physicalKey.

Definition IsCoordinatorCasConflict (code : StatusCode) : bool :=
  bool_decide (code = K_DATA_INCONSISTENCY) || bool_decide (code = K_DUPLICATED) || bool_decide (code = K_NOT_FOUND).

Definition IsRetryableCasConflict (code : StatusCode) : bool :=
  bool_decide (code = K_TRY_AGAIN) || IsCoordinatorCasConflict code.

Definition BuildResult (entry : KeyValueEntry) : RangeSearchResult :=
  {| rs_key := kv_key entry; rs_value := kv_value entry; rs_coordinatorId := EmptyString;
     rs_version := kv_version entry; rs_modRevision := kv_modRevision entry |}.

(** The last byte below [0xff] is incremented and what follows it is dropped. *)
Fixpoint plus_one (reversed : list ascii) : list ascii :=
  match reversed with
  | [] => []
  | c :: rest => if (nat_of_ascii c <? 255)%nat then ascii_of_nat (nat_of_ascii c + 1) :: rest else plus_one rest
  end.
Definition StringPlusOne (value : string) : string :=
  String.string_of_list_ascii (rev (plus_one (rev (String.list_ascii_of_string value)))).

Definition GetStorePrefix (tableName : string) : res string :=
  _ ← check (negb (bool_decide (tableName = EmptyString))) K_INVALID; Ok tableName.

Definition ReadExact (physicalKey : string) : prog (res KeyValueEntry) :=
  r ⇐ request (CallRange physicalKey EmptyString);
  match rr_kvs r with
  | [] => Ret (Err K_NOT_FOUND)
  | [entry] => Ret (Ok entry)
  | _ => Ret (Err K_KVSTORE_ERROR)
  end.

Definition GetAll (tableName : string) : prog (res (list (string * string) * Z)) :=
  prefix ⇐ lift (GetStorePrefix tableName);
  let rangeKey := prefix +:+ "/" in
  r ⇐ request (CallRange rangeKey (StringPlusOne rangeKey));
  Ret (Ok ((fun entry => (RemoveTablePrefix (kv_key entry) prefix, kv_value entry)) <$> rr_kvs r, rr_revision r)).

Definition Get (tableName key : string) : prog (res RangeSearchResult) :=
  prefix ⇐ lift (GetStorePrefix tableName);
  entry ⇐ ReadExact (BuildPhysicalKey prefix key);
  Ret (Ok (BuildResult entry)).

(** The default of the interface, not overridden by the adapter. *)
Definition GetIfChanged (tableName key : string) (knownModRevision : Z) (knownCoordinatorId : string)
    : prog (res (RangeSearchResult * bool)) :=
  candidate ⇐ Get tableName key;
  Ret (Ok (candidate, (0 <? knownModRevision) && (rs_modRevision candidate =? knownModRevision) &&
                      bool_decide (rs_coordinatorId candidate = knownCoordinatorId))).

(** One iteration of [RunCas] after the read; [continue] is the next iteration. *)
Definition cas_attempt {C} (physicalKey : string) (process : ProcessFunction C) (expectedRevision : Z)
    (continue : StatusCode -> C -> prog (C * res RangeSearchResult)) (c : C) (current : KeyValueEntry)
    : prog (C * res RangeSearchResult) :=
  let '(c, processStatus, retry) := process c (kv_value current) in
  match processStatus with
  | Err code => if negb retry then Ret (c, Err code) else continue code c
  | Ok None => Ret (c, Ok (BuildResult current))
  | Ok (Some next) =>
      putStatus ← request (CallPut physicalKey next 0 (kv_version current) COORDINATOR_NO_MOD_REVISION_CHECK expectedRevision);
      match putStatus with
      | Ok (version, revision) =>
          Ret (c, Ok {| rs_key := physicalKey; rs_value := next; rs_coordinatorId := EmptyString;
                        rs_version := version; rs_modRevision := revision |})
      | Err code =>
          if negb (expectedRevision =? COORDINATOR_NO_GLOBAL_REVISION_CHECK) && bool_decide (code = K_DATA_INCONSISTENCY)
          then Ret (c, Err code)
          else if negb (IsRetryableCasConflict code) then Ret (c, Err code)
          else continue code c
      end
  end.

(** The loop: [attempts] left and the last error. *)
Fixpoint run_cas {C} (attempts : nat) (lastError : StatusCode) (physicalKey : string) (process : ProcessFunction C)
    (expectedRevision : Z) (c : C) : prog (C * res RangeSearchResult) :=
  match attempts with
  | O => Ret (c, Err lastError)
  | S attempts =>
      readStatus ← ReadExact physicalKey;
      let attempt := cas_attempt physicalKey process expectedRevision
        (fun code c => run_cas attempts code physicalKey process expectedRevision c) c in
      match readStatus with
      | Ok current => attempt current
      | Err K_NOT_FOUND => attempt {| kv_key := physicalKey; kv_value := EmptyString;
                                      kv_version := COORDINATOR_KEY_NOT_EXISTS_VERSION; kv_modRevision := 0 |}
      | Err code => Ret (c, Err code)
      end
  end.

Definition RunCas {C} (physicalKey : string) (process : ProcessFunction C) (expectedRevision : Z) (c : C)
    : prog (C * res RangeSearchResult) :=
  run_cas MAX_CAS_ATTEMPTS K_TRY_AGAIN physicalKey process expectedRevision c.

Definition CAS {C} (tableName key : string) (process : ProcessFunction C) (c : C) : prog (C * res RangeSearchResult) :=
  match GetStorePrefix tableName with
  | Err code => Ret (c, Err code)
  | Ok prefix => RunCas (BuildPhysicalKey prefix key) process COORDINATOR_NO_GLOBAL_REVISION_CHECK c
  end.

Definition CASAtRevision {C} (tableName key : string) (process : ProcessFunction C) (expectedRevision : Z) (c : C)
    : prog (C * res RangeSearchResult) :=
  if negb (0 <? expectedRevision) then Ret (c, Err K_INVALID)
  else match GetStorePrefix tableName with
       | Err code => Ret (c, Err code)
       | Ok prefix => RunCas (BuildPhysicalKey prefix key) process expectedRevision c
       end.

(** The raw-value form: one attempt. *)
Definition CAS_value (tableName key oldValue newValue : string) : prog (res unit) :=
  prefix ⇐ lift (GetStorePrefix tableName);
  let physicalKey := BuildPhysicalKey prefix key in
  rc ← ReadExact physicalKey;
  expectedVersion ⇐ Ret (match rc with
    | Ok current => _ ← check (bool_decide (kv_value current = oldValue)) K_TRY_AGAIN; Ok (kv_version current)
    | Err K_NOT_FOUND => Ok COORDINATOR_KEY_NOT_EXISTS_VERSION
    | Err code => Err code
    end);
  _ ⇐ request (CallPut physicalKey newValue 0 expectedVersion COORDINATOR_NO_MOD_REVISION_CHECK
                 COORDINATOR_NO_GLOBAL_REVISION_CHECK);
  Ret (Ok tt).

Definition Delete (tableName key : string) : prog (res unit) :=
  prefix ⇐ lift (GetStorePrefix tableName);
  _ ⇐ request (CallDeleteRange (BuildPhysicalKey prefix key) EmptyString);
  Ret (Ok tt).
