(* ===== verification/HistoryFrame.v ===== *)
(** * What a program leaves alone

    A request that does not name a key leaves the entry of the key as it is, so a
    program confined to other keys is safe for any discipline of the key; and the
    history of a key only grows. *)

From S2P Require Import Prelude Ordered HostPort MemoryKvStore TtlManager WatchRegistry WatchDispatcher CoordinatorStore.
From S2P Require Import StoreProgram BackendInterface.

Lemma put_other key value ttlMs ev em eg kv kv' r events : om_sorted (data_ kv) ->
  Put key value ttlMs ev em eg kv = Ok (kv', r, events) ->
  om_sorted (data_ kv') /\ forall k, k <> key -> om_find k (data_ kv') = om_find k (data_ kv).
Proof.
  intros Hs E. unfold Put in E. apply bind_Ok in E as (u1 & _ & E). apply bind_Ok in E as (u2 & _ & E).
  cbv zeta in E. apply bind_Ok in E as (u3 & _ & E). injection E as <- <- <-. cbn [data_].
  split; [by apply om_insert_sorted|]. intros k Hk. by rewrite om_find_insert_ne.
Qed.

Lemma delete_other key rangeEnd em kv kv' r events : om_sorted (data_ kv) ->
  Delete key rangeEnd em kv = Ok (kv', r, events) ->
  om_sorted (data_ kv') /\ forall k, ~ modifies k (CallDeleteRange key rangeEnd) -> om_find k (data_ kv') = om_find k (data_ kv).
Proof.
  intros Hs E. unfold Delete in E. apply bind_Ok in E as (u1 & _ & E). cbv zeta in E.
  destruct (select_entries key rangeEnd kv) as [|[k0 e0] l] eqn:El; [by injection E as <- <- <-|].
  apply bind_Ok in E as (u2 & _ & E). set (keys := ((k0, e0) :: l).*1) in E.
  assert (data_ kv' = erase_keys keys (data_ kv)) as -> by (by inversion E).
  pose proof (fun k => om_find_erase_keys keys (data_ kv) k Hs) as Her. split; [apply (Her EmptyString)|].
  intros k Hk. destruct (Her k) as [-> _]. rewrite decide_False; [done|]. unfold keys. rewrite <-El.
  intros (x & -> & Hx)%list_elem_of_fmap. apply Hk. apply elem_of_select in Hx as [_ Hx]; [|done]. cbn. by case_bool_decide.
Qed.

Lemma exec_other now c p key : store_ok p -> ~ modifies key c ->
  store_ok (exec now c p).1 /\ stored (exec now c p).1 key = stored p key.
Proof.
  intros Hs Hm. unfold stored, store_ok in *. destruct c as [k v ttl ev em eg|k e|k e]; cbn [exec fst]; [|done|].
  - unfold cs_Put. destruct (CheckInitialized p) as [s|c] eqn:Ep; cbn [mbind res_bind]; [|by cbn; rewrite Ep].
    destruct (Put _ _ _ _ _ _ _) as [[[kv r] events]|code] eqn:E; cbn [mbind res_bind]; [|by cbn; rewrite Ep].
    destruct s as [kv0 d t]. apply put_other in E as [E1 E2]; [|done]. cbn. split; [done|]. apply E2. intros ->. by apply Hm.
  - unfold cs_DeleteRange. destruct (CheckInitialized p) as [s|c] eqn:Ep; cbn [mbind res_bind]; [|by cbn; rewrite Ep].
    destruct (Delete _ _ _ _) as [[[kv r] events]|code] eqn:E; cbn [mbind res_bind]; [|by cbn; rewrite Ep].
    destruct s as [kv0 d t]. apply delete_other in E as [E1 E2]; [|done]. cbn. split; [done|]. by apply E2.
Qed.

Section frame.
Context (key : string) (ok : history -> Prop).
Abbreviation D := (history_discipline key ok).

Lemma confined_safe {A} i (p : prog A) h : confined (fun k => k <> key) p -> safe D i p (fun h' _ => rely D i h h') h.
Proof.
  enough (forall h0, rely D i h0 h -> confined (fun k => k <> key) p -> safe D i p (fun h' _ => rely D i h0 h') h) as H
    by (apply H; reflexivity).
  intros h0. revert h. induction p as [a|c k IH]; intros h H0; [done|]. intros [Hc Hk].
  cbn [safe]. intros h1 now s Hr (Hs & Ht & Hok). destruct (exec_other now c s key Hs) as [Hs' Hst].
  { intros Hm. by apply (Hc key Hm). }
  exists h1. split; [exists []; by rewrite app_nil_r|]. split.
  - cbn. split_and!; [done| |done]. unfold tracks in *. by rewrite Hst.
  - apply IH; [|apply Hk]. by trans h.
Qed.

(** The history only grows. *)
Lemma safe_extends {A} i (p : prog A) Q h : safe D i p Q h -> safe D i p (fun h' a => h `prefix_of` h' /\ Q h' a) h.
Proof.
  enough (forall h0, h0 `prefix_of` h -> safe D i p Q h -> safe D i p (fun h' a => h0 `prefix_of` h' /\ Q h' a) h) as H
    by (by apply H).
  intros h0. revert h. induction p as [a|c k IH]; intros h H0 Hs; cbn [safe] in *; [done|].
  intros h1 now s Hr Hi. destruct (Hs h1 now s Hr Hi) as (h2 & Hg & Hi' & Hk). exists h2. split_and!; [done..|].
  apply IH; [|done]. destruct Hr as (l & -> & _), Hg as (l' & -> & _). by do 2 apply prefix_app_r.
Qed.

Lemma rely_prefix i h h' : rely D i h h' -> h `prefix_of` h'.
Proof. intros (l & -> & _). by exists l. Qed.
End frame.
