(* ===== verification/BackendTheory.v ===== *)
(** * The process-local backend keeps the promises of the interface

    Effect of a request on the entry of a key, the compare-and-swap loop, and
    the instance of [CoordinationBackendLaws]; and the listing of a table. *)

From S2P Require Import Prelude Ordered HostPort MemoryKvStore TtlManager WatchRegistry WatchDispatcher CoordinatorStore.
From S2P Require Import StoreProgram BackendInterface StoreBackend.

#[global] Instance CoordinatorStoreBackend : CoordinationBackend := {|
  be_GetAll := GetAll; be_Get := Get; be_GetIfChanged := GetIfChanged; be_CAS := @CAS;
  be_CASAtRevision := @CASAtRevision; be_Delete := StoreBackend.Delete
|}.

(** ** Requests *)

Lemma CheckInitialized_pointers s : CheckInitialized (pointers_to s) = Ok s.
Proof. by destruct s. Qed.

(** What a version-checked [Put] found and what it left. *)
Lemma exec_put now key value ttl ev em eg p : store_ok p -> ev <> COORDINATOR_NO_VERSION_CHECK ->
  let p' := (exec now (CallPut key value ttl ev em eg) p).1 in
  match (exec now (CallPut key value ttl ev em eg) p).2 with
  | Ok _ => store_ok p' /\
      match stored p key with
      | Some e => ve_version e = ev /\ ev <> COORDINATOR_KEY_NOT_EXISTS_VERSION
      | None => ev = COORDINATOR_KEY_NOT_EXISTS_VERSION end /\
      (exists e', stored p' key = Some e' /\ ve_value e' = value /\
         ve_version e' = match stored p key with Some e => i64 (ve_version e + 1) | None => 1 end) /\
      forall k, k <> key -> stored p' k = stored p k
  | Err _ => p' = p
  end.
Proof.
  intros Hok Hev. cbn [exec]. unfold cs_Put, stored, store_ok in *.
  destruct (CheckInitialized p) as [s|]; [|done]. cbn [mbind res_bind].
  destruct (Put key value ttl ev em eg (memKvStore_ s)) as [[[kv pr] events]|code] eqn:E; cbn; [|done].
  destruct s as [kv0 d t]. cbn [memKvStore_] in *.
  unfold Put in E. destruct (check _ _) in E; [|done]. cbn [mbind res_bind] in E.
  destruct (if negb (em =? _) then _ else _) in E; [|done]. cbn [mbind res_bind] in E.
  set (stored' := match om_find key (data_ kv0) with Some e => _ | None => _ end) in E.
  destruct (if ev =? COORDINATOR_KEY_NOT_EXISTS_VERSION then _ else _) eqn:Ec in E; [|done].
  cbn [mbind res_bind] in E. injection E as <- <- <-. cbn [data_]. split_and!.
  - by apply om_insert_sorted.
  - destruct (Z.eqb_spec ev COORDINATOR_KEY_NOT_EXISTS_VERSION) as [He|He]; [by destruct (om_find key (data_ kv0))|].
    destruct (Z.eqb_spec ev COORDINATOR_NO_VERSION_CHECK); [done|]. cbn [negb] in Ec.
    destruct (om_find key (data_ kv0)) as [e|]; [|done]. apply check_Ok, Z.eqb_eq in Ec. done.
  - exists stored'. rewrite om_find_insert, decide_True by done. split; [done|].
    unfold stored'. destruct (om_find key (data_ kv0)); done.
  - intros k Hk. rewrite om_find_insert, decide_False by done. done.
Qed.

Lemma exec_range now key p : (exec now (CallRange key EmptyString) p).1 = p /\
  match (exec now (CallRange key EmptyString) p).2 with
  | Ok r => rr_kvs r = match stored p key with Some e => [entry_of key e] | None => [] end
  | Err c => c = K_NOT_READY
  end.
Proof.
  split; [done|]. cbn [exec snd]. unfold cs_Range, stored. destruct (CheckInitialized p) as [s|c] eqn:E.
  2: { unfold CheckInitialized in E. cbn. repeat case_match; congruence. }
  cbn [mbind res_bind]. unfold Range. rewrite bool_decide_true by done. by destruct (om_find key _).
Qed.

(** ** One key and its history *)

Section history.
Context (key : string) (ok : history -> Prop) (Hb : bounded ok).
Abbreviation D := (history_discipline key ok).

Lemma guar_refl i h : guar D i h h.
Proof. exists []. by rewrite app_nil_r. Qed.

(** Reading never changes the history; the answer is the newest value. *)
Definition read_entry (h : history) (r : res KeyValueEntry) : Prop :=
  match r with
  | Ok e => h <> [] /\ kv_value e = newest h /\ kv_version e = Z.of_nat (length h)
  | Err K_NOT_FOUND => h = []
  | Err _ => True
  end.

Lemma ReadExact_safe i h :
  safe D i (ReadExact key) (fun h' r => rely D i h h' /\ ok h' /\ read_entry h' r) h.
Proof.
  eapply safe_try; [apply safe_request with (Q := fun h' r => rely D i h h' /\ ok h' /\
      match r with Ok r => match last h' with
                           | Some (v, _) => exists e, rr_kvs r = [e] /\ kv_value e = v /\ kv_version e = Z.of_nat (length h')
                           | None => rr_kvs r = [] end
                 | Err c => c = K_NOT_READY end)| |].
  - intros h1 now p Hr Hi. exists h1. split; [apply guar_refl|]. split; [done|]. split; [done|]. destruct Hi as (_ & Ht & Hok).
    split; [done|]. destruct (exec_range now key p) as [_ Hx]. unfold tracks in Ht.
    destruct ((exec now (CallRange key EmptyString) p).2) as [r|c]; [|done]. cbn in Hx |- *.
    destruct (last h1) as [[v a]|]; [|by rewrite Hx, Ht]. destruct Ht as (e & He & Hv & Hn).
    exists (entry_of key e). rewrite Hx, He. split_and!; done.
  - intros h1 r (Hr & Hok & Hx). destruct (last h1) as [[v a]|] eqn:El.
    + destruct Hx as (e & -> & Hv & Hn). cbn. split_and!; try done; [by intros ->|]. unfold newest. by rewrite El.
    + rewrite Hx. cbn. apply last_None in El. done.
  - intros h1 c (Hr & Hok & ->). cbn. done.
Qed.

(** A version-checked write succeeds only on the history the version was read from. *)
Lemma put_safe i h value version eg : version = Z.of_nat (length h) -> ok (h ++ [(value, i)]) ->
  safe D i (request (CallPut key value 0 version COORDINATOR_NO_MOD_REVISION_CHECK eg))
    (fun h' r => match r with Ok _ => h' = h ++ [(value, i)] | Err _ => rely D i h h' end) h.
Proof.
  intros Hv Hok'. apply safe_request. intros h1 now p Hr (Hs & Ht & Hok).
  pose proof (exec_put now key value 0 version COORDINATOR_NO_MOD_REVISION_CHECK eg p Hs) as Hx.
  specialize (Hx ltac:(unfold COORDINATOR_NO_VERSION_CHECK; lia)). cbv zeta in Hx.
  destruct ((exec now _ p).2) as [a|c] eqn:E.
  2: { exists h1. split; [apply guar_refl|]. rewrite Hx. done. }
  destruct Hx as (Hs' & Hver & (e' & He' & Hval & Hnew) & _).
  assert (h1 = h) as ->.
  { destruct Hr as (l & -> & _). assert (length l = 0%nat) as ->%nil_length_inv; [|by rewrite app_nil_r].
    unfold tracks in Ht. destruct (last (h ++ l)) as [[v a']|] eqn:El.
    - destruct Ht as (e & He & _ & Hn). rewrite He in Hver. rewrite length_app in Hn. lia.
    - apply last_None in El. apply app_eq_nil in El as [_ ->]. done. }
  exists (h ++ [(value, i)]). split; [|split; [|done]].
  - exists [(value, i)]. split; [done|]. by repeat constructor.
  - split; [done|]. split; [|done]. unfold tracks. rewrite last_snoc. exists e'. split_and!; [done|done|].
    rewrite Hnew. pose proof (Hb _ Hok') as Hlen. rewrite length_app in Hlen |- *. cbn in *.
    unfold COORDINATOR_KEY_NOT_EXISTS_VERSION in Hver. destruct (stored p key); [|lia].
    rewrite i64_small; unfold INT64_MAX in *; lia.
Qed.

Lemma cas_attempt_safe {C} lossy i (process : ProcessFunction C) eg J Q continue c current h :
  process_spec lossy ok i process J Q -> ok h -> J h c -> kv_value current = newest h ->
  kv_version current = Z.of_nat (length h) ->
  (forall code c h', J h' c -> safe D i (continue code c) (fun h' r => Q h' r.1 (erase r.2)) h') ->
  safe D i (cas_attempt key process eg continue c current) (fun h' r => Q h' r.1 (erase r.2)) h.
Proof.
  intros [Hst Herr Hat] Hok HJ Hv Hn Hcont. unfold cas_attempt. rewrite Hv. specialize (Hat h c Hok HJ).
  destruct (process c (newest h)) as [[c' [[next|]|code]] retry]; cbn [negb].
  - destruct Hat as (HJ' & Hok' & _ & HQ). eapply safe_bind; [apply put_safe; eassumption|]. cbn. intros h1 [[ver rev]|code].
    + intros ->. done.
    + intros Hr. assert (J h1 c') as HJ1 by exact (Hst h h1 c' Hr HJ').
      repeat case_match; cbn; eauto.
  - by destruct Hat.
  - destruct Hat as [HJ' HQ]. destruct retry; cbn; auto.
Qed.

Lemma run_cas_safe {C} lossy n i (process : ProcessFunction C) eg J Q lastError c h :
  process_spec lossy ok i process J Q -> J h c ->
  safe D i (run_cas n lastError key process eg c) (fun h' r => Q h' r.1 (erase r.2)) h.
Proof.
  intros Hps. revert lastError c h. induction n as [|n IH]; intros lastError c h HJ; cbn [run_cas].
  - by apply (ps_error _ _ _ _ _ _ Hps).
  - eapply safe_bind; [apply ReadExact_safe|]. cbn. intros h1 r (Hr & Hok & Hread).
    assert (HJ1 : J h1 c) by exact (ps_stable _ _ _ _ _ _ Hps h h1 c Hr HJ).
    assert (Hcont : forall code c h', J h' c -> safe D i (run_cas n code key process eg c) (fun h' r => Q h' r.1 (erase r.2)) h')
      by eauto.
    destruct r as [e|code].
    + destruct Hread as (_ & Hv & Hn). by eapply cas_attempt_safe.
    + destruct code; try (by apply (ps_error _ _ _ _ _ _ Hps)). cbn in Hread. subst h1. by eapply cas_attempt_safe.
Qed.
End history.

Lemma GetStorePrefix_cases table : GetStorePrefix table = Ok table \/ GetStorePrefix table = Err K_INVALID.
Proof. unfold GetStorePrefix, check. case_bool_decide; auto. Qed.

Lemma safe_prefix {Ghost B} (d : discipline Ghost) i table (f : string -> prog (res B)) Q g :
  Q g (Err K_INVALID) -> safe d i (f table) Q g -> safe d i (try_bind (lift (GetStorePrefix table)) f) Q g.
Proof. intros HE Hf. by destruct (GetStorePrefix_cases table) as [->| ->]. Qed.

#[global] Instance CoordinatorStoreBackend_laws lossy : CoordinationBackendLaws lossy.
Proof.
  split.
  - intros ok table key i h Hb. cbn [be_Get CoordinatorStoreBackend]. unfold Get.
    apply safe_prefix; [split; [reflexivity|done]|].
    eapply safe_try; [by apply ReadExact_safe| |].
    + cbn. intros h1 e (Hr & Hok & Hne & Hv & _). done.
    + cbn. tauto.
  - intros C ok table key i process J Q c h Hb Hps HJ. change (@be_CAS CoordinatorStoreBackend) with @CAS. unfold CAS.
    destruct (GetStorePrefix_cases table) as [->| ->]; [by eapply run_cas_safe|]. by apply (ps_error _ _ _ _ _ _ Hps).
  - intros C ok table key i process rev J Q c h Hb Hps HJ. change (@be_CASAtRevision CoordinatorStoreBackend) with @CASAtRevision.
    unfold CASAtRevision. case_match; [by apply (ps_error _ _ _ _ _ _ Hps)|].
    destruct (GetStorePrefix_cases table) as [->| ->]; [by eapply run_cas_safe|]. by apply (ps_error _ _ _ _ _ _ Hps).
Qed.

(** ** A backend that loses answers

    The same store behind a connection that loses the answer of every
    compare-and-swap: what was stored is stored, and the caller sees an error. *)

Definition answer_lost {C} (cas : prog (C * res RangeSearchResult)) : prog (C * res RangeSearchResult) :=
  r ← cas; Ret (r.1, match r.2 with Ok _ => Err K_RPC_DEADLINE_EXCEEDED | Err code => Err code end).

Definition LosingBackend : CoordinationBackend := {|
  be_GetAll := GetAll; be_Get := Get; be_GetIfChanged := GetIfChanged;
  be_CAS C table key process c := answer_lost (CAS table key process c);
  be_CASAtRevision C table key process revision c := answer_lost (CASAtRevision table key process revision c);
  be_Delete := StoreBackend.Delete
|}.

Lemma process_spec_keeps {C} ok i (process : ProcessFunction C) J Q : process_spec true ok i process J Q ->
  process_spec true ok i process J (fun h c r => J h c /\ Q h c r).
Proof.
  intros [Hst Herr Hat]. split; [done|auto|]. intros h c Hok HJ. specialize (Hat h c Hok HJ).
  destruct (process c (newest h)) as [[c' [[next|]|code]] retry]; naive_solver.
Qed.

Lemma answer_lost_safe {C} key ok i (process : ProcessFunction C) J Q (cas : prog (C * res RangeSearchResult)) h :
  process_spec true ok i process J Q ->
  safe (history_discipline key ok) i cas (fun h' r => J h' r.1 /\ Q h' r.1 (erase r.2)) h ->
  safe (history_discipline key ok) i (answer_lost cas) (fun h' r => Q h' r.1 (erase r.2)) h.
Proof.
  intros Hps Hs. eapply safe_bind; [exact Hs|]. intros h' [c [r|code]] [HJ HQ]; cbn in *; [|done]. by apply (ps_error _ _ _ _ _ _ Hps).
Qed.

Lemma LosingBackend_laws : @CoordinationBackendLaws true LosingBackend.
Proof.
  split.
  - exact (@be_Get_law true CoordinatorStoreBackend _).
  - intros C ok table key i process J Q c h Hb Hps HJ. change (@be_CAS LosingBackend) with (fun C t k p c => answer_lost (@CAS C t k p c)).
    eapply answer_lost_safe; [done|]. eapply (@be_CAS_law true CoordinatorStoreBackend _ C ok table key i process _ _ c h Hb (process_spec_keeps _ _ _ _ _ Hps) HJ).
  - intros C ok table key i process rev J Q c h Hb Hps HJ.
    change (@be_CASAtRevision LosingBackend) with (fun C t k p r c => answer_lost (@CASAtRevision C t k p r c)).
    eapply answer_lost_safe; [done|]. eapply (@be_CASAtRevision_law true CoordinatorStoreBackend _ C ok table key i process rev _ _ c h Hb (process_spec_keeps _ _ _ _ _ Hps) HJ).
Qed.

(** ** Footprints *)

Lemma ReadExact_confined P key : confined P (ReadExact key).
Proof. apply issues_try; [by split|]. intros r. by destruct (rr_kvs r) as [|e [|]]. Qed.

Lemma confined_prefix {B} P table (f : string -> prog (res B)) :
  confined P (f table) -> confined P (try_bind (lift (GetStorePrefix table)) f).
Proof. intros Hf. by destruct (GetStorePrefix_cases table) as [->| ->]. Qed.

Lemma run_cas_confined {C} n lastError key (process : ProcessFunction C) eg c :
  confined (fun k => k = key) (run_cas n lastError key process eg c).
Proof.
  revert lastError c. induction n as [|n IH]; intros lastError c; cbn [run_cas]; [done|].
  assert (Hat : forall current, confined (fun k => k = key)
    (cas_attempt key process eg (fun code c => run_cas n code key process eg c) c current)).
  { intros current. unfold cas_attempt. destruct (process c (kv_value current)) as [[c' [[next|]|code]] retry]; [|done|].
    - apply issues_bind; [split; [by intros k Hk; cbn in Hk|done]|]. intros [[v r]|code]; [done|].
      repeat case_match; try done; apply IH.
    - destruct retry; [apply IH|done]. }
  apply issues_bind; [apply ReadExact_confined|]. intros [e|[]]; try done; apply Hat.
Qed.

#[global] Instance CoordinatorStoreBackend_footprint : BackendFootprint.
Proof.
  split.
  - intros table. apply confined_prefix. apply issues_try; [by split|done].
  - intros table key. apply confined_prefix. apply issues_try; [apply ReadExact_confined|done].
  - intros C table key process c. change (@be_CAS CoordinatorStoreBackend) with @CAS. unfold CAS.
    destruct (GetStorePrefix_cases table) as [->| ->]; [apply run_cas_confined|done].
  - intros table key. apply confined_prefix. apply issues_try; [|done]. split; [|done].
    intros k Hk. cbn in Hk. done.
Qed.

(** ** Listing a table *)

Lemma ltk_String a b (s t : string) :
  ltk (String a s) (String b t) = match Ascii.compare a b with Lt => true | Eq => ltk s t | Gt => false end.
Proof. unfold ltk, string_LtKey, string_ltb. cbn. by destruct (Ascii.compare a b). Qed.

Lemma StringPlusOne_table table : StringPlusOne (table +:+ "/") = table +:+ "0".
Proof.
  unfold StringPlusOne.
  assert (Happ : forall c, String.list_ascii_of_string (table +:+ String c EmptyString) =
                           String.list_ascii_of_string table ++ [c])
    by (intros c; induction table as [|x t IH]; [done|]; rewrite append_String; cbn; by rewrite IH).
  rewrite Happ, rev_app_distr.
  change (plus_one (rev ["/"%char] ++ ?l)) with ("0"%char :: l). cbn [rev]. rewrite rev_involutive, <-(Happ "0"%char). apply String.string_of_list_ascii_of_string.
Qed.

(** The keys from [table/] up to [table0] are those below [table/]. *)
Lemma in_table_range table s :
  ltk s (table +:+ "/") = false /\ ltk s (table +:+ "0") = true <-> exists k, s = table +:+ "/" +:+ k.
Proof.
  revert s. induction table as [|x table IH]; intros [|y s].
  - split; [by intros [? _]|by intros [k ?]].
  - change (EmptyString +:+ ?x) with x. rewrite !ltk_String. split.
    + intros [H1 H2]. exists s. change (String y s = String "/" s). f_equal.
      assert (N_of_ascii y = 47%N) as Hy; [|by rewrite <-(ascii_N_embedding y), Hy].
      unfold Ascii.compare in *. change (N_of_ascii "/") with 47%N in *. change (N_of_ascii "0") with 48%N in *.
      destruct (N.compare_spec (N_of_ascii y) 47), (N.compare_spec (N_of_ascii y) 48); try done; try lia.
      destruct s; done.
    + intros [k Hk]. injection Hk as -> ->. by destruct k.
  - split; [by intros [? _]|by intros [k ?]].
  - rewrite append_String, append_String, !ltk_String. split.
    + intros [H1 H2]. destruct (Ascii.compare y x) eqn:E; [|done..]. apply Ascii.compare_eq_iff in E as ->.
      destruct (proj1 (IH s) (conj H1 H2)) as [k ->]. exists k. done.
    + intros [k Hk]. rewrite append_String in Hk. injection Hk as -> ->.
      assert (Ascii.compare x x = Eq) as -> by (unfold Ascii.compare; apply N.compare_refl). apply IH. eauto.
Qed.

Lemma RemoveTablePrefix_physical table key : RemoveTablePrefix (table +:+ "/" +:+ key) table = key.
Proof.
  unfold RemoveTablePrefix. rewrite <-str_app_assoc.
  replace (String.length table + 1)%nat with (String.length (table +:+ "/")) by (by rewrite str_length_app).
  apply substr_from_app.
Qed.

(** [GetAll] lists the entries below the table, each once, under their relative keys. *)
Lemma GetAll_lists now table p s : table <> EmptyString -> CheckInitialized p = Ok s -> om_sorted (data_ (memKvStore_ s)) ->
  exists kvs, run now (GetAll table) p = (Ok (kvs, revision_ (memKvStore_ s)), p) /\ NoDup kvs.*1 /\
    forall k v, (k, v) ∈ kvs <-> exists e, stored p (BuildPhysicalKey table k) = Some e /\ ve_value e = v.
Proof.
  intros Hne Hp Hs. unfold GetAll. destruct (GetStorePrefix_cases table) as [E|E].
  2: { unfold GetStorePrefix in E. by rewrite bool_decide_false in E. }
  rewrite E. cbn -[StringPlusOne]. unfold cs_Range. rewrite Hp. cbn -[StringPlusOne]. rewrite StringPlusOne_table.
  unfold Range. rewrite bool_decide_false by (by destruct table). cbn [rr_kvs rr_revision].
  eexists. split; [done|]. set (data := data_ (memKvStore_ s)) in *. rewrite <-list_fmap_compose. unfold compose.
  cbn [kv_key kv_value entry_of]. split.
  - rewrite <-list_fmap_compose. unfold compose. cbn [fst].
    apply NoDup_fmap_2_strong.
    + intros [k1 e1] [k2 e2] H1 H2 Heq. apply elem_of_entries_between in H1 as (H1 & H1'), H2 as (H2 & H2'); [|done..].
      cbn [fst snd kv_key entry_of] in *. apply in_table_range in H1' as [r1 ->], H2' as [r2 ->].
      rewrite !RemoveTablePrefix_physical in Heq.
      subst r2. apply om_find_elem in H1, H2; [|done..]. congruence.
    + pose proof (entries_between_sorted (table +:+ "/") (table +:+ "0") data Hs) as Hsort.
      induction Hsort as [|x l Hl IH Hx]; constructor; [|done]. intros Hin. rewrite Forall_forall in Hx.
      specialize (Hx _ Hin). unfold key_lt in Hx. by rewrite ltk_irrefl in Hx.
  - intros k v. rewrite list_elem_of_fmap. unfold stored. rewrite Hp. split.
    + intros (x & [= -> ->] & ([k' e] & -> & Hin)%list_elem_of_fmap).
      apply elem_of_entries_between in Hin as (Hin & Hr); [|done]. cbn [fst snd kv_key kv_value entry_of] in *.
      apply in_table_range in Hr as [k ->]. exists e. rewrite RemoveTablePrefix_physical.
      split; [|done]. by apply om_find_elem.
    + intros (e & He & <-). apply om_find_elem in He; [|done]. exists (entry_of (table +:+ "/" +:+ k) e).
      cbn [kv_key kv_value entry_of]. rewrite RemoveTablePrefix_physical. split; [done|].
      apply list_elem_of_fmap. exists (table +:+ "/" +:+ k, e). split; [done|]. apply elem_of_entries_between; [done|]. split; [done|].
      apply in_table_range. eexists. reflexivity.
Qed.
