(* ===== verification/RingTheory.v ===== *)
(** * Cyclic lookup on a token ring

    The lookup shared by [FindOwner] and [LocateIndexedOwner] of the hash
    algorithm and by the next-member search of a snapshot: [std::lower_bound] on
    entries sorted by token, wrapping to the front.  The lemmas characterise it
    as the entry at the least clockwise distance, and relate the lookups on two
    rings one of which contains the other. *)

From S2P Require Import Prelude Ordered.

(** Clockwise distance from [t] to [x] on the 32-bit circle. *)
Definition clockwise (t x : Z) : Z := u32 (x - t).

Lemma clockwise_ge t x : is_u32 t -> is_u32 x -> t <= x -> clockwise t x = x - t.
Proof. unfold is_u32. intros. apply u32_small. unfold is_u32. lia. Qed.

Lemma clockwise_lt t x : is_u32 t -> is_u32 x -> x < t -> clockwise t x = x - t + 2 ^ 32.
Proof.
  unfold is_u32. intros. unfold clockwise, u32.
  rewrite <-(Z.mod_add _ 1) by lia. rewrite Z.mod_small; lia.
Qed.

Lemma clockwise_inj t x y : is_u32 t -> is_u32 x -> is_u32 y ->
  clockwise t x = clockwise t y -> x = y.
Proof.
  intros Ht Hx Hy.
  destruct (decide (t <= x)); [rewrite (clockwise_ge t x) by done|rewrite (clockwise_lt t x) by (done || lia)];
  (destruct (decide (t <= y)); [rewrite (clockwise_ge t y) by done|rewrite (clockwise_lt t y) by (done || lia)]);
  unfold is_u32 in *; lia.
Qed.

Section cyclic.
Context {A : Type} (tok : A -> Z).
Implicit Types (l : list A) (o : A) (t : Z).

Definition cyclic_at l t : option A :=
  match drop_while (fun o => tok o <? t) l with
  | o :: _ => Some o
  | [] => head l
  end.

Definition ring_sorted l : Prop := StronglySorted (fun a b => tok a <= tok b) l.
Definition ring_u32 l : Prop := forall o, o ∈ l -> is_u32 (tok o).
(** Entries with the same token are the same entry. *)
Definition ring_inj l : Prop := forall a b, a ∈ l -> b ∈ l -> tok a = tok b -> a = b.
Definition nearest l t o : Prop :=
  o ∈ l /\ forall o', o' ∈ l -> clockwise t (tok o) <= clockwise t (tok o').

Lemma drop_while_ring l t : ring_sorted l ->
  drop_while (fun o => tok o <? t) l = filter (fun o => (tok o <? t) = false) l.
Proof.
  intros Hs. apply drop_while_filter. eapply StronglySorted_impl; [|exact Hs].
  cbn. intros a b Hab. rewrite !Z.ltb_lt. lia.
Qed.

Lemma cyclic_at_nearest l t : ring_sorted l -> ring_u32 l -> is_u32 t -> l <> [] ->
  exists o, cyclic_at l t = Some o /\ nearest l t o.
Proof.
  intros Hs Hu Ht Hne. unfold cyclic_at. rewrite drop_while_ring by done.
  destruct (filter (fun o => (tok o <? t) = false) l) as [|o l'] eqn:Ef.
  - assert (Hlow : forall o, o ∈ l -> tok o < t).
    { intros o Ho. destruct (decide (tok o < t)); [done|].
      assert (Hin : o ∈ filter (fun o => (tok o <? t) = false) l)
        by (apply list_elem_of_filter; split; [by apply Z.ltb_ge; lia|done]).
      rewrite Ef in Hin. by apply not_elem_of_nil in Hin. }
    destruct l as [|o l]; [done|]. exists o. split; [done|]. split; [left|].
    intros o' Ho'. assert (tok o <= tok o').
    { inversion_clear Hs as [|?? _ Hall]. apply elem_of_cons in Ho' as [->|Ho']; [lia|].
      rewrite Forall_forall in Hall. by apply Hall. }
    rewrite !clockwise_lt by (auto using list_elem_of_here || apply Hlow; auto using list_elem_of_here).
    lia.
  - exists o. split; [done|].
    assert (Ho : o ∈ filter (fun o => (tok o <? t) = false) l) by (rewrite Ef; left).
    apply list_elem_of_filter in Ho as [Hge%Z.ltb_ge Ho]. split; [done|]. intros o' Ho'.
    rewrite (clockwise_ge t (tok o)) by auto. pose proof (Hu _ Ho) as Huo. pose proof (Hu _ Ho') as Huo'.
    destruct (decide (tok o' < t)); [rewrite clockwise_lt by (done || lia); unfold is_u32 in *; lia|].
    rewrite clockwise_ge by (done || lia).
    assert (Hin : o' ∈ o :: l')
      by (rewrite <-Ef; apply list_elem_of_filter; split; [by apply Z.ltb_ge; lia|done]).
    apply (StronglySorted_filter _ (fun o => (tok o <? t) = false)) in Hs. rewrite Ef in Hs.
    inversion_clear Hs as [|?? _ Hall]. apply elem_of_cons in Hin as [->|Hin]; [lia|].
    rewrite Forall_forall in Hall. apply Hall in Hin. lia.
Qed.

Lemma nearest_unique l t o o' : ring_u32 l -> ring_inj l -> is_u32 t ->
  nearest l t o -> nearest l t o' -> o = o'.
Proof.
  intros Hu Hi Ht [Ho Hm] [Ho' Hm']. apply Hi; [done..|].
  eapply clockwise_inj; [exact Ht|auto..]. apply Z.le_antisymm; auto.
Qed.

Lemma cyclic_at_iff l t o : ring_sorted l -> ring_u32 l -> ring_inj l -> is_u32 t ->
  cyclic_at l t = Some o <-> nearest l t o.
Proof.
  intros Hs Hu Hi Ht. split.
  - intros E. destruct (cyclic_at_nearest l t) as (o' & E' & Hn); [done..| |by simplify_eq].
    intros ->. done.
  - intros Hn. destruct (cyclic_at_nearest l t) as (o' & E' & Hn'); [done..| |].
    + intros ->. destruct Hn as [Hn _]. by apply not_elem_of_nil in Hn.
    + rewrite E'. f_equal. by eapply nearest_unique.
Qed.

Lemma nearest_sub l l' t o : l' ⊆ l -> o ∈ l' -> nearest l t o -> nearest l' t o.
Proof. intros Hsub Ho [_ Hm]. split; [done|]. auto. Qed.

(** The lookup is constant on a stretch that no token interrupts. *)
Lemma cyclic_at_constant l b t :
  b <= t -> (forall o, o ∈ l -> ~ (b <= tok o < t)) -> cyclic_at l t = cyclic_at l b.
Proof.
  intros Hbt Hno. unfold cyclic_at.
  assert (drop_while (fun o => tok o <? t) l = drop_while (fun o => tok o <? b) l) as ->; [|done].
  induction l as [|o l IH]; [done|]. cbn.
  assert ((tok o <? t) = (tok o <? b)) as ->.
  { specialize (Hno o ltac:(left)).
    destruct (Z.ltb_spec (tok o) t), (Z.ltb_spec (tok o) b); (done || lia). }
  case_match; [|done]. apply IH. intros o' Ho'. apply Hno. by right.
Qed.
End cyclic.
