(* ===== verification/HashAlgorithm.v ===== *)
(** * The hash topology algorithm

    src/datasystem/cluster/algorithm/hash_algorithm.cpp: placement of tokens on
    the ring, the owner of a token, and the plans for bootstrap, scale-out,
    scale-in and failure.  Pointers to members ([const MemberIdentity *],
    [const Member *]) never outlive the vectors they point into and are never
    written through, so they are modelled by the values they point to. *)

From S2P Require Import Prelude Ordered TopologyTypes HashRing BalancedRing TokenPlacement HostPort RingTheory.

Definition UUID_SIZE : nat := 16.

(** [std::find_if] by address. *)
Definition find_address (address : string) (members : list Member) : option Member :=
  List.find (fun m => bool_decide (m_address m = address)) members.

Record TokenOwner := { to_token : Z; to_identity : MemberIdentity }.
#[global] Instance TokenOwner_eq_dec : EqDecision TokenOwner.
Proof. solve_decision. Defined.

Record TokenAllocation := { ta_tokens : list Z; ta_tokenSeedOverrides : list TokenSeedOverride }.

(** [std::map<std::pair<std::string, std::string>, TopologyOwnerChange>] *)
Abbreviation Grouped := (list ((string * string) * TopologyOwnerChange)).

Section hash_algorithm.
Context `{RE2}.

(** One iteration of the identity checks; the state is the two sets of ids and
    addresses seen so far. *)
Definition validate_identity (seen : gset string * gset string) (identity : MemberIdentity)
    : res (gset string * gset string) :=
  _ ← check ((String.length (mi_id identity) =? UUID_SIZE)%nat &&
             negb (bool_decide (mi_address identity = EmptyString)) &&
             (Z.of_nat (String.length (mi_address identity)) <=? MAX_MEMBER_ADDRESS_BYTES)) K_INVALID;
  _ ← check (canonical_address (mi_address identity)) K_INVALID;
  _ ← check (bool_decide (mi_id identity ∉ seen.1) && bool_decide (mi_address identity ∉ seen.2)) K_INVALID;
  Ok ({[mi_id identity]} ∪ seen.1, {[mi_address identity]} ∪ seen.2).

Definition ValidateIdentities (identities : list MemberIdentity) : res unit :=
  _ ← foldM validate_identity (∅, ∅) identities; Ok tt.

Definition ValidateSelectedMembers (current : TopologyState) (selected : list MemberIdentity) : res unit :=
  foldM (fun _ identity =>
    match find_address (mi_address identity) (ts_members current) with
    | Some m => check (bool_decide (m_identity m = identity) && IsCommittedMemberState (m_state m)) K_INVALID
    | None => Err K_INVALID
    end) tt selected.

Definition owner_eligible (includeJoining : bool) (excluded : gset string) (activeOnly : bool) (m : Member)
    : bool :=
  (if activeOnly then bool_decide (m_state m = ACTIVE)
   else IsCommittedMemberState (m_state m) || (includeJoining && bool_decide (m_state m = JOINING)))
  && bool_decide (m_address m ∉ excluded).

Definition member_owners (m : Member) : list TokenOwner :=
  (fun t => {| to_token := t; to_identity := m_identity m |}) <$> m_tokens m.

Definition BuildOwners (members : list Member) (includeJoining : bool) (excluded : gset string)
    (activeOnly : bool) : res (list TokenOwner) :=
  let owners := List.filter (owner_eligible includeJoining excluded activeOnly) members ≫= member_owners in
  _ ← check (negb (is_empty owners)) K_NOT_READY;
  Ok (sort_on to_token owners).

(** [owners] is never empty at a call; on an empty vector the C++ code has no
    defined result, which is [None] here. *)
Definition FindOwner (owners : list TokenOwner) (token : Z) : option TokenOwner :=
  match drop_while (fun o => to_token o <? token) owners with
  | o :: _ => Some o
  | [] => head owners
  end.

Definition CountNewJoiners (ordered : list MemberIdentity) (members : list Member) : Z :=
  Z.of_nat (length (List.filter (fun identity =>
    forallb (fun m => negb (bool_decide (m_address m = mi_address identity))) members) ordered)).

Fixpoint CollectPlacementOwners_from (memberIndex : nat) (members : list Member)
    (st : list PlacementOwner * gset Z) : list PlacementOwner * gset Z :=
  match members with
  | [] => st
  | m :: members =>
      CollectPlacementOwners_from (S memberIndex) members
        (st.1 ++ ((fun t => {| po_token := t; po_memberIndex := memberIndex |}) <$> m_tokens m),
         list_to_set (m_tokens m) ∪ st.2)
  end.

Definition CollectPlacementOwners (members : list Member) : list PlacementOwner * gset Z :=
  CollectPlacementOwners_from 0 members ([], ∅).

(** [owners] is the index built by a snapshot: sorted (token, member) pairs. *)
Definition LocateIndexedOwner (owners : list (Z * Member)) (token : Z) : res Member :=
  _ ← check (negb (is_empty owners)) K_NOT_READY;
  match drop_while (fun e => e.1 <? token) owners, owners with
  | e :: _, _ | [], e :: _ => Ok e.2
  | [], [] => Err K_NOT_READY
  end.

Definition AppendRange (ranges : list TokenRange) (from end_ : Z) : list TokenRange :=
  match last ranges with
  | Some back =>
      if negb (tr_end back =? UINT32_MAX) && (tr_end back + 1 =? from)
      then removelast ranges ++ [{| tr_from := tr_from back; tr_end := end_ |}]
      else ranges ++ [{| tr_from := from; tr_end := end_ |}]
  | None => ranges ++ [{| tr_from := from; tr_end := end_ |}]
  end.

Definition owner_boundaries (owners : list TokenOwner) : list Z :=
  (fun o => to_token o + 1) <$> List.filter (fun o => negb (to_token o =? UINT32_MAX)) owners.

Definition boundaries_of (fromOwners toOwners : list TokenOwner) : list Z :=
  dedup_adjacent (sort_on id (0 :: owner_boundaries fromOwners ++ owner_boundaries toOwners)).

(** The [(from, end)] pairs the loop over [boundaries] visits. *)
Fixpoint segments (boundaries : list Z) : list (Z * Z) :=
  match boundaries with
  | [] => []
  | [b] => [(b, UINT32_MAX)]
  | b :: ((b' :: _) as rest) => (b, b' - 1) :: segments rest
  end.

Definition diff_step (fromOwners toOwners : list TokenOwner) (grouped : Grouped) (seg : Z * Z) : Grouped :=
  match FindOwner fromOwners seg.1, FindOwner toOwners seg.1 with
  | Some s, Some d =>
      let source := to_identity s in
      let target := to_identity d in
      if decide (source = target) then grouped
      else
        let key := (mi_address source, mi_address target) in
        let ranges := match om_find key grouped with Some c => oc_ranges c | None => [] end in
        om_insert key {| oc_source := Some source; oc_target := target;
                         oc_ranges := AppendRange ranges seg.1 seg.2 |} grouped
  | _, _ => grouped
  end.

Definition DiffOwners (fromOwners toOwners : list TokenOwner) : list TopologyOwnerChange :=
  (foldl (diff_step fromOwners toOwners) [] (segments (boundaries_of fromOwners toOwners))).*2.

(** ** Public operations *)

Definition Hash (placementKey : string) : Z := MurmurHash3_32 placementKey 0.
Definition MakeToken (address : string) (index seed : Z) : Z := MakeHashRingToken address index seed.
Definition MakeTokens (address : string) (seeds : list Z) : list Z := MakeHashRingTokens address seeds.

Definition AllocateTokens (members : list MemberIdentity) (tokensPerMember : Z)
    : res (gmap string TokenAllocation) :=
  _ ← check ((0 <? tokensPerMember) && (tokensPerMember <=? MAX_HASH_RING_TOKENS_PER_MEMBER)) K_INVALID;
  _ ← ValidateIdentities members;
  let ordered := sort_on mi_address members in
  let balanced := Z.of_nat (length ordered) * tokensPerMember <=? BALANCED_PLACEMENT_MAX_RING_TOKENS in
  st ← foldM (fun st identity =>
      r ← SelectTokens identity tokensPerMember st.2;
      Ok (<[mi_address identity := {| ta_tokens := r.2.1; ta_tokenSeedOverrides := r.2.2 |}]> st.1, r.1))
    (∅, new_TokenPlacement [] ∅ balanced) ordered;
  Ok st.1.

(** [allocations[address]] of a missing key is a default-constructed allocation. *)
Definition allocation_of (allocations : gmap string TokenAllocation) (address : string) : TokenAllocation :=
  default {| ta_tokens := []; ta_tokenSeedOverrides := [] |} (allocations !! address).

Definition BuildInitialPlacement (input : ScaleOutPlanInput) : res TopologyPlan :=
  _ ← check (is_empty (ts_members (so_current input)) && negb (is_empty (so_joining input))) K_INVALID;
  allocations ← AllocateTokens (so_joining input) (so_tokensPerMember input);
  let members := (fun identity =>
      let allocation := allocation_of allocations (mi_address identity) in
      {| m_identity := identity; m_state := ACTIVE; m_tokens := ta_tokens allocation;
         m_tokenSeedOverrides := ta_tokenSeedOverrides allocation |})
    <$> sort_on mi_address (so_joining input) in
  Ok {| tp_next := set_members (ts_members (so_current input) ++ members)
          (set_tokensPerMember (so_tokensPerMember input) (set_clusterHasInit true (so_current input)));
        tp_ownerChanges := [] |}.

(** The state of [Validate]'s loop: ids, addresses and tokens seen, and whether
    a committed member was seen. *)
Definition validate_member (st : gset string * gset string * gset Z * bool) (member : Member)
    : res (gset string * gset string * gset Z * bool) :=
  let '(ids, addresses, tokens, hasCommitted) := st in
  _ ← check ((String.length (m_id member) =? UUID_SIZE)%nat &&
             negb (bool_decide (m_address member = EmptyString))) K_INVALID;
  _ ← check (bool_decide (m_id member ∉ ids) && bool_decide (m_address member ∉ addresses)) K_INVALID;
  tokens ← foldM (fun tokens t => _ ← check (bool_decide (t ∉ tokens)) K_INVALID; Ok ({[t]} ∪ tokens))
             tokens (m_tokens member);
  Ok ({[m_id member]} ∪ ids, {[m_address member]} ∪ addresses, tokens,
      hasCommitted || IsCommittedMemberState (m_state member)).

Definition Validate (state : TopologyState) : res unit :=
  st ← foldM validate_member (∅, ∅, ∅, false) (ts_members state);
  check (is_empty (ts_members state) || st.2) K_INVALID.

Definition scale_out_step (tokensPerMember : Z) (st : list Member * TokenPlacement)
    (identity : MemberIdentity) : res (list Member * TokenPlacement) :=
  match find_address (mi_address identity) st.1 with
  | Some m =>
      _ ← check (bool_decide (m_identity m = identity) && bool_decide (m_state m = JOINING)) K_INVALID;
      Ok st
  | None =>
      _ ← check (forallb (fun m => negb (bool_decide (m_id m = mi_id identity))) st.1) K_INVALID;
      r ← SelectTokens identity tokensPerMember st.2;
      Ok (st.1 ++ [{| m_identity := identity; m_state := JOINING; m_tokens := r.2.1;
                      m_tokenSeedOverrides := r.2.2 |}], r.1)
  end.

Definition PlanScaleOut (input : ScaleOutPlanInput) : res TopologyPlan :=
  let current := so_current input in
  _ ← Validate current;
  _ ← ValidateIdentities (so_joining input);
  _ ← check (negb (is_empty (so_joining input)) && (0 <? so_tokensPerMember input) &&
             (so_tokensPerMember input <=? MAX_HASH_RING_TOKENS_PER_MEMBER)) K_INVALID;
  let '(owners, occupied) := CollectPlacementOwners (ts_members current) in
  let ordered := sort_on mi_address (so_joining input) in
  let newJoinerCount := CountNewJoiners ordered (ts_members current) in
  let balanced := Z.of_nat (length owners) + newJoinerCount * so_tokensPerMember input
                    <=? BALANCED_PLACEMENT_MAX_RING_TOKENS in
  st ← foldM (scale_out_step (so_tokensPerMember input))
         (ts_members current, new_TokenPlacement owners occupied balanced) ordered;
  fromOwners ← BuildOwners (ts_members current) false ∅ false;
  toOwners ← BuildOwners st.1 true ∅ false;
  Ok {| tp_next := set_members st.1 (set_tokensPerMember (so_tokensPerMember input) current);
        tp_ownerChanges := DiffOwners fromOwners toOwners |}.

Definition addresses_of (identities : list MemberIdentity) : gset string :=
  list_to_set (mi_address <$> identities).

(** [for (auto &member : members) if (excluded.count(member.address)) member.state = s;] *)
Definition mark_members (excluded : gset string) (s : MemberState) (members : list Member) : list Member :=
  (fun m => if decide (m_address m ∈ excluded) then set_member_state s m else m) <$> members.

Definition PlanScaleIn (input : ScaleInPlanInput) : res TopologyPlan :=
  let current := si_current input in
  _ ← Validate current;
  _ ← ValidateIdentities (si_leaving input);
  _ ← ValidateSelectedMembers current (si_leaving input);
  _ ← check (negb (is_empty (si_leaving input))) K_INVALID;
  let excluded := addresses_of (si_leaving input) in
  fromOwners ← BuildOwners (ts_members current) false ∅ false;
  toOwners ← BuildOwners (ts_members current) false excluded false;
  Ok {| tp_next := set_members (mark_members excluded PRE_LEAVING (ts_members current)) current;
        tp_ownerChanges := DiffOwners fromOwners toOwners |}.

Definition source_excluded (excluded : gset string) (c : TopologyOwnerChange) : bool :=
  match oc_source c with
  | Some s => bool_decide (mi_address s ∈ excluded)
  | None => false
  end.

Definition PlanFailure (input : FailurePlanInput) : res TopologyPlan :=
  let current := fi_current input in
  _ ← Validate current;
  _ ← ValidateIdentities (fi_failed input);
  _ ← ValidateSelectedMembers current (fi_failed input);
  _ ← check (negb (is_empty (fi_failed input))) K_INVALID;
  let excluded := addresses_of (fi_failed input) in
  fromOwners ← BuildOwners (ts_members current) false ∅ false;
  toOwners ← BuildOwners (ts_members current) false excluded true;
  Ok {| tp_next := set_members (mark_members excluded FAILED (ts_members current)) current;
        tp_ownerChanges := List.filter (source_excluded excluded) (DiffOwners fromOwners toOwners) |}.
End hash_algorithm.

(** ** Segments between boundaries *)

Definition strictly_increasing (l : list Z) : Prop := StronglySorted Z.lt l.

Lemma segments_cons b b' rest : segments (b :: b' :: rest) = (b, b' - 1) :: segments (b' :: rest).
Proof. done. Qed.

(** Consecutive segments follow each other without overlap. *)
Definition seg_chain (segs : list (Z * Z)) : Prop := StronglySorted (fun s s' => s.2 < s'.1) segs.

Record segments_of (bs : list Z) (segs : list (Z * Z)) : Prop := {
  sg_chain : seg_chain segs;
  sg_seg seg : seg ∈ segs -> seg.1 ∈ bs /\ seg.1 <= seg.2 <= UINT32_MAX /\
                 forall b, b ∈ bs -> ~ (seg.1 < b <= seg.2);
  sg_cover t : (exists b, head bs = Some b /\ b <= t) -> t <= UINT32_MAX ->
                 exists seg, seg ∈ segs /\ seg.1 <= t <= seg.2
}.

Lemma segments_spec bs : strictly_increasing bs -> (forall b, b ∈ bs -> b <= UINT32_MAX) ->
  segments_of bs (segments bs).
Proof.
  unfold strictly_increasing. induction 1 as [|b bs Hs IH Hall]; intros Hmax.
  { split; [constructor|no_elem|]. by intros t (b & ? & _). }
  destruct bs as [|b' bs].
  - split; [repeat constructor| |].
    + intros seg ->%list_elem_of_singleton. cbn. split; [left|].
      split; [split; [by apply Hmax; left|lia]|]. intros c ->%list_elem_of_singleton. lia.
    + intros t (c & [= <-] & Hc) Ht. exists (b, UINT32_MAX). split; [by left|]. cbn. lia.
  - rewrite segments_cons. destruct IH as [Hch Hseg Hcov]; [intros; apply Hmax; by right|].
    assert (Hbb : b < b') by (by apply Forall_inv in Hall).
    rewrite Forall_forall in Hall. inversion_clear Hs as [|?? _ Hall'].
    rewrite Forall_forall in Hall'.
    assert (Hge : forall c, c ∈ b' :: bs -> b' <= c)
      by (intros c [->|Hc%Hall']%elem_of_cons; lia).
    split.
    + constructor; [done|]. apply Forall_forall. intros seg Hin. cbn.
      apply Hseg in Hin as (Hin & _). apply Hge in Hin. lia.
    + intros seg [->|Hin]%elem_of_cons; cbn [fst snd].
      * split; [left|]. split; [specialize (Hmax b' ltac:(right; left)); lia|].
        intros c [->|Hc]%elem_of_cons; [lia|]. apply Hge in Hc. lia.
      * destruct (Hseg _ Hin) as (H1 & H2 & H3). split; [by right|]. split; [done|].
        intros c [->|Hc]%elem_of_cons; [|by apply H3]. apply Hge in H1. lia.
    + intros t (c & [= <-] & Hc) Ht. destruct (decide (t < b')).
      * exists (b, b' - 1). split; [left|]. cbn. lia.
      * destruct (Hcov t) as (seg & Hin & Hr); [exists b'; split; [done|lia]|done|].
        exists seg. split; [by right|done].
Qed.

(** ** The boundaries of two owner lists *)

Definition owners_u32 (owners : list TokenOwner) : Prop := ring_u32 to_token owners.

Lemma elem_of_owner_boundaries owners b :
  b ∈ owner_boundaries owners <-> exists o, o ∈ owners /\ to_token o <> UINT32_MAX /\ b = to_token o + 1.
Proof.
  unfold owner_boundaries. rewrite list_elem_of_fmap. split.
  - intros (o & -> & Ho). rewrite list_elem_of_In, filter_In, <-list_elem_of_In in Ho.
    destruct Ho as [Ho Hne]. exists o. split; [done|]. split; [|done].
    apply negb_true_iff, Z.eqb_neq in Hne. done.
  - intros (o & Ho & Hne & ->). exists o. split; [done|].
    rewrite list_elem_of_In, filter_In, <-list_elem_of_In. split; [done|].
    by apply negb_true_iff, Z.eqb_neq.
Qed.

Lemma elem_of_boundaries fo to b :
  b ∈ boundaries_of fo to <-> b = 0 \/ b ∈ owner_boundaries fo \/ b ∈ owner_boundaries to.
Proof.
  unfold boundaries_of. rewrite dedup_adjacent_elem, elem_of_sort_on, elem_of_cons, elem_of_app. done.
Qed.

Lemma owner_boundaries_range owners b : owners_u32 owners -> b ∈ owner_boundaries owners ->
  0 < b <= UINT32_MAX.
Proof.
  intros Hu (o & Ho & Hne & ->)%elem_of_owner_boundaries. apply Hu in Ho.
  unfold is_u32, UINT32_MAX in *. lia.
Qed.

Lemma boundaries_increasing fo to : strictly_increasing (boundaries_of fo to).
Proof.
  eapply StronglySorted_impl; [|apply dedup_adjacent_sorted, sort_on_sorted].
  cbn. intros x y. apply Z.ltb_lt.
Qed.

Lemma boundaries_head fo to : owners_u32 fo -> owners_u32 to -> head (boundaries_of fo to) = Some 0.
Proof.
  intros Hf Ht. assert (H0 : 0 ∈ boundaries_of fo to) by (apply elem_of_boundaries; by left).
  assert (Hpos : forall b, b ∈ boundaries_of fo to -> 0 <= b).
  { intros b [->|[Hb|Hb]]%elem_of_boundaries; [lia|apply owner_boundaries_range in Hb; [lia|done]..]. }
  pose proof (boundaries_increasing fo to) as Hs. unfold strictly_increasing in Hs.
  destruct Hs as [|b bs Hs Hall]; [by apply not_elem_of_nil in H0|]. cbn. f_equal.
  specialize (Hpos b ltac:(left)). apply elem_of_cons in H0 as [<-|H0]; [done|].
  rewrite Forall_forall in Hall. apply Hall in H0. lia.
Qed.

(** ** Ranges of one owner change *)

Definition covered (t : Z) (ranges : list TokenRange) : Prop := exists r, r ∈ ranges /\ in_range t r.

(** Non-empty ranges in increasing order with a gap between neighbours. *)
Record ranges_wf (ranges : list TokenRange) : Prop := {
  rw_nonempty r : r ∈ ranges -> tr_from r <= tr_end r;
  rw_sorted : StronglySorted (fun a b => tr_end a + 1 < tr_from b) ranges
}.

Lemma ranges_wf_nil : ranges_wf [].
Proof. split; [no_elem|constructor]. Qed.

Lemma StronglySorted_last {A} (R : A -> A -> Prop) l x :
  StronglySorted R (l ++ [x]) -> StronglySorted R l /\ forall y, y ∈ l -> R y x.
Proof.
  induction l as [|a l IH]; cbn.
  - intros _. split; [constructor|]. no_elem.
  - inversion_clear 1 as [|?? Hs Hall]. apply IH in Hs as [Hs Hx].
    apply Forall_app in Hall as [Hall Hax]. apply Forall_inv in Hax.
    split; [by constructor|]. intros y [->|Hy]%elem_of_cons; auto.
Qed.

Lemma covered_snoc t ranges r : covered t (ranges ++ [r]) <-> covered t ranges \/ in_range t r.
Proof.
  unfold covered. setoid_rewrite elem_of_snoc. naive_solver.
Qed.

Lemma AppendRange_spec ranges from end_ :
  ranges_wf ranges -> (forall r, r ∈ ranges -> tr_end r < from) -> from <= end_ <= UINT32_MAX ->
  ranges_wf (AppendRange ranges from end_) /\
  (forall t, covered t (AppendRange ranges from end_) <-> covered t ranges \/ from <= t <= end_) /\
  (forall r, r ∈ AppendRange ranges from end_ -> tr_end r = end_ \/ exists r', r' ∈ ranges /\ tr_end r = tr_end r').
Proof.
  intros [Hne Hs] Hlt Hfe.
  assert (Hpush : (forall r, r ∈ ranges -> tr_end r + 1 < from) ->
    ranges_wf (ranges ++ [{| tr_from := from; tr_end := end_ |}]) /\
    (forall t, covered t (ranges ++ [{| tr_from := from; tr_end := end_ |}]) <->
       covered t ranges \/ from <= t <= end_) /\
    (forall r, r ∈ ranges ++ [{| tr_from := from; tr_end := end_ |}] ->
       tr_end r = end_ \/ exists r', r' ∈ ranges /\ tr_end r = tr_end r')).
  { intros Hgap. split; [split|split].
    - intros r [Hr| ->]%elem_of_snoc; [auto|cbn; lia].
    - apply StronglySorted_snoc; [done|]. intros r Hr. cbn. auto.
    - intros t. by rewrite covered_snoc.
    - intros r [Hr| ->]%elem_of_snoc; [eauto|by left]. }
  unfold AppendRange. destruct (last ranges) as [back|] eqn:El.
  2:{ apply last_None in El as ->. apply Hpush. no_elem. }
  apply last_Some in El as [init ->].
  assert (Hback : tr_from back <= tr_end back) by (apply Hne, elem_of_snoc; by right).
  assert (Hbl : tr_end back < from) by (apply Hlt, elem_of_snoc; by right).
  apply StronglySorted_last in Hs as [Hs Hinit].
  destruct (_ && _) eqn:Ec.
  - apply andb_prop in Ec as [_ Ec%Z.eqb_eq]. rewrite removelast_last.
    split; [split|split].
    + intros r [Hr| ->]%elem_of_snoc; [apply Hne, elem_of_snoc; by left|cbn; lia].
    + apply StronglySorted_snoc; [done|]. intros r Hr. cbn. auto.
    + intros t. rewrite !covered_snoc. unfold in_range. cbn. intuition lia.
    + intros r [Hr| ->]%elem_of_snoc; [|by left]. right. exists r.
      split; [apply elem_of_snoc; by left|done].
  - apply Hpush. intros r [Hr| ->]%elem_of_snoc.
    + apply Hinit in Hr. lia.
    + apply andb_false_iff in Ec as [Ec|Ec%Z.eqb_neq]; [|lia].
      apply negb_false_iff, Z.eqb_eq in Ec. lia.
Qed.

(** ** [DiffOwners] computes exactly the owner changes *)

Definition owner_at (owners : list TokenOwner) (t : Z) : option MemberIdentity :=
  to_identity <$> FindOwner owners t.

(** One identity per address, as topology validation guarantees. *)
Definition addr_functional (owners : list TokenOwner) : Prop := forall o o', o ∈ owners -> o' ∈ owners ->
  mi_address (to_identity o) = mi_address (to_identity o') -> to_identity o = to_identity o'.

Lemma FindOwner_elem owners t o : FindOwner owners t = Some o -> o ∈ owners.
Proof.
  unfold FindOwner. destruct (drop_while _ owners) as [|x l] eqn:E.
  - destruct owners; [done|]. intros [= ->]. left.
  - intros [= ->]. assert (Hin : o ∈ drop_while (fun o => to_token o <? t) owners) by (rewrite E; left).
    clear E. induction owners as [|y owners IH]; [done|]. cbn in Hin. case_match; [right; auto|done].
Qed.

Section diff.
Context (fo to : list TokenOwner).
Context (Hfo : owners_u32 fo) (Hto : owners_u32 to) (Hff : addr_functional fo) (Hft : addr_functional to).

Abbreviation bounds := (boundaries_of fo to).

Lemma bounds_segments : segments_of bounds (segments bounds).
Proof.
  apply segments_spec; [apply boundaries_increasing|].
  intros b [->|[Hb|Hb]]%elem_of_boundaries; [by vm_compute|apply owner_boundaries_range in Hb; [lia|done]..].
Qed.

Lemma segment_owner seg t : seg ∈ segments bounds -> seg.1 <= t <= seg.2 ->
  owner_at fo t = owner_at fo seg.1 /\ owner_at to t = owner_at to seg.1.
Proof.
  intros Hin Ht. destruct (sg_seg _ _ bounds_segments _ Hin) as (_ & Hr & Hno).
  assert (Hgen : forall owners, (forall b, b ∈ owner_boundaries owners -> b ∈ bounds) ->
     owner_at owners t = owner_at owners seg.1).
  { intros owners Hsub. unfold owner_at. f_equal. apply (cyclic_at_constant to_token); [lia|].
    intros o Ho Hr'. apply (Hno (to_token o + 1)); [|lia]. apply Hsub, elem_of_owner_boundaries.
    exists o. split; [done|]. split; [lia|done]. }
  split; apply Hgen; intros b Hb; apply elem_of_boundaries; auto.
Qed.

(** The change from [s] to [d] happens on segment [seg]. *)
Definition moves (seg : Z * Z) (s d : MemberIdentity) : Prop :=
  owner_at fo seg.1 = Some s /\ owner_at to seg.1 = Some d /\ s <> d.

Record change_ok (pre : list (Z * Z)) (key : string * string) (c : TopologyOwnerChange)
    (s : MemberIdentity) : Prop := {
  co_source : oc_source c = Some s;
  co_key : key = (mi_address s, mi_address (oc_target c));
  co_moves : exists seg, seg ∈ pre /\ moves seg s (oc_target c);
  co_wf : ranges_wf (oc_ranges c);
  co_ends r : r ∈ oc_ranges c -> exists seg, seg ∈ pre /\ tr_end r = seg.2;
  co_cover t : covered t (oc_ranges c) <->
    exists seg, seg ∈ pre /\ seg.1 <= t <= seg.2 /\ moves seg s (oc_target c)
}.

Record diff_inv (pre : list (Z * Z)) (g : Grouped) : Prop := {
  di_sorted : om_sorted g;
  di_change key c : om_find key g = Some c -> exists s, change_ok pre key c s;
  di_complete seg s d : seg ∈ pre -> moves seg s d -> is_Some (om_find (mi_address s, mi_address d) g)
}.

Lemma owner_at_functional (owners : list TokenOwner) t t' a b : addr_functional owners ->
  owner_at owners t = Some a -> owner_at owners t' = Some b -> mi_address a = mi_address b -> a = b.
Proof.
  unfold owner_at. intros Hf (o & Ho%FindOwner_elem & ->)%fmap_Some (o' & Ho'%FindOwner_elem & ->)%fmap_Some.
  by apply Hf.
Qed.

Lemma change_ok_skip pre seg key c s :
  change_ok pre key c s -> (forall s' d', moves seg s' d' -> key <> (mi_address s', mi_address d')) ->
  change_ok (pre ++ [seg]) key c s.
Proof.
  intros [Hs Hk Hm Hw He Hc] Hno. split; [done..| |done| |].
  - destruct Hm as (g & Hg & Hm). exists g. split; [apply elem_of_snoc; by left|done].
  - intros r (g & Hg & Hr)%He. exists g. split; [apply elem_of_snoc; by left|done].
  - intros t. rewrite Hc. split; intros (g & Hg & Ht & Hm').
    + exists g. split; [apply elem_of_snoc; by left|done].
    + apply elem_of_snoc in Hg as [Hg| ->]; [by exists g|]. by destruct (Hno _ _ Hm').
Qed.

Lemma change_ok_append pre seg s d ranges :
  seg ∈ segments bounds -> (forall g, g ∈ pre -> g.2 < seg.1) -> moves seg s d ->
  (forall r, r ∈ ranges -> exists g, g ∈ pre /\ tr_end r = g.2) -> ranges_wf ranges ->
  (forall t, covered t ranges <-> exists g, g ∈ pre /\ g.1 <= t <= g.2 /\ moves g s d) ->
  change_ok (pre ++ [seg]) (mi_address s, mi_address d)
    {| oc_source := Some s; oc_target := d; oc_ranges := AppendRange ranges seg.1 seg.2 |} s.
Proof.
  intros Hin Hlt Hm He Hw Hc. destruct (sg_seg _ _ bounds_segments _ Hin) as (_ & Hr & _).
  destruct (AppendRange_spec ranges seg.1 seg.2) as (Hw' & Hc' & He'); [done| |done|].
  { intros r (g & Hg & ->)%He. auto. }
  split; cbn [oc_source oc_target oc_ranges]; [done..| |done| |].
  - exists seg. split; [apply elem_of_snoc; by right|done].
  - intros r [Hr'|(r' & Hr' & ->)]%He'.
    + exists seg. split; [apply elem_of_snoc; by right|done].
    + apply He in Hr' as (g & Hg & ->). exists g. split; [apply elem_of_snoc; by left|done].
  - intros t. rewrite Hc', Hc. split.
    + intros [(g & Hg & Hg')|Ht]; [exists g|exists seg]; rewrite elem_of_snoc; auto.
    + intros (g & [Hg| ->]%elem_of_snoc & Ht & Hg'); [left; eauto|by right].
Qed.

Lemma diff_step_inv pre seg g :
  seg ∈ segments bounds -> (forall x, x ∈ pre -> x.2 < seg.1) -> diff_inv pre g ->
  diff_inv (pre ++ [seg]) (diff_step fo to g seg).
Proof.
  intros Hin Hlt [Hs Hch Hcm].
  assert (Hskip : (forall s d, ~ moves seg s d) -> diff_inv (pre ++ [seg]) g).
  { intros Hno. split; [done| |].
    - intros key c (s & Hok)%Hch. exists s. apply change_ok_skip; [done|]. intros s' d' Hm. by destruct (Hno s' d').
    - intros x s d [Hx| ->]%elem_of_snoc Hm; [by eapply Hcm|]. by destruct (Hno s d). }
  unfold diff_step. destruct (FindOwner fo seg.1) as [os|] eqn:Es.
  2:{ apply Hskip. intros s d (H1 & _). unfold owner_at in H1. by rewrite Es in H1. }
  destruct (FindOwner to seg.1) as [od|] eqn:Ed.
  2:{ apply Hskip. intros s d (_ & H1 & _). unfold owner_at in H1. by rewrite Ed in H1. }
  assert (Hmv : forall s d, moves seg s d -> s = to_identity os /\ d = to_identity od).
  { intros s d (H1 & H2 & _). unfold owner_at in *. rewrite Es in H1. rewrite Ed in H2. cbn in *. by simplify_eq. }
  destruct (decide (to_identity os = to_identity od)) as [Heq|Hne].
  { apply Hskip. intros s d Hm. destruct (Hmv s d Hm) as [-> ->]. by destruct Hm as (_ & _ & ?). }
  set (s := to_identity os) in *. set (d := to_identity od) in *.
  assert (Hm : moves seg s d) by (unfold moves, owner_at; by rewrite Es, Ed).
  assert (Hok : change_ok (pre ++ [seg]) (mi_address s, mi_address d)
    {| oc_source := Some s; oc_target := d; oc_ranges := AppendRange
        match om_find (mi_address s, mi_address d) g with Some c => oc_ranges c | None => [] end
        seg.1 seg.2 |} s).
  { destruct (om_find _ g) as [c|] eqn:Ef.
    - destruct (Hch _ _ Ef) as (s' & Hco). destruct (co_moves _ _ _ _ Hco) as (x & Hx & Hxm).
      pose proof (co_key _ _ _ _ Hco) as Hk.
      assert (s = s') as <- by (eapply (owner_at_functional fo); [done|apply Hm|apply Hxm|congruence]).
      assert (d = oc_target c) as Hd
        by (eapply (owner_at_functional to); [done|apply Hm|apply Hxm|congruence]).
      apply change_ok_append; [done..|apply (co_ends _ _ _ _ Hco)|apply Hco|].
      rewrite Hd. apply Hco.
    - apply change_ok_append; [done..|no_elem|apply ranges_wf_nil|].
      intros t. split; [by intros (r & ?%not_elem_of_nil & _)|].
      intros (x & Hx & _ & Hxm). destruct (Hcm x s d Hx Hxm) as [c Hc]. congruence. }
  split; [by apply om_insert_sorted| |].
  - intros key c. rewrite om_find_insert. case_decide as Hkey.
    + intros [= <-]. subst key. eauto.
    + intros (s' & Hco)%Hch. exists s'. apply change_ok_skip; [done|].
      intros a b [-> ->]%Hmv Hk. done.
  - intros x a b Hx Hab. rewrite om_find_insert. case_decide as Hkey; [done|].
    apply elem_of_snoc in Hx as [Hx| ->]; [by eapply Hcm|].
    apply Hmv in Hab as [-> ->]. done.
Qed.

Lemma fold_diff_inv : diff_inv (segments bounds) (foldl (diff_step fo to) [] (segments bounds)).
Proof.
  assert (Hgen : forall post pre g, segments bounds = pre ++ post -> diff_inv pre g ->
            diff_inv (segments bounds) (foldl (diff_step fo to) g post)).
  { induction post as [|seg post IH]; intros pre g Heq Hinv; cbn [foldl].
    - rewrite app_nil_r in Heq. by rewrite Heq.
    - apply (IH (pre ++ [seg])); [by rewrite <-app_assoc|].
      pose proof (sg_chain _ _ bounds_segments) as Hch. unfold seg_chain in Hch.
      apply diff_step_inv; [rewrite Heq; set_solver| |done].
      intros x [i Hi]%list_elem_of_lookup. rewrite Heq in Hch.
      eapply (StronglySorted_lookup (fun s s' : Z * Z => s.2 < s'.1) _ i (length pre)); [exact Hch| | |].
      + by apply lookup_app_l_Some.
      + by apply list_lookup_middle.
      + by eapply lookup_lt_Some. }
  apply (Hgen _ []); [done|]. split; [constructor|done|by intros ??? ?%not_elem_of_nil].
Qed.

(** What the changes computed for [fo] and [to] promise. *)
Record diff_result (changes : list TopologyOwnerChange) : Prop := {
  dr_moved t s d : is_u32 t -> owner_at fo t = Some s -> owner_at to t = Some d -> s <> d ->
    exists c, c ∈ changes /\ covered t (oc_ranges c);
  dr_sound c t : c ∈ changes -> covered t (oc_ranges c) ->
    is_u32 t /\ owner_at fo t = oc_source c /\ owner_at to t = Some (oc_target c) /\
    oc_source c <> Some (oc_target c);
  dr_wf c : c ∈ changes -> ranges_wf (oc_ranges c) /\ (exists t, covered t (oc_ranges c)) /\
    is_Some (oc_source c);
  dr_order : StronglySorted (fun c c' => exists s s', oc_source c = Some s /\ oc_source c' = Some s' /\
      ltk (mi_address s, mi_address (oc_target c)) (mi_address s', mi_address (oc_target c')) = true) changes
}.

Lemma DiffOwners_result : diff_result (DiffOwners fo to).
Proof.
  unfold DiffOwners. destruct fold_diff_inv as [Hs Hch Hcm].
  set (g := foldl _ _ _) in *.
  assert (Hin : forall c, c ∈ g.*2 -> exists k s, om_find k g = Some c /\ change_ok (segments bounds) k c s).
  { intros c ([k c'] & -> & Hc)%list_elem_of_fmap. cbn. apply om_find_elem in Hc; [|done].
    destruct (Hch _ _ Hc) as (s & Hok). eauto. }
  split.
  - intros t s d Hu Hf Ht Hne.
    destruct (sg_cover _ _ bounds_segments t) as (seg & Hseg & Hr).
    { exists 0. split; [by apply boundaries_head|]. unfold is_u32 in Hu. lia. }
    { unfold is_u32, UINT32_MAX in *. lia. }
    destruct (segment_owner seg t Hseg Hr) as [E1 E2].
    assert (Hm : moves seg s d) by (unfold moves; by rewrite <-E1, <-E2).
    destruct (Hcm _ _ _ Hseg Hm) as [c Hc]. exists c. split.
    { apply om_find_elem_1 in Hc. apply list_elem_of_fmap. by exists (mi_address s, mi_address d, c). }
    destruct (Hch _ _ Hc) as (s' & Hok). destruct (co_moves _ _ _ _ Hok) as (x & Hx & Hxm).
    pose proof (co_key _ _ _ _ Hok) as Hk.
    assert (s = s') as <- by (eapply (owner_at_functional fo); [done|apply Hm|apply Hxm|congruence]).
    assert (d = oc_target c) as Hd
      by (eapply (owner_at_functional to); [done|apply Hm|apply Hxm|congruence]).
    apply (co_cover _ _ _ _ Hok). exists seg. by rewrite <-Hd.
  - intros c t (k & s & _ & Hok)%Hin Ht. apply (co_cover _ _ _ _ Hok) in Ht as (seg & Hseg & Hr & Hm).
    destruct (segment_owner seg t Hseg Hr) as [E1 E2]. destruct Hm as (M1 & M2 & M3).
    destruct (sg_seg _ _ bounds_segments _ Hseg) as (Hb & Hr' & _).
    split. { assert (0 <= seg.1); [|unfold is_u32, UINT32_MAX in *; lia].
      apply elem_of_boundaries in Hb as [->|[Hb|Hb]]; [lia|apply owner_boundaries_range in Hb; [lia|done]..]. }
    rewrite E1, E2, M1, M2, (co_source _ _ _ _ Hok). naive_solver.
  - intros c (k & s & _ & Hok)%Hin. split; [apply Hok|]. split; [|by rewrite (co_source _ _ _ _ Hok)].
    destruct (co_moves _ _ _ _ Hok) as (seg & Hseg & Hm). exists seg.1.
    apply (co_cover _ _ _ _ Hok). exists seg. split; [done|]. split; [|done].
    destruct (sg_seg _ _ bounds_segments _ Hseg) as (_ & Hr & _). lia.
  - assert (Hall : Forall (fun kc => exists s, oc_source kc.2 = Some s /\
        kc.1 = (mi_address s, mi_address (oc_target kc.2))) g).
    { apply Forall_forall. intros [k c] Hkc%om_find_elem; [|done].
      destruct (Hch _ _ Hkc) as (s & Hok). exists s. split; [apply Hok|apply Hok]. }
    clear -Hs Hall. unfold om_sorted in Hs. induction Hs as [|[k c] g Hs IH Hlt]; cbn; [constructor|].
    inversion_clear Hall as [|?? (s & Hc & Hk) Hg]. constructor; [auto|].
    apply Forall_forall. intros c' ([k' c''] & -> & Hin)%list_elem_of_fmap. cbn in *.
    rewrite Forall_forall in Hg, Hlt. destruct (Hg _ Hin) as (s' & Hc' & Hk').
    specialize (Hlt _ Hin). unfold key_lt in Hlt. cbn in *. subst. eauto.
Qed.
End diff.
