(* ===== verification/OwnerSpec.v ===== *)
(** * Abstract specification of ring ownership

    What the hash algorithm promises about a topology, independent of sorted
    vectors and binary search: [valid_topology] is the meaning of
    [HashAlgorithm::Validate], and [ring_owner] picks, among the eligible
    members, the one holding the token at the least clockwise distance.  The
    lemmas show that [BuildOwners] + [FindOwner] refine [ring_owner]. *)

From S2P Require Import Prelude Ordered TopologyTypes HashRing BalancedRing TokenPlacement HostPort RingTheory.
From S2P Require Import HashAlgorithm.

(** ** Valid topologies *)

Definition all_tokens (members : list Member) : list Z := members ≫= m_tokens.

Record members_valid (members : list Member) : Prop := {
  mv_shape m : m ∈ members -> String.length (m_id m) = UUID_SIZE /\ m_address m <> EmptyString;
  mv_ids : NoDup ((fun m => m_id m) <$> members);
  mv_addresses : NoDup ((fun m => m_address m) <$> members);
  mv_tokens : NoDup (all_tokens members)
}.

Record valid_topology (st : TopologyState) : Prop := {
  vt_members : members_valid (ts_members st);
  vt_committed : ts_members st = [] \/
    exists m, m ∈ ts_members st /\ IsCommittedMemberState (m_state m) = true
}.

(** Tokens are [uint32_t] values. *)
Definition tokens_u32 (members : list Member) : Prop := forall m t, m ∈ members -> t ∈ m_tokens m -> is_u32 t.

Lemma insert_tokens_iff (l : list Z) (s s' : gset Z) :
  foldM (fun tokens t => _ ← check (bool_decide (t ∉ tokens)) K_INVALID; Ok ({[t]} ∪ tokens)) s l = Ok s' <->
  NoDup l /\ (forall t : Z, t ∈ l -> t ∉ s) /\ s' = list_to_set l ∪ s.
Proof.
  revert s. induction l as [|x l IH]; intros s; cbn [foldM].
  - split; [intros; inv_ok; split_and!; [constructor|no_elem|set_solver]|].
    intros (_ & _ & ->). f_equal. set_solver.
  - split.
    + intros Hok. inv_ok. apply bool_decide_eq_true in Hok. apply IH in Hok1 as (Hnd & Hfr & ->). clear IH.
      split_and!; [constructor; [set_solver|done]|set_solver|set_solver].
    + intros ([Hx Hnd]%NoDup_cons & Hfr & ->). rewrite bool_decide_true by (apply Hfr; left). cbn.
      apply IH. split_and!; [done|set_solver|set_solver].
Qed.

Lemma set_insert_list `{Countable K} (x : K) l (s : gset K) :
  list_to_set l ∪ ({[x]} ∪ s) = list_to_set (x :: l) ∪ s.
Proof. set_solver. Qed.

Lemma set_append_list `{Countable K} (l l' : list K) (s : gset K) :
  list_to_set l' ∪ (list_to_set l ∪ s) = list_to_set (l ++ l') ∪ s.
Proof. set_solver. Qed.

Abbreviation ids_of ms := ((fun m => m_id m) <$> ms).
Abbreviation addrs_of ms := ((fun m => m_address m) <$> ms).

(** Distinct values, none of them in [s]. *)
Definition fresh `{Countable K} (l : list K) (s : gset K) : Prop := NoDup l /\ forall x, x ∈ l -> x ∉ s.

Lemma fresh_nil `{Countable K} (s : gset K) : fresh [] s.
Proof. split; [constructor|no_elem]. Qed.

Lemma fresh_cons `{Countable K} (x : K) l s : fresh (x :: l) s <-> x ∉ s /\ fresh l ({[x]} ∪ s).
Proof.
  unfold fresh. rewrite NoDup_cons. split.
  - intros [[Hx Hnd] Hf]. split; [apply Hf; left|]. split; [done|]. set_solver.
  - intros (Hx & Hnd & Hf). split; [split; [|done]; set_solver|]. set_solver.
Qed.

Lemma fresh_app `{Countable K} (l l' : list K) s : fresh (l ++ l') s <-> fresh l s /\ fresh l' (list_to_set l ∪ s).
Proof. unfold fresh. rewrite NoDup_app. set_solver. Qed.

Lemma validate_member_iff m ids addrs toks hc st' :
  validate_member (ids, addrs, toks, hc) m = Ok st' <->
  (String.length (m_id m) = UUID_SIZE /\ m_address m <> EmptyString) /\ m_id m ∉ ids /\ m_address m ∉ addrs /\
  fresh (m_tokens m) toks /\
  st' = ({[m_id m]} ∪ ids, {[m_address m]} ∪ addrs, list_to_set (m_tokens m) ∪ toks, hc || IsCommittedMemberState (m_state m)).
Proof.
  unfold validate_member. split.
  - intros Hok. apply bind_Ok in Hok as ([] & C1%check_Ok & Hok). apply bind_Ok in Hok as ([] & C2%check_Ok & Hok).
    apply bind_Ok in Hok as (tk & (Hnd & Hfr & ->)%insert_tokens_iff & [= <-]).
    apply andb_prop in C1 as [Hlen%Nat.eqb_eq Hne%negb_true_iff%bool_decide_eq_false].
    by apply andb_prop in C2 as [Hid%bool_decide_eq_true Had%bool_decide_eq_true].
  - intros ([-> Hne] & Hid & Had & [Hnd Hfr] & ->).
    rewrite (bool_decide_false (m_address m = "")), Nat.eqb_refl by done. cbn [andb negb check mbind res_bind].
    rewrite !bool_decide_true by done. cbn [andb negb check mbind res_bind].
    apply bind_Ok. eexists. split; [by apply insert_tokens_iff|done].
Qed.

Lemma validate_members_iff ms ids addrs toks hc st' :
  foldM validate_member (ids, addrs, toks, hc) ms = Ok st' <->
  ((forall m, m ∈ ms -> String.length (m_id m) = UUID_SIZE /\ m_address m <> EmptyString) /\
   fresh (ids_of ms) ids /\ fresh (addrs_of ms) addrs /\ fresh (all_tokens ms) toks) /\
  st' = (list_to_set (ids_of ms) ∪ ids, list_to_set (addrs_of ms) ∪ addrs,
         list_to_set (all_tokens ms) ∪ toks, hc || existsb (fun m => IsCommittedMemberState (m_state m)) ms).
Proof.
  revert ids addrs toks hc. induction ms as [|m ms IH]; intros ids addrs toks hc.
  - cbn. rewrite orb_false_r, !(left_id_L ∅ (∪)). split; [intros; inv_ok; split; [|done]|by intros [_ ->]].
    split_and!; [no_elem|apply fresh_nil..].
  - cbn [foldM existsb]. rewrite bind_Ok. setoid_rewrite validate_member_iff.
    change (all_tokens (m :: ms)) with (m_tokens m ++ all_tokens ms). rewrite !fmap_cons, !fresh_cons, fresh_app. split.
    + intros (st1 & (Hsh & Hid & Had & Htk & ->) & [(Hs & Hi & Ha & Ht) ->]%IH).
      split; [|by rewrite !set_insert_list, set_append_list, orb_assoc]. split_and!; try done.
      by intros m' [->|Hm']%elem_of_cons; auto.
    + intros [(Hs & [Hid Hi] & [Had Ha] & [Htk Ht]) ->]. eexists. split; [split_and!; try done; apply Hs; left|].
      apply IH. split; [split_and!; try done|by rewrite !set_insert_list, set_append_list, orb_assoc].
      intros m' Hm'. apply Hs. by right.
Qed.

Lemma Validate_iff st : Validate st = Ok tt <-> valid_topology st.
Proof.
  unfold Validate. rewrite bind_Ok. setoid_rewrite check_Ok. split.
  - intros (st' & [(Hsh & [Hi _] & [Ha _] & [Ht _]) ->]%validate_members_iff & Hc). split; [by split|].
    apply orb_prop in Hc as [Hc|Hc]; [left; by destruct (ts_members st)|]. right.
    cbn in Hc. apply existsb_exists in Hc as (m & Hm%list_elem_of_In & Hs). eauto.
  - intros [[Hsh Hi Ha Ht] Hc]. eexists. split.
    + apply validate_members_iff. split; [|reflexivity]. split_and!; try done; intros; apply not_elem_of_empty.
    + cbn [snd orb]. apply orb_true_iff. destruct Hc as [->|(m & Hm & Hs)]; [by left|right].
      apply existsb_exists. exists m. by rewrite <-list_elem_of_In.
Qed.

(** ** The identity checks *)

Section identities.
Context `{RE2}.

Record identities_valid (l : list MemberIdentity) : Prop := {
  iv_shape i : i ∈ l -> String.length (mi_id i) = UUID_SIZE /\ mi_address i <> EmptyString /\
     canonical_address (mi_address i) = true;
  iv_ids : NoDup (mi_id <$> l);
  iv_addresses : NoDup (mi_address <$> l)
}.

Lemma ValidateIdentities_valid l u : ValidateIdentities l = Ok u -> identities_valid l.
Proof.
  unfold ValidateIdentities. intros (st & Hok & _)%bind_Ok.
  apply (foldM_inv validate_identity (fun pre seen => identities_valid pre /\
     seen.1 = list_to_set (mi_id <$> pre) /\ seen.2 = list_to_set (mi_address <$> pre))) in Hok.
  - by destruct Hok.
  - split; [|done]. split; [no_elem|constructor..].
  - intros pre x post s s' _ ([Hsh Hi Ha] & E1 & E2) Hx. unfold validate_identity in Hx.
    apply bind_Ok in Hx as ([] & C1%check_Ok & Hx). apply bind_Ok in Hx as ([] & C2%check_Ok & Hx).
    apply bind_Ok in Hx as ([] & C3%check_Ok & [= <-]).
    apply andb_prop in C1 as [[Hlen%Nat.eqb_eq Hne%negb_true_iff%bool_decide_eq_false]%andb_prop _].
    apply andb_prop in C3 as [F1%bool_decide_eq_true F2%bool_decide_eq_true].
    rewrite E1, elem_of_list_to_set in F1. rewrite E2, elem_of_list_to_set in F2.
    cbn [fst snd]. rewrite !fmap_app, E1, E2. split; [split|].
    + intros i [Hin| ->]%elem_of_snoc; auto.
    + rewrite fmap_app. apply NoDup_app. split_and!; [done| |apply NoDup_singleton].
      intros a H1 ->%list_elem_of_singleton. done.
    + rewrite fmap_app. apply NoDup_app. split_and!; [done| |apply NoDup_singleton].
      intros a H1 ->%list_elem_of_singleton. done.
    + rewrite !list_to_set_app_L. split; set_solver.
Qed.

(** Conversely, valid identities with addresses of bounded length pass. *)
Lemma ValidateIdentities_accepts l : identities_valid l ->
  (forall i, i ∈ l -> Z.of_nat (String.length (mi_address i)) <= MAX_MEMBER_ADDRESS_BYTES) -> ValidateIdentities l = Ok tt.
Proof.
  intros Hv Hlen. unfold ValidateIdentities.
  enough (Hgen : forall seen, (forall i, i ∈ l -> mi_id i ∉ seen.1 /\ mi_address i ∉ seen.2) ->
    exists st, foldM validate_identity seen l = Ok st).
  { destruct (Hgen (∅, ∅)) as [st ->]; [|done]. intros i _. cbn. split; apply not_elem_of_empty. }
  induction l as [|i l IH]; intros [ids addrs] Hseen; cbn [foldM fst snd] in *; [by eexists|].
  destruct Hv as [Hsh [Hi Hids]%NoDup_cons [Ha Haddr]%NoDup_cons].
  destruct (Hsh i ltac:(left)) as (Hl & Hne & Hc). destruct (Hseen i ltac:(left)) as [Hs1 Hs2].
  pose proof (Hlen i ltac:(left)).
  assert (validate_identity (ids, addrs) i = Ok ({[mi_id i]} ∪ ids, {[mi_address i]} ∪ addrs)) as ->.
  { unfold validate_identity. cbn [fst snd].
    rewrite (proj2 (Nat.eqb_eq _ _) Hl), (bool_decide_false (_ = EmptyString)), (proj2 (Z.leb_le _ _)), Hc by done.
    by rewrite !bool_decide_true by done. }
  cbn [mbind res_bind]. apply IH.
  - split; [intros j Hj; apply Hsh; by right|done..].
  - intros j Hj. apply Hlen. by right.
  - intros j Hj. destruct (Hseen j ltac:(by right)). cbn [fst snd]. rewrite !not_elem_of_union, !not_elem_of_singleton.
    split; (split; [|done]); intros E; [apply Hi|apply Ha]; rewrite <-E; by apply list_elem_of_fmap_2.
Qed.
End identities.

(** ** The owner of a token *)

Definition closer (t : Z) (a b : TokenOwner) : TokenOwner :=
  if clockwise t (to_token b) <? clockwise t (to_token a) then b else a.

Definition eligible_owners (owns : Member -> bool) (members : list Member) : list TokenOwner :=
  List.filter owns members ≫= member_owners.

Definition nearest_owner (owners : list TokenOwner) (t : Z) : option MemberIdentity :=
  match owners with
  | [] => None
  | o :: os => Some (to_identity (foldl (closer t) o os))
  end.

(** The eligible member holding the token nearest to [t] clockwise. *)
Definition ring_owner (owns : Member -> bool) (members : list Member) (t : Z) : option MemberIdentity :=
  nearest_owner (eligible_owners owns members) t.

Lemma elem_of_eligible_owners owns members o :
  o ∈ eligible_owners owns members <->
  exists m, m ∈ members /\ owns m = true /\ to_identity o = m_identity m /\ to_token o ∈ m_tokens m.
Proof.
  unfold eligible_owners. rewrite list_elem_of_bind. split.
  - intros (m & (t & -> & Ht)%list_elem_of_fmap & Hm). rewrite list_elem_of_In, filter_In, <-list_elem_of_In in Hm.
    destruct Hm. eauto.
  - intros (m & Hm & Ho & Hi & Ht). exists m. split.
    + apply list_elem_of_fmap. exists (to_token o). split; [|done]. destruct o; cbn in *. by subst.
    + by rewrite list_elem_of_In, filter_In, <-list_elem_of_In.
Qed.

Lemma foldl_closer_nearest t os o : nearest to_token (o :: os) t (foldl (closer t) o os).
Proof.
  assert (Hgen : forall os seen o, nearest to_token seen t o -> nearest to_token (seen ++ os) t (foldl (closer t) o os)).
  { clear. induction os as [|x os IH]; intros seen o Hn; cbn [foldl]; [by rewrite app_nil_r|].
    replace (seen ++ x :: os) with ((seen ++ [x]) ++ os) by (by rewrite <-app_assoc).
    apply IH. destruct Hn as [Ho Hm]. unfold closer. destruct (Z.ltb_spec (clockwise t (to_token x)) (clockwise t (to_token o))).
    - split; [apply elem_of_snoc; by right|]. intros o' [Ho'%Hm| ->]%elem_of_snoc; lia.
    - split; [apply elem_of_snoc; by left|]. intros o' [Ho'%Hm| ->]%elem_of_snoc; lia. }
  apply (Hgen os [o] o). split; [left|]. intros o' ->%list_elem_of_singleton. lia.
Qed.

Lemma token_holder_unique members m m' t : NoDup (all_tokens members) ->
  m ∈ members -> m' ∈ members -> t ∈ m_tokens m -> t ∈ m_tokens m' -> m = m'.
Proof.
  induction members as [|x members IH]; [by intros _ ?%not_elem_of_nil|].
  change (all_tokens (x :: members)) with (m_tokens x ++ all_tokens members).
  intros (Hx & Hdisj & Hnd)%NoDup_app [->|Hm]%elem_of_cons [->|Hm']%elem_of_cons Ht Ht'; [done|..|auto].
  - destruct (Hdisj t Ht). apply list_elem_of_bind. eauto.
  - destruct (Hdisj t Ht'). apply list_elem_of_bind. eauto.
Qed.

(** A list of owners as a valid topology gives them. *)
Record owners_ok (owners : list TokenOwner) : Prop := {
  ow_u32 : ring_u32 to_token owners;
  ow_inj : ring_inj to_token owners;
  ow_functional : addr_functional owners
}.

Lemma address_inj members m m' : members_valid members -> m ∈ members -> m' ∈ members ->
  m_address m = m_address m' -> m = m'.
Proof.
  intros Hv [i Hi]%list_elem_of_lookup [j Hj]%list_elem_of_lookup Heq.
  pose proof (mv_addresses _ Hv) as Hnd. rewrite NoDup_alt in Hnd.
  assert (i = j) as ->; [|congruence].
  eapply (Hnd i j (m_address m)); rewrite list_lookup_fmap; [by rewrite Hi|rewrite Hj; cbn; by rewrite Heq].
Qed.

Lemma id_inj members m m' : members_valid members -> m ∈ members -> m' ∈ members ->
  m_id m = m_id m' -> m = m'.
Proof.
  intros Hv [i Hi]%list_elem_of_lookup [j Hj]%list_elem_of_lookup Heq.
  pose proof (mv_ids _ Hv) as Hnd. rewrite NoDup_alt in Hnd.
  assert (i = j) as ->; [|congruence].
  eapply (Hnd i j (m_id m)); rewrite list_lookup_fmap; [by rewrite Hi|rewrite Hj; cbn; by rewrite Heq].
Qed.

Lemma eligible_owners_ok owns members : members_valid members -> tokens_u32 members ->
  owners_ok (eligible_owners owns members).
Proof.
  intros Hv Hu. split.
  - intros o (m & Hm & _ & _ & Ht)%elem_of_eligible_owners. eauto.
  - intros a b (m & Hm & _ & Hi & Ht)%elem_of_eligible_owners
      (m' & Hm' & _ & Hi' & Ht')%elem_of_eligible_owners Heq.
    assert (m = m') as <- by (eapply token_holder_unique; [apply Hv|done..|by rewrite <-Heq in Ht']).
    destruct a, b; cbn in *. congruence.
  - intros a b (m & Hm & _ & Hi & Ht)%elem_of_eligible_owners
      (m' & Hm' & _ & Hi' & Ht')%elem_of_eligible_owners Heq.
    rewrite Hi, Hi' in *. by rewrite (address_inj members m m' Hv Hm Hm' Heq).
Qed.

Lemma nearest_owner_iff owners t i : ring_u32 to_token owners -> ring_inj to_token owners -> is_u32 t ->
  nearest_owner owners t = Some i <-> exists o, nearest to_token owners t o /\ to_identity o = i.
Proof.
  intros Hu Hi Ht. destruct owners as [|o os].
  { split; [done|]. intros (o & [Ho _] & _). by apply not_elem_of_nil in Ho. }
  pose proof (foldl_closer_nearest t os o) as Hn. cbn [nearest_owner]. split.
  - intros [= <-]. eauto.
  - intros (o' & Hn' & <-). do 2 f_equal. by eapply nearest_unique.
Qed.

Lemma nearest_owner_elem owners t i : nearest_owner owners t = Some i ->
  exists o, o ∈ owners /\ to_identity o = i.
Proof.
  destruct owners as [|o os]; [done|]. intros [= <-].
  destruct (foldl_closer_nearest t os o) as [Ho _]. eauto.
Qed.

Lemma nearest_owner_restrict owners owners' t i :
  owners_ok owners -> owners' ⊆ owners -> is_u32 t -> nearest_owner owners t = Some i ->
  (forall o, o ∈ owners -> to_identity o = i -> o ∈ owners') -> nearest_owner owners' t = Some i.
Proof.
  intros [Hu Hi _] Hsub Ht (o & Hn & Hoi)%nearest_owner_iff Hin; [|done..].
  apply nearest_owner_iff; [intros x ?; by apply Hu, Hsub|intros a b ??; apply Hi; by apply Hsub|done|].
  exists o. split; [|done]. eapply nearest_sub; [done| |done]. apply Hin; [apply Hn|done].
Qed.

Lemma nearest_owner_perm owners owners' t :
  owners_ok owners -> is_u32 t -> (forall o, o ∈ owners <-> o ∈ owners') ->
  nearest_owner owners t = nearest_owner owners' t.
Proof.
  intros Hok Ht Heq.
  assert (Hok' : owners_ok owners').
  { destruct Hok as [Hu Hi Hf]. split.
    - intros o Ho. by apply Hu, Heq.
    - intros a b Ha Hb. apply Hi; by apply Heq.
    - intros a b Ha Hb. apply Hf; by apply Heq. }
  apply option_eq. intros i. split; intros Hn.
  - eapply nearest_owner_restrict; [exact Hok| |done|done|]; intros o; [by intros ?%Heq|]. by intros ?%Heq.
  - eapply nearest_owner_restrict; [exact Hok'| |done|done|]; intros o; [by intros ?%Heq|]. by intros ?%Heq.
Qed.

(** [BuildOwners] followed by [FindOwner] computes [ring_owner]. *)
Lemma BuildOwners_spec members j ex ao owners : BuildOwners members j ex ao = Ok owners ->
  owners <> [] /\ ring_sorted to_token owners /\
  forall o, o ∈ owners <-> o ∈ eligible_owners (owner_eligible j ex ao) members.
Proof.
  unfold BuildOwners. intros ([] & Hne%check_Ok & [= <-])%bind_Ok. split_and!.
  - intros E. apply (f_equal length) in E. rewrite length_sort_on in E.
    unfold is_empty in Hne. by destruct (_ ≫= _).
  - eapply StronglySorted_impl; [|apply sort_on_sorted]. intros a b Hab.
    by apply Z.ltb_ge in Hab.
  - intros o. apply elem_of_sort_on.
Qed.

Lemma BuildOwners_refines members j ex ao owners t :
  members_valid members -> tokens_u32 members -> is_u32 t ->
  BuildOwners members j ex ao = Ok owners ->
  owner_at owners t = ring_owner (owner_eligible j ex ao) members t.
Proof.
  intros Hv Hu Ht (Hne & Hs & Hel)%BuildOwners_spec.
  pose proof (eligible_owners_ok (owner_eligible j ex ao) members Hv Hu) as Hok.
  unfold ring_owner. rewrite (nearest_owner_perm _ owners) by (done || intros; by rewrite Hel).
  assert (Hu' : ring_u32 to_token owners) by (intros o Ho; by apply Hok, Hel).
  assert (Hi' : ring_inj to_token owners) by (intros a b Ha Hb; apply Hok; by apply Hel).
  destruct (cyclic_at_nearest to_token owners t Hs Hu' Ht Hne) as (o & Ho & Hn).
  unfold owner_at. change (FindOwner owners t) with (cyclic_at to_token owners t). rewrite Ho. cbn.
  symmetry. apply nearest_owner_iff; eauto.
Qed.
