(* ===== verification/PlanningInterface.v ===== *)
(** * The planning interface

    [IPlanningAlgorithm] of src/datasystem/cluster/algorithm/topology_algorithm.h
    as a class of operations, with what the plan builder relies on as the laws of
    [PlanningLaws].  The contracts are stated with the abstract ownership of
    OwnerSpec.v; HashPlans.v proves them for the hash algorithm, and
    PlanBuilder.v is verified against this interface only. *)

From S2P Require Import Prelude Ordered TopologyTypes HashRing BalancedRing TokenPlacement HostPort RingTheory.
From S2P Require Import HashAlgorithm OwnerSpec.

Class IPlanningAlgorithm := {
  alg_BuildInitialPlacement : ScaleOutPlanInput -> res TopologyPlan;
  alg_PlanScaleOut : ScaleOutPlanInput -> res TopologyPlan;
  alg_PlanScaleIn : ScaleInPlanInput -> res TopologyPlan;
  alg_PlanFailure : FailurePlanInput -> res TopologyPlan;
  alg_Validate : TopologyState -> res unit
}.

(** ** Who owns tokens *)

Definition committed (m : Member) : bool := IsCommittedMemberState (m_state m).
Definition is_joining (m : Member) : bool := bool_decide (m_state m = JOINING).
Definition committed_or_joining (m : Member) : bool := committed m || is_joining m.
Definition outside (leaving : list MemberIdentity) (m : Member) : bool :=
  bool_decide (m_address m ∉ addresses_of leaving).

(** The tokens of a member are those derived from its address and one seed per
    token; the non-zero seeds are its overrides. *)
Definition token_derived (m : Member) : Prop := exists seeds,
  Forall (fun s => 0 <= s < MAX_HASH_RING_TOKEN_SEEDS) seeds /\
  m_tokens m = MakeTokens (m_address m) seeds /\ m_tokenSeedOverrides m = overrides_of seeds.

(** The addresses an owner change moves tokens between. *)
Definition change_ends (c : TopologyOwnerChange) : option string * string :=
  (mi_address <$> oc_source c, mi_address (oc_target c)).

(** ** Exact owner changes

    [changes] lists, for two ownership functions, exactly the tokens whose owner
    differs, each with its old and its new owner. *)
Record exact_changes (before after : Z -> option MemberIdentity)
    (changes : list TopologyOwnerChange) : Prop := {
  ec_total t : is_u32 t -> is_Some (before t) /\ is_Some (after t);
  ec_iff t s d : is_u32 t -> before t = Some s -> after t = Some d ->
    s <> d <-> exists c, c ∈ changes /\ oc_source c = Some s /\ oc_target c = d /\ covered t (oc_ranges c);
  ec_sound c t : c ∈ changes -> covered t (oc_ranges c) ->
    is_u32 t /\ before t = oc_source c /\ after t = Some (oc_target c);
  ec_wf c : c ∈ changes -> ranges_wf (oc_ranges c) /\ (exists t, covered t (oc_ranges c)) /\
    exists s, oc_source c = Some s /\ s <> oc_target c;
  ec_pairs : NoDup (change_ends <$> changes)
}.

Record initial_contract (joining : list MemberIdentity) (tpm : Z) (plan : TopologyPlan) : Prop := {
  ic_next : tp_next plan = set_members (ts_members (tp_next plan))
     (set_tokensPerMember tpm (set_clusterHasInit true default_TopologyState));
  ic_valid : valid_topology (tp_next plan);
  ic_u32 : tokens_u32 (ts_members (tp_next plan));
  ic_members : m_identity <$> ts_members (tp_next plan) ≡ₚ joining;
  ic_active m : m ∈ ts_members (tp_next plan) -> m_state m = ACTIVE /\ Z.of_nat (length (m_tokens m)) = tpm /\
     token_derived m;
  ic_changes : tp_ownerChanges plan = []
}.

Record scale_out_contract (cur : TopologyState) (joining : list MemberIdentity) (tpm : Z)
    (plan : TopologyPlan) : Prop := {
  oc_cur : valid_topology cur;
  oc_next : exists added,
     tp_next plan = set_members (ts_members cur ++ added) (set_tokensPerMember tpm cur) /\
     forall m, m ∈ added -> m_state m = JOINING /\ m_identity m ∈ joining /\
       Z.of_nat (length (m_tokens m)) = tpm /\ token_derived m;
  oc_valid : valid_topology (tp_next plan);
  oc_u32 : tokens_u32 (ts_members (tp_next plan));
  oc_joining i : i ∈ joining -> exists m, m ∈ ts_members (tp_next plan) /\
     m_identity m = i /\ m_state m = JOINING;
  oc_exact : exact_changes (ring_owner committed (ts_members cur))
     (ring_owner committed_or_joining (ts_members (tp_next plan))) (tp_ownerChanges plan);
  oc_targets c : c ∈ tp_ownerChanges plan -> exists m, m ∈ ts_members (tp_next plan) /\
     m_identity m = oc_target c /\ m_state m = JOINING
}.

Record scale_in_contract (cur : TopologyState) (leaving : list MemberIdentity)
    (plan : TopologyPlan) : Prop := {
  nc_cur : valid_topology cur;
  nc_leaving i : i ∈ leaving -> exists m, m ∈ ts_members cur /\ m_identity m = i /\ committed m = true;
  nc_marked : tp_next plan = set_members (mark_members (addresses_of leaving) PRE_LEAVING (ts_members cur)) cur;
  nc_exact : exact_changes (ring_owner committed (ts_members cur))
     (ring_owner (fun m => committed m && outside leaving m) (ts_members cur)) (tp_ownerChanges plan);
  nc_sources c : c ∈ tp_ownerChanges plan -> exists s, oc_source c = Some s /\ s ∈ leaving /\
     oc_target c ∉ leaving
}.

(** Failure recovery reassigns the tokens of failed members only: their new
    owners are the nearest healthy [ACTIVE] members. *)
Record failure_contract (cur : TopologyState) (failed : list MemberIdentity)
    (plan : TopologyPlan) : Prop := {
  fc_cur : valid_topology cur;
  fc_failed i : i ∈ failed -> exists m, m ∈ ts_members cur /\ m_identity m = i /\ committed m = true;
  fc_marked : tp_next plan = set_members (mark_members (addresses_of failed) FAILED (ts_members cur)) cur;
  fc_total t : is_u32 t -> is_Some (ring_owner committed (ts_members cur) t) /\
     is_Some (ring_owner (fun m => bool_decide (m_state m = ACTIVE) && outside failed m) (ts_members cur) t);
  fc_iff t s d : is_u32 t -> ring_owner committed (ts_members cur) t = Some s ->
     ring_owner (fun m => bool_decide (m_state m = ACTIVE) && outside failed m) (ts_members cur) t = Some d ->
     s ∈ failed <-> exists c, c ∈ tp_ownerChanges plan /\ oc_source c = Some s /\ oc_target c = d /\
       covered t (oc_ranges c);
  fc_sound c t : c ∈ tp_ownerChanges plan -> covered t (oc_ranges c) -> is_u32 t /\
     ring_owner committed (ts_members cur) t = oc_source c /\
     ring_owner (fun m => bool_decide (m_state m = ACTIVE) && outside failed m) (ts_members cur) t = Some (oc_target c);
  fc_changes c : c ∈ tp_ownerChanges plan -> ranges_wf (oc_ranges c) /\ (exists t, covered t (oc_ranges c)) /\
     exists s m, oc_source c = Some s /\ s ∈ failed /\
       m ∈ ts_members cur /\ m_identity m = oc_target c /\ m_state m = ACTIVE /\ oc_target c ∉ failed;
  fc_pairs : NoDup (change_ends <$> tp_ownerChanges plan)
}.

Class PlanningLaws `{IPlanningAlgorithm} : Prop := {
  law_Validate st : alg_Validate st = Ok tt <-> valid_topology st;
  law_initial joining tpm plan :
    alg_BuildInitialPlacement {| so_current := default_TopologyState; so_joining := joining;
      so_tokensPerMember := tpm |} = Ok plan -> initial_contract joining tpm plan;
  law_scale_out cur joining tpm plan : tokens_u32 (ts_members cur) ->
    alg_PlanScaleOut {| so_current := cur; so_joining := joining; so_tokensPerMember := tpm |} = Ok plan ->
    scale_out_contract cur joining tpm plan;
  law_scale_in cur leaving plan : tokens_u32 (ts_members cur) ->
    alg_PlanScaleIn {| si_current := cur; si_leaving := leaving |} = Ok plan ->
    scale_in_contract cur leaving plan;
  law_failure cur failed plan : tokens_u32 (ts_members cur) ->
    alg_PlanFailure {| fi_current := cur; fi_failed := failed |} = Ok plan ->
    failure_contract cur failed plan
}.

(** ** When planning succeeds

    A selection of known members in the state [owns] tests, and an owner of
    tokens left for the keys to go to. *)
Record plannable `{RE2} (cur : TopologyState) (selected : list MemberIdentity) (owns : Member -> bool) : Prop := {
  pl_members : members_valid (ts_members cur);
  pl_some : selected <> [];
  pl_valid : identities_valid selected;
  pl_length i : i ∈ selected -> Z.of_nat (String.length (mi_address i)) <= MAX_MEMBER_ADDRESS_BYTES;
  pl_known i : i ∈ selected -> exists m, m ∈ ts_members cur /\ m_identity m = i /\ owns m = true
}.
Definition owner_left (owns : Member -> bool) (cur : TopologyState) : Prop :=
  exists m, m ∈ ts_members cur /\ owns m = true /\ m_tokens m <> [].

Class PlanningProgress `{RE2} `{IPlanningAlgorithm} : Prop := {
  progress_scale_out cur joining tpm : plannable cur joining is_joining ->
    0 < tpm <= MAX_HASH_RING_TOKENS_PER_MEMBER -> owner_left committed cur ->
    is_ok (alg_PlanScaleOut {| so_current := cur; so_joining := joining; so_tokensPerMember := tpm |}) = true;
  progress_scale_in cur leaving : plannable cur leaving committed ->
    owner_left (fun m => committed m && outside leaving m) cur ->
    is_ok (alg_PlanScaleIn {| si_current := cur; si_leaving := leaving |}) = true;
  progress_failure cur failed : plannable cur failed committed ->
    owner_left (fun m => bool_decide (m_state m = ACTIVE) && outside failed m) cur ->
    is_ok (alg_PlanFailure {| fi_current := cur; fi_failed := failed |}) = true
}.

(** ** Ownership lemmas shared by the algorithm and its clients *)

Lemma ring_owner_ext owns owns' members members' t :
  members_valid members -> tokens_u32 members -> is_u32 t ->
  (forall i x, (exists m, m ∈ members /\ owns m = true /\ m_identity m = i /\ x ∈ m_tokens m) <->
          (exists m, m ∈ members' /\ owns' m = true /\ m_identity m = i /\ x ∈ m_tokens m)) ->
  ring_owner owns members t = ring_owner owns' members' t.
Proof.
  intros Hv Hu Ht Hext. apply nearest_owner_perm; [by apply eligible_owners_ok|done|].
  intros o. rewrite !elem_of_eligible_owners. specialize (Hext (to_identity o) (to_token o)). naive_solver.
Qed.

Lemma ring_owner_elem owns members t i : ring_owner owns members t = Some i ->
  exists m, m ∈ members /\ owns m = true /\ m_identity m = i.
Proof.
  intros (o & (m & Hm & Ho & Hi & _)%elem_of_eligible_owners & <-)%nearest_owner_elem. eauto.
Qed.

(** The owner stays the owner when only other members lose their tokens. *)
Lemma ring_owner_restrict owns owns' members members' t i :
  members_valid members -> tokens_u32 members -> is_u32 t ->
  (forall j x, (exists m, m ∈ members' /\ owns' m = true /\ m_identity m = j /\ x ∈ m_tokens m) ->
          (exists m, m ∈ members /\ owns m = true /\ m_identity m = j /\ x ∈ m_tokens m)) ->
  ring_owner owns members t = Some i ->
  (forall m, m ∈ members -> owns m = true -> m_identity m = i ->
     exists m', m' ∈ members' /\ owns' m' = true /\ m_identity m' = i /\ m_tokens m' = m_tokens m) ->
  ring_owner owns' members' t = Some i.
Proof.
  intros Hv Hu Ht Hsub Hn Hkeep.
  eapply nearest_owner_restrict; [by apply (eligible_owners_ok owns members)| |done|exact Hn|].
  - intros o Ho. rewrite elem_of_eligible_owners in *.
    destruct Ho as (m & ? & ? & ? & ?). destruct (Hsub (to_identity o) (to_token o)) as (m' & ? & ? & ? & ?);
      [by eauto|]. by exists m'.
  - intros o (m & Hm & Hom & Hi & Hx)%elem_of_eligible_owners Hoi. rewrite elem_of_eligible_owners.
    destruct (Hkeep m Hm Hom) as (m' & ? & ? & ? & Htk); [congruence|].
    exists m'. rewrite Htk. split_and!; [done..|congruence|done].
Qed.
