(* ===== verification/HashPlans.v ===== *)
(** * Correctness of the plans of the hash algorithm

    The hash algorithm implements the planning interface: every plan it returns
    satisfies the contract of PlanningInterface.v.  The theorems give, per
    operation, what changes in the topology and that the owner changes are exact
    with respect to the abstract ring ownership. *)

From S2P Require Import Prelude Ordered TopologyTypes HashRing BalancedRing TokenPlacement HostPort RingTheory.
From S2P Require Import HashAlgorithm OwnerSpec PlanningInterface.

(** ** From sorted owner vectors to abstract ownership *)

Lemma BuildOwners_owners_ok members j ex ao owners :
  members_valid members -> tokens_u32 members -> BuildOwners members j ex ao = Ok owners ->
  owners_u32 owners /\ addr_functional owners.
Proof.
  intros Hv Hu (_ & _ & Hel)%BuildOwners_spec.
  destruct (eligible_owners_ok (owner_eligible j ex ao) members Hv Hu) as [H1 H2 H3]. split.
  - intros o Ho. by apply H1, Hel.
  - intros a b Ha Hb. apply H3; by apply Hel.
Qed.

Lemma owner_at_total owners t : owners <> [] -> is_Some (owner_at owners t).
Proof.
  intros Hne. unfold owner_at, FindOwner. destruct (drop_while _ owners); [|by eexists].
  destruct owners; [done|by eexists].
Qed.

Lemma changes_order_nodup changes :
  StronglySorted (fun c c' => exists s s', oc_source c = Some s /\ oc_source c' = Some s' /\
      ltk (mi_address s, mi_address (oc_target c)) (mi_address s', mi_address (oc_target c')) = true) changes ->
  NoDup (change_ends <$> changes).
Proof.
  induction 1 as [|c changes _ IH Hall]; [constructor|]. rewrite fmap_cons. constructor; [|done].
  intros (c' & Heq & Hc')%list_elem_of_fmap. rewrite Forall_forall in Hall.
  destruct (Hall c' Hc') as (s & s' & Hs & Hs' & Hlt%ltk_ne). unfold change_ends in Heq. rewrite Hs, Hs' in Heq.
  cbn in Heq. congruence.
Qed.

(** [DiffOwners] between two built owner vectors is exact. *)
Lemma DiffOwners_exact_changes ms j ex ao ms' j' ex' ao' fo to :
  members_valid ms -> tokens_u32 ms -> members_valid ms' -> tokens_u32 ms' ->
  BuildOwners ms j ex ao = Ok fo -> BuildOwners ms' j' ex' ao' = Ok to ->
  exact_changes (ring_owner (owner_eligible j ex ao) ms) (ring_owner (owner_eligible j' ex' ao') ms')
    (DiffOwners fo to).
Proof.
  intros Hv Hu Hv' Hu' Hfo Hto.
  destruct (BuildOwners_owners_ok _ _ _ _ _ Hv Hu Hfo) as [F1 F2].
  destruct (BuildOwners_owners_ok _ _ _ _ _ Hv' Hu' Hto) as [T1 T2].
  pose proof (fun t Ht => BuildOwners_refines ms j ex ao fo t Hv Hu Ht Hfo) as Rf.
  pose proof (fun t Ht => BuildOwners_refines ms' j' ex' ao' to t Hv' Hu' Ht Hto) as Rt.
  apply BuildOwners_spec in Hfo as (Nf & _). apply BuildOwners_spec in Hto as (Nt & _).
  pose proof (DiffOwners_result fo to F1 T1 F2 T2) as [Hmv Hsd Hwf Hord].
  split.
  - intros t Ht. rewrite <-Rf, <-Rt by done. split; by apply owner_at_total.
  - intros t s d Ht. rewrite <-Rf, <-Rt by done. intros Hs Hd. split.
    + intros Hne. destruct (Hmv t s d Ht Hs Hd Hne) as (c & Hc & Hcov). exists c.
      destruct (Hsd c t Hc Hcov) as (_ & E1 & E2 & _). split_and!; [done|congruence|congruence|done].
    + intros (c & Hc & E1 & E2 & Hcov) ->. destruct (Hsd c t Hc Hcov) as (_ & _ & _ & Hne). congruence.
  - intros c t Hc Hcov. destruct (Hsd c t Hc Hcov) as (Ht & E1 & E2 & _).
    by rewrite <-Rf, <-Rt by done.
  - intros c Hc. destruct (Hwf c Hc) as (W1 & (t & Ht) & [s Hs]). split_and!; [done|eauto|].
    exists s. split; [done|]. destruct (Hsd c t Hc Ht) as (_ & _ & _ & Hne). congruence.
  - by apply changes_order_nodup.
Qed.

Lemma exact_changes_ext b b' a a' changes :
  (forall t, is_u32 t -> b t = b' t) -> (forall t, is_u32 t -> a t = a' t) ->
  exact_changes b a changes -> exact_changes b' a' changes.
Proof.
  intros Hb Ha [H1 H2 H3 H4 H5]. split.
  - intros t Ht. rewrite <-Hb, <-Ha by done. auto.
  - intros t s d Ht. rewrite <-Hb, <-Ha by done. auto.
  - intros c t Hc Hcov. destruct (H3 c t Hc Hcov) as (Ht & ? & ?). by rewrite <-Hb, <-Ha.
  - done.
  - done.
Qed.

(** Eligibility of the owner vectors in terms of the named predicates. *)
Lemma ring_owner_pred owns owns' members t : (forall m, m ∈ members -> owns m = owns' m) ->
  ring_owner owns members t = ring_owner owns' members t.
Proof.
  intros Heq. unfold ring_owner, eligible_owners. f_equal. f_equal.
  induction members as [|m ms IH]; [done|]. cbn. rewrite Heq by left.
  rewrite IH; [done|]. intros; apply Heq; by right.
Qed.

Lemma eligible_committed m : owner_eligible false ∅ false m = committed m.
Proof.
  unfold owner_eligible, committed. rewrite andb_false_l, orb_false_r.
  by rewrite bool_decide_true, andb_true_r by apply not_elem_of_empty.
Qed.

Lemma eligible_joining m : owner_eligible true ∅ false m = committed_or_joining m.
Proof.
  unfold owner_eligible, committed_or_joining, committed, is_joining. rewrite andb_true_l.
  by rewrite (bool_decide_true (_ ∉ ∅)), andb_true_r by apply not_elem_of_empty.
Qed.

Lemma eligible_outside leaving m :
  owner_eligible false (addresses_of leaving) false m = committed m && outside leaving m.
Proof. unfold owner_eligible, committed, outside. by rewrite andb_false_l, orb_false_r. Qed.

Lemma eligible_active failed m :
  owner_eligible false (addresses_of failed) true m = bool_decide (m_state m = ACTIVE) && outside failed m.
Proof. done. Qed.

Lemma elem_of_addresses_of l a : a ∈ addresses_of l <-> exists i, i ∈ l /\ mi_address i = a.
Proof. unfold addresses_of. rewrite elem_of_list_to_set, list_elem_of_fmap. naive_solver. Qed.

(** ** Selected members *)

Lemma find_address_Some a ms m : find_address a ms = Some m -> m ∈ ms /\ m_address m = a.
Proof.
  intros [Hm Ha]%List.find_some. split; [by apply list_elem_of_In|]. by apply bool_decide_eq_true in Ha.
Qed.

Lemma find_address_None a ms : find_address a ms = None -> forall m, m ∈ ms -> m_address m <> a.
Proof.
  intros Hn m Hm%list_elem_of_In Ha. eapply List.find_none in Hn; [|exact Hm].
  cbn in Hn. by apply bool_decide_eq_false in Hn.
Qed.

Definition are_committed (cur : TopologyState) (l : list MemberIdentity) : Prop :=
  Forall (fun i => exists m, m ∈ ts_members cur /\ m_identity m = i /\ committed m = true) l.

Lemma ValidateSelectedMembers_ok cur selected u :
  ValidateSelectedMembers cur selected = Ok u -> are_committed cur selected.
Proof.
  unfold ValidateSelectedMembers. intros Hok.
  apply (foldM_inv _ (fun pre _ => are_committed cur pre)) in Hok; [done|constructor|].
  clear u Hok. intros pre x post [] s' _ IH Hx. apply Forall_app. split; [done|].
  apply Forall_singleton. destruct (find_address _ _) as [m|] eqn:Ef; [|done].
  apply check_Ok, andb_prop in Hx as [H1%bool_decide_eq_true H2].
  apply find_address_Some in Ef as [Hm _]. eauto.
Qed.

(** ** Scale-in and failure plans *)

(** A committed member outside [l] has an identity outside [l], and conversely. *)
Lemma outside_identity cur l m : members_valid (ts_members cur) -> are_committed cur l ->
  m ∈ ts_members cur -> outside l m = true <-> m_identity m ∉ l.
Proof.
  intros Hv Hl Hm. unfold outside. rewrite bool_decide_eq_true, elem_of_addresses_of. split.
  - intros Hno Hin. apply Hno. eauto.
  - intros Hno (i & Hi & Ha). unfold are_committed in Hl. rewrite Forall_forall in Hl.
    destruct (Hl i Hi) as (m' & Hm' & <- & _).
    by rewrite (address_inj _ _ _ Hv Hm' Hm Ha) in Hi.
Qed.

(** A change of owner between a ring and the ring without some members starts
    at one of those members. *)
Lemma restricted_change cur owns owns' t s d :
  members_valid (ts_members cur) -> tokens_u32 (ts_members cur) -> is_u32 t ->
  (forall m, owns' m = true -> owns m = true) ->
  ring_owner owns (ts_members cur) t = Some s -> ring_owner owns' (ts_members cur) t = Some d -> s <> d ->
  exists m, m ∈ ts_members cur /\ m_identity m = s /\ owns m = true /\ owns' m = false.
Proof.
  intros Hv Hu Ht Hsub Hs Hd Hne. destruct (ring_owner_elem _ _ _ _ Hs) as (m & Hm & Ho & Hi).
  exists m. split_and!; [done..|]. destruct (owns' m) eqn:E; [|done]. exfalso. apply Hne.
  enough (ring_owner owns' (ts_members cur) t = Some s) by congruence.
  eapply (ring_owner_restrict owns); [exact Hv|done|done| |exact Hs|].
  - intros j x (m' & ? & ? & ? & ?). eauto 10.
  - intros m' Hm' Ho' Hi'. exists m'. split_and!; [done| |done|done].
    assert (m' = m) as ->; [|done]. eapply (address_inj _ _ _ Hv); [done..|]. congruence.
Qed.

Section plans.
Context `{RE2}.

Lemma PlanScaleIn_contract cur leaving plan : tokens_u32 (ts_members cur) ->
  PlanScaleIn {| si_current := cur; si_leaving := leaving |} = Ok plan ->
  scale_in_contract cur leaving plan.
Proof.
  intros Hu Hok. unfold PlanScaleIn in Hok. cbn [si_current si_leaving] in Hok.
  apply bind_Ok in Hok as ([] & Hv%Validate_iff & Hok). apply bind_Ok in Hok as (u1 & _ & Hok).
  apply bind_Ok in Hok as (u2 & Hsel%ValidateSelectedMembers_ok & Hok).
  apply bind_Ok in Hok as (u3 & _ & Hok).
  apply bind_Ok in Hok as (fo & Hfo & Hok). apply bind_Ok in Hok as (to & Hto & [= <-]).
  pose proof (vt_members _ Hv) as Hm.
  pose proof (DiffOwners_exact_changes _ _ _ _ _ _ _ _ _ _ Hm Hu Hm Hu Hfo Hto) as Hex.
  apply (exact_changes_ext _ (ring_owner committed (ts_members cur)) _
    (ring_owner (fun m => committed m && outside leaving m) (ts_members cur))) in Hex.
  2:{ intros. apply ring_owner_pred. intros. apply eligible_committed. }
  2:{ intros. apply ring_owner_pred. intros. apply eligible_outside. }
  split; cbn [tp_next tp_ownerChanges]; [done| |done|done|].
  - intros i Hi. unfold are_committed in Hsel. rewrite Forall_forall in Hsel. auto.
  - intros c Hc. destruct (ec_wf _ _ _ Hex c Hc) as (_ & (t & Ht) & s & Hs & Hne).
    destruct (ec_sound _ _ _ Hex c t Hc Ht) as (Htu & Hb & Ha). rewrite Hs in Hb.
    exists s. split; [done|].
    destruct (restricted_change cur _ _ t s (oc_target c) Hm Hu Htu
      (fun m H => proj1 (andb_prop _ _ H)) Hb Ha Hne) as (m & Hmm & <- & Hcm & Hout).
    rewrite Hcm in Hout. cbn in Hout.
    split.
    + destruct (decide (m_identity m ∈ leaving)) as [|Hno]; [done|].
      apply (outside_identity cur leaving m Hm Hsel Hmm) in Hno. congruence.
    + apply ring_owner_elem in Ha as (m' & Hm' & [_ Hout']%andb_prop & <-).
      by apply (outside_identity cur leaving m' Hm Hsel Hm').
Qed.

Lemma source_excluded_iff cur failed c s t owns : members_valid (ts_members cur) -> are_committed cur failed ->
  ring_owner owns (ts_members cur) t = Some s -> oc_source c = Some s ->
  source_excluded (addresses_of failed) c = true <-> s ∈ failed.
Proof.
  intros Hv Hf (m & Hm & _ & <-)%ring_owner_elem Hc. unfold source_excluded. rewrite Hc, bool_decide_eq_true.
  pose proof (outside_identity cur failed m Hv Hf Hm) as Ho. unfold outside in Ho.
  rewrite bool_decide_eq_true in Ho. destruct (decide (m_identity m ∈ failed)), (decide (m_address m ∈ addresses_of failed)); naive_solver.
Qed.

Lemma PlanFailure_contract cur failed plan : tokens_u32 (ts_members cur) ->
  PlanFailure {| fi_current := cur; fi_failed := failed |} = Ok plan ->
  failure_contract cur failed plan.
Proof.
  intros Hu Hok. unfold PlanFailure in Hok. cbn [fi_current fi_failed] in Hok.
  apply bind_Ok in Hok as ([] & Hv%Validate_iff & Hok). apply bind_Ok in Hok as (u1 & _ & Hok).
  apply bind_Ok in Hok as (u2 & Hsel%ValidateSelectedMembers_ok & Hok).
  apply bind_Ok in Hok as (u3 & _ & Hok).
  apply bind_Ok in Hok as (fo & Hfo & Hok). apply bind_Ok in Hok as (to & Hto & [= <-]).
  pose proof (vt_members _ Hv) as Hm.
  pose proof (DiffOwners_exact_changes _ _ _ _ _ _ _ _ _ _ Hm Hu Hm Hu Hfo Hto) as Hex.
  apply (exact_changes_ext _ (ring_owner committed (ts_members cur)) _
    (ring_owner (fun m => bool_decide (m_state m = ACTIVE) && outside failed m) (ts_members cur))) in Hex.
  2:{ intros. apply ring_owner_pred. intros. apply eligible_committed. }
  2:{ intros. apply ring_owner_pred. intros. apply eligible_active. }
  clear Hfo Hto.
  assert (Hout : forall t d, ring_owner (fun m => bool_decide (m_state m = ACTIVE) && outside failed m)
            (ts_members cur) t = Some d ->
     exists m, m ∈ ts_members cur /\ m_identity m = d /\ m_state m = ACTIVE /\ d ∉ failed).
  { intros t d (m & Hmm & [Ha%bool_decide_eq_true Ho]%andb_prop & <-)%ring_owner_elem.
    exists m. split_and!; [done..|]. by apply (outside_identity cur failed m Hm Hsel Hmm). }
  split; cbn [tp_next tp_ownerChanges]; [done| |done| | | | |].
  - intros i Hi. unfold are_committed in Hsel. rewrite Forall_forall in Hsel. auto.
  - apply Hex.
  - intros t s d Ht Hs Hd. destruct (Hout t d Hd) as (_ & _ & _ & _ & Hdf).
    pose proof (ec_iff _ _ _ Hex t s d Ht Hs Hd) as Hiff. split.
    + intros Hsf. destruct (proj1 Hiff) as (c & Hc & Hcs & Hcd & Hcov); [by intros ->|].
      exists c. split_and!; [|done..]. apply elem_of_filter_bool. split; [done|].
      by apply (source_excluded_iff cur failed c s t committed).
    + intros (c & [Hc Hse]%elem_of_filter_bool & Hcs & Hcd & Hcov).
      by apply (source_excluded_iff cur failed c s t committed) in Hse.
  - intros c t [Hc _]%elem_of_filter_bool. by apply (ec_sound _ _ _ Hex).
  - intros c [Hc Hse]%elem_of_filter_bool.
    destruct (ec_wf _ _ _ Hex c Hc) as (Hwf & (t & Ht) & s & Hs & Hne).
    destruct (ec_sound _ _ _ Hex c t Hc Ht) as (Htu & Hb & Ha). rewrite Hs in Hb.
    destruct (Hout t _ Ha) as (m & ? & ? & ? & ?). split_and!; [done|eauto|].
    exists s, m. split_and!; [done| |done..].
    by apply (source_excluded_iff cur failed c s t committed) in Hse.
  - eapply sublist_NoDup; [apply Hex|]. apply fmap_sublist, filter_bool_sublist.
Qed.

(** ** Scale-out plans *)

Lemma CollectPlacementOwners_from_spec k ms st :
  let r := CollectPlacementOwners_from k ms st in
  (forall o, o ∈ r.1 -> o ∈ st.1 \/ po_token o ∈ all_tokens ms) /\
  r.2 = list_to_set (all_tokens ms) ∪ st.2.
Proof.
  revert k st. induction ms as [|m ms IH]; intros k [os occ]; cbn [CollectPlacementOwners_from fst snd].
  - split; [by left|]. cbn. by rewrite (left_id_L ∅ (∪)).
  - destruct (IH (S k) (os ++ ((fun t => {| po_token := t; po_memberIndex := k |}) <$> m_tokens m),
      list_to_set (m_tokens m) ∪ occ)) as [H1 H2].
    change (all_tokens (m :: ms)) with (m_tokens m ++ all_tokens ms). split.
    + intros o [[Ho|Ho]%elem_of_app|Ho]%H1; [by left| |right; apply elem_of_app; by right].
      right. apply list_elem_of_fmap in Ho as (t & -> & Ht). apply elem_of_app. by left.
    + cbn [fst snd] in H2. by rewrite H2, set_append_list.
Qed.

Lemma tokens_u32_all ms : tokens_u32 ms <-> forall t, t ∈ all_tokens ms -> is_u32 t.
Proof.
  unfold tokens_u32, all_tokens. setoid_rewrite list_elem_of_bind. naive_solver.
Qed.

(** The state of the scale-out loop after the joiners [pre]. *)
Record scale_out_inv (cur : list Member) (joining : list MemberIdentity) (tpm : Z)
    (pre : list MemberIdentity) (st : list Member * TokenPlacement) : Prop := {
  so_added : exists added, st.1 = cur ++ added /\
     forall m, m ∈ added -> m_state m = JOINING /\ m_identity m ∈ joining /\
       Z.of_nat (length (m_tokens m)) = tpm /\ token_derived m;
  so_valid : members_valid st.1;
  so_u32 : tokens_u32 st.1;
  so_placement : placement_inv st.2;
  so_occupied t : t ∈ all_tokens st.1 -> t ∈ tp_occupied st.2;
  so_done i : i ∈ pre -> exists m, m ∈ st.1 /\ m_identity m = i /\ m_state m = JOINING
}.

Lemma members_valid_snoc ms m : members_valid ms ->
  String.length (m_id m) = UUID_SIZE -> m_address m <> EmptyString ->
  (forall m', m' ∈ ms -> m_id m' <> m_id m) -> (forall m', m' ∈ ms -> m_address m' <> m_address m) ->
  NoDup (m_tokens m) -> (forall t, t ∈ m_tokens m -> t ∉ all_tokens ms) ->
  members_valid (ms ++ [m]).
Proof.
  intros [Hsh Hi Ha Ht] H1 H2 Hid Had Hnd Hfr. split.
  - intros m' [Hm'| ->]%elem_of_snoc; auto.
  - rewrite fmap_app. apply NoDup_app. split_and!; [done| |apply NoDup_singleton].
    intros x (m' & -> & Hm')%list_elem_of_fmap Hx%list_elem_of_singleton. by apply (Hid m').
  - rewrite fmap_app. apply NoDup_app. split_and!; [done| |apply NoDup_singleton].
    intros x (m' & -> & Hm')%list_elem_of_fmap Hx%list_elem_of_singleton. by apply (Had m').
  - unfold all_tokens. rewrite bind_app. cbn. rewrite app_nil_r. apply NoDup_app.
    split_and!; [done| |done]. intros t H3 H4. by apply (Hfr t).
Qed.

Lemma sel_inv_derived i st occ0 k occ sel : k <= MAX_HASH_RING_TOKENS_PER_MEMBER ->
  sel_inv (mi_address i) occ0 k occ sel ->
  token_derived {| m_identity := i; m_state := st; m_tokens := sel.1; m_tokenSeedOverrides := sel.2 |}.
Proof.
  intros Hk [(seeds & Hl & Ht & Ho & Hr) _ _ _]. exists seeds. split_and!; [done| |done]. cbn [m_tokens m_identity].
  rewrite Ht. symmetry. apply MakeHashRingTokens_imap. unfold MAX_HASH_RING_TOKENS_PER_MEMBER in Hk. lia.
Qed.

Lemma sel_inv_length address occ0 k occ sel : sel_inv address occ0 k occ sel -> Z.of_nat (length sel.1) = k.
Proof. intros [(seeds & <- & -> & _) _ _ _]. by rewrite length_imap. Qed.

Lemma all_tokens_snoc ms m t : t ∈ all_tokens (ms ++ [m]) <-> t ∈ all_tokens ms \/ t ∈ m_tokens m.
Proof. unfold all_tokens. rewrite bind_app. cbn. by rewrite app_nil_r, elem_of_app. Qed.

Lemma scale_out_step_inv cur joining tpm pre i st st' :
  0 <= tpm <= MAX_HASH_RING_TOKENS_PER_MEMBER -> identities_valid joining -> i ∈ joining ->
  scale_out_inv cur joining tpm pre st -> scale_out_step tpm st i = Ok st' ->
  scale_out_inv cur joining tpm (pre ++ [i]) st'.
Proof.
  intros Htpm Hiv Hi [(added & Hst & Hadd) Hv Hu Hp Hocc Hdone] Hok. unfold scale_out_step in Hok.
  destruct (find_address (mi_address i) st.1) as [m|] eqn:Ef.
  - apply bind_Ok in Hok as (u & [H1%bool_decide_eq_true H2%bool_decide_eq_true]%check_Ok%andb_prop & [= <-]).
    apply find_address_Some in Ef as [Hm _]. split; [eauto|done..|].
    intros j [Hj| ->]%elem_of_snoc; eauto.
  - apply bind_Ok in Hok as (u & Hid%check_Ok & Hok). apply bind_Ok in Hok as ([p' sel] & Hsel & [= <-]).
    apply SelectTokens_spec in Hsel as [Hp' Hs]; [|lia|done].
    pose proof (sel_inv_derived i JOINING _ _ _ _ (proj2 Htpm) Hs) as Hder. pose proof (sel_inv_length _ _ _ _ _ Hs) as Hlen. pose proof (fun t => sel_inv_u32 _ _ _ _ _ t Hs) as Hsu.
    destruct Hs as [_ Hnd Hfr Hocc']. cbn [fst snd] in *.
    set (m := {| m_identity := i; m_state := JOINING; m_tokens := sel.1; m_tokenSeedOverrides := sel.2 |}).
    destruct (iv_shape _ Hiv i Hi) as (Hl & Hne & _).
    rewrite forallb_forall in Hid.
    split; cbn [fst snd].
    + exists (added ++ [m]). rewrite Hst, <-app_assoc. split; [done|].
      intros m' [Hm'| ->]%elem_of_snoc; auto.
    + apply members_valid_snoc; [done..| | |done|].
      * intros m' Hm' E. specialize (Hid m' ltac:(by apply list_elem_of_In)).
        by apply negb_true_iff, bool_decide_eq_false in Hid.
      * by apply find_address_None.
      * intros t Ht Hin. by apply (Hfr t Ht), Hocc.
    + apply tokens_u32_all. intros t [Ht|Ht]%all_tokens_snoc; [|auto]. by apply (proj1 (tokens_u32_all _) Hu).
    + done.
    + intros t [Ht|Ht]%all_tokens_snoc; rewrite Hocc'; apply elem_of_union; [right; auto|left].
      by apply elem_of_list_to_set.
    + intros j [Hj| ->]%elem_of_snoc.
      * destruct (Hdone j Hj) as (m' & Hm' & ? & ?). exists m'. rewrite elem_of_snoc. auto.
      * exists m. rewrite elem_of_snoc. auto.
Qed.

Lemma new_TokenPlacement_occupied owners occupied balanced t :
  t ∈ occupied -> t ∈ tp_occupied (new_TokenPlacement owners occupied balanced).
Proof.
  intros Ht. unfold new_TokenPlacement. destruct balanced; [|done].
  pose proof (new_BalancedRing_occupied owners occupied) as Ho.
  destruct (new_BalancedRing owners occupied). cbn in *. subst. by apply elem_of_union_r.
Qed.

(** A token that changes hands when members are only added goes to a joining member. *)
Lemma scale_out_targets ms added changes : members_valid (ms ++ added) -> tokens_u32 (ms ++ added) ->
  (forall m, m ∈ added -> m_state m = JOINING) ->
  exact_changes (ring_owner committed ms) (ring_owner committed_or_joining (ms ++ added)) changes ->
  forall c, c ∈ changes -> exists m, m ∈ ms ++ added /\ m_identity m = oc_target c /\ m_state m = JOINING.
Proof.
  intros Hv' Hu' Hadd Hex c Hc. destruct (ec_wf _ _ _ Hex c Hc) as (_ & (t & Ht) & s & Hs & Hne').
  destruct (ec_sound _ _ _ Hex c t Hc Ht) as (Htu & Hb & Ha). rewrite Hs in Hb.
  destruct (ring_owner_elem _ _ _ _ Ha) as (m & Hm & Ho & Hi). exists m. split_and!; [done..|].
  destruct (decide (m_state m = JOINING)) as [|Hj]; [done|]. exfalso. apply Hne'.
  enough (ring_owner committed ms t = Some (oc_target c)) by congruence.
  eapply (ring_owner_restrict committed_or_joining _ (ms ++ added)); [done..| |exact Ha|].
  - intros j x (m' & ? & Hc' & ? & ?). exists m'. rewrite elem_of_app. unfold committed_or_joining. rewrite Hc'. eauto.
  - intros m' Hm' Ho' Hi'. assert (m' = m) as -> by (eapply (address_inj (ms ++ added)); [done..|congruence]).
    exists m. apply elem_of_app in Hm as [Hm|Hm]; [|by apply Hadd in Hm].
    unfold committed_or_joining, is_joining in Ho. rewrite (bool_decide_false (m_state m = JOINING)), orb_false_r in Ho by done. eauto.
Qed.

(** The state before the first joining member is placed. *)
Lemma scale_out_inv_start ms joining tpm owners occ balanced : members_valid ms -> tokens_u32 ms ->
  CollectPlacementOwners ms = (owners, occ) -> scale_out_inv ms joining tpm [] (ms, new_TokenPlacement owners occ balanced).
Proof.
  intros Hv Hu Ec. destruct (CollectPlacementOwners_from_spec 0 ms ([], ∅)) as [Hco Hcc].
  change (CollectPlacementOwners_from 0 ms ([], ∅)) with (CollectPlacementOwners ms) in Hco, Hcc.
  rewrite Ec in Hco, Hcc. cbn [fst snd] in Hco, Hcc. split; cbn [fst snd].
  - exists []. rewrite app_nil_r. split; [done|]. no_elem.
  - done.
  - done.
  - apply new_TokenPlacement_inv. intros o Ho. apply Hco in Ho as [?%not_elem_of_nil|Ho]; [done|].
    by apply (proj1 (tokens_u32_all _) Hu).
  - intros t Ht. apply new_TokenPlacement_occupied. rewrite Hcc. by apply elem_of_union_l, elem_of_list_to_set.
  - no_elem.
Qed.

Lemma PlanScaleOut_contract cur joining tpm plan : tokens_u32 (ts_members cur) ->
  PlanScaleOut {| so_current := cur; so_joining := joining; so_tokensPerMember := tpm |} = Ok plan ->
  scale_out_contract cur joining tpm plan.
Proof.
  intros Hu Hok. unfold PlanScaleOut in Hok. cbn [so_current so_joining so_tokensPerMember] in Hok.
  apply bind_Ok in Hok as ([] & Hv%Validate_iff & Hok).
  apply bind_Ok in Hok as (u1 & Hiv%ValidateIdentities_valid & Hok).
  apply bind_Ok in Hok as (u2 & [[_ Htpm%Z.ltb_lt]%andb_prop Hmax%Z.leb_le]%check_Ok%andb_prop & Hok).
  destruct (CollectPlacementOwners (ts_members cur)) as [owners occ] eqn:Ec.
  apply bind_Ok in Hok as (st & Hloop & Hok).
  apply bind_Ok in Hok as (fo & Hfo & Hok). apply bind_Ok in Hok as (to & Hto & [= <-]).
  apply (foldM_inv _ (scale_out_inv (ts_members cur) joining tpm)) in Hloop as [(added & Hst & Hadd) Hv' Hu' _ _ Hdone].
  2:{ by apply scale_out_inv_start; [apply Hv|..]. }
  2:{ intros pre x post s s' Heq Hinv Hstep. eapply scale_out_step_inv; [lia|done| |done|done].
      apply (elem_of_sort_on mi_address). rewrite Heq. apply elem_of_app. right. left. }
  pose proof (DiffOwners_exact_changes _ _ _ _ _ _ _ _ _ _ (vt_members _ Hv) Hu Hv' Hu' Hfo Hto) as Hex.
  apply (exact_changes_ext _ (ring_owner committed (ts_members cur)) _
    (ring_owner committed_or_joining st.1)) in Hex.
  2:{ intros. apply ring_owner_pred. intros. apply eligible_committed. }
  2:{ intros. apply ring_owner_pred. intros. apply eligible_joining. }
  apply BuildOwners_spec in Hfo as (Hne & _ & Hel).
  split; cbn [tp_next tp_ownerChanges set_members ts_members];
    [done|exists added; by rewrite <-Hst| |done| |done|].
  - split; cbn [tp_next tp_ownerChanges set_members ts_members]; [done|]. right.
    destruct (vt_committed _ Hv) as [Hnil|(m & Hm & Hc)].
    + destruct fo as [|o fo]; [done|]. rewrite Hnil in Hel.
      pose proof (proj1 (Hel o) ltac:(left)) as Ho.
      by apply elem_of_eligible_owners in Ho as (m & ?%not_elem_of_nil & _).
    + exists m. split; [|done]. rewrite Hst. apply elem_of_app. by left.
  - intros i Hi. apply Hdone. by apply elem_of_sort_on.
  - rewrite Hst in *. apply (scale_out_targets _ added); try done. intros m Hm. by apply Hadd.
Qed.

(** ** Bootstrap *)

(** The member built for [identity] from its allocation. *)
Definition placed (allocations : gmap string TokenAllocation) (identity : MemberIdentity) : Member :=
  let allocation := allocation_of allocations (mi_address identity) in
  {| m_identity := identity; m_state := ACTIVE; m_tokens := ta_tokens allocation;
     m_tokenSeedOverrides := ta_tokenSeedOverrides allocation |}.

Record allocate_inv (tpm : Z) (pre : list MemberIdentity)
    (st : gmap string TokenAllocation * TokenPlacement) : Prop := {
  al_valid : members_valid (placed st.1 <$> pre);
  al_u32 : tokens_u32 (placed st.1 <$> pre);
  al_count m : m ∈ placed st.1 <$> pre -> Z.of_nat (length (m_tokens m)) = tpm /\ token_derived m;
  al_placement : placement_inv st.2;
  al_occupied t : t ∈ all_tokens (placed st.1 <$> pre) -> t ∈ tp_occupied st.2
}.

Lemma allocate_step_inv joining tpm pre i st p' (sel : Selection) :
  0 <= tpm <= MAX_HASH_RING_TOKENS_PER_MEMBER -> identities_valid joining -> (forall j, j ∈ pre ++ [i] -> j ∈ joining) ->
  (forall j, j ∈ pre -> mi_id j <> mi_id i /\ mi_address j <> mi_address i) ->
  allocate_inv tpm pre st -> SelectTokens i tpm st.2 = Ok (p', sel) ->
  allocate_inv tpm (pre ++ [i])
    (<[mi_address i := {| ta_tokens := sel.1; ta_tokenSeedOverrides := sel.2 |}]> st.1, p').
Proof.
  intros Htpm Hiv Hin Hne [Hv Hu Hc Hp Hocc] [Hp' Hs]%SelectTokens_spec; [|lia|done].
  pose proof (sel_inv_derived i ACTIVE _ _ _ _ (proj2 Htpm) Hs) as Hder. pose proof (sel_inv_length _ _ _ _ _ Hs) as Hlen. pose proof (fun t => sel_inv_u32 _ _ _ _ _ t Hs) as Hsu.
  destruct Hs as [_ Hnd Hfr Hocc']. cbn [fst snd] in *.
  set (m := {| m_identity := i; m_state := ACTIVE; m_tokens := sel.1; m_tokenSeedOverrides := sel.2 |}).
  assert (Heq : placed (<[mi_address i := {| ta_tokens := sel.1; ta_tokenSeedOverrides := sel.2 |}]> st.1)
      <$> (pre ++ [i]) = (placed st.1 <$> pre) ++ [m]).
  { rewrite fmap_app. f_equal.
    - apply list_fmap_ext. intros k j Hj%list_elem_of_lookup_2. unfold placed, allocation_of.
      rewrite lookup_insert_ne; [done|]. intros E. by destruct (Hne j Hj).
    - cbn. unfold placed, allocation_of. by rewrite lookup_insert_eq. }
  destruct (iv_shape _ Hiv i) as (Hl & Hn & _); [apply Hin, elem_of_snoc; by right|].
  split; cbn [fst snd]; rewrite ?Heq.
  - apply members_valid_snoc; [done..| | |done|].
    + intros m' (j & -> & Hj)%list_elem_of_fmap. by apply Hne.
    + intros m' (j & -> & Hj)%list_elem_of_fmap. by apply Hne.
    + intros t Ht Ht'. by apply (Hfr t Ht), Hocc.
  - apply tokens_u32_all. intros t [Ht|Ht]%all_tokens_snoc; [|auto]. by apply (proj1 (tokens_u32_all _) Hu).
  - intros m' [Hm'| ->]%elem_of_snoc; auto.
  - done.
  - intros t [Ht|Ht]%all_tokens_snoc; rewrite Hocc'; apply elem_of_union; [right; auto|left].
    by apply elem_of_list_to_set.
Qed.

Lemma AllocateTokens_spec joining tpm allocations : AllocateTokens joining tpm = Ok allocations ->
  let members := placed allocations <$> sort_on mi_address joining in
  0 < tpm /\ members_valid members /\ tokens_u32 members /\
  (forall m, m ∈ members -> Z.of_nat (length (m_tokens m)) = tpm /\ token_derived m).
Proof.
  unfold AllocateTokens. intros (u1 & [Htpm%Z.ltb_lt Hmax%Z.leb_le]%check_Ok%andb_prop & Hok)%bind_Ok.
  apply bind_Ok in Hok as (u2 & Hiv%ValidateIdentities_valid & Hok).
  apply bind_Ok in Hok as (st & Hloop & [= <-]).
  apply (foldM_inv _ (allocate_inv tpm)) in Hloop as [Hv Hu Hc _ _]; [done|..].
  - split; cbn; [split|..]; try (no_elem); try exact NoDup_nil_2.
    apply new_TokenPlacement_inv. no_elem.
  - intros pre i post s s' Heq Hinv Hs. apply bind_Ok in Hs as ([p' sel] & Hsel & [= <-]).
    eapply allocate_step_inv; [lia|exact Hiv| | |done|done].
    + intros j Hj. apply (elem_of_sort_on mi_address). rewrite Heq.
      apply elem_of_snoc in Hj as [Hj| ->]; apply elem_of_app; [by left|right; left].
    + assert (Hni : NoDup (mi_id <$> sort_on mi_address joining)) by (rewrite sort_on_perm; apply Hiv).
      assert (Hna : NoDup (mi_address <$> sort_on mi_address joining)) by (rewrite sort_on_perm; apply Hiv).
      rewrite Heq, fmap_app in Hni, Hna. apply NoDup_app in Hni as (_ & Hni & _).
      apply NoDup_app in Hna as (_ & Hna & _). intros j Hj. split; intros E.
      * apply (Hni (mi_id j)); [by apply list_elem_of_fmap_2|]. rewrite E. left.
      * apply (Hna (mi_address j)); [by apply list_elem_of_fmap_2|]. rewrite E. left.
Qed.

Lemma BuildInitialPlacement_contract joining tpm plan :
  BuildInitialPlacement {| so_current := default_TopologyState; so_joining := joining;
    so_tokensPerMember := tpm |} = Ok plan -> initial_contract joining tpm plan.
Proof.
  unfold BuildInitialPlacement. cbn [so_current so_joining so_tokensPerMember].
  intros (u1 & [_ Hne]%check_Ok%andb_prop & Hok)%bind_Ok.
  apply bind_Ok in Hok as (allocations & (Htpm & Hv & Hu & Hc)%AllocateTokens_spec & [= <-]).
  fold (placed allocations).
  split; cbn [tp_next tp_ownerChanges set_members ts_members default_TopologyState app]; [done| |done| | |done].
  - split; cbn [tp_next tp_ownerChanges set_members ts_members]; [done|]. right.
    destruct joining as [|i joining]; [done|]. exists (placed allocations i).
    split; [|done]. apply list_elem_of_fmap_2. apply elem_of_sort_on. left.
  - rewrite <-list_fmap_compose. rewrite (list_fmap_ext (m_identity ∘ placed allocations) id) by done.
    by rewrite list_fmap_id, sort_on_perm.
  - intros m Hm. split; [|auto]. by apply list_elem_of_fmap in Hm as (i & -> & _).
Qed.

#[export] Instance HashAlgorithm_planning : IPlanningAlgorithm := {|
  alg_BuildInitialPlacement := BuildInitialPlacement;
  alg_PlanScaleOut := PlanScaleOut;
  alg_PlanScaleIn := PlanScaleIn;
  alg_PlanFailure := PlanFailure;
  alg_Validate := Validate |}.

(** The hash algorithm implements the planning interface. *)
#[export] Instance HashAlgorithm_laws : PlanningLaws.
Proof.
  split.
  - exact Validate_iff.
  - exact BuildInitialPlacement_contract.
  - exact PlanScaleOut_contract.
  - exact PlanScaleIn_contract.
  - exact PlanFailure_contract.
Qed.

(** ** Planning succeeds *)

Lemma BuildOwners_ok ms j ex ao m : m ∈ ms -> owner_eligible j ex ao m = true -> m_tokens m <> [] ->
  exists owners, BuildOwners ms j ex ao = Ok owners.
Proof.
  intros Hm Ho Ht. unfold BuildOwners. destruct (m_tokens m) as [|t ts] eqn:Et; [done|].
  destruct (List.filter (owner_eligible j ex ao) ms ≫= member_owners) as [|o l] eqn:El; [|by eexists]. exfalso.
  apply (not_elem_of_nil {| to_token := t; to_identity := m_identity m |}). rewrite <-El.
  change (List.filter (owner_eligible j ex ao) ms ≫= member_owners) with (eligible_owners (owner_eligible j ex ao) ms).
  apply elem_of_eligible_owners. exists m. cbn. rewrite Et. split_and!; try done. left.
Qed.

Lemma find_address_member ms m : members_valid ms -> m ∈ ms -> find_address (m_address m) ms = Some m.
Proof.
  intros Hv Hm. destruct (find_address (m_address m) ms) as [m'|] eqn:E.
  - apply find_address_Some in E as [Hm' Ha]. f_equal. by eapply address_inj.
  - by destruct (find_address_None _ _ E m Hm).
Qed.

Lemma ValidateSelectedMembers_accepts cur selected : plannable cur selected committed ->
  ValidateSelectedMembers cur selected = Ok tt.
Proof.
  intros [Hv _ _ _ Hk]. unfold ValidateSelectedMembers. induction selected as [|i sel IH]; cbn [foldM]; [done|].
  destruct (Hk i ltac:(left)) as (m & Hm & <- & Hc). rewrite find_address_member by done.
  rewrite bool_decide_true by done. unfold committed in Hc. rewrite Hc. cbn [andb check mbind res_bind].
  apply IH. intros j Hj. apply Hk. by right.
Qed.

(** Every joining member is already placed: nothing is allocated. *)
Lemma scale_out_steps_skip ms tpm pl l : members_valid ms ->
  (forall i, i ∈ l -> exists m, m ∈ ms /\ m_identity m = i /\ is_joining m = true) ->
  foldM (scale_out_step tpm) (ms, pl) l = Ok (ms, pl).
Proof.
  intros Hv. induction l as [|i l IH]; intros Hk; cbn [foldM]; [done|].
  destruct (Hk i ltac:(left)) as (m & Hm & <- & Hj). 
  assert (scale_out_step tpm (ms, pl) (m_identity m) = Ok (ms, pl)) as ->.
  { unfold scale_out_step. cbn [fst snd]. rewrite find_address_member by done.
    rewrite (bool_decide_true (m_identity m = m_identity m)) by done. unfold is_joining in Hj. by rewrite Hj. }
  cbn [mbind res_bind]. apply IH. intros j Hin. apply Hk. by right.
Qed.

Lemma Validate_accepts cur m : members_valid (ts_members cur) -> m ∈ ts_members cur -> committed m = true ->
  Validate cur = Ok tt.
Proof. intros Hv Hm Hc. apply Validate_iff. split; [done|]. right. by exists m. Qed.

#[export] Instance HashAlgorithm_progress : PlanningProgress.
Proof.
  split; cbn [alg_PlanScaleOut alg_PlanScaleIn alg_PlanFailure HashAlgorithm_planning].
  - intros cur joining tpm Hp Htpm (m & Hm & Hc & Ht). destruct Hp as [Hv Hne Hi Hlen Hk]. unfold PlanScaleOut.
    cbn [so_current so_joining so_tokensPerMember].
    rewrite (Validate_accepts cur m), ValidateIdentities_accepts by done. cbn [mbind res_bind].
    rewrite (proj2 (Z.ltb_lt _ _)), (proj2 (Z.leb_le _ _)) by lia.
    assert (is_empty joining = false) as -> by (by destruct joining). cbn [negb andb check mbind res_bind].
    destruct (CollectPlacementOwners (ts_members cur)) as [owners occ].
    rewrite scale_out_steps_skip; [|done|intros i Hin; apply Hk; by apply elem_of_sort_on in Hin]. cbn [mbind res_bind fst].
    destruct (BuildOwners_ok (ts_members cur) false ∅ false m) as [fo ->]; [done|by rewrite eligible_committed|done|].
    destruct (BuildOwners_ok (ts_members cur) true ∅ false m) as [to ->];
      [done|rewrite eligible_joining; unfold committed_or_joining; by rewrite Hc|done|]. done.
  - intros cur leaving Hp (m & Hm & Ho & Ht). pose proof Hp as [Hv Hne Hi Hlen Hk]. unfold PlanScaleIn.
    cbn [si_current si_leaving]. pose proof (proj1 (andb_prop _ _ Ho)) as Hc.
    rewrite (Validate_accepts cur m), ValidateIdentities_accepts, ValidateSelectedMembers_accepts by done. cbn [mbind res_bind].
    assert (is_empty leaving = false) as -> by (by destruct leaving). cbn [negb check mbind res_bind].
    destruct (BuildOwners_ok (ts_members cur) false ∅ false m) as [fo ->]; [done|by rewrite eligible_committed|done|].
    destruct (BuildOwners_ok (ts_members cur) false (addresses_of leaving) false m) as [to ->];
      [done|by rewrite eligible_outside|done|]. done.
  - intros cur failed Hp (m & Hm & Ho & Ht). pose proof Hp as [Hv Hne Hi Hlen Hk]. unfold PlanFailure.
    cbn [fi_current fi_failed]. pose proof (proj1 (bool_decide_eq_true _) (proj1 (andb_prop _ _ Ho))) as Ha.
    assert (Hc : committed m = true) by (unfold committed; by rewrite Ha).
    rewrite (Validate_accepts cur m), ValidateIdentities_accepts, ValidateSelectedMembers_accepts by done. cbn [mbind res_bind].
    assert (is_empty failed = false) as -> by (by destruct failed). cbn [negb check mbind res_bind].
    destruct (BuildOwners_ok (ts_members cur) false ∅ false m) as [fo ->]; [done|by rewrite eligible_committed|done|].
    destruct (BuildOwners_ok (ts_members cur) false (addresses_of failed) true m) as [to ->];
      [done|by rewrite eligible_active|done|]. done.
Qed.
End plans.

(** ** Theorems *)

(** the owner found by the sorted vector and its cyclic binary search is the
    eligible member holding the token at the strictly least clockwise distance
    from the key's token. *)
Theorem FindOwner_nearest st j ex ao owners t :
  Validate st = Ok tt -> tokens_u32 (ts_members st) -> is_u32 t ->
  BuildOwners (ts_members st) j ex ao = Ok owners ->
  exists m x, m ∈ ts_members st /\ owner_eligible j ex ao m = true /\ x ∈ m_tokens m /\
    FindOwner owners t = Some {| to_token := x; to_identity := m_identity m |} /\
    forall m' x', m' ∈ ts_members st -> owner_eligible j ex ao m' = true -> x' ∈ m_tokens m' -> x' <> x ->
      clockwise t x < clockwise t x'.
Proof.
  intros [Hv _]%Validate_iff Hu Ht (Hne & Hs & Hel)%BuildOwners_spec.
  destruct (eligible_owners_ok (owner_eligible j ex ao) _ Hv Hu) as [H1 H2 H3].
  destruct (cyclic_at_nearest to_token owners t Hs) as (o & Ho & [Hin Hmin]); [|done..|].
  { intros o Ho. by apply H1, Hel. }
  apply Hel, elem_of_eligible_owners in Hin as (m & Hm & He & Hi & Hx).
  exists m, (to_token o). split_and!; [done..| |].
  { change (FindOwner owners t) with (cyclic_at to_token owners t). rewrite Ho. f_equal.
    destruct o; cbn in *. congruence. }
  intros m' x' Hm' He' Hx' Hne'.
  assert (Ho' : {| to_token := x'; to_identity := m_identity m' |} ∈ owners)
    by (apply Hel, elem_of_eligible_owners; eauto 10).
  pose proof (Hmin _ Ho') as Hle. cbn in Hle.
  destruct (decide (clockwise t (to_token o) = clockwise t x')) as [E|]; [|lia].
  apply clockwise_inj in E; [congruence|done|exact (Hu m _ Hm Hx)|exact (Hu m' _ Hm' Hx')].
Qed.

(** the owner changes computed between two sets of token owners are exact: a
    token is covered by a range from [s] to [d] iff its owner changes from [s]
    to [d], and the ranges of a change are non-empty, increasing, disjoint and
    not adjacent. *)
Theorem DiffOwners_exact ms j ex ao ms' j' ex' ao' fo to :
  members_valid ms -> tokens_u32 ms -> members_valid ms' -> tokens_u32 ms' ->
  BuildOwners ms j ex ao = Ok fo -> BuildOwners ms' j' ex' ao' = Ok to ->
  exact_changes (ring_owner (owner_eligible j ex ao) ms) (ring_owner (owner_eligible j' ex' ao') ms')
    (DiffOwners fo to).
Proof. apply DiffOwners_exact_changes. Qed.

Section plan_theorems.
Context `{RE2}.

(** a successful scale-out plan keeps every current member, appends one
    [JOINING] member with the requested number of fresh tokens per new joiner,
    yields a valid topology, moves tokens only to joining members, and lists
    exactly the tokens whose owner changes. *)
Theorem PlanScaleOut_correct cur joining tpm plan : tokens_u32 (ts_members cur) ->
  PlanScaleOut {| so_current := cur; so_joining := joining; so_tokensPerMember := tpm |} = Ok plan ->
  scale_out_contract cur joining tpm plan.
Proof. apply PlanScaleOut_contract. Qed.

(** a successful scale-in plan only marks the leaving members, every token it
    moves leaves a leaving member for the nearest remaining one, and no other
    token changes its owner. *)
Theorem PlanScaleIn_correct cur leaving plan : tokens_u32 (ts_members cur) ->
  PlanScaleIn {| si_current := cur; si_leaving := leaving |} = Ok plan ->
  scale_in_contract cur leaving plan.
Proof. apply PlanScaleIn_contract. Qed.

(** a successful failure plan only marks the failed members, and reassigns
    exactly the tokens owned by failed members, each to the nearest healthy
    [ACTIVE] member. *)
Theorem PlanFailure_correct cur failed plan : tokens_u32 (ts_members cur) ->
  PlanFailure {| fi_current := cur; fi_failed := failed |} = Ok plan ->
  failure_contract cur failed plan.
Proof. apply PlanFailure_contract. Qed.

(** a successful bootstrap makes every given member [ACTIVE] with
    [tokensPerMember] tokens, all tokens distinct, in a valid topology without
    migrations. *)
Theorem BuildInitialPlacement_correct joining tpm plan :
  BuildInitialPlacement {| so_current := default_TopologyState; so_joining := joining;
    so_tokensPerMember := tpm |} = Ok plan -> initial_contract joining tpm plan.
Proof. apply BuildInitialPlacement_contract. Qed.
End plan_theorems.

(** [Validate] accepts exactly the topologies whose ids, addresses and tokens
    are distinct, whose ids have the uuid size, whose addresses are non-empty and
    which have a committed member unless they are empty. *)
Theorem Validate_decides st : Validate st = Ok tt <-> valid_topology st.
Proof. apply Validate_iff. Qed.

(** ** Witnesses on a small cluster *)

Module Demo.
Definition idA : MemberIdentity := {| mi_id := "aaaaaaaaaaaaaaaa"; mi_address := "10.0.0.1:31501" |}.
Definition idB : MemberIdentity := {| mi_id := "bbbbbbbbbbbbbbbb"; mi_address := "10.0.0.2:31501" |}.
Definition idC : MemberIdentity := {| mi_id := "cccccccccccccccc"; mi_address := "10.0.0.3:31501" |}.
Definition mk (i : MemberIdentity) (s : MemberState) (tokens : list Z) : Member :=
  {| m_identity := i; m_state := s; m_tokens := tokens; m_tokenSeedOverrides := [] |}.
Definition topology (members : list Member) : TopologyState := {|
  ts_clusterHasInit := true; ts_version := 7; ts_members := members; ts_activeBatch := None;
  ts_tokensPerMember := 2 |}.
Definition joining_C : TopologyState :=
  topology [mk idA ACTIVE [100; 3000000000]; mk idB ACTIVE [2000; 4000000000]; mk idC JOINING [50; 2500000000]].
Definition active_ABC : TopologyState :=
  topology [mk idA ACTIVE [100; 3000000000]; mk idB ACTIVE [2000; 4000000000]; mk idC PRE_LEAVING [50; 2500000000]].

Lemma tokens_u32_dec (ms : list Member) :
  forallb (fun m => forallb (fun t => (0 <=? t) && (t <? 2 ^ 32)) (m_tokens m)) ms = true -> tokens_u32 ms.
Proof.
  intros Hf m t Hm%list_elem_of_In Ht%list_elem_of_In.
  rewrite forallb_forall in Hf. specialize (Hf m Hm). rewrite forallb_forall in Hf. specialize (Hf t Ht).
  apply andb_prop in Hf as [?%Z.leb_le ?%Z.ltb_lt]. by split.
Qed.

Lemma joining_C_u32 : tokens_u32 (ts_members joining_C).
Proof. apply tokens_u32_dec. vm_compute. reflexivity. Qed.
Lemma active_ABC_u32 : tokens_u32 (ts_members active_ABC).
Proof. apply tokens_u32_dec. vm_compute. reflexivity. Qed.
End Demo.
Import Demo ReferenceEngine.

Lemma FindOwner_nearest_witness :
  exists owners m x, BuildOwners (ts_members joining_C) false ∅ false = Ok owners /\
    FindOwner owners 4100000000 = Some {| to_token := x; to_identity := m_identity m |} /\ m ∈ ts_members joining_C.
Proof.
  destruct (BuildOwners (ts_members joining_C) false ∅ false) as [owners|c] eqn:E; [|vm_compute in E; discriminate E].
  assert (Hv : Validate joining_C = Ok tt) by (vm_compute; reflexivity).
  destruct (FindOwner_nearest joining_C false ∅ false owners 4100000000
    Hv joining_C_u32 ltac:(unfold is_u32; lia) E) as (m & x & Hm & _ & _ & Ho & _).
  exists owners, m, x. split; [reflexivity|]. split; [exact Ho|exact Hm].
Defined.

Lemma DiffOwners_exact_witness :
  exists fo to, BuildOwners (ts_members joining_C) false ∅ false = Ok fo /\
    BuildOwners (ts_members joining_C) true ∅ false = Ok to /\
    exists c, c ∈ DiffOwners fo to /\ oc_source c = Some idA /\ oc_target c = idC /\ covered 2000000000 (oc_ranges c).
Proof.
  destruct (BuildOwners (ts_members joining_C) false ∅ false) as [fo|c] eqn:E1; [|vm_compute in E1; discriminate E1].
  destruct (BuildOwners (ts_members joining_C) true ∅ false) as [to|c] eqn:E2; [|vm_compute in E2; discriminate E2].
  assert (Hv' : Validate joining_C = Ok tt) by (vm_compute; reflexivity).
  pose proof (vt_members _ (proj1 (Validate_iff _) Hv')) as Hv. pose proof joining_C_u32 as Hu.
  pose proof (DiffOwners_exact _ _ _ _ _ _ _ _ _ _ Hv Hu Hv Hu E1 E2) as Hex.
  exists fo, to. split; [reflexivity|]. split; [reflexivity|].
  apply (ec_iff _ _ _ Hex 2000000000 idA idC); [unfold is_u32; lia|vm_compute; reflexivity..|discriminate].
Defined.

Lemma PlanScaleOut_correct_witness :
  exists plan, PlanScaleOut {| so_current := joining_C; so_joining := [idC]; so_tokensPerMember := 2 |} = Ok plan /\
    scale_out_contract joining_C [idC] 2 plan.
Proof.
  destruct (PlanScaleOut {| so_current := joining_C; so_joining := [idC]; so_tokensPerMember := 2 |}) as [plan|c] eqn:E;
    [|vm_compute in E; discriminate E].
  exists plan. split; [reflexivity|].
  exact (PlanScaleOut_correct _ _ _ _ joining_C_u32 E).
Defined.

Lemma PlanScaleIn_correct_witness :
  exists plan, PlanScaleIn {| si_current := active_ABC; si_leaving := [idC] |} = Ok plan /\
    scale_in_contract active_ABC [idC] plan.
Proof.
  destruct (PlanScaleIn {| si_current := active_ABC; si_leaving := [idC] |}) as [plan|c] eqn:E;
    [|vm_compute in E; discriminate E].
  exists plan. split; [reflexivity|].
  exact (PlanScaleIn_correct _ _ _ active_ABC_u32 E).
Defined.

Lemma PlanFailure_correct_witness :
  exists plan, PlanFailure {| fi_current := active_ABC; fi_failed := [idB] |} = Ok plan /\
    failure_contract active_ABC [idB] plan.
Proof.
  destruct (PlanFailure {| fi_current := active_ABC; fi_failed := [idB] |}) as [plan|c] eqn:E;
    [|vm_compute in E; discriminate E].
  exists plan. split; [reflexivity|].
  exact (PlanFailure_correct _ _ _ active_ABC_u32 E).
Defined.

Lemma BuildInitialPlacement_correct_witness :
  exists plan, BuildInitialPlacement {| so_current := default_TopologyState; so_joining := [idA];
      so_tokensPerMember := 2 |} = Ok plan /\ initial_contract [idA] 2 plan.
Proof.
  destruct (BuildInitialPlacement {| so_current := default_TopologyState; so_joining := [idA];
      so_tokensPerMember := 2 |}) as [plan|c] eqn:E; [|vm_compute in E; discriminate E].
  exists plan. split; [reflexivity|]. apply (BuildInitialPlacement_correct _ _ _ E).
Defined.
