(* ===== verification/Snapshot.v ===== *)
(** * Topology snapshots

    src/datasystem/cluster/model/topology_snapshot.cpp: validation and
    canonicalization of a topology state, the immutable snapshot with its
    indexes, member searches and the migration fence; and the two routing
    lookups of cluster/algorithm/hash_algorithm.cpp that read the indexes.  The
    member pointers of the indexes point into the snapshot's own immutable
    state, so they are modelled by the members they point to. *)

From S2P Require Import Prelude Ordered TopologyTypes HashRing BalancedRing TokenPlacement HostPort Hasher.
From S2P Require Import RingTheory HashAlgorithm OwnerSpec PlanningInterface HashPlans.

Definition MEMBER_ID_SIZE : nat := 16.
Definition SHA256_HEX_SIZE : nat := 64.

Definition IsProspective (state : MemberState) (batch : option ActiveBatch) : bool :=
  match batch with
  | None => false
  | Some b =>
      match ab_type b with
      | SCALE_OUT => IsCommittedMemberState state || bool_decide (state = JOINING)
      | SCALE_IN => IsCommittedMemberState state && negb (bool_decide (state = LEAVING))
      | FAILURE => false
      end
  end.

Definition MatchesBatch (state : MemberState) (type : TopologyChangeType) : bool :=
  match type with
  | SCALE_OUT => negb (bool_decide (state = LEAVING)) && negb (bool_decide (state = FAILED))
  | SCALE_IN => negb (bool_decide (state = JOINING)) && negb (bool_decide (state = FAILED))
  | FAILURE => true
  end.

Definition transitional (m : Member) : bool :=
  bool_decide (m_state m = JOINING) || bool_decide (m_state m = LEAVING) || bool_decide (m_state m = FAILED).

Definition is_participant (type : TopologyChangeType) (m : Member) : bool :=
  (bool_decide (type = SCALE_OUT) && bool_decide (m_state m = JOINING)) ||
  (bool_decide (type = SCALE_IN) && bool_decide (m_state m = LEAVING)) ||
  (bool_decide (type = FAILURE) && bool_decide (m_state m = FAILED)).

Definition ValidateBatchStates (state : TopologyState) : res unit :=
  match ts_activeBatch state with
  | None => check (forallb (fun m => negb (transitional m)) (ts_members state)) K_INVALID
  | Some b =>
      hasParticipant ← foldM (fun hasParticipant m =>
          _ ← check (MatchesBatch (m_state m) (ab_type b)) K_INVALID;
          Ok (hasParticipant || is_participant (ab_type b) m))
        false (ts_members state);
      check hasParticipant K_INVALID
  end.

Section snapshot.
Context `{RE2} `{SHA256}.

Definition ValidateAddress (address : string) : res unit :=
  check (negb (bool_decide (address = EmptyString)) &&
         (Z.of_nat (String.length address) <=? MAX_MEMBER_ADDRESS_BYTES) &&
         canonical_address address) K_INVALID.

(** The state of the member loop: the previous member's address, the ids and
    tokens seen, and the two flags about committed members. *)
Record CanonState := {
  cs_previous : option string;
  cs_ids : gset string;
  cs_tokens : gset Z;
  cs_hasCommittedMember : bool;
  cs_hasCommittedToken : bool
}.

Definition canonical_member (st : CanonState) (member : Member) : res CanonState :=
  _ ← ValidateAddress (m_address member);
  _ ← check (String.length (m_id member) =? MEMBER_ID_SIZE)%nat K_INVALID;
  _ ← check (negb (bool_decide (cs_previous st = Some (m_address member)))) K_INVALID;
  _ ← check (bool_decide (m_id member ∉ cs_ids st)) K_INVALID;
  tokens ← foldM (fun tokens t => _ ← check (bool_decide (t ∉ tokens)) K_INVALID; Ok ({[t]} ∪ tokens))
             (cs_tokens st) (m_tokens member);
  let isCommitted := IsCommittedMemberState (m_state member) in
  Ok {| cs_previous := Some (m_address member); cs_ids := {[m_id member]} ∪ cs_ids st; cs_tokens := tokens;
        cs_hasCommittedMember := cs_hasCommittedMember st || isCommitted;
        cs_hasCommittedToken := cs_hasCommittedToken st || (isCommitted && negb (is_empty (m_tokens member))) |}.

Definition ValidateAndCanonicalizeTopologyState (state : TopologyState) : res TopologyState :=
  _ ← check ((0 <? ts_version state) && (ts_version state <=? INT64_MAX)) K_INVALID;
  _ ← check ((0 <? ts_tokensPerMember state) &&
             (ts_tokensPerMember state <=? MAX_HASH_RING_TOKENS_PER_MEMBER)) K_INVALID;
  _ ← match ts_activeBatch state with
      | Some b => check ((0 <? ab_epoch b) && (ab_epoch b <=? ts_version state)) K_INVALID
      | None => Ok tt
      end;
  _ ← ValidateBatchStates state;
  let state := set_members (sort_on (fun m => m_address m) (ts_members state)) state in
  st ← foldM canonical_member
         {| cs_previous := None; cs_ids := ∅; cs_tokens := ∅; cs_hasCommittedMember := false;
            cs_hasCommittedToken := false |} (ts_members state);
  _ ← check (negb (cs_hasCommittedMember st) || cs_hasCommittedToken st) K_INVALID;
  Ok state.

Definition is_hex_char (c : ascii) : bool :=
  let n := nat_of_ascii c in ((48 <=? n) && (n <=? 57) || (97 <=? n) && (n <=? 102))%nat.

Definition IsSha256Hex (digest : string) : bool :=
  (String.length digest =? SHA256_HEX_SIZE)%nat && forallb is_hex_char (String.list_ascii_of_string digest).

Record TopologySnapshot := {
  state_ : TopologyState;
  authorityRevision_ : Z;
  canonicalDigest_ : string;
  hostIds_ : gmap string string;
  hostIdsDigest_ : string;
  hostIdsKnown_ : bool;
  coordinatorId_ : string;
  addressIndex_ : gmap string nat;
  idIndex_ : gmap string nat;
  committedMembers_ : list Member;
  activeMembers_ : list Member;
  failedMembers_ : list Member;
  committedTokenOwners_ : list (Z * Member);
  prospectiveTokenOwners_ : list (Z * Member)
}.

(** [index.emplace(key, i)] for the members in order: the first entry of a key stays. *)
Definition build_index (key : Member -> string) (members : list Member) : gmap string nat :=
  foldl (fun index im => match index !! key im.2 with
                         | Some _ => index
                         | None => <[key im.2 := im.1]> index
                         end) ∅ (imap pair members).

Definition token_entries (owns : Member -> bool) (members : list Member) : list (Z * Member) :=
  List.filter owns members ≫= fun m => (fun t => (t, m)) <$> m_tokens m.

(** The constructor followed by [BuildIndexes]. *)
Definition BuildIndexes (state : TopologyState) (authorityRevision : Z) (canonicalDigest : string)
    (hostIds : gmap string string) (hostIdsDigest : string) (hostIdsKnown : bool) (coordinatorId : string)
    : TopologySnapshot :=
  let members := ts_members state in
  {| state_ := state; authorityRevision_ := authorityRevision; canonicalDigest_ := canonicalDigest;
     hostIds_ := hostIds; hostIdsDigest_ := hostIdsDigest; hostIdsKnown_ := hostIdsKnown;
     coordinatorId_ := coordinatorId;
     addressIndex_ := build_index (fun m => m_address m) members;
     idIndex_ := build_index (fun m => m_id m) members;
     committedMembers_ := List.filter committed members;
     activeMembers_ := List.filter (fun m => bool_decide (m_state m = ACTIVE)) members;
     failedMembers_ := List.filter (fun m => bool_decide (m_state m = FAILED)) members;
     committedTokenOwners_ := sort_on fst (token_entries committed members);
     prospectiveTokenOwners_ := sort_on fst
       (token_entries (fun m => IsProspective (m_state m) (ts_activeBatch state)) members) |}.

Definition Create (state : TopologyState) (authorityRevision : Z) (canonicalDigest : string)
    (hostIds : gmap string string) (hostIdsKnown : bool) (coordinatorId : string) : res TopologySnapshot :=
  _ ← check ((0 <=? authorityRevision) && IsSha256Hex canonicalDigest) K_INVALID;
  state ← ValidateAndCanonicalizeTopologyState state;
  hostIdsDigest ← GetStringMapSha256Hex hostIds;
  Ok (BuildIndexes state authorityRevision canonicalDigest hostIds hostIdsDigest hostIdsKnown coordinatorId).

Definition Version (s : TopologySnapshot) : Z := ts_version (state_ s).
Definition Members (s : TopologySnapshot) : list Member := ts_members (state_ s).

Definition FindMemberByAddress (address : string) (s : TopologySnapshot) : res Member :=
  match addressIndex_ s !! address with
  | Some i => match Members s !! i with Some m => Ok m | None => Err K_NOT_FOUND end
  | None => Err K_NOT_FOUND
  end.

Definition FindMemberById (id : string) (s : TopologySnapshot) : res Member :=
  _ ← check (String.length id =? MEMBER_ID_SIZE)%nat K_INVALID;
  match idIndex_ s !! id with
  | Some i => match Members s !! i with Some m => Ok m | None => Err K_NOT_FOUND end
  | None => Err K_NOT_FOUND
  end.

(** [std::upper_bound] by address, wrapping to the front; [None] only when empty. *)
Definition next_by_address (address : string) (members : list Member) : option Member :=
  match drop_while (fun m => negb (ltk address (m_address m))) members with
  | m :: _ => Some m
  | [] => head members
  end.

Definition distinct_next (address : string) (members : list Member) : res Member :=
  match next_by_address address members with
  | Some candidate =>
      _ ← check (negb (bool_decide (m_address candidate = address))) K_NOT_FOUND; Ok candidate
  | None => Err K_NOT_FOUND
  end.

Definition FindNextCommittedMember (address : string) (s : TopologySnapshot) : res Member :=
  match FindMemberByAddress address s with
  | Ok current =>
      _ ← check (IsCommittedMemberState (m_state current)) K_NOT_FOUND;
      _ ← check (1 <? length (committedMembers_ s))%nat K_NOT_FOUND;
      distinct_next address (committedMembers_ s)
  | Err _ => Err K_NOT_FOUND
  end.

Definition FindNextActiveMember (address : string) (s : TopologySnapshot) : res Member :=
  _ ← check (negb (is_empty (activeMembers_ s))) K_NOT_FOUND;
  distinct_next address (activeMembers_ s).

Definition FindExactMember (s : TopologySnapshot) (identity : MemberIdentity) : res Member :=
  _ ← check (negb (bool_decide (mi_id identity = EmptyString)) &&
             negb (bool_decide (mi_address identity = EmptyString))) K_INVALID;
  match FindMemberByAddress (mi_address identity) s with
  | Ok candidate => _ ← check (bool_decide (m_identity candidate = identity)) K_INVALID; Ok candidate
  | Err _ => Err K_INVALID
  end.

Definition ValidateMigrationFence (fence : TopologyMigrationFence) (s : TopologySnapshot) : res unit :=
  if Version s <? mf_topologyVersion fence then Err K_TRY_AGAIN
  else
    _ ← check (negb (mf_topologyVersion fence =? 0)) K_INVALID;
    match ts_activeBatch (state_ s) with
    | None => Err K_INVALID
    | Some b =>
        _ ← check (negb (mf_batchEpoch fence =? 0) && (ab_epoch b =? mf_batchEpoch fence)) K_INVALID;
        source ← FindExactMember s (mf_source fence);
        target ← FindExactMember s (mf_target fence);
        let scaleOut := bool_decide (ab_type b = SCALE_OUT) && IsCommittedMemberState (m_state source) &&
                        bool_decide (m_state target = JOINING) in
        let scaleIn := bool_decide (ab_type b = SCALE_IN) && bool_decide (m_state source = LEAVING) &&
                       IsAdmittedScaleInMigrationTargetState (m_state target) &&
                       negb (bool_decide (m_identity source = m_identity target)) in
        check (scaleOut || scaleIn) K_INVALID
    end.

(** ** Routing lookups of the hash algorithm *)

Definition LocateOwner (s : TopologySnapshot) (token : Z) : res Member :=
  LocateIndexedOwner (committedTokenOwners_ s) token.

Definition LocateProspectiveOwner (s : TopologySnapshot) (token : Z) : res Member :=
  LocateIndexedOwner
    (if is_empty (prospectiveTokenOwners_ s) then committedTokenOwners_ s else prospectiveTokenOwners_ s) token.
End snapshot.

(** ** Batch consistency *)

(** What [ValidateBatchStates] accepts. *)
Definition batch_consistent (st : TopologyState) : Prop :=
  match ts_activeBatch st with
  | None => forall m, m ∈ ts_members st -> transitional m = false
  | Some b => (forall m, m ∈ ts_members st -> MatchesBatch (m_state m) (ab_type b) = true) /\
              exists m, m ∈ ts_members st /\ is_participant (ab_type b) m = true
  end.

Lemma participant_loop_iff type ms hp r :
  foldM (fun hasParticipant m => _ ← check (MatchesBatch (m_state m) type) K_INVALID;
           Ok (hasParticipant || is_participant type m)) hp ms = Ok r <->
  (forall m, m ∈ ms -> MatchesBatch (m_state m) type = true) /\ r = hp || existsb (is_participant type) ms.
Proof.
  revert hp. induction ms as [|m ms IH]; intros hp; cbn [foldM existsb].
  - rewrite orb_false_r. split; [intros; inv_ok; split; [no_elem|done]|].
    by intros [_ ->].
  - rewrite !bind_Ok. setoid_rewrite bind_Ok. setoid_rewrite check_Ok. rewrite orb_assoc. split.
    + intros (hp' & (u & Hm & [= <-]) & [Hall ->]%IH). split; [|done].
      intros m' [->|Hm']%elem_of_cons; auto.
    + intros [Hall ->]. eexists. split; [exists tt; split; [apply Hall; left|reflexivity]|].
      apply IH. split; [|done]. intros; apply Hall; by right.
Qed.

Lemma ValidateBatchStates_iff st : ValidateBatchStates st = Ok tt <-> batch_consistent st.
Proof.
  unfold ValidateBatchStates, batch_consistent. destruct (ts_activeBatch st) as [b|].
  - rewrite bind_Ok. setoid_rewrite check_Ok. setoid_rewrite participant_loop_iff. split.
    + intros (hp & [Hall ->] & Hp). split; [done|].
      apply existsb_exists in Hp as (m & Hm & Hp). exists m. by rewrite list_elem_of_In.
    + intros [Hall (m & Hm & Hp)]. eexists. split; [split; [done|reflexivity]|].
      apply existsb_exists. exists m. by rewrite <-list_elem_of_In.
  - rewrite check_Ok, forallb_forall. setoid_rewrite negb_true_iff. by setoid_rewrite list_elem_of_In.
Qed.

(** ** Canonicalization *)

Section canonical.
Context `{RE2}.

Fixpoint adjacent_distinct (previous : option string) (ms : list Member) : Prop :=
  match ms with
  | [] => True
  | m :: ms => previous <> Some (m_address m) /\ adjacent_distinct (Some (m_address m)) ms
  end.

Definition member_ok (m : Member) : Prop :=
  ValidateAddress (m_address m) = Ok tt /\ String.length (m_id m) = MEMBER_ID_SIZE.

Lemma canonical_loop_iff ms st :
  is_ok (foldM canonical_member st ms) = true <->
  (forall m, m ∈ ms -> member_ok m) /\ adjacent_distinct (cs_previous st) ms /\
  (NoDup (ids_of ms) /\ forall i, i ∈ ids_of ms -> i ∉ cs_ids st) /\
  (NoDup (all_tokens ms) /\ forall t, t ∈ all_tokens ms -> t ∉ cs_tokens st).
Proof.
  revert st. induction ms as [|m ms IH]; intros st; cbn [foldM].
  { split; [|done]. intros _. split_and!; try exact NoDup_nil_2; try done; no_elem. }
  change (all_tokens (m :: ms)) with (m_tokens m ++ all_tokens ms). rewrite fmap_cons.
  cbn [adjacent_distinct]. split.
  - destruct (canonical_member st m) as [st1|c] eqn:E1; [|done]. cbn [mbind res_bind].
    intros (Hok & Hadj & [Hi Hi'] & [Ht Ht'])%IH. unfold canonical_member in E1.
    apply bind_Ok in E1 as ([] & C1 & E1). apply bind_Ok in E1 as ([] & C2%check_Ok & E1).
    apply bind_Ok in E1 as ([] & C3%check_Ok & E1). apply bind_Ok in E1 as ([] & C4%check_Ok & E1).
    apply bind_Ok in E1 as (tk & (Hnd & Hfr & ->)%insert_tokens_iff & [= <-]).
    apply Nat.eqb_eq in C2. apply negb_true_iff, bool_decide_eq_false in C3.
    apply bool_decide_eq_true in C4. cbn [cs_previous cs_ids cs_tokens] in *. split_and!.
    + intros m' [->|Hm']%elem_of_cons; [by split|auto].
    + done.
    + done.
    + constructor; [|done]. intros Hin. apply Hi', not_elem_of_union in Hin as [Hin _].
      by apply Hin, elem_of_singleton.
    + intros i [->|Hin]%elem_of_cons; [done|]. by apply Hi', not_elem_of_union in Hin as [_ Hin].
    + apply NoDup_app. split_and!; [done| |done]. intros t H1 H2.
      apply Ht', not_elem_of_union in H2 as [H2 _]. by apply H2, elem_of_list_to_set.
    + intros t [Hin|Hin]%elem_of_app; [auto|]. by apply Ht', not_elem_of_union in Hin as [_ Hin].
  - intros (Hok & [Hp Hadj] & [[Hi1 Hi]%NoDup_cons Hi'] & [(Ht1 & Ht2 & Ht)%NoDup_app Ht']).
    destruct (Hok m ltac:(left)) as [Ha Hl].
    assert (Hm : exists st1, canonical_member st m = Ok st1 /\ cs_previous st1 = Some (m_address m) /\
              cs_ids st1 = {[m_id m]} ∪ cs_ids st /\ cs_tokens st1 = list_to_set (m_tokens m) ∪ cs_tokens st).
    { unfold canonical_member. rewrite Ha, Hl, Nat.eqb_refl. cbn [mbind res_bind check].
      rewrite (bool_decide_false (cs_previous st = Some (m_address m))) by done. cbn [negb mbind res_bind check].
      rewrite bool_decide_true by (apply Hi'; left). cbn [mbind res_bind check].
      rewrite (proj2 (insert_tokens_iff (m_tokens m) (cs_tokens st) (list_to_set (m_tokens m) ∪ cs_tokens st))).
      2:{ split_and!; [done| |reflexivity]. intros t Hin. apply Ht', elem_of_app. by left. }
      cbn [mbind res_bind]. eexists. split; [reflexivity|done]. }
    destruct Hm as (st1 & -> & E1 & E2 & E3). cbn [mbind res_bind]. apply IH. rewrite E1, E2, E3. split_and!.
    + intros; apply Hok; by right.
    + done.
    + done.
    + intros i Hin. apply not_elem_of_union. split; [|apply Hi'; by right].
      intros ->%elem_of_singleton. done.
    + done.
    + intros t Hin. apply not_elem_of_union. split; [|apply Ht', elem_of_app; by right].
      rewrite elem_of_list_to_set. intros Hin'. by apply (Ht2 t).
Qed.

Lemma adjacent_distinct_sorted ms previous : StronglySorted (key_le (fun m => m_address m)) ms ->
  (match previous with Some p => Forall (fun m => ltk (m_address m) p = false) ms | None => True end) ->
  adjacent_distinct previous ms <->
  NoDup (addrs_of ms) /\ match previous with Some p => p ∉ addrs_of ms | None => True end.
Proof.
  intros Hs. revert previous. induction Hs as [|m ms Hs IH Hall]; intros previous Hp.
  { split; [|done]. intros _. split; [constructor|]. destruct previous; [|done]. apply not_elem_of_nil. }
  cbn [adjacent_distinct]. rewrite fmap_cons, NoDup_cons, (IH (Some (m_address m))) by exact Hall.
  split.
  - intros (Hne & Hnd & Hm). split; [done|]. destruct previous as [p|]; [|done].
    intros [->|Hin]%elem_of_cons; [done|]. apply list_elem_of_fmap in Hin as (m' & -> & Hm').
    rewrite Forall_forall in Hall. specialize (Hall m' Hm'). inversion_clear Hp as [|?? Hp' _].
    apply Hne. f_equal. by apply ltk_total.
  - intros [[Hm Hnd] Hprev]. split_and!; [|done..]. destruct previous as [p|]; [|done].
    intros [= ->]. apply Hprev. left.
Qed.

Lemma canonical_loop_flags ms st st' : foldM canonical_member st ms = Ok st' ->
  cs_hasCommittedMember st' = cs_hasCommittedMember st || existsb committed ms /\
  cs_hasCommittedToken st' = cs_hasCommittedToken st ||
    existsb (fun m => committed m && negb (is_empty (m_tokens m))) ms.
Proof.
  revert st. induction ms as [|m ms IH]; intros st; cbn [foldM existsb].
  { intros [= <-]. by rewrite !orb_false_r. }
  intros (st1 & E1 & E2)%bind_Ok. apply IH in E2 as [-> ->]. unfold canonical_member in E1.
  apply bind_Ok in E1 as ([] & _ & E1). apply bind_Ok in E1 as ([] & _ & E1).
  apply bind_Ok in E1 as ([] & _ & E1). apply bind_Ok in E1 as ([] & _ & E1).
  apply bind_Ok in E1 as (tk & _ & [= <-]). cbn. by rewrite !orb_assoc.
Qed.

(** The states a snapshot may hold. *)
Record persistable (st : TopologyState) : Prop := {
  ps_version : 0 < ts_version st <= INT64_MAX;
  ps_tpm : 0 < ts_tokensPerMember st <= MAX_HASH_RING_TOKENS_PER_MEMBER;
  ps_epoch b : ts_activeBatch st = Some b -> 0 < ab_epoch b <= ts_version st;
  ps_batch : batch_consistent st;
  ps_members : members_valid (ts_members st);
  ps_address m : m ∈ ts_members st -> ValidateAddress (m_address m) = Ok tt;
  ps_owner : (exists m, m ∈ ts_members st /\ committed m = true) ->
     exists m, m ∈ ts_members st /\ committed m = true /\ m_tokens m <> []
}.

Definition sort_members (st : TopologyState) : TopologyState :=
  set_members (sort_on (fun m => m_address m) (ts_members st)) st.

Lemma ValidateAddress_nonempty a u : ValidateAddress a = Ok u -> a <> EmptyString.
Proof.
  intros [[Hne%negb_true_iff _]%andb_prop _]%check_Ok%andb_prop. by apply bool_decide_eq_false in Hne.
Qed.

Lemma members_valid_perm ms ms' : ms ≡ₚ ms' -> members_valid ms -> members_valid ms'.
Proof.
  intros Hp [H1 H2 H3 H4]. split.
  - intros m Hm. apply H1. by rewrite Hp.
  - by rewrite <-Hp.
  - by rewrite <-Hp.
  - unfold all_tokens in *. by rewrite <-Hp.
Qed.

Lemma members_loop_iff ms :
  (is_ok (foldM canonical_member {| cs_previous := None; cs_ids := ∅; cs_tokens := ∅;
     cs_hasCommittedMember := false; cs_hasCommittedToken := false |} (sort_on (fun m => m_address m) ms)) = true) <->
  members_valid ms /\ forall m, m ∈ ms -> ValidateAddress (m_address m) = Ok tt.
Proof.
  rewrite canonical_loop_iff. cbn [cs_previous cs_ids cs_tokens].
  rewrite adjacent_distinct_sorted by (done || apply sort_on_sorted).
  pose proof (sort_on_perm (fun m => m_address m) ms) as Hp.
  split.
  - intros (Hok & [Ha _] & [Hi _] & [Ht _]). split.
    + apply (members_valid_perm _ _ Hp). split; [|done..].
      intros m Hm. destruct (Hok m Hm) as [Hva Hl]. split; [done|]. by eapply ValidateAddress_nonempty.
    + intros m Hm. apply Hok. by apply elem_of_sort_on.
  - intros [Hv Hva]. apply (members_valid_perm _ (sort_on (fun m => m_address m) ms)) in Hv; [|done].
    split_and!; try apply Hv; try (by intros; apply not_elem_of_empty).
    + intros m Hm. split; [apply Hva; by apply elem_of_sort_on in Hm|]. by apply (mv_shape _ Hv).
    + done.
Qed.

Lemma canonicalize_iff st st' :
  ValidateAndCanonicalizeTopologyState st = Ok st' <-> persistable st /\ st' = sort_members st.
Proof.
  unfold ValidateAndCanonicalizeTopologyState. fold (sort_members st). split.
  - intros ([] & C1%check_Ok & Hok)%bind_Ok. apply bind_Ok in Hok as ([] & C2%check_Ok & Hok).
    apply bind_Ok in Hok as ([] & C3 & Hok). apply bind_Ok in Hok as ([] & C4%ValidateBatchStates_iff & Hok).
    apply bind_Ok in Hok as (cs & C5 & Hok). apply bind_Ok in Hok as ([] & C6%check_Ok & [= <-]).
    split; [|done]. apply andb_prop in C1 as [?%Z.ltb_lt ?%Z.leb_le]. apply andb_prop in C2 as [?%Z.ltb_lt ?%Z.leb_le].
    destruct (proj1 (members_loop_iff (ts_members st))) as [Hv Hva].
    { unfold sort_members in C5. cbn [ts_members set_members] in C5. by rewrite C5. }
    split; [lia|lia| |done|done|done|].
    + intros b Hb. rewrite Hb in C3. apply check_Ok, andb_prop in C3 as [?%Z.ltb_lt ?%Z.leb_le]. lia.
    + intros (m & Hm & Hc). apply canonical_loop_flags in C5 as [E1 E2]. cbn in E1, E2.
      assert (Hex : existsb committed (sort_on (fun m => m_address m) (ts_members st)) = true).
      { apply existsb_elem. exists m. by rewrite elem_of_sort_on. }
      rewrite Hex in E1. rewrite E1, E2 in C6. apply existsb_elem in C6 as (m' & Hm' & [Hc' Ht]%andb_prop).
      exists m'. rewrite elem_of_sort_on in Hm'. split_and!; [done..|]. by destruct (m_tokens m').
  - intros [[P1 P2 P3 P4 P5 P6 P7] ->].
    rewrite (proj2 (check_Ok ((0 <? _) && (ts_version st <=? _)) _ tt)) by (apply andb_true_iff; split; lia).
    cbn [mbind res_bind]. rewrite (proj2 (check_Ok ((0 <? ts_tokensPerMember st) && _) _ tt)) by (apply andb_true_iff; split; lia).
    cbn [mbind res_bind].
    replace (match ts_activeBatch st with Some b => _ | None => _ end) with (@Ok unit tt).
    2:{ destruct (ts_activeBatch st) as [b|] eqn:Eb; [|done]. specialize (P3 b eq_refl).
        symmetry. apply check_Ok, andb_true_iff. split; lia. }
    cbn [mbind res_bind]. rewrite (proj2 (ValidateBatchStates_iff st) P4). cbn [mbind res_bind].
    pose proof (proj2 (members_loop_iff (ts_members st)) (conj P5 P6)) as Hl.
    change (ts_members (sort_members st)) with (sort_on (fun m => m_address m) (ts_members st)).
    destruct (foldM canonical_member _ _) as [cs|c] eqn:E; [|done]. cbn [mbind res_bind].
    apply canonical_loop_flags in E as [E1 E2]. cbn in E1, E2.
    rewrite (proj2 (check_Ok _ K_INVALID tt)); [done|]. rewrite E1, E2.
    destruct (existsb committed _) eqn:Ec; [|done]. cbn. apply existsb_elem in Ec as (m & Hm & Hc).
    rewrite elem_of_sort_on in Hm. destruct P7 as (m' & Hm' & Hc' & Ht'); [by eauto|].
    apply existsb_elem. exists m'. rewrite elem_of_sort_on, Hc'. split; [done|]. by destruct (m_tokens m').
Qed.
End canonical.

Section canonical_theorem.
Context `{RE2}.

Lemma persistable_perm st ms : ms ≡ₚ ts_members st -> persistable st -> persistable (set_members ms st).
Proof.
  intros Hperm [P1 P2 P3 P4 P5 P6 P7].
  assert (Hel : forall m, m ∈ ms <-> m ∈ ts_members st) by (intros; by rewrite Hperm).
  split; try done.
  - unfold batch_consistent in *. cbn. destruct (ts_activeBatch st) as [b|].
    + destruct P4 as [H1 (m & Hm & Hp)]. split; [intros m' Hm'; by apply H1, Hel|].
      exists m. by rewrite Hel.
    + intros m Hm. by apply P4, Hel.
  - eapply members_valid_perm; [|exact P5]. by symmetry.
  - intros m Hm. by apply P6, Hel.
  - intros (m & Hm & Hc). destruct P7 as (m' & Hm' & ?); [exists m; by rewrite <-Hel|].
    exists m'. by rewrite Hel.
Qed.

Lemma persistable_sort st : persistable st -> persistable (sort_members st).
Proof. apply persistable_perm, sort_on_perm. Qed.

(** Canonicalization does not depend on the order of the members. *)
Lemma sort_members_perm st ms : ms ≡ₚ ts_members st -> persistable st ->
  sort_members (set_members ms st) = sort_members st.
Proof.
  intros Hperm Hp. unfold sort_members. cbn [ts_members set_members].
  replace (sort_on (fun m => m_address m) ms) with (sort_on (fun m => m_address m) (ts_members st)); [done|].
  apply sort_on_unique; [|apply sort_on_sorted|by rewrite sort_on_perm, Hperm].
  rewrite Hperm. apply (mv_addresses _ (ps_members _ Hp)).
Qed.

Lemma sort_members_strict st : persistable st ->
  StronglySorted (fun m m' => ltk (m_address m) (m_address m') = true) (ts_members (sort_members st)).
Proof.
  intros Hp. pose proof (mv_addresses _ (ps_members _ (persistable_sort _ Hp))) as Hnd.
  assert (Hs : StronglySorted (key_le (fun m => m_address m)) (ts_members (sort_members st)))
    by apply sort_on_sorted.
  revert Hnd Hs. generalize (ts_members (sort_members st)). intros l. induction l as [|m l IH]; [constructor|].
  rewrite fmap_cons, NoDup_cons. intros [Hm Hnd] Hs. inversion_clear Hs as [|?? Hs' Hall].
  constructor; [auto|]. rewrite Forall_forall in Hall. apply Forall_forall. intros m' Hm'.
  destruct (ltk (m_address m) (m_address m')) eqn:E; [done|]. destruct Hm.
  rewrite (ltk_total _ _ E (Hall m' Hm')). by apply (list_elem_of_fmap_2 (fun m => m_address m)).
Qed.

(** C16: a topology state is accepted iff it satisfies the persistence invariant;
    acceptance only reorders its members by strictly increasing address, and the
    result is a fixed point of canonicalization. *)
Theorem canonicalize_spec st :
  (persistable st -> ValidateAndCanonicalizeTopologyState st = Ok (sort_members st)) /\
  (forall st', ValidateAndCanonicalizeTopologyState st = Ok st' ->
     persistable st /\ persistable st' /\ ts_members st' ≡ₚ ts_members st /\
     StronglySorted (fun m m' => ltk (m_address m) (m_address m') = true) (ts_members st') /\
     ValidateAndCanonicalizeTopologyState st' = Ok st').
Proof.
  split; [intros Hp; by apply canonicalize_iff|].
  intros st' [Hp ->]%canonicalize_iff. pose proof (persistable_sort st Hp) as Hp'.
  assert (Hs : StronglySorted (key_le (fun m => m_address m)) (ts_members (sort_members st)))
    by apply sort_on_sorted.
  split_and!; [done|done|apply sort_on_perm| |].
  - by apply sort_members_strict.
  - apply canonicalize_iff. split; [done|].
    assert (Heq : sort_on (fun m => m_address m) (ts_members (sort_members st)) = ts_members (sort_members st)).
    { symmetry. apply sort_on_unique; [apply (mv_addresses _ (ps_members _ Hp'))|done|done]. }
    change (sort_members (sort_members st)) with
      (set_members (sort_on (fun m => m_address m) (ts_members (sort_members st))) st). by rewrite Heq.
Qed.
End canonical_theorem.

(** ** Indexes *)

Lemma build_index_snoc key ms m :
  build_index key (ms ++ [m]) =
  match build_index key ms !! key m with
  | Some _ => build_index key ms
  | None => <[key m := length ms]> (build_index key ms)
  end.
Proof.
  unfold build_index. rewrite imap_app, foldl_app. cbn. by rewrite Nat.add_0_r.
Qed.

Lemma build_index_spec key ms : NoDup (key <$> ms) ->
  forall k i, build_index key ms !! k = Some i <-> exists m, ms !! i = Some m /\ key m = k.
Proof.
  induction ms as [|m ms IH] using rev_ind; intros Hnd k i.
  { split; [done|]. by intros (m & ? & _). }
  rewrite fmap_app in Hnd. apply NoDup_app in Hnd as (Hnd & Hdisj & _). specialize (IH Hnd).
  assert (Hm : forall j m', ms !! j = Some m' -> key m' <> key m).
  { intros j m' Hj%list_elem_of_lookup_2 Heq. apply (Hdisj (key m')).
    - by apply list_elem_of_fmap_2.
    - rewrite Heq. left. }
  rewrite build_index_snoc.
  assert (build_index key ms !! key m = None) as ->.
  { destruct (build_index key ms !! key m) as [j|] eqn:E; [|done].
    apply IH in E as (m' & Hj & Hk). by destruct (Hm j m' Hj). }
  destruct (decide (key m = k)) as [<-|Hk].
  - rewrite lookup_insert_eq. split.
    + intros [= <-]. exists m. split; [by apply list_lookup_middle|done].
    + intros (m' & Hi & Heq). apply lookup_snoc_Some in Hi as [[_ Hi]|[-> _]]; [|done].
      by destruct (Hm i m' Hi).
  - rewrite lookup_insert_ne by done. rewrite IH. split; intros (m' & Hi & Heq).
    + exists m'. split; [by apply lookup_app_l_Some|done].
    + apply lookup_snoc_Some in Hi as [[_ Hi]|[-> <-]]; [by exists m'|done].
Qed.

(** ** Routing by index refines the abstract ownership *)

Lemma elem_of_token_entries owns ms e :
  e ∈ token_entries owns ms <-> e.2 ∈ ms /\ owns e.2 = true /\ e.1 ∈ m_tokens e.2.
Proof.
  unfold token_entries. rewrite list_elem_of_bind. split.
  - intros (m & (t & -> & Ht)%list_elem_of_fmap & Hm). rewrite list_elem_of_In, filter_In, <-list_elem_of_In in Hm.
    cbn. naive_solver.
  - intros (Hm & Ho & Ht). exists e.2. split.
    + apply list_elem_of_fmap. exists e.1. by destruct e.
    + by rewrite list_elem_of_In, filter_In, <-list_elem_of_In.
Qed.

Lemma LocateIndexedOwner_cyclic owners t :
  LocateIndexedOwner owners t = match cyclic_at fst owners t with Some e => Ok e.2 | None => Err K_NOT_READY end.
Proof. unfold LocateIndexedOwner, cyclic_at. destruct owners as [|e owners]; [done|]. cbn. by repeat case_match. Qed.

Lemma LocateIndexedOwner_spec owns ms t : members_valid ms -> tokens_u32 ms -> is_u32 t ->
  match LocateIndexedOwner (sort_on fst (token_entries owns ms)) t with
  | Ok m => m ∈ ms /\ owns m = true /\ ring_owner owns ms t = Some (m_identity m)
  | Err c => c = K_NOT_READY /\ ring_owner owns ms t = None
  end.
Proof.
  intros Hv Hu Ht. rewrite LocateIndexedOwner_cyclic.
  set (es := sort_on fst (token_entries owns ms)).
  assert (Hel : forall e, e ∈ es <-> e.2 ∈ ms /\ owns e.2 = true /\ e.1 ∈ m_tokens e.2)
    by (intros e; unfold es; by rewrite elem_of_sort_on, elem_of_token_entries).
  pose proof (eligible_owners_ok owns ms Hv Hu) as [O1 O2 _].
  destruct (decide (es = [])) as [Hnil|Hne].
  - rewrite Hnil. cbn. split; [done|]. destruct (ring_owner owns ms t) as [i|] eqn:E; [|done]. exfalso.
    apply nearest_owner_elem in E as (o & (m & Hm & Ho & _ & Hx)%elem_of_eligible_owners & _).
    assert (Hin : (to_token o, m) ∈ es) by (by apply Hel). rewrite Hnil in Hin. by apply not_elem_of_nil in Hin.
  - destruct (cyclic_at_nearest fst es t) as (e & -> & [He Hmin]); [|intros e He|done|done|].
    + eapply StronglySorted_impl; [|apply sort_on_sorted]. intros a b Hab. by apply Z.ltb_ge in Hab.
    + apply Hel in He as (H1 & _ & H3). by eapply Hu.
    + apply Hel in He as (H1 & H2 & H3). split_and!; [done..|]. apply nearest_owner_iff; [done..|].
      exists {| to_token := e.1; to_identity := m_identity e.2 |}. split; [|done]. split.
      * apply elem_of_eligible_owners. eauto.
      * intros o (m & Hm & Ho & Hi & Hx)%elem_of_eligible_owners. cbn.
        apply (Hmin (to_token o, m)). by apply Hel.
Qed.

(** ** Created snapshots *)

Section created.
Context `{RE2} `{SHA256}.

(** [s] is a snapshot of [st]. *)
Definition snapshot_of (st : TopologyState) (s : TopologySnapshot) : Prop :=
  exists rev digest hosts known coord, Create st rev digest hosts known coord = Ok s.

Lemma snapshot_of_inv st s : snapshot_of st s ->
  persistable st /\ exists rev digest hosts hostsDigest known coord,
    s = BuildIndexes (sort_members st) rev digest hosts hostsDigest known coord.
Proof.
  intros (rev & digest & hosts & known & coord & Hok). unfold Create in Hok.
  apply bind_Ok in Hok as (u & _ & Hok). apply bind_Ok in Hok as (st' & [Hp ->]%canonicalize_iff & Hok).
  apply bind_Ok in Hok as (hd & _ & [= <-]). split; [done|]. eauto 10.
Qed.

Lemma snapshot_members st s m : snapshot_of st s -> m ∈ Members s <-> m ∈ ts_members st.
Proof. intros (_ & ? & ? & ? & ? & ? & ? & ->)%snapshot_of_inv. apply elem_of_sort_on. Qed.

Lemma snapshot_valid st s : snapshot_of st s -> members_valid (Members s).
Proof.
  intros (Hp & ? & ? & ? & ? & ? & ? & ->)%snapshot_of_inv. apply (ps_members _ (persistable_sort _ Hp)).
Qed.

Lemma build_index_find key ms k : NoDup (key <$> ms) ->
  match build_index key ms !! k with
  | Some i => exists m, ms !! i = Some m /\ key m = k
  | None => forall m, m ∈ ms -> key m <> k
  end.
Proof.
  intros Hnd. destruct (build_index key ms !! k) as [i|] eqn:E; [by apply build_index_spec in E|].
  intros m [i Hi]%list_elem_of_lookup Hk.
  assert (build_index key ms !! k = Some i) by (apply build_index_spec; eauto). congruence.
Qed.

Lemma FindMemberByAddress_spec st s a : snapshot_of st s ->
  match FindMemberByAddress a s with
  | Ok m => m ∈ ts_members st /\ m_address m = a
  | Err c => c = K_NOT_FOUND /\ forall m, m ∈ ts_members st -> m_address m <> a
  end.
Proof.
  intros Hs. pose proof (mv_addresses _ (snapshot_valid _ _ Hs)) as Hnd.
  pose proof (fun m => snapshot_members st s m Hs) as Hm.
  apply (build_index_find _ _ a) in Hnd. unfold FindMemberByAddress.
  assert (addressIndex_ s = build_index (fun m => m_address m) (Members s)) as ->
    by (by apply snapshot_of_inv in Hs as (_ & ? & ? & ? & ? & ? & ? & ->)).
  destruct (build_index _ _ !! a) as [i|].
  - destruct Hnd as (m & Hi & Ha). rewrite Hi. split; [|done]. by apply Hm, list_elem_of_lookup_2 with i.
  - split; [done|]. intros m ?%Hm. auto.
Qed.

Lemma FindMemberById_spec st s id : snapshot_of st s -> String.length id = MEMBER_ID_SIZE ->
  match FindMemberById id s with
  | Ok m => m ∈ ts_members st /\ m_id m = id
  | Err c => c = K_NOT_FOUND /\ forall m, m ∈ ts_members st -> m_id m <> id
  end.
Proof.
  intros Hs Hl. pose proof (mv_ids _ (snapshot_valid _ _ Hs)) as Hnd.
  pose proof (fun m => snapshot_members st s m Hs) as Hm.
  apply (build_index_find _ _ id) in Hnd. unfold FindMemberById. rewrite Hl, Nat.eqb_refl. cbn [check mbind res_bind].
  assert (idIndex_ s = build_index (fun m => m_id m) (Members s)) as ->
    by (by apply snapshot_of_inv in Hs as (_ & ? & ? & ? & ? & ? & ? & ->)).
  destruct (build_index _ _ !! id) as [i|].
  - destruct Hnd as (m & Hi & Ha). rewrite Hi. split; [|done]. by apply Hm, list_elem_of_lookup_2 with i.
  - split; [done|]. intros m ?%Hm. auto.
Qed.

Lemma tokens_u32_perm ms ms' : ms ≡ₚ ms' -> tokens_u32 ms -> tokens_u32 ms'.
Proof. intros Hp Hu m t Hm. apply Hu. by rewrite Hp. Qed.

Lemma ring_owner_sort owns st t : members_valid (ts_members st) -> tokens_u32 (ts_members st) -> is_u32 t ->
  ring_owner owns (ts_members (sort_members st)) t = ring_owner owns (ts_members st) t.
Proof.
  intros Hv Hu Ht. symmetry. apply ring_owner_ext; [done..|]. intros i x.
  by setoid_rewrite elem_of_sort_on.
Qed.

Lemma Locate_sorted st owns t : persistable st -> tokens_u32 (ts_members st) -> is_u32 t ->
  match LocateIndexedOwner (sort_on fst (token_entries owns (ts_members (sort_members st)))) t with
  | Ok m => m ∈ ts_members st /\ owns m = true /\ ring_owner owns (ts_members st) t = Some (m_identity m)
  | Err c => c = K_NOT_READY /\ ring_owner owns (ts_members st) t = None
  end.
Proof.
  intros Hp Hu Ht. pose proof (persistable_sort _ Hp) as Hp'.
  pose proof (LocateIndexedOwner_spec owns (ts_members (sort_members st)) t (ps_members _ Hp')) as Hl.
  rewrite ring_owner_sort in Hl by (done || apply Hp).
  specialize (Hl ltac:(eapply tokens_u32_perm; [symmetry; apply sort_on_perm|done]) Ht).
  destruct (LocateIndexedOwner _ t) as [m|c]; [|done].
  destruct Hl as (Hm & ? & ?). split_and!; [|done..]. by apply elem_of_sort_on in Hm.
Qed.

Lemma LocateOwner_spec st s t : snapshot_of st s -> tokens_u32 (ts_members st) -> is_u32 t ->
  match LocateOwner s t with
  | Ok m => m ∈ ts_members st /\ committed m = true /\
      ring_owner committed (ts_members st) t = Some (m_identity m)
  | Err c => c = K_NOT_READY /\ forall m, m ∈ ts_members st -> committed m = false
  end.
Proof.
  intros (Hp & ? & ? & ? & ? & ? & ? & ->)%snapshot_of_inv Hu Ht. unfold LocateOwner.
  change (committedTokenOwners_ _) with (sort_on fst (token_entries committed (ts_members (sort_members st)))).
  pose proof (Locate_sorted st committed t Hp Hu Ht) as Hl.
  destruct (LocateIndexedOwner _ t) as [m|c]; [done|]. destruct Hl as [-> Hn]. split; [done|].
  intros m Hm. destruct (committed m) eqn:Hc; [|done]. exfalso.
  destruct (ps_owner _ Hp) as (m' & Hm' & Hc' & Htk); [by eauto|].
  destruct (m_tokens m') as [|tk tks] eqn:Et; [done|].
  assert (Ho : {| to_token := tk; to_identity := m_identity m' |} ∈ eligible_owners committed (ts_members st))
    by (apply elem_of_eligible_owners; exists m'; rewrite Et; split_and!; [done..|left]).
  unfold ring_owner in Hn. destruct (eligible_owners _ _); [by apply not_elem_of_nil in Ho|done].
Qed.

(** The owner once the running ordinary batch commits. *)
Lemma LocateProspectiveOwner_spec st s t b : snapshot_of st s -> tokens_u32 (ts_members st) -> is_u32 t ->
  ts_activeBatch st = Some b -> ab_type b <> FAILURE ->
  (exists m, m ∈ ts_members st /\ IsProspective (m_state m) (Some b) = true /\ m_tokens m <> []) ->
  match LocateProspectiveOwner s t with
  | Ok m => m ∈ ts_members st /\
      ring_owner (fun m => IsProspective (m_state m) (Some b)) (ts_members st) t = Some (m_identity m)
  | Err c => False
  end.
Proof.
  intros (Hp & ? & ? & ? & ? & ? & ? & ->)%snapshot_of_inv Hu Ht Hb _ (m0 & Hm0 & Hpr & Htk).
  unfold LocateProspectiveOwner.
  change (prospectiveTokenOwners_ _) with (sort_on fst (token_entries
    (fun m => IsProspective (m_state m) (ts_activeBatch st)) (ts_members (sort_members st)))).
  rewrite Hb. set (es := sort_on fst (token_entries _ _)).
  assert (Hne : is_empty es = false).
  { destruct (m_tokens m0) as [|tk tks] eqn:Et; [done|].
    assert (Hin : (tk, m0) ∈ es).
    { unfold es. apply elem_of_sort_on, elem_of_token_entries. cbn [fst snd]. rewrite Et.
      split_and!; [by apply elem_of_sort_on|done|left]. }
    destruct es; [by apply not_elem_of_nil in Hin|done]. }
  rewrite Hne. pose proof (Locate_sorted st (fun m => IsProspective (m_state m) (Some b)) t Hp Hu Ht) as Hl.
  fold es in Hl. destruct (LocateIndexedOwner es t) as [m|c] eqn:E; [naive_solver|].
  rewrite LocateIndexedOwner_cyclic in E. destruct (cyclic_at fst es t) eqn:Ec; [done|].
  unfold cyclic_at in Ec. destruct (drop_while _ es); [|done]. by destruct es.
Qed.
End created.

(** ** The cyclic successor by address *)

(** Addresses after [a] come first, then the others, each group in order. *)
Definition succ_rank (a x : string) : Z * string := (if ltk a x then 0 else 1, x).

Lemma succ_rank_not_less a x y : ltk (succ_rank a y) (succ_rank a x) = false <->
  (ltk a x = true /\ (ltk a y = true -> ltk y x = false)) \/
  (ltk a x = false /\ ltk a y = false /\ ltk y x = false).
Proof.
  unfold succ_rank. set (p := if ltk a y then 0 else 1). set (q := if ltk a x then 0 else 1).
  change (ltk (p, y) (q, x)) with ((p <? q) || (negb (q <? p) && ltk y x)). subst p q.
  destruct (ltk a x), (ltk a y), (ltk y x); cbn; naive_solver.
Qed.

Lemma next_by_address_spec a ms : StronglySorted (fun m m' => ltk (m_address m) (m_address m') = true) ms ->
  ms <> [] -> exists m, next_by_address a ms = Some m /\ m ∈ ms /\
    forall m', m' ∈ ms -> ltk (succ_rank a (m_address m')) (succ_rank a (m_address m)) = false.
Proof.
  intros Hs Hne. unfold next_by_address.
  rewrite drop_while_filter.
  2:{ eapply StronglySorted_impl; [|exact Hs]. cbn. intros m m' Hlt. rewrite !negb_true_iff.
      intros Hn. destruct (ltk a (m_address m)) eqn:E; [|done].
      by rewrite (ltk_trans _ _ _ E Hlt) in Hn. }
  destruct (filter _ ms) as [|m l] eqn:Ef.
  - assert (Hlow : forall m, m ∈ ms -> ltk a (m_address m) = false).
    { intros m Hm. destruct (ltk a (m_address m)) eqn:E; [|done].
      assert (Hin : m ∈ filter (fun m => negb (ltk a (m_address m)) = false) ms)
        by (apply list_elem_of_filter; by rewrite E).
      rewrite Ef in Hin. by apply not_elem_of_nil in Hin. }
    destruct ms as [|m ms]; [done|]. exists m. split; [done|]. split; [left|]. intros m' Hm'.
    apply succ_rank_not_less. right. split_and!; [by apply Hlow; left|by apply Hlow|].
    inversion_clear Hs as [|?? _ Hall]. rewrite Forall_forall in Hall.
    apply elem_of_cons in Hm' as [->|Hm']; [apply ltk_irrefl|]. by apply ltk_asym, Hall.
  - exists m. split; [done|].
    assert (Hm : m ∈ filter (fun m => negb (ltk a (m_address m)) = false) ms) by (rewrite Ef; left).
    apply list_elem_of_filter in Hm as [Hgt%negb_false_iff Hm]. split; [done|]. intros m' Hm'.
    apply succ_rank_not_less. left. split; [done|]. intros Hgt'.
    assert (Hin : m' ∈ m :: l) by (rewrite <-Ef; apply list_elem_of_filter; by rewrite Hgt').
    apply (StronglySorted_filter _ (fun m => negb (ltk a (m_address m)) = false)) in Hs. rewrite Ef in Hs.
    inversion_clear Hs as [|?? _ Hall]. rewrite Forall_forall in Hall.
    apply elem_of_cons in Hin as [->|Hin]; [apply ltk_irrefl|]. by apply ltk_asym, Hall.
Qed.

Section successor.
Context `{RE2} `{SHA256}.

Lemma snapshot_sorted st s : snapshot_of st s ->
  StronglySorted (fun m m' => ltk (m_address m) (m_address m') = true) (Members s).
Proof.
  intros (Hp & ? & ? & ? & ? & ? & ? & ->)%snapshot_of_inv. by apply sort_members_strict.
Qed.

Lemma distinct_next_spec a ms : StronglySorted (fun m m' => ltk (m_address m) (m_address m') = true) ms ->
  match distinct_next a ms with
  | Ok m => m ∈ ms /\ m_address m <> a /\
      forall m', m' ∈ ms -> ltk (succ_rank a (m_address m')) (succ_rank a (m_address m)) = false
  | Err c => c = K_NOT_FOUND /\ forall m, m ∈ ms -> m_address m = a
  end.
Proof.
  intros Hs. unfold distinct_next. destruct (decide (ms = [])) as [->|Hne].
  { cbn. split; [done|]. no_elem. }
  destruct (next_by_address_spec a ms Hs Hne) as (m & -> & Hm & Hmin).
  destruct (decide (m_address m = a)) as [Ha|Ha].
  - rewrite bool_decide_true by done. cbn. split; [done|]. intros m' Hm'. specialize (Hmin m' Hm').
    apply succ_rank_not_less in Hmin. rewrite Ha, ltk_irrefl in Hmin. destruct Hmin as [[? _]|(_ & H1 & H2)]; [done|].
    by apply ltk_total.
  - rewrite bool_decide_false by done. cbn. done.
Qed.

(** the next committed member after an address is its cyclic successor in
    address order among the other committed members; the search fails only when
    the address is not a committed member's or no other member is committed. *)
Theorem FindNextCommittedMember_successor st s a : snapshot_of st s ->
  match FindNextCommittedMember a s with
  | Ok m => m ∈ ts_members st /\ committed m = true /\ m_address m <> a /\
      (exists m0, m0 ∈ ts_members st /\ committed m0 = true /\ m_address m0 = a) /\
      forall m', m' ∈ ts_members st -> committed m' = true ->
        ltk (succ_rank a (m_address m')) (succ_rank a (m_address m)) = false
  | Err c => c = K_NOT_FOUND /\
      ((forall m, m ∈ ts_members st -> committed m = true -> m_address m <> a) \/
       (forall m, m ∈ ts_members st -> committed m = true -> m_address m = a))
  end.
Proof.
  intros Hs. unfold FindNextCommittedMember. pose proof (FindMemberByAddress_spec st s a Hs) as Hf.
  destruct (FindMemberByAddress a s) as [m0|c]; [|split; [done|left; naive_solver]].
  destruct Hf as [Hm0 Ha0]. fold (committed m0).
  destruct (committed m0) eqn:Hc0; cbn [check mbind res_bind].
  2:{ split; [done|]. left. intros m Hm Hc Ha. pose proof Hs as (Hp & _)%snapshot_of_inv.
      assert (m = m0) as -> by (eapply (address_inj (ts_members st)); [apply Hp|done..|congruence]). congruence. }
  assert (Hcm : committedMembers_ s = List.filter committed (Members s))
    by (by apply snapshot_of_inv in Hs as (_ & ? & ? & ? & ? & ? & ? & ->)).
  assert (Hel : forall m, m ∈ committedMembers_ s <-> m ∈ ts_members st /\ committed m = true).
  { intros m. rewrite Hcm, list_elem_of_In, filter_In, <-list_elem_of_In. by rewrite (snapshot_members st s m Hs). }
  destruct (Nat.ltb_spec 1 (length (committedMembers_ s))) as [Hlen|Hlen]; cbn [check mbind res_bind].
  - pose proof (distinct_next_spec a (committedMembers_ s)) as Hd.
    rewrite Hcm in Hd at 1. specialize (Hd (StronglySorted_filter_bool _ _ _ (snapshot_sorted st s Hs))).
    destruct (distinct_next a _) as [m|c].
    + destruct Hd as (Hm%Hel & Hne & Hmin). destruct Hm. split_and!; [done..|eauto|].
      intros m' Hm' Hc'. apply Hmin. by apply Hel.
    + destruct Hd as [-> Hall]. split; [done|]. right. intros m Hm Hc. apply Hall. by apply Hel.
  - split; [done|]. right. intros m Hm Hc.
    assert (Hin : m ∈ committedMembers_ s) by (by apply Hel).
    assert (Hin0 : m0 ∈ committedMembers_ s) by (by apply Hel).
    destruct (committedMembers_ s) as [|x [|y l]]; cbn in Hlen; [by apply not_elem_of_nil in Hin| |lia].
    apply list_elem_of_singleton in Hin as ->, Hin0 as ->. done.
Qed.

(** routing a token through a snapshot's sorted index returns the committed
    member at the least clockwise distance in the topology, and fails with
    [K_NOT_READY] exactly when no member is committed. *)
Theorem LocateOwner_refines st s t : snapshot_of st s -> tokens_u32 (ts_members st) -> is_u32 t ->
  match LocateOwner s t with
  | Ok m => m ∈ ts_members st /\ committed m = true /\
      ring_owner committed (ts_members st) t = Some (m_identity m)
  | Err c => c = K_NOT_READY /\ forall m, m ∈ ts_members st -> committed m = false
  end.
Proof. apply LocateOwner_spec. Qed.
End successor.

(** ** Witnesses *)

Import Demo ReferenceEngine ReferenceDigest.

Definition stable_ABC : TopologyState :=
  topology [mk idC ACTIVE [50; 2500000000]; mk idA ACTIVE [100; 3000000000]; mk idB PRE_LEAVING [2000; 4000000000]].

Definition demo_digest : string := HexEncode (replicate 32 171).

Lemma stable_ABC_snapshot : exists s, snapshot_of stable_ABC s.
Proof.
  destruct (Create stable_ABC 5 demo_digest ∅ true "c") as [s|c] eqn:E; [|vm_compute in E; discriminate E].
  exists s, 5, demo_digest, ∅, true, "c"%string. exact E.
Qed.

Lemma stable_ABC_u32 : tokens_u32 (ts_members stable_ABC).
Proof. apply tokens_u32_dec. vm_compute. reflexivity. Qed.

Lemma canonicalize_spec_witness :
  exists st', ValidateAndCanonicalizeTopologyState stable_ABC = Ok st' /\ persistable st'.
Proof.
  destruct (ValidateAndCanonicalizeTopologyState stable_ABC) as [st'|c] eqn:E; [|vm_compute in E; discriminate E].
  exists st'. split; [reflexivity|]. destruct (canonicalize_spec stable_ABC) as [_ H].
  destruct (H st' E) as (_ & Hp & _). exact Hp.
Defined.

Lemma LocateOwner_refines_witness : exists s, snapshot_of stable_ABC s /\
  match LocateOwner s 60 with
  | Ok m => ring_owner committed (ts_members stable_ABC) 60 = Some (m_identity m)
  | Err c => c = K_NOT_READY
  end.
Proof.
  destruct stable_ABC_snapshot as [s Hs]. exists s. split; [exact Hs|].
  pose proof (LocateOwner_refines stable_ABC s 60 Hs stable_ABC_u32 ltac:(unfold is_u32; lia)) as H.
  destruct (LocateOwner s 60); [exact (proj2 (proj2 H))|exact (proj1 H)].
Defined.

Lemma FindNextCommittedMember_successor_witness : exists s, snapshot_of stable_ABC s /\
  match FindNextCommittedMember "10.0.0.3:31501" s with
  | Ok m => m_address m <> "10.0.0.3:31501"
  | Err c => c = K_NOT_FOUND
  end.
Proof.
  destruct stable_ABC_snapshot as [s Hs]. exists s. split; [exact Hs|].
  pose proof (FindNextCommittedMember_successor stable_ABC s "10.0.0.3:31501" Hs) as H.
  destruct (FindNextCommittedMember _ s); [exact (proj1 (proj2 (proj2 H)))|exact (proj1 H)].
Defined.
