(* ===== verification/RepositoryCodec.v ===== *)
(** * Canonical repository values

    src/datasystem/cluster/repository/topology_repository_codec.cpp: the
    protobuf values of the topology, of the migrate and delete tasks and of the
    per-member notify.  The messages are those of protos/cluster_topology.proto;
    their wire format belongs to the protobuf library and enters as the class
    [Protobuf].  Open enumerations keep their integer value, [map] fields are
    finite maps, and the iteration order of a [map] field, which the library
    leaves unspecified, is the operation [iterate] of the class
    [MapIteration]. *)

From S2P Require Import Prelude Ordered TopologyTypes HashRing BalancedRing TokenPlacement HostPort KeyHelper Hasher.
From S2P Require Import RingTheory HashAlgorithm OwnerSpec PlanningInterface HashPlans Snapshot.

(** ** Messages *)

Record TokenSeedOverridePb := { sop_token_index : Z; sop_token_seed : Z }.
Record MembershipPb := {
  mp_id : string; mp_state : Z; mp_token_seed_overrides : list TokenSeedOverridePb
}.
Record TokenRangePb := { rp_owner_address : string; rp_from : Z; rp_end : Z; rp_finished : bool }.
Record MigrateTaskPb := { mtp_target_address : string; mtp_source_ranges : list TokenRangePb }.
Record DeleteNodeTaskPb := { dtp_failed_address : string; dtp_recovery_ranges : list TokenRangePb }.
Record ChangeBatchPb := { cbp_type : Z; cbp_epoch : Z }.
Record TaskNotifyPb := {
  tnp_active_batch : option ChangeBatchPb;
  tnp_task_ids : list string;
  tnp_restart_timestamps_by_address : gmap string Z
}.
Record ClusterTopologyPb := {
  ctp_cluster_has_init : bool;
  ctp_members : gmap string MembershipPb;
  ctp_version : Z;
  ctp_schema_version : string;
  ctp_active_batch : option ChangeBatchPb;
  ctp_tokens_per_member : Z
}.

#[global] Instance TokenSeedOverridePb_eq_dec : EqDecision TokenSeedOverridePb.
Proof. solve_decision. Defined.
#[global] Instance MembershipPb_eq_dec : EqDecision MembershipPb.
Proof. solve_decision. Defined.
#[global] Instance TokenRangePb_eq_dec : EqDecision TokenRangePb.
Proof. solve_decision. Defined.
#[global] Instance MigrateTaskPb_eq_dec : EqDecision MigrateTaskPb.
Proof. solve_decision. Defined.
#[global] Instance DeleteNodeTaskPb_eq_dec : EqDecision DeleteNodeTaskPb.
Proof. solve_decision. Defined.
#[global] Instance ChangeBatchPb_eq_dec : EqDecision ChangeBatchPb.
Proof. solve_decision. Defined.
#[global] Instance TaskNotifyPb_eq_dec : EqDecision TaskNotifyPb.
Proof. solve_decision. Defined.
#[global] Instance ClusterTopologyPb_eq_dec : EqDecision ClusterTopologyPb.
Proof. solve_decision. Defined.

(** ** The protobuf library *)

Class Protobuf (M : Type) := {
  SerializeToCodedStream : M -> option string;
  ParseFromString : string -> option M
}.

Class MapIteration := { iterate {V : Type} : gmap string V -> list (string * V) }.

(** Each entry of a map field is visited once. *)
Class MapIterationLaws `{MapIteration} : Prop := {
  iterate_perm {V} (m : gmap string V) : iterate m ≡ₚ map_to_list m
}.

(** A [string] field holds UTF-8 text; the laws are stated for ASCII text. *)
Definition ascii_text (s : string) : bool := all_chars (fun c => (nat_of_ascii c <? 128)%nat) s.
Definition is_u64 (z : Z) : Prop := 0 <= z < 2 ^ 64.
Definition is_i32 (z : Z) : Prop := - 2 ^ 31 <= z < 2 ^ 31.
Definition is_i64 (z : Z) : Prop := - 2 ^ 63 <= z < 2 ^ 63.

(** The messages whose fields fit their types in the schema. *)
Class Representable (M : Type) := representable : M -> Prop.

#[global] Instance MembershipPb_representable : Representable MembershipPb := fun m =>
  is_i32 (mp_state m) /\
  Forall (fun o => is_u32 (sop_token_index o) /\ is_u32 (sop_token_seed o)) (mp_token_seed_overrides m).
#[global] Instance TokenRangePb_representable : Representable TokenRangePb := fun r =>
  ascii_text (rp_owner_address r) = true /\ is_u32 (rp_from r) /\ is_u32 (rp_end r).
#[global] Instance MigrateTaskPb_representable : Representable MigrateTaskPb := fun t =>
  ascii_text (mtp_target_address t) = true /\ Forall representable (mtp_source_ranges t).
#[global] Instance DeleteNodeTaskPb_representable : Representable DeleteNodeTaskPb := fun t =>
  ascii_text (dtp_failed_address t) = true /\ Forall representable (dtp_recovery_ranges t).
#[global] Instance ChangeBatchPb_representable : Representable ChangeBatchPb := fun b =>
  is_i32 (cbp_type b) /\ is_u64 (cbp_epoch b).
#[global] Instance TaskNotifyPb_representable : Representable TaskNotifyPb := fun n =>
  (forall b, tnp_active_batch n = Some b -> representable b) /\
  Forall (fun id => ascii_text id = true) (tnp_task_ids n) /\
  map_Forall (fun a t => ascii_text a = true /\ is_i64 t) (tnp_restart_timestamps_by_address n).
#[global] Instance ClusterTopologyPb_representable : Representable ClusterTopologyPb := fun t =>
  map_Forall (fun a m => ascii_text a = true /\ representable m) (ctp_members t) /\
  is_u64 (ctp_version t) /\ ascii_text (ctp_schema_version t) = true /\
  (forall b, ctp_active_batch t = Some b -> representable b) /\ is_u32 (ctp_tokens_per_member t).

(** Parsing a serialized message gives the message back. *)
Class ProtobufLaws (M : Type) `{Protobuf M, Representable M} : Prop :=
  parse_serialize m v : representable m -> SerializeToCodedStream m = Some v -> ParseFromString v = Some m.

(** Integer fields fit their types; a [string] field may hold any bytes. *)
Class Typed (M : Type) := typed : M -> Prop.

#[global] Instance ClusterTopologyPb_typed : Typed ClusterTopologyPb := fun t =>
  map_Forall (fun _ m => representable m) (ctp_members t) /\ is_u64 (ctp_version t) /\
  (forall b, ctp_active_batch t = Some b -> representable b) /\ is_u32 (ctp_tokens_per_member t).

(** Parsing rejects text that is not UTF-8, but never yields another message
    than the one that was serialized. *)
Class ExactParse (M : Type) `{Protobuf M, Typed M} : Prop :=
  parse_exact m v m' : typed m -> SerializeToCodedStream m = Some v -> ParseFromString v = Some m' -> m' = m.

(** The empty value is the message with every field at its default. *)
Class EmptyValue (M : Type) `{Protobuf M} (default_message : M) : Prop := {
  parse_empty m : ParseFromString EmptyString = Some m -> m = default_message;
  serialize_empty m : SerializeToCodedStream m = Some EmptyString -> m = default_message
}.

(** Fields are written in the order of their numbers and an absent field
    writes nothing, so a notify is the bytes of its task fields followed by the
    bytes of its restart field. *)
Class NotifyFieldOrder `{Protobuf TaskNotifyPb} : Prop :=
  serialize_notify b ids restarts v w :
    SerializeToCodedStream {| tnp_active_batch := b; tnp_task_ids := ids;
      tnp_restart_timestamps_by_address := ∅ |} = Some v ->
    SerializeToCodedStream {| tnp_active_batch := None; tnp_task_ids := [];
      tnp_restart_timestamps_by_address := restarts |} = Some w ->
    SerializeToCodedStream {| tnp_active_batch := b; tnp_task_ids := ids;
      tnp_restart_timestamps_by_address := restarts |} = Some (v +:+ w).

(** ** Constants and scalar conversions *)

Definition MAX_VALUE_BYTES : Z := 4 * 1024 * 1024.
Definition MAX_NOTIFY_TASK_REFS : Z := 4096.
Definition MAX_NOTIFY_VALUE_BYTES : Z := 4 * 1024 * 1024.
Definition MAX_RESTART_NOTIFY_ENTRIES : Z := 10000.
Definition MAX_TOPOLOGY_MEMBERS : Z := 10000.
Definition MAX_TOPOLOGY_TOKENS : Z := 640000.
Definition SCHEMA_VERSION : string := "2".

Abbreviation size s := (Z.of_nat (String.length s)).
Abbreviation count l := (Z.of_nat (length l)).

Definition SerializeCanonical {M} `{Protobuf M} (message : M) : res string :=
  match SerializeToCodedStream message with
  | None => Err K_RUNTIME_ERROR
  | Some encoded => _ ← check (size encoded <=? MAX_VALUE_BYTES) K_INVALID; Ok encoded
  end.

Definition ToPbType (type : TopologyChangeType) : res Z :=
  match type with SCALE_OUT => Ok 0 | SCALE_IN => Ok 1 | FAILURE => Ok 2 end.

Definition FromPbType (type : Z) : res TopologyChangeType :=
  match type with 0 => Ok SCALE_OUT | 1 => Ok SCALE_IN | 2 => Ok FAILURE | _ => Err K_INVALID end.

(** [static_cast] between [MemberState] and [MembershipPb::StatePb]. *)
Definition state_number (s : MemberState) : Z :=
  match s with INITIAL => 0 | JOINING => 1 | ACTIVE => 2 | PRE_LEAVING => 3 | LEAVING => 4 | FAILED => 5 end.
Definition state_of_number (z : Z) : MemberState :=
  match z with 1 => JOINING | 2 => ACTIVE | 3 => PRE_LEAVING | 4 => LEAVING | 5 => FAILED | _ => INITIAL end.

Section tasks.
Context `{RE2}.

Definition ValidateTaskId (taskId : string) : res unit := _ ← TaskKey taskId; Ok tt.

Definition ValidateTaskContext (taskId : string) (kind : ascii) (epoch : Z) : res unit :=
  _ ← ValidateTaskId taskId;
  let expected := String kind "-e" +:+ pretty epoch +:+ "-" in
  check (String.prefix expected taskId) K_INVALID.

Definition ValidateMemberAddress (address : string) : res unit := _ ← NotifyKey address; Ok tt.

(** The loop body at [index > 0] also compares with the previous range. *)
Fixpoint canonical_ranges_from (previous : option TopologyTaskRange) (ranges : list TopologyTaskRange)
    (executor : string) : bool :=
  match ranges with
  | [] => true
  | range :: rest =>
      if negb (bool_decide (tk_ownerAddress range = executor)) || (tr_end (tk_range range) <? tr_from (tk_range range))
      then false
      else if match previous with
              | Some p => tr_from (tk_range range) <=? tr_end (tk_range p)
              | None => false
              end then false
      else canonical_ranges_from (Some range) rest executor
  end.

Definition IsCanonicalRanges (ranges : list TopologyTaskRange) (executor : string) : bool :=
  if is_empty ranges || (MAX_TOPOLOGY_TASK_RANGES <? length ranges)%nat || bool_decide (executor = EmptyString)
  then false
  else canonical_ranges_from None ranges executor.

Definition EncodeRanges (ranges : list TopologyTaskRange) : list TokenRangePb :=
  (fun range => {| rp_owner_address := tk_ownerAddress range; rp_from := tr_from (tk_range range);
                   rp_end := tr_end (tk_range range); rp_finished := tk_finished range |}) <$> ranges.

(** Returns the ranges and the executor. *)
Definition DecodeRanges (input : list TokenRangePb) : res (list TopologyTaskRange * string) :=
  _ ← check (negb (is_empty input) && (length input <=? MAX_TOPOLOGY_TASK_RANGES)%nat) K_INVALID;
  let decoded := (fun rangePb => {| tk_ownerAddress := rp_owner_address rangePb;
       tk_range := {| tr_from := rp_from rangePb; tr_end := rp_end rangePb |};
       tk_finished := rp_finished rangePb |}) <$> input in
  match decoded with
  | [] => Err K_INVALID
  | front :: _ =>
      let owner := tk_ownerAddress front in
      _ ← check (IsCanonicalRanges decoded owner) K_INVALID;
      Ok (decoded, owner)
  end.

Context `{Protobuf MigrateTaskPb, Protobuf DeleteNodeTaskPb}.

Definition EncodeMigrateTask (task : TopologyMigrateTask) : res string :=
  _ ← ValidateTaskContext (mt_taskId task) "m" (mt_epoch task);
  _ ← ValidateMemberAddress (mt_targetAddress task);
  _ ← ValidateMemberAddress (mt_executorAddress task);
  _ ← check ((0 <? mt_epoch task) && IsCanonicalRanges (mt_sourceRanges task) (mt_executorAddress task)) K_INVALID;
  SerializeCanonical {| mtp_target_address := mt_targetAddress task;
                        mtp_source_ranges := EncodeRanges (mt_sourceRanges task) |}.

Definition DecodeMigrateTask (taskId : string) (type : TopologyChangeType) (epoch : Z) (value : string)
    : res TopologyMigrateTask :=
  _ ← ValidateTaskContext taskId "m" epoch;
  _ ← check ((0 <? epoch) && (size value <=? MAX_VALUE_BYTES)) K_INVALID;
  match (ParseFromString value : option MigrateTaskPb) with
  | None => Err K_INVALID
  | Some pb =>
      _ ← check (negb (bool_decide (mtp_target_address pb = EmptyString))) K_INVALID;
      _ ← ValidateMemberAddress (mtp_target_address pb);
      r ← DecodeRanges (mtp_source_ranges pb);
      Ok {| mt_taskId := taskId; mt_type := type; mt_epoch := epoch; mt_executorAddress := r.2;
            mt_targetAddress := mtp_target_address pb; mt_sourceRanges := r.1 |}
  end.

Definition EncodeDeleteTask (task : TopologyDeleteTask) : res string :=
  _ ← ValidateTaskContext (dt_taskId task) "d" (dt_epoch task);
  _ ← ValidateMemberAddress (dt_failedAddress task);
  _ ← ValidateMemberAddress (dt_executorAddress task);
  _ ← check ((0 <? dt_epoch task) && IsCanonicalRanges (dt_recoveryRanges task) (dt_executorAddress task)) K_INVALID;
  SerializeCanonical {| dtp_failed_address := dt_failedAddress task;
                        dtp_recovery_ranges := EncodeRanges (dt_recoveryRanges task) |}.

Definition DecodeDeleteTask (taskId : string) (epoch : Z) (value : string) : res TopologyDeleteTask :=
  _ ← ValidateTaskContext taskId "d" epoch;
  _ ← check ((0 <? epoch) && (size value <=? MAX_VALUE_BYTES)) K_INVALID;
  match (ParseFromString value : option DeleteNodeTaskPb) with
  | None => Err K_INVALID
  | Some pb =>
      _ ← check (negb (bool_decide (dtp_failed_address pb = EmptyString))) K_INVALID;
      _ ← ValidateMemberAddress (dtp_failed_address pb);
      r ← DecodeRanges (dtp_recovery_ranges pb);
      Ok {| dt_taskId := taskId; dt_epoch := epoch; dt_executorAddress := r.2;
            dt_failedAddress := dtp_failed_address pb; dt_recoveryRanges := r.1 |}
  end.
End tasks.

(** ** Topology *)

(** The loop over the overrides: the seed vector, the previous index and the
    message under construction. *)
Definition encode_override (tokensPerMember : Z) (st : list Z * option Z * list TokenSeedOverridePb)
    (o : TokenSeedOverride) : res (list Z * option Z * list TokenSeedOverridePb) :=
  let '(seeds, previous, pbs) := st in
  _ ← check ((so_tokenIndex o <? tokensPerMember) && (0 <? so_tokenSeed o) &&
             (so_tokenSeed o <? MAX_HASH_RING_TOKEN_SEEDS) &&
             match previous with None => true | Some p => p <? so_tokenIndex o end) K_INVALID;
  Ok (<[Z.to_nat (so_tokenIndex o) := so_tokenSeed o]> seeds, Some (so_tokenIndex o),
      pbs ++ [{| sop_token_index := so_tokenIndex o; sop_token_seed := so_tokenSeed o |}]).

Definition EncodeTokenSeedOverrides (member : Member) (tokensPerMember : Z) (memberPb : MembershipPb)
    : res MembershipPb :=
  if decide (m_state member = INITIAL) then
    _ ← check (is_empty (m_tokens member) && is_empty (m_tokenSeedOverrides member)) K_INVALID;
    Ok memberPb
  else
    _ ← check ((0 <? tokensPerMember) && (tokensPerMember <=? MAX_HASH_RING_TOKENS_PER_MEMBER)) K_INVALID;
    _ ← check (count (m_tokens member) =? tokensPerMember) K_INVALID;
    st ← foldM (encode_override tokensPerMember)
           (replicate (Z.to_nat tokensPerMember) 0, None, mp_token_seed_overrides memberPb)
           (m_tokenSeedOverrides member);
    _ ← check (bool_decide (MakeTokens (m_address member) st.1.1 = m_tokens member)) K_INVALID;
    Ok {| mp_id := mp_id memberPb; mp_state := mp_state memberPb; mp_token_seed_overrides := st.2 |}.

Definition decode_override (tokensPerMember : Z) (seeds : list Z) (o : TokenSeedOverridePb) : res (list Z) :=
  _ ← check ((sop_token_index o <? tokensPerMember) && (0 <? sop_token_seed o) &&
             (sop_token_seed o <? MAX_HASH_RING_TOKEN_SEEDS)) K_INVALID;
  _ ← check (bool_decide (seeds !! Z.to_nat (sop_token_index o) = Some 0)) K_INVALID;
  Ok (<[Z.to_nat (sop_token_index o) := sop_token_seed o]> seeds).

(** [member] carries the identity and the state; tokens and overrides are set. *)
Definition DecodeTokens (memberPb : MembershipPb) (tokensPerMember : Z) (member : Member) : res Member :=
  if decide (m_state member = INITIAL) then
    _ ← check (is_empty (mp_token_seed_overrides memberPb)) K_INVALID;
    Ok {| m_identity := m_identity member; m_state := m_state member; m_tokens := []; m_tokenSeedOverrides := [] |}
  else
    seeds ← foldM (decode_override tokensPerMember) (replicate (Z.to_nat tokensPerMember) 0)
              (mp_token_seed_overrides memberPb);
    Ok {| m_identity := m_identity member; m_state := m_state member;
          m_tokens := MakeTokens (m_address member) seeds;
          m_tokenSeedOverrides := overrides_of seeds |}.

Section topology.
Context `{RE2} `{Protobuf ClusterTopologyPb} `{MapIteration}.

Definition default_MembershipPb : MembershipPb := {| mp_id := ""; mp_state := 0; mp_token_seed_overrides := [] |}.

Definition encode_member (tokensPerMember : Z) (st : Z * gmap string MembershipPb) (member : Member)
    : res (Z * gmap string MembershipPb) :=
  let tokenCount := st.1 + count (m_tokens member) in
  _ ← check (tokenCount <=? MAX_TOPOLOGY_TOKENS) K_INVALID;
  let memberPb := default default_MembershipPb (st.2 !! m_address member) in
  memberPb ← EncodeTokenSeedOverrides member tokensPerMember
    {| mp_id := m_id member; mp_state := state_number (m_state member);
       mp_token_seed_overrides := mp_token_seed_overrides memberPb |};
  Ok (tokenCount, <[m_address member := memberPb]> st.2).

Definition EncodeTopology (state : TopologyState) : res string :=
  canonical ← ValidateAndCanonicalizeTopologyState state;
  _ ← check ((0 <? ts_tokensPerMember canonical) &&
             (ts_tokensPerMember canonical <=? MAX_HASH_RING_TOKENS_PER_MEMBER)) K_INVALID;
  st ← foldM (encode_member (ts_tokensPerMember canonical)) (0, ∅) (ts_members canonical);
  batchPb ← match ts_activeBatch canonical with
            | Some b => typePb ← ToPbType (ab_type b); Ok (Some {| cbp_type := typePb; cbp_epoch := ab_epoch b |})
            | None => Ok None
            end;
  SerializeCanonical {| ctp_cluster_has_init := ts_clusterHasInit canonical; ctp_members := st.2;
    ctp_version := ts_version canonical; ctp_schema_version := SCHEMA_VERSION; ctp_active_batch := batchPb;
    ctp_tokens_per_member := ts_tokensPerMember canonical |}.

Definition decode_member (tokensPerMember : Z) (st : Z * list Member) (entry : string * MembershipPb)
    : res (Z * list Member) :=
  let '(address, memberPb) := entry in
  member ← DecodeTokens memberPb tokensPerMember
    {| m_identity := {| mi_id := mp_id memberPb; mi_address := address |};
       m_state := state_of_number (mp_state memberPb); m_tokens := []; m_tokenSeedOverrides := [] |};
  let tokenCount := st.1 + count (m_tokens member) in
  _ ← check (tokenCount <=? MAX_TOPOLOGY_TOKENS) K_INVALID;
  Ok (tokenCount, st.2 ++ [member]).

Definition count_token_members (tokenMemberCount : Z) (entry : string * MembershipPb) : res Z :=
  _ ← check ((0 <=? mp_state entry.2) && (mp_state entry.2 <=? 5)) K_INVALID;
  Ok (if mp_state entry.2 =? 0 then tokenMemberCount else tokenMemberCount + 1).

Definition DecodeTopology (value : string) : res TopologyState :=
  _ ← check (size value <=? MAX_VALUE_BYTES) K_INVALID;
  match ParseFromString value with
  | None => Err K_INVALID
  | Some pb =>
      _ ← check (bool_decide (ctp_schema_version pb = SCHEMA_VERSION)) K_INVALID;
      _ ← check (count (iterate (ctp_members pb)) <=? MAX_TOPOLOGY_MEMBERS) K_INVALID;
      _ ← check ((0 <? ctp_tokens_per_member pb) &&
                 (ctp_tokens_per_member pb <=? MAX_HASH_RING_TOKENS_PER_MEMBER)) K_INVALID;
      tokenMemberCount ← foldM count_token_members 0 (iterate (ctp_members pb));
      _ ← check (tokenMemberCount <=? MAX_TOPOLOGY_TOKENS / ctp_tokens_per_member pb) K_INVALID;
      st ← foldM (decode_member (ctp_tokens_per_member pb)) (0, []) (iterate (ctp_members pb));
      activeBatch ← match ctp_active_batch pb with
                    | Some b => type ← FromPbType (cbp_type b); Ok (Some {| ab_type := type; ab_epoch := cbp_epoch b |})
                    | None => Ok None
                    end;
      ValidateAndCanonicalizeTopologyState
        {| ts_clusterHasInit := ctp_cluster_has_init pb; ts_version := ctp_version pb; ts_members := st.2;
           ts_activeBatch := activeBatch; ts_tokensPerMember := ctp_tokens_per_member pb |}
  end.
End topology.

(** ** Notify *)

Section notify.
Context `{RE2} `{Protobuf TaskNotifyPb}.

Definition ValidateRestartFacts (restartTimestamps : list (string * Z)) : res unit :=
  _ ← check (count restartTimestamps <=? MAX_RESTART_NOTIFY_ENTRIES) K_INVALID;
  foldM (fun _ fact =>
    _ ← ValidateMemberAddress fact.1;
    check (0 <? fact.2) K_INVALID) tt restartTimestamps.

Definition EncodeActiveBatch (activeBatch : ActiveBatch) : res ChangeBatchPb :=
  _ ← check (0 <? ab_epoch activeBatch) K_INVALID;
  typePb ← ToPbType (ab_type activeBatch);
  Ok {| cbp_type := typePb; cbp_epoch := ab_epoch activeBatch |}.

Definition DecodeActiveBatch (input : ChangeBatchPb) : res ActiveBatch :=
  _ ← check (0 <? cbp_epoch input) K_INVALID;
  type ← FromPbType (cbp_type input);
  Ok {| ab_type := type; ab_epoch := cbp_epoch input |}.

(** [std::is_sorted] and [std::adjacent_find(...) == end]. *)
Fixpoint is_sorted (l : list string) : bool :=
  match l with
  | a :: ((b :: _) as rest) => negb (ltk b a) && is_sorted rest
  | _ => true
  end.
Fixpoint no_adjacent (l : list string) : bool :=
  match l with
  | a :: ((b :: _) as rest) => negb (bool_decide (a = b)) && no_adjacent rest
  | _ => true
  end.

Definition EncodeNotify (notify : TopologyTaskNotify) : res string :=
  _ ← check (is_sorted (tn_taskIds notify) && no_adjacent (tn_taskIds notify) &&
             (count (tn_taskIds notify) <=? MAX_NOTIFY_TASK_REFS)) K_INVALID;
  _ ← check (bool_decide (is_Some (tn_activeBatch notify)) || is_empty (tn_taskIds notify)) K_INVALID;
  _ ← ValidateRestartFacts (tn_restartTimestampsByAddress notify);
  batchPb ← match tn_activeBatch notify with
            | Some b => pb ← EncodeActiveBatch b; Ok (Some pb)
            | None => Ok None
            end;
  taskIds ← foldM (fun ids taskId =>
      _ ← ValidateTaskId taskId;
      let prefix := match tn_activeBatch notify with
                    | Some b => if decide (ab_type b = FAILURE) then "d-e" else "m-e"
                    | None => "m-e" end in
      _ ← check (String.prefix prefix taskId) K_INVALID;
      Ok (ids ++ [taskId])) [] (tn_taskIds notify);
  let restarts := foldl (fun m fact => <[fact.1 := fact.2]> m) ∅ (tn_restartTimestampsByAddress notify) in
  encoded ← SerializeCanonical {| tnp_active_batch := batchPb; tnp_task_ids := taskIds;
    tnp_restart_timestamps_by_address := restarts |};
  _ ← check (size encoded <=? MAX_NOTIFY_VALUE_BYTES) K_INVALID;
  Ok encoded.

Definition ComposeNotify (taskNotify : TopologyTaskNotify) (canonicalRestartNotify : string) : res string :=
  _ ← check (is_empty (tn_restartTimestampsByAddress taskNotify)) K_INVALID;
  encoded ← EncodeNotify taskNotify;
  _ ← check (size canonicalRestartNotify <=? MAX_NOTIFY_VALUE_BYTES - size encoded) K_INVALID;
  Ok (encoded +:+ canonicalRestartNotify).

Context `{MapIteration}.

Definition DecodeNotify (value : string) : res TopologyTaskNotify :=
  _ ← check (size value <=? MAX_NOTIFY_VALUE_BYTES) K_INVALID;
  match ParseFromString value with
  | None => Err K_INVALID
  | Some pb =>
      activeBatch ← match tnp_active_batch pb with
                    | Some b => a ← DecodeActiveBatch b; Ok (Some a)
                    | None => Ok None
                    end;
      let decoded := {| tn_activeBatch := activeBatch; tn_taskIds := tnp_task_ids pb;
        tn_restartTimestampsByAddress :=
          foldl (fun m fact => om_emplace fact.1 fact.2 m) [] (iterate (tnp_restart_timestamps_by_address pb)) |} in
      canonical ← EncodeNotify decoded;
      _ ← check (bool_decide (canonical = value)) K_INVALID;
      Ok decoded
  end.
End notify.

(** ** Seed vectors and override lists *)

Definition insert_seed (seeds : list Z) (o : TokenSeedOverride) : list Z :=
  <[Z.to_nat (so_tokenIndex o) := so_tokenSeed o]> seeds.

(** Strictly increasing indexes below [tpm], seeds in range. *)
Record overrides_ok (tpm : Z) (os : list TokenSeedOverride) : Prop := {
  oo_range o : o ∈ os -> 0 <= so_tokenIndex o < tpm /\ 0 < so_tokenSeed o < MAX_HASH_RING_TOKEN_SEEDS;
  oo_sorted : StronglySorted (fun a b => so_tokenIndex a < so_tokenIndex b) os
}.

Lemma length_insert_seeds os seeds : length (foldl insert_seed seeds os) = length seeds.
Proof. revert seeds. induction os as [|o os IH]; intros seeds; [done|]. cbn. rewrite IH. apply length_insert. Qed.

Lemma insert_seeds_out os seeds i : (forall o, o ∈ os -> Z.to_nat (so_tokenIndex o) <> i) ->
  foldl insert_seed seeds os !! i = seeds !! i.
Proof.
  revert seeds. induction os as [|o os IH]; intros seeds Hi; [done|]. cbn [foldl].
  rewrite IH by (intros; apply Hi; by right). apply list_lookup_insert_ne, Hi. left.
Qed.

Lemma overrides_ok_cons tpm o os : overrides_ok tpm (o :: os) <->
  (0 <= so_tokenIndex o < tpm /\ 0 < so_tokenSeed o < MAX_HASH_RING_TOKEN_SEEDS) /\
  overrides_ok tpm os /\ forall o', o' ∈ os -> so_tokenIndex o < so_tokenIndex o'.
Proof.
  split.
  - intros [H1 H2]. inversion_clear H2 as [|?? H3 H4]. rewrite Forall_forall in H4. split; [apply H1; left|].
    split; [|done]. split; [|done]. intros; apply H1; by right.
  - intros (H1 & [H2 H3] & H4). split; [|constructor; [done|by apply Forall_forall]].
    intros o' [->|Ho]%elem_of_cons; auto.
Qed.

Lemma insert_seeds_in tpm os seeds o : overrides_ok tpm os -> length seeds = Z.to_nat tpm -> o ∈ os ->
  foldl insert_seed seeds os !! Z.to_nat (so_tokenIndex o) = Some (so_tokenSeed o).
Proof.
  revert seeds. induction os as [|a os IH]; intros seeds Hok Hl Ho; [by apply not_elem_of_nil in Ho|].
  apply overrides_ok_cons in Hok as (Ha & Hok & Hlt). cbn [foldl].
  apply elem_of_cons in Ho as [->|Ho].
  - rewrite insert_seeds_out by (intros o' Ho'%Hlt; lia). apply list_lookup_insert_eq. lia.
  - apply IH; [done| |done]. rewrite <-Hl. apply length_insert.
Qed.

Lemma elem_of_overrides_of seeds o : o ∈ overrides_of seeds <->
  0 <= so_tokenIndex o /\ 0 < so_tokenSeed o /\ seeds !! Z.to_nat (so_tokenIndex o) = Some (so_tokenSeed o).
Proof.
  unfold overrides_of. rewrite list_elem_of_omap. setoid_rewrite elem_of_lookup_imap. split.
  - intros (e & (i & s & -> & Hi) & He). cbn in He. destruct (0 <? s) eqn:E; [|done].
    injection He as <-. cbn. rewrite Nat2Z.id. split_and!; [lia|lia|done].
  - intros (H1 & H2 & H3). exists (so_tokenIndex o, so_tokenSeed o). split.
    + exists (Z.to_nat (so_tokenIndex o)), (so_tokenSeed o). rewrite Z2Nat.id by lia. done.
    + cbn. rewrite (proj2 (Z.ltb_lt _ _)) by lia. by destruct o.
Qed.

Lemma overrides_of_sorted seeds :
  StronglySorted (fun a b => so_tokenIndex a < so_tokenIndex b) (overrides_of seeds).
Proof.
  induction seeds as [|s seeds IH] using rev_ind; [constructor|].
  unfold overrides_of in *. rewrite imap_app, omap_app. cbn. rewrite Nat.add_0_r.
  destruct (0 <? s); [|by rewrite app_nil_r]. apply StronglySorted_snoc; [done|].
  intros o Ho%elem_of_overrides_of. cbn. destruct Ho as (H1 & _ & H3%lookup_lt_Some). lia.
Qed.

Lemma index_sorted_unique l l' : StronglySorted (fun a b => so_tokenIndex a < so_tokenIndex b) l ->
  StronglySorted (fun a b => so_tokenIndex a < so_tokenIndex b) l' -> (forall o, o ∈ l <-> o ∈ l') -> l = l'.
Proof.
  intros Hs Hs' Hel.
  assert (Hnd : forall k, StronglySorted (fun a b => so_tokenIndex a < so_tokenIndex b) k -> NoDup (so_tokenIndex <$> k)).
  { intros k. induction 1 as [|o k _ IH Hall]; [constructor|]. rewrite fmap_cons. constructor; [|done].
    intros (o' & Heq & Ho')%list_elem_of_fmap. rewrite Forall_forall in Hall. specialize (Hall o' Ho'). lia. }
  assert (Hle : forall k, StronglySorted (fun a b => so_tokenIndex a < so_tokenIndex b) k ->
            StronglySorted (key_le so_tokenIndex) k).
  { intros k. apply StronglySorted_impl. intros a b Hab. apply Z.ltb_ge. lia. }
  apply (sorted_unique so_tokenIndex); [by apply Hnd|by apply Hle..|].
  apply NoDup_Permutation; [by apply NoDup_fmap_1 with so_tokenIndex, Hnd..|done].
Qed.

(** The overrides of the rebuilt vector are the overrides it was built from. *)
Lemma overrides_of_seeds tpm os : overrides_ok tpm os ->
  overrides_of (foldl insert_seed (replicate (Z.to_nat tpm) 0) os) = os.
Proof.
  intros Hok. apply index_sorted_unique; [apply overrides_of_sorted|apply Hok|].
  intros o. rewrite elem_of_overrides_of. split.
  - intros (H1 & H2 & H3). destruct (decide (Exists (fun o' => Z.to_nat (so_tokenIndex o') = Z.to_nat (so_tokenIndex o)) os))
      as [(o' & Ho' & Heq)%Exists_exists|Hno].
    + rewrite <-Heq, (insert_seeds_in tpm) in H3; [|done|apply length_replicate|done].
      destruct (oo_range _ _ Hok o' Ho') as [? _]. injection H3 as H3.
      replace o with o'; [done|]. destruct o, o'. cbn in *. f_equal; lia.
    + rewrite insert_seeds_out in H3 by (intros o' Ho' Heq; apply Hno, Exists_exists; eauto).
      apply lookup_replicate_1 in H3 as [H3 _]. lia.
  - intros Ho. destruct (oo_range _ _ Hok o Ho) as [? ?]. split_and!; [lia|lia|].
    apply (insert_seeds_in tpm); [done|apply length_replicate|done].
Qed.

(** The vector rebuilt from the overrides of a vector is that vector. *)
Lemma seeds_of_overrides seeds : Forall (fun s => 0 <= s < MAX_HASH_RING_TOKEN_SEEDS) seeds ->
  overrides_ok (count seeds) (overrides_of seeds) /\
  foldl insert_seed (replicate (length seeds) 0) (overrides_of seeds) = seeds.
Proof.
  rewrite Forall_lookup. intros Hr.
  assert (Hok : overrides_ok (count seeds) (overrides_of seeds)).
  { split; [|apply overrides_of_sorted]. intros o (H1 & H2 & H3)%elem_of_overrides_of.
    pose proof (Hr _ _ H3). apply lookup_lt_Some in H3. lia. }
  split; [done|]. apply list_eq_same_length with (length seeds); [done|by rewrite length_insert_seeds, length_replicate|].
  intros i x y Hi Hx Hy. destruct (decide (0 < y)) as [Hp|Hp].
  - pose (o := {| so_tokenIndex := Z.of_nat i; so_tokenSeed := y |}).
    assert (Ho : o ∈ overrides_of seeds).
    { apply elem_of_overrides_of. unfold o. cbn. rewrite Nat2Z.id. split_and!; [lia|done|done]. }
    pose proof (insert_seeds_in (count seeds) _ (replicate (length seeds) 0) o Hok) as Hin.
    rewrite length_replicate, Nat2Z.id in Hin. specialize (Hin eq_refl Ho). unfold o in Hin. cbn in Hin.
    rewrite Nat2Z.id in Hin. congruence.
  - rewrite insert_seeds_out in Hx.
    + apply lookup_replicate_1 in Hx as [-> _]. specialize (Hr _ _ Hy). lia.
    + intros o (H1 & H2 & H3)%elem_of_overrides_of Heq. rewrite Heq in H3. assert (so_tokenSeed o = y) by congruence. lia.
Qed.

(** ** One member *)

Definition override_pb (o : TokenSeedOverride) : TokenSeedOverridePb :=
  {| sop_token_index := so_tokenIndex o; sop_token_seed := so_tokenSeed o |}.

(** Override fields are [uint32_t] values. *)
Definition overrides_u32 (m : Member) : Prop :=
  forall o, o ∈ m_tokenSeedOverrides m -> is_u32 (so_tokenIndex o).

Lemma encode_overrides_iff tpm os seeds previous pbs st :
  (forall o, o ∈ os -> 0 <= so_tokenIndex o) ->
  foldM (encode_override tpm) (seeds, previous, pbs) os = Ok st <->
  overrides_ok tpm os /\ (forall p o, previous = Some p -> o ∈ os -> p < so_tokenIndex o) /\
  st = (foldl insert_seed seeds os, match last os with Some o => Some (so_tokenIndex o) | None => previous end,
        pbs ++ (override_pb <$> os)).
Proof.
  revert seeds previous pbs. induction os as [|o os IH]; intros seeds previous pbs Hpos.
  { cbn. rewrite app_nil_r. split; [intros [= <-]|by intros (_ & _ & ->)].
    split_and!; [|by intros ??? ?%not_elem_of_nil|done]. split; [no_elem|constructor]. }
  cbn [foldM]. rewrite bind_Ok.
  rewrite overrides_ok_cons.
  assert (Hlast : forall d : option Z, match last (o :: os) with Some o => Some (so_tokenIndex o) | None => d end
            = match last os with Some o => Some (so_tokenIndex o) | None => Some (so_tokenIndex o) end).
  { intros d. rewrite last_cons. by destruct (last os). }
  rewrite Hlast. unfold encode_override. setoid_rewrite bind_Ok. setoid_rewrite check_Ok. split.
  - intros ([[seeds1 prev1] pbs1] & (u & Hc & [= <- <- <-]) & IHst).
    apply IH in IHst as (H1 & H2 & ->); [|intros; apply Hpos; by right].
    specialize (Hpos o ltac:(left)). rewrite !andb_true_iff in Hc. destruct Hc as (((? & ?) & ?) & Hp).
    assert (Hmin : forall p o', previous = Some p -> o' ∈ o :: os -> p < so_tokenIndex o').
    { intros p o' -> [->|Ho']%elem_of_cons; [lia|]. specialize (H2 _ o' eq_refl Ho'). lia. }
    split_and!; [lia..|done|intros; by apply H2|done|]. cbn. by rewrite <-app_assoc.
  - intros (((? & ?) & Hok & Hlt) & Hp & ->). eexists (_, _, _). split.
    + exists tt. split; [|reflexivity]. rewrite !andb_true_iff. split_and!; [lia..|].
      destruct previous as [p|]; [|done]. specialize (Hp p o eq_refl ltac:(left)). lia.
    + apply IH; [intros; apply Hpos; by right|]. split_and!; [done|by intros p o' [= <-] Ho'; apply Hlt|].
      cbn. by rewrite <-app_assoc.
Qed.

Lemma decode_overrides_ok tpm os seeds : overrides_ok tpm os ->
  (forall o, o ∈ os -> seeds !! Z.to_nat (so_tokenIndex o) = Some 0) ->
  foldM (decode_override tpm) seeds (override_pb <$> os) = Ok (foldl insert_seed seeds os).
Proof.
  revert seeds. induction os as [|o os IH]; intros seeds Hok Hz; [done|].
  apply overrides_ok_cons in Hok as ((Hi & Hs) & Hok & Hlt). rewrite fmap_cons. cbn [foldM foldl].
  assert (decode_override tpm seeds (override_pb o) = Ok (insert_seed seeds o)) as ->.
  { unfold decode_override. cbn [override_pb sop_token_index sop_token_seed].
    rewrite (proj2 (check_Ok (_ && _) _ tt)) by (rewrite !andb_true_iff; lia). cbn [mbind res_bind].
    by rewrite bool_decide_true by (apply Hz; left). }
  cbn [mbind res_bind].
  apply IH; [done|]. intros o' Ho'. unfold insert_seed. rewrite list_lookup_insert_ne; [apply Hz; by right|].
  specialize (Hlt o' Ho'). lia.
Qed.

(** What the encoder requires of one member. *)
Definition member_encodable (tpm : Z) (m : Member) : Prop :=
  if decide (m_state m = INITIAL) then m_tokens m = [] /\ m_tokenSeedOverrides m = []
  else count (m_tokens m) = tpm /\ overrides_ok tpm (m_tokenSeedOverrides m) /\
       m_tokens m = MakeTokens (m_address m)
         (foldl insert_seed (replicate (Z.to_nat tpm) 0) (m_tokenSeedOverrides m)).

Definition member_pb (m : Member) : MembershipPb :=
  {| mp_id := m_id m; mp_state := state_number (m_state m);
     mp_token_seed_overrides := override_pb <$> m_tokenSeedOverrides m |}.

Lemma EncodeTokenSeedOverrides_iff m tpm pb :
  0 < tpm <= MAX_HASH_RING_TOKENS_PER_MEMBER -> overrides_u32 m ->
  EncodeTokenSeedOverrides m tpm
    {| mp_id := m_id m; mp_state := state_number (m_state m); mp_token_seed_overrides := [] |} = Ok pb <->
  member_encodable tpm m /\ pb = member_pb m.
Proof.
  intros Htpm Hu. unfold EncodeTokenSeedOverrides, member_encodable, member_pb. case_decide as Hst.
  - rewrite bind_Ok. setoid_rewrite check_Ok. setoid_rewrite andb_true_iff. split.
    + intros (_ & [H1 H2] & [= <-]). by destruct (m_tokens m), (m_tokenSeedOverrides m).
    + intros [[-> ->] ->]. by exists tt.
  - rewrite (proj2 (check_Ok (_ && _) _ tt)) by (rewrite andb_true_iff; lia). cbn [mbind res_bind]. rewrite bind_Ok.
    setoid_rewrite check_Ok. cbn [mp_id mp_state mp_token_seed_overrides].
    assert (Hpos : forall o, o ∈ m_tokenSeedOverrides m -> 0 <= so_tokenIndex o) by (intros o Ho%Hu; apply Ho).
    split.
    + intros (_ & Hc & Hok). apply bind_Ok in Hok as (st & Hst' & Hok).
      apply encode_overrides_iff in Hst' as (Ho & _ & ->); [|done].
      apply bind_Ok in Hok as ([] & Ht%check_Ok%bool_decide_eq_true & [= <-]). split; [|done]. split_and!; [lia|done|done].
    + intros [(Hc & Ho & Ht) ->]. exists tt. split; [lia|]. apply bind_Ok. eexists. split.
      { apply encode_overrides_iff; [done|]. split_and!; [done|done|reflexivity]. }
      cbn [fst snd]. rewrite bool_decide_true by done. done.
Qed.

Lemma state_number_of s : state_of_number (state_number s) = s.
Proof. by destruct s. Qed.

Lemma DecodeTokens_member tpm m : member_encodable tpm m ->
  DecodeTokens (member_pb m) tpm
    {| m_identity := m_identity m; m_state := m_state m; m_tokens := []; m_tokenSeedOverrides := [] |} = Ok m.
Proof.
  unfold member_encodable, DecodeTokens. cbn [m_state m_identity member_pb mp_token_seed_overrides]. case_decide as Hst.
  - intros [H1 H2]. rewrite H2. destruct m as [i s t o]. cbn in *. by subst.
  - intros (Hc & Ho & Ht). rewrite decode_overrides_ok; [|done|].
    + cbn [mbind res_bind]. rewrite (overrides_of_seeds tpm) by done. rewrite <-Ht. by destruct m.
    + intros o Hin. apply lookup_replicate_2. destruct (oo_range _ _ Ho o Hin). lia.
Qed.

Lemma member_encodable_count tpm m : member_encodable tpm m ->
  count (m_tokens m) = if decide (m_state m = INITIAL) then 0 else tpm.
Proof. unfold member_encodable. case_decide; [by intros [-> _]|by intros [? _]]. Qed.

(** ** The member loops *)

Definition token_total (ms : list Member) : Z := foldr (fun m n => count (m_tokens m) + n) 0 ms.

Lemma token_total_app ms ms' : token_total (ms ++ ms') = token_total ms + token_total ms'.
Proof. induction ms as [|m ms IH]; cbn [token_total foldr app] in *; [done|]. unfold token_total in *. lia. Qed.

Lemma token_total_nonneg ms : 0 <= token_total ms.
Proof. induction ms as [|m ms IH]; cbn; [done|]. unfold token_total in IH. lia. Qed.

#[global] Instance token_total_perm : Proper ((≡ₚ) ==> eq) token_total.
Proof. induction 1; unfold token_total in *; cbn [foldr]; lia. Qed.

Definition entry_of (m : Member) : string * MembershipPb := (m_address m, member_pb m).

Definition all_encodable (tpm : Z) (ms : list Member) : Prop := forall m, m ∈ ms -> member_encodable tpm m.

Lemma encode_members_iff tpm ms st :
  0 < tpm <= MAX_HASH_RING_TOKENS_PER_MEMBER -> (forall m, m ∈ ms -> overrides_u32 m) ->
  NoDup ((fun m => m_address m) <$> ms) ->
  foldM (encode_member tpm) (0, ∅) ms = Ok st <->
  all_encodable tpm ms /\ token_total ms <= MAX_TOPOLOGY_TOKENS /\
  st = (token_total ms, list_to_map (entry_of <$> ms)).
Proof.
  intros Htpm. revert st. induction ms as [|m ms IH] using rev_ind; intros st Hu Hnd.
  { cbn. split; [intros [= <-]|by intros (_ & _ & ->)]. split_and!; [no_elem|done|done]. }
  rewrite fmap_app in Hnd. apply NoDup_app in Hnd as (Hnd & Hdisj & _).
  assert (Hm : m_address m ∉ (fun m => m_address m) <$> ms) by (intros Hin; apply (Hdisj _ Hin); left).
  assert (Hfresh : (list_to_map (entry_of <$> ms) : gmap string MembershipPb) !! m_address m = None).
  { apply not_elem_of_list_to_map. by rewrite <-list_fmap_compose. }
  assert (Hmap : (list_to_map (entry_of <$> (ms ++ [m])) : gmap string MembershipPb)
            = <[m_address m := member_pb m]> (list_to_map (entry_of <$> ms))).
  { rewrite fmap_app, list_to_map_app. symmetry. by apply insert_union_singleton_r. }
  rewrite foldM_app, bind_Ok, Hmap, token_total_app. setoid_rewrite IH; [|intros; apply Hu, elem_of_app; by left|done].
  cbn [foldM]. unfold encode_member. cbn [fst snd].
  assert (Hum : overrides_u32 m) by (apply Hu, elem_of_app; right; left).
  pose proof (token_total_nonneg [m]) as Hn. cbn [token_total foldr] in Hn |- *. rewrite Z.add_0_r in *. split.
  - intros (st1 & (H1 & H2 & ->) & Hok). apply bind_Ok in Hok as (st2 & Hok & [= <-]).
    apply bind_Ok in Hok as ([] & Hc%check_Ok & Hok). cbn [fst snd] in *. rewrite Hfresh in Hok. cbn in Hok.
    apply bind_Ok in Hok as (pb & [Henc ->]%EncodeTokenSeedOverrides_iff & [= <-]); [|done|done].
    split_and!; [|lia|done]. intros m' [?| ->]%elem_of_snoc; auto.
  - intros (H1 & H2 & ->). eexists. split.
    { split_and!; [|pose proof (token_total_nonneg ms); lia|reflexivity]. intros m' Hm'. apply H1, elem_of_app. by left. }
    cbn [fst snd]. rewrite (proj2 (check_Ok _ _ tt)) by lia. cbn [mbind res_bind]. rewrite Hfresh. cbn [default].
    cbn [default_MembershipPb mp_token_seed_overrides].
    rewrite (proj2 (EncodeTokenSeedOverrides_iff m tpm (member_pb m) Htpm Hum)); [done|].
    split; [apply H1, elem_of_app; right; left|done].
Qed.

Lemma decode_members_ok tpm ms n acc : all_encodable tpm ms -> n + token_total ms <= MAX_TOPOLOGY_TOKENS ->
  foldM (decode_member tpm) (n, acc) (entry_of <$> ms) = Ok (n + token_total ms, acc ++ ms).
Proof.
  revert n acc. induction ms as [|m ms IH]; intros n acc Henc Hn; rewrite ?fmap_cons.
  { cbn. by rewrite Z.add_0_r, app_nil_r. }
  pose proof (token_total_nonneg ms). cbn [token_total foldr] in Hn. fold (token_total ms) in Hn. cbn [foldM].
  assert (decode_member tpm (n, acc) (entry_of m) = Ok (n + count (m_tokens m), acc ++ [m])) as ->.
  { unfold decode_member, entry_of. cbn [member_pb mp_id mp_state]. rewrite state_number_of.
    replace {| mi_id := m_id m; mi_address := m_address m |} with (m_identity m) by (by destruct (m_identity m)).
    rewrite (DecodeTokens_member tpm m) by (apply Henc; left). cbn [mbind res_bind fst snd].
    by rewrite (proj2 (check_Ok _ _ tt)) by lia. }
  cbn [mbind res_bind]. rewrite IH; [|intros ??; apply Henc; by right|lia].
  cbn [token_total foldr]. fold (token_total ms). by rewrite Z.add_assoc, <-app_assoc.
Qed.

Lemma count_token_members_ok tpm ms n : 0 < tpm -> all_encodable tpm ms ->
  exists k, foldM count_token_members n (entry_of <$> ms) = Ok (n + k) /\ k * tpm = token_total ms.
Proof.
  intros Htpm. revert n. induction ms as [|m ms IH]; intros n Henc; rewrite ?fmap_cons.
  { exists 0. cbn. by rewrite Z.add_0_r. }
  cbn [foldM].
  assert (count_token_members n (entry_of m) = Ok (if decide (m_state m = INITIAL) then n else n + 1)) as ->.
  { unfold count_token_members, entry_of. cbn [snd member_pb mp_state]. by destruct (m_state m). }
  cbn [mbind res_bind token_total foldr]. fold (token_total ms).
  pose proof (member_encodable_count tpm m (Henc m ltac:(left))) as Hc. rewrite Hc.
  destruct (IH (if decide (m_state m = INITIAL) then n else n + 1)) as (k & -> & Hk); [intros ??; apply Henc; by right|].
  case_decide; [exists k|exists (k + 1)]; split; [done|lia|f_equal; lia|lia].
Qed.

(** ** Whole topologies *)

Section topology_laws.
Context `{RE2} `{Protobuf ClusterTopologyPb} `{MapIteration}.

Definition batch_pb (b : ActiveBatch) : ChangeBatchPb :=
  {| cbp_type := match ab_type b with SCALE_OUT => 0 | SCALE_IN => 1 | FAILURE => 2 end; cbp_epoch := ab_epoch b |}.

Definition topology_pb (st : TopologyState) : ClusterTopologyPb :=
  {| ctp_cluster_has_init := ts_clusterHasInit st; ctp_members := list_to_map (entry_of <$> ts_members st);
     ctp_version := ts_version st; ctp_schema_version := SCHEMA_VERSION;
     ctp_active_batch := batch_pb <$> ts_activeBatch st; ctp_tokens_per_member := ts_tokensPerMember st |}.

(** What the encoder accepts, up to the size of the encoded value. *)
Record encodable (st : TopologyState) : Prop := {
  en_persistable : persistable st;
  en_members : all_encodable (ts_tokensPerMember st) (ts_members st);
  en_tokens : token_total (ts_members st) <= MAX_TOPOLOGY_TOKENS
}.

Definition state_u32 (st : TopologyState) : Prop := forall m, m ∈ ts_members st -> overrides_u32 m.

Lemma sort_members_elem st m : m ∈ ts_members (sort_members st) <-> m ∈ ts_members st.
Proof. apply elem_of_sort_on. Qed.

Lemma EncodeTopology_iff st v : state_u32 st ->
  EncodeTopology st = Ok v <-> encodable st /\ SerializeCanonical (topology_pb (sort_members st)) = Ok v.
Proof.
  intros Hu. unfold EncodeTopology. rewrite bind_Ok. setoid_rewrite canonicalize_iff.
  assert (Hperm : ts_members (sort_members st) ≡ₚ ts_members st) by apply sort_on_perm.
  assert (Hb : match ts_activeBatch st with
            | Some b => typePb ← ToPbType (ab_type b); Ok (Some {| cbp_type := typePb; cbp_epoch := ab_epoch b |})
            | None => Ok None end = Ok (batch_pb <$> ts_activeBatch st)).
  { destruct (ts_activeBatch st) as [[[] e]|]; done. }
  assert (Hu' : forall m, m ∈ ts_members (sort_members st) -> overrides_u32 m) by (intros m Hm; by apply Hu, sort_members_elem).
  assert (Hl : persistable st -> forall x, foldM (encode_member (ts_tokensPerMember st)) (0, ∅) (ts_members (sort_members st)) = Ok x
     <-> all_encodable (ts_tokensPerMember st) (ts_members st) /\ token_total (ts_members st) <= MAX_TOPOLOGY_TOKENS /\
         x = (token_total (ts_members st), list_to_map (entry_of <$> ts_members (sort_members st)))).
  { intros Hp x. pose proof (persistable_sort st Hp) as Hp'.
    rewrite encode_members_iff; [|apply Hp|done|apply (mv_addresses _ (ps_members _ Hp'))].
    unfold all_encodable. setoid_rewrite sort_members_elem. by rewrite (token_total_perm _ _ Hperm). }
  split.
  - intros (st' & [Hp ->] & Hok). apply bind_Ok in Hok as ([] & _ & Hok).
    apply bind_Ok in Hok as (x & (He & Ht & ->)%Hl & Hok); [|done]. split; [by split|].
    change (ts_activeBatch (sort_members st)) with (ts_activeBatch st) in Hok. by rewrite Hb in Hok.
  - intros [[Hp He Ht] Hs]. exists (sort_members st). split; [done|].
    rewrite (proj2 (check_Ok (_ && _) _ tt)) by (rewrite andb_true_iff; pose proof (ps_tpm _ Hp); cbn; lia).
    cbn [mbind res_bind]. change (ts_tokensPerMember (sort_members st)) with (ts_tokensPerMember st).
    rewrite (proj2 (Hl Hp (token_total (ts_members st), list_to_map (entry_of <$> ts_members (sort_members st))))) by done.
    cbn [mbind res_bind]. change (ts_activeBatch (sort_members st)) with (ts_activeBatch st). by rewrite Hb.
Qed.

Lemma SerializeCanonical_Ok {M} `{Protobuf M} (m : M) v :
  SerializeCanonical m = Ok v <-> SerializeToCodedStream m = Some v /\ size v <= MAX_VALUE_BYTES.
Proof.
  unfold SerializeCanonical. destruct (SerializeToCodedStream m) as [e|]; [|naive_solver].
  rewrite bind_Ok. setoid_rewrite check_Ok. split.
  - intros (_ & Hs & [= <-]). split; [done|lia].
  - intros [[= ->] Hs]. exists tt. split; [lia|done].
Qed.

Lemma topology_pb_typed st : encodable st -> typed (topology_pb (sort_members st)).
Proof.
  intros [Hp He Ht]. pose proof (ps_version _ Hp) as Hv. pose proof (ps_tpm _ Hp) as Htpm.
  unfold MAX_HASH_RING_TOKENS_PER_MEMBER, INT64_MAX in *.
  split_and!.
  - intros a pb (m & [= -> ->] & Hm)%elem_of_list_to_map_2%list_elem_of_fmap.
    rewrite sort_members_elem in Hm.
    split; [unfold is_i32; cbn; destruct (m_state m); cbn; lia|]. apply Forall_fmap, Forall_forall. intros o Ho. cbn.
    specialize (He m Hm). unfold member_encodable in He. case_decide.
    + destruct He as [_ He]. rewrite He in Ho. by apply not_elem_of_nil in Ho.
    + destruct (oo_range _ _ (proj1 (proj2 He)) o Ho) as [? ?]. unfold is_u32, MAX_HASH_RING_TOKEN_SEEDS in *. lia.
  - unfold is_u64. cbn. lia.
  - intros b (b' & Hb & ->)%fmap_Some. pose proof (ps_epoch _ Hp b' Hb). split; [|unfold is_u64; cbn; lia].
    unfold is_i32. cbn. destruct (ab_type b'); lia.
  - unfold is_u32. cbn. lia.
Qed.

Lemma topology_pb_representable st : encodable st -> (forall m, m ∈ ts_members st -> ascii_text (m_address m) = true) ->
  representable (topology_pb (sort_members st)).
Proof.
  intros He Ha. destruct (topology_pb_typed st He) as (Hm & Hv & Hb & Ht). split_and!; try done.
  intros a pb Hpb. split; [|by apply (Hm a)].
  apply elem_of_list_to_map_2, list_elem_of_fmap in Hpb as (m & [= -> ->] & Hin). apply Ha. by apply sort_members_elem.
Qed.

Context `{!MapIterationLaws}.

Lemma iterate_topology_pb st : encodable st ->
  exists ms, ms ≡ₚ ts_members st /\ iterate (ctp_members (topology_pb (sort_members st))) = entry_of <$> ms.
Proof.
  intros [Hp _ _]. pose proof (mv_addresses _ (ps_members _ (persistable_sort _ Hp))) as Hnd.
  destruct (Permutation_map_inv entry_of (l1 := iterate (ctp_members (topology_pb (sort_members st))))
    (ts_members (sort_members st))) as (ms & Hms & Hperm).
  - rewrite iterate_perm. apply map_to_list_to_map. by rewrite <-list_fmap_compose.
  - exists ms. split; [|done]. rewrite <-Hperm. apply sort_on_perm.
Qed.

Lemma DecodeTopology_pb st v : encodable st -> size v <= MAX_VALUE_BYTES ->
  ParseFromString v = Some (topology_pb (sort_members st)) ->
  DecodeTopology v =
    if count (ts_members st) <=? MAX_TOPOLOGY_MEMBERS then Ok (sort_members st) else Err K_INVALID.
Proof.
  intros Henc Hsz Hparse.
  destruct (iterate_topology_pb st Henc) as (ms & Hperm & Hit). destruct Henc as [Hp He Ht].
  pose proof (ps_tpm _ Hp) as Htpm. unfold DecodeTopology. rewrite (proj2 (check_Ok _ _ tt)) by lia.
  cbn [mbind res_bind]. rewrite Hparse. rewrite bool_decide_true by done. cbn [check mbind res_bind].
  rewrite Hit, length_fmap, (Permutation_length Hperm).
  destruct (count (ts_members st) <=? MAX_TOPOLOGY_MEMBERS); [|done]. cbn [check mbind res_bind].
  rewrite (proj2 (check_Ok (_ && _) _ tt)) by (rewrite andb_true_iff; cbn; lia). cbn [mbind res_bind].
  change (ctp_tokens_per_member (topology_pb (sort_members st))) with (ts_tokensPerMember st).
  assert (Hems : all_encodable (ts_tokensPerMember st) ms) by (intros m Hm; apply He; by rewrite <-Hperm).
  assert (Htms : token_total ms <= MAX_TOPOLOGY_TOKENS) by (by rewrite (token_total_perm _ _ Hperm)).
  destruct (count_token_members_ok (ts_tokensPerMember st) ms 0 ltac:(lia) Hems) as (k & -> & Hk). cbn [mbind res_bind].
  rewrite (proj2 (check_Ok _ _ tt)) by (apply Z.leb_le, Z.div_le_lower_bound; lia). cbn [mbind res_bind].
  rewrite (decode_members_ok _ ms 0 []) by (done || lia). cbn [mbind res_bind snd app].
  assert (match ctp_active_batch (topology_pb (sort_members st)) with
          | Some b => type ← FromPbType (cbp_type b); Ok (Some {| ab_type := type; ab_epoch := cbp_epoch b |})
          | None => Ok None end = Ok (ts_activeBatch st)) as ->.
  { cbn. destruct (ts_activeBatch st) as [[[] e]|]; done. }
  cbn [mbind res_bind]. change (ValidateAndCanonicalizeTopologyState (set_members ms st) = Ok (sort_members st)).
  apply canonicalize_iff. split; [by apply persistable_perm|]. by rewrite sort_members_perm.
Qed.

Lemma topology_roundtrip_lemma `{!ProtobufLaws ClusterTopologyPb} st v : state_u32 st ->
  (forall m, m ∈ ts_members st -> ascii_text (m_address m) = true) -> EncodeTopology st = Ok v ->
  DecodeTopology v =
    if count (ts_members st) <=? MAX_TOPOLOGY_MEMBERS then Ok (sort_members st) else Err K_INVALID.
Proof.
  intros Hu Ha [Henc [Hs Hsz]%SerializeCanonical_Ok]%EncodeTopology_iff; [|done]. apply DecodeTopology_pb; [done..|].
  by apply parse_serialize; [apply topology_pb_representable|].
Qed.

(** Whatever its addresses are, an encoded topology decodes to itself or not at all. *)
Lemma DecodeTopology_exact `{!ExactParse ClusterTopologyPb} st v o : state_u32 st -> EncodeTopology st = Ok v ->
  DecodeTopology v = Ok o -> o = sort_members st.
Proof.
  intros Hu [Henc [Hs Hsz]%SerializeCanonical_Ok]%EncodeTopology_iff Ho; [|done].
  destruct (ParseFromString v) as [m|] eqn:Ep.
  - rewrite (parse_exact _ _ _ (topology_pb_typed st Henc) Hs Ep) in Ep.
    rewrite (DecodeTopology_pb st v Henc Hsz Ep) in Ho. case_match; congruence.
  - unfold DecodeTopology in Ho. rewrite (proj2 (check_Ok _ _ tt)) in Ho by lia. cbn [mbind res_bind] in Ho. by rewrite Ep in Ho.
Qed.
End topology_laws.

(** ** Tasks *)

Definition range_before (a b : TopologyTaskRange) : Prop := tr_end (tk_range a) < tr_from (tk_range b).

Record task_ranges_ok (executor : string) (ranges : list TopologyTaskRange) : Prop := {
  ro_each r : r ∈ ranges -> tk_ownerAddress r = executor /\ tr_from (tk_range r) <= tr_end (tk_range r);
  ro_sorted : StronglySorted range_before ranges
}.

Lemma canonical_ranges_from_iff previous ranges executor :
  canonical_ranges_from previous ranges executor = true <->
  task_ranges_ok executor ranges /\ (forall p r, previous = Some p -> r ∈ ranges -> range_before p r).
Proof.
  revert previous. induction ranges as [|r ranges IH]; intros previous; cbn [canonical_ranges_from].
  { split; [|done]. intros _. split; [|by intros ??? ?%not_elem_of_nil].
    split; [no_elem|constructor]. }
  destruct (negb _ || _) eqn:E1.
  { split; [done|]. intros [[H1 _] _]. destruct (H1 r ltac:(left)) as [Ho Hr].
    rewrite bool_decide_true in E1 by done. cbn in E1. lia. }
  apply orb_false_iff in E1 as [Ho%negb_false_iff%bool_decide_eq_true Hr].
  assert (Hrest : task_ranges_ok executor (r :: ranges) <->
            task_ranges_ok executor ranges /\ (forall r', r' ∈ ranges -> range_before r r')).
  { split.
    - intros [H1 H2]. inversion_clear H2 as [|?? H3 H4]. rewrite Forall_forall in H4. split; [|done].
      split; [|done]. intros; apply H1; by right.
    - intros [[H1 H2] H3]. split; [|constructor; [done|by apply Forall_forall]].
      intros r' [->|Hr']%elem_of_cons; [split; [done|lia]|auto]. }
  rewrite Hrest. destruct (match previous with Some p => _ | None => _ end) eqn:E2.
  { destruct previous as [p|]; [|done]. split; [done|]. intros [_ Hp].
    specialize (Hp p r eq_refl ltac:(left)). unfold range_before in Hp. lia. }
  rewrite IH. split.
  - intros [Hok Hlt]. split; [split; [done|intros; by apply Hlt]|]. intros p r' -> Hr'.
    destruct (decide (r' = r)) as [->|Hne]; [unfold range_before; lia|].
    apply elem_of_cons in Hr' as [->|Hr']; [done|]. pose proof (Hlt r r' eq_refl Hr'). unfold range_before in *. lia.
  - intros [[Hok Hlt] _]. split; [done|]. by intros p r' [= <-] Hr'; apply Hlt.
Qed.

Lemma IsCanonicalRanges_iff ranges executor : IsCanonicalRanges ranges executor = true <->
  ranges <> [] /\ (length ranges <= MAX_TOPOLOGY_TASK_RANGES)%nat /\ executor <> EmptyString /\
  task_ranges_ok executor ranges.
Proof.
  unfold IsCanonicalRanges. generalize MAX_TOPOLOGY_TASK_RANGES. intros max.
  destruct (is_empty ranges || _ || _) eqn:E.
  - split; [done|]. intros (H1 & H2 & H3 & _). apply orb_true_iff in E as [E|E%bool_decide_eq_true]; [|done].
    apply orb_true_iff in E as [E|E]; [by destruct ranges|]. apply Nat.ltb_lt in E. lia.
  - apply orb_false_iff in E as [[E1 E2]%orb_false_iff E3%bool_decide_eq_false].
    rewrite canonical_ranges_from_iff. apply Nat.ltb_ge in E2. split; [|naive_solver].
    intros [Hok _]. split_and!; [by destruct ranges|done..].
Qed.

Lemma DecodeRanges_encode ranges executor : IsCanonicalRanges ranges executor = true ->
  DecodeRanges (EncodeRanges ranges) = Ok (ranges, executor).
Proof.
  intros Hc. pose proof Hc as (Hne & Hlen & _ & Hok)%IsCanonicalRanges_iff. unfold DecodeRanges, EncodeRanges.
  revert Hc Hlen. generalize MAX_TOPOLOGY_TASK_RANGES. intros max Hc Hlen.
  rewrite length_fmap, <-list_fmap_compose. unfold compose. cbn [rp_owner_address rp_from rp_end rp_finished].
  rewrite (list_fmap_ext _ (fun r => r)) by (intros _ [? [] ?] _; done). rewrite list_fmap_id.
  rewrite (proj2 (check_Ok (_ && _) _ tt)).
  2:{ apply andb_true_iff. split; [by destruct ranges|by apply Nat.leb_le]. }
  destruct ranges as [|r ranges]; [done|]. cbn [mbind res_bind].
  destruct (ro_each _ _ Hok r ltac:(left)) as [-> _]. by rewrite Hc.
Qed.

Section task_laws.
Context `{RE2} `{Protobuf MigrateTaskPb} `{Protobuf DeleteNodeTaskPb}.
Context `{!ProtobufLaws MigrateTaskPb} `{!ProtobufLaws DeleteNodeTaskPb}.

(** Text fields are ASCII and tokens are [uint32_t] values. *)
Definition ranges_representable (ranges : list TopologyTaskRange) : Prop :=
  forall r, r ∈ ranges -> ascii_text (tk_ownerAddress r) = true /\ is_u32 (tr_from (tk_range r)) /\ is_u32 (tr_end (tk_range r)).

Lemma EncodeRanges_representable ranges : ranges_representable ranges -> Forall representable (EncodeRanges ranges).
Proof. intros Hr. apply Forall_fmap, Forall_forall. intros r Hin. by apply Hr. Qed.

Lemma ValidateMemberAddress_nonempty a u : ValidateMemberAddress a = Ok u -> a <> EmptyString.
Proof.
  unfold ValidateMemberAddress, NotifyKey, KeyHelper.ValidateAddress. case_bool_decide; [done|]. done.
Qed.

Lemma migrate_task_roundtrip task v : ascii_text (mt_targetAddress task) = true ->
  ranges_representable (mt_sourceRanges task) -> EncodeMigrateTask task = Ok v ->
  DecodeMigrateTask (mt_taskId task) (mt_type task) (mt_epoch task) v = Ok task.
Proof.
  intros Ha Hr. unfold EncodeMigrateTask, DecodeMigrateTask.
  intros ([] & -> & Hok)%bind_Ok. apply bind_Ok in Hok as ([] & Htgt & Hok). apply bind_Ok in Hok as ([] & _ & Hok).
  apply bind_Ok in Hok as ([] & [He Hc]%check_Ok%andb_true_iff & [Hs Hsz]%SerializeCanonical_Ok).
  cbn [mbind res_bind]. rewrite (proj2 (check_Ok (_ && _) _ tt)) by (rewrite andb_true_iff; lia). cbn [mbind res_bind].
  rewrite (parse_serialize _ _ (conj Ha (EncodeRanges_representable _ Hr)) Hs). cbn [mtp_target_address mtp_source_ranges].
  rewrite bool_decide_false by (by eapply ValidateMemberAddress_nonempty). cbn [negb check mbind res_bind].
  rewrite Htgt. cbn [mbind res_bind]. rewrite (DecodeRanges_encode _ _ Hc). by destruct task.
Qed.

Lemma delete_task_roundtrip task v : ascii_text (dt_failedAddress task) = true ->
  ranges_representable (dt_recoveryRanges task) -> EncodeDeleteTask task = Ok v ->
  DecodeDeleteTask (dt_taskId task) (dt_epoch task) v = Ok task.
Proof.
  intros Ha Hr. unfold EncodeDeleteTask, DecodeDeleteTask.
  intros ([] & -> & Hok)%bind_Ok. apply bind_Ok in Hok as ([] & Htgt & Hok). apply bind_Ok in Hok as ([] & _ & Hok).
  apply bind_Ok in Hok as ([] & [He Hc]%check_Ok%andb_true_iff & [Hs Hsz]%SerializeCanonical_Ok).
  cbn [mbind res_bind]. rewrite (proj2 (check_Ok (_ && _) _ tt)) by (rewrite andb_true_iff; lia). cbn [mbind res_bind].
  rewrite (parse_serialize _ _ (conj Ha (EncodeRanges_representable _ Hr)) Hs). cbn [dtp_failed_address dtp_recovery_ranges].
  rewrite bool_decide_false by (by eapply ValidateMemberAddress_nonempty). cbn [negb check mbind res_bind].
  rewrite Htgt. cbn [mbind res_bind]. rewrite (DecodeRanges_encode _ _ Hc). by destruct task.
Qed.
End task_laws.

(** ** Notify *)

Definition restart_map (facts : list (string * Z)) : gmap string Z :=
  foldl (fun m fact => <[fact.1 := fact.2]> m) ∅ facts.

Lemma om_sorted_keys {V} (l : list (string * V)) : om_sorted l -> NoDup l.*1.
Proof.
  induction l as [|kv l IH]; [constructor|]. intros [Hs Hlt]%om_sorted_cons. rewrite fmap_cons. constructor; [|auto].
  intros (kv' & Heq & Hin)%list_elem_of_fmap. specialize (Hlt kv' Hin). rewrite <-Heq in Hlt. by apply ltk_ne in Hlt.
Qed.

Lemma om_sorted_unique {V} (l l' : list (string * V)) : om_sorted l -> om_sorted l' -> l ≡ₚ l' -> l = l'.
Proof.
  intros Hs Hs' Hp. apply (sorted_unique fst); [by apply om_sorted_keys| | |done];
    (eapply StronglySorted_impl; [|eassumption]); intros a b; apply ltk_asym.
Qed.

Lemma restart_map_perm facts : NoDup facts.*1 -> map_to_list (restart_map facts) ≡ₚ facts.
Proof.
  induction facts as [|f facts IH] using rev_ind; intros Hnd; [done|].
  rewrite fmap_app in Hnd. apply NoDup_app in Hnd as (Hnd & Hd & _). specialize (IH Hnd).
  unfold restart_map. rewrite foldl_app. cbn [foldl]. fold (restart_map facts).
  rewrite map_to_list_insert.
  - rewrite IH, <-Permutation_cons_append. by destruct f.
  - apply eq_None_not_Some. intros [x Hx%elem_of_map_to_list]. rewrite IH in Hx.
    apply (Hd f.1); [by apply (list_elem_of_fmap_2 fst _ (f.1, x))|left].
Qed.

Lemma emplace_all (entries acc : list (string * Z)) : NoDup (acc ++ entries).*1 -> om_sorted acc ->
  om_sorted (foldl (fun m fact => om_emplace fact.1 fact.2 m) acc entries) /\
  foldl (fun m fact => om_emplace fact.1 fact.2 m) acc entries ≡ₚ acc ++ entries.
Proof.
  revert acc. induction entries as [|e entries IH]; intros acc Hnd Hs; cbn [foldl].
  { by rewrite app_nil_r. }
  assert (Hnew : om_find e.1 acc = None).
  { apply om_find_None. intros v Hv. rewrite fmap_app in Hnd. apply NoDup_app in Hnd as (_ & Hd & _).
    apply (Hd e.1); [by apply (list_elem_of_fmap_2 fst _ (e.1, v))|left]. }
  assert (Hperm : om_insert e.1 e.2 acc ≡ₚ acc ++ [e]).
  { apply NoDup_Permutation.
    - eapply NoDup_fmap_1, om_sorted_keys, om_insert_sorted, Hs.
    - replace (acc ++ e :: entries) with ((acc ++ [e]) ++ entries) in Hnd by (by rewrite <-app_assoc).
      rewrite fmap_app in Hnd. apply NoDup_app in Hnd as [Hnd _]. by eapply NoDup_fmap_1.
    - intros kv. rewrite om_insert_elem by done. rewrite elem_of_snoc. destruct e as [k v]. cbn in *. split.
      + intros [->|[? _]]; auto.
      + intros [Hin| ->]; [|by left]. right. split; [done|]. intros Heq.
        rewrite om_find_None in Hnew. apply (Hnew kv.2). subst. by destruct kv. }
  unfold om_emplace at 2 4. rewrite Hnew. destruct (IH (om_insert e.1 e.2 acc)) as [H1 H2].
  - rewrite Hperm, <-app_assoc. done.
  - by apply om_insert_sorted.
  - split; [done|]. rewrite H2, Hperm, <-app_assoc. done.
Qed.

Section notify_laws.
Context `{RE2} `{Protobuf TaskNotifyPb} `{MapIteration} `{!MapIterationLaws}.

Lemma decode_restarts facts : om_sorted facts ->
  foldl (fun m fact => om_emplace fact.1 fact.2 m) [] (iterate (restart_map facts)) = facts.
Proof.
  intros Hs. pose proof (om_sorted_keys facts Hs) as Hnd.
  assert (Hp : iterate (restart_map facts) ≡ₚ facts) by (by rewrite iterate_perm, restart_map_perm).
  destruct (emplace_all (iterate (restart_map facts)) []) as [Hs' Hp']; [by rewrite Hp|constructor|].
  apply om_sorted_unique; [done|done|]. by rewrite Hp'.
Qed.

(** The checks of [EncodeNotify] as one predicate. *)
Definition task_prefix (b : option ActiveBatch) : string :=
  match b with Some b => if decide (ab_type b = FAILURE) then "d-e" else "m-e" | None => "m-e" end.

Record notify_ok (n : TopologyTaskNotify) : Prop := {
  no_sorted : is_sorted (tn_taskIds n) = true /\ no_adjacent (tn_taskIds n) = true;
  no_count : count (tn_taskIds n) <= MAX_NOTIFY_TASK_REFS;
  no_batch : is_Some (tn_activeBatch n) \/ tn_taskIds n = [];
  no_restarts : ValidateRestartFacts (tn_restartTimestampsByAddress n) = Ok tt;
  no_epoch b : tn_activeBatch n = Some b -> 0 < ab_epoch b;
  no_ids id : id ∈ tn_taskIds n -> IsValidTaskId id = true /\ String.prefix (task_prefix (tn_activeBatch n)) id = true
}.

Definition notify_pb (n : TopologyTaskNotify) : TaskNotifyPb :=
  {| tnp_active_batch := batch_pb <$> tn_activeBatch n; tnp_task_ids := tn_taskIds n;
     tnp_restart_timestamps_by_address := restart_map (tn_restartTimestampsByAddress n) |}.

Lemma EncodeActiveBatch_iff b pb : EncodeActiveBatch b = Ok pb <-> 0 < ab_epoch b /\ pb = batch_pb b.
Proof.
  unfold EncodeActiveBatch, batch_pb. rewrite bind_Ok. setoid_rewrite check_Ok. split.
  - intros (_ & Hc & Hok). split; [lia|]. destruct (ab_type b); cbn in Hok; congruence.
  - intros [Hc ->]. exists tt. split; [lia|]. by destruct (ab_type b).
Qed.

Lemma batch_step_iff n (r : option ChangeBatchPb) :
  match tn_activeBatch n with Some b => pb ← EncodeActiveBatch b; Ok (Some pb) | None => Ok None end = Ok r <->
  (forall b, tn_activeBatch n = Some b -> 0 < ab_epoch b) /\ r = batch_pb <$> tn_activeBatch n.
Proof.
  destruct (tn_activeBatch n) as [b|].
  - rewrite bind_Ok. setoid_rewrite EncodeActiveBatch_iff. split.
    + intros (pb & (Hc & ->) & [= <-]). split; [by intros ? [= <-]|done].
    + intros [Hc ->]. exists (batch_pb b). split; [by split; [apply Hc|]|done].
  - split; [intros [= <-]; done|by intros [_ ->]].
Qed.

Lemma ids_loop_iff b ids acc r :
  foldM (fun out taskId => _ ← ValidateTaskId taskId; _ ← check (String.prefix (task_prefix b) taskId) K_INVALID;
           Ok (out ++ [taskId])) acc ids = Ok r <->
  (forall id, id ∈ ids -> IsValidTaskId id = true /\ String.prefix (task_prefix b) id = true) /\ r = acc ++ ids.
Proof.
  revert acc. induction ids as [|id ids IH]; intros acc; cbn [foldM].
  { rewrite app_nil_r. split; [intros [= <-]; split; [no_elem|done]|by intros [_ ->]]. }
  rewrite bind_Ok. setoid_rewrite IH. setoid_rewrite bind_Ok. unfold ValidateTaskId, TaskKey. split.
  - intros (acc' & ([] & Hid & Hok) & Hrest & ->). destruct (IsValidTaskId id) eqn:E; [|done].
    apply bind_Ok in Hok as ([] & Hc%check_Ok & [= <-]). split; [|by rewrite <-app_assoc].
    intros id' [->|?]%elem_of_cons; auto.
  - intros [Hall ->]. destruct (Hall id ltac:(left)) as [Hv Hp]. exists (acc ++ [id]). rewrite Hv. split.
    + exists tt. split; [done|]. by rewrite Hp.
    + split; [intros; apply Hall; by right|by rewrite <-app_assoc].
Qed.

Lemma EncodeNotify_iff n v : EncodeNotify n = Ok v <->
  notify_ok n /\ SerializeToCodedStream (notify_pb n) = Some v /\ size v <= MAX_VALUE_BYTES.
Proof.
  unfold EncodeNotify. split.
  - intros ([] & Hc%check_Ok & Hok)%bind_Ok. apply bind_Ok in Hok as ([] & Hb%check_Ok & Hok).
    apply bind_Ok in Hok as ([] & Hr & Hok). apply bind_Ok in Hok as (bpb & [He ->]%batch_step_iff & Hok).
    apply bind_Ok in Hok as (ids & [Hids ->]%ids_loop_iff & Hok).
    apply bind_Ok in Hok as (w & [Hs Hsz]%SerializeCanonical_Ok & Hok). apply bind_Ok in Hok as ([] & _ & [= <-]).
    split; [|done]. rewrite !andb_true_iff in Hc. destruct Hc as [[? ?] ?].
    split; [done|lia| |done|done|done].
    apply orb_true_iff in Hb as [Hb%bool_decide_eq_true|Hb]; [by left|right]. by destruct (tn_taskIds n).
  - intros ([[Hs Ha] Hc Hb Hr He Hids] & Hser & Hsz).
    rewrite (proj2 (check_Ok (_ && _) _ tt)) by (rewrite Hs, Ha; cbn; lia). cbn [mbind res_bind].
    rewrite (proj2 (check_Ok (_ || _) _ tt)).
    2:{ apply orb_true_iff. destruct Hb as [Hb| ->]; [left; by apply bool_decide_eq_true|by right]. }
    cbn [mbind res_bind]. rewrite Hr. cbn [mbind res_bind].
    rewrite (proj2 (batch_step_iff n _) (conj He eq_refl)). cbn [mbind res_bind].
    rewrite (proj2 (ids_loop_iff (tn_activeBatch n) _ _ _) (conj Hids eq_refl)). cbn [mbind res_bind app].
    unfold notify_pb, restart_map in Hser.
    rewrite (proj2 (SerializeCanonical_Ok _ v) (conj Hser Hsz)). cbn [mbind res_bind].
    by rewrite (proj2 (check_Ok _ _ tt)) by (unfold MAX_NOTIFY_VALUE_BYTES; unfold MAX_VALUE_BYTES in Hsz; lia).
Qed.

Context `{!ProtobufLaws TaskNotifyPb} `{!NotifyFieldOrder}.

(** The notify fields fit the schema: [uint64_t] epoch, [int64_t] timestamps,
    ASCII addresses. *)
Definition notify_fits (n : TopologyTaskNotify) : Prop :=
  (forall b, tn_activeBatch n = Some b -> ab_epoch b < 2 ^ 64) /\
  (forall id, id ∈ tn_taskIds n -> ascii_text id = true) /\
  (forall f, f ∈ tn_restartTimestampsByAddress n -> ascii_text f.1 = true /\ is_i64 f.2).

Lemma notify_pb_representable n : notify_ok n -> om_sorted (tn_restartTimestampsByAddress n) -> notify_fits n ->
  representable (notify_pb n).
Proof.
  intros Hok Hs (Hb & Hid & Hf). split_and!.
  - intros b (b' & Hb' & ->)%fmap_Some. pose proof (no_epoch _ Hok b' Hb'). specialize (Hb b' Hb').
    split; [unfold is_i32; cbn; destruct (ab_type b'); lia|unfold is_u64; cbn; lia].
  - by apply Forall_forall.
  - intros a t Hat. apply elem_of_map_to_list in Hat. cbn in Hat.
    rewrite restart_map_perm in Hat by (by apply om_sorted_keys). by apply (Hf (a, t)).
Qed.

Lemma DecodeActiveBatch_pb b : 0 < ab_epoch b -> DecodeActiveBatch (batch_pb b) = Ok b.
Proof.
  intros Hb. unfold DecodeActiveBatch, batch_pb. cbn [cbp_epoch cbp_type].
  rewrite (proj2 (check_Ok _ _ tt)) by lia. destruct b as [[] e]; done.
Qed.

Lemma notify_roundtrip_lemma n v : om_sorted (tn_restartTimestampsByAddress n) -> notify_fits n ->
  EncodeNotify n = Ok v -> DecodeNotify v = Ok n.
Proof.
  intros Hs Hf Henc. pose proof Henc as (Hok & Hser & Hsz)%EncodeNotify_iff. unfold DecodeNotify.
  rewrite (proj2 (check_Ok _ _ tt)) by (unfold MAX_NOTIFY_VALUE_BYTES; unfold MAX_VALUE_BYTES in Hsz; lia).
  cbn [mbind res_bind]. rewrite (parse_serialize _ _ (notify_pb_representable n Hok Hs Hf) Hser).
  assert (match tnp_active_batch (notify_pb n) with
          | Some b => a ← DecodeActiveBatch b; Ok (Some a) | None => Ok None end = Ok (tn_activeBatch n)) as ->.
  { cbn. destruct (tn_activeBatch n) as [b|] eqn:E; cbn; [|done].
    by rewrite DecodeActiveBatch_pb by (by apply (no_epoch _ Hok)). }
  cbn [mbind res_bind]. cbn [notify_pb tnp_task_ids tnp_restart_timestamps_by_address].
  rewrite decode_restarts by done. replace {| tn_activeBatch := _ |} with n by (by destruct n).
  rewrite Henc. cbn [mbind res_bind]. by rewrite bool_decide_true.
Qed.

(** Appending the shared restart suffix to a task notify gives the canonical
    encoding of the notify with both parts. *)
Lemma ComposeNotify_encodes t restarts w v :
  EncodeNotify {| tn_activeBatch := None; tn_taskIds := []; tn_restartTimestampsByAddress := restarts |} = Ok w ->
  ComposeNotify t w = Ok v ->
  EncodeNotify {| tn_activeBatch := tn_activeBatch t; tn_taskIds := tn_taskIds t;
                  tn_restartTimestampsByAddress := restarts |} = Ok v.
Proof.
  intros (Hokr & Hserr & _)%EncodeNotify_iff. unfold ComposeNotify.
  intros ([] & He%check_Ok & Hok)%bind_Ok. apply bind_Ok in Hok as (e & (Hokt & Hsert & Hsz)%EncodeNotify_iff & Hok).
  apply bind_Ok in Hok as ([] & Hsz'%check_Ok & [= <-]). destruct t as [b ids facts]. cbn in He.
  destruct facts; [|done]. apply EncodeNotify_iff. split_and!.
  - destruct Hokt, Hokr. by split.
  - by apply serialize_notify.
  - rewrite str_length_app. unfold MAX_NOTIFY_VALUE_BYTES, MAX_VALUE_BYTES in *. lia.
Qed.
End notify_laws.
