(* ===== verification/CodecClaims.v ===== *)
(** * Round trips of the repository codec

    The theorems about RepositoryCodec.v, against any protobuf library and any
    iteration order of map fields; and a small self-delimiting wire format that
    satisfies the laws, used to evaluate examples. *)

From S2P Require Import Prelude Ordered TopologyTypes HashRing BalancedRing TokenPlacement HostPort KeyHelper Hasher.
From S2P Require Import RingTheory HashAlgorithm OwnerSpec PlanningInterface HashPlans Snapshot RepositoryCodec.

Section codec_claims.
Context `{RE2} `{Protobuf ClusterTopologyPb} `{Protobuf TaskNotifyPb}.
Context `{Protobuf MigrateTaskPb} `{Protobuf DeleteNodeTaskPb} `{MapIteration}.
Context `{!ProtobufLaws ClusterTopologyPb} `{!ProtobufLaws TaskNotifyPb} `{!NotifyFieldOrder}.
Context `{!ProtobufLaws MigrateTaskPb} `{!ProtobufLaws DeleteNodeTaskPb} `{!MapIterationLaws}.

(** C24: an encoded topology decodes to the canonical form of the topology that was
    encoded, whatever order the map field is visited in, exactly when it has at
    most [MAX_TOPOLOGY_MEMBERS] members; a larger topology is encoded without
    an error and its value is then rejected by the decoder. *)
Theorem topology_roundtrip st v : state_u32 st ->
  (forall m, m ∈ ts_members st -> ascii_text (m_address m) = true) -> EncodeTopology st = Ok v ->
  DecodeTopology v =
    if count (ts_members st) <=? MAX_TOPOLOGY_MEMBERS then Ok (sort_members st) else Err K_INVALID.
Proof. apply topology_roundtrip_lemma. Qed.

(** the encoder accepts a topology iff it is persistable, every member has
    either no tokens (an initial member) or exactly the configured number of
    tokens derived from its address and seed overrides, the tokens are within
    the limit and the value fits its size limit. *)
Theorem EncodeTopology_accepts st v : state_u32 st ->
  EncodeTopology st = Ok v <->
  encodable st /\ SerializeToCodedStream (topology_pb (sort_members st)) = Some v /\ size v <= MAX_VALUE_BYTES.
Proof. intros Hu. by rewrite EncodeTopology_iff, SerializeCanonical_Ok. Qed.

(** The text fields of a task are ASCII and its tokens are [uint32_t] values. *)
Definition task_fits (task : TopologyTask) : Prop :=
  match task with
  | TaskMigrate t => ascii_text (mt_targetAddress t) = true /\ ranges_representable (mt_sourceRanges t)
  | TaskDelete t => ascii_text (dt_failedAddress t) = true /\ ranges_representable (dt_recoveryRanges t)
  end.

Definition EncodeTask (task : TopologyTask) : res string :=
  match task with TaskMigrate t => EncodeMigrateTask t | TaskDelete t => EncodeDeleteTask t end.

(** Decoding under the context a reader has: the task id is the key, type and
    epoch come from the active batch. *)
Definition DecodeTask (task : TopologyTask) (value : string) : res TopologyTask :=
  match task with
  | TaskMigrate t => TaskMigrate <$> DecodeMigrateTask (mt_taskId t) (mt_type t) (mt_epoch t) value
  | TaskDelete t => TaskDelete <$> DecodeDeleteTask (dt_taskId t) (dt_epoch t) value
  end.

(** a task read back under its key and the epoch it was written for is the task
    that was written, its executor included. *)
Theorem task_roundtrip task v : task_fits task -> EncodeTask task = Ok v -> DecodeTask task v = Ok task.
Proof.
  destruct task as [t|t]; intros [Ha Hr] Hv; cbn in *.
  - by rewrite (migrate_task_roundtrip t v).
  - by rewrite (delete_task_roundtrip t v).
Qed.

(** a notify composed from a member's task part and the shared restart suffix
    decodes to exactly both parts, and is the canonical encoding of the two
    together. *)
Theorem notify_roundtrip t restarts w v : om_sorted restarts ->
  notify_fits {| tn_activeBatch := tn_activeBatch t; tn_taskIds := tn_taskIds t;
                 tn_restartTimestampsByAddress := restarts |} ->
  EncodeNotify {| tn_activeBatch := None; tn_taskIds := []; tn_restartTimestampsByAddress := restarts |} = Ok w ->
  ComposeNotify t w = Ok v ->
  DecodeNotify v = Ok {| tn_activeBatch := tn_activeBatch t; tn_taskIds := tn_taskIds t;
                         tn_restartTimestampsByAddress := restarts |} /\
  EncodeNotify {| tn_activeBatch := tn_activeBatch t; tn_taskIds := tn_taskIds t;
                  tn_restartTimestampsByAddress := restarts |} = Ok v.
Proof.
  intros Hs Hf Hw Hv. pose proof (ComposeNotify_encodes t restarts w v Hw Hv) as Henc.
  split; [by apply notify_roundtrip_lemma|done].
Qed.
End codec_claims.

(** ** A wire format for examples *)
Module ReferenceWire.

(** A positive number as digits ended by a stop mark. *)
Fixpoint put_bits (zero one stop : ascii) (p : positive) : string :=
  match p with
  | xH => String stop ""
  | xO p => String zero (put_bits zero one stop p)
  | xI p => String one (put_bits zero one stop p)
  end.

Fixpoint get_bits (zero one stop : ascii) (s : string) : option (positive * string) :=
  match s with
  | EmptyString => None
  | String c s =>
      if decide (c = stop) then Some (xH, s)
      else if decide (c = zero) then r ← get_bits zero one stop s; Some (xO r.1, r.2)
      else if decide (c = one) then r ← get_bits zero one stop s; Some (xI r.1, r.2)
      else None
  end.

Lemma get_put_bits zero one stop p rest : zero <> stop -> one <> stop -> zero <> one ->
  get_bits zero one stop (put_bits zero one stop p +:+ rest) = Some (p, rest).
Proof.
  intros H1 H2 H3. induction p as [p IH|p IH|]; cbn [put_bits]; rewrite append_String; cbn [get_bits].
  - rewrite !decide_False by done. rewrite decide_True by done. by rewrite IH.
  - rewrite decide_False by done. rewrite decide_True by done. by rewrite IH.
  - by rewrite decide_True.
Qed.

Definition bits (p : positive) : string := put_bits "0" "1" "." p.
Definition bits' (p : positive) : string := put_bits "a" "b" "," p.

#[export] Instance countable_wire (M : Type) `{Countable M} : Protobuf M := {|
  SerializeToCodedStream m := Some (bits (encode m));
  ParseFromString s := r ← get_bits "0" "1" "." s; decode r.1 |}.

#[export] Instance countable_wire_laws (M : Type) `{Countable M} `{Representable M} : ProtobufLaws M.
Proof.
  intros m v _ [= <-]. cbn. rewrite <-(str_app_nil (bits (encode m))). unfold bits.
  rewrite get_put_bits by done. cbn. apply decode_encode.
Qed.

#[export] Instance override_countable : Countable TokenSeedOverridePb :=
  inj_countable' (fun o => (sop_token_index o, sop_token_seed o))
    (fun x => {| sop_token_index := x.1; sop_token_seed := x.2 |}) ltac:(by intros []).
(** Fields side by side, so that the encoding stays short. *)
Definition unfields2 {A B C} `{Countable A, Countable B} (f : A -> B -> C) (l : list positive) : option C :=
  match l with [a; b] => a ← decode a; b ← decode b; Some (f a b) | _ => None end.
Definition unfields3 {A B C R} `{Countable A, Countable B, Countable C} (f : A -> B -> C -> R) (l : list positive) : option R :=
  match l with [a; b; c] => a ← decode a; b ← decode b; c ← decode c; Some (f a b c) | _ => None end.

#[export] Instance member_countable : Countable MembershipPb.
Proof.
  apply (inj_countable (fun m => [encode (mp_id m); encode (mp_state m); encode (mp_token_seed_overrides m)])
    (unfields3 (fun i s o => {| mp_id := i; mp_state := s; mp_token_seed_overrides := o |}))).
  intros []. unfold unfields3. cbn. by rewrite !decode_encode.
Defined.

Definition member_entry (e : string * MembershipPb) : list positive := [encode e.1; encode e.2].
Definition read_entries (l : list (list positive)) : option (gmap string MembershipPb) :=
  list_to_map <$> mapM (unfields2 (fun (a : string) (m : MembershipPb) => (a, m))) l.

Lemma read_entries_map (members : gmap string MembershipPb) : read_entries (member_entry <$> map_to_list members) = Some members.
Proof.
  unfold read_entries. rewrite mapM_fmap_Forall_Some.
  - cbn. by rewrite list_to_map_to_list.
  - apply Forall_true. intros [a m]. unfold unfields2. cbn. by rewrite !decode_encode.
Qed.
#[export] Instance range_countable : Countable TokenRangePb :=
  inj_countable' (fun r => (rp_owner_address r, rp_from r, rp_end r, rp_finished r))
    (fun x => {| rp_owner_address := x.1.1.1; rp_from := x.1.1.2; rp_end := x.1.2; rp_finished := x.2 |})
    ltac:(by intros []).
#[export] Instance migrate_countable : Countable MigrateTaskPb :=
  inj_countable' (fun t => (mtp_target_address t, mtp_source_ranges t))
    (fun x => {| mtp_target_address := x.1; mtp_source_ranges := x.2 |}) ltac:(by intros []).
#[export] Instance delete_countable : Countable DeleteNodeTaskPb :=
  inj_countable' (fun t => (dtp_failed_address t, dtp_recovery_ranges t))
    (fun x => {| dtp_failed_address := x.1; dtp_recovery_ranges := x.2 |}) ltac:(by intros []).
#[export] Instance batch_countable : Countable ChangeBatchPb :=
  inj_countable' (fun b => (cbp_type b, cbp_epoch b)) (fun x => {| cbp_type := x.1; cbp_epoch := x.2 |})
    ltac:(by intros []).
Definition topology_fields (t : ClusterTopologyPb) : list positive :=
  [encode (ctp_cluster_has_init t); encode (member_entry <$> map_to_list (ctp_members t)); encode (ctp_version t);
   encode (ctp_schema_version t); encode (ctp_active_batch t); encode (ctp_tokens_per_member t)].
Definition read_topology_fields (l : list positive) : option ClusterTopologyPb :=
  match l with
  | [a; b; c; d; e; f] =>
      has_init ← decode a; entries ← decode b; members ← read_entries entries; version ← decode c; schema ← decode d;
      batch ← decode e; tpm ← decode f;
      Some {| ctp_cluster_has_init := has_init; ctp_members := members; ctp_version := version; ctp_schema_version := schema;
              ctp_active_batch := batch; ctp_tokens_per_member := tpm |}
  | _ => None
  end.

#[export] Instance topology_countable : Countable ClusterTopologyPb.
Proof.
  apply (inj_countable topology_fields read_topology_fields). intros []. cbn.
  repeat (rewrite ?decode_encode, ?read_entries_map; cbn). done.
Defined.

#[export] Instance reference_order : MapIteration := {| iterate V m := map_to_list m |}.
#[export] Instance reference_order_laws : MapIterationLaws := {| iterate_perm V m := reflexivity _ |}.

(** A notify is its task fields followed by its restart field, and a field at
    its default writes nothing. *)
Definition put_tasks (b : option ChangeBatchPb) (ids : list string) : string :=
  match b, ids with None, [] => "" | _, _ => bits (encode (b, ids)) end.
Definition put_restarts (r : gmap string Z) : string := if decide (r = ∅) then "" else bits' (encode r).

Definition get_restarts (s : string) : option (gmap string Z) :=
  match s with
  | EmptyString => Some ∅
  | _ => r ← get_bits "a" "b" "," s; decode r.1
  end.

Definition get_notify (s : string) : option TaskNotifyPb :=
  match get_bits "0" "1" "." s with
  | Some (p, rest) =>
      t ← (decode p : option (option ChangeBatchPb * list string)); r ← get_restarts rest;
      Some {| tnp_active_batch := t.1; tnp_task_ids := t.2; tnp_restart_timestamps_by_address := r |}
  | None =>
      r ← get_restarts s;
      Some {| tnp_active_batch := None; tnp_task_ids := []; tnp_restart_timestamps_by_address := r |}
  end.

#[export] Instance notify_wire : Protobuf TaskNotifyPb := {|
  SerializeToCodedStream n :=
    Some (put_tasks (tnp_active_batch n) (tnp_task_ids n) +:+ put_restarts (tnp_restart_timestamps_by_address n));
  ParseFromString := get_notify |}.

Lemma get_put_restarts r : get_restarts (put_restarts r) = Some r.
Proof.
  unfold put_restarts. case_decide as Hr; [by subst|].
  pose proof (get_put_bits "a" "b" "," (encode r) "" ltac:(done) ltac:(done) ltac:(done)) as Hg.
  rewrite str_app_nil in Hg. unfold get_restarts. fold (bits' (encode r)) in Hg.
  destruct (bits' (encode r)) as [|c s]; [discriminate Hg|]. rewrite Hg. cbn. apply decode_encode.
Qed.

Lemma get_bits_restarts r : get_bits "0" "1" "." (put_restarts r) = None.
Proof. unfold put_restarts. case_decide; [done|]. unfold bits'. by destruct (encode r). Qed.

Lemma get_put_tasks b ids r : get_notify (put_tasks b ids +:+ put_restarts r) =
  Some {| tnp_active_batch := b; tnp_task_ids := ids; tnp_restart_timestamps_by_address := r |}.
Proof.
  unfold get_notify. assert (Hcase : put_tasks b ids = bits (encode (b, ids)) \/ (put_tasks b ids = "" /\ b = None /\ ids = []))
    by (destruct b, ids; auto).
  destruct Hcase as [->|(-> & -> & ->)].
  - unfold bits. rewrite get_put_bits by done. rewrite decode_encode. cbn [mbind option_bind]. by rewrite get_put_restarts.
  - change ("" +:+ put_restarts r) with (put_restarts r). by rewrite get_bits_restarts, get_put_restarts.
Qed.

#[export] Instance notify_wire_laws : ProtobufLaws TaskNotifyPb.
Proof. intros [b ids r] v _ [= <-]. apply get_put_tasks. Qed.

#[export] Instance notify_wire_order : NotifyFieldOrder.
Proof. intros b ids r v w [= <-] [= <-]. cbn. by rewrite str_app_nil. Qed.
End ReferenceWire.

(** ** Witnesses *)

Import HashPlans.Demo ReferenceEngine ReferenceWire.

(** A member whose tokens are derived from its address. *)
Definition placed_member (i : MemberIdentity) (s : MemberState) : Member :=
  {| m_identity := i; m_state := s; m_tokens := MakeTokens (mi_address i) [0; 3];
     m_tokenSeedOverrides := [{| so_tokenIndex := 1; so_tokenSeed := 3 |}] |}.

Definition stored_topology : TopologyState :=
  {| ts_clusterHasInit := true; ts_version := 7;
     ts_members := [placed_member idC JOINING; placed_member idA ACTIVE;
                    {| m_identity := idB; m_state := INITIAL; m_tokens := []; m_tokenSeedOverrides := [] |}];
     ts_activeBatch := Some {| ab_type := SCALE_OUT; ab_epoch := 7 |}; ts_tokensPerMember := 2 |}.

Lemma stored_topology_u32 : state_u32 stored_topology.
Proof.
  intros m Hm%list_elem_of_In o Ho%list_elem_of_In. cbn in Hm.
  destruct Hm as [<-|[<-|[<-|[]]]]; cbn in Ho; [destruct Ho as [<-|[]]..|destruct Ho]; unfold is_u32; cbn; lia.
Qed.

Lemma stored_topology_ascii m : m ∈ ts_members stored_topology -> ascii_text (m_address m) = true.
Proof. intros Hm%list_elem_of_In. cbn in Hm. destruct Hm as [<-|[<-|[<-|[]]]]; reflexivity. Qed.

(** Evaluated results, kept as boolean facts: the encoded values are long. *)
Lemma stored_topology_encodes : is_ok (EncodeTopology stored_topology) = true.
Proof. vm_compute. reflexivity. Qed.

Lemma topology_roundtrip_witness : exists v, EncodeTopology stored_topology = Ok v /\
  DecodeTopology v = Ok (sort_members stored_topology).
Proof.
  pose proof stored_topology_encodes as Hok.
  destruct (EncodeTopology stored_topology) as [v|c] eqn:E; [|discriminate Hok].
  exists v. split; [reflexivity|].
  exact (topology_roundtrip stored_topology v stored_topology_u32 stored_topology_ascii E).
Defined.

Lemma EncodeTopology_accepts_witness : exists v, EncodeTopology stored_topology = Ok v /\ encodable stored_topology.
Proof.
  pose proof stored_topology_encodes as Hok.
  destruct (EncodeTopology stored_topology) as [v|c] eqn:E; [|discriminate Hok].
  exists v. split; [reflexivity|].
  exact (proj1 (proj1 (EncodeTopology_accepts stored_topology v stored_topology_u32) E)).
Defined.

Definition sample_digest : string := "0123456789abcdef0123456789abcdef".
Definition sample_task_id : string := "m-e7-" +:+ sample_digest.

Definition stored_task : TopologyTask := TaskMigrate
  {| mt_taskId := sample_task_id; mt_type := SCALE_OUT; mt_epoch := 7; mt_executorAddress := mi_address idA;
     mt_targetAddress := mi_address idC;
     mt_sourceRanges := [{| tk_ownerAddress := mi_address idA; tk_range := {| tr_from := 5; tr_end := 9 |}; tk_finished := false |};
                         {| tk_ownerAddress := mi_address idA; tk_range := {| tr_from := 12; tr_end := 12 |}; tk_finished := true |}] |}.

Lemma stored_task_fits : task_fits stored_task.
Proof.
  split; [reflexivity|]. intros r Hr%list_elem_of_In. cbn in Hr.
  destruct Hr as [<-|[<-|[]]]; (split; [reflexivity|]); unfold is_u32; cbn; lia.
Qed.

Lemma stored_task_encodes : is_ok (EncodeTask stored_task) = true.
Proof. vm_compute. reflexivity. Qed.

Lemma task_roundtrip_witness : exists v, EncodeTask stored_task = Ok v /\ DecodeTask stored_task v = Ok stored_task.
Proof.
  pose proof stored_task_encodes as Hok.
  destruct (EncodeTask stored_task) as [v|c] eqn:E; [|discriminate Hok].
  exists v. split; [reflexivity|]. exact (task_roundtrip stored_task v stored_task_fits E).
Defined.

Definition restart_facts : list (string * Z) := [(mi_address idA, 1700); (mi_address idC, 1800)].
Definition task_part : TopologyTaskNotify :=
  {| tn_activeBatch := Some {| ab_type := SCALE_OUT; ab_epoch := 7 |}; tn_taskIds := [sample_task_id];
     tn_restartTimestampsByAddress := [] |}.
Definition full_notify : TopologyTaskNotify :=
  {| tn_activeBatch := tn_activeBatch task_part; tn_taskIds := tn_taskIds task_part;
     tn_restartTimestampsByAddress := restart_facts |}.

Lemma full_notify_fits : notify_fits full_notify.
Proof.
  split_and!.
  - by intros b [= <-].
  - intros id Hid%list_elem_of_In. cbn in Hid. destruct Hid as [<-|[]]. reflexivity.
  - intros f Hf%list_elem_of_In. cbn in Hf. destruct Hf as [<-|[<-|[]]]; (split; [reflexivity|]); unfold is_i64; cbn; lia.
Qed.

Lemma restart_facts_sorted : om_sorted restart_facts.
Proof. repeat constructor. Qed.

Definition restart_part : TopologyTaskNotify :=
  {| tn_activeBatch := None; tn_taskIds := []; tn_restartTimestampsByAddress := restart_facts |}.

Lemma stored_notify_composes :
  is_ok (EncodeNotify restart_part) = true /\
  is_ok (w ← EncodeNotify restart_part; ComposeNotify task_part w) = true.
Proof. vm_compute. split; reflexivity. Qed.

Lemma notify_roundtrip_witness : exists w v, ComposeNotify task_part w = Ok v /\ DecodeNotify v = Ok full_notify.
Proof.
  destruct stored_notify_composes as [Hw Hv].
  destruct (EncodeNotify restart_part) as [w|c] eqn:Ew; [|discriminate Hw]. cbn [mbind res_bind] in Hv.
  destruct (ComposeNotify task_part w) as [v|c] eqn:Ev; [|discriminate Hv].
  exists w, v. split; [exact Ev|].
  exact (proj1 (notify_roundtrip task_part restart_facts w v restart_facts_sorted full_notify_fits Ew Ev)).
Defined.
