(* ===== verification/MembershipTypes.v ===== *)
(** * Membership data model

    The types of src/datasystem/cluster/membership/membership_types.h. *)

From S2P Require Import Prelude.

Inductive MemberLifecycleState :=
  | LC_UNKNOWN | LC_STARTING | LC_RESTARTING | LC_RECOVERING | LC_READY | LC_EXITING
  | LC_DOWNGRADE_RESTARTING | LC_FAILED.

#[global] Instance MemberLifecycleState_eq_dec : EqDecision MemberLifecycleState.
Proof. solve_decision. Defined.

(** The payload stored in the backend. *)
Record MembershipValue := {
  mv_timestamp : Z;
  mv_lifecycleState : MemberLifecycleState;
  mv_hostId : string;
  mv_compatibilityVersion : string
}.

(** The value of one member read from the membership table. *)
Record MembershipRecord := {
  mr_address : string;
  mr_state : MemberLifecycleState;
  mr_timestamp : Z;
  mr_hostId : string
}.

Inductive EndpointAvailability := EP_UNKNOWN | EP_REACHABLE | EP_UNREACHABLE.
#[global] Instance EndpointAvailability_eq_dec : EqDecision EndpointAvailability.
Proof. solve_decision. Defined.
