(* ===== verification/MembershipCodec.v ===== *)
(** * Membership lease values

    src/datasystem/cluster/membership/membership_value_codec.cpp: the protobuf
    value of a membership lease and the text value ["timestamp;state;host;version"]
    of earlier releases, which the decoder still accepts.  The message
    [WorkerServiceInfoPb] is that of protos/coordinator.proto. *)

From S2P Require Import Prelude Ordered TopologyTypes HashRing BalancedRing TokenPlacement HostPort KeyHelper Hasher.
From S2P Require Import RingTheory HashAlgorithm OwnerSpec PlanningInterface HashPlans Snapshot RepositoryCodec.
From S2P Require Import MembershipTypes.

Record WorkerServiceInfoPb := {
  wsp_timestamp : Z; wsp_state : Z; wsp_host_id : string; wsp_compatibility_version : string
}.
#[global] Instance WorkerServiceInfoPb_eq_dec : EqDecision WorkerServiceInfoPb.
Proof. solve_decision. Defined.
#[global] Instance MembershipValue_eq_dec : EqDecision MembershipValue.
Proof. solve_decision. Defined.

#[global] Instance WorkerServiceInfoPb_representable : Representable WorkerServiceInfoPb := fun m =>
  is_i64 (wsp_timestamp m) /\ is_i32 (wsp_state m) /\ ascii_text (wsp_host_id m) = true /\
  ascii_text (wsp_compatibility_version m) = true.

Definition MAX_MEMBERSHIP_VALUE_BYTES : Z := 64 * 1024.

(** ** [std::stoul] *)

Fixpoint count_digits (s : string) : nat :=
  match s with String a s' => match digit_of a with Some _ => S (count_digits s') | None => O end | EmptyString => O end.

(** The value and the number of characters consumed; [None] when it throws. *)
Definition stoul (s : string) : option (Z * nat) :=
  let t := skip_space s in
  let '(neg, u) := match t with
    | String "-" s' => (true, s')
    | String "+" s' => (false, s')
    | _ => (false, t) end in
  if has_digit u then
    let v := read_digits 0 u in
    if v <? 2 ^ 64
    then Some (if neg : bool then u64 (- v) else v, String.length s - String.length u + count_digits u)%nat
    else None
  else None.

(** ** Text values *)

Definition LooksLikeLegacyEtcdValue (bytes : string) : bool :=
  match find_char ";" bytes with
  | None | Some O => false
  | Some delimiter =>
      if (delimiter =? 1)%nat && bool_decide (String.get 0 bytes = Some "_"%char) then true
      else all_chars is_digit (substr 0 delimiter bytes)
  end.

Definition ParseLegacyTimestamp (bytes : string) : res Z :=
  if bool_decide (bytes = "_") then Ok 0
  else match stoul bytes with
       | None => Err K_INVALID
       | Some (parsed, parsedBytes) => _ ← check (parsedBytes =? String.length bytes)%nat K_INVALID; Ok (i64 parsed)
       end.

Definition FromLegacyState (stateBytes : string) : res MemberLifecycleState :=
  if bool_decide (stateBytes = "start") then Ok LC_STARTING
  else if bool_decide (stateBytes = "restart") then Ok LC_RESTARTING
  else if bool_decide (stateBytes = "recover") then Ok LC_RECOVERING
  else if bool_decide (stateBytes = "ready") then Ok LC_READY
  else if bool_decide (stateBytes = "exiting") then Ok LC_EXITING
  else if bool_decide (stateBytes = "d_rst") then Ok LC_DOWNGRADE_RESTARTING
  else Err K_INVALID.

(** Called on a value that contains a delimiter. *)
Definition DecodeLegacyEtcdValue (bytes : string) : res MembershipValue :=
  match find_char ";" bytes with
  | None => Err K_INVALID
  | Some firstDelimiter =>
      let secondDelimiter := find_from ";" (firstDelimiter + 1) bytes in
      timestamp ← ParseLegacyTimestamp (substr 0 firstDelimiter bytes);
      let stateBytes := match secondDelimiter with
        | None => substr_from (firstDelimiter + 1) bytes
        | Some second => substr (firstDelimiter + 1) (second - firstDelimiter - 1) bytes
        end in
      state ← FromLegacyState stateBytes;
      let '(hostId, version) := match secondDelimiter with
        | None => (EmptyString, EmptyString)
        | Some second =>
            match find_from ";" (second + 1) bytes with
            | None => (substr_from (second + 1) bytes, EmptyString)
            | Some third => (substr (second + 1) (third - second - 1) bytes, substr_from (third + 1) bytes)
            end
        end in
      Ok {| mv_timestamp := timestamp; mv_lifecycleState := state; mv_hostId := hostId; mv_compatibilityVersion := version |}
  end.

(** ** Protobuf values *)

Definition ToProtoState (state : MemberLifecycleState) : res Z :=
  match state with
  | LC_STARTING => Ok 1 | LC_RESTARTING => Ok 2 | LC_RECOVERING => Ok 3 | LC_READY => Ok 4 | LC_EXITING => Ok 5
  | LC_DOWNGRADE_RESTARTING => Ok 6
  | LC_UNKNOWN | LC_FAILED => Err K_INVALID
  end.

Definition FromProtoState (statePb : Z) : res MemberLifecycleState :=
  match statePb with
  | 1 => Ok LC_STARTING | 2 => Ok LC_RESTARTING | 3 => Ok LC_RECOVERING | 4 => Ok LC_READY | 5 => Ok LC_EXITING
  | 6 => Ok LC_DOWNGRADE_RESTARTING
  | _ => Err K_INVALID
  end.

Section codec.
Context `{Protobuf WorkerServiceInfoPb}.

Definition Encode (value : MembershipValue) : res string :=
  statePb ← ToProtoState (mv_lifecycleState value);
  match SerializeToCodedStream {| wsp_timestamp := mv_timestamp value; wsp_state := statePb;
          wsp_host_id := mv_hostId value; wsp_compatibility_version := mv_compatibilityVersion value |} with
  | None => Err K_RUNTIME_ERROR
  | Some encoded => _ ← check (size encoded <=? MAX_MEMBERSHIP_VALUE_BYTES) K_INVALID; Ok encoded
  end.

Definition Decode (bytes : string) : res MembershipValue :=
  if MAX_MEMBERSHIP_VALUE_BYTES <? size bytes then Err K_INVALID
  else if LooksLikeLegacyEtcdValue bytes then DecodeLegacyEtcdValue bytes
  else match ParseFromString bytes with
       | None => Err K_INVALID
       | Some pb =>
           state ← FromProtoState (wsp_state pb);
           Ok {| mv_timestamp := wsp_timestamp pb; mv_lifecycleState := state; mv_hostId := wsp_host_id pb;
                 mv_compatibilityVersion := wsp_compatibility_version pb |}
       end.
End codec.

(** A serialized message is empty or starts with the tag of its first present
    field: number and wire type of one of the fields 1 to 4. *)
Class MembershipTags `{Protobuf WorkerServiceInfoPb} : Prop :=
  serialize_tag m c s : SerializeToCodedStream m = Some (String c s) -> nat_of_ascii c ∈ [8; 16; 26; 34]%nat.

(** ** Round trip *)

Section roundtrip.
Context `{Protobuf WorkerServiceInfoPb, !ProtobufLaws WorkerServiceInfoPb, !MembershipTags}.

Lemma legacy_head c s : LooksLikeLegacyEtcdValue (String c s) = true -> is_digit c = true \/ c = "_"%char.
Proof.
  unfold LooksLikeLegacyEtcdValue. destruct (find_char ";" (String c s)) as [[|n]|]; [done| |done].
  destruct ((S n =? 1)%nat && bool_decide (String.get 0 (String c s) = Some "_"%char)) eqn:E.
  - apply andb_prop in E as [_ E%bool_decide_eq_true]. cbn in E. right. congruence.
  - unfold substr, all_chars. cbn. intros [Hd _]%andb_prop. by left.
Qed.

Lemma serialized_not_legacy m v : SerializeToCodedStream m = Some v -> LooksLikeLegacyEtcdValue v = false.
Proof.
  intros Hv. destruct v as [|c s]; [done|]. apply not_true_is_false. intros Hl%legacy_head.
  apply serialize_tag in Hv. rewrite !elem_of_cons in Hv. unfold is_digit, in_chars in Hl.
  destruct Hl as [[H1%Nat.leb_le H2%Nat.leb_le]%andb_prop| ->].
  - change (nat_of_ascii "0") with 48%nat in H1. destruct_or! Hv; try lia. by apply not_elem_of_nil in Hv.
  - destruct_or! Hv; try (by vm_compute in Hv). by apply not_elem_of_nil in Hv.
Qed.

Lemma FromTo_state state z : ToProtoState state = Ok z -> FromProtoState z = Ok state /\ is_i32 z.
Proof. destruct state; intros [= <-]; split; done || (unfold is_i32; lia). Qed.

Lemma membership_roundtrip value bytes : is_i64 (mv_timestamp value) -> ascii_text (mv_hostId value) = true ->
  ascii_text (mv_compatibilityVersion value) = true -> Encode value = Ok bytes -> Decode bytes = Ok value.
Proof.
  intros Ht Hh Hc He. unfold Encode in He. apply bind_Ok in He as (z & Hz & He).
  destruct (FromTo_state _ _ Hz) as [Hf Hi]. destruct (SerializeToCodedStream _) as [v|] eqn:Es in He; [|done]. inv_ok.
  unfold Decode.
  rewrite (proj2 (Z.ltb_ge _ _)) by (by apply Z.leb_le). rewrite (serialized_not_legacy _ _ Es).
  apply parse_serialize in Es; [|exact (conj Ht (conj Hi (conj Hh Hc)))]. rewrite Es. cbn. rewrite Hf. cbn. by destruct value.
Qed.
End roundtrip.

(** ** Text values decode to their fields *)

Definition legacy_state (state : MemberLifecycleState) : option string :=
  match state with
  | LC_STARTING => Some "start" | LC_RESTARTING => Some "restart" | LC_RECOVERING => Some "recover"
  | LC_READY => Some "ready" | LC_EXITING => Some "exiting" | LC_DOWNGRADE_RESTARTING => Some "d_rst"
  | LC_UNKNOWN | LC_FAILED => None
  end%string.

Definition no_delimiter (s : string) : Prop := find_char ";" s = None.

Lemma find_char_app c a b : find_char c a = None -> find_char c (a +:+ String c EmptyString +:+ b) = Some (String.length a).
Proof.
  change (String c EmptyString +:+ b) with (String c b). induction a as [|x a IH]; intros Ha.
  - change (EmptyString +:+ String c b) with (String c b). cbn. by rewrite decide_True.
  - rewrite append_String. cbn in *. case_decide; [done|]. destruct (find_char c a); [done|]. by rewrite IH.
Qed.

Lemma find_from_app c a b : find_from c (String.length a) (a +:+ b) = Nat.add (String.length a) <$> find_char c b.
Proof. unfold find_from. by rewrite substr_from_app. Qed.

Lemma substring_mid a b c : substring (String.length a) (String.length b) (a +:+ b +:+ c) = b.
Proof.
  induction a as [|x a IH]; [|done]. change (substring 0 (String.length b) (b +:+ c) = b). apply substring_app_l.
Qed.

Lemma digits_facts d : all_chars is_digit d = true -> find_char ";" d = None /\ count_digits d = String.length d /\
  (d <> EmptyString -> has_digit d = true).
Proof.
  unfold all_chars. induction d as [|x d IH]; [done|]. cbn. intros [Hx Hd]%andb_prop.
  destruct (IH Hd) as (H1 & H2 & _). assert (exists z, digit_of x = Some z) as [z Hz].
  { unfold is_digit, in_chars, digit_of in *. change (nat_of_ascii "0") with 48%nat in Hx.
    change (nat_of_ascii "9") with 57%nat in Hx. apply andb_prop in Hx as [E1%Nat.leb_le E2%Nat.leb_le].
    rewrite (proj2 (Z.leb_le _ _)), (proj2 (Z.leb_le _ _)) by lia. eauto. }
  rewrite decide_False by (intros ->; vm_compute in Hx; done). rewrite H1, H2, Hz. split_and!; [done|done|].
  intros _. by rewrite bool_decide_true.
Qed.

Lemma stoul_digits d : all_chars is_digit d = true -> d <> EmptyString -> read_digits 0 d < 2 ^ 64 ->
  stoul d = Some (read_digits 0 d, String.length d).
Proof.
  intros Hd Hne Hv. destruct (digits_facts d Hd) as (_ & Hc & Hh). specialize (Hh Hne). unfold stoul.
  destruct d as [|a s]; [done|]. destruct (has_digit_no_sign a s Hh) as (Hs & Hm & Hp). cbn [skip_space]. rewrite Hs.
  assert (Hsign : match String a s with
    | String "-" s' => (true, s') | String "+" s' => (false, s') | _ => (false, String a s) end
    = (false, String a s)) by (destruct a as [[] [] [] [] [] [] [] []]; done).
  rewrite Hsign, Hh, (proj2 (Z.ltb_lt _ _) Hv), Hc. by rewrite Nat.sub_diag.
Qed.

(** The optional third and fourth fields as written. *)
Definition legacy_tail (hostId : string) (version : option string) : string :=
  ";" +:+ hostId +:+ match version with Some v => ";" +:+ v | None => EmptyString end.

Definition legacy_value (timestamp state : string) (tail : option (string * option string)) : string :=
  timestamp +:+ ";" +:+ state +:+ match tail with Some (h, v) => legacy_tail h v | None => EmptyString end.

Definition legacy_timestamp (t : string) : option Z :=
  if bool_decide (t = "_") then Some 0
  else if negb (bool_decide (t = EmptyString)) && all_chars is_digit t && (read_digits 0 t <? 2 ^ 64)
       then Some (i64 (read_digits 0 t)) else None.

Lemma ParseLegacyTimestamp_ok t ts : legacy_timestamp t = Some ts -> ParseLegacyTimestamp t = Ok ts.
Proof.
  unfold legacy_timestamp, ParseLegacyTimestamp. case_bool_decide; [naive_solver|].
  case_bool_decide; [done|]. cbn. destruct (all_chars is_digit t) eqn:Hd; [|done]. cbn.
  destruct (Z.ltb_spec (read_digits 0 t) (2 ^ 64)); [|done]. intros [= <-]. rewrite stoul_digits by done.
  unfold check. by rewrite Nat.eqb_refl.
Qed.

Lemma FromLegacyState_ok state s : legacy_state state = Some s -> FromLegacyState s = Ok state /\ no_delimiter s.
Proof. destruct state; intros [= <-]; done. Qed.

Lemma timestamp_facts t ts : legacy_timestamp t = Some ts -> no_delimiter t /\ t <> EmptyString /\
  (t = "_" \/ all_chars is_digit t = true).
Proof.
  unfold legacy_timestamp. case_bool_decide as E; [intros _; subst; split_and!; auto; done|].
  case_bool_decide; [done|]. cbn. destruct (all_chars is_digit t) eqn:Hd; [|done]. intros _.
  split_and!; [by apply digits_facts|done|by right].
Qed.

Lemma legacy_value_recognised t ts s tail : legacy_timestamp t = Some ts ->
  LooksLikeLegacyEtcdValue (legacy_value t s tail) = true.
Proof.
  intros (Hd & Hne & Hcase)%timestamp_facts. unfold LooksLikeLegacyEtcdValue, legacy_value.
  rewrite (find_char_app ";" t) by done. destruct (String.length t) as [|n] eqn:El; [by destruct t|].
  destruct Hcase as [->|Hdig]; [injection El as <-; done|].
  case_match; [done|]. rewrite <-El. unfold substr. by rewrite substring_app_l.
Qed.

Lemma legacy_value_decodes t ts state s tail : legacy_timestamp t = Some ts -> legacy_state state = Some s ->
  (forall h v, tail = Some (h, v) -> no_delimiter h) ->
  DecodeLegacyEtcdValue (legacy_value t s tail) = Ok {| mv_timestamp := ts; mv_lifecycleState := state;
    mv_hostId := match tail with Some (h, _) => h | None => EmptyString end;
    mv_compatibilityVersion := match tail with Some (_, Some v) => v | _ => EmptyString end |}.
Proof.
  intros Ht Hs Htail. destruct (timestamp_facts t ts Ht) as (Hd & _ & _). destruct (FromLegacyState_ok state s Hs) as [Hst Hsd].
  unfold DecodeLegacyEtcdValue, legacy_value. set (rest := match tail with Some (h, v) => legacy_tail h v | None => _ end).
  rewrite (find_char_app ";" t) by done. unfold substr at 1. rewrite substring_app_l.
  rewrite (ParseLegacyTimestamp_ok t ts Ht). cbn [mbind res_bind].
  assert (Hlen : (String.length t + 1)%nat = String.length (t +:+ ";")) by (by rewrite str_length_app).
  rewrite <-(str_app_assoc t ";"), Hlen, find_from_app. unfold rest. clear rest. destruct tail as [[h v]|].
  - unfold legacy_tail. rewrite (find_char_app ";" s) by done. cbn [fmap option_fmap option_map].
    unfold substr at 1. replace (String.length (t +:+ ";") + String.length s - String.length t - 1)%nat
      with (String.length s) by (rewrite str_length_app; cbn; lia).
    rewrite substring_mid, Hst. cbn [mbind res_bind].
    rewrite <-(str_app_assoc s ";"), <-(str_app_assoc (t +:+ ";")).
    replace (String.length (t +:+ ";") + String.length s + 1)%nat with (String.length ((t +:+ ";") +:+ s +:+ ";"))
      by (rewrite !str_length_app; cbn; lia).
    rewrite find_from_app. specialize (Htail h v eq_refl). destruct v as [v|].
    + rewrite (find_char_app ";" h) by done. cbn [fmap option_fmap option_map]. unfold substr.
      replace (_ + String.length h - _ - 1)%nat with (String.length h) by (rewrite !str_length_app; cbn; lia).
      rewrite substring_mid. rewrite <-(str_app_assoc h ";"), <-(str_app_assoc ((t +:+ ";") +:+ s +:+ ";")).
      replace (String.length ((t +:+ ";") +:+ s +:+ ";") + String.length h + 1)%nat
        with (String.length (((t +:+ ";") +:+ s +:+ ";") +:+ h +:+ ";")) by (rewrite !str_length_app; cbn; lia).
      by rewrite substr_from_app.
    + rewrite str_app_nil. unfold no_delimiter in Htail. rewrite Htail. cbn [fmap option_fmap option_map].
      by rewrite substr_from_app.
  - rewrite str_app_nil. unfold no_delimiter in Hsd. rewrite Hsd. cbn [fmap option_fmap option_map].
    rewrite substr_from_app, Hst. done.
Qed.
