(* ===== verification/TopologyRepository.v ===== *)
(** * The topology repository

    src/datasystem/cluster/repository/topology_repository.cpp: semantic reads and
    writes of the topology, tasks, notifications, probes and metadata markers of
    one cluster over a coordination backend.  Every operation is a program over
    the backend interface; the callback of a compare-and-swap is a
    [ProcessFunction] whose state holds the local variables it captures. *)

From S2P Require Import Prelude Ordered TopologyTypes HashRing BalancedRing TokenPlacement HostPort KeyHelper Hasher.
From S2P Require Import RingTheory HashAlgorithm OwnerSpec PlanningInterface HashPlans Snapshot RepositoryCodec.
From S2P Require Import MembershipTypes MembershipCodec.
From S2P Require Import MemoryKvStore TtlManager WatchRegistry WatchDispatcher CoordinatorStore StoreProgram BackendInterface.

Inductive TopologyCasOutcome := CAS_COMMITTED | CAS_CONFLICT | CAS_UNKNOWN.
#[global] Instance TopologyCasOutcome_eq_dec : EqDecision TopologyCasOutcome.
Proof. solve_decision. Defined.

Record TopologyCasResult := { cr_outcome : TopologyCasOutcome; cr_observed : option TopologyState }.

Inductive TaskProgressOutcome := TP_UPDATED | TP_ALREADY_FINISHED | TP_STALE | TP_UNKNOWN.
#[global] Instance TaskProgressOutcome_eq_dec : EqDecision TaskProgressOutcome.
Proof. solve_decision. Defined.

Record TaskJanitorCandidate := { jc_kind : TopologyTaskKind; jc_taskId : string; jc_matchToken : string }.
Record NotifyJanitorCandidate := {
  nc_address : string; nc_notify : TopologyTaskNotify; nc_matchToken : string; nc_logicallyDeleted : bool
}.
Record ScaleInMetadataDoneJanitorCandidate := { mc_key : string; mc_matchToken : string }.
Record ScaleInMetadataDoneRecord := {
  md_batchEpoch : Z; md_sourceId : string; md_taskId : string; md_businessOperationId : string
}.

(** ** Tombstones *)

Definition TASK_DELETE_TOMBSTONE_PREFIX : string := "cluster-task-delete-tombstone-v1-".
Definition NOTIFY_DELETE_TOMBSTONE_PREFIX : string := "cluster-notify-delete-tombstone-v1-".
Definition SCALE_IN_METADATA_DONE_DELETE_TOMBSTONE_PREFIX : string := "cluster-scalein-metadata-delete-tombstone-v1-".
Definition DELETE_TOMBSTONE_FIRST_SUFFIX : string := "0".
Definition DELETE_TOMBSTONE_SECOND_SUFFIX : string := "1".

Definition HasPrefix (bytes prefix : string) : bool := String.prefix prefix bytes.

Definition NextDeleteTombstone (prefix current : string) : string :=
  let first := prefix +:+ DELETE_TOMBSTONE_FIRST_SUFFIX in
  if negb (bool_decide (current = first)) then first else prefix +:+ DELETE_TOMBSTONE_SECOND_SUFFIX.

Definition IsTaskDeleteTombstone (bytes : string) : bool := HasPrefix bytes TASK_DELETE_TOMBSTONE_PREFIX.
Definition IsNotifyDeleteTombstone (bytes : string) : bool := HasPrefix bytes NOTIFY_DELETE_TOMBSTONE_PREFIX.
Definition IsScaleInMetadataDoneDeleteTombstone (bytes : string) : bool :=
  HasPrefix bytes SCALE_IN_METADATA_DONE_DELETE_TOMBSTONE_PREFIX.

(** ** Tasks *)

Section tasks.
Context `{RE2, Protobuf MigrateTaskPb, Protobuf DeleteNodeTaskPb}.

Definition EncodeTask (task : TopologyTask) : string * TopologyTaskKind * res string :=
  match task with
  | TaskMigrate migrate => (mt_taskId migrate, MIGRATE, EncodeMigrateTask migrate)
  | TaskDelete remove => (dt_taskId remove, DELETE_MEMBER, EncodeDeleteTask remove)
  end.

Definition CompatibleRangeProgress (observed expected : list TopologyTaskRange) : bool :=
  (length observed =? length expected)%nat &&
  forallb (fun p : TopologyTaskRange * TopologyTaskRange =>
             bool_decide (tk_ownerAddress p.1 = tk_ownerAddress p.2) && bool_decide (tk_range p.1 = tk_range p.2) &&
             (negb (tk_finished p.2) || tk_finished p.1)) (zip observed expected).

Definition ValidateCompatibleTask (expected : TopologyTask) (observedBytes : string) : res unit :=
  match expected with
  | TaskMigrate value =>
      observed ← DecodeMigrateTask (mt_taskId value) (mt_type value) (mt_epoch value) observedBytes;
      check (bool_decide (mt_executorAddress observed = mt_executorAddress value) &&
             bool_decide (mt_targetAddress observed = mt_targetAddress value) &&
             CompatibleRangeProgress (mt_sourceRanges observed) (mt_sourceRanges value)) K_INVALID
  | TaskDelete value =>
      observed ← DecodeDeleteTask (dt_taskId value) (dt_epoch value) observedBytes;
      check (bool_decide (dt_executorAddress observed = dt_executorAddress value) &&
             bool_decide (dt_failedAddress observed = dt_failedAddress value) &&
             CompatibleRangeProgress (dt_recoveryRanges observed) (dt_recoveryRanges value)) K_INVALID
  end.

(** [taskRanges], [taskId], [epoch] and [executor] of the task. *)
Definition task_view (task : TopologyTask) : list TopologyTaskRange * string * Z * string :=
  match task with
  | TaskMigrate t => (mt_sourceRanges t, mt_taskId t, mt_epoch t, mt_executorAddress t)
  | TaskDelete t => (dt_recoveryRanges t, dt_taskId t, dt_epoch t, dt_executorAddress t)
  end.

Definition set_ranges (ranges : list TopologyTaskRange) (task : TopologyTask) : TopologyTask :=
  match task with
  | TaskMigrate t => TaskMigrate {| mt_taskId := mt_taskId t; mt_type := mt_type t; mt_epoch := mt_epoch t;
      mt_executorAddress := mt_executorAddress t; mt_targetAddress := mt_targetAddress t; mt_sourceRanges := ranges |}
  | TaskDelete t => TaskDelete {| dt_taskId := dt_taskId t; dt_epoch := dt_epoch t;
      dt_executorAddress := dt_executorAddress t; dt_failedAddress := dt_failedAddress t; dt_recoveryRanges := ranges |}
  end.

Definition finish_range (range : TopologyTaskRange) : TopologyTaskRange :=
  {| tk_ownerAddress := tk_ownerAddress range; tk_range := tk_range range; tk_finished := true |}.

Definition ApplyFenceToTask (task : TopologyTask) (fence : TopologyExecutionFence)
    : res (TopologyTask * TaskProgressOutcome) :=
  _ ← check (bool_decide (ef_taskKind fence = TaskKind task)) K_INVALID;
  let '(taskRanges, taskId, epoch, executor) := task_view task in
  _ ← check (bool_decide (taskId = ef_taskId fence) && (epoch =? ef_batchEpoch fence) &&
             bool_decide (executor = mi_address (ef_executor fence)) && negb (is_empty (ef_ranges fence))) K_INVALID;
  let allRanges := tk_range <$> taskRanges in
  let unfinished := tk_range <$> List.filter (fun range => negb (tk_finished range)) taskRanges in
  if is_empty unfinished then
    Ok (task, if bool_decide (allRanges = ef_ranges fence) then TP_ALREADY_FINISHED else TP_STALE)
  else if negb (bool_decide (unfinished = ef_ranges fence)) then Ok (task, TP_STALE)
  else Ok (set_ranges (finish_range <$> taskRanges) task, TP_UPDATED).
End tasks.

(** ** Rotating pages *)

(** [std::upper_bound(values, cursor)] as an index. *)
Fixpoint upper_index (cursor : string) (values : list (string * string)) : nat :=
  match values with
  | [] => 0
  | entry :: rest => if ltk cursor entry.1 then 0 else S (upper_index cursor rest)
  end.

Section page.
Context {V : Type} (visit : V -> string * string -> res V).

(** [count] visits from [index] on, wrapping around. *)
Fixpoint visit_loop (count index : nat) (values : list (string * string)) (nextCursor : string) (v : V)
    : res (string * V) :=
  match count with
  | O => Ok (nextCursor, v)
  | S count =>
      match values !! index with
      | None => Err K_RUNTIME_ERROR
      | Some entry =>
          v ← visit v entry;
          visit_loop count ((index + 1) mod length values) values entry.1 v
      end
  end.

Definition VisitRotatingPage (values : list (string * string)) (limit : nat) (cursor : string) (v : V)
    : res (string * V) :=
  let values := sort_on fst values in
  if is_empty values then Ok (EmptyString, v)
  else
    let begin := upper_index cursor values in
    let index := if (begin =? length values)%nat then 0%nat else begin in
    visit_loop (Nat.min limit (length values)) index values cursor v.
End page.

(** ** Operations *)

Section repository.
Context `{RE2, Protobuf ClusterTopologyPb, Protobuf MigrateTaskPb, Protobuf DeleteNodeTaskPb, Protobuf TaskNotifyPb}.
Context `{Protobuf WorkerServiceInfoPb, MapIteration, CoordinationBackend}.
Context (keys_ : TopologyKeyHelper).

Definition TaskTable (kind : TopologyTaskKind) : string :=
  match kind with MIGRATE => migrateTaskTable_ keys_ | DELETE_MEMBER => deleteTaskTable_ keys_ end.

Definition get_value (table key : string) : prog (res string) :=
  result ⇐ be_Get table key; Ret (Ok (rs_value result)).

Definition ResolveCompatibleTaskWrite (table key : string) (expected : TopologyTask) (writeStatus : StatusCode)
    : prog (res unit) :=
  readStatus ← get_value table key;
  match readStatus with
  | Ok observedBytes =>
      if IsTaskDeleteTombstone observedBytes then Ret (Err writeStatus)
      else Ret (ValidateCompatibleTask expected observedBytes)
  | Err _ => Ret (Err writeStatus)
  end.

Definition ResolveExactWrite (table key desiredBytes : string) (writeStatus : StatusCode) : prog (res unit) :=
  readStatus ← get_value table key;
  match readStatus with
  | Ok observedBytes => Ret (check (bool_decide (observedBytes = desiredBytes)) K_INVALID)
  | Err _ => Ret (Err writeStatus)
  end.

Definition ReadTopology (timeoutMs : Z) : prog (res (TopologyState * Z * string)) :=
  _ ⇐ lift (check (0 <? timeoutMs) K_INVALID);
  result ⇐ be_Get (topologyTable_ keys_) TopologyKey;
  decoded ⇐ lift (DecodeTopology (rs_value result));
  Ret (Ok (decoded, rs_modRevision result, rs_coordinatorId result)).

(** [None] when unchanged; the coordinator id in both cases. *)
Definition ReadTopologyIfChanged (timeoutMs knownAuthorityRevision : Z) (knownCoordinatorId : string)
    : prog (res (option (TopologyState * Z) * string)) :=
  _ ⇐ lift (check (0 <? timeoutMs) K_INVALID);
  _ ⇐ lift (check (0 <? knownAuthorityRevision) K_INVALID);
  r ⇐ be_GetIfChanged (topologyTable_ keys_) TopologyKey knownAuthorityRevision knownCoordinatorId;
  if r.2 then Ret (Ok (None, rs_coordinatorId r.1))
  else
    decoded ⇐ lift (DecodeTopology (rs_value r.1));
    Ret (Ok (Some (decoded, rs_modRevision r.1), rs_coordinatorId r.1)).

(** The callback; the captured variable is [conflict]. *)
Definition cas_process (expectedVersion : Z) (desiredBytes : string) : ProcessFunction bool :=
  fun conflict current =>
    if bool_decide (current = EmptyString) && (expectedVersion =? 0) then (conflict, Ok (Some desiredBytes), false)
    else match DecodeTopology current with
         | Ok observed =>
             if negb (ts_version observed =? expectedVersion) then (true, Ok None, false)
             else (conflict, Ok (Some desiredBytes), false)
         | Err _ => (true, Ok None, false)
         end.

(** The part after a failed or conflicting write. *)
Definition cas_read_back (desired : TopologyState) (desiredBytes : string) (rc : res unit)
    : prog (TopologyCasResult * res unit) :=
  readRc ← be_Get (topologyTable_ keys_) TopologyKey;
  match readRc with
  | Ok readResult =>
      match DecodeTopology (rs_value readResult) with
      | Err code => Ret ({| cr_outcome := CAS_UNKNOWN; cr_observed := None |}, Err code)
      | Ok observed =>
          if bool_decide (rs_value readResult = desiredBytes)
          then Ret ({| cr_outcome := CAS_COMMITTED; cr_observed := Some observed |}, Ok tt)
          else Ret ({| cr_outcome := CAS_CONFLICT; cr_observed := Some observed |},
                    check (negb (ts_version observed =? ts_version desired)) K_INVALID)
      end
  | Err code =>
      Ret ({| cr_outcome := CAS_UNKNOWN; cr_observed := None |},
           match rc with Err c => Err c | Ok _ => Err code end)
  end.

Definition CompareAndSwapTopology (expectedVersion : Z) (desired : TopologyState) (expectedAuthorityRevision : Z)
    : prog (TopologyCasResult * res unit) :=
  let result := {| cr_outcome := CAS_UNKNOWN; cr_observed := None |} in
  if negb (ts_version desired =? u64 (expectedVersion + 1)) then Ret (result, Err K_INVALID)
  else match EncodeTopology desired with
  | Err code => Ret (result, Err code)
  | Ok desiredBytes =>
      let process := cas_process expectedVersion desiredBytes in
      r ← (if 0 <? expectedAuthorityRevision
           then be_CASAtRevision (topologyTable_ keys_) TopologyKey process expectedAuthorityRevision false
           else be_CAS (topologyTable_ keys_) TopologyKey process false);
      let '(conflict, rc) := r in
      if is_ok rc && negb conflict then Ret ({| cr_outcome := CAS_COMMITTED; cr_observed := None |}, Ok tt)
      else cas_read_back desired desiredBytes (erase rc)
  end.

(** *** Memberships *)

(** The records in the order of their addresses and the revision of the read. *)
Definition ReadMemberships : prog (res (list MembershipRecord * Z)) :=
  r ⇐ be_GetAll (membershipTable_ keys_);
  decoded ⇐ lift (foldM (fun decoded (kv : string * string) =>
    value ← Decode kv.2;
    Ok (decoded ++ [{| mr_address := kv.1; mr_state := mv_lifecycleState value; mr_timestamp := mv_timestamp value;
                       mr_hostId := mv_hostId value |}])) [] r.1);
  Ret (Ok (sort_on mr_address decoded, r.2)).

Definition ReadHostIds : prog (res (gmap string string * Z)) :=
  r ⇐ ReadMemberships;
  let decoded := foldl (fun (m : gmap string string) member =>
      if bool_decide (mr_hostId member = EmptyString) then m
      else match m !! mr_address member with Some _ => m | None => <[mr_address member := mr_hostId member]> m end)
    ∅ r.1 in
  Ret (Ok (decoded, r.2)).

(** *** Tasks *)

Definition decode_task (kind : TopologyTaskKind) (taskId : string) (type : TopologyChangeType) (epoch : Z) (bytes : string)
    : res TopologyTask :=
  match kind with
  | MIGRATE => decoded ← DecodeMigrateTask taskId type epoch bytes; Ok (TaskMigrate decoded)
  | DELETE_MEMBER => decoded ← DecodeDeleteTask taskId epoch bytes; Ok (TaskDelete decoded)
  end.

Definition ReadTask (kind : TopologyTaskKind) (taskId : string) (type : TopologyChangeType) (epoch : Z)
    : prog (res TopologyTask) :=
  key ⇐ lift (TaskKey taskId);
  bytes ⇐ get_value (TaskTable kind) key;
  _ ⇐ lift (check (negb (IsTaskDeleteTombstone bytes)) K_NOT_FOUND);
  Ret (decode_task kind taskId type epoch bytes).

Definition create_process (task : TopologyTask) (bytes : string) : ProcessFunction unit :=
  fun c current =>
    if IsTaskDeleteTombstone current then (c, Err K_TRY_AGAIN, false)
    else if bool_decide (current = EmptyString) then (c, Ok (Some bytes), false)
    else (c, (_ ← ValidateCompatibleTask task current; Ok None), false).

Definition CreateTaskIfAbsent (task : TopologyTask) : prog (res unit) :=
  let '(taskId, kind, encoded) := EncodeTask task in
  bytes ⇐ lift encoded;
  r ← be_CAS (TaskTable kind) taskId (create_process task bytes) tt;
  match r.2 with
  | Ok _ => Ret (Ok tt)
  | Err rc => ResolveCompatibleTaskWrite (TaskTable kind) taskId task rc
  end.

(** The captured variable is [outcome]. *)
Definition mark_process (fence : TopologyExecutionFence) : ProcessFunction TaskProgressOutcome :=
  fun outcome current =>
    match decode_task (ef_taskKind fence) (ef_taskId fence) (ef_batchType fence) (ef_batchEpoch fence) current with
    | Err code => (outcome, Err code, false)
    | Ok task =>
        match ApplyFenceToTask task fence with
        | Err code => (outcome, Err code, false)
        | Ok (task, outcome) =>
            if bool_decide (outcome = TP_UPDATED)
            then (outcome, (bytes ← (EncodeTask task).2; Ok (Some bytes)), false)
            else (outcome, Ok None, false)
        end
    end.

Definition MarkTaskScopeFinished (fence : TopologyExecutionFence) : prog (TaskProgressOutcome * res unit) :=
  r ← be_CAS (TaskTable (ef_taskKind fence)) (ef_taskId fence) (mark_process fence) TP_UNKNOWN;
  let '(outcome, rc) := r in
  match rc with
  | Ok _ => Ret (outcome, Ok tt)
  | Err code =>
      readRc ← ReadTask (ef_taskKind fence) (ef_taskId fence) (ef_batchType fence) (ef_batchEpoch fence);
      match readRc with
      | Ok observed =>
          match ApplyFenceToTask observed fence with
          | Err c => Ret (TP_UNKNOWN, Err c)
          | Ok (_, observedOutcome) =>
              if bool_decide (observedOutcome = TP_ALREADY_FINISHED) then Ret (observedOutcome, Ok tt)
              else Ret (TP_UNKNOWN, Err code)
          end
      | Err _ => Ret (TP_UNKNOWN, Err code)
      end
  end.

(** *** Notifications and probes *)

Definition ReadNotify (address : string) : prog (res TopologyTaskNotify) :=
  key ⇐ lift (NotifyKey address);
  bytes ⇐ get_value (notifyTable_ keys_) key;
  _ ⇐ lift (check (negb (bool_decide (bytes = EmptyString)) && negb (IsNotifyDeleteTombstone bytes)) K_NOT_FOUND);
  Ret (DecodeNotify bytes).

Definition rewrite_process (bytes : string) : ProcessFunction unit :=
  fun c current =>
    if IsNotifyDeleteTombstone current then (c, Err K_TRY_AGAIN, false)
    else if negb (bool_decide (current = bytes)) then (c, Ok (Some bytes), false)
    else (c, Ok None, false).

Definition RewriteEncodedNotify (address bytes : string) : prog (res unit) :=
  key ⇐ lift (NotifyKey address);
  r ← be_CAS (notifyTable_ keys_) key (rewrite_process bytes) tt;
  match r.2 with
  | Ok _ => Ret (Ok tt)
  | Err K_TRY_AGAIN => Ret (Err K_TRY_AGAIN)
  | Err rc => ResolveExactWrite (notifyTable_ keys_) key bytes rc
  end.

Definition RewriteNotify (address : string) (expected : TopologyTaskNotify) : prog (res unit) :=
  bytes ⇐ lift (EncodeNotify expected);
  RewriteEncodedNotify address bytes.

Definition PutProbeValue (witnessAddress value : string) : prog (res unit) :=
  key ⇐ lift (ProbeKey witnessAddress);
  r ← be_CAS (probeTable_ keys_) key (fun (c : unit) _ => (c, Ok (Some value), false)) tt;
  Ret (erase r.2).

(** *** Metadata markers of a scale-in *)

Definition marker_process (record : ScaleInMetadataDoneRecord) : ProcessFunction unit :=
  fun c current =>
    if bool_decide (current = EmptyString) then (c, Ok (Some (md_businessOperationId record)), false)
    else if IsScaleInMetadataDoneDeleteTombstone current then (c, Err K_TRY_AGAIN, false)
    else (c, (_ ← check (bool_decide (current = md_businessOperationId record)) K_INVALID; Ok None), false).

Definition MarkScaleInMetadataDone (record : ScaleInMetadataDoneRecord) : prog (res unit) :=
  _ ⇐ lift (check (negb (bool_decide (md_businessOperationId record = EmptyString))) K_INVALID);
  key ⇐ lift (ScaleInMetadataDoneKey (md_batchEpoch record) (md_sourceId record) (md_taskId record));
  r ← be_CAS (scaleInMetadataDoneTable_ keys_) key (marker_process record) tt;
  match r.2 with
  | Ok _ => Ret (Ok tt)
  | Err K_TRY_AGAIN => Ret (Err K_TRY_AGAIN)
  | Err rc => ResolveExactWrite (scaleInMetadataDoneTable_ keys_) key (md_businessOperationId record) rc
  end.

Definition CountScaleInMetadataDone (batchEpoch : Z) (sourceId : string) : prog (res nat) :=
  prefix ⇐ lift (ScaleInMetadataDonePrefix batchEpoch sourceId);
  r ⇐ be_GetAll (scaleInMetadataDoneTable_ keys_);
  Ret (Ok (length (List.filter (fun value : string * string =>
    HasPrefix value.1 prefix && negb (bool_decide (value.2 = EmptyString)) &&
    negb (IsScaleInMetadataDoneDeleteTombstone value.2)) r.1))).

(** *** Candidates of the janitor *)

Definition ListTaskCandidatesForJanitor (kind : TopologyTaskKind) (limit : nat) (cursor : string)
    : prog (res (string * list TaskJanitorCandidate)) :=
  _ ⇐ lift (check (0 <? limit)%nat K_INVALID);
  r ⇐ be_GetAll (TaskTable kind);
  Ret (VisitRotatingPage (fun candidates entry =>
    Ok (candidates ++ [{| jc_kind := kind; jc_taskId := entry.1; jc_matchToken := entry.2 |}])) r.1 limit cursor []).

Definition ListNotifyCandidatesForJanitor (limit : nat) (cursor : string)
    : prog (res (string * list NotifyJanitorCandidate)) :=
  _ ⇐ lift (check (0 <? limit)%nat K_INVALID);
  r ⇐ be_GetAll (notifyTable_ keys_);
  Ret (VisitRotatingPage (fun candidates entry =>
    let deleted := bool_decide (entry.2 = EmptyString) || IsNotifyDeleteTombstone entry.2 in
    notify ← (if negb (bool_decide (entry.2 = EmptyString)) && negb (IsNotifyDeleteTombstone entry.2)
              then DecodeNotify entry.2
              else Ok {| tn_activeBatch := None; tn_taskIds := []; tn_restartTimestampsByAddress := [] |});
    Ok (candidates ++ [{| nc_address := entry.1; nc_notify := notify; nc_matchToken := entry.2;
                          nc_logicallyDeleted := deleted |}])) r.1 limit cursor []).

Definition ListScaleInMetadataDoneCandidatesForJanitor (limit : nat) (cursor : string)
    : prog (res (string * list ScaleInMetadataDoneJanitorCandidate)) :=
  _ ⇐ lift (check (0 <? limit)%nat K_INVALID);
  r ⇐ be_GetAll (scaleInMetadataDoneTable_ keys_);
  Ret (VisitRotatingPage (fun candidates entry =>
    Ok (candidates ++ [{| mc_key := entry.1; mc_matchToken := entry.2 |}])) r.1 limit cursor []).

(** *** Conditional deletion; the captured variable is [matched] *)

Definition match_process (matchToken : string) (replacement : string -> string) : ProcessFunction bool :=
  fun _ current =>
    if bool_decide (current = matchToken) then (true, Ok (Some (replacement current)), false)
    else (false, Ok None, false).

Definition DeleteIfMatches (table key matchToken tombstonePrefix : string) : prog (res bool) :=
  r ← be_CAS table key (match_process matchToken (NextDeleteTombstone tombstonePrefix)) false;
  match r with
  | (_, Err code) => Ret (Err code)
  | (matched, Ok _) =>
      if matched : bool then _ ⇐ be_Delete table key; Ret (Ok true) else Ret (Ok false)
  end.

Definition DeleteTaskIfMatches (candidate : TaskJanitorCandidate) : prog (res bool) :=
  DeleteIfMatches (TaskTable (jc_kind candidate)) (jc_taskId candidate) (jc_matchToken candidate)
    TASK_DELETE_TOMBSTONE_PREFIX.

Definition DeleteScaleInMetadataDoneIfMatches (candidate : ScaleInMetadataDoneJanitorCandidate) : prog (res bool) :=
  DeleteIfMatches (scaleInMetadataDoneTable_ keys_) (mc_key candidate) (mc_matchToken candidate)
    SCALE_IN_METADATA_DONE_DELETE_TOMBSTONE_PREFIX.

Definition ReconcileNotifyIfMatches (candidate : NotifyJanitorCandidate) : prog (res bool) :=
  key ⇐ lift (NotifyKey (nc_address candidate));
  let notify := nc_notify candidate in
  replacement ⇐ lift (if bool_decide (is_Some (tn_activeBatch notify)) || negb (is_empty (tn_taskIds notify)) ||
                         negb (is_empty (tn_restartTimestampsByAddress notify))
                      then EncodeNotify notify else Ok EmptyString);
  let shouldDelete := bool_decide (replacement = EmptyString) in
  r ← be_CAS (notifyTable_ keys_) key (match_process (nc_matchToken candidate)
        (fun current => if shouldDelete then NextDeleteTombstone NOTIFY_DELETE_TOMBSTONE_PREFIX current else replacement)) false;
  match r with
  | (_, Err code) => Ret (Err code)
  | (matched, Ok _) =>
      if negb matched then Ret (Ok false)
      else if shouldDelete then _ ⇐ be_Delete (notifyTable_ keys_) key; Ret (Ok true)
      else Ret (Ok true)
  end.
End repository.
