(* ===== verification/RepositoryTheory.v ===== *)
(** * Concurrent updates of the topology

    Any number of callers run [CompareAndSwapTopology] against one backend while
    other requests touch other keys.  The values of the topology key form a
    history in which entry [j] is a topology of version [j + 1]; a caller that is
    told COMMITTED finds its topology in that history at the place it asked for,
    and no caller writes anything else.  If the backend loses no answer, a caller
    that is told otherwise has written nothing. *)

From S2P Require Import Prelude Ordered TopologyTypes HashRing BalancedRing TokenPlacement HostPort KeyHelper Hasher.
From S2P Require Import RingTheory HashAlgorithm OwnerSpec PlanningInterface HashPlans Snapshot RepositoryCodec.
From S2P Require Import MembershipTypes MembershipCodec.
From S2P Require Import MemoryKvStore TtlManager WatchRegistry WatchDispatcher CoordinatorStore StoreProgram BackendInterface.
From S2P Require Import TopologyRepository.

Definition default_ClusterTopologyPb : ClusterTopologyPb :=
  {| ctp_cluster_has_init := false; ctp_members := ∅; ctp_version := 0; ctp_schema_version := EmptyString;
     ctp_active_batch := None; ctp_tokens_per_member := 0 |}.

Section values.
Context `{RE2, Protobuf ClusterTopologyPb, MapIteration}.
Context `{!ExactParse ClusterTopologyPb, !MapIterationLaws, !EmptyValue ClusterTopologyPb default_ClusterTopologyPb}.

Lemma decode_empty_topology : is_ok (DecodeTopology EmptyString) = false.
Proof.
  unfold DecodeTopology. cbn [check mbind res_bind String.length].
  change (check (Z.of_nat 0 <=? MAX_VALUE_BYTES) K_INVALID) with (@Ok unit tt). cbn [mbind res_bind].
  destruct (ParseFromString EmptyString) as [m|] eqn:E; [|done]. apply parse_empty in E as ->. done.
Qed.

Lemma encoded_facts st v : state_u32 st -> EncodeTopology st = Ok v ->
  0 < ts_version st <= INT64_MAX /\ v <> EmptyString /\
  (forall o, DecodeTopology v = Ok o -> o = sort_members st).
Proof.
  intros Hu He. split; [|split; [|intros o; by apply DecodeTopology_exact]].
  all: apply EncodeTopology_iff in He as [Henc [Hs _]%SerializeCanonical_Ok]; [|done].
  - apply Henc.
  - intros ->. by apply serialize_empty in Hs.
Qed.
End values.

(** ** The history of the topology *)

Record CasRequest := { rq_expectedVersion : Z; rq_desired : TopologyState; rq_expectedAuthorityRevision : Z }.

Section cas.
Context `{RE2, Protobuf ClusterTopologyPb, MapIteration}.
Context `{!ExactParse ClusterTopologyPb, !MapIterationLaws, !EmptyValue ClusterTopologyPb default_ClusterTopologyPb}.
Context {lossy : bool} `{CoordinationBackend, !CoordinationBackendLaws lossy} (keys_ : TopologyKeyHelper).

Definition topology_key : string := BuildPhysicalKey (topologyTable_ keys_) TopologyKey.

(** Entry [j] is the encoding of a topology of version [j + 1]. *)
Definition version_chain (h : history) : Prop :=
  forall j v a, h !! j = Some (v, a) ->
    exists st, state_u32 st /\ EncodeTopology st = Ok v /\ ts_version st = Z.of_nat j + 1.

Lemma version_chain_bounded : bounded version_chain.
Proof.
  intros h Hc. destruct (last h) as [[v a]|] eqn:E; [|apply last_None in E as ->; unfold INT64_MAX; cbn; lia].
  rewrite last_lookup in E. destruct (Hc _ _ _ E) as (st & Hf & He & Hv).
  destruct (encoded_facts st v Hf He) as (Hr & _). apply lookup_lt_Some in E. lia.
Qed.

Lemma version_chain_snoc h st v i : version_chain h -> state_u32 st -> EncodeTopology st = Ok v ->
  ts_version st = Z.of_nat (length h) + 1 -> version_chain (h ++ [(v, i)]).
Proof.
  intros Hc Hf He Hv j w a [[_ Hj]|[-> Hj]]%lookup_snoc_Some; [eauto|]. injection Hj as -> ->. eauto.
Qed.

(** The newest value, when it decodes, has the length of the history as version. *)
Lemma newest_version h o : version_chain h -> DecodeTopology (newest h) = Ok o ->
  h <> [] /\ ts_version o = Z.of_nat (length h).
Proof.
  intros Hc Ho. unfold newest in Ho. destruct (last h) as [[v a]|] eqn:E.
  - assert (h <> []) as Hne by (by intros ->). split; [done|]. rewrite last_lookup in E.
    destruct (Hc _ _ _ E) as (st & Hf & He & Hv). destruct (encoded_facts st v Hf He) as (_ & _ & Hd).
    rewrite (Hd o Ho). change (ts_version (sort_members st)) with (ts_version st). apply lookup_lt_Some in E. lia.
  - pose proof decode_empty_topology as Hd. by rewrite Ho in Hd.
Qed.

Lemma newest_empty h : version_chain h -> newest h = EmptyString -> h = [].
Proof.
  intros Hc. unfold newest. destruct (last h) as [[v a]|] eqn:E; [|intros _; by apply last_None].
  intros ->. rewrite last_lookup in E. destruct (Hc _ _ _ E) as (st & Hf & He & _).
  by destruct (encoded_facts st _ Hf He) as (_ & Hne & _).
Qed.

Lemma newest_last h : h <> [] -> exists v a, h !! Nat.pred (length h) = Some (v, a) /\ newest h = v /\ (0 < length h)%nat.
Proof.
  intros Hne. unfold newest. rewrite last_lookup. destruct (h !! Nat.pred (length h)) as [[v a]|] eqn:E.
  - exists v, a. split_and!; [done|done|]. apply lookup_lt_Some in E. lia.
  - apply lookup_ge_None in E. destruct h; [done|]. cbn in E. lia.
Qed.

(** *** One update

    [ok] is what the writers of the topology keep true of the history, at least
    [version_chain]; [known] is what the caller knows of it before it has written. *)

Section update.
Context (ok : history -> Prop) (ok_chain : forall h, ok h -> version_chain h).
Context (i : nat) (rq : CasRequest) (known : history -> Prop).
Context (known_rely : forall h h', rely (history_discipline topology_key ok) i h h' -> known h -> known h').
Context (known_write : lossy = true -> forall h v, EncodeTopology (rq_desired rq) = Ok v ->
  known h -> Z.of_nat (length h) = rq_expectedVersion rq -> known (h ++ [(v, i)])).
Abbreviation D := (history_discipline topology_key ok).

(** What the answer of the caller tells about the history. *)
Definition cas_answer (h : history) (answer : TopologyCasResult * res unit) : Prop :=
  let '(result, status) := answer in
  match cr_outcome result with
  | CAS_COMMITTED => status = Ok tt /\ 0 <= rq_expectedVersion rq /\
      exists v a, EncodeTopology (rq_desired rq) = Ok v /\ h !! Z.to_nat (rq_expectedVersion rq) = Some (v, a)
  | CAS_CONFLICT => known h /\
      exists j v a observed, h !! j = Some (v, a) /\ EncodeTopology (rq_desired rq) <> Ok v /\
        DecodeTopology v = Ok observed /\ cr_observed result = Some observed /\ ts_version observed = Z.of_nat j + 1 /\
        status = if ts_version observed =? ts_version (rq_desired rq) then Err K_INVALID else Ok tt
  | CAS_UNKNOWN => known h /\ is_ok status = false
  end.

(** The proposal may follow a history that ends with the expected version. *)
Definition may_follow (v : string) : Prop := forall h, ok h -> known h ->
  Z.of_nat (length h) = rq_expectedVersion rq -> ok (h ++ [(v, i)]).

(** The write itself. *)
Definition cas_written (v : string) (h : history) (conflict : bool) (rc : res unit) : Prop :=
  if is_ok rc && negb conflict
  then 0 <= rq_expectedVersion rq /\ h !! Z.to_nat (rq_expectedVersion rq) = Some (v, i)
  else known h.

Lemma ok_bounded : bounded ok.
Proof. intros h Hh. by apply version_chain_bounded, ok_chain. Qed.

Lemma cas_process_spec v : EncodeTopology (rq_desired rq) = Ok v -> may_follow v ->
  process_spec lossy ok i (cas_process (rq_expectedVersion rq) v)
    (fun h conflict => (lossy = false -> conflict = false) /\ known h) (cas_written v).
Proof.
  intros He Hnext. split.
  - intros h h' c Hr [Hc Hk]. split; [done|]. by eapply known_rely.
  - intros h c code [_ Hk]. done.
  - intros h c Hok [Hc Hk]. unfold cas_process, cas_written.
    assert (Hnone : (lossy = true -> (lossy = false -> true = false) /\ known h) /\ known h) by (split; [intros E; by rewrite E|done]).
    assert (Hwrite : rq_expectedVersion rq = Z.of_nat (length h) ->
      ((lossy = false -> c = false) /\ known h) /\ ok (h ++ [(v, i)]) /\
      (lossy = true -> (lossy = false -> c = false) /\ known (h ++ [(v, i)])) /\
      if is_ok (Ok tt) && negb c then 0 <= rq_expectedVersion rq /\ (h ++ [(v, i)]) !! Z.to_nat (rq_expectedVersion rq) = Some (v, i)
      else known (h ++ [(v, i)])).
    { intros Hn. split; [done|]. split; [by apply Hnext|]. split; [intros E; split; [done|by apply known_write]|].
      destruct c; cbn [is_ok negb andb].
      - apply known_write; [|done..]. destruct lossy; [done|]. by specialize (Hc eq_refl).
      - split; [lia|]. rewrite Hn, Nat2Z.id, lookup_app_r, Nat.sub_diag by lia. done. }
    destruct (bool_decide (newest h = EmptyString) && (rq_expectedVersion rq =? 0)) eqn:E.
    + apply andb_prop in E as [E1%bool_decide_eq_true E2%Z.eqb_eq]. apply newest_empty in E1 as ->; [|by apply ok_chain].
      apply Hwrite. by rewrite E2.
    + destruct (DecodeTopology (newest h)) as [o|] eqn:Ed; [|exact Hnone].
      destruct (newest_version h o (ok_chain h Hok) Ed) as [_ Hlen].
      destruct (Z.eqb_spec (ts_version o) (rq_expectedVersion rq)); cbn [negb]; [apply Hwrite; lia|exact Hnone].
Qed.

Lemma cas_read_back_safe v rc h : state_u32 (rq_desired rq) -> EncodeTopology (rq_desired rq) = Ok v ->
  ts_version (rq_desired rq) = u64 (rq_expectedVersion rq + 1) -> 0 <= rq_expectedVersion rq < 2 ^ 64 -> known h ->
  safe D i (cas_read_back keys_ (rq_desired rq) v rc) cas_answer h.
Proof.
  intros Hf He Hv Hu Hk. unfold cas_read_back. eapply safe_bind; [apply be_Get_law, ok_bounded|].
  intros h1 r [Hr Hread]. apply (known_rely _ _ Hr) in Hk. destruct r as [r|code]; [|cbn; split; [done|by destruct rc]].
  destruct Hread as (Hok & Hne & ->). destruct (DecodeTopology (newest h1)) as [o|code] eqn:Ed; [|done].
  destruct (newest_version h1 o (ok_chain h1 Hok) Ed) as [_ Hlen].
  destruct (newest_last h1 Hne) as (v1 & a & Hlast & Hnew & Hpos). rewrite Hnew in *.
  case_bool_decide as Eq; cbn.
  - subst v1. destruct (encoded_facts _ _ Hf He) as (Hr1 & _ & Hd). rewrite Eq in Ed, Hlast. rewrite (Hd o Ed) in Hlen. cbn in Hlen.
    split_and!; [done|lia|]. exists v, a. split; [done|].
    assert (Z.to_nat (rq_expectedVersion rq) = Nat.pred (length h1)) as ->; [|done].
    assert (rq_expectedVersion rq + 1 < 2 ^ 64).
    { destruct (decide (rq_expectedVersion rq = 2 ^ 64 - 1)) as [E|E]; [|lia]. rewrite E in Hv. change (u64 (2 ^ 64 - 1 + 1)) with 0 in Hv. lia. }
    rewrite u64_small in Hv by lia. lia.
  - split; [done|]. exists (Nat.pred (length h1)), v1, a, o. split_and!; [done|congruence|done|done|lia|].
    unfold check. by destruct (ts_version o =? ts_version (rq_desired rq)).
Qed.

Definition run_request : prog (TopologyCasResult * res unit) :=
  CompareAndSwapTopology keys_ (rq_expectedVersion rq) (rq_desired rq) (rq_expectedAuthorityRevision rq).

Lemma CompareAndSwapTopology_safe h : 0 <= rq_expectedVersion rq < 2 ^ 64 -> known h ->
  (forall v, EncodeTopology (rq_desired rq) = Ok v -> ts_version (rq_desired rq) = u64 (rq_expectedVersion rq + 1) ->
     state_u32 (rq_desired rq) /\ may_follow v) ->
  safe D i run_request cas_answer h.
Proof.
  intros Hu Hk Hnext. pose proof cas_process_spec as Hspec. unfold run_request, CompareAndSwapTopology.
  destruct (Z.eqb_spec (ts_version (rq_desired rq)) (u64 (rq_expectedVersion rq + 1))) as [Hv|]; cbn [negb]; [|done].
  destruct (EncodeTopology (rq_desired rq)) as [v|] eqn:He; [|done].
  destruct (Hnext v eq_refl Hv) as [Hf Hm].
  eapply (safe_bind _ _ _ _ (fun h' r => cas_written v h' r.1 (erase r.2))).
  - case_match.
    + eapply be_CASAtRevision_law; [apply ok_bounded|by apply Hspec|by split].
    + eapply be_CAS_law; [apply ok_bounded|by apply Hspec|by split].
  - intros h1 [conflict rc] Hq. cbn [fst snd] in Hq. unfold cas_written in Hq.
    assert (is_ok (erase rc) = is_ok rc) as E by (by destruct rc). rewrite E in Hq.
    destruct (is_ok rc && negb conflict).
    + cbn. destruct Hq as [Hq1 Hq2]. split_and!; [done|done|]. by exists v, i.
    + by eapply cas_read_back_safe.
Qed.

Lemma cas_answer_stable : stable D i cas_answer.
Proof.
  intros h h' [result status] Hr. pose proof (known_rely h h' Hr) as Hk.
  pose proof (fun j x => lookup_rely i h h' _ _ j x Hr) as Hl. unfold cas_answer. destruct (cr_outcome result); naive_solver.
Qed.
End update.

(** *** Racing updates *)

(** [uint64_t] versions and a topology whose fields fit the message. *)
Definition proper_request (rq : CasRequest) : Prop := state_u32 (rq_desired rq) /\ 0 <= rq_expectedVersion rq < 2 ^ 64.

(** The caller wrote at most its proposal, at its place, and nothing if no answer is lost. *)
Definition wrote_proposal (i : nat) (rq : CasRequest) (h : history) : Prop :=
  (forall j v, h !! j = Some (v, i) -> Z.of_nat j = rq_expectedVersion rq /\ EncodeTopology (rq_desired rq) = Ok v) /\
  (lossy = false -> wrote_nothing i h).

Lemma wrote_proposal_rely i rq h h' key ok : rely (history_discipline key ok) i h h' -> wrote_proposal i rq h -> wrote_proposal i rq h'.
Proof.
  intros Hr [Hw Hl]. split; [|intros E; eapply wrote_nothing_rely; [exact Hr|by apply Hl]].
  destruct Hr as (l & -> & Hi). rewrite Forall_lookup in Hi. intros j v [Hj|[_ Hj]]%lookup_app_Some; [by apply Hw|]. by apply Hi in Hj.
Qed.

Lemma wrote_proposal_write i rq h v : lossy = true -> EncodeTopology (rq_desired rq) = Ok v -> wrote_proposal i rq h ->
  Z.of_nat (length h) = rq_expectedVersion rq -> wrote_proposal i rq (h ++ [(v, i)]).
Proof.
  intros El He [Hw _] Hlen. split; [|by rewrite El]. intros j w [[_ Hj]|[-> Hj]]%lookup_snoc_Some; [by apply Hw|]. by injection Hj as <-.
Qed.

Definition racing (p : Pointers) : @Pool CasRequest (TopologyCasResult * res unit) -> Prop :=
  rtc (pool_step run_request proper_request (untouched topology_key)) (start p).

Lemma racing_sound p w : store_ok p -> stored p topology_key = None -> racing p w ->
  exists h, inv (history_discipline topology_key version_chain) h (pool_store w) /\
    forall i rq a, pool_threads w !! i = Some (rq, Ret a) -> cas_answer rq (wrote_proposal i rq) h a.
Proof.
  intros Hok Hs.
  apply (pool_sound (history_discipline topology_key version_chain)) with (g := []) (Q := fun i rq => cas_answer rq (wrote_proposal i rq)).
  - intros i rq h [Hf Hu] Hw. apply CompareAndSwapTopology_safe; [done| | |done| |].
    + intros h1 h2. apply wrote_proposal_rely.
    + intros El h1 v He Hk Hn. by apply wrote_proposal_write.
    + split; [|done]. intros j v Hj. cbn in Hw. rewrite Forall_lookup in Hw. by apply Hw in Hj.
    + intros v He Hv. split; [done|]. intros h1 Hc _ Hn. eapply version_chain_snoc; [done..|].
      rewrite Hv, <-Hn. apply version_chain_bounded in Hc. unfold INT64_MAX in Hc. apply u64_small. lia.
  - intros i rq. apply cas_answer_stable. intros h1 h2. apply wrote_proposal_rely.
  - intros h p1 p2. apply untouched_inv.
  - cbn. split_and!; [done|done|]. intros j v a. by rewrite lookup_nil.
  - intros i. constructor.
Qed.
End cas.
