(* ===== verification/TaskProgress.v ===== *)
(** * Concurrent progress of one task

    Callers create one deterministic task and mark its scope finished, in any
    interleaving.  The values of the task key are the unfinished task followed by
    the finished one; only the caller that wrote the finished one is told UPDATED,
    and it is told so if the backend loses no answer. *)

From S2P Require Import Prelude Ordered TopologyTypes HashRing BalancedRing TokenPlacement HostPort KeyHelper Hasher.
From S2P Require Import RingTheory HashAlgorithm OwnerSpec PlanningInterface HashPlans Snapshot RepositoryCodec.
From S2P Require Import MembershipTypes MembershipCodec.
From S2P Require Import MemoryKvStore TtlManager WatchRegistry WatchDispatcher CoordinatorStore StoreProgram BackendInterface.
From S2P Require Import TopologyRepository RepositoryTheory.

Definition default_MigrateTaskPb : MigrateTaskPb := {| mtp_target_address := EmptyString; mtp_source_ranges := [] |}.
Definition default_DeleteNodeTaskPb : DeleteNodeTaskPb := {| dtp_failed_address := EmptyString; dtp_recovery_ranges := [] |}.

Definition ranges_of (task : TopologyTask) : list TopologyTaskRange := (task_view task).1.1.1.
Definition id_of (task : TopologyTask) : string := (task_view task).1.1.2.

Lemma ranges_of_set r task : ranges_of (set_ranges r task) = r.
Proof. by destruct task. Qed.

Lemma set_ranges_id task : set_ranges (ranges_of task) task = task.
Proof. by destruct task as [[]|[]]. Qed.

(** ** Fences *)

(** Every range carries the same mark, as in a task that was created and then
    marked as a whole. *)
Definition uniform (task : TopologyTask) : Prop :=
  ranges_of task <> [] /\ exists b, Forall (fun r => tk_finished r = b) (ranges_of task).

Definition finish_task (task : TopologyTask) : TopologyTask := set_ranges (finish_range <$> ranges_of task) task.

Lemma unfinished_uniform (ranges : list TopologyTaskRange) b : Forall (fun r => tk_finished r = b) ranges ->
  List.filter (fun r => negb (tk_finished r)) ranges = if b then [] else ranges.
Proof. induction 1 as [|r l Hr _ IH]; [by destruct b|]. cbn. rewrite Hr, IH. by destruct b. Qed.

(** The fence names this task and covers its whole scope. *)
Definition fence_covers (task : TopologyTask) (fence : TopologyExecutionFence) : bool :=
  bool_decide (tk_range <$> ranges_of task = ef_ranges fence).

Lemma ApplyFence_uniform task fence r : uniform task -> ApplyFenceToTask task fence = Ok r ->
  (exists b, Forall (fun r => tk_finished r = b) (ranges_of task) /\
    r = if fence_covers task fence
        then if b then (task, TP_ALREADY_FINISHED) else (finish_task task, TP_UPDATED)
        else (task, TP_STALE)).
Proof.
  intros [Hne [b Hb]] Hr. exists b. split; [done|]. unfold ApplyFenceToTask in Hr. apply bind_Ok in Hr as (u & _ & Hr).
  unfold fence_covers, finish_task, ranges_of in *. destruct (task_view task) as [[[ranges tid] ep] ex].
  cbn [fst] in *. apply bind_Ok in Hr as (u' & _ & Hr).
  rewrite (unfinished_uniform ranges b Hb) in Hr. destruct b; cbn [is_empty] in Hr.
  - injection Hr as <-. cbn. repeat case_bool_decide; congruence.
  - destruct ranges as [|r0 ranges]; [done|]. cbn [fmap list_fmap is_empty] in *.
    repeat case_bool_decide; cbn [negb] in Hr; congruence.
Qed.

(** ** Values *)

Section values.
Context `{RE2, Protobuf MigrateTaskPb, Protobuf DeleteNodeTaskPb}.

Definition scope_value (task : TopologyTask) (ranges : list TopologyTaskRange) : option string :=
  match task with
  | TaskMigrate t => SerializeToCodedStream {| mtp_target_address := mt_targetAddress t; mtp_source_ranges := EncodeRanges ranges |}
  | TaskDelete t => SerializeToCodedStream {| dtp_failed_address := dt_failedAddress t; dtp_recovery_ranges := EncodeRanges ranges |}
  end.

Lemma encode_scope task v : (EncodeTask task).2 = Ok v -> scope_value task (ranges_of task) = Some v /\ ranges_of task <> [].
Proof.
  destruct task as [t|t]; cbn; unfold EncodeMigrateTask, EncodeDeleteTask;
    intros (u1 & _ & Hv)%bind_Ok; apply bind_Ok in Hv as (u2 & _ & Hv); apply bind_Ok in Hv as (u3 & _ & Hv);
    apply bind_Ok in Hv as (u4 & [_ Hc]%check_Ok%andb_true_iff & [Hs _]%SerializeCanonical_Ok); (split; [done|]);
    intros E; rewrite E in Hc; done.
Qed.

Lemma DecodeRanges_of_encoded ranges r : DecodeRanges (EncodeRanges ranges) = Ok r -> r.1 = ranges.
Proof.
  unfold DecodeRanges. intros (u & _ & Hr)%bind_Ok.
  assert (E : (fun rangePb => {| tk_ownerAddress := rp_owner_address rangePb;
       tk_range := {| tr_from := rp_from rangePb; tr_end := rp_end rangePb |};
       tk_finished := rp_finished rangePb |}) <$> EncodeRanges ranges = ranges).
  { unfold EncodeRanges. rewrite <-list_fmap_compose. rewrite <-(list_fmap_id ranges) at 2. apply list_fmap_ext.
    by intros i [o [f e] b] _. }
  rewrite E in Hr. destruct ranges; [done|]. apply bind_Ok in Hr as (u' & _ & Hr). by injection Hr as <-.
Qed.

Context `{!ProtobufLaws MigrateTaskPb, !ProtobufLaws DeleteNodeTaskPb}.
Context `{!EmptyValue MigrateTaskPb default_MigrateTaskPb, !EmptyValue DeleteNodeTaskPb default_DeleteNodeTaskPb}.

Definition scope_fits (task : TopologyTask) : Prop :=
  ranges_representable (ranges_of task) /\
  ascii_text (match task with TaskMigrate t => mt_targetAddress t | TaskDelete t => dt_failedAddress t end) = true.

Lemma scope_fits_finish task : scope_fits task -> scope_fits (finish_task task).
Proof.
  intros [Hr Ha]. split; [|by destruct task]. unfold finish_task. rewrite ranges_of_set.
  intros r (r0 & -> & Hin)%list_elem_of_fmap. by apply (Hr r0).
Qed.

Lemma decode_scope task ranges v id ty ep t' : scope_fits (set_ranges ranges task) -> scope_value task ranges = Some v ->
  decode_task (TaskKind task) id ty ep v = Ok t' ->
  ranges_of t' = ranges /\ forall R, scope_value t' R = scope_value task R.
Proof.
  intros [Hr Ha] Hs Hd. rewrite ranges_of_set in Hr. destruct task as [t|t]; cbn in *.
  - apply bind_Ok in Hd as (m & Hm & [= <-]). unfold DecodeMigrateTask in Hm.
    apply bind_Ok in Hm as (u1 & _ & Hm). apply bind_Ok in Hm as (u2 & _ & Hm).
    rewrite (parse_serialize _ _ (conj Ha (EncodeRanges_representable _ Hr)) Hs) in Hm.
    apply bind_Ok in Hm as (u3 & _ & Hm). apply bind_Ok in Hm as (u4 & _ & Hm). apply bind_Ok in Hm as (r & Hdr & [= <-]).
    split; [exact (DecodeRanges_of_encoded _ _ Hdr)|done].
  - apply bind_Ok in Hd as (m & Hm & [= <-]). unfold DecodeDeleteTask in Hm.
    apply bind_Ok in Hm as (u1 & _ & Hm). apply bind_Ok in Hm as (u2 & _ & Hm).
    rewrite (parse_serialize _ _ (conj Ha (EncodeRanges_representable _ Hr)) Hs) in Hm.
    apply bind_Ok in Hm as (u3 & _ & Hm). apply bind_Ok in Hm as (u4 & _ & Hm). apply bind_Ok in Hm as (r & Hdr & [= <-]).
    split; [exact (DecodeRanges_of_encoded _ _ Hdr)|done].
Qed.

Lemma decode_empty_task kind id ty ep : is_ok (decode_task kind id ty ep EmptyString) = false.
Proof.
  destruct kind; cbn; unfold DecodeMigrateTask, DecodeDeleteTask; destruct (ValidateTaskContext _ _ _); cbn [mbind res_bind]; try done;
    destruct (check _ _) in |- *; cbn [mbind res_bind]; try done;
    destruct (ParseFromString EmptyString) as [m|] eqn:E in |- *; try done; apply parse_empty in E as ->; done.
Qed.

Lemma scope_value_nonempty task ranges : scope_fits (set_ranges ranges task) -> ranges <> [] ->
  scope_value task ranges <> Some EmptyString.
Proof.
  intros [Hr Ha] Hne Hs. rewrite ranges_of_set in Hr. destruct ranges as [|r0 ranges]; [done|]. destruct task as [t|t]; cbn in *.
  - by pose proof (parse_empty _ (parse_serialize _ _ (conj Ha (EncodeRanges_representable _ Hr)) Hs)).
  - by pose proof (parse_empty _ (parse_serialize _ _ (conj Ha (EncodeRanges_representable _ Hr)) Hs)).
Qed.
End values.

(** ** The history of the task key *)

Inductive TaskRequest := CreateTask | MarkFinished (fence : TopologyExecutionFence).

Section progress.
Context `{RE2, Protobuf ClusterTopologyPb, Protobuf MigrateTaskPb, Protobuf DeleteNodeTaskPb}.
Context `{!ProtobufLaws MigrateTaskPb, !ProtobufLaws DeleteNodeTaskPb}.
Context `{!EmptyValue MigrateTaskPb default_MigrateTaskPb, !EmptyValue DeleteNodeTaskPb default_DeleteNodeTaskPb}.
Context {lossy : bool} `{CoordinationBackend, !CoordinationBackendLaws lossy} (keys_ : TopologyKeyHelper) (task : TopologyTask).
Hypothesis task_ok : scope_fits task.
Hypothesis task_new : Forall (fun r => tk_finished r = false) (ranges_of task).
Hypothesis task_scope : ranges_of task <> [].

Definition task_key : string := BuildPhysicalKey (TaskTable keys_ (TaskKind task)) (id_of task).

Definition is_new (v : string) : Prop := scope_value task (ranges_of task) = Some v.
Definition is_finished (v : string) : Prop := scope_value task (finish_range <$> ranges_of task) = Some v.

(** Created, then finished. *)
Definition lifecycle (h : history) : Prop :=
  match h with
  | [] => True
  | [(u, _)] => is_new u
  | [(u, _); (f, _)] => is_new u /\ is_finished f
  | _ => False
  end.

Lemma lifecycle_bounded : bounded lifecycle.
Proof. intros [|[u a] [|[f b] [|? ?]]]; unfold INT64_MAX; cbn; lia || done. Qed.

(** The newest value is nothing, the unfinished or the finished task. *)
Lemma newest_cases h : lifecycle h ->
  (h = [] /\ newest h = EmptyString) \/
  (exists u a, h = [(u, a)] /\ newest h = u /\ u <> EmptyString /\ is_new u) \/
  (exists u a f b, h = [(u, a); (f, b)] /\ newest h = f /\ f <> EmptyString /\ is_finished f).
Proof.
  assert (Hnew : forall u, is_new u -> u <> EmptyString).
  { intros u Hu ->. eapply (scope_value_nonempty task (ranges_of task)).
    - by rewrite set_ranges_id.
    - done.
    - exact Hu. }
  assert (Hfin : forall f, is_finished f -> f <> EmptyString).
  { intros f Hf ->. eapply (scope_value_nonempty task (finish_range <$> ranges_of task)).
    - apply (scope_fits_finish _ task_ok).
    - by destruct (ranges_of task).
    - exact Hf. }
  destruct h as [|[u a] [|[f b] [|? ?]]]; cbn.
  - by left.
  - right; left. eauto 10.
  - intros [? ?]. right; right. eauto 10.
  - done.
Qed.

(** Applying a fence to a stored value. *)
Lemma mark_value v fence t out t' (finished : bool) : (if finished then is_finished v else is_new v) ->
  decode_task (TaskKind task) (id_of task) (ef_batchType fence) (ef_batchEpoch fence) v = Ok t ->
  ApplyFenceToTask t fence = Ok (t', out) ->
  if finished then out = TP_ALREADY_FINISHED \/ out = TP_STALE
  else out = TP_STALE \/ (out = TP_UPDATED /\ forall w, (EncodeTask t').2 = Ok w -> is_finished w).
Proof.
  intros Hv Hd Ha.
  assert (Hr : ranges_of t = (if finished then finish_range <$> ranges_of task else ranges_of task) /\
               forall R, scope_value t R = scope_value task R).
  { destruct finished; eapply decode_scope; try done; [by apply scope_fits_finish|by rewrite set_ranges_id]. }
  destruct Hr as [Hr Hs].
  assert (Hall : Forall (fun r => tk_finished r = finished) (ranges_of t)).
  { rewrite Hr. destruct finished; [|done]. apply Forall_fmap, Forall_true. done. }
  assert (Hne : ranges_of t <> []) by (rewrite Hr; destruct finished, (ranges_of task); done).
  apply ApplyFence_uniform in Ha as (b & Hb & E); [|by split; eauto].
  assert (b = finished) as ->.
  { destruct (ranges_of t); [done|]. inversion Hb; inversion Hall; congruence. }
  destruct finished; destruct (fence_covers t fence); injection E as -> ->; auto.
  right. split; [done|]. intros w [Hw _]%encode_scope. unfold is_finished. unfold finish_task in Hw.
  rewrite ranges_of_set in Hw. rewrite <-Hs, <-Hr. by destruct t.
Qed.

(** The caller wrote at most entry [k], and nothing if no answer is lost. *)
Definition wrote_only (k i : nat) (h : history) : Prop :=
  (forall j v, h !! j = Some (v, i) -> j = k) /\ (lossy = false -> wrote_nothing i h).

Lemma wrote_only_rely k i h h' key ok : rely (history_discipline key ok) i h h' -> wrote_only k i h -> wrote_only k i h'.
Proof.
  intros Hr [Hw Hl]. split; [|intros E; eapply wrote_nothing_rely; [exact Hr|by apply Hl]].
  destruct Hr as (l & -> & Hi). rewrite Forall_lookup in Hi. intros j v [Hj|[_ Hj]]%lookup_app_Some; [by eapply Hw|]. by apply Hi in Hj.
Qed.

Lemma wrote_only_write k i h v : lossy = true -> length h = k -> wrote_only k i h -> wrote_only k i (h ++ [(v, i)]).
Proof. intros El Hk [Hw _]. split; [|by rewrite El]. intros j w [[_ Hj]|[-> _]]%lookup_snoc_Some; [by eapply Hw|done]. Qed.

Lemma wrote_nothing_only k i h : wrote_nothing i h -> wrote_only k i h.
Proof. intros Hw. split; [|done]. intros j v Hj. unfold wrote_nothing in Hw. rewrite Forall_lookup in Hw. by apply Hw in Hj. Qed.

Definition task_answer (i : nat) (rq : TaskRequest) (h : history) (answer : TaskProgressOutcome * res unit) : Prop :=
  match rq, answer with
  | CreateTask, (_, Ok _) => exists u a, h !! 0%nat = Some (u, a) /\ is_new u
  | MarkFinished _, (TP_UPDATED, Ok _) => exists f, h !! 1%nat = Some (f, i) /\ is_finished f
  | MarkFinished _, (TP_ALREADY_FINISHED, Ok _) => wrote_only 1 i h /\ exists f a, h !! 1%nat = Some (f, a) /\ is_finished f
  | CreateTask, _ => wrote_only 0 i h
  | MarkFinished _, _ => wrote_only 1 i h
  end.

Definition run_task (rq : TaskRequest) : prog (TaskProgressOutcome * res unit) :=
  match rq with
  | CreateTask => r ← CreateTaskIfAbsent keys_ task; Ret (TP_UNKNOWN, r)
  | MarkFinished fence => MarkTaskScopeFinished keys_ fence
  end.

Definition task_request (rq : TaskRequest) : Prop :=
  match rq with
  | CreateTask => True
  | MarkFinished fence => ef_taskKind fence = TaskKind task /\ ef_taskId fence = id_of task
  end.

Abbreviation D := (history_discipline task_key lifecycle).

Lemma create_process_spec i bytes : is_new bytes ->
  process_spec lossy lifecycle i (create_process task bytes) (fun h _ => wrote_only 0 i h)
    (fun h _ r => task_answer i CreateTask h (TP_UNKNOWN, r)).
Proof.
  intros Hb. split.
  - intros h h' c. by apply wrote_only_rely.
  - done.
  - intros h c Hl Hw. unfold create_process. destruct (IsTaskDeleteTombstone (newest h)); [done|].
    destruct (newest_cases h Hl) as [[-> ->]|[(u & a & -> & -> & Hne & Hu)|(u & a & f & b & -> & -> & Hne & Hf)]].
    + cbn. split_and!; [done|done|by intros El; apply (wrote_only_write 0 i [])|]. eauto.
    + rewrite bool_decide_false by done. destruct (ValidateCompatibleTask task u); cbn; [eauto|done].
    + rewrite bool_decide_false by done. destruct (ValidateCompatibleTask task f); cbn; [|done]. destruct Hl. eauto.
Qed.

Lemma get_value_safe table key ok i h : bounded ok ->
  safe (history_discipline (BuildPhysicalKey table key) ok) i (get_value table key)
    (fun h' r => rely (history_discipline (BuildPhysicalKey table key) ok) i h h' /\
       match r with Ok v => ok h' /\ h' <> [] /\ v = newest h' | Err _ => True end) h.
Proof.
  intros Hb. unfold get_value. eapply safe_try; [by apply be_Get_law| |].
  - intros h1 r (Hr & Hok & Hne & Hv). cbn. done.
  - intros h1 c [Hr _]. done.
Qed.

Lemma nonempty_created h : lifecycle h -> h <> [] -> exists u a, h !! 0%nat = Some (u, a) /\ is_new u.
Proof. destruct h as [|[u a] [|[f b] [|? ?]]]; cbn; intros Hl Hne; try done; [eauto|]. destruct Hl. eauto. Qed.

Lemma create_safe i h : wrote_only 0 i h -> safe D i (run_task CreateTask) (task_answer i CreateTask) h.
Proof.
  intros Hw. cbn [run_task]. unfold CreateTaskIfAbsent.
  assert (EncodeTask task = (id_of task, TaskKind task, (EncodeTask task).2)) as -> by (by destruct task).
  destruct (EncodeTask task).2 as [bytes|c] eqn:He; [|done]. apply encode_scope in He as [Hb _].
  eapply safe_bind with (Q := fun h' r => task_answer i CreateTask h' (TP_UNKNOWN, r)); [|done].
  change (lift (Ok bytes)) with (@Ret (res string) (Ok bytes)). unfold try_bind. cbn [mbind prog_bind].
  eapply safe_bind; [eapply be_CAS_law; [apply lifecycle_bounded|by apply create_process_spec|done]|].
  intros h1 [u [r|c]] Hq; [done|]. unfold ResolveCompatibleTaskWrite. cbn [snd fst erase] in *.
  eapply safe_bind; [apply get_value_safe, lifecycle_bounded|]. intros h2 [v|c2] [Hr Hx]; cbn.
  - destruct Hx as (Hl & Hne & ->). pose proof (wrote_only_rely _ _ _ _ _ _ Hr Hq) as Hw2.
    destruct (IsTaskDeleteTombstone _); [done|]. destruct (ValidateCompatibleTask _ _); [|done]. by apply nonempty_created.
  - by eapply wrote_only_rely.
Qed.

Lemma mark_process_spec i fence : task_request (MarkFinished fence) ->
  process_spec lossy lifecycle i (mark_process fence) (fun h _ => wrote_only 1 i h)
    (fun h out r => task_answer i (MarkFinished fence) h (out, r)).
Proof.
  intros [Hk Hid]. split.
  - intros h h' c. by apply wrote_only_rely.
  - intros h c code Hw. by destruct c.
  - intros h c Hl Hw. unfold mark_process. rewrite Hk, Hid.
    destruct (newest_cases h Hl) as [[-> ->]|[(u & a & -> & -> & Hne & Hu)|(u & a & f & b & -> & -> & Hne & Hf)]].
    + pose proof (decode_empty_task (TaskKind task) (id_of task) (ef_batchType fence) (ef_batchEpoch fence)) as Hd.
      destruct (decode_task _ _ _ _ _); [done|]. by destruct c.
    + destruct (decode_task _ _ _ _ u) as [t|code] eqn:Hd; [|by destruct c].
      destruct (ApplyFenceToTask t fence) as [[t' out]|code] eqn:Ha; [|by destruct c].
      destruct (mark_value u fence t out t' false Hu Hd Ha) as [->|[-> Hw']]; [done|].
      destruct (EncodeTask t').2 as [w|code] eqn:Ew; cbn; [|done]. split_and!; [done|done|by apply Hw'|by intros El; apply (wrote_only_write 1 i [(u, a)])|]. eauto.
    + destruct (decode_task _ _ _ _ f) as [t|code] eqn:Hd; [|by destruct c].
      destruct (ApplyFenceToTask t fence) as [[t' out]|code] eqn:Ha; [|by destruct c].
      destruct (mark_value f fence t out t' true Hf Hd Ha) as [->| ->]; cbn; [|done]. split; [done|]. eauto.
Qed.

(** Reading the task back after a failed write. *)
Lemma ReadTask_safe i fence h : task_request (MarkFinished fence) -> wrote_only 1 i h ->
  safe D i (ReadTask keys_ (ef_taskKind fence) (ef_taskId fence) (ef_batchType fence) (ef_batchEpoch fence))
    (fun h' r => wrote_only 1 i h' /\ match r with
       | Ok t => forall t' , ApplyFenceToTask t fence = Ok (t', TP_ALREADY_FINISHED) ->
                 exists f a, h' !! 1%nat = Some (f, a) /\ is_finished f
       | Err _ => True end) h.
Proof.
  intros [Hk Hid] Hw. unfold ReadTask. rewrite Hk, Hid. unfold TaskKey, lift. destruct (IsValidTaskId (id_of task)); [|done].
  unfold try_bind at 1. cbn [mbind prog_bind].
  eapply safe_try; [apply get_value_safe, lifecycle_bounded| |].
  - intros h1 v (Hr & Hl & Hne & ->). pose proof (wrote_only_rely _ _ _ _ _ _ Hr Hw) as Hw1.
    destruct (negb (IsTaskDeleteTombstone (newest h1))); [|done]. cbn. split; [done|].
    destruct (decode_task _ _ _ _ _) as [t|] eqn:Hd; [|done]. intros t' Ha.
    destruct (newest_cases h1 Hl) as [[-> _]|[(u & a & -> & E & _ & Hu)|(u & a & f & b & -> & E & _ & Hf)]]; rewrite ?E in Hd; [done| |].
    + by destruct (mark_value u fence t _ t' false Hu Hd Ha) as [?|[? _]].
    + eauto.
  - intros h1 c [Hr _]. split; [|done]. by eapply wrote_only_rely.
Qed.

Lemma mark_safe i fence h : task_request (MarkFinished fence) -> wrote_only 1 i h ->
  safe D i (run_task (MarkFinished fence)) (task_answer i (MarkFinished fence)) h.
Proof.
  intros Hreq Hw. cbn [run_task]. unfold MarkTaskScopeFinished. pose proof Hreq as [Hk Hid].
  eapply (safe_bind _ _ _ _ (fun h' r => task_answer i (MarkFinished fence) h' (r.1, erase r.2))).
  - rewrite Hk, Hid. eapply (be_CAS_law lifecycle _ _ i _ _ (fun h out r => task_answer i (MarkFinished fence) h (out, r)));
      [apply lifecycle_bounded|by apply mark_process_spec|done].
  - intros h1 [out [r|code]] Hq; cbn [fst snd erase] in Hq; [done|].
    assert (Hw1 : wrote_only 1 i h1) by (by destruct out).
    eapply safe_bind; [by apply ReadTask_safe|]. intros h2 [t|c2] [Hw2 Hx]; cbn; [|done].
    destruct (ApplyFenceToTask t fence) as [[t' o]|c3] eqn:Ha; [|done]. case_bool_decide as Eo; cbn; [|done]. subst o. eauto.
Qed.

Lemma task_answer_stable i rq : stable D i (task_answer i rq).
Proof.
  intros h h' [out r] Hr. pose proof (fun k => wrote_only_rely k i h h' _ _ Hr) as Hw.
  pose proof (fun j x => lookup_rely i h h' _ _ j x Hr) as Hl.
  destruct rq as [|fence], out, r; cbn; naive_solver.
Qed.

Definition task_race (p : Pointers) : @Pool TaskRequest (TaskProgressOutcome * res unit) -> Prop :=
  rtc (pool_step run_task task_request (untouched task_key)) (start p).

Lemma task_race_sound p w : store_ok p -> stored p task_key = None -> task_race p w ->
  exists h, inv D h (pool_store w) /\
    forall i rq a, pool_threads w !! i = Some (rq, Ret a) -> task_answer i rq h a.
Proof.
  intros Hok Hs. apply (pool_sound D) with (g := []).
  - intros i [|fence] h Hp Hf; [apply create_safe|apply mark_safe; [done|]]; by apply wrote_nothing_only.
  - apply task_answer_stable.
  - intros h p1 p2. apply untouched_inv.
  - cbn. done.
  - intros i. constructor.
Qed.
End progress.
