(* ===== verification/RepositoryClaims.v ===== *)
(** * Properties of the topology repository

    First the rotating pages of [VisitRotatingPage]: consecutive pages of an
    unchanged table continue where the previous one stopped and reach every entry.
    Then concurrent callers: topology updates form one history and a task is
    finished once. *)

From S2P Require Import Prelude Ordered TopologyTypes HashRing BalancedRing TokenPlacement HostPort KeyHelper Hasher.
From S2P Require Import RingTheory HashAlgorithm OwnerSpec PlanningInterface HashPlans Snapshot RepositoryCodec.
From S2P Require Import MembershipTypes MembershipCodec.
From S2P Require Import MemoryKvStore TtlManager WatchRegistry WatchDispatcher CoordinatorStore StoreProgram BackendInterface.
From S2P Require Import TopologyRepository.
From S2P Require Import CodecClaims.
From S2P Require Import StoreBackend BackendTheory RepositoryTheory TaskProgress.

Abbreviation entries := (list (string * string)).

(** The entries at the positions [from], [from + 1], ..., counted around the table. *)
Definition around (l : entries) (from n : nat) : entries :=
  omap (fun k => l !! (k mod length l)%nat) (seq from n).

Lemma lookup_mod (l : entries) k : l <> [] -> exists e, l !! (k mod length l)%nat = Some e.
Proof. intros Hl. apply lookup_lt_is_Some_2, Nat.mod_upper_bound. by destruct l. Qed.

Lemma around_S l from n e : l !! (from mod length l)%nat = Some e -> around l from (S n) = e :: around l (S from) n.
Proof. intros He. unfold around. cbn [seq omap list_omap]. by rewrite He. Qed.

Lemma around_app l from n m : around l from (n + m) = around l from n ++ around l (from + n) m.
Proof. unfold around. by rewrite seq_app, omap_app. Qed.

Lemma around_congr l a b n : (a mod length l = b mod length l)%nat -> around l a n = around l b n.
Proof.
  unfold around. revert a b. induction n as [|n IH]; intros a b Hab; [done|]. cbn [seq omap list_omap]. rewrite Hab.
  rewrite (IH (S a) (S b)); [done|]. rewrite <-(Nat.add_1_r a), <-(Nat.add_1_r b).
  rewrite <-(Nat.Div0.add_mod_idemp_l a), Hab. apply Nat.Div0.add_mod_idemp_l.
Qed.

Lemma around_mod l from n : l <> [] -> around l (from mod length l) n = around l from n.
Proof. intros Hl. apply around_congr, Nat.Div0.mod_mod. Qed.

Lemma elem_of_around l from n e : (length l <= n)%nat -> e ∈ l -> e ∈ around l from n.
Proof.
  intros Hn [j Hj]%list_elem_of_lookup. assert (Hlt : (j < length l)%nat) by (by eapply lookup_lt_Some).
  rewrite <-around_mod by (by destruct l). set (s := (from mod length l)%nat).
  assert (s < length l)%nat by (apply Nat.mod_upper_bound; lia).
  apply list_elem_of_omap. exists (if (s <=? j)%nat then j else (j + length l)%nat). split.
  - apply elem_of_seq. destruct (Nat.leb_spec s j); lia.
  - destruct (Nat.leb_spec s j).
    + by rewrite Nat.mod_small.
    + replace (j + length l)%nat with (j + 1 * length l)%nat by lia. by rewrite Nat.Div0.mod_add, Nat.mod_small.
Qed.

Lemma length_around l from n : l <> [] -> length (around l from n) = n.
Proof.
  intros Hl. revert from. induction n as [|n IH]; intros from; [done|].
  destruct (lookup_mod l from Hl) as [e E]. rewrite (around_S _ _ _ _ E). cbn. by rewrite IH.
Qed.

Lemma NoDup_around l from n : NoDup l -> (n <= length l)%nat -> NoDup (around l from n).
Proof.
  intros Hnd Hn. destruct (decide (l = [])) as [->|Hl]; [cbn in Hn; assert (n = 0%nat) as -> by lia; constructor|].
  assert (Hlk : forall i, (i < n)%nat -> around l from n !! i = l !! ((from + i) mod length l)%nat).
  { clear Hn. revert from. induction n as [|n IH]; intros from i Hi; [lia|].
    destruct (lookup_mod l from Hl) as [e E].
    rewrite (around_S _ _ _ _ E). destruct i as [|i]; [by rewrite Nat.add_0_r|].
    change ((e :: around l (S from) n) !! S i) with (around l (S from) n !! i).
    rewrite IH by lia. do 2 f_equal. lia. }
  apply NoDup_alt. intros i j x Hi Hj.
  assert (i < n)%nat by (apply lookup_lt_Some in Hi; by rewrite length_around in Hi).
  assert (j < n)%nat by (apply lookup_lt_Some in Hj; by rewrite length_around in Hj).
  rewrite Hlk in Hi, Hj by done. pose proof (NoDup_lookup _ _ _ _ Hnd Hi Hj) as E.
  assert (length l <> 0%nat) by (by destruct l).
  pose proof (Nat.div_mod_eq (from + i) (length l)) as Di. pose proof (Nat.div_mod_eq (from + j) (length l)) as Dj.
  rewrite E in Di. revert Di Dj. generalize ((from + i) / length l)%nat, ((from + j) / length l)%nat. intros a b Di Dj.
  destruct (Nat.lt_trichotomy a b) as [Hab|[->|Hab]]; [exfalso|lia|exfalso].
  - assert (length l * (a + 1) <= length l * b)%nat by (apply Nat.mul_le_mono_l; lia). lia.
  - assert (length l * (b + 1) <= length l * a)%nat by (apply Nat.mul_le_mono_l; lia). lia.
Qed.

(** ** The loop *)

Section loop.
Context {V : Type} (visit : V -> string * string -> res V) (l : entries).

Lemma visit_loop_around count index cursor v r : (index < length l)%nat ->
  visit_loop visit count index l cursor v = Ok r ->
  r.1 = (match last (around l index count) with Some e => e.1 | None => cursor end) /\
  foldM visit v (around l index count) = Ok r.2.
Proof.
  revert index cursor v. induction count as [|count IH]; intros index cursor v Hi Hr; cbn [visit_loop] in Hr.
  - by injection Hr as <-.
  - destruct (l !! index) as [e|] eqn:E; [|done]. apply bind_Ok in Hr as (v' & Hv & Hr).
    rewrite (around_S l index count e) by (by rewrite Nat.mod_small).
    assert (Hl : l <> []) by (by intros ->).
    apply IH in Hr; [|apply Nat.mod_upper_bound; by destruct l].
    rewrite Nat.add_1_r, around_mod in Hr by done. destruct Hr as [Hc Hf]. cbn [foldM]. rewrite Hv. cbn [mbind res_bind].
    split; [|done]. rewrite Hc. destruct (around l (S index) count) as [|e' l'] eqn:Ea; [done|].
    change (last (e :: e' :: l')) with (last (e' :: l')). destruct (last (e' :: l')) eqn:El; [done|]. by apply last_None in El.
Qed.

Lemma visit_loop_total count index cursor v : (index < length l)%nat -> (forall v e, is_ok (visit v e) = true) ->
  is_ok (visit_loop visit count index l cursor v) = true.
Proof.
  intros Hi Hv. revert index cursor v Hi. induction count as [|count IH]; intros index cursor v Hi; [done|]. cbn [visit_loop].
  destruct (lookup_lt_is_Some_2 l index Hi) as [e ->]. specialize (Hv v e). destruct (visit v e); [|done].
  cbn [mbind res_bind]. apply IH, Nat.mod_upper_bound. destruct l; [cbn in Hi; lia|done].
Qed.
End loop.

(** ** The cursor *)

Lemma upper_index_at l q e : om_sorted l -> l !! q = Some e -> upper_index e.1 l = S q.
Proof.
  intros Hs. revert q. induction Hs as [|x l Hs IH Hx]; intros q Hq; [done|]. cbn [upper_index].
  destruct q as [|q].
  - injection Hq as ->. rewrite ltk_irrefl. f_equal. destruct l as [|y l]; [done|]. cbn.
    rewrite Forall_cons in Hx. destruct Hx as [Hx _]. unfold key_lt in Hx. by rewrite Hx.
  - cbn in Hq. rewrite Forall_forall in Hx. specialize (Hx e (list_elem_of_lookup_2 _ _ _ Hq)). unfold key_lt in Hx.
    rewrite (IH q Hq). destruct (ltk e.1 x.1) eqn:E; [|done].
    pose proof (ltk_trans _ _ _ Hx E) as Hc. by rewrite ltk_irrefl in Hc.
Qed.

Lemma upper_index_le cursor l : (upper_index cursor l <= length l)%nat.
Proof. induction l as [|e l IH]; [done|]. cbn. case_match; lia. Qed.

Definition start_index (cursor : string) (l : entries) : nat :=
  if (upper_index cursor l =? length l)%nat then 0%nat else upper_index cursor l.

Lemma start_index_lt cursor l : l <> [] -> (start_index cursor l < length l)%nat.
Proof.
  intros Hl. unfold start_index. pose proof (upper_index_le cursor l). destruct (Nat.eqb_spec (upper_index cursor l) (length l)); [|lia].
  destruct l; [done|cbn; lia].
Qed.

(** The next page starts after the last entry of this one. *)
Lemma next_start l from count e : om_sorted l -> l <> [] -> (0 < count)%nat -> last (around l from count) = Some e ->
  start_index e.1 l = ((from + count) mod length l)%nat.
Proof.
  intros Hs Hl Hc He. destruct count as [|count]; [lia|]. rewrite <-Nat.add_1_r, around_app in He.
  assert (Hm : (0 < length l)%nat) by (destruct l; [done|cbn; lia]).
  destruct (lookup_mod l (from + count) Hl) as [e' E].
  rewrite (around_S _ _ _ _ E) in He. change (around l (S (from + count)) 0) with (@nil (string * string)) in He. rewrite last_snoc in He. injection He as ->. unfold start_index. rewrite (upper_index_at l _ e Hs E).
  pose proof (Nat.mod_upper_bound (from + count) (length l) ltac:(lia)) as Hq.
  replace (from + S count)%nat with (from + count + 1)%nat by lia. rewrite <-(Nat.Div0.add_mod_idemp_l (from + count) 1). set (q := ((from + count) mod length l)%nat) in *.
  rewrite Nat.add_1_r. destruct (Nat.eqb_spec (S q) (length l)) as [->|]; [by rewrite Nat.Div0.mod_same|].
  by rewrite Nat.mod_small by lia.
Qed.

(** ** Pages *)

Definition collect (page : entries) (entry : string * string) : res entries := Ok (page ++ [entry]).

Lemma foldM_collect acc l : foldM collect acc l = Ok (acc ++ l).
Proof. revert acc. induction l as [|e l IH]; intros acc; cbn; [by rewrite app_nil_r|]. rewrite IH. by rewrite <-app_assoc. Qed.

Lemma sorted_table (values : entries) : NoDup values.*1 -> om_sorted (sort_on fst values).
Proof.
  intros Hnd. pose proof (sort_on_sorted fst values) as Hs.
  assert (Hnd' : NoDup (sort_on fst values).*1) by (by rewrite (sort_on_perm fst values)).
  revert Hs Hnd'. generalize (sort_on fst values). clear. intros l Hs. induction Hs as [|x l Hs IH Hx]; intros Hnd; [constructor|].
  cbn in Hnd. apply NoDup_cons in Hnd as [Hn Hnd]. constructor; [by apply IH|].
  rewrite Forall_forall in *. intros y Hy. specialize (Hx y Hy). unfold key_lt, key_le in *.
  destruct (ltk x.1 y.1) eqn:E; [done|]. exfalso. apply Hn. rewrite (ltk_total x.1 y.1) by done. by apply list_elem_of_fmap_2.
Qed.

(** A page is the stretch of the sorted table after the cursor. *)
Lemma page_around values limit cursor : NoDup values.*1 -> values <> [] -> (0 < limit)%nat ->
  let l := sort_on fst values in
  exists next, VisitRotatingPage collect values limit cursor [] =
      Ok (next, around l (start_index cursor l) (Nat.min limit (length l))) /\
    start_index next l = ((start_index cursor l + Nat.min limit (length l)) mod length l)%nat.
Proof.
  intros Hnd Hne Hlim l.
  assert (Hl : l <> []).
  { intros E. pose proof (sort_on_perm fst values) as Hp. fold l in Hp. rewrite E in Hp. by apply Permutation_nil in Hp. }
  assert (Hc : (0 < Nat.min limit (length l))%nat) by (destruct l; [done|cbn; lia]).
  unfold VisitRotatingPage. fold l. destruct (is_empty l) eqn:Ee; [by destruct l|]. fold (start_index cursor l).
  pose proof (start_index_lt cursor l Hl) as Hi. set (count := Nat.min limit (length l)) in *. clearbody count.
  pose proof (visit_loop_total collect l count (start_index cursor l) cursor [] Hi ltac:(done)) as Hok.
  destruct (visit_loop collect count (start_index cursor l) l cursor []) as [[next page]|] eqn:E; [|done].
  apply visit_loop_around in E as [Hn Hp]; [|done]. rewrite foldM_collect in Hp. injection Hp as <-. exists next.
  split; [done|]. cbn in Hn. destruct (last (around l (start_index cursor l) count)) as [e|] eqn:El.
  - rewrite Hn. by apply next_start; [apply sorted_table|..].
  - apply last_None in El. apply (f_equal length) in El. rewrite length_around in El by done. cbn in El. lia.
Qed.

(** [pages] consecutive pages of an unchanged table. *)
Fixpoint scan (pages : nat) (values : entries) (limit : nat) (cursor : string) : entries :=
  match pages with
  | O => []
  | S pages =>
      match VisitRotatingPage collect values limit cursor [] with
      | Ok (next, page) => page ++ scan pages values limit next
      | Err _ => []
      end
  end.

Lemma scan_around pages values limit cursor : NoDup values.*1 -> values <> [] -> (0 < limit)%nat ->
  let l := sort_on fst values in
  scan pages values limit cursor = around l (start_index cursor l) (pages * Nat.min limit (length l)).
Proof.
  intros Hnd Hne Hlim l. revert cursor. induction pages as [|pages IH]; intros cursor; [done|].
  destruct (page_around values limit cursor Hnd Hne Hlim) as (next & Hp & Hs). cbn [scan]. rewrite Hp, IH. fold l in Hs |- *.
  rewrite Hs. cbn [Nat.mul]. rewrite around_app. f_equal. apply around_congr, Nat.Div0.mod_mod.
Qed.

Section claims.
Context `{RE2, Protobuf ClusterTopologyPb, MapIteration}.
Context `{!ExactParse ClusterTopologyPb, !MapIterationLaws, !EmptyValue ClusterTopologyPb default_ClusterTopologyPb}.
Context {lossy : bool} `{CoordinationBackend, !CoordinationBackendLaws lossy} (keys_ : TopologyKeyHelper).

(** C10: whatever the interleaving of any number of topology updates with each other
    and with requests on other keys, the values of the topology key form one
    history in which entry [j] has version [j + 1], so no version is skipped or
    overwritten.  An answer COMMITTED means the proposed topology is in the history
    right after the expected version.  CONFLICT and UNKNOWN mean that the caller
    wrote at most its proposal, at that place (a [lossy] backend may store it and
    report an error), and wrote nothing if the backend loses no answer.  Of the
    callers that expected the same version only those proposing the same bytes are
    told COMMITTED: no update is lost. *)
Theorem topology_updates_serialize p w : store_ok p -> stored p (topology_key keys_) = None -> racing keys_ p w ->
  exists h, tracks (topology_key keys_) h (pool_store w) /\ version_chain h /\
    (forall i rq a, pool_threads w !! i = Some (rq, Ret a) -> cas_answer rq (wrote_proposal (lossy := lossy) i rq) h a) /\
    forall i j rq rq' r r' s s',
      pool_threads w !! i = Some (rq, Ret (r, s)) -> pool_threads w !! j = Some (rq', Ret (r', s')) ->
      cr_outcome r = CAS_COMMITTED -> cr_outcome r' = CAS_COMMITTED ->
      rq_expectedVersion rq = rq_expectedVersion rq' ->
      EncodeTopology (rq_desired rq) = EncodeTopology (rq_desired rq').
Proof.
  intros Hok Hs Hw. destruct (racing_sound keys_ p w Hok Hs Hw) as (h & (_ & Ht & Hc) & Ha).
  exists h. split_and!; [done|done|done|]. intros i j rq rq' r r' s s' Hi Hj Hr Hr' He.
  apply Ha in Hi, Hj. cbn in Hi, Hj. rewrite Hr in Hi. rewrite Hr' in Hj.
  destruct Hi as (_ & _ & v & a & Hv & Hl), Hj as (_ & _ & v' & a' & Hv' & Hl'). rewrite He in Hl. congruence.
Qed.
End claims.

Section task_claims.
Context `{RE2, Protobuf ClusterTopologyPb, Protobuf MigrateTaskPb, Protobuf DeleteNodeTaskPb}.
Context `{!ProtobufLaws MigrateTaskPb, !ProtobufLaws DeleteNodeTaskPb}.
Context `{!EmptyValue MigrateTaskPb default_MigrateTaskPb, !EmptyValue DeleteNodeTaskPb default_DeleteNodeTaskPb}.
Context {lossy : bool} `{CoordinationBackend, !CoordinationBackendLaws lossy} (keys_ : TopologyKeyHelper).

(** C11: while any number of callers create one task and mark its scope finished, in
    any interleaving, the task key holds nothing, then the task as created, then
    the task with every range finished, and never goes back.  The creators that are
    told success find the task stored, at most one caller is told UPDATED and it is
    the one that wrote the finished task, ALREADY_FINISHED is only told when the
    finished task is stored.  If the backend loses no answer, every other answer
    means that the caller wrote nothing, and the caller that wrote the finished task
    is told UPDATED; with a [lossy] backend it may be told that the task was already
    finished, or an error. *)
Theorem task_finished_once task p w : scope_fits task -> ranges_of task <> [] ->
  Forall (fun r => tk_finished r = false) (ranges_of task) ->
  store_ok p -> stored p (task_key keys_ task) = None -> task_race keys_ task p w ->
  exists h, tracks (task_key keys_ task) h (pool_store w) /\ lifecycle task h /\
    (forall i rq a, pool_threads w !! i = Some (rq, Ret a) -> task_answer (lossy := lossy) task i rq h a) /\
    (forall i j f f' s s',
      pool_threads w !! i = Some (MarkFinished f, Ret (TP_UPDATED, Ok s)) ->
      pool_threads w !! j = Some (MarkFinished f', Ret (TP_UPDATED, Ok s')) -> i = j) /\
    (lossy = false -> forall i f v a, h !! 1%nat = Some (v, i) -> pool_threads w !! i = Some (MarkFinished f, Ret a) ->
      a = (TP_UPDATED, Ok tt)).
Proof.
  intros Hfit Hne Hnew Hok Hs Hw. destruct (task_race_sound keys_ task Hfit Hnew Hne p w Hok Hs Hw) as (h & (_ & Ht & Hl) & Ha).
  exists h. split_and!; [done|done|done| |].
  - intros i j f f' s s' Hi Hj. apply Ha in Hi as (v & Hi & _), Hj as (v' & Hj & _). congruence.
  - intros El i f v a Hv Hi. apply Ha in Hi. assert (Hno : ~ wrote_only (lossy := lossy) 1 i h).
    { intros [_ Hn]. specialize (Hn El). unfold wrote_nothing in Hn. rewrite Forall_lookup in Hn. by apply Hn in Hv. }
    destruct a as [out [[]|code]], out; cbn in Hi; try done. by destruct Hi.
Qed.
End task_claims.

(** the pages of the janitor are fair: each page lists distinct entries of the
    table, as many as the limit allows, and once the pages together are as long
    as the table every entry has been listed, wherever the cursor started. *)
Theorem janitor_pages_fair values limit pages cursor : NoDup values.*1 -> (0 < limit)%nat ->
  (length values <= pages * limit)%nat ->
  (forall e, e ∈ values -> e ∈ scan pages values limit cursor) /\
  exists next page, VisitRotatingPage collect values limit cursor [] = Ok (next, page) /\
    NoDup page /\ length page = Nat.min limit (length values) /\ forall e, e ∈ page -> e ∈ values.
Proof.
  intros Hnd Hlim Hlen. destruct (decide (values = [])) as [->|Hne].
  { split; [by intros e ?%not_elem_of_nil|]. exists EmptyString, []. split_and!; try done; [constructor|].
    cbn. by rewrite Nat.min_0_r. }
  pose proof (length_sort_on fst values) as Hls. destruct (page_around values limit cursor Hnd Hne Hlim) as (next & Hp & _).
  assert (Hl : sort_on fst values <> []) by (intros E; rewrite E in Hls; by destruct values).
  split.
  - intros e He. rewrite (scan_around pages values limit cursor Hnd Hne Hlim). apply elem_of_around; [|by apply elem_of_sort_on].
    rewrite Hls. destruct (Nat.min_spec limit (length values)) as [[_ ->]|[_ ->]]; [done|].
    destruct pages; [cbn in Hlen; by destruct values|cbn; lia].
  - exists next, (around (sort_on fst values) (start_index cursor (sort_on fst values)) (Nat.min limit (length (sort_on fst values)))).
    split_and!; [done| | |].
    + apply NoDup_around; [|lia]. rewrite (sort_on_perm fst values). by eapply NoDup_fmap_1.
    + by rewrite length_around, Hls.
    + intros e (k & _ & He%list_elem_of_lookup_2)%list_elem_of_omap. by apply elem_of_sort_on in He.
Qed.

(** a listing of a table through the process-local backend returns, at the
    revision of the store, exactly the entries below the table, each once, with
    their keys relative to the table. *)
Theorem table_listing_exact now table p s : table <> EmptyString -> CheckInitialized p = Ok s ->
  om_sorted (data_ (memKvStore_ s)) ->
  exists kvs, run now (GetAll table) p = (Ok (kvs, revision_ (memKvStore_ s)), p) /\ NoDup kvs.*1 /\
    forall k v, (k, v) ∈ kvs <-> exists e, stored p (BuildPhysicalKey table k) = Some e /\ ve_value e = v.
Proof. apply GetAll_lists. Qed.

Section membership_claims.
Context `{Protobuf WorkerServiceInfoPb, !ProtobufLaws WorkerServiceInfoPb, !MembershipTags}.

(** a membership value survives encoding and decoding, is never mistaken for a
    text value of an earlier release, and such a text value, with a timestamp of
    digits or an underscore, a state name and optionally host and version, decodes
    to its fields. *)
Theorem membership_values_decode :
  (forall value bytes, is_i64 (mv_timestamp value) -> ascii_text (mv_hostId value) = true ->
     ascii_text (mv_compatibilityVersion value) = true -> Encode value = Ok bytes ->
     LooksLikeLegacyEtcdValue bytes = false /\ Decode bytes = Ok value) /\
  (forall t ts state s tail, legacy_timestamp t = Some ts -> legacy_state state = Some s ->
     (forall h v, tail = Some (h, v) -> no_delimiter h) ->
     size (legacy_value t s tail) <= MAX_MEMBERSHIP_VALUE_BYTES ->
     Decode (legacy_value t s tail) = Ok {| mv_timestamp := ts; mv_lifecycleState := state;
       mv_hostId := match tail with Some (h, _) => h | None => EmptyString end;
       mv_compatibilityVersion := match tail with Some (_, Some v) => v | _ => EmptyString end |}).
Proof.
  split.
  - intros value bytes Ht Hh Hc He. split; [|by apply membership_roundtrip].
    unfold Encode in He. apply bind_Ok in He as (z & _ & He). destruct (SerializeToCodedStream _) as [v|] eqn:Es in He; [|done].
    inv_ok. by eapply serialized_not_legacy.
  - intros t ts state s tail Ht Hs Htail Hsz. unfold Decode. rewrite (proj2 (Z.ltb_ge _ _)) by done.
    rewrite (legacy_value_recognised t ts) by done. by apply legacy_value_decodes.
Qed.
End membership_claims.

(** ** Witnesses *)

Import HashPlans.Demo ReferenceEngine ReferenceWire.

Lemma bits_nonempty q : bits q <> EmptyString.
Proof. by destruct q. Qed.

Lemma empty_value_countable {M} `{Countable M} (d : M) : ParseFromString EmptyString = @None M -> EmptyValue M d.
Proof. intros Hn. split; [intros m Hm; congruence|]. intros m [= Hm]. by apply bits_nonempty in Hm. Qed.

#[export] Instance reference_exact_topology : ExactParse ClusterTopologyPb.
Proof.
  intros m v m' _ Hs Hp. assert (ParseFromString v = Some m) by (by apply (countable_wire_laws ClusterTopologyPb (H0 := fun _ => True))).
  congruence.
Qed.
#[export] Instance reference_empty_topology : EmptyValue ClusterTopologyPb default_ClusterTopologyPb.
Proof. by apply empty_value_countable. Qed.

Definition demo_keys : TopologyKeyHelper := new_TopologyKeyHelper "demo".

Definition empty_store : Pointers := pointers_to
  {| memKvStore_ := SetMutationCallback new_MemoryKvStore; watchDispatcher_ := new_WatchDispatcher 1 new_WatchRegistry; ttlManager_ := new_TtlManager |}.

(** Two callers propose different first topologies; their requests alternate. *)
Definition first_topology (tokensPerMember : Z) : TopologyState :=
  {| ts_clusterHasInit := false; ts_version := 1; ts_members := []; ts_activeBatch := None;
     ts_tokensPerMember := tokensPerMember |}.
Definition proposal (tokensPerMember : Z) : CasRequest :=
  {| rq_expectedVersion := 0; rq_desired := first_topology tokensPerMember; rq_expectedAuthorityRevision := 0 |}.

Lemma proposal_proper n : proper_request (proposal n).
Proof. split; [intros m Hm%not_elem_of_nil; done|cbn; lia]. Qed.

(** The answers of the writes are lost: the first caller stores its proposal, sees an
    error, and finds the proposal when it reads back. *)
Section losing.
#[local] Existing Instance LosingBackend.
#[local] Existing Instance LosingBackend_laws.

Definition contest : list Event :=
  [Spawn (proposal 2); Spawn (proposal 3); Step 0 0; Step 1 0; Step 0 0; Step 1 0; Step 1 0; Step 0 0; Step 1 0; Step 1 0].

Definition after_contest : Pool := foldl (do_event (run_request demo_keys)) (start empty_store) contest.

Lemma contest_races : racing demo_keys empty_store after_contest.
Proof.
  apply schedule_reaches. intros rq Hrq. unfold contest in Hrq. rewrite !elem_of_cons in Hrq.
  destruct_or! Hrq; try discriminate; try (injection Hrq as ->; apply proposal_proper). by apply not_elem_of_nil in Hrq.
Qed.

Definition outcome_of (t : CasRequest * prog (TopologyCasResult * res unit)) : option (TopologyCasOutcome * res unit) :=
  match t.2 with Ret (r, s) => Some (cr_outcome r, s) | Call _ _ => None end.

Lemma contest_outcome : outcome_of <$> pool_threads after_contest =
  [Some (CAS_COMMITTED, Ok tt); Some (CAS_CONFLICT, Err K_INVALID)].
Proof. vm_compute. reflexivity. Qed.

Lemma topology_updates_serialize_witness :
  outcome_of <$> pool_threads after_contest = [Some (CAS_COMMITTED, Ok tt); Some (CAS_CONFLICT, Err K_INVALID)] /\
  exists h, tracks (topology_key demo_keys) h (pool_store after_contest) /\ version_chain h.
Proof.
  split; [exact contest_outcome|].
  destruct (topology_updates_serialize (lossy := true) demo_keys empty_store after_contest) as (h & Ht & Hc & _).
  - vm_compute. constructor.
  - vm_compute. reflexivity.
  - exact contest_races.
  - exists h. split; assumption.
Defined.
End losing.

(** One caller creates a task while two mark it finished. *)
#[export] Instance reference_empty_migrate : EmptyValue MigrateTaskPb default_MigrateTaskPb.
Proof. by apply empty_value_countable. Qed.
#[export] Instance reference_empty_delete : EmptyValue DeleteNodeTaskPb default_DeleteNodeTaskPb.
Proof. by apply empty_value_countable. Qed.

Definition new_range (from end_ : Z) : TopologyTaskRange :=
  {| tk_ownerAddress := mi_address idA; tk_range := {| tr_from := from; tr_end := end_ |}; tk_finished := false |}.

Definition new_task : TopologyTask := TaskMigrate
  {| mt_taskId := sample_task_id; mt_type := SCALE_OUT; mt_epoch := 7; mt_executorAddress := mi_address idA;
     mt_targetAddress := mi_address idC; mt_sourceRanges := [new_range 5 9; new_range 12 12] |}.

Definition new_task_fence : TopologyExecutionFence :=
  {| ef_taskId := sample_task_id; ef_taskKind := MIGRATE; ef_batchType := SCALE_OUT; ef_batchEpoch := 7;
     ef_phase := PH_SCALE_OUT; ef_executor := idA; ef_source := None; ef_target := None; ef_failed := None;
     ef_ranges := [{| tr_from := 5; tr_end := 9 |}; {| tr_from := 12; tr_end := 12 |}] |}.

Lemma new_task_fits : scope_fits new_task.
Proof.
  split; [|reflexivity]. intros r Hr%list_elem_of_In. cbn in Hr.
  destruct Hr as [<-|[<-|[]]]; (split; [reflexivity|]); unfold is_u32; cbn; lia.
Qed.

Definition task_contest : list Event :=
  [Spawn (MarkFinished new_task_fence); Spawn CreateTask; Spawn (MarkFinished new_task_fence); Step 1 0; Step 1 0;
   Step 0 0; Step 2 0; Step 2 0; Step 0 0; Step 0 0].

Definition after_task_contest : Pool := foldl (do_event (run_task demo_keys new_task)) (start empty_store) task_contest.

Lemma task_contest_races : task_race demo_keys new_task empty_store after_task_contest.
Proof.
  apply schedule_reaches. intros rq Hrq. unfold task_contest in Hrq. rewrite !elem_of_cons in Hrq.
  destruct_or! Hrq; try discriminate; try (injection Hrq as ->; done). by apply not_elem_of_nil in Hrq.
Qed.

Definition answer_of (t : TaskRequest * prog (TaskProgressOutcome * res unit)) : option (TaskProgressOutcome * res unit) :=
  match t.2 with Ret a => Some a | Call _ _ => None end.

Lemma task_contest_answers : answer_of <$> pool_threads after_task_contest =
  [Some (TP_ALREADY_FINISHED, Ok tt); Some (TP_UNKNOWN, Ok tt); Some (TP_UPDATED, Ok tt)].
Proof. vm_compute. reflexivity. Qed.

Lemma task_finished_once_witness :
  answer_of <$> pool_threads after_task_contest =
    [Some (TP_ALREADY_FINISHED, Ok tt); Some (TP_UNKNOWN, Ok tt); Some (TP_UPDATED, Ok tt)] /\
  exists h, tracks (task_key demo_keys new_task) h (pool_store after_task_contest) /\ lifecycle new_task h.
Proof.
  split; [exact task_contest_answers|].
  destruct (task_finished_once (lossy := false) demo_keys new_task empty_store after_task_contest) as (h & Ht & Hl & _).
  - exact new_task_fits.
  - discriminate.
  - repeat constructor.
  - vm_compute. constructor.
  - vm_compute. reflexivity.
  - exact task_contest_races.
  - exists h. split; assumption.
Defined.

Definition demo_table : entries := [("b", "2"); ("a", "1"); ("d", "4"); ("c", "3"); ("e", "5")]%string.

Lemma janitor_pages_fair_witness :
  scan 3 demo_table 2 "c" = [("d", "4"); ("e", "5"); ("a", "1"); ("b", "2"); ("c", "3"); ("d", "4")]%string /\
  forall e, e ∈ demo_table -> e ∈ scan 3 demo_table 2 "c".
Proof.
  split; [vm_compute; reflexivity|].
  refine (proj1 (janitor_pages_fair demo_table 2 3 "c" _ _ _)); [|lia|cbn; lia].
  repeat (constructor; [cbn; rewrite ?not_elem_of_cons; repeat split; try discriminate; apply not_elem_of_nil|]). constructor.
Defined.

(** Two entries of a table between neighbours that only share a prefix. *)
Definition demo_entry (value : string) : ValueEntry :=
  {| ve_value := value; ve_version := 1; ve_createRevision := 2; ve_modRevision := 2; ve_ttlMs := 0; ve_ttlGeneration := 1 |}.
Definition small_store : CoordinatorStore :=
  {| memKvStore_ := {| data_ := [("/t", demo_entry "0"); ("/t-x/a", demo_entry "1"); ("/t/a", demo_entry "2");
                                 ("/t/b/c", demo_entry "3"); ("/tx/a", demo_entry "4")]%string;
                       revision_ := 9; hasMutationCallback_ := true |};
     watchDispatcher_ := new_WatchDispatcher 1 new_WatchRegistry; ttlManager_ := new_TtlManager |}.

Lemma table_listing_exact_witness :
  (run 0 (GetAll "/t") (pointers_to small_store)).1 = Ok ([("a", "2"); ("b/c", "3")], 9)%string /\
  exists kvs, run 0 (GetAll "/t") (pointers_to small_store) = (Ok (kvs, 9), pointers_to small_store) /\ NoDup kvs.*1.
Proof.
  split; [vm_compute; reflexivity|].
  destruct (table_listing_exact 0 "/t" (pointers_to small_store) small_store) as (kvs & Hr & Hn & _).
  - discriminate.
  - reflexivity.
  - repeat constructor.
  - exists kvs. split; [exact Hr|exact Hn].
Defined.

(** A wire whose values start with the tag of the first field. *)
#[export] Instance worker_countable : Countable WorkerServiceInfoPb :=
  inj_countable' (fun m => (wsp_timestamp m, wsp_state m, wsp_host_id m, wsp_compatibility_version m))
    (fun x => {| wsp_timestamp := x.1.1.1; wsp_state := x.1.1.2; wsp_host_id := x.1.2; wsp_compatibility_version := x.2 |})
    ltac:(by intros []).
#[export] Instance tagged_wire : Protobuf WorkerServiceInfoPb := {|
  SerializeToCodedStream m := Some (String (ascii_of_nat 8) (bits (encode m)));
  ParseFromString s := match s with String _ s => r ← get_bits "0" "1" "." s; decode r.1 | EmptyString => None end |}.
#[export] Instance tagged_wire_laws : ProtobufLaws WorkerServiceInfoPb.
Proof.
  intros m v _ [= <-]. cbn. rewrite <-(str_app_nil (bits (encode m))). unfold bits.
  rewrite get_put_bits by done. cbn. apply decode_encode.
Qed.
#[export] Instance tagged_wire_tags : MembershipTags.
Proof. intros m c s [= <- _]. by left. Qed.

Definition ready_value : MembershipValue :=
  {| mv_timestamp := 1700; mv_lifecycleState := LC_READY; mv_hostId := "host-1"; mv_compatibilityVersion := "3" |}.

Lemma ready_value_encodes : is_ok (Encode ready_value) = true.
Proof. vm_compute. reflexivity. Qed.

Lemma membership_values_decode_witness :
  (exists bytes, Encode ready_value = Ok bytes /\ Decode bytes = Ok ready_value) /\
  Decode "1700;ready;host-1;3" = Ok ready_value.
Proof.
  split.
  - pose proof ready_value_encodes as Hok. destruct (Encode ready_value) as [bytes|] eqn:E; [|discriminate Hok].
    exists bytes. split; [reflexivity|].
    refine (proj2 (proj1 membership_values_decode ready_value bytes _ _ _ E)); [unfold is_i64; cbn; lia|reflexivity|reflexivity].
  - pose proof (proj2 membership_values_decode "1700"%string 1700 LC_READY "ready"%string
      (Some ("host-1"%string, Some "3"%string))) as Hd.
    apply Hd; [vm_compute; reflexivity|reflexivity|intros h v E; injection E as <- _; reflexivity|vm_compute; discriminate].
Defined.
