(* ===== verification/TaskMaterializer.v ===== *)
(** * Task materialization

    src/datasystem/cluster/control/topology_task_materializer.cpp: from the
    latest topology and its placement plan to the complete set of migrate and
    delete tasks, the notify of every executor and the deterministic task ids;
    and the key filter a task is executed with
    (cluster/executor/hash_key_filter.cpp). *)

From S2P Require Import Prelude Ordered TopologyTypes HashRing BalancedRing TokenPlacement HostPort KeyHelper Hasher.
From S2P Require Import RingTheory HashAlgorithm OwnerSpec PlanningInterface HashPlans Snapshot RepositoryCodec.
From S2P Require Import MembershipTypes.

Definition ID_HASH_CHARS : nat := 32.
Definition BYTE_MASK : Z := 0xff.

(** [seed.push_back(static_cast<char>(value))] *)
Definition push_byte (seed : string) (value : Z) : string :=
  seed +:+ String (ascii_of_N (Z.to_N value)) "".

Definition append_bytes (shifts : list Z) (seed : string) (value : Z) : string :=
  foldl (fun seed shift => push_byte seed (Z.land (Z.shiftr value shift) BYTE_MASK)) seed shifts.

Definition AppendU64 : string -> Z -> string := append_bytes [56; 48; 40; 32; 24; 16; 8; 0].
Definition AppendU32 : string -> Z -> string := append_bytes [24; 16; 8; 0].

Definition AppendString (seed value : string) : string := AppendU64 seed (size value) +:+ value.

Definition AppendIdentity (seed : string) (identity : option MemberIdentity) : string :=
  match identity with
  | Some i => AppendString (AppendString (push_byte seed 1) (mi_id i)) (mi_address i)
  | None => push_byte seed 0
  end.

(** [std::tie(range.from, range.end)] *)
Definition range_key (r : TokenRange) : Z * Z := (tr_from r, tr_end r).
Definition sort_ranges : list TokenRange -> list TokenRange := sort_on range_key.

Definition AppendRanges (seed : string) (ranges : list TokenRange) : string :=
  let ranges := sort_ranges ranges in
  foldl (fun seed r => AppendU32 (AppendU32 seed (tr_from r)) (tr_end r)) (AppendU64 seed (count ranges)) ranges.

Definition ToRanges (taskRanges : list TopologyTaskRange) : list TokenRange := tk_range <$> taskRanges.

Definition CanonicalizeRanges (ranges : list TopologyTaskRange) : list TopologyTaskRange :=
  sort_on (fun r => range_key (tk_range r)) ranges.

(** [static_cast<char>] of the enumerations. *)
Definition kind_number (k : TopologyTaskKind) : Z := match k with MIGRATE => 0 | DELETE_MEMBER => 1 end.
Definition type_number (t : TopologyChangeType) : Z := match t with SCALE_OUT => 0 | SCALE_IN => 1 | FAILURE => 2 end.
Definition phase_number (p : TopologyCallbackPhase) : Z :=
  match p with PH_SCALE_OUT => 0 | PH_SCALE_IN => 1 | PH_SCALE_IN_CLEANUP => 2 | PH_FAILURE => 3 end.

Definition MatchesSnapshot (latest : TopologySnapshot) (next : TopologyState) : bool :=
  if negb (Version latest =? ts_version next) || negb (Bool.eqb (ts_clusterHasInit (state_ latest)) (ts_clusterHasInit next)) ||
     negb (ts_tokensPerMember (state_ latest) =? ts_tokensPerMember next) ||
     negb (Bool.eqb (bool_decide (is_Some (ts_activeBatch (state_ latest)))) (bool_decide (is_Some (ts_activeBatch next))))
  then false
  else if negb (bool_decide (ts_activeBatch (state_ latest) = ts_activeBatch next)) then false
  else if negb (length (Members latest) =? length (ts_members next))%nat then false
  else forallb (fun p => bool_decide (m_identity p.1 = m_identity p.2) && bool_decide (m_state p.1 = m_state p.2))
         (zip (Members latest) (ts_members next)).

(** The loop over the sorted ranges of a change. *)
Fixpoint ranges_disjoint (previous : option TokenRange) (ranges : list TokenRange) : res unit :=
  match ranges with
  | [] => Ok tt
  | r :: rest =>
      _ ← check (tr_from r <=? tr_end r) K_INVALID;
      _ ← check (match previous with None => true | Some p => tr_end p <? tr_from r end) K_INVALID;
      ranges_disjoint (Some r) rest
  end.

Definition ValidateOwnerChange (latest : TopologySnapshot) (type : TopologyChangeType) (change : TopologyOwnerChange)
    : res unit :=
  match oc_source change with
  | None => Err K_INVALID
  | Some changeSource =>
      _ ← check (negb (is_empty (oc_ranges change))) K_INVALID;
      source ← FindMemberByAddress (mi_address changeSource) latest;
      target ← FindMemberByAddress (mi_address (oc_target change)) latest;
      _ ← check (bool_decide (m_identity source = changeSource) &&
                 bool_decide (m_identity target = oc_target change)) K_INVALID;
      let expectedSource := if decide (type = FAILURE) then FAILED else LEAVING in
      _ ← match type with
          | SCALE_OUT => check (IsCommittedMemberState (m_state source) && bool_decide (m_state target = JOINING)) K_INVALID
          | FAILURE =>
              _ ← check (bool_decide (m_state source = expectedSource)) K_INVALID;
              check (bool_decide (m_state target = ACTIVE)) K_INVALID
          | SCALE_IN => check (bool_decide (m_state source = expectedSource) &&
                               IsAdmittedScaleInMigrationTargetState (m_state target)) K_INVALID
          end;
      ranges_disjoint None (sort_ranges (oc_ranges change))
  end.

(** [for (offset = 0; offset < size; offset += MAX_TOPOLOGY_TASK_RANGES)]: the
    slices of at most [n] ranges. *)
Fixpoint slices {A} (fuel n : nat) (l : list A) : list (list A) :=
  match fuel, l with
  | _, [] => []
  | O, _ => []
  | S fuel, _ => take n l :: slices fuel n (drop n l)
  end.

Definition change_task (type : TopologyChangeType) (epoch : Z) (source target : string) (ranges : list TokenRange)
    : TopologyTask :=
  match type with
  | FAILURE => TaskDelete
      {| dt_taskId := ""; dt_epoch := epoch; dt_executorAddress := target; dt_failedAddress := source;
         dt_recoveryRanges := CanonicalizeRanges
           ((fun r => {| tk_ownerAddress := target; tk_range := r; tk_finished := false |}) <$> ranges) |}
  | _ => TaskMigrate
      {| mt_taskId := ""; mt_type := type; mt_epoch := epoch; mt_executorAddress := source; mt_targetAddress := target;
         mt_sourceRanges := CanonicalizeRanges
           ((fun r => {| tk_ownerAddress := source; tk_range := r; tk_finished := false |}) <$> ranges) |}
  end.

(** [change->source] has a value once [ValidateOwnerChange] succeeded. *)
Definition source_address (change : TopologyOwnerChange) : string :=
  match oc_source change with Some i => mi_address i | None => "" end.

Definition AppendTaskChunks (type : TopologyChangeType) (epoch : Z) (change : TopologyOwnerChange)
    (tasks : list TopologyTask) : list TopologyTask :=
  let ranges := sort_ranges (oc_ranges change) in
  tasks ++ (change_task type epoch (source_address change) (mi_address (oc_target change)) <$>
              slices (length ranges) MAX_TOPOLOGY_TASK_RANGES ranges).

Definition task_id (task : TopologyTask) : string :=
  match task with TaskMigrate t => mt_taskId t | TaskDelete t => dt_taskId t end.
Definition task_executor (task : TopologyTask) : string :=
  match task with TaskMigrate t => mt_executorAddress t | TaskDelete t => dt_executorAddress t end.
Definition task_ranges (task : TopologyTask) : list TopologyTaskRange :=
  match task with TaskMigrate t => mt_sourceRanges t | TaskDelete t => dt_recoveryRanges t end.
(** [value.taskId = taskId] *)
Definition set_task_id (taskId : string) (task : TopologyTask) : TopologyTask :=
  match task with
  | TaskMigrate t => TaskMigrate
      {| mt_taskId := taskId; mt_type := mt_type t; mt_epoch := mt_epoch t; mt_executorAddress := mt_executorAddress t;
         mt_targetAddress := mt_targetAddress t; mt_sourceRanges := mt_sourceRanges t |}
  | TaskDelete t => TaskDelete
      {| dt_taskId := taskId; dt_epoch := dt_epoch t; dt_executorAddress := dt_executorAddress t;
         dt_failedAddress := dt_failedAddress t; dt_recoveryRanges := dt_recoveryRanges t |}
  end.

Record ExpectedDerivedState := {
  ed_tasks : list TopologyTask;
  ed_notifiesByAddress : list (string * TopologyTaskNotify);
  ed_notifyRecipients : list string;
  ed_canonicalRestartNotify : string
}.

(** [latest.CopyState()] with the selected members of the batch: their
    identities, and the state in which [FAILED] members count as active. *)
Definition selected_state (type : TopologyChangeType) : MemberState :=
  match type with SCALE_OUT => JOINING | SCALE_IN => LEAVING | FAILURE => FAILED end.

Definition selected_members (type : TopologyChangeType) (members : list Member) : list MemberIdentity :=
  m_identity <$> List.filter (fun m => bool_decide (m_state m = selected_state type)) members.

Definition planning_members (type : TopologyChangeType) (members : list Member) : list Member :=
  (fun m => if bool_decide (m_state m = selected_state type) && bool_decide (selected_state type = FAILED)
            then set_member_state ACTIVE m else m) <$> members.

(** The byte string a task id is the digest of. *)
Definition task_seed (task : TopologyTask) : string :=
  match task with
  | TaskMigrate t =>
      let seed := push_byte (push_byte "" (kind_number MIGRATE)) (type_number (mt_type t)) in
      AppendRanges (AppendString (AppendString (AppendU64 seed (mt_epoch t)) (mt_executorAddress t))
        (mt_targetAddress t)) (ToRanges (mt_sourceRanges t))
  | TaskDelete t =>
      let seed := push_byte (push_byte "" (kind_number DELETE_MEMBER)) (type_number FAILURE) in
      AppendRanges (AppendString (AppendString (AppendU64 seed (dt_epoch t)) (dt_executorAddress t))
        (dt_failedAddress t)) (ToRanges (dt_recoveryRanges t))
  end.

Definition task_id_prefix (task : TopologyTask) : string :=
  match task with
  | TaskMigrate t => "m-e" +:+ pretty (mt_epoch t) +:+ "-"
  | TaskDelete t => "d-e" +:+ pretty (dt_epoch t) +:+ "-"
  end.

(** The bytes of a business operation id before hashing. *)
Definition operation_seed (phase : TopologyCallbackPhase) (fence : TopologyExecutionFence) : string :=
  let source := if decide (phase = PH_FAILURE) then None else ef_source fence in
  AppendRanges (AppendIdentity (AppendIdentity (AppendIdentity (push_byte "" (phase_number phase)) source)
    (ef_target fence)) (ef_failed fence)) (ef_ranges fence).

Section materializer.
Context `{SHA256}.

Definition DigestPrefix (seed : string) : string :=
  match GetSha256Hex seed with
  | Ok digest => substr 0 ID_HASH_CHARS digest
  | Err _ => ""
  end.

Definition BuildTaskId (task : TopologyTask) : string := task_id_prefix task +:+ DigestPrefix (task_seed task).

Definition BuildBusinessOperationId (phase : TopologyCallbackPhase) (fence : TopologyExecutionFence) : string :=
  "op-" +:+ DigestPrefix (operation_seed phase fence).

Definition assign_task_id (tasks : list TopologyTask) (task : TopologyTask) : res (list TopologyTask) :=
  let taskId := BuildTaskId task in
  _ ← check (ID_HASH_CHARS <? String.length taskId)%nat K_RUNTIME_ERROR;
  Ok (tasks ++ [set_task_id taskId task]).

(** [auto &notify = notifies[executor]; notify.activeBatch = batch; notify.taskIds.push_back(id);] *)
Definition notify_task (batch : ActiveBatch) (notifies : list (string * TopologyTaskNotify)) (task : TopologyTask)
    : list (string * TopologyTaskNotify) :=
  let old := default {| tn_activeBatch := None; tn_taskIds := []; tn_restartTimestampsByAddress := [] |}
               (om_find (task_executor task) notifies) in
  om_insert (task_executor task)
    {| tn_activeBatch := Some batch; tn_taskIds := tn_taskIds old ++ [task_id task];
       tn_restartTimestampsByAddress := tn_restartTimestampsByAddress old |} notifies.

Definition BuildExpected (latest : TopologySnapshot) (plan : TopologyPlan) : res ExpectedDerivedState :=
  match ts_activeBatch (state_ latest) with
  | None => Err K_INVALID
  | Some batch =>
      _ ← check (MatchesSnapshot latest (tp_next plan)) K_INVALID;
      let type := ab_type batch in
      let epoch := ab_epoch batch in
      tasks ← foldM (fun tasks change =>
          _ ← ValidateOwnerChange latest type change;
          Ok (AppendTaskChunks type epoch change tasks)) [] (tp_ownerChanges plan);
      tasks ← foldM assign_task_id [] tasks;
      let tasks := sort_on task_id tasks in
      let notifies := foldl (notify_task {| ab_type := type; ab_epoch := epoch |}) [] tasks in
      Ok {| ed_tasks := tasks; ed_notifiesByAddress := notifies; ed_notifyRecipients := notifies.*1;
            ed_canonicalRestartNotify := "" |}
  end.

Context `{IPlanningAlgorithm}.

Definition RebuildPlan (latest : TopologySnapshot) : res TopologyPlan :=
  match ts_activeBatch (state_ latest) with
  | None => Err K_INVALID
  | Some batch =>
      let type := ab_type batch in
      let selected := selected_members type (Members latest) in
      let current := set_members (planning_members type (Members latest)) (state_ latest) in
      _ ← check (negb (is_empty selected)) K_INVALID;
      if bool_decide (type = FAILURE) && negb (existsb (fun m => bool_decide (m_state m = ACTIVE)) (Members latest))
      then Ok {| tp_next := state_ latest; tp_ownerChanges := [] |}
      else
        plan ← match type with
               | SCALE_OUT => alg_PlanScaleOut {| so_current := current; so_joining := selected;
                                                  so_tokensPerMember := ts_tokensPerMember current |}
               | SCALE_IN => alg_PlanScaleIn {| si_current := current; si_leaving := selected |}
               | FAILURE => alg_PlanFailure {| fi_current := current; fi_failed := selected |}
               end;
        Ok {| tp_next := state_ latest; tp_ownerChanges := tp_ownerChanges plan |}
  end.

Context `{RE2} `{Protobuf TaskNotifyPb}.

Definition restart_step (acc : list string * list (string * Z)) (record : MembershipRecord)
    : res (list string * list (string * Z)) :=
  _ ← check (negb (bool_decide (mr_address record = EmptyString))) K_INVALID;
  let recipients := acc.1 ++ [mr_address record] in
  if decide (mr_state record = LC_RESTARTING) then
    _ ← check (0 <? mr_timestamp record) K_INVALID;
    Ok (recipients, om_insert (mr_address record) (mr_timestamp record) acc.2)
  else Ok (recipients, acc.2).

Definition RebuildExpected (latest : TopologySnapshot) (memberships : list MembershipRecord) (includeRestartFacts : bool)
    : res ExpectedDerivedState :=
  built ← match ts_activeBatch (state_ latest) with
          | Some _ => plan ← RebuildPlan latest; BuildExpected latest plan
          | None => Ok {| ed_tasks := []; ed_notifiesByAddress := []; ed_notifyRecipients := [];
                          ed_canonicalRestartNotify := "" |}
          end;
  if negb includeRestartFacts then Ok built
  else
    acc ← foldM restart_step (ed_notifyRecipients built, []) memberships;
    let recipients := dedup_adjacent (sort_on (fun a => a) acc.1) in
    encoded ← EncodeNotify {| tn_activeBatch := None; tn_taskIds := []; tn_restartTimestampsByAddress := acc.2 |};
    Ok {| ed_tasks := ed_tasks built; ed_notifiesByAddress := ed_notifiesByAddress built;
          ed_notifyRecipients := recipients; ed_canonicalRestartNotify := encoded |}.

(** [std::binary_search] *)
Definition binary_search (l : list string) (a : string) : bool :=
  match drop_while (fun x => ltk x a) l with
  | y :: _ => negb (ltk a y)
  | [] => false
  end.

Definition BuildEncodedNotifyFor (expected : ExpectedDerivedState) (address : string) : res string :=
  _ ← check (binary_search (ed_notifyRecipients expected) address) K_INVALID;
  let taskPart := default {| tn_activeBatch := None; tn_taskIds := []; tn_restartTimestampsByAddress := [] |}
                    (om_find address (ed_notifiesByAddress expected)) in
  ComposeNotify taskPart (ed_canonicalRestartNotify expected).
End materializer.

(** ** The key filter of a task *)

Definition Contains (ranges_ : list TokenRange) (key : string) : bool :=
  let token := Hash key in
  match drop_while (fun r => tr_end r <? token) ranges_ with
  | r :: _ => tr_from r <=? token
  | [] => false
  end.
