(* ===== verification/PlanBuilder.v ===== *)
(** * Construction of topology states

    src/datasystem/cluster/control/topology_plan_builder.cpp: the transitions of
    the topology between its start and final states.  The builder calls its
    planning algorithm through the interface, so everything here is proved for
    any algorithm that satisfies [PlanningLaws]. *)

From S2P Require Import Prelude Ordered TopologyTypes HashRing BalancedRing TokenPlacement HostPort RingTheory.
From S2P Require Import HashAlgorithm OwnerSpec PlanningInterface.

Definition SameIdentity (member : Member) (identity : MemberIdentity) : bool :=
  bool_decide (m_identity member = identity).

Definition select_step (latest : TopologyState) (state : MemberState) (addresses : gset string)
    (identity : MemberIdentity) : res (gset string) :=
  match List.find (fun m => SameIdentity m identity) (ts_members latest) with
  | Some m =>
      _ ← check (bool_decide (m_state m = state)) K_INVALID;
      _ ← check (bool_decide (mi_address identity ∉ addresses)) K_INVALID;
      Ok ({[mi_address identity]} ∪ addresses)
  | None => Err K_INVALID
  end.

Definition ValidateSelected (latest : TopologyState) (selected : list MemberIdentity) (state : MemberState)
    : res unit :=
  _ ← check (negb (is_empty selected)) K_INVALID;
  _ ← foldM (select_step latest state) ∅ selected;
  Ok tt.

Definition AdvanceEpoch (latest : TopologyState) (type : TopologyChangeType) (plan : TopologyPlan)
    : TopologyPlan :=
  let version := u64 (ts_version latest + 1) in
  {| tp_next := set_version_batch version (Some {| ab_type := type; ab_epoch := version |}) (tp_next plan);
     tp_ownerChanges := tp_ownerChanges plan |}.

Definition in_state (s : MemberState) (m : Member) : bool := bool_decide (m_state m = s).

Definition MembersInState (state : TopologyState) (selected : MemberState) : list MemberIdentity :=
  m_identity <$> List.filter (in_state selected) (ts_members state).

Definition RemoveMembers (addresses : gset string) (state : TopologyState) : TopologyState :=
  set_members (List.filter (fun m => bool_decide (m_address m ∉ addresses)) (ts_members state)) state.

Definition ValidateBatch (latest : TopologyState) (type : TopologyChangeType) : res unit :=
  check (match ts_activeBatch latest with
         | Some b => bool_decide (ab_type b = type)
         | None => false
         end) K_INVALID.

(** [next.version = v; next.activeBatch.reset();] *)
Definition stabilise (latest built : TopologyState) : TopologyState :=
  set_version_batch (u64 (ts_version latest + 1)) None built.

(** [for (auto &member : members) if (member.state == from) member.state = to;] *)
Definition replace_state (from to : MemberState) (members : list Member) : list Member :=
  (fun m => if in_state from m then set_member_state to m else m) <$> members.

(** [std::find_if] by identity followed by [iter->state = s]. *)
Fixpoint set_state_of (identity : MemberIdentity) (s : MemberState) (members : list Member) : list Member :=
  match members with
  | [] => []
  | m :: members =>
      if bool_decide (m_identity m = identity) then set_member_state s m :: members
      else m :: set_state_of identity s members
  end.

Section builder.
Context `{IPlanningAlgorithm}.

Definition BuildBootstrap (latest : TopologyState) (ready : list MemberIdentity) : res TopologyState :=
  let hasCommitted := existsb committed (ts_members latest) in
  _ ← check (negb hasCommitted && negb (has_value (ts_activeBatch latest))) K_INVALID;
  _ ← ValidateSelected latest ready INITIAL;
  built ← alg_BuildInitialPlacement {| so_current := default_TopologyState; so_joining := ready;
            so_tokensPerMember := DEFAULT_HASH_RING_TOKENS_PER_MEMBER |};
  let readyAddresses := addresses_of ready in
  let others := List.filter (fun m => bool_decide (m_address m ∉ readyAddresses)) (ts_members latest) in
  let next := set_members (ts_members (tp_next built) ++ others) (tp_next built) in
  let next := set_version_batch (u64 (ts_version latest + 1)) (ts_activeBatch next) next in
  let next := set_clusterHasInit (ts_clusterHasInit latest || ts_clusterHasInit next) next in
  _ ← alg_Validate next;
  Ok next.

Definition BuildScaleOutStart (latest : TopologyState) (selected : list MemberIdentity) : res TopologyPlan :=
  _ ← check (ts_clusterHasInit latest && negb (has_value (ts_activeBatch latest))) K_INVALID;
  _ ← ValidateSelected latest selected INITIAL;
  let current := RemoveMembers (addresses_of selected) latest in
  built ← alg_PlanScaleOut {| so_current := current; so_joining := selected;
            so_tokensPerMember := ts_tokensPerMember current |};
  let built := AdvanceEpoch latest SCALE_OUT built in
  _ ← alg_Validate (tp_next built);
  Ok built.

Definition BuildScaleOutReplan (latest : TopologyState) (failedJoining : list MemberIdentity) : res TopologyPlan :=
  _ ← ValidateBatch latest SCALE_OUT;
  _ ← ValidateSelected latest failedJoining JOINING;
  let retained := RemoveMembers (addresses_of failedJoining) latest in
  let joining := MembersInState retained JOINING in
  if negb (is_empty joining) then
    built ← alg_PlanScaleOut {| so_current := retained; so_joining := joining;
              so_tokensPerMember := ts_tokensPerMember retained |};
    Ok (AdvanceEpoch latest SCALE_OUT built)
  else Ok {| tp_next := stabilise latest retained; tp_ownerChanges := [] |}.

Definition BuildScaleInStart (latest : TopologyState) (selected : list MemberIdentity) : res TopologyPlan :=
  _ ← check (ts_clusterHasInit latest && negb (has_value (ts_activeBatch latest))) K_INVALID;
  _ ← ValidateSelected latest selected PRE_LEAVING;
  built ← alg_PlanScaleIn {| si_current := latest; si_leaving := selected |};
  let members := (fun m => if in_state PRE_LEAVING m && bool_decide (m_identity m ∈ selected)
                           then set_member_state LEAVING m else m) <$> ts_members (tp_next built) in
  Ok (AdvanceEpoch latest SCALE_IN
        {| tp_next := set_members members (tp_next built); tp_ownerChanges := tp_ownerChanges built |}).

Definition preserve_step (failedAddresses : gset string) (members : list Member) (m : Member) : list Member :=
  if (in_state JOINING m || in_state LEAVING m) && bool_decide (m_address m ∉ failedAddresses)
  then set_state_of (m_identity m) (m_state m) members else members.

Definition BuildFailureStartOrReplan (latest : TopologyState) (confirmed : list MemberIdentity) : res TopologyPlan :=
  _ ← check (ts_clusterHasInit latest) K_INVALID;
  let planning := set_members (replace_state FAILED ACTIVE (ts_members latest)) latest in
  _ ← check (forallb (fun m => negb (in_state FAILED m) || bool_decide (m_identity m ∈ confirmed))
               (ts_members latest)) K_INVALID;
  let failedAddresses := addresses_of confirmed in
  let hasHealthyOwner := existsb (fun m => in_state ACTIVE m && bool_decide (m_address m ∉ failedAddresses))
                           (ts_members latest) in
  if negb hasHealthyOwner then
    Ok (AdvanceEpoch latest FAILURE
          {| tp_next := set_members (mark_members failedAddresses FAILED (ts_members latest)) latest;
             tp_ownerChanges := [] |})
  else
    built ← alg_PlanFailure {| fi_current := planning; fi_failed := confirmed |};
    let members := foldl (preserve_step failedAddresses) (ts_members (tp_next built)) (ts_members latest) in
    Ok (AdvanceEpoch latest FAILURE
          {| tp_next := set_members members (tp_next built); tp_ownerChanges := tp_ownerChanges built |}).

Definition BuildScaleOutFinal (latest : TopologyState) : res TopologyState :=
  _ ← ValidateBatch latest SCALE_OUT;
  _ ← check (negb (is_empty (MembersInState latest JOINING))) K_INVALID;
  Ok (stabilise latest (set_members (replace_state JOINING ACTIVE (ts_members latest)) latest)).

Definition BuildScaleInFinal (latest : TopologyState) : res TopologyState :=
  _ ← ValidateBatch latest SCALE_IN;
  let leaving := MembersInState latest LEAVING in
  _ ← check (negb (is_empty leaving)) K_INVALID;
  Ok (stabilise latest (RemoveMembers (addresses_of leaving) latest)).

Definition BuildFailureFinal (latest : TopologyState) : res TopologyState :=
  _ ← ValidateBatch latest FAILURE;
  let failed := MembersInState latest FAILED in
  _ ← check (negb (is_empty failed)) K_INVALID;
  let built := RemoveMembers (addresses_of failed) latest in
  let version := u64 (ts_version latest + 1) in
  Ok (if negb (existsb (fun m => in_state ACTIVE m || in_state LEAVING m || in_state PRE_LEAVING m)
                 (ts_members built))
      then set_version_batch version None (set_members [] built)
      else if negb (is_empty (MembersInState built JOINING))
      then set_version_batch version (Some {| ab_type := SCALE_OUT; ab_epoch := version |}) built
      else if negb (is_empty (MembersInState built LEAVING))
      then set_version_batch version (Some {| ab_type := SCALE_IN; ab_epoch := version |}) built
      else set_version_batch version None built).

Definition BuildClusterShutdownFinal (latest : TopologyState) : res TopologyState :=
  _ ← check (negb (is_empty (ts_members latest))) K_INVALID;
  _ ← check (forallb (fun m => in_state PRE_LEAVING m || in_state LEAVING m) (ts_members latest)) K_INVALID;
  Ok (stabilise latest (set_members [] latest)).

(** ** The topology state machine *)

(** One committed transition of the topology, by the operation that built it. *)
Inductive build_step : TopologyState -> TopologyState -> Prop :=
  | step_bootstrap latest ready next :
      BuildBootstrap latest ready = Ok next -> build_step latest next
  | step_scale_out latest selected plan :
      BuildScaleOutStart latest selected = Ok plan -> build_step latest (tp_next plan)
  | step_scale_out_replan latest failedJoining plan :
      BuildScaleOutReplan latest failedJoining = Ok plan -> build_step latest (tp_next plan)
  | step_scale_in latest selected plan :
      BuildScaleInStart latest selected = Ok plan -> build_step latest (tp_next plan)
  | step_failure latest confirmed plan :
      (exists m, m ∈ ts_members latest /\ m_address m ∈ addresses_of confirmed) ->
      BuildFailureStartOrReplan latest confirmed = Ok plan -> build_step latest (tp_next plan)
  | step_scale_out_final latest next :
      BuildScaleOutFinal latest = Ok next -> build_step latest next
  | step_scale_in_final latest next :
      BuildScaleInFinal latest = Ok next -> build_step latest next
  | step_failure_final latest next :
      BuildFailureFinal latest = Ok next -> build_step latest next
  | step_shutdown latest next :
      BuildClusterShutdownFinal latest = Ok next -> build_step latest next.
End builder.
