(* ===== verification/TopologySafety.v ===== *)
(** * Safety of the topology state machine

    The invariant every committed topology satisfies, that each operation of the
    plan builder preserves it (so the next state is always accepted by snapshot
    validation), and what a batch does to ownership from its start to its final
    state.  Proved for any planning algorithm satisfying the interface laws. *)

From S2P Require Import Prelude Ordered TopologyTypes HashRing BalancedRing TokenPlacement HostPort Hasher.
From S2P Require Import RingTheory HashAlgorithm OwnerSpec PlanningInterface HashPlans Snapshot PlanBuilder.

(** ** Members *)

Lemma members_valid_sub ms ms' : ms' `sublist_of` ms -> members_valid ms -> members_valid ms'.
Proof.
  intros Hsub [H1 H2 H3 H4]. split.
  - intros m Hm. apply H1. by eapply elem_of_sublist.
  - eapply sublist_NoDup; [exact H2|]. by apply fmap_sublist.
  - eapply sublist_NoDup; [exact H3|]. by apply fmap_sublist.
  - eapply sublist_NoDup; [exact H4|]. clear -Hsub. unfold all_tokens.
    induction Hsub as [|m ? ? ? IH|m ? ? ? IH]; cbn; [done|by apply sublist_app|by apply sublist_inserts_l].
Qed.

(** A state update keeps identity and tokens. *)
Definition keeps_shape (f : Member -> Member) : Prop :=
  forall m, m_identity (f m) = m_identity m /\ m_tokens (f m) = m_tokens m.

Lemma members_valid_map f ms : keeps_shape f -> members_valid ms -> members_valid (f <$> ms).
Proof.
  intros Hf [H1 H2 H3 H4]. split.
  - intros m (m' & -> & Hm')%list_elem_of_fmap. rewrite (proj1 (Hf m')). auto.
  - rewrite <-list_fmap_compose. erewrite list_fmap_ext; [exact H2|]. intros i m _. cbn. by rewrite (proj1 (Hf m)).
  - rewrite <-list_fmap_compose. erewrite list_fmap_ext; [exact H3|]. intros i m _. cbn. by rewrite (proj1 (Hf m)).
  - replace (all_tokens (f <$> ms)) with (all_tokens ms); [done|]. clear -Hf. unfold all_tokens.
    induction ms as [|m ms IH]; cbn; [done|]. by rewrite IH, (proj2 (Hf m)).
Qed.

Lemma tokens_u32_map f ms : keeps_shape f -> tokens_u32 ms -> tokens_u32 (f <$> ms).
Proof. intros Hf Hu m t (m' & -> & Hm')%list_elem_of_fmap Ht. rewrite (proj2 (Hf m')) in Ht. eauto. Qed.

Lemma set_member_state_shape (c : Member -> bool) s : keeps_shape (fun m => if c m then set_member_state s m else m).
Proof. intros m. by destruct (c m). Qed.

Lemma mark_members_fmap ex s ms :
  mark_members ex s ms = (fun m => if bool_decide (m_address m ∈ ex) then set_member_state s m else m) <$> ms.
Proof. apply list_fmap_ext. intros i m _. case_decide; [by rewrite bool_decide_true|by rewrite bool_decide_false]. Qed.

Lemma ValidateSelected_spec latest selected s u : ValidateSelected latest selected s = Ok u ->
  selected <> [] /\ Forall (fun i => exists m, m ∈ ts_members latest /\ m_identity m = i /\ m_state m = s) selected.
Proof.
  unfold ValidateSelected. intros (u1 & Hne%check_Ok & Hok)%bind_Ok. apply bind_Ok in Hok as (a & Hok & _).
  split; [by destruct selected|].
  apply (foldM_inv _ (fun pre _ => Forall (fun i => exists m, m ∈ ts_members latest /\ m_identity m = i /\ m_state m = s) pre)) in Hok;
    [done|constructor|].
  intros pre i post st st' _ IH Hi. apply Forall_app. split; [done|]. apply Forall_singleton.
  unfold select_step in Hi. destruct (List.find _ _) as [m|] eqn:Ef; [|done].
  apply List.find_some in Ef as [Hm%list_elem_of_In Hid%bool_decide_eq_true].
  apply bind_Ok in Hi as (u2 & Hs%check_Ok%bool_decide_eq_true & _). eauto.
Qed.

Lemma MembersInState_elem st s i : i ∈ MembersInState st s <->
  exists m, m ∈ ts_members st /\ m_identity m = i /\ m_state m = s.
Proof.
  unfold MembersInState. rewrite list_elem_of_fmap. split.
  - intros (m & -> & [Hm Hs%bool_decide_eq_true]%elem_of_filter_bool). eauto.
  - intros (m & Hm & <- & Hs). exists m. split; [done|]. apply elem_of_filter_bool.
    split; [done|]. by apply bool_decide_eq_true.
Qed.

Lemma MembersInState_empty st s : is_empty (MembersInState st s) = true ->
  forall m, m ∈ ts_members st -> m_state m <> s.
Proof.
  intros He m Hm Hs. assert (Hin : m_identity m ∈ MembersInState st s) by (apply MembersInState_elem; eauto).
  destruct (MembersInState st s); [by apply not_elem_of_nil in Hin|done].
Qed.

Lemma MembersInState_nonempty st s : is_empty (MembersInState st s) = false ->
  exists m, m ∈ ts_members st /\ m_state m = s.
Proof.
  intros He. destruct (MembersInState st s) as [|i l] eqn:E; [done|].
  assert (Hin : i ∈ MembersInState st s) by (rewrite E; left).
  apply MembersInState_elem in Hin as (m & Hm & _ & Hs). eauto.
Qed.

(** Removing the members in a state, by address, leaves none in that state. *)
Lemma RemoveMembers_elem ex st m : m ∈ ts_members (RemoveMembers ex st) <-> m ∈ ts_members st /\ m_address m ∉ ex.
Proof.
  unfold RemoveMembers. cbn [ts_members set_members]. by rewrite elem_of_filter_bool, bool_decide_eq_true.
Qed.

Lemma RemoveMembers_valid ex st : members_valid (ts_members st) -> members_valid (ts_members (RemoveMembers ex st)).
Proof. apply members_valid_sub, filter_bool_sublist. Qed.

Lemma remove_state_elem st s m : members_valid (ts_members st) ->
  m ∈ ts_members (RemoveMembers (addresses_of (MembersInState st s)) st) <-> m ∈ ts_members st /\ m_state m <> s.
Proof.
  intros Hv. rewrite RemoveMembers_elem, elem_of_addresses_of. split.
  - intros [Hm Hno]. split; [done|]. intros Hs. apply Hno. exists (m_identity m). split; [|done].
    apply MembersInState_elem. eauto.
  - intros [Hm Hs]. split; [done|]. intros (i & (m' & Hm' & <- & Hs')%MembersInState_elem & Ha).
    by rewrite (address_inj _ _ _ Hv Hm' Hm Ha) in Hs'.
Qed.

(** ** The invariant *)

Section safety.
Context `{HA : IPlanningAlgorithm} `{HL : !PlanningLaws} `{HR : RE2}.

Record topology_inv (st : TopologyState) : Prop := {
  ti_members : members_valid (ts_members st);
  ti_u32 : tokens_u32 (ts_members st);
  ti_address m : m ∈ ts_members st -> ValidateAddress (m_address m) = Ok tt;
  ti_tokens m : m ∈ ts_members st -> committed_or_joining m = true -> m_tokens m <> [];
  ti_batch : batch_consistent st;
  ti_single m m' : m ∈ ts_members st -> m' ∈ ts_members st -> m_state m = JOINING -> m_state m' = LEAVING -> False;
  ti_tpm : 0 < ts_tokensPerMember st <= MAX_HASH_RING_TOKENS_PER_MEMBER;
  ti_epoch b : ts_activeBatch st = Some b -> 0 < ab_epoch b <= ts_version st
}.


Definition next_version (st : TopologyState) : Prop := 0 <= ts_version st < INT64_MAX.

Lemma u64_next st : next_version st -> u64 (ts_version st + 1) = ts_version st + 1.
Proof. unfold next_version, INT64_MAX. intros. apply u64_small. lia. Qed.

(** States of a stable topology and of a batch. *)
Lemma stable_state st m : batch_consistent st -> ts_activeBatch st = None -> m ∈ ts_members st ->
  m_state m <> JOINING /\ m_state m <> LEAVING /\ m_state m <> FAILED.
Proof.
  unfold batch_consistent. intros Hb Hn Hm. rewrite Hn in Hb. specialize (Hb m Hm).
  unfold transitional in Hb. apply orb_false_iff in Hb as [[H1 H2]%orb_false_iff H3].
  by rewrite !bool_decide_eq_false in H1, H2, H3.
Qed.

Lemma batch_state st b m : batch_consistent st -> ts_activeBatch st = Some b -> m ∈ ts_members st ->
  MatchesBatch (m_state m) (ab_type b) = true.
Proof. unfold batch_consistent. intros Hb Hn Hm. rewrite Hn in Hb. by apply Hb. Qed.

Lemma transitional_false m : transitional m = false <->
  m_state m <> JOINING /\ m_state m <> LEAVING /\ m_state m <> FAILED.
Proof. unfold transitional. rewrite !orb_false_iff, !bool_decide_eq_false. naive_solver. Qed.

Lemma ValidateBatch_Some st type u : ValidateBatch st type = Ok u ->
  exists b, ts_activeBatch st = Some b /\ ab_type b = type.
Proof.
  unfold ValidateBatch. rewrite check_Ok. destruct (ts_activeBatch st) as [b|]; [|done].
  intros Hb%bool_decide_eq_true. eauto.
Qed.

Lemma no_batch st : negb (has_value (ts_activeBatch st)) = true -> ts_activeBatch st = None.
Proof. by destruct (ts_activeBatch st). Qed.

(** ** Preservation, operation by operation *)

Lemma BuildBootstrap_inv latest ready next : topology_inv latest -> next_version latest ->
  BuildBootstrap latest ready = Ok next -> topology_inv next.
Proof.
  intros [H1 H2 H3 H4 H5 H6 H7 H8] Hv Hok. unfold BuildBootstrap in Hok.
  apply bind_Ok in Hok as (u1 & [_ Hnb%no_batch]%check_Ok%andb_prop & Hok).
  apply bind_Ok in Hok as (u2 & [_ Hsel]%ValidateSelected_spec & Hok).
  apply bind_Ok in Hok as (built & Hb%law_initial & Hok). apply bind_Ok in Hok as ([] & Hval%law_Validate & [= <-]).
  destruct Hb as [Hnext _ Hu Hperm Hact _]. rewrite Forall_forall in Hsel.
  assert (Hbatch : ts_activeBatch (tp_next built) = None) by (by rewrite Hnext).
  assert (Htpm : ts_tokensPerMember (tp_next built) = DEFAULT_HASH_RING_TOKENS_PER_MEMBER) by (by rewrite Hnext).
  assert (Hel : forall m, m ∈ ts_members (tp_next built) ++
     List.filter (fun m => bool_decide (m_address m ∉ addresses_of ready)) (ts_members latest) ->
     (m ∈ ts_members (tp_next built) /\ m_state m = ACTIVE /\ Z.of_nat (length (m_tokens m)) = 32 /\
        exists m', m' ∈ ts_members latest /\ m_identity m' = m_identity m) \/ m ∈ ts_members latest).
  { intros m [Hm|[Hm _]%elem_of_filter_bool]%elem_of_app; [left|by right].
    destruct (Hact m Hm) as (? & ? & _). split_and!; [done..|].
    assert (Hi : m_identity m ∈ ready) by (rewrite <-Hperm; by apply list_elem_of_fmap_2).
    destruct (Hsel _ Hi) as (m' & ? & ? & _). eauto. }
  split; cbn [ts_members set_members set_version_batch set_clusterHasInit ts_activeBatch ts_tokensPerMember ts_version].
  - apply Hval.
  - intros m t Hm Ht. destruct (Hel m Hm) as [(Hm' & _)|Hm']; eauto.
  - intros m Hm. destruct (Hel m Hm) as [(_ & _ & _ & m' & Hm' & <-)|Hm']; eauto.
  - intros m Hm Hc. destruct (Hel m Hm) as [(_ & _ & Hl & _)|Hm']; [|eauto].
    intros E. by rewrite E in Hl.
  - unfold batch_consistent. cbn. rewrite Hbatch. intros m Hm. apply transitional_false.
    destruct (Hel m Hm) as [(_ & -> & _)|Hm']; [done|]. by eapply stable_state.
  - intros m m' Hm Hm' Hj Hl. destruct (Hel m Hm) as [(_ & Ha & _)|Hm1]; [congruence|].
    by destruct (stable_state latest m H5 Hnb Hm1).
  - rewrite Htpm. done.
  - rewrite Hbatch. done.
Qed.

Lemma scale_out_inv_next latest cur joining plan : topology_inv latest -> next_version latest ->
  scale_out_contract cur joining (ts_tokensPerMember latest) plan -> joining <> [] ->
  (forall m, m ∈ ts_members cur -> m ∈ ts_members latest /\ m_state m <> LEAVING /\ m_state m <> FAILED) ->
  (forall i, i ∈ joining -> exists m, m ∈ ts_members latest /\ m_identity m = i) ->
  topology_inv (tp_next (AdvanceEpoch latest SCALE_OUT plan)).
Proof.
  intros [H1 H2 H3 H4 H5 H6 H7 H8] Hv [_ (added & Hn & Hadd) Hval Hu Hj _ _] Hne Hcur Hid.
  assert (Hel : forall m, m ∈ ts_members (tp_next plan) -> (m ∈ ts_members cur \/ m ∈ added)).
  { intros m. rewrite Hn. cbn [ts_members set_members]. by rewrite elem_of_app. }
  unfold AdvanceEpoch. rewrite u64_next by done.
  split; cbn [tp_next ts_members set_version_batch ts_activeBatch ts_tokensPerMember ts_version].
  - apply Hval.
  - done.
  - intros m [Hm%Hcur|(_ & (m' & Hm' & <-)%Hid & _)%Hadd]%Hel; [naive_solver|auto].
  - intros m [Hm%Hcur|(Hs & _ & Hl & _)%Hadd]%Hel Hc; [naive_solver|]. intros E. rewrite E in Hl. cbn in Hl. lia.
  - unfold batch_consistent. cbn. split.
    + intros m [Hm%Hcur|(Hs & _)%Hadd]%Hel; [|by rewrite Hs].
      destruct Hm as (_ & E1 & E2). by destruct (m_state m).
    + destruct joining as [|i joining]; [done|]. destruct (Hj i ltac:(left)) as (m & Hm & _ & Hs).
      exists m. split; [done|]. unfold is_participant. by rewrite Hs.
  - intros m m' Hm [Hm'%Hcur|(Hs & _)%Hadd]%Hel Hs1 Hs2; [naive_solver|congruence].
  - rewrite Hn. done.
  - intros b [= <-]. cbn. unfold next_version in Hv. lia.
Qed.

Lemma BuildScaleOutStart_inv latest selected plan : topology_inv latest -> next_version latest ->
  BuildScaleOutStart latest selected = Ok plan -> topology_inv (tp_next plan).
Proof.
  intros Hinv Hv Hok. unfold BuildScaleOutStart in Hok.
  apply bind_Ok in Hok as (u1 & [_ Hnb%no_batch]%check_Ok%andb_prop & Hok).
  apply bind_Ok in Hok as (u2 & [Hne Hsel]%ValidateSelected_spec & Hok).
  apply bind_Ok in Hok as (built & Hb & Hok). apply bind_Ok in Hok as ([] & _ & [= <-]).
  apply law_scale_out in Hb.
  2:{ intros m t [Hm _]%RemoveMembers_elem. by apply (ti_u32 _ Hinv). }
  rewrite Forall_forall in Hsel. eapply scale_out_inv_next; [done|done|exact Hb|done| |].
  - intros m [Hm _]%RemoveMembers_elem. split; [done|].
    destruct (stable_state latest m (ti_batch _ Hinv) Hnb Hm) as (_ & ? & ?). done.
  - intros i (m & Hm & Hi & _)%Hsel. eauto.
Qed.

Lemma BuildScaleOutReplan_inv latest failed plan : topology_inv latest -> next_version latest ->
  BuildScaleOutReplan latest failed = Ok plan -> topology_inv (tp_next plan).
Proof.
  intros Hinv Hv Hok. unfold BuildScaleOutReplan in Hok.
  apply bind_Ok in Hok as (u1 & (b & Hb & Htype)%ValidateBatch_Some & Hok).
  apply bind_Ok in Hok as (u2 & _ & Hok).
  assert (Hret : forall m, m ∈ ts_members (RemoveMembers (addresses_of failed) latest) ->
     m ∈ ts_members latest /\ m_state m <> LEAVING /\ m_state m <> FAILED).
  { intros m [Hm _]%RemoveMembers_elem. split; [done|].
    pose proof (batch_state latest b m (ti_batch _ Hinv) Hb Hm) as Hs. rewrite Htype in Hs.
    split; intros E; by rewrite E in Hs. }
  destruct (is_empty (MembersInState _ JOINING)) eqn:Ej; cbn [negb] in Hok.
  - injection Hok as <-. pose proof (MembersInState_empty _ _ Ej) as Hnj.
    destruct Hinv as [H1 H2 H3 H4 H5 H6 H7 H8].
    split; cbn [tp_next stabilise set_version_batch ts_members ts_activeBatch ts_version ts_tokensPerMember].
    + by apply RemoveMembers_valid.
    + intros m t [Hm _]%Hret. by apply H2.
    + intros m [Hm _]%Hret. auto.
    + intros m [Hm _]%Hret. auto.
    + intros m Hm. apply transitional_false. pose proof (Hnj m Hm). by apply Hret in Hm as (_ & ? & ?).
    + intros m m' Hm _ Hs. by apply Hnj in Hm.
    + done.
    + done.
  - apply bind_Ok in Hok as (built & Hbt & [= <-]). apply law_scale_out in Hbt.
    2:{ intros m t [Hm _]%Hret. by apply (ti_u32 _ Hinv). }
    eapply scale_out_inv_next; [done|done|exact Hbt| |exact Hret|].
    + intros E. by rewrite E in Ej.
    + intros i (m & Hm & Hi & _)%MembersInState_elem. apply Hret in Hm as (Hm & _). eauto.
Qed.

Lemma topology_inv_map latest f v b : topology_inv latest -> keeps_shape f ->
  (forall m, m ∈ ts_members latest -> committed_or_joining (f m) = true -> committed_or_joining m = true) ->
  (forall m, m ∈ ts_members latest -> m_state (f m) = JOINING -> m_state m = JOINING) ->
  (forall m m', m ∈ ts_members latest -> m' ∈ ts_members latest ->
     m_state (f m) = JOINING -> m_state (f m') = LEAVING -> False) ->
  (forall b', b = Some b' -> 0 < ab_epoch b' <= v) ->
  batch_consistent (set_version_batch v b (set_members (f <$> ts_members latest) latest)) ->
  topology_inv (set_version_batch v b (set_members (f <$> ts_members latest) latest)).
Proof.
  intros [H1 H2 H3 H4 H5 H6 H7 H8] Hf Hc Hj Hs He Hb.
  split; cbn [set_version_batch set_members ts_members ts_activeBatch ts_version ts_tokensPerMember]; try done.
  - by apply members_valid_map.
  - by apply tokens_u32_map.
  - intros m (m' & -> & Hm')%list_elem_of_fmap. rewrite (proj1 (Hf m')). auto.
  - intros m (m' & -> & Hm')%list_elem_of_fmap Hcm. rewrite (proj2 (Hf m')). auto.
  - intros m m' (x & -> & Hx)%list_elem_of_fmap (y & -> & Hy)%list_elem_of_fmap. eauto.
Qed.

(** The state update of a scale-in start. *)
Definition leave_update (selected : list MemberIdentity) (m : Member) : Member :=
  if bool_decide (m_identity m ∈ selected) then set_member_state LEAVING m else m.

Lemma BuildScaleInStart_next latest selected plan : topology_inv latest ->
  BuildScaleInStart latest selected = Ok plan ->
  scale_in_contract latest selected {| tp_next := set_members (mark_members (addresses_of selected) PRE_LEAVING
      (ts_members latest)) latest; tp_ownerChanges := tp_ownerChanges plan |} /\
  ts_activeBatch latest = None /\ selected <> [] /\
  tp_next plan = set_version_batch (u64 (ts_version latest + 1))
    (Some {| ab_type := SCALE_IN; ab_epoch := u64 (ts_version latest + 1) |})
    (set_members (leave_update selected <$> ts_members latest) latest).
Proof.
  intros Hinv Hok. unfold BuildScaleInStart in Hok.
  apply bind_Ok in Hok as (u1 & [_ Hnb%no_batch]%check_Ok%andb_prop & Hok).
  apply bind_Ok in Hok as (u2 & [Hne Hsel]%ValidateSelected_spec & Hok).
  apply bind_Ok in Hok as (built & Hb & [= <-]). apply law_scale_in in Hb; [|apply Hinv].
  pose proof (nc_marked _ _ _ Hb) as Hmk. destruct built as [next changes]. cbn [tp_next tp_ownerChanges] in *. subst next.
  split_and!; [done..|]. unfold AdvanceEpoch. cbn [tp_next tp_ownerChanges]. unfold set_version_batch, set_members.
  cbn [ts_members ts_version ts_activeBatch ts_tokensPerMember ts_clusterHasInit]. f_equal.
  unfold mark_members. rewrite <-list_fmap_compose. apply list_fmap_ext. intros i m Hi%list_elem_of_lookup_2.
  unfold compose, leave_update. case_decide as Ha.
  - apply elem_of_addresses_of in Ha as (j & Hj & Ha).
    destruct (nc_leaving _ _ _ Hb j Hj) as (m' & Hm' & Hid & _).
    assert (m' = m) as -> by (eapply (address_inj (ts_members latest)); [apply Hinv|done..|congruence]).
    unfold in_state. cbn [m_state set_member_state]. rewrite bool_decide_true by done. cbn [andb m_identity set_member_state].
    rewrite Hid. by rewrite bool_decide_true.
  - assert (Hno : m_identity m ∉ selected) by (intros Hin; apply Ha, elem_of_addresses_of; eauto).
    rewrite (bool_decide_false (m_identity m ∈ selected)) by done. by rewrite andb_false_r.
Qed.

Lemma BuildScaleInStart_inv latest selected plan : topology_inv latest -> next_version latest ->
  BuildScaleInStart latest selected = Ok plan -> topology_inv (tp_next plan).
Proof.
  intros Hinv Hv Hok. destruct (BuildScaleInStart_next _ _ _ Hinv Hok) as (Hc & Hnb & Hne & ->).
  rewrite u64_next by done.
  assert (Hst : forall m, m ∈ ts_members latest -> m_state m <> JOINING /\ m_state m <> LEAVING /\ m_state m <> FAILED)
    by (intros; by eapply stable_state; [apply Hinv|..]).
  assert (Hlv : forall m, m ∈ ts_members latest -> m_identity m ∈ selected -> committed m = true).
  { intros m Hm Hi. destruct (nc_leaving _ _ _ Hc _ Hi) as (m' & Hm' & Hid & Hcm).
    assert (m' = m) as -> by (eapply (address_inj (ts_members latest)); [apply Hinv|done..|congruence]). done. }
  apply topology_inv_map; [done|apply set_member_state_shape|..].
  - intros m Hm. unfold leave_update. case_bool_decide as Hi; [|done].
    intros _. unfold committed_or_joining. by rewrite Hlv.
  - intros m Hm. unfold leave_update. by case_bool_decide.
  - intros m m' Hm _ Hj _. unfold leave_update in Hj. case_bool_decide; [done|]. by apply Hst in Hm as [].
  - intros b [= <-]. cbn. unfold next_version in Hv. lia.
  - unfold batch_consistent. cbn [ts_activeBatch set_version_batch ts_members set_members ab_type]. split.
    + intros m (m' & -> & Hm')%list_elem_of_fmap. unfold leave_update. case_bool_decide; [done|].
      destruct (Hst m' Hm') as (? & ? & ?). by destruct (m_state m').
    + destruct selected as [|i selected]; [done|].
      destruct (nc_leaving _ _ _ Hc i ltac:(left)) as (m & Hm & Hid & _).
      exists (leave_update (i :: selected) m). split; [by apply list_elem_of_fmap_2|].
      unfold leave_update. rewrite bool_decide_true by (rewrite Hid; left). done.
Qed.

(** Both branches of a failure start mark exactly the confirmed members: the loop
    that restores [JOINING] and [LEAVING] members has nothing to restore. *)
Lemma set_state_of_id i s ms : (forall m, m ∈ ms -> m_identity m = i -> m_state m = s) ->
  set_state_of i s ms = ms.
Proof.
  induction ms as [|m ms IH]; intros Hs; cbn [set_state_of]; [done|].
  case_bool_decide as Hi.
  - f_equal. specialize (Hs m ltac:(left) Hi). destruct m; cbn in *. by subst.
  - f_equal. apply IH. intros; apply Hs; [by right|done].
Qed.

Definition fail_update (confirmed : list MemberIdentity) (m : Member) : Member :=
  if bool_decide (m_address m ∈ addresses_of confirmed) then set_member_state FAILED m else m.

Lemma preserve_loop_id latest confirmed : members_valid (ts_members latest) ->
  foldl (preserve_step (addresses_of confirmed)) (fail_update confirmed <$> ts_members latest) (ts_members latest) =
  fail_update confirmed <$> ts_members latest.
Proof.
  intros Hv. assert (Hgen : forall l, (forall m, m ∈ l -> m ∈ ts_members latest) ->
    foldl (preserve_step (addresses_of confirmed)) (fail_update confirmed <$> ts_members latest) l =
    fail_update confirmed <$> ts_members latest); [|by apply Hgen].
  induction l as [|m l IH]; intros Hl; cbn [foldl]; [done|].
  replace (preserve_step (addresses_of confirmed) (fail_update confirmed <$> ts_members latest) m)
    with (fail_update confirmed <$> ts_members latest); [apply IH; intros; apply Hl; by right|].
  unfold preserve_step. destruct (_ && _) eqn:E; [|done]. apply andb_prop in E as [_ Ha%bool_decide_eq_true].
  symmetry. apply set_state_of_id. intros m' (x & -> & Hx)%list_elem_of_fmap Hid.
  unfold fail_update in *. assert (x = m) as ->.
  { eapply (address_inj (ts_members latest)); [done|done|apply Hl; left|]. revert Hid. by case_bool_decide; intros <-. }
  by rewrite bool_decide_false.
Qed.

Lemma BuildFailureStart_next latest confirmed plan : topology_inv latest ->
  BuildFailureStartOrReplan latest confirmed = Ok plan ->
  tp_next plan = set_version_batch (u64 (ts_version latest + 1))
    (Some {| ab_type := FAILURE; ab_epoch := u64 (ts_version latest + 1) |})
    (set_members (fail_update confirmed <$> ts_members latest) latest).
Proof.
  intros Hinv Hok. unfold BuildFailureStartOrReplan in Hok.
  apply bind_Ok in Hok as (u1 & _ & Hok). apply bind_Ok in Hok as (u2 & Hall%check_Ok & Hok).
  rewrite forallb_elem in Hall. destruct (negb (existsb _ _)).
  - injection Hok as <-. unfold AdvanceEpoch. cbn [tp_next]. by rewrite mark_members_fmap.
  - apply bind_Ok in Hok as (built & Hb & [= <-]). apply law_failure in Hb.
    2:{ apply tokens_u32_map; [apply set_member_state_shape|apply Hinv]. }
    pose proof (fc_marked _ _ _ Hb) as Hmk. unfold AdvanceEpoch. cbn [tp_next]. rewrite Hmk.
    cbn [ts_members set_members].
    assert (Heq : mark_members (addresses_of confirmed) FAILED (replace_state FAILED ACTIVE (ts_members latest)) =
              fail_update confirmed <$> ts_members latest).
    { unfold mark_members, replace_state. rewrite <-list_fmap_compose. apply list_fmap_ext.
      intros i m Hm%list_elem_of_lookup_2. unfold compose, fail_update. specialize (Hall m Hm).
      destruct (in_state FAILED m) eqn:Ef; cbn in Hall.
      - apply bool_decide_eq_true in Hall. assert (Ha : m_address m ∈ addresses_of confirmed)
          by (apply elem_of_addresses_of; eauto).
        cbn [m_identity set_member_state]. by rewrite decide_True, bool_decide_true.
      - case_decide; [by rewrite bool_decide_true|by rewrite bool_decide_false]. }
    rewrite Heq, preserve_loop_id by apply Hinv. done.
Qed.

Lemma BuildFailureStart_inv latest confirmed plan : topology_inv latest -> next_version latest ->
  (exists m, m ∈ ts_members latest /\ m_address m ∈ addresses_of confirmed) ->
  BuildFailureStartOrReplan latest confirmed = Ok plan -> topology_inv (tp_next plan).
Proof.
  intros Hinv Hv (m0 & Hm0 & Ha0) Hok. rewrite (BuildFailureStart_next _ _ _ Hinv Hok), u64_next by done.
  apply topology_inv_map; [done|apply set_member_state_shape|..].
  - intros m Hm. unfold fail_update. by case_bool_decide.
  - intros m Hm. unfold fail_update. by case_bool_decide.
  - intros m m' Hm Hm'. unfold fail_update. repeat case_bool_decide; try done. by apply (ti_single _ Hinv).
  - intros b [= <-]. cbn. unfold next_version in Hv. lia.
  - unfold batch_consistent. cbn [ts_activeBatch set_version_batch ts_members set_members ab_type]. split; [done|].
    exists (fail_update confirmed m0). split; [by apply list_elem_of_fmap_2|].
    unfold fail_update. by rewrite bool_decide_true.
Qed.

Lemma topology_inv_sub latest st : topology_inv latest ->
  ts_members st `sublist_of` ts_members latest -> ts_tokensPerMember st = ts_tokensPerMember latest ->
  batch_consistent st -> (forall b, ts_activeBatch st = Some b -> 0 < ab_epoch b <= ts_version st) ->
  topology_inv st.
Proof.
  intros [H1 H2 H3 H4 H5 H6 H7 H8] Hsub Htpm Hb He.
  assert (Hin : forall m, m ∈ ts_members st -> m ∈ ts_members latest) by (intros; by eapply elem_of_sublist).
  split; [by eapply members_valid_sub|intros m t Hm; apply H2; auto|auto|auto|done| |by rewrite Htpm|done].
  intros m m' Hm Hm'. apply H6; auto.
Qed.

Lemma BuildScaleOutFinal_inv latest next : topology_inv latest -> BuildScaleOutFinal latest = Ok next ->
  topology_inv next.
Proof.
  intros Hinv Hok. unfold BuildScaleOutFinal in Hok.
  apply bind_Ok in Hok as (u1 & (b & Hb & Ht)%ValidateBatch_Some & Hok). apply bind_Ok in Hok as (u2 & _ & [= <-]).
  assert (Hst : forall m, m ∈ ts_members latest -> m_state m <> LEAVING /\ m_state m <> FAILED).
  { intros m Hm. pose proof (batch_state latest b m (ti_batch _ Hinv) Hb Hm) as Hs. rewrite Ht in Hs.
    split; intros E; by rewrite E in Hs. }
  unfold stabilise, replace_state. apply topology_inv_map; [done|apply set_member_state_shape|..].
  - intros m Hm. destruct (in_state JOINING m) eqn:E; [|done]. intros _. unfold committed_or_joining, is_joining.
    unfold in_state in E. by rewrite E, orb_true_r.
  - intros m Hm. destruct (in_state JOINING m) eqn:E; [done|]. done.
  - intros m m' _ Hm'. destruct (in_state JOINING m'); [done|]. intros _ E. by apply Hst in Hm' as [].
  - done.
  - unfold batch_consistent. cbn [ts_activeBatch set_version_batch ts_members set_members].
    intros m (m' & -> & Hm')%list_elem_of_fmap. apply transitional_false.
    destruct (in_state JOINING m') eqn:E; [done|]. apply bool_decide_eq_false in E.
    by destruct (Hst m' Hm').
Qed.

Lemma BuildScaleInFinal_inv latest next : topology_inv latest -> BuildScaleInFinal latest = Ok next ->
  topology_inv next.
Proof.
  intros Hinv Hok. unfold BuildScaleInFinal in Hok.
  apply bind_Ok in Hok as (u1 & (b & Hb & Ht)%ValidateBatch_Some & Hok). apply bind_Ok in Hok as (u2 & _ & [= <-]).
  eapply topology_inv_sub; [done|apply filter_bool_sublist|done| |done].
  unfold batch_consistent. cbn [ts_activeBatch stabilise set_version_batch].
  intros m Hm. apply (remove_state_elem latest LEAVING) in Hm as [Hm Hs]; [|apply Hinv]. apply transitional_false.
  pose proof (batch_state latest b m (ti_batch _ Hinv) Hb Hm) as Hmb. rewrite Ht in Hmb.
  split_and!; [|done|]; intros E; by rewrite E in Hmb.
Qed.

Lemma BuildFailureFinal_inv latest next : topology_inv latest -> next_version latest ->
  BuildFailureFinal latest = Ok next -> topology_inv next.
Proof.
  intros Hinv Hv Hok. unfold BuildFailureFinal in Hok.
  apply bind_Ok in Hok as (u1 & (b & Hb & Ht)%ValidateBatch_Some & Hok). apply bind_Ok in Hok as (u2 & _ & [= <-]).
  rewrite u64_next by done. set (built := RemoveMembers _ latest).
  assert (Hel : forall m, m ∈ ts_members built <-> m ∈ ts_members latest /\ m_state m <> FAILED)
    by (intros m; apply remove_state_elem, Hinv).
  assert (Hsub : ts_members built `sublist_of` ts_members latest) by apply filter_bool_sublist.
  assert (He : 0 < ts_version latest + 1 <= ts_version latest + 1) by (unfold next_version in Hv; lia).
  destruct (negb (existsb _ _)).
  { eapply topology_inv_sub; [done|apply sublist_nil_l|done| |done]. intros m Hm. by apply not_elem_of_nil in Hm. }
  destruct (is_empty (MembersInState built JOINING)) eqn:Ej; cbn [negb].
  2:{ apply MembersInState_nonempty in Ej as (mj & Hmj & Hsj).
      eapply topology_inv_sub; [done|exact Hsub|done| |intros b' [= <-]; exact He]. split.
      - intros m Hm. apply Hel in Hm as [Hm Hf]. apply Hel in Hmj as [Hmj _]. cbn.
        assert (m_state m <> LEAVING) by (intros E; by eapply (ti_single _ Hinv mj m)).
        by destruct (m_state m).
      - exists mj. split; [done|]. unfold is_participant. by rewrite Hsj. }
  pose proof (MembersInState_empty _ _ Ej) as Hnj.
  destruct (is_empty (MembersInState built LEAVING)) eqn:El; cbn [negb].
  2:{ apply MembersInState_nonempty in El as (ml & Hml & Hsl).
      eapply topology_inv_sub; [done|exact Hsub|done| |intros b' [= <-]; exact He]. split.
      - intros m Hm. pose proof (Hnj m Hm). apply Hel in Hm as [Hm Hf]. cbn. by destruct (m_state m).
      - exists ml. split; [done|]. unfold is_participant. by rewrite Hsl. }
  pose proof (MembersInState_empty _ _ El) as Hnl.
  eapply topology_inv_sub; [done|exact Hsub|done| |done].
  intros m Hm. apply transitional_false. pose proof (Hnj m Hm). pose proof (Hnl m Hm). by apply Hel in Hm as [].
Qed.

Lemma BuildClusterShutdownFinal_inv latest next : topology_inv latest ->
  BuildClusterShutdownFinal latest = Ok next -> topology_inv next.
Proof.
  intros Hinv Hok. unfold BuildClusterShutdownFinal in Hok.
  apply bind_Ok in Hok as (u1 & _ & Hok). apply bind_Ok in Hok as (u2 & _ & [= <-]).
  eapply topology_inv_sub; [done|apply sublist_nil_l|done| |done]. intros m Hm. by apply not_elem_of_nil in Hm.
Qed.

Lemma build_step_inv st st' : next_version st -> topology_inv st -> build_step st st' -> topology_inv st'.
Proof.
  intros Hv Hinv Hstep. destruct Hstep.
  - by eapply BuildBootstrap_inv.
  - by eapply BuildScaleOutStart_inv.
  - by eapply BuildScaleOutReplan_inv.
  - by eapply BuildScaleInStart_inv.
  - by eapply BuildFailureStart_inv.
  - by eapply BuildScaleOutFinal_inv.
  - by eapply BuildScaleInFinal_inv.
  - by eapply BuildFailureFinal_inv.
  - by eapply BuildClusterShutdownFinal_inv.
Qed.

(** Every step advances the version by exactly one (modulo the counter's width)
    and any batch it starts carries the new version as its epoch. *)
Lemma build_step_version st st' : build_step st st' ->
  ts_version st' = u64 (ts_version st + 1) /\
  forall b, ts_activeBatch st' = Some b -> ab_epoch b = ts_version st'.
Proof.
  intros Hstep. destruct Hstep as [latest ready next Hok|latest sel plan Hok|latest fj plan Hok|latest sel plan Hok
    |latest conf plan _ Hok|latest next Hok|latest next Hok|latest next Hok|latest next Hok].
  - unfold BuildBootstrap in Hok. apply bind_Ok in Hok as (? & _ & Hok). apply bind_Ok in Hok as (? & _ & Hok).
    apply bind_Ok in Hok as (built & Hb%law_initial & Hok). apply bind_Ok in Hok as (? & _ & [= <-]).
    split; [done|]. cbn. intros b. by rewrite (ic_next _ _ _ Hb).
  - unfold BuildScaleOutStart in Hok. apply bind_Ok in Hok as (? & _ & Hok). apply bind_Ok in Hok as (? & _ & Hok).
    apply bind_Ok in Hok as (built & _ & Hok). apply bind_Ok in Hok as (? & _ & [= <-]).
    split; [done|]. by intros b [= <-].
  - unfold BuildScaleOutReplan in Hok. apply bind_Ok in Hok as (? & _ & Hok). apply bind_Ok in Hok as (? & _ & Hok).
    destruct (negb _).
    + apply bind_Ok in Hok as (built & _ & [= <-]). split; [done|]. by intros b [= <-].
    + injection Hok as <-. done.
  - unfold BuildScaleInStart in Hok. apply bind_Ok in Hok as (? & _ & Hok). apply bind_Ok in Hok as (? & _ & Hok).
    apply bind_Ok in Hok as (built & _ & [= <-]). split; [done|]. by intros b [= <-].
  - unfold BuildFailureStartOrReplan in Hok. apply bind_Ok in Hok as (? & _ & Hok). apply bind_Ok in Hok as (? & _ & Hok).
    destruct (negb _).
    + injection Hok as <-. split; [done|]. by intros b [= <-].
    + apply bind_Ok in Hok as (built & _ & [= <-]). split; [done|]. by intros b [= <-].
  - unfold BuildScaleOutFinal in Hok. apply bind_Ok in Hok as (? & _ & Hok). by apply bind_Ok in Hok as (? & _ & [= <-]).
  - unfold BuildScaleInFinal in Hok. apply bind_Ok in Hok as (? & _ & Hok). by apply bind_Ok in Hok as (? & _ & [= <-]).
  - unfold BuildFailureFinal in Hok. apply bind_Ok in Hok as (? & _ & Hok). apply bind_Ok in Hok as (? & _ & [= <-]).
    repeat case_match; (split; [done|]); try done; by intros b [= <-].
  - unfold BuildClusterShutdownFinal in Hok. apply bind_Ok in Hok as (? & _ & Hok). by apply bind_Ok in Hok as (? & _ & [= <-]).
Qed.

(** ** Runs *)

Lemma run_inv n st st' : nsteps build_step n st st' -> topology_inv st ->
  0 <= ts_version st -> ts_version st + Z.of_nat n <= INT64_MAX ->
  topology_inv st' /\ ts_version st' = ts_version st + Z.of_nat n.
Proof.
  induction 1 as [st|n st st1 st' Hstep Hrun IH]; intros Hinv H0 Hmax.
  { split; [done|lia]. }
  destruct (build_step_version _ _ Hstep) as [Hv _].
  rewrite u64_next in Hv by (unfold next_version; lia).
  destruct IH as [Hi Hv']; [eapply build_step_inv; [|done..]; unfold next_version; lia|lia|lia|].
  split; [done|]. lia.
Qed.


(** ** From the start of a batch to its final state *)

(** C7: a scale-out batch commits exactly the migrations it planned.  Between
    the topology before its start and the one after its final step, the owner
    of a token changes from [s] to [d] iff the plan lists that token in a range
    from [s] to [d]; every other token keeps its owner. *)
Theorem scale_out_commit latest selected plan next :
  topology_inv latest -> BuildScaleOutStart latest selected = Ok plan ->
  BuildScaleOutFinal (tp_next plan) = Ok next ->
  exact_changes (ring_owner committed (ts_members latest)) (ring_owner committed (ts_members next))
    (tp_ownerChanges plan).
Proof.
  intros Hinv Hok Hfin. unfold BuildScaleOutStart in Hok.
  apply bind_Ok in Hok as (u1 & [_ Hnb%no_batch]%check_Ok%andb_prop & Hok).
  apply bind_Ok in Hok as (u2 & [Hne Hsel]%ValidateSelected_spec & Hok). rewrite Forall_forall in Hsel.
  apply bind_Ok in Hok as (built & Hb & Hok). apply bind_Ok in Hok as ([] & _ & [= <-]).
  unfold BuildScaleOutFinal in Hfin. apply bind_Ok in Hfin as (u3 & _ & Hfin).
  apply bind_Ok in Hfin as (u4 & _ & [= <-]).
  apply law_scale_out in Hb.
  2:{ intros m t [Hm _]%RemoveMembers_elem. by apply (ti_u32 _ Hinv). }
  eapply exact_changes_ext; [| |exact (oc_exact _ _ _ _ Hb)].
  - intros t Ht. symmetry. apply ring_owner_ext; [apply Hinv..|done|]. intros i x.
    split; intros (m & Hm & Hc & Hi & Hx); exists m; split_and!; try done.
    + apply RemoveMembers_elem. split; [done|]. intros (j & Hj & Ha)%elem_of_addresses_of.
      destruct (Hsel j Hj) as (m' & Hm' & Hid & Hs).
      assert (m' = m) as -> by (eapply (address_inj (ts_members latest)); [apply Hinv|done..|congruence]).
      unfold committed in Hc. by rewrite Hs in Hc.
    + by apply RemoveMembers_elem in Hm as [].
  - intros t Ht. apply ring_owner_ext; [apply (oc_valid _ _ _ _ Hb)|apply (oc_u32 _ _ _ _ Hb)|done|].
    cbn [stabilise set_version_batch set_members ts_members AdvanceEpoch tp_next]. intros i x. split.
    + intros (m & Hm & Hc & Hi & Hx). eexists. split; [by apply list_elem_of_fmap_2|].
      destruct (in_state JOINING m) eqn:E; [done|]. split_and!; [|done..].
      unfold committed_or_joining, is_joining in Hc. unfold in_state in E. by rewrite E, orb_false_r in Hc.
    + intros (m & (m' & -> & Hm')%list_elem_of_fmap & Hc & Hi & Hx). exists m'.
      destruct (in_state JOINING m') eqn:E; unfold committed_or_joining, is_joining.
      * unfold in_state in E. by rewrite E, orb_true_r.
      * by rewrite Hc.
Qed.

(** a scale-in batch commits exactly the migrations it planned: the leaving
    members are gone from the final topology and the owner of a token changes
    from [s] to [d] iff the plan lists it so, with [s] a leaving member. *)
Theorem scale_in_commit latest selected plan next :
  topology_inv latest -> BuildScaleInStart latest selected = Ok plan ->
  BuildScaleInFinal (tp_next plan) = Ok next ->
  exact_changes (ring_owner committed (ts_members latest)) (ring_owner committed (ts_members next))
    (tp_ownerChanges plan) /\
  (forall c, c ∈ tp_ownerChanges plan -> exists s, oc_source c = Some s /\ s ∈ selected) /\
  (forall m, m ∈ ts_members next <-> m ∈ ts_members latest /\ m_identity m ∉ selected).
Proof.
  intros Hinv Hok Hfin. destruct (BuildScaleInStart_next _ _ _ Hinv Hok) as (Hc & Hnb & Hne & Hnext).
  unfold BuildScaleInFinal in Hfin. apply bind_Ok in Hfin as (u3 & _ & Hfin).
  apply bind_Ok in Hfin as (u4 & _ & [= <-]).
  assert (Hv : members_valid (ts_members (tp_next plan))).
  { rewrite Hnext. apply members_valid_map; [apply set_member_state_shape|apply Hinv]. }
  assert (Hel : forall m, m ∈ ts_members (stabilise (tp_next plan) (RemoveMembers (addresses_of
      (MembersInState (tp_next plan) LEAVING)) (tp_next plan))) <-> m ∈ ts_members latest /\ m_identity m ∉ selected).
  { intros m. cbn [stabilise set_version_batch ts_members]. rewrite (remove_state_elem (tp_next plan) LEAVING m Hv).
    rewrite Hnext. cbn [set_version_batch set_members ts_members]. rewrite list_elem_of_fmap. split.
    - intros [(m' & -> & Hm') Hs]. unfold leave_update in *. by case_bool_decide.
    - intros [Hm Hi]. split.
      + exists m. unfold leave_update. by rewrite bool_decide_false.
      + by eapply stable_state; [apply Hinv|..]. }
  split_and!; [|intros c Hcc; destruct (nc_sources _ _ _ Hc c Hcc) as (s & ? & ? & _); eauto|done].
  eapply exact_changes_ext; [done| |exact (nc_exact _ _ _ Hc)]. intros t Ht.
  apply ring_owner_ext; [apply Hinv..|done|]. intros i x.
  assert (Hout : forall m, m ∈ ts_members latest -> outside selected m = true <-> m_identity m ∉ selected).
  { intros m Hm. apply (outside_identity latest selected m); [apply Hinv| |done].
    apply Forall_forall. intros j Hj. exact (nc_leaving _ _ _ Hc j Hj). }
  setoid_rewrite Hel. setoid_rewrite andb_true_iff. split.
  - intros (m & Hm & [Hcm Ho] & Hi & Hx). exists m. rewrite <-Hout; done.
  - intros (m & [Hm Ho] & Hcm & Hi & Hx). exists m. rewrite Hout; done.
Qed.

(** The members before a failure plan, with members of an earlier failure set
    still counted as owners. *)
Definition with_failed_active (st : TopologyState) : list Member := replace_state FAILED ACTIVE (ts_members st).

(** Removing the failed members, when an [ACTIVE] one remains. *)
Lemma BuildFailureFinal_members latest next : members_valid (ts_members latest) ->
  (exists m, m ∈ ts_members latest /\ m_state m = ACTIVE) -> BuildFailureFinal latest = Ok next ->
  forall m, m ∈ ts_members next <-> m ∈ ts_members latest /\ m_state m <> FAILED.
Proof.
  intros Hv (mh & Hmh & Hsh) Hok. unfold BuildFailureFinal in Hok. apply bind_Ok in Hok as (u1 & _ & Hok).
  apply bind_Ok in Hok as (u2 & _ & Hok). injection Hok as Hok.
  set (built := RemoveMembers _ latest) in Hok.
  assert (Hel : forall m, m ∈ ts_members built <-> m ∈ ts_members latest /\ m_state m <> FAILED)
    by (intros m; by apply remove_state_elem).
  rewrite (proj2 (existsb_elem _ _)) in Hok.
  2:{ exists mh. split; [apply Hel; by rewrite Hsh|]. unfold in_state. by rewrite bool_decide_true. }
  cbn [negb] in Hok. intros m. rewrite <-Hel. subst next. by repeat case_match.
Qed.

(** Without leaving members the owners of a recovery plan are all the committed
    ones, so the plan is exact. *)
Lemma failure_plan_exact cur failed plan : members_valid (ts_members cur) -> tokens_u32 (ts_members cur) ->
  (forall m, m ∈ ts_members cur -> committed m = true -> m_state m = ACTIVE) ->
  failure_contract cur failed plan ->
  exact_changes (ring_owner committed (ts_members cur))
    (ring_owner (fun m => bool_decide (m_state m = ACTIVE) && outside failed m) (ts_members cur))
    (tp_ownerChanges plan).
Proof.
  intros Hv Hu Hps Hb.
  assert (Hout : forall m, m ∈ ts_members cur -> outside failed m = true <-> m_identity m ∉ failed).
  { intros m Hm. apply (outside_identity cur failed m); [done| |done].
    apply Forall_forall. intros j Hj. exact (fc_failed _ _ _ Hb j Hj). }
  assert (Himp : forall m, bool_decide (m_state m = ACTIVE) && outside failed m = true -> committed m = true)
    by (intros m [Ha%bool_decide_eq_true _]%andb_prop; unfold committed; by rewrite Ha).
  split; [apply Hb| |apply Hb| |apply Hb].
  - intros t s d Ht Hs Hd. rewrite <-(fc_iff _ _ _ Hb t s d Ht Hs Hd). split.
    + intros Hne. destruct (restricted_change cur _ _ t s d Hv Hu Ht Himp Hs Hd Hne) as (m & Hm & <- & Hc & Ho).
      rewrite (Hps m Hm Hc), bool_decide_true in Ho by done. cbn in Ho.
      destruct (decide (m_identity m ∈ failed)) as [|Hno]; [done|]. apply Hout in Hno; [congruence|done].
    + intros Hin ->. apply ring_owner_elem in Hd as (m & Hm & [_ Ho]%andb_prop & <-). by apply Hout in Ho.
  - intros c Hc. destruct (fc_changes _ _ _ Hb c Hc) as (W & E & s & m & Hs & Hin & _ & _ & _ & Hnin).
    split_and!; [done..|]. exists s. split; [done|]. by intros ->.
Qed.

(** The plan of a failure start that finds a healthy owner. *)
Lemma BuildFailureStart_contract latest confirmed plan : topology_inv latest ->
  (exists m, m ∈ ts_members latest /\ m_state m = ACTIVE /\ m_address m ∉ addresses_of confirmed) ->
  BuildFailureStartOrReplan latest confirmed = Ok plan ->
  (forall m, m ∈ ts_members latest -> m_state m = FAILED -> m_identity m ∈ confirmed) /\
  exists built, failure_contract (set_members (with_failed_active latest) latest) confirmed built /\
    tp_ownerChanges plan = tp_ownerChanges built.
Proof.
  intros Hinv (mh & Hmh & Hsh & Hah) Hok. unfold BuildFailureStartOrReplan in Hok.
  apply bind_Ok in Hok as (u1 & _ & Hok). apply bind_Ok in Hok as (u2 & Hall%check_Ok & Hok).
  rewrite forallb_elem in Hall. split.
  { intros m Hm Hf. specialize (Hall m Hm). unfold in_state in Hall.
    rewrite (bool_decide_true (m_state m = FAILED)) in Hall by done. by apply bool_decide_eq_true in Hall. }
  rewrite (proj2 (existsb_elem _ (ts_members latest))) in Hok.
  2:{ exists mh. split; [done|]. apply andb_true_iff. split; by apply bool_decide_eq_true. }
  cbn [negb] in Hok. apply bind_Ok in Hok as (built & Hb & [= <-]). exists built. split; [|done].
  apply law_failure in Hb; [done|]. apply tokens_u32_map; [apply set_member_state_shape|apply Hinv].
Qed.

(** when every committed member is [ACTIVE] and one of them is healthy, a
    failure batch commits exactly its recovery plan: between the topology before
    the failures and the final one the owner of a token changes from [s] to [d]
    iff the plan lists it so, and [s] is then a failed member. *)
Theorem failure_commit latest confirmed plan next :
  topology_inv latest ->
  (forall m, m ∈ ts_members latest -> m_state m <> PRE_LEAVING /\ m_state m <> LEAVING) ->
  (exists m, m ∈ ts_members latest /\ m_state m = ACTIVE /\ m_address m ∉ addresses_of confirmed) ->
  BuildFailureStartOrReplan latest confirmed = Ok plan -> BuildFailureFinal (tp_next plan) = Ok next ->
  exact_changes (ring_owner committed (with_failed_active latest)) (ring_owner committed (ts_members next))
    (tp_ownerChanges plan) /\
  (forall c, c ∈ tp_ownerChanges plan -> exists s, oc_source c = Some s /\ s ∈ confirmed).
Proof.
  intros Hinv Hord Hh Hok Hfin.
  pose proof (BuildFailureStart_next _ _ _ Hinv Hok) as Hnext.
  destruct (BuildFailureStart_contract _ _ _ Hinv Hh Hok) as (Hall & built & Hb & ->).
  destruct Hh as (mh & Hmh & Hsh & Hah).
  assert (Hpv : members_valid (with_failed_active latest))
    by (apply members_valid_map; [apply set_member_state_shape|apply Hinv]).
  assert (Hpu : tokens_u32 (with_failed_active latest))
    by (apply tokens_u32_map; [apply set_member_state_shape|apply Hinv]).
  assert (Hps : forall m, m ∈ with_failed_active latest -> committed m = true -> m_state m = ACTIVE).
  { intros m (m' & -> & Hm')%list_elem_of_fmap. destruct (in_state FAILED m'); [done|].
    destruct (Hord m' Hm'). unfold committed. by destruct (m_state m'). }
  assert (Hel : forall m, m ∈ ts_members next <-> m ∈ ts_members latest /\ m_address m ∉ addresses_of confirmed).
  { intros m. rewrite (BuildFailureFinal_members (tp_next plan) next); [|..|done]; rewrite Hnext;
      cbn [set_version_batch set_members ts_members].
    - rewrite list_elem_of_fmap. unfold fail_update. split.
      + intros [(m' & -> & Hm') Hs]. by case_bool_decide.
      + intros [Hm Hi]. split; [exists m; by rewrite bool_decide_false|]. intros Hs.
        apply Hi, elem_of_addresses_of. eauto.
    - apply members_valid_map; [apply set_member_state_shape|apply Hinv].
    - exists mh. split; [|done]. apply list_elem_of_fmap. exists mh. unfold fail_update. by rewrite bool_decide_false. }
  split.
  2:{ intros c Hc. destruct (fc_changes _ _ _ Hb c Hc) as (_ & _ & s & m & Hs & Hin & _). eauto. }
  eapply exact_changes_ext; [| |apply (failure_plan_exact (set_members (with_failed_active latest) latest) _ _ Hpv Hpu Hps Hb)]; intros t Ht; [done|].
  apply ring_owner_ext; [done..|]. intros i x. setoid_rewrite Hel.
  cbn [set_members ts_members]. unfold outside. setoid_rewrite andb_true_iff. setoid_rewrite bool_decide_eq_true. split.
  - intros (m & (m' & -> & Hm')%list_elem_of_fmap & [Ha Ho] & Hi & Hx).
    destruct (in_state FAILED m') eqn:Ef.
    + exfalso. apply bool_decide_eq_true in Ef. apply Ho, elem_of_addresses_of. eauto.
    + exists m'. unfold committed. by rewrite Ha.
  - intros (m & [Hm Ho] & Hc & Hi & Hx). exists m.
    assert (Hf : in_state FAILED m = false)
      by (apply bool_decide_eq_false; intros E; unfold committed in Hc; by rewrite E in Hc).
    assert (Hin : m ∈ with_failed_active latest) by (apply list_elem_of_fmap; exists m; by rewrite Hf).
    split_and!; [done|by apply Hps|done..].
Qed.
End safety.

(** ** Migration fences and prospective routing *)

Section fences.
Context `{HA : IPlanningAlgorithm} `{HL : !PlanningLaws} `{HR : RE2} `{HS : SHA256}.

(** The fence attached to the migration from [source] to [target] in [st]. *)
Definition fence_of (st : TopologyState) (source target : MemberIdentity) : TopologyMigrationFence := {|
  mf_topologyVersion := ts_version st;
  mf_batchEpoch := match ts_activeBatch st with Some b => ab_epoch b | None => 0 end;
  mf_source := source; mf_target := target |}.

Lemma FindExactMember_member st s m : snapshot_of st s -> m ∈ ts_members st ->
  FindExactMember s (m_identity m) = Ok m.
Proof.
  intros Hs Hm. pose proof Hs as (Hp & _)%snapshot_of_inv. pose proof (ps_members _ Hp) as Hv.
  destruct (mv_shape _ Hv m Hm) as [Hl Hne]. unfold FindExactMember.
  rewrite (bool_decide_false (m_id m = EmptyString)) by (intros E; by rewrite E in Hl).
  rewrite (bool_decide_false (m_address m = EmptyString)) by done. cbn [negb andb check mbind res_bind].
  pose proof (FindMemberByAddress_spec st s (m_address m) Hs) as Hf.
  destruct (FindMemberByAddress (m_address m) s) as [m'|c].
  - destruct Hf as [Hm' Ha]. rewrite (address_inj _ _ _ Hv Hm' Hm Ha).
    rewrite bool_decide_true by done. done.
  - destruct Hf as [_ Hno]. by destruct (Hno m Hm).
Qed.

Lemma snapshot_batch st s : snapshot_of st s ->
  ts_activeBatch (state_ s) = ts_activeBatch st /\ Version s = ts_version st.
Proof. by intros (_ & ? & ? & ? & ? & ? & ? & ->)%snapshot_of_inv. Qed.

(** The states of the two participants decide the fence. *)
Lemma fence_accepted st s b msrc mdst : snapshot_of st s -> ts_activeBatch st = Some b ->
  msrc ∈ ts_members st -> mdst ∈ ts_members st ->
  (ab_type b = SCALE_OUT /\ committed msrc = true /\ m_state mdst = JOINING) \/
  (ab_type b = SCALE_IN /\ m_state msrc = LEAVING /\ (m_state mdst = ACTIVE \/ m_state mdst = PRE_LEAVING)) ->
  ValidateMigrationFence (fence_of st (m_identity msrc) (m_identity mdst)) s = Ok tt.
Proof.
  intros Hs Hb Hsrc Hdst Hcase. destruct (snapshot_batch st s Hs) as [Eb Ev].
  pose proof Hs as (Hp & _)%snapshot_of_inv. pose proof (ps_version _ Hp). pose proof (ps_epoch _ Hp b Hb).
  unfold ValidateMigrationFence, fence_of. cbn [mf_topologyVersion mf_batchEpoch mf_source mf_target].
  rewrite Ev, Z.ltb_irrefl, Eb, Hb. rewrite (proj2 (Z.eqb_neq (ts_version st) 0)) by lia.
  cbn [negb check mbind res_bind].
  rewrite (proj2 (Z.eqb_neq (ab_epoch b) 0)) by lia. rewrite Z.eqb_refl. cbn [negb andb check mbind res_bind].
  rewrite (FindExactMember_member st s msrc), (FindExactMember_member st s mdst) by done. cbn [mbind res_bind].
  apply check_Ok. destruct Hcase as [(Ht & Hc & Hj)|(Ht & Hl & Ha)].
  - unfold committed in Hc. rewrite Ht, Hj, Hc. done.
  - assert (Hne : m_identity msrc <> m_identity mdst).
    { intros E. assert (msrc = mdst) as -> by (eapply (address_inj (ts_members st)); [apply Hp|done..|congruence]).
      destruct Ha; congruence. }
    rewrite (bool_decide_false (m_identity msrc = m_identity mdst)) by done. rewrite Ht, Hl.
    rewrite orb_true_iff. right. destruct Ha as [-> | ->]; done.
Qed.

(** C8: every migration listed by a scale-out or scale-in start carries a fence
    that the snapshot of the started topology accepts. *)
Theorem planned_migrations_pass_fence latest selected plan s c src :
  topology_inv latest ->
  BuildScaleOutStart latest selected = Ok plan \/ BuildScaleInStart latest selected = Ok plan ->
  snapshot_of (tp_next plan) s -> c ∈ tp_ownerChanges plan -> oc_source c = Some src ->
  ValidateMigrationFence (fence_of (tp_next plan) src (oc_target c)) s = Ok tt.
Proof.
  intros Hinv [Hok|Hok] Hs Hc Hsrc.
  - unfold BuildScaleOutStart in Hok. apply bind_Ok in Hok as (u1 & _ & Hok). apply bind_Ok in Hok as (u2 & _ & Hok).
    apply bind_Ok in Hok as (built & Hb & Hok). apply bind_Ok in Hok as (u3 & _ & [= <-]).
    apply law_scale_out in Hb.
    2:{ intros m t [Hm _]%RemoveMembers_elem. by apply (ti_u32 _ Hinv). }
    cbn [tp_ownerChanges AdvanceEpoch] in Hc.
    destruct (ec_wf _ _ _ (oc_exact _ _ _ _ Hb) c Hc) as (_ & (t & Ht) & _).
    destruct (ec_sound _ _ _ (oc_exact _ _ _ _ Hb) c t Hc Ht) as (_ & Hbef & _). rewrite Hsrc in Hbef.
    apply ring_owner_elem in Hbef as (m & Hm & Hcm & <-).
    destruct (oc_targets _ _ _ _ Hb c Hc) as (md & Hmd & <- & Hj).
    eapply fence_accepted; [exact Hs|reflexivity| |exact Hmd|left; by split_and!].
    destruct (oc_next _ _ _ _ Hb) as (added & Hn & _). cbn [tp_next AdvanceEpoch set_version_batch ts_members].
    rewrite Hn. cbn [set_members ts_members]. apply elem_of_app. by left.
  - destruct (BuildScaleInStart_next _ _ _ Hinv Hok) as (Hb & Hnb & _ & Hnext).
    destruct (ec_wf _ _ _ (nc_exact _ _ _ Hb) c Hc) as (_ & (t & Ht) & _).
    destruct (ec_sound _ _ _ (nc_exact _ _ _ Hb) c t Hc Ht) as (_ & Hbef & Haft). rewrite Hsrc in Hbef.
    destruct (nc_sources _ _ _ Hb c Hc) as (src' & Es & Hin & Hnin). rewrite Hsrc in Es. injection Es as <-.
    apply ring_owner_elem in Hbef as (m & Hm & Hcm & <-). apply ring_owner_elem in Haft as (md & Hmd & [Hcd _]%andb_prop & Hid).
    rewrite <-Hid in Hnin |- *.
    assert (Hms : leave_update selected m ∈ ts_members (tp_next plan)) by (rewrite Hnext; by apply list_elem_of_fmap_2).
    assert (Hmt : md ∈ ts_members (tp_next plan)).
    { rewrite Hnext. apply list_elem_of_fmap. exists md. unfold leave_update. by rewrite bool_decide_false. }
    assert (Hlu : leave_update selected m = set_member_state LEAVING m) by (unfold leave_update; by rewrite bool_decide_true).
    rewrite Hlu in Hms. change (m_identity m) with (m_identity (set_member_state LEAVING m)).
    eapply fence_accepted; [exact Hs|by rewrite Hnext|exact Hms|exact Hmt|right]. split_and!; [done..|].
    destruct (stable_state latest md (ti_batch _ Hinv) Hnb Hmd) as (? & ? & ?).
    unfold committed in Hcd. destruct (m_state md); naive_solver.
Qed.

(** a fence taken at some topology is rejected by the snapshot of every later
    topology, whatever steps lead there. *)
Theorem stale_fence_rejected n st st' s f :
  topology_inv st -> 0 <= ts_version st -> ts_version st + Z.of_nat (S n) <= INT64_MAX ->
  nsteps build_step (S n) st st' -> snapshot_of st' s ->
  mf_topologyVersion f <= ts_version st -> mf_batchEpoch f <= ts_version st ->
  ValidateMigrationFence f s = Err K_INVALID.
Proof.
  intros Hinv H0 Hmax Hrun Hs Hfv Hfe. destruct (run_inv _ _ _ Hrun Hinv H0 Hmax) as [_ Hv'].
  destruct (snapshot_batch st' s Hs) as [Eb Ev]. apply nsteps_inv_r in Hrun as (st1 & _ & Hlast).
  destruct (build_step_version _ _ Hlast) as [_ Hep].
  unfold ValidateMigrationFence. rewrite Ev, (proj2 (Z.ltb_ge _ _)) by lia. rewrite Eb.
  destruct (negb (mf_topologyVersion f =? 0)); cbn [check mbind res_bind]; [|done].
  destruct (ts_activeBatch st') as [b|]; [|done].
  rewrite (Hep b eq_refl), (proj2 (Z.eqb_neq (ts_version st') (mf_batchEpoch f))) by lia.
  by rewrite andb_false_r.
Qed.

(** C9: while a scale-out batch runs, or a scale-in batch that leaves a committed
    member, prospective routing already returns the member that owns the token in
    the batch's final topology. *)
Theorem prospective_owner_is_final st s t next :
  topology_inv st -> snapshot_of st s -> is_u32 t ->
  BuildScaleOutFinal st = Ok next \/ (BuildScaleInFinal st = Ok next /\
     exists m, m ∈ ts_members st /\ committed m = true /\ m_state m <> LEAVING) ->
  exists m, LocateProspectiveOwner s t = Ok m /\
    ring_owner committed (ts_members next) t = Some (m_identity m).
Proof.
  intros Hinv Hs Ht Hfin.
  assert (Hgoal : forall b owns, ts_activeBatch st = Some b -> ab_type b <> FAILURE ->
    (forall m, IsProspective (m_state m) (Some b) = owns m) ->
    (exists m, m ∈ ts_members st /\ owns m = true) -> (forall m, owns m = true -> committed_or_joining m = true) ->
    (forall i x, (exists m, m ∈ ts_members st /\ owns m = true /\ m_identity m = i /\ x ∈ m_tokens m) <->
       (exists m, m ∈ ts_members next /\ committed m = true /\ m_identity m = i /\ x ∈ m_tokens m)) ->
    exists m, LocateProspectiveOwner s t = Ok m /\ ring_owner committed (ts_members next) t = Some (m_identity m)).
  { intros b owns Hb Hnf Howns (m0 & Hm0 & Ho0) Hcj Hext.
    pose proof (LocateProspectiveOwner_spec st s t b Hs (ti_u32 _ Hinv) Ht Hb Hnf) as Hl.
    specialize (Hl ltac:(exists m0; rewrite Howns; split_and!; [done|done|apply (ti_tokens _ Hinv); auto])).
    destruct (LocateProspectiveOwner s t) as [m|c]; [|done]. destruct Hl as [_ Hro]. exists m. split; [done|].
    rewrite <-Hro. symmetry. apply ring_owner_ext; [apply Hinv..|done|]. intros i x. setoid_rewrite Howns. apply Hext. }
  destruct Hfin as [Hfin|[Hfin Hex]].
  - unfold BuildScaleOutFinal in Hfin. apply bind_Ok in Hfin as (u1 & (b & Hb & Htp)%ValidateBatch_Some & Hfin).
    apply bind_Ok in Hfin as (u2 & Hj%check_Ok%negb_true_iff%MembersInState_nonempty & [= <-]).
    apply (Hgoal b committed_or_joining); [done|by rewrite Htp|by intros m; cbn; rewrite Htp| |done|].
    + destruct Hj as (m & Hm & Hsj). exists m. split; [done|]. unfold committed_or_joining, is_joining.
      by rewrite (bool_decide_true (m_state m = JOINING)), orb_true_r.
    + cbn [stabilise set_version_batch set_members ts_members]. intros i x. unfold replace_state. split.
      * intros (m & Hm & Hc & Hi & Hx). eexists. split; [by apply list_elem_of_fmap_2|].
        destruct (in_state JOINING m) eqn:E; [done|]. split_and!; [|done..].
        unfold committed_or_joining, is_joining in Hc. unfold in_state in E. by rewrite E, orb_false_r in Hc.
      * intros (m & (m' & -> & Hm')%list_elem_of_fmap & Hc & Hi & Hx). exists m'.
        destruct (in_state JOINING m') eqn:E; unfold committed_or_joining, is_joining.
        { unfold in_state in E. by rewrite E, orb_true_r. }
        { by rewrite Hc. }
  - unfold BuildScaleInFinal in Hfin. apply bind_Ok in Hfin as (u1 & (b & Hb & Htp)%ValidateBatch_Some & Hfin).
    apply bind_Ok in Hfin as (u2 & _ & [= <-]).
    apply (Hgoal b (fun m => committed m && negb (bool_decide (m_state m = LEAVING))));
      [done|by rewrite Htp|by intros m; cbn; rewrite Htp| | |].
    + destruct Hex as (m & Hm & Hc & Hl). exists m. by rewrite Hc, bool_decide_false.
    + intros m [Hc _]%andb_prop. unfold committed_or_joining. by rewrite Hc.
    + cbn [stabilise set_version_batch ts_members]. intros i x.
      setoid_rewrite (remove_state_elem st LEAVING _ (ti_members _ Hinv)).
      setoid_rewrite andb_true_iff. setoid_rewrite negb_true_iff. setoid_rewrite bool_decide_eq_false. naive_solver.
Qed.
End fences.

(** ** Witnesses on a small cluster, with the hash algorithm *)

Import Demo ReferenceEngine ReferenceDigest.

Module SafetyDemo.
Definition tokens_present (m : Member) : bool := negb (committed_or_joining m) || negb (is_empty (m_tokens m)).
Definition not_mixed (ms : list Member) : bool := negb (existsb (in_state JOINING) ms && existsb (in_state LEAVING) ms).

Lemma topology_inv_intro st :
  is_ok (ValidateAndCanonicalizeTopologyState st) && forallb tokens_present (ts_members st) &&
  not_mixed (ts_members st) && forallb (fun m => forallb (fun t => (0 <=? t) && (t <? 2 ^ 32)) (m_tokens m)) (ts_members st)
  = true -> topology_inv st.
Proof.
  intros [[[Hc Ht]%andb_prop Hm]%andb_prop Hu%tokens_u32_dec]%andb_prop.
  destruct (ValidateAndCanonicalizeTopologyState st) as [st'|c] eqn:E; [|discriminate Hc].
  apply canonicalize_iff in E as [[P1 P2 P3 P4 P5 P6 P7] _]. split; try done.
  - intros m Hin Hcj. rewrite forallb_elem in Ht. specialize (Ht m Hin). unfold tokens_present in Ht.
    rewrite Hcj in Ht. cbn in Ht. by destruct (m_tokens m).
  - intros m m' H1 H2 Hj Hl. unfold not_mixed in Hm. apply negb_true_iff, andb_false_iff in Hm.
    assert (existsb (in_state JOINING) (ts_members st) = true)
      by (apply existsb_elem; exists m; split; [done|by apply bool_decide_eq_true]).
    assert (existsb (in_state LEAVING) (ts_members st) = true)
      by (apply existsb_elem; exists m'; split; [done|by apply bool_decide_eq_true]).
    destruct Hm; congruence.
Qed.

Definition admitted_B : TopologyState := {|
  ts_clusterHasInit := true; ts_version := 7;
  ts_members := [mk idA ACTIVE [3000000000]; mk idB INITIAL []];
  ts_activeBatch := None; ts_tokensPerMember := 1 |}.
Definition leaving_C : TopologyState :=
  topology [mk idA ACTIVE [100; 3000000000]; mk idB ACTIVE [2000; 4000000000]; mk idC PRE_LEAVING [50; 2500000000]].
Definition active_AB : TopologyState :=
  topology [mk idA ACTIVE [100; 3000000000]; mk idB ACTIVE [2000; 4000000000]].
Definition scaling_out_C : TopologyState := {|
  ts_clusterHasInit := true; ts_version := 8;
  ts_members := [mk idA ACTIVE [100; 3000000000]; mk idB ACTIVE [2000; 4000000000]; mk idC JOINING [50; 2500000000]];
  ts_activeBatch := Some {| ab_type := SCALE_OUT; ab_epoch := 8 |}; ts_tokensPerMember := 2 |}.

Lemma admitted_B_inv : topology_inv admitted_B.
Proof. apply topology_inv_intro. vm_compute. reflexivity. Qed.
Lemma leaving_C_inv : topology_inv leaving_C.
Proof. apply topology_inv_intro. vm_compute. reflexivity. Qed.
Lemma active_AB_inv : topology_inv active_AB.
Proof. apply topology_inv_intro. vm_compute. reflexivity. Qed.
Lemma scaling_out_C_inv : topology_inv scaling_out_C.
Proof. apply topology_inv_intro. vm_compute. reflexivity. Qed.
End SafetyDemo.
Import SafetyDemo.

Lemma scale_out_commit_witness :
  exists plan next, BuildScaleOutStart admitted_B [idB] = Ok plan /\ BuildScaleOutFinal (tp_next plan) = Ok next /\
    exact_changes (ring_owner committed (ts_members admitted_B)) (ring_owner committed (ts_members next))
      (tp_ownerChanges plan).
Proof.
  assert (Hok : is_ok (plan ← BuildScaleOutStart admitted_B [idB]; BuildScaleOutFinal (tp_next plan)) = true)
    by (vm_compute; reflexivity).
  destruct (BuildScaleOutStart admitted_B [idB]) as [plan|c] eqn:E1; [|discriminate Hok].
  cbn [mbind res_bind] in Hok. destruct (BuildScaleOutFinal (tp_next plan)) as [next|c] eqn:E2; [|discriminate Hok].
  exists plan, next. split; [reflexivity|]. split; [exact E2|].
  exact (scale_out_commit admitted_B [idB] plan next admitted_B_inv E1 E2).
Defined.

Lemma leaving_C_run :
  exists plan next, BuildScaleInStart leaving_C [idC] = Ok plan /\ BuildScaleInFinal (tp_next plan) = Ok next.
Proof.
  assert (Hok : is_ok (plan ← BuildScaleInStart leaving_C [idC]; BuildScaleInFinal (tp_next plan)) = true)
    by (vm_compute; reflexivity).
  destruct (BuildScaleInStart leaving_C [idC]) as [plan|c] eqn:E1; [|discriminate Hok].
  cbn [mbind res_bind] in Hok. destruct (BuildScaleInFinal (tp_next plan)) as [next|c] eqn:E2; [|discriminate Hok].
  eauto.
Qed.

Lemma scale_in_commit_witness :
  exists plan next, BuildScaleInStart leaving_C [idC] = Ok plan /\ BuildScaleInFinal (tp_next plan) = Ok next /\
    exact_changes (ring_owner committed (ts_members leaving_C)) (ring_owner committed (ts_members next))
      (tp_ownerChanges plan).
Proof.
  destruct leaving_C_run as (plan & next & E1 & E2). exists plan, next. split; [exact E1|]. split; [exact E2|].
  exact (proj1 (scale_in_commit leaving_C [idC] plan next leaving_C_inv E1 E2)).
Defined.


Lemma failure_commit_witness :
  exists plan next, BuildFailureStartOrReplan active_AB [idB] = Ok plan /\ BuildFailureFinal (tp_next plan) = Ok next /\
    exact_changes (ring_owner committed (with_failed_active active_AB)) (ring_owner committed (ts_members next))
      (tp_ownerChanges plan).
Proof.
  assert (Hok : is_ok (plan ← BuildFailureStartOrReplan active_AB [idB]; BuildFailureFinal (tp_next plan)) = true)
    by (vm_compute; reflexivity).
  destruct (BuildFailureStartOrReplan active_AB [idB]) as [plan|c] eqn:E1; [|discriminate Hok].
  cbn [mbind res_bind] in Hok. destruct (BuildFailureFinal (tp_next plan)) as [next|c] eqn:E2; [|discriminate Hok].
  exists plan, next. split; [reflexivity|]. split; [exact E2|].
  refine (proj1 (failure_commit active_AB [idB] plan next active_AB_inv _ _ E1 E2)).
  - intros m [->|[->|[]%not_elem_of_nil]%elem_of_cons]%elem_of_cons; split; discriminate.
  - exists (mk idA ACTIVE [100; 3000000000]). split; [left|]. split; [reflexivity|].
    apply (bool_decide_unpack _). vm_compute. reflexivity.
Defined.

Lemma leaving_C_snapshot plan : BuildScaleInStart leaving_C [idC] = Ok plan -> exists s, snapshot_of (tp_next plan) s.
Proof.
  intros E. assert (Hok : is_ok (plan ← BuildScaleInStart leaving_C [idC]; Create (tp_next plan) 5 demo_digest ∅ true "c") = true)
    by (vm_compute; reflexivity).
  rewrite E in Hok. cbn [mbind res_bind] in Hok.
  destruct (Create (tp_next plan) 5 demo_digest ∅ true "c") as [s|c] eqn:E2; [|discriminate Hok].
  exists s, 5, demo_digest, ∅, true, "c"%string. exact E2.
Qed.

Lemma leaving_C_change plan : BuildScaleInStart leaving_C [idC] = Ok plan ->
  exists c, c ∈ tp_ownerChanges plan /\ oc_source c = Some idC.
Proof.
  intros E. assert (Hok : (match BuildScaleInStart leaving_C [idC] with
      | Ok plan => existsb (fun c => bool_decide (oc_source c = Some idC)) (tp_ownerChanges plan)
      | Err _ => false end) = true) by (vm_compute; reflexivity).
  rewrite E in Hok. apply existsb_elem in Hok as (c & Hc & Hs%bool_decide_eq_true). eauto.
Qed.

Lemma planned_migrations_pass_fence_witness :
  exists plan s c, BuildScaleInStart leaving_C [idC] = Ok plan /\ c ∈ tp_ownerChanges plan /\
    ValidateMigrationFence (fence_of (tp_next plan) idC (oc_target c)) s = Ok tt.
Proof.
  destruct leaving_C_run as (plan & next & E1 & _). destruct (leaving_C_snapshot plan E1) as [s Hs].
  destruct (leaving_C_change plan E1) as (c & Hc & Hsrc). exists plan, s, c. split; [exact E1|]. split; [exact Hc|].
  exact (planned_migrations_pass_fence leaving_C [idC] plan s c idC leaving_C_inv (or_intror E1) Hs Hc Hsrc).
Defined.

Lemma stale_fence_rejected_witness :
  exists plan s, BuildScaleInStart leaving_C [idC] = Ok plan /\ snapshot_of (tp_next plan) s /\
    ValidateMigrationFence (fence_of leaving_C idC idA) s = Err K_INVALID.
Proof.
  destruct leaving_C_run as (plan & next & E1 & _). destruct (leaving_C_snapshot plan E1) as [s Hs].
  exists plan, s. split; [exact E1|]. split; [exact Hs|].
  refine (stale_fence_rejected 0 leaving_C (tp_next plan) s _ leaving_C_inv _ _ _ Hs _ _).
  - cbn. lia.
  - unfold INT64_MAX. cbn. lia.
  - apply nsteps_once. exact (step_scale_in _ _ _ E1).
  - cbn. lia.
  - cbn. lia.
Defined.

Lemma prospective_owner_is_final_witness :
  exists s next m, BuildScaleOutFinal scaling_out_C = Ok next /\ LocateProspectiveOwner s 2000000000 = Ok m /\
    ring_owner committed (ts_members next) 2000000000 = Some (m_identity m).
Proof.
  destruct (Create scaling_out_C 5 demo_digest ∅ true "c") as [s|c] eqn:Es; [|vm_compute in Es; discriminate Es].
  destruct (BuildScaleOutFinal scaling_out_C) as [next|c] eqn:Ef; [|vm_compute in Ef; discriminate Ef].
  assert (Hs : snapshot_of scaling_out_C s) by (exists 5, demo_digest, ∅, true, "c"%string; exact Es).
  destruct (prospective_owner_is_final scaling_out_C s 2000000000 next scaling_out_C_inv Hs
    ltac:(unfold is_u32; lia) (or_introl Ef)) as (m & Hl & Ho).
  exists s, next, m. split; [reflexivity|]. split; [exact Hl|exact Ho].
Defined.
