(* ===== verification/MaterializerTheory.v ===== *)
(** * What a materialized plan consists of

    Lemmas about TaskMaterializer.v: the slices of a change partition its
    ranges, so that every token of a change lies in exactly one task; a key
    filter decides membership in the task's ranges; task ids are well formed
    and their seeds determine the task. *)

From S2P Require Import Prelude Ordered TopologyTypes HashRing BalancedRing TokenPlacement HostPort KeyHelper Hasher.
From S2P Require Import RingTheory HashAlgorithm OwnerSpec PlanningInterface HashPlans Snapshot RepositoryCodec.
From S2P Require Import MembershipTypes TaskMaterializer.

(** ** Ranges as token predicates *)

Definition in_range_b (t : Z) (r : TokenRange) : bool := (tr_from r <=? t) && (t <=? tr_end r).
Definition in_ranges (t : Z) (ranges : list TokenRange) : bool := existsb (in_range_b t) ranges.

Lemma in_range_b_iff t r : in_range_b t r = true <-> in_range t r.
Proof. unfold in_range_b, in_range. rewrite andb_true_iff. lia. Qed.

Lemma in_ranges_iff t ranges : in_ranges t ranges = true <-> covered t ranges.
Proof. unfold in_ranges, covered. rewrite existsb_elem. by setoid_rewrite in_range_b_iff. Qed.

#[global] Instance in_ranges_perm t : Proper ((≡ₚ) ==> eq) (in_ranges t).
Proof.
  intros l l' Hp. apply eq_true_iff_eq. rewrite !in_ranges_iff. unfold covered. by setoid_rewrite Hp.
Qed.

(** Non-empty ranges in increasing order. *)
Record ordered_ranges (ranges : list TokenRange) : Prop := {
  or_each r : r ∈ ranges -> tr_from r <= tr_end r;
  or_sorted : StronglySorted (fun a b => tr_end a < tr_from b) ranges
}.

Lemma ordered_ranges_cons r ranges : ordered_ranges (r :: ranges) <->
  tr_from r <= tr_end r /\ ordered_ranges ranges /\ forall r', r' ∈ ranges -> tr_end r < tr_from r'.
Proof.
  split.
  - intros [H1 H2]. inversion_clear H2 as [|?? H3 H4]. rewrite Forall_forall in H4.
    split; [apply H1; left|]. split; [|done]. split; [|done]. intros; apply H1; by right.
  - intros (H1 & [H2 H3] & H4). split; [|constructor; [done|by apply Forall_forall]].
    intros r' [->|Hr]%elem_of_cons; auto.
Qed.

Lemma ordered_ranges_app l l' : ordered_ranges (l ++ l') -> ordered_ranges l /\ ordered_ranges l' /\
  forall r r', r ∈ l -> r' ∈ l' -> tr_end r < tr_from r'.
Proof.
  induction l as [|r l IH]; cbn [app].
  { intros Ho. split_and!; [split; [no_elem|constructor]|done|no_elem]. }
  intros (H1 & (H2 & H3 & H4)%IH & H5)%ordered_ranges_cons. split_and!; [|done|].
  - apply ordered_ranges_cons. split_and!; [done..|]. intros r' Hr'. apply H5, elem_of_app. by left.
  - intros a b [->|Ha]%elem_of_cons Hb; [apply H5, elem_of_app; by right|by apply H4].
Qed.

Lemma ranges_disjoint_iff ranges previous : ranges_disjoint previous ranges = Ok tt <->
  ordered_ranges ranges /\ forall p r, previous = Some p -> r ∈ ranges -> tr_end p < tr_from r.
Proof.
  revert previous. induction ranges as [|r ranges IH]; intros previous; cbn [ranges_disjoint].
  { split; [|done]. intros _. split; [|by intros ??? ?%not_elem_of_nil].
    split; [no_elem|constructor]. }
  rewrite bind_Ok. setoid_rewrite bind_Ok. setoid_rewrite check_Ok. setoid_rewrite IH. rewrite ordered_ranges_cons. split.
  - intros (_ & H1 & _ & H2 & H3 & H4). split; [split_and!; [lia|done|intros; by apply H4]|].
    intros p r' -> [->|Hr']%elem_of_cons; [lia|]. specialize (H4 r r' eq_refl Hr'). lia.
  - intros [(H1 & H2 & H3) H4]. exists tt. split; [lia|]. exists tt. split.
    + destruct previous as [p|]; [|done]. specialize (H4 p r eq_refl ltac:(left)). lia.
    + split; [done|]. by intros p r' [= <-] Hr'; apply H3.
Qed.

(** Sorting ordered ranges changes nothing. *)
Lemma ordered_key_sorted {A} (f : A -> TokenRange) l : ordered_ranges (f <$> l) ->
  NoDup ((fun x => range_key (f x)) <$> l) /\ StronglySorted (key_le (fun x => range_key (f x))) l.
Proof.
  induction l as [|x l IH]; [split; constructor|]. rewrite !fmap_cons. intros (H1 & H2 & H3)%ordered_ranges_cons.
  destruct (IH H2) as [Hnd Hs]. split; constructor; [|done|done|].
  - intros (y & Heq & Hy)%list_elem_of_fmap. specialize (H3 (f y) ltac:(by apply list_elem_of_fmap_2)).
    unfold range_key in Heq. injection Heq as Hf He. lia.
  - apply Forall_forall. intros y Hy. specialize (H3 (f y) ltac:(by apply list_elem_of_fmap_2)).
    apply ltk_asym, orb_true_iff. left. apply Z.ltb_lt. cbn. lia.
Qed.

Lemma CanonicalizeRanges_ordered l : ordered_ranges (ToRanges l) -> CanonicalizeRanges l = l.
Proof.
  intros [Hnd Hs]%ordered_key_sorted. symmetry. by apply (sort_on_unique (fun r => range_key (tk_range r))).
Qed.

(** ** The key filter *)

(** [std::lower_bound] on the range ends, then a test of the range found. *)
Lemma range_search ranges t : ordered_ranges ranges ->
  match drop_while (fun r => tr_end r <? t) ranges with r :: _ => tr_from r <=? t | [] => false end = in_ranges t ranges.
Proof.
  induction ranges as [|r ranges IH]; [done|].
  intros (H1 & H2 & H3)%ordered_ranges_cons. cbn [drop_while].
  change (in_ranges t (r :: ranges)) with ((tr_from r <=? t) && (t <=? tr_end r) || in_ranges t ranges).
  destruct (tr_end r <? t) eqn:E.
  - rewrite (proj2 (Z.leb_gt t (tr_end r))) by lia. rewrite andb_false_r. by apply IH.
  - rewrite (proj2 (Z.leb_le t (tr_end r))) by lia. rewrite andb_true_r.
    destruct (tr_from r <=? t) eqn:Ef; [done|]. symmetry. apply not_true_iff_false.
    intros (r' & Hr' & Ht%in_range_b_iff)%existsb_elem. specialize (H3 r' Hr'). unfold in_range in Ht. lia.
Qed.

Lemma Contains_in_ranges ranges key : ordered_ranges ranges -> Contains ranges key = in_ranges (Hash key) ranges.
Proof. apply range_search. Qed.

(** ** Slices *)

Lemma slices_concat {A} fuel n (l : list A) : (0 < n)%nat -> (length l <= fuel)%nat -> concat (slices fuel n l) = l.
Proof.
  intros Hn. revert l. induction fuel as [|fuel IH]; intros l Hl; [by destruct l; [|cbn in Hl; lia]|].
  destruct l as [|x l]; [done|]. cbn [slices concat].
  rewrite IH; [by rewrite take_drop|]. rewrite length_drop. cbn [length] in *. lia.
Qed.

Lemma slices_shape {A} fuel n (l s : list A) : (0 < n)%nat -> s ∈ slices fuel n l ->
  s <> [] /\ (length s <= n)%nat /\ s `sublist_of` l.
Proof.
  intros Hn. revert l. induction fuel as [|fuel IH]; intros l; [by destruct l; intros ?%not_elem_of_nil|].
  destruct l as [|x l]; [by intros ?%not_elem_of_nil|]. cbn [slices]. intros [->|Hs]%elem_of_cons.
  - split_and!; [by destruct n; [lia|]|rewrite length_take; lia|apply sublist_take].
  - destruct (IH _ Hs) as (H1 & H2 & H3). split_and!; [done..|]. etrans; [exact H3|apply sublist_drop].
Qed.

Lemma sublist_ordered l l' : l `sublist_of` l' -> ordered_ranges l' -> ordered_ranges l.
Proof.
  intros Hsub [H1 H2]. split.
  - intros r Hr. apply H1. by eapply elem_of_sublist.
  - clear H1. induction Hsub as [|x l l' Hsub IH|x l l' Hsub IH]; [constructor|..];
      inversion_clear H2 as [|?? H3 H4]; [|auto].
    constructor; [auto|]. rewrite Forall_forall in H4 |- *. intros y Hy. apply H4. by eapply elem_of_sublist.
Qed.

(** The number of elements a test selects. *)
Definition occurrences {A} (f : A -> bool) (l : list A) : nat := length (List.filter f l).

Lemma occurrences_app {A} (f : A -> bool) l l' : occurrences f (l ++ l') = (occurrences f l + occurrences f l')%nat.
Proof. unfold occurrences. by rewrite List.filter_app, length_app. Qed.

Lemma occurrences_cons {A} (f : A -> bool) x l : occurrences f (x :: l) = ((if f x then 1 else 0) + occurrences f l)%nat.
Proof. unfold occurrences. cbn. by destruct (f x). Qed.

#[global] Instance occurrences_perm {A} (f : A -> bool) : Proper ((≡ₚ) ==> eq) (occurrences f).
Proof. induction 1; rewrite ?occurrences_cons; lia. Qed.

Lemma occurrences_fmap {A B} (f : B -> bool) (g : A -> B) l : occurrences f (g <$> l) = occurrences (fun x => f (g x)) l.
Proof. induction l as [|x l IH]; [done|]. rewrite fmap_cons, !occurrences_cons. by rewrite IH. Qed.

Lemma occurrences_ext {A} (f g : A -> bool) l : (forall x, x ∈ l -> f x = g x) -> occurrences f l = occurrences g l.
Proof.
  intros Heq. induction l as [|x l IH]; [done|]. rewrite !occurrences_cons, (Heq x) by left.
  rewrite IH; [done|]. intros; apply Heq; by right.
Qed.

Lemma slices_occurrences fuel n t l : (0 < n)%nat -> (length l <= fuel)%nat -> ordered_ranges l ->
  occurrences (in_ranges t) (slices fuel n l) = if in_ranges t l then 1%nat else 0%nat.
Proof.
  intros Hn. revert l. induction fuel as [|fuel IH]; intros l Hl Ho; [by destruct l; [|cbn in Hl; lia]|].
  destruct l as [|x l]; [done|]. cbn [slices]. set (k := x :: l) in *.
  rewrite occurrences_cons. rewrite <-(take_drop n k) in Ho. apply ordered_ranges_app in Ho as (H1 & H2 & H3).
  rewrite IH; [|rewrite length_drop; cbn [length k] in *; lia|done].
  rewrite <-(take_drop n k) at 3. unfold in_ranges at 3. rewrite existsb_app. fold (in_ranges t (take n k)) (in_ranges t (drop n k)).
  destruct (in_ranges t (take n k)) eqn:E1, (in_ranges t (drop n k)) eqn:E2; try done. exfalso.
  apply in_ranges_iff in E1 as (r & Hr & Ht), E2 as (r' & Hr' & Ht').
  specialize (H3 r r' Hr Hr'). unfold in_range in *. lia.
Qed.

Lemma occurrences_zero {A} (f : A -> bool) l : (forall x, x ∈ l -> f x = false) -> List.filter f l = [].
Proof.
  intros Hf. induction l as [|x l IH]; [done|]. cbn. rewrite (Hf x) by left. apply IH. intros; apply Hf; by right.
Qed.

(** With distinct keys and one key for all selected elements, one element is selected. *)
Lemma occurrences_one {A K} (f : A -> bool) (key : A -> K) l x : NoDup (key <$> l) -> x ∈ l -> f x = true ->
  (forall y, y ∈ l -> f y = true -> key y = key x) -> occurrences f l = 1%nat.
Proof.
  induction l as [|y l IH]; [by intros _ ?%not_elem_of_nil|]. rewrite fmap_cons.
  intros [Hy Hnd]%NoDup_cons Hx Hfx Hk. rewrite occurrences_cons. apply elem_of_cons in Hx as [->|Hx].
  - rewrite Hfx. unfold occurrences. rewrite occurrences_zero; [done|]. intros z Hz.
    destruct (f z) eqn:E; [|done]. destruct Hy. rewrite <-(Hk z); [by apply list_elem_of_fmap_2|by right|done].
  - rewrite (IH Hnd Hx Hfx) by (intros; apply Hk; [by right|done]). destruct (f y) eqn:E; [|done]. destruct Hy.
    rewrite (Hk y); [by apply list_elem_of_fmap_2|left|done].
Qed.

Lemma occurrences_singleton {A} (f : A -> bool) l : occurrences f l = 1%nat ->
  exists x, List.filter f l = [x] /\ x ∈ l /\ f x = true.
Proof.
  unfold occurrences. destruct (List.filter f l) as [|x [|y r]] eqn:E; try done. intros _. exists x. split; [done|].
  apply elem_of_filter_bool. rewrite E. left.
Qed.

(** ** The tasks of a plan *)

Definition task_in (t : Z) (task : TopologyTask) : bool := in_ranges t (ToRanges (task_ranges task)).

Definition change_tasks (type : TopologyChangeType) (epoch : Z) (c : TopologyOwnerChange) : list TopologyTask :=
  change_task type epoch (source_address c) (mi_address (oc_target c)) <$>
    slices (length (sort_ranges (oc_ranges c))) MAX_TOPOLOGY_TASK_RANGES (sort_ranges (oc_ranges c)).

Definition planned_tasks (type : TopologyChangeType) (epoch : Z) (changes : list TopologyOwnerChange) : list TopologyTask :=
  changes ≫= change_tasks type epoch.

(** Who executes a change of each kind of batch, and for whom. *)
Definition task_ends (type : TopologyChangeType) (source target : string) (task : TopologyTask) : Prop :=
  match type, task with
  | FAILURE, TaskDelete t => dt_executorAddress t = target /\ dt_failedAddress t = source
  | SCALE_OUT, TaskMigrate t => mt_executorAddress t = source /\ mt_targetAddress t = target /\ mt_type t = SCALE_OUT
  | SCALE_IN, TaskMigrate t => mt_executorAddress t = source /\ mt_targetAddress t = target /\ mt_type t = SCALE_IN
  | _, _ => False
  end.

Definition task_epoch (task : TopologyTask) : Z :=
  match task with TaskMigrate t => mt_epoch t | TaskDelete t => dt_epoch t end.

Lemma change_task_ranges type epoch s d ranges : ToRanges (task_ranges (change_task type epoch s d ranges)) ≡ₚ ranges.
Proof.
  unfold change_task, ToRanges, CanonicalizeRanges. destruct type; cbn [task_ranges mt_sourceRanges dt_recoveryRanges];
    rewrite sort_on_perm, <-list_fmap_compose; by rewrite list_fmap_id.
Qed.

Lemma change_task_in t type epoch s d ranges : task_in t (change_task type epoch s d ranges) = in_ranges t ranges.
Proof. unfold task_in. by rewrite change_task_ranges. Qed.

Lemma change_task_ends type epoch s d ranges : task_ends type s d (change_task type epoch s d ranges) /\
  task_epoch (change_task type epoch s d ranges) = epoch.
Proof. by destruct type. Qed.

Lemma task_range_limit : (0 < MAX_TOPOLOGY_TASK_RANGES)%nat.
Proof. unfold MAX_TOPOLOGY_TASK_RANGES. lia. Qed.

Lemma change_tasks_occurrences t type epoch c : ordered_ranges (sort_ranges (oc_ranges c)) ->
  occurrences (task_in t) (change_tasks type epoch c) = if in_ranges t (oc_ranges c) then 1%nat else 0%nat.
Proof.
  intros Ho. unfold change_tasks. rewrite occurrences_fmap.
  rewrite (occurrences_ext _ (in_ranges t)) by (intros; apply change_task_in).
  rewrite slices_occurrences; [|apply task_range_limit|done|done]. unfold sort_ranges. by rewrite sort_on_perm.
Qed.

Lemma planned_occurrences t type epoch changes :
  (forall c, c ∈ changes -> ordered_ranges (sort_ranges (oc_ranges c))) ->
  occurrences (task_in t) (planned_tasks type epoch changes) = occurrences (fun c => in_ranges t (oc_ranges c)) changes.
Proof.
  intros Ho. induction changes as [|c changes IH]; [done|].
  change (planned_tasks type epoch (c :: changes)) with (change_tasks type epoch c ++ planned_tasks type epoch changes).
  rewrite occurrences_app, occurrences_cons, change_tasks_occurrences by (apply Ho; left).
  rewrite IH; [done|]. intros; apply Ho; by right.
Qed.

Lemma elem_of_planned type epoch changes task : task ∈ planned_tasks type epoch changes <->
  exists c s, c ∈ changes /\ s ∈ slices (length (sort_ranges (oc_ranges c))) MAX_TOPOLOGY_TASK_RANGES (sort_ranges (oc_ranges c)) /\
    task = change_task type epoch (source_address c) (mi_address (oc_target c)) s.
Proof.
  unfold planned_tasks, change_tasks. rewrite list_elem_of_bind. setoid_rewrite list_elem_of_fmap. naive_solver.
Qed.

(** A task that contains a token comes from a change that contains it. *)
Lemma planned_task_change t type epoch changes task : task ∈ planned_tasks type epoch changes -> task_in t task = true ->
  exists c, c ∈ changes /\ covered t (oc_ranges c) /\
    task_ends type (source_address c) (mi_address (oc_target c)) task /\ task_epoch task = epoch.
Proof.
  intros (c & s & Hc & Hs & ->)%elem_of_planned Ht. exists c. split; [done|]. split; [|apply change_task_ends].
  rewrite change_task_in in Ht. apply in_ranges_iff in Ht as (r & Hr & Hin). exists r. split; [|done].
  apply slices_shape in Hs as (_ & _ & Hsub); [|apply task_range_limit].
  apply (elem_of_sort_on range_key). by eapply elem_of_sublist.
Qed.

(** ** What [BuildExpected] returns *)

Section build.
Context `{SHA256}.

Definition with_id (task : TopologyTask) : TopologyTask := set_task_id (BuildTaskId task) task.

Lemma with_id_facts task type s d t : task_in t (with_id task) = task_in t task /\
  (task_ends type s d (with_id task) <-> task_ends type s d task) /\ task_epoch (with_id task) = task_epoch task /\
  task_executor (with_id task) = task_executor task /\ task_ranges (with_id task) = task_ranges task /\
  task_id (with_id task) = BuildTaskId task.
Proof. by destruct task. Qed.

Lemma append_loop_iff latest type epoch changes acc r :
  foldM (fun tasks change => _ ← ValidateOwnerChange latest type change; Ok (AppendTaskChunks type epoch change tasks))
    acc changes = Ok r <->
  (forall c, c ∈ changes -> ValidateOwnerChange latest type c = Ok tt) /\ r = acc ++ planned_tasks type epoch changes.
Proof.
  revert acc. induction changes as [|c changes IH]; intros acc; cbn [foldM].
  { cbn. rewrite app_nil_r. split; [intros [= <-]; split; [no_elem|done]|by intros [_ ->]]. }
  change (planned_tasks type epoch (c :: changes)) with (change_tasks type epoch c ++ planned_tasks type epoch changes).
  rewrite bind_Ok. setoid_rewrite IH. setoid_rewrite bind_Ok. split.
  - intros (acc' & ([] & Hc & [= <-]) & Hrest & ->). split; [intros c' [->|?]%elem_of_cons; auto|].
    by rewrite app_assoc.
  - intros [Hall ->]. eexists. split; [exists tt; split; [apply Hall; left|reflexivity]|].
    split; [intros; apply Hall; by right|by rewrite app_assoc].
Qed.

Lemma assign_loop_iff tasks acc r : foldM assign_task_id acc tasks = Ok r <->
  (forall t, t ∈ tasks -> (ID_HASH_CHARS < String.length (BuildTaskId t))%nat) /\ r = acc ++ (with_id <$> tasks).
Proof.
  revert acc. induction tasks as [|t tasks IH]; intros acc; cbn [foldM].
  { cbn. rewrite app_nil_r. split; [intros [= <-]; split; [no_elem|done]|by intros [_ ->]]. }
  rewrite bind_Ok. setoid_rewrite IH. unfold assign_task_id. setoid_rewrite bind_Ok. setoid_rewrite check_Ok.
  setoid_rewrite Nat.ltb_lt. rewrite fmap_cons. split.
  - intros (acc' & ([] & Hc & [= <-]) & Hrest & ->). split; [intros c' [->|?]%elem_of_cons; auto|].
    by rewrite <-app_assoc.
  - intros [Hall ->]. eexists. split; [exists tt; split; [apply Hall; left|reflexivity]|].
    split; [intros; apply Hall; by right|by rewrite <-app_assoc].
Qed.

Record expected_of (latest : TopologySnapshot) (batch : ActiveBatch) (changes : list TopologyOwnerChange)
    (e : ExpectedDerivedState) : Prop := {
  ex_valid c : c ∈ changes -> ValidateOwnerChange latest (ab_type batch) c = Ok tt;
  ex_digest t : t ∈ planned_tasks (ab_type batch) (ab_epoch batch) changes -> (ID_HASH_CHARS < String.length (BuildTaskId t))%nat;
  ex_tasks : ed_tasks e = sort_on task_id (with_id <$> planned_tasks (ab_type batch) (ab_epoch batch) changes);
  ex_notifies : ed_notifiesByAddress e = foldl (notify_task batch) [] (ed_tasks e);
  ex_recipients : ed_notifyRecipients e = (ed_notifiesByAddress e).*1
}.

Lemma BuildExpected_inv latest plan e : BuildExpected latest plan = Ok e ->
  exists batch, ts_activeBatch (state_ latest) = Some batch /\ expected_of latest batch (tp_ownerChanges plan) e.
Proof.
  unfold BuildExpected. destruct (ts_activeBatch (state_ latest)) as [batch|]; [|done].
  intros ([] & _ & Hok)%bind_Ok. apply bind_Ok in Hok as (tasks & [Hv ->]%append_loop_iff & Hok).
  apply bind_Ok in Hok as (tasks & [Hd ->]%assign_loop_iff & [= <-]). exists batch. split; [done|].
  destruct batch as [ty ep]. by split.
Qed.

Lemma BuildExpected_total latest plan batch : ts_activeBatch (state_ latest) = Some batch -> tp_next plan = state_ latest ->
  (forall c, c ∈ tp_ownerChanges plan -> ValidateOwnerChange latest (ab_type batch) c = Ok tt) ->
  (forall t, (ID_HASH_CHARS < String.length (BuildTaskId t))%nat) ->
  exists e, BuildExpected latest plan = Ok e.
Proof.
  intros Hb Hn Hv Hd. unfold BuildExpected. rewrite Hb.
  assert (MatchesSnapshot latest (tp_next plan) = true) as ->.
  { rewrite Hn. unfold MatchesSnapshot, Version, Members. rewrite !Z.eqb_refl, !eqb_reflx, Nat.eqb_refl.
    rewrite bool_decide_true by done. cbn [negb orb]. apply forallb_elem. intros [m m'] Hz.
    assert (m = m') as ->; [|rewrite !bool_decide_true by done; done].
    apply elem_of_lookup_zip_with in Hz as (i & a & b & [= -> ->] & H1 & H2). congruence. }
  cbn [check mbind res_bind].
  rewrite (proj2 (append_loop_iff _ _ _ _ [] _) (conj Hv eq_refl)). cbn [mbind res_bind].
  rewrite (proj2 (assign_loop_iff _ [] _)) by (split; [auto|reflexivity]). cbn [mbind res_bind]. by eexists.
Qed.

(** Every planned task and no other, up to the order. *)
Lemma expected_tasks_perm latest batch changes e : expected_of latest batch changes e ->
  ed_tasks e ≡ₚ with_id <$> planned_tasks (ab_type batch) (ab_epoch batch) changes.
Proof. intros Hex. rewrite (ex_tasks _ _ _ _ Hex). apply sort_on_perm. Qed.

Lemma ValidateOwnerChange_ordered latest type c : ValidateOwnerChange latest type c = Ok tt ->
  ordered_ranges (sort_ranges (oc_ranges c)) /\ is_Some (oc_source c) /\ oc_ranges c <> [].
Proof.
  unfold ValidateOwnerChange. destruct (oc_source c) as [i|]; [|done].
  intros ([] & Hne%check_Ok & Hok)%bind_Ok. apply bind_Ok in Hok as (source & _ & Hok). apply bind_Ok in Hok as (target & _ & Hok).
  apply bind_Ok in Hok as ([] & _ & Hok). apply bind_Ok in Hok as ([] & _ & [Hr _]%ranges_disjoint_iff).
  split_and!; [done|by eexists|]. by destruct (oc_ranges c).
Qed.

(** The tasks containing a token are as many as the changes containing it. *)
Lemma expected_occurrences latest batch changes e t : expected_of latest batch changes e ->
  occurrences (task_in t) (ed_tasks e) = occurrences (fun c => in_ranges t (oc_ranges c)) changes.
Proof.
  intros Hex. rewrite (expected_tasks_perm _ _ _ _ Hex), occurrences_fmap.
  rewrite (occurrences_ext _ (task_in t)) by (intros x _; by destruct (with_id_facts x SCALE_OUT "" "" t)).
  apply planned_occurrences. intros c Hc. by eapply ValidateOwnerChange_ordered, (ex_valid _ _ _ _ Hex).
Qed.

(** One task per token of a deterministic plan. *)
Lemma expected_unique latest batch changes e t c : expected_of latest batch changes e ->
  NoDup (change_ends <$> changes) -> c ∈ changes -> covered t (oc_ranges c) ->
  (forall c', c' ∈ changes -> covered t (oc_ranges c') -> change_ends c' = change_ends c) ->
  exists task, List.filter (task_in t) (ed_tasks e) = [task] /\
    task_ends (ab_type batch) (source_address c) (mi_address (oc_target c)) task /\ task_epoch task = ab_epoch batch.
Proof.
  intros Hex Hnd Hc Hcov Hk.
  assert (Hone : occurrences (task_in t) (ed_tasks e) = 1%nat).
  { rewrite (expected_occurrences _ _ _ _ _ Hex). apply (occurrences_one _ change_ends _ c); [done|done|by apply in_ranges_iff|].
    intros c' Hc' Ht%in_ranges_iff. by apply Hk. }
  apply occurrences_singleton in Hone as (task & Hf & Hin & Ht). exists task. split; [done|].
  rewrite (expected_tasks_perm _ _ _ _ Hex) in Hin. apply list_elem_of_fmap in Hin as (task' & -> & Hin).
  destruct (with_id_facts task' (ab_type batch) (source_address c) (mi_address (oc_target c)) t) as (E1 & E2 & E3 & _).
  rewrite E1 in Ht. destruct (planned_task_change _ _ _ _ _ Hin Ht) as (c' & Hc' & Hcov' & Hends & Hep).
  rewrite E2, E3. pose proof (Hk c' Hc' Hcov') as Hke. unfold change_ends in Hke. injection Hke as Hks Hkt.
  assert (source_address c' = source_address c) as Hsa.
  { unfold source_address. destruct (oc_source c'), (oc_source c); cbn in Hks; congruence. }
  by rewrite <-Hsa, <-Hkt.
Qed.
End build.
