(* ===== verification/TaskIdentity.v ===== *)
(** * Task identity and notifies

    Task ids built by TaskMaterializer.v satisfy the grammar the keyspace
    accepts (KeyHelper.v), their seeds determine the task, and the notify of an
    address lists exactly the ids of the tasks that address executes. *)

From S2P Require Import Prelude Ordered TopologyTypes HashRing BalancedRing TokenPlacement HostPort KeyHelper Hasher.
From S2P Require Import RingTheory HashAlgorithm OwnerSpec PlanningInterface HashPlans Snapshot RepositoryCodec.
From S2P Require Import MembershipTypes TaskMaterializer MaterializerTheory.
#[local] Arguments String.append : simpl never.

(** ** Character classes *)

Lemma all_chars_app p a b : all_chars p (a +:+ b) = all_chars p a && all_chars p b.
Proof.
  unfold all_chars. induction a as [|c a IH]; [done|]. rewrite append_String. cbn. rewrite <-andb_assoc. f_equal. apply IH.
Qed.

Lemma digit_char x : (x < 10)%N -> is_digit (pretty_N_char x) = true /\
  ((0 < x)%N -> in_chars "1" "9" (pretty_N_char x) = true).
Proof.
  intros Hx. assert (x ∈ [0;1;2;3;4;5;6;7;8;9]%N) as Hin by (rewrite !elem_of_cons; lia).
  rewrite !elem_of_cons in Hin. destruct_or! Hin; subst; try (split; [reflexivity|done]).
  by apply not_elem_of_nil in Hin.
Qed.

Lemma pretty_N_go_shape x s : (0 < x)%N -> exists c p,
  pretty_N_go x s = String c (p +:+ s) /\ in_chars "1" "9" c = true /\ all_chars is_digit (String c p) = true.
Proof.
  revert s. induction (N.lt_wf_0 x) as [x _ IH]; intros s Hx. rewrite pretty_N_go_step by done.
  assert (Hmod : (x `mod` 10 < 10)%N) by (apply N.mod_lt; lia).
  destruct (decide (0 < x `div` 10)%N) as [Hd|Hd].
  - destruct (IH (x `div` 10)%N ltac:(apply N.div_lt; lia) (String (pretty_N_char (x `mod` 10)) s) Hd)
      as (c & p & -> & Hc & Hp). exists c, (p +:+ String (pretty_N_char (x `mod` 10)) "").
    rewrite str_app_assoc. split; [done|]. split; [done|].
    rewrite <-append_String, all_chars_app, Hp. cbn. by rewrite (proj1 (digit_char _ Hmod)).
  - assert (x `div` 10 = 0)%N as E by (revert Hd; generalize (x `div` 10)%N; lia). rewrite E, pretty_N_go_0.
    exists (pretty_N_char (x `mod` 10)), "". split; [done|]. destruct (digit_char _ Hmod) as [H1 H2]. split.
    + apply H2. pose proof (N.div_mod x 10 ltac:(lia)). lia.
    + cbn. by rewrite H1.
Qed.

Lemma pretty_epoch epoch : 0 < epoch -> exists c p, pretty epoch = String c p /\ in_chars "1" "9" c = true /\
  all_chars is_digit (String c p) = true.
Proof.
  intros He. destruct epoch as [|q|q]; [lia| |lia]. change (pretty (Z.pos q)) with (pretty (N.pos q)).
  unfold pretty, pretty_N. rewrite decide_False by done.
  destruct (pretty_N_go_shape (N.pos q) "" eq_refl) as (c & p & -> & Hc & Hp). rewrite str_app_nil. eauto.
Qed.

Lemma find_char_digits p rest : all_chars is_digit p = true -> find_char "-" (p +:+ String "-" rest) = Some (String.length p).
Proof.
  induction p as [|c p IH]; [done|]. unfold all_chars. cbn. intros [Hc Hp]%andb_prop. rewrite append_String. cbn.
  rewrite decide_False by (by intros ->). by rewrite (IH Hp).
Qed.

Lemma valid_task_id kind p h : kind = "m"%char \/ kind = "d"%char ->
  (exists c q, p = String c q /\ in_chars "1" "9" c = true) -> all_chars is_digit p = true ->
  all_chars IsLowerHex h = true -> String.length h = TASK_DIGEST_SIZE ->
  IsValidTaskId (String kind "-e" +:+ p +:+ String "-" h) = true.
Proof.
  intros Hk (c & q & Hp & Hc) Hd Hh Hl. unfold IsValidTaskId.
  set (id := String kind "-e" +:+ p +:+ String "-" h).
  assert (Hid : id = String kind (String "-" (String "e" (p +:+ String "-" h)))) by done.
  assert (Hlen : String.length id = (4 + String.length p + TASK_DIGEST_SIZE)%nat).
  { unfold id. rewrite !str_length_app. cbn [String.length]. rewrite Hl. lia. }
  assert (Hp1 : (0 < String.length p)%nat) by (subst p; cbn; lia).
  assert ((String.length id <? MIN_TASK_ID_SIZE)%nat = false) as ->.
  { apply Nat.ltb_ge. rewrite Hlen. unfold MIN_TASK_ID_SIZE, TASK_KIND_PREFIX_SIZE. lia. }
  assert (negb (String.prefix "m-e" id) && negb (String.prefix "d-e" id) = false) as ->.
  { rewrite Hid. destruct Hk as [-> | ->]; cbn; destruct (p +:+ String "-" h); reflexivity. }
  assert (find_from "-" TASK_KIND_PREFIX_SIZE id = Some (3 + String.length p)%nat) as ->.
  { unfold find_from. change TASK_KIND_PREFIX_SIZE with (String.length (String kind "-e")). unfold id.
    by rewrite substr_from_app, find_char_digits. }
  cbn [orb]. change TASK_KIND_PREFIX_SIZE with 3%nat.
  assert (String.get 3 id = Some c) as ->.
  { rewrite Hid, Hp. by rewrite append_String. }
  rewrite (proj2 (Nat.eqb_neq _ _)) by lia. rewrite Hc, Hlen.
  replace (4 + String.length p + TASK_DIGEST_SIZE - (3 + String.length p) - 1)%nat with TASK_DIGEST_SIZE by lia.
  rewrite Nat.eqb_refl. cbn [negb orb]. apply andb_true_iff. split.
  - replace (3 + String.length p - 3)%nat with (String.length p) by lia. unfold substr. rewrite Hid. cbn [substring].
    by rewrite substring_app_l.
  - replace (3 + String.length p + 1)%nat with (String.length (String kind "-e" +:+ p +:+ "-")).
    2:{ rewrite !str_length_app. cbn. lia. }
    unfold id. replace (String kind "-e" +:+ p +:+ String "-" h) with ((String kind "-e" +:+ p +:+ "-") +:+ h).
    2:{ by rewrite !str_app_assoc. }
    by rewrite substr_from_app.
Qed.

(** ** Digests *)

Lemma HexEncode_hex bytes : Forall (fun b => 0 <= b < 256) bytes ->
  all_chars IsLowerHex (HexEncode bytes) = true /\ String.length (HexEncode bytes) = (2 * length bytes)%nat.
Proof.
  induction 1 as [|b bytes Hb _ [IH1 IH2]]; [done|].
  assert (Hd : forall d, 0 <= d < 16 -> IsLowerHex (hex_digit d) = true).
  { intros d Hd. assert (exists n, (n < 16)%nat /\ d = Z.of_nat n) as (n & Hn & ->) by (exists (Z.to_nat d); lia).
    do 16 (destruct n as [|n]; [reflexivity|]). lia. }
  cbn [HexEncode]. split.
  - unfold all_chars in *. cbn. rewrite Hd, Hd, IH1; [done|apply Z.mod_pos_bound; lia|].
    split; [apply Z.div_pos; lia|apply Z.div_lt_upper_bound; lia].
  - cbn [String.length]. rewrite IH2. cbn [length]. lia.
Qed.

Lemma prefix_hex n s : (n <= String.length s)%nat -> all_chars IsLowerHex s = true ->
  all_chars IsLowerHex (substr 0 n s) = true /\ String.length (substr 0 n s) = n.
Proof.
  unfold substr. revert n. induction s as [|c s IH]; intros n Hn Hs.
  { cbn in Hn. assert (n = 0%nat) as -> by lia. done. }
  destruct n as [|n]; [done|]. unfold all_chars in *. cbn in Hs |- *. apply andb_prop in Hs as [Hc Hs].
  destruct (IH n ltac:(cbn in Hn; lia) Hs) as [H1 H2]. rewrite Hc, H1, H2. done.
Qed.

Section ids.
Context `{SHA256} `{!SHA256Laws}.

Lemma DigestPrefix_hex seed digest : HashSHA256 seed = Ok digest ->
  all_chars IsLowerHex (DigestPrefix seed) = true /\ String.length (DigestPrefix seed) = ID_HASH_CHARS.
Proof.
  intros Hs. unfold DigestPrefix, GetSha256Hex. rewrite Hs. cbn [mbind res_bind].
  destruct (sha256_length _ _ Hs) as [Hl Hb]. destruct (HexEncode_hex digest Hb) as [H1 H2].
  apply prefix_hex; [|done]. rewrite H2, Hl. unfold ID_HASH_CHARS. lia.
Qed.

(** The task id check of [BuildExpected] fails exactly when the digest does. *)
Lemma BuildTaskId_length task : is_ok (HashSHA256 (task_seed task)) = true ->
  (ID_HASH_CHARS < String.length (BuildTaskId task))%nat.
Proof.
  destruct (HashSHA256 (task_seed task)) as [d|c] eqn:E; [|done]. intros _. unfold BuildTaskId.
  rewrite str_length_app, (proj2 (DigestPrefix_hex _ _ E)).
  destruct task; cbn [task_id_prefix]; rewrite !str_length_app; cbn [String.length]; lia.
Qed.

Lemma BuildTaskId_valid task : 0 < task_epoch task -> is_ok (HashSHA256 (task_seed task)) = true ->
  IsValidTaskId (BuildTaskId task) = true.
Proof.
  intros He Hok. destruct (HashSHA256 (task_seed task)) as [d|c] eqn:E; [|done].
  destruct (DigestPrefix_hex _ _ E) as [Hh Hl]. destruct (pretty_epoch _ He) as (c & p & Hp & Hc & Hd).
  unfold BuildTaskId, task_id_prefix. destruct task as [t|t]; cbn [task_epoch] in Hp.
  - rewrite !str_app_assoc. apply (valid_task_id "m"); [by left| |by rewrite Hp|done|done]. rewrite Hp. eauto.
  - rewrite !str_app_assoc. apply (valid_task_id "d"); [by right| |by rewrite Hp|done|done]. rewrite Hp. eauto.
Qed.
End ids.

Lemma all_chars_impl (p q : ascii -> bool) s : (forall c, p c = true -> q c = true) -> all_chars p s = true -> all_chars q s = true.
Proof.
  intros Hpq. unfold all_chars. induction s as [|c s IH]; cbn; [done|]. intros [Hc Hs]%andb_prop. by rewrite (Hpq c Hc), IH.
Qed.

Lemma in_chars_ascii lo hi c : (nat_of_ascii hi < 128)%nat -> in_chars lo hi c = true -> (nat_of_ascii c <? 128)%nat = true.
Proof. intros Hh [_ Hc%Nat.leb_le]%andb_prop. apply Nat.ltb_lt. lia. Qed.

Lemma digits_ascii s : all_chars is_digit s = true -> ascii_text s = true.
Proof. apply all_chars_impl. intros c. apply in_chars_ascii, Nat.ltb_lt. reflexivity. Qed.

Lemma hex_ascii s : all_chars IsLowerHex s = true -> ascii_text s = true.
Proof. apply all_chars_impl. intros c [Hc|Hc]%orb_prop; (eapply in_chars_ascii; [|exact Hc]); apply Nat.ltb_lt; reflexivity. Qed.

Lemma BuildTaskId_ascii `{SHA256} `{!SHA256Laws} task : 0 < task_epoch task -> ascii_text (BuildTaskId task) = true.
Proof.
  intros He. destruct (pretty_epoch _ He) as (c & p & Hp & _ & Hd). apply digits_ascii in Hd. rewrite <-Hp in Hd.
  assert (Hdig : ascii_text (DigestPrefix (task_seed task)) = true).
  { destruct (HashSHA256 (task_seed task)) as [d|c'] eqn:E; [by eapply hex_ascii, DigestPrefix_hex|].
    unfold DigestPrefix, GetSha256Hex. by rewrite E. }
  unfold BuildTaskId. unfold ascii_text in *. rewrite all_chars_app, Hdig, andb_true_r.
  destruct task; cbn [task_id_prefix task_epoch] in *; by rewrite !all_chars_app, Hd.
Qed.

(** ** Seeds are prefix codes *)

Definition byte_of (v shift : Z) : Z := Z.land (Z.shiftr v shift) BYTE_MASK.
Definition fits64 (s : string) : Prop := is_u64 (size s).

Lemma push_byte_app seed v : push_byte seed v = seed +:+ push_byte "" v.
Proof. done. Qed.

Lemma append_bytes_app shifts seed v : append_bytes shifts seed v = seed +:+ append_bytes shifts "" v.
Proof.
  revert seed. unfold append_bytes. induction shifts as [|s shifts IH]; intros seed; cbn [foldl]; [by rewrite str_app_nil|].
  rewrite IH, (IH (push_byte "" _)), push_byte_app. by rewrite str_app_assoc.
Qed.

Lemma byte_of_range v s : 0 <= byte_of v s < 256.
Proof.
  unfold byte_of, BYTE_MASK. change 0xff with (Z.ones 8). rewrite Z.land_ones by lia. apply Z.mod_pos_bound. lia.
Qed.

Lemma append_bytes_inj shifts v w x y :
  append_bytes shifts "" v +:+ x = append_bytes shifts "" w +:+ y ->
  (forall s, s ∈ shifts -> byte_of v s = byte_of w s) /\ x = y.
Proof.
  induction shifts as [|s shifts IH]; intros Heq; [by split; [intros ? ?%not_elem_of_nil|]|].
  assert (Hc : forall u, append_bytes (s :: shifts) "" u = String (ascii_of_N (Z.to_N (byte_of u s))) (append_bytes shifts "" u)).
  { intros u. change (append_bytes (s :: shifts) "" u) with (append_bytes shifts (push_byte "" (byte_of u s)) u).
    by rewrite append_bytes_app. }
  rewrite !Hc, !append_String in Heq. injection Heq as Hb Hrest. apply IH in Hrest as [Hr ->]. split; [|done].
  intros s' [->|Hs']%elem_of_cons; [|auto]. apply (f_equal N_of_ascii) in Hb.
  pose proof (byte_of_range v s). pose proof (byte_of_range w s).
  rewrite !N_ascii_embedding in Hb by lia. lia.
Qed.

(** A value of [8 * n] bits is determined by its bytes. *)
Lemma bytes_determine v w n : 0 <= v < 2 ^ (8 * n) -> 0 <= w < 2 ^ (8 * n) -> 0 <= n ->
  (forall k, 0 <= k < n -> byte_of v (8 * k) = byte_of w (8 * k)) -> v = w.
Proof.
  intros Hv Hw Hn Hb. apply Z.bits_inj'. intros i Hi. destruct (decide (i < 8 * n)) as [Hlt|Hge].
  - assert (Hbit : forall u, Z.testbit u i = Z.testbit (byte_of u (8 * (i / 8))) (i mod 8)).
    { intros u. unfold byte_of, BYTE_MASK. change 0xff with (Z.ones 8).
      pose proof (Z.mod_pos_bound i 8 ltac:(lia)). rewrite Z.land_spec, Z.shiftr_spec, Z.ones_spec_low by lia.
      rewrite andb_true_r. f_equal. pose proof (Z.div_mod i 8 ltac:(lia)). lia. }
    rewrite !Hbit, Hb; [done|]. split; [apply Z.div_pos; lia|apply Z.div_lt_upper_bound; lia].
  - assert (Hz : forall u, 0 <= u < 2 ^ (8 * n) -> Z.testbit u i = false).
    { intros u Hu. destruct (decide (u = 0)) as [->|]; [apply Z.bits_0|]. apply Z.bits_above_log2; [lia|].
      pose proof (Z.log2_lt_pow2 u (8 * n) ltac:(lia)). lia. }
    by rewrite !Hz.
Qed.

Lemma U64_inj v w x y : is_u64 v -> is_u64 w -> AppendU64 "" v +:+ x = AppendU64 "" w +:+ y -> v = w /\ x = y.
Proof.
  intros Hv Hw [Hb ->]%append_bytes_inj. split; [|done]. apply (bytes_determine v w 8); [done..|lia|].
  intros k Hk. apply Hb. assert (k ∈ [0;1;2;3;4;5;6;7]) as Hin by (rewrite !elem_of_cons; lia).
  apply list_elem_of_In. apply list_elem_of_In in Hin. cbn in *. lia.
Qed.

Lemma U32_inj v w x y : is_u32 v -> is_u32 w -> AppendU32 "" v +:+ x = AppendU32 "" w +:+ y -> v = w /\ x = y.
Proof.
  intros Hv Hw [Hb ->]%append_bytes_inj. split; [|done]. apply (bytes_determine v w 4); [done..|lia|].
  intros k Hk. apply Hb. apply list_elem_of_In. cbn. lia.
Qed.

Lemma AppendString_app seed v : AppendString seed v = seed +:+ AppendString "" v.
Proof. unfold AppendString, AppendU64. by rewrite append_bytes_app, str_app_assoc. Qed.

Lemma String_inj v w x y : fits64 v -> fits64 w -> AppendString "" v +:+ x = AppendString "" w +:+ y -> v = w /\ x = y.
Proof.
  intros Hv Hw. unfold AppendString. rewrite !str_app_assoc. intros [Hs Heq]%U64_inj; [|done..].
  apply append_inj_length in Heq; [done|lia].
Qed.

Definition put_ranges (ranges : list TokenRange) : string :=
  foldr (fun r s => AppendU32 "" (tr_from r) +:+ AppendU32 "" (tr_end r) +:+ s) "" ranges.

Lemma AppendRanges_app seed ranges :
  AppendRanges seed ranges = seed +:+ AppendU64 "" (count (sort_ranges ranges)) +:+ put_ranges (sort_ranges ranges).
Proof.
  unfold AppendRanges, AppendU64. rewrite append_bytes_app, <-str_app_assoc.
  generalize (seed +:+ append_bytes [56; 48; 40; 32; 24; 16; 8; 0] "" (count (sort_ranges ranges))).
  generalize (sort_ranges ranges). intros l. induction l as [|r l IH]; intros s; cbn [foldl put_ranges foldr].
  - by rewrite str_app_nil.
  - rewrite IH. unfold AppendU32. rewrite (append_bytes_app _ (append_bytes _ _ _)), append_bytes_app.
    by rewrite !str_app_assoc.
Qed.

Definition ranges_fit (ranges : list TokenRange) : Prop :=
  is_u64 (count ranges) /\ forall r, r ∈ ranges -> is_u32 (tr_from r) /\ is_u32 (tr_end r).

Lemma put_ranges_inj l l' x y : length l = length l' ->
  (forall r, r ∈ l ++ l' -> is_u32 (tr_from r) /\ is_u32 (tr_end r)) ->
  put_ranges l +:+ x = put_ranges l' +:+ y -> l = l' /\ x = y.
Proof.
  revert l'. induction l as [|r l IH]; intros [|r' l'] Hlen Hr Heq; try done.
  cbn [put_ranges foldr] in Heq. rewrite !str_app_assoc in Heq.
  destruct (Hr r ltac:(left)), (Hr r') as [? ?]; [apply elem_of_app; right; left|].
  apply U32_inj in Heq as [Hf Heq]; [|done..]. apply U32_inj in Heq as [He Heq]; [|done..].
  apply IH in Heq as [-> ->]; [|by injection Hlen|].
  - split; [|done]. f_equal. destruct r, r'. cbn in *. congruence.
  - intros a Ha. apply Hr. apply elem_of_app in Ha as [?|?]; [right; apply elem_of_app; by left|].
    apply elem_of_app. right. by right.
Qed.

Lemma Ranges_inj l l' : ranges_fit l -> ranges_fit l' -> AppendRanges "" l = AppendRanges "" l' ->
  sort_ranges l = sort_ranges l'.
Proof.
  intros [Hc Hr] [Hc' Hr']. rewrite !AppendRanges_app.
  assert (Hlen : forall k, length (sort_ranges k) = length k) by (intros; apply length_sort_on).
  intros [Hn Heq]%U64_inj; [|rewrite Hlen; done..].
  rewrite <-(str_app_nil (put_ranges (sort_ranges l))), <-(str_app_nil (put_ranges (sort_ranges l'))) in Heq.
  apply put_ranges_inj in Heq as [-> _]; [done|lia|].
  intros r [Hin|Hin]%elem_of_app; apply elem_of_sort_on in Hin; auto.
Qed.

Lemma byte_inj v w x y : 0 <= v < 256 -> 0 <= w < 256 -> push_byte "" v +:+ x = push_byte "" w +:+ y -> v = w /\ x = y.
Proof.
  intros Hv Hw Heq.
  change (String (ascii_of_N (Z.to_N v)) x = String (ascii_of_N (Z.to_N w)) y) in Heq.
  injection Heq as Hb ->. split; [|done]. apply (f_equal N_of_ascii) in Hb.
  rewrite !N_ascii_embedding in Hb by lia. lia.
Qed.

Lemma kind_number_byte k : 0 <= kind_number k < 256.
Proof. destruct k; unfold kind_number; lia. Qed.
Lemma type_number_byte t : 0 <= type_number t < 256.
Proof. destruct t; unfold type_number; lia. Qed.

(** What a task id identifies. *)
Definition task_content (task : TopologyTask) : TopologyTaskKind * TopologyChangeType * Z * string * string * list TokenRange :=
  match task with
  | TaskMigrate t => (MIGRATE, mt_type t, mt_epoch t, mt_executorAddress t, mt_targetAddress t,
                      sort_ranges (ToRanges (mt_sourceRanges t)))
  | TaskDelete t => (DELETE_MEMBER, FAILURE, dt_epoch t, dt_executorAddress t, dt_failedAddress t,
                     sort_ranges (ToRanges (dt_recoveryRanges t)))
  end.

Definition task_peer (task : TopologyTask) : string :=
  match task with TaskMigrate t => mt_targetAddress t | TaskDelete t => dt_failedAddress t end.

(** The fields fit their C++ types. *)
Definition content_fits (task : TopologyTask) : Prop :=
  is_u64 (task_epoch task) /\ fits64 (task_executor task) /\ fits64 (task_peer task) /\ ranges_fit (ToRanges (task_ranges task)).

Definition task_type (task : TopologyTask) : TopologyChangeType :=
  match task with TaskMigrate t => mt_type t | TaskDelete _ => FAILURE end.

Lemma task_seed_shape task : task_seed task =
  push_byte "" (kind_number (TaskKind task)) +:+ push_byte "" (type_number (task_type task)) +:+
  AppendU64 "" (task_epoch task) +:+ AppendString "" (task_executor task) +:+ AppendString "" (task_peer task) +:+
  AppendRanges "" (ToRanges (task_ranges task)).
Proof.
  destruct task as [t|t]; unfold task_seed; cbn [TaskKind task_type task_epoch task_executor task_peer task_ranges];
    rewrite (AppendRanges_app (AppendString _ _)), (AppendRanges_app ""), (AppendString_app (AppendString _ _)),
      (AppendString_app (AppendU64 _ _)); unfold AppendU64 at 1; rewrite append_bytes_app; by rewrite !str_app_assoc.
Qed.

Lemma task_seed_inj task task' : content_fits task -> content_fits task' -> task_seed task = task_seed task' ->
  task_content task = task_content task'.
Proof.
  intros (He & Hx & Hp & Hr) (He' & Hx' & Hp' & Hr'). rewrite !task_seed_shape.
  intros [Hk Heq]%byte_inj; [|apply kind_number_byte..].
  apply byte_inj in Heq as [Ht Heq]; [|apply type_number_byte..].
  apply U64_inj in Heq as [E1 Heq]; [|done..]. apply String_inj in Heq as [E2 Heq]; [|done..].
  apply String_inj in Heq as [E3 Heq]; [|done..]. apply Ranges_inj in Heq as E4; [|done..].
  assert (task_type task = task_type task') as E5 by (destruct (task_type task), (task_type task'); done).
  destruct task, task'; [| discriminate Hk | discriminate Hk |];
    cbn [task_epoch task_executor task_peer task_ranges task_type task_content] in *; congruence.
Qed.

(** ** Business operation ids *)

Definition identity_fits (i : option MemberIdentity) : Prop :=
  forall m, i = Some m -> fits64 (mi_id m) /\ fits64 (mi_address m).

Lemma AppendIdentity_app seed i : AppendIdentity seed i = seed +:+ AppendIdentity "" i.
Proof.
  unfold AppendIdentity. destruct i as [i|]; [|apply push_byte_app].
  rewrite (AppendString_app (AppendString _ _)), (AppendString_app (push_byte seed 1)), push_byte_app.
  rewrite (AppendString_app (AppendString _ _) (mi_address i)), (AppendString_app (push_byte "" 1)). by rewrite !str_app_assoc.
Qed.

Lemma Identity_inj i j x y : identity_fits i -> identity_fits j ->
  AppendIdentity "" i +:+ x = AppendIdentity "" j +:+ y -> i = j /\ x = y.
Proof.
  intros Hi Hj. unfold AppendIdentity. destruct i as [i|], j as [j|].
  - destruct (Hi i eq_refl), (Hj j eq_refl). rewrite !(AppendString_app (AppendString _ _)), !(AppendString_app (push_byte _ _)), !str_app_assoc.
    intros [_ Heq]%byte_inj; [|lia..]. apply String_inj in Heq as [E1 Heq]; [|done..].
    apply String_inj in Heq as [E2 ->]; [|done..]. split; [|done]. destruct i, j. cbn in *. congruence.
  - rewrite !(AppendString_app (AppendString _ _)), !(AppendString_app (push_byte _ _)), !str_app_assoc.
    intros [Hb _]%byte_inj; [done|lia..].
  - rewrite !(AppendString_app (AppendString _ _)), !(AppendString_app (push_byte _ _)), !str_app_assoc.
    intros [Hb _]%byte_inj; [done|lia..].
  - intros [_ ->]%byte_inj; [done|lia..].
Qed.

Definition fence_fits (f : TopologyExecutionFence) : Prop :=
  identity_fits (ef_source f) /\ identity_fits (ef_target f) /\ identity_fits (ef_failed f) /\ ranges_fit (ef_ranges f).

(** What a business operation id identifies: a failure operation does not
    depend on its source. *)
Definition operation_content (phase : TopologyCallbackPhase) (f : TopologyExecutionFence)
    : TopologyCallbackPhase * option MemberIdentity * option MemberIdentity * option MemberIdentity * list TokenRange :=
  (phase, if decide (phase = PH_FAILURE) then None else ef_source f, ef_target f, ef_failed f, sort_ranges (ef_ranges f)).

Lemma phase_number_byte p : 0 <= phase_number p < 256.
Proof. destruct p; unfold phase_number; lia. Qed.

Lemma operation_seed_inj phase phase' f f' : fence_fits f -> fence_fits f' ->
  operation_seed phase f = operation_seed phase' f' -> operation_content phase f = operation_content phase' f'.
Proof.
  intros (Hs & Ht & Hf & Hr) (Hs' & Ht' & Hf' & Hr'). unfold operation_seed, operation_content.
  rewrite !(AppendRanges_app (AppendIdentity _ _)), !(AppendIdentity_app (AppendIdentity _ _)),
    !(AppendIdentity_app (push_byte _ _)), !str_app_assoc.
  intros [Hp Heq]%byte_inj; [|apply phase_number_byte..].
  assert (phase = phase') as <- by (destruct phase, phase'; done).
  apply Identity_inj in Heq as [-> Heq]; [|by case_decide..]. apply Identity_inj in Heq as [-> Heq]; [|done..].
  apply Identity_inj in Heq as [-> Heq]; [|done..].
  assert (AppendRanges "" (ef_ranges f) = AppendRanges "" (ef_ranges f')) as Hrr by (rewrite !AppendRanges_app; exact Heq).
  by rewrite (Ranges_inj _ _ Hr Hr' Hrr).
Qed.

(** ** Notifies *)

Definition executed_by (address : string) (tasks : list TopologyTask) : list TopologyTask :=
  List.filter (fun task => bool_decide (task_executor task = address)) tasks.

(** The notify of an address: the ids of its tasks in order, or none at all. *)
Definition notify_for (batch : ActiveBatch) (ids : list string) : option TopologyTaskNotify :=
  match ids with
  | [] => None
  | _ => Some {| tn_activeBatch := Some batch; tn_taskIds := ids; tn_restartTimestampsByAddress := [] |}
  end.

Lemma notifies_exact batch tasks :
  om_sorted (foldl (notify_task batch) [] tasks) /\
  forall a, om_find a (foldl (notify_task batch) [] tasks) = notify_for batch (task_id <$> executed_by a tasks).
Proof.
  induction tasks as [|task tasks [IHs IH]] using rev_ind; [split; [constructor|done]|].
  rewrite foldl_app. cbn [foldl]. unfold notify_task at 1 3. split; [by apply om_insert_sorted|].
  intros a. rewrite om_find_insert. unfold executed_by. rewrite List.filter_app. cbn [List.filter].
  fold (executed_by a tasks). case_decide as Ha.
  - subst a. rewrite (bool_decide_true (task_executor task = task_executor task)) by done.
    rewrite fmap_app. cbn [fmap list_fmap]. rewrite IH.
    destruct (task_id <$> executed_by (task_executor task) tasks) as [|i ids]; done.
  - rewrite (bool_decide_false (task_executor task = a)) by done. by rewrite app_nil_r, IH.
Qed.
