(* ===== verification/MaterializerClaims.v ===== *)
(** * Materialized tasks move exactly the keys that change owner

    The composition of the planning interface, the snapshot, the materializer
    and the codec: the theorems about the tasks and notifies derived from the
    latest topology. *)

From S2P Require Import Prelude Ordered TopologyTypes HashRing BalancedRing TokenPlacement HostPort KeyHelper Hasher.
From S2P Require Import RingTheory HashAlgorithm OwnerSpec PlanningInterface HashPlans Snapshot RepositoryCodec CodecClaims.
From S2P Require Import PlanBuilder TopologySafety MembershipTypes TaskMaterializer MaterializerTheory TaskIdentity.

(** The token of a key is a 32-bit value. *)
Lemma Hash_u32 key : is_u32 (Hash key).
Proof. by apply MurmurHash3_32_u32. Qed.

(** ** Tasks of an expected state *)

Section tasks.
Context `{SHA256}.

Lemma expected_elem latest batch changes e task : expected_of latest batch changes e -> task ∈ ed_tasks e <->
  exists task', task' ∈ planned_tasks (ab_type batch) (ab_epoch batch) changes /\ task = with_id task'.
Proof.
  intros Hex. rewrite (expected_tasks_perm _ _ _ _ Hex), list_elem_of_fmap. naive_solver.
Qed.

(** Each task carries at most [MAX_TOPOLOGY_TASK_RANGES] ordered ranges owned by its executor. *)
Lemma planned_task_ranges type epoch changes task :
  (forall c, c ∈ changes -> ordered_ranges (sort_ranges (oc_ranges c))) -> task ∈ planned_tasks type epoch changes ->
  ordered_ranges (ToRanges (task_ranges task)) /\ task_ranges task <> [] /\
  (length (task_ranges task) <= MAX_TOPOLOGY_TASK_RANGES)%nat /\ task_ranges_ok (task_executor task) (task_ranges task).
Proof.
  intros Ho (c & l & Hc & Hl & ->)%elem_of_planned. apply slices_shape in Hl as (Hne & Hlen & Hsub); [|apply task_range_limit].
  pose proof (sublist_ordered _ _ Hsub (Ho c Hc)) as Hord. clear Hsub.
  assert (Hform : exists ex, task_executor (change_task type epoch (source_address c) (mi_address (oc_target c)) l) = ex /\
    task_ranges (change_task type epoch (source_address c) (mi_address (oc_target c)) l) =
      (fun r => {| tk_ownerAddress := ex; tk_range := r; tk_finished := false |}) <$> l).
  { destruct type; (eexists; split; [reflexivity|]); cbn [task_ranges change_task mt_sourceRanges dt_recoveryRanges];
      apply CanonicalizeRanges_ordered; unfold ToRanges; rewrite <-list_fmap_compose; by rewrite list_fmap_id. }
  destruct Hform as (ex & -> & ->). unfold ToRanges. rewrite length_fmap, <-list_fmap_compose.
  rewrite (list_fmap_ext _ (fun r => r)), list_fmap_id by done. split_and!; [done|by destruct l|done|]. split.
  - intros r (r' & -> & Hr')%list_elem_of_fmap. split; [done|]. by apply (or_each _ Hord).
  - destruct Hord as [_ Hs]. clear -Hs. induction Hs as [|r l Hs IH Hall]; [constructor|]. rewrite fmap_cons.
    constructor; [done|]. rewrite Forall_forall in Hall. apply Forall_forall.
    intros x (r' & -> & Hr')%list_elem_of_fmap. by apply Hall.
Qed.

(** The filter a task is executed with tests the ranges of the task. *)
Lemma expected_filter latest batch changes e key : expected_of latest batch changes e ->
  List.filter (fun task => Contains (ToRanges (task_ranges task)) key) (ed_tasks e) =
  List.filter (task_in (Hash key)) (ed_tasks e).
Proof.
  intros Hex. apply List.filter_ext_in. intros task Hin%list_elem_of_In. unfold task_in. apply Contains_in_ranges.
  apply (expected_elem _ _ _ _ _ Hex) in Hin as (task' & Hin & ->).
  destruct (with_id_facts task' SCALE_OUT "" "" 0) as (_ & _ & _ & _ & -> & _).
  eapply planned_task_ranges; [|exact Hin]. intros c Hc. by eapply ValidateOwnerChange_ordered, (ex_valid _ _ _ _ Hex).
Qed.

(** No task contains a token no change contains. *)
Lemma expected_none latest batch changes e t : expected_of latest batch changes e ->
  (forall c, c ∈ changes -> ~ covered t (oc_ranges c)) -> List.filter (task_in t) (ed_tasks e) = [].
Proof.
  intros Hex Hno. apply length_zero_iff_nil. change (occurrences (task_in t) (ed_tasks e) = 0%nat).
  rewrite (expected_occurrences _ _ _ _ _ Hex). unfold occurrences. rewrite occurrences_zero; [done|].
  intros c Hc. apply not_true_iff_false. intros Hin%in_ranges_iff. by apply (Hno c).
Qed.

(** Under a deterministic plan the filter of a token selects the task of its
    move, and nothing when it does not move. *)
Lemma expected_moved latest batch before after changes e t s d : expected_of latest batch changes e ->
  NoDup (change_ends <$> changes) ->
  (forall c, c ∈ changes -> covered t (oc_ranges c) -> before t = oc_source c /\ after t = Some (oc_target c)) ->
  before t = Some s -> after t = Some d ->
  ((exists c, c ∈ changes /\ oc_source c = Some s /\ oc_target c = d /\ covered t (oc_ranges c)) ->
     exists task, List.filter (task_in t) (ed_tasks e) = [task] /\
       task_ends (ab_type batch) (mi_address s) (mi_address d) task /\ task_epoch task = ab_epoch batch) /\
  (~ (exists c, c ∈ changes /\ oc_source c = Some s /\ oc_target c = d /\ covered t (oc_ranges c)) ->
     List.filter (task_in t) (ed_tasks e) = []).
Proof.
  intros Hex Hnd Hsound Hs Hd. split.
  - intros (c & Hc & Hcs & Hcd & Hcov).
    destruct (expected_unique latest batch changes e t c Hex Hnd Hc Hcov) as (task & Hf & Hends & Hep).
    + intros c' Hc' Hcov'. destruct (Hsound c' Hc' Hcov') as [E1 E2].
      unfold change_ends. rewrite <-E1, Hs, Hcs. f_equal. congruence.
    + exists task. split; [done|]. split; [|done]. unfold source_address in Hends. by rewrite Hcs, Hcd in Hends.
  - intros Hno. apply (expected_none latest batch changes); [done|]. intros c Hc Hcov. apply Hno. exists c.
    destruct (Hsound c Hc Hcov) as [E1 E2]. split_and!; congruence.
Qed.
End tasks.

(** ** The plan of a running batch *)

Section plan.
Context `{RE2} `{SHA256} `{IPlanningAlgorithm} `{!PlanningLaws}.

Lemma planning_members_id type ms : type <> FAILURE -> planning_members type ms = ms.
Proof.
  intros Hne. unfold planning_members. rewrite <-(list_fmap_id ms) at 2. apply list_fmap_ext. intros _ m _.
  rewrite (bool_decide_false (selected_state type = FAILED)) by (by destruct type). by rewrite andb_false_r.
Qed.

Lemma elem_of_selected type ms i : i ∈ selected_members type ms <->
  exists m, m ∈ ms /\ m_identity m = i /\ m_state m = selected_state type.
Proof.
  unfold selected_members. rewrite list_elem_of_fmap. setoid_rewrite elem_of_filter_bool. setoid_rewrite bool_decide_eq_true.
  naive_solver.
Qed.

Lemma outside_selected type ms m : members_valid ms -> m ∈ ms ->
  outside (selected_members type ms) m = negb (bool_decide (m_state m = selected_state type)).
Proof.
  intros Hv Hm. unfold outside. apply eq_true_iff_eq. rewrite negb_true_iff, bool_decide_eq_true, bool_decide_eq_false.
  rewrite elem_of_addresses_of. setoid_rewrite elem_of_selected. split.
  - intros Hno Hst. apply Hno. exists (m_identity m). eauto.
  - intros Hst (i & (m' & Hm' & <- & Hs') & Ha). apply Hst. by rewrite <-(address_inj ms m' m Hv Hm' Hm Ha).
Qed.

(** The plan of a scale-out or scale-in batch moves tokens from the committed
    to the prospective owner. *)
Lemma RebuildPlan_migration s batch plan : members_valid (Members s) -> tokens_u32 (Members s) ->
  ts_activeBatch (state_ s) = Some batch -> ab_type batch <> FAILURE -> RebuildPlan s = Ok plan ->
  tp_next plan = state_ s /\
  exact_changes (ring_owner committed (Members s))
    (ring_owner (fun m => IsProspective (m_state m) (Some batch)) (Members s)) (tp_ownerChanges plan) /\
  forall c, c ∈ tp_ownerChanges plan -> ab_type batch = SCALE_OUT -> exists m, m ∈ Members s /\ m_identity m = oc_target c /\ m_state m = JOINING.
Proof.
  intros Hv Hu Hb Hnf. unfold RebuildPlan. rewrite Hb, planning_members_id by done.
  set (cur := set_members (Members s) (state_ s)). intros ([] & _ & Hok)%bind_Ok.
  rewrite bool_decide_false in Hok by done. cbn [andb] in Hok. apply bind_Ok in Hok as (built & Hb' & [= <-]).
  cbn [tp_next tp_ownerChanges]. split; [done|]. destruct (ab_type batch) eqn:Et; [| |done].
  - apply law_scale_out in Hb' as [_ (added & Hn & Hadd) Hval _ _ Hex Htg]; [|done].
    assert (Hnil : added = []).
    { destruct added as [|m added]; [done|]. exfalso. destruct (Hadd m ltac:(left)) as (_ & Hj & _).
      apply elem_of_selected in Hj as (m' & Hm' & Hi & _). pose proof (mv_addresses _ (vt_members _ Hval)) as Hnd.
      rewrite Hn in Hnd. cbn [set_members ts_members] in Hnd. rewrite fmap_app in Hnd.
      apply NoDup_app in Hnd as (_ & Hd & _). apply (Hd (m_address m)); [|left].
      rewrite <-Hi. by apply (list_elem_of_fmap_2 (fun m => m_address m)). }
    subst added. rewrite app_nil_r in Hn.
    assert (Hms : ts_members (tp_next built) = Members s) by (by rewrite Hn). rewrite Hms in Hex, Htg. split.
    + eapply exact_changes_ext; [| |exact Hex]; intros t Ht; apply ring_owner_pred; [done|].
      intros m Hm. unfold committed_or_joining, committed, is_joining. cbn. by rewrite Et.
    + intros c Hc _. by apply Htg.
  - apply law_scale_in in Hb' as [_ _ _ Hex _]; [|done]. split; [|done].
    eapply exact_changes_ext; [| |exact Hex]; intros t Ht; apply ring_owner_pred; [done|].
    intros m Hm. cbn in Hm |- *. rewrite Et. unfold committed. f_equal. by apply (outside_selected SCALE_IN).
Qed.

(** The members whose tokens a failure batch accounts for: the failed ones
    still own theirs. *)
Definition owned_before_failure (m : Member) : bool := committed m || bool_decide (m_state m = FAILED).
Definition is_active (m : Member) : bool := bool_decide (m_state m = ACTIVE).

Lemma elem_of_planning m ms : m ∈ planning_members FAILURE ms <->
  exists m', m' ∈ ms /\ m = if bool_decide (m_state m' = FAILED) then set_member_state ACTIVE m' else m'.
Proof.
  unfold planning_members. rewrite list_elem_of_fmap. cbn [selected_state].
  rewrite (bool_decide_true (FAILED = FAILED)) by done. setoid_rewrite andb_true_r. naive_solver.
Qed.

Lemma planning_members_shape ms : members_valid ms -> tokens_u32 ms ->
  members_valid (planning_members FAILURE ms) /\ tokens_u32 (planning_members FAILURE ms).
Proof.
  intros Hv Hu. assert (Hk : keeps_shape (fun m => if bool_decide (m_state m = selected_state FAILURE) &&
      bool_decide (selected_state FAILURE = FAILED) then set_member_state ACTIVE m else m)).
  { intros m. by case_match. }
  split; [by apply members_valid_map|by apply tokens_u32_map].
Qed.

Lemma planning_owner_before ms t : members_valid ms -> tokens_u32 ms -> is_u32 t ->
  ring_owner committed (planning_members FAILURE ms) t = ring_owner owned_before_failure ms t.
Proof.
  intros Hv Hu Ht. destruct (planning_members_shape ms Hv Hu) as [Hv' Hu']. apply ring_owner_ext; [done..|]. intros i x. split.
  - intros (m & (m' & Hm' & ->)%elem_of_planning & Hc & Hi & Hx). exists m'. unfold owned_before_failure.
    destruct (decide (m_state m' = FAILED)) as [Hf|Hf].
    + rewrite bool_decide_true in Hi, Hx by done. rewrite bool_decide_true by done. by rewrite orb_true_r.
    + rewrite bool_decide_false in Hc, Hi, Hx by done. by rewrite Hc.
  - intros (m & Hm & Hc & Hi & Hx). eexists. split; [apply elem_of_planning; by exists m|].
    unfold owned_before_failure in Hc. case_bool_decide as Hf; [done|]. rewrite orb_false_r in Hc. done.
Qed.

Lemma planning_owner_after ms t : members_valid ms -> tokens_u32 ms -> is_u32 t ->
  ring_owner (fun m => bool_decide (m_state m = ACTIVE) && outside (selected_members FAILURE ms) m)
    (planning_members FAILURE ms) t = ring_owner is_active ms t.
Proof.
  intros Hv Hu Ht. destruct (planning_members_shape ms Hv Hu) as [Hv' Hu']. apply ring_owner_ext; [done..|]. intros i x. split.
  - intros (m & (m' & Hm' & ->)%elem_of_planning & [Ha%bool_decide_eq_true Ho]%andb_prop & Hi & Hx). exists m'.
    assert (Ho' : outside (selected_members FAILURE ms) m' = true) by (by destruct (bool_decide (m_state m' = FAILED))).
    rewrite outside_selected in Ho' by done. apply negb_true_iff, bool_decide_eq_false in Ho'.
    rewrite bool_decide_false in Ha, Hi, Hx by done. unfold is_active. by rewrite bool_decide_true.
  - intros (m & Hm & Ha%bool_decide_eq_true & Hi & Hx). exists m. split; [|split; [|done]].
    + apply elem_of_planning. exists m. split; [done|]. by rewrite bool_decide_false by congruence.
    + rewrite (bool_decide_true (m_state m = ACTIVE)) by done. rewrite outside_selected by done. cbn.
      by rewrite bool_decide_false by congruence.
Qed.

Lemma RebuildPlan_failure s batch plan : members_valid (Members s) -> tokens_u32 (Members s) ->
  ts_activeBatch (state_ s) = Some batch -> ab_type batch = FAILURE -> (exists m, m ∈ Members s /\ m_state m = ACTIVE) ->
  RebuildPlan s = Ok plan ->
  tp_next plan = state_ s /\
  exists built, failure_contract (set_members (planning_members FAILURE (Members s)) (state_ s))
    (selected_members FAILURE (Members s)) built /\ tp_ownerChanges plan = tp_ownerChanges built.
Proof.
  intros Hv Hu Hb Hf (m & Hm & Ha). unfold RebuildPlan. rewrite Hb, Hf. intros ([] & _ & Hok)%bind_Ok.
  rewrite (proj2 (existsb_elem (fun m => bool_decide (m_state m = ACTIVE)) (Members s))) in Hok.
  2:{ exists m. split; [done|by apply bool_decide_eq_true]. }
  rewrite andb_false_r in Hok. apply bind_Ok in Hok as (built & Hb' & [= <-]). split; [done|]. exists built. split; [|done].
  apply law_failure in Hb'; [done|]. cbn. by apply planning_members_shape.
Qed.
End plan.

Section claims.
Context `{RE2} `{SHA256} `{IPlanningAlgorithm} `{!PlanningLaws} `{Protobuf TaskNotifyPb}.

Lemma snapshot_state st s : snapshot_of st s -> state_ s = sort_members st.
Proof. by intros (_ & ? & ? & ? & ? & ? & ? & ->)%snapshot_of_inv. Qed.

Lemma RebuildExpected_inv s e batch : ts_activeBatch (state_ s) = Some batch -> RebuildExpected s [] false = Ok e ->
  exists plan, RebuildPlan s = Ok plan /\ expected_of s batch (tp_ownerChanges plan) e.
Proof.
  intros Hb Hok. unfold RebuildExpected in Hok. rewrite Hb in Hok. apply bind_Ok in Hok as (built & Hok & [= <-]).
  apply bind_Ok in Hok as (plan & Hp & He). exists plan. split; [done|].
  apply BuildExpected_inv in He as (batch' & Hb' & He). congruence.
Qed.

Lemma snapshot_u32 st s : snapshot_of st s -> tokens_u32 (ts_members st) -> tokens_u32 (Members s).
Proof. intros Hs Hu m t Hm. apply Hu. by apply (snapshot_members st s). Qed.

Lemma snapshot_ring_owner st s owns t : snapshot_of st s -> tokens_u32 (ts_members st) -> is_u32 t ->
  ring_owner owns (Members s) t = ring_owner owns (ts_members st) t.
Proof.
  intros Hs Hu Ht. unfold Members. rewrite (snapshot_state st s Hs).
  apply ring_owner_sort; [|done|done]. destruct (snapshot_of_inv st s Hs) as [Hp _]. apply Hp.
Qed.

(** C26: while a scale-out or scale-in batch runs, a key whose committed and
    prospective owners are the same member is in the filter of no task, and a
    key whose owner changes is in the filter of exactly one task, which its
    committed owner executes for its prospective owner under the epoch of the
    batch. *)
Theorem migration_tasks_exact st s batch e key :
  topology_inv st -> snapshot_of st s -> ts_activeBatch st = Some batch -> ab_type batch <> FAILURE ->
  RebuildExpected s [] false = Ok e ->
  exists owner final, LocateOwner s (Hash key) = Ok owner /\ LocateProspectiveOwner s (Hash key) = Ok final /\
    let selected := List.filter (fun task => Contains (ToRanges (task_ranges task)) key) (ed_tasks e) in
    if decide (m_identity owner = m_identity final) then selected = []
    else exists task, selected = [task] /\ task_ends (ab_type batch) (m_address owner) (m_address final) task /\
      task_epoch task = ab_epoch batch.
Proof.
  intros Hinv Hs Hb Hnf Hok. pose proof (Hash_u32 key) as Ht. set (t := Hash key) in *.
  assert (Hb' : ts_activeBatch (state_ s) = Some batch) by (by rewrite (snapshot_state st s Hs)).
  destruct (RebuildExpected_inv s e batch Hb' Hok) as (plan & Hp & Hex).
  pose proof (snapshot_valid st s Hs) as Hv. pose proof (snapshot_u32 st s Hs (ti_u32 _ Hinv)) as Hu.
  destruct (RebuildPlan_migration s batch plan Hv Hu Hb' Hnf Hp) as (_ & Hch & _).
  destruct (ec_total _ _ _ Hch t Ht) as [[i Hi] [d Hd]].
  pose proof (LocateOwner_spec st s t Hs (ti_u32 _ Hinv) Ht) as Hlo.
  pose proof (LocateProspectiveOwner_spec st s t batch Hs (ti_u32 _ Hinv) Ht Hb Hnf) as Hlp.
  rewrite (snapshot_ring_owner st s) in Hi, Hd by (done || apply Hinv).
  destruct (LocateOwner s t) as [owner|c].
  2:{ destruct Hlo as [_ Hno]. apply ring_owner_elem in Hi as (m & Hm & Hc & _). by rewrite (Hno m Hm) in Hc. }
  assert (Hwit : exists m, m ∈ ts_members st /\ IsProspective (m_state m) (Some batch) = true /\ m_tokens m <> []).
  { apply ring_owner_elem in Hd as (m & Hm & Hpr & _). exists m. split_and!; [done..|]. apply (ti_tokens _ Hinv); [done|].
    unfold committed_or_joining, committed, is_joining. cbn in Hpr. destruct (ab_type batch); [|by destruct (m_state m)|done].
    done. }
  specialize (Hlp Hwit). destruct (LocateProspectiveOwner s t) as [final|c]; [|done]. exists owner, final. split; [done|]. split; [done|].
  cbn zeta. rewrite (expected_filter s batch _ e key Hex). fold t.
  destruct Hlo as (_ & _ & Ho). destruct Hlp as [_ Hf].
  rewrite <-(snapshot_ring_owner st s) in Ho, Hf by (done || apply Hinv).
  destruct (expected_moved s batch _ _ _ e t _ _ Hex (ec_pairs _ _ _ Hch)
    (fun c Hc Hcov => proj2 (ec_sound _ _ _ Hch c t Hc Hcov)) Ho Hf) as [Hyes Hno].
  pose proof (ec_iff _ _ _ Hch t _ _ Ht Ho Hf) as Hiff.
  case_decide as Heq; [apply Hno; by intros Hc%Hiff|by apply Hyes, Hiff].
Qed.

(** while a failure batch runs and some member is active, a key that a failed
    member owns is in the filter of exactly one recovery task, executed by the
    active member nearest to the key on behalf of that failed member, and a key
    of a member that did not fail is in the filter of none. *)
Theorem recovery_tasks_exact st s batch e key :
  topology_inv st -> snapshot_of st s -> ts_activeBatch st = Some batch -> ab_type batch = FAILURE ->
  (exists m, m ∈ ts_members st /\ m_state m = ACTIVE) -> RebuildExpected s [] false = Ok e ->
  exists owner heir, ring_owner owned_before_failure (ts_members st) (Hash key) = Some owner /\
    ring_owner is_active (ts_members st) (Hash key) = Some heir /\
    let selected := List.filter (fun task => Contains (ToRanges (task_ranges task)) key) (ed_tasks e) in
    if decide (owner ∈ selected_members FAILURE (ts_members st)) then
      exists task, selected = [task] /\ task_ends FAILURE (mi_address owner) (mi_address heir) task /\
        task_epoch task = ab_epoch batch
    else selected = [].
Proof.
  intros Hinv Hs Hb Hf (ma & Hma & Hact) Hok. pose proof (Hash_u32 key) as Ht. set (t := Hash key) in *.
  assert (Hb' : ts_activeBatch (state_ s) = Some batch) by (by rewrite (snapshot_state st s Hs)).
  destruct (RebuildExpected_inv s e batch Hb' Hok) as (plan & Hp & Hex).
  pose proof (snapshot_valid st s Hs) as Hv. pose proof (snapshot_u32 st s Hs (ti_u32 _ Hinv)) as Hu.
  destruct (RebuildPlan_failure s batch plan Hv Hu Hb' Hf) as (_ & built & Hct & Hchg); [|done|].
  { exists ma. split; [by apply (snapshot_members st s)|done]. }
  destruct (fc_total _ _ _ Hct t Ht) as [[i Hi] [d Hd]]. exists i, d.
  destruct (expected_moved s batch _ _ _ e t _ _ Hex ltac:(rewrite Hchg; apply (fc_pairs _ _ _ Hct))
    ltac:(rewrite Hchg; exact (fun c Hc Hcov => proj2 (fc_sound _ _ _ Hct c t Hc Hcov))) Hi Hd) as [Hyes Hno].
  pose proof (fc_iff _ _ _ Hct t i d Ht Hi Hd) as Hiff. rewrite Hchg in Hyes, Hno.
  cbn [set_members ts_members] in Hi, Hd.
  rewrite planning_owner_before, (snapshot_ring_owner st s) in Hi by (done || apply Hinv).
  rewrite planning_owner_after, (snapshot_ring_owner st s) in Hd by (done || apply Hinv).
  split; [done|]. split; [done|]. cbn zeta. rewrite (expected_filter s batch _ e key Hex). fold t.
  assert (Hsel : i ∈ selected_members FAILURE (ts_members st) <-> i ∈ selected_members FAILURE (Members s)).
  { rewrite !elem_of_selected. by setoid_rewrite (snapshot_members st s _ Hs). }
  rewrite Hf in Hyes. case_decide as Hin; [apply Hyes, Hiff, Hsel, Hin|apply Hno; by intros Hc%Hiff%Hsel].
Qed.

(** ** Planned changes are valid *)

Lemma find_exact st s m : snapshot_of st s -> m ∈ ts_members st -> FindMemberByAddress (m_address m) s = Ok m.
Proof.
  intros Hs Hm. pose proof (FindMemberByAddress_spec st s (m_address m) Hs) as Hf.
  destruct (FindMemberByAddress (m_address m) s) as [m'|c].
  - destruct Hf as [Hm' Ha]. f_equal. destruct (snapshot_of_inv st s Hs) as [Hp _].
    by apply (address_inj (ts_members st)); [apply Hp|..].
  - destruct Hf as [_ Hno]. by destruct (Hno m Hm).
Qed.

Lemma ranges_wf_ordered ranges : ranges_wf ranges -> ordered_ranges ranges /\ sort_ranges ranges = ranges.
Proof.
  intros [Hne Hgap].
  assert (Ho : ordered_ranges ranges) by (split; [done|]; eapply StronglySorted_impl; [|exact Hgap]; intros a b; cbn; lia).
  split; [done|]. symmetry. pose proof (ordered_key_sorted (fun r => r) ranges) as Hk. rewrite list_fmap_id in Hk.
  destruct (Hk Ho) as [Hnd Hss]. by apply (sort_on_unique range_key).
Qed.

(** The states the two ends of a change must have. *)
Definition change_states (type : TopologyChangeType) (source target : Member) : Prop :=
  match type with
  | SCALE_OUT => committed source = true /\ m_state target = JOINING
  | SCALE_IN => m_state source = LEAVING /\ IsAdmittedScaleInMigrationTargetState (m_state target) = true
  | FAILURE => m_state source = FAILED /\ m_state target = ACTIVE
  end.

Lemma ValidateOwnerChange_ok st s type c source target : snapshot_of st s ->
  source ∈ ts_members st -> target ∈ ts_members st -> oc_source c = Some (m_identity source) ->
  oc_target c = m_identity target -> ranges_wf (oc_ranges c) -> (exists t, covered t (oc_ranges c)) ->
  change_states type source target -> ValidateOwnerChange s type c = Ok tt.
Proof.
  intros Hs Hms Hmt Hcs Hct Hwf (t & r & Hr & _) Hst. unfold ValidateOwnerChange. rewrite Hcs, Hct.
  rewrite (find_exact st s source Hs Hms), (find_exact st s target Hs Hmt).
  assert (negb (is_empty (oc_ranges c)) = true) as -> by (destruct (oc_ranges c); [by apply not_elem_of_nil in Hr|done]).
  cbn [check mbind res_bind].
  rewrite (bool_decide_true (m_identity source = _)), (bool_decide_true (m_identity target = _)) by done.
  cbn [check mbind res_bind andb].
  assert (match type with
          | SCALE_OUT => check (IsCommittedMemberState (m_state source) && bool_decide (m_state target = JOINING)) K_INVALID
          | FAILURE => _ ← check (bool_decide (m_state source = (if decide (type = FAILURE) then FAILED else LEAVING))) K_INVALID;
              check (bool_decide (m_state target = ACTIVE)) K_INVALID
          | SCALE_IN => check (bool_decide (m_state source = (if decide (type = FAILURE) then FAILED else LEAVING)) &&
                               IsAdmittedScaleInMigrationTargetState (m_state target)) K_INVALID
          end = Ok tt) as ->.
  { unfold change_states, committed in Hst. destruct type; destruct Hst as [H1' H2'].
    - by rewrite H1', H2'.
    - by rewrite H1', H2'.
    - by rewrite H1', H2'. }
  cbn [mbind res_bind]. destruct (ranges_wf_ordered _ Hwf) as [Ho ->]. by apply ranges_disjoint_iff.
Qed.

Lemma planned_change_valid st s batch plan c : topology_inv st -> snapshot_of st s ->
  ts_activeBatch st = Some batch -> RebuildPlan s = Ok plan -> c ∈ tp_ownerChanges plan ->
  tp_next plan = state_ s /\ ValidateOwnerChange s (ab_type batch) c = Ok tt.
Proof.
  intros Hinv Hs Hb Hp Hc.
  assert (Hb' : ts_activeBatch (state_ s) = Some batch) by (by rewrite (snapshot_state st s Hs)).
  pose proof (snapshot_valid st s Hs) as Hv. pose proof (snapshot_u32 st s Hs (ti_u32 _ Hinv)) as Hu.
  destruct (decide (ab_type batch = FAILURE)) as [Hf|Hnf].
  - destruct (decide (Exists (fun m => m_state m = ACTIVE) (Members s))) as [(ma & Hma & Ha)%Exists_exists|Hno].
    2:{ exfalso. unfold RebuildPlan in Hp. rewrite Hb', Hf in Hp. apply bind_Ok in Hp as ([] & _ & Hp).
        assert (Hex : existsb (fun m => bool_decide (m_state m = ACTIVE)) (Members s) = false).
        { apply not_true_iff_false. intros (m & Hm & Ha%bool_decide_eq_true)%existsb_elem. apply Hno, Exists_exists. eauto. }
        rewrite Hex in Hp. cbn in Hp. injection Hp as <-. by apply not_elem_of_nil in Hc. }
    destruct (RebuildPlan_failure s batch plan Hv Hu Hb' Hf) as (Hn & built & Hct & Hchg); [eauto|done|]. split; [done|].
    rewrite Hchg in Hc. destruct (fc_changes _ _ _ Hct c Hc) as (Hwf & Hcov & i & m & Hcs & Hi & Hm & Hmi & Hma' & Hnf').
    apply elem_of_selected in Hi as (ms & Hms & Hmsi & Hst). cbn [set_members ts_members] in Hm.
    apply elem_of_planning in Hm as (mt & Hmt & ->). rewrite Hf.
    assert (Hne : m_state mt <> FAILED).
    { intros Hfl. rewrite bool_decide_true in Hmi by done. apply Hnf', elem_of_selected. exists mt. done. }
    rewrite bool_decide_false in Hmi, Hma' by done. rewrite (snapshot_members st s) in Hms, Hmt by done.
    apply (ValidateOwnerChange_ok st s FAILURE c ms mt); try done; by subst.
  - destruct (RebuildPlan_migration s batch plan Hv Hu Hb' Hnf Hp) as (Hn & Hch & Htg). split; [done|].
    destruct (ec_wf _ _ _ Hch c Hc) as (Hwf & (t & Hcov) & i & Hcs & Hne).
    destruct (ec_sound _ _ _ Hch c t Hc Hcov) as (Ht & Hbt & Hat). rewrite Hcs in Hbt.
    destruct (ring_owner_elem _ _ _ _ Hbt) as (ms & Hms & Hcm & <-).
    destruct (ring_owner_elem _ _ _ _ Hat) as (mt & Hmt & Hpr & Hmi).
    pose proof (proj1 (snapshot_members st s ms Hs) Hms) as Hms'. pose proof (proj1 (snapshot_members st s mt Hs) Hmt) as Hmt'.
    apply (ValidateOwnerChange_ok st s _ c ms mt); [done..|eauto|]. cbn in Hpr. unfold change_states.
    destruct (ab_type batch) eqn:Et; [| |done].
    + split; [done|]. destruct (Htg c Hc eq_refl) as (m & Hm & Hmi' & Hj).
      by rewrite (address_inj (Members s) mt m Hv Hmt Hm ltac:(congruence)).
    + apply andb_prop in Hpr as [Hcp Hnl%negb_true_iff%bool_decide_eq_false]. split.
      * destruct (decide (m_state ms = LEAVING)) as [|Hl]; [done|]. exfalso. apply Hne.
        enough (ring_owner (fun m => IsProspective (m_state m) (Some batch)) (Members s) t = Some (m_identity ms)) by congruence.
        eapply (ring_owner_restrict committed _ (Members s)); [done..| |exact Hbt|].
        -- intros j x (m & Hm & Hpm & Hj & Hx). exists m. cbn in Hpm. rewrite Et in Hpm. apply andb_prop in Hpm as [? _]. done.
        -- intros m Hm Hcmm Hmm. assert (m = ms) as -> by (eapply (address_inj (Members s)); [done..|congruence]).
           exists ms. cbn. rewrite Et. unfold committed in Hcm. rewrite Hcm, (bool_decide_false (m_state ms = LEAVING)) by done. done.
      * destruct (m_state mt); done.
Qed.

(** ** When the rebuild succeeds *)

(** Some committed member stays a member when the batch ends. *)
Definition keeps_owner (ms : list Member) : Prop :=
  exists m, m ∈ ms /\ committed m = true /\ m_state m <> LEAVING.

Lemma selected_identities st s batch : topology_inv st -> snapshot_of st s -> ts_activeBatch st = Some batch ->
  let sel := selected_members (ab_type batch) (Members s) in
  sel <> [] /\ identities_valid sel /\
  (forall i, i ∈ sel -> Z.of_nat (String.length (mi_address i)) <= MAX_MEMBER_ADDRESS_BYTES).
Proof.
  intros Hinv Hs Hb sel. pose proof (snapshot_valid st s Hs) as Hv.
  assert (Hin : forall i, i ∈ sel -> exists m, m ∈ Members s /\ m_identity m = i /\ Snapshot.ValidateAddress (m_address m) = Ok tt).
  { intros i (m & Hm & Hi & _)%elem_of_selected. exists m. split_and!; [done..|].
    apply (ti_address _ Hinv). by apply (snapshot_members st s). }
  assert (Hsub : sel `sublist_of` (m_identity <$> Members s)) by (apply fmap_sublist, filter_bool_sublist).
  split_and!; [|split|].
  - pose proof (ti_batch _ Hinv) as Hbc. unfold batch_consistent in Hbc. rewrite Hb in Hbc.
    destruct Hbc as [_ (m & Hm & Hp)]. intros E. apply (not_elem_of_nil (m_identity m)). rewrite <-E.
    apply elem_of_selected. exists m. rewrite (snapshot_members st s) by done. split_and!; [done..|].
    unfold is_participant in Hp. by destruct (ab_type batch), (m_state m).
  - intros i Hi. destruct (Hin i Hi) as (m & Hm & <- & Ha). destruct (mv_shape _ Hv m Hm) as [Hl Hne].
    unfold Snapshot.ValidateAddress in Ha. by apply check_Ok in Ha as [_ ?]%andb_prop.
  - eapply sublist_NoDup; [exact (mv_ids _ Hv)|]. rewrite (list_fmap_compose m_identity mi_id). by apply fmap_sublist.
  - eapply sublist_NoDup; [exact (mv_addresses _ Hv)|]. rewrite (list_fmap_compose m_identity mi_address). by apply fmap_sublist.
  - intros i Hi. destruct (Hin i Hi) as (m & Hm & <- & Ha). unfold Snapshot.ValidateAddress in Ha.
    apply check_Ok in Ha as [[_ Hle%Z.leb_le]%andb_prop _]%andb_prop. done.
Qed.

Context `{!PlanningProgress}.

Lemma RebuildPlan_total st s batch : topology_inv st -> snapshot_of st s -> ts_activeBatch st = Some batch ->
  ab_type batch = FAILURE \/ keeps_owner (ts_members st) -> exists plan, RebuildPlan s = Ok plan.
Proof.
  intros Hinv Hs Hb Hown. pose proof (selected_identities st s batch Hinv Hs Hb) as (Hne & Hiv & Hlen).
  assert (Hb' : ts_activeBatch (state_ s) = Some batch) by (by rewrite (snapshot_state st s Hs)).
  pose proof (snapshot_valid st s Hs) as Hv. pose proof (snapshot_u32 st s Hs (ti_u32 _ Hinv)) as Hu.
  assert (Htok : forall m, m ∈ Members s -> committed_or_joining m = true -> m_tokens m <> []).
  { intros m Hm. apply (ti_tokens _ Hinv). by apply (snapshot_members st s). }
  unfold RebuildPlan. rewrite Hb'. set (sel := selected_members _ _) in *.
  assert (is_empty sel = false) as -> by (by destruct sel). cbn [negb check mbind res_bind].
  assert (Hfin : forall r : res TopologyPlan, is_ok r = true ->
    exists plan, (plan ← r; Ok {| tp_next := state_ s; tp_ownerChanges := tp_ownerChanges plan |}) = Ok plan)
    by (intros [plan|c] Hok; [by eexists|done]).
  destruct (decide (ab_type batch = FAILURE)) as [Hf|Hnf].
  - rewrite Hf, (bool_decide_true (FAILURE = FAILURE)) by done. cbn [andb].
    destruct (existsb _ (Members s)) eqn:Ea; cbn [negb]; [|by eexists].
    apply existsb_elem in Ea as (ma & Hma & Ha%bool_decide_eq_true). apply Hfin, progress_failure.
    + destruct (planning_members_shape _ Hv Hu) as [Hpv _]. split; [done..|].
      intros i (m & Hm & Hi & Hst)%elem_of_selected. rewrite Hf in Hst. exists (set_member_state ACTIVE m).
      split_and!; [|done..]. apply elem_of_planning. exists m. split; [done|]. by rewrite bool_decide_true.
    + exists ma. split_and!.
      * apply elem_of_planning. exists ma. split; [done|]. by rewrite bool_decide_false by congruence.
      * unfold sel. rewrite outside_selected, Hf, Ha by done. done.
      * apply Htok; [done|]. unfold committed_or_joining, committed. by rewrite Ha.
  - destruct Hown as [|(m0 & Hm0 & Hc0 & Hl0)]; [done|]. rewrite <-(snapshot_members st s) in Hm0 by done.
    assert (Ht0 : m_tokens m0 <> []) by (apply Htok; [done|]; unfold committed_or_joining; by rewrite Hc0).
    rewrite (bool_decide_false (ab_type batch = FAILURE)), planning_members_id by done. cbn [andb].
    apply Hfin. destruct (ab_type batch) eqn:Et; [| |done].
    + apply progress_scale_out; [| |by exists m0].
      * split; [done..|]. intros i (m & Hm & Hi & Hst)%elem_of_selected. exists m. split_and!; [done..|]. by apply bool_decide_eq_true.
      * cbn. rewrite (snapshot_state st s Hs). apply (ti_tpm _ Hinv).
    + apply progress_scale_in.
      * split; [done..|]. intros i (m & Hm & Hi & Hst)%elem_of_selected. exists m. split_and!; [done..|].
        unfold committed. by rewrite Hst.
      * exists m0. split_and!; [done| |done]. unfold sel. rewrite Hc0, outside_selected by done. cbn.
        by rewrite bool_decide_false.
Qed.

Lemma RebuildPlan_needs_owner st s batch plan : topology_inv st -> snapshot_of st s -> ts_activeBatch st = Some batch ->
  RebuildPlan s = Ok plan -> ab_type batch = FAILURE \/ keeps_owner (ts_members st).
Proof.
  intros Hinv Hs Hb Hp. destruct (decide (ab_type batch = FAILURE)) as [|Hnf]; [by left|right].
  assert (Hb' : ts_activeBatch (state_ s) = Some batch) by (by rewrite (snapshot_state st s Hs)).
  pose proof (snapshot_valid st s Hs) as Hv. pose proof (snapshot_u32 st s Hs (ti_u32 _ Hinv)) as Hu.
  destruct (RebuildPlan_migration s batch plan Hv Hu Hb' Hnf Hp) as (_ & Hch & _).
  destruct (ec_total _ _ _ Hch 0) as [[i Hi] [j Hj]]; [unfold is_u32; lia|].
  apply ring_owner_elem in Hi as (m & Hm & Hc & _), Hj as (m' & Hm' & Hpr & _).
  rewrite (snapshot_members st s) in Hm, Hm' by done. pose proof (batch_state st batch m (ti_batch _ Hinv) Hb Hm) as Hmb.
  cbn in Hpr. destruct (ab_type batch); [| |done].
  - exists m. split_and!; [done..|]. intros E. by rewrite E in Hmb.
  - apply andb_prop in Hpr as [Hc' Hl%negb_true_iff%bool_decide_eq_false]. by exists m'.
Qed.

(** The operations of the plan builder that start a batch or plan it again. *)
Definition batch_started (latest : TopologyState) (plan : TopologyPlan) : Prop := exists selected,
  BuildScaleOutStart latest selected = Ok plan \/ BuildScaleOutReplan latest selected = Ok plan \/
  BuildScaleInStart latest selected = Ok plan \/
  (exists m, m ∈ ts_members latest /\ m_address m ∈ addresses_of selected) /\ BuildFailureStartOrReplan latest selected = Ok plan.

Lemma batch_started_inv latest plan : topology_inv latest -> next_version latest -> batch_started latest plan ->
  topology_inv (tp_next plan).
Proof.
  intros Hinv Hv (sel & [Hb|[Hb|[Hb|[He Hb]]]]).
  - by eapply BuildScaleOutStart_inv.
  - by eapply BuildScaleOutReplan_inv.
  - by eapply BuildScaleInStart_inv.
  - by eapply BuildFailureStart_inv.
Qed.

(** A planned scale-out has a committed owner outside the joining members. *)
Lemma scale_out_keeps_owner cur joining tpm plan : scale_out_contract cur joining tpm plan ->
  (forall m, m ∈ ts_members cur -> m_state m <> LEAVING) -> keeps_owner (ts_members (tp_next plan)).
Proof.
  intros [_ (added & Hn & _) _ _ _ Hex _] Hnl. destruct (ec_total _ _ _ Hex 0) as [[i Hi] _]; [unfold is_u32; lia|].
  apply ring_owner_elem in Hi as (m & Hm & Hc & _). exists m. split_and!; [|done|by apply Hnl].
  rewrite Hn. apply elem_of_app. by left.
Qed.

Lemma batch_started_owner latest plan batch : topology_inv latest -> batch_started latest plan ->
  ts_activeBatch (tp_next plan) = Some batch -> ab_type batch = FAILURE \/ keeps_owner (ts_members (tp_next plan)).
Proof.
  intros Hinv (sel & [Hb|[Hb|[Hb|[He Hb]]]]) Hbt.
  - right. unfold BuildScaleOutStart in Hb. apply bind_Ok in Hb as (u1 & [_ Hnb%no_batch]%check_Ok%andb_prop & Hb).
    apply bind_Ok in Hb as (u2 & _ & Hb). apply bind_Ok in Hb as (built & Hb & Hok). apply bind_Ok in Hok as ([] & _ & [= <-]).
    apply law_scale_out in Hb; [|intros m t [Hm _]%RemoveMembers_elem; by apply (ti_u32 _ Hinv)].
    apply (scale_out_keeps_owner _ _ _ _ Hb). intros m [Hm _]%RemoveMembers_elem.
    by destruct (stable_state latest m (ti_batch _ Hinv) Hnb Hm) as (_ & ? & _).
  - right. unfold BuildScaleOutReplan in Hb. apply bind_Ok in Hb as (u1 & (b & Hlb & Htype)%ValidateBatch_Some & Hb).
    apply bind_Ok in Hb as (u2 & _ & Hb).
    destruct (negb (is_empty (MembersInState _ JOINING))); [|by injection Hb as <-].
    apply bind_Ok in Hb as (built & Hb & [= <-]).
    apply law_scale_out in Hb; [|intros m t [Hm _]%RemoveMembers_elem; by apply (ti_u32 _ Hinv)].
    apply (scale_out_keeps_owner _ _ _ _ Hb). intros m [Hm _]%RemoveMembers_elem E.
    pose proof (batch_state latest b m (ti_batch _ Hinv) Hlb Hm) as Hmb. by rewrite Htype, E in Hmb.
  - right. destruct (BuildScaleInStart_next _ _ _ Hinv Hb) as (Hc & Hnb & _ & ->).
    destruct (ec_total _ _ _ (nc_exact _ _ _ Hc) 0) as [_ [i Hi]]; [unfold is_u32; lia|].
    apply ring_owner_elem in Hi as (m & Hm & [Hcm Ho]%andb_prop & _). exists m. split_and!; [|done|].
    + cbn [set_version_batch set_members ts_members]. apply list_elem_of_fmap. exists m. split; [|done].
      unfold leave_update. rewrite bool_decide_false; [done|]. intros Hin. unfold outside in Ho.
      apply bool_decide_eq_true in Ho. apply Ho, elem_of_addresses_of. eauto.
    + by destruct (stable_state latest m (ti_batch _ Hinv) Hnb Hm) as (_ & ? & _).
  - left. rewrite (BuildFailureStart_next _ _ _ Hinv Hb) in Hbt. by injection Hbt as <-.
Qed.

Lemma RebuildExpected_ok st s : topology_inv st -> snapshot_of st s ->
  (forall data, is_ok (HashSHA256 data) = true) -> SHA256Laws ->
  (forall batch, ts_activeBatch st = Some batch -> ab_type batch = FAILURE \/ keeps_owner (ts_members st)) ->
  exists e, RebuildExpected s [] false = Ok e.
Proof.
  intros Hinv Hs Hsha Hlaw Hown. assert (Hab : ts_activeBatch (state_ s) = ts_activeBatch st) by (by rewrite (snapshot_state st s Hs)).
  unfold RebuildExpected. rewrite Hab. destruct (ts_activeBatch st) as [batch|] eqn:Hb; [|by eexists].
  destruct (RebuildPlan_total st s batch Hinv Hs Hb (Hown batch eq_refl)) as [plan Hp].
  rename Hab into Hb'. rewrite Hp. cbn [mbind res_bind negb].
  destruct (BuildExpected_total s plan batch Hb') as (e & ->); [| | |by eexists].
  - unfold RebuildPlan in Hp. rewrite Hb' in Hp. apply bind_Ok in Hp as ([] & _ & Hp).
    destruct (bool_decide _ && _); [by injection Hp as <-|]. by apply bind_Ok in Hp as (built & _ & [= <-]).
  - intros c Hc. by eapply planned_change_valid.
  - intros t. by apply BuildTaskId_length.
Qed.

(** C27: with a digest library that computes its digests, rebuilding the tasks
    of the running batch from the topology alone (plan, owner-change validation,
    task ids, notifies) succeeds exactly when the batch is a failure batch or
    some committed member stays after it; and it succeeds for every topology the
    plan builder produces by starting or replanning a scale-out, scale-in or
    failure batch. *)
Theorem materialize_total : (forall data, is_ok (HashSHA256 data) = true) -> SHA256Laws ->
  (forall st s batch, topology_inv st -> snapshot_of st s -> ts_activeBatch st = Some batch ->
     (exists e, RebuildExpected s [] false = Ok e) <-> ab_type batch = FAILURE \/ keeps_owner (ts_members st)) /\
  (forall latest plan s, topology_inv latest -> next_version latest -> batch_started latest plan ->
     snapshot_of (tp_next plan) s -> exists e, RebuildExpected s [] false = Ok e).
Proof.
  intros Hsha Hlaw. split.
  - intros st s batch Hinv Hs Hb. split.
    + intros (e & He). assert (Hb' : ts_activeBatch (state_ s) = Some batch) by (by rewrite (snapshot_state st s Hs)).
      destruct (RebuildExpected_inv s e batch Hb' He) as (plan & Hp & _). by eapply RebuildPlan_needs_owner.
    + intros Hown. apply (RebuildExpected_ok st s Hinv Hs Hsha Hlaw). intros b Hb2. congruence.
  - intros latest plan s Hinv Hv Hst Hs. apply (RebuildExpected_ok (tp_next plan) s); [by eapply batch_started_inv|done..|].
    intros batch Hb. by eapply batch_started_owner.
Qed.

(** ** Tasks and notifies pass the codec *)

Lemma snapshot_address st s m : snapshot_of st s -> m ∈ ts_members st -> ValidateMemberAddress (m_address m) = Ok tt.
Proof.
  intros Hs Hm. destruct (snapshot_of_inv st s Hs) as [Hp _]. pose proof (ps_address _ Hp m Hm) as Ha.
  unfold Snapshot.ValidateAddress in Ha. apply check_Ok in Ha as [[Hne _]%andb_prop Hc]%andb_prop.
  apply negb_true_iff, bool_decide_eq_false in Hne. unfold ValidateMemberAddress, NotifyKey, KeyHelper.ValidateAddress.
  rewrite bool_decide_false by done. by rewrite Hc.
Qed.

Lemma valid_change_ends st s type c : snapshot_of st s -> ValidateOwnerChange s type c = Ok tt ->
  ValidateMemberAddress (source_address c) = Ok tt /\ ValidateMemberAddress (mi_address (oc_target c)) = Ok tt /\
  source_address c <> EmptyString /\ mi_address (oc_target c) <> EmptyString.
Proof.
  intros Hs. unfold ValidateOwnerChange, source_address. destruct (oc_source c) as [i|]; [|done].
  intros ([] & _ & Hok)%bind_Ok. apply bind_Ok in Hok as (source & Hsrc & Hok). apply bind_Ok in Hok as (target & Htgt & _).
  pose proof (FindMemberByAddress_spec st s (mi_address i) Hs) as H1'. rewrite Hsrc in H1'. destruct H1' as [Hm1 <-].
  pose proof (FindMemberByAddress_spec st s (mi_address (oc_target c)) Hs) as H2'. rewrite Htgt in H2'. destruct H2' as [Hm2 <-].
  pose proof (snapshot_address st s _ Hs Hm1) as Ha1. pose proof (snapshot_address st s _ Hs Hm2) as Ha2.
  split_and!; [done|done|by eapply ValidateMemberAddress_nonempty..].
Qed.

Context `{Protobuf MigrateTaskPb} `{Protobuf DeleteNodeTaskPb}.

(** Serialization of the message of a task, without any check. *)
Definition serialize_task (task : TopologyTask) : res string :=
  match task with
  | TaskMigrate t => SerializeCanonical {| mtp_target_address := mt_targetAddress t; mtp_source_ranges := EncodeRanges (mt_sourceRanges t) |}
  | TaskDelete t => SerializeCanonical {| dtp_failed_address := dt_failedAddress t; dtp_recovery_ranges := EncodeRanges (dt_recoveryRanges t) |}
  end.

Lemma EncodeTask_passes task : 0 < task_epoch task -> String.prefix (task_id_prefix task) (task_id task) = true ->
  IsValidTaskId (task_id task) = true -> ValidateMemberAddress (task_executor task) = Ok tt ->
  ValidateMemberAddress (task_peer task) = Ok tt -> IsCanonicalRanges (task_ranges task) (task_executor task) = true ->
  EncodeTask task = serialize_task task.
Proof.
  intros He Hpre Hid Hx Hpe Hr.
  destruct task as [t|t]; cbn [task_epoch task_id_prefix task_id task_executor task_peer task_ranges] in *;
    unfold EncodeTask, EncodeMigrateTask, EncodeDeleteTask, ValidateTaskContext, ValidateTaskId, TaskKey;
    rewrite Hid; cbn [mbind res_bind]; rewrite (proj2 (check_Ok _ _ tt) Hpre); cbn [mbind res_bind];
    rewrite Hpe; cbn [mbind res_bind]; rewrite Hx; cbn [mbind res_bind]; rewrite Hr, andb_true_r;
    by rewrite (proj2 (check_Ok _ _ tt)) by lia.
Qed.

(** every materialized task is accepted by the repository codec: its id is a
    valid key in the context of its epoch, its addresses are canonical, its
    ranges are ordered, owned by the executor and at most
    [MAX_TOPOLOGY_TASK_RANGES]; what is left is the serialization itself. *)
Theorem materialized_tasks_encode st s e task : snapshot_of st s -> RebuildExpected s [] false = Ok e ->
  (forall data, is_ok (HashSHA256 data) = true) -> SHA256Laws -> task ∈ ed_tasks e ->
  IsValidTaskId (task_id task) = true /\ EncodeTask task = serialize_task task.
Proof.
  intros Hs Hok Hsha Hlaw Hin. destruct (ts_activeBatch (state_ s)) as [batch|] eqn:Hb.
  2:{ unfold RebuildExpected in Hok. rewrite Hb in Hok. cbn in Hok. injection Hok as <-. by apply not_elem_of_nil in Hin. }
  destruct (RebuildExpected_inv s e batch Hb Hok) as (plan & Hp & Hex).
  destruct (proj1 (expected_elem _ _ _ _ _ Hex) Hin) as (task' & Hin' & ->). clear Hin. rename Hin' into Hin.
  destruct (planned_task_ranges _ _ _ _ (fun c Hc => proj1 (ValidateOwnerChange_ordered _ _ _ (ex_valid _ _ _ _ Hex c Hc))) Hin)
    as (_ & Hne & Hlen & Hro).
  assert (He : task_epoch task' = ab_epoch batch /\ 0 < ab_epoch batch).
  { split; [|destruct (snapshot_of_inv st s Hs) as [Hpst _]; apply (ps_epoch _ Hpst);
             by rewrite (snapshot_state st s Hs) in Hb].
    apply elem_of_planned in Hin as (c & l & _ & _ & ->). apply change_task_ends. }
  destruct He as [He He0].
  assert (Hends : ValidateMemberAddress (task_executor task') = Ok tt /\ ValidateMemberAddress (task_peer task') = Ok tt /\
            task_executor task' <> EmptyString).
  { apply elem_of_planned in Hin as (c & l & Hc & _ & ->).
    destruct (valid_change_ends st s _ c Hs (ex_valid _ _ _ _ Hex c Hc)) as (A1 & A2 & A3 & A4).
    by destruct (ab_type batch). }
  destruct Hends as (Hx & Hpe & Hxe).
  assert (Hid : IsValidTaskId (BuildTaskId task') = true) by (apply BuildTaskId_valid; [lia|done]).
  assert (Hid' : task_id (with_id task') = BuildTaskId task') by (by destruct task'). rewrite Hid'. split; [done|].
  apply EncodeTask_passes; rewrite ?Hid'; [..|apply IsCanonicalRanges_iff]; try by destruct task'.
  - destruct task'; cbn in He |- *; lia.
  - destruct task'; apply prefix_app.
Qed.

(** The restart timestamps of the restarting members, by address; the last
    record of an address counts. *)
Definition restart_timestamps (records : list MembershipRecord) : list (string * Z) :=
  foldl (fun m r => if decide (mr_state r = LC_RESTARTING) then om_insert (mr_address r) (mr_timestamp r) m else m) [] records.

Lemma restart_loop records acc r : foldM restart_step acc records = Ok r ->
  r = (acc.1 ++ (mr_address <$> records),
       foldl (fun m x => if decide (mr_state x = LC_RESTARTING) then om_insert (mr_address x) (mr_timestamp x) m else m) acc.2 records).
Proof.
  revert acc. induction records as [|x records IH]; intros [rs m]; cbn [foldM foldl fst snd].
  { intros [= <-]. cbn. by rewrite app_nil_r. }
  intros (acc' & Hstep & Hrest)%bind_Ok. apply IH in Hrest as ->. unfold restart_step in Hstep. cbn [fst snd] in Hstep.
  apply bind_Ok in Hstep as ([] & _ & Hstep). rewrite fmap_cons. case_decide.
  - apply bind_Ok in Hstep as ([] & _ & [= <-]). cbn. by rewrite <-app_assoc.
  - injection Hstep as <-. cbn. by rewrite <-app_assoc.
Qed.

Lemma restart_timestamps_sorted records : om_sorted (restart_timestamps records).
Proof.
  unfold restart_timestamps. assert (Hgen : forall acc : list (string * Z), om_sorted acc -> om_sorted (foldl (fun m r =>
    if decide (mr_state r = LC_RESTARTING) then om_insert (mr_address r) (mr_timestamp r) m else m) acc records)).
  { induction records as [|r records IH]; intros acc Hacc; cbn [foldl]; [done|]. apply IH. case_decide; [by apply om_insert_sorted|done]. }
  apply Hgen. constructor.
Qed.

Context `{MapIteration} `{!MapIterationLaws} `{!ProtobufLaws TaskNotifyPb} `{!NotifyFieldOrder} `{!SHA256Laws}.

(** the notify written for a member decodes to the active batch and the ids of
    exactly the tasks that member executes, in order, and to the restart
    timestamps of every restarting member; a member with no task gets the
    restart timestamps alone. *)
Theorem member_notify_exact st s batch records e a v : snapshot_of st s -> ts_activeBatch st = Some batch ->
  RebuildExpected s records true = Ok e ->
  (forall f, f ∈ restart_timestamps records -> ascii_text f.1 = true /\ is_i64 f.2) ->
  BuildEncodedNotifyFor e a = Ok v ->
  DecodeNotify v = Ok {| tn_activeBatch := if is_empty (executed_by a (ed_tasks e)) then None else Some batch;
                         tn_taskIds := task_id <$> executed_by a (ed_tasks e);
                         tn_restartTimestampsByAddress := restart_timestamps records |}.
Proof.
  intros Hs Hb Hok Hfit Hv. assert (Hb' : ts_activeBatch (state_ s) = Some batch) by (by rewrite (snapshot_state st s Hs)).
  unfold RebuildExpected in Hok. rewrite Hb' in Hok. apply bind_Ok in Hok as (built & Hbuilt & Hok).
  apply bind_Ok in Hbuilt as (plan & _ & Hbuilt). apply BuildExpected_inv in Hbuilt as (batch' & Hb2 & Hex).
  assert (batch' = batch) as -> by congruence. cbn [negb] in Hok.
  apply bind_Ok in Hok as (acc & ->%restart_loop & Hok). apply bind_Ok in Hok as (w & Hw & [= <-]). cbn [fst snd] in Hw.
  fold (restart_timestamps records) in Hw. unfold BuildEncodedNotifyFor in Hv.
  apply bind_Ok in Hv as ([] & _ & Hv). cbn [ed_tasks ed_notifiesByAddress ed_canonicalRestartNotify] in *.
  rewrite (ex_notifies _ _ _ _ Hex), (proj2 (notifies_exact batch (ed_tasks built)) a) in Hv.
  assert (Hpart : exists part, default {| tn_activeBatch := None; tn_taskIds := []; tn_restartTimestampsByAddress := [] |}
      (notify_for batch (task_id <$> executed_by a (ed_tasks built))) = part /\
      tn_activeBatch part = (if is_empty (executed_by a (ed_tasks built)) then None else Some batch) /\
      tn_taskIds part = task_id <$> executed_by a (ed_tasks built)).
  { destruct (executed_by a (ed_tasks built)); by eexists. }
  destruct Hpart as (part & Hpart & Hpb & Hpi). rewrite Hpart in Hv. rewrite <-Hpb, <-Hpi.
  assert (He : 0 < ab_epoch batch /\ ab_epoch batch < 2 ^ 64).
  { destruct (snapshot_of_inv st s Hs) as [Hpst _]. pose proof (ps_epoch _ Hpst batch Hb). pose proof (ps_version _ Hpst).
    unfold INT64_MAX in *. lia. }
  apply notify_roundtrip_lemma; [apply restart_timestamps_sorted| |by apply ComposeNotify_encodes with w].
  split_and!; cbn [tn_activeBatch tn_taskIds tn_restartTimestampsByAddress].
  - intros b Hpa. rewrite Hpb in Hpa. destruct (is_empty _); [done|]. injection Hpa as <-. lia.
  - intros i Hi. rewrite Hpi in Hi. apply list_elem_of_fmap in Hi as (task & -> & [Hin _]%elem_of_filter_bool).
    destruct (proj1 (expected_elem _ _ _ _ _ Hex) Hin) as (task' & Hin' & ->).
    destruct (with_id_facts task' SCALE_OUT "" "" 0) as (_ & _ & _ & _ & _ & ->). apply BuildTaskId_ascii.
    apply elem_of_planned in Hin' as (c & l & _ & _ & ->). rewrite (proj2 (change_task_ends _ _ _ _ _)). lia.
  - done.
Qed.
End claims.

(** the bytes a task id is the digest of determine the task up to the order of
    its ranges, and the bytes of a business operation id determine its phase,
    its members and its ranges (a failure operation does not depend on its
    source): different work never shares a digest input. *)
Theorem seeds_injective :
  (forall task task', content_fits task -> content_fits task' -> task_seed task = task_seed task' ->
     task_content task = task_content task') /\
  (forall phase phase' f f', fence_fits f -> fence_fits f' -> operation_seed phase f = operation_seed phase' f' ->
     operation_content phase f = operation_content phase' f').
Proof. split; [exact task_seed_inj|exact operation_seed_inj]. Qed.

(** ** Witnesses *)

Import HashPlans.Demo SafetyDemo ReferenceEngine ReferenceDigest ReferenceWire.

Definition failing_C : TopologyState := {|
  ts_clusterHasInit := true; ts_version := 9;
  ts_members := [mk idA ACTIVE [100; 3000000000]; mk idB ACTIVE [2000; 4000000000]; mk idC FAILED [50; 2500000000]];
  ts_activeBatch := Some {| ab_type := FAILURE; ab_epoch := 9 |}; ts_tokensPerMember := 2 |}.

Lemma failing_C_inv : topology_inv failing_C.
Proof. apply topology_inv_intro. vm_compute. reflexivity. Qed.

Definition joining_record : list MembershipRecord :=
  [{| mr_address := mi_address idB; mr_state := LC_RESTARTING; mr_timestamp := 1700; mr_hostId := "" |};
   {| mr_address := mi_address idC; mr_state := LC_READY; mr_timestamp := 0; mr_hostId := "" |}].

(** The snapshot of a topology and the tasks rebuilt from it. *)
Definition demo_run (st : TopologyState) : res (TopologySnapshot * TopologyPlan * ExpectedDerivedState) :=
  s ← Create st 5 demo_digest ∅ true "c"; plan ← RebuildPlan s; e ← RebuildExpected s [] false; Ok (s, plan, e).

Lemma demo_run_inv st s plan e : demo_run st = Ok (s, plan, e) ->
  snapshot_of st s /\ RebuildPlan s = Ok plan /\ RebuildExpected s [] false = Ok e.
Proof.
  unfold demo_run. intros (s' & Hs & Hok)%bind_Ok. apply bind_Ok in Hok as (plan' & Hp & Hok).
  apply bind_Ok in Hok as (e' & He & [= <- <- <-]). split; [|done]. exists 5, demo_digest, ∅, true, "c"%string. exact Hs.
Qed.

Lemma scaling_out_runs : is_ok (demo_run scaling_out_C) = true.
Proof. vm_compute. reflexivity. Qed.
Lemma failing_runs : is_ok (demo_run failing_C) = true.
Proof. vm_compute. reflexivity. Qed.

Lemma demo_digests (data : string) : is_ok (HashSHA256 data) = true.
Proof. reflexivity. Qed.

Lemma migration_tasks_exact_witness : exists s e owner final, RebuildExpected s [] false = Ok e /\
  LocateOwner s (Hash "object-1") = Ok owner /\ LocateProspectiveOwner s (Hash "object-1") = Ok final.
Proof.
  pose proof scaling_out_runs as Hrun. destruct (demo_run scaling_out_C) as [[[s plan] e]|c] eqn:E; [|discriminate Hrun].
  destruct (demo_run_inv _ _ _ _ E) as (Hs & _ & He).
  destruct (migration_tasks_exact scaling_out_C s {| ab_type := SCALE_OUT; ab_epoch := 8 |} e "object-1" scaling_out_C_inv Hs
    eq_refl ltac:(discriminate) He) as (owner & final & Ho & Hf & _).
  exists s, e, owner, final. split; [exact He|]. split; [exact Ho|exact Hf].
Defined.

Lemma recovery_tasks_exact_witness : exists s e owner heir, RebuildExpected s [] false = Ok e /\
  ring_owner owned_before_failure (ts_members failing_C) (Hash "object-1") = Some owner /\
  ring_owner is_active (ts_members failing_C) (Hash "object-1") = Some heir.
Proof.
  pose proof failing_runs as Hrun. destruct (demo_run failing_C) as [[[s plan] e]|c] eqn:E; [|discriminate Hrun].
  destruct (demo_run_inv _ _ _ _ E) as (Hs & _ & He).
  destruct (recovery_tasks_exact failing_C s {| ab_type := FAILURE; ab_epoch := 9 |} e "object-1" failing_C_inv Hs
    eq_refl eq_refl ltac:(exists (mk idA ACTIVE [100; 3000000000]); split; [left|reflexivity]) He) as (owner & heir & Ho & Hh & _).
  exists s, e, owner, heir. split; [exact He|]. split; [exact Ho|exact Hh].
Defined.

Lemma materialize_total_witness : exists s e, snapshot_of scaling_out_C s /\ RebuildExpected s [] false = Ok e.
Proof.
  pose proof scaling_out_runs as Hrun. destruct (demo_run scaling_out_C) as [[[s plan] e]|c] eqn:E; [|discriminate Hrun].
  destruct (demo_run_inv _ _ _ _ E) as (Hs & _ & _). exists s.
  destruct (proj2 (proj1 (materialize_total demo_digests digest_laws) scaling_out_C s
    {| ab_type := SCALE_OUT; ab_epoch := 8 |} scaling_out_C_inv Hs eq_refl)) as [e' He'].
  - right. exists (mk idA ACTIVE [100; 3000000000]). split; [left|]. split; [reflexivity|discriminate].
  - exists e'. split; [exact Hs|exact He'].
Defined.

Lemma scaling_out_has_task : match demo_run scaling_out_C with Ok r => negb (is_empty (ed_tasks r.2)) | Err _ => false end = true.
Proof. vm_compute. reflexivity. Qed.

Lemma materialized_tasks_encode_witness : exists s e task, RebuildExpected s [] false = Ok e /\ task ∈ ed_tasks e /\
  IsValidTaskId (task_id task) = true.
Proof.
  pose proof scaling_out_has_task as Hrun. destruct (demo_run scaling_out_C) as [[[s plan] e]|c] eqn:E; [|discriminate Hrun].
  destruct (demo_run_inv _ _ _ _ E) as (Hs & _ & He). cbn [snd] in Hrun.
  destruct (ed_tasks e) as [|task tasks] eqn:Et; [discriminate Hrun|].
  assert (Hin : task ∈ ed_tasks e) by (rewrite Et; left). exists s, e, task. split; [exact He|]. split; [exact Hin|].
  exact (proj1 (materialized_tasks_encode scaling_out_C s e task Hs He demo_digests digest_laws Hin)).
Defined.

Lemma restart_notify_runs : is_ok (s ← Create scaling_out_C 5 demo_digest ∅ true "c";
  e ← RebuildExpected s joining_record true; BuildEncodedNotifyFor e (mi_address idA)) = true.
Proof. vm_compute. reflexivity. Qed.

Lemma member_notify_exact_witness : exists s e v, RebuildExpected s joining_record true = Ok e /\
  BuildEncodedNotifyFor e (mi_address idA) = Ok v /\ is_ok (DecodeNotify v) = true.
Proof.
  pose proof restart_notify_runs as Hrun.
  destruct (Create scaling_out_C 5 demo_digest ∅ true "c") as [s|c] eqn:Es; [|discriminate Hrun]. cbn [mbind res_bind] in Hrun.
  destruct (RebuildExpected s joining_record true) as [e|c] eqn:Ee; [|discriminate Hrun]. cbn [mbind res_bind] in Hrun.
  destruct (BuildEncodedNotifyFor e (mi_address idA)) as [v|c] eqn:Ev; [|discriminate Hrun].
  assert (Hs : snapshot_of scaling_out_C s) by (exists 5, demo_digest, ∅, true, "c"%string; exact Es).
  assert (Hfit : forall f, f ∈ restart_timestamps joining_record -> ascii_text f.1 = true /\ is_i64 f.2).
  { intros f Hf. apply list_elem_of_In in Hf. vm_compute in Hf. destruct Hf as [<-|[]]. split; [reflexivity|].
    unfold is_i64. cbn. lia. }
  exists s, e, v. split; [exact Ee|]. split; [exact Ev|].
  rewrite (member_notify_exact scaling_out_C s {| ab_type := SCALE_OUT; ab_epoch := 8 |} joining_record e (mi_address idA) v
    Hs eq_refl Ee Hfit Ev). reflexivity.
Defined.

Definition sample_task (peer : string) : TopologyTask := TaskDelete
  {| dt_taskId := ""; dt_epoch := 3; dt_executorAddress := "a"; dt_failedAddress := peer; dt_recoveryRanges := [] |}.

Lemma seeds_injective_witness : task_content (sample_task "b") = task_content (sample_task "b") /\ task_seed (sample_task "b") <> task_seed (sample_task "c").
Proof.
  split.
  - apply (proj1 seeds_injective); [..|reflexivity]; (split_and!; [split; cbn; lia..|]; split; [split; cbn; lia|]; intros r Hr; destruct (not_elem_of_nil _ Hr)).
  - vm_compute. discriminate.
Defined.
