(* ===== verification/SnapshotState.v ===== *)
(** * Snapshot publication

    src/datasystem/cluster/runtime/topology_snapshot_state.cpp: the published
    topology of a process, the completed part of a running scale-out hand-off,
    and the readers with their thread-local cache.  Operations that hold
    [publicationSync_->mutex] are one transition; the two atomic writes of a
    publication, [store_current] and [bump_generation], are separate so that
    readers, which take no lock, can be interleaved between them. *)

From S2P Require Import Prelude Ordered TopologyTypes HashRing BalancedRing TokenPlacement HostPort KeyHelper Hasher.
From S2P Require Import RingTheory HashAlgorithm OwnerSpec PlanningInterface HashPlans Snapshot TaskMaterializer.

Inductive SnapshotUpdateOutcome := PUBLISHED | IDEMPOTENT | VERSION_GAP | CONFLICT | VERSION_ROLLBACK.
#[global] Instance SnapshotUpdateOutcome_eq_dec : EqDecision SnapshotUpdateOutcome.
Proof. solve_decision. Defined.

Record ScaleOutHandoffCompletion := { hc_batchEpoch : Z; hc_ranges : list TokenRange }.

(** A null [shared_ptr] is [None]; [instanceId_] tells apart two states that reuse one address. *)
Record TopologySnapshotState := {
  current_ : option TopologySnapshot;
  scaleOutHandoffCompletion_ : option ScaleOutHandoffCompletion;
  instanceId_ : Z;
  publicationGeneration_ : Z
}.

Definition new_TopologySnapshotState (instanceId : Z) : TopologySnapshotState :=
  {| current_ := None; scaleOutHandoffCompletion_ := None; instanceId_ := instanceId; publicationGeneration_ := 0 |}.

Definition store_current (snapshot : option TopologySnapshot) (st : TopologySnapshotState) : TopologySnapshotState :=
  {| current_ := snapshot; scaleOutHandoffCompletion_ := scaleOutHandoffCompletion_ st;
     instanceId_ := instanceId_ st; publicationGeneration_ := publicationGeneration_ st |}.

Definition bump_generation (st : TopologySnapshotState) : TopologySnapshotState :=
  {| current_ := current_ st; scaleOutHandoffCompletion_ := scaleOutHandoffCompletion_ st;
     instanceId_ := instanceId_ st; publicationGeneration_ := u64 (publicationGeneration_ st + 1) |}.

Definition store_completion (completion : option ScaleOutHandoffCompletion) (st : TopologySnapshotState) : TopologySnapshotState :=
  {| current_ := current_ st; scaleOutHandoffCompletion_ := completion;
     instanceId_ := instanceId_ st; publicationGeneration_ := publicationGeneration_ st |}.

Definition publish_current (snapshot : TopologySnapshot) (st : TopologySnapshotState) : TopologySnapshotState :=
  bump_generation (store_current (Some snapshot) st).

Definition GetActiveBatch (s : TopologySnapshot) : option ActiveBatch := ts_activeBatch (state_ s).

(** ** Merging ranges *)

Definition separated (back range : TokenRange) : bool :=
  negb (tr_end back =? UINT32_MAX) && (u32 (tr_end back + 1) <? tr_from range).

Definition merge_step (merged : list TokenRange) (range : TokenRange) : list TokenRange :=
  match last merged with
  | None => merged ++ [range]
  | Some back =>
      if separated back range then merged ++ [range]
      else removelast merged ++ [{| tr_from := tr_from back; tr_end := Z.max (tr_end back) (tr_end range) |}]
  end.

Definition MergeRanges (ranges : list TokenRange) : list TokenRange := foldl merge_step [] (sort_ranges ranges).

(** ** The hand-off of a scale-out *)

Definition scale_out_epoch (batch : option ActiveBatch) : option Z :=
  match batch with Some b => if decide (ab_type b = SCALE_OUT) then Some (ab_epoch b) else None | None => None end.

Definition ResetScaleOutHandoffIfBatchChanged (snapshot : TopologySnapshot) (st : TopologySnapshotState) : TopologySnapshotState :=
  match scaleOutHandoffCompletion_ st with
  | Some completion =>
      if decide (scale_out_epoch (GetActiveBatch snapshot) = Some (hc_batchEpoch completion)) then st
      else store_completion None st
  | None => st
  end.

Definition RecordScaleOutHandoffCompletion (fence : TopologyExecutionFence) (st : TopologySnapshotState) : TopologySnapshotState :=
  if bool_decide (ef_batchType fence = SCALE_OUT) && bool_decide (ef_phase fence = PH_SCALE_OUT)
     && negb (is_empty (ef_ranges fence))
  then
    match current_ st with
    | None => st
    | Some current =>
        if decide (scale_out_epoch (GetActiveBatch current) = Some (ef_batchEpoch fence)) then
          let ranges :=
            match scaleOutHandoffCompletion_ st with
            | Some previous =>
                if hc_batchEpoch previous =? ef_batchEpoch fence then ef_ranges fence ++ hc_ranges previous else ef_ranges fence
            | None => ef_ranges fence
            end in
          store_completion (Some {| hc_batchEpoch := ef_batchEpoch fence; hc_ranges := MergeRanges ranges |}) st
        else st
    end
  else st.

Definition IsScaleOutHandoffComplete (batchEpoch token : Z) (st : TopologySnapshotState) : bool :=
  match scaleOutHandoffCompletion_ st with
  | None => false
  | Some completed =>
      if (batchEpoch =? 0) || negb (hc_batchEpoch completed =? batchEpoch) then false
      else match drop_while (fun r => tr_end r <? token) (hc_ranges completed) with
           | r :: _ => tr_from r <=? token
           | [] => false
           end
  end.

(** ** Publication *)

Section Publication.
Context `{RE2, SHA256}.

(** The host ids of the members of the candidate that the previous snapshot already had. *)
Definition retained_host (previous : TopologySnapshot) (hostIds : gmap string string) (member : Member) : gmap string string :=
  match hostIds_ previous !! m_address member, FindMemberByAddress (m_address member) previous with
  | Some host, Ok oldMember =>
      if bool_decide (m_id oldMember = m_id member) then
        match hostIds !! m_address member with Some _ => hostIds | None => <[m_address member := host]> hostIds end
      else hostIds
  | _, _ => hostIds
  end.

Definition RetainLastGoodHostIds (previous : option TopologySnapshot) (candidate : TopologySnapshot) : res TopologySnapshot :=
  match previous with
  | None => Ok candidate
  | Some previous =>
      if hostIdsKnown_ candidate || negb (hostIdsKnown_ previous) then Ok candidate
      else Create (state_ candidate) (authorityRevision_ candidate) (canonicalDigest_ candidate)
             (foldl (retained_host previous) ∅ (Members candidate)) (hostIdsKnown_ previous) (coordinatorId_ candidate)
  end.

Definition RefreshHostIds (hostIds : gmap string string) (coordinatorId : string) (st : TopologySnapshotState)
    : TopologySnapshotState * res unit :=
  match current_ st with
  | None => (st, Ok tt)
  | Some current =>
      if negb (bool_decide (coordinatorId_ current = coordinatorId)) then (st, Ok tt)
      else if hostIdsKnown_ current && bool_decide (hostIds_ current = hostIds) then (st, Ok tt)
      else match Create (state_ current) (authorityRevision_ current) (canonicalDigest_ current) hostIds true coordinatorId with
           | Err code => (st, Err code)
           | Ok candidate => (publish_current candidate st, Ok tt)
           end
  end.

(** The status and, when it was assigned, the outcome. *)
Definition Publish (snapshot : option TopologySnapshot) (st : TopologySnapshotState)
    : TopologySnapshotState * res unit * option SnapshotUpdateOutcome :=
  match snapshot with
  | None => (st, Err K_INVALID, None)
  | Some snapshot =>
      let advance :=
        match RetainLastGoodHostIds (current_ st) snapshot with
        | Err code => (st, Err code, None)
        | Ok snapshot => (publish_current snapshot (ResetScaleOutHandoffIfBatchChanged snapshot st), Ok tt, Some PUBLISHED)
        end in
      match current_ st with
      | None => advance
      | Some current =>
          if Version snapshot =? u64 (Version current + 1) then advance
          else if Version snapshot <? Version current then (st, Err K_INVALID, Some VERSION_ROLLBACK)
          else if Version current <? Version snapshot then (st, Err K_INVALID, Some VERSION_GAP)
          else if bool_decide (canonicalDigest_ snapshot = canonicalDigest_ current) then
            if negb (bool_decide (coordinatorId_ snapshot = coordinatorId_ current))
               || negb (authorityRevision_ snapshot =? authorityRevision_ current)
               || (hostIdsKnown_ snapshot
                   && (negb (bool_decide (hostIds_ snapshot = hostIds_ current)) || negb (hostIdsKnown_ current)))
            then match RetainLastGoodHostIds (Some current) snapshot with
                 | Err code => (st, Err code, None)
                 | Ok snapshot => (publish_current snapshot st, Ok tt, Some IDEMPOTENT)
                 end
            else (st, Ok tt, Some IDEMPOTENT)
          else (st, Err K_INVALID, Some CONFLICT)
      end
  end.

Definition PublishAfterFullRebuild (snapshot : option TopologySnapshot) (st : TopologySnapshotState)
    : TopologySnapshotState * res unit :=
  match snapshot with
  | None => (st, Err K_INVALID)
  | Some snapshot =>
      if match current_ st with None => true | Some current => Version current <? Version snapshot end then
        match RetainLastGoodHostIds (current_ st) snapshot with
        | Err code => (st, Err code)
        | Ok snapshot => (publish_current snapshot (ResetScaleOutHandoffIfBatchChanged snapshot st), Ok tt)
        end
      else (st, Err K_INVALID)
  end.

End Publication.

Definition Clear (st : TopologySnapshotState) : TopologySnapshotState :=
  bump_generation (store_completion None (store_current None st)).

(** [authorize] is the callback; a null one is [None]. *)
Definition AuthorizeCleanupIfCurrent (expected : TopologySnapshot) (authorize : option (res unit)) (st : TopologySnapshotState)
    : res unit :=
  match authorize with
  | None => Err K_INVALID
  | Some authorized =>
      match current_ st with
      | Some current =>
          if (Version current =? Version expected) && bool_decide (canonicalDigest_ current = canonicalDigest_ expected)
          then authorized else Err K_INVALID
      | None => Err K_INVALID
      end
  end.

(** ** Readers *)

(** The thread-local cache of one reader; [tc_instance] stands for the owner pointer and its instance id. *)
Record ThreadSnapshotCache := { tc_instance : Z; tc_generation : Z; tc_snapshot : option TopologySnapshot }.
Definition new_ThreadSnapshotCache : ThreadSnapshotCache := {| tc_instance := 0; tc_generation := 0; tc_snapshot := None |}.

(** The snapshot the cache still holds for this state and [generation]; [alive] tells whether its weak pointer
    can be locked. *)
Definition cached_snapshot (generation : Z) (alive : bool) (st : TopologySnapshotState) (cache : ThreadSnapshotCache)
    : option TopologySnapshot :=
  if (tc_instance cache =? instanceId_ st) && (tc_generation cache =? generation) && alive then tc_snapshot cache else None.

(** [generation] is what the load of [publicationGeneration_] returned and [st] the state when [current_] is
    loaded after it. *)
Definition Load (generation : Z) (alive : bool) (st : TopologySnapshotState) (cache : ThreadSnapshotCache)
    : ThreadSnapshotCache * res TopologySnapshot :=
  match cached_snapshot generation alive st cache with
  | Some current => (cache, Ok current)
  | None =>
      ({| tc_instance := instanceId_ st; tc_generation := generation; tc_snapshot := current_ st |},
       match current_ st with Some current => Ok current | None => Err K_NOT_READY end)
  end.

(** What one turn of the wait loop sees: the state under the mutex, the clock, and how the wait ended with the
    state after it.  The wait returns 0, [ETIMEDOUT] or another error. *)
Inductive WaitStatus := Notified | TimedOut | WaitFailed.
Record WaitTurn := { wt_state : TopologySnapshotState; wt_now : Z; wt_status : WaitStatus; wt_after : TopologySnapshotState }.

Definition version_ready (minimumVersion : Z) (st : TopologySnapshotState) : option TopologySnapshot :=
  match current_ st with
  | Some current => if minimumVersion <=? Version current then Some current else None
  | None => None
  end.

(** [None] while the loop is still waiting. *)
Fixpoint wait_loop (minimumVersion deadline : Z) (turns : list WaitTurn) : option (res TopologySnapshot) :=
  match turns with
  | [] => None
  | turn :: turns =>
      match version_ready minimumVersion (wt_state turn) with
      | Some snapshot => Some (Ok snapshot)
      | None =>
          if deadline <=? wt_now turn then Some (Err K_TRY_AGAIN)
          else match wt_status turn with
               | Notified => wait_loop minimumVersion deadline turns
               | TimedOut =>
                   match version_ready minimumVersion (wt_after turn) with
                   | None => Some (Err K_TRY_AGAIN)
                   | Some _ => wait_loop minimumVersion deadline turns
                   end
               | WaitFailed => Some (Err K_RUNTIME_ERROR)
               end
      end
  end.

Definition WaitForVersion (minimumVersion deadline : Z) (turns : list WaitTurn) : option (res TopologySnapshot) :=
  if 0 <? minimumVersion then wait_loop minimumVersion deadline turns else Some (Err K_INVALID).
