(* ===== verification/PublicationTheory.v ===== *)
(** * Snapshot publication: invariants

    Merged ranges denote the union of what was recorded; the published version
    never goes back and determines the digest; a recorded hand-off belongs to
    the running scale-out; a reader never sees a snapshot older than the last
    completed publication. *)

From stdpp Require Import sorting.
From S2P Require Import Prelude Ordered TopologyTypes HashRing BalancedRing TokenPlacement HostPort KeyHelper Hasher.
From S2P Require Import RingTheory HashAlgorithm OwnerSpec PlanningInterface HashPlans Snapshot RepositoryCodec.
From S2P Require Import MembershipTypes TaskMaterializer MaterializerTheory SnapshotState.

(** ** Merged ranges *)

(** Non-empty ranges of 32-bit tokens. *)
Definition ranges_u32 (ranges : list TokenRange) : Prop :=
  forall r, r ∈ ranges -> 0 <= tr_from r /\ tr_from r <= tr_end r /\ tr_end r <= UINT32_MAX.

Lemma ranges_u32_app l l' : ranges_u32 l -> ranges_u32 l' -> ranges_u32 (l ++ l').
Proof. intros H H' r [?|?]%elem_of_app; auto. Qed.

(** What the loop has built from the ranges [pre], in order of their starts. *)
Record merged_from (pre merged : list TokenRange) : Prop := {
  mf_ordered : ordered_ranges merged;
  mf_u32 : ranges_u32 merged;
  mf_union t : in_ranges t merged = in_ranges t pre;
  mf_start b : last merged = Some b -> exists r, r ∈ pre /\ tr_from r = tr_from b
}.

Lemma in_ranges_app t l l' : in_ranges t (l ++ l') = in_ranges t l || in_ranges t l'.
Proof. apply existsb_app. Qed.

Lemma in_ranges_one t r : in_ranges t [r] = in_range_b t r.
Proof. unfold in_ranges. cbn. apply orb_false_r. Qed.

Lemma ordered_ranges_snoc l r : ordered_ranges (l ++ [r]) <->
  ordered_ranges l /\ tr_from r <= tr_end r /\ forall b, last l = Some b -> tr_end b < tr_from r.
Proof.
  split.
  - intros Ho. pose proof (or_each _ Ho r ltac:(apply elem_of_app; right; left)).
    apply ordered_ranges_app in Ho as (H1 & _ & H2). split_and!; [done..|].
    intros b Hb%last_Some_elem_of. by apply H2; [|left].
  - intros (Ho & Hr & Hb). revert Hb. induction l as [|x l IH]; intros Hb; cbn [app].
    { apply ordered_ranges_cons. split_and!; [done..|no_elem]. }
    apply ordered_ranges_cons in Ho as (H1 & H2 & H3). apply ordered_ranges_cons. split_and!; [done|..].
    + apply IH; [done|]. intros b Hl. apply Hb. destruct l; [done|exact Hl].
    + intros r' [Hr'| ->%list_elem_of_singleton]%elem_of_app; [by apply H3|].
      destruct (last l) as [b|] eqn:El.
      * pose proof (H3 b (last_Some_elem_of _ _ El)) as Hlt. pose proof (or_each _ H2 b (last_Some_elem_of _ _ El)).
        specialize (Hb b). rewrite last_cons, El in Hb. specialize (Hb eq_refl). lia.
      * apply Hb. by rewrite last_cons, El.
Qed.

Lemma merge_step_spec pre merged r : merged_from pre merged -> ranges_u32 [r] ->
  (forall p, p ∈ pre -> tr_from p <= tr_from r) -> merged_from (pre ++ [r]) (merge_step merged r).
Proof.
  intros [Ho Hu Hun Hst] Hr Hle. specialize (Hr r ltac:(by apply list_elem_of_singleton)). unfold merge_step.
  destruct (last merged) as [b|] eqn:El.
  2: { apply last_None in El as ->. cbn [app]. split.
    - apply ordered_ranges_cons. split_and!; [lia|done|no_elem].
    - intros r' ->%list_elem_of_singleton. lia.
    - intros t. rewrite in_ranges_app, <- Hun. done.
    - intros b [= <-]. exists r. split; [apply elem_of_app; right; left|done]. }
  apply last_Some in El as [l ->]. destruct (Hst b eq_refl) as (p & Hp & Hpb).
  pose proof (Hu b ltac:(apply elem_of_app; right; left)) as Hb. specialize (Hle p Hp).
  destruct (separated b r) eqn:Es; unfold separated in Es.
  - apply andb_prop in Es as [Es1 Es2]. rewrite u32_small in Es2 by (unfold is_u32, UINT32_MAX in *; lia). split.
    + apply ordered_ranges_snoc. split_and!; [done|lia|]. rewrite last_snoc. intros b' [= <-]. lia.
    + apply ranges_u32_app; [done|]. intros r' ->%list_elem_of_singleton. lia.
    + intros t. by rewrite !in_ranges_app, <- Hun, in_ranges_app.
    + intros b'. rewrite last_snoc. intros [= <-]. exists r. split; [apply elem_of_app; right; left|done].
  - assert (Hcl : tr_from r <= tr_end b + 1).
    { apply andb_false_iff in Es as [Es|Es]; [lia|]. destruct (Z.eq_dec (tr_end b) UINT32_MAX); [lia|].
      rewrite u32_small in Es by (unfold is_u32, UINT32_MAX in *; lia). lia. }
    rewrite removelast_snoc. apply ordered_ranges_snoc in Ho as (Hl & _ & Hlast). split.
    + apply ordered_ranges_snoc. split_and!; [done|cbn; lia|]. intros b' Hb'. cbn. by apply Hlast.
    + apply ranges_u32_app; [intros r' ?; apply Hu, elem_of_app; by left|]. intros r' ->%list_elem_of_singleton. cbn. lia.
    + intros t. rewrite !in_ranges_app, <- Hun, in_ranges_app, !in_ranges_one, <- orb_assoc. f_equal.
      unfold in_range_b. cbn. apply eq_true_iff_eq. rewrite orb_true_iff, !andb_true_iff, !Z.leb_le. lia.
    + intros b'. rewrite last_snoc. intros [= <-]. cbn. exists p. split; [apply elem_of_app; by left|done].
Qed.

Lemma ltk_range_key p r : key_le range_key p r -> tr_from p <= tr_from r.
Proof.
  unfold key_le. intros Hk. change (ltk (range_key r) (range_key p)) with
    ((tr_from r <? tr_from p) || (negb (tr_from p <? tr_from r) && (tr_end r <? tr_end p))) in Hk. lia.
Qed.

Lemma MergeRanges_spec ranges : ranges_u32 ranges ->
  ordered_ranges (MergeRanges ranges) /\ ranges_u32 (MergeRanges ranges) /\
  forall t, in_ranges t (MergeRanges ranges) = in_ranges t ranges.
Proof.
  intros Hu. unfold MergeRanges, sort_ranges.
  assert (Hu' : ranges_u32 (sort_on range_key ranges)) by (intros r Hr%elem_of_sort_on; by apply Hu).
  pose proof (sort_on_sorted range_key ranges) as Hs.
  cut (merged_from (sort_on range_key ranges) (foldl merge_step [] (sort_on range_key ranges))).
  { intros [H1 H2 H3 _]. split_and!; [done..|]. intros t. rewrite H3. apply in_ranges_perm, sort_on_perm. }
  revert Hu' Hs. generalize (sort_on range_key ranges) as l. intros l. induction l as [|r l IH] using rev_ind; intros Hul Hs.
  - split; [split; [no_elem|constructor]|no_elem|done|done].
  - rewrite foldl_app. cbn [foldl]. apply StronglySorted_app in Hs as (Hle & Hs & _).
    apply merge_step_spec; [apply IH; [intros r' ?; apply Hul, elem_of_app; by left|done]|..].
    + intros r' Hr'. apply Hul, elem_of_app. by right.
    + intros p Hp. specialize (Hle p r Hp ltac:(left)). apply ltk_range_key in Hle. lia.
Qed.

(** ** Published snapshots *)

Section Publications.
Context `{RE2, SHA256}.

Definition published (s : TopologySnapshot) : Prop := exists st, snapshot_of st s.

(** The same topology, possibly with other host ids. *)
Record same_topology (s s' : TopologySnapshot) : Prop := {
  st_state : state_ s' = state_ s;
  st_digest : canonicalDigest_ s' = canonicalDigest_ s;
  st_revision : authorityRevision_ s' = authorityRevision_ s
}.

Lemma same_topology_refl s : same_topology s s.
Proof. by split. Qed.

Lemma snapshot_fixed st s : snapshot_of st s -> persistable (state_ s) /\ sort_members (state_ s) = state_ s.
Proof.
  intros (Hp & ? & ? & ? & ? & ? & ? & ->)%snapshot_of_inv. cbn. split; [by apply persistable_sort|].
  by apply sort_members_perm; [apply sort_on_perm|].
Qed.

Lemma recreate_spec s hostIds known coordinator s' : published s ->
  Create (state_ s) (authorityRevision_ s) (canonicalDigest_ s) hostIds known coordinator = Ok s' ->
  published s' /\ same_topology s s' /\ hostIds_ s' = hostIds /\ hostIdsKnown_ s' = known /\ coordinatorId_ s' = coordinator.
Proof.
  intros [st [Hp Hsort]%snapshot_fixed] Hc. split; [by exists (state_ s), (authorityRevision_ s), (canonicalDigest_ s), hostIds, known, coordinator|].
  unfold Create in Hc. apply bind_Ok in Hc as (u & _ & Hc). apply bind_Ok in Hc as (st' & [_ ->]%canonicalize_iff & Hc).
  apply bind_Ok in Hc as (hd & _ & [= <-]). rewrite Hsort. done.
Qed.

Lemma retained_hosts previous ms : forall hosts a, NoDup ((fun m => m_address m) <$> ms) ->
  (forall m, m ∈ ms -> hosts !! m_address m = None) ->
  foldl (retained_host previous) hosts ms !! a =
    match list_find (fun m => m_address m = a) ms with
    | Some (_, m) =>
        match FindMemberByAddress a previous with
        | Ok oldMember => if bool_decide (m_id oldMember = m_id m) then hostIds_ previous !! a else None
        | Err _ => None
        end
    | None => hosts !! a
    end.
Proof.
  induction ms as [|m ms IH]; intros hosts a Hnd Hno; [done|]. apply NoDup_cons in Hnd as [Hm Hnd].
  assert (Hne : forall m', m' ∈ ms -> m_address m' <> m_address m).
  { intros m' Hm' He. apply Hm. rewrite <- He. by apply (list_elem_of_fmap_2 (fun m => m_address m)). }
  assert (Hstep : retained_host previous hosts m =
    match FindMemberByAddress (m_address m) previous with
    | Ok oldMember => if bool_decide (m_id oldMember = m_id m) then
        match hostIds_ previous !! m_address m with Some h => <[m_address m := h]> hosts | None => hosts end else hosts
    | Err _ => hosts
    end).
  { unfold retained_host. rewrite (Hno m) by left. destruct (hostIds_ previous !! m_address m), (FindMemberByAddress _ _); try done.
    by destruct (bool_decide _). }
  assert (Hother : forall b, b <> m_address m -> retained_host previous hosts m !! b = hosts !! b).
  { intros b Hb. rewrite Hstep. repeat case_match; try done; by rewrite lookup_insert_ne. }
  cbn [foldl]. rewrite IH by (done || intros m' Hm'; rewrite Hother by (by apply Hne); apply Hno; by right).
  cbn [list_find]. destruct (decide (m_address m = a)) as [Ha|Ha].
  - destruct (list_find _ ms) as [[i m']|] eqn:Ef.
    { apply list_find_Some in Ef as (Hm' & He & _). exfalso. by apply (Hne m'), eq_trans with a; [eapply list_elem_of_lookup_2|..]. }
    subst a. rewrite Hstep. cbn.
    destruct (FindMemberByAddress _ _) as [o|]; [|apply Hno; left]. destruct (bool_decide _); [|apply Hno; left].
    destruct (hostIds_ previous !! _); [apply lookup_insert_eq|apply Hno; left].
  - destruct (list_find _ ms) as [[i m']|]; cbn; [done|]. by apply Hother.
Qed.

Lemma RetainLastGoodHostIds_spec previous candidate s : published candidate ->
  RetainLastGoodHostIds previous candidate = Ok s -> published s /\ same_topology candidate s.
Proof.
  intros Hp. unfold RetainLastGoodHostIds. destruct previous as [previous|]; [|intros [= <-]; auto using same_topology_refl].
  destruct (hostIdsKnown_ candidate || _); [intros [= <-]; auto using same_topology_refl|].
  intros (H1 & H2 & _)%recreate_spec; auto.
Qed.

(** ** Sequences of operations *)

Inductive PublicationOp :=
  | OpPublish (snapshot : option TopologySnapshot)
  | OpRebuild (snapshot : option TopologySnapshot)
  | OpRefresh (hostIds : gmap string string) (coordinatorId : string)
  | OpRecord (fence : TopologyExecutionFence)
  | OpClear.

Definition apply_op (st : TopologySnapshotState) (op : PublicationOp) : TopologySnapshotState :=
  match op with
  | OpPublish snapshot => (Publish snapshot st).1.1
  | OpRebuild snapshot => (PublishAfterFullRebuild snapshot st).1
  | OpRefresh hostIds coordinatorId => (RefreshHostIds hostIds coordinatorId st).1
  | OpRecord fence => RecordScaleOutHandoffCompletion fence st
  | OpClear => Clear st
  end.

(** Published snapshots whose digest identifies their topology, and fences with well-formed ranges. *)
Definition op_valid (content : string -> TopologyState) (op : PublicationOp) : Prop :=
  match op with
  | OpPublish (Some s) | OpRebuild (Some s) => published s /\ state_ s = content (canonicalDigest_ s)
  | OpRecord fence => ranges_u32 (ef_ranges fence)
  | _ => True
  end.

Definition current_ok (content : string -> TopologyState) (st : TopologySnapshotState) : Prop :=
  forall s, current_ st = Some s -> published s /\ state_ s = content (canonicalDigest_ s).

(** How one operation may change the published snapshot. *)
Inductive current_change (content : string -> TopologyState) (st st' : TopologySnapshotState) : Prop :=
  | change_none : current_ st' = current_ st -> scaleOutHandoffCompletion_ st' = scaleOutHandoffCompletion_ st ->
      current_change content st st'
  | change_hosts s s' : current_ st = Some s -> current_ st' = Some s' -> state_ s' = state_ s ->
      canonicalDigest_ s' = canonicalDigest_ s -> published s' ->
      scaleOutHandoffCompletion_ st' = scaleOutHandoffCompletion_ st -> current_change content st st'
  | change_version s' : (forall s, current_ st = Some s -> Version s < Version s') -> current_ st' = Some s' ->
      published s' -> state_ s' = content (canonicalDigest_ s') ->
      st' = publish_current s' (ResetScaleOutHandoffIfBatchChanged s' st) -> current_change content st st'.

Lemma published_version s : published s -> 0 < Version s <= INT64_MAX.
Proof. intros [st [Hp _]%snapshot_fixed]. apply (ps_version _ Hp). Qed.

Lemma Reset_current s st : current_ (ResetScaleOutHandoffIfBatchChanged s st) = current_ st.
Proof. unfold ResetScaleOutHandoffIfBatchChanged. destruct (scaleOutHandoffCompletion_ st); [|done]. by case_decide. Qed.

Section change.
Context (content : string -> TopologyState).

Lemma advance_change s s' st : (forall c, current_ st = Some c -> Version c < Version s) ->
  published s -> state_ s = content (canonicalDigest_ s) -> RetainLastGoodHostIds (current_ st) s = Ok s' ->
  current_change content st (publish_current s' (ResetScaleOutHandoffIfBatchChanged s' st)).
Proof.
  intros Hv Hp Hc Hr. destruct (RetainLastGoodHostIds_spec _ _ _ Hp Hr) as [Hp' [Hs Hd _]].
  apply change_version with s'; [|done|done|by rewrite Hs, Hd|done]. unfold Version. rewrite Hs. exact Hv.
Qed.

Lemma Publish_change s st : current_ok content st -> op_valid content (OpPublish s) ->
  current_change content st (Publish s st).1.1.
Proof.
  intros Hok Hv. unfold Publish. destruct s as [s|]; [|by apply change_none]. cbn in Hv. destruct Hv as [Hp Hc].
  destruct (current_ st) as [c|] eqn:Ec.
  2: { destruct (RetainLastGoodHostIds None s) as [s'|code] eqn:Er; [|by apply change_none].
       apply advance_change with s; [congruence|done|done|by rewrite Ec]. }
  pose proof (published_version s Hp). destruct (Hok c Ec) as [Hpc Hcc]. pose proof (published_version c Hpc).
  destruct (_ =? _) eqn:E1.
  { destruct (RetainLastGoodHostIds (Some c) s) as [s'|code] eqn:Er; [|by apply change_none].
    apply advance_change with s; [|done|done|by rewrite Ec]. intros c' [= <-]%(eq_trans (eq_sym Ec)).
    rewrite u64_small in E1 by (unfold INT64_MAX in *; lia). lia. }
  destruct (Version s <? _) eqn:E2; [by apply change_none|]. destruct (Version c <? _) eqn:E3; [by apply change_none|].
  case_bool_decide as Hd; [|by apply change_none]. destruct (_ || _); [|by apply change_none].
  destruct (RetainLastGoodHostIds _ s) as [s'|code] eqn:Er; [|by apply change_none].
  destruct (RetainLastGoodHostIds_spec _ _ _ Hp Er) as [Hp' [Hs Hd' _]].
  apply change_hosts with c s'; cbn; try done; [by rewrite Hs, Hc, Hcc, Hd|by rewrite Hd', Hd].
Qed.

Lemma PublishAfterFullRebuild_change s st : current_ok content st -> op_valid content (OpRebuild s) ->
  current_change content st (PublishAfterFullRebuild s st).1.
Proof.
  intros Hok Hv. unfold PublishAfterFullRebuild. destruct s as [s|]; [|by apply change_none]. cbn in Hv. destruct Hv as [Hp Hc].
  destruct (match current_ st with None => true | _ => _ end) eqn:E1; [|by apply change_none].
  destruct (RetainLastGoodHostIds (current_ st) s) as [s'|code] eqn:Er; [|by apply change_none].
  apply advance_change with s; [|done..]. intros c Ec. rewrite Ec in E1. lia.
Qed.

Lemma RefreshHostIds_change hostIds coordinatorId st : current_ok content st ->
  current_change content st (RefreshHostIds hostIds coordinatorId st).1.
Proof.
  intros Hok. unfold RefreshHostIds. destruct (current_ st) as [c|] eqn:Ec; [|by apply change_none].
  destruct (negb _); [by apply change_none|]. destruct (_ && _); [by apply change_none|].
  destruct (Create _ _ _ _ _ _) as [s'|code] eqn:Er; [|by apply change_none].
  apply recreate_spec in Er as (Hp & [Hs Hd _] & _); [|by apply Hok]. by apply change_hosts with c s'.
Qed.

Lemma current_change_ok st st' : current_ok content st -> current_change content st st' -> current_ok content st'.
Proof.
  intros Hok [He _|s s' Hs He Hst Hd Hp _|s' _ He Hp Hc _] c Hc'; rewrite He in Hc'.
  - by apply Hok.
  - injection Hc' as <-. split; [done|]. rewrite Hst, Hd. by apply Hok.
  - by injection Hc' as <-.
Qed.

Lemma Record_current fence st : current_ (RecordScaleOutHandoffCompletion fence st) = current_ st.
Proof.
  unfold RecordScaleOutHandoffCompletion. destruct (_ && _); [|done]. destruct (current_ st) as [c|] eqn:Ec; [|by rewrite Ec].
  case_decide; [|done]. by cbn.
Qed.

Lemma apply_op_ok st op : current_ok content st -> op_valid content op -> current_ok content (apply_op st op).
Proof.
  intros Hok Hv. destruct op as [s|s|h c|f|]; cbn [apply_op].
  - eapply current_change_ok; [done|by apply Publish_change].
  - eapply current_change_ok; [done|by apply PublishAfterFullRebuild_change].
  - eapply current_change_ok; [done|by apply RefreshHostIds_change].
  - intros s. rewrite Record_current. apply Hok.
  - done.
Qed.

(** *** Versions *)

(** [s'] is the same topology as [s] or a later one. *)
Definition advances (s s' : TopologySnapshot) : Prop :=
  Version s < Version s' \/ (state_ s' = state_ s /\ canonicalDigest_ s' = canonicalDigest_ s).

Lemma advances_trans s1 s2 s3 : advances s1 s2 -> advances s2 s3 -> advances s1 s3.
Proof.
  unfold advances, Version. intros [H1|[H1 D1]] [H2|[H2 D2]].
  - left. lia.
  - left. by rewrite H2.
  - left. by rewrite <- H1.
  - right. split; congruence.
Qed.

Lemma change_advances st st' s : current_change content st st' -> current_ st = Some s ->
  exists s', current_ st' = Some s' /\ advances s s'.
Proof.
  intros [He _|s1 s' Hs He Hst Hd Hp _|s' Hv He Hp Hc _] Hs'.
  - exists s. split; [congruence|by right].
  - exists s'. split; [done|]. right. rewrite Hs in Hs'. injection Hs' as <-. done.
  - exists s'. split; [done|]. left. auto.
Qed.

Lemma apply_op_advances st op s : current_ok content st -> op_valid content op -> op <> OpClear -> current_ st = Some s ->
  exists s', current_ (apply_op st op) = Some s' /\ advances s s'.
Proof.
  intros Hok Hv Hne Hs. destruct op as [o|o|h c|f|]; cbn [apply_op]; [..|done].
  - eapply change_advances; [by apply Publish_change|done].
  - eapply change_advances; [by apply PublishAfterFullRebuild_change|done].
  - eapply change_advances; [by apply RefreshHostIds_change|done].
  - exists s. rewrite Record_current. split; [done|by right].
Qed.

(** *** The hand-off *)

(** The ranges recorded for the running scale-out, as one list. *)
Definition Recorded : Type := option (Z * list TokenRange).

Definition current_epoch (st : TopologySnapshotState) : option Z :=
  match current_ st with Some s => scale_out_epoch (GetActiveBatch s) | None => None end.

Definition recorded_step (st : TopologySnapshotState) (g : Recorded) (op : PublicationOp) : Recorded :=
  match op with
  | OpRecord fence =>
      if bool_decide (ef_batchType fence = SCALE_OUT) && bool_decide (ef_phase fence = PH_SCALE_OUT)
         && negb (is_empty (ef_ranges fence)) && bool_decide (current_epoch st = Some (ef_batchEpoch fence))
      then Some (ef_batchEpoch fence, ef_ranges fence ++ match g with Some (_, ranges) => ranges | None => [] end)
      else g
  | _ =>
      match g with
      | Some (epoch, ranges) => if decide (current_epoch (apply_op st op) = Some epoch) then g else None
      | None => None
      end
  end.

Record handoff_inv (st : TopologySnapshotState) (g : Recorded) : Prop := {
  hi_current : current_ok content st;
  hi_completion :
    match scaleOutHandoffCompletion_ st, g with
    | Some hc, Some (epoch, ranges) => hc_batchEpoch hc = epoch /\ current_epoch st = Some epoch /\
        ordered_ranges (hc_ranges hc) /\ ranges_u32 (hc_ranges hc) /\ forall t, in_ranges t (hc_ranges hc) = in_ranges t ranges
    | None, None => True
    | _, _ => False
    end
}.

Lemma handoff_change st st' g : handoff_inv st g -> current_change content st st' ->
  handoff_inv st' (match g with Some (epoch, _) => if decide (current_epoch st' = Some epoch) then g else None | None => None end).
Proof.
  intros [Hok Hi] Hch. pose proof (current_change_ok st st' Hok Hch) as Hok'. split; [done|].
  destruct Hch as [He Hh|s s' Hs He Hst Hd Hp Hh|s' Hv He Hp Hc Hst'].
  - assert (Hce : current_epoch st' = current_epoch st) by (unfold current_epoch; by rewrite He).
    rewrite Hh, Hce. destruct (scaleOutHandoffCompletion_ st), g as [[e rs]|]; try done.
    destruct Hi as (H1 & H2 & H3). by rewrite decide_True.
  - assert (Hce : current_epoch st' = current_epoch st) by (unfold current_epoch, GetActiveBatch; by rewrite He, Hs, Hst).
    rewrite Hh, Hce. destruct (scaleOutHandoffCompletion_ st), g as [[e rs]|]; try done.
    destruct Hi as (H1 & H2 & H3). by rewrite decide_True.
  - assert (Hce : current_epoch st' = scale_out_epoch (GetActiveBatch s')) by (unfold current_epoch; by rewrite He).
    rewrite Hce. replace (scaleOutHandoffCompletion_ st')
      with (scaleOutHandoffCompletion_ (ResetScaleOutHandoffIfBatchChanged s' st)) by by rewrite Hst'.
    clear Hst'. unfold ResetScaleOutHandoffIfBatchChanged.
    destruct (scaleOutHandoffCompletion_ st) as [hc|] eqn:Eh, g as [[e rs]|]; try done; [|by rewrite Eh].
    destruct Hi as (H1 & H2 & H3). rewrite H1. case_decide as Hd; [|done]. by rewrite Eh.
Qed.

Lemma handoff_step st g op : handoff_inv st g -> op_valid content op -> handoff_inv (apply_op st op) (recorded_step st g op).
Proof.
  intros Hi Hv. pose proof (hi_current _ _ Hi) as Hok. destruct op as [s|s|h c|fence|].
  - apply (handoff_change st); [done|by apply Publish_change].
  - apply (handoff_change st); [done|by apply PublishAfterFullRebuild_change].
  - apply (handoff_change st); [done|by apply RefreshHostIds_change].
  - split; [by apply apply_op_ok|]. cbn [apply_op recorded_step]. destruct Hi as [_ Hi].
    unfold RecordScaleOutHandoffCompletion.
    set (ok := bool_decide (ef_batchType fence = SCALE_OUT) && _ && negb (is_empty _)). destruct ok; cbn [andb]; [|done].
    assert (Hep : current_epoch st = match current_ st with Some s => scale_out_epoch (GetActiveBatch s) | None => None end) by done.
    destruct (current_ st) as [s|] eqn:Es; [|by rewrite bool_decide_false by by rewrite Hep].
    case_decide as Hd; [|by rewrite bool_decide_false by by rewrite Hep]. rewrite bool_decide_true by by rewrite Hep.
    cbn [store_completion scaleOutHandoffCompletion_].
    assert (Hce : current_epoch st = Some (ef_batchEpoch fence)) by (by rewrite Hep).
    set (g' := match g with Some (_, ranges) => ranges | None => [] end).
    set (all := match scaleOutHandoffCompletion_ st with Some p => _ | None => _ end).
    assert (Hall : ranges_u32 all /\ forall t, in_ranges t all = in_ranges t (ef_ranges fence ++ g')).
    { unfold all, g'. destruct (scaleOutHandoffCompletion_ st) as [hc|], g as [[e rs]|]; try done.
      - destruct Hi as (H1 & H2 & H3 & H4 & H5). rewrite Hce in H2. injection H2 as H2. rewrite H1, <- H2, Z.eqb_refl.
        split; [by apply ranges_u32_app|]. intros t. by rewrite !in_ranges_app, H5.
      - split; [done|]. intros t. by rewrite app_nil_r. }
    destruct Hall as [Hu Hin]. destruct (MergeRanges_spec all Hu) as (M1 & M2 & M3). cbn [hc_batchEpoch hc_ranges].
    split_and!; try done. intros t. by rewrite M3.
  - split; [done|]. cbn. by destruct g as [[e rs]|].
Qed.

Lemma handoff_complete st g e t : handoff_inv st g ->
  IsScaleOutHandoffComplete e t st = match g with Some (epoch, ranges) => (epoch =? e) && in_ranges t ranges | None => false end.
Proof.
  intros [Hok Hi]. unfold IsScaleOutHandoffComplete.
  destruct (scaleOutHandoffCompletion_ st) as [hc|], g as [[epoch ranges]|]; try done.
  destruct Hi as (H1 & H2 & H3 & H4 & H5). rewrite H1. destruct (epoch =? e) eqn:E; [|by rewrite orb_true_r].
  assert (Hpos : 0 < epoch).
  { unfold current_epoch, scale_out_epoch, GetActiveBatch in H2. destruct (current_ st) as [s|] eqn:Es; [|done].
    destruct (Hok s Es) as [[st0 [Hp _]%snapshot_fixed] _]. destruct (ts_activeBatch (state_ s)) as [b|] eqn:Eb; [|done].
    destruct (ps_epoch _ Hp b Eb) as [Hb _]. case_decide; [|done]. by injection H2 as <-. }
  apply Z.eqb_eq in E as <-. rewrite (proj2 (Z.eqb_neq epoch 0)) by lia. cbn. rewrite range_search by done. apply H5.
Qed.

End change.
End Publications.
