(* ===== verification/SnapshotReaders.v ===== *)
(** * Readers of the published snapshot

    [TopologySnapshotState::Load] takes no lock: it loads the generation, looks
    at its thread-local cache and only on a miss loads [current_].  A
    publication writes [current_] and then the generation.  This file runs
    readers and publications in every interleaving of these accesses. *)

From S2P Require Import Prelude Ordered TopologyTypes HashRing BalancedRing TokenPlacement HostPort KeyHelper Hasher.
From S2P Require Import RingTheory HashAlgorithm OwnerSpec PlanningInterface HashPlans Snapshot TaskMaterializer SnapshotState.

(** A reader thread.  [rd_begun] is the generation it has loaded, when it is inside [Load], with the number of
    publications completed by then; [rd_seen] is the position in the history of the last snapshot it was given.
    The two counters are ghost state. *)
Record Reader := {
  rd_cache : ThreadSnapshotCache;
  rd_begun : option (Z * nat);
  rd_seen : nat
}.

(** [w_log] is the history of the values of [current_], oldest first; [w_completed] counts the publications
    that have also advanced the generation. *)
Record World := {
  w_state : TopologySnapshotState;
  w_log : list (option TopologySnapshot);
  w_completed : nat;
  w_readers : list Reader
}.

Definition set_reader (i : nat) (r : Reader) (w : World) : World :=
  {| w_state := w_state w; w_log := w_log w; w_completed := w_completed w; w_readers := <[i := r]> (w_readers w) |}.

Inductive step : World -> World -> Prop :=
  | step_store w snapshot :
      (* the mutex is free: no publication is between its two writes *)
      length (w_log w) = S (w_completed w) ->
      step w {| w_state := store_current snapshot (w_state w); w_log := w_log w ++ [snapshot];
                w_completed := w_completed w; w_readers := w_readers w |}
  | step_bump w :
      length (w_log w) = S (S (w_completed w)) ->
      step w {| w_state := bump_generation (w_state w); w_log := w_log w;
                w_completed := S (w_completed w); w_readers := w_readers w |}
  | step_begin w i r :
      w_readers w !! i = Some r -> rd_begun r = None ->
      step w (set_reader i {| rd_cache := rd_cache r; rd_begun := Some (publicationGeneration_ (w_state w), w_completed w);
                              rd_seen := rd_seen r |} w)
  | step_finish w i r generation completed alive cache result seen :
      w_readers w !! i = Some r -> rd_begun r = Some (generation, completed) ->
      Load generation alive (w_state w) (rd_cache r) = (cache, result) ->
      (* a hit hands out the cached snapshot again, a miss the current one *)
      seen = match cached_snapshot generation alive (w_state w) (rd_cache r) with
             | Some _ => rd_seen r | None => pred (length (w_log w)) end ->
      step w (set_reader i {| rd_cache := cache; rd_begun := None; rd_seen := seen |} w)
  | step_other w i r cache :
      (* the thread loads another state object and overwrites its cache *)
      w_readers w !! i = Some r -> rd_begun r = None -> tc_instance cache <> instanceId_ (w_state w) ->
      step w (set_reader i {| rd_cache := cache; rd_begun := None; rd_seen := rd_seen r |} w).

Definition initial (instanceId : Z) (readers : list ThreadSnapshotCache) : World :=
  {| w_state := new_TopologySnapshotState instanceId; w_log := [None]; w_completed := 0;
     w_readers := (fun cache => {| rd_cache := cache; rd_begun := None; rd_seen := 0 |}) <$> readers |}.

(** ** The invariant *)

Record reader_ok (w : World) (r : Reader) : Prop := {
  ro_begun g k : rd_begun r = Some (g, k) -> g = u64 (Z.of_nat k) /\ (k <= w_completed w)%nat;
  ro_seen : (S (rd_seen r) <= length (w_log w))%nat;
  ro_cache : tc_instance (rd_cache r) = instanceId_ (w_state w) ->
    w_log w !! rd_seen r = Some (tc_snapshot (rd_cache r)) /\
    exists k, tc_generation (rd_cache r) = u64 (Z.of_nat k) /\ (k <= rd_seen r)%nat /\ (k <= w_completed w)%nat
}.

Record world_ok (w : World) : Prop := {
  wo_current : last (w_log w) = Some (current_ (w_state w));
  wo_generation : publicationGeneration_ (w_state w) = u64 (Z.of_nat (w_completed w));
  wo_log : length (w_log w) = S (w_completed w) \/ length (w_log w) = S (S (w_completed w));
  wo_readers i r : w_readers w !! i = Some r -> reader_ok w r
}.

Lemma u64_succ z : u64 (u64 z + 1) = u64 (z + 1).
Proof. unfold u64. by rewrite Zplus_mod_idemp_l. Qed.

(** Only the history and the completed count matter to a reader, and both grow. *)
Lemma reader_ok_mono w w' r : reader_ok w r -> instanceId_ (w_state w') = instanceId_ (w_state w) ->
  w_log w `prefix_of` w_log w' -> (w_completed w <= w_completed w')%nat -> reader_ok w' r.
Proof.
  intros [H1 H2 H3] Hi Hl Hc. split.
  - intros g k Hg. destruct (H1 g k Hg). split; [done|lia].
  - apply prefix_length in Hl. lia.
  - rewrite Hi. intros Hin. destruct (H3 Hin) as (Hlk & k & ? & ? & ?).
    split; [by eapply prefix_lookup_Some|]. exists k. split_and!; [done..|lia].
Qed.

Lemma world_ok_set w i r : world_ok w -> reader_ok w r -> world_ok (set_reader i r w).
Proof.
  intros [H1 H2 H3 H4] Hr. split; [done..|]. cbn. intros j r' Hj.
  assert (Hok : reader_ok w r').
  { destruct (decide (i = j)) as [<-|Hne]; [|rewrite list_lookup_insert_ne in Hj by done; by eapply H4].
    apply list_lookup_insert_Some in Hj as [(_ & <- & _)|[? _]]; done. }
  by eapply reader_ok_mono.
Qed.

Lemma last_index (w : World) : world_ok w -> w_log w !! pred (length (w_log w)) = Some (current_ (w_state w)).
Proof. intros Hw. rewrite <- last_lookup. apply (wo_current _ Hw). Qed.

Lemma step_ok w w' : step w w' -> world_ok w -> world_ok w'.
Proof.
  intros Hs Hw. pose proof Hw as [H1 H2 H3 H4].
  destruct Hs as [w snapshot Hl|w Hl|w i r Hi Hb|w i r g k alive cache result seen Hi Hb HL Hseen|w i r cache Hi Hb Hne].
  - split; cbn; [by rewrite last_snoc|done|right; rewrite length_app; cbn; lia|].
    intros i r Hi%H4. eapply reader_ok_mono; [done|done|by apply prefix_app_r|done].
  - split; cbn; [done| |left; lia|].
    + rewrite H2, u64_succ. f_equal. lia.
    + intros i r Hi%H4. eapply reader_ok_mono; [done|done|done|cbn; lia].
  - apply world_ok_set; [done|]. destruct (H4 i r Hi) as [R1 R2 R3]. split; [|done..]. cbn. intros g k [= <- <-]. done.
  - apply world_ok_set; [done|]. destruct (H4 i r Hi) as [R1 R2 R3]. destruct (R1 g k Hb) as [-> Hk].
    unfold Load in HL. destruct (cached_snapshot _ _ _ _) as [s|] eqn:Ec; injection HL as <- _; subst seen; split; cbn; try done.
    + lia.
    + intros _. split; [by apply last_index|]. exists k. split_and!; [done|lia|done].
  - apply world_ok_set; [done|]. destruct (H4 i r Hi) as [R1 R2 R3]. by split.
Qed.

Lemma initial_ok instanceId readers : (forall cache, cache ∈ readers -> tc_instance cache <> instanceId) ->
  world_ok (initial instanceId readers).
Proof.
  intros Hc. split; cbn; [done|done|by left|]. intros i r (cache & -> & Hi)%list_lookup_fmap_Some.
  split; cbn; [done|lia|]. intros Hin. exfalso. by apply (Hc cache); [eapply list_elem_of_lookup_2|].
Qed.

Lemma reachable_ok instanceId readers w : (forall cache, cache ∈ readers -> tc_instance cache <> instanceId) ->
  rtc step (initial instanceId readers) w -> world_ok w.
Proof.
  intros Hc Hr. pose proof (initial_ok instanceId readers Hc) as Hi.
  induction Hr as [|w w1 w2 Hs _ IH]; [done|]. by apply IH, (step_ok w).
Qed.

(** ** The claim *)

(** What a caller of [Load] gets for a stored value. *)
Definition load_result (snapshot : option TopologySnapshot) : res TopologySnapshot :=
  match snapshot with Some s => Ok s | None => Err K_NOT_READY end.

(** C32: A lock-free read is fresh in every interleaving with publications and with other readers: the snapshot a
    thread gets is at a position of the history not before the last publication completed when the read
    started, and not before the one it got last, whatever its cache holds and whether or not the cached
    snapshot is still alive. (The generation counter is 64 bits wide; the bound excludes its wrap-around.) *)
Theorem load_fresh instanceId readers w i r generation completed alive :
  (forall cache, cache ∈ readers -> tc_instance cache <> instanceId) ->
  rtc step (initial instanceId readers) w -> Z.of_nat (w_completed w) < 2 ^ 64 ->
  w_readers w !! i = Some r -> rd_begun r = Some (generation, completed) ->
  exists position snapshot, w_log w !! position = Some snapshot /\
    (completed <= position)%nat /\ (rd_seen r <= position)%nat /\
    (Load generation alive (w_state w) (rd_cache r)).2 = load_result snapshot.
Proof.
  intros Hc Hr Hlt Hi Hb. pose proof (reachable_ok _ _ _ Hc Hr) as Hw.
  destruct (wo_readers _ Hw i r Hi) as [R1 R2 R3]. destruct (R1 _ _ Hb) as [-> Hk].
  unfold Load. destruct (cached_snapshot _ _ _ _) as [s|] eqn:Ec; cbn.
  - unfold cached_snapshot in Ec. destruct (_ && _ && _) eqn:E; [|done].
    apply andb_prop in E as [[E1 E2]%andb_prop _]. apply Z.eqb_eq in E1, E2.
    destruct (R3 E1) as (Hlk & c & Hg & Hcs & Hcc). exists (rd_seen r), (Some s). rewrite Ec in Hlk.
    split_and!; [done| |done|done]. rewrite Hg in E2. unfold u64 in E2. rewrite !Z.mod_small in E2 by lia. lia.
  - exists (pred (length (w_log w))), (current_ (w_state w)). split_and!; [by apply last_index|..|done];
      destruct (wo_log _ Hw); lia.
Qed.

(** ** Witness *)

Definition one_publication : World :=
  {| w_state := bump_generation (store_current None (new_TopologySnapshotState 1)); w_log := [None; None]; w_completed := 1;
     w_readers := [{| rd_cache := new_ThreadSnapshotCache; rd_begun := Some (1, 1%nat); rd_seen := 0 |}] |}.

Lemma one_publication_reachable : rtc step (initial 1 [new_ThreadSnapshotCache]) one_publication.
Proof.
  eapply rtc_l; [apply (step_store _ None); reflexivity|]. eapply rtc_l; [apply step_bump; reflexivity|].
  apply rtc_once.
  match goal with |- step ?w _ =>
    exact (step_begin w 0 {| rd_cache := new_ThreadSnapshotCache; rd_begun := None; rd_seen := 0 |} eq_refl eq_refl) end.
Qed.

Lemma load_fresh_witness : exists position snapshot, w_log one_publication !! position = Some snapshot /\
  (1 <= position)%nat /\ (Load 1 true (w_state one_publication) new_ThreadSnapshotCache).2 = load_result snapshot.
Proof.
  destruct (load_fresh 1 [new_ThreadSnapshotCache] one_publication 0
    {| rd_cache := new_ThreadSnapshotCache; rd_begun := Some (1, 1%nat); rd_seen := 0 |} 1 1 true) as (p & s & H1 & H2 & _ & H3).
  - intros cache Hc. apply list_elem_of_singleton in Hc. subst cache. vm_compute. discriminate.
  - apply one_publication_reachable.
  - vm_compute. reflexivity.
  - reflexivity.
  - reflexivity.
  - exists p, s. split; [exact H1|]. split; [exact H2|exact H3].
Defined.
