(* ===== verification/PublicationClaims.v ===== *)
(** * Snapshot publication: the claims

    The outcome of every publication, the history of published versions, the
    hand-off of a scale-out and the retention of host ids. *)

From S2P Require Import Prelude Ordered TopologyTypes HashRing BalancedRing TokenPlacement HostPort KeyHelper Hasher.
From S2P Require Import RingTheory HashAlgorithm OwnerSpec PlanningInterface HashPlans Snapshot RepositoryCodec.
From S2P Require Import MembershipTypes TaskMaterializer MaterializerTheory SnapshotState PublicationTheory.

Section PublicationClaims.
Context `{RE2, SHA256}.

(** The outcome of publishing a snapshot over a current one is decided by version and digest alone: the next
    version is published, an older one and a gap are rejected, the same version is idempotent when the digests
    agree and a conflict otherwise. A rejected snapshot leaves the state unchanged; an accepted one is the
    current topology afterwards. No outcome means that digesting the host ids failed, which changes nothing. *)
Theorem publish_outcome st c s st' r outcome :
  current_ st = Some c -> published c -> published s -> Publish (Some s) st = (st', r, outcome) ->
  match outcome with
  | Some PUBLISHED => Version s = Version c + 1 /\ r = Ok tt /\ exists s', current_ st' = Some s' /\ same_topology s s'
  | Some IDEMPOTENT => Version s = Version c /\ canonicalDigest_ s = canonicalDigest_ c /\ r = Ok tt /\
      (st' = st \/ exists s', current_ st' = Some s' /\ same_topology s s')
  | Some VERSION_ROLLBACK => Version s < Version c /\ r = Err K_INVALID /\ st' = st
  | Some VERSION_GAP => Version c + 1 < Version s /\ r = Err K_INVALID /\ st' = st
  | Some CONFLICT => Version s = Version c /\ canonicalDigest_ s <> canonicalDigest_ c /\ r = Err K_INVALID /\ st' = st
  | None => st' = st /\ r <> Ok tt
  end.
Proof.
  intros Hc Hpc Hps. pose proof (published_version c Hpc). pose proof (published_version s Hps).
  unfold Publish. rewrite Hc. rewrite u64_small by (unfold INT64_MAX in *; lia).
  destruct (_ =? _) eqn:E1.
  { destruct (RetainLastGoodHostIds _ s) as [s'|code] eqn:Er; intros [= <- <- <-]; [|done].
    split_and!; [lia|done|]. exists s'. split; [done|]. by apply (RetainLastGoodHostIds_spec (Some c)). }
  destruct (Version s <? _) eqn:E2; [intros [= <- <- <-]; split_and!; [lia|done..]|].
  destruct (Version c <? _) eqn:E3; [intros [= <- <- <-]; split_and!; [lia|done..]|].
  case_bool_decide as Hd; [|intros [= <- <- <-]; split_and!; [lia|done..]].
  destruct (_ || _); [|intros [= <- <- <-]; split_and!; [lia|done|done|by left]].
  destruct (RetainLastGoodHostIds _ s) as [s'|code] eqn:Er; intros [= <- <- <-]; [|done].
  split_and!; [lia|done|done|]. right. exists s'. split; [done|]. by apply (RetainLastGoodHostIds_spec (Some c)).
Qed.

(** C30: Between two clears the published topology never goes back: after any sequence of publications, rebuilds,
    host-id refreshes and hand-off records a later snapshot has a higher version, or is the same topology with
    the same digest. In particular one version never names two topologies. *)
Theorem published_history content st ops s :
  current_ok content st -> Forall (fun op => op_valid content op /\ op <> OpClear) ops -> current_ st = Some s ->
  exists s', current_ (foldl apply_op st ops) = Some s' /\
    (Version s < Version s' \/ (state_ s' = state_ s /\ canonicalDigest_ s' = canonicalDigest_ s)).
Proof.
  intros Hok Hv. revert st s Hok. induction Hv as [|op ops [Hop Hne] _ IH]; intros st s Hok Hs; cbn [foldl].
  - exists s. split; [done|by right].
  - destruct (apply_op_advances content st op s Hok Hop Hne Hs) as (s1 & Hs1 & Ha).
    destruct (IH (apply_op st op) s1 (apply_op_ok content st op Hok Hop) Hs1) as (s2 & Hs2 & Ha2).
    exists s2. split; [done|]. by apply (advances_trans s s1).
Qed.

(** C31: The merged hand-off ranges are a refinement of the plain list of everything recorded: after any sequence
    of operations a token is reported complete for an epoch exactly when the epoch is that of the recorded
    hand-off and some range recorded since the running scale-out was published contains the token; a change of
    batch and a clear forget all records. *)
Theorem handoff_refines content instanceId ops epoch token :
  Forall (op_valid content) ops ->
  let '(st, recorded) := foldl (fun '(st, g) op => (apply_op st op, recorded_step st g op))
                           (new_TopologySnapshotState instanceId, None) ops in
  IsScaleOutHandoffComplete epoch token st =
    match recorded with
    | Some (e, ranges) => (e =? epoch) && in_ranges token ranges
    | None => false
    end.
Proof.
  intros Hv. cut (forall st g, handoff_inv content st g ->
    let '(st', g') := foldl (fun '(st, g) op => (apply_op st op, recorded_step st g op)) (st, g) ops in handoff_inv content st' g').
  { intros Hc. specialize (Hc (new_TopologySnapshotState instanceId) None ltac:(by split)).
    destruct (foldl _ _ ops) as [st g]. by apply handoff_complete with content. }
  induction Hv as [|op ops Hop _ IH]; intros st g Hi; cbn [foldl]; [done|]. apply IH. by apply handoff_step.
Qed.

(** Publishing a snapshot whose host ids could not be read keeps the known host of every member that is still
    the same incarnation, and gives no host to a new or replaced member. *)
Theorem host_ids_retained previous candidate s m :
  published candidate -> hostIdsKnown_ candidate = false -> hostIdsKnown_ previous = true ->
  RetainLastGoodHostIds (Some previous) candidate = Ok s -> m ∈ Members candidate ->
  hostIdsKnown_ s = true /\ Members s = Members candidate /\
  hostIds_ s !! m_address m =
    match FindMemberByAddress (m_address m) previous with
    | Ok old => if bool_decide (m_id old = m_id m) then hostIds_ previous !! m_address m else None
    | Err _ => None
    end.
Proof.
  intros Hp Hkc Hkp Hr Hm. unfold RetainLastGoodHostIds in Hr. rewrite Hkc, Hkp in Hr. cbn in Hr.
  apply recreate_spec in Hr as (_ & [Hs _ _] & Hh & Hk & _); [|done]. split_and!; [done|by unfold Members; rewrite Hs|].
  destruct Hp as [st Hst]. pose proof (mv_addresses _ (snapshot_valid _ _ Hst)) as Hnd.
  rewrite Hh, retained_hosts by (done || intros; apply lookup_empty).
  destruct (list_find _ _) as [[i m']|] eqn:Ef.
  - apply list_find_Some in Ef as (Hi & He & _). apply list_elem_of_lookup_1 in Hm as [j Hj].
    assert (i = j) as ->.
    { apply (NoDup_lookup _ _ _ (m_address m) Hnd); rewrite list_lookup_fmap; [by rewrite Hi; cbn; f_equal|by rewrite Hj]. }
    by rewrite Hj in Hi; injection Hi as <-.
  - apply list_find_None in Ef. rewrite Forall_forall in Ef. by destruct (Ef m Hm).
Qed.

End PublicationClaims.

(** ** Witnesses *)

Import Demo ReferenceEngine ReferenceDigest.

Definition at_version (version : Z) (batch : option ActiveBatch) (members : list Member) : TopologyState :=
  {| ts_clusterHasInit := true; ts_version := version; ts_members := members; ts_activeBatch := batch; ts_tokensPerMember := 2 |}.

Definition snapshot (st : TopologyState) (hostIds : gmap string string) (known : bool) : TopologySnapshot :=
  match Create st 5 (HexEncode (replicate 32 (ts_version st))) hostIds known "c" with
  | Ok s => s
  | Err _ => BuildIndexes st 0 "" ∅ "" false ""
  end.

(** A and B own the ring; C joins at version 8 and has joined at version 9. *)
Definition before_C : TopologyState := at_version 7 None [mk idA ACTIVE [100; 3000000000]; mk idB ACTIVE [2000; 4000000000]].
Definition adding_C : TopologyState := at_version 8 (Some {| ab_type := SCALE_OUT; ab_epoch := 8 |})
  [mk idA ACTIVE [100; 3000000000]; mk idB ACTIVE [2000; 4000000000]; mk idC JOINING [50; 2500000000]].

Definition hosts : gmap string string := {[ mi_address idA := "host-a"; mi_address idB := "host-b" ]}%string.
Definition first : TopologySnapshot := snapshot before_C hosts true.
Definition second : TopologySnapshot := snapshot adding_C ∅ false.

Lemma first_published : published first.
Proof. exists before_C, 5, (HexEncode (replicate 32 7)), hosts, true, "c"%string. vm_compute. reflexivity. Qed.
Lemma second_published : published second.
Proof. exists adding_C, 5, (HexEncode (replicate 32 8)), ∅, false, "c"%string. vm_compute. reflexivity. Qed.

Definition content (digest : string) : TopologyState :=
  if bool_decide (digest = HexEncode (replicate 32 8)) then adding_C else before_C.

Lemma first_content : state_ first = content (canonicalDigest_ first).
Proof. vm_compute. reflexivity. Qed.
Lemma second_content : state_ second = content (canonicalDigest_ second).
Proof. vm_compute. reflexivity. Qed.

Definition holding (s : TopologySnapshot) : TopologySnapshotState := publish_current s (new_TopologySnapshotState 1).

Lemma publish_outcome_witness : exists st', Publish (Some second) (holding first) = (st', Ok tt, Some PUBLISHED) /\
  Version second = Version first + 1.
Proof.
  destruct (Publish (Some second) (holding first)) as [[st' r] o] eqn:E.
  pose proof (publish_outcome (holding first) first second st' r o eq_refl first_published second_published E) as H.
  assert (Ho : o = Some PUBLISHED) by (replace o with ((Publish (Some second) (holding first)).2) by (rewrite E; reflexivity); vm_compute; reflexivity).
  subst o. destruct H as (H1 & H2 & _). subst r. exists st'. split; [reflexivity|exact H1].
Defined.

Lemma holding_first_ok : current_ok content (holding first).
Proof.
  intros s Hs. change (Some first = Some s) in Hs. revert Hs. generalize first_published first_content. generalize first.
  intros s0 Hp Hc [= <-]. exact (conj Hp Hc).
Qed.

Lemma publish_second_valid : Forall (fun op => op_valid content op /\ op <> OpClear) [OpPublish (Some second)].
Proof. apply Forall_singleton. split; [exact (conj second_published second_content)|discriminate]. Qed.

Lemma published_history_witness : exists s', current_ (foldl apply_op (holding first) [OpPublish (Some second)]) = Some s' /\
  (Version first < Version s' \/ (state_ s' = state_ first /\ canonicalDigest_ s' = canonicalDigest_ first)).
Proof. exact (published_history content (holding first) _ first holding_first_ok publish_second_valid eq_refl). Defined.

Definition handoff_fence (ranges : list TokenRange) : TopologyExecutionFence :=
  {| ef_taskId := "m-e8-t"; ef_taskKind := MIGRATE; ef_batchType := SCALE_OUT; ef_batchEpoch := 8; ef_phase := PH_SCALE_OUT;
     ef_executor := idA; ef_source := Some idA; ef_target := Some idC; ef_failed := None; ef_ranges := ranges |}.

Definition handoff_ops : list PublicationOp :=
  [OpPublish (Some first); OpPublish (Some second); OpRecord (handoff_fence [{| tr_from := 20; tr_end := 30 |}]);
   OpRecord (handoff_fence [{| tr_from := 31; tr_end := 40 |}; {| tr_from := 5; tr_end := 9 |}])].

Lemma ranges_u32_dec ranges :
  forallb (fun r => (0 <=? tr_from r) && (tr_from r <=? tr_end r) && (tr_end r <=? UINT32_MAX)) ranges = true -> ranges_u32 ranges.
Proof. rewrite forallb_elem. intros Hf r Hr. specialize (Hf r Hr). lia. Qed.

Lemma handoff_ops_valid : Forall (op_valid content) handoff_ops.
Proof.
  apply Forall_cons. split; [exact (conj first_published first_content)|].
  apply Forall_cons. split; [exact (conj second_published second_content)|].
  apply Forall_cons. split; [apply ranges_u32_dec; reflexivity|].
  apply Forall_cons. split; [apply ranges_u32_dec; reflexivity|]. apply Forall_nil_2.
Qed.

Lemma handoff_refines_witness :
  let st := foldl apply_op (new_TopologySnapshotState 1) handoff_ops in
  IsScaleOutHandoffComplete 8 25 st = true /\ IsScaleOutHandoffComplete 8 31 st = true /\
  IsScaleOutHandoffComplete 8 15 st = false /\ IsScaleOutHandoffComplete 7 25 st = false /\
  let '(st, recorded) := foldl (fun '(st, g) op => (apply_op st op, recorded_step st g op))
                           (new_TopologySnapshotState 1, None) handoff_ops in
  IsScaleOutHandoffComplete 8 25 st =
    match recorded with Some (e, ranges) => (e =? 8) && in_ranges 25 ranges | None => false end.
Proof.
  split; [vm_compute; reflexivity|]. split; [vm_compute; reflexivity|]. split; [vm_compute; reflexivity|].
  split; [vm_compute; reflexivity|]. exact (handoff_refines content 1 handoff_ops 8 25 handoff_ops_valid).
Defined.

Lemma host_ids_retained_witness : exists s, RetainLastGoodHostIds (Some first) second = Ok s /\
  hostIdsKnown_ s = true /\ hostIds_ s !! mi_address idA = Some "host-a"%string.
Proof.
  destruct (RetainLastGoodHostIds (Some first) second) as [s|code] eqn:E; [|vm_compute in E; discriminate E].
  exists s. split; [reflexivity|].
  destruct (host_ids_retained first second s (mk idA ACTIVE [100; 3000000000]) second_published) as (H1 & _ & H2).
  - vm_compute. reflexivity.
  - vm_compute. reflexivity.
  - exact E.
  - left.
  - split; [exact H1|]. transitivity (hostIds_ s !! m_address (mk idA ACTIVE [100; 3000000000])); [reflexivity|].
    rewrite H2. vm_compute. reflexivity.
Defined.
