(* ===== verification/EndpointView.v ===== *)
(** * Membership endpoint view

    src/datasystem/cluster/membership/membership_endpoint_view.cpp: the local
    view of the membership table with its dense list of write candidates, and
    the endpoint observations.  Each operation holds its mutex throughout and is
    one transition; the snapshot a reader loads is an argument. *)

From S2P Require Import Prelude Ordered TopologyTypes HashRing BalancedRing TokenPlacement HostPort KeyHelper Hasher.
From S2P Require Import RingTheory HashAlgorithm OwnerSpec PlanningInterface HashPlans Snapshot RepositoryCodec MembershipTypes.

Record EndpointObservation := { eo_identity : MemberIdentity; eo_topologyVersion : Z; eo_availability : EndpointAvailability }.
Record MemberEndpoint := { me_identity : MemberIdentity; me_topologyState : MemberState; me_localAvailability : EndpointAvailability }.

(** The state of one address: its value, or [None] once deleted. *)
Record MembershipState := { es_value : option MembershipValue; es_revision : Z; es_readyIndex : nat }.

Record MembershipEndpointView := {
  writeRedirectEnabled_ : bool;
  snapshotRevision_ : Z;
  memberships_ : gmap string MembershipState;
  readyCandidateAddresses_ : list string;
  hasObservations_ : bool;
  observationsByAddress_ : gmap string EndpointObservation
}.

Definition new_MembershipEndpointView (enableWriteRedirect : bool) : MembershipEndpointView :=
  {| writeRedirectEnabled_ := enableWriteRedirect; snapshotRevision_ := 0; memberships_ := ∅;
     readyCandidateAddresses_ := []; hasObservations_ := false; observationsByAddress_ := ∅ |}.

Definition SupportsWriteRedirect (v : MembershipEndpointView) : bool := writeRedirectEnabled_ v.

Definition set_memberships (revision : Z) (memberships : gmap string MembershipState) (ready : list string)
    (v : MembershipEndpointView) : MembershipEndpointView :=
  {| writeRedirectEnabled_ := writeRedirectEnabled_ v; snapshotRevision_ := revision; memberships_ := memberships;
     readyCandidateAddresses_ := ready; hasObservations_ := hasObservations_ v; observationsByAddress_ := observationsByAddress_ v |}.

Definition set_observations (observations : gmap string EndpointObservation) (has : bool) (v : MembershipEndpointView)
    : MembershipEndpointView :=
  {| writeRedirectEnabled_ := writeRedirectEnabled_ v; snapshotRevision_ := snapshotRevision_ v; memberships_ := memberships_ v;
     readyCandidateAddresses_ := readyCandidateAddresses_ v; hasObservations_ := has; observationsByAddress_ := observations |}.

(** ** The membership table *)

Definition MAX_WRITE_CANDIDATES : Z := 20000.

Definition is_ready (value : option MembershipValue) : bool :=
  match value with Some v => bool_decide (mv_lifecycleState v = LC_READY) | None => false end.

(** Adding and removing the address in the dense list of ready candidates; the vacated slot is filled with the
    last candidate.  The result is the entry, the other entries and the list. *)
Definition update_ready (address : string) (ready : bool) (state : MembershipState) (memberships : gmap string MembershipState)
    (candidates : list string) : res (MembershipState * gmap string MembershipState * list string) :=
  if Bool.eqb (is_ready (es_value state)) ready then Ok (state, memberships, candidates)
  else if ready then
    Ok ({| es_value := es_value state; es_revision := es_revision state; es_readyIndex := length candidates |},
        memberships, candidates ++ [address])
  else
    let lastIndex := pred (length candidates) in
    if (es_readyIndex state =? lastIndex)%nat then Ok (state, memberships, removelast candidates)
    else match last candidates with
         | None => Err K_RUNTIME_ERROR
         | Some back =>
             match memberships !! back with
             | None => Err K_RUNTIME_ERROR
             | Some moved =>
                 Ok (state, <[back := {| es_value := es_value moved; es_revision := es_revision moved;
                                         es_readyIndex := es_readyIndex state |}]> memberships,
                     removelast (<[es_readyIndex state := back]> candidates))
             end
         end.

Definition SetMembershipLocked (address : string) (value : option MembershipValue) (revision : Z) (v : MembershipEndpointView)
    : MembershipEndpointView * res unit :=
  let found := memberships_ v !! address in
  if match found with Some state => revision <=? es_revision state | None => false end then (v, Ok tt)
  else if match found with Some _ => true | None => Z.of_nat (base.size (memberships_ v)) <? MAX_WRITE_CANDIDATES end then
    let state := default {| es_value := None; es_revision := 0; es_readyIndex := 0 |} found in
    let memberships := <[address := state]> (memberships_ v) in
    match update_ready address (is_ready value) state memberships (readyCandidateAddresses_ v) with
    | Err code => (set_memberships (snapshotRevision_ v) memberships (readyCandidateAddresses_ v) v, Err code)
    | Ok (state, memberships, candidates) =>
        (set_memberships (snapshotRevision_ v)
           (<[address := {| es_value := value; es_revision := revision; es_readyIndex := es_readyIndex state |}]> memberships)
           candidates v, Ok tt)
    end
  else (v, Err K_TRY_AGAIN).

Definition UpdateMembership (address : string) (value : MembershipValue) (revision : Z) (v : MembershipEndpointView)
    : MembershipEndpointView * res unit :=
  if negb (0 <? revision) then (v, Err K_INVALID)
  else if revision <=? snapshotRevision_ v then (v, Ok tt)
  else SetMembershipLocked address (Some value) revision v.

Definition DeleteMembership (address : string) (revision : Z) (v : MembershipEndpointView) : MembershipEndpointView * res unit :=
  if negb (0 <? revision) then (v, Err K_INVALID)
  else if revision <=? snapshotRevision_ v then (v, Ok tt)
  else SetMembershipLocked address None revision v.

Definition ClearMemberships (v : MembershipEndpointView) : MembershipEndpointView := set_memberships 0 ∅ [] v.

Definition GetHostIds (v : MembershipEndpointView) : res (gmap string string) :=
  _ ← check (0 <? snapshotRevision_ v) K_NOT_READY;
  Ok (omap (fun state => match es_value state with
                         | Some value => if bool_decide (mv_hostId value = EmptyString) then None else Some (mv_hostId value)
                         | None => None
                         end) (memberships_ v)).

(** [RETURN_IF_NOT_OK(refreshed.SetMembershipLocked(...))] in a loop. *)
Definition set_all {A} (entry : A -> option (string * option MembershipValue * Z)) (l : list A) (v : MembershipEndpointView)
    : MembershipEndpointView * res unit :=
  foldl (fun '(v, r) x =>
    match r, entry x with
    | Ok _, Some (address, value, revision) => SetMembershipLocked address value revision v
    | _, _ => (v, r)
    end) (v, Ok tt) l.

Definition record_value (member : MembershipRecord) : MembershipValue :=
  {| mv_timestamp := mr_timestamp member; mv_lifecycleState := mr_state member; mv_hostId := mr_hostId member;
     mv_compatibilityVersion := "" |}.

Section Refresh.
Context `{MapIteration}.

Definition newer_entry (revision : Z) (entry : string * MembershipState) : option (string * option MembershipValue * Z) :=
  if revision <? es_revision entry.2 then Some (entry.1, es_value entry.2, es_revision entry.2) else None.

Definition record_entry (revision : Z) (member : MembershipRecord) : option (string * option MembershipValue * Z) :=
  Some (mr_address member, Some (record_value member), revision).

Definition RefreshMemberships (members : list MembershipRecord) (revision : Z) (v : MembershipEndpointView)
    : MembershipEndpointView * res unit :=
  if negb (0 <? revision) then (v, Err K_INVALID)
  else if revision <? snapshotRevision_ v then (v, Ok tt)
  else
    match set_all (newer_entry revision) (iterate (memberships_ v)) (new_MembershipEndpointView (writeRedirectEnabled_ v)) with
    | (_, Err code) => (v, Err code)
    | (refreshed, Ok _) =>
        match set_all (record_entry revision) members refreshed with
        | (_, Err code) => (v, Err code)
        | (refreshed, Ok _) =>
            (set_memberships revision (memberships_ refreshed) (readyCandidateAddresses_ refreshed) v, Ok tt)
        end
    end.
End Refresh.

(** ** Endpoint observations *)

(** The observation is of the member at [address] in the topology of [snapshot]. *)
Definition observation_current (snapshot : TopologySnapshot) (address : string) (observation : EndpointObservation) : bool :=
  match FindMemberByAddress address snapshot with
  | Ok member => bool_decide (m_identity member = eo_identity observation) && (Version snapshot =? eo_topologyVersion observation)
  | Err _ => false
  end.

Definition UpdateObservation (loaded : res TopologySnapshot) (observation : EndpointObservation) (v : MembershipEndpointView)
    : MembershipEndpointView * res unit :=
  let address := mi_address (eo_identity observation) in
  match loaded with
  | Err code => (v, Err code)
  | Ok snapshot =>
      if observation_current snapshot address observation
      then if match observationsByAddress_ v !! address with
              | Some current => eo_topologyVersion current <=? eo_topologyVersion observation
              | None => true
              end
           then (set_observations (<[address := observation]> (observationsByAddress_ v)) true v, Ok tt)
           else (v, Err K_INVALID)
      else (v, Err K_INVALID)
  end.

Definition RemoveStaleObservations (loaded : res TopologySnapshot) (v : MembershipEndpointView) : MembershipEndpointView :=
  match loaded with
  | Err _ => v
  | Ok snapshot =>
      let kept := filter (fun kv => observation_current snapshot kv.1 kv.2 = true) (observationsByAddress_ v) in
      set_observations kept (negb (bool_decide (kept = ∅))) v
  end.

Definition ResolveLocalAvailability (member : Member) (topologyVersion : Z) (v : MembershipEndpointView) : EndpointAvailability :=
  if decide (m_state member = FAILED) then EP_UNREACHABLE
  else if negb (hasObservations_ v) then EP_UNKNOWN
  else match observationsByAddress_ v !! m_address member with
       | Some observed =>
           if negb (bool_decide (eo_identity observed = m_identity member)) || negb (eo_topologyVersion observed =? topologyVersion)
           then EP_UNKNOWN else eo_availability observed
       | None => EP_UNKNOWN
       end.

Definition endpoint_of (snapshot : TopologySnapshot) (member : Member) (v : MembershipEndpointView) : MemberEndpoint :=
  {| me_identity := m_identity member; me_topologyState := m_state member;
     me_localAvailability := ResolveLocalAvailability member (Version snapshot) v |}.

Definition ResolveByAddress (loaded : res TopologySnapshot) (address : string) (v : MembershipEndpointView) : res MemberEndpoint :=
  snapshot ← loaded; member ← FindMemberByAddress address snapshot; Ok (endpoint_of snapshot member v).

Definition ResolveById (loaded : res TopologySnapshot) (id : string) (v : MembershipEndpointView) : res MemberEndpoint :=
  snapshot ← loaded; member ← FindMemberById id snapshot; Ok (endpoint_of snapshot member v).

(** ** Write candidates *)

Definition CANDIDATE_SCAN_FACTOR : Z := 4.

(** [std::hash<std::string>] is a parameter. *)
Class StringHash := string_hash : string -> Z.

Definition selection_seed `{StringHash} (selectionKey excludedAddress : string) : Z :=
  let seed := u64 (string_hash selectionKey) in
  Z.lxor seed (u64 (string_hash excludedAddress + 0x9e3779b97f4a7c15 + u64 (Z.shiftl seed 6) + Z.shiftr seed 2)).

Definition eligible (snapshot : TopologySnapshot) (excludedAddress : string) (v : MembershipEndpointView) (address : string) : bool :=
  if bool_decide (address = excludedAddress) then false
  else match FindMemberByAddress address snapshot with
       | Err _ => false
       | Ok member =>
           if negb (bool_decide (m_state member = ACTIVE)) then false
           else if hasObservations_ v then
             match observationsByAddress_ v !! address with
             | Some observed =>
                 negb (bool_decide (eo_identity observed = m_identity member) && (eo_topologyVersion observed =? Version snapshot)
                       && bool_decide (eo_availability observed = EP_UNREACHABLE))
             | None => true
             end
           else true
       end.

(** The scan from [scanned] on, with [n] slots left and the candidates found so far. *)
Fixpoint scan_candidates (ok : string -> bool) (ready : list string) (start : Z) (maxCandidates : nat) (scanned : Z) (n : nat)
    (candidates : list string) : list string :=
  match n with
  | O => candidates
  | S n =>
      match ready !! Z.to_nat ((start + scanned) mod Z.of_nat (length ready)) with
      | None => candidates
      | Some address =>
          if ok address then
            let candidates := candidates ++ [address] in
            if (length candidates =? maxCandidates)%nat then candidates
            else scan_candidates ok ready start maxCandidates (scanned + 1) n candidates
          else scan_candidates ok ready start maxCandidates (scanned + 1) n candidates
      end
  end.

Definition GetWriteCandidates `{StringHash} (loaded : res TopologySnapshot) (excludedAddress selectionKey : string)
    (maxCandidates : nat) (v : MembershipEndpointView) : list string :=
  if (maxCandidates =? 0)%nat then []
  else match loaded with
       | Err _ => []
       | Ok snapshot =>
           let ready := readyCandidateAddresses_ v in
           if is_empty ready then []
           else
             let scanLimit := Z.min (Z.of_nat (length ready)) (u64 (Z.of_nat maxCandidates * CANDIDATE_SCAN_FACTOR)) in
             let start := selection_seed selectionKey excludedAddress mod Z.of_nat (length ready) in
             scan_candidates (eligible snapshot excludedAddress v) ready start maxCandidates 0 (Z.to_nat scanLimit) []
       end.
