(* ===== verification/EndpointClaims.v ===== *)
(** * Membership endpoint view: invariants and claims

    The dense candidate list indexes exactly the ready members, so the error of
    an inconsistent index cannot occur; the table keeps, for every address, the
    store's value at some revision that only grows, so the local view follows the
    membership table of the store; the write candidates are usable members. *)

From S2P Require Import Prelude Ordered TopologyTypes HashRing BalancedRing TokenPlacement HostPort KeyHelper Hasher.
From S2P Require Import RingTheory HashAlgorithm OwnerSpec PlanningInterface HashPlans Snapshot RepositoryCodec MembershipTypes EndpointView.

(** ** The candidate index *)

(** Slot [i] holds [a] exactly when [a] is ready and says so. *)
Definition index_ok (m : gmap string MembershipState) (candidates : list string) : Prop :=
  forall i a, candidates !! i = Some a <->
    exists state, m !! a = Some state /\ is_ready (es_value state) = true /\ es_readyIndex state = i.

(** The table without the slots. *)
Definition entry (state : MembershipState) : option MembershipValue * Z := (es_value state, es_revision state).
Definition contents (m : gmap string MembershipState) : gmap string (option MembershipValue * Z) := entry <$> m.

Definition with_value (value : option MembershipValue) (revision : Z) (state : MembershipState) : MembershipState :=
  {| es_value := value; es_revision := revision; es_readyIndex := es_readyIndex state |}.

Lemma index_not_ready m candidates a state i : index_ok m candidates -> m !! a = Some state ->
  is_ready (es_value state) = false -> candidates !! i <> Some a.
Proof. intros Hx Ha Hr (s & Hs & Hrs & _)%Hx. congruence. Qed.

Lemma index_emplace m candidates a : index_ok m candidates -> m !! a = None ->
  index_ok (<[a := {| es_value := None; es_revision := 0; es_readyIndex := 0 |}]> m) candidates.
Proof.
  intros Hx Ha i b. rewrite (Hx i b). split; intros (s & Hs & Hr & Hi).
  - exists s. split; [|done]. rewrite lookup_insert_ne; [done|]. congruence.
  - destruct (decide (a = b)) as [->|Hne].
    + rewrite lookup_insert_eq in Hs. by injection Hs as <-.
    + rewrite lookup_insert_ne in Hs by done. by exists s.
Qed.

Lemma index_keep m candidates a state value revision : index_ok m candidates -> m !! a = Some state ->
  is_ready (es_value state) = is_ready value -> index_ok (<[a := with_value value revision state]> m) candidates.
Proof.
  intros Hx Ha Hr i b. rewrite (Hx i b). destruct (decide (a = b)) as [<-|Hne].
  - rewrite lookup_insert_eq, Ha. split; intros (s & [= <-] & Hrs & Hi); eexists; split; [done| |done|]; cbn in *; split; congruence.
  - by rewrite lookup_insert_ne.
Qed.

Lemma index_add m candidates a state value revision : index_ok m candidates -> m !! a = Some state ->
  is_ready (es_value state) = false -> is_ready value = true ->
  index_ok (<[a := {| es_value := value; es_revision := revision; es_readyIndex := length candidates |}]> m) (candidates ++ [a]).
Proof.
  intros Hx Ha Hr Hv i b. destruct (decide (a = b)) as [<-|Hne].
  - rewrite lookup_insert_eq. split.
    + intros [Hi|[Hl Hi]]%lookup_app_Some; [by destruct (index_not_ready _ _ _ _ i Hx Ha Hr)|].
      apply list_lookup_singleton_Some in Hi as [Hz _]. eexists. split_and!; [done|done|cbn; lia].
    + intros (s & [= <-] & _ & <-). cbn. by rewrite lookup_app_r, Nat.sub_diag by lia.
  - rewrite lookup_insert_ne by done. rewrite <- (Hx i b). split.
    + intros [Hi|[Hl Hi]]%lookup_app_Some; [done|]. by apply list_lookup_singleton_Some in Hi as [_ ?].
    + intros Hi. by apply lookup_app_l_Some.
Qed.

Lemma last_slot {A} (l : list A) i x : l !! i = Some x -> i = pred (length l) -> exists l0, l = l0 ++ [x] /\ i = length l0.
Proof.
  intros Hi He. destruct l as [|y l _] using rev_ind; [done|]. rewrite length_app in He. cbn in He.
  assert (i = length l) as -> by lia. rewrite lookup_app_r, Nat.sub_diag in Hi by lia. cbn in Hi. injection Hi as ->. by exists l.
Qed.

Lemma index_drop_last m l0 a state value revision : index_ok m (l0 ++ [a]) -> m !! a = Some state ->
  es_readyIndex state = length l0 -> is_ready value = false -> index_ok (<[a := with_value value revision state]> m) l0.
Proof.
  intros Hx Ha Hi Hv i b. destruct (decide (a = b)) as [<-|Hne].
  - rewrite lookup_insert_eq. split.
    + intros Hl. pose proof (lookup_lt_Some _ _ _ Hl). destruct (proj1 (Hx i a)) as (s & Hs & _ & Hsi); [by apply lookup_app_l_Some|].
      rewrite Ha in Hs. injection Hs as <-. lia.
    + intros (s & [= <-] & Hr & _). cbn in Hr. congruence.
  - rewrite lookup_insert_ne by done. rewrite <- (Hx i b), lookup_app_Some, list_lookup_singleton_Some. split; [by left|].
    intros [?|(_ & _ & <-)]; done.
Qed.

Lemma index_move m l0 a back state moved value revision : index_ok m (l0 ++ [back]) -> m !! a = Some state ->
  m !! back = Some moved -> l0 !! es_readyIndex state = Some a -> is_ready value = false ->
  index_ok (<[a := with_value value revision state]> (<[back := {| es_value := es_value moved; es_revision := es_revision moved;
              es_readyIndex := es_readyIndex state |}]> m)) (<[es_readyIndex state := back]> l0).
Proof.
  intros Hx Ha Hb Hl Hv. set (j := es_readyIndex state) in *. pose proof (lookup_lt_Some _ _ _ Hl) as Hj.
  destruct (proj1 (Hx (length l0) back)) as (s & Hs & Hrb & Hib).
  { by rewrite lookup_app_r, Nat.sub_diag by lia. }
  rewrite Hb in Hs. injection Hs as <-.
  assert (Hne : a <> back) by (intros ->; rewrite Ha in Hb; injection Hb as <-; unfold j in *; lia).
  intros i b. rewrite list_lookup_insert_Some. destruct (decide (b = a)) as [->|Hba].
  - rewrite lookup_insert_eq. split.
    + intros [(<- & -> & _)|[Hij Hi]]; [done|]. destruct (proj1 (Hx i a)) as (s & Hs & _ & Hsi); [by apply lookup_app_l_Some|].
      rewrite Ha in Hs. injection Hs as <-. done.
    + intros (s & [= <-] & Hr & _). cbn in Hr. congruence.
  - rewrite lookup_insert_ne by done. destruct (decide (b = back)) as [->|Hbb].
    + rewrite lookup_insert_eq. split.
      * intros [(<- & _ & _)|[Hij Hi]]; [by eexists|]. pose proof (lookup_lt_Some _ _ _ Hi).
        destruct (proj1 (Hx i back)) as (s & Hs & _ & Hsi); [by apply lookup_app_l_Some|].
        rewrite Hb in Hs. injection Hs as <-. lia.
      * intros (s & [= <-] & _ & <-). cbn. left. done.
    + rewrite lookup_insert_ne by done. rewrite <- (Hx i b), lookup_app_Some, list_lookup_singleton_Some. split.
      * intros [(_ & -> & _)|[_ Hi]]; [done|by left].
      * intros [Hi|(_ & _ & ->)]; [|done]. right. split; [|done]. intros <-. congruence.
Qed.

Lemma contents_insert a state m : contents (<[a := state]> m) = <[a := entry state]> (contents m).
Proof. apply fmap_insert. Qed.

Lemma contents_same m b moved i : m !! b = Some moved ->
  contents (<[b := {| es_value := es_value moved; es_revision := es_revision moved; es_readyIndex := i |}]> m) = contents m.
Proof. intros Hb. rewrite contents_insert. apply insert_id. unfold contents. by rewrite lookup_fmap, Hb. Qed.

(** The bookkeeping of a transition never fails and keeps the index. *)
Lemma update_ready_spec a state m candidates value revision : index_ok m candidates -> m !! a = Some state ->
  exists state' m' candidates', update_ready a (is_ready value) state m candidates = Ok (state', m', candidates') /\
    index_ok (<[a := with_value value revision state']> m') candidates' /\ contents m' = contents m.
Proof.
  intros Hx Ha. unfold update_ready. destruct (Bool.eqb _ _) eqn:Er.
  { apply Bool.eqb_prop in Er. do 3 eexists. split; [done|]. split; [|done]. by apply index_keep. }
  destruct (is_ready (es_value state)) eqn:Es, (is_ready value) eqn:Ev; try done.
  2: { do 3 eexists. split; [done|]. split; [|done]. unfold with_value. cbn. by eapply index_add. }
  destruct (proj2 (Hx (es_readyIndex state) a)) as []; [by exists state|].
  assert (Hi : candidates !! es_readyIndex state = Some a) by (apply Hx; by exists state).
  destruct (Nat.eqb_spec (es_readyIndex state) (pred (length candidates))) as [He|He].
  - destruct (last_slot _ _ _ Hi He) as (l0 & -> & Hl). rewrite removelast_snoc. do 3 eexists. split; [done|].
    split; [|done]. by apply index_drop_last.
  - destruct candidates as [|back l0 _] using rev_ind; [done|]. rewrite last_snoc.
    rewrite length_app in He. cbn in He. pose proof (lookup_lt_Some _ _ _ Hi) as Hlt. rewrite length_app in Hlt. cbn in Hlt.
    rewrite lookup_app_l in Hi by lia.
    destruct (proj1 (Hx (length l0) back)) as (moved & Hm & _); [by rewrite lookup_app_r, Nat.sub_diag by lia|].
    rewrite Hm, insert_app_l, removelast_snoc by lia. do 3 eexists. split; [done|]. split; [|by apply contents_same].
    by apply index_move.
Qed.

(** ** The table as a map of values *)

Definition spec_set (a : string) (value : option MembershipValue) (revision : Z) (c : gmap string (option MembershipValue * Z))
    : gmap string (option MembershipValue * Z) * res unit :=
  match c !! a with
  | Some (_, r) => if revision <=? r then (c, Ok tt) else (<[a := (value, revision)]> c, Ok tt)
  | None => if Z.of_nat (base.size c) <? MAX_WRITE_CANDIDATES then (<[a := (value, revision)]> c, Ok tt) else (c, Err K_TRY_AGAIN)
  end.

Record view_ok (v : MembershipEndpointView) : Prop := {
  vo_index : index_ok (memberships_ v) (readyCandidateAddresses_ v);
  vo_observations : hasObservations_ v = false -> observationsByAddress_ v = ∅
}.

(** The parts an operation on the table leaves alone. *)
Definition same_rest (v v' : MembershipEndpointView) : Prop :=
  snapshotRevision_ v' = snapshotRevision_ v /\ hasObservations_ v' = hasObservations_ v /\
  observationsByAddress_ v' = observationsByAddress_ v.

Lemma SetMembershipLocked_spec a value revision v : view_ok v ->
  exists v' r, SetMembershipLocked a value revision v = (v', r) /\ view_ok v' /\ same_rest v v' /\
    spec_set a value revision (contents (memberships_ v)) = (contents (memberships_ v'), r).
Proof.
  intros Hv. pose proof Hv as [Hx Ho]. unfold SetMembershipLocked, spec_set.
  rewrite (lookup_fmap entry (memberships_ v) a : contents (memberships_ v) !! a = _).
  rewrite (map_size_fmap entry (memberships_ v) : base.size (contents (memberships_ v)) = _).
  destruct (memberships_ v !! a) as [state|] eqn:Ea; cbn [fmap option_fmap option_map entry from_option id].
  - destruct (revision <=? es_revision state); [by exists v, (Ok tt)|].
    rewrite (insert_id _ _ _ Ea). destruct (update_ready_spec a state _ _ value revision Hx Ea) as (s' & m' & c' & -> & Hx' & Hc).
    do 2 eexists. split; [done|]. split; [by split|]. split; [done|]. cbn [memberships_ set_memberships].
    rewrite contents_insert, Hc. done.
  - destruct (_ <? _); [|by exists v, (Err K_TRY_AGAIN)]. set (state := {| es_value := None |}).
    destruct (update_ready_spec a state (<[a := state]> (memberships_ v)) (readyCandidateAddresses_ v) value revision)
      as (s' & m' & c' & -> & Hx' & Hc); [by apply index_emplace|apply lookup_insert_eq|].
    do 2 eexists. split; [done|]. split; [by split|]. split; [done|]. cbn [memberships_ set_memberships].
    rewrite contents_insert, Hc, contents_insert. unfold entry. cbn. by rewrite insert_insert_eq.
Qed.

Definition spec_all {A} (entry_of : A -> option (string * option MembershipValue * Z)) (l : list A)
    (c : gmap string (option MembershipValue * Z)) : gmap string (option MembershipValue * Z) * res unit :=
  foldl (fun '(c, r) x =>
    match r, entry_of x with
    | Ok _, Some (address, value, revision) => spec_set address value revision c
    | _, _ => (c, r)
    end) (c, Ok tt) l.

Lemma same_rest_trans v1 v2 v3 : same_rest v1 v2 -> same_rest v2 v3 -> same_rest v1 v3.
Proof. intros (? & ? & ?) (? & ? & ?). repeat split; congruence. Qed.

Lemma set_all_spec {A} (entry_of : A -> option (string * option MembershipValue * Z)) l v : view_ok v ->
  exists v' r, set_all entry_of l v = (v', r) /\ view_ok v' /\ same_rest v v' /\
    spec_all entry_of l (contents (memberships_ v)) = (contents (memberships_ v'), r).
Proof.
  intros Hv. unfold set_all, spec_all. induction l as [|x l IH] using rev_ind; [by exists v, (Ok tt)|].
  rewrite !foldl_app. destruct IH as (v1 & r1 & -> & Hv1 & Hr1 & ->). cbn [foldl].
  destruct r1 as [[]|code]; [|by exists v1, (Err code)]. destruct (entry_of x) as [[[a value] revision]|]; [|by exists v1, (Ok tt)].
  destruct (SetMembershipLocked_spec a value revision v1 Hv1) as (v2 & r2 & -> & Hv2 & Hr2 & ->).
  exists v2, r2. split_and!; [done..| |done]. by apply same_rest_trans with v1.
Qed.

(** The newer of a stored entry and a new one. *)
Definition newer (old : option (option MembershipValue * Z)) (value : option MembershipValue) (revision : Z)
    : option MembershipValue * Z :=
  match old with Some (w, r) => if revision <=? r then (w, r) else (value, revision) | None => (value, revision) end.

Lemma spec_set_Ok a value revision c c' : spec_set a value revision c = (c', Ok tt) ->
  forall b, c' !! b = if decide (a = b) then Some (newer (c !! a) value revision) else c !! b.
Proof.
  unfold spec_set, newer. intros Hs b. destruct (c !! a) as [[w r]|] eqn:Ea.
  - destruct (revision <=? r); injection Hs as <-; case_decide as Hab; subst; rewrite ?lookup_insert_eq, ?lookup_insert_ne by done; done.
  - destruct (_ <? _); [|done]. injection Hs as <-. case_decide as Hab; subst; rewrite ?lookup_insert_eq, ?lookup_insert_ne by done; done.
Qed.

Lemma spec_all_snoc {A} (entry_of : A -> option (string * option MembershipValue * Z)) l x c c' :
  spec_all entry_of (l ++ [x]) c = (c', Ok tt) -> exists c1, spec_all entry_of l c = (c1, Ok tt) /\
    match entry_of x with Some (a, value, revision) => spec_set a value revision c1 = (c', Ok tt) | None => c' = c1 end.
Proof.
  unfold spec_all. rewrite foldl_app. cbn [foldl]. destruct (foldl _ _ l) as [c1 [[]|code]]; [|done]. intros Hs.
  exists c1. split; [done|]. destruct (entry_of x) as [[[a value] revision]|]; [done|]. by injection Hs as <-.
Qed.

(** Entries with distinct addresses are merged one by one. *)
Lemma spec_all_Ok {A} (entry_of : A -> option (string * option MembershipValue * Z)) l c c' :
  spec_all entry_of l c = (c', Ok tt) -> NoDup (fst ∘ fst <$> omap entry_of l) ->
  (forall a value revision, (a, value, revision) ∈ omap entry_of l -> c' !! a = Some (newer (c !! a) value revision)) /\
  (forall a, a ∉ fst ∘ fst <$> omap entry_of l -> c' !! a = c !! a).
Proof.
  revert c'. induction l as [|x l IH] using rev_ind; intros c' Hs Hnd.
  { injection Hs as <-. split; [by intros ??? ?%not_elem_of_nil|done]. }
  apply spec_all_snoc in Hs as (c1 & Hs1 & Hx). rewrite omap_app, fmap_app in Hnd |- *. cbn in Hnd |- *.
  destruct (entry_of x) as [[[a value] revision]|]; cbn in Hnd |- *.
  2: { subst c'. rewrite !app_nil_r in *. by apply IH. }
  apply NoDup_app in Hnd as (Hnd & Hnot & _). destruct (IH c1 Hs1 Hnd) as [IH1 IH2]. clear IH.
  assert (Ha : a ∉ fst ∘ fst <$> omap entry_of l) by (intros Hin; apply (Hnot _ Hin); left).
  pose proof (spec_set_Ok _ _ _ _ _ Hx) as Hl. split.
  - intros b w r Hin. rewrite Hl. apply elem_of_app in Hin as [Hin|Hin].
    + rewrite decide_False; [by apply IH1|]. intros ->. apply Ha. by apply (list_elem_of_fmap_2 (fst ∘ fst)) in Hin.
    + apply list_elem_of_singleton in Hin. injection Hin as -> -> ->. rewrite decide_True by done. by rewrite IH2.
  - intros b Hb. rewrite Hl. rewrite decide_False; [apply IH2|]; set_solver.
Qed.

(** ** The history of the membership table *)

Record StoreEvent := { ev_revision : Z; ev_address : string; ev_value : option MembershipValue }.

(** The mutations of the table in the order of their revisions. *)
Record history_ok (H : list StoreEvent) : Prop := {
  ho_sorted : StronglySorted (fun e e' => ev_revision e < ev_revision e') H;
  ho_positive e : e ∈ H -> 0 < ev_revision e
}.

(** What the store holds for [a] at revision [R]. *)
Definition latest (H : list StoreEvent) (a : string) (R : Z) : option MembershipValue :=
  foldl (fun value e => if bool_decide (ev_address e = a) && (ev_revision e <=? R) then ev_value e else value) None H.

Lemma latest_skip H a R value : (forall e, e ∈ H -> R < ev_revision e) ->
  foldl (fun value e => if bool_decide (ev_address e = a) && (ev_revision e <=? R) then ev_value e else value) value H = value.
Proof.
  revert value. induction H as [|e H IH]; intros value He; [done|]. cbn [foldl].
  rewrite (proj2 (Z.leb_gt (ev_revision e) R)) by (apply He; left). rewrite andb_false_r. apply IH. intros; apply He; by right.
Qed.

Lemma latest_event H e : history_ok H -> e ∈ H -> latest H (ev_address e) (ev_revision e) = ev_value e.
Proof.
  intros [Hs _] (l1 & l2 & ->)%list_elem_of_split. unfold latest. rewrite foldl_app. cbn [foldl].
  rewrite bool_decide_true, Z.leb_refl by done. cbn [andb]. apply latest_skip. intros e' He'.
  induction l1 as [|x l1 IH]; cbn [app] in Hs; apply StronglySorted_inv in Hs as [Hs Hf]; [|by apply IH].
  rewrite Forall_forall in Hf. by apply Hf.
Qed.

Lemma latest_zero H a : history_ok H -> latest H a 0 = None.
Proof. intros [_ Hp]. apply latest_skip. auto. Qed.

(** ** The view follows the store *)

(** What a membership value tells; a refresh does not carry the compatibility version. *)
Definition fact (v : MembershipValue) : Z * MemberLifecycleState * string := (mv_timestamp v, mv_lifecycleState v, mv_hostId v).

Definition view_value (v : MembershipEndpointView) (a : string) : option MembershipValue :=
  match memberships_ v !! a with Some state => es_value state | None => None end.

(** The revision of the store the view has for [a]. *)
Definition view_revision (v : MembershipEndpointView) (a : string) : Z :=
  match memberships_ v !! a with Some state => es_revision state | None => snapshotRevision_ v end.

(** A range read of the table at revision [R]. *)
Record range_read (H : list StoreEvent) (R : Z) (members : list MembershipRecord) : Prop := {
  rr_addresses : NoDup (mr_address <$> members);
  rr_sound m : m ∈ members -> fact <$> latest H (mr_address m) R = Some (fact (record_value m));
  rr_complete a : latest H a R <> None -> a ∈ mr_address <$> members
}.

Record synced (H : list StoreEvent) (v : MembershipEndpointView) : Prop := {
  sy_ok : view_ok v;
  sy_value a : fact <$> view_value v a = fact <$> latest H a (view_revision v a);
  sy_revision a : snapshotRevision_ v <= view_revision v a
}.

Lemma view_contents v a :
  view_value v a = match contents (memberships_ v) !! a with Some (value, _) => value | None => None end /\
  view_revision v a = match contents (memberships_ v) !! a with Some (_, r) => r | None => snapshotRevision_ v end.
Proof. unfold view_value, view_revision, contents. rewrite lookup_fmap. by destruct (memberships_ v !! a). Qed.

(** One event of the history, delivered past the fence. *)
Lemma set_event H v v' e : history_ok H -> synced H v -> e ∈ H -> snapshotRevision_ v < ev_revision e ->
  SetMembershipLocked (ev_address e) (ev_value e) (ev_revision e) v = (v', Ok tt) ->
  synced H v' /\ snapshotRevision_ v' = snapshotRevision_ v /\ ev_revision e <= view_revision v' (ev_address e) /\
  forall a, view_revision v a <= view_revision v' a.
Proof.
  intros HH [Hok Hv Hr] He Hlt Hs.
  destruct (SetMembershipLocked_spec (ev_address e) (ev_value e) (ev_revision e) v Hok) as (v1 & r1 & Hs1 & Hok1 & (Hsr & _) & Hspec).
  rewrite Hs in Hs1. injection Hs1 as <- <-. pose proof (spec_set_Ok _ _ _ _ _ Hspec) as Hl.
  assert (Hall : forall a, fact <$> view_value v' a = fact <$> latest H a (view_revision v' a) /\
    view_revision v a <= view_revision v' a /\ (a = ev_address e -> ev_revision e <= view_revision v' a)).
  { intros a. specialize (Hv a). specialize (Hr a). destruct (view_contents v a) as [V1 V2], (view_contents v' a) as [V1' V2'].
    rewrite Hl in V1', V2'. case_decide as Ha; [subst a|by rewrite V1', V2', Hsr, <- V1, <- V2; split_and!; [done|lia|]].
    unfold newer in V1', V2'. destruct (contents (memberships_ v) !! ev_address e) as [[w r]|]; cbn in *.
    - destruct (ev_revision e <=? r) eqn:El; rewrite V1', V2', V2 in *; split_and!; try lia.
      + by rewrite <- Hv, V1.
      + by rewrite latest_event.
    - rewrite V1', V2', V2 in *. split_and!; try lia. by rewrite latest_event. }
  split_and!; [split; [done|intros a; apply Hall|]|done|by apply Hall|intros a; apply Hall].
  intros a. destruct (Hall a) as (_ & Hm & _). specialize (Hr a). lia.
Qed.

Section Refresh.
Context `{MapIterationLaws}.

Lemma iterate_elem {V} (m : gmap string V) a x : (a, x) ∈ iterate m <-> m !! a = Some x.
Proof. rewrite iterate_perm. apply elem_of_map_to_list. Qed.

Lemma newer_entries_NoDup R (m : gmap string MembershipState) : NoDup (fst ∘ fst <$> omap (newer_entry R) (iterate m)).
Proof.
  assert (Hnd : NoDup (iterate m).*1) by (rewrite iterate_perm; apply NoDup_fst_map_to_list).
  assert (Hsub : fst ∘ fst <$> omap (newer_entry R) (iterate m) `sublist_of` (iterate m).*1).
  { induction (iterate m) as [|[a s] l IH]; [done|]. cbn. unfold newer_entry at 1. cbn.
    apply NoDup_cons in Hnd as [_ Hnd]. destruct (_ <? _); cbn; constructor; by apply IH. }
  by eapply sublist_NoDup.
Qed.

(** What the first loop keeps: the entries newer than the range read. *)
Lemma kept_entries R (m : gmap string MembershipState) c : spec_all (newer_entry R) (iterate m) ∅ = (c, Ok tt) ->
  forall a, c !! a = match m !! a with Some s => if R <? es_revision s then Some (entry s) else None | None => None end.
Proof.
  intros Hs a. destruct (spec_all_Ok _ _ _ _ Hs (newer_entries_NoDup R m)) as [Hin Hout].
  assert (Helem : forall value r, (a, value, r) ∈ omap (newer_entry R) (iterate m) <->
    exists s, m !! a = Some s /\ R < es_revision s /\ entry s = (value, r)).
  { intros value r. rewrite list_elem_of_omap. split.
    - intros ([b s] & Hb%iterate_elem & He). unfold newer_entry in He. cbn in He. destruct (R <? _) eqn:E; [|done].
      injection He as -> <- <-. exists s. split_and!; [done|lia|done].
    - intros (s & Ha & Hlt & He). exists (a, s). split; [by apply iterate_elem|]. unfold newer_entry. cbn.
      rewrite (proj2 (Z.ltb_lt _ _)) by done. unfold entry in He. by injection He as <- <-. }
  destruct (m !! a) as [s|] eqn:Ea; [destruct (R <? es_revision s) eqn:E|].
  - rewrite (Hin a (es_value s) (es_revision s)); [done|]. apply Helem. exists s. split_and!; [done|lia|done].
  - rewrite Hout; [done|]. intros ([[b value] r] & -> & Hb)%list_elem_of_fmap. cbn in *.
    apply Helem in Hb as (s' & [= <-] & Hlt & _). lia.
  - rewrite Hout; [done|]. intros ([[b value] r] & -> & Hb)%list_elem_of_fmap. cbn in *. by apply Helem in Hb as (s' & ? & _).
Qed.

Lemma record_entries R (members : list MembershipRecord) : omap (record_entry R) members =
  (fun m => (mr_address m, Some (record_value m), R)) <$> members.
Proof. induction members as [|m l IH]; [done|]. cbn. by rewrite IH. Qed.

Lemma new_view_ok b : view_ok (new_MembershipEndpointView b).
Proof.
  split; [|done]. intros i a. cbn. split; [by rewrite lookup_nil|]. intros (s & Hs & _). by rewrite lookup_empty in Hs.
Qed.

(** The table a successful refresh installs. *)
Lemma RefreshMemberships_Ok members R v v' : view_ok v -> 0 < R -> snapshotRevision_ v <= R -> NoDup (mr_address <$> members) ->
  RefreshMemberships members R v = (v', Ok tt) ->
  view_ok v' /\ snapshotRevision_ v' = R /\ forall a,
    contents (memberships_ v') !! a =
      match memberships_ v !! a with
      | Some s => if R <? es_revision s then Some (entry s) else
          (fun m => (Some (record_value m), R)) <$> (snd <$> list_find (fun m => mr_address m = a) members)
      | None => (fun m => (Some (record_value m), R)) <$> (snd <$> list_find (fun m => mr_address m = a) members)
      end.
Proof.
  intros [Hx Ho] HR Hle Hnd. unfold RefreshMemberships. rewrite (proj2 (Z.ltb_lt 0 R)) by done. cbn [negb].
  rewrite (proj2 (Z.ltb_ge R (snapshotRevision_ v))) by done.
  destruct (set_all_spec (newer_entry R) (iterate (memberships_ v)) _ (new_view_ok (writeRedirectEnabled_ v)))
    as (v1 & r1 & -> & Hv1 & _ & Hs1). destruct r1 as [[]|code]; [|done].
  destruct (set_all_spec (record_entry R) members _ Hv1) as (v2 & r2 & -> & Hv2 & _ & Hs2). destruct r2 as [[]|code]; [|done].
  intros [= <-]. split; [split; [apply Hv2|exact Ho]|]. split; [done|]. intros a. cbn [memberships_ set_memberships].
  change (contents (memberships_ (new_MembershipEndpointView _))) with (entry <$> (∅ : gmap string MembershipState)) in Hs1.
  rewrite fmap_empty in Hs1. pose proof (kept_entries R _ _ Hs1 a) as Hk.
  assert (Hfst : fst ∘ fst <$> omap (record_entry R) members = mr_address <$> members).
  { rewrite record_entries, <- list_fmap_compose. done. }
  destruct (spec_all_Ok _ _ _ _ Hs2) as [Hin Hout]; [by rewrite Hfst|]. rewrite Hfst in Hout.
  destruct (list_find _ members) as [[i m]|] eqn:Ef; cbn.
  - apply list_find_Some in Ef as (Hi%list_elem_of_lookup_2 & <- & _).
    rewrite (Hin (mr_address m) (Some (record_value m)) R), Hk.
    2: { rewrite record_entries. by apply (list_elem_of_fmap_2 (fun m => (mr_address m, Some (record_value m), R))). }
    destruct (memberships_ v !! mr_address m) as [s|]; [|done]. destruct (R <? es_revision s) eqn:E; [|done]. cbn.
    by rewrite (proj2 (Z.leb_le R (es_revision s))) by lia.
  - rewrite Hout, Hk; [done|]. intros (m & -> & Hm)%list_elem_of_fmap. apply list_find_None in Ef.
    rewrite Forall_forall in Ef. by apply (Ef m Hm).
Qed.

(** The record of [a] in a range read, as an entry of the refreshed table. *)
Definition read_entry (members : list MembershipRecord) (R : Z) (a : string) : option (option MembershipValue * Z) :=
  (fun m => (Some (record_value m), R)) <$> (snd <$> list_find (fun m => mr_address m = a) members).

Lemma read_entry_spec H1 members R a : range_read H1 R members ->
  fact <$> match read_entry members R a with Some (value, _) => value | None => None end = fact <$> latest H1 a R /\
  match read_entry members R a with Some (_, r) => r | None => R end = R.
Proof.
  intros [Rn Rs Rc]. unfold read_entry. destruct (list_find _ members) as [[i m]|] eqn:Ef; cbn; (split; [|done]).
  - apply list_find_Some in Ef as (Hi%list_elem_of_lookup_2 & <- & _). by rewrite Rs.
  - destruct (latest H1 a R) eqn:El; [|done]. exfalso. apply list_find_None in Ef. rewrite Forall_forall in Ef.
    destruct (proj1 (list_elem_of_fmap mr_address members a) (Rc a ltac:(congruence))) as (m' & Ha & Hm). by apply (Ef m' Hm).
Qed.

Lemma refresh_synced H1 members R v v' : history_ok H1 -> synced H1 v -> range_read H1 R members -> 0 < R ->
  snapshotRevision_ v <= R -> RefreshMemberships members R v = (v', Ok tt) ->
  synced H1 v' /\ forall a, R <= view_revision v' a /\ view_revision v a <= view_revision v' a.
Proof.
  intros HH [Hok Hv Hr] Hrr HR Hle Hs.
  destruct (RefreshMemberships_Ok members R v v' Hok HR Hle (rr_addresses _ _ _ Hrr) Hs) as (Hok' & HS & Hl).
  assert (Hall : forall a, fact <$> view_value v' a = fact <$> latest H1 a (view_revision v' a) /\
    R <= view_revision v' a /\ view_revision v a <= view_revision v' a).
  { intros a. specialize (Hv a). destruct (view_contents v' a) as [V1 V2]. rewrite Hl in V1, V2. rewrite HS in V2.
    fold (read_entry members R a) in V1, V2. destruct (read_entry_spec H1 members R a Hrr) as [F1 F2].
    unfold view_value, view_revision in Hv. unfold view_revision at 3.
    destruct (memberships_ v !! a) as [s|] eqn:Ea; [destruct (R <? es_revision s) eqn:E|].
    - cbn in V1, V2. rewrite V1, V2. split_and!; [done|lia|lia].
    - rewrite F2 in V2. rewrite V1, V2. split_and!; [done|lia|lia].
    - rewrite F2 in V2. rewrite V1, V2. split_and!; [done|lia|lia]. }
  split; [split; [done|intros a; apply Hall|]|intros a; apply Hall]. intros a. rewrite HS. apply Hall.
Qed.
End Refresh.

(** ** Sequences of operations *)

Inductive ViewOp :=
  | VEvent (e : StoreEvent)
  | VRefresh (members : list MembershipRecord) (revision : Z)
  | VClear
  | VObserve (loaded : res TopologySnapshot) (observation : EndpointObservation)
  | VRemoveStale (loaded : res TopologySnapshot).

Section Operations.
Context `{MapIterationLaws}.

(** A watch event is an update when it carries a value and a deletion otherwise. *)
Definition apply_view (v : MembershipEndpointView) (op : ViewOp) : MembershipEndpointView * res unit :=
  match op with
  | VEvent e =>
      match ev_value e with
      | Some value => UpdateMembership (ev_address e) value (ev_revision e) v
      | None => DeleteMembership (ev_address e) (ev_revision e) v
      end
  | VRefresh members revision => RefreshMemberships members revision v
  | VClear => (ClearMemberships v, Ok tt)
  | VObserve loaded observation => UpdateObservation loaded observation v
  | VRemoveStale loaded => (RemoveStaleObservations loaded v, Ok tt)
  end.

Definition view_op_valid (history : list StoreEvent) (op : ViewOp) : Prop :=
  match op with
  | VEvent e => e ∈ history
  | VRefresh members revision => range_read history revision members
  | _ => True
  end.

(** The newest revision that reached the view for [a] since the last clear. *)
Definition delivered (a : string) (floor : Z) (op : ViewOp) (r : res unit) : Z :=
  match op, r with
  | VEvent e, Ok _ => if decide (ev_address e = a) then Z.max floor (ev_revision e) else floor
  | VRefresh _ revision, Ok _ => Z.max floor revision
  | VClear, _ => 0
  | _, _ => floor
  end.

Definition run_view (a : string) (ops : list ViewOp) (v : MembershipEndpointView) : MembershipEndpointView * Z :=
  foldl (fun '(v, floor) op => let '(v', r) := apply_view v op in (v', delivered a floor op r)) (v, 0) ops.

Lemma event_op v e : 0 < ev_revision e -> apply_view v (VEvent e) =
  if ev_revision e <=? snapshotRevision_ v then (v, Ok tt)
  else SetMembershipLocked (ev_address e) (ev_value e) (ev_revision e) v.
Proof.
  intros He. cbn. unfold UpdateMembership, DeleteMembership. rewrite (proj2 (Z.ltb_lt 0 _)) by done. by destruct (ev_value e).
Qed.

Lemma contents_synced history v v' : view_ok v' -> synced history v -> snapshotRevision_ v' = snapshotRevision_ v ->
  contents (memberships_ v') = contents (memberships_ v) -> synced history v' /\ forall a, view_revision v' a = view_revision v a.
Proof.
  intros Hok [_ Hv Hr] HS Hc.
  assert (Hall : forall a, view_value v' a = view_value v a /\ view_revision v' a = view_revision v a).
  { intros a. destruct (view_contents v a) as [E1 E2], (view_contents v' a) as [E3 E4]. by rewrite E1, E2, E3, E4, Hc, HS. }
  split; [split; [done|..]|]; intros a; destruct (Hall a) as [E1 E2]; rewrite ?E1, ?E2, ?HS; auto.
Qed.

Lemma event_synced history v v' e r : history_ok history -> synced history v -> e ∈ history ->
  apply_view v (VEvent e) = (v', r) -> synced history v' /\ (forall a, view_revision v a <= view_revision v' a) /\
  (r = Ok tt -> ev_revision e <= view_revision v' (ev_address e)).
Proof.
  intros HH Hs He. pose proof (ho_positive _ HH e He) as Hp. rewrite event_op by done.
  destruct (_ <=? _) eqn:El.
  { intros [= <- <-]. split; [done|]. split; [intros a; lia|]. intros _. pose proof (sy_revision _ _ Hs (ev_address e)). lia. }
  destruct (SetMembershipLocked_spec (ev_address e) (ev_value e) (ev_revision e) v (sy_ok _ _ Hs)) as (v1 & r1 & E & Hok & (HS & _) & Hc).
  intros Heq. rewrite Heq in E. injection E as <- <-. destruct r as [[]|code].
  - destruct (set_event history v v' e) as (H1 & _ & H2 & H3); [done..|lia|done|]. by split_and!.
  - assert (Hcc : contents (memberships_ v') = contents (memberships_ v)).
    { unfold spec_set in Hc. destruct (_ !! _) as [[w z]|]; [by destruct (_ <=? z)|]. destruct (_ <? _); [done|]. by injection Hc. }
    destruct (contents_synced history v v' Hok Hs HS Hcc) as [H1 H2]. split_and!; [done| |done]. intros a. rewrite H2. lia.
Qed.

Lemma refresh_op_synced history v v' members R r : history_ok history -> synced history v -> range_read history R members ->
  RefreshMemberships members R v = (v', r) -> synced history v' /\ (forall a, view_revision v a <= view_revision v' a) /\
  (r = Ok tt -> forall a, R <= view_revision v' a).
Proof.
  intros HH Hs Hrr Heq. destruct r as [[]|code].
  - destruct (decide (0 < R)) as [HR|HR].
    2: { unfold RefreshMemberships in Heq. by rewrite (proj2 (Z.ltb_ge 0 R)) in Heq by lia. }
    destruct (decide (snapshotRevision_ v <= R)) as [Hle|Hle].
    + destruct (refresh_synced history members R v v') as [H1 H2]; [done..|]. split_and!; [done|intros a; apply H2|intros _ a; apply H2].
    + unfold RefreshMemberships in Heq. rewrite (proj2 (Z.ltb_lt 0 R)), (proj2 (Z.ltb_lt R _)) in Heq by lia.
      injection Heq as <-. split_and!; [done|intros a; lia|]. intros _ a. pose proof (sy_revision _ _ Hs a). lia.
  - assert (v' = v) as ->; [|split_and!; [done|intros a; lia|done]].
    unfold RefreshMemberships in Heq. by repeat case_match; simplify_eq.
Qed.

(** Operations on the observations keep the table. *)
Lemma observe_rest loaded observation v : view_ok v -> view_ok (UpdateObservation loaded observation v).1 /\
  memberships_ (UpdateObservation loaded observation v).1 = memberships_ v /\
  readyCandidateAddresses_ (UpdateObservation loaded observation v).1 = readyCandidateAddresses_ v /\
  snapshotRevision_ (UpdateObservation loaded observation v).1 = snapshotRevision_ v.
Proof.
  intros Hv. pose proof Hv as [Hx Ho]. unfold UpdateObservation. destruct loaded as [s|]; [|done].
  destruct (observation_current _ _ _); [|done]. destruct (match _ !! _ with Some _ => _ | None => _ end); [|done]. by split.
Qed.

Lemma remove_rest loaded v : view_ok v -> view_ok (RemoveStaleObservations loaded v) /\
  memberships_ (RemoveStaleObservations loaded v) = memberships_ v /\
  readyCandidateAddresses_ (RemoveStaleObservations loaded v) = readyCandidateAddresses_ v /\
  snapshotRevision_ (RemoveStaleObservations loaded v) = snapshotRevision_ v.
Proof.
  intros Hv. pose proof Hv as [Hx Ho]. unfold RemoveStaleObservations. destruct loaded as [s|]; [|done].
  split; [|done]. split; [done|]. cbn. intros Hb%negb_false_iff. by apply bool_decide_eq_true in Hb.
Qed.

Lemma view_op_synced history v op v' r : history_ok history -> synced history v -> view_op_valid history op ->
  apply_view v op = (v', r) -> synced history v' /\
  forall a floor, floor <= view_revision v a -> delivered a floor op r <= view_revision v' a.
Proof.
  intros HH Hs Hop Heq. destruct op as [e|members R| |loaded observation|loaded]; cbn [delivered].
  - destruct (event_synced history v v' e r HH Hs Hop Heq) as (H1 & H2 & H3). split; [done|]. intros a floor Hf.
    specialize (H2 a). destruct r as [[]|]; [|lia]. case_decide as Ha; [|lia]. specialize (H3 eq_refl). rewrite Ha in H3. lia.
  - destruct (refresh_op_synced history v v' members R r HH Hs Hop Heq) as (H1 & H2 & H3). split; [done|]. intros a floor Hf.
    specialize (H2 a). destruct r as [[]|]; [|lia]. specialize (H3 eq_refl a). lia.
  - injection Heq as <- <-. assert (Hall : forall a, view_value (ClearMemberships v) a = None /\ view_revision (ClearMemberships v) a = 0)
      by (intros a; unfold view_value, view_revision; cbn; by rewrite lookup_empty).
    split; [split|].
    + destruct (new_view_ok true) as [Hx _]. split; [exact Hx|]. apply (sy_ok _ _ Hs).
    + intros a. destruct (Hall a) as [E1 E2]. by rewrite E1, E2, latest_zero.
    + intros a. destruct (Hall a) as [E1 E2]. by rewrite E2.
    + intros a floor _. destruct (Hall a) as [E1 E2]. by rewrite E2.
  - cbn in Heq. destruct (observe_rest loaded observation v (sy_ok _ _ Hs)) as (H1 & H2 & _ & H3). rewrite Heq in H1, H2, H3. cbn in H1, H2, H3.
    destruct (contents_synced history v v' H1 Hs H3) as [H4 H5]; [by rewrite H2|]. split; [done|]. intros a floor Hf.
    rewrite H5. by destruct r.
  - injection Heq as <- <-. destruct (remove_rest loaded v (sy_ok _ _ Hs)) as (H1 & H2 & _ & H3).
    destruct (contents_synced history v _ H1 Hs H3) as [H4 H5]; [by rewrite H2|]. split; [done|]. intros a floor Hf. by rewrite H5.
Qed.

Lemma new_view_synced history b : history_ok history -> synced history (new_MembershipEndpointView b).
Proof.
  intros HH. split; [apply new_view_ok|..]; intros a; unfold view_value, view_revision; cbn; rewrite lookup_empty; [|done].
  by rewrite latest_zero.
Qed.

Lemma run_view_synced history a ops v floor : history_ok history -> Forall (view_op_valid history) ops ->
  synced history v -> floor <= view_revision v a ->
  let '(v', floor') := foldl (fun '(v, floor) op => let '(v', r) := apply_view v op in (v', delivered a floor op r)) (v, floor) ops in
  synced history v' /\ floor' <= view_revision v' a.
Proof.
  intros HH Hops. revert v floor. induction Hops as [|op ops Hop _ IH]; intros v floor Hs Hf; cbn [foldl]; [done|].
  destruct (apply_view v op) as [v1 r] eqn:E. destruct (view_op_synced history v op v1 r HH Hs Hop E) as [H1 H2]. apply IH; auto.
Qed.

(** C33: The view of an address is always what the membership table of the store held for it at one revision, and
    that revision is at least the snapshot fence and every event and range read delivered so far: events may
    arrive in any order, repeatedly and interleaved with range reads of any age, a deleted member is not
    resurrected by an older update, and no delivered change is undone. *)
Theorem view_tracks_store history redirect a ops :
  history_ok history -> Forall (view_op_valid history) ops ->
  let '(v, floor) := run_view a ops (new_MembershipEndpointView redirect) in
  exists revision, floor <= revision /\ snapshotRevision_ v <= revision /\
    fact <$> view_value v a = fact <$> latest history a revision.
Proof.
  intros HH Hops. pose proof (run_view_synced history a ops (new_MembershipEndpointView redirect) 0 HH Hops
    (new_view_synced history redirect HH)) as Hrun. unfold run_view.
  destruct (foldl _ _ ops) as [v floor]. destruct Hrun as [[_ Hv Hr] Hf].
  - unfold view_revision. cbn. by rewrite lookup_empty.
  - exists (view_revision v a). split_and!; [done|apply Hr|apply Hv].
Qed.

(** ** The candidate index *)

Lemma RefreshMemberships_ok members R v : view_ok v ->
  view_ok (RefreshMemberships members R v).1 /\ (RefreshMemberships members R v).2 <> Err K_RUNTIME_ERROR.
Proof.
  intros Hv. pose proof Hv as [Hx Ho]. unfold RefreshMemberships. destruct (negb _); [done|]. destruct (_ <? _); [done|].
  assert (Hne : forall A (f : A -> option (string * option MembershipValue * Z)) l c, (spec_all f l c).2 <> Err K_RUNTIME_ERROR).
  { intros A f l c. unfold spec_all. induction l as [|x l IH] using rev_ind; [done|]. rewrite foldl_app. cbn [foldl].
    destruct (foldl _ _ l) as [c1 [[]|code]]; [|done]. destruct (f x) as [[[b w] z]|]; [|done]. unfold spec_set.
    destruct (c1 !! b) as [[? ?]|]; [by destruct (_ <=? _)|]. by destruct (_ <? _). }
  destruct (set_all_spec (newer_entry R) (iterate (memberships_ v)) _ (new_view_ok (writeRedirectEnabled_ v)))
    as (v1 & r1 & -> & Hv1 & _ & Hs1).
  pose proof (Hne _ (newer_entry R) (iterate (memberships_ v)) (contents (memberships_ (new_MembershipEndpointView (writeRedirectEnabled_ v))))) as N1.
  rewrite Hs1 in N1. destruct r1 as [[]|code]; [|done].
  destruct (set_all_spec (record_entry R) members _ Hv1) as (v2 & r2 & -> & Hv2 & _ & Hs2).
  pose proof (Hne _ (record_entry R) members (contents (memberships_ v1))) as N2. rewrite Hs2 in N2.
  destruct r2 as [[]|code]; [|done]. split; [|done]. split; [apply Hv2|exact Ho].
Qed.

Lemma set_ok a value revision v : view_ok v ->
  view_ok (SetMembershipLocked a value revision v).1 /\ (SetMembershipLocked a value revision v).2 <> Err K_RUNTIME_ERROR.
Proof.
  intros Hv. destruct (SetMembershipLocked_spec a value revision v Hv) as (v' & r & -> & H1 & _ & Hs). split; [done|]. cbn. intros ->.
  unfold spec_set in Hs. destruct (_ !! _) as [[? ?]|]; [by destruct (_ <=? _)|]. by destruct (_ <? _).
Qed.

Definition table_op (op : ViewOp) : bool := match op with VObserve _ _ => false | _ => true end.

Lemma view_op_ok op v : view_ok v -> view_ok (apply_view v op).1 /\ (table_op op = true -> (apply_view v op).2 <> Err K_RUNTIME_ERROR).
Proof.
  intros Hv. destruct op as [e|members R| |loaded observation|loaded]; cbn.
  - unfold UpdateMembership, DeleteMembership.
    destruct (ev_value e); (destruct (negb _); [done|]); (destruct (_ <=? _); [done|]);
      pose proof (set_ok (ev_address e)) as Hset; split; [apply Hset|intros _; apply Hset|apply Hset|intros _; apply Hset]; done.
  - destruct (RefreshMemberships_ok members R v Hv). done.
  - destruct (new_view_ok true) as [Hx _]. split; [split; [exact Hx|apply Hv]|done].
  - destruct (observe_rest loaded observation v Hv). done.
  - destruct (remove_rest loaded v Hv). done.
Qed.

Lemma fold_view_ok redirect ops : view_ok (foldl (fun v op => (apply_view v op).1) (new_MembershipEndpointView redirect) ops).
Proof. induction ops as [|o ops IH] using rev_ind; [apply new_view_ok|]. rewrite foldl_app. cbn [foldl]. by apply view_op_ok. Qed.

Lemma index_facts v : view_ok v -> NoDup (readyCandidateAddresses_ v) /\
  (forall a, a ∈ readyCandidateAddresses_ v <-> is_ready (view_value v a) = true) /\
  (forall i a, readyCandidateAddresses_ v !! i = Some a -> es_readyIndex <$> memberships_ v !! a = Some i).
Proof.
  intros [Hx _]. split_and!.
  - apply NoDup_alt. intros i j a (s & Hs & _ & <-)%Hx (s' & Hs' & _ & <-)%Hx. congruence.
  - intros a. unfold view_value. split.
    + intros (i & (s & -> & Hr & _)%Hx)%list_elem_of_lookup_1. done.
    + intros Hr. destruct (memberships_ v !! a) as [s|] eqn:E; [|done]. apply list_elem_of_lookup_2 with (es_readyIndex s), Hx. by exists s.
  - intros i a (s & -> & _ & <-)%Hx. done.
Qed.

(** After any sequence of events, range reads, clears and observations the dense candidate list holds every
    ready member exactly once and nobody else, each at the slot its entry names, so the operation that reports
    an inconsistent index never does. *)
Theorem candidate_index_consistent redirect ops op :
  let v := foldl (fun v op => (apply_view v op).1) (new_MembershipEndpointView redirect) ops in
  NoDup (readyCandidateAddresses_ v) /\
  (forall a, a ∈ readyCandidateAddresses_ v <-> is_ready (view_value v a) = true) /\
  (forall i a, readyCandidateAddresses_ v !! i = Some a -> es_readyIndex <$> memberships_ v !! a = Some i) /\
  (table_op op = true -> (apply_view v op).2 <> Err K_RUNTIME_ERROR).
Proof.
  cbn zeta. pose proof (fold_view_ok redirect ops) as Hv. destruct (index_facts _ Hv) as (H1 & H2 & H3).
  split_and!; [done..|]. by apply view_op_ok.
Qed.
End Operations.

(** ** Write candidates *)

(** The candidate list read from slot [s] on. *)
Definition rotate (s : nat) (l : list string) : list string := drop s l ++ take s l.

Lemma rotate_lookup s k (l : list string) : (s < length l)%nat -> (k < length l)%nat ->
  l !! Z.to_nat ((Z.of_nat s + Z.of_nat k) mod Z.of_nat (length l)) = rotate s l !! k.
Proof.
  intros Hs Hk. unfold rotate. destruct (decide (s + k < length l)%nat) as [Hlt|Hge].
  - rewrite Z.mod_small by lia. rewrite lookup_app_l by (rewrite length_drop; lia). rewrite lookup_drop. f_equal. lia.
  - rewrite lookup_app_r by (rewrite length_drop; lia). rewrite length_drop, lookup_take_lt by lia.
    replace (Z.of_nat s + Z.of_nat k) with (Z.of_nat (k - (length l - s)) + 1 * Z.of_nat (length l)) by lia.
    rewrite Z.mod_add, Z.mod_small by lia. f_equal. lia.
Qed.

Lemma rotate_perm s l : rotate s l ≡ₚ l.
Proof. unfold rotate. rewrite (Permutation_app_comm (drop s l) (take s l)). by rewrite take_drop. Qed.

Lemma scan_candidates_spec ok l s max n : forall k acc, (s < length l)%nat -> (k + n <= length l)%nat -> (length acc < max)%nat ->
  scan_candidates ok l (Z.of_nat s) max (Z.of_nat k) n acc =
  acc ++ take (max - length acc) (List.filter ok (take n (drop k (rotate s l)))).
Proof.
  induction n as [|n IH]; intros k acc Hs Hk Hacc; cbn [scan_candidates]; [by rewrite take_0; cbn; rewrite take_nil, app_nil_r|].
  rewrite rotate_lookup by lia.
  assert (Hlen : length (rotate s l) = length l) by (by rewrite rotate_perm).
  destruct (lookup_lt_is_Some_2 (rotate s l) k) as [a Ha]; [lia|]. rewrite Ha.
  rewrite (drop_S _ _ _ Ha). cbn [take List.filter].
  assert (Hsucc : Z.of_nat k + 1 = Z.of_nat (S k)) by lia. rewrite Hsucc.
  destruct (ok a); [|by apply IH; lia]. rewrite length_app. cbn [length].
  destruct (Nat.eqb_spec (length acc + 1) max) as [He|He].
  - replace (max - length acc)%nat with 1%nat by lia. cbn [take]. done.
  - rewrite IH by (rewrite ?length_app; cbn; lia). rewrite length_app, <- app_assoc. cbn [app length].
    replace (max - length acc)%nat with (S (max - (length acc + 1))) by lia. done.
Qed.

Section Candidates.
Context `{RE2, SHA256} `{MapIterationLaws} `{StringHash}.

Lemma eligible_member st snapshot excluded v a : snapshot_of st snapshot -> view_ok v -> eligible snapshot excluded v a = true ->
  a <> excluded /\ exists member, FindMemberByAddress a snapshot = Ok member /\ m_state member = ACTIVE /\
    ResolveLocalAvailability member (Version snapshot) v <> EP_UNREACHABLE.
Proof.
  intros Hs _ He. unfold eligible in He. case_bool_decide as Hx; [done|]. split; [done|].
  pose proof (FindMemberByAddress_spec st snapshot a Hs) as Hf. destruct (FindMemberByAddress a snapshot) as [m|]; [|done].
  destruct Hf as [_ Ha]. exists m. split; [done|]. case_bool_decide as Hact; [|done]. split; [done|]. cbn in He.
  unfold ResolveLocalAvailability. rewrite Hact, decide_False by done. destruct (hasObservations_ v); [|done]. cbn.
  rewrite Ha. destruct (observationsByAddress_ v !! a) as [o|]; [|done].
  destruct (bool_decide (eo_identity o = _)); [|done]. destruct (_ =? _); [|done]. cbn in He |- *.
  apply negb_true_iff in He. by apply bool_decide_eq_false in He.
Qed.

(** The candidates are the first usable addresses from the start slot on. *)
Lemma GetWriteCandidates_eq snapshot excluded key max v : (0 < max)%nat -> (Z.of_nat max * 4 < 2 ^ 64) ->
  readyCandidateAddresses_ v <> [] -> exists s, (s < length (readyCandidateAddresses_ v))%nat /\
  GetWriteCandidates (Ok snapshot) excluded key max v =
    take max (List.filter (eligible snapshot excluded v)
      (take (Nat.min (length (readyCandidateAddresses_ v)) (max * 4)) (rotate s (readyCandidateAddresses_ v)))).
Proof.
  intros Hm Hlt Hne. set (l := readyCandidateAddresses_ v) in *.
  assert (Hlen : (0 < length l)%nat) by (destruct l; [done|cbn; lia]).
  set (start := selection_seed key excluded mod Z.of_nat (length l)).
  pose proof (Z.mod_pos_bound (selection_seed key excluded) (Z.of_nat (length l)) ltac:(lia)) as Hb. fold start in Hb.
  exists (Z.to_nat start). split; [lia|]. unfold GetWriteCandidates. fold l.
  rewrite (proj2 (Nat.eqb_neq max 0)) by lia. replace (is_empty l) with false by (by destruct l). fold start.
  unfold CANDIDATE_SCAN_FACTOR. rewrite u64_small by lia.
  replace (Z.to_nat (Z.min _ _)) with (Nat.min (length l) (max * 4)) by lia.
  replace start with (Z.of_nat (Z.to_nat start)) at 1 by lia.
  rewrite (scan_candidates_spec _ _ _ _ _ 0 []) by (cbn; lia). cbn [length app drop]. by rewrite Nat.sub_0_r.
Qed.

(** The write candidates are distinct, at most as many as asked for, and each is a ready member of the view,
    an ACTIVE member of the loaded topology, not the excluded address, and not observed unreachable in this
    topology. When the scan limit covers the whole candidate list, all usable members are returned unless the
    requested number was reached. *)
Theorem write_candidates_sound st snapshot redirect ops excluded key max :
  snapshot_of st snapshot -> Z.of_nat max * 4 < 2 ^ 64 ->
  let v := foldl (fun v op => (apply_view v op).1) (new_MembershipEndpointView redirect) ops in
  let found := GetWriteCandidates (Ok snapshot) excluded key max v in
  NoDup found /\ (length found <= max)%nat /\
  (forall a, a ∈ found -> is_ready (view_value v a) = true /\ a <> excluded /\
     exists member, FindMemberByAddress a snapshot = Ok member /\ m_state member = ACTIVE /\
       ResolveLocalAvailability member (Version snapshot) v <> EP_UNREACHABLE) /\
  ((length (readyCandidateAddresses_ v) <= max * 4)%nat -> (length found < max)%nat ->
     forall a, is_ready (view_value v a) = true -> eligible snapshot excluded v a = true -> a ∈ found).
Proof.
  intros Hs Hlt. cbn zeta. pose proof (fold_view_ok redirect ops) as Hv. revert Hv.
  generalize (foldl (fun v op => (apply_view v op).1) (new_MembershipEndpointView redirect) ops). intros v Hv.
  destruct (index_facts v Hv) as (Hnd & Hin & _).
  destruct (decide (max = 0%nat)) as [->|Hm].
  { cbn. split_and!; [constructor|lia|by intros a ?%not_elem_of_nil|lia]. }
  destruct (decide (readyCandidateAddresses_ v = [])) as [Hnil|Hnil].
  { unfold GetWriteCandidates. rewrite (proj2 (Nat.eqb_neq max 0)), Hnil by done. cbn.
    split_and!; [constructor|lia|by intros a ?%not_elem_of_nil|]. intros _ _ a Hr%Hin. rewrite Hnil in Hr. by apply not_elem_of_nil in Hr. }
  destruct (GetWriteCandidates_eq snapshot excluded key max v ltac:(lia) Hlt Hnil) as (s & Hs0 & ->).
  set (l := readyCandidateAddresses_ v) in *. set (scanned := take _ (rotate s l)). set (ok := eligible snapshot excluded v).
  assert (Hsub : take max (List.filter ok scanned) `sublist_of` rotate s l).
  { etrans; [apply sublist_take|]. etrans; [apply filter_bool_sublist|]. apply sublist_take. }
  split_and!.
  - eapply sublist_NoDup; [|exact Hsub]. by rewrite rotate_perm.
  - rewrite length_take. lia.
  - intros a Ha. split.
    + apply Hin. fold l. rewrite <- (rotate_perm s l). by eapply elem_of_sublist.
    + apply elem_of_take in Ha as (i & Hi%list_elem_of_lookup_2 & _). apply elem_of_filter_bool in Hi as [_ He]. by apply (eligible_member st).
  - intros Hcov Hshort a Hr%Hin He. rewrite length_take in Hshort.
    rewrite take_ge by lia. apply elem_of_filter_bool. split; [|done]. unfold scanned.
    rewrite take_ge by (rewrite rotate_perm; lia). by rewrite rotate_perm.
Qed.
End Candidates.

(** ** Witnesses *)

Import Demo ReferenceEngine ReferenceDigest.

#[local] Instance map_order : MapIteration := {| iterate V m := map_to_list m |}.
#[local] Instance map_order_laws : MapIterationLaws.
Proof. constructor. intros V m. reflexivity. Qed.
#[local] Instance length_hash : StringHash := fun s => Z.of_nat (String.length s).

Definition ready_value (timestamp : Z) : MembershipValue :=
  {| mv_timestamp := timestamp; mv_lifecycleState := LC_READY; mv_hostId := "h"; mv_compatibilityVersion := "" |}.
Definition put (revision : Z) (i : MemberIdentity) : StoreEvent :=
  {| ev_revision := revision; ev_address := mi_address i; ev_value := Some (ready_value revision) |}.
Definition gone (revision : Z) (i : MemberIdentity) : StoreEvent :=
  {| ev_revision := revision; ev_address := mi_address i; ev_value := None |}.

(** A and B register, A leaves, C registers. *)
Definition table_history : list StoreEvent := [put 1 idA; put 2 idB; gone 3 idA; put 4 idC].

Lemma table_history_ok : history_ok table_history.
Proof.
  split; [repeat constructor|]. intros e He.
  repeat (apply elem_of_cons in He as [->|He]; [reflexivity|]). by apply not_elem_of_nil in He.
Qed.

(** The deletion of A overtakes its registration; a range read at revision 2 arrives late. *)
Definition record_at (timestamp : Z) (i : MemberIdentity) : MembershipRecord :=
  {| mr_address := mi_address i; mr_state := LC_READY; mr_timestamp := timestamp; mr_hostId := "h" |}.
Definition disorder : list ViewOp :=
  [VEvent (gone 3 idA); VEvent (put 4 idC); VEvent (put 1 idA); VRefresh [record_at 1 idA; record_at 2 idB] 2].

Lemma read_at_2 : range_read table_history 2 [record_at 1 idA; record_at 2 idB].
Proof.
  split.
  - apply NoDup_cons. split; [|apply NoDup_singleton]. intros H%list_elem_of_singleton. discriminate H.
  - intros m Hm. repeat (apply elem_of_cons in Hm as [->|Hm]; [reflexivity|]). by apply not_elem_of_nil in Hm.
  - intros a Ha. destruct (decide (a = mi_address idA)) as [->|HA]; [left|].
    destruct (decide (a = mi_address idB)) as [->|HB]; [right; left|]. exfalso. apply Ha. unfold latest. cbn.
    rewrite (bool_decide_false (mi_address idA = a)), (bool_decide_false (mi_address idB = a)) by (intros H; by subst). cbn.
    by rewrite !andb_false_r.
Qed.

Lemma disorder_valid : Forall (view_op_valid table_history) disorder.
Proof.
  apply Forall_cons. split; [right; right; left|]. apply Forall_cons. split; [right; right; right; left|].
  apply Forall_cons. split; [left|]. apply Forall_singleton. exact read_at_2.
Qed.

Lemma view_tracks_store_witness :
  (let '(v, floor) := run_view (mi_address idA) disorder (new_MembershipEndpointView true) in
   floor = 3 /\ view_value v (mi_address idA) = None) /\
  let '(v, floor) := run_view (mi_address idA) disorder (new_MembershipEndpointView true) in
  exists revision, floor <= revision /\ snapshotRevision_ v <= revision /\
    fact <$> view_value v (mi_address idA) = fact <$> latest table_history (mi_address idA) revision.
Proof.
  split; [vm_compute; split; reflexivity|].
  pose proof (view_tracks_store table_history true (mi_address idA) disorder table_history_ok disorder_valid) as Hview.
  exact Hview.
Defined.

Lemma candidate_index_consistent_witness :
  readyCandidateAddresses_ (foldl (fun v op => (apply_view v op).1) (new_MembershipEndpointView true) disorder)
    ≡ₚ [mi_address idB; mi_address idC] /\
  NoDup (readyCandidateAddresses_ (foldl (fun v op => (apply_view v op).1) (new_MembershipEndpointView true) disorder)).
Proof.
  split; [|exact (proj1 (candidate_index_consistent true disorder VClear))].
  vm_compute. first [reflexivity | apply perm_swap].
Defined.

(** A is gone and B is leaving, so only C can take a write. *)
Lemma write_candidates_sound_witness : exists s, snapshot_of stable_ABC s /\
  let v := foldl (fun v op => (apply_view v op).1) (new_MembershipEndpointView true) disorder in
  let found := GetWriteCandidates (Ok s) (mi_address idA) "key" 2 v in
  found = [mi_address idC] /\ NoDup found.
Proof.
  destruct (Create stable_ABC 5 demo_digest ∅ true "c") as [s|code] eqn:E; [|vm_compute in E; discriminate E].
  assert (Hs : snapshot_of stable_ABC s) by (exists 5, demo_digest, ∅, true, "c"%string; exact E).
  exists s. split; [exact Hs|].
  assert (Hm : Z.of_nat 2 * 4 < 2 ^ 64) by (vm_compute; reflexivity).
  pose proof (write_candidates_sound stable_ABC s true disorder (mi_address idA) "key" 2 Hs Hm) as [Hnd _].
  split; [|exact Hnd]. vm_compute in E. injection E as <-. vm_compute. reflexivity.
Defined.
