(* ===== verification/TopologyReader.v ===== *)
(** * Reading snapshots of the topology

    src/datasystem/cluster/runtime/topology_reader.cpp: a read through the
    repository, encoded again for its digest and combined with the host ids of
    the membership view. *)

From S2P Require Import Prelude Ordered TopologyTypes HashRing BalancedRing TokenPlacement HostPort KeyHelper Hasher.
From S2P Require Import RingTheory HashAlgorithm OwnerSpec PlanningInterface HashPlans Snapshot RepositoryCodec.
From S2P Require Import MembershipTypes MembershipCodec EndpointView.
From S2P Require Import MemoryKvStore TtlManager WatchRegistry WatchDispatcher CoordinatorStore StoreProgram BackendInterface.
From S2P Require Import TopologyRepository.

Section reader.
Context `{RE2, SHA256, Protobuf ClusterTopologyPb, MapIteration}.

Definition BuildFromState (state : TopologyState) (authorityRevision : Z) (hostIds : gmap string string)
    (hostIdsKnown : bool) (coordinatorId : string) : res TopologySnapshot :=
  canonical ← EncodeTopology state;
  digest ← GetSha256Hex canonical;
  Snapshot.Create state authorityRevision digest hostIds hostIdsKnown coordinatorId.

Definition BuildFromEncodedTopology (value : string) (authorityRevision : Z) (hostIds : gmap string string)
    (hostIdsKnown : bool) (coordinatorId : string) : res TopologySnapshot :=
  _ ← check (0 <? authorityRevision) K_INVALID;
  state ← DecodeTopology value;
  BuildFromState state authorityRevision hostIds hostIdsKnown coordinatorId.

Context `{CoordinationBackend} (keys_ : TopologyKeyHelper) (membership_ : option MembershipEndpointView).

(** [hostIds] and [hostIdsKnown]. *)
Definition host_ids : gmap string string * bool :=
  match membership_ with
  | Some view => match GetHostIds view with Ok hostIds => (hostIds, true) | Err _ => (∅, false) end
  | None => (∅, false)
  end.

Definition ReadTopologyOnly (timeoutMs : Z) : prog (res TopologySnapshot) :=
  _ ⇐ lift (check (0 <? timeoutMs) K_INVALID);
  '(state, revision, coordinatorId) ⇐ ReadTopology keys_ timeoutMs;
  Ret (BuildFromState state revision ∅ false coordinatorId).

Definition Read (timeoutMs : Z) : prog (res TopologySnapshot) :=
  _ ⇐ lift (check (0 <? timeoutMs) K_INVALID);
  '(state, revision, coordinatorId) ⇐ ReadTopology keys_ timeoutMs;
  Ret (BuildFromState state revision host_ids.1 host_ids.2 coordinatorId).

(** [None] when unchanged. *)
Definition ReadIfChanged (timeoutMs : Z) (knownSnapshot : TopologySnapshot) : prog (res (option TopologySnapshot)) :=
  let knownAuthorityRevision := authorityRevision_ knownSnapshot in
  _ ⇐ lift (check (0 <? timeoutMs) K_INVALID);
  _ ⇐ lift (check (0 <? knownAuthorityRevision) K_INVALID);
  '(changed, coordinatorId) ⇐ ReadTopologyIfChanged keys_ timeoutMs knownAuthorityRevision (coordinatorId_ knownSnapshot);
  let '(hostIds, hostIdsKnown) := host_ids in
  match changed with
  | None =>
      if negb hostIdsKnown || (hostIdsKnown_ knownSnapshot && bool_decide (hostIds_ knownSnapshot = hostIds))
      then Ret (Ok None)
      else Ret (Some <$> BuildFromState (state_ knownSnapshot) knownAuthorityRevision hostIds hostIdsKnown coordinatorId)
  | Some (state, revision) => Ret (Some <$> BuildFromState state revision hostIds hostIdsKnown coordinatorId)
  end.
End reader.
