(* ===== verification/TopologyTaskJanitor.v ===== *)
(** * The task janitor

    src/datasystem/cluster/control/topology_task_janitor.cpp: one pass removes
    task records, metadata markers and notifications that no longer belong to the
    topology it read.  Thread start and stop and the logging of a pass are not
    modelled. *)

From S2P Require Import Prelude Ordered TopologyTypes HashRing BalancedRing TokenPlacement HostPort KeyHelper Hasher.
From S2P Require Import RingTheory HashAlgorithm OwnerSpec PlanningInterface HashPlans Snapshot RepositoryCodec.
From S2P Require Import MembershipTypes MembershipCodec EndpointView.
From S2P Require Import MemoryKvStore TtlManager WatchRegistry WatchDispatcher CoordinatorStore StoreProgram BackendInterface.
From S2P Require Import TopologyRepository TopologyReader TaskMaterializer.

Definition JANITOR_READ_TIMEOUT_MS : Z := 3000.
Definition MAX_SCAN_LIMIT : Z := 8192.
Definition MAX_DELETE_BATCH : Z := 8192.
Definition TASK_EPOCH_OFFSET : nat := 3.
Definition SCALE_IN_MARKER_EPOCH_OFFSET : nat := 1.
Definition SCALE_IN_MARKER_MIN_KEY_SIZE : nat := 3.

#[global] Instance TopologyTaskNotify_eq_dec : EqDecision TopologyTaskNotify.
Proof. solve_decision. Defined.

Definition SameNotify (left right : TopologyTaskNotify) : bool :=
  bool_decide (tn_activeBatch left = tn_activeBatch right) && bool_decide (tn_taskIds left = tn_taskIds right) &&
  bool_decide (tn_restartTimestampsByAddress left = tn_restartTimestampsByAddress right).

(** [std::from_chars] of a whole [uint64_t] text. *)
Definition from_chars_u64 (s : string) : option Z :=
  if negb (bool_decide (s = EmptyString)) && all_chars is_digit s && (read_digits 0 s <? 2 ^ 64)
  then Some (read_digits 0 s) else None.

Definition positive_epoch (s : string) : option Z :=
  match from_chars_u64 s with Some epoch => if epoch =? 0 then None else Some epoch | None => None end.

Definition TaskEpoch (taskId : string) : option Z :=
  match find_from "-" TASK_EPOCH_OFFSET taskId with
  | None => None
  | Some separator =>
      if (separator =? TASK_EPOCH_OFFSET)%nat then None
      else positive_epoch (substr TASK_EPOCH_OFFSET (separator - TASK_EPOCH_OFFSET) taskId)
  end.

Definition ScaleInMarkerEpoch (key : string) : option Z :=
  match find_char "/" key with
  | None => None
  | Some separator =>
      if (String.length key <? SCALE_IN_MARKER_MIN_KEY_SIZE)%nat || negb (bool_decide (String.get 0 key = Some "e"%char)) ||
         (separator <=? SCALE_IN_MARKER_EPOCH_OFFSET)%nat
      then None
      else positive_epoch (substr SCALE_IN_MARKER_EPOCH_OFFSET (separator - SCALE_IN_MARKER_EPOCH_OFFSET) key)
  end.

Record TopologyTaskJanitorOptions := { jo_interval : Z; jo_scanLimit : nat; jo_deleteBatch : nat }.

Definition IsValid (o : TopologyTaskJanitorOptions) : bool :=
  (0 <? jo_interval o) && (0 <? jo_scanLimit o)%nat && (Z.of_nat (jo_scanLimit o) <=? MAX_SCAN_LIMIT) &&
  (0 <? jo_deleteBatch o)%nat && (Z.of_nat (jo_deleteBatch o) <=? MAX_DELETE_BATCH) && (jo_deleteBatch o <=? jo_scanLimit o)%nat.

(** [scannedCount], [attemptedCount] and [changedCount]. *)
Record Counts := { ct_scanned : nat; ct_attempted : nat; ct_changed : nat }.
Definition scanned (n : nat) (c : Counts) : Counts :=
  {| ct_scanned := ct_scanned c + n; ct_attempted := ct_attempted c; ct_changed := ct_changed c |}.
Definition attempted (c : Counts) : Counts :=
  {| ct_scanned := ct_scanned c; ct_attempted := S (ct_attempted c); ct_changed := ct_changed c |}.
Definition changed (b : bool) (c : Counts) : Counts :=
  {| ct_scanned := ct_scanned c; ct_attempted := ct_attempted c; ct_changed := if b then S (ct_changed c) else ct_changed c |}.

(** A loop over candidates: [None] skips the candidate, [Some p] attempts [p]. *)
Fixpoint for_candidates {C} (deleteLimit : nat) (action : C -> option (prog (res bool))) (candidates : list C) (counts : Counts)
    : prog (Counts * res unit) :=
  match candidates with
  | [] => Ret (counts, Ok tt)
  | candidate :: candidates =>
      if (deleteLimit <=? ct_changed counts)%nat then Ret (counts, Ok tt)
      else match action candidate with
      | None => for_candidates deleteLimit action candidates counts
      | Some attempt =>
          r ← attempt;
          match r with
          | Err code => Ret (attempted counts, Err code)
          | Ok deleted => for_candidates deleteLimit action candidates (changed deleted (attempted counts))
          end
      end
  end.

(** The page of candidates, the cursor after it, and the loop over the page. *)
Definition pass {C} (list_candidates : string -> prog (res (string * list C))) (cursor : string)
    (loop : list C -> Counts -> prog (Counts * res unit)) (counts : Counts) : prog (string * Counts * res unit) :=
  r ← list_candidates cursor;
  match r with
  | Err code => Ret (cursor, counts, Err code)
  | Ok (cursor, candidates) =>
      r ← loop candidates (scanned (length candidates) counts);
      Ret (cursor, r.1, r.2)
  end.

Section janitor.
Context `{RE2, SHA256, IPlanningAlgorithm}.
Context `{Protobuf ClusterTopologyPb, Protobuf MigrateTaskPb, Protobuf DeleteNodeTaskPb, Protobuf TaskNotifyPb}.
Context `{Protobuf WorkerServiceInfoPb, MapIteration, CoordinationBackend}.
Context (keys_ : TopologyKeyHelper) (options_ : TopologyTaskJanitorOptions).

Definition stale (epoch : option Z) (maximumStaleEpoch : Z) : bool :=
  match epoch with Some epoch => negb (maximumStaleEpoch <? epoch) | None => false end.

Definition DeleteStaleTasks (kind : TopologyTaskKind) (expectedIds : list string) (maximumStaleEpoch : Z) (cursor : string)
    (counts : Counts) : prog (string * Counts * res unit) :=
  pass (ListTaskCandidatesForJanitor keys_ kind (jo_scanLimit options_)) cursor
    (for_candidates (jo_deleteBatch options_) (fun candidate =>
       if bool_decide (jc_taskId candidate ∈ expectedIds) then None
       else if negb (stale (TaskEpoch (jc_taskId candidate)) maximumStaleEpoch) then None
       else Some (DeleteTaskIfMatches keys_ candidate))) counts.

Definition DeleteStaleScaleInMetadataMarkers (maximumStaleEpoch : Z) (cursor : string) (counts : Counts)
    : prog (string * Counts * res unit) :=
  pass (ListScaleInMetadataDoneCandidatesForJanitor keys_ (jo_scanLimit options_)) cursor
    (for_candidates (jo_deleteBatch options_) (fun candidate =>
       if negb (stale (ScaleInMarkerEpoch (mc_key candidate)) maximumStaleEpoch) then None
       else Some (DeleteScaleInMetadataDoneIfMatches keys_ candidate))) counts.

Definition empty_notify : TopologyTaskNotify :=
  {| tn_activeBatch := None; tn_taskIds := []; tn_restartTimestampsByAddress := [] |}.

(** The expected notification, with the restart facts of members still present. *)
Definition notify_replacement (expectedNotifies : list (string * TopologyTaskNotify)) (presentAddresses : list string)
    (candidate : NotifyJanitorCandidate) : TopologyTaskNotify :=
  let replacement := default empty_notify (om_find (nc_address candidate) expectedNotifies) in
  if bool_decide (nc_address candidate ∈ presentAddresses) then
    {| tn_activeBatch := tn_activeBatch replacement; tn_taskIds := tn_taskIds replacement;
       tn_restartTimestampsByAddress :=
         foldl (fun facts fact => if bool_decide (fact.1 ∈ presentAddresses) then om_insert fact.1 fact.2 facts else facts)
           (tn_restartTimestampsByAddress replacement) (tn_restartTimestampsByAddress (nc_notify candidate)) |}
  else replacement.

Definition ReconcileNotifies (expectedNotifies : list (string * TopologyTaskNotify)) (cursor : string) (counts : Counts)
    : prog (string * Counts * res unit) :=
  pass (ListNotifyCandidatesForJanitor keys_ (jo_scanLimit options_)) cursor
    (fun candidates counts =>
       r ← ReadMemberships keys_;
       match r with
       | Err code => Ret (counts, Err code)
       | Ok (memberships, _) =>
           let presentAddresses := mr_address <$> memberships in
           for_candidates (jo_deleteBatch options_) (fun candidate =>
             let replacement := notify_replacement expectedNotifies presentAddresses candidate in
             if negb (nc_logicallyDeleted candidate) && SameNotify (nc_notify candidate) replacement then None
             else Some (ReconcileNotifyIfMatches keys_
               {| nc_address := nc_address candidate; nc_notify := replacement; nc_matchToken := nc_matchToken candidate;
                  nc_logicallyDeleted := nc_logicallyDeleted candidate |})) candidates counts
       end) counts.

(** The cursors kept between passes. *)
Record Cursors := {
  migrateTaskCursor_ : string; deleteTaskCursor_ : string; scaleInMarkerCursor_ : string; notifyCursor_ : string
}.

Definition maximum_stale_epoch (latest : TopologySnapshot) : Z :=
  match ts_activeBatch (state_ latest) with Some batch => ab_epoch batch - 1 | None => Version latest end.

(** [RunOnce] after the reads: the four cleanups, each only if the previous one succeeded. *)
Definition run_pass (latest : TopologySnapshot) (expected : ExpectedDerivedState) (cs : Cursors)
    : prog (Cursors * Counts * res unit) :=
  let expectedIds := task_id <$> ed_tasks expected in
  let maximumStaleEpoch := maximum_stale_epoch latest in
  let zero := {| ct_scanned := 0; ct_attempted := 0; ct_changed := 0 |} in
  '(c1, counts, r) ← DeleteStaleTasks MIGRATE expectedIds maximumStaleEpoch (migrateTaskCursor_ cs) zero;
  let cs := {| migrateTaskCursor_ := c1; deleteTaskCursor_ := deleteTaskCursor_ cs;
               scaleInMarkerCursor_ := scaleInMarkerCursor_ cs; notifyCursor_ := notifyCursor_ cs |} in
  if negb (is_ok r) then Ret (cs, counts, r) else
  '(c2, counts, r) ← DeleteStaleTasks DELETE_MEMBER expectedIds maximumStaleEpoch (deleteTaskCursor_ cs) counts;
  let cs := {| migrateTaskCursor_ := migrateTaskCursor_ cs; deleteTaskCursor_ := c2;
               scaleInMarkerCursor_ := scaleInMarkerCursor_ cs; notifyCursor_ := notifyCursor_ cs |} in
  if negb (is_ok r) then Ret (cs, counts, r) else
  '(c3, counts, r) ← DeleteStaleScaleInMetadataMarkers maximumStaleEpoch (scaleInMarkerCursor_ cs) counts;
  let cs := {| migrateTaskCursor_ := migrateTaskCursor_ cs; deleteTaskCursor_ := deleteTaskCursor_ cs;
               scaleInMarkerCursor_ := c3; notifyCursor_ := notifyCursor_ cs |} in
  if negb (is_ok r) then Ret (cs, counts, r) else
  '(c4, counts, r) ← ReconcileNotifies (ed_notifiesByAddress expected) (notifyCursor_ cs) counts;
  Ret ({| migrateTaskCursor_ := migrateTaskCursor_ cs; deleteTaskCursor_ := deleteTaskCursor_ cs;
          scaleInMarkerCursor_ := scaleInMarkerCursor_ cs; notifyCursor_ := c4 |}, counts, r).

Definition RunOnce (cs : Cursors) : prog (Cursors * res unit) :=
  latest ← Read keys_ None JANITOR_READ_TIMEOUT_MS;
  match latest with
  | Err code => Ret (cs, Err code)
  | Ok latest =>
      match RebuildExpected latest [] false with
      | Err code => Ret (cs, Err code)
      | Ok expected =>
          if match ts_activeBatch (state_ latest) with Some batch => 0 <? ab_epoch batch | None => true end then
            r ← run_pass latest expected cs;
            Ret (r.1.1, r.2)
          else Ret (cs, Err K_INVALID)
      end
  end.
End janitor.
