(* ===== verification/JanitorClaims.v ===== *)
(** * Properties of the task janitor *)

From S2P Require Import Prelude Ordered TopologyTypes HashRing BalancedRing TokenPlacement HostPort KeyHelper Hasher.
From S2P Require Import RingTheory HashAlgorithm OwnerSpec PlanningInterface HashPlans Snapshot RepositoryCodec CodecClaims.
From S2P Require Import MembershipTypes MembershipCodec EndpointView.
From S2P Require Import MemoryKvStore TtlManager WatchRegistry WatchDispatcher CoordinatorStore StoreProgram BackendInterface.
From S2P Require Import StoreBackend BackendTheory TopologyRepository TopologyReader TaskMaterializer TaskIdentity TopologyTaskJanitor RepositoryClaims.

(** ** Epochs in identifiers *)

Lemma pretty_digits n : 0 < n -> all_chars is_digit (pretty n) = true /\ read_digits 0 (pretty n) = n /\ pretty n <> EmptyString.
Proof.
  intros Hn. destruct (pretty_epoch n Hn) as (c & p & Hp & _ & Hd). rewrite Hp. split_and!; [done| |done]. rewrite <-Hp.
  destruct n as [|q|q]; [lia| |lia]. change (pretty (Z.pos q)) with (pretty (N.pos q)). unfold pretty, pretty_N.
  rewrite decide_False by done. by rewrite read_digits_pretty_go.
Qed.

Lemma positive_epoch_pretty epoch : 0 < epoch < 2 ^ 64 -> positive_epoch (pretty epoch) = Some epoch.
Proof.
  intros He. destruct (pretty_digits epoch) as (Hd & Hr & Hne); [lia|]. unfold positive_epoch, from_chars_u64.
  rewrite bool_decide_false, Hd, Hr, (proj2 (Z.ltb_lt _ _)) by (done || lia). cbn.
  by rewrite (proj2 (Z.eqb_neq _ _)) by lia.
Qed.

Lemma prefix_split a s : String.prefix a s = true -> exists rest, s = a +:+ rest.
Proof.
  revert s. induction a as [|x a IH]; intros s; [by exists s|]. destruct s as [|y s]; [done|]. cbn [String.prefix].
  destruct (ascii_dec x y) as [->|]; [|done]. intros (rest & ->)%IH. by exists rest.
Qed.

Lemma find_char_stop c p rest : all_chars is_digit p = true -> is_digit c = false ->
  find_char c (p +:+ String c rest) = Some (String.length p).
Proof.
  intros Hp Hc. induction p as [|x p IH].
  - change (EmptyString +:+ String c rest) with (String c rest). cbn. by rewrite decide_True.
  - unfold all_chars in *. cbn in Hp. apply andb_prop in Hp as [Hx Hp]. rewrite append_String. cbn.
    rewrite decide_False by congruence. by rewrite (IH Hp).
Qed.

Definition kind_char (kind : TopologyTaskKind) : ascii := match kind with MIGRATE => "m" | DELETE_MEMBER => "d" end.

Section epochs.
Context `{RE2}.

(** The janitor recovers the epoch a task was created for from its identifier. *)
Lemma TaskEpoch_of_context id kind epoch u : 0 < epoch < 2 ^ 64 -> ValidateTaskContext id kind epoch = Ok u ->
  TaskEpoch id = Some epoch.
Proof.
  intros He Hv. unfold ValidateTaskContext in Hv. apply bind_Ok in Hv as (u' & _ & Hp%check_Ok).
  apply prefix_split in Hp as [rest ->]. destruct (pretty_digits epoch) as (Hd & _ & Hne); [lia|].
  rewrite !str_app_assoc. change ("-" +:+ rest) with (String "-" rest). unfold TaskEpoch, find_from.
  change TASK_EPOCH_OFFSET with (String.length (String kind "-e")) at 1 2.
  rewrite substr_from_app, find_char_stop by done. cbn [fmap option_fmap option_map].
  change (String.length (String kind "-e")) with 3%nat. change TASK_EPOCH_OFFSET with 3%nat.
  destruct (Nat.eqb_spec (3 + String.length (pretty epoch)) 3) as [E|_].
  { destruct (pretty epoch); [done|cbn in E; lia]. }
  replace (3 + String.length (pretty epoch) - 3)%nat with (String.length (pretty epoch)) by lia.
  unfold substr. change 3%nat with (String.length (String kind "-e")). rewrite substring_mid. by apply positive_epoch_pretty.
Qed.

(** Likewise for a metadata marker. *)
Lemma MarkerEpoch_of_key epoch sourceId taskId key : 0 < epoch < 2 ^ 64 ->
  ScaleInMetadataDoneKey epoch sourceId taskId = Ok key -> ScaleInMarkerEpoch key = Some epoch.
Proof.
  intros He Hk. unfold ScaleInMetadataDoneKey in Hk. apply bind_Ok in Hk as (prefix & Hp & Hk).
  apply bind_Ok in Hk as (k & _ & [= <-]). unfold ScaleInMetadataDonePrefix in Hp.
  apply bind_Ok in Hp as (u1 & _ & Hp). apply bind_Ok in Hp as (u2 & _ & [= <-]).
  rewrite !str_app_assoc. change ("/" +:+ EncodeScaleInMetadataSourceId sourceId +:+ ?x)
    with (String "/" (EncodeScaleInMetadataSourceId sourceId +:+ x)).
  set (rest := EncodeScaleInMetadataSourceId sourceId +:+ _). destruct (pretty_digits epoch) as (Hd & _ & Hne); [lia|].
  unfold ScaleInMarkerEpoch. change ("e" +:+ ?x) with (String "e" x).
  assert (find_char "/" (String "e" (pretty epoch +:+ String "/" rest)) = Some (S (String.length (pretty epoch)))) as ->.
  { cbn. by rewrite find_char_stop. }
  assert (0 < String.length (pretty epoch))%nat by (destruct (pretty epoch); [done|cbn; lia]).
  assert ((String.length (String "e" (pretty epoch +:+ String "/" rest)) <? SCALE_IN_MARKER_MIN_KEY_SIZE)%nat = false) as ->.
  { apply Nat.ltb_ge. cbn [String.length]. rewrite str_length_app. cbn [String.length]. unfold SCALE_IN_MARKER_MIN_KEY_SIZE. lia. }
  rewrite bool_decide_true by done. cbn [negb orb]. unfold SCALE_IN_MARKER_EPOCH_OFFSET.
  rewrite (proj2 (Nat.leb_gt _ _)) by lia.
  replace (S (String.length (pretty epoch)) - 1)%nat with (String.length (pretty epoch)) by lia. unfold substr.
  change 1%nat with (String.length "e"). change (String "e" ?x) with ("e" +:+ x). rewrite substring_mid. by apply positive_epoch_pretty.
Qed.
End epochs.

(** ** What one pass may change *)

Section footprint.
Context `{RE2, SHA256, IPlanningAlgorithm}.
Context `{Protobuf ClusterTopologyPb, Protobuf MigrateTaskPb, Protobuf DeleteNodeTaskPb, Protobuf TaskNotifyPb}.
Context `{Protobuf WorkerServiceInfoPb, MapIteration, CoordinationBackend, !BackendFootprint}.
Context (keys_ : TopologyKeyHelper) (options_ : TopologyTaskJanitorOptions).

(** The keys a pass over [latest] may rewrite or delete. *)
Inductive cleanup_target (latest : TopologySnapshot) (expected : ExpectedDerivedState) : string -> Prop :=
  | target_task kind id epoch : TaskEpoch id = Some epoch -> epoch <= maximum_stale_epoch latest ->
      id ∉ task_id <$> ed_tasks expected ->
      cleanup_target latest expected (BuildPhysicalKey (TaskTable keys_ kind) id)
  | target_marker key epoch : ScaleInMarkerEpoch key = Some epoch -> epoch <= maximum_stale_epoch latest ->
      cleanup_target latest expected (BuildPhysicalKey (scaleInMetadataDoneTable_ keys_) key)
  | target_notify address : cleanup_target latest expected (BuildPhysicalKey (notifyTable_ keys_) address).

Lemma stale_true e m : stale e m = true -> exists epoch, e = Some epoch /\ epoch <= m.
Proof. destruct e as [epoch|]; [|done]. cbn. intros ?%negb_true_iff%Z.ltb_ge. eauto. Qed.

Lemma for_candidates_confined {C} P limit (action : C -> option (prog (res bool))) candidates counts :
  (forall c p, action c = Some p -> confined P p) -> confined P (for_candidates limit action candidates counts).
Proof.
  intros Ha. revert counts. induction candidates as [|c l IH]; intros counts; cbn [for_candidates]; [done|].
  case_match; [done|]. destruct (action c) as [p|] eqn:E; [|apply IH].
  apply issues_bind; [by apply (Ha c)|]. intros [b|code]; [apply IH|done].
Qed.

Lemma pass_confined {C} P (lst : string -> prog (res (string * list C))) cursor loop counts :
  (forall c, confined (fun _ => False) (lst c)) -> (forall l n, confined P (loop l n)) -> confined P (pass lst cursor loop counts).
Proof.
  intros Hl Hp. apply issues_bind; [eapply confined_mono; [|apply Hl]; done|]. intros [[c l]|code]; [|done].
  apply issues_bind; [apply Hp|done].
Qed.

Lemma DeleteIfMatches_confined table key token prefix :
  confined (fun k => k = BuildPhysicalKey table key) (DeleteIfMatches table key token prefix).
Proof.
  apply issues_bind; [apply fp_CAS|]. intros [[] [r|c]]; try done. apply issues_try; [apply fp_Delete|done].
Qed.

Lemma list_confined {C} table (f : list (string * string) * Z -> prog (res C)) (n : res unit) :
  (forall r, confined (fun _ => False) (f r)) ->
  confined (fun _ => False) (try_bind (lift n) (fun _ => try_bind (be_GetAll table) f)).
Proof. intros Hf. apply issues_try; [done|]. intros u. apply issues_try; [apply fp_GetAll|done]. Qed.

Lemma DeleteStaleTasks_confined latest expected kind cursor counts :
  confined (cleanup_target latest expected)
    (DeleteStaleTasks keys_ options_ kind (task_id <$> ed_tasks expected) (maximum_stale_epoch latest) cursor counts).
Proof.
  apply pass_confined; [intros c; by apply list_confined|]. intros l n. apply for_candidates_confined.
  intros c p Hp. case_bool_decide as Hid; [done|]. destruct (stale _ _) eqn:Es; [|done]. injection Hp as <-.
  apply stale_true in Es as (epoch & He & Hle). eapply confined_mono; [|apply DeleteIfMatches_confined].
  intros k ->. by econstructor.
Qed.

Lemma DeleteStaleMarkers_confined latest expected cursor counts :
  confined (cleanup_target latest expected)
    (DeleteStaleScaleInMetadataMarkers keys_ options_ (maximum_stale_epoch latest) cursor counts).
Proof.
  apply pass_confined; [intros c; by apply list_confined|]. intros l n. apply for_candidates_confined.
  intros c p Hp. destruct (stale _ _) eqn:Es; [|done]. injection Hp as <-.
  apply stale_true in Es as (epoch & He & Hle). eapply confined_mono; [|apply DeleteIfMatches_confined].
  intros k ->. by econstructor.
Qed.

Lemma ReconcileNotifyIfMatches_confined candidate :
  confined (fun k => exists address, k = BuildPhysicalKey (notifyTable_ keys_) address) (ReconcileNotifyIfMatches keys_ candidate).
Proof.
  apply issues_try; [done|]. intros key. apply issues_try; [done|]. intros replacement.
  apply issues_bind; [eapply confined_mono; [|apply fp_CAS]; naive_solver|]. intros [matched [r|code]]; [|done].
  destruct matched; [|done]. cbn [negb]. case_bool_decide; [|done].
  apply issues_try; [eapply confined_mono; [|apply fp_Delete]; naive_solver|done].
Qed.

Lemma ReconcileNotifies_confined latest expected cursor counts :
  confined (cleanup_target latest expected)
    (ReconcileNotifies keys_ options_ (ed_notifiesByAddress expected) cursor counts).
Proof.
  apply pass_confined; [intros c; by apply list_confined|]. intros l n.
  apply issues_bind.
  { eapply confined_mono; [|apply issues_try; [apply fp_GetAll|]]; [done|]. intros r. by apply issues_try. }
  intros [[members rev]|code]; [|done]. apply for_candidates_confined. intros c p Hp.
  cbv zeta in Hp. case_match; [done|]. injection Hp as <-.
  eapply confined_mono; [|apply ReconcileNotifyIfMatches_confined]. intros k [address ->]. constructor.
Qed.

Lemma run_pass_confined latest expected cs : confined (cleanup_target latest expected) (run_pass keys_ options_ latest expected cs).
Proof.
  unfold run_pass. apply issues_bind; [apply DeleteStaleTasks_confined|]. intros [[c1 n1] r1]. case_match; [done|].
  apply issues_bind; [apply DeleteStaleTasks_confined|]. intros [[c2 n2] r2]. case_match; [done|].
  apply issues_bind; [apply DeleteStaleMarkers_confined|]. intros [[c3 n3] r3]. case_match; [done|].
  apply issues_bind; [apply ReconcileNotifies_confined|]. by intros [[c4 n4] r4].
Qed.
End footprint.

(** ** Current work is not a target *)

Definition root_of (name : string) : string :=
  if bool_decide (name = EmptyString) then ROOT_PREFIX else ROOT_PREFIX +:+ "/" +:+ name.

(** Keys below different tables of one cluster differ. *)
Lemma physical_key_inj name t1 t2 k1 k2 :
  BuildPhysicalKey (root_of name +:+ t1) k1 = BuildPhysicalKey (root_of name +:+ t2) k2 -> t1 +:+ "/" +:+ k1 = t2 +:+ "/" +:+ k2.
Proof. unfold BuildPhysicalKey. rewrite !str_app_assoc. apply (inj (String.append (root_of name))). Qed.

Section spared.
Context `{RE2}.
Context (name : string).
Abbreviation keys := (new_TopologyKeyHelper name).

Lemma current_task_spared latest expected kind id epoch u : ValidateTaskContext id (kind_char kind) epoch = Ok u ->
  maximum_stale_epoch latest < epoch < 2 ^ 64 -> 0 < epoch ->
  ~ cleanup_target keys latest expected (BuildPhysicalKey (TaskTable keys kind) id).
Proof.
  intros Hv He Hp Ht. apply TaskEpoch_of_context in Hv; [|lia].
  remember (BuildPhysicalKey (TaskTable keys kind) id) as key eqn:Hk. destruct Ht as [kind' id' epoch' He' Hle _|key' epoch' _ _|address].
  - assert (id' = id) as ->; [|rewrite Hv in He'; injection He' as <-; lia].
    destruct kind, kind'; apply (physical_key_inj name) in Hk; try discriminate Hk.
    + by apply (inj (String.append "/tasks/migrate/")) in Hk.
    + by apply (inj (String.append "/tasks/delete/")) in Hk.
  - destruct kind; apply (physical_key_inj name "/scale-in-metadata-done") in Hk; discriminate Hk.
  - destruct kind; apply (physical_key_inj name "/notify") in Hk; discriminate Hk.
Qed.

Lemma current_marker_spared latest expected epoch sourceId taskId key :
  ScaleInMetadataDoneKey epoch sourceId taskId = Ok key -> maximum_stale_epoch latest < epoch < 2 ^ 64 -> 0 < epoch ->
  ~ cleanup_target keys latest expected (BuildPhysicalKey (scaleInMetadataDoneTable_ keys) key).
Proof.
  intros Hv He Hp Ht. apply MarkerEpoch_of_key in Hv; [|lia].
  remember (BuildPhysicalKey (scaleInMetadataDoneTable_ keys) key) as k eqn:Hk. destruct Ht as [kind' id' epoch' _ _ _|key' epoch' He' Hle|address].
  - destruct kind'; apply (physical_key_inj name _ "/scale-in-metadata-done") in Hk; discriminate Hk.
  - apply (physical_key_inj name "/scale-in-metadata-done" "/scale-in-metadata-done") in Hk.
    apply (inj (String.append "/scale-in-metadata-done/")) in Hk as ->. rewrite Hv in He'. injection He' as <-. lia.
  - apply (physical_key_inj name "/notify" "/scale-in-metadata-done") in Hk. discriminate Hk.
Qed.

Lemma topology_spared latest expected : ~ cleanup_target keys latest expected (BuildPhysicalKey (topologyTable_ keys) TopologyKey).
Proof.
  intros Ht. remember (BuildPhysicalKey (topologyTable_ keys) TopologyKey) as k eqn:Hk. destruct Ht as [kind' id' epoch' _ _ _|key' epoch' _ _|address].
  - destruct kind'; apply (physical_key_inj name _ "/topology") in Hk; discriminate Hk.
  - apply (physical_key_inj name "/scale-in-metadata-done" "/topology") in Hk. discriminate Hk.
  - apply (physical_key_inj name "/notify" "/topology") in Hk. discriminate Hk.
Qed.
End spared.

Section claims.
Context `{RE2, SHA256, IPlanningAlgorithm}.
Context `{Protobuf ClusterTopologyPb, Protobuf MigrateTaskPb, Protobuf DeleteNodeTaskPb, Protobuf TaskNotifyPb}.
Context `{Protobuf WorkerServiceInfoPb, MapIteration, CoordinationBackend, !BackendFootprint}.

(** C12: whatever the store answers, that is, however other members interfere, a
    janitor pass over the topology it read rewrites or deletes only task records
    and markers whose epoch is at most the stale bound and that the topology does
    not expect, and notifications; so the topology itself and every task and
    marker of the running batch, or of a batch started after the read, is left
    alone. *)
Theorem janitor_spares_current_work name options latest expected cs : let keys := new_TopologyKeyHelper name in
  confined (fun _ => False) (Read keys None JANITOR_READ_TIMEOUT_MS) /\
  confined (cleanup_target keys latest expected) (run_pass keys options latest expected cs) /\
  ~ cleanup_target keys latest expected (BuildPhysicalKey (topologyTable_ keys) TopologyKey) /\
  (forall kind id epoch u, ValidateTaskContext id (kind_char kind) epoch = Ok u ->
     maximum_stale_epoch latest < epoch < 2 ^ 64 -> 0 < epoch ->
     ~ cleanup_target keys latest expected (BuildPhysicalKey (TaskTable keys kind) id)) /\
  (forall epoch sourceId taskId key, ScaleInMetadataDoneKey epoch sourceId taskId = Ok key ->
     maximum_stale_epoch latest < epoch < 2 ^ 64 -> 0 < epoch ->
     ~ cleanup_target keys latest expected (BuildPhysicalKey (scaleInMetadataDoneTable_ keys) key)).
Proof.
  cbv zeta. split_and!.
  - apply issues_try; [done|]. intros u. apply issues_try; [|by intros [[st rev] c]].
    apply issues_try; [done|]. intros u'. apply issues_try; [apply fp_Get|]. intros r. by apply issues_try.
  - apply run_pass_confined.
  - apply topology_spared.
  - intros kind id epoch u. apply current_task_spared.
  - intros epoch sourceId taskId key. apply current_marker_spared.
Qed.
End claims.

(** ** Witness: a pass over a store with one stale and one current task *)

Import HashPlans.Demo HostPort.ReferenceEngine Hasher.ReferenceDigest CodecClaims.ReferenceWire.

Definition digest_text : string := "0123456789abcdef0123456789abcdef".
Definition stale_id : string := "m-e3-" +:+ digest_text.
Definition current_id : string := "m-e7-" +:+ digest_text.

Definition running_topology : TopologySnapshot := BuildIndexes
  {| ts_clusterHasInit := true; ts_version := 8; ts_members := []; ts_activeBatch := Some {| ab_type := SCALE_OUT; ab_epoch := 7 |};
     ts_tokensPerMember := 2 |} 5 "" ∅ "" false "".
Definition nothing_expected : ExpectedDerivedState :=
  {| ed_tasks := []; ed_notifiesByAddress := []; ed_notifyRecipients := []; ed_canonicalRestartNotify := "" |}.
Definition task_entry : ValueEntry :=
  {| ve_value := "t"; ve_version := 1; ve_createRevision := 2; ve_modRevision := 2; ve_ttlMs := 0; ve_ttlGeneration := 1 |}.

Definition janitor_keys : TopologyKeyHelper := new_TopologyKeyHelper "demo".
Definition janitor_store : Pointers := pointers_to
  {| memKvStore_ := {| data_ := [(BuildPhysicalKey (migrateTaskTable_ janitor_keys) stale_id, task_entry);
                                 (BuildPhysicalKey (migrateTaskTable_ janitor_keys) current_id, task_entry)];
                       revision_ := 9; hasMutationCallback_ := true |};
     watchDispatcher_ := new_WatchDispatcher 1 new_WatchRegistry; ttlManager_ := new_TtlManager |}.

Definition janitor_options : TopologyTaskJanitorOptions := {| jo_interval := 60; jo_scanLimit := 8; jo_deleteBatch := 4 |}.
Definition first_pass : prog (Cursors * Counts * res unit) :=
  run_pass janitor_keys janitor_options running_topology nothing_expected
    {| migrateTaskCursor_ := ""; deleteTaskCursor_ := ""; scaleInMarkerCursor_ := ""; notifyCursor_ := "" |}.

Lemma janitor_spares_current_work_witness :
  (let '(_, counts, r, p) := run 0 first_pass janitor_store in
   ct_changed counts = 1%nat /\ r = Ok tt /\ stored p (BuildPhysicalKey (migrateTaskTable_ janitor_keys) stale_id) = None /\
   stored p (BuildPhysicalKey (migrateTaskTable_ janitor_keys) current_id) = Some task_entry) /\
  ~ cleanup_target janitor_keys running_topology nothing_expected
      (BuildPhysicalKey (TaskTable janitor_keys MIGRATE) current_id).
Proof.
  split; [vm_compute; repeat split|].
  destruct (janitor_spares_current_work "demo" janitor_options running_topology nothing_expected
    {| migrateTaskCursor_ := ""; deleteTaskCursor_ := ""; scaleInMarkerCursor_ := ""; notifyCursor_ := "" |})
    as (_ & _ & _ & Ht & _).
  apply (Ht MIGRATE current_id 7 tt); [vm_compute; reflexivity|cbn; lia|lia].
Defined.
