(* ===== verification/RecoveryKeys.v ===== *)
(** * Keys of the coordination store as the recovery manager reads them

    src/datasystem/coordinator/topology_recovery_manager.cpp: every request names
    a physical key; [ParseKey] finds the cluster, the table and the key below the
    table, and refuses a key no component writes.  A key of a table of a cluster
    parses to that cluster, table and relative key. *)

From S2P Require Import Prelude Ordered HostPort KeyHelper TopologyTaskJanitor JanitorClaims.

Inductive TopologyCoordinationKeyKind :=
  | COORD_TOPOLOGY | COORD_MIGRATE_TASK | COORD_DELETE_TASK | COORD_NOTIFY | COORD_PROBE | COORD_MEMBERSHIP | COORD_UB_HEALTH
  | COORD_SCALE_IN_METADATA_DONE | COORD_EVICTION_POLICY_ROLLOUT.
#[global] Instance TopologyCoordinationKeyKind_eq_dec : EqDecision TopologyCoordinationKeyKind.
Proof. solve_decision. Defined.

Record ParsedTopologyCoordinationKey := {
  pk_clusterName : string; pk_kind : TopologyCoordinationKeyKind; pk_relativeKey : string
}.

Definition MAX_ENCODED_SCALE_IN_SOURCE_SIZE : nat := 256.
Definition PHYSICAL_ROOT : string := "/datasystem/".
Definition EVICTION_POLICY_ROLLOUT_KEY : string := "eviction-policy-rollout".

Definition ValidateScaleInMetadataDoneKey (relative : string) : res unit :=
  match find_char "/" relative with
  | None => Err K_INVALID
  | Some epochEnd =>
      match find_from "/" (epochEnd + 1) relative with
      | None => Err K_INVALID
      | Some sourceEnd =>
          _ ← check ((1 <? epochEnd)%nat && (epochEnd + 1 <? sourceEnd)%nat) K_INVALID;
          let epochText := substr 1 (epochEnd - 1) relative in
          _ ← check (bool_decide (String.get 0 relative = Some "e"%char) && has_value (positive_epoch epochText) &&
                     ((String.length epochText =? 1)%nat || negb (bool_decide (String.get 0 epochText = Some "0"%char)))) K_INVALID;
          let encodedSource := substr (epochEnd + 1) (sourceEnd - epochEnd - 1) relative in
          _ ← check ((String.length encodedSource <=? MAX_ENCODED_SCALE_IN_SOURCE_SIZE)%nat &&
                     (String.length encodedSource mod 2 =? 0)%nat && all_chars IsLowerHex encodedSource) K_INVALID;
          _ ← TaskKey (substr_from (sourceEnd + 1) relative);
          Ok tt
      end
  end.

(** The tables of a cluster in the order they are tried. *)
Definition keyspace_tables (keys : TopologyKeyHelper) : list (string * TopologyCoordinationKeyKind) :=
  [(topologyTable_ keys, COORD_TOPOLOGY); (migrateTaskTable_ keys, COORD_MIGRATE_TASK);
   (deleteTaskTable_ keys, COORD_DELETE_TASK); (notifyTable_ keys, COORD_NOTIFY); (probeTable_ keys, COORD_PROBE);
   (membershipTable_ keys, COORD_MEMBERSHIP); (ubHealthTable_ keys, COORD_UB_HEALTH);
   (scaleInMetadataDoneTable_ keys, COORD_SCALE_IN_METADATA_DONE); (rolloutTable_ keys, COORD_EVICTION_POLICY_ROLLOUT)].

Section parse.
Context `{RE2}.

Definition ValidateRelativeKey (kind : TopologyCoordinationKeyKind) (relative : string) : res unit :=
  let unless_empty (r : res unit) := if bool_decide (relative = EmptyString) then Ok tt else r in
  match kind with
  | COORD_TOPOLOGY => check (bool_decide (relative = EmptyString)) K_INVALID
  | COORD_MIGRATE_TASK => unless_empty (_ ← TaskKey relative; check (String.prefix "m-" relative) K_INVALID)
  | COORD_DELETE_TASK => unless_empty (_ ← TaskKey relative; check (String.prefix "d-" relative) K_INVALID)
  | COORD_NOTIFY => unless_empty (_ ← NotifyKey relative; Ok tt)
  | COORD_PROBE => unless_empty (_ ← ProbeKey relative; Ok tt)
  | COORD_MEMBERSHIP => unless_empty (_ ← MembershipKey relative; Ok tt)
  | COORD_UB_HEALTH => unless_empty (_ ← UbHealthKey relative; Ok tt)
  | COORD_SCALE_IN_METADATA_DONE => unless_empty (ValidateScaleInMetadataDoneKey relative)
  | COORD_EVICTION_POLICY_ROLLOUT => check (bool_decide (relative = EVICTION_POLICY_ROLLOUT_KEY)) K_INVALID
  end.

Fixpoint match_tables (name physicalKey : string) (tables : list (string * TopologyCoordinationKeyKind))
    : res (option ParsedTopologyCoordinationKey) :=
  match tables with
  | [] => Ok None
  | (table, kind) :: tables =>
      if bool_decide (physicalKey = table) then Err K_INVALID
      else
        let prefix := table +:+ "/" in
        if negb (String.prefix prefix physicalKey) then match_tables name physicalKey tables
        else
          let relative := substr_from (String.length prefix) physicalKey in
          _ ← ValidateRelativeKey kind relative;
          Ok (Some {| pk_clusterName := name; pk_kind := kind; pk_relativeKey := relative |})
  end.

Definition MatchKeyspace (keys : TopologyKeyHelper) (physicalKey : string) : res (option ParsedTopologyCoordinationKey) :=
  match_tables (clusterName_ keys) physicalKey (keyspace_tables keys).

Definition ParseKey (physicalKey : string) : res ParsedTopologyCoordinationKey :=
  _ ← check (String.prefix PHYSICAL_ROOT physicalKey) K_INVALID;
  let suffix := substr_from (String.length PHYSICAL_ROOT) physicalKey in
  keys ← Create EmptyString;
  matched ← MatchKeyspace keys physicalKey;
  match matched with
  | Some parsed => Ok parsed
  | None =>
      match find_char "/" suffix with
      | None => Err K_INVALID
      | Some separator =>
          keys ← Create (substr 0 separator suffix);
          matched ← MatchKeyspace keys physicalKey;
          match matched with Some parsed => Ok parsed | None => Err K_INVALID end
      end
  end.
End parse.

(** ** Round trip *)

(** The table of a kind. *)
Definition table_of (kind : TopologyCoordinationKeyKind) (keys : TopologyKeyHelper) : string :=
  match kind with
  | COORD_TOPOLOGY => topologyTable_ keys
  | COORD_MIGRATE_TASK => migrateTaskTable_ keys
  | COORD_DELETE_TASK => deleteTaskTable_ keys
  | COORD_NOTIFY => notifyTable_ keys
  | COORD_PROBE => probeTable_ keys
  | COORD_MEMBERSHIP => membershipTable_ keys
  | COORD_UB_HEALTH => ubHealthTable_ keys
  | COORD_SCALE_IN_METADATA_DONE => scaleInMetadataDoneTable_ keys
  | COORD_EVICTION_POLICY_ROLLOUT => rolloutTable_ keys
  end.

(** The path of the table below the root of the cluster. *)
Definition table_tail (kind : TopologyCoordinationKeyKind) : list string :=
  match kind with
  | COORD_TOPOLOGY => ["topology"]
  | COORD_MIGRATE_TASK => ["tasks"; "migrate"]
  | COORD_DELETE_TASK => ["tasks"; "delete"]
  | COORD_NOTIFY => ["notify"]
  | COORD_PROBE => ["probe"]
  | COORD_MEMBERSHIP => ["cluster"]
  | COORD_UB_HEALTH => ["ub_health"]
  | COORD_SCALE_IN_METADATA_DONE => ["scale-in-metadata-done"]
  | COORD_EVICTION_POLICY_ROLLOUT => ["control"]
  end%string.

Lemma table_path name kind : table_of kind (new_TopologyKeyHelper name) = path (root_segments name ++ table_tail kind).
Proof.
  unfold new_TopologyKeyHelper, root_segments. case_bool_decide; destruct kind; try done; cbn; by rewrite !str_app_assoc.
Qed.

Lemma tail_free kind : Forall slash_free (table_tail kind).
Proof. destruct kind; repeat constructor; unfold slash_free; rewrite list_elem_of_In; cbn; intuition discriminate. Qed.

Lemma root_free name : usable_name name -> Forall slash_free (root_segments name).
Proof.
  intros Hn. unfold root_segments. assert (Hd : slash_free "datasystem").
  { unfold slash_free. rewrite list_elem_of_In. cbn. intuition discriminate. }
  case_bool_decide; repeat constructor; try done. destruct Hn as [->|Hn]; [done|]. by apply valid_name_slash_free.
Qed.

Lemma split_path l : Forall slash_free l -> l <> [] -> split_slash (path l) = EmptyString :: l.
Proof.
  intros Hl Hne. destruct (exists_last Hne) as (l' & x & ->). apply Forall_app in Hl as [Hl Hx]. inversion Hx as [|?? Hx' _]; subst.
  assert (path (l' ++ [x]) = path l' +:+ "/" +:+ x) as ->.
  { clear. induction l' as [|y l' IH]; [cbn; by rewrite str_app_nil|]. cbn [app path foldr]. fold (path (l' ++ [x])).
    rewrite IH. fold (path l'). by rewrite !str_app_assoc. }
  rewrite split_path_segs, split_slash_free by done. done.
Qed.

Definition all_kinds : list TopologyCoordinationKeyKind :=
  [COORD_TOPOLOGY; COORD_MIGRATE_TASK; COORD_DELETE_TASK; COORD_NOTIFY; COORD_PROBE; COORD_MEMBERSHIP; COORD_UB_HEALTH;
   COORD_SCALE_IN_METADATA_DONE; COORD_EVICTION_POLICY_ROLLOUT].

Lemma keyspace_tables_kinds keys : keyspace_tables keys = (fun kind => (table_of kind keys, kind)) <$> all_kinds.
Proof. done. Qed.

Lemma tails_differ kind kind' a b : table_tail kind ++ a = table_tail kind' ++ b -> kind = kind'.
Proof. by destruct kind, kind'; intros [=]. Qed.

Lemma tail_reserved kind : exists x rest, table_tail kind = x :: rest /\ x ∈ RESERVED_CLUSTER_NAMES.
Proof. destruct kind; do 2 eexists; (split; [reflexivity|]); apply list_elem_of_In; cbn; tauto. Qed.

Section roundtrip.
Context `{RE2}.

(** The segments of a key below the table of a kind. *)
Lemma split_key name kind relative : usable_name name ->
  split_slash (table_of kind (new_TopologyKeyHelper name) +:+ "/" +:+ relative) =
  EmptyString :: (root_segments name ++ table_tail kind) ++ split_slash relative.
Proof.
  intros Hn. rewrite table_path. apply split_path_segs, Forall_app. split; [by apply root_free|apply tail_free].
Qed.

Lemma split_table name kind : usable_name name ->
  split_slash (table_of kind (new_TopologyKeyHelper name)) = EmptyString :: root_segments name ++ table_tail kind.
Proof.
  intros Hn. rewrite table_path. apply split_path; [apply Forall_app; split; [by apply root_free|apply tail_free]|].
  unfold root_segments. by case_bool_decide.
Qed.

(** A table that is neither the key nor above it is passed over. *)
Lemma match_skip name physicalKey table kind tables : physicalKey <> table -> (forall rest, physicalKey <> table +:+ "/" +:+ rest) ->
  match_tables name physicalKey ((table, kind) :: tables) = match_tables name physicalKey tables.
Proof.
  intros H1 H2. cbn [match_tables]. rewrite bool_decide_false by done.
  destruct (String.prefix (table +:+ "/") physicalKey) eqn:E; [|done].
  apply prefix_split in E as (rest & E). rewrite str_app_assoc in E. by apply H2 in E.
Qed.

Lemma match_own name kind relative kinds : usable_name name -> kind ∈ kinds -> ValidateRelativeKey kind relative = Ok tt ->
  let keys := new_TopologyKeyHelper name in
  match_tables name (table_of kind keys +:+ "/" +:+ relative) ((fun kind => (table_of kind keys, kind)) <$> kinds) =
  Ok (Some {| pk_clusterName := name; pk_kind := kind; pk_relativeKey := relative |}).
Proof.
  intros Hn Hin Hv keys. induction kinds as [|kind' kinds IH]; [by apply elem_of_nil in Hin|]. cbn [fmap list_fmap].
  destruct (decide (kind' = kind)) as [->|Hne].
  - cbn [match_tables]. rewrite bool_decide_false.
    + rewrite <-str_app_assoc, prefix_app, substr_from_app. cbn [negb]. by rewrite Hv.
    + intros E%(f_equal String.length). rewrite !str_length_app in E. cbn in E. lia.
  - apply elem_of_cons in Hin as [->|Hin]; [done|]. rewrite match_skip; [by apply IH| |].
    + intros E%(f_equal split_slash). subst keys. rewrite split_key, split_table in E by done. injection E as E.
      rewrite <-app_assoc in E. apply app_inv_head in E. rewrite <-(app_nil_r (table_tail kind')) in E. by apply tails_differ in E.
    + intros rest E%(f_equal split_slash). subst keys. rewrite !split_key in E by done. injection E as E.
      rewrite <-!app_assoc in E. apply app_inv_head, tails_differ in E. by subst.
Qed.

Lemma match_other name kind relative kinds : usable_name name -> name <> EmptyString ->
  match_tables EmptyString (table_of kind (new_TopologyKeyHelper name) +:+ "/" +:+ relative)
    ((fun kind => (table_of kind (new_TopologyKeyHelper EmptyString), kind)) <$> kinds) = Ok None.
Proof.
  intros Hn Hne. assert (Hu : usable_name EmptyString) by by left.
  assert (Hno : forall kind' a b, root_segments name ++ a = root_segments EmptyString ++ table_tail kind' ++ b -> False).
  { intros kind' a b E. unfold root_segments in E. rewrite bool_decide_false, bool_decide_true in E by done.
    destruct (tail_reserved kind') as (x & l & Ht & Hr). rewrite Ht in E. cbn in E. injection E as -> _.
    destruct Hn as [->|Hn]; [done|]. by apply valid_name_slash_free in Hn as (_ & Hn & _). }
  induction kinds as [|kind' kinds IH]; [done|]. cbn [fmap list_fmap]. rewrite match_skip; [done| |].
  - intros E%(f_equal split_slash). rewrite split_key, split_table in E by done. injection E as E.
    rewrite <-app_assoc in E. rewrite <-(app_nil_r (table_tail kind')) in E. by apply Hno in E.
  - intros rest E%(f_equal split_slash). rewrite !split_key in E by done. injection E as E.
    rewrite <-!app_assoc in E. by apply Hno in E.
Qed.

Lemma find_slash name rest : slash_free name -> find_char "/" (name +:+ "/" +:+ rest) = Some (String.length name).
Proof.
  induction name as [|x name IH]; intros Hf; [done|]. unfold slash_free in *. cbn in Hf. apply not_elem_of_cons in Hf as [Hx Hf].
  rewrite append_String. cbn [find_char]. rewrite decide_False by congruence. by rewrite IH.
Qed.

(** C25: Every key below a table of a cluster, with a relative key the table admits,
    parses to that cluster, that table and that relative key: no two clusters and
    no two tables share a key. *)
Theorem parse_key_roundtrip name keys kind relative : Create name = Ok keys -> ValidateRelativeKey kind relative = Ok tt ->
  ParseKey (table_of kind keys +:+ "/" +:+ relative) =
  Ok {| pk_clusterName := name; pk_kind := kind; pk_relativeKey := relative |}.
Proof.
  intros Hc Hv.
  assert (usable_name name /\ keys = new_TopologyKeyHelper name) as [Hn ->].
  { unfold Create in Hc. destruct (negb _ && negb _) eqn:E; [done|]. injection Hc as <-. split; [|done].
    apply andb_false_iff in E as [E|E]; apply negb_false_iff in E; [left; by apply bool_decide_eq_true in E|by right]. }
  unfold ParseKey, MatchKeyspace. change (Create EmptyString) with (Ok (new_TopologyKeyHelper EmptyString)).
  assert (Hb : forall {A B} (a : A) (f : A -> res B), (Ok a ≫= f) = f a) by done. rewrite Hb.
  rewrite keyspace_tables_kinds. change (clusterName_ (new_TopologyKeyHelper EmptyString)) with EmptyString.
  assert (Hall : kind ∈ all_kinds) by (destruct kind; apply list_elem_of_In; cbn; tauto).
  destruct (decide (name = EmptyString)) as [->|Hne].
  - assert (String.prefix PHYSICAL_ROOT (table_of kind (new_TopologyKeyHelper "") +:+ "/" +:+ relative) = true) as -> by by destruct kind.
    change (check true K_INVALID) with (Ok tt). rewrite Hb, (match_own EmptyString kind relative all_kinds), Hb by done. done.
  - assert (Hsuf : exists tail, table_of kind (new_TopologyKeyHelper name) +:+ "/" +:+ relative = PHYSICAL_ROOT +:+ name +:+ "/" +:+ tail).
    { exists (substr_from 1 (path (table_tail kind)) +:+ "/" +:+ relative). unfold new_TopologyKeyHelper.
      rewrite bool_decide_false by done. by destruct kind; cbn; rewrite !str_app_assoc. }
    pose proof (match_other name kind relative all_kinds Hn Hne) as Ho. pose proof (match_own name kind relative all_kinds Hn Hall Hv) as Hm.
    cbv zeta in Hm. destruct Hsuf as [tail Hk]. rewrite Hk in *. rewrite prefix_app, substr_from_app. change (check true K_INVALID) with (Ok tt).
    assert (Hfree : slash_free name) by (destruct Hn as [->|Hn]; [done|by apply valid_name_slash_free]).
    rewrite Hb, Ho, Hb, find_slash by done. unfold substr. rewrite substring_app_l, Hc, Hb, keyspace_tables_kinds.
    change (clusterName_ (new_TopologyKeyHelper name)) with name. by rewrite Hm.
Qed.
End roundtrip.

Lemma parse_key_roundtrip_witness : exists keys, Create "a" = Ok keys /\
  @ParseKey ReferenceEngine.engine (table_of COORD_MEMBERSHIP keys +:+ "/" +:+ "10.0.0.1:31501") =
  Ok {| pk_clusterName := "a"; pk_kind := COORD_MEMBERSHIP; pk_relativeKey := "10.0.0.1:31501" |}.
Proof. exists (new_TopologyKeyHelper "a"). split; [reflexivity|]. apply parse_key_roundtrip; vm_compute; reflexivity. Defined.
