(* ===== verification/FailureClassifier.v ===== *)
(** * Failure classification

    src/datasystem/cluster/control/topology_failure_classifier.cpp: the missing
    timers of the controller.  Instants are nanoseconds of the monotonic clock,
    the timeout is in seconds; [missingSince_] is an unordered map whose
    iteration only applies the same update to every entry. *)

From S2P Require Import Prelude Ordered TopologyTypes HashRing BalancedRing TokenPlacement HostPort KeyHelper Hasher.
From S2P Require Import RingTheory HashAlgorithm OwnerSpec PlanningInterface HashPlans Snapshot MembershipTypes.

Record MemberAbsenceObservation := { mo_identity : MemberIdentity; mo_state : MemberState; mo_missingMs : Z }.
Record MemberAbsenceSample := { ms_identity : MemberIdentity; ms_state : MemberState }.
Record FailureClassification := {
  fc_removeInitial : list MemberIdentity;
  fc_removeJoining : list MemberIdentity;
  fc_confirmedFailure : list MemberIdentity;
  fc_newlyMissing : list MemberAbsenceObservation;
  fc_restored : list MemberAbsenceObservation;
  fc_confirmedMissing : list MemberAbsenceObservation
}.

Record TopologyFailureClassifier := {
  nodeDeadTimeout_ : Z;
  missingSince_ : gmap string Z;
  pausedAt_ : option Z
}.

Definition new_TopologyFailureClassifier (nodeDeadTimeout : Z) : TopologyFailureClassifier :=
  {| nodeDeadTimeout_ := nodeDeadTimeout; missingSince_ := ∅; pausedAt_ := None |}.

Definition NS_PER_SECOND : Z := 1000000000.
Definition NS_PER_MS : Z := 1000000.

(** [duration_cast<milliseconds>(end - start).count()], which truncates toward zero. *)
Definition DurationMs (start end_ : Z) : Z := Z.quot (end_ - start) NS_PER_MS.

Definition set_missing (m : gmap string Z) (c : TopologyFailureClassifier) : TopologyFailureClassifier :=
  {| nodeDeadTimeout_ := nodeDeadTimeout_ c; missingSince_ := m; pausedAt_ := pausedAt_ c |}.

Definition Resume (now : Z) (c : TopologyFailureClassifier) : TopologyFailureClassifier :=
  match pausedAt_ c with
  | None => c
  | Some pausedAt =>
      let unreadableDuration := now - pausedAt in
      {| nodeDeadTimeout_ := nodeDeadTimeout_ c;
         missingSince_ := (fun missingSince => missingSince + unreadableDuration) <$> missingSince_ c;
         pausedAt_ := None |}
  end.

Definition Pause (now : Z) (c : TopologyFailureClassifier) : TopologyFailureClassifier :=
  match pausedAt_ c with
  | Some _ => c
  | None => {| nodeDeadTimeout_ := nodeDeadTimeout_ c; missingSince_ := missingSince_ c; pausedAt_ := Some now |}
  end.

Definition ResetMissing (address : string) (c : TopologyFailureClassifier) : TopologyFailureClassifier :=
  set_missing (delete address (missingSince_ c)) c.

Definition Reset (c : TopologyFailureClassifier) : TopologyFailureClassifier :=
  {| nodeDeadTimeout_ := nodeDeadTimeout_ c; missingSince_ := ∅; pausedAt_ := None |}.

(** The set of addresses, or an error on an empty or repeated one. *)
Definition collect_addresses (addresses : list string) : res (gset string) :=
  foldM (fun present a =>
    _ ← check (negb (bool_decide (a = EmptyString)) && bool_decide (a ∉ present)) K_INVALID;
    Ok ({[a]} ∪ present)) ∅ addresses.

(** The state of the loop over the members: timers, classification, retained failures. *)
Definition ObserveState : Type := gmap string Z * FailureClassification * list MemberIdentity.

Definition timed_out (timeout now since : Z) : bool := timeout * NS_PER_SECOND <=? now - since.

(** [missingSince_.emplace(address, now)]: the timer and whether it was inserted. *)
Definition start_timer (address : string) (now : Z) (timers : gmap string Z) : gmap string Z * Z * bool :=
  match timers !! address with
  | Some since => (timers, since, false)
  | None => (<[address := now]> timers, now, true)
  end.

Definition observe_member (timeout now : Z) (present : gset string) (st : ObserveState) (member : Member) : ObserveState :=
  let '(timers, obs, retained) := st in
  let address := m_address member in
  if decide (m_state member = FAILED) then (delete address timers, obs, retained ++ [m_identity member])
  else if decide (address ∈ present) then
    match timers !! address with
    | Some since =>
        (delete address timers,
         {| fc_removeInitial := fc_removeInitial obs; fc_removeJoining := fc_removeJoining obs;
            fc_confirmedFailure := fc_confirmedFailure obs; fc_newlyMissing := fc_newlyMissing obs;
            fc_restored := fc_restored obs ++ [{| mo_identity := m_identity member; mo_state := m_state member;
                                                  mo_missingMs := DurationMs since now |}];
            fc_confirmedMissing := fc_confirmedMissing obs |}, retained)
    | None => st
    end
  else if decide (m_state member = INITIAL) then
    (timers, {| fc_removeInitial := fc_removeInitial obs ++ [m_identity member]; fc_removeJoining := fc_removeJoining obs;
                fc_confirmedFailure := fc_confirmedFailure obs; fc_newlyMissing := fc_newlyMissing obs;
                fc_restored := fc_restored obs; fc_confirmedMissing := fc_confirmedMissing obs |}, retained)
  else if decide (m_state member = JOINING) then
    (timers, {| fc_removeInitial := fc_removeInitial obs; fc_removeJoining := fc_removeJoining obs ++ [m_identity member];
                fc_confirmedFailure := fc_confirmedFailure obs; fc_newlyMissing := fc_newlyMissing obs;
                fc_restored := fc_restored obs; fc_confirmedMissing := fc_confirmedMissing obs |}, retained)
  else
    let '(timers, since, inserted) := start_timer address now timers in
    let missingMs := if inserted then 0 else DurationMs since now in
    let observation := {| mo_identity := m_identity member; mo_state := m_state member; mo_missingMs := missingMs |} in
    let confirmed := timed_out timeout now since in
    (timers,
     {| fc_removeInitial := fc_removeInitial obs; fc_removeJoining := fc_removeJoining obs;
        fc_confirmedFailure := fc_confirmedFailure obs ++ (if confirmed then [m_identity member] else []);
        fc_newlyMissing := fc_newlyMissing obs ++ (if inserted then [observation] else []);
        fc_restored := fc_restored obs;
        fc_confirmedMissing := fc_confirmedMissing obs ++ (if confirmed then [observation] else []) |}, retained).

Definition empty_classification : FailureClassification :=
  {| fc_removeInitial := []; fc_removeJoining := []; fc_confirmedFailure := []; fc_newlyMissing := [];
     fc_restored := []; fc_confirmedMissing := [] |}.

(** The timers survive an error as they were left by [Resume]. *)
Definition Observe (topology : TopologySnapshot) (members : list MembershipRecord) (now : Z) (c : TopologyFailureClassifier)
    : TopologyFailureClassifier * res FailureClassification :=
  if negb (0 <=? nodeDeadTimeout_ c) then (c, Err K_INVALID)
  else
    let c := Resume now c in
    match collect_addresses (mr_address <$> members) with
    | Err code => (c, Err code)
    | Ok present =>
        let '(timers, obs, retained) := foldl (observe_member (nodeDeadTimeout_ c) now present)
                                          (missingSince_ c, empty_classification, []) (Members topology) in
        let confirmed := if is_empty (fc_confirmedFailure obs) then []
                         else sort_on mi_address (fc_confirmedFailure obs ++ retained) in
        let timers := filter (fun kv => is_ok (FindMemberByAddress kv.1 topology) = true) timers in
        (set_missing timers c,
         Ok {| fc_removeInitial := fc_removeInitial obs; fc_removeJoining := fc_removeJoining obs;
               fc_confirmedFailure := confirmed; fc_newlyMissing := fc_newlyMissing obs;
               fc_restored := fc_restored obs; fc_confirmedMissing := fc_confirmedMissing obs |})
    end.

Definition sample_step (timeout now : Z) (st : gmap string Z * list MemberAbsenceObservation) (sample : MemberAbsenceSample)
    : gmap string Z * list MemberAbsenceObservation :=
  let '(timers, since, inserted) := start_timer (mi_address (ms_identity sample)) now st.1 in
  let missingMs := if inserted then 0 else DurationMs since now in
  (timers, st.2 ++ (if timed_out timeout now since
                    then [{| mo_identity := ms_identity sample; mo_state := ms_state sample; mo_missingMs := missingMs |}]
                    else [])).

Definition ObserveMissingSamples (samples : list MemberAbsenceSample) (now : Z) (c : TopologyFailureClassifier)
    : TopologyFailureClassifier * res (list MemberAbsenceObservation) :=
  if negb (0 <=? nodeDeadTimeout_ c) then (c, Err K_INVALID)
  else
    match collect_addresses ((fun s => mi_address (ms_identity s)) <$> samples) with
    | Err code => (c, Err code)
    | Ok sampled =>
        let c := set_missing (filter (fun kv => kv.1 ∈ sampled) (missingSince_ c)) c in
        let c := Resume now c in
        let '(timers, observed) := foldl (sample_step (nodeDeadTimeout_ c) now) (missingSince_ c, []) samples in
        (set_missing timers c, Ok observed)
    end.
