(* ===== verification/FailureClaims.v ===== *)
(** * Failure classification: the stopwatch specification

    The classifier of FailureClassifier stores the instant at which each member
    was first seen missing and moves the instants forward when an unreadable
    period ends.  Its specification keeps one stopwatch per address instead,
    which runs while the membership is readable, and gives every member of the
    topology a verdict.  The classifier refines that specification for every
    sequence of calls, and confirms no failure before the member has been
    missing for the whole timeout. *)

From S2P Require Import Prelude Ordered TopologyTypes HashRing BalancedRing TokenPlacement HostPort KeyHelper Hasher.
From S2P Require Import RingTheory HashAlgorithm OwnerSpec PlanningInterface HashPlans Snapshot MembershipTypes FailureClassifier.

(** ** The specification *)

(** What one reading says of a member; [e] is the absence accumulated so far. *)
Inductive Verdict :=
  | RetainedFailure
  | Alive (e : option Z)
  | DropInitial (e : option Z)
  | DropJoining (e : option Z)
  | Missing (e : option Z).

Definition verdict (present : gset string) (e : option Z) (m : Member) : Verdict :=
  if decide (m_state m = FAILED) then RetainedFailure
  else if decide (m_address m ∈ present) then Alive e
  else match m_state m with
       | INITIAL => DropInitial e
       | JOINING => DropJoining e
       | _ => Missing e
       end.

(** The absence a verdict leaves on the stopwatch of the member. *)
Definition verdict_elapsed (v : Verdict) : option Z :=
  match v with
  | RetainedFailure | Alive _ => None
  | DropInitial e | DropJoining e => e
  | Missing e => Some (default 0 e)
  end.

Definition observation (m : Member) (e : Z) : MemberAbsenceObservation :=
  {| mo_identity := m_identity m; mo_state := m_state m; mo_missingMs := Z.quot e NS_PER_MS |}.

Definition expired (timeout : Z) (e : option Z) : bool := timeout * NS_PER_SECOND <=? default 0 e.

(** The lists of a classification, read off the verdicts. *)
Definition retained_of (vs : list (Member * Verdict)) : list MemberIdentity :=
  omap (fun '(m, v) => match v with RetainedFailure => Some (m_identity m) | _ => None end) vs.
Definition initial_of (vs : list (Member * Verdict)) : list MemberIdentity :=
  omap (fun '(m, v) => match v with DropInitial _ => Some (m_identity m) | _ => None end) vs.
Definition joining_of (vs : list (Member * Verdict)) : list MemberIdentity :=
  omap (fun '(m, v) => match v with DropJoining _ => Some (m_identity m) | _ => None end) vs.
Definition newly_of (vs : list (Member * Verdict)) : list MemberAbsenceObservation :=
  omap (fun '(m, v) => match v with Missing None => Some (observation m 0) | _ => None end) vs.
Definition restored_of (vs : list (Member * Verdict)) : list MemberAbsenceObservation :=
  omap (fun '(m, v) => match v with Alive (Some e) => Some (observation m e) | _ => None end) vs.
Definition confirmed_of (timeout : Z) (vs : list (Member * Verdict)) : list MemberAbsenceObservation :=
  omap (fun '(m, v) => match v with
    | Missing e => if expired timeout e then Some (observation m (default 0 e)) else None
    | _ => None end) vs.

Definition verdicts (present : gset string) (elapsed : gmap string Z) (ms : list Member) : list (Member * Verdict) :=
  (fun m => (m, verdict present (elapsed !! m_address m) m)) <$> ms.

Definition classification (timeout : Z) (vs : list (Member * Verdict)) : FailureClassification :=
  let confirmed := mo_identity <$> confirmed_of timeout vs in
  {| fc_removeInitial := initial_of vs;
     fc_removeJoining := joining_of vs;
     fc_confirmedFailure := if is_empty confirmed then [] else sort_on mi_address (confirmed ++ retained_of vs);
     fc_newlyMissing := newly_of vs;
     fc_restored := restored_of vs;
     fc_confirmedMissing := confirmed_of timeout vs |}.

(** One stopwatch per missing address; all run exactly while the membership is readable. *)
Record Stopwatches := { sw_running : bool; sw_clock : Z; sw_elapsed : gmap string Z }.

Definition sw_read (now : Z) (w : Stopwatches) : Stopwatches :=
  {| sw_running := true; sw_clock := now;
     sw_elapsed := if sw_running w then (fun e => e + (now - sw_clock w)) <$> sw_elapsed w else sw_elapsed w |}.

Definition readable_set (addresses : list string) : option (gset string) :=
  if decide (NoDup addresses /\ EmptyString ∉ addresses) then Some (list_to_set addresses) else None.

Definition set_elapsed (elapsed : gmap string Z) (w : Stopwatches) : Stopwatches :=
  {| sw_running := sw_running w; sw_clock := sw_clock w; sw_elapsed := elapsed |}.

Definition elapsed_after (vs : list (Member * Verdict)) : gmap string Z :=
  list_to_map (omap (fun '(m, v) => (fun e => (m_address m, e)) <$> verdict_elapsed v) vs).

Definition spec_Observe (timeout : Z) (ms : list Member) (members : list MembershipRecord) (now : Z) (w : Stopwatches)
    : Stopwatches * res FailureClassification :=
  if timeout <? 0 then (w, Err K_INVALID)
  else
    let w := sw_read now w in
    match readable_set (mr_address <$> members) with
    | None => (w, Err K_INVALID)
    | Some present =>
        let vs := verdicts present (sw_elapsed w) ms in
        (set_elapsed (elapsed_after vs) w, Ok (classification timeout vs))
    end.

Definition sample_address (s : MemberAbsenceSample) : string := mi_address (ms_identity s).

Definition expired_sample (timeout : Z) (elapsed : gmap string Z) (s : MemberAbsenceSample) : option MemberAbsenceObservation :=
  let e := elapsed !! sample_address s in
  if expired timeout e
  then Some {| mo_identity := ms_identity s; mo_state := ms_state s; mo_missingMs := Z.quot (default 0 e) NS_PER_MS |}
  else None.

Definition spec_ObserveMissingSamples (timeout : Z) (samples : list MemberAbsenceSample) (now : Z) (w : Stopwatches)
    : Stopwatches * res (list MemberAbsenceObservation) :=
  if timeout <? 0 then (w, Err K_INVALID)
  else
    match readable_set (sample_address <$> samples) with
    | None => (w, Err K_INVALID)
    | Some sampled =>
        let w := sw_read now w in
        let elapsed := sw_elapsed w in
        (set_elapsed (set_to_map (fun a => (a, default 0 (elapsed !! a))) sampled) w,
         Ok (omap (expired_sample timeout elapsed) samples))
    end.

Definition sw_pause (now : Z) (w : Stopwatches) : Stopwatches :=
  {| sw_running := false; sw_clock := now; sw_elapsed := sw_elapsed (sw_read now w) |}.

(** ** Abstraction of the timers *)

Definition abs (t : Z) (c : TopologyFailureClassifier) : Stopwatches :=
  {| sw_running := match pausedAt_ c with Some _ => false | None => true end;
     sw_clock := t;
     sw_elapsed := (fun since => default t (pausedAt_ c) - since) <$> missingSince_ c |}.

Lemma abs_Resume t now c : abs now (Resume now c) = sw_read now (abs t c).
Proof.
  unfold abs, sw_read, Resume. destruct (pausedAt_ c) as [p|] eqn:Hp; cbn; rewrite ?Hp; cbn; f_equal;
    rewrite <- map_fmap_compose; apply map_fmap_ext; intros; cbn; lia.
Qed.

Lemma Resume_running now c : pausedAt_ (Resume now c) = None.
Proof. unfold Resume. by destruct (pausedAt_ c) eqn:Hp. Qed.

Lemma Resume_timeout now c : nodeDeadTimeout_ (Resume now c) = nodeDeadTimeout_ c.
Proof. unfold Resume. by destruct (pausedAt_ c). Qed.

Lemma abs_set_missing t m c : pausedAt_ c = None ->
  abs t (set_missing m c) = set_elapsed ((fun since => t - since) <$> m) (abs t c).
Proof. intros Hp. unfold abs, set_missing, set_elapsed. cbn. by rewrite Hp. Qed.

Lemma abs_elapsed t c : pausedAt_ c = None -> sw_elapsed (abs t c) = (fun since => t - since) <$> missingSince_ c.
Proof. intros Hp. cbn. by rewrite Hp. Qed.

Lemma abs_Pause t now c : abs now (Pause now c) = sw_pause now (abs t c).
Proof.
  unfold abs, sw_pause, sw_read, Pause. destruct (pausedAt_ c) as [p|] eqn:Hp; cbn; rewrite ?Hp; cbn; f_equal.
  rewrite <- map_fmap_compose. apply map_fmap_ext. intros; cbn; lia.
Qed.

Lemma abs_ResetMissing t a c :
  abs t (ResetMissing a c) = set_elapsed (delete a (sw_elapsed (abs t c))) (abs t c).
Proof. unfold abs, ResetMissing, set_elapsed. cbn. by rewrite fmap_delete. Qed.

(** ** The address sets *)

Lemma collect_addresses_from (s : gset string) addresses :
  foldM (fun present a => _ ← check (negb (bool_decide (a = EmptyString)) && bool_decide (a ∉ present)) K_INVALID;
                          Ok ({[a]} ∪ present)) s addresses =
  if decide (NoDup addresses /\ EmptyString ∉ addresses /\ Forall (fun a => a ∉ s) addresses)
  then Ok (list_to_set addresses ∪ s) else Err K_INVALID.
Proof.
  revert s. induction addresses as [|a l IH]; intros s; cbn.
  - rewrite decide_True; [f_equal; set_solver|]. repeat split; [constructor|set_solver|constructor].
  - unfold check. rewrite bool_decide_decide.
    destruct (decide (a = EmptyString)) as [->|Ha]; cbn; [rewrite decide_False; [done|]; set_solver|].
    destruct (decide (a ∈ s)) as [Hs|Hs].
    { rewrite bool_decide_false by set_solver. cbn. rewrite decide_False; [done|].
      rewrite Forall_cons. naive_solver. }
    rewrite bool_decide_true by done. cbn. rewrite IH.
    destruct (decide (NoDup l /\ _)) as [(H1 & H2 & H3)|H1]; rewrite Forall_forall in *.
    + rewrite decide_True; [f_equal; set_solver|]. rewrite NoDup_cons, Forall_forall. set_solver.
    + rewrite decide_False; [done|]. rewrite NoDup_cons, Forall_cons, Forall_forall.
      intros ([H2 H3] & H4 & _ & H5). apply H1. set_solver.
Qed.

Lemma collect_addresses_spec addresses :
  collect_addresses addresses = match readable_set addresses with Some s => Ok s | None => Err K_INVALID end.
Proof.
  unfold collect_addresses. rewrite collect_addresses_from. unfold readable_set.
  destruct (decide (NoDup addresses /\ EmptyString ∉ addresses)) as [[H1 H2]|H1].
  - rewrite decide_True by (repeat split; [done..|apply Forall_forall; set_solver]). f_equal. set_solver.
  - rewrite decide_False; [done|]. naive_solver.
Qed.

(** ** The loop over the members *)

(** The classification a prefix of the loop has appended to [obs]. *)
Definition append_verdicts (timeout : Z) (vs : list (Member * Verdict)) (obs : FailureClassification) : FailureClassification :=
  {| fc_removeInitial := fc_removeInitial obs ++ initial_of vs;
     fc_removeJoining := fc_removeJoining obs ++ joining_of vs;
     fc_confirmedFailure := fc_confirmedFailure obs ++ (mo_identity <$> confirmed_of timeout vs);
     fc_newlyMissing := fc_newlyMissing obs ++ newly_of vs;
     fc_restored := fc_restored obs ++ restored_of vs;
     fc_confirmedMissing := fc_confirmedMissing obs ++ confirmed_of timeout vs |}.

Lemma append_verdicts_cons timeout v vs obs :
  append_verdicts timeout (v :: vs) obs = append_verdicts timeout vs (append_verdicts timeout [v] obs).
Proof.
  destruct v as [m v]. unfold append_verdicts. cbn.
  f_equal; rewrite <- app_assoc; f_equal; unfold initial_of, joining_of, newly_of, restored_of, confirmed_of; cbn;
    destruct v as [| [e|] | | | [e|]]; cbn; try done; by destruct (expired _ _).
Qed.

(** The timers after the verdict of the member at [a]. *)
Definition put_timer (a : string) (s : option Z) (timers : gmap string Z) : gmap string Z :=
  partial_alter (fun _ => s) a timers.

Lemma put_timer_same a timers : put_timer a (timers !! a) timers = timers.
Proof. by apply partial_alter_id. Qed.

Definition elapsed_at (now : Z) (timers : gmap string Z) (a : string) : option Z := (fun since => now - since) <$> timers !! a.

Lemma observe_member_verdict timeout now present timers obs retained m :
  let v := verdict present (elapsed_at now timers (m_address m)) m in
  observe_member timeout now present (timers, obs, retained) m =
    (put_timer (m_address m) ((fun e => now - e) <$> verdict_elapsed v) timers,
     append_verdicts timeout [(m, v)] obs, retained ++ retained_of [(m, v)]).
Proof.
  cbn zeta. unfold observe_member, verdict, elapsed_at, retained_of, start_timer.
  destruct obs as [o1 o2 o3 o4 o5 o6]. unfold append_verdicts, observation, expired, timed_out.
  unfold initial_of, joining_of, newly_of, restored_of, confirmed_of, DurationMs, observation, expired.
  destruct (decide (m_state m = FAILED)) as [Hf|Hf]; cbn; [by rewrite !app_nil_r|].
  destruct (decide (m_address m ∈ present)) as [Hp|Hp].
  { destruct (timers !! m_address m) as [since|] eqn:Ht; cbn; rewrite !app_nil_r; [done|].
    rewrite <- Ht at 1. by rewrite put_timer_same. }
  assert (Hput : forall since, timers !! m_address m = Some since -> put_timer (m_address m) (Some (now - (now - since))) timers = timers).
  { intros since Ht. replace (now - (now - since)) with since by lia. rewrite <- Ht. apply put_timer_same. }
  assert (Hnew : put_timer (m_address m) (Some (now - 0)) timers = <[m_address m := now]> timers) by by rewrite Z.sub_0_r.
  destruct (timers !! m_address m) as [since|] eqn:Ht; destruct (m_state m) eqn:Es; try done; cbn;
    rewrite ?Hput, ?Hnew, ?Z.sub_diag, ?app_nil_r by done; try (destruct (_ <=? _); cbn; rewrite ?app_nil_r; done);
    rewrite <- Ht at 1; by rewrite put_timer_same.
Qed.

Lemma verdicts_ext present e e' ms : (forall m, m ∈ ms -> e !! m_address m = e' !! m_address m) ->
  verdicts present e ms = verdicts present e' ms.
Proof. intros He. apply list_fmap_ext. intros i m Hm%list_elem_of_lookup_2. cbn. by rewrite He. Qed.

(** The timers of the addresses of [ms] are replaced by what their verdicts leave, the others are kept. *)
Definition timers_after (now : Z) (vs : list (Member * Verdict)) (timers : gmap string Z) : gmap string Z :=
  foldl (fun ts '(m, v) => put_timer (m_address m) ((fun e => now - e) <$> verdict_elapsed v) ts) timers vs.

Lemma verdicts_cons present e m ms :
  verdicts present e (m :: ms) = (m, verdict present (e !! m_address m) m) :: verdicts present e ms.
Proof. done. Qed.

Lemma timers_after_cons now m v vs timers :
  timers_after now ((m, v) :: vs) timers =
  timers_after now vs (put_timer (m_address m) ((fun e => now - e) <$> verdict_elapsed v) timers).
Proof. done. Qed.

Lemma observe_loop timeout now present ms : NoDup ((fun m => m_address m) <$> ms) -> forall timers obs retained,
  let vs := verdicts present ((fun since => now - since) <$> timers) ms in
  foldl (observe_member timeout now present) (timers, obs, retained) ms =
    (timers_after now vs timers, append_verdicts timeout vs obs, retained ++ retained_of vs).
Proof.
  induction ms as [|m ms IH]; intros Hnd timers obs retained; cbn zeta.
  - cbn. rewrite app_nil_r. destruct obs. unfold append_verdicts. cbn. by rewrite !app_nil_r.
  - apply NoDup_cons in Hnd as [Hm Hnd]. cbn [foldl]. rewrite observe_member_verdict. rewrite IH by done.
    set (v := verdict _ _ m). set (ts := put_timer _ _ _).
    assert (Hv : verdicts present ((fun since => now - since) <$> ts) ms =
                 verdicts present ((fun since => now - since) <$> timers) ms).
    { apply verdicts_ext. intros m' Hm'. rewrite !lookup_fmap. unfold ts, put_timer.
      rewrite lookup_partial_alter_ne; [done|]. intros He. apply Hm. rewrite He. by apply (list_elem_of_fmap_2 (fun m => m_address m)). }
    rewrite Hv. rewrite verdicts_cons, lookup_fmap. fold (elapsed_at now timers (m_address m)). fold v.
    rewrite (append_verdicts_cons timeout (m, v) (verdicts _ _ _)), <- app_assoc. f_equal. f_equal. by destruct v.
Qed.

Lemma timers_after_other now present e ms timers a : (forall m, m ∈ ms -> m_address m <> a) ->
  timers_after now (verdicts present e ms) timers !! a = timers !! a.
Proof.
  revert timers. induction ms as [|m ms IH]; intros timers Ha; [done|].
  rewrite verdicts_cons, timers_after_cons, IH by set_solver. apply lookup_partial_alter_ne. set_solver.
Qed.

Lemma timers_after_member now present e ms timers m : NoDup ((fun m => m_address m) <$> ms) -> m ∈ ms ->
  timers_after now (verdicts present e ms) timers !! m_address m =
    (fun e => now - e) <$> verdict_elapsed (verdict present (e !! m_address m) m).
Proof.
  revert timers. induction ms as [|m' ms IH]; intros timers Hnd Hm; [set_solver|].
  apply NoDup_cons in Hnd as [Hn Hnd]. rewrite verdicts_cons, timers_after_cons.
  apply elem_of_cons in Hm as [->|Hm]; [|by apply IH].
  rewrite timers_after_other; [apply lookup_partial_alter_eq|].
  intros m Hm He. apply Hn. rewrite <- He. by apply (list_elem_of_fmap_2 (fun m => m_address m)).
Qed.

Lemma elapsed_after_lookup present e ms a : NoDup ((fun m => m_address m) <$> ms) ->
  (forall m, m ∈ ms -> m_address m = a ->
     elapsed_after (verdicts present e ms) !! a = verdict_elapsed (verdict present (e !! a) m)) /\
  ((forall m, m ∈ ms -> m_address m <> a) -> elapsed_after (verdicts present e ms) !! a = None).
Proof.
  induction ms as [|m ms IH]; intros Hnd; [split; [set_solver|done]|].
  apply NoDup_cons in Hnd as [Hn Hnd]. destruct (IH Hnd) as [IH1 IH2]. clear IH.
  assert (Hne : m_address m = a -> elapsed_after (verdicts present e ms) !! a = None).
  { intros <-. apply IH2. intros m' Hm' He. apply Hn. rewrite <- He. by apply (list_elem_of_fmap_2 (fun m => m_address m)). }
  assert (Hcons : elapsed_after (verdicts present e (m :: ms)) !! a =
    if decide (m_address m = a) then verdict_elapsed (verdict present (e !! a) m)
    else elapsed_after (verdicts present e ms) !! a).
  { unfold elapsed_after. cbn. fold (verdicts present e ms). case_decide as Ha.
    - destruct Ha. destruct (verdict_elapsed _); cbn; [apply lookup_insert_eq|by apply Hne].
    - destruct (verdict_elapsed _); cbn; [by rewrite lookup_insert_ne|done]. }
  rewrite Hcons. split.
  - intros m' [->|Hm']%elem_of_cons Ha; [by rewrite decide_True|]. rewrite decide_False; [by apply IH1|].
    intros He. apply Hn. rewrite He, <- Ha. by apply (list_elem_of_fmap_2 (fun m => m_address m)).
  - intros Ha. rewrite decide_False by set_solver. apply IH2. set_solver.
Qed.

(** ** Refinement, call by call *)

Definition represents (c : TopologyFailureClassifier) (w : Stopwatches) : Prop := abs (sw_clock w) c = w.

Lemma represents_Resume now c w : represents c w -> abs now (Resume now c) = sw_read now w.
Proof. intros <-. by rewrite (abs_Resume (sw_clock w)). Qed.

Lemma negative_timeout t : negb (0 <=? t) = (t <? 0).
Proof. destruct (0 <=? t) eqn:H1, (t <? 0) eqn:H2; try done; lia. Qed.

Section Refinement.
Context `{RE2, SHA256}.

(** After the loop and the removal of departed members the timers are those of the specification. *)
Lemma observe_timers st topology now present timers : snapshot_of st topology ->
  let elapsed := (fun since => now - since) <$> timers in
  let vs := verdicts present elapsed (Members topology) in
  (fun since => now - since) <$>
    filter (fun kv => is_ok (FindMemberByAddress kv.1 topology) = true) (timers_after now vs timers) = elapsed_after vs.
Proof.
  intros Hs. cbn zeta. pose proof (mv_addresses _ (snapshot_valid _ _ Hs)) as Hnd.
  apply map_eq. intros a. rewrite lookup_fmap.
  destruct (elapsed_after_lookup present ((fun since => now - since) <$> timers) _ a Hnd) as [Hin Hout].
  pose proof (FindMemberByAddress_spec st topology a Hs) as Hf.
  destruct (FindMemberByAddress a topology) as [m|code] eqn:Ef.
  - destruct Hf as [Hm%(snapshot_members _ _ _ Hs) Ha]. rewrite (Hin _ Hm Ha). subst a.
    rewrite map_lookup_filter, timers_after_member by done.
    destruct (verdict_elapsed _) as [e|]; cbn; [|done].
    rewrite option_guard_True by by rewrite Ef. cbn. f_equal. lia.
  - destruct Hf as [_ Hf]. rewrite Hout by (intros m Hm; apply Hf, (snapshot_members _ _ _ Hs), Hm).
    rewrite map_lookup_filter. destruct (timers_after _ _ _ !! a); cbn; [|done].
    by rewrite option_guard_False by by rewrite Ef.
Qed.

Lemma append_verdicts_empty timeout vs :
  append_verdicts timeout vs empty_classification =
  {| fc_removeInitial := initial_of vs; fc_removeJoining := joining_of vs;
     fc_confirmedFailure := mo_identity <$> confirmed_of timeout vs; fc_newlyMissing := newly_of vs;
     fc_restored := restored_of vs; fc_confirmedMissing := confirmed_of timeout vs |}.
Proof. done. Qed.

Lemma Observe_refines st topology members now c w : snapshot_of st topology -> represents c w ->
  exists c', Observe topology members now c = (c', (spec_Observe (nodeDeadTimeout_ c) (Members topology) members now w).2) /\
    represents c' (spec_Observe (nodeDeadTimeout_ c) (Members topology) members now w).1 /\
    nodeDeadTimeout_ c' = nodeDeadTimeout_ c.
Proof.
  intros Hs Hw. unfold Observe, spec_Observe. rewrite negative_timeout.
  destruct (nodeDeadTimeout_ c <? 0); [by eauto|]. rewrite collect_addresses_spec.
  pose proof (represents_Resume now c w Hw) as Hr. pose proof (Resume_running now c) as Hrun.
  destruct (readable_set _) as [present|]; cbn [fst snd].
  2: { eexists. split; [done|]. split; [exact Hr|apply Resume_timeout]. }
  rewrite observe_loop by apply (mv_addresses _ (snapshot_valid _ _ Hs)). rewrite <- Hr, abs_elapsed by done.
  rewrite append_verdicts_empty. cbn [fc_confirmedFailure fc_removeInitial fc_removeJoining fc_newlyMissing fc_restored fc_confirmedMissing app].
  eexists. split; [by rewrite Resume_timeout|]. split; [|by cbn; apply Resume_timeout].
  unfold represents. rewrite abs_set_missing by done. by rewrite (observe_timers st).
Qed.

(** The loop over the samples. *)
Lemma expired_samples_ext timeout e e' (samples : list MemberAbsenceSample) :
  (forall s, s ∈ samples -> e !! sample_address s = e' !! sample_address s) ->
  omap (expired_sample timeout e) samples = omap (expired_sample timeout e') samples.
Proof.
  induction samples as [|s l IH]; intros He; [done|]. cbn. rewrite IH by set_solver.
  unfold expired_sample at 1 3. by rewrite (He s) by set_solver.
Qed.

Lemma sample_step_spec timeout now timers acc s :
  sample_step timeout now (timers, acc) s =
    (put_timer (sample_address s) (Some (default now (timers !! sample_address s))) timers,
     acc ++ omap (expired_sample timeout ((fun since => now - since) <$> timers)) [s]).
Proof.
  unfold sample_step, start_timer, timed_out, DurationMs. cbn [fst snd omap list_omap].
  unfold expired_sample, expired, sample_address. rewrite lookup_fmap.
  destruct (timers !! mi_address (ms_identity s)) as [since|] eqn:Ht; cbn; rewrite ?Z.sub_diag; f_equal.
  - rewrite <- Ht. by rewrite put_timer_same.
  - f_equal. by destruct (_ <=? _).
  - f_equal. by destruct (_ <=? _).
Qed.

Lemma sample_loop timeout now samples : NoDup (sample_address <$> samples) -> forall timers acc,
  exists timers', foldl (sample_step timeout now) (timers, acc) samples =
    (timers', acc ++ omap (expired_sample timeout ((fun since => now - since) <$> timers)) samples) /\
    forall a, timers' !! a =
      if decide (a ∈ sample_address <$> samples) then Some (default now (timers !! a)) else timers !! a.
Proof.
  induction samples as [|s samples IH]; intros Hnd timers acc.
  - exists timers. cbn. rewrite app_nil_r. split; [done|]. intros a. rewrite decide_False; [done|]. set_solver.
  - apply NoDup_cons in Hnd as [Hn Hnd]. cbn [foldl]. rewrite sample_step_spec.
    set (ts := put_timer _ _ _). destruct (IH Hnd ts (acc ++ omap (expired_sample timeout ((fun since => now - since) <$> timers)) [s]))
      as (timers' & -> & Hl). exists timers'. split.
    + f_equal. rewrite <- app_assoc. f_equal. rewrite (omap_app _ [s] samples : omap _ (s :: samples) = _). f_equal. apply expired_samples_ext.
      intros s' Hs'. rewrite !lookup_fmap. unfold ts, put_timer. rewrite lookup_partial_alter_ne; [done|].
      intros He. apply Hn. rewrite He. by apply list_elem_of_fmap_2.
    + intros a. rewrite Hl. unfold ts, put_timer. destruct (decide (a = sample_address s)) as [->|Ha].
      * rewrite lookup_partial_alter_eq, decide_False, decide_True by set_solver. done.
      * rewrite lookup_partial_alter_ne by done. destruct (decide (a ∈ sample_address <$> samples)) as [Hi|Hi].
        -- rewrite decide_True; [done|]. rewrite fmap_cons. by right.
        -- rewrite decide_False; [done|]. rewrite fmap_cons. set_solver.
Qed.

(** Dropping the timers outside the sample and resuming commute. *)
Lemma Resume_set_filter now (P : string -> Prop) `{!forall a, Decision (P a)} c :
  missingSince_ (Resume now (set_missing (filter (fun kv => P kv.1) (missingSince_ c)) c)) =
  filter (fun kv => P kv.1) (missingSince_ (Resume now c)).
Proof.
  unfold Resume, set_missing. cbn. destruct (pausedAt_ c); cbn; [|done].
  apply map_eq. intros a. rewrite lookup_fmap, !map_lookup_filter, lookup_fmap.
  destruct (missingSince_ c !! a); cbn; [|done]. by case_guard.
Qed.

Lemma set_to_map_default (f : string -> Z) (X : gset string) a :
  (set_to_map (fun a => (a, f a)) X : gmap string Z) !! a = (guard (a ∈ X);; Some (f a)).
Proof.
  apply option_eq. intros e. rewrite lookup_set_to_map by done. case_guard as Ha; split.
  - by intros (a' & Ha' & [= -> ->]).
  - intros [= <-]. by exists a.
  - by intros (a' & Ha' & [= -> ->]).
  - done.
Qed.

Lemma ObserveMissingSamples_refines samples now c w : represents c w ->
  exists c', ObserveMissingSamples samples now c =
      (c', (spec_ObserveMissingSamples (nodeDeadTimeout_ c) samples now w).2) /\
    represents c' (spec_ObserveMissingSamples (nodeDeadTimeout_ c) samples now w).1 /\
    nodeDeadTimeout_ c' = nodeDeadTimeout_ c.
Proof.
  intros Hw. unfold ObserveMissingSamples, spec_ObserveMissingSamples. rewrite negative_timeout.
  destruct (nodeDeadTimeout_ c <? 0); [by eauto|]. rewrite collect_addresses_spec.
  change (fun s => mi_address (ms_identity s)) with sample_address.
  destruct (readable_set (sample_address <$> samples)) as [sampled|] eqn:Es; cbn [fst snd]; [|by eauto].
  unfold readable_set in Es. case_decide as Hd; [|done]. injection Es as <-. destruct Hd as [Hnd _].
  set (sampled := list_to_set (sample_address <$> samples) : gset string).
  set (c1 := set_missing (filter (fun kv => kv.1 ∈ sampled) (missingSince_ c)) c).
  pose proof (Resume_running now c1) as Hrun.
  assert (Hf : missingSince_ (Resume now c1) = filter (fun kv => kv.1 ∈ sampled) (missingSince_ (Resume now c)))
    by exact (Resume_set_filter now (fun a => a ∈ sampled) c).
  assert (Hel : forall a, a ∈ sampled -> missingSince_ (Resume now c1) !! a = missingSince_ (Resume now c) !! a).
  { intros a Ha. rewrite Hf, map_lookup_filter.
    destruct (_ !! a); cbn; [|done]. by rewrite option_guard_True. }
  assert (Hno : forall a, a ∉ sampled -> missingSince_ (Resume now c1) !! a = None).
  { intros a Ha. rewrite Hf, map_lookup_filter.
    destruct (_ !! a); cbn; [|done]. by rewrite option_guard_False. }
  rewrite <- (represents_Resume now c w Hw), abs_elapsed by apply Resume_running.
  destruct (sample_loop (nodeDeadTimeout_ (Resume now c1)) now samples Hnd (missingSince_ (Resume now c1)) []) as (ts & -> & Hl).
  assert (Hsa : forall a, a ∈ sample_address <$> samples <-> a ∈ sampled) by (intros a; unfold sampled; set_solver).
  eexists. split; [f_equal; f_equal|split]; [|..|cbn; by rewrite Resume_timeout].
  - cbn. rewrite Resume_timeout. apply expired_samples_ext. intros s Hs. rewrite !lookup_fmap. f_equal.
    apply Hel, Hsa. by apply list_elem_of_fmap_2.
  - unfold represents. cbn [set_elapsed sw_clock abs]. rewrite abs_set_missing by done. unfold set_elapsed. cbn.
    rewrite Hrun, (Resume_running now c). f_equal. apply map_eq. intros a. rewrite lookup_fmap, Hl.
    destruct (decide (a ∈ sampled)) as [Ha|Ha].
    + rewrite decide_True by by apply Hsa. rewrite Hel by done.
      rewrite set_to_map_default, option_guard_True by done.
      cbn. f_equal. rewrite lookup_fmap. destruct (_ !! a); cbn; lia.
    + rewrite decide_False by by rewrite Hsa. rewrite Hno, set_to_map_default, option_guard_False by done. done.
Qed.

(** ** Sequences of calls *)

Inductive Call :=
  | CallObserve (topology : TopologySnapshot) (members : list MembershipRecord) (now : Z)
  | CallSamples (samples : list MemberAbsenceSample) (now : Z)
  | CallPause (now : Z)
  | CallResetMissing (address : string)
  | CallReset.

Inductive Answer :=
  | Classified (r : res FailureClassification)
  | Sampled (r : res (list MemberAbsenceObservation))
  | Done.

Definition call (c : TopologyFailureClassifier) (k : Call) : TopologyFailureClassifier * Answer :=
  match k with
  | CallObserve topology members now => let '(c, r) := Observe topology members now c in (c, Classified r)
  | CallSamples samples now => let '(c, r) := ObserveMissingSamples samples now c in (c, Sampled r)
  | CallPause now => (Pause now c, Done)
  | CallResetMissing address => (ResetMissing address c, Done)
  | CallReset => (Reset c, Done)
  end.

Definition spec_call (timeout : Z) (w : Stopwatches) (k : Call) : Stopwatches * Answer :=
  match k with
  | CallObserve topology members now =>
      let '(w, r) := spec_Observe timeout (Members topology) members now w in (w, Classified r)
  | CallSamples samples now => let '(w, r) := spec_ObserveMissingSamples timeout samples now w in (w, Sampled r)
  | CallPause now => (sw_pause now w, Done)
  | CallResetMissing address => (set_elapsed (delete address (sw_elapsed w)) w, Done)
  | CallReset => ({| sw_running := true; sw_clock := sw_clock w; sw_elapsed := ∅ |}, Done)
  end.

Fixpoint run {S} (f : S -> Call -> S * Answer) (s : S) (ks : list Call) : S * list Answer :=
  match ks with
  | [] => (s, [])
  | k :: ks => let '(s, a) := f s k in let '(s, l) := run f s ks in (s, a :: l)
  end.

(** Topologies are published snapshots. *)
Definition call_valid (k : Call) : Prop :=
  match k with CallObserve topology _ _ => exists st, snapshot_of st topology | _ => True end.

Lemma call_refines c w k : call_valid k -> represents c w ->
  exists c', call c k = (c', (spec_call (nodeDeadTimeout_ c) w k).2) /\
    represents c' (spec_call (nodeDeadTimeout_ c) w k).1 /\ nodeDeadTimeout_ c' = nodeDeadTimeout_ c.
Proof.
  intros Hk Hw. destruct k as [topology members now|samples now|now|address|]; cbn.
  - destruct Hk as [st Hs]. destruct (Observe_refines st topology members now c w Hs Hw) as (c' & -> & Hr & Ht).
    destruct (spec_Observe _ _ _ _ _) as [w' r]. by exists c'.
  - destruct (ObserveMissingSamples_refines samples now c w Hw) as (c' & -> & Hr & Ht).
    destruct (spec_ObserveMissingSamples _ _ _ _) as [w' r]. by exists c'.
  - eexists. split; [done|]. split; [|by unfold Pause; destruct (pausedAt_ c)].
    unfold represents. rewrite <- Hw at 2. apply abs_Pause.
  - eexists. split; [done|]. split; [|done]. unfold represents. cbn [set_elapsed sw_clock].
    rewrite abs_ResetMissing. by rewrite Hw.
  - eexists. split; [done|]. split; [|done]. unfold represents, abs. cbn. by rewrite fmap_empty.
Qed.

Lemma run_refines ks c w : Forall call_valid ks -> represents c w ->
  exists c', run call c ks = (c', (run (spec_call (nodeDeadTimeout_ c)) w ks).2) /\
    represents c' (run (spec_call (nodeDeadTimeout_ c)) w ks).1 /\ nodeDeadTimeout_ c' = nodeDeadTimeout_ c.
Proof.
  intros Hv. revert c w. induction Hv as [|k ks Hk Hv IH]; intros c w Hw; cbn; [by eauto|].
  destruct (call_refines c w k Hk Hw) as (c1 & -> & Hr & Ht).
  destruct (spec_call _ w k) as [w1 a]. cbn in Hr |- *. destruct (IH c1 w1 Hr) as (c2 & -> & Hr2 & Ht2).
  rewrite Ht in *. destruct (run _ w1 ks) as [w2 l]. by exists c2.
Qed.

(** ** No failure is confirmed early *)

Definition call_time (k : Call) : option Z :=
  match k with CallObserve _ _ now | CallSamples _ now | CallPause now => Some now | _ => None end.

(** The stopwatch of [a] shows at most the time since [t0]. *)
Record bounded_since (t0 : Z) (a : string) (w : Stopwatches) : Prop := {
  bs_clock : t0 <= sw_clock w;
  bs_elapsed : forall e, sw_elapsed w !! a = Some e -> e <= sw_clock w - t0
}.

Lemma bounded_read t0 a now w : sw_clock w <= now -> bounded_since t0 a w -> bounded_since t0 a (sw_read now w).
Proof.
  intros Hn [Hc He]. split; cbn; [lia|]. intros e. destruct (sw_running w).
  - rewrite lookup_fmap. intros (e' & He' & ->)%fmap_Some. apply He in He'. lia.
  - intros He'%He. lia.
Qed.

Lemma verdict_elapsed_le present e m e' B : (forall x, e = Some x -> x <= B) -> 0 <= B ->
  verdict_elapsed (verdict present e m) = Some e' -> e' <= B.
Proof.
  intros He HB. unfold verdict. case_decide; [done|]. case_decide; [done|].
  destruct (m_state m), e as [x|]; cbn; intros [= <-]; auto.
Qed.

Lemma bounded_spec_call timeout t0 a w k : call_valid k -> (forall now, call_time k = Some now -> sw_clock w <= now) ->
  bounded_since t0 a w -> bounded_since t0 a (spec_call timeout w k).1.
Proof.
  intros Hk Ht Hb. pose proof Hb as [Hc He].
  destruct k as [topology members now|samples now|now|address|]; cbn in Ht |- *.
  - destruct Hk as [st Hs]. unfold spec_Observe. destruct (_ <? 0); [done|].
    apply (bounded_read t0 a now) in Hb as Hr; [|by apply Ht]. destruct Hr as [Hrc Hre].
    destruct (readable_set _) as [present|]; cbn; [|by split]. split; [done|]. cbn. intros e.
    destruct (elapsed_after_lookup present (sw_elapsed (sw_read now w)) (Members topology) a) as [Hin Hout];
      [apply (mv_addresses _ (snapshot_valid _ _ Hs))|].
    destruct (decide (Exists (fun m => m_address m = a) (Members topology))) as [(m & Hm & Ha)%Exists_exists|Hn].
    + cbn in Hin. rewrite (Hin m Hm Ha). apply verdict_elapsed_le; [exact Hre|cbn in Hrc; lia].
    + cbn in Hout. rewrite Hout; [done|]. intros m Hm Ha. apply Hn, Exists_exists. eauto.
  - unfold spec_ObserveMissingSamples. destruct (_ <? 0); [done|]. destruct (readable_set _) as [sampled|]; [|done].
    apply (bounded_read t0 a now) in Hb as Hr; [|by apply Ht]. destruct Hr as [Hrc Hre]. split; [done|].
    cbn [fst set_elapsed sw_elapsed sw_clock]. generalize dependent (sw_read now w). intros r Hrc Hre e.
    rewrite (set_to_map_default (fun a => default 0 (sw_elapsed r !! a))).
    case_guard; [|by intros [=]]. intros [= <-].
    destruct (sw_elapsed r !! a) as [x|] eqn:Hx; cbn; [by apply Hre|lia].
  - apply (bounded_read t0 a now) in Hb as [Hrc Hre]; [by split|by apply Ht].
  - split; [done|]. cbn. intros e [_ Hx]%lookup_delete_Some. auto.
  - split; [done|]. cbn. by rewrite lookup_empty.
Qed.

Lemma spec_call_clock timeout w k : sw_clock (spec_call timeout w k).1 = sw_clock w \/
  call_time k = Some (sw_clock (spec_call timeout w k).1).
Proof.
  destruct k as [topology members now|samples now|now|address|]; cbn; [| |by right|by left..].
  - unfold spec_Observe. destruct (_ <? 0); [by left|]. destruct (readable_set _); by right.
  - unfold spec_ObserveMissingSamples. destruct (_ <? 0); [by left|]. destruct (readable_set _); [by right|by left].
Qed.

Lemma HdRel_le s t l : s <= t -> HdRel Z.le t l -> HdRel Z.le s l.
Proof. intros Hs []; constructor; lia. Qed.

Lemma bounded_run timeout t0 a ks now w : Forall call_valid ks -> Sorted Z.le (sw_clock w :: omap call_time ks ++ [now]) ->
  bounded_since t0 a w ->
  bounded_since t0 a (run (spec_call timeout) w ks).1 /\ sw_clock (run (spec_call timeout) w ks).1 <= now.
Proof.
  intros Hv. revert w. induction Hv as [|k ks Hk Hv IH]; intros w Hs Hb; cbn in Hs |- *.
  - split; [done|]. by apply Sorted_inv in Hs as [_ ?%HdRel_inv].
  - pose proof (spec_call_clock timeout w k) as Hclk.
    assert (Ht : forall t, call_time k = Some t -> sw_clock w <= t).
    { intros t Hkt. rewrite Hkt in Hs. by apply Sorted_inv in Hs as [_ ?%HdRel_inv]. }
    pose proof (bounded_spec_call timeout t0 a w k Hk Ht Hb) as Hb'.
    destruct (spec_call timeout w k) as [w1 an]. cbn in Hclk, Hb'. destruct (IH w1) as [H1 H2]; [|done|].
    + destruct (call_time k) as [t|] eqn:Hkt; [|by destruct Hclk as [->|]].
      apply Sorted_inv in Hs as [Hs Hd]. destruct Hclk as [->|[= <-]]; [|done].
      apply HdRel_inv in Hd. apply Sorted_inv in Hs as [Hs Hd2]. constructor; [done|].
      by apply HdRel_le with t.
    + by destruct (run _ w1 ks).
Qed.

End Refinement.

Section FailureClaims.
Context `{RE2, SHA256}.

(** C28: The failure classifier is a refinement of one stopwatch per member that runs only while the
    membership can be read: for every sequence of observations, samples, pauses and resets, each answer
    (members to drop, newly missing, restored and confirmed members with their absence in milliseconds, and
    every error) is the answer of the stopwatch specification, which confirms a failure exactly when the
    stopwatch has reached the timeout. *)
Theorem classifier_refines_stopwatches timeout t0 calls : Forall call_valid calls ->
  (run call (new_TopologyFailureClassifier timeout) calls).2 =
  (run (spec_call timeout) {| sw_running := true; sw_clock := t0; sw_elapsed := ∅ |} calls).2.
Proof.
  intros Hv. destruct (run_refines calls (new_TopologyFailureClassifier timeout)
    {| sw_running := true; sw_clock := t0; sw_elapsed := ∅ |} Hv) as (c & -> & _).
  - unfold represents, abs. cbn. by rewrite fmap_empty.
  - done.
Qed.

Lemma observed_present_reset st topology members t0 timeout w a w0 r0 :
  snapshot_of st topology -> a ∈ mr_address <$> members ->
  spec_Observe timeout (Members topology) members t0 w = (w0, Ok r0) -> bounded_since t0 a w0.
Proof.
  intros Hs Ha. unfold spec_Observe. destruct (_ <? 0); [done|].
  destruct (readable_set _) as [present|] eqn:Hp; [|done]. intros [= <- _].
  unfold readable_set in Hp. case_decide; [|done]. injection Hp as <-.
  split; cbn; [lia|]. intros e.
  destruct (elapsed_after_lookup (list_to_set (mr_address <$> members)) (sw_elapsed (sw_read t0 w)) (Members topology) a)
    as [Hin Hout]; [apply (mv_addresses _ (snapshot_valid _ _ Hs))|]. cbn in Hin, Hout.
  destruct (decide (Exists (fun m => m_address m = a) (Members topology))) as [(m & Hm & Hma)%Exists_exists|Hn].
  - rewrite (Hin m Hm Hma). unfold verdict. case_decide; [done|]. rewrite decide_True; [done|]. subst a. set_solver.
  - rewrite Hout; [done|]. intros m Hm He. apply Hn, Exists_exists. eauto.
Qed.

Lemma confirmed_elapsed timeout present elapsed ms o : o ∈ confirmed_of timeout (verdicts present elapsed ms) ->
  exists m, m ∈ ms /\ mo_identity o = m_identity m /\
    timeout * NS_PER_SECOND <= default 0 (elapsed !! m_address m).
Proof.
  unfold confirmed_of. intros ([m v] & Hm & Ho)%list_elem_of_omap.
  apply list_elem_of_fmap in Hm as (m' & [= -> ->] & Hm'). exists m'. unfold verdict in Ho.
  case_decide; [done|]. case_decide; [done|].
  destruct (m_state m'); try done; unfold expired in Ho; destruct (_ <=? _) eqn:Hle in Ho; try done;
    injection Ho as <-; (split; [done|]); (split; [done|lia]).
Qed.

(** C29: No failure is confirmed early: when a member answered an observation at [t0], whatever calls follow in
    time order, a later observation that confirms its absence comes at least the configured timeout after [t0].
    Unreadable periods never shorten the wait. *)
Theorem no_premature_failure st0 st1 topology0 topology1 members0 members1 t0 now c c0 c1 c2 r0 r calls answers o :
  snapshot_of st0 topology0 -> snapshot_of st1 topology1 -> Forall call_valid calls ->
  Observe topology0 members0 t0 c = (c0, Ok r0) ->
  run call c0 calls = (c1, answers) ->
  Observe topology1 members1 now c1 = (c2, Ok r) ->
  Sorted Z.le (t0 :: omap call_time calls ++ [now]) ->
  o ∈ fc_confirmedMissing r -> mi_address (mo_identity o) ∈ mr_address <$> members0 ->
  nodeDeadTimeout_ c * NS_PER_SECOND <= now - t0.
Proof.
  intros Hs0 Hs1 Hv H1 H2 H3 Hsort Ho Ha. set (a := mi_address (mo_identity o)) in *.
  destruct (Observe_refines st0 topology0 members0 t0 c (abs t0 c) Hs0 eq_refl) as (c0' & H1' & Hr0 & Ht0).
  rewrite H1 in H1'. injection H1' as <- Hok0.
  destruct (spec_Observe _ _ members0 _ _) as [w0 r0'] eqn:E0. cbn in Hok0, Hr0. subst r0'.
  pose proof (observed_present_reset _ _ _ _ _ _ a _ _ Hs0 Ha E0) as Hb.
  assert (Hclk : sw_clock w0 = t0).
  { unfold spec_Observe in E0. destruct (_ <? 0); [done|]. destruct (readable_set _); [|done]. by injection E0 as <- _. }
  destruct (run_refines calls c0 w0 Hv Hr0) as (c1' & H2' & Hr1 & Ht1). rewrite H2 in H2'. injection H2' as <- _.
  destruct (bounded_run (nodeDeadTimeout_ c0) t0 a calls now w0 Hv) as [Hb1 Hle]; [by rewrite Hclk|done|].
  set (w1 := (run _ w0 calls).1) in *. clearbody w1.
  destruct (Observe_refines st1 topology1 members1 now c1 w1 Hs1 Hr1) as (c2' & H3' & _ & _).
  rewrite H3 in H3'. injection H3' as _ Hok. unfold spec_Observe in Hok.
  destruct (_ <? 0); [done|]. destruct (readable_set _) as [present|]; [|done]. injection Hok as ->. cbn in Ho.
  apply confirmed_elapsed in Ho as (m & _ & Hid & Hel). unfold a in *. rewrite Hid in *. rewrite Ht1, Ht0 in Hel.
  apply (bounded_read _ _ now) in Hb1 as [_ Hb1]; [|done]. cbn in Hb1, Hel.
  destruct (_ !! _) as [e|]; cbn in Hel; [specialize (Hb1 e eq_refl); lia|].
  apply Sorted_StronglySorted in Hsort; [|intros ???; lia]. apply StronglySorted_inv in Hsort as [_ Hall].
  rewrite Forall_app, Forall_singleton in Hall. lia.
Qed.

End FailureClaims.

(** ** Witnesses *)

Import Demo ReferenceEngine ReferenceDigest.

(** A published topology of three committed members. *)
Definition watched : TopologySnapshot :=
  match Create stable_ABC 5 demo_digest ∅ true "c" with
  | Ok s => s
  | Err _ => BuildIndexes stable_ABC 0 "" ∅ "" false ""
  end.

Lemma watched_snapshot : snapshot_of stable_ABC watched.
Proof. exists 5, demo_digest, ∅, true, "c"%string. vm_compute. reflexivity. Qed.

Definition record_of (address : string) : MembershipRecord :=
  {| mr_address := address; mr_state := LC_READY; mr_timestamp := 1; mr_hostId := "" |}.

Definition seconds (n : Z) : Z := n * NS_PER_SECOND.

(** C is missing from second 1 on; the membership is unreadable from second 2 to 10. *)
Definition outage : list Call :=
  [CallObserve watched (record_of <$> [mi_address idA; mi_address idB]) (seconds 1); CallPause (seconds 2);
   CallObserve watched (record_of <$> [mi_address idA; mi_address idB]) (seconds 10)].

Lemma outage_valid : Forall call_valid outage.
Proof. repeat constructor; exists stable_ABC; apply watched_snapshot. Qed.

Lemma classifier_refines_stopwatches_witness :
  (run call (new_TopologyFailureClassifier 5) outage).2 =
  (run (spec_call 5) {| sw_running := true; sw_clock := 0; sw_elapsed := ∅ |} outage).2.
Proof. apply (classifier_refines_stopwatches 5 0 outage). apply outage_valid. Defined.

Definition all_present : list MembershipRecord := record_of <$> [mi_address idA; mi_address idB; mi_address idC].

Definition confirmed_at_14 : list MemberAbsenceObservation :=
  match (Observe watched (record_of <$> [mi_address idA; mi_address idB]) (seconds 14)
           (run call (Observe watched all_present 0 (new_TopologyFailureClassifier 5)).1 outage).1).2 with
  | Ok r => fc_confirmedMissing r
  | Err _ => []
  end.

Lemma confirmed_at_14_eq : confirmed_at_14 = [{| mo_identity := idC; mo_state := ACTIVE; mo_missingMs := 5000 |}].
Proof. vm_compute. reflexivity. Qed.

Lemma no_premature_failure_witness : confirmed_at_14 <> [] /\ 5 * NS_PER_SECOND <= seconds 14 - 0.
Proof.
  split; [rewrite confirmed_at_14_eq; discriminate|].
  destruct (Observe watched all_present 0 (new_TopologyFailureClassifier 5)) as [c0 [r0|e]] eqn:E0;
    [|vm_compute in E0; discriminate E0].
  destruct (run call c0 outage) as [c1 answers] eqn:E1.
  destruct (Observe watched (record_of <$> [mi_address idA; mi_address idB]) (seconds 14) c1) as [c2 [r|e]] eqn:E2.
  2: { exfalso. pose proof confirmed_at_14_eq as Hc. unfold confirmed_at_14 in Hc. rewrite E0 in Hc. cbn [fst] in Hc.
       rewrite E1 in Hc. cbn [fst] in Hc. rewrite E2 in Hc. discriminate Hc. }
  apply (no_premature_failure stable_ABC stable_ABC watched watched all_present (record_of <$> [mi_address idA; mi_address idB])
    0 (seconds 14) (new_TopologyFailureClassifier 5) c0 c1 c2 r0 r outage answers
    {| mo_identity := idC; mo_state := ACTIVE; mo_missingMs := 5000 |} watched_snapshot watched_snapshot outage_valid E0 E1 E2).
  - repeat constructor; vm_compute; discriminate.
  - pose proof confirmed_at_14_eq as Hc. unfold confirmed_at_14 in Hc. rewrite E0 in Hc. cbn [fst] in Hc.
    rewrite E1 in Hc. cbn [fst] in Hc. rewrite E2 in Hc. cbn [snd] in Hc. rewrite Hc. left.
  - right. right. left.
Defined.
