(* ===== verification/ControllerTypes.v ===== *)
(** * The state of the topology controller

    src/datasystem/cluster/control/topology_controller.h: the options, the
    callbacks of the host process and the fields of [TopologyController], and the
    monad its methods are written in.  A method reads and changes the fields,
    issues requests to the store and may fail; a failure keeps the fields as they
    are.  Callbacks of the host, the two clocks included, are functions of the
    number of the call, so they may answer differently every time; [None] is an
    exception thrown by the callback.  Instants are nanoseconds.

    Left out: the thread, its wake-up deadlines and stop flags, the queue of
    events, and the fields that only throttle log messages or report diagnostics. *)

From coqutil Require Import Datatypes.RecordSetters.
From S2P Require Import Prelude Ordered TopologyTypes HashRing BalancedRing TokenPlacement HostPort KeyHelper Hasher.
From S2P Require Import RingTheory HashAlgorithm OwnerSpec PlanningInterface HashPlans Snapshot RepositoryCodec MembershipTypes.
From S2P Require Import MemoryKvStore TtlManager WatchRegistry WatchDispatcher CoordinatorStore StoreProgram BackendInterface.
From S2P Require Import TaskMaterializer FailureClassifier SnapshotState.
Export DoubleBraceUpdate.

(** ** Options *)

Inductive TopologyEventSourceMode := SELF_MANAGED | EXTERNAL | EXTERNAL_ETCD.
#[global] Instance TopologyEventSourceMode_eq_dec : EqDecision TopologyEventSourceMode.
Proof. solve_decision. Defined.

Inductive ControlBackendProbeOutcome := PO_RESPONSE | PO_DEADLINE_EXCEEDED | PO_UNAVAILABLE | PO_CANCELLED | PO_ERROR.
#[global] Instance ControlBackendProbeOutcome_eq_dec : EqDecision ControlBackendProbeOutcome.
Proof. solve_decision. Defined.

(** The observation of a probe is used by its reporter only; the other fields are logged. *)
Record ControlBackendProbeResult := {
  pr_target : MemberIdentity;
  pr_reporter : option MemberIdentity;
  pr_outcome : ControlBackendProbeOutcome
}.

(** What a commit fence does with the mutation it is given: refuse it, or run it
    with a revision and report a status computed from its status. *)
Inductive FenceDecision := FenceRefuses (code : StatusCode) | FenceRuns (revision : Z) (report : res unit -> res unit).

(** Durations: [nodeDeadTimeout], [failureBatchWindow], [failureProbeTimeout] and
    [witnessProbeRoundTimeout] in seconds, [ordinaryBatchWindow] in minutes, the
    others in milliseconds. *)
Record TopologyControllerOptions := {
  nodeDeadTimeout : Z;
  failureBatchWindow : Z;
  ordinaryBatchWindow : Z;
  reconcileTick : Z;
  scaleOutCollectWindow : Z;
  scaleInCollectWindow : Z;
  witnessProbeRoundTimeout : Z;
  failureProbeWitnessCount : nat;
  localAddress : string;
  probeEpoch : string;
  initialProbeRound : Z;
  maxMembersPerBatch : nat;
  maxDerivedOperationsPerTick : nat;
  maxProgressReadsPerTick : nat;
  derivedSliceBudget : Z;
  eventSourceMode : TopologyEventSourceMode;
  materializeRestartFacts : bool;
  now : nat -> Z;
  steady_clock_now : nat -> Z;
  membershipRestartHandler : option (nat -> string -> Z -> res unit);
  localMembershipRecoveryHandler : option (nat -> res unit);
  memberLivenessProbe : option (nat -> list MemberIdentity -> option (list ControlBackendProbeResult));
  collectiveControlEpoch : option (nat -> option (option Z));
  collectiveReplacementFence : option (nat -> Z -> option FenceDecision);
  failureSummaryCandidateProvider : option (nat -> TopologySnapshot -> list MembershipRecord -> list MemberIdentity);
  activeFailureCommitFence : nat -> TopologySnapshot -> list MembershipRecord -> option Z -> list MemberIdentity -> option FenceDecision
}.

Inductive CoordinationEventType := EV_UNSPECIFIED | EV_PUT | EV_DELETE | EV_RESET.
#[global] Instance CoordinationEventType_eq_dec : EqDecision CoordinationEventType.
Proof. solve_decision. Defined.

Record CoordinationEvent := {
  ce_type : CoordinationEventType; ce_key : string; ce_value : string; ce_version : Z; ce_revision : Z
}.

(** ** Fields *)

Record BatchDeadlineState := { bd_batch : ActiveBatch; bd_deadline : Z }.
Record BatchCollectState := { bc_deadline : Z; bc_started : bool; bc_awaitingAdmission : bool }.
Record FailureReplanCoalesceState := { fr_openedAt : Z; fr_deadline : Z }.

Inductive WorkerLivenessResult := WL_UNKNOWN | WL_REACHABLE | WL_UNREACHABLE.
#[global] Instance WorkerLivenessResult_eq_dec : EqDecision WorkerLivenessResult.
Proof. solve_decision. Defined.

Record WorkerLivenessReport := {
  wr_probeEpoch : string; wr_witnessAddress : string; wr_target : MemberIdentity; wr_probeRound : Z;
  wr_result : WorkerLivenessResult
}.

Record ProbeReport := { rp_result : WorkerLivenessResult; rp_reportedAt : Z }.
Record SuspectProbeRound := {
  sr_target : MemberIdentity;
  sr_probeRound : Z;
  sr_witnesses : gset string;
  sr_startedAt : Z;
  sr_deadline : Z;
  sr_reports : gmap string ProbeReport
}.

Record ActiveFailureProbeState := {
  ap_target : MemberIdentity; ap_controlEpoch : option Z; ap_notBefore : Z; ap_consecutiveUnreachable : Z
}.

Record TopologyController := {
  failureClassifier_ : TopologyFailureClassifier;
  membershipDirty_ : bool;
  topologyCommittedThisTick_ : bool;
  consecutiveReconcileFailures_ : Z;
  reconcileNotBefore_ : option Z;  (** [None] is the default [time_point] *)
  batchDeadline_ : option BatchDeadlineState;
  scaleInCollect_ : option BatchCollectState;
  scaleOutCollect_ : option BatchCollectState;
  failureReplanCoalesce_ : option FailureReplanCoalesceState;
  activeBatchObserved_ : bool;
  admissionCursor_ : nat;
  derivedTopologyVersion_ : Z;
  derivedMembershipDigest_ : string;
  expectedDerivedState_ : ExpectedDerivedState;
  derivedWorkPending_ : bool;
  progressReadCursor_ : nat;
  progressSweepRemaining_ : nat;
  progressTopologyVersion_ : Z;
  progressBatchEpoch_ : Z;
  progressWorkPending_ : bool;
  finishedTaskIds_ : gset string;
  collectiveProbeTopologyVersion_ : option Z;
  collectiveProbeOwner_ : option string;
  collectiveProbeControlEpoch_ : option Z;
  collectiveUnreachableSamples_ : gset string;
  activeFailureProbeStates_ : gmap string ActiveFailureProbeState;
  activeFailureProbeCursor_ : nat;
  activeFailureProbeCandidateSweep_ : list MemberIdentity;
  activeFailureProbeSweepInProgress_ : bool;
  latestRestartTimestampByAddress_ : gmap string Z;
  pendingRestartTimestampByAddress_ : gmap string Z;
  membershipEventPrefix_ : string;
  externalTopology_ : TopologySnapshotState;
  externalMemberships_ : list (string * MembershipRecord);
  membershipEventRevisionByAddress_ : gmap string Z;
  membershipRevisionFloor_ : Z;
  topologyEventRevision_ : Z;
  externalResyncRequired_ : bool;
  externalEventSourceReady_ : bool;
  quarantinedReadyTimestampByAddress_ : gmap string Z;
  suspectRoundsByTarget_ : gmap string SuspectProbeRound;
  nextProbeRound_ : Z;
  hostCalls_ : nat  (** callbacks and clock readings so far *)
}.

Definition no_derived_state : ExpectedDerivedState :=
  {| ed_tasks := []; ed_notifiesByAddress := []; ed_notifyRecipients := []; ed_canonicalRestartNotify := EmptyString |}.

Definition new_TopologyController (options_ : TopologyControllerOptions) (instanceId : Z) : TopologyController := {|
  failureClassifier_ := new_TopologyFailureClassifier (nodeDeadTimeout options_);
  membershipDirty_ := true; topologyCommittedThisTick_ := false;
  consecutiveReconcileFailures_ := 0; reconcileNotBefore_ := None; batchDeadline_ := None; scaleInCollect_ := None; scaleOutCollect_ := None;
  failureReplanCoalesce_ := None; activeBatchObserved_ := false; admissionCursor_ := 0; derivedTopologyVersion_ := 0;
  derivedMembershipDigest_ := EmptyString; expectedDerivedState_ := no_derived_state; derivedWorkPending_ := false;
  progressReadCursor_ := 0; progressSweepRemaining_ := 0; progressTopologyVersion_ := 0; progressBatchEpoch_ := 0;
  progressWorkPending_ := false; finishedTaskIds_ := ∅; collectiveProbeTopologyVersion_ := None;
  collectiveProbeOwner_ := None; collectiveProbeControlEpoch_ := None; collectiveUnreachableSamples_ := ∅;
  activeFailureProbeStates_ := ∅; activeFailureProbeCursor_ := 0; activeFailureProbeCandidateSweep_ := [];
  activeFailureProbeSweepInProgress_ := false; latestRestartTimestampByAddress_ := ∅;
  pendingRestartTimestampByAddress_ := ∅; membershipEventPrefix_ := EmptyString;
  externalTopology_ := new_TopologySnapshotState instanceId; externalMemberships_ := [];
  membershipEventRevisionByAddress_ := ∅; membershipRevisionFloor_ := 0; topologyEventRevision_ := 0;
  externalResyncRequired_ := true; externalEventSourceReady_ := false;
  quarantinedReadyTimestampByAddress_ := ∅; suspectRoundsByTarget_ := ∅;
  nextProbeRound_ := initialProbeRound options_; hostCalls_ := 0
|}.

(** ** Methods *)

Definition ctl (A : Type) : Type := TopologyController -> prog (TopologyController * res A).

Definition done {A} (a : A) : ctl A := fun self => Ret (self, Ok a).
Definition fail {A} (code : StatusCode) : ctl A := fun self => Ret (self, Err code).

(** [RETURN_IF_NOT_OK(m)] *)
Definition andthen {A B} (m : ctl A) (f : A -> ctl B) : ctl B := fun self =>
  m self ≫= fun r => match r.2 with Ok a => f a r.1 | Err code => Ret (r.1, Err code) end.

(** [auto rc = m;] *)
Definition status_of {A} (m : ctl A) : ctl (res A) := fun self => m self ≫= fun r => Ret (r.1, Ok r.2).

Definition self {A} (f : TopologyController -> A) : ctl A := fun self => Ret (self, Ok (f self)).
Definition update (f : TopologyController -> TopologyController) : ctl unit := fun self => Ret (f self, Ok tt).
Definition pure {A} (r : res A) : ctl A := fun self => Ret (self, r).
Definition store {A} (p : prog (res A)) : ctl A := fun self => p ≫= fun r => Ret (self, r).

(** A call of the host. *)
Definition host {A} (f : nat -> A) : ctl A := fun self => Ret (self{{hostCalls_ ::= S}}, Ok (f (hostCalls_ self))).

Declare Scope ctl_scope.
Notation "x ↞ m ; f" := (andthen m (fun x => f)) (at level 20, m at level 100, f at level 200, only parsing) : ctl_scope.
Notation "' x ↞ m ; f" := (andthen m (fun x => f)) (at level 20, x pattern, m at level 100, f at level 200, only parsing) : ctl_scope.
#[global] Open Scope ctl_scope.
