(* ===== verification/ControllerBatch.v ===== *)
(** * Commits and batches of the topology controller

    src/datasystem/cluster/control/topology_controller.cpp: the commit of a
    topology, the admission of members, the materialization of derived state, the
    progress of a batch, and its start, expiry and final step.  Logging is left
    out. *)

From coqutil Require Import Datatypes.RecordSetters.
From S2P Require Import Prelude Ordered TopologyTypes HashRing BalancedRing TokenPlacement HostPort KeyHelper Hasher.
From S2P Require Import RingTheory HashAlgorithm OwnerSpec PlanningInterface HashPlans Snapshot RepositoryCodec.
From S2P Require Import MembershipTypes MembershipCodec PlanBuilder.
From S2P Require Import MemoryKvStore TtlManager WatchRegistry WatchDispatcher CoordinatorStore StoreProgram BackendInterface.
From S2P Require Import TopologyRepository TopologyReader TaskMaterializer FailureClassifier SnapshotState ControllerTypes.

Definition CONTROLLER_READ_TIMEOUT_MS : Z := 3000.
Definition FAILURE_REPLAN_COALESCE_WINDOW : Z := 2000 * NS_PER_MS.

(** ** Helpers *)

Definition lifecycle_number (s : MemberLifecycleState) : Z :=
  match s with
  | LC_UNKNOWN => 0 | LC_STARTING => 1 | LC_RESTARTING => 2 | LC_RECOVERING => 3 | LC_READY => 4 | LC_EXITING => 5
  | LC_DOWNGRADE_RESTARTING => 6 | LC_FAILED => 7
  end.

(** The members not yet passed, and the records whose address is among the members. *)
Definition scope_step (st : list Member * list MembershipRecord) (record : MembershipRecord)
    : list Member * list MembershipRecord :=
  let rest := drop_while (fun m => ltk (m_address m) (mr_address record)) st.1 in
  match rest with
  | m :: _ => if bool_decide (m_address m = mr_address record) then (rest, st.2 ++ [record]) else (rest, st.2)
  | [] => (rest, st.2)
  end.

Definition CollectTopologyMemberships (memberships : list MembershipRecord) (topology : TopologySnapshot)
    : list MembershipRecord := (foldl scope_step (Members topology, []) memberships).2.

Definition NUL : string := String (ascii_of_nat 0) EmptyString.

Definition membership_seed (seed : string) (record : MembershipRecord) : string :=
  seed +:+ mr_address record +:+ NUL +:+ pretty (lifecycle_number (mr_state record)) +:+ NUL +:+
  pretty (mr_timestamp record) +:+ NUL +:+ mr_hostId record +:+ NUL.

(** Retained [FAILED] members, then newly confirmed ones up to the limit; the number of retained ones. *)
Definition collect_failure (maxMembers : nat) (st : gset string * list MemberIdentity) (identity : MemberIdentity)
    : gset string * list MemberIdentity :=
  if (maxMembers <=? length st.2)%nat then st
  else if bool_decide (mi_address identity ∈ st.1) then st
  else ({[mi_address identity]} ∪ st.1, st.2 ++ [identity]).

Definition CollectFailureCommitBatch (latest : TopologySnapshot) (classification : FailureClassification) (maxMembers : nat)
    : list MemberIdentity * nat :=
  let retained := MembersInState (state_ latest) FAILED in
  ((foldl (collect_failure maxMembers) (addresses_of retained, retained) (fc_confirmedFailure classification)).2,
   length retained).

Definition TaskFinished (task : TopologyTask) : bool := forallb tk_finished (task_ranges task).

Definition LimitMembers (members : list MemberIdentity) (limit : nat) : list MemberIdentity :=
  take limit (sort_on mi_address members).

Definition EraseMembers (identities : list MemberIdentity) (state : TopologyState) : TopologyState :=
  RemoveMembers (addresses_of identities) state.

Definition AllMembersExiting (latest : TopologySnapshot) (memberships : list MembershipRecord) : bool :=
  negb (is_empty (Members latest)) &&
  forallb (fun member =>
    match List.find (fun record => bool_decide (mr_address record = m_address member)) memberships with
    | Some record => bool_decide (mr_state record = LC_EXITING)
    | None => false
    end) (Members latest).

(** The record names a member that owns tokens. *)
Definition names_committed (latest : TopologySnapshot) (membership : MembershipRecord) : bool :=
  match FindMemberByAddress (mr_address membership) latest with
  | Ok member => bool_decide (m_state member = ACTIVE) || bool_decide (m_state member = PRE_LEAVING) ||
                 bool_decide (m_state member = LEAVING)
  | Err _ => false
  end.

Definition IsCollectiveCommittedMembershipMissing (latest : TopologySnapshot) (memberships : list MembershipRecord) : bool :=
  negb (is_empty (committedMembers_ latest)) && negb (existsb (names_committed latest) memberships).

Definition CollectBatchParticipants (latest : TopologySnapshot) (type : TopologyChangeType) : list MemberIdentity :=
  MembersInState (state_ latest) (selected_state type).

Definition new_initial (identity : MemberIdentity) : Member :=
  {| m_identity := identity; m_state := INITIAL; m_tokens := []; m_tokenSeedOverrides := [] |}.

Definition advance_version (state : TopologyState) : TopologyState :=
  set_version_batch (u64 (ts_version state + 1)) (ts_activeBatch state) state.

(** A record of [memberships] that shows [identity] ready. *)
Definition ready_record (memberships : list MembershipRecord) (identity : MemberIdentity) : option MembershipRecord :=
  List.find (fun m => bool_decide (mr_address m = mi_address identity) && bool_decide (mr_state m = LC_READY)) memberships.

Section member_ids.
Context `{SHA256}.

Definition bytes_string (bytes : list Z) : string :=
  String.string_of_list_ascii ((fun b => ascii_of_nat (Z.to_nat b)) <$> bytes).

Definition BuildMemberId (membership : MembershipRecord) : res string :=
  let seed := pretty (N.of_nat (String.length (mr_address membership))) +:+ ":" +:+ mr_address membership +:+ ":" +:+
              pretty (mr_timestamp membership) +:+ ":" +:+ mr_hostId membership in
  digest ← HashSHA256 seed;
  _ ← check (UUID_SIZE <=? length digest)%nat K_RUNTIME_ERROR;
  Ok (bytes_string (take UUID_SIZE digest)).

Definition MembershipDigest (memberships : list MembershipRecord) (topologyScope : option TopologySnapshot) : string :=
  let scoped := match topologyScope with
                | Some topology => CollectTopologyMemberships memberships topology
                | None => memberships
                end in
  let seed := foldl membership_seed EmptyString scoped in
  match GetSha256Hex seed with Ok digest => digest | Err _ => seed end.

(** [quarantinedReadyTimestampByAddress_[record->address] = record->timestamp] when the ready record is the member itself. *)
Definition quarantine (memberships : list MembershipRecord) (quarantined : gmap string Z) (identity : MemberIdentity)
    : gmap string Z :=
  match ready_record memberships identity with
  | Some record =>
      match BuildMemberId record with
      | Ok memberId => if bool_decide (memberId = mi_id identity)
                       then <[mr_address record := mr_timestamp record]> quarantined else quarantined
      | Err _ => quarantined
      end
  | None => quarantined
  end.
End member_ids.

(** The loop of [CollectMembershipFacts]: the quarantine, the exiting addresses and the ready records. *)
Definition fact_step (st : gmap string Z * gset string * list MembershipRecord) (record : MembershipRecord)
    : gmap string Z * gset string * list MembershipRecord :=
  let '(quarantined, exiting, ready) := st in
  let exiting := if bool_decide (mr_state record = LC_EXITING) then {[mr_address record]} ∪ exiting else exiting in
  if bool_decide (mr_state record = LC_READY) || bool_decide (mr_state record = LC_RESTARTING) then
    match quarantined !! mr_address record with
    | Some timestamp =>
        if mr_timestamp record <=? timestamp then (quarantined, exiting, ready)
        else (delete (mr_address record) quarantined, exiting, ready ++ [record])
    | None => (quarantined, exiting, ready ++ [record])
    end
  else (quarantined, exiting, ready).

Definition exiting_step (limit : nat) (exiting : gset string) (st : list Member * list MemberIdentity) (member : Member)
    : list Member * list MemberIdentity :=
  let '(members, admitted) := st in
  if bool_decide (m_state member = ACTIVE) && bool_decide (m_address member ∈ exiting) && (length admitted <? limit)%nat
  then (members ++ [set_member_state PRE_LEAVING member], admitted ++ [m_identity member])
  else (members ++ [member], admitted).

(** [changed] is the number of members admitted so far. *)
Definition ApplyExitingMembershipFacts (limit : nat) (next : TopologyState) (exiting : gset string)
    : TopologyState * gset string * list MemberIdentity :=
  let '(members, admittedLeaving) := foldl (exiting_step limit exiting) ([], []) (ts_members next) in
  (set_members members next, list_to_set ((fun m => m_address m) <$> ts_members next), admittedLeaving).

Section ready_facts.
Context `{RE2, SHA256}.

Definition ready_step (limit : nat) (st : list Member * gset string * list MemberIdentity * nat) (record : MembershipRecord)
    : res (list Member * gset string * list MemberIdentity * nat) :=
  let '(members, known, admitted, changed) := st in
  if bool_decide (mr_address record ∈ known) || (limit <=? changed)%nat then Ok st
  else
    _ ← MembershipKey (mr_address record);
    memberId ← BuildMemberId record;
    let identity := {| mi_id := memberId; mi_address := mr_address record |} in
    Ok (members ++ [new_initial identity], {[mr_address record]} ∪ known, admitted ++ [identity], S changed).

Definition ApplyReadyMembershipFacts (limit : nat) (next : TopologyState) (ready : list MembershipRecord)
    (known : gset string) (changed : nat) : res (TopologyState * list MemberIdentity * nat) :=
  '(members, _, admittedJoining, changed) ← foldM (ready_step limit) (ts_members next, known, [], changed) ready;
  Ok (set_members members next, admittedJoining, changed).
End ready_facts.

(** ** Methods *)

Section controller.
Context `{RE2, SHA256, IPlanningAlgorithm}.
Context `{Protobuf ClusterTopologyPb, Protobuf MigrateTaskPb, Protobuf DeleteNodeTaskPb, Protobuf TaskNotifyPb}.
Context `{Protobuf WorkerServiceInfoPb, MapIteration, CoordinationBackend}.
Context (keys_ : TopologyKeyHelper) (options_ : TopologyControllerOptions).

Definition policy_now : ctl Z := host (now options_).
Definition steady_now : ctl Z := host (steady_clock_now options_).

(** An outcome that was not assigned is not [VERSION_GAP]. *)
Definition PublishExternalTopology (candidate : TopologySnapshot) (fullRebuild : bool) : ctl unit := fun self =>
  let '(published, rc, outcome) := Publish (Some candidate) (externalTopology_ self) in
  match rc with
  | Ok _ => Ret (self{{externalTopology_ := published}}, Ok tt)
  | Err code =>
      if bool_decide (outcome = Some VERSION_GAP) && fullRebuild then
        let '(rebuilt, rc) := PublishAfterFullRebuild (Some candidate) published in
        Ret (self{{externalTopology_ := rebuilt}}, rc)
      else Ret (self{{externalTopology_ := published; externalResyncRequired_ := true}}, Err code)
  end.

Definition CommitAndReadBack (expectedVersion : Z) (desired : TopologyState) (expectedAuthorityRevision : Z)
    : ctl TopologySnapshot :=
  result ↞ store (r ← CompareAndSwapTopology keys_ expectedVersion desired expectedAuthorityRevision;
                  Ret (match r.2 with Ok _ => Ok r.1 | Err code => Err code end));
  _ ↞ pure (check (bool_decide (cr_outcome result = CAS_COMMITTED)) K_TRY_AGAIN);
  committed ↞ store (ReadTopologyOnly keys_ CONTROLLER_READ_TIMEOUT_MS);
  _ ↞ pure (check (ts_version desired <=? Version committed) K_TRY_AGAIN);
  _ ↞ (if bool_decide (eventSourceMode options_ = EXTERNAL_ETCD) then
         _ ↞ PublishExternalTopology committed true;
         update (fun self => self{{topologyEventRevision_ ::= Z.max (authorityRevision_ committed)}})
       else done tt);
  _ ↞ update (fun self => self{{topologyCommittedThisTick_ := true}});
  done committed.

Definition EnsureTopologyAuthority : ctl unit :=
  let initial := {| ts_clusterHasInit := ts_clusterHasInit default_TopologyState; ts_version := 1;
                    ts_members := ts_members default_TopologyState; ts_activeBatch := ts_activeBatch default_TopologyState;
                    ts_tokensPerMember := ts_tokensPerMember default_TopologyState |} in
  result ↞ store (r ← CompareAndSwapTopology keys_ 0 initial 0;
                  Ret (match r.2 with Ok _ => Ok r.1 | Err code => Err code end));
  pure (check (bool_decide (cr_outcome result = CAS_COMMITTED) || bool_decide (cr_outcome result = CAS_CONFLICT)) K_TRY_AGAIN).

Definition CommitClusterShutdown (latest : TopologySnapshot) : ctl unit :=
  let state := state_ latest in
  let state := set_version_batch (ts_version state) None
                 (set_members (set_member_state PRE_LEAVING <$> ts_members state) state) in
  next ↞ pure (BuildClusterShutdownFinal state);
  _ ↞ CommitAndReadBack (Version latest) next 0;
  done tt.

(** *** Failures *)

Definition pending_rounds (classification : FailureClassification) (rounds : gmap string SuspectProbeRound) : nat :=
  let classified := list_to_set ((fun o => mi_address (mo_identity o)) <$>
                      fc_newlyMissing classification ++ fc_confirmedMissing classification) ∖
                    addresses_of (fc_confirmedFailure classification) in
  base.size (dom rounds ∩ classified).

(** Whether to hold, with the number of pending rounds. *)
Definition ShouldHoldFailureReplanCoalesce (classification : FailureClassification) (now : Z) : ctl bool :=
  coalesce ↞ self (fun self => default {| fr_openedAt := now; fr_deadline := now + FAILURE_REPLAN_COALESCE_WINDOW |}
                                 (failureReplanCoalesce_ self));
  _ ↞ update (fun self => self{{failureReplanCoalesce_ := Some coalesce}});
  pendingRounds ↞ self (fun self => pending_rounds classification (suspectRoundsByTarget_ self));
  done ((0 <? pendingRounds)%nat && (now <? fr_deadline coalesce)).

Definition ReleaseFailureReplanCoalesce : ctl unit := update (fun self => self{{failureReplanCoalesce_ := None}}).

Definition CommitConfirmedFailures (latest : TopologySnapshot) (classification : FailureClassification)
    (expectedAuthorityRevision : Z) : ctl unit :=
  let '(confirmed, retainedCount) := CollectFailureCommitBatch latest classification (maxMembersPerBatch options_) in
  if (length confirmed =? retainedCount)%nat then update (fun self => self{{failureReplanCoalesce_ := None}})
  else
    now ↞ policy_now;
    hold ↞ ShouldHoldFailureReplanCoalesce classification now;
    if (hold : bool) then done tt
    else
      plan ↞ pure (BuildFailureStartOrReplan (state_ latest) confirmed);
      let next := EraseMembers (fc_removeJoining classification) (EraseMembers (fc_removeInitial classification) (tp_next plan)) in
      _ ↞ CommitAndReadBack (Version latest) next expectedAuthorityRevision;
      _ ↞ update (fun self => self{{suspectRoundsByTarget_ ::=
             fun rounds => foldl (fun rounds identity => delete (mi_address identity) rounds) rounds (fc_confirmedFailure classification)}});
      ReleaseFailureReplanCoalesce.

Definition CommitUncommittedCleanup (latest : TopologySnapshot) (classification : FailureClassification)
    (expectedAuthorityRevision : Z) : ctl unit :=
  let removeJoining := fc_removeJoining classification in
  let removeInitial := fc_removeInitial classification in
  let commit next := _ ↞ CommitAndReadBack (Version latest) next expectedAuthorityRevision; done tt in
  let cleanup := if is_empty removeInitial then done tt
                 else commit (EraseMembers removeInitial (advance_version (state_ latest))) in
  match ts_activeBatch (state_ latest) with
  | Some batch =>
      if is_empty removeJoining then cleanup
      else match ab_type batch with
      | SCALE_OUT =>
          plan ↞ pure (BuildScaleOutReplan (state_ latest) removeJoining);
          commit (EraseMembers removeInitial (tp_next plan))
      | FAILURE =>
          plan ↞ pure (BuildFailureStartOrReplan (state_ latest) (MembersInState (state_ latest) FAILED));
          commit (EraseMembers removeInitial (EraseMembers removeJoining (tp_next plan)))
      | SCALE_IN => cleanup
      end
  | None => cleanup
  end.

(** *** Admission *)

Definition CollectMembershipFacts (memberships : list MembershipRecord) : ctl (gset string * list MembershipRecord) := fun self =>
  let '(quarantined, exiting, ready) := foldl fact_step (quarantinedReadyTimestampByAddress_ self, ∅, []) memberships in
  Ret (self{{quarantinedReadyTimestampByAddress_ := quarantined}}, Ok (exiting, sort_on mr_address ready)).

Definition collect_of (type : TopologyChangeType) (self : TopologyController) : option BatchCollectState :=
  match type with SCALE_IN => scaleInCollect_ self | _ => scaleOutCollect_ self end.

Definition set_collect (type : TopologyChangeType) (collect : option BatchCollectState) (self : TopologyController)
    : TopologyController :=
  match type with SCALE_IN => self{{scaleInCollect_ := collect}} | _ => self{{scaleOutCollect_ := collect}} end.

Definition ClearBatchCollectState (type : TopologyChangeType) : ctl unit := update (set_collect type None).

Definition collect_window (type : TopologyChangeType) : Z :=
  match type with SCALE_IN => scaleInCollectWindow options_ | _ => scaleOutCollectWindow options_ end.

(** A member of the topology that can leave or join, in the order of the members. *)
Definition leaving_candidate (directAdmission : bool) (exiting : gset string) (member : Member) : bool :=
  bool_decide (m_state member = PRE_LEAVING) ||
  (directAdmission && bool_decide (m_state member = ACTIVE) && bool_decide (m_address member ∈ exiting)).

Definition joining_candidate (ready : list MembershipRecord) (member : Member) : bool :=
  bool_decide (m_state member = INITIAL) && bool_decide (m_address member ∈ mr_address <$> ready).

(** Direct admission of a record that is not a member yet. *)
Definition direct_step (limit : nat) (known : list string) (materializeNewMemberIds : bool) (joining : list MemberIdentity)
    (record : MembershipRecord) : res (list MemberIdentity) :=
  if bool_decide (mr_address record ∈ known) || (limit <=? length joining)%nat then Ok joining
  else
    memberId ← (if materializeNewMemberIds then BuildMemberId record else Ok EmptyString);
    Ok (joining ++ [{| mi_id := memberId; mi_address := mr_address record |}]).

(** The members that may leave and those that may join. *)
Definition CollectNextBatchCandidates (latest : TopologySnapshot) (memberships : list MembershipRecord)
    (materializeNewMemberIds : bool) : ctl (list MemberIdentity * list MemberIdentity) :=
  '(exiting, ready) ↞ CollectMembershipFacts memberships;
  let directAdmission := bool_decide (eventSourceMode options_ = EXTERNAL) && ts_clusterHasInit (state_ latest) in
  let leaving := m_identity <$> List.filter (leaving_candidate directAdmission exiting) (Members latest) in
  let joining := m_identity <$> List.filter (joining_candidate ready) (Members latest) in
  let known := (fun m => m_address m) <$> Members latest in
  joining ↞ pure (if (directAdmission : bool)
                  then foldM (direct_step (maxMembersPerBatch options_) known materializeNewMemberIds) joining ready
                  else Ok joining);
  done (LimitMembers leaving (maxMembersPerBatch options_), LimitMembers joining (maxMembersPerBatch options_)).

Definition ShouldApplyReadyScaleOutAdmission (latest : TopologySnapshot) (ready : list MembershipRecord) (known : gset string)
    : ctl bool :=
  let hasUnknownReady := existsb (fun record => bool_decide (mr_address record ∉ known)) ready in
  collect ↞ self scaleOutCollect_;
  if has_value (ts_activeBatch (state_ latest)) then
    if negb (ts_clusterHasInit (state_ latest)) then done true
    else if negb hasUnknownReady then
      _ ↞ (if (match collect with Some c => bc_awaitingAdmission c | None => false end : bool)
           then ClearBatchCollectState SCALE_OUT else done tt);
      done false
    else if (0 <? scaleOutCollectWindow options_) && negb (match collect with Some c => bc_awaitingAdmission c | None => false end) then
      now ↞ policy_now;
      _ ↞ update (set_collect SCALE_OUT (Some {| bc_deadline := now + scaleOutCollectWindow options_ * NS_PER_MS;
                                                 bc_started := false; bc_awaitingAdmission := true |}));
      done false
    else done false
  else match collect with
  | None => done true
  | Some _ =>
      if negb hasUnknownReady then done false
      else
        candidates ↞ status_of (CollectNextBatchCandidates latest ready false);
        let hasReadyInitial := match candidates with Ok (_, joining) => negb (is_empty joining) | Err _ => false end in
        _ ↞ (if (match collect with Some c => negb (bc_awaitingAdmission c) | None => false end && negb hasReadyInitial : bool)
             then ClearBatchCollectState SCALE_OUT else done tt);
        collect ↞ self scaleOutCollect_;
        match collect with
        | None => done true
        | Some c =>
            now ↞ policy_now;
            if now <? bc_deadline c then done true
            else if bc_awaitingAdmission c && negb hasReadyInitial then done true
            else
              _ ↞ update (set_collect SCALE_OUT (Some {| bc_deadline := bc_deadline c; bc_started := bc_started c;
                                                         bc_awaitingAdmission := false |}));
              _ ↞ (if (negb hasReadyInitial : bool) then ClearBatchCollectState SCALE_OUT else done tt);
              done (negb hasReadyInitial)
        end
  end.

Definition CommitMembershipFacts (latest : TopologySnapshot) (memberships : list MembershipRecord) : ctl unit :=
  if bool_decide (eventSourceMode options_ = EXTERNAL) && ts_clusterHasInit (state_ latest) then done tt
  else
    '(exiting, ready) ↞ CollectMembershipFacts memberships;
    let limit := maxMembersPerBatch options_ in
    let '(next, known, admittedLeaving) := ApplyExitingMembershipFacts limit (advance_version (state_ latest)) exiting in
    applies ↞ ShouldApplyReadyScaleOutAdmission latest ready known;
    '(next, admittedJoining, changed) ↞ pure (
       if (applies : bool) then ApplyReadyMembershipFacts limit next ready known (length admittedLeaving)
       else Ok (next, [], length admittedLeaving));
    if (changed =? 0)%nat then done tt
    else
      _ ↞ CommitAndReadBack (Version latest) next 0;
      scaleIn ↞ self scaleInCollect_;
      _ ↞ (if negb (is_empty admittedLeaving) && (0 <? scaleInCollectWindow options_) && negb (has_value scaleIn) then
             now ↞ policy_now;
             update (set_collect SCALE_IN (Some {| bc_deadline := now + scaleInCollectWindow options_ * NS_PER_MS;
                                                   bc_started := false; bc_awaitingAdmission := false |}))
           else done tt);
      scaleOut ↞ self scaleOutCollect_;
      _ ↞ (if ts_clusterHasInit (state_ latest) && negb (is_empty admittedJoining) && (0 <? scaleOutCollectWindow options_) &&
              negb (has_value scaleOut) then
             now ↞ policy_now;
             update (set_collect SCALE_OUT (Some {| bc_deadline := now + scaleOutCollectWindow options_ * NS_PER_MS;
                                                    bc_started := false; bc_awaitingAdmission := false |}))
           else done tt);
      if is_empty admittedJoining then done tt
      else update (fun self => set_collect SCALE_OUT
             ((fun c => {| bc_deadline := bc_deadline c; bc_started := bc_started c; bc_awaitingAdmission := false |})
              <$> scaleOutCollect_ self) self).

(** *** Derived state *)

Definition PrepareDerivedGeneration (latest : TopologySnapshot) (memberships : list MembershipRecord) : ctl unit :=
  let restarts := materializeRestartFacts options_ in
  let scopeMembershipsToTopology := restarts && has_value (ts_activeBatch (state_ latest)) in
  let membershipDigest := if restarts
    then MembershipDigest memberships (if scopeMembershipsToTopology then Some latest else None) else EmptyString in
  unchanged ↞ self (fun self => (derivedTopologyVersion_ self =? Version latest) &&
                                bool_decide (derivedMembershipDigest_ self = membershipDigest));
  if (unchanged : bool) then done tt
  else
    let generationMemberships := if scopeMembershipsToTopology then CollectTopologyMemberships memberships latest else memberships in
    candidate ↞ pure (RebuildExpected latest generationMemberships restarts);
    update (fun self => self{{expectedDerivedState_ := candidate; derivedTopologyVersion_ := Version latest;
      derivedMembershipDigest_ := membershipDigest; admissionCursor_ := 0%nat; derivedWorkPending_ := true}}).

(** The clock is still within the slice that started at [startedAt]. *)
Definition within_budget (startedAt : Z) : ctl bool :=
  t ↞ steady_now; done (t - startedAt <? derivedSliceBudget options_ * NS_PER_MS).

(** One operation of the generation: a task, then a notification. *)
Definition derived_operation (expected : ExpectedDerivedState) (index : nat) : ctl unit :=
  match ed_tasks expected !! index with
  | Some task => store (CreateTaskIfAbsent keys_ task)
  | None =>
      match ed_notifyRecipients expected !! (index - length (ed_tasks expected))%nat with
      | Some address =>
          notify ↞ pure (BuildEncodedNotifyFor expected address);
          store (RewriteEncodedNotify keys_ address notify)
      | None => done tt
      end
  end.

(** At most [remaining] more operations. *)
Fixpoint derived_loop (remaining operations : nat) (startedAt : Z) (expected : ExpectedDerivedState) : ctl unit :=
  match remaining with
  | O => done tt
  | S remaining =>
      if (maxDerivedOperationsPerTick options_ <=? operations)%nat then done tt
      else
        inside ↞ within_budget startedAt;
        if negb inside then done tt
        else
          index ↞ self admissionCursor_;
          _ ↞ derived_operation expected index;
          _ ↞ update (fun self => self{{admissionCursor_ ::= S}});
          derived_loop remaining (S operations) startedAt expected
  end.

Definition ReconcileDerivedSlice : ctl unit :=
  expected ↞ self expectedDerivedState_;
  let total := (length (ed_tasks expected) + length (ed_notifyRecipients expected))%nat in
  if (total =? 0)%nat then update (fun self => self{{admissionCursor_ := 0%nat; derivedWorkPending_ := false}})
  else
    startedAt ↞ steady_now;
    cursor ↞ self admissionCursor_;
    _ ↞ derived_loop (total - cursor) 0 startedAt expected;
    update (fun self => self{{derivedWorkPending_ := (admissionCursor_ self <? total)%nat}}).

Definition ReconcileDerivedState (latest : TopologySnapshot) (memberships : list MembershipRecord) : ctl unit :=
  _ ↞ PrepareDerivedGeneration latest memberships;
  ReconcileDerivedSlice.

(** *** Progress of a batch *)

Definition read_task (batch : ActiveBatch) (task : TopologyTask) : prog (res TopologyTask) :=
  ReadTask keys_ (TaskKind task) (task_id task) (ab_type batch) (ab_epoch batch).

(** [remaining] is what is left of the sweep; the result is the number of tasks visited. *)
Fixpoint progress_loop (remaining visited reads start : nat) (startedAt : Z) (batch : ActiveBatch) (tasks : list TopologyTask)
    : ctl nat :=
  match remaining with
  | O => done visited
  | S remaining =>
      if (maxProgressReadsPerTick options_ <=? reads)%nat then done visited
      else
        inside ↞ within_budget startedAt;
        if negb inside then done visited
        else match tasks !! ((start + visited) mod length tasks)%nat with
        | None => fail K_RUNTIME_ERROR
        | Some task =>
            finished ↞ self (fun self => bool_decide (task_id task ∈ finishedTaskIds_ self));
            if (finished : bool) then progress_loop remaining (S visited) reads start startedAt batch tasks
            else
              rc ↞ status_of (store (read_task batch task));
              match rc with
              | Err code => if bool_decide (code = K_NOT_FOUND)
                            then progress_loop remaining (S visited) (S reads) start startedAt batch tasks else fail code
              | Ok observed =>
                  _ ↞ (if TaskFinished observed
                       then update (fun self => self{{finishedTaskIds_ ::= fun ids => {[task_id task]} ∪ ids}}) else done tt);
                  progress_loop remaining (S visited) (S reads) start startedAt batch tasks
              end
        end
  end.

Definition RefreshTaskProgressCache (batch : ActiveBatch) (expected : ExpectedDerivedState) : ctl unit :=
  let tasks := ed_tasks expected in
  let total := length tasks in
  _ ↞ update (fun self =>
        if negb (progressBatchEpoch_ self =? ab_epoch batch) || negb (progressTopologyVersion_ self =? derivedTopologyVersion_ self)
        then self{{progressTopologyVersion_ := derivedTopologyVersion_ self; progressBatchEpoch_ := ab_epoch batch;
                   progressReadCursor_ := 0%nat; progressSweepRemaining_ := total;
                   progressWorkPending_ := negb (is_empty tasks); finishedTaskIds_ := ∅}}
        else self);
  if (total =? 0)%nat then
    update (fun self => self{{progressReadCursor_ := 0%nat; progressSweepRemaining_ := 0%nat; progressWorkPending_ := false}})
  else
    _ ↞ update (fun self => self{{progressSweepRemaining_ ::=
          fun remaining => if (remaining =? 0)%nat then total else Nat.min remaining total}});
    startedAt ↞ steady_now;
    remaining ↞ self progressSweepRemaining_;
    start ↞ self (fun self => progressReadCursor_ self mod total)%nat;
    visited ↞ progress_loop remaining 0 0 start startedAt batch tasks;
    update (fun self => self{{progressReadCursor_ := ((start + visited) mod total)%nat;
      progressSweepRemaining_ := (remaining - visited)%nat; progressWorkPending_ := (0 <? remaining - visited)%nat}}).

(** Whether every expected task has been seen finished. *)
Definition InspectBatchProgress (batch : ActiveBatch) (expected : ExpectedDerivedState) : ctl bool :=
  _ ↞ RefreshTaskProgressCache batch expected;
  self (fun self => base.size (finishedTaskIds_ self) =? length (ed_tasks expected))%nat.

Definition incomplete_target (finished : gset string) (task : TopologyTask) : option string :=
  match task with
  | TaskMigrate t => if bool_decide (mt_taskId t ∈ finished) then None else Some (mt_targetAddress t)
  | TaskDelete _ => None
  end.

Definition CollectFailedJoining (latest : TopologySnapshot) (expected : ExpectedDerivedState) : ctl (list MemberIdentity) :=
  finished ↞ self finishedTaskIds_;
  let incompleteTargets := omap (incomplete_target finished) (ed_tasks expected) in
  done (m_identity <$> List.filter (fun m => in_state JOINING m && bool_decide (m_address m ∈ incompleteTargets)) (Members latest)).

(** *** Final steps *)

Definition RememberQuarantinedReadyMembers (participants : list MemberIdentity) (memberships : list MembershipRecord) : ctl unit :=
  update (fun self => self{{quarantinedReadyTimestampByAddress_ ::= fun q => foldl (quarantine memberships) q participants}}).

Definition CommitBatchFinal (latest : TopologySnapshot) (batch : ActiveBatch) (memberships : list MembershipRecord) : ctl unit :=
  let participants := CollectBatchParticipants latest (ab_type batch) in
  next ↞ pure (match ab_type batch with
               | SCALE_OUT => BuildScaleOutFinal (state_ latest)
               | SCALE_IN => BuildScaleInFinal (state_ latest)
               | FAILURE => BuildFailureFinal (state_ latest)
               end);
  _ ↞ CommitAndReadBack (Version latest) next 0;
  match ab_type batch with
  | FAILURE => RememberQuarantinedReadyMembers participants memberships
  | _ => done tt
  end.

Definition CommitScaleOutExhaustion (latest : TopologySnapshot) (failedJoining : list MemberIdentity)
    (memberships : list MembershipRecord) : ctl unit :=
  _ ↞ pure (check (negb (is_empty failedJoining)) K_INVALID);
  _ ↞ RememberQuarantinedReadyMembers failedJoining memberships;
  plan ↞ pure (BuildScaleOutReplan (state_ latest) failedJoining);
  _ ↞ CommitAndReadBack (Version latest) (tp_next plan) 0;
  done tt.

Definition CommitExpiredBatch (latest : TopologySnapshot) (batch : ActiveBatch) (failedJoining : list MemberIdentity)
    (memberships : list MembershipRecord) : ctl unit :=
  match ab_type batch with
  | SCALE_OUT => CommitScaleOutExhaustion latest failedJoining memberships
  | SCALE_IN => done tt
  | FAILURE => CommitBatchFinal latest batch memberships
  end.

Definition batch_window (type : TopologyChangeType) : Z :=
  match type with FAILURE => failureBatchWindow options_ | _ => ordinaryBatchWindow options_ * 60 end * NS_PER_SECOND.

(** The deadline of the batch: kept for the same batch and across failure replans. *)
Definition batch_deadline (batch : ActiveBatch) (now : Z) (previous : option BatchDeadlineState) : BatchDeadlineState :=
  let renewed := {| bd_batch := batch; bd_deadline := now + batch_window (ab_type batch) |} in
  match previous with
  | None => renewed
  | Some d =>
      if bool_decide (bd_batch d = batch) ||
         (bool_decide (ab_type (bd_batch d) = FAILURE) && bool_decide (ab_type batch = FAILURE)) then d else renewed
  end.

Definition TryFinalizeActiveBatch (latest : TopologySnapshot) (memberships : list MembershipRecord) : ctl unit :=
  match ts_activeBatch (state_ latest) with
  | None =>
      update (fun self => self{{batchDeadline_ := None; progressReadCursor_ := 0%nat; progressSweepRemaining_ := 0%nat;
        progressTopologyVersion_ := 0; progressBatchEpoch_ := 0; progressWorkPending_ := false; finishedTaskIds_ := ∅}})
  | Some batch =>
      current ↞ self (fun self => derivedTopologyVersion_ self =? Version latest);
      _ ↞ pure (check current K_TRY_AGAIN);
      pending ↞ self derivedWorkPending_;
      if (pending : bool) then done tt
      else
        expected ↞ self expectedDerivedState_;
        complete ↞ InspectBatchProgress batch expected;
        now ↞ policy_now;
        deadline ↞ self (fun self => batch_deadline batch now (batchDeadline_ self));
        _ ↞ update (fun self => self{{batchDeadline_ := Some deadline}});
        if (complete : bool) then CommitBatchFinal latest batch memberships
        else
          pending ↞ self progressWorkPending_;
          if (pending : bool) then done tt
          else if now <? bd_deadline deadline then done tt
          else
            failedJoining ↞ (match ab_type batch with SCALE_OUT => CollectFailedJoining latest expected | _ => done [] end);
            CommitExpiredBatch latest batch failedJoining memberships
  end.

(** *** Starts *)

(** Whether the collection window of the batch has elapsed. *)
Definition UpdateBatchCollectState (participants : list MemberIdentity) (type : TopologyChangeType) (now : Z) : ctl bool :=
  collect ↞ self (collect_of type);
  if is_empty participants then
    _ ↞ (if negb (bool_decide (type = SCALE_OUT)) || negb (match collect with Some c => bc_awaitingAdmission c | None => false end)
         then ClearBatchCollectState type else done tt);
    done false
  else if collect_window type =? 0 then done true
  else
    let c := default {| bc_deadline := now + collect_window type * NS_PER_MS; bc_started := false; bc_awaitingAdmission := false |}
               collect in
    _ ↞ update (set_collect type (Some {| bc_deadline := bc_deadline c; bc_started := true;
                                          bc_awaitingAdmission := bc_awaitingAdmission c |}));
    done (bc_deadline c <=? now).

Definition admit_step (members : list Member) (identity : MemberIdentity) : list Member :=
  if bool_decide (mi_address identity ∈ (fun m => m_address m) <$> members) then members else members ++ [new_initial identity].

Definition PrepareBatchStartState (latest : TopologySnapshot) (participants : list MemberIdentity) (type : TopologyChangeType)
    : TopologyState :=
  let state := state_ latest in
  if negb (bool_decide (eventSourceMode options_ = EXTERNAL)) || negb (ts_clusterHasInit state) then state
  else match type with
  | SCALE_OUT => set_members (foldl admit_step (ts_members state) participants) state
  | SCALE_IN => set_members ((fun m => if in_state ACTIVE m && bool_decide (m_address m ∈ addresses_of participants)
                                       then set_member_state PRE_LEAVING m else m) <$> ts_members state) state
  | FAILURE => state
  end.

Definition CommitBatchStart (latest : TopologySnapshot) (participants : list MemberIdentity) (type : TopologyChangeType)
    (bootstrap : bool) : ctl unit :=
  let state := PrepareBatchStartState latest participants type in
  next ↞ pure (if bootstrap then BuildBootstrap state participants
               else match type with
               | SCALE_OUT => tp_next <$> BuildScaleOutStart state participants
               | SCALE_IN => tp_next <$> BuildScaleInStart state participants
               | FAILURE => Err K_INVALID
               end);
  _ ↞ CommitAndReadBack (Version latest) next 0;
  update (set_collect type None).

Definition TryStartNextBatch (latest : TopologySnapshot) (memberships : list MembershipRecord) : ctl unit :=
  now ↞ policy_now;
  let hasActiveBatch := has_value (ts_activeBatch (state_ latest)) in
  collect ↞ self scaleOutCollect_;
  let scaleOutCanStart := negb hasActiveBatch && ((scaleOutCollectWindow options_ =? 0) ||
        match collect with Some c => bc_deadline c <=? now | None => false end) in
  '(leaving, joining) ↞ CollectNextBatchCandidates latest memberships scaleOutCanStart;
  let bootstrap := is_empty (committedMembers_ latest) && negb (is_empty joining) in
  scaleOutReady ↞ UpdateBatchCollectState joining SCALE_OUT now;
  scaleInReady ↞ UpdateBatchCollectState leaving SCALE_IN now;
  if (hasActiveBatch : bool) then done tt
  else if negb (is_empty joining) then
    if negb scaleOutReady then done tt else CommitBatchStart latest joining SCALE_OUT bootstrap
  else if negb (is_empty leaving) && scaleInReady then CommitBatchStart latest leaving SCALE_IN false
  else done tt.
End controller.
