(* ===== verification/ControllerFailure.v ===== *)
(** * Failure confirmation of the topology controller

    src/datasystem/cluster/control/topology_controller.cpp: the evidence a
    missing member needs before it is failed, direct probes, witness rounds,
    summaries of other workers, and the replacement of a topology none of whose
    members is present.  Probing itself is a callback of the host.  Logging is
    left out. *)

From coqutil Require Import Datatypes.RecordSetters.
From S2P Require Import Prelude Ordered TopologyTypes HashRing BalancedRing TokenPlacement HostPort KeyHelper Hasher.
From S2P Require Import RingTheory HashAlgorithm OwnerSpec PlanningInterface HashPlans Snapshot RepositoryCodec.
From S2P Require Import MembershipTypes MembershipCodec PlanBuilder EndpointView.
From S2P Require Import MemoryKvStore TtlManager WatchRegistry WatchDispatcher CoordinatorStore StoreProgram BackendInterface.
From S2P Require Import TopologyRepository TopologyReader TaskMaterializer FailureClassifier SnapshotState ControllerTypes ControllerBatch.

Definition ACTIVE_FAILURE_DIRECT_PROBE_INTERVAL : Z := 750 * NS_PER_MS.
Definition MIN_ACTIVE_FAILURE_UNREACHABLE_PROBES : Z := 2.
Definition MAX_ACTIVE_FAILURE_PROBES_PER_ROUND : nat := 128.
Definition TWO_WORKER_CLUSTER_SIZE : nat := 2.
Definition COLLECTIVE_PROBE_SAMPLE_COUNT : nat := 5.
Definition COORDINATOR_COLLECTIVE_PROBE_OWNER : string := "coordinator".

(** protos/coordinator.proto *)
Record WorkerProbeEventValuePb := {
  wpe_cluster_name : string; wpe_probe_round : Z; wpe_target_address : string; wpe_target_member_id : string;
  wpe_coordinator_id : string
}.

(** The committed member before the local one, in the order of addresses. *)
Definition FailureProbeTargetOwnedBy (latest : TopologySnapshot) (localAddress : string) : option Member :=
  let committed := committedMembers_ latest in
  match list_find (fun m => m_address m = localAddress) committed with
  | None => None
  | Some (localIndex, _) => committed !! ((localIndex + length committed - 1) mod length committed)%nat
  end.

Definition set_confirmed (confirmed : list MemberIdentity) (c : FailureClassification) : FailureClassification :=
  {| fc_removeInitial := fc_removeInitial c; fc_removeJoining := fc_removeJoining c; fc_confirmedFailure := confirmed;
     fc_newlyMissing := fc_newlyMissing c; fc_restored := fc_restored c; fc_confirmedMissing := fc_confirmedMissing c |}.

Definition add_joining (identity : MemberIdentity) (c : FailureClassification) : FailureClassification :=
  {| fc_removeInitial := fc_removeInitial c; fc_removeJoining := fc_removeJoining c ++ [identity];
     fc_confirmedFailure := fc_confirmedFailure c; fc_newlyMissing := fc_newlyMissing c; fc_restored := fc_restored c;
     fc_confirmedMissing := fc_confirmedMissing c |}.

Definition HasReachableWitness (round : SuspectProbeRound) : bool :=
  existsb (fun entry => bool_decide (rp_result entry.2 = WL_REACHABLE)) (map_to_list (sr_reports round)).

Definition witness_step (limit : nat) (target : MemberIdentity) (witnesses : list string) (candidate : string) : list string :=
  if (0 <? length witnesses)%nat && (length witnesses =? limit)%nat then witnesses
  else if bool_decide (candidate = mi_address target) then witnesses else witnesses ++ [candidate].

Definition SelectCollectiveProbeSamples (latest : TopologySnapshot) : list MemberIdentity :=
  let committed := committedMembers_ latest in
  if (length committed <=? COLLECTIVE_PROBE_SAMPLE_COUNT)%nat then m_identity <$> committed
  else omap (fun index => m_identity <$> committed !! (index * (length committed - 1) / (COLLECTIVE_PROBE_SAMPLE_COUNT - 1))%nat)
         (seq 0 COLLECTIVE_PROBE_SAMPLE_COUNT).

Definition unreachable_outcome (outcome : ControlBackendProbeOutcome) : bool :=
  bool_decide (outcome = PO_DEADLINE_EXCEEDED) || bool_decide (outcome = PO_UNAVAILABLE).

Section failure.
Context `{RE2, SHA256, IPlanningAlgorithm, StringHash}.
Context `{Protobuf ClusterTopologyPb, Protobuf MigrateTaskPb, Protobuf DeleteNodeTaskPb, Protobuf TaskNotifyPb}.
Context `{Protobuf WorkerServiceInfoPb, Protobuf WorkerProbeEventValuePb, MapIteration, CoordinationBackend}.
Context (keys_ : TopologyKeyHelper) (options_ : TopologyControllerOptions).

Abbreviation policy_now := (policy_now options_).

Definition change_classifier (f : TopologyFailureClassifier -> TopologyFailureClassifier) : ctl unit :=
  update (fun self => self{{failureClassifier_ ::= f}}).

(** *** Restarts *)

Definition record_restart (self : TopologyController) (address : string) (timestamp : Z) : TopologyController :=
  match latestRestartTimestampByAddress_ self !! address with
  | Some latest => if timestamp <=? latest then self
                   else self{{latestRestartTimestampByAddress_ ::= <[address := timestamp]>;
                              pendingRestartTimestampByAddress_ ::= <[address := timestamp]>}}
  | None => self{{latestRestartTimestampByAddress_ ::= <[address := timestamp]>;
                  pendingRestartTimestampByAddress_ ::= <[address := timestamp]>}}
  end.

Definition RecordMembershipRestart (address : string) (timestamp : Z) : ctl unit :=
  update (fun self => record_restart self address timestamp).

Definition ObserveMembershipRestarts (memberships : list MembershipRecord) : ctl unit :=
  if negb (has_value (membershipRestartHandler options_)) then done tt
  else update (fun self => foldl (fun self record =>
         if bool_decide (mr_state record = LC_RESTARTING) && (0 <? mr_timestamp record)
         then record_restart self (mr_address record) (mr_timestamp record) else self) self memberships).

(** A delivery that fails is retried while it is the latest restart of the address. *)
Definition deliver_restart (handler : nat -> string -> Z -> res unit) (entry : string * Z) : ctl unit :=
  rc ↞ host (fun n => handler n entry.1 entry.2);
  match rc with
  | Ok _ => done tt
  | Err _ => update (fun self =>
      if bool_decide (latestRestartTimestampByAddress_ self !! entry.1 = Some entry.2)
      then self{{pendingRestartTimestampByAddress_ ::= <[entry.1 := entry.2]>}} else self)
  end.

Fixpoint for_each {A} (f : A -> ctl unit) (l : list A) : ctl unit :=
  match l with [] => done tt | x :: l => _ ↞ f x; for_each f l end.

Definition DrainMembershipRestarts : ctl unit :=
  pending ↞ self pendingRestartTimestampByAddress_;
  _ ↞ update (fun self => self{{pendingRestartTimestampByAddress_ := ∅}});
  match membershipRestartHandler options_ with
  | Some handler => for_each (deliver_restart handler) (iterate pending)
  | None => done tt
  end.

(** *** Witness rounds *)

Definition PublishWitnessProbeEvent (witness : string) (round : SuspectProbeRound) : ctl unit :=
  _ ↞ pure (check (negb (bool_decide (probeEpoch options_ = EmptyString))) K_NOT_READY);
  encoded ↞ pure (match SerializeToCodedStream {|
      wpe_cluster_name := clusterName_ keys_; wpe_probe_round := sr_probeRound round;
      wpe_target_address := mi_address (sr_target round); wpe_target_member_id := mi_id (sr_target round);
      wpe_coordinator_id := probeEpoch options_ |} with Some v => Ok v | None => Err K_RUNTIME_ERROR end);
  store (PutProbeValue keys_ witness encoded).

Definition StartWitnessProbeRound (eligibleWitnesses : list string) (target : MemberIdentity) : ctl unit :=
  let start := if is_empty eligibleWitnesses then 0%nat
               else Z.to_nat (u64 (string_hash (mi_id target)) mod Z.of_nat (length eligibleWitnesses)) in
  let witnesses := foldl (witness_step (failureProbeWitnessCount options_) target) []
                     (drop start eligibleWitnesses ++ take start eligibleWitnesses) in
  now ↞ policy_now;
  roundId ↞ self nextProbeRound_;
  let round := {| sr_target := target; sr_probeRound := roundId; sr_witnesses := list_to_set witnesses; sr_startedAt := now;
                  sr_deadline := now + witnessProbeRoundTimeout options_ * NS_PER_SECOND; sr_reports := ∅ |} in
  _ ↞ update (fun self => self{{
        nextProbeRound_ := (let next := u64 (roundId + 1) in if next =? 0 then 1 else next);
        suspectRoundsByTarget_ ::= <[mi_address target := round]>}});
  for_each (fun witness => _ ↞ status_of (PublishWitnessProbeEvent witness round); done tt) witnesses.

(** The round is kept, and whether it is to be restarted. *)
Definition review_round (latest : TopologySnapshot) (present : gset string) (confirmedMissing : list string) (now : Z)
    (entry : string * SuspectProbeRound) : bool * bool :=
  let round := entry.2 in
  let cleared := bool_decide (entry.1 ∈ present) ||
                 match FindMemberByAddress entry.1 latest with
                 | Ok member => negb (bool_decide (m_identity member = sr_target round))
                 | Err _ => true
                 end in
  (negb cleared,
   negb cleared && (sr_deadline round <=? now) &&
   (negb (bool_decide (entry.1 ∈ confirmedMissing)) || HasReachableWitness round)).

Definition start_if_new (eligibleWitnesses : list string) (observed : MemberAbsenceObservation) : ctl unit :=
  found ↞ self (fun self => suspectRoundsByTarget_ self !! mi_address (mo_identity observed));
  match found with
  | Some round => if bool_decide (sr_target round = mo_identity observed) then done tt
                  else StartWitnessProbeRound eligibleWitnesses (mo_identity observed)
  | None => StartWitnessProbeRound eligibleWitnesses (mo_identity observed)
  end.

Definition RefreshWitnessProbes (latest : TopologySnapshot) (memberships : list MembershipRecord)
    (classification : FailureClassification) : ctl unit :=
  if bool_decide (probeEpoch options_ = EmptyString) then done tt
  else
    let present : gset string := list_to_set (mr_address <$> memberships) in
    let eligibleWitnesses := sort_on (fun a => a)
      (List.filter (fun a => bool_decide (a ∈ present)) ((fun m => m_address m) <$> committedMembers_ latest)) in
    let confirmedMissing := (fun o => mi_address (mo_identity o)) <$> fc_confirmedMissing classification in
    _ ↞ for_each (start_if_new eligibleWitnesses) (fc_newlyMissing classification);
    now ↞ policy_now;
    rounds ↞ self (fun self => iterate (suspectRoundsByTarget_ self));
    let review := review_round latest present confirmedMissing now in
    _ ↞ update (fun self => self{{suspectRoundsByTarget_ ::= filter (fun entry => (review entry).1 = true)}});
    let restart := (fun entry => sr_target entry.2) <$> List.filter (fun entry => (review entry).2) rounds in
    for_each (StartWitnessProbeRound eligibleWitnesses) restart.

Definition accepts_report (round : SuspectProbeRound) (report : WorkerLivenessReport) (now : Z) : bool :=
  bool_decide (sr_target round = wr_target report) && (sr_probeRound round =? wr_probeRound report) &&
  bool_decide (wr_witnessAddress report ∈ sr_witnesses round) && negb (bool_decide (wr_result report = WL_UNKNOWN)) &&
  (now <=? sr_deadline round).

(** The first report of a witness stays unless a later one says reachable. *)
Definition add_report (report : WorkerLivenessReport) (now : Z) (round : SuspectProbeRound) : SuspectProbeRound :=
  let keeps := has_value (sr_reports round !! wr_witnessAddress report) && negb (bool_decide (wr_result report = WL_REACHABLE)) in
  {| sr_target := sr_target round; sr_probeRound := sr_probeRound round; sr_witnesses := sr_witnesses round;
     sr_startedAt := sr_startedAt round; sr_deadline := sr_deadline round;
     sr_reports := if keeps then sr_reports round
                   else <[wr_witnessAddress report := {| rp_result := wr_result report; rp_reportedAt := now |}]> (sr_reports round) |}.

Definition ApplyWorkerLivenessReport (report : WorkerLivenessReport) : ctl unit :=
  let address := mi_address (wr_target report) in
  found ↞ self (fun self => suspectRoundsByTarget_ self !! address);
  if negb (bool_decide (wr_probeEpoch report = probeEpoch options_)) then done tt
  else match found with
  | None => done tt
  | Some round =>
      now ↞ policy_now;
      if accepts_report round report now
      then update (fun self => self{{suspectRoundsByTarget_ ::= <[address := add_report report now round]>}})
      else done tt
  end.

(** A confirmed failure waits for its witnesses, and falls when one of them reaches the member. *)
Definition blocked (rounds : gmap string SuspectProbeRound) (now : Z) (target : MemberIdentity) : bool :=
  match rounds !! mi_address target with
  | None => false
  | Some round =>
      if negb (bool_decide (sr_target round = target)) then false
      else
        let reachable := HasReachableWitness round in
        let allWitnessesReported := negb (bool_decide (sr_witnesses round = ∅)) &&
                                    (base.size (sr_witnesses round) <=? base.size (sr_reports round))%nat in
        let waiting := (now <? sr_deadline round) && negb allWitnessesReported in
        waiting || reachable
  end.

Definition ApplyWitnessFailureGate (classification : FailureClassification) : ctl FailureClassification :=
  now ↞ policy_now;
  rounds ↞ self suspectRoundsByTarget_;
  done (set_confirmed (List.filter (fun target => negb (blocked rounds now target)) (fc_confirmedFailure classification)) classification).

(** *** Summaries of other workers, confirmed by direct probes *)

Definition ResetActiveFailureProbeAuthorityState : ctl unit :=
  update (fun self => self{{activeFailureProbeStates_ := ∅; activeFailureProbeCursor_ := 0%nat;
    activeFailureProbeCandidateSweep_ := nil; activeFailureProbeSweepInProgress_ := false}}).

Definition ResolveActiveFailureControlEpoch : ctl (option Z) :=
  match collectiveControlEpoch options_ with
  | None => done None
  | Some callback =>
      answer ↞ host callback;
      match answer with
      | None => fail K_RUNTIME_ERROR
      | Some None => _ ↞ ResetActiveFailureProbeAuthorityState; done None
      | Some (Some controlEpoch) => done (Some controlEpoch)
      end
  end.

(** [try_emplace], replaced when the member or the authority changed. *)
Definition enter_probe (controlEpoch : option Z) (now : Z) (states : gmap string ActiveFailureProbeState) (target : MemberIdentity)
    : gmap string ActiveFailureProbeState :=
  let initial := {| ap_target := target; ap_controlEpoch := controlEpoch; ap_notBefore := now; ap_consecutiveUnreachable := 0 |} in
  match states !! mi_address target with
  | Some state => if bool_decide (ap_target state = target) && bool_decide (ap_controlEpoch state = controlEpoch)
                  then states else <[mi_address target := initial]> states
  | None => <[mi_address target := initial]> states
  end.

(** Visit targets until the round is full: states, due targets, number inspected. *)
Definition due_step (now : Z) (st : gmap string ActiveFailureProbeState * list MemberIdentity * nat) (target : MemberIdentity)
    : gmap string ActiveFailureProbeState * list MemberIdentity * nat :=
  let '(states, due, inspected) := st in
  if (MAX_ACTIVE_FAILURE_PROBES_PER_ROUND <=? length due)%nat then st
  else match states !! mi_address target with
  | None => (states, due, S inspected)
  | Some state =>
      if now <? ap_notBefore state then (states, due, S inspected)
      else (<[mi_address target := {| ap_target := ap_target state; ap_controlEpoch := ap_controlEpoch state;
               ap_notBefore := now + ACTIVE_FAILURE_DIRECT_PROBE_INTERVAL;
               ap_consecutiveUnreachable := ap_consecutiveUnreachable state |}]> states, due ++ [target], S inspected)
  end.

(** The targets to probe now and the epoch of the authority. *)
Definition PrepareActiveFailureProbeRound (targets : list MemberIdentity) : ctl (list MemberIdentity * option Z) :=
  now ↞ policy_now;
  controlEpoch ↞ ResolveActiveFailureControlEpoch;
  if has_value (collectiveControlEpoch options_) && negb (has_value controlEpoch) then done ([], controlEpoch)
  else
    let orderedTargets := sort_on mi_address targets in
    _ ↞ update (fun self => self{{activeFailureProbeStates_ ::= fun states => foldl (enter_probe controlEpoch now) states orderedTargets}});
    if is_empty orderedTargets then
      _ ↞ update (fun self => self{{activeFailureProbeCandidateSweep_ := nil; activeFailureProbeSweepInProgress_ := false}});
      done ([], controlEpoch)
    else
      let total := length orderedTargets in
      startIndex ↞ self (fun self => activeFailureProbeCursor_ self mod total)%nat;
      states ↞ self activeFailureProbeStates_;
      let '(states, dueTargets, inspected) :=
        foldl (due_step now) (states, [], 0%nat) (drop startIndex orderedTargets ++ take startIndex orderedTargets) in
      _ ↞ update (fun self => self{{activeFailureProbeStates_ := states;
            activeFailureProbeCursor_ := ((startIndex + inspected) mod total)%nat;
            activeFailureProbeSweepInProgress_ := (inspected <? total)%nat;
            activeFailureProbeCandidateSweep_ ::= fun sweep => if (inspected <? total)%nat then sweep else nil}});
      done (dueTargets, controlEpoch).

(** [resultsByAddress[address] = &result]: the last result of an address stays. *)
Definition probe_outcome (results : list ControlBackendProbeResult) (target : MemberIdentity) : ControlBackendProbeOutcome :=
  match last (List.filter (fun r => bool_decide (mi_address (pr_target r) = mi_address target)) results) with
  | Some result => if bool_decide (pr_target result = target) then pr_outcome result else PO_CANCELLED
  | None => PO_CANCELLED
  end.

Definition set_unreachable (n : Z) (state : ActiveFailureProbeState) : ActiveFailureProbeState :=
  {| ap_target := ap_target state; ap_controlEpoch := ap_controlEpoch state; ap_notBefore := ap_notBefore state;
     ap_consecutiveUnreachable := n |}.

Definition result_step (results : list ControlBackendProbeResult)
    (st : gmap string ActiveFailureProbeState * list MemberIdentity * option Z) (target : MemberIdentity)
    : gmap string ActiveFailureProbeState * list MemberIdentity * option Z :=
  let '(states, confirmed, controlEpoch) := st in
  match states !! mi_address target with
  | None => st
  | Some state =>
      let n := if unreachable_outcome (probe_outcome results target) then u32 (ap_consecutiveUnreachable state + 1) else 0 in
      let states := <[mi_address target := set_unreachable n state]> states in
      if MIN_ACTIVE_FAILURE_UNREACHABLE_PROBES <=? n then (states, confirmed ++ [target], ap_controlEpoch state)
      else (states, confirmed, controlEpoch)
  end.

Definition ApplyActiveFailureProbeResults (dueTargets : list MemberIdentity) (results : list ControlBackendProbeResult)
    (controlEpoch : option Z) : ctl (list MemberIdentity * option Z) :=
  states ↞ self activeFailureProbeStates_;
  let '(states, confirmed, controlEpoch) := foldl (result_step results) (states, [], controlEpoch) dueTargets in
  _ ↞ update (fun self => self{{activeFailureProbeStates_ := states}});
  done (confirmed, controlEpoch).

Definition ProbeActiveFailureCandidates (targets : list MemberIdentity) : ctl (list MemberIdentity * option Z) :=
  '(dueTargets, controlEpoch) ↞ PrepareActiveFailureProbeRound targets;
  if is_empty dueTargets then done ([], controlEpoch)
  else match memberLivenessProbe options_ with
  | None =>
      _ ↞ update (fun self => self{{activeFailureProbeStates_ ::= fun states =>
            foldl (fun states target => alter (set_unreachable 0) (mi_address target) states) states dueTargets}});
      done ([], controlEpoch)
  | Some probe =>
      results ↞ host (fun n => probe n dueTargets);
      match results with
      | None => fail K_RUNTIME_ERROR
      | Some results => ApplyActiveFailureProbeResults dueTargets results controlEpoch
      end
  end.

(** *** Direct probe of the missing predecessor *)

Definition ConfirmMissingMembersUnreachable (latest : TopologySnapshot) (classification : FailureClassification)
    : ctl FailureClassification :=
  match memberLivenessProbe options_ with
  | None => done classification
  | Some probe =>
      if bool_decide (eventSourceMode options_ = EXTERNAL) || is_empty (fc_confirmedMissing classification) then done classification
      else
        let targets := match FailureProbeTargetOwnedBy latest (localAddress options_) with
          | None => []
          | Some ownedMember =>
              match List.find (fun o => bool_decide (mi_address (mo_identity o) = m_address ownedMember))
                      (fc_confirmedMissing classification) with
              | Some observed => [mo_identity observed]
              | None => []
              end
          end in
        probeResults ↞ (if is_empty targets then done (Some []) else host (fun n => probe n targets));
        match probeResults with
        | None => fail K_RUNTIME_ERROR
        | Some probeResults =>
            let responded target :=
              match List.find (fun r => bool_decide (mi_address (pr_target r) = mi_address target)) probeResults with
              | Some result => match pr_reporter result with
                               | Some reporter => bool_decide (mi_address reporter = mi_address target)
                               | None => false
                               end
              | None => false
              end in
            let directlyUnreachable := List.filter (fun target => negb (responded target)) targets in
            _ ↞ for_each (fun target => change_classifier (ResetMissing (mi_address target))) (List.filter responded targets);
            directlyUnreachable ↞ (
              if is_empty directlyUnreachable then done []
              else
                rc ↞ status_of (store (ReadMemberships keys_));
                match rc with
                | Err code => now ↞ policy_now; _ ↞ change_classifier (Pause now); fail code
                | Ok (exactMemberships, _) =>
                    let returned target := bool_decide (mi_address target ∈ mr_address <$> exactMemberships) in
                    _ ↞ for_each (fun target => change_classifier (ResetMissing (mi_address target)))
                          (List.filter returned directlyUnreachable);
                    done (List.filter (fun target => negb (returned target)) directlyUnreachable)
                end);
            done (set_confirmed (List.filter (fun identity =>
                bool_decide (mi_address identity ∈ addresses_of directlyUnreachable) ||
                match FindMemberByAddress (mi_address identity) latest with
                | Ok member => bool_decide (m_state member = FAILED)
                | Err _ => false
                end) (fc_confirmedFailure classification)) classification)
        end
  end.

(** *** Replacement of a topology without present members *)

Definition ResetCollectiveProbeProgress : ctl unit :=
  update (fun self => self{{collectiveProbeTopologyVersion_ := None; collectiveProbeOwner_ := None;
    collectiveProbeControlEpoch_ := None; collectiveUnreachableSamples_ := ∅}}).

Definition summary_step (quarantined : gmap string Z) (st : nat * option string) (record : MembershipRecord) : nat * option string :=
  let '(readyCount, owner) := st in
  if negb (bool_decide (mr_state record = LC_READY)) then st
  else if match quarantined !! mr_address record with Some t => mr_timestamp record <=? t | None => false end then st
  else (S readyCount, match owner with
                      | Some o => if ltk (mr_address record) o then Some (mr_address record) else owner
                      | None => Some (mr_address record)
                      end).

Definition SummarizeCollectiveReadyMemberships (memberships : list MembershipRecord) : ctl (nat * option string) :=
  quarantined ↞ self quarantinedReadyTimestampByAddress_;
  let '(readyCount, owner) := foldl (summary_step quarantined) (0%nat, None) memberships in
  done (readyCount, if (0 <? readyCount)%nat && bool_decide (eventSourceMode options_ = EXTERNAL)
                    then Some COORDINATOR_COLLECTIVE_PROBE_OWNER else owner).

(** Probe the first sample not known to be unreachable. *)
Definition ProbeCollectiveSample (probe : nat -> list MemberIdentity -> option (list ControlBackendProbeResult))
    (samples : list MemberIdentity) : ctl unit :=
  unreachable ↞ self collectiveUnreachableSamples_;
  match List.find (fun sample => bool_decide (mi_address sample ∉ unreachable)) samples with
  | None => done tt
  | Some target =>
      results ↞ host (fun n => probe n [target]);
      match results with
      | None => fail K_RUNTIME_ERROR
      | Some [result] =>
          if negb (bool_decide (pr_target result = target)) then done tt
          else match pr_outcome result with
          | PO_RESPONSE | PO_ERROR =>
              _ ↞ change_classifier (ResetMissing (mi_address target)); ResetCollectiveProbeProgress
          | PO_DEADLINE_EXCEEDED | PO_UNAVAILABLE =>
              update (fun self => self{{collectiveUnreachableSamples_ ::= fun samples => {[mi_address target]} ∪ samples}})
          | PO_CANCELLED => done tt
          end
      | Some _ => done tt
      end
  end.

(** A fence of the host around a mutation; [None] is an exception. *)
Definition run_fence (decision : option FenceDecision) (mutation : Z -> ctl unit) : ctl unit :=
  match decision with
  | None => fail K_RUNTIME_ERROR
  | Some (FenceRefuses code) => fail code
  | Some (FenceRuns revision report) => rc ↞ status_of (mutation revision); pure (report rc)
  end.

Definition fenced_replacement (commit : ctl unit) : ctl unit :=
  match collectiveReplacementFence options_ with
  | None => commit
  | Some fence =>
      controlEpoch ↞ self collectiveProbeControlEpoch_;
      match controlEpoch with
      | None => fail K_NOT_READY
      | Some controlEpoch => decision ↞ host (fun n => fence n controlEpoch); run_fence decision (fun _ => commit)
      end
  end.

(** The topology of the ready members alone. *)
Definition replacement_topology (latest : TopologySnapshot) (ready : list MembershipRecord) : res TopologyState :=
  let state := state_ latest in
  let empty := set_version_batch (ts_version state) None (set_members [] state) in
  '(empty, admitted, _) ← ApplyReadyMembershipFacts (maxMembersPerBatch options_) empty ready ∅ 0;
  BuildBootstrap empty admitted.

Definition BootstrapCollectiveReplacement (latest : TopologySnapshot) : ctl unit :=
  rc ↞ status_of (store (ReadMemberships keys_));
  match rc with
  | Err code => now ↞ policy_now; _ ↞ change_classifier (Pause now); fail code
  | Ok (exactMemberships, _) =>
      '(exactReadyCount, exactOwner) ↞ SummarizeCollectiveReadyMemberships exactMemberships;
      let oldMembers := List.filter (names_committed latest) exactMemberships in
      _ ↞ for_each (fun membership => change_classifier (ResetMissing (mr_address membership))) oldMembers;
      owner ↞ self collectiveProbeOwner_;
      if negb (is_empty oldMembers) || (exactReadyCount =? 0)%nat || negb (bool_decide (exactOwner = owner))
      then ResetCollectiveProbeProgress
      else
        '(_, ready) ↞ CollectMembershipFacts exactMemberships;
        next ↞ pure (replacement_topology latest ready);
        rc ↞ status_of (fenced_replacement (_ ↞ CommitAndReadBack keys_ options_ (Version latest) next 0; done tt));
        _ ↞ (if match rc with Ok _ => true | Err code => bool_decide (code = K_TRY_AGAIN) end
             then ResetCollectiveProbeProgress else done tt);
        pure rc
  end.

(** The number of ready members, the owner of the probe, and whether this controller has authority. *)
Definition PrepareCollectiveProbeContext (latest : TopologySnapshot) (memberships : list MembershipRecord)
    : ctl (nat * option string * bool) :=
  '(readyCount, owner) ↞ SummarizeCollectiveReadyMemberships memberships;
  controlEpoch ↞ (match collectiveControlEpoch options_ with
    | None => done (Some None)
    | Some callback =>
        answer ↞ host callback;
        match answer with
        | None => _ ↞ ResetCollectiveProbeProgress; fail K_RUNTIME_ERROR
        | Some None => _ ↞ ResetCollectiveProbeProgress; done None
        | Some (Some epoch) => done (Some (Some epoch))
        end
    end);
  match controlEpoch with
  | None => done (readyCount, owner, false)
  | Some controlEpoch =>
      changed ↞ self (fun self => negb (bool_decide (collectiveProbeTopologyVersion_ self = Some (Version latest))) ||
                                  negb (bool_decide (collectiveProbeOwner_ self = owner)) ||
                                  (has_value (collectiveControlEpoch options_) &&
                                   negb (bool_decide (collectiveProbeControlEpoch_ self = controlEpoch))));
      _ ↞ (if (changed : bool) then
             update (fun self => self{{collectiveUnreachableSamples_ := ∅; collectiveProbeTopologyVersion_ := Some (Version latest);
               collectiveProbeOwner_ := owner; collectiveProbeControlEpoch_ := controlEpoch}})
           else done tt);
      done (readyCount, owner, true)
  end.

Definition HandleCollectiveMembershipAbsence (latest : TopologySnapshot) (memberships : list MembershipRecord)
    (samples : list MemberIdentity) (confirmedMissing : list MemberAbsenceObservation) : ctl unit :=
  '(readyCount, owner, hasControlAuthority) ↞ PrepareCollectiveProbeContext latest memberships;
  if negb hasControlAuthority || (readyCount =? 0)%nat then done tt
  else
    let allTimedOut := forallb (fun sample =>
      existsb (fun missing => bool_decide (mi_address (mo_identity missing) = mi_address sample)) confirmedMissing) samples in
    let ownsProbe := bool_decide (eventSourceMode options_ = EXTERNAL) || bool_decide (owner = Some (localAddress options_)) in
    match memberLivenessProbe options_ with
    | None => done tt
    | Some probe =>
        if negb allTimedOut || negb ownsProbe then done tt
        else
          _ ↞ ProbeCollectiveSample probe samples;
          unreachable ↞ self collectiveUnreachableSamples_;
          if (base.size unreachable =? length samples)%nat then BootstrapCollectiveReplacement latest else done tt
    end.

(** *** The decision *)

(** A candidate of the summaries worth probing. *)
Definition probe_candidate (latest : TopologySnapshot) (removeJoining : list MemberIdentity) (identity : MemberIdentity) : bool :=
  match FindMemberByAddress (mi_address identity) latest with
  | Err _ => false
  | Ok member =>
      bool_decide (m_state member = ACTIVE) ||
      (bool_decide (m_state member = JOINING) &&
       match ts_activeBatch (state_ latest) with Some b => bool_decide (ab_type b = SCALE_OUT) | None => false end &&
       bool_decide (mi_address identity ∉ addresses_of removeJoining))
  end.

Definition found_in_state (latest : TopologySnapshot) (s : MemberState) (identity : MemberIdentity) : bool :=
  match FindMemberByAddress (mi_address identity) latest with Ok member => bool_decide (m_state member = s) | Err _ => false end.

(** Add the members whose probes failed to the classification. *)
Definition confirm_step (latest : TopologySnapshot) (st : FailureClassification * list MemberIdentity) (identity : MemberIdentity)
    : FailureClassification * list MemberIdentity :=
  let '(classification, fenced) := st in
  match FindMemberByAddress (mi_address identity) latest with
  | Err _ => st
  | Ok member =>
      (if decide (m_state member = JOINING) then add_joining identity classification
       else if decide (m_state member = ACTIVE)
       then set_confirmed (fc_confirmedFailure classification ++ [identity]) classification
       else classification, fenced ++ [identity])
  end.

(** The classification with the failures of the summaries, those failures, and the epoch they were confirmed in. *)
Definition summary_failures (latest : TopologySnapshot) (memberships : list MembershipRecord) (classification : FailureClassification)
    : ctl (FailureClassification * list MemberIdentity * option Z) :=
  match failureSummaryCandidateProvider options_ with
  | None => done (classification, [], None)
  | Some provider =>
      sweeping ↞ self activeFailureProbeSweepInProgress_;
      candidates ↞ (if (sweeping : bool) then self activeFailureProbeCandidateSweep_
                    else
                      _ ↞ policy_now;
                      candidates ↞ host (fun n => provider n latest memberships);
                      _ ↞ update (fun self => self{{activeFailureProbeCandidateSweep_ := candidates}});
                      done candidates);
      let probeCandidates := List.filter (probe_candidate latest (fc_removeJoining classification)) candidates in
      let activeCandidateCount := length (List.filter (found_in_state latest ACTIVE) probeCandidates) in
      let ambiguousTwoWorkerCandidates :=
        (length (activeMembers_ latest) =? TWO_WORKER_CLUSTER_SIZE)%nat && negb (activeCandidateCount =? 1)%nat in
      let candidatesToProbe := List.filter (fun identity =>
        (found_in_state latest ACTIVE identity && negb ambiguousTwoWorkerCandidates &&
         bool_decide (mi_address identity ∉ addresses_of (fc_confirmedFailure classification))) ||
        (found_in_state latest JOINING identity && bool_decide (mi_address identity ∉ addresses_of (fc_removeJoining classification))))
        probeCandidates in
      '(probeConfirmed, controlEpoch) ↞ ProbeActiveFailureCandidates candidatesToProbe;
      let '(classification, fenced) := foldl (confirm_step latest) (classification, []) probeConfirmed in
      _ ↞ update (fun self => self{{activeFailureProbeStates_ ::=
            filter (fun entry => entry.1 ∈ addresses_of probeCandidates)}});
      done (classification, fenced, controlEpoch)
  end.

Definition fenced_commit (latest : TopologySnapshot) (memberships : list MembershipRecord) (controlEpoch : option Z)
    (fenced : list MemberIdentity) (commit : Z -> ctl unit) : ctl unit :=
  if is_empty fenced then commit 0
  else
    _ ↞ policy_now;
    decision ↞ host (fun n => activeFailureCommitFence options_ n latest memberships controlEpoch fenced);
    run_fence decision commit.

(** [None] when a member of the samples is unknown, which the snapshot excludes. *)
Definition missing_samples (latest : TopologySnapshot) (samples : list MemberIdentity) : res (list MemberAbsenceSample) :=
  foldM (fun missing sample =>
    member ← FindMemberByAddress (mi_address sample) latest;
    Ok (missing ++ [{| ms_identity := sample; ms_state := m_state member |}])) [] samples.

Definition observe {A} (f : TopologyFailureClassifier -> TopologyFailureClassifier * res A) : ctl A := fun self =>
  let '(classifier, r) := f (failureClassifier_ self) in Ret (self{{failureClassifier_ := classifier}}, r).

(** The commit that the evidence calls for. *)
Definition commit_classified (latest : TopologySnapshot) (memberships : list MembershipRecord) (classification : FailureClassification)
    (fenced : list MemberIdentity) (controlEpoch : option Z) : ctl unit :=
  if negb (is_empty (fc_confirmedFailure classification)) then
    fenced_commit latest memberships controlEpoch fenced (CommitConfirmedFailures keys_ options_ latest classification)
  else if negb (is_empty (fc_removeInitial classification)) || negb (is_empty (fc_removeJoining classification)) then
    fenced_commit latest memberships controlEpoch fenced (CommitUncommittedCleanup keys_ options_ latest classification)
  else CommitMembershipFacts keys_ options_ latest memberships.

Definition TryConfirmFailures (latest : TopologySnapshot) (memberships : list MembershipRecord) : ctl unit :=
  let external := bool_decide (eventSourceMode options_ = EXTERNAL) in
  _ ↞ ObserveMembershipRestarts memberships;
  if AllMembersExiting latest memberships then
    blocked ↞ (if (external && ts_clusterHasInit (state_ latest))%bool then
                 '(_, joining) ↞ CollectNextBatchCandidates options_ latest memberships false;
                 done (negb (is_empty joining))
               else done false);
    if (blocked : bool) then done tt else CommitClusterShutdown keys_ options_ latest
  else if IsCollectiveCommittedMembershipMissing latest memberships then
    let samples := SelectCollectiveProbeSamples latest in
    missingSamples ↞ pure (missing_samples latest samples);
    now ↞ policy_now;
    confirmedMissing ↞ observe (ObserveMissingSamples missingSamples now);
    HandleCollectiveMembershipAbsence latest memberships samples confirmedMissing
  else
    now ↞ policy_now;
    classification ↞ observe (Observe latest memberships now);
    _ ↞ ResetCollectiveProbeProgress;
    _ ↞ (if (external : bool) then RefreshWitnessProbes latest memberships classification else done tt);
    classification ↞ ConfirmMissingMembersUnreachable latest classification;
    classification ↞ (if (external : bool) then ApplyWitnessFailureGate classification else done classification);
    '(classification, fenced, controlEpoch) ↞ summary_failures latest memberships classification;
    commit_classified latest memberships classification fenced controlEpoch.
End failure.
