(* ===== verification/TopologyController.v ===== *)
(** * The reconciliation tick of the topology controller

    src/datasystem/cluster/control/topology_controller.cpp: one tick reads the
    topology and the memberships, confirms failures or admits members, and if
    nothing was committed materializes the derived state, finishes the running
    batch and starts the next one.  In the mode [EXTERNAL_ETCD] the facts come
    from watch events and are rebuilt from exact reads when a gap is seen. *)

From coqutil Require Import Datatypes.RecordSetters.
From S2P Require Import Prelude Ordered TopologyTypes HashRing BalancedRing TokenPlacement HostPort KeyHelper Hasher.
From S2P Require Import RingTheory HashAlgorithm OwnerSpec PlanningInterface HashPlans Snapshot RepositoryCodec.
From S2P Require Import MembershipTypes MembershipCodec PlanBuilder EndpointView.
From S2P Require Import MemoryKvStore TtlManager WatchRegistry WatchDispatcher CoordinatorStore StoreProgram BackendInterface.
From S2P Require Import TopologyRepository TopologyReader TaskMaterializer FailureClassifier SnapshotState.
From S2P Require Import ControllerTypes ControllerBatch ControllerFailure.

Definition MAX_EXTERNAL_BOOTSTRAP_ATTEMPTS : nat := 8.
Definition MAX_DOORBELLS_PER_RECONCILE : nat := 1024.
Definition MAX_RECONCILE_BACKOFF_SHIFT : Z := 5.
Definition BACKOFF_SHIFT_BASE : Z := 1.

(** A runtime event is a liveness report or a coordination event. *)
Inductive RuntimeEvent := LivenessEvent (report : WorkerLivenessReport) | WatchedEvent (event : CoordinationEvent) | OtherEvent.

Section tick.
Context `{RE2, SHA256, IPlanningAlgorithm, StringHash}.
Context `{Protobuf ClusterTopologyPb, Protobuf MigrateTaskPb, Protobuf DeleteNodeTaskPb, Protobuf TaskNotifyPb}.
Context `{Protobuf WorkerServiceInfoPb, Protobuf WorkerProbeEventValuePb, MapIteration, CoordinationBackend}.
Context (keys_ : TopologyKeyHelper) (options_ : TopologyControllerOptions).

Abbreviation policy_now := (policy_now options_).
Abbreviation etcd_mode := (bool_decide (eventSourceMode options_ = EXTERNAL_ETCD)).

(** ** Facts fed by events *)

Definition record_of (address : string) (value : MembershipValue) : MembershipRecord :=
  {| mr_address := address; mr_state := mv_lifecycleState value; mr_timestamp := mv_timestamp value; mr_hostId := mv_hostId value |}.

(** [std::map::emplace]: the first record of an address stays. *)
Definition fact_map (memberships : list MembershipRecord) : list (string * MembershipRecord) :=
  foldl (fun facts record => match om_find (mr_address record) facts with
                             | Some _ => facts
                             | None => om_insert (mr_address record) record facts
                             end) [] memberships.

Definition resync_facts (topology : TopologySnapshot) (memberships : list MembershipRecord) (membershipRevision : Z) : ctl unit :=
  _ ↞ PublishExternalTopology topology true;
  update (fun self => self{{externalMemberships_ := fact_map memberships; membershipEventRevisionByAddress_ := ∅;
    membershipRevisionFloor_ := membershipRevision; topologyEventRevision_ := authorityRevision_ topology;
    externalResyncRequired_ := false}}).

Fixpoint resync_loop (attempts : nat) : ctl unit :=
  match attempts with
  | O => fail K_TRY_AGAIN
  | S attempts =>
      '(memberships, membershipRevision) ↞ store (ReadMemberships keys_);
      _ ↞ pure (check (0 <? membershipRevision) K_INVALID);
      floor ↞ self membershipRevisionFloor_;
      _ ↞ pure (check (negb ((0 <? floor) && (membershipRevision <? floor))) K_INVALID);
      rc ↞ status_of (store (ReadTopologyOnly keys_ CONTROLLER_READ_TIMEOUT_MS));
      match rc with
      | Err K_NOT_FOUND =>
          _ ↞ pure (check (floor =? 0) K_INVALID);
          _ ↞ EnsureTopologyAuthority keys_;
          resync_loop attempts
      | Err code => fail code
      | Ok topology =>
          if membershipRevision <? authorityRevision_ topology then resync_loop attempts
          else resync_facts topology memberships membershipRevision
      end
  end.

Definition ResyncExternalFacts : ctl unit := resync_loop MAX_EXTERNAL_BOOTSTRAP_ATTEMPTS.

Definition apply_topology_event (event : CoordinationEvent) : ctl unit :=
  _ ↞ pure (check (bool_decide (ce_type event = EV_PUT) && negb (bool_decide (ce_value event = EmptyString)) &&
                   (0 <? ce_revision event) && (0 <? ce_version event)) K_NOT_READY);
  applied ↞ self topologyEventRevision_;
  if ce_revision event <=? applied then done tt
  else
    candidate ↞ pure (BuildFromEncodedTopology (ce_value event) (ce_revision event) ∅ false EmptyString);
    _ ↞ PublishExternalTopology candidate false;
    update (fun self => self{{topologyEventRevision_ := ce_revision event}}).

Definition apply_membership_event (event : CoordinationEvent) : ctl unit :=
  prefix ↞ self membershipEventPrefix_;
  _ ↞ pure (check (String.prefix prefix (ce_key event)) K_INVALID);
  let address := substr_from (String.length prefix) (ce_key event) in
  canonicalAddress ↞ pure (MembershipKey address);
  _ ↞ pure (check (bool_decide (canonicalAddress = address)) K_INVALID);
  _ ↞ pure (check (0 <? ce_revision event) K_NOT_READY);
  appliedRevision ↞ self (fun self => default (membershipRevisionFloor_ self) (membershipEventRevisionByAddress_ self !! address));
  if ce_revision event <=? appliedRevision then done tt
  else
    _ ↞ pure (check (bool_decide (ce_type event = EV_PUT) && (0 <? ce_version event)) K_NOT_READY);
    value ↞ pure (Decode (ce_value event));
    update (fun self => self{{externalMemberships_ ::= om_insert address (record_of address value);
      membershipEventRevisionByAddress_ ::= <[address := ce_revision event]>; membershipDirty_ := true}}).

Definition ApplyExternalEvent (event : CoordinationEvent) : ctl unit :=
  if bool_decide (ce_type event = EV_RESET) then fail K_NOT_READY
  else match ClassifyPhysicalKey (ce_key event) EmptyString keys_ with
  | KIND_TOPOLOGY => apply_topology_event event
  | KIND_MEMBERSHIP => apply_membership_event event
  | KIND_MIGRATE_TASK | KIND_DELETE_TASK => done tt
  | _ => fail K_INVALID
  end.

(** Called on the thread that delivers the event, before it is queued. *)
Definition ObserveMembershipRestart (event : CoordinationEvent) : ctl unit :=
  if negb (bool_decide (ce_type event = EV_PUT)) || negb (has_value (membershipRestartHandler options_)) then done tt
  else
    prefix ↞ self membershipEventPrefix_;
    if negb (String.prefix prefix (ce_key event)) then done tt
    else
      let address := substr_from (String.length prefix) (ce_key event) in
      canonicalKey ↞ pure (MembershipKey address);
      _ ↞ pure (check (bool_decide (canonicalKey = address)) K_INVALID);
      value ↞ pure (Decode (ce_value event));
      if negb (bool_decide (mv_lifecycleState value = LC_RESTARTING)) then done tt
      else
        _ ↞ pure (check (0 <? mv_timestamp value) K_INVALID);
        RecordMembershipRestart address (mv_timestamp value).

Definition ConsumeRuntimeEvent (event : RuntimeEvent) : ctl unit :=
  match event with
  | LivenessEvent report => ApplyWorkerLivenessReport options_ report
  | _ =>
      if negb etcd_mode then update (fun self => self{{membershipDirty_ := true}})
      else
        _ ↞ update (fun self => self{{externalEventSourceReady_ := true}});
        rc ↞ status_of (match event with WatchedEvent event => ApplyExternalEvent event | _ => fail K_INVALID end);
        match rc with
        | Ok _ => done tt
        | Err _ =>
            now ↞ policy_now;
            update (fun self => self{{externalResyncRequired_ := true; failureClassifier_ ::= Pause now}})
        end
  end.

(** ** The tick *)

(** A failed read pauses the failure timers. *)
Definition or_pause {A} (m : ctl A) : ctl A :=
  rc ↞ status_of m;
  match rc with
  | Ok a => done a
  | Err code => now ↞ policy_now; _ ↞ change_classifier (Pause now); fail code
  end.

Definition read_topology : ctl TopologySnapshot :=
  rc ↞ status_of (store (ReadTopologyOnly keys_ CONTROLLER_READ_TIMEOUT_MS));
  match rc with
  | Err K_NOT_FOUND => _ ↞ EnsureTopologyAuthority keys_; store (ReadTopologyOnly keys_ CONTROLLER_READ_TIMEOUT_MS)
  | _ => pure rc
  end.

(** The topology and the memberships the tick works on. *)
Definition read_facts : ctl (TopologySnapshot * list MembershipRecord) :=
  if etcd_mode then
    resync ↞ self externalResyncRequired_;
    _ ↞ (if (resync : bool) then or_pause ResyncExternalFacts else done tt);
    current ↞ self (fun self => current_ (externalTopology_ self));
    latest ↞ or_pause (match current with Some latest => done latest | None => fail K_NOT_READY end);
    memberships ↞ self (fun self => snd <$> externalMemberships_ self);
    done (latest, memberships)
  else
    latest ↞ or_pause read_topology;
    '(memberships, _) ↞ or_pause (store (ReadMemberships keys_));
    done (latest, memberships).

Definition RestoreReadyAfterLocalRecovery (latest : TopologySnapshot) (memberships : list MembershipRecord) : ctl unit :=
  match localMembershipRecoveryHandler options_ with
  | None => done tt
  | Some handler =>
      let recovering := match List.find (fun record => bool_decide (mr_address record = localAddress options_)) memberships with
                        | Some record => bool_decide (mr_state record = LC_RECOVERING)
                        | None => false
                        end in
      if negb etcd_mode || bool_decide (localAddress options_ = EmptyString) || negb recovering ||
         negb (match FindMemberByAddress (localAddress options_) latest with
               | Ok local => bool_decide (m_state local = ACTIVE)
               | Err _ => false
               end)
      then done tt
      else
        rc ↞ host handler;
        match rc with
        | Err K_NOT_READY => done tt
        | Err code => fail code
        | Ok _ => _ ↞ update (fun self => self{{externalResyncRequired_ := true}}); fail K_NOT_READY
        end
  end.

Definition RecoverFromLatestTopology : ctl unit :=
  _ ↞ update (fun self => self{{topologyCommittedThisTick_ := false}});
  '(latest, memberships) ↞ read_facts;
  _ ↞ update (fun self => self{{activeBatchObserved_ := has_value (ts_activeBatch (state_ latest))}});
  _ ↞ RestoreReadyAfterLocalRecovery latest memberships;
  _ ↞ TryConfirmFailures keys_ options_ latest memberships;
  committed ↞ self topologyCommittedThisTick_;
  if (committed : bool) then done tt
  else
    _ ↞ ReconcileDerivedState keys_ options_ latest memberships;
    _ ↞ TryFinalizeActiveBatch keys_ options_ latest memberships;
    committed ↞ self topologyCommittedThisTick_;
    if (committed : bool) then done tt
    else TryStartNextBatch keys_ options_ latest memberships.

(** [resyncRequired] is what the event queue reports. *)
Definition ReconcileOnce (resyncRequired : bool) : ctl unit :=
  _ ↞ (if resyncRequired && etcd_mode then update (fun self => self{{externalResyncRequired_ := true}}) else done tt);
  rc ↞ status_of RecoverFromLatestTopology;
  _ ↞ (match rc with Ok _ => update (fun self => self{{membershipDirty_ := false}}) | Err _ => done tt end);
  pure rc.

(** The delay before the next tick after [failures] consecutive errors. *)
Definition reconcile_backoff (failures : Z) : Z :=
  reconcileTick options_ * Z.shiftl BACKOFF_SHIFT_BASE (Z.min failures MAX_RECONCILE_BACKOFF_SHIFT) * NS_PER_MS.

Definition RecordReconcileResult (status : res unit) (now : Z) (self : TopologyController) : TopologyController :=
  let self := match status with
              | Ok _ => self
              | Err _ => self{{derivedWorkPending_ := false; progressWorkPending_ := false;
                               activeFailureProbeCandidateSweep_ := nil; activeFailureProbeSweepInProgress_ := false}}
              end in
  let rested := self{{consecutiveReconcileFailures_ := 0; reconcileNotBefore_ := None}} in
  let backed_off := self{{reconcileNotBefore_ := Some (now + reconcile_backoff (consecutiveReconcileFailures_ self));
                          consecutiveReconcileFailures_ ::= fun n => u32 (n + 1)}} in
  match status with
  | Ok _ => rested
  | Err K_TRY_AGAIN => if etcd_mode && externalResyncRequired_ self then backed_off else rested
  | Err K_NOT_READY => rested
  | Err _ => backed_off
  end.

(** ** The loop *)

(** [popped] is what the event queue delivers before the deadline of the wait, the number drained is returned. *)
Definition WaitForReconcile (popped : res (list RuntimeEvent)) : ctl nat :=
  events ↞ pure popped;
  _ ↞ DrainMembershipRestarts options_;
  let drained := take MAX_DOORBELLS_PER_RECONCILE events in
  _ ↞ for_each ConsumeRuntimeEvent drained;
  done (length drained).

(** One iteration; [continue] is [done tt]. *)
Definition Run_iteration (popped : res (list RuntimeEvent)) (resyncRequired : bool) : ctl unit :=
  rc ↞ status_of (WaitForReconcile popped);
  match rc with
  | Err _ => done tt
  | Ok drained =>
      ready ↞ self externalEventSourceReady_;
      if etcd_mode && negb ready then done tt
      else
        _ ↞ (if (0 <? drained)%nat
             then update (fun self => self{{activeFailureProbeCandidateSweep_ := nil; activeFailureProbeSweepInProgress_ := false}})
             else done tt);
        now ↞ steady_now options_;
        notBefore ↞ self reconcileNotBefore_;
        if match notBefore with Some t => now <? t | None => false end then done tt
        else
          rc ↞ status_of (ReconcileOnce resyncRequired);
          update (RecordReconcileResult rc now)
  end.

(** The loop, for the events of each iteration, until it is stopped. *)
Definition Run (inputs : list (res (list RuntimeEvent) * bool)) : ctl unit :=
  for_each (fun input => Run_iteration input.1 input.2) inputs.
End tick.
