(* ===== verification/TopologySteps.v ===== *)
(** * The lifecycle of the topology

    The abstract state machine the topology controller is held to.  Between two
    consecutive versions of the topology every member either keeps its identity
    and its tokens and moves along its lifecycle, or is placed with tokens derived
    from its address, or is admitted without tokens; only members that own nothing
    any more, or never owned anything, disappear.  The exceptions are the shutdown
    of the cluster and its replacement, which keep none of the owners.  The
    operations of the plan builder, and the edits the controller composes them
    with, are steps of this machine. *)

From S2P Require Import Prelude Ordered TopologyTypes HashRing BalancedRing TokenPlacement HostPort KeyHelper Hasher.
From S2P Require Import RingTheory HashAlgorithm OwnerSpec PlanningInterface HashPlans Snapshot RepositoryCodec.
From S2P Require Import MembershipTypes PlanBuilder TopologySafety ControllerBatch.

(** ** The machine *)

(** A member that keeps its tokens. *)
Definition lifecycle_kept (s s' : MemberState) : bool :=
  match s, s' with
  | INITIAL, INITIAL
  | JOINING, JOINING | JOINING, ACTIVE | JOINING, FAILED
  | ACTIVE, ACTIVE | ACTIVE, PRE_LEAVING | ACTIVE, LEAVING | ACTIVE, FAILED
  | PRE_LEAVING, PRE_LEAVING | PRE_LEAVING, LEAVING | PRE_LEAVING, FAILED
  | LEAVING, LEAVING | LEAVING, FAILED
  | FAILED, FAILED => true
  | _, _ => false
  end.

Record kept (m m' : Member) : Prop := {
  kp_identity : m_identity m' = m_identity m;
  kp_tokens : m_tokens m' = m_tokens m;
  kp_overrides : m_tokenSeedOverrides m' = m_tokenSeedOverrides m;
  kp_state : lifecycle_kept (m_state m) (m_state m') = true
}.

(** A member that receives its tokens. *)
Record placed (st : TopologyState) (m' : Member) : Prop := {
  pl_state : m_state m' = JOINING \/ m_state m' = ACTIVE;
  pl_derived : token_derived m';
  pl_count : 0 < Z.of_nat (length (m_tokens m')) <= MAX_HASH_RING_TOKENS_PER_MEMBER;
  pl_before m : m ∈ ts_members st -> m_address m = m_address m' -> m_state m = INITIAL
}.

(** A member that waits for tokens. *)
Record admitted (st : TopologyState) (m' : Member) : Prop := {
  ad_initial : m' = new_initial (m_identity m');
  ad_new m : m ∈ ts_members st -> m_address m <> m_address m'
}.

Definition batch_is (type : TopologyChangeType) (st : TopologyState) : Prop :=
  ab_type <$> ts_activeBatch st = Some type.

(** The members that may disappear. *)
Definition may_leave (st : TopologyState) (m : Member) : Prop :=
  match m_state m with
  | INITIAL | JOINING | FAILED => True
  | LEAVING => batch_is SCALE_IN st
  | ACTIVE | PRE_LEAVING => False
  end.

Record evolves (st st' : TopologyState) : Prop := {
  ev_origin m' : m' ∈ ts_members st' -> (exists m, m ∈ ts_members st /\ kept m m') \/ placed st m' \/ admitted st m';
  ev_removed m : m ∈ ts_members st ->
    (exists m', m' ∈ ts_members st' /\ m_identity m' = m_identity m) \/ may_leave st m;
  ev_joining m' : m' ∈ ts_members st' -> m_state m' = JOINING ->
    (exists m, m ∈ ts_members st /\ m_identity m = m_identity m' /\ m_state m = JOINING) \/ batch_is SCALE_OUT st';
  ev_leaving m' : m' ∈ ts_members st' -> m_state m' = LEAVING ->
    (exists m, m ∈ ts_members st /\ m_identity m = m_identity m' /\ m_state m = LEAVING) \/ batch_is SCALE_IN st'
}.

(** None of the owners stays. *)
Record replaced (st st' : TopologyState) : Prop := {
  rp_batch : ts_activeBatch st' = None;
  rp_members m' : m' ∈ ts_members st' -> m_state m' = ACTIVE /\ token_derived m' /\
    0 < Z.of_nat (length (m_tokens m')) <= MAX_HASH_RING_TOKENS_PER_MEMBER;
  rp_owners m m' : m ∈ ts_members st -> committed m = true -> m' ∈ ts_members st' -> m_address m' <> m_address m
}.

Inductive topology_step (st st' : TopologyState) : Prop :=
  | step_evolves : evolves st st' -> topology_step st st'
  | step_replaced : replaced st st' -> topology_step st st'.

(** ** Reordering the members *)

Definition same_members (st st' : TopologyState) : Prop :=
  (forall m, m ∈ ts_members st <-> m ∈ ts_members st') /\ ts_activeBatch st = ts_activeBatch st'.

Lemma topology_step_same st st1 st2 : same_members st1 st2 -> topology_step st st1 -> topology_step st st2.
Proof.
  intros [Hm Hb] [[E1 E2 E3 E4]|[R1 R2 R3]]; [apply step_evolves|apply step_replaced]; split.
  - intros m' Hm'. by apply E1, Hm.
  - intros m Hin. destruct (E2 m Hin) as [(m' & Hm' & ?)|?]; [|by right]. left. exists m'. by rewrite <-Hm.
  - intros m' Hm' Hs. unfold batch_is. rewrite <-Hb. apply E3; [by apply Hm|done].
  - intros m' Hm' Hs. unfold batch_is. rewrite <-Hb. apply E4; [by apply Hm|done].
  - by rewrite <-Hb.
  - intros m' Hm'. by apply R2, Hm.
  - intros m m' H1 H2 H3. eapply R3; [done..|]. by apply Hm.
Qed.

Lemma same_members_sort st : same_members st (sort_members st).
Proof. split; [|done]. intros m. by rewrite sort_members_elem. Qed.

(** ** The machine and the invariant *)

Lemma derived_u32 m : token_derived m -> Z.of_nat (length (m_tokens m)) <= MAX_HASH_RING_TOKENS_PER_MEMBER -> overrides_u32 m.
Proof.
  intros (seeds & _ & Ht & Ho) Hl o Hin. rewrite Ho in Hin. apply elem_of_overrides_of in Hin as (H1 & _ & H3%lookup_lt_Some).
  assert (length (m_tokens m) = length seeds) as E by (rewrite Ht; apply length_imap).
  unfold is_u32, MAX_HASH_RING_TOKENS_PER_MEMBER in *. lia.
Qed.

Lemma topology_step_u32 st st' : state_u32 st -> topology_step st st' -> state_u32 st'.
Proof.
  intros Hu [He|Hr] m' Hm'.
  - destruct (ev_origin _ _ He m' Hm') as [(m & Hm & Hk)|[Hp|Ha]].
    + unfold overrides_u32. rewrite (kp_overrides _ _ Hk). by apply Hu.
    + apply derived_u32; [apply Hp|apply Hp].
    + rewrite (ad_initial _ _ Ha). intros o Ho. by apply not_elem_of_nil in Ho.
  - destruct (rp_members _ _ Hr m' Hm') as (_ & Hd & Hc). by apply derived_u32; [|lia].
Qed.

(** Joining and leaving members never mix. *)
Definition single_change (st : TopologyState) : Prop := forall m m',
  m ∈ ts_members st -> m' ∈ ts_members st -> m_state m = JOINING -> m_state m' = LEAVING -> False.

Lemma topology_step_single st st' : single_change st -> batch_consistent st' -> topology_step st st' -> single_change st'.
Proof.
  intros Hs Hb [He|Hr] m m' Hm Hm' Hj Hl.
  2: { destruct (rp_members _ _ Hr m Hm) as (Ha & _). congruence. }
  assert (Hmatch : forall x b, x ∈ ts_members st' -> ts_activeBatch st' = Some b -> MatchesBatch (m_state x) (ab_type b) = true)
    by (intros; by eapply batch_state).
  assert (Hno : forall t x, batch_is t st' -> x ∈ ts_members st' -> MatchesBatch (m_state x) t = true).
  { intros t x (b & Hbt & Ht)%fmap_Some Hx. rewrite Ht. by apply Hmatch. }
  destruct (ev_joining _ _ He m Hm Hj) as [(x & Hx & _ & Hxj)|Ho].
  2: { specialize (Hno _ m' Ho Hm'). by rewrite Hl in Hno. }
  destruct (ev_leaving _ _ He m' Hm' Hl) as [(y & Hy & _ & Hyl)|Hi].
  2: { specialize (Hno _ m Hi Hm). by rewrite Hj in Hno. }
  by apply (Hs x y).
Qed.

Lemma MakeTokens_u32 a seeds t : t ∈ MakeTokens a seeds -> is_u32 t.
Proof. intros (i & s & -> & _)%elem_of_lookup_imap. apply (MakeHashRingToken_u32 a). Qed.

Lemma member_encodable_tokens tpm m : 0 < tpm -> member_encodable tpm m ->
  (forall t, t ∈ m_tokens m -> is_u32 t) /\ (m_state m <> INITIAL -> m_tokens m <> []).
Proof.
  intros Htpm. unfold member_encodable. case_decide as Hi.
  - intros [-> _]. split; [|done]. intros t Ht. by apply not_elem_of_nil in Ht.
  - intros (Hc & _ & Ht). split; [intros t; rewrite Ht; apply MakeTokens_u32|]. intros _ E. rewrite E in Hc. cbn in Hc. lia.
Qed.

Section inv.
Context `{IPlanningAlgorithm, !PlanningLaws, RE2}.

Lemma encodable_inv st : encodable st -> single_change st -> topology_inv st.
Proof.
  intros [[P1 P2 P3 P4 P5 P6 P7] He _] Hs. split; try done.
  - intros m t Hm. by apply (member_encodable_tokens _ m (proj1 P2) (He m Hm)).
  - intros m Hm Hc. apply (member_encodable_tokens _ m (proj1 P2) (He m Hm)). intros E. unfold committed_or_joining, committed, is_joining in Hc.
    by rewrite E in Hc.
Qed.

(** ** Owners stay until they fail or leave *)

Definition owns (m : Member) : Prop := committed m = true \/ m_state m = FAILED.

Lemma kept_owns m m' : owns m -> kept m m' -> owns m'.
Proof.
  unfold owns, committed, IsCommittedMemberState. intros Ho [_ _ _ Hs]. destruct (m_state m), (m_state m'); naive_solver.
Qed.

Lemma owner_step st st' m : members_valid (ts_members st) -> topology_step st st' -> m ∈ ts_members st -> owns m ->
  (exists m', m' ∈ ts_members st' /\ kept m m') \/ m_state m = FAILED \/ (m_state m = LEAVING /\ batch_is SCALE_IN st) \/ replaced st st'.
Proof.
  intros Hv [He|Hr] Hm Ho; [|by auto]. destruct (ev_removed _ _ He m Hm) as [(m' & Hm' & Hid)|Hl].
  - left. exists m'. split; [done|]. assert (Ha : m_address m = m_address m') by (unfold m_address; by rewrite Hid).
    destruct (ev_origin _ _ He m' Hm') as [(x & Hx & Hk)|[Hp|Had]].
    + assert (x = m) as <-; [|done]. eapply (address_inj (ts_members st)); [done..|].
      unfold m_address. by rewrite <-(kp_identity _ _ Hk), Hid.
    + pose proof (pl_before _ _ Hp m Hm Ha) as Hs. unfold owns, committed in Ho. rewrite Hs in Ho. naive_solver.
    + by destruct (ad_new _ _ Had m Hm).
  - unfold may_leave in Hl. unfold owns, committed in Ho. destruct (m_state m); naive_solver.
Qed.

(** What ends the ownership of a member. *)
Definition departs (id : MemberIdentity) (st st' : TopologyState) : Prop :=
  (exists m, m ∈ ts_members st /\ m_identity m = id /\ (m_state m = FAILED \/ (m_state m = LEAVING /\ batch_is SCALE_IN st))) \/
  replaced st st'.

Lemma owner_run (states : nat -> TopologyState) i n m :
  (forall j, (i <= j <= i + n)%nat -> members_valid (ts_members (states j))) ->
  (forall j, (i <= j < i + n)%nat -> topology_step (states j) (states (S j))) ->
  m ∈ ts_members (states i) -> owns m ->
  (exists m', m' ∈ ts_members (states (i + n)%nat) /\ m_identity m' = m_identity m /\ m_tokens m' = m_tokens m /\ owns m') \/
  exists j, (i <= j < i + n)%nat /\ departs (m_identity m) (states j) (states (S j)).
Proof.
  intros Hv Hs Hm Ho. induction n as [|n IH]; [left; exists m; by rewrite Nat.add_0_r|].
  destruct IH as [(m' & Hm' & Hid & Ht & Ho')|(j & Hj & Hd)].
  - intros j Hj. apply Hv. lia.
  - intros j Hj. apply Hs. lia.
  - destruct (owner_step _ _ m' (Hv (i + n)%nat ltac:(lia)) (Hs (i + n)%nat ltac:(lia)) Hm' Ho') as [(x & Hx & Hk)|Hd].
    + left. exists x. rewrite Nat.add_succ_r. split_and!; [done|by rewrite (kp_identity _ _ Hk)|by rewrite (kp_tokens _ _ Hk)|].
      by eapply kept_owns.
    + right. exists (i + n)%nat. split; [lia|]. unfold departs. destruct Hd as [Hf|[Hl|Hr]]; [left; eauto..|by right].
  - right. exists j. split; [lia|done].
Qed.

(** ** Building blocks *)

Definition steps_to (latest next : TopologyState) : Prop :=
  state_u32 next /\ (encodable next -> topology_step latest next).

Lemma steps_intro latest next : state_u32 latest -> topology_step latest next -> steps_to latest next.
Proof. intros Hu Hs. split; [by eapply topology_step_u32|done]. Qed.

Lemma kept_refl m : kept m m.
Proof. split; try done. by destruct (m_state m). Qed.

Lemma kept_state m s : lifecycle_kept (m_state m) s = true -> kept m (set_member_state s m).
Proof. intros Hs. by split. Qed.

(** Every member moves along its lifecycle. *)
Lemma evolves_map latest st' f : ts_members st' = f <$> ts_members latest ->
  (forall m, m ∈ ts_members latest -> kept m (f m)) ->
  (forall m, m ∈ ts_members latest -> m_state (f m) = JOINING -> m_state m = JOINING) ->
  (forall m, m ∈ ts_members latest -> m_state (f m) = LEAVING -> m_state m = LEAVING \/ batch_is SCALE_IN st') ->
  evolves latest st'.
Proof.
  intros Hm Hk Hj Hl. split; rewrite ?Hm.
  - intros m' (m & -> & Hin)%list_elem_of_fmap. left. eauto.
  - intros m Hin. left. exists (f m). split; [by apply list_elem_of_fmap_2|]. by apply Hk.
  - intros m' (m & -> & Hin)%list_elem_of_fmap Hs. left. exists m. split_and!; [done|by rewrite (kp_identity _ _ (Hk m Hin))|auto].
  - intros m' (m & -> & Hin)%list_elem_of_fmap Hs. destruct (Hl m Hin Hs); [left|by right].
    exists m. by rewrite (kp_identity _ _ (Hk m Hin)).
Qed.

(** Some members disappear. *)
Lemma evolves_sub latest st' : ts_members st' `sublist_of` ts_members latest ->
  (forall m, m ∈ ts_members latest -> m ∈ ts_members st' \/ may_leave latest m) -> evolves latest st'.
Proof.
  intros Hsub Hl. assert (Hin : forall m, m ∈ ts_members st' -> m ∈ ts_members latest) by (intros; by eapply elem_of_sublist).
  split.
  - intros m' Hm'. left. exists m'. split; [auto|apply kept_refl].
  - intros m [Hm|Hm]%Hl; [left; eauto|by right].
  - intros m' Hm' Hs. left. exists m'. auto.
  - intros m' Hm' Hs. left. exists m'. auto.
Qed.

(** Erasing members that never owned anything. *)
Definition no_owner (latest : TopologyState) (l : list MemberIdentity) : Prop := forall i, i ∈ l ->
  exists m, m ∈ ts_members latest /\ m_address m = mi_address i /\ (m_state m = INITIAL \/ m_state m = JOINING).

Lemma evolves_erase latest next l : members_valid (ts_members latest) -> evolves latest next -> no_owner latest l ->
  evolves latest (EraseMembers l next).
Proof.
  intros Hv [E1 E2 E3 E4] Hl. split.
  - intros m' [Hm' _]%RemoveMembers_elem. auto.
  - intros m Hm. destruct (E2 m Hm) as [(m' & Hm' & Hid)|?]; [|by right].
    destruct (decide (m_address m' ∈ addresses_of l)) as [Ha|Ha].
    + right. apply elem_of_addresses_of in Ha as (i & Hi & Ha). destruct (Hl i Hi) as (x & Hx & Hax & Hs).
      assert (x = m) as -> by (eapply (address_inj (ts_members latest)); [done..|congruence]).
      unfold may_leave. by destruct Hs as [-> | ->].
    + left. exists m'. split; [|done]. by apply RemoveMembers_elem.
  - intros m' [Hm' _]%RemoveMembers_elem Hs. by apply E3.
  - intros m' [Hm' _]%RemoveMembers_elem Hs. by apply E4.
Qed.

(** ** Operations of the plan builder *)

Lemma failure_next_u32 latest confirmed plan : topology_inv latest -> state_u32 latest ->
  BuildFailureStartOrReplan latest confirmed = Ok plan -> state_u32 (tp_next plan).
Proof.
  intros Hinv Hu Hok. rewrite (BuildFailureStart_next _ _ _ Hinv Hok).
  intros m (x & -> & Hx)%list_elem_of_fmap. unfold fail_update. case_bool_decide; exact (Hu x Hx).
Qed.

(** A failure and the members erased with it.  A member that waits for tokens
    cannot be stored as failed, so it is erased or not among the failed ones. *)
Lemma BuildFailureStart_evolves latest confirmed plan erased next : topology_inv latest -> encodable latest ->
  BuildFailureStartOrReplan latest confirmed = Ok plan -> no_owner latest erased ->
  (forall m, m ∈ ts_members next <-> m ∈ ts_members (tp_next plan) /\ m_address m ∉ addresses_of erased) -> encodable next ->
  evolves latest next.
Proof.
  intros Hinv Hel Hok Hno Hnext Hen. rewrite (BuildFailureStart_next _ _ _ Hinv Hok) in Hnext. cbn [set_version_batch ts_members set_members] in Hnext.
  assert (Horigin : forall m', m' ∈ ts_members next -> exists x, x ∈ ts_members latest /\ kept x m' /\
      (m_state m' = m_state x \/ m_state m' = FAILED)).
  { intros m' Hm'. pose proof Hm' as ((x & -> & Hx)%list_elem_of_fmap & _)%Hnext. exists x. split; [done|].
    unfold fail_update in *. case_bool_decide; [|split; [apply kept_refl|by left]]. split; [|by right]. apply kept_state.
    destruct (m_state x) eqn:E; try done. exfalso.
    destruct (member_encodable_tokens _ _ (proj1 (ps_tpm _ (en_persistable _ Hen))) (en_members _ Hen _ Hm')) as [_ Ht].
    apply Ht; [done|]. specialize (en_members _ Hel x Hx). unfold member_encodable. rewrite decide_True by done. by intros [Ex _]. }
  assert (Hstays : forall m', m' ∈ ts_members next -> m_state m' <> FAILED ->
      exists m, m ∈ ts_members latest /\ m_identity m = m_identity m' /\ m_state m = m_state m').
  { intros m' (x & Hx & Hk & [Hs|Hs])%Horigin Hf; [|done]. exists x. split_and!; [done| |done]. by rewrite (kp_identity _ _ Hk). }
  split.
  - intros m' (x & Hx & Hk & _)%Horigin. left. eauto.
  - intros m Hm. destruct (decide (m_address m ∈ addresses_of erased)) as [(i & Hi & Ha)%elem_of_addresses_of|Ha].
    + right. destruct (Hno i Hi) as (x & Hx & Hax & Hs).
      assert (x = m) as -> by (eapply (address_inj (ts_members latest)); [apply Hinv|done..|congruence]).
      unfold may_leave. by destruct Hs as [-> | ->].
    + left. exists (fail_update confirmed m). unfold fail_update. split; [|by case_bool_decide]. apply Hnext. split.
      * by apply (list_elem_of_fmap_2 (fail_update confirmed)).
      * by case_bool_decide.
  - intros m' Hm' Hs. left. destruct (Hstays m' Hm') as (m & ? & ? & ?); [congruence|]. exists m. split_and!; [done..|congruence].
  - intros m' Hm' Hs. left. destruct (Hstays m' Hm') as (m & ? & ? & ?); [congruence|]. exists m. split_and!; [done..|congruence].
Qed.

Lemma BuildScaleOutFinal_evolves latest next : BuildScaleOutFinal latest = Ok next -> evolves latest next.
Proof.
  intros Hok. unfold BuildScaleOutFinal in Hok. apply bind_Ok in Hok as (u1 & _ & Hok). apply bind_Ok in Hok as (u2 & _ & [= <-]).
  apply (evolves_map _ _ (fun m => if in_state JOINING m then set_member_state ACTIVE m else m)); [done|..].
  - intros m Hm. unfold in_state. case_bool_decide as E; [|apply kept_refl]. apply kept_state. by rewrite E.
  - intros m Hm. destruct (in_state JOINING m); [done|auto].
  - intros m Hm. destruct (in_state JOINING m); [done|auto].
Qed.

Lemma removed_state latest s m : members_valid (ts_members latest) -> m ∈ ts_members latest ->
  m ∈ ts_members (RemoveMembers (addresses_of (MembersInState latest s)) latest) \/ m_state m = s.
Proof. intros Hv Hm. destruct (decide (m_state m = s)); [by right|]. left. by apply remove_state_elem. Qed.

Lemma BuildScaleInFinal_evolves latest next : topology_inv latest -> BuildScaleInFinal latest = Ok next -> evolves latest next.
Proof.
  intros Hinv Hok. unfold BuildScaleInFinal in Hok. apply bind_Ok in Hok as (u1 & (b & Hb & Ht)%ValidateBatch_Some & Hok).
  apply bind_Ok in Hok as (u2 & _ & [= <-]). apply evolves_sub; [apply filter_bool_sublist|]. intros m Hm.
  destruct (removed_state latest LEAVING m (ti_members _ Hinv) Hm) as [?|E]; [by left|right].
  unfold may_leave. rewrite E. unfold batch_is. rewrite Hb. cbn. by rewrite Ht.
Qed.

Lemma BuildFailureFinal_evolves latest next : topology_inv latest -> BuildFailureFinal latest = Ok next -> evolves latest next.
Proof.
  intros Hinv Hok. unfold BuildFailureFinal in Hok. apply bind_Ok in Hok as (u1 & _ & Hok). apply bind_Ok in Hok as (u2 & _ & [= <-]).
  set (built := RemoveMembers _ latest).
  assert (Hsub : ts_members built `sublist_of` ts_members latest) by apply filter_bool_sublist.
  assert (Hrem : forall m, m ∈ ts_members latest -> m ∈ ts_members built \/ may_leave latest m).
  { intros m Hm. destruct (removed_state latest FAILED m (ti_members _ Hinv) Hm) as [?|E]; [by left|right]. unfold may_leave. by rewrite E. }
  destruct (existsb _ _) eqn:Ex; cbn [negb].
  - repeat case_match; by apply evolves_sub.
  - apply evolves_sub; [apply sublist_nil_l|]. intros m Hm. right. destruct (Hrem m Hm) as [Hb|?]; [|done].
    assert (Hs : (in_state ACTIVE m || in_state LEAVING m || in_state PRE_LEAVING m) = false).
    { destruct (_ || _) eqn:Es; [|done]. rewrite <-Ex. symmetry. apply existsb_elem. eauto. }
    unfold may_leave, in_state in *. by destruct (m_state m).
Qed.

Lemma emptied_replaced latest next : ts_members next = [] -> ts_activeBatch next = None -> replaced latest next.
Proof. intros Hm Hb. split; [done|..]; rewrite Hm; set_solver. Qed.

(** *** Starts, after the members a start may admit *)

Record extended (latest st : TopologyState) : Prop := {
  xt_members m : m ∈ ts_members st -> m ∈ ts_members latest \/ admitted latest m;
  xt_old m : m ∈ ts_members latest -> m ∈ ts_members st;
  xt_tpm : ts_tokensPerMember st = ts_tokensPerMember latest
}.

Lemma extended_refl st : extended st st.
Proof. split; auto. Qed.

(** A selected member that is already known waits for tokens. *)
Lemma selected_initial latest st selected u m i : members_valid (ts_members latest) -> extended latest st ->
  ValidateSelected st selected INITIAL = Ok u -> i ∈ selected -> m ∈ ts_members latest -> m_address m = mi_address i ->
  m_state m = INITIAL.
Proof.
  intros Hv Hx [_ Hsel]%ValidateSelected_spec Hi Hm Ha. rewrite Forall_forall in Hsel.
  destruct (Hsel i Hi) as (x & Hxm & Hid & Hs). destruct (xt_members _ _ Hx x Hxm) as [Hin|Had].
  - assert (x = m) as <- by (eapply (address_inj (ts_members latest)); [done..|]; rewrite Ha; by f_equal). done.
  - destruct (ad_new _ _ Had m Hm). rewrite Ha. by f_equal.
Qed.

Lemma BuildScaleOutStart_evolves latest st selected plan : topology_inv latest -> extended latest st ->
  BuildScaleOutStart st selected = Ok plan -> evolves latest (tp_next plan).
Proof.
  intros Hinv Hx Hok. unfold BuildScaleOutStart in Hok. apply bind_Ok in Hok as (u1 & _ & Hok).
  apply bind_Ok in Hok as (u2 & Hsel & Hok). apply bind_Ok in Hok as (built & Hb & Hok). apply bind_Ok in Hok as (u3 & _ & [= <-]).
  pose proof (fun m i => selected_initial latest st selected u2 m i (ti_members _ Hinv) Hx Hsel) as Hinit.
  apply law_scale_out in Hb.
  2: { intros m t [Hm _]%RemoveMembers_elem Ht. destruct (xt_members _ _ Hx m Hm) as [Hin|Had]; [by apply (ti_u32 _ Hinv m)|].
       rewrite (ad_initial _ _ Had) in Ht. by apply not_elem_of_nil in Ht. }
  destruct (oc_next _ _ _ _ Hb) as (added & Hn & Hadd). pose proof (ti_tpm _ Hinv) as Htpm.
  assert (Hel : forall m, m ∈ ts_members (tp_next built) -> m ∈ ts_members latest \/ admitted latest m \/ (m ∈ added /\ placed latest m)).
  { intros m. rewrite Hn. cbn [ts_members set_members]. rewrite elem_of_app. intros [[Hm _]%RemoveMembers_elem|Hm].
    - destruct (xt_members _ _ Hx m Hm); auto.
    - right; right. split; [done|]. destruct (Hadd m Hm) as (Hs & Hi & Hc & Hd). split; [by left|done| |].
      + rewrite Hc. cbn [RemoveMembers set_members ts_tokensPerMember]. by rewrite (xt_tpm _ _ Hx).
      + intros y Hy Ha. by apply (Hinit y (m_identity m)). }
  unfold AdvanceEpoch. split; cbn [tp_next set_version_batch ts_members].
  - intros m' [Hm|[Ha|[_ Hp]]]%Hel; [left|auto|auto]. exists m'. split; [done|apply kept_refl].
  - intros m Hm. destruct (decide (m_address m ∈ addresses_of selected)) as [(i & Hi & Ha)%elem_of_addresses_of|Ha].
    + right. unfold may_leave. by rewrite (Hinit m i Hi Hm).
    + left. exists m. split; [|done]. rewrite Hn. cbn [ts_members set_members]. apply elem_of_app. left.
      apply RemoveMembers_elem. split; [by apply (xt_old _ _ Hx)|done].
  - intros m' Hm' Hs. by right.
  - intros m' [Hm|[Ha|[Hm _]]]%Hel Hs; [left; eauto|by rewrite (ad_initial _ _ Ha) in Hs|]. apply Hadd in Hm as (Hj & _). congruence.
Qed.

Lemma BuildBootstrap_evolves latest st ready next : topology_inv latest -> extended latest st ->
  BuildBootstrap st ready = Ok next -> evolves latest next.
Proof.
  intros Hinv Hx Hok. unfold BuildBootstrap in Hok. apply bind_Ok in Hok as (u1 & _ & Hok).
  apply bind_Ok in Hok as (u2 & Hsel & Hok). apply bind_Ok in Hok as (built & Hb%law_initial & Hok).
  apply bind_Ok in Hok as (u3 & _ & [= <-]).
  pose proof (fun m i => selected_initial latest st ready u2 m i (ti_members _ Hinv) Hx Hsel) as Hinit.
  destruct Hb as [_ _ _ Hperm Hact _].
  set (others := List.filter _ _). assert (Hel : forall m, m ∈ ts_members (tp_next built) ++ others ->
    (m ∈ ts_members (tp_next built) /\ placed latest m /\ m_state m = ACTIVE) \/ m ∈ ts_members latest \/ admitted latest m).
  { intros m [Hm|[Hm _]%elem_of_filter_bool]%elem_of_app; [left|right; by apply (xt_members _ _ Hx)].
    destruct (Hact m Hm) as (Hs & Hc & Hd). split_and!; [done| |done]. split; [by right|done|by rewrite Hc|].
    intros y Hy Ha. apply (Hinit y (m_identity m)); [|done..]. rewrite <-Hperm. by apply list_elem_of_fmap_2. }
  split; cbn [set_clusterHasInit set_version_batch ts_members set_members].
  - intros m' [(_ & Hp & _)|[Hm|Ha]]%Hel; [auto|left|auto]. exists m'. split; [done|apply kept_refl].
  - intros m Hm. destruct (decide (m_address m ∈ addresses_of ready)) as [(i & Hi & Ha)%elem_of_addresses_of|Ha].
    + right. unfold may_leave. by rewrite (Hinit m i Hi Hm).
    + left. exists m. split; [|done]. apply elem_of_app. right. apply elem_of_filter_bool.
      split; [by apply (xt_old _ _ Hx)|by apply bool_decide_eq_true].
  - intros m' [(_ & _ & Ha)|[Hm|Ha]]%Hel Hs; [congruence|left; eauto|by rewrite (ad_initial _ _ Ha) in Hs].
  - intros m' [(_ & _ & Ha)|[Hm|Ha]]%Hel Hs; [congruence|left; eauto|by rewrite (ad_initial _ _ Ha) in Hs].
Qed.

(** A replan of a scale-out keeps the tokens of those that still join. *)
Lemma BuildScaleOutReplan_evolves latest failed plan : topology_inv latest ->
  BuildScaleOutReplan latest failed = Ok plan -> evolves latest (tp_next plan).
Proof.
  intros Hinv Hok. unfold BuildScaleOutReplan in Hok. apply bind_Ok in Hok as (u1 & _ & Hok).
  apply bind_Ok in Hok as (u2 & [_ Hsel]%ValidateSelected_spec & Hok). rewrite Forall_forall in Hsel.
  set (retained := RemoveMembers (addresses_of failed) latest) in Hok.
  assert (Hrem : forall m, m ∈ ts_members latest -> m ∈ ts_members retained \/ may_leave latest m).
  { intros m Hm. destruct (decide (m_address m ∈ addresses_of failed)) as [(i & Hi & Ha)%elem_of_addresses_of|Ha].
    - right. destruct (Hsel i Hi) as (x & Hx & Hid & Hs).
      assert (x = m) as <- by (eapply (address_inj (ts_members latest)); [apply Hinv|done..|]; rewrite <-Ha; by f_equal).
      unfold may_leave. by rewrite Hs.
    - left. by apply RemoveMembers_elem. }
  assert (Hsub : ts_members retained `sublist_of` ts_members latest) by apply filter_bool_sublist.
  destruct (negb _); [|injection Hok as <-; by apply evolves_sub].
  apply bind_Ok in Hok as (built & Hb & [= <-]). apply law_scale_out in Hb.
  2: { intros m t [Hm _]%RemoveMembers_elem. by apply (ti_u32 _ Hinv). }
  destruct (oc_next _ _ _ _ Hb) as (added & Hn & Hadd). pose proof (mv_addresses _ (vt_members _ (oc_valid _ _ _ _ Hb))) as Hnd.
  rewrite Hn in Hnd. cbn [ts_members set_members] in Hnd. rewrite fmap_app in Hnd. apply NoDup_app in Hnd as (_ & Hdis & _).
  assert (added = []) as ->.
  { destruct added as [|x added]; [done|]. destruct (Hadd x ltac:(left)) as (_ & (y & Hy & Hid & _)%MembersInState_elem & _).
    destruct (Hdis (m_address y)); [by apply (list_elem_of_fmap_2 (fun m => m_address m))|].
    replace (m_address y) with (m_address x) by (unfold m_address; by rewrite Hid). left. }
  assert (ts_members (tp_next built) = ts_members retained) as Hm by (rewrite Hn; apply app_nil_r).
  apply evolves_sub; unfold AdvanceEpoch; cbn [tp_next set_version_batch ts_members]; by rewrite Hm.
Qed.

(** *** Departures *)

Definition pre_leave (selected : list MemberIdentity) (m : Member) : Member :=
  if in_state ACTIVE m && bool_decide (m_address m ∈ addresses_of selected) then set_member_state PRE_LEAVING m else m.

Lemma pre_leave_inv latest selected : topology_inv latest -> ts_activeBatch latest = None ->
  topology_inv (set_members (pre_leave selected <$> ts_members latest) latest).
Proof.
  intros Hinv Hnb.
  assert (set_members (pre_leave selected <$> ts_members latest) latest =
    set_version_batch (ts_version latest) (ts_activeBatch latest) (set_members (pre_leave selected <$> ts_members latest) latest)) as ->
    by (by destruct latest).
  rewrite Hnb. apply topology_inv_map; [done|apply set_member_state_shape|..].
  - intros m Hm. unfold pre_leave. destruct (in_state ACTIVE m) eqn:E; cbn [andb]; [|done]. intros _.
    apply bool_decide_eq_true in E. unfold committed_or_joining, committed. by rewrite E.
  - intros m Hm. unfold pre_leave. case_match; done.
  - intros m m' Hm Hm'. unfold pre_leave. repeat case_match; try done. by apply (ti_single _ Hinv).
  - done.
  - intros m (x & -> & Hx)%list_elem_of_fmap. pose proof (ti_batch _ Hinv) as Hb. unfold batch_consistent in Hb. rewrite Hnb in Hb.
    unfold pre_leave. case_match; [done|auto].
Qed.

Lemma BuildScaleInStart_evolves latest selected st plan : topology_inv latest ->
  st = latest \/ st = set_members (pre_leave selected <$> ts_members latest) latest ->
  BuildScaleInStart st selected = Ok plan -> evolves latest (tp_next plan).
Proof.
  intros Hinv Hst Hok.
  assert (exists f, ts_members st = f <$> ts_members latest /\ topology_inv st /\ (forall m, kept m (f m)) /\
    (forall m, m_state (f m) = m_state m \/ (m_state m = ACTIVE /\ m_state (f m) = PRE_LEAVING))) as (f & Hf & Hinv' & Hk & Hj).
  { destruct Hst as [-> | ->].
    - exists (fun m => m). split_and!; [by rewrite list_fmap_id|done|apply kept_refl|auto].
    - exists (pre_leave selected). split_and!; [done| | |].
      + apply pre_leave_inv; [done|]. unfold BuildScaleInStart in Hok. apply bind_Ok in Hok as (u & Hc%check_Ok & _).
        by apply andb_prop in Hc as [_ Hc%no_batch].
      + intros m. unfold pre_leave. destruct (in_state ACTIVE m) eqn:E; cbn [andb]; [|apply kept_refl].
        apply bool_decide_eq_true in E. case_bool_decide; [|apply kept_refl]. apply kept_state. by rewrite E.
      + intros m. unfold pre_leave. destruct (in_state ACTIVE m) eqn:E; cbn [andb]; [|by left]. apply bool_decide_eq_true in E.
        case_bool_decide; [by right|by left]. }
  destruct (BuildScaleInStart_next _ _ _ Hinv' Hok) as (Hc & _ & _ & ->).
  assert (Hlv : forall m, m ∈ ts_members latest -> m_identity m ∈ selected -> committed (f m) = true).
  { intros m Hm Hi. destruct (nc_leaving _ _ _ Hc _ Hi) as (y & Hy & Hid & Hcm).
    assert (y = f m) as ->; [|done]. eapply (address_inj (ts_members st)); [apply Hinv'|done| |].
    - rewrite Hf. by apply list_elem_of_fmap_2.
    - unfold m_address. by rewrite Hid, (kp_identity _ _ (Hk m)). }
  apply (evolves_map _ _ (fun m => leave_update selected (f m))).
  - cbn [set_version_batch ts_members set_members]. by rewrite Hf, <-list_fmap_compose.
  - intros m Hm. destruct (Hk m) as [K1 K2 K3 K4]. unfold leave_update. rewrite K1. case_bool_decide as Hi; [|by split].
    split; try done. specialize (Hlv m Hm Hi). unfold committed, IsCommittedMemberState in Hlv.
    cbn. destruct (Hj m) as [E|[-> _]]; [|done]. rewrite E in Hlv. by destruct (m_state m).
  - intros m Hm. unfold leave_update. case_bool_decide; [done|]. destruct (Hj m) as [-> |[-> ->]]; done.
  - intros m Hm _. by right.
Qed.

(** *** Admission *)

(** The member stays, or begins to leave. *)
Definition retires (m m' : Member) : Prop := m' = m \/ (m_state m = ACTIVE /\ m' = set_member_state PRE_LEAVING m).

Lemma retires_kept m m' : retires m m' -> kept m m'.
Proof. intros [-> |[Hs ->]]; [apply kept_refl|]. apply kept_state. by rewrite Hs. Qed.

Lemma exiting_loop limit exiting ms acc adm :
  exists ms' adm', foldl (exiting_step limit exiting) (acc, adm) ms = (acc ++ ms', adm') /\ Forall2 retires ms ms'.
Proof.
  revert acc adm. induction ms as [|m ms IH]; intros acc adm; cbn [foldl]; [exists [], adm; by rewrite app_nil_r|].
  unfold exiting_step at 2. destruct (_ && _) eqn:E.
  - apply andb_prop in E as [[E%bool_decide_eq_true _]%andb_prop _].
    destruct (IH (acc ++ [set_member_state PRE_LEAVING m]) (adm ++ [m_identity m])) as (ms' & adm' & -> & Hf).
    exists (set_member_state PRE_LEAVING m :: ms'), adm'. rewrite <-app_assoc. split; [done|]. constructor; [by right|done].
  - destruct (IH (acc ++ [m]) adm) as (ms' & adm' & -> & Hf). exists (m :: ms'), adm'. rewrite <-app_assoc.
    split; [done|]. constructor; [by left|done].
Qed.

Context `{SHA256}.

(** The ready loop appends new members whose records it was given. *)
Lemma ready_loop limit ready members (known : gset string) admitted changed members' known' admitted' changed' :
  foldM (ready_step limit) (members, known, admitted, changed) ready = Ok (members', known', admitted', changed') ->
  exists new, members' = members ++ (new_initial <$> new) /\ admitted' = admitted ++ new /\
    forall i, i ∈ new -> mi_address i ∉ known /\ exists r, r ∈ ready /\ mr_address r = mi_address i.
Proof.
  revert members known admitted changed. induction ready as [|r ready IH]; intros members known admitted changed; cbn [foldM].
  - intros [= <- <- <- <-]. exists []. rewrite !app_nil_r. split_and!; [done..|]. set_solver.
  - intros ([[[m1 k1] a1] c1] & Hr & Hok)%bind_Ok. unfold ready_step in Hr. destruct (_ || _) eqn:E in Hr.
    + injection Hr as <- <- <- <-. apply IH in Hok as (new & -> & -> & Hnew). exists new. split_and!; [done..|].
      intros i Hi. destruct (Hnew i Hi) as (? & r' & ? & ?). split; [done|]. exists r'. by split; [right|].
    + apply orb_false_iff in E as [E%bool_decide_eq_false _]. apply bind_Ok in Hr as (u & _ & Hr).
      apply bind_Ok in Hr as (id & _ & [= <- <- <- <-]). apply IH in Hok as (new & -> & -> & Hnew).
      set (i0 := {| mi_id := id; mi_address := mr_address r |}).
      exists (i0 :: new). rewrite <-!app_assoc. split_and!; [done..|].
      intros i [-> |Hi]%elem_of_cons; [split; [done|]; exists r; by split; [left|]|].
      destruct (Hnew i Hi) as (Hni & r' & ? & ?). split; [set_solver|]. exists r'. by split; [right|].
Qed.

Lemma ApplyReady_facts limit next ready known changed r : ApplyReadyMembershipFacts limit next ready known changed = Ok r ->
  exists new, r.1.1 = set_members (ts_members next ++ (new_initial <$> new)) next /\ r.1.2 = new /\
    forall i, i ∈ new -> mi_address i ∉ known /\ exists rec, rec ∈ ready /\ mr_address rec = mi_address i.
Proof.
  unfold ApplyReadyMembershipFacts. intros ([[[ms k] a] c] & Hl & [= <-])%bind_Ok.
  apply ready_loop in Hl as (new & -> & -> & Hnew). exists new. done.
Qed.

(** The members of the topology after the facts were applied. *)
Lemma admission_evolves latest next ms' new : Forall2 retires (ts_members latest) ms' ->
  ts_members next = ms' ++ (new_initial <$> new) ->
  (forall i m, i ∈ new -> m ∈ ts_members latest -> m_address m <> mi_address i) -> evolves latest next.
Proof.
  intros Hf Hm Hnew.
  assert (Hold : forall m', m' ∈ ms' -> exists m, m ∈ ts_members latest /\ retires m m').
  { intros m' [j Hj]%list_elem_of_lookup. destruct (Forall2_lookup_r _ _ _ _ _ Hf Hj) as (m & Hl & Hr).
    exists m. split; [by eapply list_elem_of_lookup_2|done]. }
  split; rewrite Hm.
  - intros m' [(m & Hin & Hr)%Hold|(i & -> & Hi)%list_elem_of_fmap]%elem_of_app.
    + left. exists m. split; [done|by apply retires_kept].
    + right; right. split; [done|]. intros m Hin. by apply Hnew.
  - intros m [j Hj]%list_elem_of_lookup. destruct (Forall2_lookup_l _ _ _ _ _ Hf Hj) as (m' & Hl & Hr). left. exists m'.
    split; [apply elem_of_app; left; by eapply list_elem_of_lookup_2|by apply retires_kept].
  - intros m' [(m & Hin & Hr)%Hold|(i & -> & Hi)%list_elem_of_fmap]%elem_of_app Hs; [|done]. left. exists m.
    destruct Hr as [-> |[_ ->]]; done.
  - intros m' [(m & Hin & Hr)%Hold|(i & -> & Hi)%list_elem_of_fmap]%elem_of_app Hs; [|done]. left. exists m.
    destruct Hr as [-> |[_ ->]]; done.
Qed.

Lemma ApplyExiting_facts limit next exiting :
  exists ms', (ApplyExitingMembershipFacts limit next exiting).1.1 = set_members ms' next /\ Forall2 retires (ts_members next) ms' /\
    (ApplyExitingMembershipFacts limit next exiting).1.2 = list_to_set ((fun m => m_address m) <$> ts_members next).
Proof.
  unfold ApplyExitingMembershipFacts. destruct (exiting_loop limit exiting (ts_members next) [] []) as (ms' & adm' & -> & Hf).
  exists ms'. done.
Qed.

(** *** The members a start admits directly *)

Lemma admit_loop latest participants ms : (forall m, m ∈ ms -> m ∈ ts_members latest \/ admitted latest m) ->
  (forall m, m ∈ ts_members latest -> m ∈ ms) ->
  let ms' := foldl admit_step ms participants in
  (forall m, m ∈ ms' -> m ∈ ts_members latest \/ admitted latest m) /\ (forall m, m ∈ ts_members latest -> m ∈ ms').
Proof.
  revert ms. induction participants as [|i l IH]; intros ms Hin Hold; cbn [foldl]; [done|].
  apply IH; unfold admit_step; case_bool_decide as Ha; try done.
  - intros m [Hm| ->%list_elem_of_singleton]%elem_of_app; [auto|]. right. split; [done|]. intros m Hm Hne. apply Ha.
    apply list_elem_of_fmap. exists m. split; [done|auto].
  - intros m Hm. apply elem_of_app. left. auto.
Qed.
End inv.
