(* ===== verification/ControllerHistory.v ===== *)
(** * Controllers and the history of the topology

    The discipline every controller keeps: the values of the topology key are a
    run of the machine of TopologySteps.v.  [keeps] is the judgement for a method
    of the controller: it keeps the discipline and what is known of the history,
    whatever the fields of the controller hold, whatever the host answers and
    whatever others do between two requests. *)

From coqutil Require Import Datatypes.RecordSetters.
From S2P Require Import Prelude Ordered TopologyTypes HashRing BalancedRing TokenPlacement HostPort KeyHelper Hasher.
From S2P Require Import RingTheory HashAlgorithm OwnerSpec PlanningInterface HashPlans Snapshot RepositoryCodec.
From S2P Require Import MembershipTypes MembershipCodec PlanBuilder TopologySafety EndpointView.
From S2P Require Import MemoryKvStore TtlManager WatchRegistry WatchDispatcher CoordinatorStore StoreProgram BackendInterface HistoryFrame.
From S2P Require Import TopologyRepository TopologyReader RepositoryTheory TaskMaterializer FailureClassifier SnapshotState.
From S2P Require Import ControllerTypes ControllerBatch ControllerFailure TopologySteps.

(** ** The discipline *)

Section history.
Context `{RE2, Protobuf ClusterTopologyPb, MapIteration}.
Context `{!ExactParse ClusterTopologyPb, !MapIterationLaws, !EmptyValue ClusterTopologyPb default_ClusterTopologyPb}.

Record sound_topology (st : TopologyState) : Prop := {
  so_u32 : state_u32 st; so_encodable : encodable st; so_single : single_change st
}.

Record topology_run (h : history) : Prop := {
  tr_entries j v a : h !! j = Some (v, a) ->
    exists st, EncodeTopology st = Ok v /\ sound_topology st /\ ts_version st = Z.of_nat j + 1;
  tr_steps j v a v' a' st st' : h !! j = Some (v, a) -> h !! S j = Some (v', a') ->
    DecodeTopology v = Ok st -> DecodeTopology v' = Ok st' -> topology_step st st'
}.

Lemma topology_run_chain h : topology_run h -> version_chain h.
Proof. intros Hr j v a Hj. destruct (tr_entries _ Hr j v a Hj) as (st & He & Hs & Hv). exists st. by split; [apply Hs|]. Qed.

Lemma sound_sort st : sound_topology st -> sound_topology (sort_members st).
Proof.
  intros [Hu [Hp Hm Ht] Hs]. assert (Hin : forall m, m ∈ ts_members (sort_members st) -> m ∈ ts_members st)
    by (intros m; apply sort_members_elem).
  split.
  - intros m Hm'. by apply Hu, Hin.
  - split; [by apply persistable_sort|intros m Hm'; by apply Hm, Hin|].
    by rewrite (token_total_perm (ts_members (sort_members st)) (ts_members st)) by apply sort_on_perm.
  - intros m m' Hx Hy. apply Hs; by apply Hin.
Qed.

(** The snapshot shows a topology of the history. *)
Definition seen (latest : TopologySnapshot) (h : history) : Prop := exists j v a,
  h !! j = Some (v, a) /\ DecodeTopology v = Ok (state_ latest) /\ Version latest = Z.of_nat j + 1.

Lemma seen_prefix latest h h' : h `prefix_of` h' -> seen latest h -> seen latest h'.
Proof. intros Hp (j & v & a & Hj & Hd). exists j, v, a. split; [by eapply prefix_lookup_Some|done]. Qed.

(** The next topology may be appended when nothing was written since [latest] was read. *)
Lemma topology_run_next h latest next v i : topology_run h -> seen latest h -> Z.of_nat (length h) = Version latest ->
  sound_topology next -> EncodeTopology next = Ok v -> ts_version next = Version latest + 1 ->
  topology_step (state_ latest) next -> topology_run (h ++ [(v, i)]).
Proof.
  intros [He Hs] (j & w & a & Hj & Hd & Hver) Hlen Hnext Hv Hn Hstep. split.
  - intros k x b [[_ Hk]|[-> Hk]]%lookup_snoc_Some; [eauto|]. injection Hk as -> ->. exists next. split_and!; [done..|]. by rewrite Hn, <-Hlen.
  - intros k x b x' b' st st' Hk Hk' Hx Hx'. apply lookup_snoc_Some in Hk' as [[Hlt Hk']|[Hk' [= <- <-]]].
    + apply lookup_snoc_Some in Hk as [[_ Hk]|[-> _]]; [exact (Hs k x b x' b' st st' Hk Hk' Hx Hx')|lia].
    + apply lookup_snoc_Some in Hk as [[_ Hk]|[-> _]]; [|lia]. assert (k = j) as -> by lia.
      assert (x = w) as -> by congruence. assert (st = state_ latest) as -> by congruence.
      rewrite (DecodeTopology_exact next v st' (so_u32 _ Hnext) Hv Hx').
      eapply topology_step_same; [apply same_members_sort|done].
Qed.
End history.

(** ** The judgement *)

(** Facts about the history that last. *)
Class Lasting (F : history -> Prop) : Prop := lasting h h' : h `prefix_of` h' -> F h -> F h'.
#[global] Instance lasting_true : Lasting (fun _ => True).
Proof. done. Qed.

Section keeps.
Context (key : string) (ok : history -> Prop).
Abbreviation D := (history_discipline key ok).

Definition keeps {A} (F : history -> Prop) (m : ctl A) (Q : A -> Prop) : Prop := forall i h self, F h ->
  safe D i (m self) (fun h' r => F h' /\ forall a, r.2 = Ok a -> Q a) h.

Context (F : history -> Prop) `{!Lasting F}.

Lemma keeps_done {A} (a : A) (Q : A -> Prop) : Q a -> keeps F (done a) Q.
Proof. intros Hq i h self Hf. split; [done|]. by intros a' [= <-]. Qed.

Lemma keeps_fail {A} code (Q : A -> Prop) : keeps F (fail code) Q.
Proof. intros i h self Hf. done. Qed.

Lemma keeps_andthen {A B} (m : ctl A) (f : A -> ctl B) P Q :
  keeps F m P -> (forall a, P a -> keeps F (f a) Q) -> keeps F (andthen m f) Q.
Proof.
  intros Hm Hf i h self Hh. eapply safe_bind; [by apply Hm|]. intros h1 [self1 [a|code]] [Hh1 Hp]; cbn [fst snd] in *.
  - apply Hf; auto.
  - done.
Qed.

Lemma keeps_seq {A B} (m : ctl A) (f : A -> ctl B) Q :
  keeps F m (fun _ => True) -> (forall a, keeps F (f a) Q) -> keeps F (andthen m f) Q.
Proof. intros Hm Hf. eapply keeps_andthen; [done|]. auto. Qed.

Lemma keeps_status_of {A} (m : ctl A) (Q : A -> Prop) : keeps F m Q -> keeps F (status_of m) (fun r => forall a, r = Ok a -> Q a).
Proof.
  intros Hm i h self Hh. eapply safe_bind; [by apply Hm|]. intros h1 [self1 r] [Hh1 Hp]; cbn [fst snd] in *. split; [done|].
  intros r' [= <-]. done.
Qed.

Lemma keeps_status {A} (m : ctl A) : keeps F m (fun _ => True) -> keeps F (status_of m) (fun _ => True).
Proof. intros Hm i h self Hh. eapply safe_bind; [by apply Hm|]. intros h1 [self1 r] [Hh1 Hp]. done. Qed.

(** A method that only touches the fields of the controller. *)
Lemma keeps_local {A} (m : ctl A) (Q : A -> Prop) :
  (forall self, exists self' r, m self = Ret (self', r) /\ forall a, r = Ok a -> Q a) -> keeps F m Q.
Proof. intros Hm i h self Hh. destruct (Hm self) as (self' & r & -> & Hr). done. Qed.

Lemma keeps_self {A} (f : TopologyController -> A) : keeps F (self f) (fun _ => True).
Proof. apply keeps_local. intros s. by eexists _, _. Qed.

Lemma keeps_update f : keeps F (update f) (fun _ => True).
Proof. apply keeps_local. intros s. by eexists _, _. Qed.

Lemma keeps_pure {A} (r : res A) (Q : A -> Prop) : (forall a, r = Ok a -> Q a) -> keeps F (pure r) Q.
Proof. intros Hr. apply keeps_local. intros s. by eexists _, _. Qed.

Lemma keeps_host {A} (f : nat -> A) : keeps F (host f) (fun _ => True).
Proof. apply keeps_local. intros s. by eexists _, _. Qed.

Lemma keeps_store {A} (p : prog (res A)) (Q : A -> Prop) :
  (forall i h, F h -> safe D i p (fun _ r => forall a, r = Ok a -> Q a) h) -> keeps F (store p) Q.
Proof.
  intros Hp i h self Hh. eapply safe_bind; [apply safe_extends; by apply Hp|]. intros h1 r [Hpre Hr]. cbn. split; [|done].
  by eapply lasting.
Qed.

Lemma keeps_confined {A} (p : prog (res A)) : confined (fun k => k <> key) p -> keeps F (store p) (fun _ => True).
Proof. intros Hp. apply keeps_store. intros i h _. eapply safe_mono; [|by apply confined_safe]. done. Qed.

Lemma keeps_weaken {A} (m : ctl A) (P Q : A -> Prop) : (forall a, P a -> Q a) -> keeps F m P -> keeps F m Q.
Proof. intros Hpq Hm i h self Hh. eapply safe_mono; [|by apply Hm]. cbn. intros h1 r [Hh1 Hr]. split; [done|]. auto. Qed.

Lemma keeps_trivial {A} (m : ctl A) (P : A -> Prop) : keeps F m P -> keeps F m (fun _ => True).
Proof. by apply keeps_weaken. Qed.

Lemma keeps_for_each {A} (f : A -> ctl unit) l : (forall x, keeps F (f x) (fun _ => True)) -> keeps F (for_each f l) (fun _ => True).
Proof. intros Hf. induction l as [|x l IH]; cbn [for_each]; [by apply keeps_done|]. apply keeps_seq; auto. Qed.
End keeps.
