(* ===== verification/ControllerSafety.v ===== *)
(** * Every method of the controller keeps the discipline

    Method by method, up to the whole loop: the topologies a controller writes
    continue the run of the machine, and its other writes go to other keys. *)

From coqutil Require Import Datatypes.RecordSetters.
From S2P Require Import Prelude Ordered TopologyTypes HashRing BalancedRing TokenPlacement HostPort KeyHelper Hasher.
From S2P Require Import RingTheory HashAlgorithm OwnerSpec PlanningInterface HashPlans Snapshot RepositoryCodec.
From S2P Require Import MembershipTypes MembershipCodec PlanBuilder TopologySafety EndpointView.
From S2P Require Import MemoryKvStore TtlManager WatchRegistry WatchDispatcher CoordinatorStore StoreProgram BackendInterface HistoryFrame.
From S2P Require Import TopologyRepository TopologyReader RepositoryTheory TaskMaterializer FailureClassifier SnapshotState JanitorClaims PublicationTheory.
From S2P Require Import ControllerTypes ControllerBatch ControllerFailure TopologyController TopologySteps ControllerHistory.

(** One step of a proof that a method keeps the discipline. *)
Create HintDb keeps.
Ltac keep_step :=
  lazymatch goal with
  | |- keeps _ _ _ ?m _ =>
      lazymatch m with
      | fail _ => apply keeps_fail
      | update _ => apply keeps_update
      | self _ => apply keeps_self
      | host _ => apply keeps_host
      | done _ => apply keeps_done; try exact I
      | pure _ => apply keeps_pure; intros; exact I
      | status_of _ => apply keeps_status
      | for_each _ _ => apply keeps_for_each; intros ?
      | andthen _ _ => apply keeps_seq; [|intros ?]
      | match _ with _ => _ end => case_match
      | let _ := _ in _ => cbv zeta
      | _ => solve [eauto 2 with keeps]
      end
  end.
Ltac keep := repeat keep_step.

Section safety.
Context `{RE2, SHA256, IPlanningAlgorithm, !PlanningLaws, StringHash}.
Context `{Protobuf ClusterTopologyPb, Protobuf MigrateTaskPb, Protobuf DeleteNodeTaskPb, Protobuf TaskNotifyPb}.
Context `{Protobuf WorkerServiceInfoPb, Protobuf WorkerProbeEventValuePb, MapIteration}.
Context `{!ExactParse ClusterTopologyPb, !MapIterationLaws, !EmptyValue ClusterTopologyPb default_ClusterTopologyPb}.
Context {lossy : bool} `{CoordinationBackend, !CoordinationBackendLaws lossy, !BackendFootprint}.
Context (name : string) (options_ : TopologyControllerOptions).

Abbreviation keys := (new_TopologyKeyHelper name).
Abbreviation D := (history_discipline (topology_key keys) topology_run).
Abbreviation keeps := (keeps (topology_key keys) topology_run).

(** ** Reading and writing the topology *)

Record good (latest : TopologySnapshot) : Prop := {
  gd_sound : sound_topology (state_ latest);
  gd_snapshot : snapshot_of (state_ latest) latest
}.

Lemma gd_inv latest : good latest -> topology_inv (state_ latest).
Proof. intros [Hs _]. apply encodable_inv; apply Hs. Qed.

Lemma gd_u32 latest : good latest -> state_u32 (state_ latest).
Proof. intros [Hs _]. apply Hs. Qed.

Lemma good_version latest : good latest -> 0 < Version latest <= INT64_MAX.
Proof. intros Hg. apply (ps_version _ (proj1 (snapshot_fixed _ _ (gd_snapshot _ Hg)))). Qed.

Lemma run_bounded : bounded topology_run.
Proof. intros h Hh. by apply version_chain_bounded, topology_run_chain. Qed.

Lemma BuildFromState_seen h st rev coord s : topology_run h -> h <> [] -> DecodeTopology (newest h) = Ok st ->
  BuildFromState st rev ∅ false coord = Ok s -> seen s h /\ good s.
Proof.
  intros Hr Hne Hd Hb. destruct (newest_last h Hne) as (v & a & Hl & Hn & Hpos). rewrite Hn in Hd.
  destruct (tr_entries _ Hr _ _ _ Hl) as (st0 & He & Hs & Hv).
  pose proof (DecodeTopology_exact st0 v st (so_u32 _ Hs) He Hd) as ->.
  pose proof (en_persistable _ (so_encodable _ Hs)) as Hps. apply sound_sort in Hs.
  unfold BuildFromState in Hb. apply bind_Ok in Hb as (canonical & _ & Hb). apply bind_Ok in Hb as (digest & _ & Hb).
  assert (Hsnap : snapshot_of (sort_members st0) s) by (unfold snapshot_of; eauto 10).
  assert (state_ s = sort_members st0) as E.
  { apply snapshot_of_inv in Hsnap as (Hp & ? & ? & ? & ? & ? & ? & ->). cbn.
    by apply (sort_members_perm st0 (ts_members (sort_members st0))); [apply sort_on_perm|]. }
  split.
  - exists (Nat.pred (length h)), v, a. rewrite E. split_and!; [done..|]. unfold Version. rewrite E. done.
  - split; by rewrite E.
Qed.

Lemma ReadTopologyOnly_safe timeout i h :
  safe D i (ReadTopologyOnly keys timeout) (fun h' r => forall s, r = Ok s -> seen s h' /\ good s) h.
Proof.
  unfold ReadTopologyOnly, ReadTopology.
  eapply safe_try with (Q := fun _ _ => True); [done| |done]. intros h0 [] _.
  eapply safe_try with (Q := fun h' r => forall st rev coord, r = Ok (st, rev, coord) ->
    topology_run h' /\ h' <> [] /\ DecodeTopology (newest h') = Ok st); [| |done].
  - eapply safe_try with (Q := fun _ _ => True); [done| |done]. intros h1 [] _.
    eapply safe_try; [apply be_Get_law, run_bounded| |done]. intros h2 r (_ & Hr & Hne & Hv).
    rewrite Hv. destruct (DecodeTopology (newest h2)) as [st|code] eqn:E; cbn; [|done]. intros st' rev coord [= <- <- <-]. done.
  - intros h1 [[st rev] coord] Hr. destruct (Hr _ _ _ eq_refl) as (Hrun & Hne & Hd). cbn.
    intros s Hs. by eapply BuildFromState_seen.
Qed.

Lemma read_keeps F `{!Lasting F} timeout : keeps F (store (ReadTopologyOnly keys timeout)) good.
Proof.
  apply keeps_store; [done|]. intros i h _. eapply safe_mono; [|apply ReadTopologyOnly_safe]. cbn. intros h' r Hr s Hs. by apply Hr.
Qed.

#[local] Instance seen_lasting latest : Lasting (seen latest).
Proof. intros h h'. apply seen_prefix. Qed.
#[local] Hint Resolve seen_lasting lasting_true : keeps.

(** A step of the machine from the topology the method works on may be written. *)
Lemma may_commit latest next rev v i : good latest -> steps_to (state_ latest) next -> EncodeTopology next = Ok v ->
  ts_version next = u64 (Version latest + 1) ->
  may_follow topology_run i {| rq_expectedVersion := Version latest; rq_desired := next; rq_expectedAuthorityRevision := rev |}
    (seen latest) v.
Proof.
  intros Hg [Hu' Hstep] He Hv h Hr Hs Hlen. pose proof (good_version _ Hg) as Hbound. pose proof (gd_inv _ Hg) as Hinv. cbn in Hlen.
  pose proof He as [Henc _]%EncodeTopology_iff; [|done]. specialize (Hstep Henc).
  eapply topology_run_next; [done|done|done| |done| |done].
  - split; [done..|]. apply (topology_step_single (state_ latest)); [exact (ti_single _ Hinv)|apply Henc|done].
  - rewrite Hv. apply u64_small. unfold INT64_MAX in Hbound. lia.
Qed.

Lemma CompareAndSwap_keeps latest next rev : good latest -> steps_to (state_ latest) next ->
  keeps (seen latest) (store (r ← CompareAndSwapTopology keys (Version latest) next rev;
                              Ret (match r.2 with Ok _ => Ok r.1 | Err code => Err code end))) (fun _ => True).
Proof.
  intros Hg Hst. apply keeps_store; [apply _|]. intros i h Hs.
  pose proof (good_version _ Hg) as Hbound.
  set (rq := {| rq_expectedVersion := Version latest; rq_desired := next; rq_expectedAuthorityRevision := rev |}).
  eapply safe_bind; [apply (CompareAndSwapTopology_safe keys topology_run topology_run_chain i rq (seen latest))|done].
  - intros h1 h2 Hrel. apply seen_prefix. by eapply rely_prefix.
  - intros _ h1 v _ Hs1 _. eapply seen_prefix; [|exact Hs1]. apply prefix_app_r. reflexivity.
  - cbn. unfold INT64_MAX in Hbound. lia.
  - done.
  - intros v He Hv. split; [apply Hst|]. by apply (may_commit latest next rev).
Qed.

Lemma PublishExternal_keeps F candidate full : keeps F (PublishExternalTopology candidate full) (fun _ => True).
Proof.
  apply keeps_local. intros s. unfold PublishExternalTopology. destruct (Publish _ _) as [[published rc] outcome].
  destruct rc; [by eexists _, _|]. case_match; [|by eexists _, _]. destruct (PublishAfterFullRebuild _ _). by eexists _, _.
Qed.
#[local] Hint Resolve PublishExternal_keeps : keeps.

Lemma Commit_keeps latest next rev : good latest -> steps_to (state_ latest) next ->
  keeps (seen latest) (CommitAndReadBack keys options_ (Version latest) next rev) (fun _ => True).
Proof.
  intros Hg Hst. unfold CommitAndReadBack. apply keeps_seq; [by apply CompareAndSwap_keeps|]. intros result.
  apply keeps_seq; [keep|intros _]. apply keeps_seq; [eapply keeps_trivial, read_keeps; apply _|intros committed].
  keep.
Qed.

Lemma initial_run v i : EncodeTopology {| ts_clusterHasInit := ts_clusterHasInit default_TopologyState; ts_version := 1;
    ts_members := ts_members default_TopologyState; ts_activeBatch := ts_activeBatch default_TopologyState;
    ts_tokensPerMember := ts_tokensPerMember default_TopologyState |} = Ok v -> topology_run [(v, i)].
Proof.
  set (st := {| ts_version := 1 |}). intros He.
  assert (Hu : state_u32 st) by (intros m Hm; by apply not_elem_of_nil in Hm).
  split.
  - intros [|[|]] w a [= <- <-]. exists st. split_and!; [done| |done]. split; [done| |].
    + by apply EncodeTopology_iff in He as [? _].
    + intros m m' Hm. by apply not_elem_of_nil in Hm.
  - by intros [|[|]].
Qed.

Lemma Ensure_keeps F `{!Lasting F} : keeps F (EnsureTopologyAuthority keys) (fun _ => True).
Proof.
  unfold EnsureTopologyAuthority. apply keeps_seq; [|intros; keep]. apply keeps_store; [apply _|]. intros i h _.
  set (initial := {| ts_version := 1 |}).
  set (rq := {| rq_expectedVersion := 0; rq_desired := initial; rq_expectedAuthorityRevision := 0 |}).
  eapply safe_bind; [apply (CompareAndSwapTopology_safe keys topology_run topology_run_chain i rq (fun _ => True))|done]; try done.
  intros v He Hv. split; [intros m Hm; by apply not_elem_of_nil in Hm|]. intros h1 _ _ Hlen. cbn in Hlen.
  destruct h1; [by apply initial_run|cbn in Hlen; lia].
Qed.

#[local] Hint Resolve Commit_keeps Ensure_keeps : keeps.

Lemma now_keeps F : keeps F (policy_now options_) (fun _ => True).
Proof. unfold policy_now. keep. Qed.
Lemma steady_keeps F : keeps F (steady_now options_) (fun _ => True).
Proof. unfold steady_now. keep. Qed.
#[local] Hint Resolve now_keeps steady_keeps : keeps.

(** ** Commits *)

Section commits.
Context (latest : TopologySnapshot) (Hlatest : good latest).
Abbreviation state := (state_ latest).

Lemma next_steps next : topology_step state next -> steps_to state next.
Proof. by apply steps_intro, gd_u32. Qed.

Lemma next_evolves next : evolves state next -> steps_to state next.
Proof. intros He. by apply next_steps, step_evolves. Qed.

Lemma CommitClusterShutdown_keeps : keeps (seen latest) (CommitClusterShutdown keys options_ latest) (fun _ => True).
Proof.
  unfold CommitClusterShutdown. cbv zeta. apply (keeps_andthen _ _ _ _ _ (steps_to state)); [|intros next Hst; keep].
  apply keeps_pure. intros next Hn. unfold BuildClusterShutdownFinal in Hn.
  apply bind_Ok in Hn as (u1 & _ & Hn). apply bind_Ok in Hn as (u2 & _ & [= <-]). by apply next_steps, step_replaced, emptied_replaced.
Qed.

Lemma CommitBatchFinal_keeps batch memberships : keeps (seen latest) (CommitBatchFinal keys options_ latest batch memberships) (fun _ => True).
Proof.
  unfold CommitBatchFinal, RememberQuarantinedReadyMembers. cbv zeta.
  apply (keeps_andthen _ _ _ _ _ (steps_to state)); [|intros next Hst; keep].
  apply keeps_pure. intros next Hn. apply next_evolves. destruct (ab_type batch).
  - by apply BuildScaleOutFinal_evolves.
  - by apply BuildScaleInFinal_evolves; [by apply gd_inv|].
  - by apply BuildFailureFinal_evolves; [by apply gd_inv|].
Qed.

Lemma CommitScaleOutExhaustion_keeps failed memberships :
  keeps (seen latest) (CommitScaleOutExhaustion keys options_ latest failed memberships) (fun _ => True).
Proof.
  unfold CommitScaleOutExhaustion, RememberQuarantinedReadyMembers. keep_step; [keep|]. keep_step; [keep|].
  apply (keeps_andthen _ _ _ _ _ (fun plan => steps_to state (tp_next plan))); [|intros plan Hst; keep].
  apply keeps_pure. intros plan Hp. apply next_evolves. by eapply BuildScaleOutReplan_evolves; [by apply gd_inv|].
Qed.
#[local] Hint Resolve CommitBatchFinal_keeps CommitScaleOutExhaustion_keeps CommitClusterShutdown_keeps : keeps.

(** *** Starts *)

Lemma PrepareBatchStartState_out participants : extended state (PrepareBatchStartState options_ latest participants SCALE_OUT).
Proof.
  unfold PrepareBatchStartState. cbv zeta. case_match; [apply extended_refl|].
  destruct (admit_loop state participants (ts_members state)) as [H1' H2']; [auto..|]. by split.
Qed.

Lemma PrepareBatchStartState_in participants :
  PrepareBatchStartState options_ latest participants SCALE_IN = state \/
  PrepareBatchStartState options_ latest participants SCALE_IN = set_members (pre_leave participants <$> ts_members state) state.
Proof. unfold PrepareBatchStartState. cbv zeta. case_match; [by left|by right]. Qed.

Lemma CommitBatchStart_keeps participants type bootstrap : type <> FAILURE -> (bootstrap = true -> type = SCALE_OUT) ->
  keeps (seen latest) (CommitBatchStart keys options_ latest participants type bootstrap) (fun _ => True).
Proof.
  intros Ht Hb. unfold CommitBatchStart. cbv zeta. apply (keeps_andthen _ _ _ _ _ (steps_to state)); [|intros next Hst; keep].
  pose proof (gd_inv _ Hlatest) as Hinv. apply keeps_pure. intros next Hn. apply next_evolves. destruct bootstrap.
  - rewrite Hb in Hn by done. by eapply BuildBootstrap_evolves; [|apply PrepareBatchStartState_out|].
  - destruct type; [| |done].
    + destruct (BuildScaleOutStart _ _) as [plan|] eqn:E; cbn in Hn; [|done]. injection Hn as <-.
      by eapply BuildScaleOutStart_evolves; [|apply PrepareBatchStartState_out|].
    + destruct (BuildScaleInStart _ _) as [plan|] eqn:E; cbn in Hn; [|done]. injection Hn as <-.
      by eapply BuildScaleInStart_evolves; [|apply PrepareBatchStartState_in|].
Qed.

Lemma ClearBatchCollectState_keeps type : keeps (seen latest) (ClearBatchCollectState type) (fun _ => True).
Proof. unfold ClearBatchCollectState. keep. Qed.
#[local] Hint Resolve ClearBatchCollectState_keeps : keeps.

Lemma UpdateBatchCollectState_keeps participants type now :
  keeps (seen latest) (UpdateBatchCollectState options_ participants type now) (fun _ => True).
Proof. unfold UpdateBatchCollectState. keep. Qed.

Lemma CollectMembershipFacts_keeps memberships :
  keeps (seen latest) (CollectMembershipFacts memberships) (fun r => forall record, record ∈ r.2 -> record ∈ memberships).
Proof.
  apply keeps_local. intros s. unfold CollectMembershipFacts.
  destruct (foldl fact_step _ _) as [[quarantined exiting] ready] eqn:E. eexists _, _. split; [done|].
  intros r [= <-] record. cbn [snd]. rewrite elem_of_sort_on. revert E.
  assert (Hgen : forall l acc q e r, foldl fact_step (q, e, acc) l = (quarantined, exiting, r) -> forall x, x ∈ r -> x ∈ acc \/ x ∈ l).
  { induction l as [|y l IH]; intros acc q e r; cbn [foldl]; [intros [= -> -> ->]; auto|]. unfold fact_step at 2.
    repeat case_match; intros Hl x Hx; destruct (IH _ _ _ _ Hl x Hx) as [Ha|Ha];
      rewrite ?elem_of_app, ?list_elem_of_singleton in Ha; rewrite elem_of_cons; tauto. }
  intros E Hx. destruct (Hgen _ _ _ _ _ E _ Hx) as [Hn|?]; [|done]. by apply not_elem_of_nil in Hn.
Qed.

Lemma CollectMembershipFacts_keeps' memberships : keeps (seen latest) (CollectMembershipFacts memberships) (fun _ => True).
Proof. eapply keeps_trivial, CollectMembershipFacts_keeps. Qed.
#[local] Hint Resolve UpdateBatchCollectState_keeps CollectMembershipFacts_keeps' : keeps.

Lemma CollectNextBatchCandidates_keeps memberships ids :
  keeps (seen latest) (CollectNextBatchCandidates options_ latest memberships ids) (fun _ => True).
Proof. unfold CollectNextBatchCandidates. keep. Qed.
#[local] Hint Resolve CollectNextBatchCandidates_keeps : keeps.

Lemma TryStartNextBatch_keeps memberships : keeps (seen latest) (TryStartNextBatch keys options_ latest memberships) (fun _ => True).
Proof. unfold TryStartNextBatch. keep; apply CommitBatchStart_keeps; done. Qed.
#[local] Hint Resolve TryStartNextBatch_keeps : keeps.

(** *** Failures *)

(** The members a classification erases never owned anything. *)
Definition erases_no_owner (c : FailureClassification) : Prop :=
  no_owner state (fc_removeInitial c) /\ no_owner state (fc_removeJoining c).

Lemma addresses_app (l l' : list MemberIdentity) a : a ∈ addresses_of (l ++ l') <-> a ∈ addresses_of l \/ a ∈ addresses_of l'.
Proof. rewrite !elem_of_addresses_of. setoid_rewrite elem_of_app. naive_solver. Qed.

Lemma failure_steps confirmed plan l l' : BuildFailureStartOrReplan state confirmed = Ok plan -> no_owner state l -> no_owner state l' ->
  steps_to state (EraseMembers l (EraseMembers l' (tp_next plan))).
Proof.
  intros Hp Hl Hl'. pose proof (gd_inv _ Hlatest) as Hinv. split.
  - intros m [[Hm _]%RemoveMembers_elem _]%RemoveMembers_elem. by eapply failure_next_u32; [|apply gd_u32| |].
  - intros He. apply step_evolves. eapply (BuildFailureStart_evolves _ confirmed plan (l ++ l')); [done|apply Hlatest|done| | |done].
    + intros i [Hi|Hi]%elem_of_app; auto.
    + intros m. unfold EraseMembers. rewrite !RemoveMembers_elem, addresses_app. tauto.
Qed.

Lemma ReleaseFailureReplanCoalesce_keeps : keeps (seen latest) ReleaseFailureReplanCoalesce (fun _ => True).
Proof. unfold ReleaseFailureReplanCoalesce. keep. Qed.
Lemma ShouldHoldFailureReplanCoalesce_keeps classification now :
  keeps (seen latest) (ShouldHoldFailureReplanCoalesce classification now) (fun _ => True).
Proof. unfold ShouldHoldFailureReplanCoalesce. keep. Qed.
#[local] Hint Resolve ReleaseFailureReplanCoalesce_keeps ShouldHoldFailureReplanCoalesce_keeps : keeps.

Lemma CommitConfirmedFailures_keeps classification rev : erases_no_owner classification ->
  keeps (seen latest) (CommitConfirmedFailures keys options_ latest classification rev) (fun _ => True).
Proof.
  intros [Hi Hj]. unfold CommitConfirmedFailures. destruct (CollectFailureCommitBatch _ _ _) as [confirmed retained].
  case_match; [keep|]. do 2 (keep_step; [keep|]). case_match; [keep|]. cbv zeta.
  apply (keeps_andthen _ _ _ _ _ (fun plan => BuildFailureStartOrReplan state confirmed = Ok plan));
    [by apply keeps_pure|intros plan Hp].
  keep_step; [apply Commit_keeps; [done|by apply (failure_steps confirmed)]|keep].
Qed.

Lemma cleanup_steps l : no_owner state l -> steps_to state (EraseMembers l (advance_version state)).
Proof.
  intros Hl. apply next_evolves. apply evolves_erase; [apply (ti_members _ (gd_inv _ Hlatest))| |done].
  by apply evolves_sub; [|auto].
Qed.

Lemma replan_steps failed plan l : BuildScaleOutReplan state failed = Ok plan -> no_owner state l ->
  steps_to state (EraseMembers l (tp_next plan)).
Proof.
  intros Hp Hl. apply next_evolves. pose proof (gd_inv _ Hlatest) as Hinv.
  apply evolves_erase; [apply Hinv|by eapply BuildScaleOutReplan_evolves|done].
Qed.

Lemma CommitUncommittedCleanup_keeps classification rev : erases_no_owner classification ->
  keeps (seen latest) (CommitUncommittedCleanup keys options_ latest classification rev) (fun _ => True).
Proof.
  intros [Hi Hj]. unfold CommitUncommittedCleanup. cbv zeta. pose proof (cleanup_steps _ Hi) as Hc.
  destruct (ts_activeBatch state) as [batch|] eqn:Eb; [|keep]. case_match; [keep|]. destruct (ab_type batch).
  - apply (keeps_andthen _ _ _ _ _ (fun plan => steps_to state (EraseMembers (fc_removeInitial classification) (tp_next plan))));
      [|intros plan Hst; keep]. apply keeps_pure. intros plan Hp. by eapply replan_steps.
  - keep.
  - apply (keeps_andthen _ _ _ _ _ (fun plan => steps_to state
      (EraseMembers (fc_removeInitial classification) (EraseMembers (fc_removeJoining classification) (tp_next plan)))));
      [|intros plan Hst; keep]. apply keeps_pure. intros plan Hp. by eapply failure_steps.
Qed.
#[local] Hint Resolve CommitConfirmedFailures_keeps CommitUncommittedCleanup_keeps : keeps.

(** *** Admission *)

Lemma ShouldApplyReadyScaleOutAdmission_keeps ready known :
  keeps (seen latest) (ShouldApplyReadyScaleOutAdmission options_ latest ready known) (fun _ => True).
Proof. unfold ShouldApplyReadyScaleOutAdmission. keep. Qed.

Lemma admission_steps limit ms' next : Forall2 retires (ts_members state) ms' ->
  (exists r ready changed, next = r.1.1 /\ ApplyReadyMembershipFacts limit (set_members ms' (advance_version state)) ready
     (list_to_set ((fun m => m_address m) <$> ts_members state)) changed = Ok r) \/
  next = set_members ms' (advance_version state) -> steps_to state next.
Proof.
  intros Hf Hn. apply next_evolves. destruct Hn as [(r & ready & changed & -> & Hr)| ->].
  - apply ApplyReady_facts in Hr as (new & -> & _ & Hnew). eapply (admission_evolves _ _ ms' new); [done|done|].
    intros i m Hi Hm E. destruct (Hnew i Hi) as [Hni _]. apply Hni, elem_of_list_to_set, list_elem_of_fmap. eauto.
  - apply (admission_evolves _ _ ms' []); [done|by rewrite app_nil_r|]. intros i m Hi. by apply not_elem_of_nil in Hi.
Qed.
#[local] Hint Resolve ShouldApplyReadyScaleOutAdmission_keeps : keeps.

Lemma CommitMembershipFacts_keeps memberships : keeps (seen latest) (CommitMembershipFacts keys options_ latest memberships) (fun _ => True).
Proof.
  unfold CommitMembershipFacts. case_match; [keep|]. keep_step; [keep|]. destruct a as [exiting ready]. cbv zeta.
  destruct (ApplyExiting_facts (maxMembersPerBatch options_) (advance_version state) exiting) as (ms' & Hn & Hf & Hk).
  destruct (ApplyExitingMembershipFacts _ _ _) as [[next known] leaving]. cbn [fst snd] in Hn, Hk. subst next known.
  keep_step; [keep|]. rename a into applies.
  apply (keeps_andthen _ _ _ _ _ (fun r => steps_to state r.1.1)).
  - apply keeps_pure. intros r Hr. apply (admission_steps (maxMembersPerBatch options_) ms'); [done|]. destruct applies.
    + left. exists r, ready, (length leaving). done.
    + injection Hr as <-. by right.
  - intros [[next joining] changed] Hst. cbn [fst] in Hst. keep.
Qed.
#[local] Hint Resolve CommitMembershipFacts_keeps : keeps.

(** ** Derived state *)

Lemma other_table table k : table = "/tasks/migrate" \/ table = "/tasks/delete" \/ table = "/notify" \/ table = "/probe" ->
  BuildPhysicalKey (root_of name +:+ table) k <> topology_key keys.
Proof. intros Ht E. apply (physical_key_inj name table "/topology") in E. destruct_or! Ht; by subst table. Qed.

Lemma TaskTable_other kind k : BuildPhysicalKey (TaskTable keys kind) k <> topology_key keys.
Proof. destruct kind; apply other_table; auto. Qed.

Lemma get_confined P table k : confined P (get_value table k).
Proof. apply issues_try; [|done]. eapply confined_mono; [|apply fp_Get]. done. Qed.

Lemma ReadTask_confined P kind id type epoch : confined P (ReadTask keys kind id type epoch).
Proof. apply issues_try; [done|]. intros k. apply issues_try; [apply get_confined|]. intros bytes. by apply issues_try. Qed.

Lemma CreateTaskIfAbsent_confined task : confined (fun k => k <> topology_key keys) (CreateTaskIfAbsent keys task).
Proof.
  unfold CreateTaskIfAbsent. destruct (EncodeTask task) as [[id kind] encoded]. apply issues_try; [done|]. intros bytes.
  apply issues_bind; [eapply confined_mono; [|apply fp_CAS]; cbn; intros k ->; apply TaskTable_other|].
  intros [[] [r|code]]; [done|]. apply issues_bind; [apply get_confined|]. intros [v|c]; [by cbn; case_match|done].
Qed.

Lemma RewriteEncodedNotify_confined address bytes : confined (fun k => k <> topology_key keys) (RewriteEncodedNotify keys address bytes).
Proof.
  apply issues_try; [done|]. intros key.
  apply issues_bind; [eapply confined_mono; [|apply fp_CAS]; cbn; intros k ->; apply (other_table "/notify"); auto|].
  intros [[] [r|code]]; [done|]. assert (Hres : confined (fun k => k <> topology_key keys) (ResolveExactWrite (notifyTable_ keys) key bytes code)).
  { apply issues_bind; [apply get_confined|]. by intros [v|c]. }
  by destruct code.
Qed.

Lemma derived_operation_keeps expected index : keeps (seen latest) (derived_operation keys expected index) (fun _ => True).
Proof.
  unfold derived_operation. case_match; [apply keeps_confined; [apply _|apply CreateTaskIfAbsent_confined]|]. case_match; [|keep].
  keep_step; [keep|]. apply keeps_confined; [apply _|apply RewriteEncodedNotify_confined].
Qed.

Lemma within_budget_keeps startedAt : keeps (seen latest) (within_budget options_ startedAt) (fun _ => True).
Proof. unfold within_budget. keep. Qed.
#[local] Hint Resolve derived_operation_keeps within_budget_keeps : keeps.

Lemma derived_loop_keeps remaining operations startedAt expected :
  keeps (seen latest) (derived_loop keys options_ remaining operations startedAt expected) (fun _ => True).
Proof. revert operations. induction remaining as [|n IH]; intros operations; cbn [derived_loop]; keep. Qed.
#[local] Hint Resolve derived_loop_keeps : keeps.

Lemma ReconcileDerivedState_keeps memberships : keeps (seen latest) (ReconcileDerivedState keys options_ latest memberships) (fun _ => True).
Proof. unfold ReconcileDerivedState, PrepareDerivedGeneration, ReconcileDerivedSlice. keep. Qed.

(** ** Progress *)

Lemma read_task_keeps batch task : keeps (seen latest) (store (read_task keys batch task)) (fun _ => True).
Proof. apply keeps_confined; [apply _|apply ReadTask_confined]. Qed.
#[local] Hint Resolve read_task_keeps : keeps.

Lemma progress_loop_keeps remaining visited reads start startedAt batch tasks :
  keeps (seen latest) (progress_loop keys options_ remaining visited reads start startedAt batch tasks) (fun _ => True).
Proof.
  revert visited reads. induction remaining as [|n IH]; intros visited reads; cbn [progress_loop]; keep.
Qed.
#[local] Hint Resolve progress_loop_keeps : keeps.

Lemma TryFinalizeActiveBatch_keeps memberships : keeps (seen latest) (TryFinalizeActiveBatch keys options_ latest memberships) (fun _ => True).
Proof.
  unfold TryFinalizeActiveBatch, InspectBatchProgress, RefreshTaskProgressCache, CollectFailedJoining, CommitExpiredBatch. keep.
Qed.
#[local] Hint Resolve ReconcileDerivedState_keeps TryFinalizeActiveBatch_keeps : keeps.

(** ** Evidence of failures *)

Lemma classifier_keeps F f : keeps F (change_classifier f) (fun _ => True).
Proof. unfold change_classifier. keep. Qed.
#[local] Hint Resolve classifier_keeps : keeps.

Lemma ReadMemberships_keeps F `{!Lasting F} : keeps F (store (ReadMemberships keys)) (fun _ => True).
Proof.
  apply keeps_confined; [done|]. apply issues_try; [eapply confined_mono; [|apply fp_GetAll]; done|]. intros r. by apply issues_try.
Qed.

Lemma PublishWitnessProbeEvent_keeps witness round : keeps (seen latest) (PublishWitnessProbeEvent keys options_ witness round) (fun _ => True).
Proof.
  unfold PublishWitnessProbeEvent. keep_step; [keep|]. keep_step; [keep|]. apply keeps_confined; [apply _|].
  apply issues_try; [done|]. intros key. apply issues_bind; [|done].
  eapply confined_mono; [|apply fp_CAS]. cbn. intros k ->. apply (other_table "/probe"); auto.
Qed.
#[local] Hint Resolve ReadMemberships_keeps PublishWitnessProbeEvent_keeps : keeps.

Lemma StartWitnessProbeRound_keeps witnesses target : keeps (seen latest) (StartWitnessProbeRound keys options_ witnesses target) (fun _ => True).
Proof. unfold StartWitnessProbeRound. keep. Qed.
#[local] Hint Resolve StartWitnessProbeRound_keeps : keeps.

Lemma RefreshWitnessProbes_keeps memberships classification :
  keeps (seen latest) (RefreshWitnessProbes keys options_ latest memberships classification) (fun _ => True).
Proof. unfold RefreshWitnessProbes, start_if_new. keep. Qed.

Lemma erases_set_confirmed l c : erases_no_owner c -> erases_no_owner (set_confirmed l c).
Proof. done. Qed.

Lemma ApplyWitnessFailureGate_keeps classification : erases_no_owner classification ->
  keeps (seen latest) (ApplyWitnessFailureGate options_ classification) erases_no_owner.
Proof. intros Hc. unfold ApplyWitnessFailureGate. by keep. Qed.

Lemma ConfirmMissingMembersUnreachable_keeps classification : erases_no_owner classification ->
  keeps (seen latest) (ConfirmMissingMembersUnreachable keys options_ latest classification) erases_no_owner.
Proof. intros Hc. unfold ConfirmMissingMembersUnreachable. by keep. Qed.

Lemma ProbeActiveFailureCandidates_keeps targets : keeps (seen latest) (ProbeActiveFailureCandidates options_ targets) (fun _ => True).
Proof.
  unfold ProbeActiveFailureCandidates, PrepareActiveFailureProbeRound, ResolveActiveFailureControlEpoch,
    ResetActiveFailureProbeAuthorityState, ApplyActiveFailureProbeResults. keep.
Qed.
#[local] Hint Resolve RefreshWitnessProbes_keeps ProbeActiveFailureCandidates_keeps : keeps.

Lemma found_member a m : FindMemberByAddress a latest = Ok m -> m ∈ ts_members state /\ m_address m = a.
Proof. intros Hf. pose proof (FindMemberByAddress_spec _ _ a (gd_snapshot _ Hlatest)) as Hs. by rewrite Hf in Hs. Qed.

Lemma confirm_loop l c fenced : erases_no_owner c -> erases_no_owner (foldl (confirm_step latest) (c, fenced) l).1.
Proof.
  revert c fenced. induction l as [|i l IH]; intros c fenced Hc; cbn [foldl]; [done|]. unfold confirm_step at 2.
  destruct (FindMemberByAddress (mi_address i) latest) as [m|] eqn:Ef; [|by apply IH]. apply IH.
  case_decide as Hs; [|by case_decide]. apply found_member in Ef as [Hm Ha]. destruct Hc as [Hi Hj]. split; [done|].
  intros x [Hx|Hx]%elem_of_app; [by apply Hj|]. apply list_elem_of_singleton in Hx as ->. exists m. auto.
Qed.

Lemma summary_failures_keeps memberships classification : erases_no_owner classification ->
  keeps (seen latest) (summary_failures options_ latest memberships classification) (fun r => erases_no_owner r.1.1).
Proof.
  intros Hc. unfold summary_failures. destruct (failureSummaryCandidateProvider options_); [|by keep].
  keep_step; [keep|]. keep_step; [keep|]. cbv zeta. keep_step; [keep|]. destruct a1 as [confirmed epoch].
  pose proof (confirm_loop confirmed classification [] Hc) as Hl. destruct (foldl _ _ _) as [c fenced]. by keep.
Qed.

Lemma Observe_erases memberships now c cl : (Observe latest memberships now c).2 = Ok cl -> erases_no_owner cl.
Proof.
  unfold Observe. case_match; [done|]. destruct (collect_addresses _) as [present|]; [|done].
  assert (Hgen : forall l timers obs retained, (forall m, m ∈ l -> m ∈ ts_members state) -> erases_no_owner obs ->
    erases_no_owner (foldl (observe_member (nodeDeadTimeout_ (Resume now c)) now present) (timers, obs, retained) l).1.2).
  { induction l as [|m l IH]; intros timers obs retained Hl Ho; cbn [foldl]; [done|]. unfold observe_member at 2.
    assert (Hm : m ∈ ts_members state) by (apply Hl; left). assert (Hl' : forall x, x ∈ l -> x ∈ ts_members state) by (intros; apply Hl; by right).
    destruct Ho as [Hi Hj]. repeat case_decide; try (by apply IH).
    - case_match; by apply IH.
    - apply IH; [done|]. split; [|done]. intros x [Hx|Hx]%elem_of_app; [by apply Hi|]. apply list_elem_of_singleton in Hx as ->.
      exists m. auto.
    - apply IH; [done|]. split; [done|]. intros x [Hx|Hx]%elem_of_app; [by apply Hj|]. apply list_elem_of_singleton in Hx as ->.
      exists m. auto.
    - destruct (start_timer _ _ _) as [[? ?] ?]. by apply IH. }
  specialize (Hgen (Members latest) (missingSince_ (Resume now c)) empty_classification []).
  destruct (foldl _ _ _) as [[timers obs] retained]. cbn [fst snd] in *. intros [= <-].
  apply Hgen; [done|]. split; intros i Hi; by apply not_elem_of_nil in Hi.
Qed.

Lemma observe_keeps {A} (f : TopologyFailureClassifier -> TopologyFailureClassifier * res A) (Q : A -> Prop) :
  (forall c a, (f c).2 = Ok a -> Q a) -> keeps (seen latest) (observe f) Q.
Proof.
  intros Hf. apply keeps_local. intros s. unfold observe. specialize (Hf (failureClassifier_ s)).
  destruct (f (failureClassifier_ s)) as [c r]. by eexists _, _.
Qed.

(** *** Replacement *)

Lemma ResetCollectiveProbeProgress_keeps F : keeps F ResetCollectiveProbeProgress (fun _ => True).
Proof. unfold ResetCollectiveProbeProgress. keep. Qed.
Lemma SummarizeCollectiveReadyMemberships_keeps memberships :
  keeps (seen latest) (SummarizeCollectiveReadyMemberships options_ memberships) (fun _ => True).
Proof. unfold SummarizeCollectiveReadyMemberships. keep. Qed.
#[local] Hint Resolve ResetCollectiveProbeProgress_keeps SummarizeCollectiveReadyMemberships_keeps : keeps.

(** The replacement holds the ready members only. *)
Lemma replacement_replaced ready next : replacement_topology options_ latest ready = Ok next ->
  (forall r m, r ∈ ready -> m ∈ ts_members state -> PlanningInterface.committed m = true -> mr_address r <> m_address m) -> replaced state next.
Proof.
  intros Hn Hready. unfold replacement_topology in Hn. cbv zeta in Hn.
  apply bind_Ok in Hn as ([[empty new] changed] & Ha & Hb). apply ApplyReady_facts in Ha as (new' & He & Hne & Hnew).
  cbn [fst snd] in He, Hne. subst new' empty. unfold BuildBootstrap in Hb. apply bind_Ok in Hb as (u1 & _ & Hb).
  apply bind_Ok in Hb as (u2 & _ & Hb). apply bind_Ok in Hb as (built & Hi%law_initial & Hb). apply bind_Ok in Hb as (u3 & _ & [= <-]).
  destruct Hi as [Hnext _ _ Hperm Hact _]. set (others := List.filter _ _).
  assert (Hm : forall m, m ∈ ts_members (tp_next built) ++ others -> m ∈ ts_members (tp_next built)).
  { intros m [Hm|Hm]%elem_of_app; [done|]. apply elem_of_filter_bool in Hm as [Hin Hno%bool_decide_eq_true].
    cbn [ts_members set_members set_version_batch app] in Hin. apply list_elem_of_fmap in Hin as (i & -> & Hi).
    destruct Hno. apply elem_of_addresses_of. eauto. }
  split; cbn [set_clusterHasInit set_version_batch set_members ts_members ts_activeBatch].
  - by rewrite Hnext.
  - intros m' Hm'%Hm. destruct (Hact m' Hm') as (Hs & Hc & Hd). split_and!; try done; by rewrite Hc.
  - intros m m' Hin Hc Hm'%Hm E. assert (Hi : m_identity m' ∈ new) by (rewrite <-Hperm; by apply list_elem_of_fmap_2).
    destruct (Hnew _ Hi) as (_ & r & Hr & Har). apply (Hready r m Hr Hin Hc). by rewrite Har, <-E.
Qed.

Lemma names_committed_true r m : m ∈ ts_members state -> PlanningInterface.committed m = true -> mr_address r = m_address m ->
  names_committed latest r = true.
Proof.
  intros Hm Hc Ha. unfold names_committed. pose proof (FindMemberByAddress_spec _ _ (mr_address r) (gd_snapshot _ Hlatest)) as Hs.
  destruct (FindMemberByAddress _ _) as [x|]; [|by destruct Hs as [_ Hs]; destruct (Hs m Hm)].
  destruct Hs as [Hx Hax]. assert (x = m) as ->.
  { eapply (address_inj (ts_members state)); [apply (ti_members _ (gd_inv _ Hlatest))|done..|congruence]. }
  unfold PlanningInterface.committed, IsCommittedMemberState in Hc. by destruct (m_state m).
Qed.

Lemma run_fence_keeps decision mutation : (forall rev, keeps (seen latest) (mutation rev) (fun _ => True)) ->
  keeps (seen latest) (run_fence decision mutation) (fun _ => True).
Proof. intros Hm. unfold run_fence. keep. Qed.
#[local] Hint Resolve run_fence_keeps : keeps.

Lemma fenced_replacement_keeps commit : keeps (seen latest) commit (fun _ => True) ->
  keeps (seen latest) (fenced_replacement options_ commit) (fun _ => True).
Proof. intros Hm. unfold fenced_replacement. keep. Qed.

Lemma BootstrapCollectiveReplacement_keeps : keeps (seen latest) (BootstrapCollectiveReplacement keys options_ latest) (fun _ => True).
Proof.
  unfold BootstrapCollectiveReplacement. keep_step; [keep|]. destruct a as [[exact rev]|code]; [|keep].
  keep_step; [keep|]. destruct a as [count owner]. cbv zeta. keep_step; [keep|]. keep_step; [keep|].
  destruct (is_empty (List.filter (names_committed latest) exact)) eqn:Eo; cbn [negb orb]; [|keep].
  case_match; [keep|].
  apply (keeps_andthen _ _ _ _ _ (fun r => forall record, record ∈ r.2 -> record ∈ exact)); [apply CollectMembershipFacts_keeps|].
  intros [exiting ready] Hready. cbn [snd] in Hready.
  apply (keeps_andthen _ _ _ _ _ (steps_to state)).
  - apply keeps_pure. intros next Hn. apply next_steps, step_replaced, (replacement_replaced ready); [done|].
    intros r m Hr Hm Hc Ha. assert (Hf : r ∈ List.filter (names_committed latest) exact).
    { apply elem_of_filter_bool. split; [auto|]. by apply (names_committed_true r m). }
    destruct (List.filter _ _); [by apply not_elem_of_nil in Hf|done].
  - intros next Hst. keep_step; [|keep]. apply keeps_status. apply fenced_replacement_keeps. keep.
Qed.
#[local] Hint Resolve BootstrapCollectiveReplacement_keeps : keeps.

Lemma HandleCollectiveMembershipAbsence_keeps memberships samples missing :
  keeps (seen latest) (HandleCollectiveMembershipAbsence keys options_ latest memberships samples missing) (fun _ => True).
Proof. unfold HandleCollectiveMembershipAbsence, PrepareCollectiveProbeContext, ProbeCollectiveSample. keep. Qed.
#[local] Hint Resolve HandleCollectiveMembershipAbsence_keeps : keeps.

(** ** The decision *)

Lemma fenced_commit_keeps memberships epoch fenced commit : (forall rev, keeps (seen latest) (commit rev) (fun _ => True)) ->
  keeps (seen latest) (fenced_commit options_ latest memberships epoch fenced commit) (fun _ => True).
Proof. intros Hc. unfold fenced_commit. keep. Qed.

Lemma commit_classified_keeps memberships classification fenced epoch : erases_no_owner classification ->
  keeps (seen latest) (commit_classified keys options_ latest memberships classification fenced epoch) (fun _ => True).
Proof.
  intros Hc. unfold commit_classified. case_match; [apply fenced_commit_keeps; intros rev; keep|].
  case_match; [apply fenced_commit_keeps; intros rev; keep|keep].
Qed.

Lemma TryConfirmFailures_keeps memberships : keeps (seen latest) (TryConfirmFailures keys options_ latest memberships) (fun _ => True).
Proof.
  unfold TryConfirmFailures, ObserveMembershipRestarts. cbv zeta. keep_step; [keep|]. case_match; [keep|]. case_match.
  - do 2 (keep_step; [keep|]). keep_step; [|keep]. by apply observe_keeps.
  - keep_step; [keep|].
    apply (keeps_andthen _ _ _ _ _ erases_no_owner); [apply observe_keeps; intros c cl; apply Observe_erases|]. intros c1 Hc1.
    do 2 (keep_step; [keep|]).
    apply (keeps_andthen _ _ _ _ _ erases_no_owner); [by apply ConfirmMissingMembersUnreachable_keeps|]. intros c2 Hc2.
    apply (keeps_andthen _ _ _ _ _ erases_no_owner); [case_match; [by apply ApplyWitnessFailureGate_keeps|by keep]|]. intros c3 Hc3.
    apply (keeps_andthen _ _ _ _ _ (fun r => erases_no_owner r.1.1)); [by apply summary_failures_keeps|].
    intros [[c4 fenced] epoch] Hc4. by apply commit_classified_keeps.
Qed.
#[local] Hint Resolve TryConfirmFailures_keeps : keeps.

Lemma RestoreReady_keeps memberships : keeps (seen latest) (RestoreReadyAfterLocalRecovery options_ latest memberships) (fun _ => True).
Proof. unfold RestoreReadyAfterLocalRecovery. keep. Qed.
#[local] Hint Resolve RestoreReady_keeps : keeps.

(** The part of a tick after the facts were read. *)
Definition work (memberships : list MembershipRecord) : ctl unit :=
  _ ↞ update (fun self => self{{activeBatchObserved_ := has_value (ts_activeBatch (state_ latest))}});
  _ ↞ RestoreReadyAfterLocalRecovery options_ latest memberships;
  _ ↞ TryConfirmFailures keys options_ latest memberships;
  committed ↞ self topologyCommittedThisTick_;
  if (committed : bool) then done tt
  else
    _ ↞ ReconcileDerivedState keys options_ latest memberships;
    _ ↞ TryFinalizeActiveBatch keys options_ latest memberships;
    committed ↞ self topologyCommittedThisTick_;
    if (committed : bool) then done tt
    else TryStartNextBatch keys options_ latest memberships.

Lemma work_keeps memberships : keeps (seen latest) (work memberships) (fun _ => True).
Proof. unfold work. keep. Qed.
End commits.

(** ** Ticks *)

(** A method that returns a topology of the history. *)
Definition yields {A} (m : ctl A) (Q : history -> A -> Prop) : Prop := forall i h self,
  safe D i (m self) (fun h' r => forall a, r.2 = Ok a -> Q h' a) h.

Definition current (h : history) (latest : TopologySnapshot) : Prop := seen latest h /\ good latest.

Lemma yields_andthen {A B} (m : ctl A) (f : A -> ctl B) P Q : yields m P ->
  (forall a i h self, P h a -> safe D i (f a self) (fun h' r => forall b, r.2 = Ok b -> Q h' b) h) -> yields (andthen m f) Q.
Proof. intros Hm Hf i h self. eapply safe_bind; [apply Hm|]. intros h1 [self1 [a|code]] Hp; cbn [fst snd] in *; [apply Hf; auto|done]. Qed.

Lemma yields_keeps {A} (m : ctl A) : keeps (fun _ => True) m (fun _ => True) -> yields m (fun _ _ => True).
Proof. intros Hm i h self. eapply safe_mono; [|by apply Hm]. done. Qed.

Lemma yields_seq {A B} (m : ctl A) (f : A -> ctl B) Q : keeps (fun _ => True) m (fun _ => True) ->
  (forall a, yields (f a) Q) -> yields (andthen m f) Q.
Proof. intros Hm Hf. eapply yields_andthen; [by apply yields_keeps|]. intros a i h self _. apply Hf. Qed.

Lemma yields_status {A} (m : ctl A) P : yields m P -> yields (status_of m) (fun h r => forall a, r = Ok a -> P h a).
Proof. intros Hm i h self. eapply safe_bind; [apply Hm|]. intros h1 [self1 r] Hp. cbn. by intros a [= <-]. Qed.

Lemma yields_read : yields (store (ReadTopologyOnly keys CONTROLLER_READ_TIMEOUT_MS)) current.
Proof. intros i h self. eapply safe_bind; [apply ReadTopologyOnly_safe|]. intros h1 r Hr. cbn. done. Qed.

Lemma read_topology_yields : yields (read_topology keys) current.
Proof.
  unfold read_topology. eapply yields_andthen; [apply yields_status, yields_read|]. intros r i h self Hr.
  assert (Hagain : yields (andthen (EnsureTopologyAuthority keys) (fun _ => store (ReadTopologyOnly keys CONTROLLER_READ_TIMEOUT_MS))) current)
    by (apply yields_seq; [apply Ensure_keeps; apply _|intros; apply yields_read]).
  destruct r as [s|code]; [cbn; intros s' [= <-]; by apply Hr|]. by destruct code.
Qed.

Lemma or_pause_yields {A} (m : ctl A) P : yields m P -> yields (or_pause options_ m) P.
Proof.
  intros Hm. unfold or_pause. eapply yields_andthen; [by apply yields_status|]. intros r i h self Hr.
  destruct r as [a|code]; [cbn; intros a' [= <-]; by apply Hr|done].
Qed.

Lemma or_pause_keeps {A} F (m : ctl A) : keeps F m (fun _ => True) -> keeps F (or_pause options_ m) (fun _ => True).
Proof. intros Hm. unfold or_pause, change_classifier, policy_now. keep. Qed.

Context (Hmode : eventSourceMode options_ <> EXTERNAL_ETCD).

Lemma read_facts_yields : yields (read_facts keys options_) (fun h r => current h r.1).
Proof.
  unfold read_facts. rewrite bool_decide_false by done. eapply yields_andthen; [apply or_pause_yields, read_topology_yields|].
  intros latest i h self [Hs Hg]. eapply safe_bind.
  - apply (or_pause_keeps (seen latest)); [|done]. apply ReadMemberships_keeps, _.
  - intros h1 [self1 [[memberships rev]|code]] [Hs1 _]; cbn; [|done]. intros r [= <-]. done.
Qed.

Lemma RecoverFromLatestTopology_keeps : keeps (fun _ => True) (RecoverFromLatestTopology keys options_) (fun _ => True).
Proof.
  enough (yields (RecoverFromLatestTopology keys options_) (fun _ _ => True)) as Hy
    by (intros i h self _; eapply safe_mono; [|apply Hy]; done).
  unfold RecoverFromLatestTopology. apply yields_seq; [keep|intros _].
  eapply yields_andthen; [apply read_facts_yields|]. intros [latest memberships] i h self [Hs Hg]. cbn [fst] in *.
  eapply safe_mono; [|apply (work_keeps latest Hg memberships i h self Hs)]. done.
Qed.

Lemma Consume_keeps event : keeps (fun _ => True) (ConsumeRuntimeEvent keys options_ event) (fun _ => True).
Proof.
  unfold ConsumeRuntimeEvent. rewrite bool_decide_false by done. cbn [negb].
  destruct event; [unfold ApplyWorkerLivenessReport|..]; keep.
Qed.

Lemma Run_iteration_keeps popped resync : keeps (fun _ => True) (Run_iteration keys options_ popped resync) (fun _ => True).
Proof.
  pose proof RecoverFromLatestTopology_keeps as Hrec. pose proof Consume_keeps as Hcon.
  unfold Run_iteration, ReconcileOnce, WaitForReconcile, DrainMembershipRestarts, deliver_restart. keep.
Qed.

Lemma Run_keeps inputs : keeps (fun _ => True) (Run keys options_ inputs) (fun _ => True).
Proof. pose proof Run_iteration_keeps. unfold Run. keep. Qed.
End safety.
