(* ===== verification/ControllerClaims.v ===== *)
(** * Properties of the topology controller *)

From coqutil Require Import Datatypes.RecordSetters.
From S2P Require Import Prelude Ordered TopologyTypes HashRing BalancedRing TokenPlacement HostPort KeyHelper Hasher.
From S2P Require Import RingTheory HashAlgorithm OwnerSpec PlanningInterface HashPlans Snapshot RepositoryCodec CodecClaims.
From S2P Require Import MembershipTypes MembershipCodec PlanBuilder TopologySafety EndpointView.
From S2P Require Import MemoryKvStore TtlManager WatchRegistry WatchDispatcher CoordinatorStore StoreProgram BackendInterface HistoryFrame.
From S2P Require Import StoreBackend BackendTheory TopologyRepository TopologyReader RepositoryTheory RepositoryClaims.
From S2P Require Import TaskMaterializer FailureClassifier SnapshotState.
From S2P Require Import ControllerTypes ControllerBatch ControllerFailure TopologyController TopologySteps ControllerHistory ControllerSafety.

(** ** Any number of controllers on one store *)

(** A controller process: its options, its instance and the events of each iteration of its loop. *)
Record ControllerProcess := {
  cp_options : TopologyControllerOptions; cp_instanceId : Z; cp_inputs : list (res (list RuntimeEvent) * bool)
}.

Section claims.
Context `{RE2, SHA256, IPlanningAlgorithm, !PlanningLaws, StringHash}.
Context `{Protobuf ClusterTopologyPb, Protobuf MigrateTaskPb, Protobuf DeleteNodeTaskPb, Protobuf TaskNotifyPb}.
Context `{Protobuf WorkerServiceInfoPb, Protobuf WorkerProbeEventValuePb, MapIteration}.
Context `{!ExactParse ClusterTopologyPb, !MapIterationLaws, !EmptyValue ClusterTopologyPb default_ClusterTopologyPb}.
Context {lossy : bool} `{CoordinationBackend, !CoordinationBackendLaws lossy, !BackendFootprint}.
Context (name : string).

Abbreviation keys := (new_TopologyKeyHelper name).

Definition start_controller (c : ControllerProcess) : prog (TopologyController * res unit) :=
  Run keys (cp_options c) (cp_inputs c) (new_TopologyController (cp_options c) (cp_instanceId c)).

(** The modes in which the topology is read from the store. *)
Definition reads_store (c : ControllerProcess) : Prop := eventSourceMode (cp_options c) <> EXTERNAL_ETCD.

(** Controllers start, run and interleave with anything that leaves the topology key alone. *)
Definition controlled (p : Pointers) : @Pool ControllerProcess (TopologyController * res unit) -> Prop :=
  rtc (pool_step start_controller reads_store (untouched (topology_key keys))) (StoreProgram.start p).

Lemma topology_run_inv h : topology_run h -> forall j v a st, h !! j = Some (v, a) -> DecodeTopology v = Ok st ->
  topology_inv st /\ ts_version st = Z.of_nat j + 1.
Proof.
  intros Hrun j v a st Hj Hd. destruct (tr_entries _ Hrun j v a Hj) as (st0 & Hv & Hs0 & Hver).
  rewrite (DecodeTopology_exact st0 v st (so_u32 _ Hs0) Hv Hd). apply sound_sort in Hs0. split; [|done].
  apply encodable_inv; apply Hs0.
Qed.

Lemma controllers_sound p w : store_ok p -> stored p (topology_key keys) = None -> controlled p w ->
  exists h, tracks (topology_key keys) h (pool_store w) /\ topology_run h.
Proof.
  intros Hok Hs Hw.
  destruct (pool_sound (history_discipline (topology_key keys) topology_run) start_controller reads_store
    (untouched (topology_key keys)) (fun _ _ _ _ => True)) with (s := p) (g := @nil (string * nat)) (w := w)
    as (h & (_ & Ht & Hr) & _); try done.
  - intros i c h Hc _. eapply safe_mono; [|apply (Run_keeps name (cp_options c) Hc (cp_inputs c)); done]. done.
  - intros h p1 p2. apply untouched_inv.
  - intros i. constructor.
  - by exists h.
Qed.

(** C1: whatever the interleaving of any number of controllers in the modes that read
    the store, whatever their hosts, probes and clocks answer and whatever else
    happens to the store besides the topology key, the topologies ever stored are a
    run of the lifecycle: each is a valid topology whose version is its position,
    and each follows from the one before by a step in which members keep their
    identity and tokens while they move along INITIAL, JOINING, ACTIVE,
    PRE_LEAVING, LEAVING or fail, new members are placed with tokens derived from
    their address, and only members that own nothing disappear; or by a shutdown
    or replacement that keeps none of the owners. *)
Theorem topology_follows_lifecycle p w : store_ok p -> stored p (topology_key keys) = None -> controlled p w ->
  exists h, tracks (topology_key keys) h (pool_store w) /\
    (forall j v a st, h !! j = Some (v, a) -> DecodeTopology v = Ok st ->
       topology_inv st /\ ts_version st = Z.of_nat j + 1) /\
    (forall j v a v' a' st st', h !! j = Some (v, a) -> h !! S j = Some (v', a') ->
       DecodeTopology v = Ok st -> DecodeTopology v' = Ok st' -> topology_step st st').
Proof.
  intros Hok Hs Hw. destruct (controllers_sound p w Hok Hs Hw) as (h & Ht & Hrun). exists h. split_and!; [done| |apply Hrun].
  intros j v a st. by apply topology_run_inv.
Qed.

(** C2: no owner is dropped.  Between any two versions of the topology stored by any
    number of interleaved controllers, a member that owns tokens is still there
    with the same tokens, unless in between it had failed, or was leaving in a
    scale-in batch, or the cluster was shut down or replaced. *)
Theorem owners_never_vanish p w : store_ok p -> stored p (topology_key keys) = None -> controlled p w ->
  exists h, tracks (topology_key keys) h (pool_store w) /\
    forall (states : nat -> TopologyState) i n m,
      (forall j, (i <= j <= i + n)%nat -> exists v a, h !! j = Some (v, a) /\ DecodeTopology v = Ok (states j)) ->
      m ∈ ts_members (states i) -> owns m ->
      (exists m', m' ∈ ts_members (states (i + n)%nat) /\ m_identity m' = m_identity m /\ m_tokens m' = m_tokens m /\ owns m') \/
      exists j, (i <= j < i + n)%nat /\ departs (m_identity m) (states j) (states (S j)).
Proof.
  intros Hok Hs Hw. destruct (controllers_sound p w Hok Hs Hw) as (h & Ht & Hrun). exists h. split; [done|].
  intros states i n m Hst. apply owner_run.
  - intros j Hj. destruct (Hst j Hj) as (v & a & Hl & Hd). by apply (topology_run_inv h Hrun j v a).
  - intros j Hj. destruct (Hst j ltac:(lia)) as (v & a & Hl & Hd), (Hst (S j) ltac:(lia)) as (v' & a' & Hl' & Hd').
    by apply (tr_steps _ Hrun j v a v' a').
Qed.
End claims.

(** ** Witnesses: two controllers bootstrap a cluster of one worker *)

Import HashPlans.Demo ReferenceEngine ReferenceWire ReferenceDigest.
#[export] Instance probe_eq_dec : EqDecision WorkerProbeEventValuePb.
Proof. solve_decision. Defined.
#[export] Instance probe_countable : Countable WorkerProbeEventValuePb :=
  inj_countable' (fun m => (wpe_cluster_name m, wpe_probe_round m, wpe_target_address m, wpe_target_member_id m, wpe_coordinator_id m))
    (fun x => {| wpe_cluster_name := x.1.1.1.1; wpe_probe_round := x.1.1.1.2; wpe_target_address := x.1.1.2;
                 wpe_target_member_id := x.1.2; wpe_coordinator_id := x.2 |}) ltac:(by intros []).

#[export] Instance length_hash : StringHash := fun s => Z.of_nat (String.length s).

Definition demo_options : TopologyControllerOptions := {|
  nodeDeadTimeout := 30; failureBatchWindow := 60; ordinaryBatchWindow := 10; reconcileTick := 100;
  scaleOutCollectWindow := 0; scaleInCollectWindow := 0; witnessProbeRoundTimeout := 5; failureProbeWitnessCount := 3;
  localAddress := "10.0.0.1:31501"; probeEpoch := ""; initialProbeRound := 1; maxMembersPerBatch := 64;
  maxDerivedOperationsPerTick := 16; maxProgressReadsPerTick := 16; derivedSliceBudget := 10;
  eventSourceMode := SELF_MANAGED; materializeRestartFacts := false; now := Z.of_nat; steady_clock_now := Z.of_nat;
  membershipRestartHandler := None; localMembershipRecoveryHandler := None; memberLivenessProbe := None;
  collectiveControlEpoch := None; collectiveReplacementFence := None; failureSummaryCandidateProvider := None;
  activeFailureCommitFence := fun _ _ _ _ _ => Some (FenceRefuses K_NOT_READY) |}.

Definition demo_process : ControllerProcess := {| cp_options := demo_options; cp_instanceId := 1; cp_inputs := replicate 3 (Ok [], false) |}.
Definition demo_store : Pointers :=
  match Encode ready_value with
  | Ok bytes => (exec 0 (CallPut (BuildPhysicalKey (membershipTable_ demo_keys) "10.0.0.1:31501") bytes 0 COORDINATOR_NO_VERSION_CHECK COORDINATOR_NO_MOD_REVISION_CHECK 0) empty_store).1
  | Err _ => empty_store
  end.

(** Both controllers are interrupted after every request. *)
Definition demo_schedule : list Event := [Spawn demo_process; Spawn demo_process] ++ concat (replicate 40 [Step 0 0; Step 1 0]).
Definition after_schedule : Pool := foldl (do_event (start_controller "demo")) (StoreProgram.start demo_store) demo_schedule.

Definition spawned (e : @Event ControllerProcess) : option ControllerProcess := match e with Spawn c => Some c | Step _ _ => None end.

Lemma schedule_controlled : controlled "demo" demo_store after_schedule.
Proof.
  apply schedule_reaches. intros c Hc. assert (Hin : c ∈ omap spawned demo_schedule) by (apply list_elem_of_omap; by exists (Spawn c)).
  change (c ∈ [demo_process; demo_process]) in Hin. assert (c = demo_process) as -> by set_solver. done.
Qed.

(** The topology the store holds in the end. *)
Definition stored_topology (p : Pointers) : option TopologyState :=
  e ← stored p (topology_key demo_keys);
  match DecodeTopology (ve_value e) with Ok st => Some st | Err _ => None end.

Definition summary (st : TopologyState) : Z * list (string * MemberState * nat) :=
  (ts_version st, (fun m => (m_address m, m_state m, length (m_tokens m))) <$> ts_members st).

Lemma schedule_outcome : summary <$> stored_topology (pool_store after_schedule) = Some (3, [("10.0.0.1:31501", ACTIVE, 32%nat)]).
Proof. vm_compute. reflexivity. Qed.

Lemma demo_store_ok : store_ok demo_store /\ stored demo_store (topology_key demo_keys) = None.
Proof. split; [vm_compute; repeat constructor|vm_compute; reflexivity]. Qed.

Lemma topology_follows_lifecycle_witness :
  summary <$> stored_topology (pool_store after_schedule) = Some (3, [("10.0.0.1:31501", ACTIVE, 32%nat)]) /\
  exists h, tracks (topology_key demo_keys) h (pool_store after_schedule) /\
    forall j v a v' a' st st', h !! j = Some (v, a) -> h !! S j = Some (v', a') ->
      DecodeTopology v = Ok st -> DecodeTopology v' = Ok st' -> topology_step st st'.
Proof.
  split; [exact schedule_outcome|].
  destruct (topology_follows_lifecycle (lossy := false) "demo" demo_store after_schedule) as (h & Ht & _ & Hs);
    [apply demo_store_ok|apply demo_store_ok|exact schedule_controlled|].
  exists h. split; [exact Ht|exact Hs].
Defined.

Lemma owners_never_vanish_witness :
  summary <$> stored_topology (pool_store after_schedule) = Some (3, [("10.0.0.1:31501", ACTIVE, 32%nat)]) /\
  exists h, tracks (topology_key demo_keys) h (pool_store after_schedule) /\
    forall states i n m,
      (forall j, (i <= j <= i + n)%nat -> exists v a, h !! j = Some (v, a) /\ DecodeTopology v = Ok (states j)) ->
      m ∈ ts_members (states i) -> owns m ->
      (exists m', m' ∈ ts_members (states (i + n)%nat) /\ m_identity m' = m_identity m /\ m_tokens m' = m_tokens m /\ owns m') \/
      exists j, (i <= j < i + n)%nat /\ departs (m_identity m) (states j) (states (S j)).
Proof.
  split; [exact schedule_outcome|].
  destruct (owners_never_vanish (lossy := false) "demo" demo_store after_schedule) as (h & Ht & Hs);
    [apply demo_store_ok|apply demo_store_ok|exact schedule_controlled|].
  exists h. split; [exact Ht|exact Hs].
Defined.
