(* ===== verification/TopologyRecoveryManager.v ===== *)
(** * Recovery of the topology after a coordinator change

    src/datasystem/coordinator/topology_recovery_manager.cpp.  A coordinator that
    becomes leader holds an empty store.  The workers report the version and the
    digest of the topology they last saw; the manager asks one reporter of the
    highest version for the topology itself, validates it and installs it, and
    until then it refuses requests for the topology.  Every cluster has a context
    that moves between RECOVERING, INSTALLING, READY and BLOCKED; everything
    belongs to the round of one leader.

    A handler is a [task]: what runs under [mutex_] is one step ([Locked]), a
    request to the store is one step ([Request]), and so is taking or releasing
    the fence that keeps the round from changing ([Fence]).  The jobs queued in
    [recoveryPool_] are a field of the state.  An [Oracle] answers what a step
    does not control: the readings of the clock, whether the thread pool accepts
    a job, what the caller of a validation sees of it and whether the service
    still regards the round as current.

    Left out: trace identifiers and logging, the test hook [beforeInstall], the
    exceptions of the validation, and the threads and condition variables. *)

From coqutil Require Import Datatypes.RecordSetters.
From S2P Require Import Prelude Ordered TopologyTypes HashRing BalancedRing TokenPlacement HostPort KeyHelper Hasher.
From S2P Require Import RingTheory HashAlgorithm OwnerSpec PlanningInterface HashPlans Snapshot RepositoryCodec MembershipTypes.
From S2P Require Import MemoryKvStore TtlManager WatchRegistry WatchDispatcher CoordinatorStore StoreProgram BackendInterface StoreBackend.
From S2P Require Import FailureClassifier RecoveryKeys.
Export DoubleBraceUpdate.

(** ** Data *)

Inductive TopologyRecoveryState := RECOVERING | INSTALLING | READY | BLOCKED.
#[global] Instance TopologyRecoveryState_eq_dec : EqDecision TopologyRecoveryState.
Proof. solve_decision. Defined.

Inductive TopologyRecoveryReportResult := ACCEPTED | COORDINATOR_ID_MISMATCH | MEMBERSHIP_NOT_READY | STALE_LEADER_TERM.

Record TopologyRecoveryCandidateReport := {
  rp_reporterAddress : string; rp_hasSnapshot : bool; rp_topologyVersion : Z; rp_canonicalDigest : string; rp_canonicalTopology : string
}.

Record TopologyRecoveryReportDecision := {
  rd_state : TopologyRecoveryState; rd_result : TopologyRecoveryReportResult; rd_payloadRequired : bool
}.
Definition default_decision : TopologyRecoveryReportDecision :=
  {| rd_state := RECOVERING; rd_result := ACCEPTED; rd_payloadRequired := false |}.

Record TopologyRecoveryRoundIdentity := { leaderTerm : Z; coordinatorId : string }.
#[global] Instance TopologyRecoveryRoundIdentity_eq_dec : EqDecision TopologyRecoveryRoundIdentity.
Proof. solve_decision. Defined.

Record TopologyRecoveryRound := { identity : TopologyRecoveryRoundIdentity; hardDeadline : Z }.

Inductive MembershipObservation := REMOVED | KEEPALIVE | STARTING | EXISTING.
#[global] Instance MembershipObservation_eq_dec : EqDecision MembershipObservation.
Proof. solve_decision. Defined.

Record TopologyRecoveryRoundSummary := {
  contextCount : nat; recoveringCount : nat; installingCount : nat; readyCount : nat; blockedCount : nat
}.

Definition AllDiscoveredClustersReady (s : TopologyRecoveryRoundSummary) : bool :=
  (recoveringCount s =? 0)%nat && (installingCount s =? 0)%nat && (blockedCount s =? 0)%nat.

(** Durations in milliseconds. *)
Record TopologyRecoveryOptions := {
  discoveryWindow : Z; maxPendingRecoveryWork : Z; maxClusters : nat; maxMembersPerCluster : nat; maxCandidateMemoryBytes : Z
}.

Definition SHA256_HEX_SIZE : nat := 64.
Definition FAST_RECOVERY_WINDOW : Z := 3000 * NS_PER_MS.
Definition MAX_TOPOLOGY_RECOVERY_PAYLOAD_BYTES : Z := 4 * 1024 * 1024.

Record TopologyCandidateEvidence := {
  te_hasSnapshot : bool; te_topologyVersion : Z; te_canonicalDigest : string; te_payloadRequested : bool
}.

Record TopologyCandidateSelection := {
  sl_highestVersion : Z; sl_highestDigest : string; sl_hasSnapshot : bool; sl_conflictingHighest : bool
}.

Record ClusterRecoveryContext := {
  generation : Z;
  state : TopologyRecoveryState;
  observedMembers : gset string;
  reporterEvidence : gmap string TopologyCandidateEvidence;
  selectedCanonicalTopology : option string;
  selectedCanonicalDigest : string;
  selectedVersion : Z;
  fastRecoveryDeadline : option Z;
  discoveryDeadline : option Z;
  delayedReconcileIdentity : option TopologyRecoveryRoundIdentity;
  payloadValidationPending : bool;
  reconcileQueued : bool;
  delayedReconcileQueued : bool;
  storedAuthorityChecked : bool
}.

(** What the recovery pool runs. *)
Inductive Job :=
  | ReconcileJob (name : string) (id : TopologyRecoveryRoundIdentity)
  | ValidateJob (name : string) (id : TopologyRecoveryRoundIdentity) (contextGeneration : Z) (report : TopologyRecoveryCandidateReport).

Record TopologyRecoveryManager := {
  recoveryPool_ : list Job;
  delayedReconcileStarted_ : bool;
  stopping_ : bool;
  pendingRecoveryWork_ : Z;
  retainedCandidateBytes_ : Z;
  admittedReportBytes_ : Z;
  nextContextGeneration_ : Z;
  activeRound_ : option TopologyRecoveryRound;
  contexts_ : gmap string ClusterRecoveryContext;
  standaloneRpcAdmissionDeadline_ : option Z;
  rpcAdmissionStates_ : gmap string TopologyRecoveryState
}.

Definition new_TopologyRecoveryManager : TopologyRecoveryManager := {|
  recoveryPool_ := []; delayedReconcileStarted_ := false; stopping_ := false; pendingRecoveryWork_ := 0;
  retainedCandidateBytes_ := 0; admittedReportBytes_ := 0; nextContextGeneration_ := 1; activeRound_ := None; contexts_ := ∅;
  standaloneRpcAdmissionDeadline_ := None; rpcAdmissionStates_ := ∅ |}.

Definition new_ClusterRecoveryContext : ClusterRecoveryContext := {|
  generation := 0; state := RECOVERING; observedMembers := ∅; reporterEvidence := ∅; selectedCanonicalTopology := None;
  selectedCanonicalDigest := EmptyString; selectedVersion := 0; fastRecoveryDeadline := None; discoveryDeadline := None;
  delayedReconcileIdentity := None; payloadValidationPending := false; reconcileQueued := false;
  delayedReconcileQueued := false; storedAuthorityChecked := false |}.

(** [clock n] is the [n]-th reading of the clock in the step. *)
Record Oracle := { clock : nat -> Z; accepts : bool; validation : res unit; roundCurrent : bool }.

Inductive task (A : Type) : Type :=
  | Finish (a : A)
  | Locked {B : Set} (f : Oracle -> TopologyRecoveryManager -> TopologyRecoveryManager * B) (k : B -> task A)
  | Request (c : StoreCall) (k : answer c -> task A)
  | Fence (take : bool) (k : task A).
Arguments Finish {A} a.
Arguments Locked {A B} f k.
Arguments Request {A} c k.
Arguments Fence {A} take k.

Fixpoint task_bind {A B} (t : task A) (f : A -> task B) : task B :=
  match t with
  | Finish a => f a
  | Locked s k => Locked s (fun b => task_bind (k b) f)
  | Request c k => Request c (fun a => task_bind (k a) f)
  | Fence take k => Fence take (task_bind k f)
  end.

(** [x ⟵ t; u] runs [t] and then [u]; [x ⇠ t; u] returns from the function when [t] fails. *)
Notation "x ⟵ t ; u" := (task_bind t (fun x => u)) (at level 20, t at level 100, u at level 200, only parsing).
Notation "x ⇠ t ; u" := (task_bind t (fun r => match r with Ok x => u | Err code => Finish (Err code) end))
  (at level 20, t at level 100, u at level 200, only parsing).

Definition locked {B : Set} (f : Oracle -> TopologyRecoveryManager -> TopologyRecoveryManager * B) : task B := Locked f Finish.
Definition locked_ (f : Oracle -> TopologyRecoveryManager -> TopologyRecoveryManager) : task unit :=
  locked (fun o m => (f o m, tt)).

(** ** Evidence *)

Definition lower_hex_text (value : string) : bool := all_chars IsLowerHex value.

Definition SameEvidence (evidence : TopologyCandidateEvidence) (report : TopologyRecoveryCandidateReport) : bool :=
  bool_decide (te_hasSnapshot evidence = rp_hasSnapshot report) && (te_topologyVersion evidence =? rp_topologyVersion report) &&
  bool_decide (te_canonicalDigest evidence = rp_canonicalDigest report).

Definition no_selection : TopologyCandidateSelection :=
  {| sl_highestVersion := 0; sl_highestDigest := EmptyString; sl_hasSnapshot := false; sl_conflictingHighest := false |}.

Definition select_step (s : TopologyCandidateSelection) (evidence : TopologyCandidateEvidence) : TopologyCandidateSelection :=
  if negb (te_hasSnapshot evidence) then s
  else if sl_highestVersion s <? te_topologyVersion evidence then
    {| sl_highestVersion := te_topologyVersion evidence; sl_highestDigest := te_canonicalDigest evidence;
       sl_hasSnapshot := true; sl_conflictingHighest := false |}
  else if (te_topologyVersion evidence =? sl_highestVersion s) && negb (bool_decide (te_canonicalDigest evidence = sl_highestDigest s)) then
    {| sl_highestVersion := sl_highestVersion s; sl_highestDigest := sl_highestDigest s;
       sl_hasSnapshot := true; sl_conflictingHighest := true |}
  else {| sl_highestVersion := sl_highestVersion s; sl_highestDigest := sl_highestDigest s;
          sl_hasSnapshot := true; sl_conflictingHighest := sl_conflictingHighest s |}.

Definition HasOutstandingPayloadRequest (evidenceByReporter : gmap string TopologyCandidateEvidence) : bool :=
  existsb (fun entry => te_payloadRequested entry.2) (map_to_list evidenceByReporter).

Definition HasPeerPayloadRequest (evidenceByReporter : gmap string TopologyCandidateEvidence) (reporterAddress : string)
    (selection : TopologyCandidateSelection) : bool :=
  existsb (fun entry => negb (bool_decide (entry.1 = reporterAddress)) && te_payloadRequested entry.2 &&
                        (te_topologyVersion entry.2 =? sl_highestVersion selection) &&
                        bool_decide (te_canonicalDigest entry.2 = sl_highestDigest selection)) (map_to_list evidenceByReporter).

Definition HasCapacity (used requested limit : Z) : bool := (used <=? limit) && (requested <=? limit - used).

(** A context accessed through its cluster name. *)
Definition modify (name : string) (f : ClusterRecoveryContext -> ClusterRecoveryContext) (m : TopologyRecoveryManager)
    : TopologyRecoveryManager :=
  m{{contexts_ ::= alter f name}}.

Definition IsCurrentRoundLocked (id : TopologyRecoveryRoundIdentity) (m : TopologyRecoveryManager) : bool :=
  bool_decide (identity <$> activeRound_ m = Some id).

Definition IsHardDeadlineReachedLocked (now : Z) (m : TopologyRecoveryManager) : bool :=
  match activeRound_ m with Some round => hardDeadline round <=? now | None => false end.

(** [rpcAdmissionStates_.at] finds the entry created with the context. *)
Definition SetStateLocked (name : string) (st : TopologyRecoveryState) (m : TopologyRecoveryManager) : TopologyRecoveryManager :=
  modify name (fun context => context{{state := st}}) (m{{rpcAdmissionStates_ ::= alter (fun _ => st) name}}).

Definition payload_size (context : ClusterRecoveryContext) : Z :=
  match selectedCanonicalTopology context with Some payload => Z.of_nat (String.length payload) | None => 0 end.

Definition ReleaseSelectedPayload (name : string) (m : TopologyRecoveryManager) : TopologyRecoveryManager :=
  match contexts_ m !! name with
  | None => m
  | Some context =>
      modify name (fun context => context{{selectedCanonicalTopology := None; selectedCanonicalDigest := EmptyString; selectedVersion := 0}})
        (m{{retainedCandidateBytes_ ::= fun bytes => u64 (bytes - payload_size context)}})
  end.

Definition CompleteRecoveryWorkLocked (m : TopologyRecoveryManager) : TopologyRecoveryManager :=
  if pendingRecoveryWork_ m =? 0 then m else m{{pendingRecoveryWork_ ::= Z.pred}}.

Definition ForceReadyLocked (name : string) (m : TopologyRecoveryManager) : TopologyRecoveryManager :=
  ReleaseSelectedPayload name
    (modify name (fun context => context{{reporterEvidence := ∅; fastRecoveryDeadline := None; discoveryDeadline := None}})
      (SetStateLocked name READY m)).

(** The worker of the delayed reconciliations is started when it is first needed. *)
Definition StartDelayedReconcileWorkerLocked (o : Oracle) (m : TopologyRecoveryManager) : TopologyRecoveryManager * bool :=
  if delayedReconcileStarted_ m then (m, true)
  else if accepts o then (m{{delayedReconcileStarted_ := true}}, true) else (m, false).

Definition unresolved (st : TopologyRecoveryState) : bool := bool_decide (st = RECOVERING) || bool_decide (st = BLOCKED).

Definition ScheduleDelayedReconcileLocked (o : Oracle) (name : string) (m : TopologyRecoveryManager) : TopologyRecoveryManager :=
  match activeRound_ m, contexts_ m !! name with
  | Some round, Some context =>
      if stopping_ m || negb (unresolved (state context)) then m
      else
        let '(m, started) := StartDelayedReconcileWorkerLocked o m in
        if negb started || delayedReconcileQueued context then m
        else modify name (fun context => context{{delayedReconcileQueued := true; delayedReconcileIdentity := Some (identity round)}}) m
  | _, _ => m
  end.

Section manager.
Context `{RE2, SHA256, Protobuf ClusterTopologyPb, MapIteration}.
Context (options_ : TopologyRecoveryOptions) (coordinatorId_ : string) (fenced : bool).

Definition SelectHighestCandidate (evidenceByReporter : gmap string TopologyCandidateEvidence) : TopologyCandidateSelection :=
  foldl (fun s entry => select_step s entry.2) no_selection (iterate evidenceByReporter).

Definition RefreshSelection (name : string) (m : TopologyRecoveryManager) : TopologyRecoveryManager :=
  match contexts_ m !! name with
  | None => m
  | Some context =>
      let selection := SelectHighestCandidate (reporterEvidence context) in
      if sl_hasSnapshot selection && negb (sl_conflictingHighest selection) &&
         (selectedVersion context =? sl_highestVersion selection) &&
         bool_decide (selectedCanonicalDigest context = sl_highestDigest selection)
      then m else ReleaseSelectedPayload name m
  end.

(** ** Scheduling *)

Definition schedule_reconcile (o : Oracle) (name : string) (m : TopologyRecoveryManager) : TopologyRecoveryManager * bool :=
  match activeRound_ m, contexts_ m !! name with
  | Some round, Some context =>
      if stopping_ m ||
         (negb (bool_decide (state context = RECOVERING)) &&
          (negb (bool_decide (state context = BLOCKED)) || negb (IsHardDeadlineReachedLocked (clock o 0%nat) m))) ||
         reconcileQueued context || (maxPendingRecoveryWork options_ <=? pendingRecoveryWork_ m)
      then (m, false)
      else
        let m := modify name (fun context => context{{reconcileQueued := true}}) (m{{pendingRecoveryWork_ ::= Z.succ}}) in
        if accepts o then (m{{recoveryPool_ ::= fun jobs => (jobs ++ [ReconcileJob name (identity round)])}}, true)
        else (CompleteRecoveryWorkLocked (modify name (fun context => context{{reconcileQueued := false}}) m), false)
  | _, _ => (m, false)
  end.

Definition ScheduleReconcile (name : string) : task bool := locked (fun o => schedule_reconcile o name).

(** ** Memberships *)

Definition EnsureContext (now : Z) (name : string) (enableFastRecovery : bool) (m : TopologyRecoveryManager)
    : TopologyRecoveryManager * res unit :=
  match contexts_ m !! name with
  | Some _ => (m, Ok tt)
  | None =>
      if negb (base.size (contexts_ m) <? maxClusters options_)%nat then (m, Err K_TRY_AGAIN)
      else
        let candidate := new_ClusterRecoveryContext{{generation := nextContextGeneration_ m;
          fastRecoveryDeadline := if enableFastRecovery then Some (now + FAST_RECOVERY_WINDOW) else None}} in
        let m := m{{nextContextGeneration_ ::= fun n => u64 (n + 1)}} in
        match rpcAdmissionStates_ m !! name with
        | Some _ => (m, Err K_RUNTIME_ERROR)
        | None => (m{{contexts_ ::= <[name := candidate]>; rpcAdmissionStates_ ::= <[name := RECOVERING]>}}, Ok tt)
        end
  end.

Definition member_present (o : Oracle) (parsed : ParsedTopologyCoordinationKey) (observation : MembershipObservation)
    (m : TopologyRecoveryManager) : TopologyRecoveryManager :=
  let name := pk_clusterName parsed in
  let '(m, rc) := EnsureContext (clock o 0%nat) name (bool_decide (observation = STARTING)) m in
  match rc with
  | Err _ => m
  | Ok _ =>
      let m := if bool_decide (observation = EXISTING)
               then modify name (fun context => context{{fastRecoveryDeadline := None}}) m else m in
      match contexts_ m !! name with
      | None => m
      | Some context =>
          if bool_decide (pk_relativeKey parsed ∈ observedMembers context) ||
             negb (base.size (observedMembers context) <? maxMembersPerCluster options_)%nat then m
          else
            let m := modify name (fun context => context{{observedMembers ::= union {[ pk_relativeKey parsed ]} }}) m in
            if bool_decide (state context = RECOVERING) && negb (bool_decide (reporterEvidence context = ∅))
            then modify name (fun context => context{{discoveryDeadline := Some (clock o 1%nat + discoveryWindow options_ * NS_PER_MS)}}) m
            else m
      end
  end.

(** The last member of a cluster that is not installing takes its context away. *)
Definition erase_if_empty (name : string) (m : TopologyRecoveryManager) : TopologyRecoveryManager :=
  match contexts_ m !! name with
  | Some context =>
      if bool_decide (observedMembers context = ∅) && negb (bool_decide (state context = INSTALLING))
      then (ReleaseSelectedPayload name m){{rpcAdmissionStates_ ::= delete name; contexts_ ::= delete name}}
      else m
  | None => m
  end.

Definition member_removed (o : Oracle) (parsed : ParsedTopologyCoordinationKey) (m : TopologyRecoveryManager) : TopologyRecoveryManager :=
  let name := pk_clusterName parsed in
  let address := pk_relativeKey parsed in
  match contexts_ m !! name with
  | None => m
  | Some context =>
      let selection := SelectHighestCandidate (reporterEvidence context) in
      let removedHighest := match reporterEvidence context !! address with
                            | Some evidence => te_hasSnapshot evidence && (te_topologyVersion evidence =? sl_highestVersion selection)
                            | None => false
                            end in
      let remaining := delete address (reporterEvidence context) in
      let m := modify name (fun context => context{{observedMembers := observedMembers context ∖ {[ address ]}; reporterEvidence := remaining}}) m in
      if bool_decide (state context = INSTALLING) then m
      else
        let m := if bool_decide (state context = BLOCKED) || removedHighest
                 then modify name (fun context => context{{discoveryDeadline :=
                        if bool_decide (remaining = ∅) then None else Some (clock o 0%nat + discoveryWindow options_ * NS_PER_MS)}})
                      (SetStateLocked name RECOVERING m)
                 else m in
        let m := RefreshSelection name m in
        let m := if bool_decide (remaining = ∅) then modify name (fun context => context{{discoveryDeadline := None}}) m else m in
        erase_if_empty name m
  end.

Definition UpdateMembership (parsed : ParsedTopologyCoordinationKey) (observation : MembershipObservation) (o : Oracle)
    (m : TopologyRecoveryManager) : TopologyRecoveryManager :=
  match activeRound_ m with
  | None => m
  | Some _ =>
      match observation with
      | REMOVED => member_removed o parsed m
      | _ => member_present o parsed observation m
      end
  end.

(** [None] is a deleted membership. *)
Definition ObserveMembershipChange (physicalKey : string) (lifecycleState : option MemberLifecycleState) : task unit :=
  match ParseKey physicalKey with
  | Err _ => Finish tt
  | Ok parsed =>
      if negb (bool_decide (pk_kind parsed = COORD_MEMBERSHIP)) || bool_decide (pk_relativeKey parsed = EmptyString) then Finish tt
      else
        let observation := match lifecycleState with
                           | None => REMOVED
                           | Some lifecycle => if bool_decide (lifecycle = LC_STARTING) then STARTING else EXISTING
                           end in
        _ ⟵ locked_ (UpdateMembership parsed observation);
        _ ⟵ ScheduleReconcile (pk_clusterName parsed);
        Finish tt
  end.

Definition NotifyMembershipActivity (physicalKey : string) : task unit :=
  match ParseKey physicalKey with
  | Err _ => Finish tt
  | Ok parsed =>
      if negb (bool_decide (pk_kind parsed = COORD_MEMBERSHIP)) || bool_decide (pk_relativeKey parsed = EmptyString) then Finish tt
      else
        _ ⟵ locked_ (UpdateMembership parsed KEEPALIVE);
        _ ⟵ ScheduleReconcile (pk_clusterName parsed);
        Finish tt
  end.

(** ** Rounds *)

Definition release_all (m : TopologyRecoveryManager) : TopologyRecoveryManager :=
  foldl (fun m name => ReleaseSelectedPayload name m) m (elements (dom (contexts_ m))).

(** [nodeDeadTimeout] in milliseconds. *)
Definition BeginLeaderRound (id : TopologyRecoveryRoundIdentity) (nodeDeadTimeout : Z) (o : Oracle) (m : TopologyRecoveryManager)
    : TopologyRecoveryManager :=
  if stopping_ m || negb (bool_decide (coordinatorId id = coordinatorId_)) || (nodeDeadTimeout <? 0) then m
  else
    let deadline := clock o 0%nat + nodeDeadTimeout * NS_PER_MS in
    (release_all m){{contexts_ := ∅; rpcAdmissionStates_ := ∅;
      standaloneRpcAdmissionDeadline_ := if leaderTerm id =? 0 then Some deadline else None;
      retainedCandidateBytes_ := 0; activeRound_ := Some ({| identity := id; hardDeadline := deadline |})}}.

Definition EndLeaderRound (id : TopologyRecoveryRoundIdentity) (m : TopologyRecoveryManager) : TopologyRecoveryManager :=
  if negb (IsCurrentRoundLocked id m) then m
  else (release_all m){{contexts_ := ∅; rpcAdmissionStates_ := ∅; standaloneRpcAdmissionDeadline_ := None;
         retainedCandidateBytes_ := 0; activeRound_ := None}}.

(** ** Admission of requests *)

Definition CheckAllowed (key rangeEnd : string) (mutation : bool) : task (res unit) :=
  match ParseKey key with
  | Err code => Finish (Err code)
  | Ok parsed =>
      if negb (bool_decide (rangeEnd = EmptyString) ||
               (negb mutation && bool_decide (pk_relativeKey parsed = EmptyString) && bool_decide (rangeEnd = StringPlusOne key)))
      then Finish (Err K_INVALID)
      else if (mutation && bool_decide (pk_kind parsed = COORD_MEMBERSHIP)) ||
              (negb mutation && negb (bool_decide (pk_kind parsed = COORD_TOPOLOGY)))
      then Finish (Ok tt)
      else
        found ⟵ locked (fun _ m => (m, option_map state (contexts_ m !! pk_clusterName parsed)));
        match found with
        | None => Finish (Err K_NOT_READY)
        | Some READY => Finish (Ok tt)
        | Some _ => _ ⟵ ScheduleReconcile (pk_clusterName parsed); Finish (Err K_NOT_READY)
        end
  end.

Definition ValidateWatchRange (key rangeEnd : string) : res unit :=
  parsed ← ParseKey key;
  check (bool_decide (rangeEnd = EmptyString) ||
         (bool_decide (pk_relativeKey parsed = EmptyString) && bool_decide (rangeEnd = StringPlusOne key))) K_INVALID.

Definition GetState (name : string) (m : TopologyRecoveryManager) : TopologyRecoveryState :=
  match contexts_ m !! name with Some context => state context | None => RECOVERING end.

Definition GetRpcAdmissionState (now : Z) (name : string) (m : TopologyRecoveryManager) : TopologyRecoveryState :=
  match rpcAdmissionStates_ m !! name with
  | Some st => st
  | None => match standaloneRpcAdmissionDeadline_ m with
            | Some deadline => if deadline <=? now then READY else RECOVERING
            | None => RECOVERING
            end
  end.

Definition count_state (summary : TopologyRecoveryRoundSummary) (st : TopologyRecoveryState) : TopologyRecoveryRoundSummary :=
  let '(r, i, d, b) := match st with RECOVERING => (1, 0, 0, 0) | INSTALLING => (0, 1, 0, 0) | READY => (0, 0, 1, 0) | BLOCKED => (0, 0, 0, 1) end%nat in
  {| contextCount := S (contextCount summary); recoveringCount := recoveringCount summary + r;
     installingCount := installingCount summary + i; readyCount := readyCount summary + d; blockedCount := blockedCount summary + b |}.

Definition GetRoundSummary (m : TopologyRecoveryManager) : TopologyRecoveryRoundSummary :=
  foldl (fun summary entry => count_state summary (state entry.2))
    {| contextCount := 0; recoveringCount := 0; installingCount := 0; readyCount := 0; blockedCount := 0 |} (map_to_list (contexts_ m)).

(** ** Reports *)

Definition ValidateEvidence (name : string) (report : TopologyRecoveryCandidateReport) : res unit :=
  _ ← KeyHelper.Create name;
  _ ← MembershipKey (rp_reporterAddress report);
  if negb (rp_hasSnapshot report) then
    check ((rp_topologyVersion report =? 0) && bool_decide (rp_canonicalDigest report = EmptyString) &&
           bool_decide (rp_canonicalTopology report = EmptyString)) K_INVALID
  else
    _ ← check (0 <? rp_topologyVersion report) K_INVALID;
    _ ← check ((String.length (rp_canonicalDigest report) =? SHA256_HEX_SIZE)%nat && lower_hex_text (rp_canonicalDigest report)) K_INVALID;
    check (Z.of_nat (String.length (rp_canonicalTopology report)) <=? MAX_TOPOLOGY_RECOVERY_PAYLOAD_BYTES) K_INVALID.

Definition ValidatePayload (report : TopologyRecoveryCandidateReport) : res unit :=
  topology ← DecodeTopology (rp_canonicalTopology report);
  _ ← check (ts_version topology =? rp_topologyVersion report) K_INVALID;
  canonical ← EncodeTopology topology;
  _ ← check (bool_decide (canonical = rp_canonicalTopology report)) K_INVALID;
  digest ← GetSha256Hex canonical;
  check (bool_decide (digest = rp_canonicalDigest report)) K_INVALID.

Definition decide_state (st : TopologyRecoveryState) (decision : TopologyRecoveryReportDecision) : TopologyRecoveryReportDecision :=
  {| rd_state := st; rd_result := rd_result decision; rd_payloadRequired := rd_payloadRequired decision |}.
Definition decide_result (result : TopologyRecoveryReportResult) (decision : TopologyRecoveryReportDecision) : TopologyRecoveryReportDecision :=
  {| rd_state := rd_state decision; rd_result := result; rd_payloadRequired := rd_payloadRequired decision |}.
Definition require_payload (required : bool) (decision : TopologyRecoveryReportDecision) : TopologyRecoveryReportDecision :=
  {| rd_state := rd_state decision; rd_result := rd_result decision; rd_payloadRequired := required |}.

(** The reporter's evidence replaces what it reported before; the result says
    whether its payload is wanted. *)
Definition store_evidence (name : string) (now : Z) (report : TopologyRecoveryCandidateReport) (evidenceChanged requested : bool)
    (m : TopologyRecoveryManager) : TopologyRecoveryManager * bool :=
  let address := rp_reporterAddress report in
  let fresh := {| te_hasSnapshot := rp_hasSnapshot report; te_topologyVersion := rp_topologyVersion report;
                  te_canonicalDigest := rp_canonicalDigest report; te_payloadRequested := requested |} in
  let m := modify name (fun context => context{{reporterEvidence ::= <[address := fresh]>}}) m in
  let m := modify name (fun context =>
             if negb (has_value (discoveryDeadline context)) || evidenceChanged
             then context{{discoveryDeadline := Some (now + discoveryWindow options_ * NS_PER_MS)}} else context) m in
  let m := RefreshSelection name m in
  match contexts_ m !! name with
  | None => (m, false)
  | Some context =>
      if negb (rp_hasSnapshot report) then (m, false)
      else
        let selection := SelectHighestCandidate (reporterEvidence context) in
        let alreadyRequested := HasPeerPayloadRequest (reporterEvidence context) address selection in
        let payloadNeeded := negb (has_value (selectedCanonicalTopology context)) ||
                             negb (selectedVersion context =? rp_topologyVersion report) ||
                             negb (bool_decide (selectedCanonicalDigest context = rp_canonicalDigest report)) in
        let payloadRequested := payloadNeeded && (rp_topologyVersion report =? sl_highestVersion selection) &&
                                bool_decide (rp_canonicalDigest report = sl_highestDigest selection) &&
                                negb (sl_conflictingHighest selection) && negb alreadyRequested in
        (modify name (fun context => context{{reporterEvidence ::= <[address :=
           {| te_hasSnapshot := te_hasSnapshot fresh; te_topologyVersion := te_topologyVersion fresh;
              te_canonicalDigest := te_canonicalDigest fresh; te_payloadRequested := payloadRequested |}]> }}) m,
         payloadRequested && negb (payloadValidationPending context) && payloadNeeded)
  end.

(** The decision and whether to schedule a reconciliation. *)
Definition UpdateEvidenceLocked (o : Oracle) (name : string) (context : ClusterRecoveryContext) (report : TopologyRecoveryCandidateReport)
    (decision : TopologyRecoveryReportDecision) (m : TopologyRecoveryManager)
    : TopologyRecoveryManager * res (TopologyRecoveryReportDecision * bool) :=
  let old := reporterEvidence context !! rp_reporterAddress report in
  let same := match old with Some evidence => SameEvidence evidence report | None => false end in
  if bool_decide (rp_reporterAddress report ∉ observedMembers context) then (m, Ok (decide_result MEMBERSHIP_NOT_READY decision, false))
  else match state context with
  | READY => (m, Ok (decide_state READY decision, false))
  | INSTALLING => (m, if same then Ok (decide_state INSTALLING decision, false) else Err K_TRY_AGAIN)
  | st =>
      if bool_decide (st = BLOCKED) && same then (m, Ok (decide_state BLOCKED decision, false))
      else
        let m := if bool_decide (st = BLOCKED)
                 then modify name (fun context => context{{discoveryDeadline := None}}) (SetStateLocked name RECOVERING m) else m in
        let deadline := if bool_decide (st = BLOCKED) then None else discoveryDeadline context in
        let now := clock o 0%nat in
        let awaitingMembers := (base.size (reporterEvidence context) <? base.size (observedMembers context))%nat in
        if match deadline with Some t => t <=? now | None => false end && negb same && negb awaitingMembers
        then (m, Ok (decide_state RECOVERING decision, true))
        else
          let requested := match old with Some evidence => same && te_payloadRequested evidence | None => false end in
          let '(m, payloadRequired) := store_evidence name now report (negb same) requested m in
          (m, Ok (decide_state RECOVERING (require_payload payloadRequired decision), true))
  end.

Definition RecordEvidence (name : string) (id : TopologyRecoveryRoundIdentity) (report : TopologyRecoveryCandidateReport)
    (decision : TopologyRecoveryReportDecision) : task (res TopologyRecoveryReportDecision) :=
  outcome ⇠ locked (fun o m =>
    if stopping_ m then (m, Err K_SHUTTING_DOWN)
    else if negb (IsCurrentRoundLocked id m) then (m, Err K_TRY_AGAIN)
    else match contexts_ m !! name with
    | None => (m, Err K_TRY_AGAIN)
    | Some context => UpdateEvidenceLocked o name context report decision m
    end);
  if outcome.2 then _ ⟵ ScheduleReconcile name; Finish (Ok outcome.1) else Finish (Ok outcome.1).

(** [None]: the caller waits for the validation. *)
Definition submit_payload (o : Oracle) (name : string) (id : TopologyRecoveryRoundIdentity) (report : TopologyRecoveryCandidateReport)
    (decision : TopologyRecoveryReportDecision) (m : TopologyRecoveryManager)
    : TopologyRecoveryManager * res (option TopologyRecoveryReportDecision) :=
  let payloadBytes := Z.of_nat (String.length (rp_canonicalTopology report)) in
  if stopping_ m then (m, Err K_SHUTTING_DOWN)
  else if negb (IsCurrentRoundLocked id m) then (m, Err K_TRY_AGAIN)
  else match contexts_ m !! name with
  | None => (m, Err K_TRY_AGAIN)
  | Some context =>
      let evidence := reporterEvidence context !! rp_reporterAddress report in
      let same := match evidence with Some evidence => SameEvidence evidence report | None => false end in
      if bool_decide (state context = INSTALLING) then
        (m, if same && bool_decide (selectedCanonicalTopology context = Some (rp_canonicalTopology report))
            then Ok (Some (decide_state INSTALLING decision)) else Err K_TRY_AGAIN)
      else if negb (same && match evidence with Some evidence => te_payloadRequested evidence | None => false end) then (m, Err K_INVALID)
      else if payloadValidationPending context then (m, Err K_TRY_AGAIN)
      else if negb ((pendingRecoveryWork_ m <? maxPendingRecoveryWork options_) &&
                    HasCapacity (u64 (admittedReportBytes_ m + retainedCandidateBytes_ m)) payloadBytes (maxCandidateMemoryBytes options_))
      then (m, Err K_TRY_AGAIN)
      else
        let m := modify name (fun context => context{{payloadValidationPending := true}})
                   (m{{pendingRecoveryWork_ ::= Z.succ; admittedReportBytes_ ::= fun bytes => u64 (bytes + payloadBytes)}}) in
        if accepts o
        then (m{{recoveryPool_ ::= fun jobs => (jobs ++ [ValidateJob name id (generation context) report])}}, Ok None)
        else (modify name (fun context => context{{payloadValidationPending := false}})
                ((CompleteRecoveryWorkLocked m){{admittedReportBytes_ ::= fun bytes => u64 (bytes - payloadBytes)}}), Err K_TRY_AGAIN)
  end.

(** The wait sees the result of the validation or gives up with K_TRY_AGAIN. *)
Definition SubmitPayload (name : string) (id : TopologyRecoveryRoundIdentity) (report : TopologyRecoveryCandidateReport)
    (decision : TopologyRecoveryReportDecision) : task (res TopologyRecoveryReportDecision) :=
  answered ⇠ locked (fun o => submit_payload o name id report decision);
  match answered with
  | Some decision => Finish (Ok decision)
  | None =>
      _ ⇠ locked (fun o m => (m, validation o));
      st ⟵ locked (fun _ m => (m, GetState name m));
      Finish (Ok (require_payload false (decide_state st decision)))
  end.

(** A round that is over is told apart from one that is current: [Some decision] answers at once. *)
Definition accept_report (name : string) (id : TopologyRecoveryRoundIdentity) (report : TopologyRecoveryCandidateReport)
    (m : TopologyRecoveryManager) : TopologyRecoveryManager * res (option TopologyRecoveryReportDecision * TopologyRecoveryReportDecision) :=
  let answer decision := (m, Ok (Some decision, decision)) in
  if stopping_ m then (m, Err K_SHUTTING_DOWN)
  else if negb (IsCurrentRoundLocked id m) then answer (decide_result STALE_LEADER_TERM default_decision)
  else match contexts_ m !! name with
  | None => answer (decide_result MEMBERSHIP_NOT_READY default_decision)
  | Some context =>
      let decision := decide_state (state context) default_decision in
      if bool_decide (rp_reporterAddress report ∉ observedMembers context) then
        if negb (base.size (observedMembers context) <? maxMembersPerCluster options_)%nat then (m, Err K_TRY_AGAIN)
        else answer (decide_result MEMBERSHIP_NOT_READY decision)
      else
        let m := modify name (fun context => context{{fastRecoveryDeadline := None}}) m in
        (m, Ok (if bool_decide (state context = READY) then Some decision else None, decision))
  end.

Definition ReportCandidate (name : string) (requestLeaderTerm : Z) (requestCoordinatorId : string)
    (report : TopologyRecoveryCandidateReport) : task (res TopologyRecoveryReportDecision) :=
  round ⇠ locked (fun _ m => (m,
    if stopping_ m then Err K_SHUTTING_DOWN
    else Ok (match activeRound_ m with
             | None => inl COORDINATOR_ID_MISMATCH
             | Some round =>
                 if negb (bool_decide (coordinatorId (identity round) = requestCoordinatorId)) then inl COORDINATOR_ID_MISMATCH
                 else if negb (leaderTerm (identity round) =? requestLeaderTerm) then inl STALE_LEADER_TERM
                 else inr (identity round)
             end)));
  match round with
  | inl result => Finish (Ok (decide_result result default_decision))
  | inr id =>
      match ValidateEvidence name report with
      | Err code => Finish (Err code)
      | Ok _ =>
          accepted ⇠ locked (fun _ => accept_report name id report);
          match accepted with
          | (Some decision, _) => Finish (Ok decision)
          | (None, decision) =>
              if bool_decide (rp_canonicalTopology report = EmptyString) then RecordEvidence name id report decision
              else SubmitPayload name id report decision
          end
      end
  end.

(** ** Validation *)

Definition report_size (report : TopologyRecoveryCandidateReport) : Z := Z.of_nat (String.length (rp_canonicalTopology report)).

(** Both outcomes first give back the work and the bytes of the job. *)
Definition return_job (report : TopologyRecoveryCandidateReport) (m : TopologyRecoveryManager) : TopologyRecoveryManager :=
  (CompleteRecoveryWorkLocked m){{admittedReportBytes_ ::= fun bytes => u64 (bytes - report_size report)}}.

(** Whether to schedule a reconciliation. *)
Definition record_payload (name : string) (id : TopologyRecoveryRoundIdentity) (contextGeneration : Z)
    (report : TopologyRecoveryCandidateReport) (m : TopologyRecoveryManager) : TopologyRecoveryManager * res bool :=
  let current := IsCurrentRoundLocked id m in
  let m := return_job report m in
  match contexts_ m !! name with
  | Some context =>
      if negb (current && (generation context =? contextGeneration)) then (m, Err K_TRY_AGAIN)
      else
        let m := modify name (fun context => context{{payloadValidationPending := false}}) m in
        if bool_decide (state context = INSTALLING) then (m, Err K_TRY_AGAIN)
        else match reporterEvidence context !! rp_reporterAddress report with
        | None => (m, Err K_TRY_AGAIN)
        | Some evidence =>
            if bool_decide (rp_reporterAddress report ∉ observedMembers context) ||
               negb (SameEvidence evidence report && te_payloadRequested evidence) then (m, Err K_TRY_AGAIN)
            else
              let m := RefreshSelection name m in
              let selection := SelectHighestCandidate (reporterEvidence context) in
              if (rp_topologyVersion report =? sl_highestVersion selection) && negb (sl_conflictingHighest selection) &&
                 bool_decide (sl_highestDigest selection = rp_canonicalDigest report)
              then
                let satisfied := {| te_hasSnapshot := te_hasSnapshot evidence; te_topologyVersion := te_topologyVersion evidence;
                                    te_canonicalDigest := te_canonicalDigest evidence; te_payloadRequested := false |} in
                let m := ReleaseSelectedPayload name (modify name (fun context => context{{reporterEvidence ::= <[rp_reporterAddress report := satisfied]> }}) m) in
                (modify name (fun context => context{{selectedCanonicalTopology := Some (rp_canonicalTopology report);
                    selectedCanonicalDigest := rp_canonicalDigest report; selectedVersion := rp_topologyVersion report}})
                   (m{{retainedCandidateBytes_ ::= fun bytes => u64 (bytes + report_size report)}}), Ok true)
              else (m, Ok false)
        end
  | None => (m, Err K_TRY_AGAIN)
  end.

Definition RecordPayload (name : string) (id : TopologyRecoveryRoundIdentity) (contextGeneration : Z)
    (report : TopologyRecoveryCandidateReport) : task (res unit) :=
  schedule ⇠ locked (fun _ => record_payload name id contextGeneration report);
  if (schedule : bool) then _ ⟵ ScheduleReconcile name; Finish (Ok tt) else Finish (Ok tt).

Definition reject_payload (o : Oracle) (name : string) (id : TopologyRecoveryRoundIdentity) (contextGeneration : Z)
    (report : TopologyRecoveryCandidateReport) (code : StatusCode) (m : TopologyRecoveryManager) : TopologyRecoveryManager * res unit :=
  let current := IsCurrentRoundLocked id m in
  let m := return_job report m in
  if negb current then (m, Err K_TRY_AGAIN)
  else match contexts_ m !! name with
  | Some context =>
      if negb (generation context =? contextGeneration) then (m, Err code)
      else
        let m := modify name (fun context => context{{payloadValidationPending := false}}) m in
        if negb (bool_decide (code = K_INVALID)) then (m, Err code)
        else if negb (bool_decide (state context = INSTALLING)) &&
                match reporterEvidence context !! rp_reporterAddress report with
                | Some evidence => SameEvidence evidence report && te_payloadRequested evidence
                | None => false
                end
        then (ScheduleDelayedReconcileLocked o name (ReleaseSelectedPayload name (SetStateLocked name BLOCKED m)), Err code)
        else (m, Err code)
  | None => (m, Err code)
  end.

Definition RejectPayload (name : string) (id : TopologyRecoveryRoundIdentity) (contextGeneration : Z)
    (report : TopologyRecoveryCandidateReport) (code : StatusCode) : task (res unit) :=
  locked (fun o => reject_payload o name id contextGeneration report code).

Definition RunValidation (name : string) (id : TopologyRecoveryRoundIdentity) (contextGeneration : Z)
    (report : TopologyRecoveryCandidateReport) : task (res unit) :=
  match ValidatePayload report with
  | Ok _ => RecordPayload name id contextGeneration report
  | Err code => RejectPayload name id contextGeneration report code
  end.

(** ** Reconciliation *)

(** [Some status] returns from [MaybeFinalize]. *)
Definition finalize_check (o : Oracle) (name : string) (id : TopologyRecoveryRoundIdentity) (m : TopologyRecoveryManager)
    : TopologyRecoveryManager * option (res unit) :=
  if negb (IsCurrentRoundLocked id m) then (m, Some (Err K_TRY_AGAIN))
  else match contexts_ m !! name with
  | None => (m, Some (Ok tt))
  | Some context =>
      let now := clock o 0%nat in
      let hardDeadlineReached := IsHardDeadlineReachedLocked now m in
      match state context with
      | READY | INSTALLING => (m, Some (Ok tt))
      | BLOCKED => if hardDeadlineReached then (m, None) else (ScheduleDelayedReconcileLocked o name m, Some (Ok tt))
      | RECOVERING =>
          if negb hardDeadlineReached && match discoveryDeadline context with Some t => now <? t | None => false end then
            let evidenceComplete := negb (bool_decide (observedMembers context = ∅)) &&
                                    (base.size (observedMembers context) <=? base.size (reporterEvidence context))%nat in
            let payloadComplete := negb (payloadValidationPending context) && negb (HasOutstandingPayloadRequest (reporterEvidence context)) in
            if evidenceComplete && payloadComplete then (modify name (fun context => context{{discoveryDeadline := Some now}}) m, None)
            else if payloadComplete then (ScheduleDelayedReconcileLocked o name m, Some (Ok tt))
            else (m, Some (Ok tt))
          else (m, None)
      end
  end.

(** The generation of the context whose stored authority is to be read. *)
Definition begin_authority_check (o : Oracle) (name : string) (id : TopologyRecoveryRoundIdentity) (m : TopologyRecoveryManager)
    : TopologyRecoveryManager * option Z :=
  match contexts_ m !! name with
  | Some context =>
      let now := clock o 0%nat in
      let hardDeadlineReached := IsHardDeadlineReachedLocked now m in
      if negb (IsCurrentRoundLocked id m) || storedAuthorityChecked context then (m, None)
      else if negb (bool_decide (state context = RECOVERING)) && (negb (bool_decide (state context = BLOCKED)) || negb hardDeadlineReached)
      then (m, None)
      else if negb hardDeadlineReached && match discoveryDeadline context with Some t => now <? t | None => false end then (m, None)
      else if negb hardDeadlineReached && (payloadValidationPending context || HasOutstandingPayloadRequest (reporterEvidence context))
      then (m, None)
      else (modify name (fun context => context{{storedAuthorityChecked := true}}) m, Some (generation context))
  | None => (m, None)
  end.

Definition RestoreStoredAuthorityCheck (name : string) (id : TopologyRecoveryRoundIdentity) (contextGeneration : Z)
    (m : TopologyRecoveryManager) : TopologyRecoveryManager :=
  match contexts_ m !! name with
  | Some context =>
      if IsCurrentRoundLocked id m && (generation context =? contextGeneration) && unresolved (state context)
      then modify name (fun context => context{{storedAuthorityChecked := false}}) m else m
  | None => m
  end.

(** [resolved] *)
Definition ApplyStoredAuthorityLocked (o : Oracle) (name : string) (id : TopologyRecoveryRoundIdentity) (contextGeneration : Z)
    (decodes : bool) (m : TopologyRecoveryManager) : TopologyRecoveryManager * bool :=
  match contexts_ m !! name with
  | Some context =>
      let hardDeadlineReached := IsHardDeadlineReachedLocked (clock o 0%nat) m in
      if negb (IsCurrentRoundLocked id m) || negb (generation context =? contextGeneration) then (m, false)
      else if negb (bool_decide (state context = RECOVERING)) && (negb (bool_decide (state context = BLOCKED)) || negb hardDeadlineReached)
      then (m, false)
      else if negb hardDeadlineReached && (payloadValidationPending context || HasOutstandingPayloadRequest (reporterEvidence context))
      then (modify name (fun context => context{{storedAuthorityChecked := false}}) m, false)
      else
        let m := modify name (fun context => context{{reporterEvidence := ∅; discoveryDeadline := None}}) (ReleaseSelectedPayload name m) in
        (SetStateLocked name (if decodes then READY else BLOCKED) m, true)
  | None => (m, false)
  end.

Definition topology_physical_key (name : string) : string := BuildPhysicalKey (topologyTable_ (new_TopologyKeyHelper name)) TopologyKey.

Definition AdoptStoredAuthorityIfPresent (name : string) (id : TopologyRecoveryRoundIdentity) : task (res bool) :=
  started ⟵ locked (fun o => begin_authority_check o name id);
  match started with
  | None => Finish (Ok false)
  | Some contextGeneration =>
      match KeyHelper.Create name with
      | Err code => Finish (Err code)
      | Ok _ =>
          Request (CallRange (topology_physical_key name) EmptyString) (fun answer =>
            match answer with
            | Err code => _ ⟵ locked_ (fun _ => RestoreStoredAuthorityCheck name id contextGeneration); Finish (Err code)
            | Ok result =>
                match rr_kvs result with
                | [] => Finish (Ok false)
                | [entry] =>
                    let decodes := match DecodeTopology (kv_value entry) with Ok _ => true | Err _ => false end in
                    resolved ⟵ locked (fun o => ApplyStoredAuthorityLocked o name id contextGeneration decodes);
                    Finish (Ok resolved)
                | _ => Finish (Err K_RUNTIME_ERROR)
                end
            end)
      end
  end.

(** [true]: the round is decided without an installation. *)
Definition ResolveCandidateSelectionLocked (name : string) (context : ClusterRecoveryContext) (hardDeadlineReached : bool)
    (m : TopologyRecoveryManager) : TopologyRecoveryManager * bool :=
  let selected := SelectHighestCandidate (reporterEvidence context) in
  if sl_hasSnapshot selected then
    if sl_conflictingHighest selected then
      (if hardDeadlineReached then ForceReadyLocked name m else ReleaseSelectedPayload name (SetStateLocked name BLOCKED m), true)
    else (m, false)
  else if hardDeadlineReached then (ForceReadyLocked name m, true)
  else if negb (bool_decide (reporterEvidence context = ∅)) then
    (ReleaseSelectedPayload name (modify name (fun context => context{{reporterEvidence := ∅; discoveryDeadline := None}})
       (SetStateLocked name READY m)), true)
  else (m, true).

(** The payload to install with its version. *)
Definition PrepareInstallationLocked (now : Z) (name : string) (id : TopologyRecoveryRoundIdentity) (hardDeadlineReached : bool)
    (m : TopologyRecoveryManager) : TopologyRecoveryManager * res (option (Z * string)) :=
  if negb (IsCurrentRoundLocked id m) then (m, Err K_TRY_AGAIN)
  else match contexts_ m !! name with
  | None => (m, Ok None)
  | Some context =>
      if negb (bool_decide (state context = RECOVERING)) && (negb (bool_decide (state context = BLOCKED)) || negb hardDeadlineReached)
      then (m, Ok None)
      else if negb hardDeadlineReached &&
              ((base.size (reporterEvidence context) <? base.size (observedMembers context))%nat ||
               match discoveryDeadline context with Some t => now <? t | None => true end)
      then (m, Ok None)
      else if hardDeadlineReached && payloadValidationPending context then (ForceReadyLocked name m, Ok None)
      else
        let selected := SelectHighestCandidate (reporterEvidence context) in
        let '(m, decided) := ResolveCandidateSelectionLocked name context hardDeadlineReached m in
        if decided then (m, Ok None)
        else match selectedCanonicalTopology context with
        | Some payload =>
            if (selectedVersion context =? sl_highestVersion selected) && bool_decide (selectedCanonicalDigest context = sl_highestDigest selected)
            then (SetStateLocked name INSTALLING m, Ok (Some (sl_highestVersion selected, payload)))
            else (if hardDeadlineReached then ForceReadyLocked name m else m, Ok None)
        | None => (if hardDeadlineReached then ForceReadyLocked name m else m, Ok None)
        end
  end.

(** [version == 0] stands for nothing to install. *)
Definition to_install (prepared : option (Z * string)) : option (Z * string) :=
  match prepared with Some (version, payload) => if version =? 0 then None else Some (version, payload) | None => None end.

Definition delay_if_unresolved (o : Oracle) (name : string) (m : TopologyRecoveryManager) : TopologyRecoveryManager :=
  match contexts_ m !! name with
  | Some context => if unresolved (state context) then ScheduleDelayedReconcileLocked o name m else m
  | None => m
  end.

Definition select_installation (o : Oracle) (name : string) (id : TopologyRecoveryRoundIdentity) (m : TopologyRecoveryManager)
    : TopologyRecoveryManager * res (option (Z * string)) :=
  if negb (IsCurrentRoundLocked id m) then (m, Err K_TRY_AGAIN)
  else match contexts_ m !! name with
  | None => (m, Ok None)
  | Some context =>
      let now := clock o 0%nat in
      let hardDeadlineReached := IsHardDeadlineReachedLocked now m in
      if negb hardDeadlineReached && bool_decide (state context = RECOVERING) &&
         match fastRecoveryDeadline context with Some t => t <=? now | None => false end
      then (ForceReadyLocked name m, Ok None)
      else if bool_decide (state context = BLOCKED) && hardDeadlineReached then (ForceReadyLocked name m, Ok None)
      else
        let '(m, prepared) := PrepareInstallationLocked (clock o 1%nat) name id hardDeadlineReached m in
        match prepared with
        | Err code => (m, Err code)
        | Ok prepared =>
            match to_install prepared with
            | None => (delay_if_unresolved o name m, Ok None)
            | Some install => (m, Ok (Some install))
            end
        end
  end.

Definition CompleteInstallationLocked (now : Z) (name : string) (id : TopologyRecoveryRoundIdentity) (version : Z) (status : res unit)
    (m : TopologyRecoveryManager) : TopologyRecoveryManager :=
  match contexts_ m !! name with
  | Some context =>
      if negb (IsCurrentRoundLocked id m) || negb (bool_decide (state context = INSTALLING)) || negb (selectedVersion context =? version) then m
      else match status with
      | Ok _ =>
          ReleaseSelectedPayload name (modify name (fun context => context{{reporterEvidence := ∅; discoveryDeadline := None}})
            (SetStateLocked name READY m))
      | Err code =>
          if IsHardDeadlineReachedLocked now m then ForceReadyLocked name m
          else if bool_decide (code = K_INVALID) || bool_decide (code = K_DUPLICATED) then SetStateLocked name BLOCKED m
          else modify name (fun context => context{{discoveryDeadline := None}}) (RefreshSelection name (SetStateLocked name RECOVERING m))
      end
  | None => m
  end.

Definition InstallSelected (name : string) (payload : string) : task (res unit) :=
  match KeyHelper.Create name with
  | Err code => Finish (Err code)
  | Ok _ =>
      Request (CallPut (topology_physical_key name) payload 0 COORDINATOR_KEY_NOT_EXISTS_VERSION COORDINATOR_NO_MOD_REVISION_CHECK 0)
        (fun answer => Finish (match answer with Ok _ => Ok tt | Err code => Err code end))
  end.

(** Nothing is installed for a round that is over: [None]. *)
Definition install_if_current (name : string) (id : TopologyRecoveryRoundIdentity) (payload : string) : task (option (res unit)) :=
  let install := current ⟵ locked (fun _ m => (m, IsCurrentRoundLocked id m));
                 if (current : bool) then status ⟵ InstallSelected name payload; Finish (Some status) else Finish None in
  if fenced then
    Fence true (
      allowed ⟵ locked (fun o m => (m, roundCurrent o));
      status ⟵ (if (allowed : bool) then install else Finish None);
      Fence false (Finish status))
  else install.

Definition complete_installation (o : Oracle) (name : string) (id : TopologyRecoveryRoundIdentity) (version : Z) (status : res unit)
    (m : TopologyRecoveryManager) : TopologyRecoveryManager :=
  delay_if_unresolved o name (CompleteInstallationLocked (clock o 0%nat) name id version status m).

Definition after_authority_error (o : Oracle) (name : string) (id : TopologyRecoveryRoundIdentity) (m : TopologyRecoveryManager)
    : TopologyRecoveryManager * bool :=
  match contexts_ m !! name with
  | Some _ =>
      if negb (IsCurrentRoundLocked id m) then (m, false)
      else if IsHardDeadlineReachedLocked (clock o 0%nat) m then (ForceReadyLocked name m, true)
      else (ScheduleDelayedReconcileLocked o name (modify name (fun context => context{{discoveryDeadline := None}}) m), false)
  | None => (m, false)
  end.

Definition after_resolution (o : Oracle) (name : string) (id : TopologyRecoveryRoundIdentity) (m : TopologyRecoveryManager)
    : TopologyRecoveryManager :=
  match contexts_ m !! name with
  | Some context =>
      if IsCurrentRoundLocked id m && bool_decide (state context = BLOCKED) then
        if IsHardDeadlineReachedLocked (clock o 0%nat) m then ForceReadyLocked name m else ScheduleDelayedReconcileLocked o name m
      else m
  | None => m
  end.

Definition MaybeFinalize (name : string) (id : TopologyRecoveryRoundIdentity) : task (res unit) :=
  checked ⟵ locked (fun o => finalize_check o name id);
  match checked with
  | Some status => Finish status
  | None =>
      authority ⟵ AdoptStoredAuthorityIfPresent name id;
      match authority with
      | Err code =>
          forced ⟵ locked (fun o => after_authority_error o name id);
          Finish (if (forced : bool) then Ok tt else Err code)
      | Ok true => _ ⟵ locked_ (fun o => after_resolution o name id); Finish (Ok tt)
      | Ok false =>
          install ⇠ locked (fun o => select_installation o name id);
          match install with
          | None => Finish (Ok tt)
          | Some (version, payload) =>
              status ⟵ install_if_current name id payload;
              match status with
              | None => Finish (Err K_TRY_AGAIN)
              | Some status =>
                  _ ⟵ locked_ (fun o => complete_installation o name id version status);
                  Finish status
              end
          end
      end
  end.

Definition finish_reconcile (o : Oracle) (name : string) (id : TopologyRecoveryRoundIdentity) (m : TopologyRecoveryManager)
    : TopologyRecoveryManager :=
  let m := if IsCurrentRoundLocked id m
           then delay_if_unresolved o name (modify name (fun context => context{{reconcileQueued := false}}) m) else m in
  CompleteRecoveryWorkLocked m.

Definition RunReconcile (name : string) (id : TopologyRecoveryRoundIdentity) : task unit :=
  _ ⟵ MaybeFinalize name id;
  locked_ (fun o => finish_reconcile o name id).

Definition run_job (job : Job) : task unit :=
  match job with
  | ReconcileJob name id => RunReconcile name id
  | ValidateJob name id contextGeneration report => _ ⟵ RunValidation name id contextGeneration report; Finish tt
  end.

(** ** Delayed reconciliation *)

Definition GetReconcileDeadlineLocked (round : TopologyRecoveryRound) (context : ClusterRecoveryContext) : Z :=
  let deadline := hardDeadline round in
  let earlier (applies : bool) (t : option Z) (deadline : Z) :=
    match t with Some t => if applies && (t <? deadline) then t else deadline | None => deadline end in
  let deadline := earlier (bool_decide (state context = RECOVERING)) (fastRecoveryDeadline context) deadline in
  earlier (bool_decide (state context = RECOVERING) &&
           (base.size (observedMembers context) <=? base.size (reporterEvidence context))%nat &&
           negb (payloadValidationPending context) && negb (HasOutstandingPayloadRequest (reporterEvidence context)))
    (discoveryDeadline context) deadline.

Definition due_step (now : Z) (st : TopologyRecoveryManager * list string) (entry : string * ClusterRecoveryContext)
    : TopologyRecoveryManager * list string :=
  let '(m, due) := st in
  let '(name, context) := entry in
  let cleared := modify name (fun context => context{{delayedReconcileQueued := false; delayedReconcileIdentity := None}}) m in
  if negb (delayedReconcileQueued context) then st
  else match activeRound_ m with
  | Some round =>
      let current := match delayedReconcileIdentity context with
                     | Some id => IsCurrentRoundLocked id m
                     | None => IsCurrentRoundLocked {| leaderTerm := 0; coordinatorId := EmptyString |} m
                     end in
      if negb current || negb (unresolved (state context)) then (cleared, due)
      else if now <? GetReconcileDeadlineLocked round context then st
      else if negb (reconcileQueued context) && (pendingRecoveryWork_ m <? maxPendingRecoveryWork options_)
      then (cleared, due ++ [name]) else st
  | None => (cleared, due)
  end.

Definition CollectDueDelayedReconcileLocked (o : Oracle) (m : TopologyRecoveryManager) : TopologyRecoveryManager * list string :=
  foldl (due_step (clock o 0%nat)) (m, []) (iterate (contexts_ m)).

Fixpoint reschedule_all (due : list string) : task unit :=
  match due with
  | [] => Finish tt
  | name :: due =>
      scheduled ⟵ ScheduleReconcile name;
      _ ⟵ (if (scheduled : bool) then Finish tt else locked_ (fun o => ScheduleDelayedReconcileLocked o name));
      reschedule_all due
  end.

(** One wake-up of the loop. *)
Definition DelayedReconcileLoop_iteration : task unit :=
  due ⟵ locked (fun o m => if stopping_ m then (m, []) else CollectDueDelayedReconcileLocked o m);
  reschedule_all due.

Definition Shutdown (m : TopologyRecoveryManager) : TopologyRecoveryManager := m{{stopping_ := true}}.
End manager.
