(* ===== verification/RecoveryInvariant.v ===== *)
(** * The invariant of the recovery manager

    What is true of the manager whenever [mutex_] is free: the states shown to the
    RPC handlers are those of the contexts, evidence comes from observed members,
    a selected payload has been validated, a context that installs has selected
    the newest evidence, and the counters of work and bytes are those of the jobs
    and payloads that exist.  [tame] is the judgement of a step that keeps it and
    leaves the round and every installation alone. *)

From coqutil Require Import Datatypes.RecordSetters.
From S2P Require Import Prelude Ordered TopologyTypes HashRing BalancedRing TokenPlacement HostPort KeyHelper Hasher.
From S2P Require Import RingTheory HashAlgorithm OwnerSpec PlanningInterface HashPlans Snapshot RepositoryCodec MembershipTypes.
From S2P Require Import MemoryKvStore TtlManager WatchRegistry WatchDispatcher CoordinatorStore StoreProgram BackendInterface StoreBackend.
From S2P Require Import FailureClassifier RecoveryKeys TopologyRecoveryManager.

(** ** Maps *)

Lemma alter_as_insert {K A} `{Countable K} (m : gmap K A) k f x : m !! k = Some x -> alter f k m = <[k := f x]> m.
Proof.
  intros Hk. apply map_eq. intros j. destruct (decide (j = k)) as [->|Hne].
  - by rewrite lookup_alter_eq, lookup_insert_eq, Hk.
  - by rewrite lookup_alter_ne, lookup_insert_ne by done.
Qed.

Section total.
Context {K A : Type} `{Countable K} (f : A -> Z).

Definition total (m : gmap K A) : Z := map_fold (fun _ x s => f x + s) 0 m.

Lemma total_empty : total ∅ = 0.
Proof. apply map_fold_empty. Qed.

Lemma total_insert m k x : m !! k = None -> total (<[k := x]> m) = f x + total m.
Proof. intros Hk. unfold total. rewrite map_fold_insert_L; [done| |done]. intros. lia. Qed.

Lemma total_delete m k x : m !! k = Some x -> total m = f x + total (delete k m).
Proof.
  intros Hk. rewrite <-(total_insert (delete k m) k x) by apply lookup_delete_eq. by rewrite insert_delete_id.
Qed.

Lemma total_replace m k x y : m !! k = Some x -> total (<[k := y]> m) = total m - f x + f y.
Proof.
  intros Hk. rewrite (total_delete m k x), <-insert_delete_eq, total_insert by (done || apply lookup_delete_eq). lia.
Qed.

Lemma total_nonneg m : (forall x, 0 <= f x) -> 0 <= total m.
Proof.
  intros Hf. induction m as [|k x m Hk IH] using map_ind; [by rewrite total_empty|].
  rewrite total_insert by done. specialize (Hf x). lia.
Qed.

Lemma total_lookup m k x : (forall x, 0 <= f x) -> m !! k = Some x -> f x <= total m.
Proof. intros Hf Hk. rewrite (total_delete m k x) by done. pose proof (total_nonneg (delete k m) Hf). lia. Qed.
End total.

(** ** The newest evidence *)

Definition newest_evidence (evidence : gmap string TopologyCandidateEvidence) (version : Z) (digest : string) : Prop :=
  forall address e, evidence !! address = Some e -> te_hasSnapshot e = true ->
    te_topologyVersion e < version \/ (te_topologyVersion e = version /\ te_canonicalDigest e = digest).

Definition job_bytes (job : Job) : Z :=
  match job with ReconcileJob _ _ => 0 | ValidateJob _ _ _ report => report_size report end.
Definition job_round (job : Job) : TopologyRecoveryRoundIdentity :=
  match job with ReconcileJob _ id => id | ValidateJob _ id _ _ => id end.
Definition jobs_bytes (jobs : list Job) : Z := foldr (fun job s => job_bytes job + s) 0 jobs.

Lemma job_bytes_nonneg job : 0 <= job_bytes job.
Proof. destruct job; cbn; unfold report_size; lia. Qed.

Lemma jobs_bytes_app l l' : jobs_bytes (l ++ l') = jobs_bytes l + jobs_bytes l'.
Proof. induction l as [|job l IH]; [done|]. cbn [app jobs_bytes foldr] in *. fold (jobs_bytes (l ++ l')) (jobs_bytes l). lia. Qed.

Lemma jobs_bytes_nonneg l : 0 <= jobs_bytes l.
Proof. induction l as [|job l IH]; [done|]. cbn [jobs_bytes foldr]. fold (jobs_bytes l). pose proof (job_bytes_nonneg job). lia. Qed.

Lemma payload_size_nonneg context : 0 <= payload_size context.
Proof. unfold payload_size. case_match; lia. Qed.

Section invariant.
Context `{RE2, SHA256, Protobuf ClusterTopologyPb, MapIteration, !MapIterationLaws}.
Context (options_ : TopologyRecoveryOptions).

(** The bytes are the canonical encoding of a topology of that version and digest. *)
Definition valid_payload (payload : string) (version : Z) (digest : string) : Prop :=
  exists topology, DecodeTopology payload = Ok topology /\ EncodeTopology topology = Ok payload /\
    ts_version topology = version /\ GetSha256Hex payload = Ok digest.

Lemma ValidatePayload_valid report : ValidatePayload report = Ok tt ->
  valid_payload (rp_canonicalTopology report) (rp_topologyVersion report) (rp_canonicalDigest report).
Proof.
  unfold ValidatePayload. intros E. apply bind_Ok in E as (topology & Hd & E). apply bind_Ok in E as (u & Hv & E).
  apply bind_Ok in E as (canonical & He & E). apply bind_Ok in E as (u' & Hc & E). apply bind_Ok in E as (digest & Hs & E).
  apply check_Ok in Hv, Hc, E. apply Z.eqb_eq in Hv. apply bool_decide_eq_true in Hc, E. subst canonical digest. by exists topology.
Qed.

Lemma SelectHighest_newest evidence : let s := SelectHighestCandidate evidence in
  sl_conflictingHighest s = false -> newest_evidence evidence (sl_highestVersion s) (sl_highestDigest s).
Proof.
  cbv zeta. unfold SelectHighestCandidate, newest_evidence.
  assert (Hl : forall l x, x ∈ l -> te_hasSnapshot x.2 = true ->
    let s := foldl (fun s (entry : string * TopologyCandidateEvidence) => select_step s entry.2) no_selection l in
    te_topologyVersion x.2 <= sl_highestVersion s /\
    (sl_conflictingHighest s = false -> te_topologyVersion x.2 = sl_highestVersion s -> te_canonicalDigest x.2 = sl_highestDigest s)).
  { induction l as [|y l IH] using rev_ind; intros x Hx Hs; [by apply elem_of_nil in Hx|]. cbv zeta in *. rewrite foldl_app. cbn [foldl].
    set (s := foldl _ no_selection l) in *. unfold select_step. apply elem_of_app in Hx as [Hx| ->%list_elem_of_singleton].
    - specialize (IH x Hx Hs) as [Hle Hd]. destruct (te_hasSnapshot y.2); cbn [negb]; [|done].
      destruct (Z.ltb_spec (sl_highestVersion s) (te_topologyVersion y.2)); cbn; [split; [lia|intros; lia]|].
      destruct (_ && _); cbn; done.
    - rewrite Hs. cbn [negb]. destruct (Z.ltb_spec (sl_highestVersion s) (te_topologyVersion y.2)); cbn; [done|].
      destruct (_ && _) eqn:E; cbn; [split; [lia|done]|]. split; [lia|]. intros _ Hv.
      rewrite Hv, Z.eqb_refl in E. cbn in E. apply negb_false_iff, bool_decide_eq_true in E. done. }
  intros Hc address e He Hs. assert (Hin : (address, e) ∈ iterate evidence) by (rewrite iterate_perm; by apply elem_of_map_to_list).
  destruct (Hl _ _ Hin Hs) as [Hle Hd]. cbn in Hle, Hd. destruct (Z.eq_dec (te_topologyVersion e) (sl_highestVersion (SelectHighestCandidate evidence))) as [Hv|Hv].
  - right. split; [exact Hv|]. by apply Hd.
  - left. unfold SelectHighestCandidate in Hv. lia.
Qed.

(** ** The invariant *)

Record context_ok (context : ClusterRecoveryContext) : Prop := {
  co_evidence : dom (reporterEvidence context) ⊆ observedMembers context;
  co_selected payload : selectedCanonicalTopology context = Some payload ->
    valid_payload payload (selectedVersion context) (selectedCanonicalDigest context);
  co_installing : state context = INSTALLING -> is_Some (selectedCanonicalTopology context) /\
    newest_evidence (reporterEvidence context) (selectedVersion context) (selectedCanonicalDigest context)
}.

(** [held] are the jobs the threads run that have not given back their work,
    [rounds] the rounds begun so far, and [slack] bytes may still be retained. *)
Record manager_ok (slack : Z) (held : gmap nat Job) (rounds : list TopologyRecoveryRoundIdentity) (m : TopologyRecoveryManager) : Prop := {
  mo_states : rpcAdmissionStates_ m = state <$> contexts_ m;
  mo_names name : is_Some (contexts_ m !! name) -> KeyHelper.Create name = Ok (new_TopologyKeyHelper name);
  mo_contexts name context : contexts_ m !! name = Some context -> context_ok context;
  mo_round round : activeRound_ m = Some round -> identity round ∈ rounds;
  mo_jobs job : job ∈ recoveryPool_ m -> job_round job ∈ rounds;
  mo_pending : pendingRecoveryWork_ m = Z.of_nat (length (recoveryPool_ m) + base.size held);
  mo_admitted : admittedReportBytes_ m = jobs_bytes (recoveryPool_ m) + total job_bytes held;
  mo_retained : retainedCandidateBytes_ m = total payload_size (contexts_ m);
  mo_limit : retainedCandidateBytes_ m + admittedReportBytes_ m + slack <= maxCandidateMemoryBytes options_
}.

(** What a context installs. *)
Definition installing (context : ClusterRecoveryContext) : option (Z * string) :=
  if bool_decide (state context = INSTALLING) then pair (selectedVersion context) <$> selectedCanonicalTopology context else None.
Definition installing_at (m : TopologyRecoveryManager) (name : string) : option (Z * string) := contexts_ m !! name ≫= installing.

Section steps.
Context (slack : Z) (held : gmap nat Job) (rounds : list TopologyRecoveryRoundIdentity).
Hypothesis Hmax : maxCandidateMemoryBytes options_ < 2 ^ 64.
Hypothesis Hslack : 0 <= slack.
Abbreviation ok := (manager_ok slack held rounds).

Record tame (m m' : TopologyRecoveryManager) : Prop := {
  tm_ok : ok m'; tm_round : activeRound_ m' = activeRound_ m; tm_installing name : installing_at m' name = installing_at m name
}.

Lemma tame_refl m : ok m -> tame m m.
Proof. done. Qed.

Lemma tame_trans m1 m2 m3 : tame m1 m2 -> tame m2 m3 -> tame m1 m3.
Proof. intros [? ? E1] [? ? E2]. constructor; [done|congruence|]. intros name. by rewrite E2, E1. Qed.

Lemma bytes_bounds m : ok m -> 0 <= retainedCandidateBytes_ m < 2 ^ 64 /\ 0 <= admittedReportBytes_ m < 2 ^ 64.
Proof.
  intros Hok. pose proof (mo_limit _ _ _ _ Hok). rewrite (mo_retained _ _ _ _ Hok), (mo_admitted _ _ _ _ Hok) in *.
  pose proof (total_nonneg payload_size (contexts_ m) payload_size_nonneg). pose proof (total_nonneg job_bytes held job_bytes_nonneg).
  pose proof (jobs_bytes_nonneg (recoveryPool_ m)). lia.
Qed.

(** A change of one context, and of the state shown for it. *)
Record changes (name : string) (context context' : ClusterRecoveryContext) (m m' : TopologyRecoveryManager) : Prop := {
  ch_from : contexts_ m !! name = Some context;
  ch_contexts : contexts_ m' = <[name := context']> (contexts_ m);
  ch_states : rpcAdmissionStates_ m' = <[name := state context']> (rpcAdmissionStates_ m);
  ch_retained : retainedCandidateBytes_ m' = u64 (retainedCandidateBytes_ m - payload_size context + payload_size context');
  ch_round : activeRound_ m' = activeRound_ m;
  ch_rest : recoveryPool_ m' = recoveryPool_ m /\ pendingRecoveryWork_ m' = pendingRecoveryWork_ m /\ admittedReportBytes_ m' = admittedReportBytes_ m
}.

Lemma ok_changes name context context' m m' : ok m -> changes name context context' m m' -> context_ok context' ->
  payload_size context' <= payload_size context -> ok m'.
Proof.
  intros Hok [Hl Hcs Hst Hret Hrd' (Hpool & Hpend & Hadm)] Hc' Hle. pose proof (bytes_bounds m Hok) as [Hr Ha].
  pose proof (total_lookup payload_size _ _ _ payload_size_nonneg Hl). pose proof (payload_size_nonneg context').
  destruct Hok as [Hs Hnames Hc Hrd Hj Hp Had Hre Hlim]. rewrite Hre in *.
  constructor; rewrite ?Hcs, ?Hst, ?Hret, ?Hrd', ?Hpool, ?Hpend, ?Hadm; try done.
  - by rewrite Hs, fmap_insert.
  - intros k Hk. apply Hnames. destruct (decide (k = name)) as [->|Hne]; [by rewrite Hl|by rewrite lookup_insert_ne in Hk by done].
  - intros k c. destruct (decide (k = name)) as [->|Hne]; [rewrite lookup_insert_eq; by intros [= <-]|rewrite lookup_insert_ne by done; apply Hc].
  - rewrite (total_replace payload_size _ _ _ context' Hl), u64_small by lia. lia.
  - rewrite u64_small by lia. lia.
Qed.

Lemma tame_changes name context context' m m' : ok m -> changes name context context' m m' -> context_ok context' ->
  payload_size context' <= payload_size context -> installing context' = installing context -> tame m m'.
Proof.
  intros Hok Hch Hc' Hle Hi. constructor; [by eapply ok_changes|apply (ch_round _ _ _ _ _ Hch)|].
  intros k. unfold installing_at. rewrite (ch_contexts _ _ _ _ _ Hch). destruct (decide (k = name)) as [->|Hne].
  - by rewrite lookup_insert_eq, (ch_from _ _ _ _ _ Hch).
  - by rewrite lookup_insert_ne.
Qed.

Lemma changes_modify name context f m : ok m -> contexts_ m !! name = Some context -> state (f context) = state context ->
  payload_size (f context) = payload_size context -> changes name context (f context) m (modify name f m).
Proof.
  intros Hok Hl Hs Hp. pose proof (bytes_bounds m Hok) as [Hr _]. constructor; try done.
  - exact (alter_as_insert (contexts_ m) name f context Hl).
  - rewrite insert_id; [done|]. by rewrite (mo_states _ _ _ _ Hok), lookup_fmap, Hl, Hs.
  - transitivity (retainedCandidateBytes_ m); [done|]. rewrite Hp, u64_small; lia.
Qed.

(** The fields that decide what a context is and installs. *)
Definition core (context : ClusterRecoveryContext) :=
  (state context, observedMembers context, reporterEvidence context,
   (selectedCanonicalTopology context, selectedCanonicalDigest context, selectedVersion context)).

Lemma core_ok context context' : core context' = core context -> context_ok context -> context_ok context'.
Proof.
  intros [= Es Eo Ee Ep Ed Ev] [H1' H2' H3']. constructor; rewrite ?Es, ?Eo, ?Ee, ?Ep, ?Ed, ?Ev; done.
Qed.

(** Flags and deadlines change freely. *)
Lemma tame_flags name f m : ok m -> (forall context, core (f context) = core context) -> tame m (modify name f m).
Proof.
  intros Hok Hf. destruct (contexts_ m !! name) as [context|] eqn:Hl.
  - pose proof (Hf context) as Hc. assert (payload_size (f context) = payload_size context /\ installing (f context) = installing context /\
      state (f context) = state context) as (Hp & Hi & Hs) by (injection Hc as Es _ _ Ep _ Ev; unfold payload_size, installing; by rewrite Es, Ep, Ev).
    eapply tame_changes; [done|by apply changes_modify| |lia|done]. eapply core_ok; [done|]. by eapply mo_contexts.
  - assert (modify name f m = m) as ->; [|by apply tame_refl]. destruct m. unfold modify. cbn in *. f_equal.
    apply map_eq. intros j. destruct (decide (j = name)) as [->|Hne]; [by rewrite lookup_alter_eq, Hl|by rewrite lookup_alter_ne].
Qed.

(** ** Operations on a context that installs nothing *)

Definition idle (name : string) (m : TopologyRecoveryManager) : Prop := installing_at m name = None.

Lemma idle_state name m context : ok m -> idle name m -> contexts_ m !! name = Some context -> state context <> INSTALLING.
Proof.
  intros Hok Hi Hl Hs. unfold idle, installing_at in Hi. rewrite Hl in Hi. cbn in Hi. unfold installing in Hi.
  rewrite bool_decide_true in Hi by done. destruct (co_installing _ (mo_contexts _ _ _ _ Hok _ _ Hl) Hs) as [[p Hp] _].
  by rewrite Hp in Hi.
Qed.

Lemma not_installing name m context : contexts_ m !! name = Some context -> state context <> INSTALLING -> idle name m.
Proof. intros Hl Hs. unfold idle, installing_at. rewrite Hl. cbn. unfold installing. by rewrite bool_decide_false. Qed.

Lemma tame_then name m m' m'' : idle name m -> tame m m' -> (ok m' -> idle name m' -> tame m' m'') -> tame m m''.
Proof.
  intros Hi Ht Hn. eapply tame_trans; [done|]. apply Hn; [apply Ht|]. unfold idle. by rewrite (tm_installing _ _ Ht).
Qed.

Lemma modify_absent name f m : contexts_ m !! name = None -> modify name f m = m.
Proof.
  intros Hl. destruct m. unfold modify. cbn in *. f_equal. apply map_eq. intros j.
  destruct (decide (j = name)) as [->|Hne]; [by rewrite lookup_alter_eq, Hl|by rewrite lookup_alter_ne].
Qed.

Lemma tame_set_state name st m : ok m -> idle name m -> st <> INSTALLING -> tame m (SetStateLocked name st m).
Proof.
  intros Hok Hi Hst. pose proof (bytes_bounds m Hok) as [Hr _]. destruct (contexts_ m !! name) as [context|] eqn:Hl.
  - eapply (tame_changes name context (context{{state := st}})); [done| | |done|].
    + constructor; [done| | | |done|done].
      * exact (alter_as_insert (contexts_ m) name (fun context => context{{state := st}}) context Hl).
      * transitivity (alter (fun _ => st) name (rpcAdmissionStates_ m)); [done|]. rewrite (alter_as_insert _ _ _ (state context)); [done|]. by rewrite (mo_states _ _ _ _ Hok), lookup_fmap, Hl.
      * transitivity (retainedCandidateBytes_ m); [done|]. change (payload_size (context{{state := st}})) with (payload_size context).
        rewrite u64_small; lia.
    + destruct (mo_contexts _ _ _ _ Hok _ _ Hl) as [H1' H2' H3']. constructor; [done|done|]. intros Hs. by destruct (Hst Hs).
    + unfold installing. rewrite !bool_decide_false by (done || by eapply idle_state). done.
  - unfold SetStateLocked. rewrite modify_absent by done. constructor; [|done|done].
    destruct Hok as [Hs Hn Hc Hrd Hj Hp Had Hre Hlim]. constructor; try done.
    transitivity (alter (fun _ => st) name (rpcAdmissionStates_ m)); [done|]. transitivity (rpcAdmissionStates_ m); [|exact Hs].
    rewrite Hs. apply map_eq. intros j.
    destruct (decide (j = name)) as [->|Hne]; [by rewrite lookup_alter_eq, lookup_fmap, Hl|by rewrite lookup_alter_ne].
Qed.

Lemma tame_release name m : ok m -> idle name m -> tame m (ReleaseSelectedPayload name m).
Proof.
  intros Hok Hi. unfold ReleaseSelectedPayload. destruct (contexts_ m !! name) as [context|] eqn:Hl; [|by apply tame_refl].
  pose proof (idle_state _ _ _ Hok Hi Hl) as Hst. pose proof (payload_size_nonneg context). destruct (mo_contexts _ _ _ _ Hok _ _ Hl) as [H1' H2' H3'].
  set (f := fun context : ClusterRecoveryContext => _). eapply (tame_changes name context (f context)); [done| | |done|].
  - constructor; [done| | | |done|done].
    + exact (alter_as_insert (contexts_ m) name f context Hl).
    + rewrite insert_id; [done|]. by rewrite (mo_states _ _ _ _ Hok), lookup_fmap, Hl.
    + cbn. by rewrite Z.add_0_r.
  - constructor; done.
  - unfold installing. by rewrite !bool_decide_false.
Qed.

(** Evidence of an idle context. *)
Lemma tame_evidence name f m : ok m -> idle name m ->
  (forall context, contexts_ m !! name = Some context -> dom (reporterEvidence (f context)) ⊆ observedMembers (f context)) ->
  (forall context, state (f context) = state context /\ selectedCanonicalTopology (f context) = selectedCanonicalTopology context /\
     selectedVersion (f context) = selectedVersion context /\ selectedCanonicalDigest (f context) = selectedCanonicalDigest context) ->
  tame m (modify name f m).
Proof.
  intros Hok Hi Hd Hf. destruct (contexts_ m !! name) as [context|] eqn:Hl; [|rewrite modify_absent by done; by apply tame_refl].
  destruct (Hf context) as (Hs & Hp & Hv & Hg). pose proof (idle_state _ _ _ Hok Hi Hl) as Hst.
  assert (payload_size (f context) = payload_size context) as Hsz by (unfold payload_size; by rewrite Hp).
  eapply tame_changes; [done|by apply changes_modify| |lia|].
  - destruct (mo_contexts _ _ _ _ Hok _ _ Hl) as [H1' H2' H3']. constructor; [by apply Hd|intros payload; rewrite Hp, Hv, Hg; apply H2'|rewrite Hs; by intros ?%Hst].
  - unfold installing. by rewrite Hs, !bool_decide_false.
Qed.

Lemma tame_force name m : ok m -> idle name m -> tame m (ForceReadyLocked name m).
Proof.
  intros Hok Hi. unfold ForceReadyLocked. apply (tame_then name _ (SetStateLocked name READY m)); [done|by apply tame_set_state|]. intros Hok1 Hi1.
  eapply (tame_then name); [done| |intros; by apply tame_release]. apply tame_evidence; try done.
Qed.

Lemma tame_refresh name m : ok m -> idle name m -> tame m (RefreshSelection name m).
Proof.
  intros Hok Hi. unfold RefreshSelection. destruct (contexts_ m !! name); [|by apply tame_refl].
  case_match; [by apply tame_refl|by apply tame_release].
Qed.

(** ** Scheduling *)

Lemma tame_fields m m' : ok m -> contexts_ m' = contexts_ m -> rpcAdmissionStates_ m' = rpcAdmissionStates_ m ->
  retainedCandidateBytes_ m' = retainedCandidateBytes_ m -> admittedReportBytes_ m' = admittedReportBytes_ m ->
  activeRound_ m' = activeRound_ m ->
  (exists jobs, recoveryPool_ m' = recoveryPool_ m ++ jobs /\ jobs_bytes jobs = 0 /\ (forall job, job ∈ jobs -> job_round job ∈ rounds) /\
     pendingRecoveryWork_ m' = pendingRecoveryWork_ m + Z.of_nat (length jobs)) -> tame m m'.
Proof.
  intros [Hs Hn Hc Hrd Hj Hp Had Hre Hlim] E1 E2 E3 E4 E5 (jobs & E6 & Hz & Hjs & E7). constructor; [|done|intros name; unfold installing_at; by rewrite E1].
  constructor; rewrite ?E1, ?E2, ?E3, ?E4, ?E5, ?E6, ?E7; try done.
  - intros job [Hin|Hin]%elem_of_app; auto.
  - rewrite Hp, length_app. lia.
  - rewrite jobs_bytes_app, Had. lia.
Qed.

Lemma tame_quiet m m' : ok m -> contexts_ m' = contexts_ m -> rpcAdmissionStates_ m' = rpcAdmissionStates_ m ->
  retainedCandidateBytes_ m' = retainedCandidateBytes_ m -> admittedReportBytes_ m' = admittedReportBytes_ m ->
  activeRound_ m' = activeRound_ m -> recoveryPool_ m' = recoveryPool_ m -> pendingRecoveryWork_ m' = pendingRecoveryWork_ m -> tame m m'.
Proof.
  intros Hok E1 E2 E3 E4 E5 E6 E7. apply tame_fields; try done. exists []. rewrite app_nil_r, Z.add_0_r. split_and!; try done.
  intros job Hj. by apply elem_of_nil in Hj.
Qed.

Lemma tame_delay o name m : ok m -> tame m (ScheduleDelayedReconcileLocked o name m).
Proof.
  intros Hok. unfold ScheduleDelayedReconcileLocked.
  destruct (activeRound_ m) as [round|]; [|by apply tame_refl]. destruct (contexts_ m !! name) as [context|]; [|by apply tame_refl].
  case_match; [by apply tame_refl|]. assert (Ht : tame m (StartDelayedReconcileWorkerLocked o m).1).
  { unfold StartDelayedReconcileWorkerLocked. repeat case_match; try (by apply tame_refl). by apply tame_quiet. }
  destruct (StartDelayedReconcileWorkerLocked o m) as [m' started]. case_match; [done|].
  eapply tame_trans; [done|]. by apply tame_flags; [apply Ht|].
Qed.

Lemma tame_delay_unresolved o name m : ok m -> tame m (delay_if_unresolved o name m).
Proof. intros Hok. unfold delay_if_unresolved. repeat case_match; try (by apply tame_refl). by apply tame_delay. Qed.

Lemma tame_schedule o name m : ok m -> tame m (schedule_reconcile options_ o name m).1.
Proof.
  intros Hok. unfold schedule_reconcile. destruct (activeRound_ m) as [round|] eqn:Hr; [|by apply tame_refl].
  destruct (contexts_ m !! name) as [context|]; [|by apply tame_refl]. case_match; [by apply tame_refl|].
  set (m0 := m{{pendingRecoveryWork_ ::= Z.succ}}). destruct (accepts o); cbn [fst].
  - set (m1 := m0{{recoveryPool_ ::= fun jobs => (jobs ++ [ReconcileJob name (identity round)])}}).
    assert (Ht : tame m m1).
    { apply tame_fields; try done. exists [ReconcileJob name (identity round)]. split_and!; try done.
      intros job ->%list_elem_of_singleton. by eapply mo_round. }
    change (tame m (modify name (fun context => context{{reconcileQueued := true}}) m1)).
    eapply (tame_trans _ m1); [done|]. by apply tame_flags; [apply Ht|].
  - set (f := fun context => context{{reconcileQueued := true}}). set (g := fun context => context{{reconcileQueued := false}}).
    assert (CompleteRecoveryWorkLocked (modify name g (modify name f m0)) = modify name g (modify name f m)) as ->.
    { assert (Hp : 0 <= pendingRecoveryWork_ m) by (rewrite (mo_pending _ _ _ _ Hok); lia). destruct m. unfold CompleteRecoveryWorkLocked, modify, m0. cbn in *.
      rewrite (proj2 (Z.eqb_neq _ _)) by lia. f_equal. lia. }
    eapply tame_trans; [by apply (tame_flags name f)|]. apply tame_flags; [by apply tame_flags|done].
Qed.
End steps.
End invariant.
