(* ===== verification/RecoveryHandlers.v ===== *)
(** * The steps of the recovery manager keep its invariant

    Every step under [mutex_] but two is [tame]; [select_installation] starts an
    installation of the newest evidence, and [CompleteInstallationLocked] ends one. *)

From coqutil Require Import Datatypes.RecordSetters.
From S2P Require Import Prelude Ordered TopologyTypes HashRing BalancedRing TokenPlacement HostPort KeyHelper Hasher.
From S2P Require Import RingTheory HashAlgorithm OwnerSpec PlanningInterface HashPlans Snapshot RepositoryCodec MembershipTypes.
From S2P Require Import MemoryKvStore TtlManager WatchRegistry WatchDispatcher CoordinatorStore StoreProgram BackendInterface StoreBackend.
From S2P Require Import FailureClassifier RecoveryKeys TopologyRecoveryManager RecoveryInvariant.

(** A parsed key names a cluster that exists. *)
Lemma ParseKey_name `{RE2} key parsed : ParseKey key = Ok parsed ->
  KeyHelper.Create (pk_clusterName parsed) = Ok (new_TopologyKeyHelper (pk_clusterName parsed)).
Proof.
  assert (Hm : forall name tables p, match_tables name key tables = Ok (Some p) -> pk_clusterName p = name).
  { intros name tables p. induction tables as [|[table kind] tables IH]; cbn [match_tables]; [done|].
    case_bool_decide; [done|]. case_match; [done|]. intros (u & _ & [= <-])%bind_Ok. done. }
  assert (Hc : forall name keys, KeyHelper.Create name = Ok keys -> keys = new_TopologyKeyHelper name).
  { intros name keys. unfold KeyHelper.Create. case_match; [done|]. by intros [= <-]. }
  unfold ParseKey, MatchKeyspace. intros (u & _ & E)%bind_Ok. apply bind_Ok in E as (keys & Hk & E).
  apply bind_Ok in E as ([p|] & Hp & E).
  - injection E as <-. rewrite (Hc _ _ Hk) in Hp. by rewrite (Hm _ _ _ Hp).
  - destruct (find_char _ _); [|done]. apply bind_Ok in E as (keys' & Hk' & E). apply bind_Ok in E as ([p|] & Hp' & E); [|done].
    injection E as <-. pose proof (Hc _ _ Hk') as ->. by rewrite (Hm _ _ _ Hp').
Qed.

Section handlers.
Context `{RE2, SHA256, Protobuf ClusterTopologyPb, MapIteration, !MapIterationLaws}.
Context (options_ : TopologyRecoveryOptions) (coordinatorId_ : string).
Hypothesis Hmax : maxCandidateMemoryBytes options_ < 2 ^ 64.

Section tame.
Context (slack : Z) (held : gmap nat Job) (rounds : list TopologyRecoveryRoundIdentity).
Hypothesis Hslack : 0 <= slack.
Abbreviation ok := (manager_ok options_ slack held rounds).
Abbreviation tame := (tame options_ slack held rounds).
Abbreviation tame_flags := (tame_flags options_ slack held rounds Hmax Hslack).
Abbreviation tame_then name := (tame_then options_ slack held rounds name).

(** ** Memberships *)

Lemma newest_sub evidence evidence' version digest : evidence' ⊆ evidence -> newest_evidence evidence version digest ->
  newest_evidence evidence' version digest.
Proof. intros Hs Hn address e He. apply (Hn address e). by eapply lookup_weaken. Qed.

(** Members come and evidence goes, whatever the state. *)
Lemma tame_members name f m : ok m ->
  (forall context, contexts_ m !! name = Some context -> reporterEvidence (f context) ⊆ reporterEvidence context /\
     dom (reporterEvidence (f context)) ⊆ observedMembers (f context)) ->
  (forall context, state (f context) = state context /\ selectedCanonicalTopology (f context) = selectedCanonicalTopology context /\
     selectedVersion (f context) = selectedVersion context /\ selectedCanonicalDigest (f context) = selectedCanonicalDigest context) ->
  tame m (modify name f m).
Proof.
  intros Hok Hd Hf. destruct (contexts_ m !! name) as [context|] eqn:Hl; [|rewrite modify_absent by done; by apply tame_refl].
  destruct (Hf context) as (Hs & Hp & Hv & Hg). destruct (Hd context) as [Hsub Hdom]; [done|].
  assert (payload_size (f context) = payload_size context) as Hsz by (unfold payload_size; by rewrite Hp).
  eapply tame_changes; [done|done|done|by eapply changes_modify| |lia|].
  - destruct (mo_contexts _ _ _ _ _ Hok _ _ Hl) as [H1' H2' H3']. constructor; [done|intros payload; rewrite Hp, Hv, Hg; apply H2'|].
    rewrite Hs. intros [Hi Hn]%H3'. rewrite Hp, Hv, Hg. split; [done|]. by eapply newest_sub.
  - unfold installing. by rewrite Hs, Hp, Hv.
Qed.

Lemma tame_ensure now name fast m : ok m -> KeyHelper.Create name = Ok (new_TopologyKeyHelper name) ->
  tame m (EnsureContext options_ now name fast m).1.
Proof.
  intros Hok Hname. unfold EnsureContext. destruct (contexts_ m !! name) as [|] eqn:Hl; [by apply tame_refl|].
  case_match; [by apply tame_refl|]. cbv zeta. set (candidate := new_ClusterRecoveryContext{{generation := _; fastRecoveryDeadline := _}}).
  assert (Hnone : rpcAdmissionStates_ m !! name = None) by (by rewrite (mo_states _ _ _ _ _ Hok), lookup_fmap, Hl).
  change (rpcAdmissionStates_ (m{{nextContextGeneration_ ::= fun n => u64 (n + 1)}})) with (rpcAdmissionStates_ m). rewrite Hnone. cbn [fst].
  assert (Hc0 : context_ok candidate) by (by constructor). assert (Hi0 : installing candidate = None) by done.
  assert (Hp0 : payload_size candidate = 0) by done. assert (Hst0 : state candidate = RECOVERING) by done. clearbody candidate.
  set (m' := _{{contexts_ ::= _; rpcAdmissionStates_ ::= _}}).
  assert (Ec : contexts_ m' = <[name := candidate]> (contexts_ m)) by done.
  constructor; [|done|].
  - destruct Hok as [Hs Hn Hc Hrd Hj Hp Had Hre Hlim]. constructor; rewrite ?Ec; try done.
    + transitivity (<[name := RECOVERING]> (rpcAdmissionStates_ m)); [done|]. by rewrite Hs, fmap_insert, Hst0.
    + intros k. destruct (decide (k = name)) as [->|Hne]; [done|]. rewrite lookup_insert_ne by done. apply Hn.
    + intros k c. destruct (decide (k = name)) as [->|Hne]; [rewrite lookup_insert_eq; by intros [= <-]|].
      rewrite lookup_insert_ne by done. apply Hc.
    + rewrite total_insert by done. transitivity (retainedCandidateBytes_ m); [done|]. lia.
  - intros k. unfold installing_at. rewrite Ec. destruct (decide (k = name)) as [->|Hne]; [by rewrite lookup_insert_eq, Hl|].
    by rewrite lookup_insert_ne.
Qed.

Lemma tame_present o parsed observation m : ok m -> KeyHelper.Create (pk_clusterName parsed) = Ok (new_TopologyKeyHelper (pk_clusterName parsed)) ->
  tame m (member_present options_ o parsed observation m).
Proof.
  intros Hok Hname. unfold member_present. pose proof (tame_ensure (clock o 0%nat) _ (bool_decide (observation = STARTING)) m Hok Hname) as Ht.
  destruct (EnsureContext options_ _ _ _ m) as [m1 [u|code]]; [|done]. cbn [fst] in Ht. eapply tame_trans; [done|].
  set (m2 := if bool_decide (observation = EXISTING) then _ else m1).
  assert (Ht2 : tame m1 m2) by (unfold m2; case_match; [by apply tame_flags; [apply Ht|]|apply tame_refl; apply Ht]).
  eapply tame_trans; [done|]. destruct (contexts_ m2 !! pk_clusterName parsed) as [context|] eqn:Hl; [|apply tame_refl; apply Ht2].
  case_match; [apply tame_refl; apply Ht2|]. cbv zeta.
  set (f := fun context => context{{observedMembers ::= union {[ pk_relativeKey parsed ]} }}).
  assert (Ht3 : tame m2 (modify (pk_clusterName parsed) f m2)).
  { apply tame_members; [apply Ht2| |done]. intros c Hc. cbn. split; [reflexivity|].
    pose proof (co_evidence _ (mo_contexts _ _ _ _ _ (tm_ok _ _ _ _ _ _ Ht2) _ _ Hc)). set_solver. }
  case_match; [|done]. eapply tame_trans; [done|]. by apply tame_flags; [apply Ht3|].
Qed.

Lemma release_payload name m context : contexts_ (ReleaseSelectedPayload name m) !! name = Some context -> payload_size context = 0.
Proof.
  unfold ReleaseSelectedPayload. destruct (contexts_ m !! name) as [c|] eqn:Hl; [|by rewrite Hl].
  unfold modify. cbn. rewrite lookup_alter_eq. destruct m; cbn in *. rewrite Hl. by intros [= <-].
Qed.

Lemma tame_erase name m : ok m -> idle name m -> tame m (erase_if_empty name m).
Proof.
  intros Hok Hi. unfold erase_if_empty. destruct (contexts_ m !! name) as [context|] eqn:Hl; [|by apply tame_refl].
  case_match; [|by apply tame_refl]. eapply (tame_then name); [done|by apply tame_release|]. intros Hok1 Hi1.
  pose proof (release_payload name m) as Hz. set (m1 := ReleaseSelectedPayload name m) in *.
  set (m2 := m1{{rpcAdmissionStates_ ::= _; contexts_ ::= _}}). assert (Ec : contexts_ m2 = delete name (contexts_ m1)) by done.
  constructor; [|done|].
  - destruct Hok1 as [Hs Hn Hc Hrd Hj Hp Had Hre Hlim]. constructor; rewrite ?Ec; try done.
    + transitivity (delete name (rpcAdmissionStates_ m1)); [done|]. by rewrite Hs, fmap_delete.
    + intros k. rewrite lookup_delete_is_Some. intros [_ Hk]. by apply Hn.
    + intros k c [_ Hk]%lookup_delete_Some. by eapply Hc.
    + transitivity (retainedCandidateBytes_ m1); [done|]. rewrite Hre. destruct (contexts_ m1 !! name) as [c|] eqn:E.
      * rewrite (total_delete _ _ _ _ E), (Hz c) by done. done.
      * by rewrite delete_id.
  - intros k. unfold installing_at. rewrite Ec. destruct (decide (k = name)) as [->|Hne]; [|by rewrite lookup_delete_ne].
    rewrite lookup_delete_eq. symmetry. exact Hi1.
Qed.

Lemma tame_removed o parsed m : ok m -> tame m (member_removed options_ o parsed m).
Proof.
  intros Hok. unfold member_removed. set (name := pk_clusterName parsed). destruct (contexts_ m !! name) as [context|] eqn:Hl; [|by apply tame_refl].
  cbv zeta. set (remaining := delete _ (reporterEvidence context)). set (removedHighest := match reporterEvidence context !! _ with Some _ => _ | None => _ end).
  set (f := fun context : ClusterRecoveryContext => context{{observedMembers := _; reporterEvidence := remaining}}).
  assert (Ht : tame m (modify name f m)).
  { apply tame_members; [done| |done]. intros c Hc. assert (c = context) as -> by congruence.
    pose proof (co_evidence _ (mo_contexts _ _ _ _ _ Hok _ _ Hl)). split; [apply delete_subseteq|].
    change (dom remaining ⊆ observedMembers context ∖ {[ pk_relativeKey parsed ]}). unfold remaining. rewrite dom_delete_L. set_solver. }
  case_bool_decide as Hst; [done|]. assert (Hi : idle name m) by by eapply not_installing.
  eapply (tame_then name); [done|exact Ht|]. intros Hok1 Hi1. set (m1 := modify name f m) in *.
  set (m2 := if _ || removedHighest then _ else m1).
  assert (Ht2 : tame m1 m2).
  { unfold m2. case_match; [|by apply tame_refl]. apply (tame_then name _ (SetStateLocked name RECOVERING m1)); [done|by apply tame_set_state|].
    intros. by apply tame_flags. }
  eapply (tame_then name); [done|exact Ht2|]. intros Hok2 Hi2.
  eapply (tame_then name); [done|by apply tame_refresh|]. intros Hok3 Hi3. set (m3 := RefreshSelection name m2) in *.
  set (m4 := if bool_decide (remaining = ∅) then _ else m3).
  assert (Ht4 : tame m3 m4) by (unfold m4; case_match; [by apply tame_flags|by apply tame_refl]).
  eapply (tame_then name); [done|exact Ht4|]. intros Hok4 Hi4. by apply tame_erase.
Qed.

Lemma tame_membership o parsed observation m : ok m -> KeyHelper.Create (pk_clusterName parsed) = Ok (new_TopologyKeyHelper (pk_clusterName parsed)) ->
  tame m (UpdateMembership options_ parsed observation o m).
Proof.
  intros Hok Hname. unfold UpdateMembership. destruct (activeRound_ m); [|by apply tame_refl].
  destruct observation; [by apply tame_removed|by apply tame_present..].
Qed.

(** ** Evidence *)

(** The member is observed. *)
Definition sees (name address : string) (m : TopologyRecoveryManager) : Prop :=
  forall context, contexts_ m !! name = Some context -> address ∈ observedMembers context.

Lemma sees_modify name address f m : (forall context, observedMembers (f context) = observedMembers context) ->
  sees name address m -> sees name address (modify name f m).
Proof.
  intros Hf Hs context. unfold modify. cbn. destruct m; cbn in *. rewrite lookup_alter_eq.
  intros (c & Hc & ->)%fmap_Some. rewrite Hf. by apply Hs.
Qed.

Lemma sees_release name address m : sees name address m -> sees name address (ReleaseSelectedPayload name m).
Proof. intros Hs. unfold ReleaseSelectedPayload. destruct (contexts_ m !! name); [|done]. by apply sees_modify. Qed.

Lemma sees_refresh name address m : sees name address m -> sees name address (RefreshSelection name m).
Proof. intros Hs. unfold RefreshSelection. repeat case_match; [done|by apply sees_release|done]. Qed.

Lemma present_modify name f m : is_Some (contexts_ m !! name) -> is_Some (contexts_ (modify name f m) !! name).
Proof. intros [c Hc]. unfold modify. cbn. destruct m; cbn in *. rewrite lookup_alter_eq, Hc. by eexists. Qed.

Lemma present_release name m : is_Some (contexts_ m !! name) -> is_Some (contexts_ (ReleaseSelectedPayload name m) !! name).
Proof. intros Hs. unfold ReleaseSelectedPayload. destruct (contexts_ m !! name) as [c|] eqn:E; [|by rewrite E]. apply present_modify. by exists c. Qed.

Lemma present_refresh name m : is_Some (contexts_ m !! name) -> is_Some (contexts_ (RefreshSelection name m) !! name).
Proof. intros Hs. unfold RefreshSelection. destruct Hs as [c Hc]. rewrite Hc. case_match; [by rewrite Hc|]. apply present_release. by exists c. Qed.

(** Evidence of an observed member is added to an idle context. *)
Lemma tame_report name address evidence m : ok m -> idle name m -> sees name address m ->
  tame m (modify name (fun context => context{{reporterEvidence ::= <[address := evidence]> }}) m).
Proof.
  intros Hok Hi Hs. apply tame_evidence; try done. intros context Hc. cbn. rewrite dom_insert_L.
  pose proof (co_evidence _ (mo_contexts _ _ _ _ _ Hok _ _ Hc)). specialize (Hs _ Hc). destruct context; cbn in *. set_solver.
Qed.

Lemma tame_store_evidence name now report changed requested m : ok m -> idle name m -> sees name (rp_reporterAddress report) m ->
  tame m (store_evidence options_ name now report changed requested m).1.
Proof.
  intros Hok Hi Hs. unfold store_evidence. cbv zeta. set (fresh := {| te_hasSnapshot := _ |}).
  eapply (tame_then name); [done|by apply (tame_report name (rp_reporterAddress report) fresh)|]. intros Hok1 Hi1.
  apply (sees_modify _ _ (fun context => context{{reporterEvidence ::= <[rp_reporterAddress report := fresh]> }})) in Hs; [|done].
  set (m1 := modify name _ m) in *. set (f := fun context : ClusterRecoveryContext => if _ || changed then _ else context).
  assert (Hf : forall context, core (f context) = core context) by (intros context; unfold f; by case_match).
  eapply (tame_then name); [done|by apply (tame_flags name f)|]. intros Hok2 Hi2.
  assert (Hs2 : sees name (rp_reporterAddress report) (modify name f m1)).
  { apply sees_modify; [|done]. intros context. by injection (Hf context). }
  set (m2 := modify name f m1) in *. eapply (tame_then name); [done|by apply tame_refresh|]. intros Hok3 Hi3.
  apply sees_refresh in Hs2. set (m3 := RefreshSelection name m2) in *.
  destruct (contexts_ m3 !! name) as [context|]; [|by apply tame_refl]. case_match; [by apply tame_refl|]. cbn [fst].
  by apply (tame_report name (rp_reporterAddress report)).
Qed.

Lemma tame_update_evidence o name context report decision m : ok m -> contexts_ m !! name = Some context ->
  tame m (UpdateEvidenceLocked options_ o name context report decision m).1.
Proof.
  intros Hok Hl. unfold UpdateEvidenceLocked. cbv zeta. destruct (bool_decide (_ ∉ _)) eqn:Hob; [by apply tame_refl|]. apply bool_decide_eq_false in Hob.
  assert (Hs : sees name (rp_reporterAddress report) m) by (intros c Hc; assert (c = context) as -> by congruence; destruct (decide (rp_reporterAddress report ∈ observedMembers context)); [done|by destruct Hob]).
  destruct (state context) eqn:Hst; try (by apply tame_refl).
  - assert (Hi : idle name m) by (eapply not_installing; [done|congruence]). rewrite bool_decide_false by done. cbn [andb].
    case_match; [by apply tame_refl|]. set (changed := negb _). set (requested := match reporterEvidence context !! _ with Some _ => _ | None => _ end).
    pose proof (tame_store_evidence name (clock o 0%nat) report changed requested m Hok Hi Hs) as Ht.
    by destruct (store_evidence _ _ _ _ _ _ _).
  - assert (Hi : idle name m) by (eapply not_installing; [done|congruence]). rewrite bool_decide_true by done. cbn [andb].
    set (same := match reporterEvidence context !! _ with Some _ => _ | None => false end). destruct same eqn:Hsame; [by apply tame_refl|].
    eapply (tame_then name _ (modify name (fun context => context{{discoveryDeadline := None}}) (SetStateLocked name RECOVERING m))); [done| |].
    { apply (tame_then name _ (SetStateLocked name RECOVERING m)); [done|by apply tame_set_state|]. intros. by apply tame_flags. }
    intros Hok1 Hi1. assert (Hs1 : sees name (rp_reporterAddress report) (modify name (fun context => context{{discoveryDeadline := None}}) (SetStateLocked name RECOVERING m))).
    { apply sees_modify; [done|]. unfold SetStateLocked. by apply sees_modify. }
    set (m1 := modify name _ (SetStateLocked _ _ _)) in *. cbn [andb]. set (requested := match reporterEvidence context !! _ with Some _ => _ | None => _ end).
    pose proof (tame_store_evidence name (clock o 0%nat) report (negb false) requested m1 Hok1 Hi1 Hs1) as Ht.
    by destruct (store_evidence _ _ _ _ _ _ _).
Qed.

Lemma tame_accept name id report m : ok m -> tame m (accept_report options_ name id report m).1.
Proof.
  intros Hok. unfold accept_report. cbv zeta. case_match; [by apply tame_refl|]. case_match; [by apply tame_refl|].
  destruct (contexts_ m !! name) as [context|]; [|by apply tame_refl].
  case_match; [case_match; by apply tame_refl|]. by apply tame_flags.
Qed.

(** ** Reconciliation *)

Lemma tame_finalize_check o name id m : ok m -> tame m (finalize_check o name id m).1.
Proof.
  intros Hok. unfold finalize_check. cbv zeta. case_match; [by apply tame_refl|].
  destruct (contexts_ m !! name) as [context|]; [|by apply tame_refl].
  repeat case_match; first [by apply tame_refl|by apply tame_delay|by apply tame_flags].
Qed.

Lemma tame_authority_check o name id m : ok m -> tame m (begin_authority_check o name id m).1.
Proof.
  intros Hok. unfold begin_authority_check. destruct (contexts_ m !! name) as [context|]; [|by apply tame_refl].
  repeat case_match; first [by apply tame_refl|by apply tame_flags].
Qed.

Lemma tame_restore name id gen m : ok m -> tame m (RestoreStoredAuthorityCheck name id gen m).
Proof.
  intros Hok. unfold RestoreStoredAuthorityCheck. repeat case_match; first [by apply tame_refl|by apply tame_flags].
Qed.

Lemma open_idle name m context b : contexts_ m !! name = Some context ->
  negb (bool_decide (state context = RECOVERING)) && (negb (bool_decide (state context = BLOCKED)) || b) = false -> idle name m.
Proof.
  intros Hl E. eapply not_installing; [done|]. intros Hs. rewrite Hs in E. by rewrite !bool_decide_false in E by done.
Qed.

Lemma tame_apply o name id gen decodes m : ok m -> tame m (ApplyStoredAuthorityLocked o name id gen decodes m).1.
Proof.
  intros Hok. unfold ApplyStoredAuthorityLocked. destruct (contexts_ m !! name) as [context|] eqn:Hl; [|by apply tame_refl].
  case_match; [by apply tame_refl|]. destruct (negb _ && _) eqn:Hopen; [by apply tame_refl|]. pose proof (open_idle _ _ _ _ Hl Hopen) as Hi.
  case_match; [by apply tame_flags|]. eapply (tame_then name); [done|by apply tame_release|]. intros Hok1 Hi1.
  eapply (tame_then name); [done| |]. { apply (tame_evidence options_ _ _ _ Hmax Hslack name (fun context => context{{reporterEvidence := ∅; discoveryDeadline := None}})); try done. }
  intros Hok2 Hi2. apply tame_set_state; try done. by destruct decodes.
Qed.

Lemma tame_resolve name context deadline m : ok m -> idle name m -> tame m (ResolveCandidateSelectionLocked name context deadline m).1.
Proof.
  intros Hok Hi. unfold ResolveCandidateSelectionLocked.
  assert (Hset : forall st f, st <> INSTALLING -> (forall c, reporterEvidence (f c) = ∅ /\ state (f c) = state c /\ selectedCanonicalTopology (f c) = selectedCanonicalTopology c /\
     selectedVersion (f c) = selectedVersion c /\ selectedCanonicalDigest (f c) = selectedCanonicalDigest c) ->
     tame m (ReleaseSelectedPayload name (modify name f (SetStateLocked name st m)))).
  { intros st f Hst Hf. apply (tame_then name _ (SetStateLocked name st m)); [done|by apply tame_set_state|]. intros Hok1 Hi1.
    apply (tame_then name _ (modify name f (SetStateLocked name st m))); [done| |intros; by apply tame_release].
    apply tame_evidence; try done; [intros c _; destruct (Hf c) as [-> _]; set_solver|apply Hf]. }
  repeat case_match; try (by apply tame_refl); try (by apply tame_force).
  - apply (tame_then name _ (SetStateLocked name BLOCKED m)); [done|by apply tame_set_state|]. intros. by apply tame_release.
  - by apply Hset.
Qed.

Lemma tame_after_resolution o name id m : ok m -> tame m (after_resolution o name id m).
Proof.
  intros Hok. unfold after_resolution. destruct (contexts_ m !! name) as [context|] eqn:Hl; [|by apply tame_refl].
  destruct (_ && _) eqn:E; [|by apply tame_refl]. apply andb_true_iff in E as [_ E]. apply bool_decide_eq_true in E.
  case_match; [|by apply tame_delay]. apply tame_force; try done. eapply not_installing; [done|congruence].
Qed.

Lemma tame_due o m : ok m -> tame m (CollectDueDelayedReconcileLocked options_ o m).1.
Proof.
  intros Hok. unfold CollectDueDelayedReconcileLocked. generalize (@nil string). generalize (iterate (contexts_ m)). intros l.
  assert (forall m due, ok m -> tame m (foldl (due_step options_ (clock o 0%nat)) (m, due) l).1) as Hl; [|intros due; by apply Hl].
  induction l as [|[name context] l IH]; intros m' due Hok'; [by apply tame_refl|]. cbn [foldl].
  assert (Ht : tame m' (due_step options_ (clock o 0%nat) (m', due) (name, context)).1).
  { unfold due_step. repeat case_match; try (by apply tame_refl); by apply tame_flags. }
  destruct (due_step _ _ _ _) as [m1 due1]. eapply tame_trans; [exact Ht|]. apply IH. apply Ht.
Qed.

(** Everything but the start of an installation. *)
Definition started (name : string) (version : Z) (payload : string) (m m' : TopologyRecoveryManager) : Prop :=
  idle name m /\ ok m' /\ activeRound_ m' = activeRound_ m /\ installing_at m' name = Some (version, payload) /\
  forall k, k <> name -> installing_at m' k = installing_at m k.

Lemma started_installing name context payload m : ok m -> idle name m -> contexts_ m !! name = Some context ->
  selectedCanonicalTopology context = Some payload ->
  newest_evidence (reporterEvidence context) (selectedVersion context) (selectedCanonicalDigest context) ->
  started name (selectedVersion context) payload m (SetStateLocked name INSTALLING m).
Proof.
  intros Hok Hi Hl Hp Hn. pose proof (bytes_bounds _ _ _ _ Hmax Hslack m Hok) as [Hr _].
  assert (Hch : changes name context (context{{state := INSTALLING}}) m (SetStateLocked name INSTALLING m)).
  { constructor; [done| | | |done|done].
    - exact (alter_as_insert (contexts_ m) name (fun context => context{{state := INSTALLING}}) context Hl).
    - transitivity (alter (fun _ => INSTALLING) name (rpcAdmissionStates_ m)); [done|]. rewrite (alter_as_insert _ _ _ (state context)); [done|].
      by rewrite (mo_states _ _ _ _ _ Hok), lookup_fmap, Hl.
    - transitivity (retainedCandidateBytes_ m); [done|]. change (payload_size (context{{state := INSTALLING}})) with (payload_size context).
      rewrite u64_small; lia. }
  split; [done|]. split_and!; [|done| |].
  - eapply ok_changes; [done|done|done|exact Hch| |done]. destruct (mo_contexts _ _ _ _ _ Hok _ _ Hl) as [H1' H2' H3'].
    constructor; [done|done|]. intros _. split; [by exists payload|done].
  - unfold installing_at. rewrite (ch_contexts _ _ _ _ _ Hch), lookup_insert_eq. cbn. unfold installing. rewrite bool_decide_true by done.
    destruct context; cbn in *. by rewrite Hp.
  - intros k Hk. unfold installing_at. by rewrite (ch_contexts _ _ _ _ _ Hch), lookup_insert_ne.
Qed.

Lemma prepare_spec now name id deadline m : ok m ->
  match PrepareInstallationLocked now name id deadline m with
  | (m', Ok (Some (version, payload))) => started name version payload m m'
  | (m', _) => tame m m'
  end.
Proof.
  intros Hok. unfold PrepareInstallationLocked. destruct (negb (IsCurrentRoundLocked id m)); [by apply tame_refl|].
  destruct (contexts_ m !! name) as [context|] eqn:Hl; [|by apply tame_refl].
  destruct (negb (bool_decide (state context = RECOVERING)) && _) eqn:Hopen; [by apply tame_refl|]. pose proof (open_idle _ _ _ _ Hl Hopen) as Hi.
  destruct (negb deadline && _); [by apply tame_refl|]. destruct (deadline && _); [by apply tame_force|]. cbv zeta.
  pose proof (tame_resolve name context deadline m Hok Hi) as Ht.
  destruct (ResolveCandidateSelectionLocked name context deadline m) as [m1 decided] eqn:Hres. cbn [fst] in Ht.
  destruct decided; [done|]. assert (m1 = m /\ sl_conflictingHighest (SelectHighestCandidate (reporterEvidence context)) = false) as [-> Hc].
  { unfold ResolveCandidateSelectionLocked in Hres. repeat case_match; try congruence. injection Hres as <-. done. }
  destruct (selectedCanonicalTopology context) as [payload|] eqn:Hp; [|destruct deadline; [by apply tame_force|done]].
  destruct ((selectedVersion context =? _) && _) eqn:E; [|destruct deadline; [by apply tame_force|done]]. apply andb_true_iff in E as [Ev Ed].
  apply Z.eqb_eq in Ev. apply bool_decide_eq_true in Ed. rewrite <-Ev. apply started_installing; try done.
  rewrite Ev, Ed. by apply SelectHighest_newest.
Qed.

Lemma select_spec o name id m : ok m ->
  match select_installation o name id m with
  | (m', Ok (Some (version, payload))) => started name version payload m m' /\ IsCurrentRoundLocked id m = true
  | (m', _) => tame m m' \/ exists version payload, started name version payload m m'
  end.
Proof.
  intros Hok. unfold select_installation. destruct (negb (IsCurrentRoundLocked id m)) eqn:Hcur; [left; by apply tame_refl|].
  apply negb_false_iff in Hcur. destruct (contexts_ m !! name) as [context|] eqn:Hl; [|left; by apply tame_refl].
  cbv zeta. destruct (_ && match fastRecoveryDeadline context with Some _ => _ | None => _ end) eqn:Hfast.
  { left. apply tame_force; [done..|]. eapply not_installing; [done|]. intros Hs. rewrite Hs, bool_decide_false, andb_false_r in Hfast by done. done. }
  destruct (bool_decide (state context = BLOCKED) && _) eqn:Hbl.
  { left. apply andb_true_iff in Hbl as [Hbl _]. apply bool_decide_eq_true in Hbl. apply tame_force; [done..|]. eapply not_installing; [done|congruence]. }
  pose proof (prepare_spec (clock o 1%nat) name id (IsHardDeadlineReachedLocked (clock o 0%nat) m) m Hok) as Hpre.
  destruct (PrepareInstallationLocked _ _ _ _ m) as [m1 [[[version payload]|]|code]]; cbn [to_install]; [|left..].
  - destruct (version =? 0) eqn:Hz; cbn [to_install].
    + right. exists version, payload. destruct Hpre as (H1' & H2' & H3' & H4' & H5'). pose proof (tame_delay_unresolved _ _ _ _ Hmax Hslack o name m1 H2') as Ht.
      split; [done|]. split_and!; [apply Ht|rewrite (tm_round _ _ _ _ _ _ Ht); done|rewrite (tm_installing _ _ _ _ _ _ Ht); done|].
      intros k Hk. rewrite (tm_installing _ _ _ _ _ _ Ht). by apply H5'.
    + done.
  - eapply tame_trans; [done|]. apply tame_delay_unresolved; try done. apply Hpre.
  - done.
Qed.
End tame.

Section jobs.
Context (held : gmap nat Job) (rounds : list TopologyRecoveryRoundIdentity).
Abbreviation ok := (manager_ok options_ 0 held rounds).

Lemma weaken_slack slack held' m : 0 <= slack -> manager_ok options_ slack held' rounds m -> manager_ok options_ 0 held' rounds m.
Proof. intros Hs [? ? ? ? ? ? ? ? Hl]. constructor; try done. lia. Qed.

Lemma weaken_tame slack held' m m' : 0 <= slack -> tame options_ slack held' rounds m m' -> tame options_ 0 held' rounds m m'.
Proof. intros Hs [Hok Hr Hi]. constructor; [by eapply weaken_slack|done|done]. Qed.

(** The bytes of an admitted payload fit below the limit. *)
Lemma tame_submit o name id report decision m : ok m -> tame options_ 0 held rounds m (submit_payload options_ o name id report decision m).1.
Proof.
  intros Hok. unfold submit_payload. cbv zeta. case_match; [by apply tame_refl|]. destruct (negb (IsCurrentRoundLocked id m)) eqn:Hcur; [by apply tame_refl|].
  apply negb_false_iff, bool_decide_eq_true in Hcur. destruct (contexts_ m !! name) as [context|] eqn:Hl; [|by apply tame_refl].
  destruct (bool_decide (state context = INSTALLING)); [by apply tame_refl|].
  match goal with |- context [if ?b then (m, Err K_INVALID) else _] => destruct b; [by apply tame_refl|] end.
  destruct (payloadValidationPending context); [by apply tame_refl|]. destruct (negb ((pendingRecoveryWork_ m <? _) && _)) eqn:Hcap; [by apply tame_refl|].
  apply negb_false_iff, andb_true_iff in Hcap as [_ Hcap]. unfold HasCapacity in Hcap. apply andb_true_iff in Hcap as [_ Hcap]. apply Z.leb_le in Hcap.
  pose proof (bytes_bounds _ _ _ _ Hmax (Z.le_refl 0) m Hok) as [Hr Ha]. pose proof (mo_limit _ _ _ _ _ Hok). rewrite u64_small in Hcap by lia.
  set (bytes := Z.of_nat _) in *. assert (0 <= bytes) by (unfold bytes; lia).
  set (m0 := m{{pendingRecoveryWork_ ::= Z.succ; admittedReportBytes_ ::= fun n => u64 (n + bytes)}}). destruct (accepts o); cbn [fst].
  - set (job := ValidateJob name id (generation context) report). set (m1 := m0{{recoveryPool_ ::= fun jobs => (jobs ++ [job])}}).
    change (tame options_ 0 held rounds m (modify name (fun context => context{{payloadValidationPending := true}}) m1)).
    assert (Ha1 : admittedReportBytes_ m1 = admittedReportBytes_ m + bytes).
    { transitivity (u64 (admittedReportBytes_ m + bytes)); [done|]. rewrite u64_small; lia. }
    assert (Ht : tame options_ 0 held rounds m m1).
    { destruct Hok as [Hs Hn Hc Hrd Hj Hp Had Hre Hlim]. constructor; [|done|done]. constructor; rewrite ?Ha1; try done.
      - intros j. change (recoveryPool_ m1) with (recoveryPool_ m ++ [job]). intros [Hin| ->%list_elem_of_singleton]%elem_of_app; [auto|].
        cbn. apply fmap_Some in Hcur as (round & Hround & ->). by apply Hrd.
      - change (recoveryPool_ m1) with (recoveryPool_ m ++ [job]). transitivity (Z.succ (pendingRecoveryWork_ m)); [done|]. rewrite Hp, length_app. cbn. lia.
      - change (recoveryPool_ m1) with (recoveryPool_ m ++ [job]). rewrite jobs_bytes_app, Had. cbn. unfold report_size. fold bytes. lia.
      - change (retainedCandidateBytes_ m1) with (retainedCandidateBytes_ m). lia. }
    eapply tame_trans; [exact Ht|]. apply tame_flags; try done. apply Ht.
  - set (f := fun context => context{{payloadValidationPending := true}}). set (g := fun context => context{{payloadValidationPending := false}}).
    assert ((CompleteRecoveryWorkLocked (modify name f m0)){{admittedReportBytes_ ::= fun n => u64 (n - bytes)}} = modify name f m) as ->.
    { assert (Hp : 0 <= pendingRecoveryWork_ m) by (rewrite (mo_pending _ _ _ _ _ Hok); lia). clearbody bytes.
      destruct m. unfold CompleteRecoveryWorkLocked, modify, m0. cbn in *. rewrite (proj2 (Z.eqb_neq _ _)) by lia. cbn.
      f_equal; [lia|]. rewrite (u64_small (_ + _)), u64_small; lia. }
    eapply tame_trans; [by apply (tame_flags options_ _ _ _ Hmax (Z.le_refl 0) name f)|]. apply tame_flags; try done. by apply tame_flags.
Qed.

(** A validated payload takes the bytes its job gave back. *)
Lemma retain_payload held' report name m : manager_ok options_ (report_size report) held' rounds m -> idle name m -> ValidatePayload report = Ok tt ->
  (forall context, contexts_ m !! name = Some context -> payload_size context = 0) ->
  is_Some (contexts_ m !! name) ->
  tame options_ 0 held' rounds m
    (modify name (fun context => context{{selectedCanonicalTopology := Some (rp_canonicalTopology report);
        selectedCanonicalDigest := rp_canonicalDigest report; selectedVersion := rp_topologyVersion report}})
       (m{{retainedCandidateBytes_ ::= fun bytes => u64 (bytes + report_size report)}})).
Proof.
  intros Hok Hi Hv Hz [context Hl]. assert (Hsl : 0 <= report_size report) by (unfold report_size; lia).
  set (f := fun context : ClusterRecoveryContext => _). set (m' := modify name f _).
  pose proof (bytes_bounds _ _ _ _ Hmax Hsl m Hok) as [Hr Ha]. pose proof (idle_state _ _ _ _ _ _ _ Hok Hi Hl) as Hst.
  assert (Ec : contexts_ m' = <[name := f context]> (contexts_ m)) by exact (alter_as_insert (contexts_ m) name f context Hl).
  assert (Hsz : payload_size (f context) = report_size report) by done.
  destruct Hok as [Hs Hn Hc Hrd Hj Hp Had Hre Hlim].
  assert (Er : retainedCandidateBytes_ m' = retainedCandidateBytes_ m + report_size report).
  { transitivity (u64 (retainedCandidateBytes_ m + report_size report)); [done|]. rewrite u64_small; lia. }
  assert (Hif : installing (f context) = None) by (unfold installing; by rewrite bool_decide_false).
  constructor; [|done|].
  - constructor; rewrite ?Ec, ?Er; try done.
    + transitivity (rpcAdmissionStates_ m); [done|]. rewrite Hs, fmap_insert. symmetry. apply insert_id. by rewrite lookup_fmap, Hl.
    + intros k Hk. apply Hn. destruct (decide (k = name)) as [->|Hne]; [by rewrite Hl|by rewrite lookup_insert_ne in Hk by done].
    + intros k c. destruct (decide (k = name)) as [->|Hne]; [|rewrite lookup_insert_ne by done; apply Hc]. rewrite lookup_insert_eq. intros [= <-].
      destruct (Hc _ _ Hl) as [H1' H2' H3']. constructor; [done|intros payload [= <-]; by apply ValidatePayload_valid|done].
    + rewrite (total_replace _ _ _ _ (f context) Hl), (Hz _ Hl), Hsz, Hre. lia.
    + change (admittedReportBytes_ m') with (admittedReportBytes_ m). lia.
  - intros k. unfold installing_at. rewrite Ec. destruct (decide (k = name)) as [->|Hne]; [|by rewrite lookup_insert_ne].
    rewrite lookup_insert_eq, Hl. change (installing (f context) = installing context). rewrite Hif. unfold installing. by rewrite bool_decide_false.
Qed.

(** ** Giving back the work of a job *)

Variable (i : nat) (job : Job).
Hypothesis Hheld : held !! i = Some job.

Lemma size_held : Z.of_nat (base.size held) = Z.of_nat (base.size (delete i held)) + 1.
Proof. rewrite map_size_delete_Some by (by exists job). assert (base.size held <> 0)%nat by (intros E; apply map_size_empty_inv in E; by rewrite E in Hheld). lia. Qed.

Lemma complete_pending m : ok m -> pendingRecoveryWork_ (CompleteRecoveryWorkLocked m) = pendingRecoveryWork_ m - 1.
Proof.
  intros Hok. unfold CompleteRecoveryWorkLocked. rewrite (proj2 (Z.eqb_neq _ _)); [|rewrite (mo_pending _ _ _ _ _ Hok); pose proof size_held; lia].
  by destruct m.
Qed.

Lemma ok_return report m : ok m -> job_bytes job = report_size report ->
  tame options_ (report_size report) (delete i held) rounds m (return_job report m) /\ contexts_ (return_job report m) = contexts_ m.
Proof.
  intros Hok Hb. pose proof (complete_pending m Hok) as Hp'. pose proof (bytes_bounds _ _ _ _ Hmax (Z.le_refl 0) m Hok) as [Hr Ha].
  pose proof size_held as Hsz. pose proof (total_delete job_bytes held i job Hheld) as Htot.
  assert (Hnn : 0 <= report_size report) by (unfold report_size; lia).
  assert (Hsame : contexts_ (return_job report m) = contexts_ m /\ rpcAdmissionStates_ (return_job report m) = rpcAdmissionStates_ m /\
    retainedCandidateBytes_ (return_job report m) = retainedCandidateBytes_ m /\ activeRound_ (return_job report m) = activeRound_ m /\
    recoveryPool_ (return_job report m) = recoveryPool_ m /\ pendingRecoveryWork_ (return_job report m) = pendingRecoveryWork_ (CompleteRecoveryWorkLocked m) /\
    admittedReportBytes_ (return_job report m) = u64 (admittedReportBytes_ m - report_size report)).
  { unfold return_job, CompleteRecoveryWorkLocked. case_match; by destruct m. }
  destruct Hsame as (E1 & E2 & E3 & E4 & E5 & E6 & E7). split; [|done].
  destruct Hok as [Hs Hn Hc Hrd Hj Hp Had Hre Hlim]. pose proof (jobs_bytes_nonneg (recoveryPool_ m)).
  pose proof (total_nonneg job_bytes (delete i held) job_bytes_nonneg). rewrite u64_small in E7 by lia.
  constructor; [|done|intros k; unfold installing_at; by rewrite E1].
  constructor; rewrite ?E1, ?E2, ?E3, ?E4, ?E5, ?E6, ?E7; try done; lia.
Qed.

Lemma tame_record name id gen report m : ok m -> job_bytes job = report_size report -> ValidatePayload report = Ok tt ->
  tame options_ 0 (delete i held) rounds m (record_payload name id gen report m).1.
Proof.
  intros Hok Hb Hv. destruct (ok_return report m Hok Hb) as [Ht Hctx]. assert (Hsl : 0 <= report_size report) by (unfold report_size; lia).
  unfold record_payload. cbv zeta. set (m1 := return_job report m) in *. pose proof (weaken_tame _ _ _ _ Hsl Ht) as Ht0.
  destruct (contexts_ m1 !! name) as [context|] eqn:Hl; [|done]. case_match; [done|].
  pose proof (tame_flags options_ _ _ _ Hmax Hsl name (fun context => context{{payloadValidationPending := false}}) m1 (tm_ok _ _ _ _ _ _ Ht) ltac:(done)) as Ht2.
  pose proof (tame_trans _ _ _ _ _ _ _ Ht Ht2) as Ht3. pose proof (weaken_tame _ _ _ _ Hsl Ht3) as Ht4.
  set (m2 := modify name _ m1) in *. case_bool_decide as Hst; [done|].
  assert (Hl2 : contexts_ m2 !! name = Some (context{{payloadValidationPending := false}})).
  { transitivity (alter (fun context => context{{payloadValidationPending := false}}) name (contexts_ m1) !! name); [done|]. by rewrite lookup_alter_eq, Hl. }
  assert (Hi : idle name m2) by (eapply not_installing; [exact Hl2|done]).
  destruct (reporterEvidence context !! rp_reporterAddress report) as [evidence|] eqn:He; [|done].
  destruct (bool_decide (_ ∉ _) || _) eqn:Hob; [done|]. apply orb_false_iff in Hob as [Hob _]. apply bool_decide_eq_false in Hob.
  assert (Hs : sees name (rp_reporterAddress report) m2).
  { intros c Hc. rewrite Hl2 in Hc. injection Hc as <-. destruct (decide (rp_reporterAddress report ∈ observedMembers context)); [done|by destruct Hob]. }
  pose proof (tame_refresh options_ _ _ _ Hmax Hsl name m2 (tm_ok _ _ _ _ _ _ Ht3) Hi) as Ht5. apply sees_refresh in Hs.
  set (m3 := RefreshSelection name m2) in *. pose proof (tame_trans _ _ _ _ _ _ _ Ht3 Ht5) as Ht6.
  assert (Hi3 : idle name m3) by (unfold idle; by rewrite (tm_installing _ _ _ _ _ _ Ht5)).
  case_match; [|by eapply weaken_tame].
  set (satisfied := {| te_hasSnapshot := _ |}).
  pose proof (tame_report _ _ _ Hsl name (rp_reporterAddress report) satisfied m3 (tm_ok _ _ _ _ _ _ Ht6) Hi3 Hs) as Ht7.
  set (m4 := modify name _ m3) in *. assert (Hi4 : idle name m4) by (unfold idle; by rewrite (tm_installing _ _ _ _ _ _ Ht7)).
  pose proof (tame_release options_ _ _ _ Hmax Hsl name m4 (tm_ok _ _ _ _ _ _ Ht7) Hi4) as Ht8. pose proof (release_payload name m4) as Hz.
  set (m5 := ReleaseSelectedPayload name m4) in *. pose proof (tame_trans _ _ _ _ _ _ _ (tame_trans _ _ _ _ _ _ _ Ht6 Ht7) Ht8) as Ht9.
  assert (Hi5 : idle name m5) by (unfold idle; by rewrite (tm_installing _ _ _ _ _ _ Ht8)).
  eapply tame_trans; [by eapply weaken_tame|]. cbn [fst]. apply retain_payload; [apply Ht9|done..|].
  apply present_release, present_modify, present_refresh. by eexists.
Qed.

Lemma tame_reject o name id gen report code m : ok m -> job_bytes job = report_size report ->
  tame options_ 0 (delete i held) rounds m (reject_payload o name id gen report code m).1.
Proof.
  intros Hok Hb. destruct (ok_return report m Hok Hb) as [Ht Hctx]. assert (Hsl : 0 <= report_size report) by (unfold report_size; lia).
  apply (weaken_tame _ _ _ _ Hsl) in Ht. unfold reject_payload. cbv zeta. set (m1 := return_job report m) in *. pose proof (Z.le_refl 0) as H0'.
  case_match; [done|]. destruct (contexts_ m1 !! name) as [context|] eqn:Hl; [|done]. case_match; [done|].
  pose proof (tame_flags options_ _ _ _ Hmax H0' name (fun context => context{{payloadValidationPending := false}}) m1 (tm_ok _ _ _ _ _ _ Ht) ltac:(done)) as Ht2.
  pose proof (tame_trans _ _ _ _ _ _ _ Ht Ht2) as Ht3. set (m2 := modify name _ m1) in *. case_match; [done|].
  destruct (negb (bool_decide (state context = INSTALLING)) && _) eqn:E; [|done]. apply andb_true_iff in E as [E _].
  apply negb_true_iff, bool_decide_eq_false in E. eapply tame_trans; [exact Ht3|].
  assert (Hi : idle name m2).
  { apply (not_installing name m2 (context{{payloadValidationPending := false}})); [|done].
    transitivity (alter (fun context => context{{payloadValidationPending := false}}) name (contexts_ m1) !! name); [done|]. by rewrite lookup_alter_eq, Hl. }
  apply (tame_then options_ 0 _ rounds name _ (SetStateLocked name BLOCKED m2)); [done|apply tame_set_state; [done..|apply Ht3|done|done]|]. intros Hok4 Hi4.
  eapply (tame_then options_ 0 _ rounds name); [done|by apply tame_release|]. intros Hok5 Hi5. by apply tame_delay.
Qed.

Lemma tame_finish o name id m : ok m -> job_bytes job = 0 -> tame options_ 0 (delete i held) rounds m (finish_reconcile o name id m).
Proof.
  intros Hok Hb. unfold finish_reconcile. cbv zeta. pose proof (Z.le_refl 0) as H0'.
  set (m1 := if IsCurrentRoundLocked id m then _ else m).
  assert (Ht : tame options_ 0 held rounds m m1).
  { unfold m1. case_match; [|by apply tame_refl]. eapply tame_trans; [by apply (tame_flags options_ _ _ _ Hmax H0' name (fun context => context{{reconcileQueued := false}}))|].
    apply tame_delay_unresolved; try done. by apply tame_flags. }
  clearbody m1. pose proof (tm_ok _ _ _ _ _ _ Ht) as Hok1. pose proof (complete_pending m1 Hok1) as Hp'. pose proof size_held as Hsz.
  pose proof (total_delete job_bytes held i job Hheld) as Htot.
  assert (Hsame : contexts_ (CompleteRecoveryWorkLocked m1) = contexts_ m1 /\ rpcAdmissionStates_ (CompleteRecoveryWorkLocked m1) = rpcAdmissionStates_ m1 /\
    retainedCandidateBytes_ (CompleteRecoveryWorkLocked m1) = retainedCandidateBytes_ m1 /\ activeRound_ (CompleteRecoveryWorkLocked m1) = activeRound_ m1 /\
    recoveryPool_ (CompleteRecoveryWorkLocked m1) = recoveryPool_ m1 /\ admittedReportBytes_ (CompleteRecoveryWorkLocked m1) = admittedReportBytes_ m1).
  { unfold CompleteRecoveryWorkLocked. case_match; by destruct m1. }
  destruct Hsame as (E1 & E2 & E3 & E4 & E5 & E7). destruct Ht as [_ Hr Hi]. destruct Hok1 as [Hs Hn Hc Hrd Hj Hp Had Hre Hlim].
  constructor; [|congruence|intros k; rewrite <-Hi; unfold installing_at; by rewrite E1].
  constructor; rewrite ?E1, ?E2, ?E3, ?E4, ?E5, ?E7, ?Hp'; try done; lia.
Qed.
End jobs.

(** ** The end of an installation *)

Section ends.
Context (held : gmap nat Job) (rounds : list TopologyRecoveryRoundIdentity).
Abbreviation ok := (manager_ok options_ 0 held rounds).
Abbreviation tame := (tame options_ 0 held rounds).

Record ended (name : string) (m m' : TopologyRecoveryManager) : Prop := {
  en_ok : ok m'; en_round : activeRound_ m' = activeRound_ m; en_idle : idle name m';
  en_other k : k <> name -> installing_at m' k = installing_at m k
}.

Lemma ended_then name m m' m'' : ended name m m' -> (ok m' -> idle name m' -> tame m' m'') -> ended name m m''.
Proof.
  intros [Hok Hr Hi Ho] Ht. specialize (Ht Hok Hi) as [Hok2 Hr2 Hi2]. constructor; [done|congruence|unfold idle; by rewrite Hi2|].
  intros k Hk. rewrite Hi2. by apply Ho.
Qed.

Lemma ended_set_state name st context m : ok m -> contexts_ m !! name = Some context -> st <> INSTALLING -> ended name m (SetStateLocked name st m).
Proof.
  intros Hok Hl Hst. pose proof (bytes_bounds _ _ _ _ Hmax (Z.le_refl 0) m Hok) as [Hr _].
  assert (Hch : changes name context (context{{state := st}}) m (SetStateLocked name st m)).
  { constructor; [done| | | |done|done].
    - exact (alter_as_insert (contexts_ m) name (fun context => context{{state := st}}) context Hl).
    - transitivity (alter (fun _ => st) name (rpcAdmissionStates_ m)); [done|]. rewrite (alter_as_insert _ _ _ (state context)); [done|].
      by rewrite (mo_states _ _ _ _ _ Hok), lookup_fmap, Hl.
    - transitivity (retainedCandidateBytes_ m); [done|]. change (payload_size (context{{state := st}})) with (payload_size context).
      rewrite u64_small; lia. }
  constructor; [|done| |].
  - eapply ok_changes; [done|by apply Z.le_refl|done|exact Hch| |done]. destruct (mo_contexts _ _ _ _ _ Hok _ _ Hl) as [H1' H2' H3'].
    constructor; [done|done|]. intros Hs. by destruct (Hst Hs).
  - apply (not_installing name _ (context{{state := st}})); [|done]. by rewrite (ch_contexts _ _ _ _ _ Hch), lookup_insert_eq.
  - intros k Hk. unfold installing_at. by rewrite (ch_contexts _ _ _ _ _ Hch), lookup_insert_ne.
Qed.

Lemma complete_spec o name id version status m : ok m -> let m' := complete_installation o name id version status m in
  tame m m' \/ (ended name m m' /\ IsCurrentRoundLocked id m = true).
Proof.
  intros Hok. unfold complete_installation. cbv zeta. pose proof (Z.le_refl 0) as H0'.
  assert (Hc : CompleteInstallationLocked (clock o 0%nat) name id version status m = m \/
    (ended name m (CompleteInstallationLocked (clock o 0%nat) name id version status m) /\ IsCurrentRoundLocked id m = true)).
  { unfold CompleteInstallationLocked. destruct (contexts_ m !! name) as [context|] eqn:Hl; [|by left].
    destruct (negb (IsCurrentRoundLocked id m) || _ || _) eqn:E; [by left|right].
    apply orb_false_iff in E as [E _]. apply orb_false_iff in E as [E _]. apply negb_false_iff in E. split; [|done].
    assert (Hready : forall f, (forall c, reporterEvidence (f c) = ∅ /\ state (f c) = state c /\ selectedCanonicalTopology (f c) = selectedCanonicalTopology c /\
       selectedVersion (f c) = selectedVersion c /\ selectedCanonicalDigest (f c) = selectedCanonicalDigest c) ->
       ended name m (ReleaseSelectedPayload name (modify name f (SetStateLocked name READY m)))).
    { intros f Hf. eapply ended_then; [by eapply (ended_set_state name READY)|]. intros Hok1 Hi1.
      apply (tame_then options_ 0 held rounds name _ (modify name f (SetStateLocked name READY m))); [done| |intros; by apply tame_release].
      apply tame_evidence; try done; [intros c _; destruct (Hf c) as [-> _]; set_solver|apply Hf]. }
    destruct status as [u|code]; [by apply Hready|]. destruct (IsHardDeadlineReachedLocked _ m); [by apply Hready|].
    case_match; [by eapply ended_set_state|]. eapply ended_then; [by eapply (ended_set_state name RECOVERING)|]. intros Hok1 Hi1.
    eapply (tame_then options_ 0 held rounds name); [done|by apply tame_refresh|]. intros. by apply tame_flags. }
  destruct Hc as [Hc|[Hc Hcur]].
  - left. rewrite Hc. by apply tame_delay_unresolved.
  - right. split; [|done]. eapply ended_then; [exact Hc|]. intros. by apply tame_delay_unresolved.
Qed.

(** ** Rounds *)

Lemma release_all_rest m : recoveryPool_ (release_all m) = recoveryPool_ m /\ pendingRecoveryWork_ (release_all m) = pendingRecoveryWork_ m /\
  admittedReportBytes_ (release_all m) = admittedReportBytes_ m.
Proof.
  unfold release_all. generalize (elements (dom (contexts_ m))). intros l. revert m. induction l as [|name l IH]; intros m; [done|].
  cbn [foldl]. destruct (IH (ReleaseSelectedPayload name m)) as (-> & -> & ->). unfold ReleaseSelectedPayload. by case_match.
Qed.

Lemma ok_cleared rounds' m m' : ok m -> contexts_ m' = ∅ -> rpcAdmissionStates_ m' = ∅ -> retainedCandidateBytes_ m' = 0 ->
  recoveryPool_ m' = recoveryPool_ (release_all m) -> pendingRecoveryWork_ m' = pendingRecoveryWork_ (release_all m) ->
  admittedReportBytes_ m' = admittedReportBytes_ (release_all m) -> (forall round, activeRound_ m' = Some round -> identity round ∈ rounds') ->
  (forall id, id ∈ rounds -> id ∈ rounds') -> manager_ok options_ 0 held rounds' m' /\ forall name, installing_at m' name = None.
Proof.
  intros Hok E1 E2 E3 E4 E5 E6 Hr Hsub. destruct (release_all_rest m) as (F1 & F2 & F3). rewrite F1 in E4. rewrite F2 in E5. rewrite F3 in E6.
  pose proof (bytes_bounds _ _ _ _ Hmax (Z.le_refl 0) m Hok) as [Hb Ha]. destruct Hok as [Hs Hn Hc Hrd Hj Hp Had Hre Hlim].
  split; [|intros name; unfold installing_at; by rewrite E1, lookup_empty].
  constructor; rewrite ?E1, ?E2, ?E3, ?E4, ?E5, ?E6; try done.
  - intros name. rewrite lookup_empty. by intros [??].
  - auto.
  - lia.
Qed.

(** A new round starts without contexts. *)
Lemma begin_spec id timeout o m : ok m -> let m' := BeginLeaderRound coordinatorId_ id timeout o m in
  manager_ok options_ 0 held (rounds ++ [id]) m' /\
  (m' = m \/ (identity <$> activeRound_ m' = Some id /\ forall name, installing_at m' name = None)).
Proof.
  intros Hok. assert (Hsub : forall x, x ∈ rounds -> x ∈ rounds ++ [id]) by (intros; apply elem_of_app; by left).
  unfold BeginLeaderRound. cbv zeta. case_match.
  { split; [|by left]. destruct Hok as [Hs Hn Hc Hrd Hj Hp Had Hre Hlim]. constructor; auto. }
  match goal with |- manager_ok _ _ _ _ ?m' /\ _ => destruct (ok_cleared (rounds ++ [id]) m m') as [Hok' Hi] end; try done.
  - intros round [= <-]. apply elem_of_app. right. by apply list_elem_of_singleton.
  - split; [done|]. by right.
Qed.

Lemma end_spec id m : ok m -> let m' := EndLeaderRound id m in
  ok m' /\ (m' = m \/ (IsCurrentRoundLocked id m = true /\ activeRound_ m' = None /\ forall name, installing_at m' name = None)).
Proof.
  intros Hok. unfold EndLeaderRound. cbv zeta. destruct (negb (IsCurrentRoundLocked id m)) eqn:Hcur; [split; [done|by left]|].
  apply negb_false_iff in Hcur. match goal with |- manager_ok _ _ _ _ ?m' /\ _ => destruct (ok_cleared rounds m m') as [Hok' Hi] end; try done.
  split; [done|]. by right.
Qed.
End ends.
End handlers.
