(* ===== verification/RecoverySafety.v ===== *)
(** * Threads of the recovery manager

    Any number of requests, jobs and wake-ups interleave with the store's other
    clients and with changes of leadership.  The ghost state remembers which
    thread installs for which cluster, which threads hold the fence and which jobs
    have not given back their work; [rely] is what a thread may assume of all
    others, and [safe] proves one thread against it. *)

From coqutil Require Import Datatypes.RecordSetters.
From S2P Require Import Prelude Ordered TopologyTypes HashRing BalancedRing TokenPlacement HostPort KeyHelper Hasher.
From S2P Require Import RingTheory HashAlgorithm OwnerSpec PlanningInterface HashPlans Snapshot RepositoryCodec MembershipTypes.
From S2P Require Import MemoryKvStore TtlManager WatchRegistry WatchDispatcher CoordinatorStore StoreProgram BackendInterface StoreBackend HistoryFrame BackendTheory.
From S2P Require Import FailureClassifier RecoveryKeys TopologyRecoveryManager RecoveryInvariant RecoveryHandlers.

(** ** The world *)

(** [sh_fence] counts the holders of the shared side of the fence; [sh_rounds] lists the rounds begun so far. *)
Record Shared := { sh_manager : TopologyRecoveryManager; sh_store : Pointers; sh_fence : nat; sh_rounds : list TopologyRecoveryRoundIdentity }.
Record World := { w_shared : Shared; w_threads : list (task unit) }.

Definition with_manager (s : Shared) (m : TopologyRecoveryManager) : Shared :=
  {| sh_manager := m; sh_store := sh_store s; sh_fence := sh_fence s; sh_rounds := sh_rounds s |}.
Definition with_store (s : Shared) (p : Pointers) : Shared :=
  {| sh_manager := sh_manager s; sh_store := p; sh_fence := sh_fence s; sh_rounds := sh_rounds s |}.
Definition with_fence (s : Shared) (n : nat) : Shared :=
  {| sh_manager := sh_manager s; sh_store := sh_store s; sh_fence := n; sh_rounds := sh_rounds s |}.
Definition begin_round (s : Shared) (id : TopologyRecoveryRoundIdentity) (m : TopologyRecoveryManager) : Shared :=
  {| sh_manager := m; sh_store := sh_store s; sh_fence := sh_fence s; sh_rounds := sh_rounds s ++ [id] |}.

(** The calls of the service. *)
Inductive Operation :=
  | OpObserve (physicalKey : string) (lifecycleState : option MemberLifecycleState)
  | OpActivity (physicalKey : string)
  | OpCheck (key rangeEnd : string) (mutation : bool)
  | OpReport (name : string) (requestLeaderTerm : Z) (requestCoordinatorId : string) (report : TopologyRecoveryCandidateReport)
  | OpDelayed.

Definition ignore {A} (t : task A) : task unit := task_bind t (fun _ => Finish tt).

(** The store is initialized and its keys are ordered. *)
Definition store_up (p : Pointers) : Prop := store_ok p /\ exists s, CheckInitialized p = Ok s.

Section worlds.
Context `{RE2, SHA256, Protobuf ClusterTopologyPb, MapIteration}.
Context (options_ : TopologyRecoveryOptions) (coordinatorId_ : string).

Definition operation (op : Operation) : task unit :=
  match op with
  | OpObserve key lifecycle => ObserveMembershipChange options_ key lifecycle
  | OpActivity key => NotifyMembershipActivity options_ key
  | OpCheck key rangeEnd mutation => ignore (CheckAllowed options_ key rangeEnd mutation)
  | OpReport name term coordinator report => ignore (ReportCandidate options_ name term coordinator report)
  | OpDelayed => DelayedReconcileLoop_iteration options_
  end.

(** Leadership changes hold the fence exclusively, and a leader term is not used again. *)
Inductive world_step : World -> World -> Prop :=
  | step_call s ts op : world_step {| w_shared := s; w_threads := ts |} {| w_shared := s; w_threads := ts ++ [operation op] |}
  | step_job s ts jobs job jobs' :
      recoveryPool_ (sh_manager s) = jobs ++ job :: jobs' ->
      world_step {| w_shared := s; w_threads := ts |}
        {| w_shared := with_manager s ((sh_manager s){{recoveryPool_ := jobs ++ jobs'}}); w_threads := ts ++ [run_job options_ true job] |}
  | step_locked s ts i (B : Set) (f : Oracle -> TopologyRecoveryManager -> TopologyRecoveryManager * B) k o :
      ts !! i = Some (Locked f k) ->
      world_step {| w_shared := s; w_threads := ts |}
        {| w_shared := with_manager s (f o (sh_manager s)).1; w_threads := <[i := k (f o (sh_manager s)).2]> ts |}
  | step_request s ts i c k now :
      ts !! i = Some (Request c k) ->
      world_step {| w_shared := s; w_threads := ts |}
        {| w_shared := with_store s (exec now c (sh_store s)).1; w_threads := <[i := k (exec now c (sh_store s)).2]> ts |}
  | step_take s ts i k :
      ts !! i = Some (Fence true k) ->
      world_step {| w_shared := s; w_threads := ts |} {| w_shared := with_fence s (S (sh_fence s)); w_threads := <[i := k]> ts |}
  | step_release s ts i k :
      ts !! i = Some (Fence false k) ->
      world_step {| w_shared := s; w_threads := ts |} {| w_shared := with_fence s (pred (sh_fence s)); w_threads := <[i := k]> ts |}
  | step_begin s ts id timeout o :
      sh_fence s = 0%nat -> id ∉ sh_rounds s ->
      world_step {| w_shared := s; w_threads := ts |}
        {| w_shared := begin_round s id (BeginLeaderRound coordinatorId_ id timeout o (sh_manager s)); w_threads := ts |}
  | step_end s ts id :
      sh_fence s = 0%nat ->
      world_step {| w_shared := s; w_threads := ts |} {| w_shared := with_manager s (EndLeaderRound id (sh_manager s)); w_threads := ts |}
  | step_shutdown s ts :
      world_step {| w_shared := s; w_threads := ts |} {| w_shared := with_manager s (Shutdown (sh_manager s)); w_threads := ts |}
  | step_store s ts p :
      store_up p -> world_step {| w_shared := s; w_threads := ts |} {| w_shared := with_store s p; w_threads := ts |}.

Definition initial_world (p : Pointers) : World :=
  {| w_shared := {| sh_manager := new_TopologyRecoveryManager; sh_store := p; sh_fence := 0; sh_rounds := [] |}; w_threads := [] |}.
End worlds.

(** ** Ghost state *)

Record Ghost := {
  g_round : option TopologyRecoveryRoundIdentity;
  g_rounds : list TopologyRecoveryRoundIdentity;
  g_installs : gmap string (nat * (Z * string));
  g_fence : gset nat;
  g_held : gmap nat Job
}.

Record rely (i : nat) (g g' : Ghost) : Prop := {
  rl_rounds id : id ∈ g_rounds g -> id ∈ g_rounds g';
  rl_over id : id ∈ g_rounds g -> g_round g <> Some id -> g_round g' <> Some id;
  rl_fence : i ∈ g_fence g <-> i ∈ g_fence g';
  rl_fenced : i ∈ g_fence g -> g_round g' = g_round g;
  rl_installs id name what : id ∈ g_rounds g -> g_round g = Some id -> g_round g' = Some id ->
    g_installs g !! name = Some (i, what) -> g_installs g' !! name = Some (i, what);
  rl_own name what : g_installs g' !! name = Some (i, what) -> g_installs g !! name = Some (i, what);
  rl_held : g_held g' !! i = g_held g !! i
}.

#[global] Instance rely_preorder i : PreOrder (rely i).
Proof.
  split; [by constructor|]. intros g1 g2 g3 [A1 A2 A3 A4 A5 A7 A6] [B1 B2 B3 B4 B5 B7 B6]. constructor.
  - auto.
  - auto.
  - by rewrite A3.
  - intros Hi. rewrite B4, A4; [done..|by apply A3].
  - intros id name what Hid Hg Hg3 Hl. destruct (decide (g_round g2 = Some id)) as [Hg2|Hg2].
    + apply (B5 id); auto. by apply (A5 id).
    + exfalso. by apply (B2 id); auto.
  - auto.
  - by rewrite B6.
Qed.

Definition guar (i : nat) (g g' : Ghost) : Prop := forall j, j <> i -> rely j g g'.

Definition fresh (i : nat) (g : Ghost) : Prop :=
  i ∉ g_fence g /\ g_held g !! i = None /\ forall name what, g_installs g !! name <> Some (i, what).

Section logic.
Context `{RE2, SHA256, Protobuf ClusterTopologyPb, MapIteration, !MapIterationLaws}.
Context (options_ : TopologyRecoveryOptions) (coordinatorId_ : string).
Hypothesis Hmax : 0 <= maxCandidateMemoryBytes options_ < 2 ^ 64.

Record inv (g : Ghost) (s : Shared) : Prop := {
  iv_manager : manager_ok options_ 0 (g_held g) (g_rounds g) (sh_manager s);
  iv_round : g_round g = identity <$> activeRound_ (sh_manager s);
  iv_rounds : g_rounds g = sh_rounds s;
  iv_installs name : installing_at (sh_manager s) name = snd <$> g_installs g !! name;
  iv_fence : sh_fence s = base.size (g_fence g);
  iv_store : store_up (sh_store s)
}.

(** What a request to the store may be: reading a topology, or creating one that
    is the newest known of the cluster, in the round of the installation. *)
Definition may_request (s : Shared) (c : StoreCall) : Prop :=
  match c with
  | CallRange _ rangeEnd => rangeEnd = EmptyString
  | CallPut key value _ expectedVersion _ _ =>
      exists name context digest, key = topology_physical_key name /\ expectedVersion = COORDINATOR_KEY_NOT_EXISTS_VERSION /\
        contexts_ (sh_manager s) !! name = Some context /\ state context = INSTALLING /\ has_value (activeRound_ (sh_manager s)) = true /\
        valid_payload value (selectedVersion context) digest /\ newest_evidence (reporterEvidence context) (selectedVersion context) digest
  | CallDeleteRange _ _ => False
  end.

Fixpoint safe {A} (i : nat) (t : task A) (Q : Ghost -> A -> Prop) (g : Ghost) : Prop :=
  match t with
  | Finish a => Q g a
  | Locked f k => forall g1 o s, rely i g g1 -> inv g1 s ->
      exists g2, guar i g1 g2 /\ inv g2 (with_manager s (f o (sh_manager s)).1) /\ safe i (k (f o (sh_manager s)).2) Q g2
  | Request c k => forall g1 now s, rely i g g1 -> inv g1 s ->
      may_request s c /\ safe i (k (exec now c (sh_store s)).2) Q g1
  | Fence true k => forall g1, rely i g g1 -> i ∉ g_fence g1 /\
      safe i k Q {| g_round := g_round g1; g_rounds := g_rounds g1; g_installs := g_installs g1; g_fence := {[i]} ∪ g_fence g1; g_held := g_held g1 |}
  | Fence false k => forall g1, rely i g g1 -> i ∈ g_fence g1 /\
      safe i k Q {| g_round := g_round g1; g_rounds := g_rounds g1; g_installs := g_installs g1; g_fence := g_fence g1 ∖ {[i]}; g_held := g_held g1 |}
  end.

Lemma thread_rely {A} i (t : task A) Q g g' : (forall g g' a, rely i g g' -> Q g a -> Q g' a) -> rely i g g' -> safe i t Q g -> safe i t Q g'.
Proof.
  intros HQ Hr. destruct t as [a|B f k|c k|[] k]; cbn [safe]; [by apply HQ|..]; intros Hs.
  - intros g1 o s Hr1. apply Hs. by trans g'.
  - intros g1 now s Hr1. apply Hs. by trans g'.
  - intros g1 Hr1. apply Hs. by trans g'.
  - intros g1 Hr1. apply Hs. by trans g'.
Qed.

Lemma thread_bind {A B} i (t : task A) (f : A -> task B) Q R g : safe i t Q g -> (forall g a, Q g a -> safe i (f a) R g) -> safe i (task_bind t f) R g.
Proof.
  intros Ht Hf. revert g Ht. induction t as [a|C s k IH|c k IH|[] k IH]; intros g Ht; cbn [task_bind safe] in *; [auto|..].
  - intros g1 o sh Hr Hi. destruct (Ht g1 o sh Hr Hi) as (g2 & Hg & Hi2 & Hk). exists g2. split_and!; auto.
  - intros g1 now sh Hr Hi. destruct (Ht g1 now sh Hr Hi) as [Hm Hk]. split; auto.
  - intros g1 Hr. destruct (Ht g1 Hr) as [Hm Hk]. split; auto.
  - intros g1 Hr. destruct (Ht g1 Hr) as [Hm Hk]. split; auto.
Qed.

(** ** Tame threads *)

Definition tame_step {B : Set} (f : Oracle -> TopologyRecoveryManager -> TopologyRecoveryManager * B) : Prop :=
  forall held rounds o m, manager_ok options_ 0 held rounds m -> tame options_ 0 held rounds m (f o m).1.

Lemma inv_tame g s m : inv g s -> tame options_ 0 (g_held g) (g_rounds g) (sh_manager s) m -> inv g (with_manager s m).
Proof.
  intros [Hm Hr Hrs Hi Hf Hst] [Hok Hround Hinst]. constructor; cbn; try done; [by rewrite Hround|]. intros name. by rewrite Hinst.
Qed.

Lemma thread_guar_refl i g : guar i g g.
Proof. by intros j _. Qed.

(** A tame step tells the thread what it read. *)
Lemma safe_tame {A} {B : Set} i (f : Oracle -> TopologyRecoveryManager -> TopologyRecoveryManager * B) (k : B -> task A) Q (P : Ghost -> B -> Prop) g :
  tame_step f -> (forall g1 o s, rely i g g1 -> inv g1 s -> P g1 (f o (sh_manager s)).2) ->
  (forall g1 b, rely i g g1 -> P g1 b -> safe i (k b) Q g1) -> safe i (Locked f k) Q g.
Proof.
  intros Hf HP Hk. cbn [safe]. intros g1 o s Hr Hi. exists g1. split_and!; [apply thread_guar_refl|apply inv_tame; [done|]|].
  - apply Hf, Hi.
  - apply Hk; [done|]. by apply HP.
Qed.

Fixpoint tame_task {A} (t : task A) : Prop :=
  match t with
  | Finish _ => True
  | Locked f k => tame_step f /\ forall b, tame_task (k b)
  | Request _ _ | Fence _ _ => False
  end.

Lemma tame_bind {A B} (t : task A) (f : A -> task B) : tame_task t -> (forall a, tame_task (f a)) -> tame_task (task_bind t f).
Proof.
  intros Ht Hf. induction t as [a|C s k IH|c k IH|tk k IH]; cbn [task_bind tame_task] in *; [auto| |done|done].
  destruct Ht as [Hs Hk]. split; auto.
Qed.

Lemma tame_safe {A} i (t : task A) g : tame_task t -> safe i t (fun g' _ => rely i g g') g.
Proof.
  intros Ht. enough (forall g', rely i g g' -> safe i t (fun g' _ => rely i g g') g') as Hg by (apply Hg; reflexivity).
  induction t as [a|C s k IH|c k IH|tk k IH]; intros g' Hg; cbn [tame_task] in Ht; [done| |done|done].
  destruct Ht as [Hs Hk]. apply (safe_tame i s k _ (fun _ _ => True)); [done|done|]. intros g1 b Hr _. apply IH; [done|]. by trans g'.
Qed.

Lemma tame_locked {B : Set} (f : Oracle -> TopologyRecoveryManager -> TopologyRecoveryManager * B) : tame_step f -> tame_task (locked f).
Proof. by intros Hf. Qed.

Lemma Hmax' : maxCandidateMemoryBytes options_ < 2 ^ 64.
Proof. lia. Qed.

Lemma schedule_tame name : tame_task (ScheduleReconcile options_ name).
Proof. pose proof Hmax'. apply tame_locked. intros held rounds o m Hok. by apply tame_schedule. Qed.

(** A step that only looks. *)
Lemma look_tame {B : Set} (f : Oracle -> TopologyRecoveryManager -> B) : tame_step (fun o m => (m, f o m)).
Proof. intros held rounds o m Hok. by apply tame_refl. Qed.

Lemma operation_tame op : tame_task (operation options_ op).
Proof.
  pose proof Hmax' as Hm. assert (Hmem : forall key parsed observation, ParseKey key = Ok parsed ->
    tame_task (task_bind (locked_ (UpdateMembership options_ parsed observation)) (fun _ => task_bind (ScheduleReconcile options_ (pk_clusterName parsed)) (fun _ => Finish tt)))).
  { intros key parsed observation Hp. apply tame_bind.
    - apply tame_locked. intros held rounds o m Hok. apply tame_membership; try done. by eapply ParseKey_name.
    - intros _. apply tame_bind; [apply schedule_tame|done]. }
  destruct op as [key lifecycle|key|key rangeEnd mutation|name term coordinator report|]; cbn [operation].
  - unfold ObserveMembershipChange. destruct (ParseKey key) as [parsed|] eqn:Hp; [|done]. case_match; [done|]. by eapply Hmem.
  - unfold NotifyMembershipActivity. destruct (ParseKey key) as [parsed|] eqn:Hp; [|done]. case_match; [done|]. by eapply Hmem.
  - apply tame_bind; [|done]. unfold CheckAllowed. destruct (ParseKey key) as [parsed|]; [|done]. case_match; [done|]. case_match; [done|].
    apply tame_bind; [apply tame_locked, (look_tame (fun _ m => option_map state (contexts_ m !! pk_clusterName parsed)))|].
    intros [[]|]; try done; (apply tame_bind; [apply schedule_tame|done]).
  - apply tame_bind; [|done]. unfold ReportCandidate. apply tame_bind; [apply tame_locked; intros held rounds o m Hok; by apply tame_refl|].
    intros [[result|id]|code]; [done| |done]. destruct (ValidateEvidence name report); [|done].
    apply tame_bind; [apply tame_locked; intros held rounds o m Hok; by apply tame_accept|].
    intros [[[decision|] decision']|code]; [done| |done]. case_match.
    + unfold RecordEvidence. apply tame_bind.
      * apply tame_locked. intros held rounds o m Hok. repeat case_match; try (by apply tame_refl). by apply tame_update_evidence.
      * intros [[d []]|code]; try done. apply tame_bind; [apply schedule_tame|done].
    + unfold SubmitPayload. apply tame_bind; [apply tame_locked; intros held rounds o m Hok; by apply tame_submit|].
      intros [[d|]|code]; try done. apply tame_bind; [apply tame_locked; intros held rounds o m Hok; by apply tame_refl|].
      intros [u|code]; [|done]. apply tame_bind; [|done]. apply tame_locked. intros held rounds o m Hok. by apply tame_refl.
  - unfold DelayedReconcileLoop_iteration. apply tame_bind.
    + apply tame_locked. intros held rounds o m Hok. case_match; [by apply tame_refl|by apply tame_due].
    + intros due. induction due as [|name due IH]; [done|]. cbn [reschedule_all]. apply tame_bind; [apply schedule_tame|].
      intros []; (apply tame_bind; [|done]); [done|]. apply tame_locked. intros held rounds o m Hok. by apply tame_delay.
Qed.

(** ** Validation jobs *)

Definition drop_held (i : nat) (g : Ghost) : Ghost :=
  {| g_round := g_round g; g_rounds := g_rounds g; g_installs := g_installs g; g_fence := g_fence g; g_held := delete i (g_held g) |}.

Lemma guar_drop i g : guar i g (drop_held i g).
Proof. intros j Hj. constructor; try done. cbn. by rewrite lookup_delete_ne. Qed.

Lemma inv_drop i g s m : inv g s -> tame options_ 0 (delete i (g_held g)) (g_rounds g) (sh_manager s) m -> inv (drop_held i g) (with_manager s m).
Proof.
  intros [Hm Hr Hrs Hi Hf Hst] [Hok Hround Hinst]. constructor; cbn; try done; [by rewrite Hround|]. intros name. by rewrite Hinst.
Qed.

(** A thread that has finished holds no job. *)
Definition released {A} (i : nat) (g : Ghost) (_ : A) : Prop := g_held g !! i = None.

Lemma released_rely {A} i g g' (a : A) : rely i g g' -> released i g a -> released i g' a.
Proof. intros Hr. unfold released. by rewrite (rl_held _ _ _ Hr). Qed.

Lemma released_drop {A} i g (a : A) : released i (drop_held i g) a.
Proof. unfold released. cbn. by rewrite lookup_delete_eq. Qed.

Lemma validation_safe i name id gen report g : g_held g !! i = Some (ValidateJob name id gen report) ->
  safe i (run_job options_ true (ValidateJob name id gen report)) (released i) g.
Proof.
  intros Hh. cbn [run_job]. apply (thread_bind _ _ _ (released i)); [|done]. unfold RunValidation. destruct (ValidatePayload report) as [u|code] eqn:Hv.
  - unfold RecordPayload, locked. cbn [task_bind safe]. intros g1 o s Hr Hi. exists (drop_held i g1). split_and!; [apply guar_drop| |].
    + apply inv_drop; [done|]. eapply tame_record; [apply Hmax'|rewrite (rl_held _ _ _ Hr); exact Hh|apply Hi|done|by destruct u].
    + destruct (record_payload _ _ _ _ _).2 as [[]|]; [|apply released_drop..].
      eapply thread_bind; [apply tame_safe, schedule_tame|]. intros g2 a Hg2. eapply (released_rely _ _ _ tt Hg2), released_drop.
  - unfold RejectPayload, locked. cbn [safe]. intros g1 o s Hr Hi. exists (drop_held i g1). split_and!; [apply guar_drop| |apply released_drop].
    apply inv_drop; [done|]. eapply tame_reject; [apply Hmax'|rewrite (rl_held _ _ _ Hr); exact Hh|apply Hi|done].
Qed.

(** ** Reconciliation jobs *)

Section reconcile.
Context (i : nat) (name : string) (id : TopologyRecoveryRoundIdentity).

(** What the thread knows throughout. *)
Definition serving (g : Ghost) : Prop := g_held g !! i = Some (ReconcileJob name id) /\ i ∉ g_fence g /\ id ∈ g_rounds g.

Lemma serving_rely g g' : rely i g g' -> serving g -> serving g'.
Proof. intros [A1 A2 A3 A4 A5 A7 A6] (H1' & H2' & H3'). split_and!; [by rewrite A6|by rewrite <-A3|auto]. Qed.

(** What it knows while it installs: as long as the round lasts, the installation is its own. *)
Definition owns_install (what : Z * string) (g : Ghost) : Prop := g_round g = Some id -> g_installs g !! name = Some (i, what).

Lemma owns_rely what g g' : id ∈ g_rounds g -> rely i g g' -> owns_install what g -> owns_install what g'.
Proof.
  intros Hid [A1 A2 A3 A4 A5 A7 A6] Ho Hg. destruct (decide (g_round g = Some id)) as [E|E]; [|by destruct (A2 id)].
  apply (A5 id); auto.
Qed.

Lemma current_round g s : inv g s -> IsCurrentRoundLocked id (sh_manager s) = true -> g_round g = Some id.
Proof. intros Hi Hc. unfold IsCurrentRoundLocked in Hc. apply bool_decide_eq_true in Hc. by rewrite (iv_round _ _ Hi). Qed.

Lemma authority_safe g : serving g -> safe i (AdoptStoredAuthorityIfPresent name id)
  (fun g' r => serving g' /\ match r with Err _ => KeyHelper.Create name <> Ok (new_TopologyKeyHelper name) | Ok _ => True end) g.
Proof.
  intros Hg. pose proof Hmax' as Hm. unfold AdoptStoredAuthorityIfPresent, locked. cbn [task_bind].
  apply (safe_tame _ _ _ _ (fun _ _ => True)); [intros held rounds o m Hok; by apply tame_authority_check|done|].
  intros g1 b Hr _. apply (serving_rely _ _ Hr) in Hg. clear Hr. destruct b as [gen|]; [|done].
  destruct (KeyHelper.Create name) as [keys|code] eqn:Hc; [|done]. cbn [safe]. intros g2 now s Hr Hi. apply (serving_rely _ _ Hr) in Hg. split; [done|].
  destruct (iv_store _ _ Hi) as [Hok [st Hst]]. pose proof (exec_range now (topology_physical_key name) (sh_store s)) as [_ Hx].
  destruct (exec now (CallRange (topology_physical_key name) "") (sh_store s)).2 as [result|code] eqn:Hres.
  2: { exfalso. cbn [exec snd] in Hres. unfold cs_Range in Hres. by rewrite Hst in Hres. }
  rewrite Hx. destruct (stored (sh_store s) (topology_physical_key name)) as [e|]; [|done].
  unfold locked. cbn [task_bind]. apply (safe_tame _ _ _ _ (fun _ _ => True)); [intros held rounds o m Hok'; by apply tame_apply|done|].
  intros g3 b Hr' _. cbn [safe]. split; [|done]. by eapply serving_rely.
Qed.

(** A new installation is recorded as the thread's own. *)
Definition add_install (what : Z * string) (g : Ghost) : Ghost :=
  {| g_round := g_round g; g_rounds := g_rounds g; g_installs := <[name := (i, what)]> (g_installs g); g_fence := g_fence g; g_held := g_held g |}.

Lemma inv_started g s version payload m : inv g s -> started options_ 0 (g_held g) (g_rounds g) name version payload (sh_manager s) m ->
  guar i g (add_install (version, payload) g) /\ inv (add_install (version, payload) g) (with_manager s m).
Proof.
  intros [Hm Hr Hrs Hi Hf Hst] (Hidle & Hok & Hround & Hin & Hother). unfold idle in Hidle. rewrite Hi in Hidle.
  apply fmap_None in Hidle. split.
  - intros j Hj. constructor; try done; cbn.
    + intros id' name' what _ _ _ Hl. rewrite lookup_insert_ne; [done|]. intros <-. by rewrite Hidle in Hl.
    + intros name' what. destruct (decide (name' = name)) as [->|Hne]; [rewrite lookup_insert_eq; congruence|by rewrite lookup_insert_ne].
  - constructor; cbn; try done; [by rewrite Hround|]. intros k. destruct (decide (k = name)) as [->|Hne].
    + by rewrite lookup_insert_eq.
    + rewrite lookup_insert_ne by done. by rewrite Hother.
Qed.

Definition end_install (g : Ghost) : Ghost :=
  {| g_round := g_round g; g_rounds := g_rounds g; g_installs := delete name (g_installs g); g_fence := g_fence g; g_held := g_held g |}.

Lemma inv_ended g s what m : inv g s -> g_installs g !! name = Some (i, what) ->
  ended options_ (g_held g) (g_rounds g) name (sh_manager s) m -> guar i g (end_install g) /\ inv (end_install g) (with_manager s m).
Proof.
  intros [Hm Hr Hrs Hi Hf Hst] Hown [Hok Hround Hidle Hother]. split.
  - intros j Hj. constructor; try done; cbn.
    + intros id' name' what' _ _ _ Hl. rewrite lookup_delete_ne; [done|]. intros <-. congruence.
    + intros name' what'. by intros [_ ?]%lookup_delete_Some.
  - constructor; cbn; try done; [by rewrite Hround|]. intros k. destruct (decide (k = name)) as [->|Hne].
    + rewrite lookup_delete_eq. exact Hidle.
    + rewrite lookup_delete_ne by done. by rewrite Hother.
Qed.

Definition held_fence (take : bool) (g : Ghost) : Ghost :=
  {| g_round := g_round g; g_rounds := g_rounds g; g_installs := g_installs g;
     g_fence := if take then {[i]} ∪ g_fence g else g_fence g ∖ {[i]}; g_held := g_held g |}.

Lemma installed_request g s version payload : inv g s -> g_round g = Some id -> g_installs g !! name = Some (i, (version, payload)) ->
  may_request s (CallPut (topology_physical_key name) payload 0 COORDINATOR_KEY_NOT_EXISTS_VERSION COORDINATOR_NO_MOD_REVISION_CHECK 0).
Proof.
  intros [Hm Hr Hrs Hi Hf Hst] Hg Hl. specialize (Hi name). rewrite Hl in Hi. cbn in Hi. unfold installing_at in Hi.
  destruct (contexts_ (sh_manager s) !! name) as [context|] eqn:Hc; [|done]. cbn in Hi. unfold installing in Hi.
  case_bool_decide as Hs; [|done]. destruct (mo_contexts _ _ _ _ _ Hm _ _ Hc) as [H1' H2' H3'].
  destruct (selectedCanonicalTopology context) as [p|] eqn:Hp; [|done]. cbn in Hi. injection Hi as <- <-.
  exists name, context, (selectedCanonicalDigest context). split_and!; try done.
  - rewrite Hg in Hr. by destruct (activeRound_ (sh_manager s)).
  - by apply H2'.
  - by apply H3'.
Qed.

Lemma thread_request {A} c (k : answer c -> task A) Q g :
  (forall g1 now s, rely i g g1 -> inv g1 s -> may_request s c /\ safe i (k (exec now c (sh_store s)).2) Q g1) -> safe i (Request c k) Q g.
Proof. done. Qed.

Lemma safe_take {A} (k : task A) Q g : (forall g1, rely i g g1 -> i ∉ g_fence g1 /\ safe i k Q (held_fence true g1)) -> safe i (Fence true k) Q g.
Proof. done. Qed.

Lemma install_safe version payload g : serving g -> owns_install (version, payload) g ->
  safe i (install_if_current true name id payload) (fun g' _ => serving g' /\ owns_install (version, payload) g') g.
Proof.
  intros Hg Ho. unfold install_if_current, locked. cbn [task_bind]. apply safe_take. intros g1 Hr1. pose proof (serving_rely _ _ Hr1 Hg) as Hg1.
  pose proof (owns_rely _ _ _ (proj2 (proj2 Hg)) Hr1 Ho) as Ho1. split; [apply Hg1|]. clear Hg Hr1.
  destruct Hg1 as (Hh & Hf & Hid). set (g2 := held_fence true g1).
  assert (Hin : i ∈ g_fence g2) by (cbn; set_solver). assert (Hh2 : g_held g2 !! i = Some (ReconcileJob name id)) by done.
  assert (Ho2 : owns_install (version, payload) g2) by exact Ho1. assert (Hid2 : id ∈ g_rounds g2) by done. clearbody g2. clear Hh Hf Hid Ho Ho1 g1.
  (* everything below happens under the fence *)
  assert (Hrel : forall g3 status, rely i g2 g3 -> safe i (Fence false (Finish status : task (option (res unit))))
    (fun g' _ => serving g' /\ owns_install (version, payload) g') g3).
  { intros g3 status Hr3. cbn [safe]. intros g4 Hr4. assert (Hr : rely i g2 g4) by by trans g3.
    pose proof (owns_rely _ _ _ Hid2 Hr Ho2) as Ho4. destruct Hr as [A1 A2 A3 A4 A5 A7 A6]. split; [by apply A3|]. split; [|done].
    split_and!; [cbn; by rewrite A6|cbn; set_solver|by apply A1]. }
  apply (safe_tame _ _ _ _ (fun _ _ => True)); [intros held rounds o m Hok; by apply tame_refl|done|]. intros g3 allowed Hr3 _.
  destruct allowed; [|by apply Hrel]. cbn [task_bind].
  apply (safe_tame _ _ _ _ (fun g b => b = true -> g_round g = Some id)); [intros held rounds o m Hok; by apply tame_refl|intros g4 o s _ Hi; by apply current_round|].
  intros g4 current Hr4 Hcur. assert (Hr24 : rely i g2 g4) by by trans g3. destruct current; [|by apply Hrel]. specialize (Hcur eq_refl).
  unfold InstallSelected. destruct (KeyHelper.Create name); cbn [task_bind]; [|by apply Hrel].
  apply thread_request. intros g5 now s Hr5 Hi5. assert (Hr25 : rely i g2 g5) by by trans g4. split; [|by apply Hrel].
  assert (g_round g5 = Some id) as Hcur5 by (rewrite (rl_fenced _ _ _ Hr5); [done|by apply (rl_fence _ _ _ Hr24)]).
  apply (installed_request g5 s version payload); [done|done|]. by apply (owns_rely _ _ _ Hid2 Hr25 Ho2).
Qed.

Lemma finalize_safe g : serving g -> safe i (MaybeFinalize true name id) (fun g' _ => serving g') g.
Proof.
  intros Hg. pose proof Hmax' as Hm. unfold MaybeFinalize. unfold locked at 1. cbn [task_bind].
  apply (safe_tame _ _ _ _ (fun _ _ => True)); [intros held rounds o m Hok; by apply tame_finalize_check|done|].
  intros g1 [status|] Hr1 _; apply (serving_rely _ _ Hr1) in Hg; clear Hr1; [done|]. eapply thread_bind; [by apply authority_safe|].
  clear g Hg. intros g [[]|code] [Hg Hc]; unfold locked_, locked; cbn [task_bind].
  - apply (safe_tame _ _ _ _ (fun _ _ => True)); [intros held rounds o m Hok; by apply tame_after_resolution|done|].
    intros g2 b Hr2 _. by eapply serving_rely.
  - cbn [safe]. intros g2 o s Hr2 Hi2. apply (serving_rely _ _ Hr2) in Hg. clear Hr2 Hc g1.
    pose proof (select_spec options_ Hm 0 _ _ (Z.le_refl 0) o name id _ (iv_manager _ _ Hi2)) as Hsel.
    destruct (select_installation o name id (sh_manager s)) as [m [[[version payload]|]|code]]; cbn [fst snd].
    + destruct Hsel as [Hst Hcur]. destruct (inv_started _ _ _ _ _ Hi2 Hst) as [Hgu Hi3]. exists (add_install (version, payload) g2). split_and!; [done|done|].
      eapply thread_bind; [apply install_safe; [done|]|].
      { intros _. cbn. by rewrite lookup_insert_eq. }
      intros g3 [status|] [Hg3 Ho3]; [|done]. cbn [task_bind safe]. intros g4 o4 s4 Hr4 Hi4.
      pose proof (owns_rely _ _ _ (proj2 (proj2 Hg3)) Hr4 Ho3) as Ho4. apply (serving_rely _ _ Hr4) in Hg3.
      destruct (complete_spec options_ Hm _ _ o4 name id version status _ (iv_manager _ _ Hi4)) as [Ht|[He Hc4]].
      * exists g4. split_and!; [apply thread_guar_refl|by apply inv_tame|done].
      * pose proof (current_round _ _ Hi4 Hc4) as Hcur4. destruct (inv_ended _ _ _ _ Hi4 (Ho4 Hcur4) He) as [Hgu5 Hi5].
        exists (end_install g4). split_and!; [done|done|done].
    + destruct Hsel as [Ht|(version & payload & Hst)].
      * exists g2. split_and!; [apply thread_guar_refl|by apply inv_tame|done].
      * destruct (inv_started _ _ _ _ _ Hi2 Hst) as [Hgu Hi3]. by exists (add_install (version, payload) g2).
    + destruct Hsel as [Ht|(version & payload & Hst)].
      * exists g2. split_and!; [apply thread_guar_refl|by apply inv_tame|done].
      * destruct (inv_started _ _ _ _ _ Hi2 Hst) as [Hgu Hi3]. by exists (add_install (version, payload) g2).
  - cbn [safe]. intros g2 o s Hr2 Hi2. exists g2. apply (serving_rely _ _ Hr2) in Hg. assert (Hnone : contexts_ (sh_manager s) !! name = None).
    { destruct (contexts_ (sh_manager s) !! name) eqn:E; [|done]. exfalso. apply Hc. apply (mo_names _ _ _ _ _ (iv_manager _ _ Hi2)). by rewrite E. }
    unfold after_authority_error. rewrite Hnone. cbn [fst snd]. split_and!; [apply thread_guar_refl|apply inv_tame; [done|by apply tame_refl, Hi2]|done].
Qed.

Lemma reconcile_safe g : serving g -> safe i (run_job options_ true (ReconcileJob name id)) (released i) g.
Proof.
  intros Hg. cbn [run_job]. unfold RunReconcile. apply (thread_bind _ _ _ (fun g' _ => serving g')); [by apply finalize_safe|]. intros g0 _ Hg0.
  unfold locked_, locked. cbn [safe]. intros g1 o s Hr Hi. apply (serving_rely _ _ Hr) in Hg0. exists (drop_held i g1).
  split_and!; [apply guar_drop| |apply released_drop]. apply inv_drop; [done|]. eapply tame_finish; [apply Hmax'|apply Hg0|apply Hi|done].
Qed.
End reconcile.

Lemma job_safe i job g : g_held g !! i = Some job -> i ∉ g_fence g -> job_round job ∈ g_rounds g ->
  safe i (run_job options_ true job) (released i) g.
Proof. intros Hh Hf Hr. destruct job; [by apply reconcile_safe|by apply validation_safe]. Qed.

(** ** All threads *)

Definition pool_ok (g : Ghost) (w : World) : Prop := inv g (w_shared w) /\ (forall i, (length (w_threads w) <= i)%nat -> fresh i g) /\
  forall i t, w_threads w !! i = Some t -> safe i t (released i) g.

Lemma safe_weaken {A} i (t : task A) (Q R : Ghost -> A -> Prop) g : (forall g a, Q g a -> R g a) -> safe i t Q g -> safe i t R g.
Proof.
  intros HQ. revert g. induction t as [a|B f k IH|c k IH|[] k IH]; intros g Ht; cbn [safe] in *; [auto|..].
  - intros g1 o s Hr Hi. destruct (Ht g1 o s Hr Hi) as (g2 & Hg & Hi2 & Hk). exists g2. split_and!; auto.
  - intros g1 now s Hr Hi. destruct (Ht g1 now s Hr Hi) as [Hm Hk]. split; auto.
  - intros g1 Hr. destruct (Ht g1 Hr) as [Hm Hk]. split; auto.
  - intros g1 Hr. destruct (Ht g1 Hr) as [Hm Hk]. split; auto.
Qed.

Lemma fresh_rely i g g' : rely i g g' -> fresh i g -> fresh i g'.
Proof.
  intros [A1 A2 A3 A4 A5 A7 A6] (Hf & Hh & Hi). split_and!; [by rewrite <-A3|by rewrite A6|]. intros name what E. by apply (Hi name what), A7.
Qed.

(** The other threads go on after thread [i] has moved. *)
Lemma others_ok i g g' (ts : list (task unit)) t' : guar i g g' -> (forall j t, ts !! j = Some t -> safe j t (released j) g) ->
  safe i t' (released i) g' -> forall j t, <[i := t']> ts !! j = Some t -> safe j t (released j) g'.
Proof.
  intros Hg Hts Ht' j t Hj. destruct (decide (j = i)) as [->|Hne].
  - destruct (decide (i < length ts)%nat) as [Hlt|Hlt].
    + rewrite list_lookup_insert_eq in Hj by done. by injection Hj as <-.
    + rewrite lookup_ge_None_2 in Hj; [done|]. rewrite length_insert. lia.
  - rewrite list_lookup_insert_ne in Hj by done. eapply thread_rely; [intros ???; apply released_rely|by apply Hg|]. by apply Hts.
Qed.

Lemma all_ok g g' (ts : list (task unit)) : (forall j, rely j g g') -> (forall j t, ts !! j = Some t -> safe j t (released j) g) ->
  forall j t, ts !! j = Some t -> safe j t (released j) g'.
Proof. intros Hg Hts j t Hj. eapply thread_rely; [intros ???; apply released_rely|apply Hg|]. by apply Hts. Qed.

Lemma exec_up now c s : may_request s c -> store_up (sh_store s) -> store_up (exec now c (sh_store s)).1.
Proof.
  intros Hm [Hok [st Hst]]. destruct c as [key value ttl ev em eg|key rangeEnd|key rangeEnd]; [|by split; [|eexists]|done].
  destruct Hm as (name & context & digest & -> & -> & _).
  pose proof (exec_put now (topology_physical_key name) value ttl COORDINATOR_KEY_NOT_EXISTS_VERSION em eg (sh_store s) Hok ltac:(done)) as Hx.
  cbv zeta in Hx. split; [destruct (exec _ _ _).2; [by destruct Hx|by rewrite Hx]|].
  destruct (exec now (CallPut (topology_physical_key name) value ttl COORDINATOR_KEY_NOT_EXISTS_VERSION em eg) (sh_store s)) as [p r] eqn:E. cbn [fst snd] in *.
  destruct r; [|subst p; by exists st]. cbn [exec] in E. unfold cs_Put in E. rewrite Hst in E. cbn [mbind res_bind] in E.
  destruct (Put _ _ _ _ _ _ _) as [[[kv pr] events]|code]; cbn in E; [|congruence]. injection E as <- _. by eexists.
Qed.

(** A job moves from the queue to a new thread. *)
Definition hold (i : nat) (job : Job) (g : Ghost) : Ghost :=
  {| g_round := g_round g; g_rounds := g_rounds g; g_installs := g_installs g; g_fence := g_fence g; g_held := <[i := job]> (g_held g) |}.

Lemma inv_hold i g s jobs job jobs' : inv g s -> fresh i g -> recoveryPool_ (sh_manager s) = jobs ++ job :: jobs' ->
  inv (hold i job g) (with_manager s ((sh_manager s){{recoveryPool_ := jobs ++ jobs'}})) /\ job_round job ∈ g_rounds g.
Proof.
  intros [Hm Hr Hrs Hi Hf Hst] (_ & Hh & _) Hpool. assert (Hjob : job_round job ∈ g_rounds g).
  { apply (mo_jobs _ _ _ _ _ Hm). rewrite Hpool. set_solver. }
  split; [|done]. constructor; cbn; try done. destruct Hm as [Hs Hn Hc Hrd Hj Hp Had Hre Hlim].
  constructor; try done; cbn [recoveryPool_ pendingRecoveryWork_ admittedReportBytes_ g_held hold].
  - intros j Hin. change (j ∈ jobs ++ jobs') in Hin. apply Hj. rewrite Hpool. set_solver.
  - change (pendingRecoveryWork_ (sh_manager s) = Z.of_nat (length (jobs ++ jobs') + base.size (<[i := job]> (g_held g)))).
    rewrite Hp, Hpool, map_size_insert_None, !length_app by done. cbn. lia.
  - change (admittedReportBytes_ (sh_manager s) = jobs_bytes (jobs ++ jobs') + total job_bytes (<[i := job]> (g_held g))).
    rewrite Had, Hpool, total_insert, !jobs_bytes_app by done. change (job :: jobs') with ([job] ++ jobs'). rewrite jobs_bytes_app. cbn. lia.
Qed.

(** A change of leadership while nobody holds the fence. *)
Definition change_round (g : Ghost) (s : Shared) (cleared : bool) : Ghost :=
  {| g_round := identity <$> activeRound_ (sh_manager s); g_rounds := sh_rounds s;
     g_installs := if cleared then ∅ else g_installs g; g_fence := g_fence g; g_held := g_held g |}.

Lemma begin_ok g s id timeout o : inv g s -> sh_fence s = 0%nat -> id ∉ sh_rounds s ->
  exists cleared, let s' := begin_round s id (BeginLeaderRound coordinatorId_ id timeout o (sh_manager s)) in
    inv (change_round g s' cleared) s' /\ forall j, rely j g (change_round g s' cleared).
Proof.
  intros Hinv Hz Hid. pose proof (iv_fence _ _ Hinv) as Hf0. rewrite Hz in Hf0. symmetry in Hf0. apply size_empty_iff in Hf0. fold_leibniz.
  destruct (begin_spec options_ coordinatorId_ Hmax' _ _ id timeout o _ (iv_manager _ _ Hinv)) as [Hok Hcase].
  set (m' := BeginLeaderRound coordinatorId_ id timeout o (sh_manager s)) in *. destruct Hinv as [Hm Hr Hrs Hi Hf Hst].
  assert (Hsub : forall x, x ∈ g_rounds g -> x ∈ sh_rounds s ++ [id]) by (intros x Hx; rewrite <-Hrs; set_solver).
  destruct Hcase as [Hsame|[Hnew Hidle]].
  - exists false. cbv zeta. split.
    + constructor; cbn; try done; [by rewrite <-Hrs|]. intros name. rewrite Hsame. apply Hi.
    + intros j. constructor; cbn; rewrite ?Hsame, <-?Hr; try done.
  - exists true. cbv zeta. split.
    + constructor; cbn; try done. by rewrite <-Hrs.
    + intros j. constructor; cbn; try done.
      * intros x Hx _. rewrite Hnew. intros [= <-]. apply Hid. by rewrite <-Hrs.
      * rewrite Hf0. set_solver.
      * intros x name what Hx _. rewrite Hnew. intros [= <-]. exfalso. apply Hid. by rewrite <-Hrs.
Qed.

Lemma end_ok g s id : inv g s -> sh_fence s = 0%nat ->
  exists cleared, let s' := with_manager s (EndLeaderRound id (sh_manager s)) in
    inv (change_round g s' cleared) s' /\ forall j, rely j g (change_round g s' cleared).
Proof.
  intros Hinv Hz. pose proof (iv_fence _ _ Hinv) as Hf0. rewrite Hz in Hf0. symmetry in Hf0. apply size_empty_iff in Hf0. fold_leibniz.
  destruct (end_spec options_ Hmax' _ _ id _ (iv_manager _ _ Hinv)) as [Hok Hcase].
  set (m' := EndLeaderRound id (sh_manager s)) in *. destruct Hinv as [Hm Hr Hrs Hi Hf Hst].
  destruct Hcase as [Hsame|(Hcur & Hnone & Hidle)].
  - exists false. cbv zeta. split.
    + constructor; cbn; try done; [by rewrite <-Hrs|]. intros name. rewrite Hsame. apply Hi.
    + intros j. constructor; cbn; rewrite ?Hsame, <-?Hr, <-?Hrs; try done.
  - exists true. cbv zeta. split.
    + constructor; cbn; try done. by rewrite <-Hrs.
    + intros j. constructor; cbn; rewrite ?Hnone, <-?Hrs; try done. rewrite Hf0. set_solver.
Qed.

Lemma change_round_fresh g s cleared i : fresh i g -> fresh i (change_round g s cleared).
Proof. intros (Hf & Hh & Hi). split_and!; [done|done|]. intros name what. destruct cleared; cbn; [by rewrite lookup_empty|apply Hi]. Qed.

Lemma world_step_ok g w w' : pool_ok g w -> world_step options_ coordinatorId_ w w' -> exists g', pool_ok g' w'.
Proof.
  intros (Hinv & Hfresh & Hts) Hstep. destruct Hstep as [s ts op|s ts jobs job jobs' Hpool|s ts i B f k o Hi|s ts i c k now Hi|s ts i k Hi|s ts i k Hi
    |s ts id timeout o Hz Hid|s ts id Hz|s ts|s ts p Hp]; unfold pool_ok; cbn [w_shared w_threads] in *.
  - exists g. split_and!; [done|intros j; rewrite length_app; cbn; intros; apply Hfresh; lia|].
    intros j t [[_ Hj]|[-> <-]]%lookup_snoc_Some; [by apply Hts|]. eapply safe_weaken; [|apply tame_safe, operation_tame]. intros g' a Hg'. apply (released_rely _ _ _ a Hg'). by apply Hfresh.
  - destruct (inv_hold (length ts) g s jobs job jobs' Hinv) as [Hinv' Hjob]; [by apply Hfresh|done|].
    assert (Hrel : forall j, j <> length ts -> rely j g (hold (length ts) job g)) by (intros j Hj; constructor; try done; cbn; by rewrite lookup_insert_ne).
    exists (hold (length ts) job g). split_and!; [done| |].
    + intros j. rewrite length_app. cbn. intros Hj. eapply fresh_rely; [apply Hrel; lia|]. apply Hfresh. lia.
    + intros j t [[Hlt Hj]|[-> <-]]%lookup_snoc_Some.
      * eapply thread_rely; [intros ???; apply released_rely|apply Hrel; lia|]. by apply Hts.
      * apply job_safe; [cbn; by rewrite lookup_insert_eq|by apply Hfresh|done].
  - destruct (Hts i _ Hi g o s ltac:(reflexivity) Hinv) as (g2 & Hg & Hinv2 & Hk). exists g2. split_and!; [done| |by eapply others_ok].
    intros j. rewrite length_insert. intros Hj. pose proof (lookup_lt_Some _ _ _ Hi). eapply fresh_rely; [apply Hg; lia|by apply Hfresh].
  - destruct (Hts i _ Hi g now s ltac:(reflexivity) Hinv) as [Hreq Hk]. exists g. split_and!; [|by rewrite length_insert|].
    + destruct Hinv as [Hm Hr Hrs Hin Hf Hst]. constructor; try done. cbn. by apply exec_up.
    + eapply others_ok; [apply thread_guar_refl|done|done].
  - destruct (Hts i _ Hi g ltac:(reflexivity)) as [Hni Hk]. pose proof (lookup_lt_Some _ _ _ Hi).
    assert (Hrel : guar i g (held_fence i true g)) by (intros j Hj; constructor; try done; cbn; set_solver).
    exists (held_fence i true g). split_and!; [| |by eapply others_ok].
    + destruct Hinv as [Hm Hr Hrs Hin Hf Hst]. constructor; try done. cbn. rewrite size_union, size_singleton, Hf by set_solver. done.
    + intros j. rewrite length_insert. intros Hj. eapply fresh_rely; [apply Hrel; lia|by apply Hfresh].
  - destruct (Hts i _ Hi g ltac:(reflexivity)) as [Hni Hk]. pose proof (lookup_lt_Some _ _ _ Hi).
    assert (Hrel : guar i g (held_fence i false g)) by (intros j Hj; constructor; try done; cbn; set_solver).
    exists (held_fence i false g). split_and!; [| |by eapply others_ok].
    + destruct Hinv as [Hm Hr Hrs Hin Hf Hst]. constructor; try done. cbn. rewrite size_difference, size_singleton, Hf by set_solver. lia.
    + intros j. rewrite length_insert. intros Hj. eapply fresh_rely; [apply Hrel; lia|by apply Hfresh].
  - destruct (begin_ok g s id timeout o Hinv Hz Hid) as (cleared & Hinv' & Hrel). eexists. split_and!; [exact Hinv'| |by eapply all_ok].
    intros j Hj. by apply change_round_fresh, Hfresh.
  - destruct (end_ok g s id Hinv Hz) as (cleared & Hinv' & Hrel). eexists. split_and!; [exact Hinv'| |by eapply all_ok].
    intros j Hj. by apply change_round_fresh, Hfresh.
  - exists g. split_and!; [|done|done]. apply inv_tame; [done|]. apply tame_quiet; try done. apply Hinv.
  - exists g. split_and!; [|done|done]. by destruct Hinv.
Qed.

(** Only running threads hold jobs. *)
Lemma held_by_running g w i job : pool_ok g w -> g_held g !! i = Some job -> exists t, w_threads w !! i = Some t /\ forall a, t <> Finish a.
Proof.
  intros (_ & Hfresh & Hts) Hh. destruct (w_threads w !! i) as [t|] eqn:Ht.
  - exists t. split; [done|]. intros a ->. specialize (Hts i _ Ht). cbn in Hts. unfold released in Hts. congruence.
  - apply lookup_ge_None_1 in Ht. destruct (Hfresh i Ht) as (_ & Hn & _). congruence.
Qed.

Definition no_ghost : Ghost := {| g_round := None; g_rounds := []; g_installs := ∅; g_fence := ∅; g_held := ∅ |}.

Lemma initial_pool p : store_up p -> pool_ok no_ghost (initial_world p).
Proof.
  intros Hp. split_and!; [|done|done]. constructor; cbn; try done.
  constructor; cbn; try done; [by intros ? []|by intros ? ?%elem_of_nil|lia].
Qed.

Lemma reachable_pool p w : store_up p -> rtc (world_step options_ coordinatorId_) (initial_world p) w -> exists g, pool_ok g w.
Proof.
  intros Hp Hw. apply initial_pool in Hp. remember (initial_world p) as w0. clear Heqw0.
  assert (Hex : exists g, pool_ok g w0) by eauto. clear Hp. induction Hw as [|w0 w1 w2 Hstep _ IH]; [done|].
  apply IH. destruct Hex as [g Hg]. by eapply world_step_ok.
Qed.
End logic.
