(* ===== verification/RecoveryDeadline.v ===== *)
(** * Recovery ends at the hard deadline

    A reconciliation that runs when the deadline of the round has passed leaves
    the cluster READY, whatever was reported, stored or still being validated.
    [run_task] runs a handler alone; [ends] is its weakest precondition for every
    answer of the store. *)

From coqutil Require Import Datatypes.RecordSetters.
From S2P Require Import Prelude Ordered TopologyTypes HashRing BalancedRing TokenPlacement HostPort KeyHelper Hasher.
From S2P Require Import RingTheory HashAlgorithm OwnerSpec PlanningInterface HashPlans Snapshot RepositoryCodec CodecClaims MembershipTypes.
From S2P Require Import MemoryKvStore TtlManager WatchRegistry WatchDispatcher CoordinatorStore StoreProgram BackendInterface StoreBackend BackendTheory.
From S2P Require Import FailureClassifier RecoveryKeys TopologyRecoveryManager RecoveryInvariant.

(** [oracles n] answers the [n]-th step. *)
Fixpoint run_task {A} (oracles : nat -> Oracle) (n : nat) (t : task A) (m : TopologyRecoveryManager) (p : Pointers)
    : TopologyRecoveryManager * Pointers * A :=
  match t with
  | Finish a => (m, p, a)
  | Locked f k => run_task oracles (S n) (k (f (oracles n) m).2) (f (oracles n) m).1 p
  | Request c k => run_task oracles (S n) (k (exec (clock (oracles n) 0%nat) c p).2) m (exec (clock (oracles n) 0%nat) c p).1
  | Fence _ k => run_task oracles (S n) k m p
  end.

Section deadline.
Context `{RE2, SHA256, Protobuf ClusterTopologyPb, MapIteration, !MapIterationLaws}.
Context (name : string) (round : TopologyRecoveryRound).

(** Every clock reads past the deadline and the service still leads the round. *)
Definition late (o : Oracle) : Prop := (forall n, hardDeadline round <= clock o n) /\ roundCurrent o = true.

Fixpoint ends {A} (t : task A) (Q : TopologyRecoveryManager -> A -> Prop) (m : TopologyRecoveryManager) : Prop :=
  match t with
  | Finish a => Q m a
  | Locked f k => forall o, late o -> ends (k (f o m).2) Q (f o m).1
  | Request c k => forall answer, ends (k answer) Q m
  | Fence _ k => ends k Q m
  end.

Lemma ends_run {A} (t : task A) Q oracles n m p : (forall n, late (oracles n)) -> ends t Q m ->
  Q (run_task oracles n t m p).1.1 (run_task oracles n t m p).2.
Proof.
  intros Ho. revert n m p. induction t as [a|B f k IH|c k IH|b k IH]; intros n m p Ht; cbn [run_task ends] in *; [done|..]; apply IH; auto.
Qed.

Lemma ends_bind {A B} (t : task A) (f : A -> task B) Q R m : ends t Q m -> (forall m a, Q m a -> ends (f a) R m) -> ends (task_bind t f) R m.
Proof.
  intros Ht Hf. revert m Ht. induction t as [a|C s k IH|c k IH|b k IH]; intros m Ht; cbn [task_bind ends] in *; auto.
Qed.

(** The round is current and the cluster is in a state that satisfies [P]. *)
Definition at_state (P : ClusterRecoveryContext -> Prop) (m : TopologyRecoveryManager) : Prop :=
  activeRound_ m = Some round /\ exists context, contexts_ m !! name = Some context /\ P context.
Abbreviation ready := (at_state (fun context => state context = READY)).

Lemma at_current P m : at_state P m -> IsCurrentRoundLocked (identity round) m = true.
Proof. intros [Hr _]. unfold IsCurrentRoundLocked. rewrite Hr. by apply bool_decide_eq_true. Qed.

Lemma at_late P m o n : at_state P m -> late o -> IsHardDeadlineReachedLocked (clock o n) m = true.
Proof. intros [Hr _] [Ho _]. unfold IsHardDeadlineReachedLocked. rewrite Hr. by apply Z.leb_le. Qed.

Lemma at_modify (P Q : ClusterRecoveryContext -> Prop) f m : at_state P m -> (forall context, P context -> Q (f context)) -> at_state Q (modify name f m).
Proof.
  intros [Hr (context & Hc & HP)] HQ. destruct m; cbn in *. split; [done|]. exists (f context). split; [|by apply HQ]. cbn. by rewrite lookup_alter_eq, Hc.
Qed.

Lemma at_mono (P Q : ClusterRecoveryContext -> Prop) m : at_state P m -> (forall context, P context -> Q context) -> at_state Q m.
Proof. intros [Hr (context & Hc & HP)] HQ. split; [done|]. exists context. auto. Qed.

Lemma at_set_state P (Q : ClusterRecoveryContext -> Prop) st m : at_state P m -> (forall context, P context -> Q (context{{state := st}})) ->
  at_state Q (SetStateLocked name st m).
Proof. intros Hm HQ. unfold SetStateLocked. eapply at_modify; [|done]. by destruct m. Qed.

Lemma at_release P (Q : ClusterRecoveryContext -> Prop) m : at_state P m ->
  (forall context, P context -> Q (context{{selectedCanonicalTopology := None; selectedCanonicalDigest := EmptyString; selectedVersion := 0}})) ->
  at_state Q (ReleaseSelectedPayload name m).
Proof.
  intros Hm HQ. pose proof Hm as [_ (context & Hc & _)]. unfold ReleaseSelectedPayload. rewrite Hc. eapply at_modify; [|exact HQ]. by destruct m.
Qed.

Lemma at_force P m : at_state P m -> ready (ForceReadyLocked name m).
Proof.
  intros Hm. unfold ForceReadyLocked. eapply at_release; [|by intros ? E; exact E]. eapply at_modify; [|by intros ? E; exact E].
  by eapply at_set_state.
Qed.

(** Reported snapshots have passed [ValidateEvidence]. *)
Definition validated (context : ClusterRecoveryContext) : Prop :=
  forall address e, reporterEvidence context !! address = Some e -> te_hasSnapshot e = true -> 0 < te_topologyVersion e.
Definition pending (context : ClusterRecoveryContext) : Prop := (state context = RECOVERING \/ state context = BLOCKED) /\ validated context.

Abbreviation id := (identity round).

Lemma SelectHighest_positive context : validated context -> let s := SelectHighestCandidate (reporterEvidence context) in
  sl_hasSnapshot s = true -> 0 < sl_highestVersion s.
Proof.
  intros Hv. cbv zeta. unfold SelectHighestCandidate.
  assert (Hl : forall entry, entry ∈ iterate (reporterEvidence context) -> te_hasSnapshot entry.2 = true -> 0 < te_topologyVersion entry.2).
  { intros [address e]. rewrite iterate_perm. intros Hin%elem_of_map_to_list. by apply (Hv address). }
  revert Hl. induction (iterate (reporterEvidence context)) as [|y l IH] using rev_ind; intros Hl; [done|]. rewrite foldl_app. cbn [foldl].
  specialize (IH ltac:(intros entry Hin; apply Hl; set_solver)). set (s := foldl _ no_selection l) in *. unfold select_step.
  destruct (te_hasSnapshot y.2) eqn:Hs; cbn [negb]; [|done]. pose proof (Hl y ltac:(set_solver) Hs) as Hy.
  destruct (Z.ltb_spec (sl_highestVersion s) (te_topologyVersion y.2)); cbn; [lia|]. case_match; cbn; lia.
Qed.

Lemma finalize_late o m : late o -> at_state (fun context => state context <> INSTALLING /\ validated context) m ->
  match finalize_check o name id m with
  | (m', Some _) => ready m'
  | (m', None) => at_state pending m'
  end.
Proof.
  intros Ho Hm. unfold finalize_check. rewrite (at_current _ _ Hm), (at_late _ _ _ 0 Hm Ho). cbn [negb andb].
  pose proof Hm as [Hr (context & Hc & Hs & Hv)]. rewrite Hc. destruct (state context) eqn:Hst; try done; (split; [done|]); exists context; split; auto.
  - split; auto.
  - split; auto.
Qed.

Lemma adopt_late m : at_state pending m -> ends (AdoptStoredAuthorityIfPresent name id) (fun m' r =>
  match r with
  | Err _ => at_state (fun _ => True) m'
  | Ok true => at_state (fun context => state context = READY \/ state context = BLOCKED) m'
  | Ok false => at_state pending m'
  end) m.
Proof.
  intros Hm. unfold AdoptStoredAuthorityIfPresent. eapply (ends_bind _ _ (fun m' _ => at_state pending m')).
  { intros o Ho. cbn [ends]. unfold begin_authority_check. repeat case_match; cbn [fst]; first [done|by apply (at_modify pending)]. }
  clear m Hm. intros m [generation|] Hm; [|done]. destruct (KeyHelper.Create name); [|by eapply at_mono]. cbn [ends]. intros [result|code].
  2: { intros o Ho. cbn [ends locked_ locked fst snd task_bind]. unfold RestoreStoredAuthorityCheck. repeat case_match; first [by eapply at_modify|by eapply at_mono]. }
  destruct (rr_kvs result) as [|entry [|]]; [done| |by eapply at_mono]. intros o Ho. cbn [ends locked fst snd task_bind]. unfold ApplyStoredAuthorityLocked.
  rewrite (at_current _ _ Hm), (at_late _ _ _ 0 Hm Ho). cbn [negb andb orb]. pose proof Hm as [_ (context & Hc & _)]. rewrite Hc.
  repeat case_match; cbn [fst snd]; try done.
  - eapply (at_set_state (fun _ => True)); [eapply at_modify; [by eapply (at_release pending (fun _ => True))|]|]; cbn; auto.
  - eapply (at_set_state (fun _ => True)); [eapply at_modify; [by eapply (at_release pending (fun _ => True))|]|]; cbn; auto.
Qed.

Definition installing_version (version : Z) (context : ClusterRecoveryContext) : Prop := state context = INSTALLING /\ selectedVersion context = version.

Lemma prepare_late now m : at_state (fun context => state context = RECOVERING /\ validated context) m ->
  match PrepareInstallationLocked now name id true m with
  | (m', Ok None) => ready m'
  | (m', Ok (Some (version, payload))) => at_state (installing_version version) m' /\ version <> 0
  | (_, Err _) => False
  end.
Proof.
  intros Hm. unfold PrepareInstallationLocked. rewrite (at_current _ _ Hm). cbn [negb andb orb].
  pose proof Hm as [_ (context & Hc & Hs & Hv)]. rewrite Hc, Hs. change (bool_decide (RECOVERING = RECOVERING)) with true. cbn [negb andb].
  destruct (payloadValidationPending context); [by eapply at_force|]. unfold ResolveCandidateSelectionLocked.
  pose proof (SelectHighest_positive context Hv) as Hpos. cbv zeta in *. set (selected := SelectHighestCandidate _) in *.
  destruct (sl_hasSnapshot selected); [|by eapply at_force]. destruct (sl_conflictingHighest selected); [by eapply at_force|].
  destruct (selectedCanonicalTopology context) as [payload|] eqn:Hp; [|by eapply at_force].
  destruct (_ && _) eqn:E; [|by eapply at_force]. apply andb_true_iff in E as [E _]. apply Z.eqb_eq in E. split; [|specialize (Hpos eq_refl); lia].
  eapply (at_set_state (fun c => c = context)); [|by intros ? ->]. destruct Hm as [Hr _]. split; [done|]. by exists context.
Qed.

Lemma select_late o m : late o -> at_state pending m ->
  match select_installation o name id m with
  | (m', Ok None) => ready m'
  | (m', Ok (Some (version, payload))) => at_state (installing_version version) m'
  | (_, Err _) => False
  end.
Proof.
  intros Ho Hm. unfold select_installation. rewrite (at_current _ _ Hm), (at_late _ _ _ 0 Hm Ho). cbn [negb andb].
  pose proof Hm as [Hr (context & Hc & Hs & Hv)]. rewrite Hc. destruct Hs as [Hs|Hs]; rewrite Hs.
  2: { change (bool_decide (BLOCKED = BLOCKED)) with true. by eapply at_force. }
  change (bool_decide (RECOVERING = BLOCKED)) with false. cbn [andb].
  pose proof (prepare_late (clock o 1%nat) m) as Hprep. destruct (PrepareInstallationLocked _ _ _ _ _) as [m' [[[version payload]|]|code]].
  - destruct Hprep as [Hm' Hnz]; [split; [done|]; by exists context|]. cbn [to_install]. by rewrite (proj2 (Z.eqb_neq _ _) Hnz).
  - cbn [to_install]. assert (Hm' : ready m') by (apply Hprep; split; [done|]; by exists context). pose proof Hm' as [_ (context' & Hc' & Hs')].
    unfold delay_if_unresolved. by rewrite Hc', Hs'.
  - apply Hprep. split; [done|]. by exists context.
Qed.

Lemma install_late fenced payload P m : at_state P m ->
  ends (install_if_current fenced name id payload) (fun m' status => at_state P m' /\ is_Some status) m.
Proof.
  intros Hm. unfold install_if_current.
  assert (Hinstall : ends (task_bind (locked (fun _ m => (m, IsCurrentRoundLocked id m)))
    (fun current : bool => if current then task_bind (InstallSelected name payload) (fun status => Finish (Some status)) else Finish None))
    (fun m' status => at_state P m' /\ is_Some status) m).
  { intros o Ho. cbn [ends locked task_bind fst snd]. rewrite (at_current _ _ Hm). unfold InstallSelected. destruct (KeyHelper.Create name); cbn; eauto. }
  destruct fenced; [|done]. intros o [Ho Hcur]. cbn [ends locked task_bind fst snd]. rewrite Hcur. eapply ends_bind; [exact Hinstall|]. done.
Qed.

Lemma complete_late o version status m : late o -> at_state (installing_version version) m -> ready (complete_installation o name id version status m).
Proof.
  intros Ho Hm. unfold complete_installation.
  assert (Hm' : ready (CompleteInstallationLocked (clock o 0%nat) name id version status m)).
  { unfold CompleteInstallationLocked. rewrite (at_current _ _ Hm), (at_late _ _ _ 0 Hm Ho). pose proof Hm as [_ (context & Hc & Hs & Hv)].
    rewrite Hc, Hs, Hv, Z.eqb_refl. change (bool_decide (INSTALLING = INSTALLING)) with true. cbn [negb orb].
    destruct status; [|by eapply at_force]. eapply at_release; [|by intros ? E; exact E]. eapply at_modify; [|by intros ? E; exact E]. by eapply at_set_state. }
  pose proof Hm' as [_ (context' & Hc' & Hs')]. unfold delay_if_unresolved. by rewrite Hc', Hs'.
Qed.

Lemma after_error_late o m : late o -> at_state (fun _ => True) m -> ready (after_authority_error o name id m).1.
Proof.
  intros Ho Hm. unfold after_authority_error. rewrite (at_current _ _ Hm), (at_late _ _ _ 0 Hm Ho). pose proof Hm as [_ (context & Hc & _)].
  rewrite Hc. by eapply at_force.
Qed.

Lemma after_resolution_late o m : late o -> at_state (fun context => state context = READY \/ state context = BLOCKED) m ->
  ready (after_resolution o name id m).
Proof.
  intros Ho Hm. unfold after_resolution. rewrite (at_current _ _ Hm), (at_late _ _ _ 0 Hm Ho). pose proof Hm as [Hr (context & Hc & [Hs|Hs])]; rewrite Hc, Hs.
  - split; [done|]. by exists context.
  - by eapply at_force.
Qed.

Lemma maybe_finalize_late fenced m : at_state (fun context => state context <> INSTALLING /\ validated context) m ->
  ends (MaybeFinalize fenced name id) (fun m' _ => ready m') m.
Proof.
  intros Hm. unfold MaybeFinalize. intros o Ho. cbn [ends locked task_bind]. pose proof (finalize_late o m Ho Hm) as Hf.
  destruct (finalize_check o name id m) as [m1 [status|]]; cbn [fst snd]; [done|]. eapply ends_bind; [by apply adopt_late|].
  intros m2 [[|]|code] H2'; intros o2 Ho2; cbn [ends locked locked_ task_bind fst snd].
  - by apply after_resolution_late.
  - pose proof (select_late o2 m2 Ho2 H2') as Hs. destruct (select_installation o2 name id m2) as [m3 [[[version payload]|]|code]]; cbn [fst snd]; [|done|done].
    eapply ends_bind; [by apply install_late|]. intros m4 status [H4' [s ->]] o4 Ho4. cbn [ends fst snd]. by apply complete_late.
  - by apply after_error_late.
Qed.

Lemma reconcile_late fenced m : at_state (fun context => state context <> INSTALLING /\ validated context) m ->
  ends (RunReconcile fenced name id) (fun m' _ => ready m') m.
Proof.
  intros Hm. unfold RunReconcile. eapply ends_bind; [by apply maybe_finalize_late|]. intros m1 r Hr1 o Ho. change (ready m1) in Hr1. cbn [ends locked_ locked fst snd].
  unfold finish_reconcile. rewrite (at_current _ _ Hr1).
  assert (Hm' : ready (modify name (fun context => context{{reconcileQueued := false}}) m1)) by (eapply at_modify; [done|by intros ? E; exact E]).
  pose proof Hm' as [_ (context' & Hc' & Hs')]. unfold delay_if_unresolved. rewrite Hc', Hs'. cbn [unresolved]. change (unresolved READY) with false. cbv iota.
  unfold CompleteRecoveryWorkLocked. case_match; [done|]. by destruct m1.
Qed.
End deadline.
