(* ===== verification/RecoveryClaims.v ===== *)
(** * Properties of the recovery manager *)

From coqutil Require Import Datatypes.RecordSetters.
From S2P Require Import Prelude Ordered TopologyTypes HashRing BalancedRing TokenPlacement HostPort KeyHelper Hasher.
From S2P Require Import RingTheory HashAlgorithm OwnerSpec PlanningInterface HashPlans Snapshot RepositoryCodec CodecClaims MembershipTypes.
From S2P Require Import MemoryKvStore TtlManager WatchRegistry WatchDispatcher CoordinatorStore StoreProgram BackendInterface StoreBackend HistoryFrame BackendTheory.
From S2P Require Import FailureClassifier RecoveryKeys TopologyRecoveryManager RecoveryInvariant RecoveryHandlers RecoverySafety RecoveryDeadline.
From S2P Require Import RepositoryClaims.

Section claims.
Context `{RE2, SHA256, Protobuf ClusterTopologyPb, MapIteration, !MapIterationLaws}.
Context (options_ : TopologyRecoveryOptions) (coordinatorId_ : string).

(** The worlds that calls, jobs, leaders and the store's other clients lead to. *)
Definition reachable (p : Pointers) : World -> Prop := rtc (world_step options_ coordinatorId_) (initial_world p).

(** The limit on retained bytes is an unsigned 64-bit number. *)
Definition limit_ok : Prop := 0 <= maxCandidateMemoryBytes options_ < 2 ^ 64.

(** C3: whatever the interleaving of reports, membership changes, validations,
    reconciliations, leader rounds and other clients of the store, when a thread
    of the recovery manager changes the store it creates the topology of one
    cluster where none was stored, while that cluster is INSTALLING in an active
    round; the bytes are the canonical encoding of a topology whose version is the
    highest of all reported evidence, and no reporter of that version reported
    another digest. *)
Theorem recovery_installs_newest p w i c k now key : limit_ok -> store_up p -> reachable p w ->
  w_threads w !! i = Some (Request c k) ->
  let before := sh_store (w_shared w) in let after := (exec now c before).1 in
  stored after key <> stored before key ->
  exists name context topology digest entry,
    key = topology_physical_key name /\ stored before key = None /\ stored after key = Some entry /\
    contexts_ (sh_manager (w_shared w)) !! name = Some context /\ state context = INSTALLING /\
    has_value (activeRound_ (sh_manager (w_shared w))) = true /\
    DecodeTopology (ve_value entry) = Ok topology /\ EncodeTopology topology = Ok (ve_value entry) /\
    GetSha256Hex (ve_value entry) = Ok digest /\
    newest_evidence (reporterEvidence context) (ts_version topology) digest.
Proof.
  intros Hmax Hp Hw Hi before after Hne. subst before after. destruct (reachable_pool options_ coordinatorId_ Hmax p w Hp Hw) as (g & Hinv & _ & Hts).
  destruct (Hts i _ Hi g now (w_shared w) ltac:(reflexivity) Hinv) as [Hreq _].
  destruct c as [ckey value ttl ev em eg|ckey rangeEnd|ckey rangeEnd]; cbn [may_request] in Hreq; [|done|done].
  destruct Hreq as (name & context & digest & -> & -> & Hc & Hst & Hr & (topology & Hd & He & Hv & Hs) & Hnew).
  pose proof (exec_put now (topology_physical_key name) value ttl COORDINATOR_KEY_NOT_EXISTS_VERSION em eg (sh_store (w_shared w))
    (proj1 (iv_store _ _ _ Hinv)) ltac:(done)) as Hx. cbv zeta in Hx.
  destruct (exec now _ _).2 as [a|code]; [|by rewrite Hx in Hne]. destruct Hx as (_ & Hbefore & (entry & He' & Hval & _) & Hother).
  destruct (decide (key = topology_physical_key name)) as [->|Hk]; [|by rewrite Hother in Hne].
  destruct (stored (sh_store (w_shared w)) (topology_physical_key name)) as [e|]; [by destruct Hbefore|].
  exists name, context, topology, digest, entry. subst value. rewrite Hv. done.
Qed.

(** C4: in every reachable world the states shown to the RPC handlers are those of
    the contexts, evidence comes from observed members only, and the counters are
    exact: the bytes counted as retained are those of the payloads kept, and the
    work and the bytes counted as admitted are those of the queued jobs and of one
    job for some of the running threads, so they are those of the queue alone when
    all threads have finished.  The bytes of queued, running and retained payloads
    together stay within the limit, and no counter ever wraps around. *)
Theorem recovery_bookkeeping p w : limit_ok -> store_up p -> reachable p w ->
  let m := sh_manager (w_shared w) in
  rpcAdmissionStates_ m = state <$> contexts_ m /\
  (forall name context, contexts_ m !! name = Some context -> dom (reporterEvidence context) ⊆ observedMembers context) /\
  retainedCandidateBytes_ m = total payload_size (contexts_ m) /\
  (exists held : gmap nat Job,
    (forall i job, held !! i = Some job -> exists t, w_threads w !! i = Some t /\ forall a, t <> Finish a) /\
    admittedReportBytes_ m = jobs_bytes (recoveryPool_ m) + total job_bytes held /\
    pendingRecoveryWork_ m = Z.of_nat (length (recoveryPool_ m) + base.size held)) /\
  ((forall i t, w_threads w !! i = Some t -> t = Finish tt) ->
    admittedReportBytes_ m = jobs_bytes (recoveryPool_ m) /\ pendingRecoveryWork_ m = Z.of_nat (length (recoveryPool_ m))) /\
  0 <= retainedCandidateBytes_ m /\ 0 <= admittedReportBytes_ m /\
  retainedCandidateBytes_ m + admittedReportBytes_ m <= maxCandidateMemoryBytes options_.
Proof.
  intros Hmax Hp Hw m. destruct (reachable_pool options_ coordinatorId_ Hmax p w Hp Hw) as (g & Hinv & Hfresh & Hts).
  destruct (iv_manager _ _ _ Hinv) as [Hs Hn Hc Hrd Hj Hpe Had Hre Hlim]. fold m in Hs, Hn, Hc, Hpe, Had, Hre, Hlim.
  pose proof (jobs_bytes_nonneg (recoveryPool_ m)). pose proof (total_nonneg job_bytes (g_held g) job_bytes_nonneg).
  pose proof (total_nonneg payload_size (contexts_ m) payload_size_nonneg). pose proof (fun i job => held_by_running options_ g w i job (conj Hinv (conj Hfresh Hts))) as Hheld.
  split_and!; [done| |done| | |lia|lia|lia].
  - intros name context Hl. by apply Hc in Hl as [].
  - by exists (g_held g).
  - intros Hfin. assert (Hempty : g_held g = ∅).
    { apply map_empty. intros i. destruct (g_held g !! i) as [job|] eqn:E; [|done]. destruct (Hheld _ _ E) as (t & Ht & Hrun).
      by destruct (Hrun tt); apply (Hfin i). }
    rewrite Had, Hpe, Hempty, total_empty, map_size_empty. split; lia.
Qed.

(** C5: recovery ends.  A reconciliation that runs alone after the hard deadline of
    the round leaves the cluster READY, whatever the workers reported, whether or
    not they contradict each other, and whatever the store answers; only a cluster
    for which another run installs is left to that run. *)
Theorem recovery_ends_at_deadline fenced oracles m p name round context :
  activeRound_ m = Some round -> contexts_ m !! name = Some context -> state context <> INSTALLING -> validated context ->
  (forall n, late round (oracles n)) ->
  GetState name (run_task oracles 0 (RunReconcile fenced name (identity round)) m p).1.1 = READY.
Proof.
  intros Hr Hc Hs Hv Ho. destruct (ends_run round (RunReconcile fenced name (identity round)) (fun m' _ => at_state name round (fun c => state c = READY) m')
    oracles 0 m p Ho) as [_ (context' & Hc' & Hs')].
  - apply reconcile_late. split; [done|]. by exists context.
  - unfold GetState. by rewrite Hc'.
Qed.
End claims.

(** ** Witnesses: one worker brings its topology back *)

(** A schedule: calls, jobs by their place in the queue, steps of threads by their index. *)
Inductive WorldEvent :=
  | Call (op : Operation)
  | TakeJob (n : nat)
  | Advance (i : nat)
  | Begin (id : TopologyRecoveryRoundIdentity) (timeout : Z).

Section schedules.
Context `{RE2, SHA256, Protobuf ClusterTopologyPb, MapIteration}.
Context (options_ : TopologyRecoveryOptions) (coordinatorId_ : string) (o : Oracle).

Definition do_world_event (w : World) (e : WorldEvent) : World :=
  let s := w_shared w in let ts := w_threads w in
  match e with
  | Call op => {| w_shared := s; w_threads := ts ++ [operation options_ op] |}
  | TakeJob n =>
      match recoveryPool_ (sh_manager s) !! n with
      | Some job => {| w_shared := with_manager s ((sh_manager s){{recoveryPool_ := take n (recoveryPool_ (sh_manager s)) ++ drop (S n) (recoveryPool_ (sh_manager s))}});
                       w_threads := ts ++ [run_job options_ true job] |}
      | None => w
      end
  | Advance i =>
      match ts !! i with
      | Some (Locked f k) => {| w_shared := with_manager s (f o (sh_manager s)).1; w_threads := <[i := k (f o (sh_manager s)).2]> ts |}
      | Some (Request c k) => {| w_shared := with_store s (exec 0 c (sh_store s)).1; w_threads := <[i := k (exec 0 c (sh_store s)).2]> ts |}
      | Some (Fence true k) => {| w_shared := with_fence s (S (sh_fence s)); w_threads := <[i := k]> ts |}
      | Some (Fence false k) => {| w_shared := with_fence s (pred (sh_fence s)); w_threads := <[i := k]> ts |}
      | _ => w
      end
  | Begin id timeout =>
      if bool_decide (sh_fence s = 0%nat /\ id ∉ sh_rounds s)
      then {| w_shared := begin_round s id (BeginLeaderRound coordinatorId_ id timeout o (sh_manager s)); w_threads := ts |} else w
  end.

Lemma events_reach w0 events w : rtc (world_step options_ coordinatorId_) w0 w ->
  rtc (world_step options_ coordinatorId_) w0 (foldl do_world_event w events).
Proof.
  revert w. induction events as [|e events IH]; intros w Hw; [done|]. cbn [foldl]. apply IH. etrans; [exact Hw|]. clear IH Hw.
  destruct w as [s ts], e as [op|n|i|id timeout]; unfold do_world_event; cbn [w_shared w_threads].
  - apply rtc_once. constructor.
  - destruct (_ !! n) as [job|] eqn:E; [|done]. apply rtc_once, step_job. symmetry. by apply take_drop_middle.
  - destruct (ts !! i) as [[a|B f k|c k|[] k]|] eqn:E; try done; apply rtc_once; by econstructor.
  - case_bool_decide as Hc; [|done]. destruct Hc. by apply rtc_once, step_begin.
Qed.
End schedules.

Definition request_of {A} (t : task A) : option StoreCall := match t with Request c _ => Some c | _ => None end.

Import HashPlans.Demo ReferenceEngine ReferenceWire ReferenceDigest.

Definition demo_recovery : TopologyRecoveryOptions :=
  {| discoveryWindow := 10; maxPendingRecoveryWork := 8; maxClusters := 4; maxMembersPerCluster := 8; maxCandidateMemoryBytes := 2 ^ 20 |}.
Definition demo_oracle (now : Z) : Oracle := {| clock := fun _ => now; accepts := true; validation := Ok tt; roundCurrent := true |}.
Definition demo_round : TopologyRecoveryRoundIdentity := {| leaderTerm := 1; coordinatorId := "coordinator" |}.

Definition demo_payload : string := match EncodeTopology (first_topology 2) with Ok bytes => bytes | Err _ => EmptyString end.
Definition demo_digest : string := match GetSha256Hex demo_payload with Ok digest => digest | Err _ => EmptyString end.
Definition demo_report (payload : string) : TopologyRecoveryCandidateReport :=
  {| rp_reporterAddress := "10.0.0.1:31501"; rp_hasSnapshot := true; rp_topologyVersion := 1; rp_canonicalDigest := demo_digest; rp_canonicalTopology := payload |}.

(** The worker is observed, reports its version and digest, is asked for the
    topology and sends it; the job of the first observation reconciles. *)
Definition recovery_schedule : list WorldEvent :=
  [Begin demo_round 1000; Call (OpObserve (BuildPhysicalKey (membershipTable_ demo_keys) "10.0.0.1:31501") (Some LC_READY)); Advance 0; Advance 0;
   Call (OpReport "demo" 1 "coordinator" (demo_report "")); Advance 1; Advance 1; Advance 1; Advance 1;
   Call (OpReport "demo" 1 "coordinator" (demo_report demo_payload)); Advance 2; Advance 2; Advance 2;
   TakeJob 1; Advance 3; Advance 3;
   TakeJob 0; Advance 4; Advance 4; Advance 4; Advance 4; Advance 4; Advance 4; Advance 4].
Definition recovered : World := foldl (do_world_event demo_recovery "coordinator" (demo_oracle 0)) (initial_world empty_store) recovery_schedule.

Lemma recovered_reachable : reachable demo_recovery "coordinator" empty_store recovered.
Proof. apply events_reach. reflexivity. Qed.

Lemma empty_store_up : store_up empty_store.
Proof. split; [vm_compute; repeat constructor|by eexists]. Qed.

Lemma demo_limit : limit_ok demo_recovery.
Proof. unfold limit_ok, demo_recovery. cbn. lia. Qed.

Definition demo_put : StoreCall :=
  CallPut (topology_physical_key "demo") demo_payload 0 COORDINATOR_KEY_NOT_EXISTS_VERSION COORDINATOR_NO_MOD_REVISION_CHECK 0.

Lemma requests (ts : list (task unit)) i c : (ts !! i) ≫= request_of = Some c -> exists k, ts !! i = Some (Request c k).
Proof. destruct (ts !! i) as [[| |c' k|]|]; try done. intros [= ->]. by exists k. Qed.

Lemma recovered_puts : exists k, w_threads recovered !! 4%nat = Some (Request demo_put k).
Proof. apply requests. vm_compute. reflexivity. Qed.

Lemma recovery_installs_newest_witness :
  let after := (exec 0 demo_put (sh_store (w_shared recovered))).1 in
  exists name context topology digest entry,
    topology_physical_key "demo" = topology_physical_key name /\ stored after (topology_physical_key "demo") = Some entry /\
    contexts_ (sh_manager (w_shared recovered)) !! name = Some context /\ state context = INSTALLING /\
    DecodeTopology (ve_value entry) = Ok topology /\ newest_evidence (reporterEvidence context) (ts_version topology) digest.
Proof.
  destruct recovered_puts as [k Hk].
  destruct (recovery_installs_newest demo_recovery "coordinator" empty_store recovered 4 demo_put k 0 (topology_physical_key "demo")
    demo_limit empty_store_up recovered_reachable Hk ltac:(vm_compute; discriminate))
    as (name & context & topology & digest & entry & Hn & _ & He & Hc & Hs & _ & Hd & _ & _ & Hnew).
  exists name, context, topology, digest, entry. split_and!; assumption.
Defined.

Lemma recovery_bookkeeping_witness :
  0 < retainedCandidateBytes_ (sh_manager (w_shared recovered)) /\
  retainedCandidateBytes_ (sh_manager (w_shared recovered)) + admittedReportBytes_ (sh_manager (w_shared recovered)) <= 2 ^ 20.
Proof.
  split; [vm_compute; reflexivity|].
  destruct (recovery_bookkeeping demo_recovery "coordinator" empty_store recovered demo_limit empty_store_up recovered_reachable)
    as (_ & _ & _ & _ & _ & _ & _ & Hl). exact Hl.
Defined.

(** Before the payload arrives the deadline passes. *)
Definition waiting : World :=
  foldl (do_world_event demo_recovery "coordinator" (demo_oracle 0)) (initial_world empty_store) (take 9 recovery_schedule).
Definition waiting_round : TopologyRecoveryRound := {| identity := demo_round; hardDeadline := 1000 * NS_PER_MS |}.

Lemma recovery_ends_at_deadline_witness :
  GetState "demo" (sh_manager (w_shared waiting)) = RECOVERING /\
  GetState "demo" (run_task (fun _ => demo_oracle (2000 * NS_PER_MS)) 0 (RunReconcile true "demo" demo_round)
    (sh_manager (w_shared waiting)) empty_store).1.1 = READY.
Proof.
  split; [vm_compute; reflexivity|].
  destruct (contexts_ (sh_manager (w_shared waiting)) !! "demo") as [context|] eqn:E; [|vm_compute in E; discriminate].
  apply (recovery_ends_at_deadline true (fun _ => demo_oracle (2000 * NS_PER_MS)) (sh_manager (w_shared waiting)) empty_store "demo" waiting_round context).
  - vm_compute. reflexivity.
  - exact E.
  - vm_compute in E. injection E as <-. discriminate.
  - apply (bool_decide_unpack (map_Forall (fun _ e => te_hasSnapshot e = true -> 0 < te_topologyVersion e) (reporterEvidence context))).
    vm_compute in E. injection E as <-. vm_compute. exact I.
  - intros n. split; [intros k; vm_compute; discriminate|reflexivity].
Defined.
