(* ===== verification/EventDispatcher.v ===== *)
(** * The queue of runtime events

    cluster/runtime/coordination_event_dispatcher.cpp.  Watch callbacks, callback
    completions and liveness reports reach the thread of a role through a bounded
    queue.  A watch event is a doorbell: one already queued for the same key is
    replaced in place, found through an index of list iterators.  Each method holds
    [mutex_] from its first to its last access and is one transition.

    A [std::list] node keeps its identity while it is queued, so the queue lists
    nodes with their number and the index holds numbers; following an iterator whose
    node is gone is [None], undefined behaviour.  [Completion] stands for the
    completion record of the task executor. *)

From S2P Require Import Prelude Ordered ControllerTypes.

Section dispatcher.
Context {Completion : Type}.

Inductive RuntimeEventPayload :=
  | Coordination (event : CoordinationEvent)
  | CallbackCompletion (completion : Completion)
  | Liveness (report : WorkerLivenessReport).

Record CoordinationEventDispatcherStats := {
  st_queueDepth : nat; st_submitted : Z; st_coalesced : Z; st_overflow : Z; st_ignoredAfterStop : Z; st_resyncRequired : bool
}.

Record CoordinationEventDispatcher := {
  capacity_ : nat;
  queue_ : list (nat * RuntimeEventPayload);
  coordinationByKey_ : gmap string nat;
  nextNode : nat;
  started_ : bool;
  accepting_ : bool;
  resyncRequired_ : bool;
  stats_ : CoordinationEventDispatcherStats
}.

Definition no_stats : CoordinationEventDispatcherStats :=
  {| st_queueDepth := 0; st_submitted := 0; st_coalesced := 0; st_overflow := 0; st_ignoredAfterStop := 0; st_resyncRequired := false |}.

Definition new_CoordinationEventDispatcher (capacity : nat) : CoordinationEventDispatcher :=
  {| capacity_ := capacity; queue_ := []; coordinationByKey_ := ∅; nextNode := 0; started_ := false; accepting_ := false;
     resyncRequired_ := false; stats_ := no_stats |}.

Definition set_depth (depth : nat) (s : CoordinationEventDispatcherStats) : CoordinationEventDispatcherStats :=
  {| st_queueDepth := depth; st_submitted := st_submitted s; st_coalesced := st_coalesced s; st_overflow := st_overflow s;
     st_ignoredAfterStop := st_ignoredAfterStop s; st_resyncRequired := st_resyncRequired s |}.

Definition Start (d : CoordinationEventDispatcher) : CoordinationEventDispatcher * res unit :=
  if negb ((0 <? capacity_ d)%nat && negb (accepting_ d)) then (d, Err K_INVALID)
  else
    ({| capacity_ := capacity_ d; queue_ := []; coordinationByKey_ := ∅; nextNode := nextNode d; started_ := true; accepting_ := true;
        resyncRequired_ := false;
        stats_ := set_depth 0 (stats_ d) |}, Ok tt).

Definition ShutdownIngress (d : CoordinationEventDispatcher) : CoordinationEventDispatcher :=
  {| capacity_ := capacity_ d; queue_ := queue_ d; coordinationByKey_ := coordinationByKey_ d; nextNode := nextNode d;
     started_ := started_ d; accepting_ := false; resyncRequired_ := resyncRequired_ d; stats_ := stats_ d |}.

(** Counters of the statistics after a submission. *)
Definition count (submitted coalesced overflow ignored : Z) (s : CoordinationEventDispatcherStats) : CoordinationEventDispatcherStats :=
  {| st_queueDepth := st_queueDepth s; st_submitted := u64 (st_submitted s + submitted); st_coalesced := u64 (st_coalesced s + coalesced);
     st_overflow := u64 (st_overflow s + overflow); st_ignoredAfterStop := u64 (st_ignoredAfterStop s + ignored);
     st_resyncRequired := st_resyncRequired s |}.

Definition node_at (queue : list (nat * RuntimeEventPayload)) (node : nat) : option RuntimeEventPayload :=
  snd <$> List.find (fun entry => (entry.1 =? node)%nat) queue.

Definition replace_node (node : nat) (payload : RuntimeEventPayload) (queue : list (nat * RuntimeEventPayload))
    : list (nat * RuntimeEventPayload) :=
  (fun entry => if (entry.1 =? node)%nat then (node, payload) else entry) <$> queue.

Definition key_of (payload : RuntimeEventPayload) : option string :=
  match payload with Coordination event => Some (ce_key event) | _ => None end.

Definition enqueue (payload : RuntimeEventPayload) (allowCoalesce : bool) (d : CoordinationEventDispatcher)
    : CoordinationEventDispatcher * res unit :=
  let queue := queue_ d ++ [(nextNode d, payload)] in
  if (capacity_ d <=? length (queue_ d))%nat then
    ({| capacity_ := capacity_ d; queue_ := queue_ d; coordinationByKey_ := coordinationByKey_ d; nextNode := nextNode d;
        started_ := started_ d; accepting_ := accepting_ d; resyncRequired_ := resyncRequired_ d || allowCoalesce;
        stats_ := count 0 0 1 0 (stats_ d) |}, Err K_TRY_AGAIN)
  else
    ({| capacity_ := capacity_ d; queue_ := queue;
        coordinationByKey_ := match key_of payload with
                              | Some key => if allowCoalesce then <[key := nextNode d]> (coordinationByKey_ d) else coordinationByKey_ d
                              | None => coordinationByKey_ d
                              end;
        nextNode := S (nextNode d); started_ := started_ d; accepting_ := accepting_ d; resyncRequired_ := resyncRequired_ d;
        stats_ := set_depth (length queue) (count 1 0 0 0 (stats_ d)) |}, Ok tt).

(** [std::get] of a payload that is not a coordination event throws; the callers that
    allow coalescing pass one. *)
Definition Submit (payload : RuntimeEventPayload) (allowCoalesce : bool) (d : CoordinationEventDispatcher)
    : option (CoordinationEventDispatcher * res unit) :=
  if negb (accepting_ d) then
    Some ({| capacity_ := capacity_ d; queue_ := queue_ d; coordinationByKey_ := coordinationByKey_ d; nextNode := nextNode d;
             started_ := started_ d; accepting_ := accepting_ d; resyncRequired_ := resyncRequired_ d;
             stats_ := count 0 0 0 1 (stats_ d) |}, Err K_NOT_READY)
  else if allowCoalesce then
    match key_of payload with
    | None => None
    | Some key =>
        match coordinationByKey_ d !! key with
        | Some pending =>
            doorbell ← node_at (queue_ d) pending;
            match doorbell with
            | Coordination _ =>
                Some ({| capacity_ := capacity_ d; queue_ := replace_node pending payload (queue_ d);
                         coordinationByKey_ := coordinationByKey_ d; nextNode := nextNode d; started_ := started_ d;
                         accepting_ := accepting_ d; resyncRequired_ := resyncRequired_ d;
                         stats_ := count 1 1 0 0 (stats_ d) |}, Ok tt)
            | _ => Some (d, Err K_RUNTIME_ERROR)
            end
        | None => Some (enqueue payload allowCoalesce d)
        end
    end
  else Some (enqueue payload allowCoalesce d).

Definition SubmitCoordination (event : CoordinationEvent) := Submit (Coordination event) true.
Definition SubmitCoordinationUncoalesced (event : CoordinationEvent) := Submit (Coordination event) false.
Definition SubmitCompletion (completion : Completion) := Submit (CallbackCompletion completion) false.
Definition SubmitWorkerLiveness (report : WorkerLivenessReport) := Submit (Liveness report) false.

(** The end of the wait: with an empty queue it ends at the deadline or when ingress stops. *)
Definition WaitPop (d : CoordinationEventDispatcher) : CoordinationEventDispatcher * res RuntimeEventPayload :=
  match queue_ d with
  | [] => (d, Err (if accepting_ d then K_RPC_DEADLINE_EXCEEDED else K_NOT_READY))
  | (_, event) :: queue =>
      ({| capacity_ := capacity_ d; queue_ := queue;
          coordinationByKey_ := match key_of event with Some key => delete key (coordinationByKey_ d) | None => coordinationByKey_ d end;
          nextNode := nextNode d; started_ := started_ d; accepting_ := accepting_ d; resyncRequired_ := resyncRequired_ d;
          stats_ := set_depth (length queue) (stats_ d) |}, Ok event)
  end.

Definition ConsumeResyncRequired (d : CoordinationEventDispatcher) : CoordinationEventDispatcher * bool :=
  ({| capacity_ := capacity_ d; queue_ := queue_ d; coordinationByKey_ := coordinationByKey_ d; nextNode := nextNode d;
      started_ := started_ d; accepting_ := accepting_ d; resyncRequired_ := false; stats_ := stats_ d |}, resyncRequired_ d).

Definition GetStats (d : CoordinationEventDispatcher) : CoordinationEventDispatcherStats :=
  {| st_queueDepth := st_queueDepth (stats_ d); st_submitted := st_submitted (stats_ d); st_coalesced := st_coalesced (stats_ d);
     st_overflow := st_overflow (stats_ d); st_ignoredAfterStop := st_ignoredAfterStop (stats_ d); st_resyncRequired := resyncRequired_ d |}.

(** ** Runs *)

Inductive Request :=
  | RqStart | RqStop | RqSubmit (payload : RuntimeEventPayload) (allowCoalesce : bool) | RqPop | RqConsumeResync.

(** What a run shows: accepted submissions, refused doorbells, delivered events,
    restarts and consumed resynchronizations. *)
Inductive Trace :=
  | Accepted (payload : RuntimeEventPayload) (allowCoalesce : bool) | RefusedDoorbell | Delivered (payload : RuntimeEventPayload)
  | Restarted | Resynchronized.

Definition is_doorbell (payload : RuntimeEventPayload) : bool := match payload with Coordination _ => true | _ => false end.

(** Only doorbells are submitted for coalescing. *)
Definition step (d : CoordinationEventDispatcher) (rq : Request) : option (CoordinationEventDispatcher * list Trace) :=
  match rq with
  | RqStart => let '(d', r) := Start d in Some (d', match r with Ok _ => [Restarted] | Err _ => [] end)
  | RqStop => Some (ShutdownIngress d, [])
  | RqSubmit payload allow =>
      '(d', r) ← Submit payload (allow && is_doorbell payload) d;
      Some (d', match r with
                | Ok _ => [Accepted payload (allow && is_doorbell payload)]
                | Err K_TRY_AGAIN => if allow && is_doorbell payload then [RefusedDoorbell] else []
                | Err _ => []
                end)
  | RqPop => let '(d', r) := WaitPop d in Some (d', match r with Ok payload => [Delivered payload] | Err _ => [] end)
  | RqConsumeResync => let '(d', b) := ConsumeResyncRequired d in Some (d', if b then [Resynchronized] else [])
  end.

Inductive runs : CoordinationEventDispatcher -> list Trace -> CoordinationEventDispatcher -> Prop :=
  | runs_nil d : runs d [] d
  | runs_snoc d tr d' rq d'' new : runs d tr d' -> step d' rq = Some (d'', new) -> runs d (tr ++ new) d''.

(** Queued nodes are distinct and older than the next one, and an index entry names a
    queued doorbell of its key. *)
Record dispatcher_ok (d : CoordinationEventDispatcher) : Prop := {
  do_nodes : NoDup (queue_ d).*1;
  do_next node : node ∈ (queue_ d).*1 -> (node < nextNode d)%nat;
  do_index key node : coordinationByKey_ d !! key = Some node -> exists event, (node, Coordination event) ∈ queue_ d /\ ce_key event = key;
  do_bound : (length (queue_ d) <= capacity_ d)%nat;
  do_depth : st_queueDepth (stats_ d) = length (queue_ d)
}.

Lemma node_at_elem queue node payload : NoDup queue.*1 -> (node, payload) ∈ queue -> node_at queue node = Some payload.
Proof.
  intros Hnd Hin. unfold node_at. induction queue as [|[n p] queue IH]; [by apply elem_of_nil in Hin|].
  cbn [fmap list_fmap fst List.find] in *. apply NoDup_cons in Hnd as [Hn Hnd]. apply elem_of_cons in Hin as [[= -> ->]|Hin].
  - by rewrite Nat.eqb_refl.
  - destruct (Nat.eqb_spec n node) as [->|_]; [|by apply IH]. exfalso. apply Hn. by apply (list_elem_of_fmap_2 fst _ _ Hin).
Qed.

Lemma replace_nodes node payload queue : (replace_node node payload queue).*1 = queue.*1.
Proof.
  unfold replace_node. rewrite <-list_fmap_compose. apply list_fmap_ext. intros i [n p] _. cbn. by destruct (Nat.eqb_spec n node) as [->|].
Qed.

Lemma elem_replace node payload queue n p : (n, p) ∈ queue -> (n, if (n =? node)%nat then payload else p) ∈ replace_node node payload queue.
Proof.
  intros Hin. apply list_elem_of_fmap. exists (n, p). split; [|done]. cbn. by destruct (Nat.eqb_spec n node) as [->|].
Qed.

Lemma enqueue_ok payload allow d : dispatcher_ok d -> dispatcher_ok (enqueue payload allow d).1.
Proof.
  intros [Hn Hx Hi Hb Hd]. unfold enqueue. destruct (Nat.leb_spec (capacity_ d) (length (queue_ d))) as [Hf|Hf]; [by constructor|].
  constructor; cbn; [| | |rewrite length_app; cbn; lia|done].
  - rewrite fmap_app. apply NoDup_app. split_and!; [done| |apply NoDup_singleton]. intros n Hin ->%list_elem_of_singleton. apply Hx in Hin. cbn in Hin. lia.
  - intros n. rewrite fmap_app, elem_of_app. intros [Hin| ->%list_elem_of_singleton]; [apply Hx in Hin; lia|cbn; lia].
  - intros key node Hl. assert (Hold : coordinationByKey_ d !! key = Some node -> exists event, (node, Coordination event) ∈ queue_ d ++ [(nextNode d, payload)] /\ ce_key event = key).
    { intros (event & Hin & Hk)%Hi. exists event. split; [|done]. set_solver. }
    destruct payload as [event|c|r]; cbn in Hl; [|auto|auto]. destruct allow; [|auto].
    apply lookup_insert_Some in Hl as [[<- <-]|[_ Hl]]; [|auto]. exists event. set_solver.
Qed.

(** An index entry is never dangling, so submitting is defined and never inconsistent. *)
Lemma submit_ok payload allow d : dispatcher_ok d -> (allow = true -> is_doorbell payload = true) ->
  exists d' r, Submit payload allow d = Some (d', r) /\ dispatcher_ok d' /\ (forall code, r = Err code -> code = K_TRY_AGAIN \/ code = K_NOT_READY).
Proof.
  intros Hok Hdoor. unfold Submit. pose proof (enqueue_ok payload allow d Hok) as Henq.
  assert (Hcodes : forall code, (enqueue payload allow d).2 = Err code -> code = K_TRY_AGAIN \/ code = K_NOT_READY).
  { intros code. unfold enqueue. case_match; [intros [= <-]; by left|done]. }
  destruct (accepting_ d); cbn [negb].
  2: { do 2 eexists. split_and!; [done|by destruct Hok|intros code [= <-]; by right]. }
  destruct allow; [|do 2 eexists; split_and!; [by rewrite <-surjective_pairing|done|done]].
  destruct payload as [event|c|r]; [|by specialize (Hdoor eq_refl)..]. cbn [key_of].
  destruct (coordinationByKey_ d !! ce_key event) as [pending|] eqn:Hl; [|do 2 eexists; split_and!; [by rewrite <-surjective_pairing|done|done]].
  destruct Hok as [Hn Hx Hi Hb Hd]. destruct (Hi _ _ Hl) as (old & Hin & Hk). rewrite (node_at_elem _ _ _ Hn Hin). cbn [mbind option_bind].
  do 2 eexists. split_and!; [done| |done]. constructor; cbn; rewrite ?replace_nodes; try done.
  - intros key node Hl'. destruct (Hi _ _ Hl') as (old' & Hin' & Hk'). pose proof (elem_replace pending (Coordination event) _ _ _ Hin') as He.
    destruct (Nat.eqb_spec node pending) as [->|]; [|by exists old']. exists event. split; [done|].
    pose proof (node_at_elem _ _ _ Hn Hin) as E1. rewrite (node_at_elem _ _ _ Hn Hin') in E1. injection E1 as ->. congruence.
  - unfold replace_node. by rewrite length_fmap.
  - unfold replace_node. by rewrite length_fmap.
Qed.

Lemma dispatcher_step_ok d rq : dispatcher_ok d -> exists d' new, step d rq = Some (d', new) /\ dispatcher_ok d'.
Proof.
  intros Hok. destruct rq as [| |payload allow| |]; cbn [step].
  - unfold Start. destruct (negb _); do 2 eexists; (split; [done|]); [done|]. constructor; cbn; try done; [constructor|by intros ? ?%elem_of_nil|lia].
  - do 2 eexists. split; [done|]. by destruct Hok.
  - destruct (submit_ok payload (allow && is_doorbell payload) d Hok) as (d' & r & -> & Hok' & _); [by destruct allow|]. by do 2 eexists.
  - unfold WaitPop. destruct (queue_ d) as [|[n payload] queue] eqn:Hq; [by do 2 eexists|]. do 2 eexists. split; [done|].
    destruct Hok as [Hn Hx Hi Hb Hd]. rewrite Hq in *. cbn in *. apply NoDup_cons in Hn as [Hnn Hn]. constructor; cbn; [done| | |lia|done].
    + intros node Hin. apply Hx. set_solver.
    + intros key node Hl. assert (Hl0 : coordinationByKey_ d !! key = Some node /\ key_of payload <> Some key).
      { destruct payload as [event|c|r]; cbn in *; [|done|done]. apply lookup_delete_Some in Hl as [Hne Hl]. split; [done|congruence]. }
      destruct Hl0 as [Hl0 Hne]. destruct (Hi _ _ Hl0) as (event & Hin & Hk). apply elem_of_cons in Hin as [[= -> <-]|Hin]; [|by exists event].
      exfalso. apply Hne. cbn. by rewrite Hk.
  - do 2 eexists. split; [done|]. by destruct Hok.
Qed.

Lemma runs_ok d tr d' : dispatcher_ok d -> runs d tr d' -> dispatcher_ok d'.
Proof.
  intros Hok. induction 1 as [|d tr d' rq d'' new _ IH Hs]; [done|]. destruct (dispatcher_step_ok d' rq (IH Hok)) as (d1 & new1 & Hs1 & Hok1). congruence.
Qed.

Lemma new_ok capacity : dispatcher_ok (new_CoordinationEventDispatcher capacity).
Proof. constructor; cbn; try done; [constructor|by intros ? ?%elem_of_nil|lia]. Qed.

(** ** Delivery *)

Definition delivered (tr : list Trace) : list RuntimeEventPayload :=
  omap (fun t => match t with Delivered payload => Some payload | _ => None end) tr.

(** Where an accepted event is after [tr]: delivered or queued, a doorbell possibly as a
    newer one of its key. *)
Definition kept (payload : RuntimeEventPayload) (allow : bool) (tr : list Trace) (d : CoordinationEventDispatcher) : Prop :=
  if allow then
    exists p', (p' = payload \/ (Accepted p' true ∈ tr /\ key_of p' = key_of payload)) /\ (p' ∈ delivered tr \/ p' ∈ (queue_ d).*2)
  else payload ∈ delivered tr \/ exists n, (n, payload) ∈ queue_ d /\ forall key, coordinationByKey_ d !! key <> Some n.

(** The doorbell due for an accepted one, whatever else is appended to the trace. *)
Lemma kept_more payload allow tr new d : kept payload allow tr d -> kept payload allow (tr ++ new) d.
Proof.
  unfold kept, delivered. rewrite omap_app. destruct allow.
  - intros (p' & Hp & Hin). exists p'. split; [destruct Hp as [|[]]; [by left|right; split; [set_solver|done]]|set_solver].
  - intros [Hin|Hin]; [left; set_solver|by right].
Qed.

Lemma kept_queue payload allow tr d d' : kept payload allow tr d -> queue_ d' = queue_ d -> coordinationByKey_ d' = coordinationByKey_ d -> kept payload allow tr d'.
Proof. unfold kept. by intros ? -> ->. Qed.

Lemma kept_enqueue payload allow tr d p a : dispatcher_ok d -> kept payload allow tr d -> kept payload allow tr (enqueue p a d).1.
Proof.
  intros Hok Hk. unfold enqueue. case_match; [by eapply kept_queue|]. unfold kept in *. cbn. destruct allow.
  - destruct Hk as (p' & Hp & Hin). exists p'. split; [done|]. rewrite fmap_app. set_solver.
  - destruct Hk as [Hk|(n & Hin & Hno)]; [by left|]. right. exists n. split; [set_solver|]. intros key.
    assert (Hnew : n <> nextNode d). { assert ((n < nextNode d)%nat); [|lia]. apply (do_next _ Hok), (list_elem_of_fmap_2 fst _ _ Hin). }
    destruct (key_of p) as [k|]; [|done]. destruct a; [|done]. intros [[_ E]|[_ E]]%lookup_insert_Some; [congruence|by apply Hno in E].
Qed.

(** A replaced doorbell is superseded by the one that replaces it. *)
Lemma kept_replace payload allow tr d node event old d' : dispatcher_ok d -> kept payload allow tr d ->
  coordinationByKey_ d !! ce_key event = Some node -> (node, Coordination old) ∈ queue_ d -> ce_key old = ce_key event ->
  queue_ d' = replace_node node (Coordination event) (queue_ d) -> coordinationByKey_ d' = coordinationByKey_ d ->
  kept payload allow (tr ++ [Accepted (Coordination event) true]) d'.
Proof.
  intros Hok Hk Hl Hold Hkey Hq Hc. apply (kept_more _ _ _ [Accepted (Coordination event) true]) in Hk. unfold kept in *. rewrite Hq, Hc. destruct allow.
  - destruct Hk as (p' & Hp & [Hin|Hin]); [exists p'; by auto|]. apply list_elem_of_fmap in Hin as ([n q] & -> & Hin).
    pose proof (elem_replace node (Coordination event) _ _ _ Hin) as Hr. destruct (Nat.eqb_spec n node) as [->|].
    + assert (Hq' : q = Coordination old). { pose proof (node_at_elem _ _ _ (do_nodes _ Hok) Hold) as E. rewrite (node_at_elem _ _ _ (do_nodes _ Hok) Hin) in E. congruence. }
      exists (Coordination event). split; [right; split; [set_solver|]|right; by apply (list_elem_of_fmap_2 snd _ _ Hr)].
      subst q. cbn in Hp. destruct Hp as [<-|[_ <-]]; cbn; by rewrite Hkey.
    + exists q. split; [done|]. right. by apply (list_elem_of_fmap_2 snd _ _ Hr).
  - destruct Hk as [Hk|(n & Hin & Hno)]; [by left|]. right. exists n. split; [|done].
    pose proof (elem_replace node (Coordination event) _ _ _ Hin) as Hr. destruct (Nat.eqb_spec n node) as [->|]; [by destruct (Hno _ Hl)|done].
Qed.

Lemma kept_step payload allow tr d rq d' new : dispatcher_ok d -> kept payload allow tr d -> step d rq = Some (d', new) ->
  Restarted ∉ new -> kept payload allow (tr ++ new) d'.
Proof.
  intros Hok Hk Hs Hno. destruct rq as [| |p a| |]; cbn [step] in Hs.
  - unfold Start in Hs. destruct (negb _); injection Hs as <- <-; [by apply kept_more|set_solver].
  - injection Hs as <- <-. apply kept_more. by eapply kept_queue.
  - set (b := a && is_doorbell p) in *. destruct (Submit p b d) as [[d1 r]|] eqn:E; [|done]. cbn in Hs. injection Hs as <- <-.
    revert E. unfold Submit. destruct (accepting_ d); cbn [negb]; [|intros [= <- <-]; apply kept_more; by eapply kept_queue].
    assert (Henq : enqueue p b d = (d1, r) -> kept payload allow (tr ++ match r with Ok _ => [Accepted p b] | Err K_TRY_AGAIN => if b then [RefusedDoorbell] else [] | Err _ => [] end) d1).
    { intros E. apply kept_more. replace d1 with (enqueue p b d).1 by by rewrite E. by apply kept_enqueue. }
    destruct b eqn:Hb; [|by intros [= E]; apply Henq]. destruct p as [event|c|rep]; cbn [key_of]; [|done|done].
    destruct (coordinationByKey_ d !! ce_key event) as [pending|] eqn:Hl; [|by intros [= E]; apply Henq].
    destruct (do_index _ Hok _ _ Hl) as (old & Hin & Hkey). rewrite (node_at_elem _ _ _ (do_nodes _ Hok) Hin). cbn [mbind option_bind].
    intros [= <- <-]. by eapply kept_replace.
  - unfold WaitPop in Hs. destruct (queue_ d) as [|[n p] queue] eqn:Hq; injection Hs as <- <-; [by apply kept_more|].
    unfold kept, delivered in *. rewrite omap_app, Hq in *. cbn in *. destruct allow.
    + destruct Hk as (p' & Hp & Hin). exists p'. split; [destruct Hp as [|[]]; [by left|right; split; [set_solver|done]]|set_solver].
    + destruct Hk as [Hk|(m & Hin & Hnone)]; [left; set_solver|]. apply elem_of_cons in Hin as [[= -> ->]|Hin]; [left; set_solver|].
      right. exists m. split; [done|]. intros key. destruct p as [event|c|rep]; cbn; [|done|done]. intros [_ E]%lookup_delete_Some. by apply Hnone in E.
  - injection Hs as <- <-. apply kept_more. by eapply kept_queue.
Qed.

Lemma accepted_kept d rq d' new payload allow : dispatcher_ok d -> step d rq = Some (d', new) -> Accepted payload allow ∈ new -> kept payload allow [] d'.
Proof.
  intros Hok Hs Hin. destruct rq as [| |p a| |]; cbn [step] in Hs.
  - destruct (Start d) as [d1 [u|e]]; injection Hs as <- <-; set_solver.
  - injection Hs as <- <-. set_solver.
  - set (b := a && is_doorbell p) in *. destruct (Submit p b d) as [[d1 [u|e]]|] eqn:E; [| |done]; cbn in Hs; injection Hs as <- <-.
    2: { destruct e; try set_solver. destruct b; set_solver. }
    apply list_elem_of_singleton in Hin as [= -> ->]. revert E. unfold Submit. destruct (accepting_ d); cbn [negb]; [|done].
    assert (Henq : forall b, enqueue p b d = (d1, Ok u) -> kept p b [] d1).
    { intros c E. unfold enqueue in E. case_match; [done|]. injection E as <- _. unfold kept. cbn. destruct c.
      - exists p. split; [by left|]. right. rewrite fmap_app. set_solver.
      - right. exists (nextNode d). split; [set_solver|]. intros key Hl. assert (Hl' : coordinationByKey_ d !! key = Some (nextNode d)) by by destruct (key_of p).
        destruct (do_index _ Hok _ _ Hl') as (event & Hev & _). apply (list_elem_of_fmap_2 fst), (do_next _ Hok) in Hev. cbn in Hev. lia. }
    destruct b eqn:Hb; [|by intros [= E]; apply Henq]. destruct p as [event|c|rep]; cbn [key_of]; [|done|done].
    destruct (coordinationByKey_ d !! ce_key event) as [pending|] eqn:Hl; [|by intros [= E]; apply Henq].
    destruct (do_index _ Hok _ _ Hl) as (old & Hin & Hkey). rewrite (node_at_elem _ _ _ (do_nodes _ Hok) Hin). cbn [mbind option_bind].
    intros [= <- <-]. exists (Coordination event). split; [by left|]. right. cbn. pose proof (elem_replace pending (Coordination event) _ _ _ Hin) as Hr.
    rewrite Nat.eqb_refl in Hr. by apply (list_elem_of_fmap_2 snd _ _ Hr).
  - destruct (WaitPop d) as [d1 [u|e]]; injection Hs as <- <-; set_solver.
  - destruct (ConsumeResyncRequired d) as [d1 []]; injection Hs as <- <-; set_solver.
Qed.

Lemma step_new d rq d' new : step d rq = Some (d', new) -> new = [] \/ exists t, new = [t].
Proof.
  destruct rq as [| |p a| |]; cbn [step].
  - destruct (Start d) as [? []]; intros [= _ <-]; eauto.
  - intros [= _ <-]. eauto.
  - destruct (Submit _ _ d) as [[d1 [u|e]]|]; cbn; [| |done]; intros [= _ <-]; eauto. destruct e; eauto. destruct (_ && _); eauto.
  - destruct (WaitPop d) as [? []]; intros [= _ <-]; eauto.
  - intros [= _ <-]. destruct (resyncRequired_ d); eauto.
Qed.

Lemma enqueue_capacity p a d : capacity_ (enqueue p a d).1 = capacity_ d.
Proof. unfold enqueue. by case_match. Qed.

Lemma submit_shape p a d d' r : Submit p a d = Some (d', r) ->
  enqueue p a d = (d', r) \/ (capacity_ d' = capacity_ d /\ resyncRequired_ d' = resyncRequired_ d).
Proof.
  unfold Submit. destruct (accepting_ d); cbn [negb]; [|intros [= <- <-]; by right]. destruct a; [|intros [= E]; by left].
  destruct (key_of p) as [key|]; [|done]. destruct (_ !! key) as [pending|]; [|intros [= E]; by left].
  destruct (node_at _ _) as [[]|]; cbn; try done; intros [= <- <-]; by right.
Qed.

Lemma submit_capacity p a d d' r : Submit p a d = Some (d', r) -> capacity_ d' = capacity_ d.
Proof. intros [E|[]]%submit_shape; [|done]. rewrite <-(enqueue_capacity p a d). by rewrite E. Qed.

Lemma step_capacity d rq d' new : step d rq = Some (d', new) -> capacity_ d' = capacity_ d.
Proof.
  destruct rq as [| |p a| |]; cbn [step].
  - unfold Start. destruct (negb _); by intros [= <- _].
  - by intros [= <- _].
  - destruct (Submit _ _ d) as [[d1 r]|] eqn:E; cbn; [|done]. intros [= <- _]. by eapply submit_capacity.
  - unfold WaitPop. destruct (queue_ d) as [|[? ?] ?]; by intros [= <- _].
  - by intros [= <- _].
Qed.

Lemma runs_capacity d tr d' : runs d tr d' -> capacity_ d' = capacity_ d.
Proof. induction 1 as [|d tr d' rq d'' new _ IH Hs]; [done|]. apply step_capacity in Hs. congruence. Qed.

Lemma snoc_split {A} (tr tr1 tr2 : list A) t x : tr ++ [t] = tr1 ++ x :: tr2 ->
  (tr2 = [] /\ x = t /\ tr = tr1) \/ exists tr', tr2 = tr' ++ [t] /\ tr = tr1 ++ x :: tr'.
Proof.
  destruct tr2 as [|y tr2 _] using rev_ind; intros E.
  - apply app_inj_tail in E as [-> ->]. by left.
  - right. rewrite app_comm_cons, app_assoc in E. apply app_inj_tail in E as [-> ->]. by exists tr2.
Qed.

Lemma resync_sticky d rq d' new : step d rq = Some (d', new) -> resyncRequired_ d = true -> Restarted ∉ new ->
  Resynchronized ∈ new \/ resyncRequired_ d' = true.
Proof.
  intros Hs Hr Hno. destruct rq as [| |p a| |]; cbn [step] in Hs.
  - unfold Start in Hs. destruct (negb _); injection Hs as <- <-; [by right|set_solver].
  - injection Hs as <- <-. by right.
  - right. destruct (Submit _ _ d) as [[d1 r]|] eqn:E; cbn in Hs; [|done]. injection Hs as <- _.
    assert (Henq : forall b, resyncRequired_ (enqueue p b d).1 = true) by (intros b; unfold enqueue; case_match; cbn; by rewrite Hr).
    apply submit_shape in E as [E|[_ ->]]; [|done]. specialize (Henq (a && is_doorbell p)). by rewrite E in Henq.
  - right. unfold WaitPop in Hs. destruct (queue_ d) as [|[? ?] ?]; by injection Hs as <- _.
  - left. injection Hs as _ <-. rewrite Hr. set_solver.
Qed.

Lemma refused_resync d rq d' new : step d rq = Some (d', new) -> RefusedDoorbell ∈ new -> resyncRequired_ d' = true.
Proof.
  intros Hs Hin. destruct rq as [| |p a| |]; cbn [step] in Hs.
  - destruct (Start d) as [? []]; injection Hs as <- <-; set_solver.
  - injection Hs as <- <-. set_solver.
  - set (b := a && is_doorbell p) in *. destruct (Submit p b d) as [[d1 [u|e]]|] eqn:E; [| |done]; cbn in Hs; injection Hs as <- <-; [set_solver|].
    destruct e; try set_solver. destruct b eqn:Hb; [|set_solver]. revert E. unfold Submit. destruct (accepting_ d); cbn; [|done].
    assert (Henq : forall c, enqueue p true d = (d1, Err c) -> resyncRequired_ d1 = true).
    { intros c. unfold enqueue. case_match; intros [= <- _]. cbn. apply orb_true_r. }
    destruct p as [event|c|rep]; cbn; [|done|done]. destruct (coordinationByKey_ d !! _); [|intros [= E]; by eapply Henq].
    destruct (node_at _ _) as [[]|]; cbn; try done.
  - destruct (WaitPop d) as [? []]; injection Hs as <- <-; set_solver.
  - injection Hs as <- <-. destruct (resyncRequired_ d); set_solver.
Qed.

Lemma submit_refused payload allow d d' code : Submit payload allow d = Some (d', Err code) ->
  (code = K_NOT_READY <-> accepting_ d = false) /\ queue_ d' = queue_ d /\ coordinationByKey_ d' = coordinationByKey_ d.
Proof.
  unfold Submit. destruct (accepting_ d); cbn [negb]; [|by intros [= <- <-]].
  assert (Henq : enqueue payload allow d = (d', Err code) ->
    (code = K_NOT_READY <-> true = false) /\ queue_ d' = queue_ d /\ coordinationByKey_ d' = coordinationByKey_ d).
  { unfold enqueue. case_match; intros [= <- <-]. split; [split; done|done]. }
  destruct allow; [|intros [= E]; by apply Henq]. destruct (key_of payload) as [key|]; [|done].
  destruct (_ !! key) as [pending|]; [|intros [= E]; by apply Henq].
  destruct (node_at _ _) as [[]|]; cbn; try done; intros [= <- <-]; (split; [split; done|done]).
Qed.

(** C34: between two restarts the event queue loses nothing it accepted.  Whatever the
    order of submissions, pops and stops after the last successful Start, an event
    accepted since then is delivered or still queued as itself, a coalescible doorbell
    possibly as a newer accepted one of the same key; a doorbell refused for lack of
    room since then leaves a resynchronization pending until it is consumed; a
    submission is refused as not ready exactly while ingress is closed, and a refused
    one changes no queued event; a Start forgets the queue and a pending
    resynchronization; the queue stays within its capacity; and submitting never
    follows an iterator to a node that is gone. *)
Theorem doorbells_not_lost capacity tr d : runs (new_CoordinationEventDispatcher capacity) tr d ->
  (forall tr1 payload allow tr2, tr = tr1 ++ Accepted payload allow :: tr2 -> Restarted ∉ tr2 -> kept payload allow tr2 d) /\
  (forall tr1 tr2, tr = tr1 ++ RefusedDoorbell :: tr2 -> Restarted ∉ tr2 -> Resynchronized ∈ tr2 \/ resyncRequired_ d = true) /\
  (forall payload allow d' code, Submit payload allow d = Some (d', Err code) ->
     (code = K_NOT_READY <-> accepting_ d = false) /\ queue_ d' = queue_ d /\ coordinationByKey_ d' = coordinationByKey_ d) /\
  (forall d' u, Start d = (d', Ok u) -> queue_ d' = [] /\ resyncRequired_ d' = false) /\
  (length (queue_ d) <= capacity)%nat /\
  forall event, exists d' r, SubmitCoordination event d = Some (d', r) /\ r <> Err K_RUNTIME_ERROR.
Proof.
  intros Hr. pose proof (runs_ok _ _ _ (new_ok capacity) Hr) as Hok. split_and!.
  - clear Hok. remember (new_CoordinationEventDispatcher capacity) as d0 eqn:E0. induction Hr as [|d0 tr d rq d' new Hr IH Hs]; intros tr1 payload allow tr2 E Hno.
    { by destruct tr1. }
    subst d0. pose proof (runs_ok _ _ _ (new_ok capacity) Hr) as Hok. destruct (step_new _ _ _ _ Hs) as [->|[t ->]].
    + rewrite app_nil_r in E. rewrite <-(app_nil_r tr2). eapply kept_step; [done|by eapply IH|done|set_solver].
    + apply snoc_split in E as [(-> & <- & ->)|(tr' & -> & ->)]; [eapply accepted_kept; [done|done|set_solver]|].
      eapply kept_step; [done|eapply (IH eq_refl tr1); [done|set_solver]|done|set_solver].
  - clear Hok. remember (new_CoordinationEventDispatcher capacity) as d0 eqn:E0. induction Hr as [|d0 tr d rq d' new Hr IH Hs]; intros tr1 tr2 E Hno.
    { by destruct tr1. }
    subst d0. specialize (IH eq_refl). destruct (step_new _ _ _ _ Hs) as [->|[t ->]].
    + rewrite app_nil_r in E. destruct (IH _ _ E Hno) as [|Hq]; [by left|]. destruct (resync_sticky _ _ _ _ Hs Hq) as [Hx|]; [set_solver|set_solver|by right].
    + apply snoc_split in E as [(-> & <- & ->)|(tr' & -> & ->)]; [right; eapply refused_resync; [done|set_solver]|].
      destruct (IH tr1 tr' eq_refl ltac:(set_solver)) as [|Hq]; [left; set_solver|].
      destruct (resync_sticky _ _ _ _ Hs Hq) as [Hx|]; [set_solver|left; set_solver|by right].
  - intros payload allow d' code. apply submit_refused.
  - intros d' u. unfold Start. destruct (negb _); [done|]. by intros [= <- _].
  - apply runs_capacity in Hr. cbn in Hr. rewrite <-Hr. apply Hok.
  - intros event. destruct (submit_ok (Coordination event) true d Hok) as (d' & r & Hs & _ & Hc); [done|]. exists d', r. split; [done|].
    intros ->. by destruct (Hc _ eq_refl).
Qed.
End dispatcher.
Arguments RuntimeEventPayload : clear implicits.
Arguments CoordinationEventDispatcher : clear implicits.

(** A newer doorbell takes the place of the queued one. *)
Definition demo_event (revision : Z) : CoordinationEvent :=
  {| ce_type := EV_PUT; ce_key := "k"; ce_value := ""; ce_version := 1; ce_revision := revision |}.

Definition after (requests : list (Request (Completion := unit))) : CoordinationEventDispatcher unit :=
  foldl (fun d rq => match step d rq with Some (d', _) => d' | None => d end) (new_CoordinationEventDispatcher 1) requests.
Definition demo_requests : list (Request (Completion := unit)) :=
  [RqStart; RqSubmit (Coordination (demo_event 1)) true; RqSubmit (Coordination (demo_event 2)) true].

Lemma doorbells_not_lost_witness :
  runs (new_CoordinationEventDispatcher 1)
    [Restarted; Accepted (Coordination (demo_event 1)) true; Accepted (Coordination (demo_event 2)) true] (after demo_requests) /\
  (queue_ (after demo_requests)).*2 = [Coordination (demo_event 2)] /\ (length (queue_ (after demo_requests)) <= 1)%nat.
Proof.
  assert (Hr : runs (new_CoordinationEventDispatcher 1)
    ((([] ++ [Restarted]) ++ [Accepted (Coordination (demo_event 1)) true]) ++ [Accepted (Coordination (demo_event 2)) true]) (after demo_requests)).
  { apply (runs_snoc _ _ (after (take 2 demo_requests)) (RqSubmit (Coordination (demo_event 2)) true)); [|reflexivity].
    apply (runs_snoc _ _ (after (take 1 demo_requests)) (RqSubmit (Coordination (demo_event 1)) true)); [|reflexivity].
    apply (runs_snoc _ _ (after []) RqStart); [constructor|reflexivity]. }
  split; [exact Hr|]. split; [reflexivity|]. apply (doorbells_not_lost 1 _ _ Hr).
Defined.
