(* ===== verification/Double.v ===== *)
(** * double

    IEEE 754 binary64 as the Standard Library specifies it, with the operations the
    sources use.  On numbers other than NaN the comparison is a strict weak order:
    it is the lexicographic order of [rank]. *)

From Stdlib Require Export SpecFloat.
From S2P Require Import Prelude.

Definition double : Set := spec_float.

Definition d_add : double -> double -> double := SFadd 53 1024.
Definition d_sub : double -> double -> double := SFsub 53 1024.
Definition d_mul : double -> double -> double := SFmul 53 1024.
Definition d_div : double -> double -> double := SFdiv 53 1024.
Definition d_lt : double -> double -> bool := SFltb.
Definition d_le : double -> double -> bool := SFleb.

(** [static_cast<double>] of an integer, and the double constants of the sources. *)
Definition d_of_Z (n : Z) : double := binary_normalize 53 1024 n 0 false.
Definition d_zero : double := S754_zero false.
Definition d_half : double := S754_finite false (2 ^ 52) (-53).
Definition d_neg_infinity : double := S754_infinity true.

Definition isfinite (x : double) : bool :=
  match x with S754_zero _ | S754_finite _ _ _ => true | _ => false end.

(** [std::min] and [std::max] return their first argument when neither is less. *)
Definition d_min (x y : double) : double := if d_lt y x then y else x.
Definition d_max (x y : double) : double := if d_lt x y then y else x.

#[global] Instance spec_float_eq_dec : EqDecision spec_float.
Proof. solve_decision. Defined.

(** ** Order *)

Definition rank (x : double) : Z * Z * Z :=
  match x with
  | S754_infinity s => (if s then -2 else 2, 0, 0)
  | S754_finite s m e => if s then (-1, -e, -Z.pos m) else (1, e, Z.pos m)
  | S754_zero _ | S754_nan => (0, 0, 0)
  end.

Definition rank_lt (a b : Z * Z * Z) : Prop :=
  a.1.1 < b.1.1 \/ (a.1.1 = b.1.1 /\ (a.1.2 < b.1.2 \/ (a.1.2 = b.1.2 /\ a.2 < b.2))).

Definition number (x : double) : Prop := x <> S754_nan.

Lemma compare_rank x y : number x -> number y ->
  match SFcompare x y with
  | Some Lt => rank_lt (rank x) (rank y)
  | Some Eq => rank x = rank y
  | Some Gt => rank_lt (rank y) (rank x)
  | None => False
  end.
Proof.
  intros Hx Hy. unfold rank_lt.
  destruct x as [[]|[]| |[] m e], y as [[]|[]| |[] n f]; cbn; try done; try (left; lia).
  - destruct (Z.compare_spec e f) as [->|He|He]; cbn; [|lia|lia]. fold (Pos.compare m n).
    destruct (Pos.compare_spec m n) as [->|Hm|Hm]; cbn; [done|lia|lia].
  - destruct (Z.compare_spec e f) as [->|He|He]; cbn; [|lia|lia]. fold (Pos.compare m n).
    destruct (Pos.compare_spec m n) as [->|Hm|Hm]; cbn; [done|lia|lia].
Qed.

Lemma d_lt_rank x y : number x -> number y -> d_lt x y = true <-> rank_lt (rank x) (rank y).
Proof.
  intros Hx Hy. pose proof (compare_rank x y Hx Hy) as Hc. unfold d_lt, SFltb. destruct (SFcompare x y) as [[]|]; [|done| |done].
  - rewrite Hc. split; [done|]. unfold rank_lt. lia.
  - split; [done|]. unfold rank_lt in *. lia.
Qed.

Lemma d_lt_rank_false x y : number x -> number y -> d_lt x y = false <-> ~ rank_lt (rank x) (rank y).
Proof. intros Hx Hy. rewrite <-d_lt_rank by done. by destruct (d_lt x y). Qed.

Lemma rank_total a b : ~ rank_lt a b -> ~ rank_lt b a -> a = b.
Proof. destruct a as [[a1 a2] a3], b as [[b1 b2] b3]. unfold rank_lt. cbn. intros H1 H2. repeat f_equal; lia. Qed.

Lemma rank_trans a b c : rank_lt a b -> rank_lt b c -> rank_lt a c.
Proof. unfold rank_lt. lia. Qed.

Lemma rank_irrefl a : ~ rank_lt a a.
Proof. unfold rank_lt. lia. Qed.

Lemma d_min_number x y : number x -> number y -> number (d_min x y).
Proof. unfold d_min. by case_match. Qed.
Lemma d_max_number x y : number x -> number y -> number (d_max x y).
Proof. unfold d_max. by case_match. Qed.

Lemma d_min_le x y : number x -> number y -> d_lt y (d_min x y) = false.
Proof.
  intros Hx Hy. unfold d_min. destruct (d_lt y x) eqn:E; [|done]. apply d_lt_rank_false; [done..|]. apply rank_irrefl.
Qed.

Lemma finite_number x : isfinite x = true -> number x.
Proof. by intros Hf ->. Qed.
