(* ===== verification/EvictionList.v ===== *)
(** * The eviction list of a worker's object cache

    worker/object_cache/eviction_list.cpp.  The objects a worker may evict form a
    list with a clock hand [oldest_]; a table finds the list node of a key.  Under
    the clock policy a node carries a counter that the hand decrements; under the
    heat policy a second table carries the heat of a key, raised by accesses and
    halved as time passes.

    An operation on a key holds the accessor of the key from its first to its last
    access and changes the list under its lock; here it is one transition.  A list
    node keeps its identity, so [list_] holds numbered nodes, an iterator is a
    number and [None] is [end()]; following an iterator to a node that is not in
    the list is undefined behaviour, the result [None].  Heap and sort algorithms of
    the standard library are a class with their specification, [std::pow] and the
    format of [long double] are parameters.  Left out: failed allocations. *)

From S2P Require Import Prelude Ordered Double.

(** ** Data *)

Definition Q1 : Z := 1.
Definition Q2 : Z := 2.
Definition READD_COUNTER : Z := 5.
Definition K_HEAT_CANDIDATE_SCAN_MULTIPLIER : Z := 8.

(** [static_cast<uint8_t>] *)
Definition u8 (z : Z) : Z := z mod 2 ^ 8.

Inductive StateKind := CLOCK | HEAT.
#[global] Instance StateKind_eq_dec : EqDecision StateKind.
Proof. solve_decision. Defined.
Inductive HeatMergeMode := PRESERVE_MAX | ADD_CAPPED.

Record Node := {
  n_objectKey : string; n_curCounter : Z; n_maxCounter : Z; n_heat : double; n_lastAccessMs : Z; n_lastDelayMs : Z;
  n_generation : Z; n_heatUpdateSeq : Z; n_migratableSize : Z
}.

Record ListNode := { ln_objectKey : string; ln_curCounter : Z; ln_maxCounter : Z }.

Record HeatState := { hs_heat : double; hs_lastAccessMs : Z; hs_lastDelayMs : Z; hs_generation : Z; hs_heatUpdateSeq : Z }.

Record EvictionList := {
  list_ : list (nat * ListNode);
  oldest_ : option nat;
  indexTable_ : gmap string nat;
  heatTable_ : gmap string HeatState;
  nextGeneration_ : Z;
  nextNode : nat
}.

Definition new_EvictionList : EvictionList :=
  {| list_ := []; oldest_ := None; indexTable_ := ∅; heatTable_ := ∅; nextGeneration_ := 1; nextNode := 0 |}.

(** ** Lists of numbered nodes *)

Definition node_at (l : list (nat * ListNode)) (node : nat) : option ListNode :=
  snd <$> List.find (fun entry => (entry.1 =? node)%nat) l.

Definition update_node (node : nat) (f : ListNode -> ListNode) (l : list (nat * ListNode)) : list (nat * ListNode) :=
  (fun entry => if (entry.1 =? node)%nat then (node, f entry.2) else entry) <$> l.

Definition begin (l : list (nat * ListNode)) : option nat := fst <$> head l.

(** [++iterator] *)
Fixpoint next (node : nat) (l : list (nat * ListNode)) : option nat :=
  match l with
  | [] => None
  | (n, _) :: l => if (n =? node)%nat then begin l else next node l
  end.

(** [list_.emplace(position, ...)] *)
Fixpoint emplace (position : option nat) (entry : nat * ListNode) (l : list (nat * ListNode)) : list (nat * ListNode) :=
  match l with
  | [] => [entry]
  | x :: l => if bool_decide (position = Some x.1) then entry :: x :: l else x :: emplace position entry l
  end.

Definition erase (node : nat) (l : list (nat * ListNode)) : list (nat * ListNode) :=
  List.filter (fun entry => negb (entry.1 =? node)%nat) l.

(** ** Membership *)

Definition with_list (e : EvictionList) (l : list (nat * ListNode)) (oldest : option nat) : EvictionList :=
  {| list_ := l; oldest_ := oldest; indexTable_ := indexTable_ e; heatTable_ := heatTable_ e;
     nextGeneration_ := nextGeneration_ e; nextNode := nextNode e |}.
Definition with_heat (e : EvictionList) (heat : gmap string HeatState) : EvictionList :=
  {| list_ := list_ e; oldest_ := oldest_ e; indexTable_ := indexTable_ e; heatTable_ := heat;
     nextGeneration_ := nextGeneration_ e; nextNode := nextNode e |}.
Definition next_generation (e : EvictionList) : EvictionList :=
  {| list_ := list_ e; oldest_ := oldest_ e; indexTable_ := indexTable_ e; heatTable_ := heatTable_ e;
     nextGeneration_ := u64 (nextGeneration_ e + 1); nextNode := nextNode e |}.

(** A new node at [position]; the first node becomes the oldest. *)
Definition link (position : option nat) (node : ListNode) (e : EvictionList) : EvictionList :=
  let l := emplace position (nextNode e, node) (list_ e) in
  {| list_ := l; oldest_ := if (length l =? 1)%nat then Some (nextNode e) else oldest_ e;
     indexTable_ := <[ln_objectKey node := nextNode e]> (indexTable_ e); heatTable_ := heatTable_ e;
     nextGeneration_ := nextGeneration_ e; nextNode := S (nextNode e) |}.

Definition SnapshotNode (node : ListNode) (heatState : option HeatState) : Node :=
  {| n_objectKey := ln_objectKey node; n_curCounter := Z.min (ln_curCounter node) (ln_maxCounter node); n_maxCounter := ln_maxCounter node;
     n_heat := match heatState with Some s => hs_heat s | None => d_zero end;
     n_lastAccessMs := match heatState with Some s => hs_lastAccessMs s | None => 0 end;
     n_lastDelayMs := match heatState with Some s => hs_lastDelayMs s | None => 0 end;
     n_generation := match heatState with Some s => hs_generation s | None => 0 end;
     n_heatUpdateSeq := match heatState with Some s => hs_heatUpdateSeq s | None => 0 end;
     n_migratableSize := 0 |}.

Definition SnapshotHeatNode (e : EvictionList) (node : ListNode) : option Node :=
  state ← heatTable_ e !! ln_objectKey node; Some (SnapshotNode node (Some state)).

(** Both forms of a snapshot as the readers take it. *)
Definition snapshot_of (e : EvictionList) (node : ListNode) : Node :=
  match SnapshotHeatNode e node with Some snapshot => snapshot | None => SnapshotNode node None end.

Definition Add (objectKey : string) (counter : Z) (e : EvictionList) : option EvictionList :=
  match indexTable_ e !! objectKey with
  | Some node =>
      _ ← node_at (list_ e) node;
      Some (with_list e (update_node node (fun x =>
        {| ln_objectKey := ln_objectKey x;
           ln_curCounter := if ln_curCounter x <? ln_maxCounter x then u8 (ln_curCounter x + 1) else ln_curCounter x;
           ln_maxCounter := ln_maxCounter x |}) (list_ e)) (oldest_ e))
  | None => Some (link None {| ln_objectKey := objectKey; ln_curCounter := counter; ln_maxCounter := counter |} e)
  end.

(** The removed node is returned as a snapshot. *)
Definition EraseInternal (objectKey : string) (e : EvictionList) : option (EvictionList * res Node) :=
  match indexTable_ e !! objectKey with
  | None => Some (e, Err K_NOT_FOUND)
  | Some node =>
      x ← node_at (list_ e) node;
      hand ← oldest_ e;
      old ← node_at (list_ e) hand;
      let moved := if bool_decide (ln_objectKey old = objectKey) then next hand (list_ e) else Some hand in
      let l := erase node (list_ e) in
      Some ({| list_ := l; oldest_ := match moved with Some n => Some n | None => begin l end;
               indexTable_ := delete objectKey (indexTable_ e); heatTable_ := delete objectKey (heatTable_ e);
               nextGeneration_ := nextGeneration_ e; nextNode := nextNode e |},
            Ok (SnapshotNode x (heatTable_ e !! objectKey)))
  end.

Definition Erase (objectKey : string) (e : EvictionList) : option (EvictionList * res unit) :=
  '(e, r) ← EraseInternal objectKey e; Some (e, match r with Ok _ => Ok tt | Err code => Err code end).
Definition Extract := EraseInternal.

Definition ValidateMembership (kind : StateKind) (e : EvictionList) : res unit :=
  let keys := (fun entry => ln_objectKey entry.2) <$> list_ e in
  _ ← check (base.size (indexTable_ e) =? length keys)%nat K_RUNTIME_ERROR;
  _ ← check (base.size (heatTable_ e) =? (if bool_decide (kind = HEAT) then length keys else 0))%nat K_RUNTIME_ERROR;
  check (forallb (fun key => has_value (indexTable_ e !! key) &&
                             bool_decide (has_value (heatTable_ e !! key) = bool_decide (kind = HEAT))) keys) K_RUNTIME_ERROR.

Definition node_of (snapshot : Node) : ListNode :=
  {| ln_objectKey := n_objectKey snapshot; ln_curCounter := n_curCounter snapshot; ln_maxCounter := n_maxCounter snapshot |}.
Definition heat_of (snapshot : Node) : HeatState :=
  {| hs_heat := n_heat snapshot; hs_lastAccessMs := n_lastAccessMs snapshot; hs_lastDelayMs := n_lastDelayMs snapshot;
     hs_generation := n_generation snapshot; hs_heatUpdateSeq := n_heatUpdateSeq snapshot |}.

Definition Restore (snapshot : Node) (e : EvictionList) : EvictionList * res unit :=
  match indexTable_ e !! n_objectKey snapshot with
  | Some _ => (e, Ok tt)
  | None =>
      if negb (n_generation snapshot =? 0) then
        match heatTable_ e !! n_objectKey snapshot with
        | Some _ => (e, Err K_RUNTIME_ERROR)
        | None => (link (oldest_ e) (node_of snapshot) (with_heat e (<[n_objectKey snapshot := heat_of snapshot]> (heatTable_ e))), Ok tt)
        end
      else (link (oldest_ e) (node_of snapshot) e, Ok tt)
  end.

(** ** Heat *)

Definition heat_node (objectKey : string) : ListNode := {| ln_objectKey := objectKey; ln_curCounter := 0; ln_maxCounter := 0 |}.

Definition modify_heat (objectKey : string) (f : HeatState -> HeatState) (e : EvictionList) : EvictionList :=
  with_heat e (alter f objectKey (heatTable_ e)).

Definition bump (s : HeatState) : HeatState :=
  {| hs_heat := hs_heat s; hs_lastAccessMs := hs_lastAccessMs s; hs_lastDelayMs := hs_lastDelayMs s; hs_generation := hs_generation s;
     hs_heatUpdateSeq := u64 (hs_heatUpdateSeq s + 1) |}.
Definition set_heat (heat : double) (access delay : Z) (s : HeatState) : HeatState :=
  bump {| hs_heat := heat; hs_lastAccessMs := access; hs_lastDelayMs := delay; hs_generation := hs_generation s; hs_heatUpdateSeq := hs_heatUpdateSeq s |}.

(** A heat node with a fresh generation before the clock hand; [false] when a heat state is in the way. *)
Definition InsertHeatNode (objectKey : string) (insertHeat : double) (nowMs : Z) (e : EvictionList) : EvictionList * bool :=
  let generation := nextGeneration_ e in
  let e := next_generation e in
  match heatTable_ e !! objectKey with
  | Some _ => (e, false)
  | None =>
      (link (oldest_ e) (heat_node objectKey)
         (with_heat e (<[objectKey := {| hs_heat := insertHeat; hs_lastAccessMs := nowMs; hs_lastDelayMs := nowMs;
                                         hs_generation := generation; hs_heatUpdateSeq := 0 |}]> (heatTable_ e))), true)
  end.

Definition AddHeatNode (objectKey : string) (initialHeat : double) (nowMs : Z) (e : EvictionList) : EvictionList :=
  match indexTable_ e !! objectKey with
  | Some _ => e
  | None => (InsertHeatNode objectKey initialHeat nowMs e).1
  end.

Definition IncrementHeatState (increment cap : double) (nowMs : Z) (s : HeatState) : HeatState :=
  set_heat (if d_lt (hs_heat s) cap then d_min (d_add (hs_heat s) increment) cap else hs_heat s)
    (Z.max (hs_lastAccessMs s) nowMs) (hs_lastDelayMs s) s.

Definition TouchHeatNode (objectKey : string) (insertHeat increment cap : double) (nowMs : Z) (e : EvictionList) : EvictionList :=
  match heatTable_ e !! objectKey with
  | Some _ => modify_heat objectKey (IncrementHeatState increment cap nowMs) e
  | None =>
      match indexTable_ e !! objectKey with
      | None => (InsertHeatNode objectKey insertHeat nowMs e).1
      | Some _ => e
      end
  end.

Definition RefillHeatNode (objectKey : string) (initialHeat accessCredit cap : double) (nowMs : Z) : EvictionList -> EvictionList :=
  TouchHeatNode objectKey (d_min (d_add initialHeat accessCredit) cap) accessCredit cap nowMs.
Definition IncrementHeat (objectKey : string) (increment cap : double) (nowMs : Z) : EvictionList -> EvictionList :=
  TouchHeatNode objectKey cap increment cap nowMs.

Definition usable (heat : double) : bool := isfinite heat && d_le d_zero heat.

Definition ApplyMigratedHeat (objectKey : string) (heat cap : double) (nowMs : Z) (mergeExisting : bool) (e : EvictionList)
    : EvictionList * res unit :=
  if negb (usable heat && usable cap) then (e, Err K_INVALID)
  else match heatTable_ e !! objectKey with
  | None => (e, Err K_NOT_FOUND)
  | Some _ =>
      let boundedHeat := d_min heat cap in
      (modify_heat objectKey (fun s =>
         set_heat (if mergeExisting then (if d_lt (hs_heat s) boundedHeat then boundedHeat else hs_heat s) else boundedHeat) nowMs nowMs s) e, Ok tt)
  end.

Definition ReinsertHot (objectKey : string) (heat : double) (nowMs : Z) (e : EvictionList) : EvictionList :=
  match indexTable_ e !! objectKey with
  | None => (InsertHeatNode objectKey heat nowMs e).1
  | Some _ => modify_heat objectKey (fun s => set_heat (d_max (hs_heat s) heat) nowMs nowMs s) e
  end.

(** ** Migration between lists *)

Definition InsertClockSnapshot (snapshot : Node) (e : EvictionList) : option (EvictionList * res bool) :=
  match indexTable_ e !! n_objectKey snapshot with
  | Some node =>
      if has_value (heatTable_ e !! n_objectKey snapshot) then Some (e, Err K_RUNTIME_ERROR)
      else
        _ ← node_at (list_ e) node;
        Some (with_list e (update_node node (fun x =>
          let maxCounter := Z.max (Z.max (ln_maxCounter x) (n_maxCounter snapshot)) (n_curCounter snapshot) in
          {| ln_objectKey := ln_objectKey x; ln_curCounter := Z.min maxCounter (Z.max (ln_curCounter x) (n_curCounter snapshot));
             ln_maxCounter := maxCounter |}) (list_ e)) (oldest_ e), Ok false)
  | None => Some (link None (node_of snapshot) e, Ok true)
  end.

Definition MergeHeatSnapshot (snapshot : Node) (heatCap : double) (mergeMode : HeatMergeMode) (e : EvictionList) : EvictionList * res unit :=
  match heatTable_ e !! n_objectKey snapshot with
  | None => (e, Err K_RUNTIME_ERROR)
  | Some _ =>
      let boundedSnapshotHeat := d_min (n_heat snapshot) heatCap in
      (modify_heat (n_objectKey snapshot) (fun s =>
         let currentHeat := d_min (hs_heat s) heatCap in
         let mergedHeat := match mergeMode with
                           | ADD_CAPPED => if d_le (d_sub heatCap boundedSnapshotHeat) currentHeat then heatCap else d_add currentHeat boundedSnapshotHeat
                           | PRESERVE_MAX => d_max currentHeat boundedSnapshotHeat
                           end in
         set_heat mergedHeat (Z.max (hs_lastAccessMs s) (n_lastAccessMs snapshot)) (Z.max (hs_lastDelayMs s) (n_lastDelayMs snapshot)) s) e, Ok tt)
  end.

Definition InsertHeatSnapshot (snapshot : Node) (heatCap : double) (mergeMode : HeatMergeMode) (e : EvictionList) : EvictionList * res bool :=
  if negb (usable (n_heat snapshot) && usable heatCap) then (e, Err K_INVALID)
  else match indexTable_ e !! n_objectKey snapshot with
  | Some _ => let '(e, r) := MergeHeatSnapshot snapshot heatCap mergeMode e in (e, match r with Ok _ => Ok false | Err code => Err code end)
  | None =>
      let generation := nextGeneration_ e in
      let e := next_generation e in
      match heatTable_ e !! n_objectKey snapshot with
      | Some _ => (e, Err K_RUNTIME_ERROR)
      | None =>
          (link None (heat_node (n_objectKey snapshot))
             (with_heat e (<[n_objectKey snapshot := {| hs_heat := d_min (n_heat snapshot) heatCap; hs_lastAccessMs := n_lastAccessMs snapshot;
                hs_lastDelayMs := n_lastDelayMs snapshot; hs_generation := generation; hs_heatUpdateSeq := 0 |}]> (heatTable_ e))), Ok true)
      end
  end.

(** Whether a membership was created. *)
Definition InsertOrMerge (snapshot : Node) (kind : StateKind) (heatCap : double) (mergeMode : HeatMergeMode) (e : EvictionList)
    : option (EvictionList * res bool) :=
  match kind with
  | CLOCK => InsertClockSnapshot snapshot e
  | HEAT => Some (InsertHeatSnapshot snapshot heatCap mergeMode e)
  end.

(** ** Readers *)

Definition Size (e : EvictionList) : nat := length (list_ e).
Definition Exist (objectKey : string) (e : EvictionList) : bool := has_value (indexTable_ e !! objectKey).

Definition GetObjectInfo (objectKey : string) (e : EvictionList) : option (res Node) :=
  match indexTable_ e !! objectKey with
  | None => Some (Err K_NOT_FOUND)
  | Some node => x ← node_at (list_ e) node; Some (Ok (snapshot_of e x))
  end.

Definition GetOldestObjectInfo (e : EvictionList) : option (res Node) :=
  if (length (list_ e) =? 0)%nat then Some (Err K_RUNTIME_ERROR)
  else hand ← oldest_ e; x ← node_at (list_ e) hand; Some (Ok (snapshot_of e x)).

(** Nodes from the hand around the list, at most [limit] of them. *)
Fixpoint walk (limit : nat) (e : EvictionList) (hand node : nat) : option (list Node) :=
  match limit with
  | O => Some []
  | S limit =>
      x ← node_at (list_ e) node;
      following ← match next node (list_ e) with Some n => Some n | None => begin (list_ e) end;
      if (following =? hand)%nat then Some [snapshot_of e x]
      else rest ← walk limit e hand following; Some (snapshot_of e x :: rest)
  end.

Definition GetObjectsInfoFromOldest (maxScanCount : nat) (e : EvictionList) : option (list Node) :=
  if (maxScanCount =? 0)%nat then Some []
  else if (length (list_ e) =? 0)%nat then Some []
  else hand ← oldest_ e; walk maxScanCount e hand hand.

(** The walk ends after one round. *)
Definition GetAllObjectsInfo (e : EvictionList) : option (list Node) :=
  if (length (list_ e) =? 0)%nat then Some []
  else hand ← oldest_ e; walk (length (list_ e)) e hand hand.

Definition IsHeatSnapshotCurrent (snapshot : Node) (e : EvictionList) : bool :=
  match heatTable_ e !! n_objectKey snapshot with
  | Some s => (hs_generation s =? n_generation snapshot) && (hs_heatUpdateSeq s =? n_heatUpdateSeq snapshot)
  | None => false
  end.

(** ** The clock *)

(** The hand decrements counters until it meets a zero; [fuel] bounds the visits. *)
Fixpoint clock_loop (fuel : nat) (e : EvictionList) : option (EvictionList * string) :=
  match fuel with
  | O => None
  | S fuel =>
      hand ← oldest_ e;
      x ← node_at (list_ e) hand;
      if ln_curCounter x =? 0 then Some (e, ln_objectKey x)
      else
        let l := update_node hand (fun x => {| ln_objectKey := ln_objectKey x; ln_curCounter := u8 (ln_curCounter x - 1); ln_maxCounter := ln_maxCounter x |}) (list_ e) in
        clock_loop fuel (with_list e l (match next hand l with Some n => Some n | None => begin l end))
  end.

Definition clock_fuel (e : EvictionList) : nat := S (Z.to_nat (foldr (fun entry s => ln_curCounter entry.2 + s) 0 (list_ e))).

Definition FindEvictCandidate (e : EvictionList) : option (EvictionList * res string) :=
  if (length (list_ e) =? 0)%nat then Some (e, Err K_RUNTIME_ERROR)
  else '(e, key) ← clock_loop (clock_fuel e) e; Some (e, Ok key).

(** ** Heat candidates *)

(** [std::push_heap], [std::pop_heap] and [std::sort] on a vector. *)
Class StdAlgorithms (A : Type) := {
  push_heap : (A -> A -> bool) -> list A -> list A;
  pop_heap : (A -> A -> bool) -> list A -> list A;
  std_sort : (A -> A -> bool) -> list A -> list A
}.

(** No element is greater than its parent. *)
Definition is_heap {A} (less : A -> A -> bool) (l : list A) : Prop :=
  forall i x y, (0 < i)%nat -> l !! ((i - 1) / 2)%nat = Some x -> l !! i = Some y -> less x y = false.

Definition weak_order_on {A} (less : A -> A -> bool) (P : A -> Prop) : Prop :=
  (forall x, P x -> less x x = false) /\
  (forall x y z, P x -> P y -> P z -> less x y = true -> less y z = true -> less x z = true) /\
  (forall x y z, P x -> P y -> P z -> less x y = false -> less y z = false -> less x z = false).

(** Their specification, for a strict weak order. *)
Class StdAlgorithmsLaws (A : Type) `{StdAlgorithms A} : Prop := {
  push_heap_spec less P l x : weak_order_on less P -> Forall P (l ++ [x]) -> is_heap less l ->
    push_heap less (l ++ [x]) ≡ₚ l ++ [x] /\ is_heap less (push_heap less (l ++ [x]));
  pop_heap_spec less P x l : weak_order_on less P -> Forall P (x :: l) -> is_heap less (x :: l) ->
    exists rest, pop_heap less (x :: l) = rest ++ [x] /\ rest ≡ₚ l /\ is_heap less rest;
  sort_spec less P l : weak_order_on less P -> Forall P l ->
    std_sort less l ≡ₚ l /\ StronglySorted (fun x y => less y x = false) (std_sort less l)
}.

Definition IsHeatCandidateProtected (node : Node) (nowMs protectionMs : Z) : bool :=
  (0 <? protectionMs) && ((nowMs <? n_lastAccessMs node) || (nowMs - n_lastAccessMs node <? protectionMs)).

Definition IsHeatCandidateLess (threshold : double) (nowMs protectionMs : Z) (left right : Node) : bool :=
  let leftProtected := IsHeatCandidateProtected left nowMs protectionMs in
  let rightProtected := IsHeatCandidateProtected right nowMs protectionMs in
  if negb (Bool.eqb leftProtected rightProtected) then negb leftProtected
  else if negb (Bool.eqb (d_lt (n_heat left) threshold) (d_lt (n_heat right) threshold)) then d_lt (n_heat left) threshold
  else if d_lt (n_heat left) (n_heat right) then true
  else if d_lt (n_heat right) (n_heat left) then false
  else n_lastAccessMs left <? n_lastAccessMs right.

Record HeatCandidateOptions := {
  recentAccessProtectionMs : Z; immediateEvictionThreshold : double; exactRankingThreshold : double;
  sizeResolver : option (string -> Z -> Z)
}.

Section candidates.
Context `{StdAlgorithms Node}.
Context (ldouble_prec ldouble_emax : Z).

Definition AddBoundedNode (node : Node) (maxCount : nat) (less : Node -> Node -> bool) (nodes : list Node) : list Node :=
  if (maxCount =? 0)%nat then nodes ++ [node]
  else if (length nodes <? maxCount)%nat then push_heap less (nodes ++ [node])
  else match nodes with
  | [] => nodes
  | front :: _ => if less node front then push_heap less (removelast (pop_heap less nodes) ++ [node]) else nodes
  end.

(** The batch of all candidates and that of the immediate ones. *)
Record Batches := { bt_res : list Node; bt_immediate : list Node; bt_found : bool }.

Definition scan_node (maxCount : nat) (less : Node -> Node -> bool) (nowMs : Z) (options : HeatCandidateOptions) (b : Batches) (snapshot : Node) : Batches :=
  if negb (IsHeatCandidateProtected snapshot nowMs (recentAccessProtectionMs options)) && d_lt (n_heat snapshot) (immediateEvictionThreshold options)
  then {| bt_res := bt_res b; bt_immediate := AddBoundedNode snapshot maxCount less (bt_immediate b); bt_found := true |}
  else if negb (bt_found b)
  then {| bt_res := AddBoundedNode snapshot maxCount less (bt_res b); bt_immediate := bt_immediate b; bt_found := bt_found b |}
  else b.

(** The nodes of the list the scan visits. *)
Definition scan_window (maxCount : nat) (options : HeatCandidateOptions) (e : EvictionList) : list (nat * ListNode) :=
  let budget := Z.min (Z.of_nat maxCount * K_HEAT_CANDIDATE_SCAN_MULTIPLIER) (2 ^ 64 - 1) in
  if isfinite (immediateEvictionThreshold options) then take (Z.to_nat budget) (list_ e) else list_ e.

Definition to_ldouble (n : Z) : spec_float := binary_normalize ldouble_prec ldouble_emax n 0 false.

Definition density_less (nowMs protectionMs : Z) (exact : double) (left right : Node) : bool :=
  let leftProtected := IsHeatCandidateProtected left nowMs protectionMs in
  let rightProtected := IsHeatCandidateProtected right nowMs protectionMs in
  if negb (Bool.eqb leftProtected rightProtected) then negb leftProtected
  else
    let leftExact := d_lt exact (n_heat left) in
    let rightExact := d_lt exact (n_heat right) in
    if negb (Bool.eqb leftExact rightExact) then negb leftExact
    else if negb leftExact && negb (Bool.eqb (0 <? n_migratableSize left) (0 <? n_migratableSize right)) then 0 <? n_migratableSize left
    else
      let density node := SFdiv ldouble_prec ldouble_emax (n_heat node) (to_ldouble (n_migratableSize node)) in
      let ranked := negb leftExact && (0 <? n_migratableSize left) in
      if ranked && SFltb (density left) (density right) then true
      else if ranked && SFltb (density right) (density left) then false
      else if d_lt (n_heat left) (n_heat right) then true
      else if d_lt (n_heat right) (n_heat left) then false
      else n_lastAccessMs left <? n_lastAccessMs right.

Definition set_size (size : Z) (node : Node) : Node :=
  {| n_objectKey := n_objectKey node; n_curCounter := n_curCounter node; n_maxCounter := n_maxCounter node; n_heat := n_heat node;
     n_lastAccessMs := n_lastAccessMs node; n_lastDelayMs := n_lastDelayMs node; n_generation := n_generation node;
     n_heatUpdateSeq := n_heatUpdateSeq node; n_migratableSize := size |}.

Definition RankHeatCandidatesByDensity (candidates : list Node) (nowMs protectionMs : Z) (exact : double) (resolver : option (string -> Z -> Z)) : list Node :=
  match resolver with
  | None => candidates
  | Some resolve =>
      if negb (existsb (fun node => d_le (n_heat node) exact) candidates) then candidates
      else std_sort (density_less nowMs protectionMs exact)
             ((fun node => if d_le (n_heat node) exact then set_size (resolve (n_objectKey node) (n_migratableSize node)) node else node) <$> candidates)
  end.

Definition GetHeatCandidates (threshold : double) (maxCount : nat) (options : HeatCandidateOptions) (nowMs : Z) (e : EvictionList) : res (list Node) :=
  if (maxCount =? 0)%nat then Ok []
  else if (length (list_ e) =? 0)%nat then Err K_RUNTIME_ERROR
  else
    let less := IsHeatCandidateLess threshold nowMs (recentAccessProtectionMs options) in
    let b := foldl (scan_node maxCount less nowMs options) {| bt_res := []; bt_immediate := []; bt_found := false |}
               (omap (fun entry => SnapshotHeatNode e entry.2) (scan_window maxCount options e)) in
    let res := std_sort less (if bool_decide (length (bt_immediate b) = 0%nat) then bt_res b else bt_immediate b) in
    Ok (RankHeatCandidatesByDensity res nowMs (recentAccessProtectionMs options) (exactRankingThreshold options) (sizeResolver options)).
End candidates.

(** ** Decay *)

Record HeatNodeMetadata := { hm_resolved : bool; hm_isPrimary : bool; hm_includeInPrimaryStats : bool; hm_primaryBytes : Z }.

Record HeatMaintenanceStats := {
  ms_scanned : nat; ms_applied : nat; ms_coldCount : Z; ms_warmCount : Z; ms_hotCount : Z; ms_totalCount : Z;
  ms_coldBytes : Z; ms_warmBytes : Z; ms_hotBytes : Z; ms_totalBytes : Z
}.
Definition no_maintenance (scanned : nat) : HeatMaintenanceStats :=
  {| ms_scanned := scanned; ms_applied := 0; ms_coldCount := 0; ms_warmCount := 0; ms_hotCount := 0; ms_totalCount := 0;
     ms_coldBytes := 0; ms_warmBytes := 0; ms_hotBytes := 0; ms_totalBytes := 0 |}.

Record HeatDecayUpdate := {
  hu_objectKey : string; hu_generation : Z; hu_snapshotHeat : double; hu_snapshotLastDelayMs : Z; hu_factor : double; hu_metadata : HeatNodeMetadata
}.

Definition SnapshotHeatNodes (e : EvictionList) : option (list Node) :=
  mapM (fun node => node)
    (omap (fun entry =>
       snapshot ← SnapshotHeatNode e entry.2;
       match indexTable_ e !! ln_objectKey entry.2, heatTable_ e !! ln_objectKey entry.2 with
       | Some node, Some s => if hs_generation s =? n_generation snapshot
                              then Some (x ← node_at (list_ e) node; Some (SnapshotNode x (Some s))) else None
       | _, _ => None
       end) (list_ e)).

Section decay.
Context (pow : double -> double -> double).

(** [resolver] returns [None] when it throws. *)
Definition decay_update (nowMs : Z) (halfLifePrimaryS halfLifeLocalS : double) (resolver : string -> option HeatNodeMetadata) (s : Node) : option HeatDecayUpdate :=
  metadata ← resolver (n_objectKey s);
  if negb (hm_resolved metadata) then None
  else
    let t := if hm_isPrimary metadata then halfLifePrimaryS else halfLifeLocalS in
    let elapsedMs := if n_lastDelayMs s <? nowMs then nowMs - n_lastDelayMs s else 0 in
    let dt := d_div (d_of_Z elapsedMs) (d_of_Z 1000) in
    Some {| hu_objectKey := n_objectKey s; hu_generation := n_generation s; hu_snapshotHeat := n_heat s;
            hu_snapshotLastDelayMs := n_lastDelayMs s; hu_factor := pow d_half (d_div dt t); hu_metadata := metadata |}.

Definition BuildHeatDecayUpdates (snapshot : list Node) (nowMs : Z) (halfLifePrimaryS halfLifeLocalS : double)
    (resolver : string -> option HeatNodeMetadata) : list HeatDecayUpdate :=
  omap (decay_update nowMs halfLifePrimaryS halfLifeLocalS resolver) snapshot.

Definition add_stats (newHeat coldThreshold hotThreshold : double) (metadata : HeatNodeMetadata) (s : HeatMaintenanceStats) : HeatMaintenanceStats :=
  let counted := hm_includeInPrimaryStats metadata in
  let cold := counted && d_lt newHeat coldThreshold in
  let hot := counted && negb (d_lt newHeat coldThreshold) && d_lt hotThreshold newHeat in
  let warm := counted && negb (d_lt newHeat coldThreshold) && negb (d_lt hotThreshold newHeat) in
  let one (b : bool) := if b then 1 else 0 in
  let bytes (b : bool) := if b then hm_primaryBytes metadata else 0 in
  {| ms_scanned := ms_scanned s; ms_applied := S (ms_applied s);
     ms_coldCount := u64 (ms_coldCount s + one cold); ms_warmCount := u64 (ms_warmCount s + one warm); ms_hotCount := u64 (ms_hotCount s + one hot);
     ms_totalCount := u64 (ms_totalCount s + one counted); ms_coldBytes := u64 (ms_coldBytes s + bytes cold);
     ms_warmBytes := u64 (ms_warmBytes s + bytes warm); ms_hotBytes := u64 (ms_hotBytes s + bytes hot); ms_totalBytes := u64 (ms_totalBytes s + bytes counted) |}.

Definition apply_decay (nowMs : Z) (coldThreshold hotThreshold : double) (st : EvictionList * HeatMaintenanceStats) (u : HeatDecayUpdate)
    : EvictionList * HeatMaintenanceStats :=
  let '(e, stats) := st in
  match heatTable_ e !! hu_objectKey u with
  | None => st
  | Some s =>
      if negb (hs_generation s =? hu_generation u) || negb (hs_lastDelayMs s =? hu_snapshotLastDelayMs u) then st
      else
        let newHeat := d_add (d_mul (hu_snapshotHeat u) (hu_factor u)) (d_sub (hs_heat s) (hu_snapshotHeat u)) in
        (modify_heat (hu_objectKey u) (fun s => set_heat newHeat (hs_lastAccessMs s) nowMs s) e,
         add_stats newHeat coldThreshold hotThreshold (hu_metadata u) stats)
  end.

Definition ApplyHeatDecayUpdates (updates : list HeatDecayUpdate) (nowMs : Z) (coldThreshold hotThreshold : double) (e : EvictionList)
    : EvictionList * HeatMaintenanceStats :=
  foldl (apply_decay nowMs coldThreshold hotThreshold) (e, no_maintenance (length updates)) updates.

(** Without operations between the snapshot and the updates. *)
Definition DecayAllAndCollect (nowMs : Z) (halfLifePrimaryS halfLifeLocalS coldThreshold hotThreshold : double)
    (resolver : string -> option HeatNodeMetadata) (e : EvictionList) : option (EvictionList * HeatMaintenanceStats) :=
  snapshot ← SnapshotHeatNodes e;
  match snapshot with
  | [] => Some (e, no_maintenance 0)
  | _ => Some (ApplyHeatDecayUpdates (BuildHeatDecayUpdates snapshot nowMs halfLifePrimaryS halfLifeLocalS resolver) nowMs coldThreshold hotThreshold e)
  end.
End decay.
