(* ===== verification/EvictionClaims.v ===== *)
(** * The eviction list stays consistent

    The index, the list, the heat table and the clock hand agree after every
    operation of a policy; the sweep of the clock hand ends, at the first node in
    clock order whose counter is least. *)

From S2P Require Import Prelude Ordered Double EvictionList.

(** ** Numbered lists *)

Section lists.
Implicit Types (l : list (nat * ListNode)) (n : nat) (x : ListNode).

Lemma evict_node_at l n x : NoDup l.*1 -> (n, x) ∈ l -> node_at l n = Some x.
Proof.
  intros Hnd Hin. unfold node_at. induction l as [|[m y] l IH]; [by apply elem_of_nil in Hin|].
  cbn [fmap list_fmap fst List.find] in *. apply NoDup_cons in Hnd as [Hm Hnd]. apply elem_of_cons in Hin as [[= -> ->]|Hin].
  - by rewrite Nat.eqb_refl.
  - destruct (Nat.eqb_spec m n) as [->|_]; [|by apply IH]. exfalso. apply Hm. by apply (list_elem_of_fmap_2 fst _ _ Hin).
Qed.

Lemma node_at_Some l n x : node_at l n = Some x -> (n, x) ∈ l.
Proof.
  unfold node_at. induction l as [|[m y] l IH]; cbn; [done|]. destruct (Nat.eqb_spec m n) as [->|_]; cbn.
  - intros [= ->]. set_solver.
  - intros E. apply elem_of_cons. right. by apply IH.
Qed.

Lemma update_split f l1 n x l2 : NoDup (l1 ++ (n, x) :: l2).*1 -> update_node n f (l1 ++ (n, x) :: l2) = l1 ++ (n, f x) :: l2.
Proof.
  intros Hnd. unfold update_node. rewrite fmap_app, fmap_cons. cbn. rewrite Nat.eqb_refl. cbn.
  assert (Hid : forall l, n ∉ l.*1 -> (fun entry : nat * ListNode => if (entry.1 =? n)%nat then (n, f entry.2) else entry) <$> l = l).
  { intros l Hn. rewrite <-(list_fmap_id l) at 2. apply list_fmap_ext. intros i [m y] Hi. cbn. destruct (Nat.eqb_spec m n) as [->|]; [|done].
    exfalso. apply Hn, (list_elem_of_fmap_2 fst l (n, y)). by eapply list_elem_of_lookup_2. }
  rewrite fmap_app, fmap_cons in Hnd. apply NoDup_app in Hnd as (_ & Hd & Hc). apply NoDup_cons in Hc as [Hc _].
  rewrite !Hid; [done|done|]. intros Hin. apply (Hd _ Hin). cbn. set_solver.
Qed.

Lemma update_ids n f l : (update_node n f l).*1 = l.*1.
Proof.
  unfold update_node. rewrite <-list_fmap_compose. apply list_fmap_ext. intros i [m y] _. cbn. by destruct (Nat.eqb_spec m n) as [->|].
Qed.

Lemma elem_update n f l m y : (m, y) ∈ update_node n f l <-> exists x, (m, x) ∈ l /\ y = if (m =? n)%nat then f x else x.
Proof.
  unfold update_node. rewrite list_elem_of_fmap. split.
  - intros ([k x] & E & Hin). cbn in E. destruct (Nat.eqb_spec k n) as [->|Hne]; injection E as -> ->; exists x; (split; [done|]).
    + by rewrite Nat.eqb_refl.
    + by rewrite (proj2 (Nat.eqb_neq _ _) Hne).
  - intros (x & Hin & ->). exists (m, x). split; [|done]. cbn. by destruct (Nat.eqb_spec m n) as [->|].
Qed.

Lemma next_split l1 n x l2 : NoDup (l1 ++ (n, x) :: l2).*1 -> next n (l1 ++ (n, x) :: l2) = begin l2.
Proof.
  induction l1 as [|[m y] l1 IH]; cbn; intros Hnd; [by rewrite Nat.eqb_refl|]. apply NoDup_cons in Hnd as [Hm Hnd].
  destruct (Nat.eqb_spec m n) as [->|]; [|by apply IH]. exfalso. apply Hm. rewrite fmap_app. cbn. set_solver.
Qed.

Lemma erase_split l1 n x l2 : NoDup (l1 ++ (n, x) :: l2).*1 -> erase n (l1 ++ (n, x) :: l2) = l1 ++ l2.
Proof.
  intros Hnd. unfold erase. rewrite List.filter_app. cbn. rewrite Nat.eqb_refl. cbn.
  assert (Hid : forall l, n ∉ l.*1 -> List.filter (fun entry : nat * ListNode => negb (entry.1 =? n)%nat) l = l).
  { induction l as [|[m y] l IH]; cbn; intros Hn; [done|]. destruct (Nat.eqb_spec m n) as [->|]; cbn; [set_solver|]. by rewrite IH by set_solver. }
  rewrite fmap_app, fmap_cons in Hnd. apply NoDup_app in Hnd as (_ & Hd & Hc). apply NoDup_cons in Hc as [Hc _].
  rewrite !Hid; [done|done|]. intros Hin. apply (Hd _ Hin). cbn. set_solver.
Qed.

Lemma emplace_perm position entry l : emplace position entry l ≡ₚ entry :: l.
Proof.
  induction l as [|x l IH]; cbn; [done|]. case_bool_decide; [done|]. rewrite IH. by constructor.
Qed.

Lemma begin_Some l : l <> [] -> exists n x, begin l = Some n /\ (n, x) ∈ l.
Proof. destruct l as [|[n x] l]; [done|]. intros _. exists n, x. split; [done|set_solver]. Qed.

Lemma begin_None l : begin l = None -> l = [].
Proof. by destruct l as [|[]]. Qed.
End lists.

(** ** The clock *)

(** The list in the order the hand visits it. *)
Definition clocked (e : EvictionList) (order : list (nat * ListNode)) : Prop :=
  exists l1 l2, list_ e = l1 ++ l2 /\ order = l2 ++ l1 /\ l2 <> [] /\ oldest_ e = begin l2 /\ NoDup (list_ e).*1.

Definition decrement (k : Z) (entry : nat * ListNode) : nat * ListNode :=
  (entry.1, {| ln_objectKey := ln_objectKey entry.2; ln_curCounter := ln_curCounter entry.2 - k; ln_maxCounter := ln_maxCounter entry.2 |}).

Abbreviation counter := (fun entry : nat * ListNode => ln_curCounter entry.2).

(** Everything but the list and the hand. *)
Definition same_tables (e e' : EvictionList) : Prop :=
  indexTable_ e' = indexTable_ e /\ heatTable_ e' = heatTable_ e /\ nextGeneration_ e' = nextGeneration_ e /\ nextNode e' = nextNode e.

Lemma clocked_advance e n x rest f : clocked e ((n, x) :: rest) ->
  let l := update_node n f (list_ e) in
  clocked (with_list e l (match next n l with Some m => Some m | None => begin l end)) (rest ++ [(n, f x)]).
Proof.
  intros (l1 & l2 & Hl & Ho & Hne & Hhand & Hnd) l. destruct l2 as [|[n' x'] l2]; [done|]. injection Ho as -> -> ->.
  assert (El : l = l1 ++ (n', f x') :: l2) by (unfold l; rewrite Hl in *; by apply update_split).
  assert (Hnd' : NoDup (l1 ++ (n', f x') :: l2).*1) by (rewrite <-El; unfold l; by rewrite update_ids).
  rewrite El, (next_split _ _ _ _ Hnd'). destruct l2 as [|[m y] l2]; cbn [begin head fmap option_fmap option_map fst].
  - exists [], (l1 ++ [(n', f x')]). cbn. split_and!; [done|by rewrite app_nil_r|by destruct l1|done|done].
  - exists (l1 ++ [(n', f x')]), ((m, y) :: l2). cbn. rewrite <-!app_assoc. split_and!; [done|done|done|done|done].
Qed.

Lemma u8_dec c : 0 < c <= 255 -> u8 (c - 1) = c - 1.
Proof. intros Hc. unfold u8. apply Z.mod_small. lia. Qed.

(** The hand passes nodes with positive counters. *)
Lemma clock_prefix pre : forall post e, clocked e (pre ++ post) -> Forall (fun entry => 0 < counter entry <= 255) pre ->
  exists e', clocked e' (post ++ (decrement 1 <$> pre)) /\ same_tables e e' /\
    forall fuel, clock_loop (length pre + fuel) e = clock_loop fuel e'.
Proof.
  induction pre as [|[n x] pre IH]; intros post e Hc Hpos.
  - exists e. cbn. rewrite app_nil_r. done.
  - apply Forall_cons in Hpos as [Hx Hpos]. cbn [snd] in Hx.
    pose (f := fun x => {| ln_objectKey := ln_objectKey x; ln_curCounter := u8 (ln_curCounter x - 1); ln_maxCounter := ln_maxCounter x |}).
    pose proof (clocked_advance e n x (pre ++ post) f Hc) as Hadv. cbv zeta in Hadv. rewrite <-app_assoc in Hadv.
    destruct (IH (post ++ [(n, f x)]) _ Hadv Hpos) as (e' & Hc' & Hsame & Hloop). exists e'. split_and!.
    + rewrite <-app_assoc in Hc'. cbn in Hc' |- *. unfold decrement at 1. cbn. unfold f in Hc'. rewrite u8_dec in Hc' by done. done.
    + done.
    + intros fuel. cbn [length Nat.add]. rewrite <-Hloop. cbn [clock_loop]. destruct Hc as (l1 & l2 & Hl & Ho & Hne & Hhand & Hnd).
      destruct l2 as [|[n' x'] l2]; [done|]. injection Ho as -> -> _. rewrite Hhand. cbn [begin head fmap option_fmap option_map fst mbind option_bind].
      rewrite (evict_node_at (list_ e) n' x') by (done || (rewrite Hl; set_solver)). cbn [mbind option_bind].
      by rewrite (proj2 (Z.eqb_neq _ _)) by lia.
Qed.

Lemma decrement_add a b (l : list (nat * ListNode)) : decrement a <$> (decrement b <$> l) = decrement (b + a) <$> l.
Proof.
  rewrite <-list_fmap_compose. apply list_fmap_ext. intros i [n x] _. unfold decrement. cbn. do 2 f_equal. lia.
Qed.

Lemma decrement_zero (l : list (nat * ListNode)) : decrement 0 <$> l = l.
Proof.
  rewrite <-(list_fmap_id l) at 2. apply list_fmap_ext. intros i [n [k c m]] _. unfold decrement. cbn. do 2 f_equal. lia.
Qed.

(** The sweep over a list whose first least counter is that of [x]. *)
Lemma clock_sweep m : forall e before n x after, clocked e (before ++ (n, x) :: after) -> ln_curCounter x = Z.of_nat m ->
  Forall (fun entry => Z.of_nat m < counter entry <= 255) before -> Forall (fun entry => Z.of_nat m <= counter entry <= 255) after -> (m <= 255)%nat ->
  exists e', clocked e' ((decrement (Z.of_nat m) <$> (n, x) :: after) ++ (decrement (Z.of_nat m + 1) <$> before)) /\ same_tables e e' /\
    forall fuel, clock_loop (m * length (before ++ (n, x) :: after) + length before + S fuel) e = Some (e', ln_objectKey x).
Proof.
  induction m as [|m IH]; intros e before n x after Hc Hx Hb Ha Hm.
  - destruct (clock_prefix before ((n, x) :: after) e Hc) as (e' & Hc' & Hs & Hloop); [eapply Forall_impl; [exact Hb|]; cbn; lia|].
    exists e'. rewrite decrement_zero. split_and!; [done|done|]. intros fuel. cbn [Nat.mul Nat.add]. rewrite Hloop. cbn [clock_loop].
    destruct Hc' as (l1 & l2 & Hl & Ho & Hne & Hhand & Hnd). destruct l2 as [|[n' x'] l2]; [done|]. injection Ho as <- <- _.
    rewrite Hhand. cbn [begin head fmap option_fmap option_map fst mbind option_bind]. rewrite (evict_node_at (list_ e') n x) by (done || (rewrite Hl; set_solver)).
    cbn [mbind option_bind]. by rewrite Hx.
  - set (order := before ++ (n, x) :: after) in *.
    destruct (clock_prefix order [] e) as (e1 & Hc1 & Hs1 & Hloop1).
    { by rewrite app_nil_r. }
    { unfold order. apply Forall_app. split; [eapply Forall_impl; [exact Hb|]; cbn; lia|]. constructor; [cbn; lia|]. eapply Forall_impl; [exact Ha|]. cbn. lia. }
    cbn [app] in Hc1. unfold order in Hc1. rewrite fmap_app, fmap_cons in Hc1.
    destruct (IH e1 (decrement 1 <$> before) n (decrement 1 (n, x)).2 (decrement 1 <$> after)) as (e' & Hc' & Hs' & Hloop'); [exact Hc1|cbn; lia| | |lia|].
    + apply Forall_fmap. eapply Forall_impl; [exact Hb|]. cbn. lia.
    + apply Forall_fmap. eapply Forall_impl; [exact Ha|]. cbn. lia.
    + exists e'. split_and!.
      * change ((n, (decrement 1 (n, x)).2) :: (decrement 1 <$> after)) with (decrement 1 <$> (n, x) :: after) in Hc'.
        rewrite !decrement_add in Hc'. replace (Z.of_nat (S m)) with (1 + Z.of_nat m) by lia. by replace (1 + Z.of_nat m + 1) with (1 + (Z.of_nat m + 1)) by lia.
      * unfold same_tables in *. intuition congruence.
      * intros fuel. specialize (Hloop' fuel). rewrite length_app, length_cons, !length_fmap in Hloop'.
        replace (S m * length order + length before + S fuel)%nat with (length order + (m * length order + length before + S fuel))%nat by lia.
        rewrite Hloop1. unfold order. by rewrite length_app, length_cons.
Qed.

(** The first least element. *)
Lemma first_least (order : list (nat * ListNode)) : order <> [] -> exists before n x after, order = before ++ (n, x) :: after /\
  Forall (fun entry => ln_curCounter x < counter entry) before /\ Forall (fun entry => ln_curCounter x <= counter entry) after.
Proof.
  induction order as [|[n x] order IH]; [done|]. intros _. destruct order as [|y order].
  - exists [], n, x, []. split_and!; [done|constructor|constructor].
  - destruct IH as (before & m & z & after & E & Hb & Ha); [done|]. rewrite E. destruct (Z.le_gt_cases (ln_curCounter x) (ln_curCounter z)) as [Hle|Hgt].
    + exists [], n, x, (before ++ (m, z) :: after). split_and!; [done|constructor|]. apply Forall_app. split; [eapply Forall_impl; [exact Hb|]; cbn; lia|].
      constructor; [cbn; lia|]. eapply Forall_impl; [exact Ha|]. cbn. lia.
    + exists ((n, x) :: before), m, z, after. split_and!; [done|constructor; [cbn; lia|done]|done].
Qed.

Lemma counter_sum (order : list (nat * ListNode)) k : 0 <= k -> Forall (fun entry => k <= counter entry) order ->
  k * Z.of_nat (length order) <= foldr (fun entry s => ln_curCounter entry.2 + s) 0 order.
Proof. intros Hk. induction 1 as [|y l Hy _ IH]; cbn [foldr length]; [lia|]. cbn in Hy. lia. Qed.

Lemma sum_app (l1 l2 : list (nat * ListNode)) : foldr (fun entry s => ln_curCounter entry.2 + s) 0 (l1 ++ l2) =
  foldr (fun entry s => ln_curCounter entry.2 + s) 0 l1 + foldr (fun entry s => ln_curCounter entry.2 + s) 0 l2.
Proof. induction l1 as [|y l1 IH]; cbn [foldr app]; lia. Qed.

(** ** The invariant *)

Definition counters_ok (x : ListNode) : Prop := 0 <= ln_curCounter x <= ln_maxCounter x /\ ln_maxCounter x <= 255.

Record base_ok (e : EvictionList) : Prop := {
  bo_ids : NoDup (list_ e).*1;
  bo_next n : n ∈ (list_ e).*1 -> (n < nextNode e)%nat;
  bo_index key n : indexTable_ e !! key = Some n <-> exists x, (n, x) ∈ list_ e /\ ln_objectKey x = key;
  bo_hand : (list_ e = [] /\ oldest_ e = None) \/ exists n, oldest_ e = Some n /\ n ∈ (list_ e).*1;
  bo_counters n x : (n, x) ∈ list_ e -> counters_ok x
}.

Record evict_ok (kind : StateKind) (e : EvictionList) : Prop := {
  eo_base : base_ok e;
  eo_heat : dom (heatTable_ e) = if bool_decide (kind = HEAT) then dom (indexTable_ e) else ∅
}.

Lemma base_unique e n m x : base_ok e -> (n, x) ∈ list_ e -> forall y, (m, y) ∈ list_ e -> ln_objectKey y = ln_objectKey x -> m = n /\ y = x.
Proof.
  intros Hok Hx y Hy Hk. assert (E1 : indexTable_ e !! ln_objectKey x = Some n) by (apply (bo_index _ Hok); eauto).
  assert (E2 : indexTable_ e !! ln_objectKey x = Some m) by (apply (bo_index _ Hok); eauto).
  assert (n = m) as <- by congruence. split; [done|]. pose proof (evict_node_at _ _ _ (bo_ids _ Hok) Hx) as E3.
  rewrite (evict_node_at _ _ _ (bo_ids _ Hok) Hy) in E3. congruence.
Qed.

Lemma base_with e e' : base_ok e -> list_ e' = list_ e -> oldest_ e' = oldest_ e -> indexTable_ e' = indexTable_ e -> nextNode e' = nextNode e -> base_ok e'.
Proof. intros [? ? ? ? ?] E1 E2 E3 E4. constructor; rewrite ?E1, ?E2, ?E3, ?E4; done. Qed.

Lemma base_link position node e : base_ok e -> indexTable_ e !! ln_objectKey node = None -> counters_ok node -> base_ok (link position node e).
Proof.
  intros [Hi Hn Hx Hh Hc] Hfree Hcount. pose proof (emplace_perm position (nextNode e, node) (list_ e)) as Hp.
  assert (Hfresh : nextNode e ∉ (list_ e).*1) by (intros Hin%Hn; lia).
  assert (Hids : (emplace position (nextNode e, node) (list_ e)).*1 ≡ₚ nextNode e :: (list_ e).*1) by (by rewrite Hp).
  assert (Hmem : forall n x, (n, x) ∈ emplace position (nextNode e, node) (list_ e) <-> (n, x) ∈ (nextNode e, node) :: list_ e) by (intros; by rewrite Hp).
  constructor; cbn.
  - rewrite Hids. by constructor.
  - intros n. rewrite Hids, elem_of_cons. intros [->|Hin%Hn]; lia.
  - intros key n. rewrite (lookup_insert_Some (indexTable_ e)). split.
    + intros [[<- <-]|[Hne Hl]]; [exists node; split; [apply Hmem; set_solver|done]|]. apply Hx in Hl as (x & Hin & Hk). exists x.
      split; [apply Hmem; set_solver|done].
    + intros (x & Hin & Hk). apply Hmem in Hin. apply elem_of_cons in Hin as [[= -> ->]|Hin]; [by left|]. right.
      assert (Hl : indexTable_ e !! key = Some n) by (apply Hx; eauto). split; [|done]. intros <-. congruence.
  - right. assert (Hlen : length (emplace position (nextNode e, node) (list_ e)) = S (length (list_ e))) by (by rewrite Hp).
    rewrite Hlen. destruct (Nat.eqb_spec (S (length (list_ e))) 1) as [E|E].
    + exists (nextNode e). split; [done|]. rewrite Hids. set_solver.
    + destruct Hh as [[E' _]|(n & Hl & Hin)]; [by rewrite E' in E|]. exists n. split; [done|]. rewrite Hids. set_solver.
  - intros n x Hin. apply Hmem in Hin. apply elem_of_cons in Hin as [[= -> ->]|Hin]; [done|by eapply Hc].
Qed.

Lemma base_update n f e : base_ok e -> (forall x, ln_objectKey (f x) = ln_objectKey x) -> (forall x, counters_ok x -> counters_ok (f x)) ->
  base_ok (with_list e (update_node n f (list_ e)) (oldest_ e)).
Proof.
  intros [Hi Hn Hx Hh Hc] Hf Hcf. constructor; cbn; rewrite ?update_ids; try done.
  - intros key m. rewrite Hx. split.
    + intros (x & Hin & Hk). eexists. split; [apply elem_update; by exists x|]. case_match; by rewrite ?Hf.
    + intros (y & (x & Hin & ->)%elem_update & Hk). exists x. split; [done|]. revert Hk. case_match; by rewrite ?Hf.
  - destruct Hh as [[E ?]|?]; [left|by right]. by rewrite E.
  - intros m y. rewrite elem_update. intros (x & Hin & ->). case_match; [apply Hcf|]; by eapply Hc.
Qed.

Lemma erase_ok objectKey e : base_ok e -> exists e' r, EraseInternal objectKey e = Some (e', r) /\ base_ok e' /\
  match r with
  | Ok snapshot => n_objectKey snapshot = objectKey /\ is_Some (indexTable_ e !! objectKey) /\
      indexTable_ e' = delete objectKey (indexTable_ e) /\ heatTable_ e' = delete objectKey (heatTable_ e)
  | Err _ => e' = e /\ indexTable_ e !! objectKey = None
  end.
Proof.
  intros Hok. unfold EraseInternal. destruct (indexTable_ e !! objectKey) as [n|] eqn:Hl; [|by do 2 eexists].
  destruct Hok as [Hi Hn Hx Hh Hc] eqn:Eok. clear Eok. destruct (proj1 (Hx _ _) Hl) as (x & Hin & Hk).
  rewrite (evict_node_at _ _ _ Hi Hin). cbn [mbind option_bind]. destruct Hh as [[E _]|(hand & Hhand & Hhin)]; [rewrite E in Hin; by apply elem_of_nil in Hin|].
  rewrite Hhand. cbn [mbind option_bind]. apply list_elem_of_fmap in Hhin as ([h y] & E & Hy). cbn in E. subst h. rewrite (evict_node_at _ _ _ Hi Hy). cbn [mbind option_bind].
  pose proof Hin as Hsplit. apply list_elem_of_split in Hsplit as (l1 & l2 & El).
  assert (Hi' : NoDup (l1 ++ (n, x) :: l2).*1) by (by rewrite <-El). assert (Eer : erase n (list_ e) = l1 ++ l2) by (rewrite El; by apply erase_split).
  assert (Hsub : forall m z, (m, z) ∈ l1 ++ l2 <-> (m, z) ∈ list_ e /\ m <> n).
  { intros m z. rewrite El. rewrite fmap_app, fmap_cons in Hi'. apply NoDup_app in Hi' as (_ & Hd & Hc'). apply NoDup_cons in Hc' as [Hc' _]. cbn in *.
    rewrite !elem_of_app, elem_of_cons. split.
    - intros Hm. split; [set_solver|]. intros ->. destruct Hm as [Hm|Hm]; apply (list_elem_of_fmap_2 fst) in Hm; cbn in Hm; [apply (Hd _ Hm); set_solver|done].
    - intros [[?|[[= -> ->]|?]] ?]; [by left|done|by right]. }
  do 2 eexists. split; [done|]. split; [|split_and!; [done|by exists n|done|done]]. rewrite Eer. constructor; cbn.
  - rewrite fmap_app in *. rewrite fmap_cons in Hi'. apply NoDup_app in Hi' as (H1 & Hd & H2). apply NoDup_cons in H2 as [_ H2]. apply NoDup_app. split_and!; [done| |done]. set_solver.
  - intros m Hm. apply list_elem_of_fmap in Hm as ([m' z] & -> & Hm). apply Hsub in Hm as [Hm _]. apply Hn, (list_elem_of_fmap_2 fst _ _ Hm).
  - intros key m. rewrite lookup_delete_Some, Hx. split.
    + intros [Hne (z & Hz & Hzk)]. exists z. split; [|done]. apply Hsub. split; [done|]. intros ->. apply Hne. pose proof (evict_node_at _ _ _ Hi Hz) as E1.
      rewrite (evict_node_at _ _ _ Hi Hin) in E1. congruence.
    + intros (z & (Hz & Hne)%Hsub & Hzk). split; [|eauto]. intros <-. assert (E1 : indexTable_ e !! objectKey = Some m) by (apply Hx; eauto). congruence.
  - assert (Hbegin : forall l, (l = [] /\ begin l = None) \/ exists k, begin l = Some k /\ k ∈ l.*1) by (intros [|[k z] l]; [by left|right; exists k; split; [done|set_solver]]).
    case_bool_decide as Hkey.
    + assert (hand = n /\ y = x) as [-> ->].
      { eapply base_unique; [|done|done|congruence]. by constructor; [| | |right; exists hand; split; [|apply (list_elem_of_fmap_2 fst _ _ Hy)]|]. }
      rewrite El, (next_split _ _ _ _ Hi'). destruct (begin l2) as [k|] eqn:Eb; [|apply Hbegin].
      right. exists k. split; [done|]. destruct (Hbegin l2) as [[_ ?]|(k' & E2 & Hk')]; [congruence|]. rewrite fmap_app. set_solver.
    + right. exists hand. split; [done|]. assert (Hh : (hand, y) ∈ l1 ++ l2); [|by apply (list_elem_of_fmap_2 fst _ _ Hh)]. apply Hsub. split; [done|].
      intros ->. apply Hkey. pose proof (evict_node_at _ _ _ Hi Hy) as E1. rewrite (evict_node_at _ _ _ Hi Hin) in E1. congruence.
  - intros m z Hz. apply Hsub in Hz as [Hz _]. by eapply Hc.
Qed.

(** ** The clock keeps the list *)

Lemma clocked_of e : base_ok e -> list_ e <> [] -> exists order, clocked e order.
Proof.
  intros Hok Hne. destruct (bo_hand _ Hok) as [[? _]|(n & Hh & Hin)]; [done|]. apply list_elem_of_fmap in Hin as ([m x] & -> & Hin).
  apply list_elem_of_split in Hin as (l1 & l2 & E). exists (((m, x) :: l2) ++ l1), l1, ((m, x) :: l2). split_and!; [done|done|done|done|apply Hok].
Qed.

Lemma clocked_elem e order entry : clocked e order -> entry ∈ list_ e <-> entry ∈ order.
Proof. intros (l1 & l2 & -> & -> & _). rewrite !elem_of_app. tauto. Qed.

Lemma clocked_base e e' order order' : base_ok e -> clocked e order -> clocked e' order' -> same_tables e e' ->
  (forall n y, (n, y) ∈ order' -> exists x, (n, x) ∈ order /\ ln_objectKey y = ln_objectKey x /\ counters_ok y) ->
  (forall n x, (n, x) ∈ order -> exists y, (n, y) ∈ order' /\ ln_objectKey y = ln_objectKey x) -> base_ok e'.
Proof.
  intros [Hi Hn Hx Hh Hc] Hcl Hcl' (Eix & _ & _ & Enx) Hback Hforth. constructor.
  - by destruct Hcl' as (? & ? & _ & _ & _ & _ & ?).
  - intros n Hin. apply list_elem_of_fmap in Hin as ([m y] & -> & Hin). apply (clocked_elem _ _ _ Hcl') in Hin. destruct (Hback _ _ Hin) as (x & Hxo & _).
    rewrite Enx. apply Hn. apply (clocked_elem _ _ _ Hcl) in Hxo. apply (list_elem_of_fmap_2 fst _ _ Hxo).
  - intros key n. rewrite Eix, Hx. split.
    + intros (x & Hin & Hk). apply (clocked_elem _ _ _ Hcl), Hforth in Hin as (y & Hy & Hyk). exists y. split; [by apply (clocked_elem _ _ _ Hcl')|congruence].
    + intros (y & Hin & Hk). apply (clocked_elem _ _ _ Hcl'), Hback in Hin as (x & Hxo & Hxk & _). exists x. split; [by apply (clocked_elem _ _ _ Hcl)|congruence].
  - right. destruct Hcl' as (l1 & l2 & El & _ & Hne & Hhand & _). destruct (begin_Some l2 Hne) as (n & x & Hb & Hin). exists n. split; [congruence|].
    rewrite El, fmap_app. apply elem_of_app. right. apply (list_elem_of_fmap_2 fst _ _ Hin).
  - intros n y Hin. apply (clocked_elem _ _ _ Hcl'), Hback in Hin as (x & _ & _ & ?). done.
Qed.

(** The result of a sweep. *)
Record swept (e e' : EvictionList) (key : string) : Prop := {
  sw_tables : same_tables e e';
  sw_least : exists before n x after, clocked e (before ++ (n, x) :: after) /\ key = ln_objectKey x /\
    Forall (fun entry => ln_curCounter x < counter entry) before /\ Forall (fun entry => ln_curCounter x <= counter entry) after /\
    clocked e' ((decrement (ln_curCounter x) <$> (n, x) :: after) ++ (decrement (ln_curCounter x + 1) <$> before))
}.

Lemma find_swept e : base_ok e -> list_ e <> [] -> exists e' key, FindEvictCandidate e = Some (e', Ok key) /\ swept e e' key.
Proof.
  intros Hok Hne. destruct (clocked_of e Hok Hne) as [order Hcl]. assert (Hone : order <> []).
  { destruct Hcl as (l1 & l2 & _ & -> & Hl2 & _). by destruct l2. }
  destruct (first_least order Hone) as (before & n & x & after & -> & Hb & Ha).
  assert (Hall : Forall (fun entry => counters_ok entry.2) (before ++ (n, x) :: after)).
  { apply Forall_forall. intros [m y] Hin. apply (clocked_elem _ _ _ Hcl) in Hin. by apply (bo_counters _ Hok) in Hin. }
  assert (Hx : counters_ok x) by (rewrite Forall_forall in Hall; apply (Hall (n, x)); set_solver). unfold counters_ok in Hx.
  set (m := Z.to_nat (ln_curCounter x)). assert (Hm : ln_curCounter x = Z.of_nat m) by lia.
  apply Forall_app in Hall as [Hallb Halla]. apply Forall_cons in Halla as [_ Halla].
  destruct (clock_sweep m e before n x after Hcl Hm) as (e' & Hcl' & Hs & Hloop).
  { apply Forall_forall. intros y Hy. rewrite Forall_forall in Hb, Hallb. specialize (Hb y Hy). specialize (Hallb y Hy). unfold counters_ok in Hallb. cbn in *. lia. }
  { apply Forall_forall. intros y Hy. rewrite Forall_forall in Ha, Halla. specialize (Ha y Hy). specialize (Halla y Hy). unfold counters_ok in Halla. cbn in *. lia. }
  { lia. }
  rewrite <-Hm in Hcl'. exists e', (ln_objectKey x). split.
  - unfold FindEvictCandidate. destruct (Nat.eqb_spec (length (list_ e)) 0) as [E|_]; [by apply nil_length_inv in E|].
    assert (Hfuel : exists extra, clock_fuel e = (m * length (before ++ (n, x) :: after) + length before + S extra)%nat).
    { exists (clock_fuel e - (m * length (before ++ (n, x) :: after) + length before) - 1)%nat.
      assert (m * length (before ++ (n, x) :: after) + length before < clock_fuel e)%nat; [|lia]. unfold clock_fuel.
      assert (Hsum : foldr (fun entry s => ln_curCounter entry.2 + s) 0 (list_ e) = foldr (fun entry s => ln_curCounter entry.2 + s) 0 (before ++ (n, x) :: after)).
      { destruct Hcl as (l1 & l2 & El & Eo & _). rewrite El, Eo, !sum_app. lia. }
      rewrite Hsum, sum_app. cbn [foldr]. pose proof (counter_sum before (Z.of_nat m + 1) ltac:(lia)) as S1. pose proof (counter_sum after (Z.of_nat m) ltac:(lia)) as S2.
      rewrite length_app, length_cons. cbn [snd] in *. specialize (S1 ltac:(eapply Forall_impl; [exact Hb|]; cbn; lia)). specialize (S2 ltac:(eapply Forall_impl; [exact Ha|]; cbn; lia)). nia. }
    destruct Hfuel as [extra ->]. by rewrite Hloop.
  - constructor; [done|]. by exists before, n, x, after.
Qed.

Lemma swept_base e e' key : base_ok e -> swept e e' key -> base_ok e'.
Proof.
  intros Hok [Hs (before & n & x & after & Hcl & _ & Hb & Ha & Hcl')]. eapply clocked_base; [done|exact Hcl|exact Hcl'|done| |].
  - assert (Hd : forall k y m z, 0 <= k <= ln_curCounter y -> (m, y) ∈ before ++ (n, x) :: after -> (m, z) = decrement k (m, y) ->
      exists x0, (m, x0) ∈ before ++ (n, x) :: after /\ ln_objectKey z = ln_objectKey x0 /\ counters_ok z).
    { intros k y m z Hk Hin [= ->]. exists y. split_and!; [done|done|]. apply (clocked_elem _ _ _ Hcl), (bo_counters _ Hok) in Hin. unfold counters_ok in *. cbn. lia. }
    assert (Hx0 : 0 <= ln_curCounter x). { assert (Hin : (n, x) ∈ list_ e) by (apply (clocked_elem _ _ _ Hcl); set_solver). by apply (bo_counters _ Hok) in Hin as [[] _]. }
    intros m z Hin. apply elem_of_app in Hin as [Hin|Hin]; apply list_elem_of_fmap in Hin as ([m' y] & E & Hin); cbn in E; injection E as -> Ez.
    + eapply (Hd (ln_curCounter x) y); [|set_solver|by rewrite Ez]. apply elem_of_cons in Hin as [[= _ ->]|Hin]; [lia|]. rewrite Forall_forall in Ha. specialize (Ha _ Hin). cbn in Ha. lia.
    + eapply (Hd (ln_curCounter x + 1) y); [|set_solver|by rewrite Ez]. rewrite Forall_forall in Hb. specialize (Hb _ Hin). cbn in Hb. lia.
  - intros m y Hin. apply elem_of_app in Hin as [Hin|Hin].
    + exists (decrement (ln_curCounter x + 1) (m, y)).2. split; [|done]. apply elem_of_app. right. apply list_elem_of_fmap. by exists (m, y).
    + exists (decrement (ln_curCounter x) (m, y)).2. split; [|done]. apply elem_of_app. left. apply list_elem_of_fmap. by exists (m, y).
Qed.

(** ** Operations of a policy *)

Inductive Op :=
  | OpAdd (objectKey : string) (count : Z)
  | OpErase (objectKey : string)
  | OpRestore (snapshot : Node)
  | OpMerge (snapshot : Node) (heatCap : double) (mode : HeatMergeMode)
  | OpFind
  | OpAddHeat (objectKey : string) (heat : double) (nowMs : Z)
  | OpTouch (objectKey : string) (insertHeat increment cap : double) (nowMs : Z)
  | OpMigrated (objectKey : string) (heat cap : double) (nowMs : Z) (mergeExisting : bool)
  | OpReinsert (objectKey : string) (heat : double) (nowMs : Z)
  | OpDecay (updates : list HeatDecayUpdate) (nowMs : Z) (coldThreshold hotThreshold : double).

(** A decay applies updates computed from any earlier snapshot. *)
Definition apply_op (kind : StateKind) (op : Op) (e : EvictionList) : option EvictionList :=
  match op with
  | OpAdd key count => Add key count e
  | OpErase key => fst <$> Erase key e
  | OpRestore snapshot => Some (Restore snapshot e).1
  | OpMerge snapshot cap mode => fst <$> InsertOrMerge snapshot kind cap mode e
  | OpFind => fst <$> FindEvictCandidate e
  | OpAddHeat key heat now => Some (AddHeatNode key heat now e)
  | OpTouch key insertHeat increment cap now => Some (TouchHeatNode key insertHeat increment cap now e)
  | OpMigrated key heat cap now merge => Some (ApplyMigratedHeat key heat cap now merge e).1
  | OpReinsert key heat now => Some (ReinsertHot key heat now e)
  | OpDecay updates now cold hot => Some (ApplyHeatDecayUpdates updates now cold hot e).1
  end.

Definition snapshot_ok (snapshot : Node) : Prop := counters_ok (node_of snapshot).

(** The operations of the clock and of the heat policy. *)
Definition admissible (kind : StateKind) (op : Op) : Prop :=
  match op with
  | OpAdd _ count => kind = CLOCK /\ 0 <= count <= 255
  | OpErase _ => True
  | OpRestore snapshot => snapshot_ok snapshot /\ (n_generation snapshot <> 0 <-> kind = HEAT)
  | OpMerge snapshot _ _ => snapshot_ok snapshot
  | OpFind => kind = CLOCK
  | _ => kind = HEAT
  end.

Definition run_ops (kind : StateKind) (ops : list Op) (e : EvictionList) : option EvictionList :=
  foldl (fun e op => e ≫= apply_op kind op) (Some e) ops.

Lemma dom_alter_heat key f e : dom (heatTable_ (modify_heat key f e)) = dom (heatTable_ e).
Proof. cbn. apply dom_alter_L. Qed.

Lemma modify_ok kind key f e : evict_ok kind e -> evict_ok kind (modify_heat key f e).
Proof. intros [Hb Hh]. constructor; [by eapply base_with|]. by rewrite dom_alter_heat. Qed.

Lemma heat_free kind e key : evict_ok kind e -> indexTable_ e !! key = None -> heatTable_ e !! key = None.
Proof.
  intros [_ Hh] Hi. apply not_elem_of_dom. rewrite Hh. case_bool_decide; [|set_solver]. by apply not_elem_of_dom.
Qed.

(** A key enters the list together with its heat state. *)
Lemma enter_ok position node heat e e1 : evict_ok HEAT e -> indexTable_ e !! ln_objectKey node = None -> counters_ok node ->
  list_ e1 = list_ e -> oldest_ e1 = oldest_ e -> indexTable_ e1 = indexTable_ e -> nextNode e1 = nextNode e ->
  heatTable_ e1 = <[ln_objectKey node := heat]> (heatTable_ e) -> evict_ok HEAT (link position node e1).
Proof.
  intros [Hb Hh] Hi Hc E1 E2 E3 E4 E5. constructor.
  - apply base_link; [by eapply base_with|by rewrite E3|done].
  - cbn. rewrite E5, E3, !dom_insert_L. cbn in Hh. by rewrite Hh.
Qed.

Lemma insert_heat_ok key heat now e : evict_ok HEAT e -> indexTable_ e !! key = None -> evict_ok HEAT (InsertHeatNode key heat now e).1.
Proof.
  intros Hok Hi. unfold InsertHeatNode. cbv zeta. cbn [heatTable_ next_generation]. rewrite (heat_free _ _ _ Hok Hi). cbn [fst].
  eapply enter_ok; [exact Hok|done| |done..]. unfold counters_ok. cbn. lia.
Qed.

Lemma clock_link_ok position node e : evict_ok CLOCK e -> indexTable_ e !! ln_objectKey node = None -> counters_ok node -> evict_ok CLOCK (link position node e).
Proof. intros [Hb Hh] Hi Hc. constructor; [by apply base_link|done]. Qed.

Lemma update_ok kind n f e : evict_ok kind e -> (forall x, ln_objectKey (f x) = ln_objectKey x) -> (forall x, counters_ok x -> counters_ok (f x)) ->
  evict_ok kind (with_list e (update_node n f (list_ e)) (oldest_ e)).
Proof. intros [Hb Hh] Hf Hc. constructor; [by apply base_update|done]. Qed.

Lemma index_node kind e key n : evict_ok kind e -> indexTable_ e !! key = Some n -> exists x, node_at (list_ e) n = Some x /\ ln_objectKey x = key.
Proof.
  intros [Hb _] Hl. apply (bo_index _ Hb) in Hl as (x & Hin & Hk). exists x. split; [|done]. apply evict_node_at; [apply Hb|done].
Qed.

Lemma add_ok key count e : evict_ok CLOCK e -> 0 <= count <= 255 -> exists e', Add key count e = Some e' /\ evict_ok CLOCK e'.
Proof.
  intros Hok Hc. unfold Add. destruct (indexTable_ e !! key) as [n|] eqn:Hl.
  - destruct (index_node _ _ _ _ Hok Hl) as (x & Hx & _). rewrite Hx. eexists. split; [done|]. apply update_ok; [done|done|].
    intros y Hy. unfold counters_ok in *. cbn. destruct (Z.ltb_spec (ln_curCounter y) (ln_maxCounter y)); [|lia]. unfold u8. rewrite Z.mod_small; lia.
  - eexists. split; [done|]. apply clock_link_ok; [done|done|]. unfold counters_ok. cbn. lia.
Qed.

Lemma erase_keeps kind key e : evict_ok kind e -> exists e', fst <$> Erase key e = Some e' /\ evict_ok kind e'.
Proof.
  intros [Hb Hh]. unfold Erase. destruct (erase_ok key e Hb) as (e' & r & -> & Hb' & Hr). exists e'. split; [done|]. constructor; [done|].
  destruct r as [snapshot|code]; [destruct Hr as (_ & _ & -> & ->)|by destruct Hr as [-> _]]. rewrite !dom_delete_L, Hh. case_bool_decide; [done|set_solver].
Qed.

Lemma restore_ok kind snapshot e : evict_ok kind e -> admissible kind (OpRestore snapshot) -> evict_ok kind (Restore snapshot e).1.
Proof.
  intros Hok [Hs Hg]. unfold Restore. destruct (indexTable_ e !! n_objectKey snapshot) as [n|] eqn:Hl; [done|].
  destruct (Z.eqb_spec (n_generation snapshot) 0) as [E|E]; cbn [negb].
  - destruct kind; [by apply clock_link_ok|by apply Hg in E].
  - assert (kind = HEAT) as -> by by apply Hg. rewrite (heat_free _ _ _ Hok Hl). cbn [fst]. by eapply enter_ok.
Qed.

Lemma merge_clock_ok snapshot e : evict_ok CLOCK e -> snapshot_ok snapshot -> exists e' r, InsertClockSnapshot snapshot e = Some (e', r) /\ evict_ok CLOCK e'.
Proof.
  intros Hok Hs. unfold InsertClockSnapshot. destruct (indexTable_ e !! n_objectKey snapshot) as [n|] eqn:Hl.
  - destruct (has_value _); [by do 2 eexists|]. destruct (index_node _ _ _ _ Hok Hl) as (x & Hx & _). rewrite Hx. do 2 eexists. split; [done|].
    apply update_ok; [done|done|]. intros y Hy. unfold snapshot_ok, counters_ok in *. cbn in *. lia.
  - do 2 eexists. split; [done|]. by apply clock_link_ok.
Qed.

Lemma merge_heat_ok snapshot cap mode e : evict_ok HEAT e -> snapshot_ok snapshot -> evict_ok HEAT (InsertHeatSnapshot snapshot cap mode e).1.
Proof.
  intros Hok Hs. unfold InsertHeatSnapshot. destruct (negb _); [done|]. destruct (indexTable_ e !! n_objectKey snapshot) as [n|] eqn:Hl.
  - unfold MergeHeatSnapshot. destruct (heatTable_ e !! _); [|done]. cbn [fst]. by apply modify_ok.
  - cbv zeta. cbn [heatTable_ next_generation]. rewrite (heat_free _ _ _ Hok Hl). cbn [fst]. eapply enter_ok; [exact Hok|done| |done..]. unfold counters_ok. cbn. lia.
Qed.

Lemma decay_ok updates now cold hot e : evict_ok HEAT e -> evict_ok HEAT (ApplyHeatDecayUpdates updates now cold hot e).1.
Proof.
  unfold ApplyHeatDecayUpdates. generalize (no_maintenance (length updates)). revert e. induction updates as [|u updates IH]; intros e stats Hok; [done|].
  cbn [foldl]. unfold apply_decay at 2. destruct (heatTable_ e !! hu_objectKey u) as [s|]; [|by apply IH]. case_match; [by apply IH|]. by apply IH, modify_ok.
Qed.

Lemma op_ok kind op e : evict_ok kind e -> admissible kind op -> exists e', apply_op kind op e = Some e' /\ evict_ok kind e'.
Proof.
  intros Hok Ha. destruct op as [key count|key|snapshot|snapshot cap mode| |key heat now|key ih inc cap now|key heat cap now merge|key heat now|updates now cold hot];
    cbn [apply_op admissible] in *.
  - destruct Ha as [-> Hc]. by apply add_ok.
  - by apply erase_keeps.
  - eexists. split; [done|]. by apply restore_ok.
  - destruct kind; cbn [InsertOrMerge].
    + destruct (merge_clock_ok snapshot e Hok Ha) as (e' & r & -> & Hok'). by exists e'.
    + eexists. split; [done|]. by apply merge_heat_ok.
  - subst kind. destruct (decide (list_ e = [])) as [E|E].
    + unfold FindEvictCandidate. rewrite E. by exists e.
    + destruct (find_swept e (eo_base _ _ Hok) E) as (e' & key & -> & Hs). exists e'. split; [done|]. constructor; [by eapply swept_base; [apply Hok|]|].
      destruct (sw_tables _ _ _ Hs) as (_ & -> & _). apply Hok.
  - subst kind. eexists. split; [done|]. unfold AddHeatNode. destruct (indexTable_ e !! key) eqn:Hl; [done|by apply insert_heat_ok].
  - subst kind. eexists. split; [done|]. unfold TouchHeatNode. destruct (heatTable_ e !! key); [by apply modify_ok|].
    destruct (indexTable_ e !! key) eqn:Hl; [done|by apply insert_heat_ok].
  - subst kind. eexists. split; [done|]. unfold ApplyMigratedHeat. destruct (negb _); [done|]. destruct (heatTable_ e !! key); [|done]. by apply modify_ok.
  - subst kind. eexists. split; [done|]. unfold ReinsertHot. destruct (indexTable_ e !! key) eqn:Hl; [by apply modify_ok|by apply insert_heat_ok].
  - subst kind. eexists. split; [done|]. by apply decay_ok.
Qed.

Lemma ops_ok kind ops : forall e, evict_ok kind e -> Forall (admissible kind) ops -> exists e', run_ops kind ops e = Some e' /\ evict_ok kind e'.
Proof.
  unfold run_ops. induction ops as [|op ops IH]; intros e Hok Ha; [by exists e|]. apply Forall_cons in Ha as [Hop Ha].
  destruct (op_ok kind op e Hok Hop) as (e1 & He1 & Hok1). cbn [foldl mbind option_bind]. rewrite He1. by apply IH.
Qed.

Lemma empty_ok kind : evict_ok kind new_EvictionList.
Proof.
  constructor; [|by case_bool_decide]. constructor; cbn; try done; [constructor|by intros ? ?%elem_of_nil| |by left|by intros ? ? ?%elem_of_nil].
  intros key n. rewrite lookup_empty. split; [done|]. by intros (x & ?%elem_of_nil & _).
Qed.

Lemma keys_distinct e : base_ok e -> NoDup ((fun entry => ln_objectKey entry.2) <$> list_ e) /\
  dom (indexTable_ e) = list_to_set ((fun entry => ln_objectKey entry.2) <$> list_ e).
Proof.
  intros Hok. split.
  - apply NoDup_fmap_2_strong; [|eapply NoDup_fmap_1; apply (bo_ids _ Hok)]. intros [n x] [m y] Hx Hy E. cbn in E.
    destruct (base_unique e m n y Hok Hy x Hx E) as [-> ->]. done.
  - apply set_eq. intros key. rewrite elem_of_dom, elem_of_list_to_set, list_elem_of_fmap. split.
    + intros [n Hl]. apply (bo_index _ Hok) in Hl as (x & Hin & <-). by exists (n, x).
    + intros ([n x] & -> & Hin). exists n. apply (bo_index _ Hok). by exists x.
Qed.

Lemma validates kind e : evict_ok kind e -> ValidateMembership kind e = Ok tt.
Proof.
  intros [Hb Hh]. destruct (keys_distinct e Hb) as [Hnd Hd]. unfold ValidateMembership. set (keys := _ <$> list_ e) in *.
  assert (Hsize : base.size (indexTable_ e) = length keys) by (rewrite <-size_dom, Hd; by apply size_list_to_set).
  assert (Hhs : base.size (heatTable_ e) = if bool_decide (kind = HEAT) then length keys else 0%nat).
  { rewrite <-size_dom, Hh. case_bool_decide; [by rewrite size_dom|apply size_empty]. }
  rewrite Hsize, Hhs, !Nat.eqb_refl. cbn [check mbind res_bind]. assert (forallb (fun key => has_value (indexTable_ e !! key) &&
    bool_decide (has_value (heatTable_ e !! key) = bool_decide (kind = HEAT))) keys = true) as ->; [|done].
  apply forallb_forall. intros key Hin%list_elem_of_In. assert (Hk : key ∈ dom (indexTable_ e)) by (rewrite Hd; by apply elem_of_list_to_set).
  apply elem_of_dom in Hk as [n Hk]. rewrite Hk. cbn [has_value andb]. apply bool_decide_eq_true.
  destruct (heatTable_ e !! key) as [s|] eqn:Es; cbn [has_value]; symmetry.
  - apply bool_decide_eq_true. assert (He : key ∈ dom (heatTable_ e)) by (by apply elem_of_dom; exists s). rewrite Hh in He. case_bool_decide; [done|set_solver].
  - apply bool_decide_eq_false. intros ->. assert (He : key ∉ dom (heatTable_ e)) by (by apply not_elem_of_dom). rewrite Hh in He. apply He. cbn. apply elem_of_dom. by exists n.
Qed.

(** C38: the eviction list stays well formed.  After any sequence of operations of one
    policy, erasures, restores and merges of snapshots and interleaved decays
    included, every iterator the operations followed was valid, the membership audit
    passes (list, index and heat table hold the same keys, each once), the clock hand
    is on a listed node while the list is not empty, and every counter is an 8-bit
    number not above its maximum. *)
Theorem eviction_list_well_formed kind ops : Forall (admissible kind) ops ->
  exists e, run_ops kind ops new_EvictionList = Some e /\ ValidateMembership kind e = Ok tt /\
    NoDup ((fun entry => ln_objectKey entry.2) <$> list_ e) /\
    (list_ e <> [] -> exists n x, oldest_ e = Some n /\ (n, x) ∈ list_ e) /\
    forall n x, (n, x) ∈ list_ e -> 0 <= ln_curCounter x <= ln_maxCounter x /\ ln_maxCounter x <= 255.
Proof.
  intros Ha. destruct (ops_ok kind ops _ (empty_ok kind) Ha) as (e & Hr & Hok). exists e. pose proof (eo_base _ _ Hok) as Hb.
  split_and!; [done|by apply validates|by apply keys_distinct| |apply Hb].
  intros Hne. destruct (bo_hand _ Hb) as [[? _]|(n & Hh & Hin)]; [done|]. apply list_elem_of_fmap in Hin as ([m x] & -> & Hin). by exists m, x.
Qed.

(** C39: the clock finds a victim and is fair.  Whatever operations built the list, if it
    is not empty the sweep of the hand ends; it chooses the first node in clock order
    whose counter is least, has taken from every counter one more than that for the
    nodes before the victim and exactly that for the victim and the nodes after it,
    leaves the hand on the victim and changes nothing else. *)
Theorem clock_sweep_finds_least kind ops e : Forall (admissible kind) ops -> run_ops kind ops new_EvictionList = Some e -> list_ e <> [] ->
  exists e' before n x after, FindEvictCandidate e = Some (e', Ok (ln_objectKey x)) /\
    clocked e (before ++ (n, x) :: after) /\
    Forall (fun entry => ln_curCounter x < ln_curCounter entry.2) before /\ Forall (fun entry => ln_curCounter x <= ln_curCounter entry.2) after /\
    clocked e' ((decrement (ln_curCounter x) <$> (n, x) :: after) ++ (decrement (ln_curCounter x + 1) <$> before)) /\
    indexTable_ e' = indexTable_ e /\ heatTable_ e' = heatTable_ e.
Proof.
  intros Ha Hr Hne. destruct (ops_ok kind ops _ (empty_ok kind) Ha) as (e0 & Hr0 & Hok). assert (e0 = e) as -> by congruence.
  destruct (find_swept e (eo_base _ _ Hok) Hne) as (e' & key & Hf & [Hs (before & n & x & after & Hcl & -> & Hb & Haf & Hcl')]).
  exists e', before, n, x, after. destruct Hs as (? & ? & _). done.
Qed.

(** ** Witnesses *)

Definition demo_ops : list Op := [OpAdd "a" 2; OpAdd "b" 1; OpAdd "c" 1; OpErase "c"; OpAdd "c" 1; OpFind; OpAdd "a" 1].

Lemma demo_admissible : Forall (admissible CLOCK) demo_ops.
Proof. unfold demo_ops. repeat (apply Forall_cons; split; [cbn; first [exact I|reflexivity|split; [reflexivity|lia]]|]). constructor. Qed.

Lemma eviction_list_well_formed_witness : exists e, run_ops CLOCK demo_ops new_EvictionList = Some e /\ ValidateMembership CLOCK e = Ok tt /\
  (fun entry => (ln_objectKey entry.2, ln_curCounter entry.2)) <$> list_ e = [("a", 1); ("b", 0); ("c", 0)].
Proof.
  destruct (eviction_list_well_formed CLOCK demo_ops demo_admissible) as (e & Hr & Hv & _). exists e. split; [exact Hr|]. split; [exact Hv|].
  vm_compute in Hr. injection Hr as <-. reflexivity.
Defined.

Definition demo_clock : EvictionList := match run_ops CLOCK (take 5 demo_ops) new_EvictionList with Some e => e | None => new_EvictionList end.

Lemma clock_sweep_finds_least_witness : exists e' before n x after, FindEvictCandidate demo_clock = Some (e', Ok (ln_objectKey x)) /\
  ln_objectKey x = "b" /\ clocked demo_clock (before ++ (n, x) :: after).
Proof.
  destruct (clock_sweep_finds_least CLOCK (take 5 demo_ops) demo_clock) as (e' & before & n & x & after & Hf & Hc & _).
  - apply Forall_take. exact demo_admissible.
  - vm_compute. reflexivity.
  - discriminate.
  - exists e', before, n, x, after. split; [exact Hf|]. split; [|exact Hc].
    assert (E : (fun r => match r with (_, Ok key) => key | _ => EmptyString end) <$> FindEvictCandidate demo_clock = Some "b") by (vm_compute; reflexivity).
    rewrite Hf in E. injection E as E. exact E.
Defined.
