(* ===== verification/HeatSelection.v ===== *)
(** * Selection of the coldest candidates

    [GetHeatCandidates] keeps a bounded heap while it scans the list.  The order of
    candidates and the order by density are strict weak orders as long as no heat and
    no compared density is NaN; the heap ends with as many of the least elements as
    fit, and the result is sorted by one of the two orders. *)

From S2P Require Import Prelude Ordered Double EvictionList.

(** ** The order of candidates *)

(** The components compared, most significant first. *)
Definition sort_key (threshold : double) (nowMs protectionMs : Z) (node : Node) : Z * Z * (Z * Z * Z) * Z :=
  (if IsHeatCandidateProtected node nowMs protectionMs then 1 else 0, if d_lt (n_heat node) threshold then 0 else 1, rank (n_heat node), n_lastAccessMs node).

Definition key_before (a b : Z * Z * (Z * Z * Z) * Z) : Prop :=
  let '(a1, a2, ar, a4) := a in let '(b1, b2, br, b4) := b in
  a1 < b1 \/ (a1 = b1 /\ (a2 < b2 \/ (a2 = b2 /\ (rank_lt ar br \/ (ar = br /\ a4 < b4))))).

Definition cool (node : Node) : Prop := number (n_heat node).

Lemma less_key threshold now protection a b : cool a -> cool b ->
  IsHeatCandidateLess threshold now protection a b = true <-> key_before (sort_key threshold now protection a) (sort_key threshold now protection b).
Proof.
  intros Ha Hb. unfold IsHeatCandidateLess, key_before, sort_key. cbv zeta.
  destruct (IsHeatCandidateProtected a now protection), (IsHeatCandidateProtected b now protection); cbn [Bool.eqb negb].
  2: { split; [done|]. intros [?|[? _]]; lia. }
  2: { split; [intros _; left; lia|done]. }
  all: destruct (d_lt (n_heat a) threshold), (d_lt (n_heat b) threshold); cbn [Bool.eqb negb].
  all: try (split; [intros _; right; split; [done|left; lia]|done]); try (split; [done|intros [?|[_ [?|[? _]]]]; lia]).
  all: match goal with |- _ <-> ?c => assert (Hc : c <-> rank_lt (rank (n_heat a)) (rank (n_heat b)) \/ (rank (n_heat a) = rank (n_heat b) /\ n_lastAccessMs a < n_lastAccessMs b))
         by (split; [intros [?|[_ [?|[_ ?]]]]; [lia|lia|done]|intros ?; right; split; [done|]; right; by split]) end; rewrite Hc; clear Hc.
  all: destruct (d_lt (n_heat a) (n_heat b)) eqn:E1; [apply d_lt_rank in E1; [split; [by left|done]|done..]|apply d_lt_rank_false in E1; [|done..]].
  all: destruct (d_lt (n_heat b) (n_heat a)) eqn:E2; [apply d_lt_rank in E2; [|done..]|apply d_lt_rank_false in E2; [|done..]].
  all: try (pose proof (rank_total _ _ E1 E2) as E; rewrite Z.ltb_lt; split; [by right|by intros [?|[_ ?]]]).
  all: split; [done|]; intros [?|[E _]]; [done|]; rewrite E in E2; by apply rank_irrefl in E2.
Qed.

Lemma key_irrefl k : ~ key_before k k.
Proof. destruct k as [[[a b] [[r1 r2] r3]] c]. unfold key_before, rank_lt. cbn. lia. Qed.

Lemma key_trans k1 k2 k3 : key_before k1 k2 -> key_before k2 k3 -> key_before k1 k3.
Proof.
  destruct k1 as [[[a1 b1] [[r1 s1] t1]] c1], k2 as [[[a2 b2] [[r2 s2] t2]] c2], k3 as [[[a3 b3] [[r3 s3] t3]] c3].
  unfold key_before, rank_lt. cbn. intros. simplify_eq. assert (forall x y z x' y' z' : Z, (x, y, z) = (x', y', z') <-> x = x' /\ y = y' /\ z = z') as E by naive_solver.
  rewrite !E in *. lia.
Qed.

Lemma key_negtrans k1 k2 k3 : ~ key_before k1 k2 -> ~ key_before k2 k3 -> ~ key_before k1 k3.
Proof.
  destruct k1 as [[[a1 b1] [[r1 s1] t1]] c1], k2 as [[[a2 b2] [[r2 s2] t2]] c2], k3 as [[[a3 b3] [[r3 s3] t3]] c3].
  unfold key_before, rank_lt. cbn. assert (forall x y z x' y' z' : Z, (x, y, z) = (x', y', z') <-> x = x' /\ y = y' /\ z = z') as E by naive_solver.
  rewrite !E. lia.
Qed.

Lemma less_weak_order threshold now protection : weak_order_on (IsHeatCandidateLess threshold now protection) cool.
Proof.
  split_and!.
  - intros x Hx. apply not_true_iff_false. rewrite less_key by done. apply key_irrefl.
  - intros x y z Hx Hy Hz. rewrite !less_key by done. apply key_trans.
  - intros x y z Hx Hy Hz. rewrite <-!not_true_iff_false, !less_key by done. apply key_negtrans.
Qed.

(** ** The order by density *)

(** Lexicographic order. *)
Fixpoint lex (a b : list Z) : bool :=
  match a, b with x :: a, y :: b => if x <? y then true else if y <? x then false else lex a b | _, _ => false end.

Lemma lex_irrefl a : lex a a = false.
Proof. induction a as [|x a IH]; cbn; [done|]. by rewrite Z.ltb_irrefl. Qed.

Lemma lex_trans a b c : lex a b = true -> lex b c = true -> lex a c = true.
Proof.
  revert b c. induction a as [|x a IH]; intros [|y b] [|z c]; cbn; try done.
  destruct (Z.ltb_spec x y), (Z.ltb_spec y z), (Z.ltb_spec x z), (Z.ltb_spec y x), (Z.ltb_spec z y), (Z.ltb_spec z x); try lia; try done. apply IH.
Qed.

Lemma lex_negtrans a b c : length a = length b -> length b = length c -> lex a b = false -> lex b c = false -> lex a c = false.
Proof.
  revert b c. induction a as [|x a IH]; intros [|y b] [|z c]; cbn; try done. intros [= Hab] [= Hbc].
  destruct (Z.ltb_spec x y), (Z.ltb_spec y z), (Z.ltb_spec x z), (Z.ltb_spec y x), (Z.ltb_spec z y), (Z.ltb_spec z x); try lia; try done. by apply IH.
Qed.

(** A double as three numbers to compare. *)
Definition rank_key (x : double) : list Z := let '(a, b, c) := rank x in [a; b; c].

Lemma lex_rank x y k l : number x -> number y ->
  lex (rank_key x ++ k) (rank_key y ++ l) = if d_lt x y then true else if d_lt y x then false else lex k l.
Proof.
  intros Hx Hy. unfold rank_key. pose proof (d_lt_rank x y Hx Hy) as E1. pose proof (d_lt_rank y x Hy Hx) as E2.
  destruct (rank x) as [[a1 a2] a3], (rank y) as [[b1 b2] b3]. unfold rank_lt in *. cbn in *.
  destruct (Z.ltb_spec a1 b1), (Z.ltb_spec b1 a1), (Z.ltb_spec a2 b2), (Z.ltb_spec b2 a2), (Z.ltb_spec a3 b3), (Z.ltb_spec b3 a3), (d_lt x y), (d_lt y x);
    try done; try lia;
    first [exfalso; assert (true = true) as Ht by done; apply E1 in Ht; lia
          |exfalso; assert (true = true) as Ht by done; apply E2 in Ht; lia
          |exfalso; assert (false = true) as Ht by (apply E1; lia); done
          |exfalso; assert (false = true) as Ht by (apply E2; lia); done].
Qed.

Lemma d_le_lt x y : number x -> number y -> d_le x y = negb (d_lt y x).
Proof.
  intros Hx Hy. pose proof (compare_rank x y Hx Hy) as H1. pose proof (compare_rank y x Hy Hx) as H2. unfold d_le, d_lt, SFleb, SFltb, rank_lt in *.
  destruct (SFcompare x y) as [[]|], (SFcompare y x) as [[]|]; try done; exfalso; first [rewrite H1 in H2|rewrite H2 in H1|idtac]; lia.
Qed.

Lemma d_le_number x y : d_le x y = true -> number y.
Proof. intros Hle ->. unfold d_le, SFleb in Hle. destruct x as [[]|[]| |[]]; discriminate Hle. Qed.

Section density.
Context (prec emax nowMs protectionMs : Z) (exact : double).

(** A node ranked by density, and its density. *)
Definition ranked (node : Node) : bool := negb (d_lt exact (n_heat node)) && (0 <? n_migratableSize node).
Definition density (node : Node) : spec_float := SFdiv prec emax (n_heat node) (to_ldouble prec emax (n_migratableSize node)).
Definition dense (node : Node) : Prop := cool node /\ (ranked node = true -> number (density node)).

Definition bit (b : bool) : Z := if b then 1 else 0.
Definition density_key (node : Node) : list Z :=
  [bit (IsHeatCandidateProtected node nowMs protectionMs); bit (d_lt exact (n_heat node));
   bit (negb (d_lt exact (n_heat node)) && negb (0 <? n_migratableSize node))] ++
  (if ranked node then rank_key (density node) else [0; 0; 0]) ++ rank_key (n_heat node) ++ [n_lastAccessMs node].

Lemma density_less_key a b : dense a -> dense b -> density_less prec emax nowMs protectionMs exact a b = lex (density_key a) (density_key b).
Proof.
  intros [Ha Hda] [Hb Hdb]. unfold density_less, density_key. cbv zeta. fold (density a) (density b).
  assert (Hlast : lex (rank_key (n_heat a) ++ [n_lastAccessMs a]) (rank_key (n_heat b) ++ [n_lastAccessMs b]) =
    if d_lt (n_heat a) (n_heat b) then true else if d_lt (n_heat b) (n_heat a) then false else n_lastAccessMs a <? n_lastAccessMs b).
  { rewrite lex_rank by done. cbn [lex]. repeat case_match; done. }
  unfold ranked in *.
  destruct (IsHeatCandidateProtected a nowMs protectionMs), (IsHeatCandidateProtected b nowMs protectionMs); try done;
    destruct (d_lt exact (n_heat a)), (d_lt exact (n_heat b)); try done;
    destruct (0 <? n_migratableSize a), (0 <? n_migratableSize b); try done;
    cbn [bit negb andb Bool.eqb app lex Z.ltb Z.compare Pos.compare Pos.compare_cont] in *; try (by rewrite Hlast).
  all: by rewrite lex_rank, Hlast by auto.
Qed.

Lemma density_key_length a : length (density_key a) = 10%nat.
Proof. unfold density_key, rank_key. rewrite !length_app. destruct (ranked a), (rank (n_heat a)) as [[]], (rank (density a)) as [[]]; reflexivity. Qed.

Lemma density_weak_order : weak_order_on (density_less prec emax nowMs protectionMs exact) dense.
Proof.
  split_and!.
  - intros x Hx. rewrite density_less_key by done. apply lex_irrefl.
  - intros x y z Hx Hy Hz. rewrite !density_less_key by done. apply lex_trans.
  - intros x y z Hx Hy Hz. rewrite !density_less_key by done. apply lex_negtrans; by rewrite !density_key_length.
Qed.
End density.

(** ** The bounded heap *)

Section front.
Context {A : Type} (less : A -> A -> bool) (P : A -> Prop) (Hless : weak_order_on less P).

Lemma less_asym x y : P x -> P y -> less x y = true -> less y x = false.
Proof.
  intros Hx Hy Hl. destruct Hless as (Hi & Ht & _). destruct (less y x) eqn:E; [|done]. rewrite <-(Hi x Hx). symmetry. by eapply (Ht x y x).
Qed.

Lemma heap_front front l : is_heap less (front :: l) -> Forall P (front :: l) -> forall y, y ∈ front :: l -> less front y = false.
Proof.
  intros Hh HP y Hy. apply list_elem_of_lookup in Hy as [i Hi]. revert y Hi. induction i as [i IH] using lt_wf_ind. intros y Hi.
  destruct Hless as (Hir & _ & Hn). assert (Hf : P front) by (by apply Forall_cons in HP as []).
  destruct i as [|i]; [injection Hi as <-; by apply Hir|].
  assert (Hlt : ((S i - 1) / 2 < S i)%nat) by (apply Nat.Div0.div_lt_upper_bound; lia).
  assert (Hp : is_Some ((front :: l) !! ((S i - 1) / 2)%nat)) by (apply lookup_lt_is_Some; apply lookup_lt_Some in Hi; lia).
  destruct Hp as [p Hp]. eapply (Hn front p y); [done| | |by eapply IH|by eapply (Hh (S i)); [lia|..]].
  - rewrite Forall_forall in HP. apply HP. by eapply list_elem_of_lookup_2.
  - rewrite Forall_forall in HP. apply HP. by eapply list_elem_of_lookup_2.
Qed.
End front.

Section heap.
Context `{!StdAlgorithms Node, !StdAlgorithmsLaws Node}.
Context (less : Node -> Node -> bool) (P : Node -> Prop) (Hless : weak_order_on less P).


(** [kept] are the coldest of [kept ++ dropped]. *)
Record coldest (maxCount : nat) (seen kept : list Node) : Prop := {
  cd_heap : is_heap less kept;
  cd_size : length kept = Nat.min maxCount (length seen);
  cd_split : exists dropped, seen ≡ₚ kept ++ dropped /\ forall r y, r ∈ dropped -> y ∈ kept -> less r y = false
}.

Lemma coldest_nil maxCount : coldest maxCount [] [].
Proof. constructor; [by intros i x y _ Hx|by rewrite Nat.min_0_r|]. exists []. split; [done|]. by intros r y ?%elem_of_nil. Qed.

Lemma coldest_add maxCount seen kept x : (0 < maxCount)%nat -> coldest maxCount seen kept -> Forall P seen -> P x ->
  coldest maxCount (seen ++ [x]) (AddBoundedNode x maxCount less kept).
Proof.
  intros Hm [Hh Hs (dropped & Hp & Hd)] HP Hx. unfold AddBoundedNode. destruct (Nat.eqb_spec maxCount 0) as [|_]; [lia|].
  assert (HPk : Forall P (kept ++ dropped)) by (by rewrite <-Hp). apply Forall_app in HPk as [HPk HPd].
  assert (Hlen : length seen = (length kept + length dropped)%nat) by (by rewrite Hp, length_app).
  destruct (Nat.ltb_spec (length kept) maxCount) as [Hlt|Hge].
  - assert (dropped = []) as -> by (apply nil_length_inv; lia). rewrite app_nil_r in Hp.
    destruct (push_heap_spec less P kept x Hless) as [Hperm Hheap]; [by apply Forall_app; split; [|constructor]|done|].
    constructor; [done| |].
    + rewrite Hperm, !length_app. cbn. lia.
    + exists []. rewrite app_nil_r, Hperm, Hp. split; [done|]. by intros r y ?%elem_of_nil.
  - destruct kept as [|front kept]; [cbn in *; lia|]. pose proof (heap_front less P Hless front kept Hh HPk) as Hfront. apply Forall_cons in HPk as [HPf HPk].
    pose proof Hless as (_ & _ & Hn). destruct (less x front) eqn:E.
    + destruct (pop_heap_spec less P front kept Hless) as (rest & -> & Hrest & Hhr); [by constructor|done|]. rewrite removelast_last.
      assert (HPr : Forall P rest) by (by rewrite Hrest). destruct (push_heap_spec less P rest x Hless) as [Hperm Hheap]; [by apply Forall_app; split; [|constructor]|done|].
      constructor; [done| |].
      * rewrite Hperm, !length_app, Hrest. cbn in *. lia.
      * exists (front :: dropped). split; [rewrite Hp, Hperm, Hrest; cbn; solve_Permutation|]. intros r y Hr Hy. rewrite Hperm in Hy.
        pose proof (less_asym less P Hless _ _ Hx HPf E) as Hfx. rewrite !Forall_forall in *. apply elem_of_app in Hy as [Hy| ->%list_elem_of_singleton].
        -- apply elem_of_cons in Hr as [->|Hr]; [apply Hfront; rewrite Hrest in Hy; set_solver|]. apply Hd; [done|]. rewrite Hrest in Hy. set_solver.
        -- apply elem_of_cons in Hr as [->|Hr]; [done|]. eapply (Hn r front x); [by apply HPd|done|done|apply Hd; set_solver|done].
    + constructor; [done|rewrite length_app; cbn in *; lia|]. exists (x :: dropped). split; [rewrite Hp; solve_Permutation|].
      intros r y Hr Hy. apply elem_of_cons in Hr as [->|Hr]; [|by apply Hd]. eapply (Hn x front y); [done|done| |done|by apply Hfront].
      apply elem_of_cons in Hy as [->|Hy]; [done|]. rewrite Forall_forall in HPk. by apply HPk.
Qed.
End heap.

(** ** The scan *)

Definition immediate (nowMs : Z) (options : HeatCandidateOptions) (node : Node) : bool :=
  negb (IsHeatCandidateProtected node nowMs (recentAccessProtectionMs options)) && d_lt (n_heat node) (immediateEvictionThreshold options).

(** The snapshots the scan takes. *)
Definition scanned (maxCount : nat) (options : HeatCandidateOptions) (e : EvictionList) : list Node :=
  omap (fun entry => SnapshotHeatNode e entry.2) (scan_window maxCount options e).

(** The immediate candidates, or all of them when there is none. *)
Definition candidate_pool (maxCount : nat) (options : HeatCandidateOptions) (nowMs : Z) (e : EvictionList) : list Node :=
  let all := scanned maxCount options e in
  match List.filter (immediate nowMs options) all with [] => all | now => now end.

Section scan.
Context `{!StdAlgorithms Node, !StdAlgorithmsLaws Node}.
Context (threshold : double) (maxCount : nat) (nowMs : Z) (options : HeatCandidateOptions) (Hmax : (0 < maxCount)%nat).

Abbreviation less := (IsHeatCandidateLess threshold nowMs (recentAccessProtectionMs options)).

Lemma scan_batches all : Forall cool all ->
  let b := foldl (scan_node maxCount less nowMs options) {| bt_res := []; bt_immediate := []; bt_found := false |} all in
  coldest less maxCount (List.filter (immediate nowMs options) all) (bt_immediate b) /\
  bt_found b = negb (bool_decide (List.filter (immediate nowMs options) all = [])) /\
  (List.filter (immediate nowMs options) all = [] -> coldest less maxCount all (bt_res b)).
Proof.
  intros Hall. cbv zeta. induction all as [|x all IH] using rev_ind; [split_and!; [apply coldest_nil|done|intros _; apply coldest_nil]|].
  apply Forall_app in Hall as [Hall Hx]. apply Forall_cons in Hx as [Hx _]. specialize (IH Hall) as (Hi & Hf & Hr).
  rewrite foldl_app. cbn [foldl]. set (b := foldl _ _ all) in *. rewrite List.filter_app. cbn [List.filter]. unfold scan_node. fold (immediate nowMs options x).
  destruct (immediate nowMs options x) eqn:E; cbn [bt_immediate bt_found bt_res].
  - split_and!.
    + apply (coldest_add _ cool (less_weak_order _ _ _)); [done|done| |done]. apply Forall_forall. intros y Hy. apply list_elem_of_In, filter_In in Hy as [Hy _].
      rewrite Forall_forall in Hall. by apply Hall, list_elem_of_In.
    + rewrite bool_decide_false; [done|]. by destruct (List.filter _ all).
    + intros E'. by destruct (List.filter _ all).
  - rewrite app_nil_r. rewrite Hf. destruct (bool_decide _) eqn:Eb; cbn [negb].
    + split_and!; [done|done|]. intros E'. cbn. apply (coldest_add _ cool (less_weak_order _ _ _)); [done|by apply Hr|done|done].
    + split_and!; [done|done|]. apply bool_decide_eq_false in Eb. done.
Qed.

Lemma snapshot_cool e all : map_Forall (fun _ s => number (hs_heat s)) (heatTable_ e) ->
  Forall cool (omap (fun entry : nat * ListNode => SnapshotHeatNode e entry.2) all).
Proof.
  intros Hn. apply Forall_forall. intros y Hy. apply list_elem_of_omap in Hy as ([n x] & _ & Hy). unfold SnapshotHeatNode in Hy. cbn in Hy.
  destruct (heatTable_ e !! ln_objectKey x) as [s|] eqn:E; [|done]. injection Hy as <-. by apply (Hn _ _ E).
Qed.

(** A candidate with the size the resolver finds for it, and the order of the result
    given the nodes [picked]: by density once one of them is at or below the exact
    ranking threshold and sizes can be resolved. *)
Definition resolved (node : Node) : Node :=
  match sizeResolver options with
  | Some resolve => if d_le (n_heat node) (exactRankingThreshold options) then set_size (resolve (n_objectKey node) (n_migratableSize node)) node else node
  | None => node
  end.
Definition result_order (prec emax : Z) (picked : list Node) : Node -> Node -> bool :=
  if has_value (sizeResolver options) && existsb (fun node => d_le (n_heat node) (exactRankingThreshold options)) picked
  then density_less prec emax nowMs (recentAccessProtectionMs options) (exactRankingThreshold options) else less.

(** No heat is NaN, and no density that is compared. *)
Definition no_nan (prec emax : Z) (e : EvictionList) : Prop :=
  map_Forall (fun _ s => number (hs_heat s)) (heatTable_ e) /\
  forall node, node ∈ candidate_pool maxCount options nowMs e -> 0 < n_migratableSize (resolved node) ->
    d_le (n_heat node) (exactRankingThreshold options) = true -> number (density prec emax (resolved node)).

Lemma resolved_heat node : n_heat (resolved node) = n_heat node.
Proof. unfold resolved. destruct (sizeResolver options); [|done]. by destruct (d_le _ _). Qed.

(** The result is the picked nodes with their sizes, in the order of the result. *)
Lemma rank_result prec emax picked : Forall cool picked ->
  (forall node, node ∈ picked -> 0 < n_migratableSize (resolved node) ->
     d_le (n_heat node) (exactRankingThreshold options) = true -> number (density prec emax (resolved node))) ->
  let res := RankHeatCandidatesByDensity prec emax (std_sort less picked) nowMs (recentAccessProtectionMs options)
               (exactRankingThreshold options) (sizeResolver options) in
  res ≡ₚ resolved <$> picked /\ StronglySorted (fun x y => result_order prec emax picked y x = false) res.
Proof.
  intros Hcool Hnan. set (exact := exactRankingThreshold options) in *.
  destruct (sort_spec less cool picked (less_weak_order _ _ _) Hcool) as [Hperm Hsorted]. cbv zeta.
  unfold RankHeatCandidatesByDensity, result_order. fold exact.
  assert (Hex : existsb (fun node => d_le (n_heat node) exact) (std_sort less picked) = existsb (fun node => d_le (n_heat node) exact) picked).
  { apply eq_true_iff_eq. rewrite !existsb_elem. by setoid_rewrite Hperm. }
  destruct (sizeResolver options) as [resolve|] eqn:Es.
  2: { cbn [has_value andb]. split; [|done]. rewrite Hperm. rewrite (list_fmap_ext _ (fun x => x)); [by rewrite list_fmap_id|]. intros i x _. unfold resolved. by rewrite Es. }
  cbn [has_value andb]. rewrite Hex. destruct (existsb _ picked) eqn:Ee; cbn [negb].
  2: { split; [|done]. rewrite Hperm, (list_fmap_ext _ (fun x => x)); [by rewrite list_fmap_id|]. intros i x Hx%list_elem_of_lookup_2. unfold resolved. rewrite Es. fold exact.
       destruct (d_le (n_heat x) exact) eqn:El; [|done]. exfalso. apply not_true_iff_false in Ee. apply Ee, existsb_elem. eauto. }
  assert (Hnum : number exact) by (apply existsb_elem in Ee as (x & _ & Hx); by eapply d_le_number).
  set (sized := (fun node => _) <$> _).
  assert (Esz : sized = resolved <$> std_sort less picked) by (unfold sized; apply list_fmap_ext; intros i x _; unfold resolved; by rewrite Es).
  assert (Hd : Forall (dense prec emax exact) sized).
  { rewrite Esz. apply Forall_forall. intros y (x & -> & Hx)%list_elem_of_fmap. rewrite Hperm in Hx. rewrite Forall_forall in Hcool.
    pose proof (Hcool x Hx) as Hcx. split; [unfold cool; by rewrite resolved_heat|]. unfold ranked. rewrite resolved_heat, <-d_le_lt by done.
    intros [Hle Hpos%Z.ltb_lt]%andb_prop. by apply Hnan. }
  destruct (sort_spec _ _ sized (density_weak_order prec emax nowMs (recentAccessProtectionMs options) exact) Hd) as [Hp2 Hs2].
  split; [|done]. rewrite Hp2, Esz. by rewrite Hperm.
Qed.

(** C40: the candidates of the heat policy are the coldest.  As long as no heat and no
    compared density is NaN, a request for [maxCount] > 0 candidates of a non-empty list
    picks that many nodes of the candidate pool, or all of it if it has fewer: the pool
    is the scanned nodes that may be evicted at once, or all scanned nodes when there
    are none.  Nothing of the pool that is left out comes before a picked node in the
    order of preference: not recently accessed, below the threshold, colder, longer
    unused.  So the bounded scan with a heap picks what sorting the whole pool would.
    The result is the picked nodes, with their resolved sizes, in this order, or, with a
    size resolver and a picked node at or below the exact ranking threshold, in the
    order of heat per byte. *)
Theorem heat_candidates_coldest prec emax e : list_ e <> [] -> no_nan prec emax e ->
  exists picked res, GetHeatCandidates prec emax threshold maxCount options nowMs e = Ok res /\
    length picked = Nat.min maxCount (length (candidate_pool maxCount options nowMs e)) /\
    (exists left_out, candidate_pool maxCount options nowMs e ≡ₚ picked ++ left_out /\ forall x y, x ∈ left_out -> y ∈ picked -> less x y = false) /\
    res ≡ₚ resolved <$> picked /\ StronglySorted (fun x y => result_order prec emax picked y x = false) res.
Proof.
  intros Hne [Hn Hdens]. unfold GetHeatCandidates. destruct (Nat.eqb_spec maxCount 0) as [|_]; [lia|].
  destruct (Nat.eqb_spec (length (list_ e)) 0) as [E|_]; [by apply nil_length_inv in E|]. cbv zeta. fold (scanned maxCount options e).
  pose proof (snapshot_cool e (scan_window maxCount options e) Hn) as Hcool. fold (scanned maxCount options e) in Hcool.
  destruct (scan_batches (scanned maxCount options e) Hcool) as (Hi & _ & Hr). set (b := foldl _ _ (scanned maxCount options e)) in *.
  assert (Hpick : coldest less maxCount (candidate_pool maxCount options nowMs e) (if bool_decide (length (bt_immediate b) = 0%nat) then bt_res b else bt_immediate b)).
  { unfold candidate_pool. pose proof (cd_size _ _ _ _ Hi) as Hs. destruct (List.filter (immediate nowMs options) (scanned maxCount options e)) as [|y l] eqn:Ef.
    - rewrite bool_decide_true; [by apply Hr|]. by rewrite Nat.min_0_r in Hs.
    - rewrite bool_decide_false; [done|]. cbn in Hs. lia. }
  set (picked := if bool_decide _ then _ else _) in *. destruct Hpick as [_ Hlen (dropped & Hp & Hd)].
  assert (HPp : Forall cool picked).
  { assert (Hpool : Forall cool (candidate_pool maxCount options nowMs e)); [|rewrite Hp in Hpool; by apply Forall_app in Hpool as [? _]].
    unfold candidate_pool. destruct (List.filter _ _) as [|y l] eqn:Ef; [done|]. rewrite <-Ef. apply Forall_forall. intros z Hz.
    apply list_elem_of_In, filter_In in Hz as [Hz _]. rewrite Forall_forall in Hcool. by apply Hcool, list_elem_of_In. }
  exists picked. eexists. split; [reflexivity|]. split; [done|]. split; [by exists dropped|].
  apply rank_result; [done|]. intros node Hin. apply Hdens. rewrite Hp. apply elem_of_app. by left.
Qed.
End scan.

(** ** An implementation of the standard algorithms *)

Module ReferenceAlgorithms.
Section algorithms.
Context {A : Type}.

Fixpoint insert_sorted (less : A -> A -> bool) (x : A) (l : list A) : list A :=
  match l with [] => [x] | y :: l => if less x y then x :: y :: l else y :: insert_sorted less x l end.
Definition insertion_sort (less : A -> A -> bool) (l : list A) : list A := foldr (insert_sorted less) [] l.
Definition descending (less : A -> A -> bool) (l : list A) : list A := rev (insertion_sort less l).

#[export] Instance algorithms : StdAlgorithms A := {|
  push_heap := descending;
  pop_heap less l := match l with [] => [] | x :: l => descending less l ++ [x] end;
  std_sort := insertion_sort |}.

Lemma insert_sorted_perm less x l : insert_sorted less x l ≡ₚ x :: l.
Proof. induction l as [|y l IH]; cbn; [done|]. case_match; [done|]. rewrite IH. by constructor. Qed.

Lemma insertion_sort_perm less l : insertion_sort less l ≡ₚ l.
Proof. induction l as [|x l IH]; cbn; [done|]. by rewrite insert_sorted_perm, IH. Qed.

Lemma insertion_sort_sorted less P l : weak_order_on less P -> Forall P l -> StronglySorted (fun x y => less y x = false) (insertion_sort less l).
Proof.
  intros (Hi & Ht & Hn) HP. induction HP as [|x l Hx HP IH]; cbn; [constructor|].
  assert (HPs : Forall P (insertion_sort less l)) by (by rewrite insertion_sort_perm). fold (insertion_sort less l). clear HP. revert IH HPs. generalize (insertion_sort less l). clear l.
  intros l Hs HP. induction Hs as [|y l Hs IH Hy]; cbn; [by repeat constructor|]. apply Forall_cons in HP as [HPy HP].
  destruct (less x y) eqn:E.
  - assert (Hyx : less y x = false) by (destruct (less y x) eqn:E'; [|done]; rewrite <-(Hi x Hx); symmetry; by eapply Ht).
    constructor; [by constructor|]. constructor; [done|]. rewrite Forall_forall in *. intros z Hz. eapply (Hn z y x); [by apply HP|done|done|by apply Hy|done].
  - constructor; [by apply IH|]. apply Forall_forall. intros z Hz. rewrite insert_sorted_perm in Hz. apply elem_of_cons in Hz as [->|Hz]; [done|].
    rewrite Forall_forall in Hy. by apply Hy.
Qed.

Lemma rev_sorted (R : A -> A -> Prop) l : StronglySorted R l -> StronglySorted (flip R) (rev l).
Proof.
  induction 1 as [|x l Hs IH Hx]; cbn; [constructor|]. clear Hs. apply Forall_rev in Hx. revert IH Hx. generalize (rev l). intros r Hr Hx.
  induction Hr as [|y r Hr IH Hy]; cbn; [by repeat constructor|]. apply Forall_cons in Hx as [Hxy Hx]. constructor; [by apply IH|].
  apply Forall_app. split; [done|]. by constructor.
Qed.

Lemma descending_heap less P l : weak_order_on less P -> Forall P l -> is_heap less (descending less l).
Proof.
  intros Hw HP. pose proof (rev_sorted _ _ (insertion_sort_sorted less P l Hw HP)) as Hs. intros i x y Hi Hx Hy.
  assert (Hlt : ((i - 1) / 2 < i)%nat) by (apply Nat.Div0.div_lt_upper_bound; lia).
  exact (StronglySorted_lookup _ _ _ _ _ _ Hs Hx Hy Hlt).
Qed.

Lemma descending_perm less l : descending less l ≡ₚ l.
Proof. unfold descending. rewrite <-Permutation_rev. apply insertion_sort_perm. Qed.

#[export] Instance algorithms_laws : StdAlgorithmsLaws A.
Proof.
  constructor.
  - intros less P l x Hw HP _. cbn. split; [apply descending_perm|by eapply descending_heap].
  - intros less P x l Hw HP _. apply Forall_cons in HP as [_ HP]. exists (descending less l). split_and!; [done|apply descending_perm|by eapply descending_heap].
  - intros less P l Hw HP. cbn. split; [apply insertion_sort_perm|by eapply insertion_sort_sorted].
Qed.
End algorithms.
End ReferenceAlgorithms.

(** Of three objects of heat 3, 1 and 2 the two colder ones are the candidates, the
    larger one first. *)
Import ReferenceAlgorithms.
Definition demo_options : HeatCandidateOptions :=
  {| recentAccessProtectionMs := 0; immediateEvictionThreshold := d_neg_infinity; exactRankingThreshold := d_of_Z 2;
     sizeResolver := Some (fun key _ => if bool_decide (key = "c") then 100 else 10) |}.
Definition demo_list : EvictionList := AddHeatNode "c" (d_of_Z 2) 0 (AddHeatNode "b" (d_of_Z 1) 0 (AddHeatNode "a" (d_of_Z 3) 0 new_EvictionList)).

Lemma demo_no_nan : no_nan 2 10 demo_options 64 16384 demo_list.
Proof.
  split; [apply (bool_decide_unpack (map_Forall (fun _ s => hs_heat s <> S754_nan) (heatTable_ demo_list))); vm_compute; exact I|].
  assert (Hall : forallb (fun node => bool_decide (density 64 16384 (resolved demo_options node) <> S754_nan)) (candidate_pool 2 demo_options 10 demo_list) = true)
    by (vm_compute; reflexivity).
  intros node Hin _ _. rewrite forallb_elem in Hall. by apply (bool_decide_eq_true (density 64 16384 (resolved demo_options node) <> S754_nan)), Hall.
Qed.

Lemma heat_candidates_coldest_witness : exists picked res, GetHeatCandidates 64 16384 (d_of_Z 5) 2 demo_options 10 demo_list = Ok res /\
  n_objectKey <$> res = ["c"; "b"] /\ res ≡ₚ resolved demo_options <$> picked.
Proof.
  destruct (heat_candidates_coldest (d_of_Z 5) 2 10 demo_options ltac:(lia) 64 16384 demo_list) as (picked & res & Hr & _ & _ & Hp & _).
  - discriminate.
  - exact demo_no_nan.
  - exists picked, res. split; [exact Hr|]. split; [|exact Hp]. vm_compute in Hr. injection Hr as <-. reflexivity.
Defined.
