(* ===== verification/PlacementFacade.v ===== *)
(** * Placement of keys

    cluster/routing/placement_facade.cpp over the routing interface of
    cluster/algorithm/topology_algorithm.h: which member owns a key, and whether
    this member serves it, redirects it or waits for a hand-off.  A call loads one
    snapshot through the reader's cache ([Load] of SnapshotState) and decides on
    it; the caches are threaded through.  [IRoutingAlgorithm] is a class, and
    [RoutingLaws] what the facade relies on; the hash algorithm discharges it. *)

From S2P Require Import Prelude Ordered TopologyTypes HashRing RingTheory HostPort HashAlgorithm OwnerSpec.
From S2P Require Import PlanningInterface Hasher Snapshot SnapshotState HashPlans PlanBuilder TopologySafety.

(** ** The routing interface *)

(** A located owner is a pointer, which may be null. *)
Class IRoutingAlgorithm := {
  ra_Hash : string -> Z;
  ra_LocateOwner : TopologySnapshot -> Z -> res (option Member);
  ra_LocateProspectiveOwner : TopologySnapshot -> Z -> res (option Member)
}.

(** ** Decisions (cluster/routing/placement_types.h) *)

Record PlacementDecision := { pd_topologyVersion : Z; pd_committedOwnerAddress : string }.

(** A batch item holds a decision or the error status of its key. *)
Record BatchPlacementDecision := { bp_topologyVersion : Z; bp_items : list (res PlacementDecision) }.

Inductive RedirectAction := LOCAL | REDIRECT | WAIT.
#[global] Instance RedirectAction_eq_dec : EqDecision RedirectAction.
Proof. solve_decision. Defined.

Record RedirectDecision := {
  rd_topologyVersion : Z;
  rd_action : RedirectAction;
  rd_committedOwnerAddress : string;
  rd_redirectTargetAddress : string;
  rd_batchEpoch : Z
}.

Definition GetRedirectTargetAddress (d : RedirectDecision) : string :=
  if bool_decide (rd_redirectTargetAddress d = EmptyString) then rd_committedOwnerAddress d else rd_redirectTargetAddress d.

Record BatchRedirectDecision := { br_topologyVersion : Z; br_decisions : list RedirectDecision }.

(** ** The facade *)

(** [snapshots_] and [algorithm_] are shared; the facade owns the local address. *)
Record PlacementFacade := { localAddress_ : string }.

(** A read of the snapshot state: the generation the reader saw, whether its cached
    pointer is still alive, and the state. *)
Record SnapshotRead := { sr_generation : Z; sr_alive : bool; sr_state : TopologySnapshotState }.

Definition kMaxBatchKeys : nat := Z.to_nat 100000.

Section facade.
Context `{IRoutingAlgorithm}.
Variable facade : PlacementFacade.

Definition not_null (owner : option Member) : res Member :=
  match owner with Some owner => Ok owner | None => Err K_RUNTIME_ERROR end.

Definition LocateInSnapshot (snapshot : TopologySnapshot) (token : Z) : res PlacementDecision :=
  owner ← ra_LocateOwner snapshot token;
  owner ← not_null owner;
  Ok {| pd_topologyVersion := Version snapshot; pd_committedOwnerAddress := m_address owner |}.

Definition LocateSurvivingInSnapshot (snapshot : TopologySnapshot) (placementKey : string) : res PlacementDecision :=
  let token := ra_Hash placementKey in
  owner ← ra_LocateOwner snapshot token;
  owner ← not_null owner;
  surviving ←
    (if bool_decide (m_state owner = LEAVING) then
       surviving ← ra_LocateProspectiveOwner snapshot token;
       surviving ← not_null surviving;
       Ok (if bool_decide (m_state surviving = LEAVING) then owner else surviving)
     else Ok owner);
  Ok {| pd_topologyVersion := Version snapshot; pd_committedOwnerAddress := m_address surviving |}.

Definition EvaluateRedirectInSnapshot (snapshot : TopologySnapshot) (placementKey : string) : res RedirectDecision :=
  let token := ra_Hash placementKey in
  placement ← LocateInSnapshot snapshot token;
  let committedOwner := pd_committedOwnerAddress placement in
  let action := if bool_decide (committedOwner = localAddress_ facade) then LOCAL else REDIRECT in
  let built := {| rd_topologyVersion := pd_topologyVersion placement; rd_action := action;
                  rd_committedOwnerAddress := committedOwner; rd_redirectTargetAddress := ""; rd_batchEpoch := 0 |} in
  match ts_activeBatch (state_ snapshot) with
  | Some batch =>
      if (bool_decide (ab_type batch = SCALE_OUT) || bool_decide (ab_type batch = SCALE_IN)) && bool_decide (action = LOCAL) then
        prospective ← ra_LocateProspectiveOwner snapshot token;
        prospective ← not_null prospective;
        if bool_decide (m_address prospective = committedOwner)
        then Ok {| rd_topologyVersion := pd_topologyVersion placement; rd_action := action; rd_committedOwnerAddress := committedOwner;
                   rd_redirectTargetAddress := ""; rd_batchEpoch := ab_epoch batch |}
        else Ok {| rd_topologyVersion := pd_topologyVersion placement;
                   rd_action := if bool_decide (ab_type batch = SCALE_OUT) then WAIT else REDIRECT;
                   rd_committedOwnerAddress := committedOwner; rd_redirectTargetAddress := m_address prospective;
                   rd_batchEpoch := ab_epoch batch |}
      else Ok built
  | None => Ok built
  end.

Definition batch_size_valid {A} (placementKeys : list A) : bool :=
  negb (length placementKeys =? 0)%nat && (length placementKeys <=? kMaxBatchKeys)%nat.

(** *** Entry points: load a snapshot and decide on it *)

Variable read : SnapshotRead.

Definition with_snapshot {A} (cache : ThreadSnapshotCache) (decide : TopologySnapshot -> res A) : ThreadSnapshotCache * res A :=
  let '(cache, snapshot) := Load (sr_generation read) (sr_alive read) (sr_state read) cache in
  (cache, snapshot ≫= decide).

Definition Locate (placementKey : string) (cache : ThreadSnapshotCache) : ThreadSnapshotCache * res PlacementDecision :=
  with_snapshot cache (fun snapshot => LocateInSnapshot snapshot (ra_Hash placementKey)).

Definition LocateToken (token : Z) (cache : ThreadSnapshotCache) : ThreadSnapshotCache * res PlacementDecision :=
  with_snapshot cache (fun snapshot => LocateInSnapshot snapshot token).

Definition LocateBatch (placementKeys : list string) (cache : ThreadSnapshotCache) : ThreadSnapshotCache * res BatchPlacementDecision :=
  if batch_size_valid placementKeys then
    with_snapshot cache (fun snapshot =>
      Ok {| bp_topologyVersion := Version snapshot;
            bp_items := (fun key => LocateInSnapshot snapshot (ra_Hash key)) <$> placementKeys |})
  else (cache, Err K_INVALID).

Definition LocateSurvivingOwner (placementKey : string) (cache : ThreadSnapshotCache) : ThreadSnapshotCache * res PlacementDecision :=
  with_snapshot cache (fun snapshot => LocateSurvivingInSnapshot snapshot placementKey).

Definition LocateSurvivingOwnerBatch (placementKeys : list string) (cache : ThreadSnapshotCache) : ThreadSnapshotCache * res BatchPlacementDecision :=
  if batch_size_valid placementKeys then
    with_snapshot cache (fun snapshot =>
      Ok {| bp_topologyVersion := Version snapshot; bp_items := LocateSurvivingInSnapshot snapshot <$> placementKeys |})
  else (cache, Err K_INVALID).

Definition EvaluateRedirect (placementKey : string) (cache : ThreadSnapshotCache) : ThreadSnapshotCache * res RedirectDecision :=
  if bool_decide (localAddress_ facade = EmptyString) then (cache, Err K_INVALID)
  else with_snapshot cache (fun snapshot => EvaluateRedirectInSnapshot snapshot placementKey).

(** The first key that cannot be evaluated fails the batch. *)
Definition EvaluateRedirectBatch (placementKeys : list string) (cache : ThreadSnapshotCache) : ThreadSnapshotCache * res BatchRedirectDecision :=
  if bool_decide (localAddress_ facade = EmptyString) then (cache, Err K_INVALID)
  else if batch_size_valid placementKeys then
    with_snapshot cache (fun snapshot =>
      decisions ← foldM (fun built key => item ← EvaluateRedirectInSnapshot snapshot key; Ok (built ++ [item])) [] placementKeys;
      Ok {| br_topologyVersion := Version snapshot; br_decisions := decisions |})
  else (cache, Err K_INVALID).

Definition IsLocalOwner (placementKey : string) (cache : ThreadSnapshotCache) : ThreadSnapshotCache * res bool :=
  let '(cache, decision) := EvaluateRedirect placementKey cache in
  (cache, (fun d => bool_decide (rd_committedOwnerAddress d = localAddress_ facade)) <$> decision).

Definition IsKeyHandoffComplete (placementKey : string) (batchEpoch : Z) : bool :=
  IsScaleOutHandoffComplete batchEpoch (ra_Hash placementKey) (sr_state read).
End facade.

(** ** What the facade relies on *)

Section laws.
Context `{RE2, SHA256}.

(** The owner of a token once the running ordinary batch is finished; a batch that
    removes every owner leaves the current one. *)
Definition final_owner (st : TopologyState) (t : Z) : option MemberIdentity :=
  match ring_owner (fun m => IsProspective (m_state m) (ts_activeBatch st)) (ts_members st) t with
  | Some i => Some i
  | None => ring_owner committed (ts_members st) t
  end.

Class RoutingLaws `{IRoutingAlgorithm} := {
  rl_hash key : is_u32 (ra_Hash key);
  rl_owner st s t m0 : topology_inv st -> snapshot_of st s -> is_u32 t -> m0 ∈ ts_members st -> committed m0 = true ->
    exists m, ra_LocateOwner s t = Ok (Some m) /\ m ∈ ts_members st /\ committed m = true /\
      ring_owner committed (ts_members st) t = Some (m_identity m);
  rl_prospective st s t m0 : topology_inv st -> snapshot_of st s -> is_u32 t -> m0 ∈ ts_members st -> committed m0 = true ->
    exists m, ra_LocateProspectiveOwner s t = Ok (Some m) /\ m ∈ ts_members st /\ final_owner st t = Some (m_identity m)
}.
End laws.

(** ** The hash algorithm *)

#[global] Instance HashRouting : IRoutingAlgorithm := {|
  ra_Hash := Hash;
  ra_LocateOwner s t := Some <$> LocateOwner s t;
  ra_LocateProspectiveOwner s t := Some <$> LocateProspectiveOwner s t
|}.

Section hash.
Context `{RE2, SHA256}.

Lemma prospective_located st s t m0 : topology_inv st -> snapshot_of st s -> is_u32 t -> m0 ∈ ts_members st -> committed m0 = true ->
  exists m, LocateProspectiveOwner s t = Ok m /\ m ∈ ts_members st /\ final_owner st t = Some (m_identity m).
Proof.
  intros Hinv (Hp & ? & ? & ? & ? & ? & ? & ->)%snapshot_of_inv Ht Hm0 Hc0. pose proof (ti_u32 _ Hinv) as Hu. unfold LocateProspectiveOwner, final_owner.
  change (prospectiveTokenOwners_ _) with (sort_on fst (token_entries (fun m => IsProspective (m_state m) (ts_activeBatch st)) (ts_members (sort_members st)))).
  change (committedTokenOwners_ _) with (sort_on fst (token_entries committed (ts_members (sort_members st)))).
  set (owns := fun m => IsProspective (m_state m) (ts_activeBatch st)).
  pose proof (Locate_sorted st owns t Hp Hu Ht) as Hl. pose proof (Locate_sorted st committed t Hp Hu Ht) as Hc.
  set (es := sort_on fst (token_entries owns _)) in *. destruct es as [|e es']; cbn [is_empty].
  - change (LocateIndexedOwner [] t) with (@Err Member K_NOT_READY) in Hl. destruct Hl as [_ ->].
    destruct (LocateIndexedOwner _ t) as [m|c]; [destruct Hc as (? & _ & ?); by exists m|]. destruct Hc as [_ Hc]. exfalso.
    unfold ring_owner in Hc. apply (ti_tokens _ Hinv) in Hm0 as Htk; [|by unfold committed_or_joining; rewrite Hc0]. destruct (m_tokens m0) as [|tk tks] eqn:Et; [done|].
    assert (Ho : {| to_token := tk; to_identity := m_identity m0 |} ∈ eligible_owners committed (ts_members st))
      by (apply elem_of_eligible_owners; exists m0; rewrite Et; split_and!; [done..|left]).
    destruct (eligible_owners _ _); [by apply not_elem_of_nil in Ho|done].
  - destruct (LocateIndexedOwner (e :: es') t) as [m|c] eqn:E; [destruct Hl as (? & _ & ->); by exists m|]. exfalso.
    rewrite LocateIndexedOwner_cyclic in E. unfold cyclic_at in E. by destruct (drop_while _ (e :: es')).
Qed.

#[global] Instance HashRoutingLaws : RoutingLaws.
Proof.
  split; cbn [ra_Hash ra_LocateOwner ra_LocateProspectiveOwner HashRouting].
  - intros key. by apply MurmurHash3_32_u32.
  - intros st s t m0 Hinv Hs Ht Hm0 Hc0. pose proof (LocateOwner_spec st s t Hs (ti_u32 _ Hinv) Ht) as Hl. destruct (LocateOwner s t) as [m|c]; [by exists m|].
    destruct Hl as [_ Hno]. by rewrite (Hno m0 Hm0) in Hc0.
  - intros st s t m0 Hinv Hs Ht Hm0 Hc0. destruct (prospective_located st s t m0) as (m & -> & ? & ?); [done..|]. by exists m.
Qed.
End hash.
