(* ===== verification/MetadataRedirect.v ===== *)
(** * Redirection of metadata requests

    master/metadata_redirect_helper.{h,cpp}: a master decides with the placement
    facade and its own tables whether it processes a metadata request, sends the
    requester elsewhere or makes it wait; and the worker's side of the protocol,
    [RedirectRetryWhenMetaMoving] of worker_oc_service_crud_common_api.h.

    Between the evaluation of a key and the check of the local tables other
    threads run, so each check has its own view of the helper, the published
    state and the metadata table ([LocalView]).  [MetaIsFound] is virtual: the
    table of the view answers it.  Fault-injection hooks are left out. *)

From S2P Require Import Prelude Ordered TopologyTypes HostPort Snapshot SnapshotState PlacementFacade.

Record MetaRedirectDecision := {
  md_redirect : bool;
  md_moving : bool;
  md_scaleOutWait : bool;
  md_targetAddress : string;
  md_topologyVersion : Z;
  md_batchEpoch : Z
}.

Record MetadataRedirectHelper := { migratingItems_ : gmap string bool; placement_ : option PlacementFacade }.

Definition new_MetadataRedirectHelper (placement : option PlacementFacade) : MetadataRedirectHelper :=
  {| migratingItems_ := ∅; placement_ := placement |}.

Definition Shutdown (h : MetadataRedirectHelper) : MetadataRedirectHelper :=
  {| migratingItems_ := migratingItems_ h; placement_ := None |}.

Definition CleanMigratingItems (keys : list string) (h : MetadataRedirectHelper) : MetadataRedirectHelper :=
  {| migratingItems_ := foldl (fun items key => delete key items) (migratingItems_ h) keys; placement_ := placement_ h |}.

Definition ItemIsMigrating (id : string) (h : MetadataRedirectHelper) : bool := has_value (migratingItems_ h !! id).

Record LocalView := { lv_helper : MetadataRedirectHelper; lv_snapshots : TopologySnapshotState; lv_found : string -> bool }.

(** [RedirectMetaInfo] of protos/utils.proto. *)
Record RedirectMetaInfo := { redirect_meta_address : string; change_meta_ids : list string; topology_version : Z }.

Definition no_info : RedirectMetaInfo := {| redirect_meta_address := ""; change_meta_ids := []; topology_version := 0 |}.

(** The fields of a response with one info and of one with a list of them. *)
Record Response := { rsp_meta_is_moving : bool; rsp_info : RedirectMetaInfo }.
Record Responses := { rsps_meta_is_moving : bool; rsps_info : list RedirectMetaInfo }.

Section helper.
Context `{IRoutingAlgorithm}.

(** *** Topology decision *)

Definition meta_decision (route : RedirectDecision) : MetaRedirectDecision :=
  let moving := bool_decide (rd_action route = WAIT) in
  {| md_redirect := bool_decide (rd_action route = REDIRECT); md_moving := moving;
     md_scaleOutWait := moving && negb (bool_decide (rd_redirectTargetAddress route = EmptyString));
     md_targetAddress := GetRedirectTargetAddress route;
     md_topologyVersion := rd_topologyVersion route; md_batchEpoch := rd_batchEpoch route |}.

Definition EvaluateMetadataRedirect (h : MetadataRedirectHelper) (read : SnapshotRead) (key : string) (cache : ThreadSnapshotCache)
    : ThreadSnapshotCache * res MetaRedirectDecision :=
  match placement_ h with
  | None => (cache, Err K_NOT_READY)
  | Some placement =>
      let '(cache, route) := EvaluateRedirect placement read key cache in (cache, meta_decision <$> route)
  end.

Definition EvaluateMetadataRedirectBatch (h : MetadataRedirectHelper) (read : SnapshotRead) (keys : list string) (cache : ThreadSnapshotCache)
    : ThreadSnapshotCache * res (list MetaRedirectDecision) :=
  match placement_ h with
  | None => (cache, Err K_NOT_READY)
  | Some placement =>
      let '(cache, routes) := EvaluateRedirectBatch placement read keys cache in
      (cache, (fun routes => meta_decision <$> br_decisions routes) <$> routes)
  end.

(** *** Local availability *)

Definition set_redirect_moving (redirect moving : bool) (d : MetaRedirectDecision) : MetaRedirectDecision :=
  {| md_redirect := redirect; md_moving := moving; md_scaleOutWait := md_scaleOutWait d; md_targetAddress := md_targetAddress d;
     md_topologyVersion := md_topologyVersion d; md_batchEpoch := md_batchEpoch d |}.

Definition ApplyMetadataAvailability (view : LocalView) (id : string) (decision : MetaRedirectDecision) : res MetaRedirectDecision :=
  if md_moving decision then
    match placement_ (lv_helper view) with
    | None => Err K_NOT_READY
    | Some _ =>
        if IsScaleOutHandoffComplete (md_batchEpoch decision) (ra_Hash id) (lv_snapshots view) then
          _ ← check (negb (bool_decide (md_targetAddress decision = EmptyString))) K_RUNTIME_ERROR;
          Ok (set_redirect_moving true false decision)
        else Ok decision
    end
  else if lv_found view id then
    let redirect := ItemIsMigrating id (lv_helper view) in Ok (set_redirect_moving redirect redirect decision)
  else Ok decision.

(** *** Handlers *)

Definition ResolveMetadataOwner `{RE2} (h : MetadataRedirectHelper) (read : SnapshotRead) (key : string) (cache : ThreadSnapshotCache)
    : ThreadSnapshotCache * res HostPort :=
  match placement_ h with
  | None => (cache, Err K_NOT_READY)
  | Some _ =>
      let '(cache, route) := Locate read key cache in
      (cache, route ≫= fun route => ParseString (pd_committedOwnerAddress route) default_HostPort)
  end.

Definition evaluate_and_apply (h : MetadataRedirectHelper) (read : SnapshotRead) (view : LocalView) (id : string) (cache : ThreadSnapshotCache)
    : ThreadSnapshotCache * res MetaRedirectDecision :=
  let '(cache, route) := EvaluateMetadataRedirect h read id cache in (cache, route ≫= ApplyMetadataAvailability view id).

Definition CheckNeedToRedirectOrNot (h : MetadataRedirectHelper) (read : SnapshotRead) (view : LocalView) (id : string) (cache : ThreadSnapshotCache)
    : ThreadSnapshotCache * res (bool * string * Z) :=
  let '(cache, route) := evaluate_and_apply h read view id cache in
  (cache, (fun route => (md_redirect route || md_moving route, md_targetAddress route, md_topologyVersion route)) <$> route).

Definition FillRedirectResponseInfo (h : MetadataRedirectHelper) (read : SnapshotRead) (view : LocalView) (id : string) (redirect : bool)
    (response : Response) (cache : ThreadSnapshotCache) : ThreadSnapshotCache * res (Response * bool) :=
  if negb redirect then (cache, Ok (response, redirect))
  else
    let '(cache, decision) := evaluate_and_apply h read view id cache in
    (cache, decision ≫= fun decision =>
       let redirect := md_redirect decision || md_moving decision in
       if md_moving decision then Ok ({| rsp_meta_is_moving := true; rsp_info := rsp_info response |}, redirect)
       else if negb (md_redirect decision) then Ok (response, redirect)
       else Ok ({| rsp_meta_is_moving := rsp_meta_is_moving response;
                   rsp_info := {| redirect_meta_address := md_targetAddress decision;
                                  change_meta_ids := change_meta_ids (rsp_info response) ++ [id];
                                  topology_version := md_topologyVersion decision |} |}, redirect)).

(** The groups of ids to redirect, by topology version and address. *)
Definition RedirectMap := list (Z * string * list string).

Record Grouping := { gr_retained : list string; gr_map : RedirectMap; gr_moving : bool }.

Definition group_id (g : Grouping) (id : string) (decision : MetaRedirectDecision) : Grouping :=
  if md_moving decision then {| gr_retained := gr_retained g; gr_map := gr_map g; gr_moving := true |}
  else if md_redirect decision then
    let key := (md_topologyVersion decision, md_targetAddress decision) in
    {| gr_retained := gr_retained g;
       gr_map := om_insert key (default [] (om_find key (gr_map g)) ++ [id]) (gr_map g); gr_moving := gr_moving g |}
  else {| gr_retained := gr_retained g ++ [id]; gr_map := gr_map g; gr_moving := gr_moving g |}.

(** [views i] is what the check of the i-th id sees. *)
Fixpoint group_ids (views : nat -> LocalView) (index : nat) (entries : list (string * MetaRedirectDecision)) (g : Grouping) : res Grouping :=
  match entries with
  | [] => Ok g
  | (id, decision) :: entries =>
      decision ← ApplyMetadataAvailability (views index) id decision;
      group_ids views (S index) entries (group_id g id decision)
  end.

Definition GroupRedirctObjectByNewMetaAddr (h : MetadataRedirectHelper) (read : SnapshotRead) (views : nat -> LocalView) (ids : list string)
    (redirectMap : RedirectMap) (cache : ThreadSnapshotCache) : ThreadSnapshotCache * res Grouping :=
  if (length ids =? 0)%nat then (cache, Ok {| gr_retained := ids; gr_map := redirectMap; gr_moving := false |})
  else
    let '(cache, decisions) := EvaluateMetadataRedirectBatch h read ids cache in
    (cache, decisions ≫= fun decisions =>
       group_ids views 0 (zip ids decisions) {| gr_retained := []; gr_map := redirectMap; gr_moving := false |}).

(** Returns the response and the ids left for this master. *)
Definition FillRedirectResponseInfos (h : MetadataRedirectHelper) (read : SnapshotRead) (views : nat -> LocalView) (ids : list string) (redirect : bool)
    (rsp : Responses) (cache : ThreadSnapshotCache) : ThreadSnapshotCache * res (Responses * list string) :=
  if negb redirect then (cache, Ok (rsp, ids))
  else
    let '(cache, grouping) := GroupRedirctObjectByNewMetaAddr h read views ids [] cache in
    (cache, grouping ≫= fun g =>
       if gr_moving g then Ok ({| rsps_meta_is_moving := true; rsps_info := rsps_info rsp |}, gr_retained g)
       else Ok ({| rsps_meta_is_moving := rsps_meta_is_moving rsp;
                   rsps_info := rsps_info rsp ++ ((fun entry => {| redirect_meta_address := entry.1.2; change_meta_ids := entry.2;
                                                                 topology_version := entry.1.1 |}) <$> gr_map g) |}, gr_retained g)).
End helper.

(** ** The requester *)

Definition initSleepTimeMs : Z := 1.
Definition maxSleepTimeMs : Z := 128.

(** What the requester's calls return: [remaining slept n] is the n-th reading of the
    request's remaining time after [slept] milliseconds of sleep, [send n api redirect rsp] the result of the n-th
    request with its response object, [master] the connection to an address.  The
    status of every request is also reported to the health observer; the reports
    are collected in [rt_observed]. *)
Section retry.
Context `{RE2} {Api : Type}.
Variable remaining : Z -> nat -> Z.
Variable send : nat -> Api -> bool -> Response -> res Response.
Variable GetWorkerMasterApi : HostPort -> option Api.

Record Retry := { rt_slept : Z; rt_reads : nat; rt_sent : nat; rt_observed : list (Api * res unit) }.

Definition status_of {A} (r : res A) : res unit := (fun _ => tt) <$> r.

Definition observed (api : Api) (r : res Response) (rt : Retry) : Retry :=
  {| rt_slept := rt_slept rt; rt_reads := rt_reads rt; rt_sent := S (rt_sent rt); rt_observed := rt_observed rt ++ [(api, status_of r)] |}.

Definition time_read (rt : Retry) : Retry :=
  {| rt_slept := rt_slept rt; rt_reads := S (rt_reads rt); rt_sent := rt_sent rt; rt_observed := rt_observed rt |}.

Definition SleepForMetaMovingRetry (sleepTimeMs : Z) (rt : Retry) : Retry :=
  if sleepTimeMs <=? 0 then rt
  else {| rt_slept := rt_slept rt + sleepTimeMs; rt_reads := rt_reads rt; rt_sent := rt_sent rt; rt_observed := rt_observed rt |}.

Definition time_left (rt : Retry) : Z := remaining (rt_slept rt) (rt_reads rt).

Definition no_response : Response := {| rsp_meta_is_moving := false; rsp_info := no_info |}.

(** The request that follows a redirect is processed where it arrives. *)
Definition follow_redirect (rsp : Response) (rt : Retry) : Retry * res Response :=
  match ParseString (redirect_meta_address (rsp_info rsp)) default_HostPort with
  | Err c => (rt, Err c)
  | Ok newMetaAddr =>
      match GetWorkerMasterApi newMetaAddr with
      | None => (rt, Err K_RUNTIME_ERROR)
      | Some api => let r := send (rt_sent rt) api false rsp in (observed api r rt, r)
      end
  end.

(** [None]: the fuel is used up; one unit per millisecond of remaining time is enough
    ([retry_ends] in RoutingClaims). *)
Fixpoint retry_loop (fuel : nat) (api : Api) (redirect : bool) (rsp : Response) (sleepTimeMs : Z) (rt : Retry) : option (Retry * res Response) :=
  match fuel with
  | O => None
  | S fuel =>
      if time_left rt <=? 0 then Some (time_read rt, Err K_RPC_DEADLINE_EXCEEDED)
      else
        let rt := time_read rt in
        let r := send (rt_sent rt) api redirect rsp in
        let rt := observed api r rt in
        match r with
        | Err c => Some (rt, Err c)
        | Ok rsp =>
            if rsp_meta_is_moving rsp then
              let remainingTimeMs := time_left rt in
              if remainingTimeMs <=? 0 then Some (time_read rt, Err K_RPC_DEADLINE_EXCEEDED)
              else
                let sleepTimeMs := Z.min sleepTimeMs remainingTimeMs in
                retry_loop fuel api redirect no_response (Z.min (sleepTimeMs * 2) maxSleepTimeMs)
                  (SleepForMetaMovingRetry sleepTimeMs (time_read rt))
            else if bool_decide (redirect_meta_address (rsp_info rsp) = EmptyString) then Some (rt, Ok rsp)
            else Some (follow_redirect rsp rt)
        end
  end.

Definition RedirectRetryWhenMetaMoving (fuel : nat) (api : Api) (redirect : bool) (rsp : Response) : option (Retry * res Response) :=
  retry_loop fuel api redirect rsp initSleepTimeMs {| rt_slept := 0; rt_reads := 0; rt_sent := 0; rt_observed := [] |}.
End retry.

(** ** Grouping loses no id *)

Lemma concat_insert {K A} `{LtKey K, EqDecision K} (k : K) (x : A) (m : list (K * list A)) : om_sorted m ->
  concat (snd <$> om_insert k (default [] (om_find k m) ++ [x]) m) ≡ₚ x :: concat (snd <$> m).
Proof.
  induction m as [|[k' v] m IH]; [done|]. intros [Hs Hk]%om_sorted_cons. cbn [om_insert om_find]. destruct (ltk k k') eqn:E1.
  - rewrite decide_False by (by apply ltk_ne). destruct (om_find k m) as [w|] eqn:Ef; [|done].
    apply om_find_elem_1, Hk in Ef. cbn in Ef. by rewrite (ltk_asym _ _ E1) in Ef.
  - destruct (ltk k' k) eqn:E2.
    + rewrite decide_False by (intros ->; congruence). cbn [fmap list_fmap snd concat]. by rewrite IH, <-Permutation_middle.
    + assert (k = k') as -> by (by apply ltk_total). rewrite decide_True by done. cbn. rewrite <-app_assoc. cbn. by rewrite <-Permutation_middle.
Qed.

Lemma group_ids_partition `{IRoutingAlgorithm} views entries : forall index g g', om_sorted (gr_map g) -> group_ids views index entries g = Ok g' ->
  exists held, gr_retained g' ++ concat (snd <$> gr_map g') ++ held ≡ₚ gr_retained g ++ concat (snd <$> gr_map g) ++ (fst <$> entries) /\
    gr_moving g' = gr_moving g || negb (bool_decide (held = [])).
Proof.
  induction entries as [|[id d] entries IH]; intros index g g' Hs Hg; cbn [group_ids] in Hg.
  { injection Hg as <-. exists []. by rewrite orb_false_r. }
  apply bind_Ok in Hg as (d' & _ & Hg). apply IH in Hg as (held & Hp & Hm); [|unfold group_id; destruct (md_moving d'), (md_redirect d'); cbn; try done; by apply om_insert_sorted]. unfold group_id in Hp, Hm. destruct (md_moving d'); [|destruct (md_redirect d')]; cbn [gr_retained gr_map gr_moving] in Hp, Hm.
  - exists (id :: held). split; [|by rewrite Hm, orb_true_r]. cbn. rewrite <-!Permutation_middle. by rewrite Hp.
  - exists held. split; [|done]. rewrite Hp, concat_insert by done. cbn. by rewrite <-!Permutation_middle.
  - exists held. split; [|done]. rewrite Hp, <-app_assoc. cbn. by rewrite <-!Permutation_middle.
Qed.

Lemma collect_length {A B} (f : A -> res B) l : forall acc out, foldM (fun built x => item ← f x; Ok (built ++ [item])) acc l = Ok out -> length out = (length acc + length l)%nat.
Proof.
  induction l as [|x l IH]; intros acc out Hf; cbn in Hf; [injection Hf as <-; cbn; lia|].
  apply bind_Ok in Hf as (acc' & Ha & Hf). apply bind_Ok in Ha as (d & _ & [= <-]). apply IH in Hf. rewrite Hf, length_app. cbn. lia.
Qed.

(** The ids a master is asked for are processed here, redirected or held; without a
    held id the response and the ids left are a partition of the request. *)
Theorem redirect_infos_partition `{IRoutingAlgorithm} h read views ids rsp cache rsp' left : rsps_info rsp = [] -> rsps_meta_is_moving rsp = false ->
  (FillRedirectResponseInfos h read views ids true rsp cache).2 = Ok (rsp', left) -> rsps_meta_is_moving rsp' = false ->
  left ++ concat (change_meta_ids <$> rsps_info rsp') ≡ₚ ids.
Proof.
  intros Hi Hm Hf Hn. unfold FillRedirectResponseInfos, GroupRedirctObjectByNewMetaAddr in Hf. cbn [negb] in Hf.
  destruct (Nat.eqb_spec (length ids) 0) as [E|_].
  { apply nil_length_inv in E as ->. cbn in Hf. injection Hf as <- <-. cbn. by rewrite Hi. }
  destruct (EvaluateMetadataRedirectBatch h read ids cache) as [cache' ds] eqn:Ee. cbn [snd] in Hf. apply bind_Ok in Hf as (g & Hg & Hf). apply bind_Ok in Hg as (decisions & -> & Hg).
  assert (Hl : length decisions = length ids).
  { unfold EvaluateMetadataRedirectBatch in Ee. destruct (placement_ h) as [pl|]; [|done]. destruct (EvaluateRedirectBatch pl read ids cache) as [c r] eqn:Eb. injection Ee as _ Er.
    destruct r as [r|]; [|done]. injection Er as <-. rewrite length_fmap. unfold EvaluateRedirectBatch, with_snapshot in Eb.
    destruct (bool_decide _); [done|]. destruct (batch_size_valid ids); [|done]. destruct (Load _ _ _ _) as [c' l]. injection Eb as _ Eb.
    apply bind_Ok in Eb as (s & _ & Eb). apply bind_Ok in Eb as (built & Eb & [= <-]). by apply collect_length in Eb. }
  apply group_ids_partition in Hg as (held & Hp & Hmv); [|constructor]. cbn [gr_retained gr_map gr_moving app] in Hp, Hmv. rewrite fst_zip in Hp by lia.
  destruct (gr_moving g) eqn:Eg; [by injection Hf as <- _|]. injection Hf as <- <-. cbn [rsps_info]. rewrite Hi. cbn [app].
  assert (held = []) as ->. { destruct held; [done|]. by cbn in Hmv. } rewrite app_nil_r in Hp. cbn in Hp. rewrite <-Hp. by rewrite <-list_fmap_compose.
Qed.
