(* ===== verification/RouteResolver.v ===== *)
(** * Routes of metadata requests

    worker/metadata_route_resolver.cpp: a worker groups the keys of a request by
    the member that owns them, or by the member a leaving worker hands them to.
    Every batch is decided on one snapshot; a large request is cut into chunks
    that each load their own. *)

From S2P Require Import Prelude Ordered TopologyTypes HostPort Snapshot SnapshotState PlacementFacade.

(** Endpoints are compared by host and port only; a group keeps the endpoint it was
    created with. *)
Definition endpoint_of (address : HostPort) : string * Z := (host_ address, port_ address).

(** [MetaOwnerRouteGroups] and [IndexedMetaOwnerRouteGroups]. *)
Record RouteGroups (A : Type) := {
  rg_topologyVersion : Z;
  rg_groups : gmap (string * Z) (HostPort * list A);
  rg_failures : gmap string StatusCode
}.
Arguments rg_topologyVersion {A}.
Arguments rg_groups {A}.
Arguments rg_failures {A}.

Definition no_groups {A} : RouteGroups A := {| rg_topologyVersion := 0; rg_groups := ∅; rg_failures := ∅ |}.

Definition fail_key {A} (key : string) (status : StatusCode) (result : RouteGroups A) : RouteGroups A :=
  {| rg_topologyVersion := rg_topologyVersion result; rg_groups := rg_groups result; rg_failures := <[key := status]> (rg_failures result) |}.

Definition RecordFailures {A} (keys : list string) (status : StatusCode) (result : RouteGroups A) : RouteGroups A :=
  foldl (fun result key => fail_key key status result) result keys.

(** [result.groups[owner].emplace_back(x)] *)
Definition add_to_group {A} (owner : HostPort) (x : A) (result : RouteGroups A) : RouteGroups A :=
  {| rg_topologyVersion := rg_topologyVersion result;
     rg_groups := match rg_groups result !! endpoint_of owner with
                  | Some (first, xs) => <[endpoint_of owner := (first, xs ++ [x])]> (rg_groups result)
                  | None => <[endpoint_of owner := (owner, [x])]> (rg_groups result)
                  end;
     rg_failures := rg_failures result |}.

Section resolver.
Context `{RE2, IRoutingAlgorithm}.

Definition GetParsedOwner (ownerAddress : string) (parsedOwners : gmap string HostPort) : gmap string HostPort * res HostPort :=
  match parsedOwners !! ownerAddress with
  | Some owner => (parsedOwners, Ok owner)
  | None =>
      match ParseString ownerAddress default_HostPort with
      | Err c => (parsedOwners, Err c)
      | Ok parsed => (<[ownerAddress := parsed]> parsedOwners, Ok parsed)
      end
  end.

Definition AddResolvedOwner {A} (key ownerAddress : string) (x : A) (acc : gmap string HostPort * RouteGroups A) : gmap string HostPort * RouteGroups A :=
  let '(parsedOwners, result) := acc in
  let '(parsedOwners, owner) := GetParsedOwner ownerAddress parsedOwners in
  (parsedOwners, match owner with Ok owner => add_to_group owner x result | Err c => fail_key key c result end).

(** The loop over the keys of one decision; [entry i key] is what is stored for a key. *)
Fixpoint add_keys {A D} (address_of : D -> res string) (entry : nat -> string -> A) (index : nat) (keys : list string) (items : list D)
    (acc : gmap string HostPort * RouteGroups A) : gmap string HostPort * RouteGroups A :=
  match keys with
  | [] => acc
  | key :: keys =>
      match items with
      | [] => add_keys address_of entry (S index) keys [] (acc.1, fail_key key K_NOT_FOUND acc.2)
      | item :: items =>
          add_keys address_of entry (S index) keys items
            (match address_of item with
             | Err c => (acc.1, fail_key key c acc.2)
             | Ok address => AddResolvedOwner key address (entry index key) acc
             end)
      end
  end.

Definition set_version {A} (version : Z) (result : RouteGroups A) : RouteGroups A :=
  {| rg_topologyVersion := version; rg_groups := rg_groups result; rg_failures := rg_failures result |}.

Definition item_address (item : res PlacementDecision) : res string := pd_committedOwnerAddress <$> item.

(** The body shared by the grouping functions: [locate] is the batch call of the facade. *)
Definition group_by_owner {A} (entry : nat -> string -> A) (placement_ : option PlacementFacade) (keys : list string)
    (locate : ThreadSnapshotCache -> ThreadSnapshotCache * res BatchPlacementDecision) (cache : ThreadSnapshotCache) : ThreadSnapshotCache * RouteGroups A :=
  if (length keys =? 0)%nat then (cache, no_groups)
  else match placement_ with
  | None => (cache, RecordFailures keys K_NOT_READY no_groups)
  | Some _ =>
      let '(cache, decision) := locate cache in
      (cache, match decision with
              | Err c => RecordFailures keys c no_groups
              | Ok decision => (add_keys item_address entry 0 keys (bp_items decision) (∅, set_version (bp_topologyVersion decision) no_groups)).2
              end)
  end.

Section entry_points.
Variable placement_ : option PlacementFacade.
Variable read : SnapshotRead.

Definition resolve (locate : ThreadSnapshotCache -> ThreadSnapshotCache * res PlacementDecision) (cache : ThreadSnapshotCache)
    : ThreadSnapshotCache * res HostPort :=
  match placement_ with
  | None => (cache, Err K_NOT_READY)
  | Some _ =>
      let '(cache, decision) := locate cache in
      (cache, decision ≫= fun decision => ParseString (pd_committedOwnerAddress decision) default_HostPort)
  end.

Definition ResolveOwner (key : string) : ThreadSnapshotCache -> ThreadSnapshotCache * res HostPort :=
  resolve (Locate read key).

Definition ResolveNewMetaOwner (key : string) : ThreadSnapshotCache -> ThreadSnapshotCache * res HostPort :=
  resolve (LocateSurvivingOwner read key).

Definition GroupOwners (keys : list string) : ThreadSnapshotCache -> ThreadSnapshotCache * RouteGroups string :=
  group_by_owner (fun _ key => key) placement_ keys (LocateBatch read keys).

Definition GroupIndexedOwners (keys : list string) : ThreadSnapshotCache -> ThreadSnapshotCache * RouteGroups (string * nat) :=
  group_by_owner (fun index key => (key, index)) placement_ keys (LocateBatch read keys).

Definition GroupIndexedNewMetaOwners (keys : list string) (cache : ThreadSnapshotCache) : ThreadSnapshotCache * RouteGroups (string * nat) :=
  if (length keys =? 0)%nat then GroupIndexedOwners keys cache
  else group_by_owner (fun index key => (key, index)) placement_ keys (LocateSurvivingOwnerBatch read keys) cache.
End entry_points.

(** *** Migration targets *)

Definition migrate_address (route : RedirectDecision) : res string :=
  Ok (if bool_decide (rd_action route = REDIRECT) then GetRedirectTargetAddress route else rd_committedOwnerAddress route).

Definition AppendRedirectChunk (facade : PlacementFacade) (read : SnapshotRead) (chunkKeys : list string) (cache : ThreadSnapshotCache)
    (result : RouteGroups string) : ThreadSnapshotCache * RouteGroups string :=
  let '(cache, decision) := EvaluateRedirectBatch facade read chunkKeys cache in
  (cache, match decision with
          | Err c => RecordFailures chunkKeys c result
          | Ok decision =>
              let version := if rg_topologyVersion result =? 0 then br_topologyVersion decision
                             else Z.min (rg_topologyVersion result) (br_topologyVersion decision) in
              (add_keys migrate_address (fun _ key => key) 0 chunkKeys (br_decisions decision) (∅, set_version version result)).2
          end).

(** [reads i] is what the i-th chunk loads; a chunk takes at least one key, so
    [length keys] chunks are enough. *)
Fixpoint append_chunks (facade : PlacementFacade) (reads : nat -> SnapshotRead) (fuel chunk : nat) (keys : list string) (cache : ThreadSnapshotCache)
    (result : RouteGroups string) : ThreadSnapshotCache * RouteGroups string :=
  match fuel with
  | O => (cache, result)
  | S fuel =>
      if (length keys =? 0)%nat then (cache, result)
      else
        let '(cache, result) := AppendRedirectChunk facade (reads chunk) (take kMaxBatchKeys keys) cache result in
        append_chunks facade reads fuel (S chunk) (drop kMaxBatchKeys keys) cache result
  end.

Definition GroupMigrateTargets (placement_ : option PlacementFacade) (reads : nat -> SnapshotRead) (keys : list string) (cache : ThreadSnapshotCache)
    : ThreadSnapshotCache * RouteGroups string :=
  if (length keys =? 0)%nat then (cache, no_groups)
  else match placement_ with
  | None => (cache, RecordFailures keys K_NOT_READY no_groups)
  | Some facade => append_chunks facade reads (length keys) 0 keys cache no_groups
  end.
End resolver.
