(* ===== verification/RoutingClaims.v ===== *)
(** * Routing: decisions, redirected requests and route groups

    The decisions of the placement facade on a snapshot of a valid topology, for
    every routing algorithm that meets [RoutingLaws]; what the master of a key
    answers; the requester's loop that follows its answers; and the groups of the
    route resolver, in which every key goes to its target, once. *)

From S2P Require Import Prelude Ordered TopologyTypes HashRing RingTheory HostPort HashAlgorithm OwnerSpec.
From S2P Require Import PlanningInterface Hasher Snapshot SnapshotState HashPlans PlanBuilder TopologySafety.
From S2P Require Import PlacementFacade MetadataRedirect RouteResolver.

(** ** Decisions on a snapshot *)

Section decisions.
Context `{RE2, SHA256, !IRoutingAlgorithm, !RoutingLaws}.

Definition ordinary (st : TopologyState) : option ActiveBatch :=
  match ts_activeBatch st with
  | Some b => if bool_decide (ab_type b = SCALE_OUT) || bool_decide (ab_type b = SCALE_IN) then Some b else None
  | None => None
  end.

(** The owner of a token and the owner it will have. *)
Record routed (st : TopologyState) (t : Z) (owner final : Member) : Prop := {
  rt_owner : owner ∈ ts_members st;
  rt_committed : committed owner = true;
  rt_ring : ring_owner committed (ts_members st) t = Some (m_identity owner);
  rt_final : final ∈ ts_members st;
  rt_next : final_owner st t = Some (m_identity final)
}.

(** What the member at [local] should decide. *)
Definition decision_spec (st : TopologyState) (owner final : Member) (local : string) : RedirectDecision :=
  let at_owner := bool_decide (m_address owner = local) in
  let moves := negb (bool_decide (m_address final = m_address owner)) in
  {| rd_topologyVersion := ts_version st;
     rd_action := if negb at_owner then REDIRECT
                  else match ordinary st with
                  | Some b => if moves then (if bool_decide (ab_type b = SCALE_OUT) then WAIT else REDIRECT) else LOCAL
                  | None => LOCAL
                  end;
     rd_committedOwnerAddress := m_address owner;
     rd_redirectTargetAddress := if at_owner && moves && has_value (ordinary st) then m_address final else "";
     rd_batchEpoch := match ordinary st with Some b => if at_owner then ab_epoch b else 0 | None => 0 end |}.

Lemma routed_unique st t owner final owner' final' : members_valid (ts_members st) -> routed st t owner final -> routed st t owner' final' ->
  owner = owner' /\ final = final'.
Proof.
  intros Hv [Ho _ Hr Hf Hn] [Ho' _ Hr' Hf' Hn']. rewrite Hr in Hr'. rewrite Hn in Hn'. injection Hr' as E. injection Hn' as E'.
  split; (apply (address_inj (ts_members st)); [done|done|done|]); unfold m_address; [by rewrite E|by rewrite E'].
Qed.

Lemma ordinary_type st b : ordinary st = Some b -> ts_activeBatch st = Some b /\ (ab_type b = SCALE_OUT \/ ab_type b = SCALE_IN).
Proof.
  unfold ordinary. destruct (ts_activeBatch st) as [b'|]; [|done]. intros Eo. destruct (_ || _) eqn:Et in Eo; [|done]. injection Eo as ->. split; [done|].
  apply orb_true_iff in Et as [Et%bool_decide_eq_true|Et%bool_decide_eq_true]; auto.
Qed.

Lemma snapshot_version st s : snapshot_of st s -> Version s = ts_version st /\ ts_activeBatch (state_ s) = ts_activeBatch st.
Proof. by intros (_ & ? & ? & ? & ? & ? & ? & ->)%snapshot_of_inv. Qed.

Lemma decisions_route st s key m0 : topology_inv st -> snapshot_of st s -> m0 ∈ ts_members st -> committed m0 = true ->
  exists owner final, routed st (ra_Hash key) owner final /\
    LocateInSnapshot s (ra_Hash key) = Ok {| pd_topologyVersion := ts_version st; pd_committedOwnerAddress := m_address owner |} /\
    forall local, EvaluateRedirectInSnapshot {| localAddress_ := local |} s key = Ok (decision_spec st owner final local).
Proof.
  intros Hinv Hs Hm0 Hc0. destruct (snapshot_version st s Hs) as [Ev Eb].
  destruct (rl_owner st s (ra_Hash key) m0) as (owner & Ho & Hin & Hc & Hr); [done..|apply rl_hash|done|done|].
  destruct (rl_prospective st s (ra_Hash key) m0) as (final & Hf & Hfin & Hfo); [done..|apply rl_hash|done|done|].
  exists owner, final. split; [by split|].
  assert (Hl : LocateInSnapshot s (ra_Hash key) = Ok {| pd_topologyVersion := ts_version st; pd_committedOwnerAddress := m_address owner |}).
  { unfold LocateInSnapshot. rewrite Ho. cbn. by rewrite Ev. }
  split; [done|]. intros local. unfold EvaluateRedirectInSnapshot, decision_spec, ordinary. rewrite Hl, Eb. cbn [mbind res_bind pd_committedOwnerAddress pd_topologyVersion localAddress_].
  destruct (bool_decide (m_address owner = local)) eqn:E; cbn [negb andb]; destruct (ts_activeBatch st) as [b|]; try done.
  - destruct (bool_decide (ab_type b = SCALE_OUT) || bool_decide (ab_type b = SCALE_IN)) eqn:Et; cbn [andb has_value].
    + rewrite (bool_decide_true (LOCAL = LOCAL)) by done. rewrite Hf. cbn [mbind res_bind not_null].
      by destruct (bool_decide (m_address final = m_address owner)).
    + by destruct (bool_decide (m_address final = m_address owner)).
  - by destruct (bool_decide (m_address final = m_address owner)).
  - destruct (bool_decide (ab_type b = SCALE_OUT) || bool_decide (ab_type b = SCALE_IN)); [|done]. by rewrite bool_decide_false.
Qed.

(** Outside an ordinary batch nothing moves. *)
Lemma no_batch_final st t owner final : members_valid (ts_members st) -> ordinary st = None -> routed st t owner final -> m_identity final = m_identity owner.
Proof.
  intros Hv Ho [_ _ Hr _ Hf]. unfold final_owner in Hf.
  destruct (ring_owner _ _ _) as [i|] eqn:E in Hf.
  - apply ring_owner_elem in E as (m & _ & Hp & _). exfalso. unfold ordinary in Ho. unfold IsProspective in Hp.
    destruct (ts_activeBatch st) as [b|]; [|done]. destruct (ab_type b); cbn in Ho; done.
  - congruence.
Qed.


(** What the decision of the member at [local] has to be. *)
Definition decides (st : TopologyState) (owner final : Member) (local : string) (d : RedirectDecision) : Prop :=
  (local <> m_address owner -> rd_action d = REDIRECT /\ GetRedirectTargetAddress d = m_address owner) /\
  (local = m_address owner ->
     (rd_action d = LOCAL <-> m_address final = m_address owner) /\
     (rd_action d <> LOCAL -> GetRedirectTargetAddress d = m_address final /\
        exists b, ts_activeBatch st = Some b /\ rd_batchEpoch d = ab_epoch b /\
          (rd_action d = WAIT <-> ab_type b = SCALE_OUT) /\ (rd_action d = REDIRECT <-> ab_type b = SCALE_IN))).

Lemma decision_facts st t owner final local : members_valid (ts_members st) -> routed st t owner final -> m_address final <> EmptyString ->
  decides st owner final local (decision_spec st owner final local).
Proof.
  intros Hv Hr Hne. pose proof (no_batch_final st t owner final Hv) as Hnb. unfold decides, decision_spec, GetRedirectTargetAddress.
  cbn [rd_action rd_redirectTargetAddress rd_committedOwnerAddress rd_batchEpoch]. split; intros Hl.
  - rewrite (bool_decide_false (m_address owner = local)) by done. done.
  - rewrite (bool_decide_true (m_address owner = local)) by done. cbn [negb andb].
    destruct (ordinary st) as [b|] eqn:Eo.
    + destruct (ordinary_type st b Eo) as [Eb Et]. case_bool_decide as Hm; cbn [negb has_value andb].
      * split; [done|]. done.
      * split; [by split; [destruct (bool_decide (ab_type b = SCALE_OUT))|]|]. intros _. rewrite bool_decide_false by done. split; [done|]. exists b.
        split_and!; [done..| |]; destruct Et as [-> | ->]; done.
    + assert (Hf : m_address final = m_address owner) by (unfold m_address; by rewrite Hnb). by rewrite Hf.
Qed.

End decisions.

(** ** The answer of the owner *)

Inductive Verdict := Serve | Hold | Forward.

Section answers.
Context `{RE2, SHA256, !IRoutingAlgorithm, !RoutingLaws}.
Variables (st : TopologyState) (s : TopologySnapshot) (key : string) (owner final : Member).

Definition moving_out : bool :=
  match ordinary st with Some b => bool_decide (ab_type b = SCALE_OUT) && negb (bool_decide (m_address final = m_address owner)) | None => false end.
Definition moving_in : bool :=
  match ordinary st with Some b => bool_decide (ab_type b = SCALE_IN) && negb (bool_decide (m_address final = m_address owner)) | None => false end.

Definition epoch : Z := match ordinary st with Some b => ab_epoch b | None => 0 end.

(** Serve what is here and not on its way out, or what nobody else will own; hold
    what is on its way; forward the rest. *)
Definition verdict (view : LocalView) : Verdict :=
  if moving_out then (if IsScaleOutHandoffComplete epoch (ra_Hash key) (lv_snapshots view) then Forward else Hold)
  else if lv_found view key then (if ItemIsMigrating key (lv_helper view) then Hold else Serve)
  else if moving_in then Forward else Serve.

Definition answer_of (v : Verdict) (rsp : Response) : Response * bool :=
  match v with
  | Serve => (rsp, false)
  | Hold => ({| rsp_meta_is_moving := true; rsp_info := rsp_info rsp |}, true)
  | Forward => ({| rsp_meta_is_moving := rsp_meta_is_moving rsp;
                   rsp_info := {| redirect_meta_address := m_address final; change_meta_ids := change_meta_ids (rsp_info rsp) ++ [key];
                                  topology_version := ts_version st |} |}, true)
  end.

(** A master whose reader loads the snapshot. *)
Definition ready (read : SnapshotRead) (cache : ThreadSnapshotCache) (view : LocalView) : Prop :=
  (Load (sr_generation read) (sr_alive read) (sr_state read) cache).2 = Ok s /\ is_Some (placement_ (lv_helper view)).

Lemma owner_answers read cache view rsp h : topology_inv st -> snapshot_of st s -> routed st (ra_Hash key) owner final ->
  ready read cache view -> placement_ h = Some {| localAddress_ := m_address owner |} ->
  (FillRedirectResponseInfo h read view key true rsp cache).2 = Ok (answer_of (verdict view) rsp).
Proof.
  intros Hinv Hs Hr [Hload [pl Hpl]] Hh. destruct (decisions_route st s key owner Hinv Hs (rt_owner _ _ _ _ Hr) (rt_committed _ _ _ _ Hr)) as (owner' & final' & Hr' & _ & He).
  destruct (routed_unique st (ra_Hash key) owner final owner' final') as [<- <-]; [apply Hinv|done..|].
  pose proof (mv_shape _ (ti_members _ Hinv) _ (rt_owner _ _ _ _ Hr)) as [_ Hno]. pose proof (mv_shape _ (ti_members _ Hinv) _ (rt_final _ _ _ _ Hr)) as [_ Hnf].
  unfold FillRedirectResponseInfo, evaluate_and_apply, EvaluateMetadataRedirect. rewrite Hh. unfold EvaluateRedirect, with_snapshot. cbn [negb localAddress_].
  rewrite bool_decide_false by done. destruct (Load _ _ _ cache) as [cache' loaded]. cbn [snd] in Hload. subst loaded.
  cbn [mbind res_bind snd]. rewrite He. cbn [fmap res_fmap mbind res_bind].
  unfold verdict, moving_out, moving_in, epoch, decision_spec. rewrite (bool_decide_true (m_address owner = m_address owner)) by done. cbn [negb andb].
  unfold ApplyMetadataAvailability, meta_decision, GetRedirectTargetAddress, set_redirect_moving.
  destruct (ordinary st) as [b|] eqn:Eo; cbn [has_value andb]; [destruct (ordinary_type st b Eo) as [_ [-> | ->]]|];
    (destruct (decide (m_address final = m_address owner)) as [Hm|Hm]; [rewrite ?(bool_decide_true _ Hm)|rewrite ?(bool_decide_false _ Hm)]);
    cbn [negb andb]; rewrite ?(bool_decide_false _ Hnf);
    try (destruct (lv_found view key); [by destruct (ItemIsMigrating key (lv_helper view))|reflexivity]).
  change (bool_decide (SCALE_OUT = SCALE_OUT)) with true. cbn [andb md_moving]. change (bool_decide (WAIT = WAIT)) with true. cbn [md_batchEpoch rd_batchEpoch]. rewrite Hpl.
  destruct (IsScaleOutHandoffComplete _ _ _); reflexivity.
Qed.
End answers.

(** ** The requester's loop *)

Section requester.
Context `{RE2} {Api : Type}.
Variable remaining : Z -> nat -> Z.
Variable send : nat -> Api -> bool -> Response -> res Response.
Variable GetWorkerMasterApi : HostPort -> option Api.

(** Time passes at least while the requester sleeps. *)
Hypothesis clock : forall slept d n n', 0 <= d -> (n <= n')%nat -> remaining (slept + d) n' <= remaining slept n - d.

Lemma retry_ends fuel : forall api redirect rsp sleepTimeMs (rt : Retry), 0 < sleepTimeMs -> 0 <= time_left remaining rt < Z.of_nat fuel \/ (time_left remaining rt <= 0 /\ (0 < fuel)%nat) ->
  is_Some (retry_loop remaining send GetWorkerMasterApi fuel api redirect rsp sleepTimeMs rt).
Proof.
  induction fuel as [|fuel IH]; intros api redirect rsp sleepTimeMs rt Hs Hf; [lia|]. cbn [retry_loop].
  destruct (Z.leb_spec (time_left remaining rt) 0) as [|Hpos]; [done|]. destruct (send _ _ _ _) as [rsp'|c]; [|done].
  destruct (rsp_meta_is_moving rsp'); [|by case_bool_decide].
  set (rt1 := observed api (Ok rsp') (time_read rt)). assert (H1 : time_left remaining rt1 <= time_left remaining rt).
  { unfold time_left, rt1. cbn. pose proof (clock (rt_slept rt) 0 (rt_reads rt) (S (rt_reads rt))). rewrite Z.add_0_r in *. lia. }
  destruct (Z.leb_spec (time_left remaining rt1) 0) as [|Hpos1]; [done|]. set (d := Z.min sleepTimeMs (time_left remaining rt1)).
  apply IH; [unfold maxSleepTimeMs; lia|].
  assert (H2 : time_left remaining (SleepForMetaMovingRetry d (time_read rt1)) <= time_left remaining rt1 - d).
  { unfold SleepForMetaMovingRetry. rewrite (proj2 (Z.leb_gt d 0)) by lia. unfold time_left. cbn [rt_slept rt_reads time_read]. apply clock; lia. }
  lia.
Qed.

(** It sleeps no longer than the time it was given. *)
Lemma retry_sleeps fuel : forall api redirect rsp sleepTimeMs (rt : Retry) out, 0 < sleepTimeMs -> 0 <= rt_slept rt <= Z.max 0 (remaining 0 0%nat) ->
  retry_loop remaining send GetWorkerMasterApi fuel api redirect rsp sleepTimeMs rt = Some out -> rt_slept out.1 <= Z.max 0 (remaining 0 0%nat).
Proof.
  induction fuel as [|fuel IH]; intros api redirect rsp sleepTimeMs rt out Hs Hb Hr; [done|]. cbn [retry_loop] in Hr.
  destruct (time_left remaining rt <=? 0); [injection Hr as <-; apply Hb|]. destruct (send _ _ _ _) as [rsp'|c]; [|injection Hr as <-; apply Hb].
  destruct (rsp_meta_is_moving rsp').
  2: { case_bool_decide; injection Hr as <-; [apply Hb|]. unfold follow_redirect. repeat case_match; apply Hb. }
  set (rt1 := observed api (Ok rsp') (time_read rt)) in Hr. destruct (Z.leb_spec (time_left remaining rt1) 0) as [|Hpos]; [injection Hr as <-; apply Hb|].
  set (d := Z.min sleepTimeMs (time_left remaining rt1)) in Hr. apply IH in Hr; [done|unfold maxSleepTimeMs; lia|].
  unfold SleepForMetaMovingRetry. rewrite (proj2 (Z.leb_gt d 0)) by lia. cbn [rt_slept time_read].
  assert (H1 : time_left remaining rt1 <= remaining 0 0%nat - rt_slept rt).
  { unfold time_left, rt1. cbn. pose proof (clock 0 (rt_slept rt) 0%nat (S (rt_reads rt)) ltac:(lia) ltac:(lia)) as Hc. by rewrite Z.add_0_l in Hc. }
  change (rt_slept rt1) with (rt_slept rt). lia.
Qed.

(** What the answers of the first master lead to; any request may fail on its way. *)
Section answers.
Variables (st : TopologyState) (key : string) (final : Member) (answers : nat -> Verdict) (faults : nat -> option StatusCode) (home away : Api) (endpoint : HostPort).
Hypothesis home_answers : forall n, send n home true no_response =
  match faults n with Some c => Err c | None => Ok (answer_of st key final (answers n) no_response).1 end.
Hypothesis away_address : m_address final <> EmptyString /\ ParseString (m_address final) default_HostPort = Ok endpoint /\ GetWorkerMasterApi endpoint = Some away.

Lemma retry_outcome fuel : forall sleepTimeMs (rt : Retry) out, retry_loop remaining send GetWorkerMasterApi fuel home true no_response sleepTimeMs rt = Some out ->
  exists k, (k <= fuel)%nat /\ (forall i, (i < k)%nat -> faults (rt_sent rt + i)%nat = None /\ answers (rt_sent rt + i)%nat = Hold) /\
    let held n := rt_observed rt ++ replicate n (home, Ok tt) in
    (out.2 = Err K_RPC_DEADLINE_EXCEEDED /\ rt_observed out.1 = held k \/
     (exists c, faults (rt_sent rt + k)%nat = Some c /\ out.2 = Err c /\ rt_observed out.1 = held k ++ [(home, Err c)]) \/
     faults (rt_sent rt + k)%nat = None /\ answers (rt_sent rt + k)%nat = Serve /\ out.2 = Ok no_response /\ rt_observed out.1 = held (S k) \/
     faults (rt_sent rt + k)%nat = None /\ answers (rt_sent rt + k)%nat = Forward /\
       out.2 = send (S (rt_sent rt + k)) away false (answer_of st key final Forward no_response).1 /\
       rt_observed out.1 = held (S k) ++ [(away, status_of out.2)]).
Proof.
  induction fuel as [|fuel IH]; intros sleepTimeMs rt out Hr; [done|]. cbn [retry_loop] in Hr.
  destruct (time_left remaining rt <=? 0).
  { injection Hr as <-. exists 0%nat. split_and!; [lia|lia|]. left. cbn. by rewrite app_nil_r. }
  change (rt_sent (time_read rt)) with (rt_sent rt) in Hr. rewrite home_answers in Hr. destruct (faults (rt_sent rt)) as [c|] eqn:Ef.
  { injection Hr as <-. exists 0%nat. split_and!; [lia|lia|]. right. left. exists c. rewrite Nat.add_0_r. cbn [replicate]. by rewrite app_nil_r. }
  destruct (answers (rt_sent rt)) eqn:Ea; cbn [answer_of fst rsp_meta_is_moving rsp_info no_response] in Hr.
  - rewrite bool_decide_true in Hr by done. injection Hr as <-. exists 0%nat. split_and!; [lia|lia|]. do 2 right. left. by rewrite Nat.add_0_r.
  - set (rt1 := observed home _ _) in Hr. destruct (time_left remaining rt1 <=? 0).
    { injection Hr as <-. exists 1%nat. split_and!; [lia|intros i Hi; assert (i = 0%nat) as -> by lia; by rewrite Nat.add_0_r|]. left. done. }
    apply IH in Hr as (k & Hkf & Hk & Hr). set (rt2 := SleepForMetaMovingRetry _ _) in *.
    assert (E : rt_sent rt2 = S (rt_sent rt) /\ rt_observed rt2 = rt_observed rt ++ [(home, Ok tt)]) by (unfold rt2, SleepForMetaMovingRetry; by destruct (_ <=? _)).
    destruct E as [Es Eo]. rewrite Es, Eo in *. exists (S k). split_and!; [lia| |].
    { intros [|i] Hi; [by rewrite Nat.add_0_r|]. rewrite <-Nat.add_succ_comm. apply Hk. lia. }
    rewrite <-Nat.add_succ_comm. cbn zeta in Hr |- *. cbn [replicate] in Hr |- *. rewrite <-!app_assoc in Hr. rewrite <-!app_assoc. exact Hr.
  - destruct away_address as (Hne & Hp & Hg). cbn in Hr. rewrite bool_decide_false in Hr by done. injection Hr as <-. exists 0%nat. split_and!; [lia|lia|].
    do 3 right. unfold follow_redirect. cbn [rsp_info redirect_meta_address]. rewrite Hp, Hg. rewrite Nat.add_0_r. by split_and!.
Qed.
End answers.
End requester.

(** ** A request and its masters *)

Section world.
Context `{RE2, SHA256, !IRoutingAlgorithm, !RoutingLaws}.
Variables (st : TopologyState) (s : TopologySnapshot) (key : string).

(** When the n-th request arrives at an address: the tables there and the reader;
    [w_fault]: the request or its answer is lost on the way. *)
Record World := { w_view : nat -> string -> LocalView; w_read : nat -> string -> SnapshotRead; w_cache : nat -> string -> ThreadSnapshotCache;
                  w_fault : nat -> string -> option StatusCode }.

(** Every member has published the snapshot and is not shut down. *)
Definition settled (w : World) : Prop := forall n a,
  ready s (w_read w n a) (w_cache w n a) (w_view w n a) /\ placement_ (lv_helper (w_view w n a)) = Some {| localAddress_ := a |}.

(** The response of the master at an address; a request it answers without
    redirecting is processed there. *)
Definition master (w : World) (n : nat) (address : string) (redirect : bool) (rsp : Response) : res Response :=
  match w_fault w n address with
  | Some c => Err c
  | None => fst <$> (FillRedirectResponseInfo (lv_helper (w_view w n address)) (w_read w n address) (w_view w n address) key redirect rsp (w_cache w n address)).2
  end.

(** Connections are named by the address they lead to. *)
Definition connect (endpoint : HostPort) : option string := Some (ToString endpoint).

Lemma address_parses m : topology_inv st -> m ∈ ts_members st -> exists endpoint, ParseString (m_address m) default_HostPort = Ok endpoint /\ ToString endpoint = m_address m.
Proof.
  intros Hinv Hm. pose proof (ti_address _ Hinv _ Hm) as Ha. unfold ValidateAddress in Ha. apply check_Ok in Ha. apply andb_true_iff in Ha as [_ Ha].
  unfold canonical_address in Ha. destruct (ParseString _ _) as [e|c]; [|done]. exists e. split; [done|]. by apply bool_decide_eq_true in Ha.
Qed.

(** C14: a metadata request ends at the member that has the metadata.  All members being
    on one snapshot, the requester asks the owner it resolves.  Whatever happens in the
    tables meanwhile and whatever requests are lost, the loop ends: it asks at most once
    per millisecond it was given, and sleeps no longer than the time it was given.  It
    asks only the owner, which held the request each time but the last.  Then the time
    is over, or the request is lost and its error returned, or the request is processed:
    by the owner if the metadata is there and not on its way out, or is not there and
    does not move, and by the owner after the batch if the key was handed over in a
    scale-out, or is not there in a scale-in.  No other member is asked. *)
Theorem metadata_request_served w remaining owner final read cache : topology_inv st -> snapshot_of st s ->
  routed st (ra_Hash key) owner final -> settled w -> (Load (sr_generation read) (sr_alive read) (sr_state read) cache).2 = Ok s ->
  (forall slept d n n', 0 <= d -> (n <= n')%nat -> remaining (slept + d) n' <= remaining slept n - d) ->
  let fuel := S (Z.to_nat (remaining 0 0%nat)) in
  exists endpoint rt r k,
    (ResolveOwner (Some {| localAddress_ := "" |}) read key cache).2 = Ok endpoint /\ connect endpoint = Some (m_address owner) /\
    RedirectRetryWhenMetaMoving remaining (master w) connect fuel (m_address owner) true no_response = Some (rt, r) /\
    (k <= fuel)%nat /\ rt_slept rt <= Z.max 0 (remaining 0 0%nat) /\
    (forall i, (i < k)%nat -> w_fault w i (m_address owner) = None /\ verdict st key owner final (w_view w i (m_address owner)) = Hold) /\
    let last := verdict st key owner final (w_view w k (m_address owner)) in
    let asked := fst <$> rt_observed rt in
    (r = Err K_RPC_DEADLINE_EXCEEDED /\ asked = replicate k (m_address owner) \/
     (exists c, w_fault w k (m_address owner) = Some c /\ r = Err c /\ asked = replicate (S k) (m_address owner)) \/
     w_fault w k (m_address owner) = None /\
       (last = Serve /\ r = Ok no_response /\ asked = replicate (S k) (m_address owner) \/
        last = Forward /\ asked = replicate (S k) (m_address owner) ++ [m_address final] /\
          status_of r = match w_fault w (S k) (m_address final) with Some c => Err c | None => Ok tt end)).
Proof.
  intros Hinv Hs Hr Hw Hload Hclock fuel. destruct (address_parses owner Hinv (rt_owner _ _ _ _ Hr)) as (home & Hh & Eh).
  destruct (address_parses final Hinv (rt_final _ _ _ _ Hr)) as (away & Ha & Ea).
  assert (Hans : forall n, master w n (m_address owner) true no_response = match w_fault w n (m_address owner) with Some c => Err c | None =>
    Ok (answer_of st key final (verdict st key owner final (w_view w n (m_address owner))) no_response).1 end).
  { intros n. unfold master. destruct (w_fault w n (m_address owner)); [done|]. destruct (Hw n (m_address owner)) as [Hready Hpl].
    by rewrite (owner_answers st s key owner final) by done. }
  set (rt0 := {| rt_slept := 0; rt_reads := 0; rt_sent := 0; rt_observed := ([] : list (string * res unit)) |}).
  destruct (retry_ends remaining (master w) connect Hclock fuel (m_address owner) true no_response initSleepTimeMs rt0) as [[rt r] Hrun];
    [done|unfold time_left, fuel; cbn [rt_slept rt_reads rt0]; lia|].
  destruct (decisions_route st s key owner Hinv Hs (rt_owner _ _ _ _ Hr) (rt_committed _ _ _ _ Hr)) as (owner' & final' & Hr' & Hl & _).
  destruct (routed_unique st (ra_Hash key) owner final owner' final') as [<- <-]; [apply Hinv|done..|].
  pose proof (mv_shape _ (ti_members _ Hinv) _ (rt_final _ _ _ _ Hr)) as [_ Hne].
  assert (Hconn : connect away = Some (m_address final)) by (unfold connect; by rewrite Ea).
  destruct (retry_outcome remaining (master w) connect st key final (fun n => verdict st key owner final (w_view w n (m_address owner)))
    (fun n => w_fault w n (m_address owner)) (m_address owner) (m_address final) away
    Hans (conj Hne (conj Ha Hconn)) _ _ _ _ Hrun) as (k & Hkf & Hk & Hout).
  exists home, rt, r, k. split_and!; [|unfold connect; by rewrite Eh|done|done| |done|].
  { unfold ResolveOwner, resolve, Locate, with_snapshot. destruct (Load _ _ _ cache) as [c l]. cbn in Hload. subst l. cbn [mbind res_bind snd]. by rewrite Hl. }
  { eapply (retry_sleeps remaining (master w) connect Hclock fuel _ _ _ _ rt0 (rt, r)); [|cbn; lia|exact Hrun]. done. }
  cbn [rt_sent rt_observed app Nat.add fst snd rt0] in Hout |- *.
  destruct Hout as [[-> Ho]|[(c & Hf & -> & Ho)|[(Hf & Hv & -> & Ho)|(Hf & Hv & Hr2 & Ho)]]]; rewrite Ho, ?fmap_app, fmap_replicate.
  - left. done.
  - right. left. exists c. split_and!; [done|done|]. cbn. by rewrite <-replicate_S_end.
  - right. right. split; [done|]. left. done.
  - right. right. split; [done|]. right. split_and!; [done|done|]. rewrite Hr2. unfold master.
    destruct (w_fault w (S k) (m_address final)); done.
Qed.
End world.

(** ** Witnesses: a scale-in of C, with the hash algorithm *)

Import Demo ReferenceEngine ReferenceDigest SafetyDemo.

Module RoutingDemo.
Definition draining_C : TopologyState := {|
  ts_clusterHasInit := true; ts_version := 8;
  ts_members := [mk idA ACTIVE [100; 3000000000]; mk idB ACTIVE [2000; 4000000000]; mk idC LEAVING [50; 2500000000]];
  ts_activeBatch := Some {| ab_type := SCALE_IN; ab_epoch := 8 |}; ts_tokensPerMember := 2 |}.

Lemma draining_C_inv : topology_inv draining_C.
Proof. apply topology_inv_intro. vm_compute. reflexivity. Qed.

Definition memberC : Member := mk idC LEAVING [50; 2500000000].
Lemma memberC_elem : memberC ∈ ts_members draining_C.
Proof. right. right. left. Qed.

Definition demo_read (s : TopologySnapshot) : SnapshotRead :=
  {| sr_generation := 0; sr_alive := false; sr_state := store_current (Some s) (new_TopologySnapshotState 1) |}.

(** Nobody has the metadata. *)
Definition demo_world (s : TopologySnapshot) : World := {|
  w_view _ a := {| lv_helper := new_MetadataRedirectHelper (Some {| localAddress_ := a |}); lv_snapshots := sr_state (demo_read s); lv_found _ := false |};
  w_read _ _ := demo_read s; w_cache _ _ := new_ThreadSnapshotCache; w_fault _ _ := None |}.

(** A clock that does not run but while asleep. *)
Definition demo_remaining (slept : Z) (_ : nat) : Z := 10 - slept.
End RoutingDemo.
Import RoutingDemo.


Lemma metadata_request_served_witness : exists s owner final, snapshot_of draining_C s /\ routed draining_C (Hash "object-1") owner final /\
  settled s (demo_world s) /\
  exists rt r, RedirectRetryWhenMetaMoving demo_remaining (master "object-1" (demo_world s)) connect 11 (m_address owner) true no_response = Some (rt, r).
Proof.
  destruct (Create draining_C 5 demo_digest ∅ true "c") as [s|c] eqn:Es; [|vm_compute in Es; discriminate Es].
  assert (Hs : snapshot_of draining_C s) by (exists 5, demo_digest, ∅, true, "c"%string; exact Es).
  destruct (decisions_route draining_C s "object-1" memberC draining_C_inv Hs memberC_elem eq_refl) as (owner & final & Hr & _).
  assert (Hw : settled s (demo_world s)) by (intros n a; split; [split; [reflexivity|by eexists]|reflexivity]).
  exists s, owner, final. split; [exact Hs|]. split; [exact Hr|]. split; [exact Hw|].
  destruct (metadata_request_served draining_C s "object-1" (demo_world s) demo_remaining owner final (demo_read s) new_ThreadSnapshotCache
    draining_C_inv Hs Hr Hw eq_refl ltac:(intros slept d n n' Hd Hn; unfold demo_remaining; lia)) as (endpoint & rt & r & k & _ & _ & Hrun & _).
  exists rt, r. exact Hrun.
Defined.

Example redirected_to_final : exists s rt r, Create draining_C 5 demo_digest ∅ true "c" = Ok s /\
  RedirectRetryWhenMetaMoving demo_remaining (master "object-1" (demo_world s)) connect 11 (mi_address idC) true no_response = Some (rt, r) /\
  fst <$> rt_observed rt = [mi_address idC; mi_address idA].
Proof.
  destruct (Create draining_C 5 demo_digest ∅ true "c") as [s|c] eqn:Es; [|vm_compute in Es; discriminate Es].
  vm_compute in Es. injection Es as <-. do 3 eexists. split; [reflexivity|]. split; [vm_compute; reflexivity|]. reflexivity.
Qed.

(** ** Groups as a list of routed keys *)

(** A routed key: what is stored for it, the key, and its target or error. *)
Definition Routed (A : Type) : Type := A * string * res HostPort.

Definition in_group {A} (endpoint : string * Z) (entry : Routed A) : option A :=
  match entry.2 with Ok owner => if bool_decide (endpoint_of owner = endpoint) then Some entry.1.1 else None | Err _ => None end.

Definition failure {A} (key : string) (entry : Routed A) : option StatusCode :=
  match entry.2 with Ok _ => None | Err c => if bool_decide (entry.1.2 = key) then Some c else None end.

Definition group {A} (result : RouteGroups A) (endpoint : string * Z) : list A := default [] (snd <$> rg_groups result !! endpoint).

Record represents {A} (entries : list (Routed A)) (result : RouteGroups A) : Prop := {
  rp_group endpoint : group result endpoint = omap (in_group endpoint) entries;
  rp_failure key : rg_failures result !! key = last (omap (failure key) entries)
}.

Lemma represents_empty {A} : represents [] (@no_groups A).
Proof. by split. Qed.

Lemma represents_version {A} entries (result : RouteGroups A) version : represents entries result -> represents entries (set_version version result).
Proof. by intros [Hg Hf]. Qed.

Lemma represents_fail {A} entries (result : RouteGroups A) (x : A) key c : represents entries result -> represents (entries ++ [(x, key, Err c)]) (fail_key key c result).
Proof.
  intros [Hg Hf]. split; intros k; rewrite omap_app; cbn.
  - rewrite app_nil_r. apply Hg.
  - case_bool_decide as E; [subst; by rewrite lookup_insert, decide_True, last_snoc|]. by rewrite lookup_insert_ne, app_nil_r.
Qed.

Lemma represents_add {A} entries (result : RouteGroups A) (x : A) key owner : represents entries result -> represents (entries ++ [(x, key, Ok owner)]) (add_to_group owner x result).
Proof.
  intros [Hg Hf]. split; intros k; rewrite omap_app; cbn.
  - specialize (Hg k). unfold group, add_to_group in *. cbn [rg_groups]. case_bool_decide as E.
    + subst k. destruct (rg_groups result !! endpoint_of owner) as [[first xs]|] eqn:El; rewrite lookup_insert, decide_True by done; cbn in *; by rewrite <-Hg.
    + rewrite app_nil_r, <-Hg. by destruct (rg_groups result !! endpoint_of owner) as [[first xs]|] eqn:El; rewrite lookup_insert_ne.
  - rewrite app_nil_r. apply Hf.
Qed.

Lemma represents_failures keys c : forall entries (result : RouteGroups string), represents entries result ->
  represents (entries ++ ((fun key => (key, key, Err c)) <$> keys)) (RecordFailures keys c result).
Proof.
  induction keys as [|key keys IH]; intros entries result Hr; cbn; [by rewrite app_nil_r|].
  rewrite (cons_middle _ entries), app_assoc. by apply IH, represents_fail.
Qed.

Lemma omap_imap_ext {A B C D} (f : B -> option C) (h : D -> option C) (l : list A) : forall (g : nat -> A -> B) (g' : nat -> A -> D),
  (forall i x, l !! i = Some x -> f (g i x) = h (g' i x)) -> omap f (imap g l) = omap h (imap g' l).
Proof.
  induction l as [|x l IH]; intros g g' He; [done|]. cbn. rewrite (He 0%nat x eq_refl). rewrite (IH _ (g' ∘ S)); [done|]. intros i y Hi. by apply He.
Qed.

Lemma omap_imap_none {A B C} (f : B -> option C) (l : list A) : forall (g : nat -> A -> B),
  (forall i x, l !! i = Some x -> f (g i x) = None) -> omap f (imap g l) = [].
Proof. induction l as [|x l IH]; intros g He; [done|]. cbn. rewrite (He 0%nat x eq_refl). apply IH. intros i y Hi. by apply He. Qed.

(** ** One decision *)

Section groups.
Context `{RE2}.

Definition parsed_ok (parsedOwners : gmap string HostPort) : Prop :=
  map_Forall (fun address owner => ParseString address default_HostPort = Ok owner) parsedOwners.

Lemma GetParsedOwner_ok address parsedOwners : parsed_ok parsedOwners ->
  parsed_ok (GetParsedOwner address parsedOwners).1 /\ (GetParsedOwner address parsedOwners).2 = ParseString address default_HostPort.
Proof.
  intros Hp. unfold GetParsedOwner. destruct (parsedOwners !! address) as [owner|] eqn:E; [split; [done|]; symmetry; by apply Hp|].
  destruct (ParseString address default_HostPort) as [owner|c] eqn:Ep; [|done]. split; [|done]. by apply map_Forall_insert.
Qed.

Lemma add_resolved {A} entries key address (x : A) acc : parsed_ok acc.1 -> represents entries acc.2 ->
  parsed_ok (AddResolvedOwner key address x acc).1 /\
  represents (entries ++ [(x, key, ParseString address default_HostPort)]) (AddResolvedOwner key address x acc).2.
Proof.
  intros Hp Hr. destruct acc as [parsed result]. unfold AddResolvedOwner. destruct (GetParsedOwner_ok address parsed Hp) as [Hp' E].
  destruct (GetParsedOwner address parsed) as [parsed' owner]. cbn in *. subst owner. split; [done|].
  destruct (ParseString address default_HostPort); [by apply represents_add|by apply represents_fail].
Qed.

(** Every key gets the item at its position. *)
Lemma add_keys_represents {A D} (address_of : D -> res string) (entry : nat -> string -> A) items : forall index keys entries acc,
  length items = length keys -> parsed_ok acc.1 -> represents entries acc.2 ->
  represents (entries ++ imap (fun i '(key, item) => (entry (index + i)%nat key, key, address ← address_of item; ParseString address default_HostPort)) (zip keys items))
    (add_keys address_of entry index keys items acc).2.
Proof.
  induction items as [|item items IH]; intros index [|key keys] entries acc Hl Hp Hr; try done; cbn [add_keys zip zip_with imap].
  { by rewrite app_nil_r. }
  rewrite Nat.add_0_r. set (acc' := match address_of item with Ok _ => _ | Err _ => _ end).
  assert (Ha : parsed_ok acc'.1 /\ represents (entries ++ [(entry index key, key, address ← address_of item; ParseString address default_HostPort)]) acc'.2).
  { subst acc'. destruct (address_of item) as [address|c]; cbn [mbind res_bind]; [by apply add_resolved|]. split; [done|]. by apply represents_fail. }
  destruct Ha as [Hp' Hr']. cbn in Hl. specialize (IH (S index) keys _ acc' ltac:(lia) Hp' Hr'). rewrite <-app_assoc in IH. cbn [app] in IH.
  erewrite imap_ext; [exact IH|]. intros i [k it] _. cbn. by rewrite Nat.add_succ_r.
Qed.
End groups.

(** ** Migration targets *)

Section targets.
Context `{RE2, SHA256, !IRoutingAlgorithm, !RoutingLaws}.
Variable facade : PlacementFacade.

(** A snapshot of a valid topology with an owner. *)
Definition good (s : TopologySnapshot) : Prop :=
  exists st m0, topology_inv st /\ snapshot_of st s /\ m0 ∈ ts_members st /\ committed m0 = true.

Definition migrate_target (s : TopologySnapshot) (key : string) : res HostPort :=
  d ← EvaluateRedirectInSnapshot facade s key;
  address ← migrate_address d;
  ParseString address default_HostPort.

(** The member a key goes to: the next owner if this member drains, else the owner. *)
Definition heir (st : TopologyState) (owner final : Member) : string :=
  match ts_activeBatch st with
  | Some b => if bool_decide (m_address owner = localAddress_ facade) && bool_decide (ab_type b = SCALE_IN) then m_address final else m_address owner
  | None => m_address owner
  end.

Lemma spec_address st t owner final : members_valid (ts_members st) -> routed st t owner final -> m_address final <> EmptyString ->
  migrate_address (decision_spec st owner final (localAddress_ facade)) = Ok (heir st owner final).
Proof.
  intros Hv Hr Hne. destruct (decision_facts st t owner final (localAddress_ facade) Hv Hr Hne) as [Hother Hown].
  set (d := decision_spec st owner final (localAddress_ facade)) in *. assert (Hc : rd_committedOwnerAddress d = m_address owner) by done.
  unfold migrate_address, heir. rewrite Hc. f_equal. destruct (decide (localAddress_ facade = m_address owner)) as [El|El].
  - destruct (Hown El) as [Hloc Hmove]. rewrite (bool_decide_true (m_address owner = localAddress_ facade)) by done. cbn [andb].
    destruct (rd_action d) eqn:Ea.
    + rewrite bool_decide_false by done. rewrite (proj1 Hloc eq_refl). destruct (ts_activeBatch st); [|done]. by case_bool_decide.
    + destruct (Hmove ltac:(done)) as (-> & b & -> & _ & _ & Hin). rewrite !bool_decide_true; [done|by apply Hin|done].
    + destruct (Hmove ltac:(done)) as (_ & b & -> & _ & Hout & _). rewrite !bool_decide_false; [done| |done]. rewrite (proj1 Hout eq_refl). done.
  - destruct (Hother El) as [-> ->]. rewrite bool_decide_true by done. rewrite (bool_decide_false (m_address owner = localAddress_ facade)) by done. by destruct (ts_activeBatch st).
Qed.

Lemma target_spec st s key m0 : topology_inv st -> snapshot_of st s -> m0 ∈ ts_members st -> committed m0 = true ->
  exists owner final endpoint, routed st (ra_Hash key) owner final /\ migrate_target s key = Ok endpoint /\ ToString endpoint = heir st owner final /\
    is_ok (EvaluateRedirectInSnapshot facade s key) = true.
Proof.
  intros Hinv Hs Hm0 Hc0. destruct (decisions_route st s key m0 Hinv Hs Hm0 Hc0) as (owner & final & Hr & _ & He). exists owner, final.
  pose proof (mv_shape _ (ti_members _ Hinv) _ (rt_final _ _ _ _ Hr)) as [_ Hne].
  assert (Hh : exists m, m ∈ ts_members st /\ m_address m = heir st owner final).
  { unfold heir. destruct (ts_activeBatch st) as [b|]; [destruct (_ && _)|]; eexists; (split; [|reflexivity]); apply Hr. }
  destruct Hh as (m & Hm & Em). destruct (address_parses st m Hinv Hm) as (endpoint & Hp & Et). exists endpoint. rewrite Em in Hp, Et.
  assert (E : EvaluateRedirectInSnapshot facade s key = Ok (decision_spec st owner final (localAddress_ facade))) by (rewrite <-He; by destruct facade).
  unfold migrate_target. rewrite E. cbn [mbind res_bind]. by rewrite (spec_address st (ra_Hash key)) by (done || apply Hinv).
Qed.

(** *** A chunk *)

Lemma evaluate_all s keys : good s -> forall built, exists ds, foldM (fun built key => item ← EvaluateRedirectInSnapshot facade s key; Ok (built ++ [item])) built keys = Ok (built ++ ds) /\
  length ds = length keys /\ (fun '(key, d) => (key, key, address ← migrate_address d; ParseString address default_HostPort)) <$> zip keys ds =
    (fun key => (key, key, migrate_target s key)) <$> keys.
Proof.
  intros (st & m0 & Hinv & Hs & Hm0 & Hc0). induction keys as [|key keys IH]; intros built; cbn [foldM].
  { exists []. by rewrite app_nil_r. }
  destruct (target_spec st s key m0 Hinv Hs Hm0 Hc0) as (owner & final & endpoint & _ & _ & _ & Hok). unfold migrate_target at 1.
  destruct (EvaluateRedirectInSnapshot facade s key) as [d|c] eqn:E; [|done]. cbn [mbind res_bind]. destruct (IH (built ++ [d])) as (ds & -> & Hl & Hz).
  exists (d :: ds). rewrite <-app_assoc. split; [done|]. split; [cbn; lia|]. cbn. rewrite E. f_equal. exact Hz.
Qed.

Lemma chunk_represents read s chunkKeys cache entries result : (Load (sr_generation read) (sr_alive read) (sr_state read) cache).2 = Ok s -> good s ->
  localAddress_ facade <> EmptyString -> batch_size_valid chunkKeys = true -> represents entries result ->
  represents (entries ++ ((fun key => (key, key, migrate_target s key)) <$> chunkKeys)) (AppendRedirectChunk facade read chunkKeys cache result).2 /\
  (AppendRedirectChunk facade read chunkKeys cache result).1 = (Load (sr_generation read) (sr_alive read) (sr_state read) cache).1.
Proof.
  intros Hload Hg Hne Hsize Hr. unfold AppendRedirectChunk, EvaluateRedirectBatch, with_snapshot. rewrite bool_decide_false, Hsize by done.
  destruct (Load _ _ _ cache) as [cache' l]. cbn in Hload. subst l. destruct (evaluate_all s chunkKeys Hg []) as (ds & E & Hl & Hz). cbn [mbind res_bind fst snd]. rewrite E. cbn [mbind res_bind snd br_decisions br_topologyVersion fst].
  split; [|done]. match goal with |- context [set_version ?v result] => set (version := v) end.
  pose proof (add_keys_represents migrate_address (fun _ key => key) ds 0 chunkKeys entries (∅, set_version version result) Hl (map_Forall_empty _) (represents_version _ _ _ Hr)) as Ha.
  rewrite <-Hz. erewrite <-(imap_const (fun '(key, d) => (key, key, address ← migrate_address d; ParseString address default_HostPort))). cbn [app].
  erewrite imap_ext; [exact Ha|]. by intros i [key d] _.
Qed.

(** *** The chunks of a request *)

(** What is published, and what the reader has cached, are good snapshots. *)
Definition published (reads : nat -> SnapshotRead) (cache : ThreadSnapshotCache) : Prop :=
  (forall i, exists s, current_ (sr_state (reads i)) = Some s /\ good s) /\ (forall s, tc_snapshot cache = Some s -> good s).

Lemma load_good reads cache i : published reads cache -> exists s, good s /\
  (Load (sr_generation (reads i)) (sr_alive (reads i)) (sr_state (reads i)) cache).2 = Ok s /\
  published reads (Load (sr_generation (reads i)) (sr_alive (reads i)) (sr_state (reads i)) cache).1.
Proof.
  intros [Hc Ht]. unfold Load. destruct (cached_snapshot _ _ _ _) as [s|] eqn:E.
  - unfold cached_snapshot in E. destruct (_ && _) in E; [|done]. exists s. split; [by apply Ht|]. done.
  - destruct (Hc i) as (s & -> & Hs). exists s. split; [done|]. split; [done|]. split; [done|]. intros s' [= <-]. done.
Qed.

(** The snapshot the [n]-th chunk from [chunk] on loads, with the cache of the thread. *)
Fixpoint loaded_at (reads : nat -> SnapshotRead) (chunk n : nat) (cache : ThreadSnapshotCache) : res TopologySnapshot :=
  let '(cache, loaded) := Load (sr_generation (reads chunk)) (sr_alive (reads chunk)) (sr_state (reads chunk)) cache in
  match n with O => loaded | S n => loaded_at reads (S chunk) n cache end.

Definition chunk_target (loaded : nat -> TopologySnapshot) (i : nat) (key : string) : res HostPort := migrate_target (loaded (i / kMaxBatchKeys)%nat) key.

Lemma chunk_size keys : keys <> [] -> batch_size_valid (take kMaxBatchKeys keys : list string) = true.
Proof.
  intros Hne. unfold batch_size_valid. rewrite length_take. apply andb_true_intro. split; [|apply Nat.leb_le; lia].
  apply negb_true_iff, Nat.eqb_neq. destruct keys; [done|]. cbn [length]. unfold kMaxBatchKeys. lia.
Qed.

Lemma chunks_split (loaded : nat -> TopologySnapshot) s keys :
  imap (fun i key => (key, key, chunk_target (fun n => match n with O => s | S n => loaded n end) i key)) keys =
  ((fun key => (key, key, migrate_target s key)) <$> take kMaxBatchKeys keys) ++
  imap (fun i key => (key, key, chunk_target loaded i key)) (drop kMaxBatchKeys keys).
Proof.
  assert (HK : (0 < kMaxBatchKeys)%nat) by (unfold kMaxBatchKeys; lia).
  rewrite <-(take_drop kMaxBatchKeys keys) at 1. rewrite imap_app. f_equal.
  - rewrite <-(imap_const (fun key => (key, key, migrate_target s key))). apply imap_ext. intros i key Hi. apply lookup_lt_Some in Hi. rewrite length_take in Hi.
    unfold chunk_target. by rewrite Nat.div_small by lia.
  - apply imap_ext. intros i key Hi. apply lookup_lt_Some in Hi. rewrite length_drop in Hi. rewrite length_take_le by lia. unfold compose, chunk_target.
    do 2 f_equal. replace (kMaxBatchKeys + i)%nat with (i + 1 * kMaxBatchKeys)%nat by lia. rewrite Nat.div_add by lia. by rewrite Nat.add_1_r.
Qed.

Lemma chunks_represent fuel : forall reads chunk keys cache entries result, localAddress_ facade <> EmptyString -> published reads cache ->
  (length keys <= fuel)%nat -> represents entries result ->
  exists loaded, (forall i, (i < length keys)%nat -> good (loaded (i / kMaxBatchKeys)%nat) /\
      loaded_at reads chunk (i / kMaxBatchKeys)%nat cache = Ok (loaded (i / kMaxBatchKeys)%nat)) /\
    represents (entries ++ imap (fun i key => (key, key, chunk_target loaded i key)) keys) (append_chunks facade reads fuel chunk keys cache result).2.
Proof.
  induction fuel as [|fuel IH]; intros reads chunk keys cache entries result Hne Hp Hf Hr; cbn [append_chunks];
    destruct (load_good reads cache chunk Hp) as (s & Hg & Hload & Hp'); (destruct (decide (keys = [])) as [->|Hk]; [exists (fun _ => s); split; [intros i Hi; cbn in Hi; lia|]; by rewrite app_nil_r|]).
  { destruct keys; [done|cbn in Hf; lia]. }
  rewrite (proj2 (Nat.eqb_neq _ _)) by (destruct keys; done).
  destruct (chunk_represents (reads chunk) s (take kMaxBatchKeys keys) cache entries result Hload Hg Hne (chunk_size keys Hk) Hr) as [Hr' Ec].
  destruct (AppendRedirectChunk _ _ _ _ _) as [cache' result']. cbn in Hr', Ec. subst cache'.
  assert (HK : (0 < kMaxBatchKeys)%nat) by (unfold kMaxBatchKeys; lia).
  destruct (IH reads (S chunk) (drop kMaxBatchKeys keys) _ (entries ++ ((fun key => (key, key, migrate_target s key)) <$> take kMaxBatchKeys keys)) result' Hne Hp') as (loaded & Hgl & Hr2); [|exact Hr'|].
  { rewrite length_drop. destruct keys; [done|cbn [length] in *; lia]. }
  exists (fun n => match n with O => s | S n => loaded n end). split.
  - intros i Hi. destruct (Nat.lt_ge_cases i kMaxBatchKeys) as [Hs|Hs].
    { rewrite Nat.div_small by done. split; [done|]. cbn [loaded_at]. destruct (Load _ _ _ cache). exact Hload. }
    replace i with ((i - kMaxBatchKeys) + 1 * kMaxBatchKeys)%nat by lia. rewrite Nat.div_add, Nat.add_1_r by lia. cbn [loaded_at].
    destruct (Load _ _ _ cache) as [cache' l]. apply Hgl. rewrite length_drop. lia.
  - rewrite chunks_split, app_assoc. exact Hr2.
Qed.

(** C15: the keys a worker hands over are grouped exactly.  For any number of keys the
    request is cut into chunks, each decided on the snapshot the thread loads for it
    ([loaded_at]); as long as valid topologies are published no key fails, and the
    group of an endpoint holds, in order, exactly the keys whose target is
    that endpoint.  The target is the member that owns the key after the scale-in if
    this worker owns it and is leaving, and the owner of the key otherwise. *)
Theorem migrate_targets_exact reads keys cache : localAddress_ facade <> EmptyString -> published reads cache ->
  exists (loaded : nat -> TopologySnapshot) (target : nat -> HostPort),
    (forall i key, keys !! i = Some key -> loaded_at reads 0 (i / kMaxBatchKeys)%nat cache = Ok (loaded (i / kMaxBatchKeys)%nat) /\
       exists st owner final, topology_inv st /\ snapshot_of st (loaded (i / kMaxBatchKeys)%nat) /\
       routed st (ra_Hash key) owner final /\ ToString (target i) = heir st owner final) /\
    let result := (GroupMigrateTargets (Some facade) reads keys cache).2 in
    rg_failures result = ∅ /\
    forall endpoint, group result endpoint =
      omap (fun '(i, key) => if bool_decide (endpoint_of (target i) = endpoint) then Some key else None) (imap pair keys).
Proof.
  intros Hne Hp. assert (Hall : exists loaded, (forall i, (i < length keys)%nat -> good (loaded (i / kMaxBatchKeys)%nat) /\
      loaded_at reads 0 (i / kMaxBatchKeys)%nat cache = Ok (loaded (i / kMaxBatchKeys)%nat)) /\
    represents (imap (fun i key => (key, key, chunk_target loaded i key)) keys) (GroupMigrateTargets (Some facade) reads keys cache).2).
  { unfold GroupMigrateTargets. destruct (Nat.eqb_spec (length keys) 0) as [E|_].
    - apply nil_length_inv in E as ->. destruct (load_good reads cache 0 Hp) as (s & _). exists (fun _ => s). split; [intros i Hi; cbn in Hi; lia|apply represents_empty].
    - apply (chunks_represent (length keys) reads 0 keys cache [] no_groups Hne Hp); [lia|apply represents_empty]. }
  destruct Hall as (loaded & Hg & [Hgroup Hfail]).
  assert (Hok : forall i key, keys !! i = Some key -> exists st owner final endpoint, topology_inv st /\ snapshot_of st (loaded (i / kMaxBatchKeys)%nat) /\
    routed st (ra_Hash key) owner final /\ chunk_target loaded i key = Ok endpoint /\ ToString endpoint = heir st owner final).
  { intros i key Hi. destruct (Hg i (lookup_lt_Some _ _ _ Hi)) as [(st & m0 & Hinv & Hs & Hm0 & Hc0) _].
    destruct (target_spec st _ key m0 Hinv Hs Hm0 Hc0) as (owner & final & endpoint & ? & ? & ? & _). by exists st, owner, final, endpoint. }
  exists loaded, (fun i => match keys !! i with Some key => match chunk_target loaded i key with Ok e => e | Err _ => default_HostPort end | None => default_HostPort end).
  split; [|cbv zeta; split].
  - intros i key Hi. split; [by apply Hg, (lookup_lt_Some _ _ _ Hi)|]. rewrite Hi. destruct (Hok i key Hi) as (st & owner & final & endpoint & ? & ? & ? & -> & ?). by exists st, owner, final.
  - apply map_eq. intros key. rewrite Hfail, lookup_empty. erewrite omap_imap_none; [done|]. intros i k Hi.
    destruct (Hok i k Hi) as (st & owner & final & endpoint & _ & _ & _ & E & _). unfold failure. cbn. by rewrite E.
  - intros endpoint. rewrite Hgroup. apply omap_imap_ext. intros i key Hi. cbn. rewrite Hi.
    destruct (Hok i key Hi) as (st & owner & final & e & _ & _ & _ & E & _). unfold in_group. cbn. by rewrite E.
Qed.
End targets.

(** ** Witness *)

Import Demo ReferenceEngine ReferenceDigest SafetyDemo RoutingDemo.

Lemma migrate_targets_exact_witness : exists s, snapshot_of draining_C s /\
  let result := (GroupMigrateTargets (Some {| localAddress_ := mi_address idC |}) (fun _ => demo_read s) ["object-1"; "object-2"; "object-3"]%string new_ThreadSnapshotCache).2 in
  rg_failures result = ∅ /\ rg_topologyVersion result = 8.
Proof.
  destruct (Create draining_C 5 demo_digest ∅ true "c") as [s|c] eqn:Es; [|vm_compute in Es; discriminate Es].
  assert (Hs : snapshot_of draining_C s) by (exists 5, demo_digest, ∅, true, "c"%string; exact Es).
  assert (Hp : published (fun _ => demo_read s) new_ThreadSnapshotCache).
  { split; [|discriminate]. intros i. exists s. split; [reflexivity|]. exists draining_C, memberC. split; [exact draining_C_inv|]. split; [exact Hs|]. split; [exact memberC_elem|reflexivity]. }
  exists s. split; [exact Hs|].
  destruct (migrate_targets_exact {| localAddress_ := mi_address idC |} (fun _ => demo_read s) ["object-1"; "object-2"; "object-3"]%string new_ThreadSnapshotCache
    ltac:(discriminate) Hp) as (loaded & target & _ & Hf & _).
  split; [exact Hf|]. vm_compute in Es. injection Es as <-. vm_compute. reflexivity.
Defined.
