(* ===== verification/RefTables.v ===== *)
(** * Global references

    [ObjectRefInfo] and [ObjectGlobalRefTable] of
    common/object_cache/object_ref_info.h: which clients (on a worker) or workers
    (on a master) refer to which objects, in two tables that mirror each other,
    optionally persisted by callbacks.  An operation is one transition.  The
    callbacks are external: [save] and [remove] give the status of the n-th call an
    operation makes. *)

From S2P Require Import Prelude Ordered RepositoryCodec.

(** ** The references of one holder *)

Record ObjectRefInfo := { objectKeys_ : gmap string Z; isUniqueCnt_ : bool }.

Definition new_ObjectRefInfo (isUniqueCnt : bool) : ObjectRefInfo := {| objectKeys_ := ∅; isUniqueCnt_ := isUniqueCnt |}.

Definition set_keys (keys : gmap string Z) (info : ObjectRefInfo) : ObjectRefInfo := {| objectKeys_ := keys; isUniqueCnt_ := isUniqueCnt_ info |}.

Definition AddRef (objectKey : string) (ref : Z) (info : ObjectRefInfo) : ObjectRefInfo * bool :=
  match objectKeys_ info !! objectKey with
  | None => (set_keys (<[objectKey := ref]> (objectKeys_ info)) info, true)
  | Some count =>
      if isUniqueCnt_ info then (info, false)
      else (set_keys (<[objectKey := u32 (count + ref)]> (objectKeys_ info)) info, true)
  end.

Definition GetRefCount (objectKey : string) (info : ObjectRefInfo) : Z := default 0 (objectKeys_ info !! objectKey).

(** [count] is an [int]. *)
Definition UpdateRefCount (objectKey : string) (count : Z) (info : ObjectRefInfo) : res ObjectRefInfo :=
  if count <? 0 then Err K_INVALID
  else match objectKeys_ info !! objectKey with
  | Some _ =>
      if isUniqueCnt_ info && (1 <? count) then Err K_DUPLICATED
      else Ok (set_keys (<[objectKey := count]> (objectKeys_ info)) info)
  | None => Ok (set_keys (<[objectKey := count]> (objectKeys_ info)) info)
  end.

Definition RemoveAndGetRefCnt (objectKey : string) (info : ObjectRefInfo) : ObjectRefInfo * (bool * Z) :=
  match objectKeys_ info !! objectKey with
  | None => (info, (false, 0))
  | Some count =>
      if isUniqueCnt_ info then (set_keys (delete objectKey (objectKeys_ info)) info, (true, 0))
      else
        let refCount := u32 (count - 1) in
        (set_keys (if refCount =? 0 then delete objectKey (objectKeys_ info) else <[objectKey := refCount]> (objectKeys_ info)) info,
         (true, refCount))
  end.

Definition RemoveRef (objectKey : string) (info : ObjectRefInfo) : ObjectRefInfo * bool :=
  let '(info, (removed, _)) := RemoveAndGetRefCnt objectKey info in (info, removed).

Definition RemoveAllRefs (objectKey : string) (info : ObjectRefInfo) : ObjectRefInfo * bool :=
  (set_keys (delete objectKey (objectKeys_ info)) info, has_value (objectKeys_ info !! objectKey)).

Definition Contains (objectKey : string) (info : ObjectRefInfo) : bool := has_value (objectKeys_ info !! objectKey).

Definition GetRefIds `{MapIteration} (info : ObjectRefInfo) : list string := fst <$> iterate (objectKeys_ info).

Definition CheckIsNoneRef (objectKey : string) (info : ObjectRefInfo) : bool :=
  match objectKeys_ info !! objectKey with None => true | Some count => count =? 0 end.

Definition CheckIsRefIdsEmpty (info : ObjectRefInfo) : bool := bool_decide (objectKeys_ info = ∅).

(** ** The global table *)

Record ObjectGlobalRefTable := {
  clientRefTable_ : gmap string ObjectRefInfo;
  objectRefTable_ : gmap string (gset string);
  remoteClientIdTable_ : gset string
}.

Definition new_ObjectGlobalRefTable : ObjectGlobalRefTable := {| clientRefTable_ := ∅; objectRefTable_ := ∅; remoteClientIdTable_ := ∅ |}.

(** A registered callback: the status of its n-th call with the holder, the object
    and the remote flag. *)
Definition Persist := option (nat -> string -> string -> bool -> res unit).

(** [firstIncIds], [failedIncIds] and the status of an increase; likewise a decrease. *)
Record Outcome := { oc_status : res unit; oc_failed : list string; oc_ids : list string }.

(** The loop over the requested keys: the holder's references, the status, the failed
    and the successful keys, and the number of callbacks made. *)
Record Progress := { pg_info : ObjectRefInfo; pg_rc : res unit; pg_failed : list string; pg_success : list string; pg_calls : nat }.

Definition is_ok_status (rc : res unit) : bool := match rc with Ok _ => true | Err _ => false end.

Section operations.
Variables save remove : Persist.

Definition increase_key (refId : string) (isRemoteClient : bool) (p : Progress) (objectKey : string) : Progress :=
  let '(info, added) := AddRef objectKey 1 (pg_info p) in
  if negb added then {| pg_info := info; pg_rc := pg_rc p; pg_failed := pg_failed p; pg_success := pg_success p; pg_calls := pg_calls p |}
  else
    let '(info, rc, failed, calls) :=
      match save with
      | Some saveToKvStore =>
          let rc := saveToKvStore (pg_calls p) refId objectKey isRemoteClient in
          if is_ok_status rc then (info, rc, pg_failed p, S (pg_calls p))
          else ((RemoveRef objectKey info).1, rc, pg_failed p ++ [objectKey], S (pg_calls p))
      | None => (info, pg_rc p, pg_failed p, pg_calls p)
      end in
    {| pg_info := info; pg_rc := rc; pg_failed := failed;
       pg_success := if is_ok_status rc then pg_success p ++ [objectKey] else pg_success p; pg_calls := calls |}.

(** The object side of one new reference. *)
Definition refer_object (refId : string) (acc : gmap string (gset string) * list string) (objectKey : string) : gmap string (gset string) * list string :=
  let holders := default ∅ (acc.1 !! objectKey) in
  (<[objectKey := {[refId]} ∪ holders]> acc.1, if bool_decide (holders = ∅) then acc.2 ++ [objectKey] else acc.2).

Definition GIncreaseRef (refId : string) (objectKeys : list string) (isRemoteClient : bool) (g : ObjectGlobalRefTable) : ObjectGlobalRefTable * Outcome :=
  let '(info, remotes) :=
    match clientRefTable_ g !! refId with
    | Some info => (info, remoteClientIdTable_ g)
    | None => (new_ObjectRefInfo true, if isRemoteClient then {[refId]} ∪ remoteClientIdTable_ g else remoteClientIdTable_ g)
    end in
  let p := foldl (increase_key refId isRemoteClient) {| pg_info := info; pg_rc := Ok tt; pg_failed := []; pg_success := []; pg_calls := 0 |} objectKeys in
  let '(objects, firstIncIds) := foldl (refer_object refId) (objectRefTable_ g, []) (sort_on id (pg_success p)) in
  ({| clientRefTable_ := <[refId := pg_info p]> (clientRefTable_ g); objectRefTable_ := objects; remoteClientIdTable_ := remotes |},
   {| oc_status := pg_rc p; oc_failed := pg_failed p; oc_ids := firstIncIds |}).

Definition decrease_key (refId : string) (isRemoteClient : bool) (p : Progress) (objectKey : string) : Progress :=
  let '(info, removed) := RemoveRef objectKey (pg_info p) in
  if negb removed then {| pg_info := info; pg_rc := pg_rc p; pg_failed := pg_failed p; pg_success := pg_success p; pg_calls := pg_calls p |}
  else
    let '(info, rc, failed, calls) :=
      match remove with
      | Some removeFromKvStore =>
          let rc := removeFromKvStore (pg_calls p) refId objectKey isRemoteClient in
          if is_ok_status rc then (info, rc, pg_failed p, S (pg_calls p))
          else ((AddRef objectKey 1 info).1, rc, pg_failed p ++ [objectKey], S (pg_calls p))
      | None => (info, pg_rc p, pg_failed p, pg_calls p)
      end in
    {| pg_info := info; pg_rc := rc; pg_failed := failed; pg_success := pg_success p ++ [objectKey]; pg_calls := calls |}.

Definition TryEraseClientId (refId : string) (isRemoteClient : bool) (g : ObjectGlobalRefTable) : ObjectGlobalRefTable :=
  let '(clients, isRemoteClientIdRefEmpty) :=
    match clientRefTable_ g !! refId with
    | None => (clientRefTable_ g, true)
    | Some info => if CheckIsRefIdsEmpty info then (delete refId (clientRefTable_ g), true) else (clientRefTable_ g, false)
    end in
  {| clientRefTable_ := clients; objectRefTable_ := objectRefTable_ g;
     remoteClientIdTable_ := if isRemoteClient && isRemoteClientIdRefEmpty then remoteClientIdTable_ g ∖ {[refId]} else remoteClientIdTable_ g |}.

(** The object side of the removed references; it stops at the first inconsistency. *)
Fixpoint release_objects (refId : string) (objectKeys : list string) (objects : gmap string (gset string)) (finished : list string)
    : gmap string (gset string) * list string * res unit :=
  match objectKeys with
  | [] => (objects, finished, Ok tt)
  | objectKey :: objectKeys =>
      match objects !! objectKey with
      | None => (objects, finished, Err K_RUNTIME_ERROR)
      | Some holders =>
          if bool_decide (refId ∈ holders) then
            let holders := holders ∖ {[refId]} in
            if bool_decide (holders = ∅) then release_objects refId objectKeys (delete objectKey objects) (finished ++ [objectKey])
            else release_objects refId objectKeys (<[objectKey := holders]> objects) finished
          else (objects, finished, Err K_RUNTIME_ERROR)
      end
  end.

Definition GDecreaseRef (refId : string) (objectKeys : list string) (isRemoteClient : bool) (g : ObjectGlobalRefTable) : ObjectGlobalRefTable * Outcome :=
  match clientRefTable_ g !! refId with
  | None => (g, {| oc_status := Ok tt; oc_failed := []; oc_ids := [] |})
  | Some info =>
      let p := foldl (decrease_key refId isRemoteClient) {| pg_info := info; pg_rc := Ok tt; pg_failed := []; pg_success := []; pg_calls := 0 |} objectKeys in
      let g := TryEraseClientId refId isRemoteClient
                 {| clientRefTable_ := <[refId := pg_info p]> (clientRefTable_ g); objectRefTable_ := objectRefTable_ g; remoteClientIdTable_ := remoteClientIdTable_ g |} in
      let '(objects, finishDecIds, status) := release_objects refId (sort_on id (pg_success p)) (objectRefTable_ g) [] in
      ({| clientRefTable_ := clientRefTable_ g; objectRefTable_ := objects; remoteClientIdTable_ := remoteClientIdTable_ g |},
       {| oc_status := match status with Ok _ => pg_rc p | Err c => Err c end; oc_failed := pg_failed p; oc_ids := finishDecIds |})
  end.
End operations.

(** *** Readers *)

Definition GetAllRef (g : ObjectGlobalRefTable) : gmap string (gset string) := objectRefTable_ g.

Definition GetAllClientRef `{MapIteration} (g : ObjectGlobalRefTable) : gmap string (list string) :=
  omap (fun info => match GetRefIds info with [] => None | ids => Some ids end) (clientRefTable_ g).

Definition GetRemoteClientIds (g : ObjectGlobalRefTable) : gset string := remoteClientIdTable_ g.

Definition GetClientRefIds `{MapIteration} (refId : string) (g : ObjectGlobalRefTable) : list string :=
  match clientRefTable_ g !! refId with Some info => GetRefIds info | None => [] end.

Definition IsNotExistRemoteClientId (refId : string) (g : ObjectGlobalRefTable) : bool := negb (bool_decide (refId ∈ remoteClientIdTable_ g)).

Definition GetRefWorkerCount (objectKey : string) (g : ObjectGlobalRefTable) : Z :=
  match objectRefTable_ g !! objectKey with Some holders => u32 (Z.of_nat (base.size holders)) | None => 0 end.

Definition GetRefWorkerCounts (objectKeys : list string) (g : ObjectGlobalRefTable) : list Z := (fun key => GetRefWorkerCount key g) <$> objectKeys.

Definition GetObjRefIds (objectKey : string) (g : ObjectGlobalRefTable) : gset string := default ∅ (objectRefTable_ g !! objectKey).

Definition GetClientRefCount (g : ObjectGlobalRefTable) : nat := base.size (clientRefTable_ g).
Definition GetObjectRefCount (g : ObjectGlobalRefTable) : nat := base.size (objectRefTable_ g).
Definition GetRemoteClientCount (g : ObjectGlobalRefTable) : nat := base.size (remoteClientIdTable_ g).
