(* ===== verification/RefClaims.v ===== *)
(** * Global references: the two tables agree *)

From S2P Require Import Prelude Ordered RepositoryCodec RefTables.

(** ** The invariant *)

Definition keys_of (info : ObjectRefInfo) : gset string := dom (objectKeys_ info).

(** The objects a holder refers to, and the holders of an object. *)
Definition held (g : ObjectGlobalRefTable) (refId : string) : gset string :=
  match clientRefTable_ g !! refId with Some info => keys_of info | None => ∅ end.
Definition holders_of (objects : gmap string (gset string)) (key : string) : gset string := default ∅ (objects !! key).

Record refs_ok (g : ObjectGlobalRefTable) : Prop := {
  ro_unique : map_Forall (fun _ info => isUniqueCnt_ info = true) (clientRefTable_ g);
  ro_mirror refId key : key ∈ held g refId <-> refId ∈ holders_of (objectRefTable_ g) key;
  ro_held : map_Forall (fun _ holders => holders <> ∅) (objectRefTable_ g)
}.

Lemma new_refs_ok : refs_ok new_ObjectGlobalRefTable.
Proof. split; [done| |done]. intros refId key. unfold held, holders_of. cbn. rewrite !lookup_empty. set_solver. Qed.

(** ** The holder's side *)

Lemma add_unique key info : isUniqueCnt_ info = true -> let '(info', added) := AddRef key 1 info in
  isUniqueCnt_ info' = true /\ keys_of info' = {[key]} ∪ keys_of info /\ added = bool_decide (key ∉ keys_of info).
Proof.
  intros Hu. unfold AddRef, keys_of. destruct (objectKeys_ info !! key) as [n|] eqn:E; [rewrite Hu|]; cbn; rewrite ?dom_insert_L; (split_and!; [done| |]).
  - apply elem_of_dom_2 in E. set_solver.
  - apply elem_of_dom_2 in E. by rewrite bool_decide_false by (by intros []).
  - done.
  - apply not_elem_of_dom in E. by rewrite bool_decide_true.
Qed.

Lemma remove_unique key info : isUniqueCnt_ info = true -> let '(info', removed) := RemoveRef key info in
  isUniqueCnt_ info' = true /\ keys_of info' = keys_of info ∖ {[key]} /\ removed = bool_decide (key ∈ keys_of info).
Proof.
  intros Hu. unfold RemoveRef, RemoveAndGetRefCnt, keys_of. destruct (objectKeys_ info !! key) as [n|] eqn:E; [rewrite Hu|]; cbn; rewrite ?dom_delete_L; (split_and!; [done| |]).
  - done.
  - apply elem_of_dom_2 in E. by rewrite bool_decide_true.
  - apply not_elem_of_dom in E. set_solver.
  - apply not_elem_of_dom in E. by rewrite bool_decide_false.
Qed.

(** No callback fails. *)
Definition persists (callback : Persist) : Prop := forall f, callback = Some f -> forall n refId key remote, f n refId key remote = Ok tt.

(** What a loop over the keys [past] did to the holder: [pg_success] are distinct. *)
Record increased (save : Persist) (info : ObjectRefInfo) (past : list string) (p : Progress) : Prop := {
  in_unique : isUniqueCnt_ (pg_info p) = true;
  in_keys : keys_of (pg_info p) = keys_of info ∪ list_to_set (pg_success p);
  in_new : forall key, key ∈ pg_success p -> key ∉ keys_of info;
  in_nodup : NoDup (pg_success p);
  in_status : save = None -> pg_rc p = Ok tt;
  in_asked : forall key, key ∈ pg_success p -> key ∈ past;
  in_all : persists save -> forall key, key ∈ past -> key ∈ keys_of (pg_info p)
}.

Lemma increase_ok save refId remote info keys : isUniqueCnt_ info = true -> forall past p, increased save info past p ->
  increased save info (past ++ keys) (foldl (increase_key save refId remote) p keys).
Proof.
  intros Hu. induction keys as [|key keys IH]; intros past p Hp; [by rewrite app_nil_r|]. cbn. rewrite cons_middle, app_assoc. apply IH. clear IH. destruct Hp as [Hu' Hk Hn Hd Hrc Hs Ha].
  unfold increase_key. pose proof (add_unique key (pg_info p) Hu') as Hadd. destruct (AddRef key 1 (pg_info p)) as [info1 added]. destruct Hadd as (Hu1 & Hk1 & ->).
  case_bool_decide as Hin; cbn [negb]; [|split; cbn; try done; rewrite ?Hk1; set_solver].
  assert (Hk2 : keys_of info1 = keys_of info ∪ list_to_set (pg_success p ++ [key])) by (rewrite Hk1, Hk, list_to_set_app_L; set_solver).
  assert (Hn2 : forall k, k ∈ pg_success p ++ [key] -> k ∉ keys_of info) by set_solver.
  assert (Hd2 : NoDup (pg_success p ++ [key])) by (apply NoDup_app; split_and!; [done|set_solver|apply NoDup_singleton]).
  assert (Hs2 : forall k, k ∈ pg_success p ++ [key] -> k ∈ past ++ [key]) by set_solver.
  assert (Ha2 : persists save -> forall k, k ∈ past ++ [key] -> k ∈ keys_of info1) by (intros Hps k; specialize (Ha Hps k); rewrite Hk1; set_solver).
  destruct save as [f|]; [destruct (f _ _ _ _) as [[]|c] eqn:Ef; cbn|rewrite (Hrc eq_refl)]; [by split| |by split].
  pose proof (remove_unique key info1 Hu1) as Hr. destruct (RemoveRef key info1) as [info2 removed]. destruct Hr as (Hu2 & Hk3 & _).
  split; cbn; try done; [rewrite Hk3, Hk1, Hk in *; set_solver|set_solver|]. intros Hps. by rewrite (Hps f eq_refl) in Ef.
Qed.

Record decreased (info : ObjectRefInfo) (past : list string) (p : Progress) : Prop := {
  de_unique : isUniqueCnt_ (pg_info p) = true;
  de_keys : keys_of (pg_info p) = keys_of info ∖ list_to_set (pg_success p);
  de_old : forall key, key ∈ pg_success p -> key ∈ keys_of info;
  de_nodup : NoDup (pg_success p);
  de_past : keys_of (pg_info p) = keys_of info ∖ list_to_set past
}.

Lemma decrease_ok remove refId remote info keys : persists remove -> isUniqueCnt_ info = true -> forall past p, decreased info past p ->
  decreased info (past ++ keys) (foldl (decrease_key remove refId remote) p keys).
Proof.
  intros Hf Hu. induction keys as [|key keys IH]; intros past p Hp; [by rewrite app_nil_r|]. cbn. rewrite cons_middle, app_assoc. apply IH. clear IH. destruct Hp as [Hu' Hk Hn Hd Hpast].
  unfold decrease_key. pose proof (remove_unique key (pg_info p) Hu') as Ha. destruct (RemoveRef key (pg_info p)) as [info1 removed]. destruct Ha as (Hu1 & Hk1 & ->).
  assert (Hp1 : keys_of info1 = keys_of info ∖ list_to_set (past ++ [key])) by (rewrite Hk1, Hpast, list_to_set_app_L; set_solver).
  case_bool_decide as Hin; cbn [negb]; [|split; cbn; try done; rewrite Hk1; set_solver].
  assert (Hok : decreased info (past ++ [key]) {| pg_info := info1; pg_rc := Ok tt; pg_failed := []; pg_success := pg_success p ++ [key]; pg_calls := 0 |}).
  { split; cbn; [done|rewrite Hk1, Hk, list_to_set_app_L; set_solver|set_solver| |done]. apply NoDup_app. split_and!; [done| |apply NoDup_singleton]. rewrite Hk in Hin. set_solver. }
  destruct remove as [f|]; [rewrite (Hf f eq_refl)|]; cbn; split; apply Hok.
Qed.

Lemma decrease_status remove refId remote keys : persists remove -> forall p, pg_rc p = Ok tt -> pg_rc (foldl (decrease_key remove refId remote) p keys) = Ok tt.
Proof.
  intros Hf. induction keys as [|key keys IH]; intros p Hp; [done|]. cbn. apply IH. unfold decrease_key. destruct (RemoveRef key (pg_info p)) as [info1 [|]]; cbn; [|done].
  destruct remove as [f|]; [by rewrite (Hf f eq_refl)|done].
Qed.

(** ** The object's side *)

(** New references; the objects that had none are reported. *)
Lemma refer_objects refId keys : NoDup keys -> forall objects ids, let '(objects', ids') := foldl (refer_object refId) (objects, ids) keys in
  (forall key, objects' !! key = if bool_decide (key ∈ keys) then Some ({[refId]} ∪ holders_of objects key) else objects !! key) /\
  ids' = ids ++ List.filter (fun key => bool_decide (holders_of objects key = ∅)) keys.
Proof.
  induction 1 as [|key keys Hin Hd IH]; intros objects ids; [cbn; by rewrite app_nil_r|].
  cbn [foldl List.filter]. unfold refer_object at 2. cbn [fst snd]. fold (holders_of objects key). set (objects1 := <[key := _]> objects). set (ids1 := if bool_decide _ then _ else _).
  specialize (IH objects1 ids1). destruct (foldl _ _ keys) as [objects' ids']. destruct IH as [Hl ->].
  assert (Hne : forall k, k <> key -> objects1 !! k = objects !! k) by (intros k Hk; unfold objects1; by rewrite lookup_insert_ne). split.
  - intros k. rewrite Hl. destruct (decide (k = key)) as [->|Hk].
    + rewrite bool_decide_false, bool_decide_true by set_solver. unfold objects1. by rewrite lookup_insert, decide_True.
    + unfold holders_of. rewrite !Hne by done. by rewrite (bool_decide_ext (k ∈ key :: keys) (k ∈ keys)) by set_solver.
  - rewrite (filter_ext_in _ (fun key => bool_decide (holders_of objects key = ∅)) keys).
    + unfold ids1. destruct (bool_decide _); [by rewrite <-app_assoc|done].
    + intros k Hk%list_elem_of_In. unfold holders_of. by rewrite Hne by set_solver.
Qed.

(** References that go; the objects that lose the last one are reported. *)
Lemma release_ok refId keys : NoDup keys -> forall objects finished, (forall key, key ∈ keys -> refId ∈ holders_of objects key) ->
  let '(objects', finished', status) := release_objects refId keys objects finished in
  status = Ok tt /\
  (forall key, objects' !! key = if bool_decide (key ∈ keys) then (let rest := holders_of objects key ∖ {[refId]} in if bool_decide (rest = ∅) then None else Some rest)
                                 else objects !! key) /\
  finished' = finished ++ List.filter (fun key => bool_decide (holders_of objects key ∖ {[refId]} = ∅)) keys.
Proof.
  induction 1 as [|key keys Hin Hd IH]; intros objects finished Hh; [cbn; by rewrite app_nil_r|].
  cbn [release_objects List.filter]. pose proof (Hh key ltac:(left)) as Hkey. destruct (objects !! key) as [holders|] eqn:E; [|unfold holders_of in Hkey; rewrite E in Hkey; set_solver].
  assert (Eh : holders_of objects key = holders) by (unfold holders_of; by rewrite E). rewrite Eh in *. rewrite bool_decide_true by done. cbv zeta.
  set (rest := holders ∖ {[refId]}). set (objects1 := if bool_decide (rest = ∅) then delete key objects else <[key := rest]> objects).
  set (finished1 := if bool_decide (rest = ∅) then finished ++ [key] else finished).
  assert (Hne : forall k, k <> key -> objects1 !! k = objects !! k).
  { intros k Hk. unfold objects1. destruct (bool_decide _); [by rewrite lookup_delete_ne|by rewrite lookup_insert_ne]. }
  specialize (IH objects1 finished1). replace (if bool_decide (rest = ∅) then _ else _) with (release_objects refId keys objects1 finished1) by (unfold objects1, finished1; by destruct (bool_decide _)).
  destruct (release_objects refId keys objects1 finished1) as [[objects' finished'] status]. destruct IH as (-> & Hl & ->).
  { intros k Hk. unfold holders_of. rewrite Hne by set_solver. apply Hh. by right. }
  split; [done|]. split.
  - intros k. rewrite Hl. destruct (decide (k = key)) as [->|Hk].
    + rewrite bool_decide_false, bool_decide_true by set_solver. cbv zeta. rewrite Eh. fold rest. unfold objects1.
      destruct (bool_decide (rest = ∅)); [by rewrite lookup_delete, decide_True|by rewrite lookup_insert, decide_True].
    + unfold holders_of. rewrite !Hne by done. by rewrite (bool_decide_ext (k ∈ key :: keys) (k ∈ keys)) by set_solver.
  - rewrite (filter_ext_in _ (fun key => bool_decide (holders_of objects key ∖ {[refId]} = ∅)) keys).
    + unfold finished1. destruct (bool_decide (rest = ∅)); [by rewrite <-app_assoc|done].
    + intros k Hk%list_elem_of_In. unfold holders_of. by rewrite Hne by set_solver.
Qed.

(** ** Operations *)

Inductive RefOp := Increase (save : Persist) (refId : string) (keys : list string) (remote : bool)
  | Decrease (remove : Persist) (refId : string) (keys : list string) (remote : bool).

Definition run_op (op : RefOp) (g : ObjectGlobalRefTable) : ObjectGlobalRefTable * Outcome :=
  match op with
  | Increase save refId keys remote => GIncreaseRef save refId keys remote g
  | Decrease remove refId keys remote => GDecreaseRef remove refId keys remote g
  end.

(** Persisted references can be removed. *)
Definition removable (op : RefOp) : Prop := match op with Increase _ _ _ _ => True | Decrease remove _ _ _ => persists remove end.

(** What an operation does to the relation between holders and objects. *)
Definition effect (op : RefOp) (g g' : ObjectGlobalRefTable) (out : Outcome) : Prop :=
  match op with
  | Increase save refId keys _ =>
      (forall other, other <> refId -> held g' other = held g other) /\
      (held g refId ⊆ held g' refId /\ held g' refId ⊆ held g refId ∪ list_to_set keys) /\
      (persists save -> held g' refId = held g refId ∪ list_to_set keys) /\
      forall key, key ∈ oc_ids out <-> (forall other, key ∉ held g other) /\ exists other, key ∈ held g' other
  | Decrease _ refId keys _ =>
      (forall other, other <> refId -> held g' other = held g other) /\
      held g' refId = held g refId ∖ list_to_set keys /\ (forall c, oc_status out <> Err c) /\
      forall key, key ∈ oc_ids out <-> (exists other, key ∈ held g other) /\ forall other, key ∉ held g' other
  end.

Lemma sort_nodup (keys : list string) : NoDup keys -> NoDup (sort_on id keys).
Proof. by rewrite sort_on_perm. Qed.

Lemma elem_filter (f : string -> bool) keys key : key ∈ List.filter f keys <-> key ∈ keys /\ f key = true.
Proof. by rewrite list_elem_of_In, filter_In, <-list_elem_of_In. Qed.

Lemma no_holders g key : refs_ok g -> holders_of (objectRefTable_ g) key = ∅ <-> forall other, key ∉ held g other.
Proof. intros Hok. split; [intros He other Hin%(ro_mirror _ Hok); set_solver|]. intros Hno. apply set_eq. intros other. rewrite <-(ro_mirror _ Hok). set_solver. Qed.

Lemma increase_effect save refId keys remote g : refs_ok g -> let '(g', out) := run_op (Increase save refId keys remote) g in
  refs_ok g' /\ effect (Increase save refId keys remote) g g' out.
Proof.
  intros Hok. cbn [run_op]. unfold GIncreaseRef.
  assert (Hinfo : exists info remotes, (match clientRefTable_ g !! refId with
     | Some info => (info, remoteClientIdTable_ g)
     | None => (new_ObjectRefInfo true, if remote then {[refId]} ∪ remoteClientIdTable_ g else remoteClientIdTable_ g) end) = (info, remotes) /\
     isUniqueCnt_ info = true /\ keys_of info = held g refId).
  { unfold held. destruct (clientRefTable_ g !! refId) as [info|] eqn:E; do 2 eexists; (split; [reflexivity|]); [|done]. split; [by apply (ro_unique _ Hok _ _ E)|done]. }
  destruct Hinfo as (info & remotes & -> & Hu & Hk).
  pose proof (increase_ok save refId remote info keys Hu [] {| pg_info := info; pg_rc := Ok tt; pg_failed := []; pg_success := []; pg_calls := 0 |}) as Hin.
  destruct Hin as [Hu' Hk' Hn Hd _ Hs Ha]; [split; cbn; [done|set_solver|set_solver|constructor|done|set_solver|set_solver]|]. cbn [app] in Hs, Ha. set (p := foldl _ _ keys) in *.
  pose proof (refer_objects refId (sort_on id (pg_success p)) (sort_nodup _ Hd) (objectRefTable_ g) []) as Ho. destruct (foldl (refer_object refId) _ _) as [objects ids]. destruct Ho as [Hl ->].
  set (g' := {| clientRefTable_ := _; objectRefTable_ := objects; remoteClientIdTable_ := remotes |}).
  assert (Hown : held g' refId = held g refId ∪ list_to_set (pg_success p)) by (unfold held at 1; cbn; rewrite lookup_insert, decide_True by done; by rewrite Hk', Hk).
  assert (Hother : forall other, other <> refId -> held g' other = held g other) by (intros other Hne; unfold held; cbn; by rewrite lookup_insert_ne).
  assert (Hh : forall key, holders_of objects key = if bool_decide (key ∈ pg_success p) then {[refId]} ∪ holders_of (objectRefTable_ g) key else holders_of (objectRefTable_ g) key).
  { intros key. unfold holders_of at 1. rewrite Hl. rewrite (bool_decide_ext (key ∈ sort_on id (pg_success p)) (key ∈ pg_success p)) by apply elem_of_sort_on. by destruct (bool_decide _). }
  assert (Hok' : refs_ok g').
  { split.
    - apply map_Forall_insert_2; [done|apply Hok].
    - intros other key. change (objectRefTable_ g') with objects. rewrite Hh. pose proof (ro_mirror _ Hok other key) as Hm. destruct (decide (other = refId)) as [->|Hne].
      + rewrite Hown. case_bool_decide; set_solver.
      + rewrite Hother by done. case_bool_decide; set_solver.
    - intros key holders Hkey. cbn in Hkey. rewrite Hl in Hkey. case_bool_decide; [injection Hkey as <-; set_solver|]. by apply (ro_held _ Hok _ _ Hkey). }
  split; [done|]. cbn [effect]. split; [done|]. split; [set_solver|]. split.
  { intros Hps. rewrite Hown. specialize (Ha Hps). rewrite Hk', Hk in Ha. set_solver. }
  intros key. cbn [oc_ids app]. rewrite elem_filter, elem_of_sort_on, bool_decide_eq_true, (no_holders _ _ Hok). split.
  - intros [Hin Hno]. split; [done|]. exists refId. rewrite Hown. set_solver.
  - intros [Hno [other Hin]]. split; [|done]. destruct (decide (other = refId)) as [->|Hne]; [rewrite Hown in Hin|rewrite Hother in Hin by done]; set_solver.
Qed.

Lemma held_erased refId remote g other : held (TryEraseClientId refId remote g) other = held g other.
Proof.
  unfold held, TryEraseClientId. destruct (clientRefTable_ g !! refId) as [info|] eqn:E; [destruct (CheckIsRefIdsEmpty info) eqn:Ee|]; cbn; [|done|done].
  destruct (decide (other = refId)) as [->|Hne]; [rewrite lookup_delete, decide_True, E by done|by rewrite lookup_delete_ne].
  apply bool_decide_eq_true in Ee. unfold keys_of. by rewrite Ee, dom_empty_L.
Qed.

Lemma decrease_effect remove refId keys remote g : persists remove -> refs_ok g -> let '(g', out) := run_op (Decrease remove refId keys remote) g in
  refs_ok g' /\ effect (Decrease remove refId keys remote) g g' out.
Proof.
  intros Hps Hok. cbn [run_op]. unfold GDecreaseRef. destruct (clientRefTable_ g !! refId) as [info|] eqn:E.
  2:{ split; [done|]. cbn. assert (Hh : held g refId = ∅) by (unfold held; by rewrite E). split; [done|]. split; [set_solver|]. split; [done|]. intros key. set_solver. }
  assert (Hk : keys_of info = held g refId) by (unfold held; by rewrite E). pose proof (ro_unique _ Hok _ _ E) as Hu. cbn in Hu.
  pose proof (decrease_ok remove refId remote info keys Hps Hu [] {| pg_info := info; pg_rc := Ok tt; pg_failed := []; pg_success := []; pg_calls := 0 |}) as Hde.
  pose proof (decrease_status remove refId remote keys Hps {| pg_info := info; pg_rc := Ok tt; pg_failed := []; pg_success := []; pg_calls := 0 |} eq_refl) as Hrc.
  destruct Hde as [Hu' Hk' Hold Hd Hpast]; [split; cbn; [done|set_solver|set_solver|constructor|set_solver]|]. cbn [app] in Hpast. set (p := foldl _ _ keys) in *.
  set (g1 := {| clientRefTable_ := _; objectRefTable_ := _; remoteClientIdTable_ := _ |}).
  pose proof (release_ok refId (sort_on id (pg_success p)) (sort_nodup _ Hd) (objectRefTable_ g) []) as Ho.
  assert (Eo : objectRefTable_ (TryEraseClientId refId remote g1) = objectRefTable_ g) by (unfold TryEraseClientId; by destruct (match clientRefTable_ g1 !! refId with Some _ => _ | None => _ end)).
  rewrite Eo. destruct (release_objects _ _ _ _) as [[objects finished] status]. destruct Ho as (-> & Hl & ->).
  { intros key Hin%elem_of_sort_on. apply (ro_mirror _ Hok). rewrite <-Hk. by apply Hold. }
  set (g' := {| clientRefTable_ := clientRefTable_ (TryEraseClientId refId remote g1); objectRefTable_ := objects; remoteClientIdTable_ := _ |}).
  assert (Hg : forall other, held g' other = held g1 other) by apply (held_erased refId remote g1).
  assert (Hown : held g' refId = held g refId ∖ list_to_set (pg_success p)) by (rewrite Hg; unfold held at 1; cbn; rewrite lookup_insert, decide_True by done; by rewrite Hk', Hk).
  assert (Hother : forall other, other <> refId -> held g' other = held g other) by (intros other Hne; rewrite Hg; unfold held; cbn; by rewrite lookup_insert_ne).
  assert (Hh : forall key, holders_of objects key = if bool_decide (key ∈ pg_success p) then holders_of (objectRefTable_ g) key ∖ {[refId]} else holders_of (objectRefTable_ g) key).
  { intros key. unfold holders_of at 1. rewrite Hl. rewrite (bool_decide_ext (key ∈ sort_on id (pg_success p)) (key ∈ pg_success p)) by apply elem_of_sort_on.
    case_bool_decide; [|done]. cbv zeta. case_bool_decide as He; [by rewrite He|done]. }
  assert (Hok' : refs_ok g').
  { split.
    - intros other i Hi. cbn in Hi. unfold TryEraseClientId in Hi. cbn in Hi. rewrite lookup_insert, decide_True in Hi by done.
      assert (Hi' : <[refId:=pg_info p]> (clientRefTable_ g) !! other = Some i) by (destruct (CheckIsRefIdsEmpty (pg_info p)); cbn in Hi; [by apply lookup_delete_Some in Hi as [_ Hi]|done]).
      apply lookup_insert_Some in Hi' as [[_ <-]|[_ Hi']]; [done|]. by apply (ro_unique _ Hok _ _ Hi').
    - intros other key. change (objectRefTable_ g') with objects. rewrite Hh. pose proof (ro_mirror _ Hok other key) as Hm. destruct (decide (other = refId)) as [->|Hne].
      + rewrite Hown. case_bool_decide; set_solver.
      + rewrite Hother by done. case_bool_decide; set_solver.
    - intros key holders Hkey. cbn in Hkey. rewrite Hl in Hkey. case_bool_decide; [|by apply (ro_held _ Hok _ _ Hkey)]. cbv zeta in Hkey. case_bool_decide; [done|]. by injection Hkey as <-. }
  split; [done|]. cbn [effect]. split; [done|]. split; [by rewrite <-Hk, <-Hpast, Hk', Hk, <-Hown|]. split; [cbn; by rewrite Hrc|].
  intros key. cbn [oc_ids app]. rewrite elem_filter, elem_of_sort_on, bool_decide_eq_true, <-(no_holders _ _ Hok'). change (objectRefTable_ g') with objects. rewrite Hh. split.
  - intros [Hin He]. rewrite bool_decide_true by done. split; [|done]. exists refId. rewrite <-Hk. by apply Hold.
  - intros [[other Hin] He]. apply (ro_mirror _ Hok) in Hin. case_bool_decide; [done|set_solver].
Qed.

Lemma run_op_ok op g : removable op -> refs_ok g -> let '(g', out) := run_op op g in refs_ok g' /\ effect op g g' out.
Proof. destruct op; [intros _; apply increase_effect|intros Hps; by apply decrease_effect]. Qed.

Definition run_ops (ops : list RefOp) : ObjectGlobalRefTable := foldl (fun g op => (run_op op g).1) new_ObjectGlobalRefTable ops.

Lemma run_ops_ok ops : Forall removable ops -> refs_ok (run_ops ops).
Proof.
  intros Hops. unfold run_ops. generalize new_refs_ok. generalize new_ObjectGlobalRefTable.
  induction Hops as [|o ops Ho _ IH]; intros g Hg; [done|]. cbn. apply IH.
  pose proof (run_op_ok o g Ho Hg) as Hr. destruct (run_op o g). apply Hr.
Qed.

(** C35: global references are counted right.  After any sequence of increases and
    decreases in which every removal of a reference persists (increases may fail to
    persist), the table of the holders and the
    table of the objects describe the same relation; an operation changes only the
    references of its holder, adds or removes exactly the requested ones (an increase
    may leave out those that fail to persist), never reports an inconsistency on a
    decrease, and reports as first or finished exactly the objects that go from no
    holder to one and from some to none. *)
Theorem global_references_exact ops op : Forall removable ops -> removable op ->
  let g := run_ops ops in
  let '(g', out) := run_op op g in
  (forall refId key, key ∈ held g refId <-> refId ∈ GetObjRefIds key g) /\
  effect op g g' out.
Proof.
  intros Hops Hop g. pose proof (run_ops_ok ops Hops) as Hok. fold g in Hok.
  pose proof (run_op_ok op g Hop Hok) as Hr. destruct (run_op op g) as [g' out]. split; [apply Hok|apply Hr].
Qed.

(** One key whose removal is not persisted: the holder gets its reference back and
    the key still counts as removed. *)
Lemma decrease_key_fails f refId remote info key n c : isUniqueCnt_ info = true -> objectKeys_ info !! key = Some n ->
  f 0%nat refId key remote = Err c ->
  decrease_key (Some f) refId remote {| pg_info := info; pg_rc := Ok tt; pg_failed := []; pg_success := []; pg_calls := 0 |} key =
  {| pg_info := set_keys (<[key := 1]> (objectKeys_ info)) info; pg_rc := Err c; pg_failed := [key]; pg_success := [key]; pg_calls := 1 |}.
Proof.
  intros Hu Hk Hf. unfold decrease_key, RemoveRef, RemoveAndGetRefCnt. cbn [pg_info pg_calls pg_failed pg_success pg_rc]. rewrite Hk, Hu.
  cbn [negb]. rewrite Hf. cbn [is_ok_status app]. unfold AddRef. cbn [objectKeys_ set_keys].
  rewrite lookup_delete, decide_True by done. cbn [fst set_keys objectKeys_ isUniqueCnt_]. by rewrite insert_delete_eq.
Qed.

(** The object side of one key. *)
Lemma release_single refId key objects holders : objects !! key = Some holders -> refId ∈ holders ->
  release_objects refId [key] objects [] =
  (if bool_decide (holders ∖ {[refId]} = ∅) then (delete key objects, [key], Ok tt)
   else (<[key := holders ∖ {[refId]}]> objects, [], Ok tt)).
Proof. intros Ho Hin. cbn [release_objects]. rewrite Ho, bool_decide_true by done. cbv zeta. by case_bool_decide. Qed.

(** A decrease of a key whose object does not know the holder is an inconsistency,
    whatever the callback answers. *)
Lemma decrease_mismatch remove refId key remote g info : clientRefTable_ g !! refId = Some info -> isUniqueCnt_ info = true ->
  is_Some (objectKeys_ info !! key) -> refId ∉ holders_of (objectRefTable_ g) key ->
  oc_status (GDecreaseRef remove refId [key] remote g).2 = Err K_RUNTIME_ERROR.
Proof.
  intros Hi Hu [n Hk] Hno. unfold GDecreaseRef. rewrite Hi. cbn [foldl].
  set (p := decrease_key _ _ _ _ key).
  assert (Hs : pg_success p = [key]).
  { unfold p, decrease_key, RemoveRef, RemoveAndGetRefCnt. cbn [pg_info pg_calls pg_failed pg_success pg_rc]. rewrite Hk, Hu. cbn [negb].
    destruct remove as [f|]; [destruct (is_ok_status _)|]; done. }
  rewrite Hs. cbn [sort_on insert_on]. set (g1 := TryEraseClientId _ _ _).
  assert (objectRefTable_ g1 = objectRefTable_ g) as -> by (unfold g1, TryEraseClientId; by destruct (match clientRefTable_ _ !! refId with Some _ => _ | None => _ end)).
  cbn [release_objects]. unfold holders_of in Hno. destruct (objectRefTable_ g !! key) as [holders|]; [|done].
  cbn in Hno. by rewrite bool_decide_false.
Qed.

Lemma decrease_fails f refId key remote g info n c holders : clientRefTable_ g !! refId = Some info -> isUniqueCnt_ info = true ->
  objectKeys_ info !! key = Some n -> f 0%nat refId key remote = Err c ->
  objectRefTable_ g !! key = Some holders -> refId ∈ holders ->
  let last := bool_decide (holders ∖ {[refId]} = ∅) in
  GDecreaseRef (Some f) refId [key] remote g =
  ({| clientRefTable_ := <[refId := set_keys (<[key := 1]> (objectKeys_ info)) info]> (clientRefTable_ g);
      objectRefTable_ := if last then delete key (objectRefTable_ g) else <[key := holders ∖ {[refId]}]> (objectRefTable_ g);
      remoteClientIdTable_ := remoteClientIdTable_ g |},
   {| oc_status := Err c; oc_failed := [key]; oc_ids := if last then [key] else [] |}).
Proof.
  intros Hi Hu Hk Hf Ho Hin last. unfold GDecreaseRef. rewrite Hi. cbn [foldl]. rewrite (decrease_key_fails f refId remote info key n c Hu Hk Hf).
  cbn [pg_info pg_success pg_rc pg_failed sort_on insert_on]. unfold TryEraseClientId. cbn [clientRefTable_].
  rewrite lookup_insert, decide_True by done. unfold CheckIsRefIdsEmpty. cbn [objectKeys_ set_keys].
  rewrite bool_decide_false by apply insert_non_empty. cbn [objectRefTable_ clientRefTable_ remoteClientIdTable_].
  rewrite (release_single refId key _ holders Ho Hin), andb_false_r. subst last. by case_bool_decide.
Qed.

(** C36: a decrease of a reference that cannot be persisted drops the reference on one
    side only, in every table the operations can reach with persisted removals.  The
    holder keeps its reference and the key is reported as failed, but the object loses
    the holder, is reported as no longer referenced when it was the last one, every
    other pair of holder and object is as before, and the next decrease of the
    reference fails with a runtime error. *)
Theorem failed_decrease_drops_reference ops refId key remote f c :
  Forall removable ops -> let g := run_ops ops in
  key ∈ held g refId -> f 0%nat refId key remote = Err c ->
  let '(g', out) := GDecreaseRef (Some f) refId [key] remote g in
  oc_status out = Err c /\ oc_failed out = [key] /\
  (forall other, held g' other = held g other) /\
  (forall key', GetObjRefIds key' g' = if decide (key' = key) then GetObjRefIds key g ∖ {[refId]} else GetObjRefIds key' g) /\
  oc_ids out = (if decide (GetObjRefIds key g ⊆ {[refId]}) then [key] else []) /\
  (forall remove remote', oc_status (GDecreaseRef remove refId [key] remote' g').2 = Err K_RUNTIME_ERROR).
Proof.
  intros Hops g Hheld Hf. pose proof (run_ops_ok ops Hops) as Hok. fold g in Hok.
  pose proof (proj1 (ro_mirror _ Hok refId key) Hheld) as Hin. unfold held in Hheld.
  destruct (clientRefTable_ g !! refId) as [info|] eqn:Hi; [|set_solver]. pose proof (ro_unique _ Hok _ _ Hi) as Hu. cbn in Hu.
  unfold keys_of in Hheld. apply elem_of_dom in Hheld as [n Hk]. unfold holders_of in Hin.
  destruct (objectRefTable_ g !! key) as [holders|] eqn:Ho; [|set_solver]. cbn in Hin.
  rewrite (decrease_fails f refId key remote g info n c holders Hi Hu Hk Hf Ho Hin).
  set (info' := set_keys _ info). set (last := bool_decide _). set (g' := {| clientRefTable_ := _ |}).
  assert (Hobj : forall key', GetObjRefIds key' g' = if decide (key' = key) then holders ∖ {[refId]} else GetObjRefIds key' g).
  { intros key'. unfold GetObjRefIds, g', last. cbn [objectRefTable_]. case_decide as E; [subst key'|].
    - case_bool_decide as He; [by rewrite lookup_delete, decide_True, He|by rewrite lookup_insert, decide_True].
    - case_bool_decide; [by rewrite lookup_delete_ne|by rewrite lookup_insert_ne]. }
  assert (Hids : GetObjRefIds key g = holders) by (unfold GetObjRefIds; by rewrite Ho). rewrite Hids. cbn [oc_status oc_failed oc_ids].
  split_and!; [done|done| |done| |].
  - intros other. unfold held, g'. cbn [clientRefTable_]. destruct (decide (other = refId)) as [->|Hne]; [|by rewrite lookup_insert_ne].
    rewrite lookup_insert, decide_True, Hi by done. unfold keys_of, info'. cbn [objectKeys_ set_keys]. rewrite dom_insert_L.
    apply elem_of_dom_2 in Hk. set_solver.
  - unfold last. clear -Hin. case_bool_decide as He; case_decide as Hs; [done| | |done].
    + exfalso. apply Hs. intros x Hx. destruct (decide (x = refId)) as [->|Hne]; [by apply elem_of_singleton|].
      destruct (not_elem_of_empty (C := gset string) x). rewrite <-He. by apply elem_of_difference; rewrite elem_of_singleton.
    + exfalso. apply He, set_eq. intros x. split; [|by intros ?%elem_of_empty]. by intros [Hx%Hs Hno]%elem_of_difference.
  - intros remove remote'. apply (decrease_mismatch remove refId key remote' g' info').
    + unfold g'. cbn [clientRefTable_]. by rewrite lookup_insert, decide_True.
    + done.
    + unfold info'. cbn [objectKeys_ set_keys]. by rewrite lookup_insert, decide_True.
    + change (refId ∉ GetObjRefIds key g'). rewrite Hobj, decide_True by done. set_solver.
Qed.

(** ** Witnesses *)

Definition demo_refs : list RefOp := [Increase None "c1" ["a"; "b"; "a"] false; Increase (Some (fun n _ _ _ => if (n =? 0)%nat then Err K_KVSTORE_ERROR else Ok tt)) "c2" ["a"; "b"] true].

Lemma global_references_exact_witness : let g := run_ops demo_refs in
  let '(g', out) := run_op (Decrease None "c1" ["a"; "b"] false) g in
  oc_ids out = ["a"] /\ effect (Decrease None "c1" ["a"; "b"] false) g g' out.
Proof.
  pose proof (global_references_exact demo_refs (Decrease None "c1" ["a"; "b"] false)) as Hg. unfold demo_refs in Hg at 1.
  specialize (Hg ltac:(repeat constructor) ltac:(intros f [=])). cbv zeta in Hg |- *.
  destruct (run_op (Decrease None "c1" ["a"; "b"] false) (run_ops demo_refs)) as [g' out] eqn:E.
  split; [|exact (proj2 Hg)]. vm_compute in E. injection E as _ <-. reflexivity.
Defined.

Lemma failed_decrease_drops_reference_witness :
  let '(g', out) := GDecreaseRef (Some (fun _ _ _ _ => Err K_KVSTORE_ERROR)) "c1" ["b"] false (run_ops demo_refs) in
  oc_status out = Err K_KVSTORE_ERROR /\ oc_ids out = [] /\ GetObjRefIds "b" g' = {["c2"]} /\
  oc_status (GDecreaseRef None "c1" ["b"] false g').2 = Err K_RUNTIME_ERROR.
Proof.
  pose proof (failed_decrease_drops_reference demo_refs "c1" "b" false (fun _ _ _ _ => Err K_KVSTORE_ERROR) K_KVSTORE_ERROR) as Hg.
  assert (Hb : "b" ∈ held (run_ops demo_refs) "c1") by (apply (bool_decide_eq_true ("b" ∈ held (run_ops demo_refs) "c1")); vm_compute; reflexivity).
  specialize (Hg ltac:(repeat constructor) Hb eq_refl). cbv zeta in Hg.
  destruct (GDecreaseRef (Some (fun _ _ _ _ => Err K_KVSTORE_ERROR)) "c1" ["b"] false (run_ops demo_refs)) as [g' out] eqn:E.
  destruct Hg as (H1 & _ & _ & _ & _ & H6). split; [exact H1|]. split; [|split; [|exact (H6 None false)]].
  - vm_compute in E. injection E as _ <-. reflexivity.
  - vm_compute in E. injection E as <- _. vm_compute. reflexivity.
Defined.
