(* ===== verification/ShmRefTable.v ===== *)
(** * Shared-memory references

    [SharedMemoryRefTable] of common/object_cache/object_ref_info.cpp: which clients
    use which shared-memory units, and the units whose client may be gone.  A unit
    is shared by pointer, so the living units are in a store and the tables hold
    their addresses; the allocator's page counters and the byte gauge are fields here.
    An operation is one transition; [clock i] is its i-th reading of the clock.  The
    expiry queue is a [std::priority_queue]: a vector with the heap algorithms. *)

From S2P Require Import Prelude Ordered RepositoryCodec EvictionList RefTables.

Definition i32 (z : Z) : Z := (z + 2 ^ 31) mod 2 ^ 32 - 2 ^ 31.

Definition SHM_REF_RECONCILE_MIN_EXPIRE_MS : Z := 1000.
Definition SHM_REF_RECONCILE_MAX_EXPIRE_MS : Z := 60 * 1000.
Definition MAX_MAYBE_EXPIRED_SHM_IDS_PER_RECONCILE : nat := 1024.

(** [ShmUnit], as far as the table uses it. *)
Record ShmUnit := { su_id : string; su_size : Z; su_refCount : Z }.

Definition add_count (delta : Z) (u : ShmUnit) : ShmUnit := {| su_id := su_id u; su_size := su_size u; su_refCount := i32 (su_refCount u + delta) |}.

Record MaybeExpiredShmItem := { mx_requestTimeoutMs : Z; mx_expireTimeMs : Z; mx_clientId : string; mx_shmId : string; mx_reclaimable : bool }.

Record SharedMemoryRefTable := {
  st_clientRefTable_ : gmap string ObjectRefInfo;
  shmRefTable_ : gmap string (nat * gset string);
  st_units : gmap nat ShmUnit;
  maybeExpiredShmQueue_ : list MaybeExpiredShmItem;
  maybeExpiredShmStagingQueue_ : list MaybeExpiredShmItem;
  maybeExpiredShmTable_ : gmap string (gmap string unit);
  refPageCount : Z;
  noRefPageCount : Z;
  tableBytes : Z
}.

Definition new_SharedMemoryRefTable (units : gmap nat ShmUnit) : SharedMemoryRefTable := {|
  st_clientRefTable_ := ∅; shmRefTable_ := ∅; st_units := units; maybeExpiredShmQueue_ := []; maybeExpiredShmStagingQueue_ := [];
  maybeExpiredShmTable_ := ∅; refPageCount := 0; noRefPageCount := 0; tableBytes := 0 |}.

Definition set_refs (clients : gmap string ObjectRefInfo) (shm : gmap string (nat * gset string)) (units : gmap nat ShmUnit) (t : SharedMemoryRefTable) : SharedMemoryRefTable := {|
  st_clientRefTable_ := clients; shmRefTable_ := shm; st_units := units; maybeExpiredShmQueue_ := maybeExpiredShmQueue_ t;
  maybeExpiredShmStagingQueue_ := maybeExpiredShmStagingQueue_ t; maybeExpiredShmTable_ := maybeExpiredShmTable_ t;
  refPageCount := refPageCount t; noRefPageCount := noRefPageCount t; tableBytes := tableBytes t |}.

Definition set_expiry (queue staging : list MaybeExpiredShmItem) (table : gmap string (gmap string unit)) (t : SharedMemoryRefTable) : SharedMemoryRefTable := {|
  st_clientRefTable_ := st_clientRefTable_ t; shmRefTable_ := shmRefTable_ t; st_units := st_units t; maybeExpiredShmQueue_ := queue;
  maybeExpiredShmStagingQueue_ := staging; maybeExpiredShmTable_ := table;
  refPageCount := refPageCount t; noRefPageCount := noRefPageCount t; tableBytes := tableBytes t |}.

(** A unit starts ([delta] = 1) or ceases (-1) to be referenced. *)
Definition account (delta size : Z) (t : SharedMemoryRefTable) : SharedMemoryRefTable := {|
  st_clientRefTable_ := st_clientRefTable_ t; shmRefTable_ := shmRefTable_ t; st_units := st_units t; maybeExpiredShmQueue_ := maybeExpiredShmQueue_ t;
  maybeExpiredShmStagingQueue_ := maybeExpiredShmStagingQueue_ t; maybeExpiredShmTable_ := maybeExpiredShmTable_ t;
  refPageCount := refPageCount t + delta; noRefPageCount := noRefPageCount t - delta; tableBytes := tableBytes t + delta * size |}.

(** ** Readers *)

Definition GetShmUnit (shmId : string) (t : SharedMemoryRefTable) : res nat :=
  match shmRefTable_ t !! shmId with Some (unit_, _) => Ok unit_ | None => Err K_NOT_FOUND end.

Definition ContainsShmUnit (shmId : string) (t : SharedMemoryRefTable) : bool := has_value (shmRefTable_ t !! shmId).

Definition ClientContainsShm (clientId shmId : string) (t : SharedMemoryRefTable) : bool :=
  match st_clientRefTable_ t !! clientId with Some info => Contains shmId info | None => false end.

Definition GetMaybeExpiredShmIds `{MapIteration} (clientId : string) (t : SharedMemoryRefTable) : list string :=
  match maybeExpiredShmTable_ t !! clientId with
  | Some ids => take MAX_MAYBE_EXPIRED_SHM_IDS_PER_RECONCILE (fst <$> iterate ids)
  | None => []
  end.

(** ** Expiry records *)

Section expiry.
Variable hardReclaimTimeoutMs : Z.

Definition GetMaybeExpiredDeadlineMs (now requestTimeoutMs : Z) : Z :=
  u64 (now + Z.min (Z.max requestTimeoutMs SHM_REF_RECONCILE_MIN_EXPIRE_MS) SHM_REF_RECONCILE_MAX_EXPIRE_MS).

Definition RecordMaybeExpiredShm (now : Z) (clientId shmId : string) (requestTimeoutMs : Z) (reclaimable : bool) (t : SharedMemoryRefTable) : SharedMemoryRefTable :=
  let deadline := GetMaybeExpiredDeadlineMs now requestTimeoutMs in
  let expireTimeMs := if reclaimable && (0 <? hardReclaimTimeoutMs) then u64 (deadline + hardReclaimTimeoutMs) else deadline in
  set_expiry (maybeExpiredShmQueue_ t)
    (maybeExpiredShmStagingQueue_ t ++ [{| mx_requestTimeoutMs := requestTimeoutMs; mx_expireTimeMs := expireTimeMs; mx_clientId := clientId;
                                           mx_shmId := shmId; mx_reclaimable := reclaimable |}]) (maybeExpiredShmTable_ t) t.

Definition ClearMaybeExpiredShmIds (clientId : string) (shmIds : list string) (t : SharedMemoryRefTable) : SharedMemoryRefTable :=
  if (length shmIds =? 0)%nat then t
  else match maybeExpiredShmTable_ t !! clientId with
  | None => t
  | Some ids =>
      let ids := foldl (fun ids shmId => delete shmId ids) ids shmIds in
      set_expiry (maybeExpiredShmQueue_ t) (maybeExpiredShmStagingQueue_ t)
        (if bool_decide (ids = ∅) then delete clientId (maybeExpiredShmTable_ t) else <[clientId := ids]> (maybeExpiredShmTable_ t)) t
  end.

(** ** References *)

Definition ClientTableGetOrInsert (clientId : string) (t : SharedMemoryRefTable) : SharedMemoryRefTable * ObjectRefInfo :=
  match st_clientRefTable_ t !! clientId with
  | Some info => (t, info)
  | None => let info := new_ObjectRefInfo true in (set_refs (<[clientId := info]> (st_clientRefTable_ t)) (shmRefTable_ t) (st_units t) t, info)
  end.

Definition InitShmRefForClient (clientId : string) (supportMultiShmRefCount : bool) (t : SharedMemoryRefTable) : SharedMemoryRefTable :=
  match st_clientRefTable_ t !! clientId with
  | Some _ => t
  | None => set_refs (<[clientId := new_ObjectRefInfo (negb supportMultiShmRefCount)]> (st_clientRefTable_ t)) (shmRefTable_ t) (st_units t) t
  end.

(** The references and the accounting of one unit for a client with references [info]. *)
Definition add_unit (clientId : string) (info : ObjectRefInfo) (address : nat) (u : ShmUnit) (t : SharedMemoryRefTable) : SharedMemoryRefTable :=
  let '(info, added) := AddRef (su_id u) 1 info in
  let u := if added then add_count 1 u else u in
  let t := set_refs (<[clientId := info]> (st_clientRefTable_ t))
             (match shmRefTable_ t !! su_id u with
              | Some (first, clients) => <[su_id u := (first, {[clientId]} ∪ clients)]> (shmRefTable_ t)
              | None => <[su_id u := (address, {[clientId]})]> (shmRefTable_ t)
              end) (<[address := u]> (st_units t)) t in
  if su_refCount u =? 1 then account 1 (su_size u) t else t.

(** [None]: no unit at the address. *)
Definition AddShmUnit (clock : nat -> Z) (clientId : string) (address : nat) (requestTimeoutMs : Z) (reclaimable : bool) (t : SharedMemoryRefTable) : option SharedMemoryRefTable :=
  u ← st_units t !! address;
  let '(t, info) := ClientTableGetOrInsert clientId t in
  Some (RecordMaybeExpiredShm (clock 0%nat) clientId (su_id u) requestTimeoutMs reclaimable (add_unit clientId info address u t)).

(** A null pointer is skipped; the client has an entry, whose accessor the caller holds. *)
Fixpoint AddShmUnits (clock : nat -> Z) (clientId : string) (addresses : list (option nat)) (requestTimeoutMs : Z) (reclaimable : bool) (t : SharedMemoryRefTable)
    : option SharedMemoryRefTable :=
  match addresses with
  | [] => Some t
  | None :: addresses => AddShmUnits clock clientId addresses requestTimeoutMs reclaimable t
  | Some address :: addresses =>
      u ← st_units t !! address;
      info ← st_clientRefTable_ t !! clientId;
      AddShmUnits (fun i => clock (S i)) clientId addresses requestTimeoutMs reclaimable
        (RecordMaybeExpiredShm (clock 0%nat) clientId (su_id u) requestTimeoutMs reclaimable (add_unit clientId info address u t))
  end.

(** The client with references [info] gives up one reference to the unit of the entry
    ([entry] at [key]). *)
Definition RemoveShmUnitDetail (clientId : string) (forceRemoveClient : bool) (key : string) (entry : nat * gset string) (info : ObjectRefInfo) (t : SharedMemoryRefTable)
    : option SharedMemoryRefTable :=
  u ← st_units t !! entry.1;
  let '(info, (removed, refCount)) := RemoveAndGetRefCnt (su_id u) info in
  let u := if removed && (0 <? su_refCount u) then add_count (-1) u else u in
  let t := set_refs (<[clientId := info]> (st_clientRefTable_ t)) (shmRefTable_ t) (<[entry.1 := u]> (st_units t)) t in
  let t := if su_refCount u =? 0 then account (-1) (su_size u) t else t in
  if negb forceRemoveClient && (0 <? refCount) then Some t
  else
    let clients := entry.2 ∖ {[clientId]} in
    Some (set_refs (st_clientRefTable_ t)
            (if bool_decide (clients = ∅) then delete key (shmRefTable_ t) else <[key := (entry.1, clients)]> (shmRefTable_ t)) (st_units t) t).

(** Always OK; the unit is kept alive for the caller that asks for it. *)
Definition RemoveShmUnit (clientId shmId : string) (t : SharedMemoryRefTable) : option (SharedMemoryRefTable * option nat) :=
  match st_clientRefTable_ t !! clientId with
  | None => Some (t, None)
  | Some info =>
      match shmRefTable_ t !! shmId with
      | None => Some (t, None)
      | Some entry =>
          t ← RemoveShmUnitDetail clientId false shmId entry info t;
          Some (ClearMaybeExpiredShmIds clientId [shmId] t, Some entry.1)
      end
  end.

Fixpoint remove_units (clientId : string) (shmIds : list string) (t : SharedMemoryRefTable) : option SharedMemoryRefTable :=
  match shmIds with
  | [] => Some t
  | shmId :: shmIds =>
      match shmRefTable_ t !! shmId with
      | None => remove_units clientId shmIds t
      | Some entry =>
          info ← st_clientRefTable_ t !! clientId;
          t ← RemoveShmUnitDetail clientId true shmId entry info t;
          remove_units clientId shmIds t
      end
  end.

Definition RemoveClient `{MapIteration} (clientId : string) (t : SharedMemoryRefTable) : option SharedMemoryRefTable :=
  match st_clientRefTable_ t !! clientId with
  | None => Some t
  | Some info =>
      t ← remove_units clientId (GetRefIds info) t;
      Some (set_expiry (maybeExpiredShmQueue_ t) (maybeExpiredShmStagingQueue_ t) (delete clientId (maybeExpiredShmTable_ t))
              (set_refs (delete clientId (st_clientRefTable_ t)) (shmRefTable_ t) (st_units t) t))
  end.

Definition st_GetClientRefIds `{MapIteration} (clientId : string) (t : SharedMemoryRefTable) : list string :=
  match st_clientRefTable_ t !! clientId with Some info => GetRefIds info | None => [] end.

(** ** Reconciliation with the clients *)

Fixpoint remove_confirmed (clientId : string) (shmIds : list string) (t : SharedMemoryRefTable) : option SharedMemoryRefTable :=
  match shmIds with
  | [] => Some t
  | shmId :: shmIds => '(t, _) ← RemoveShmUnit clientId shmId t; remove_confirmed clientId shmIds t
  end.

Definition ReconcileClientShmRefs `{MapIteration} (clientId : string) (confirmedExpiredShmIds : list string) (t : SharedMemoryRefTable)
    : option (SharedMemoryRefTable * list string) :=
  t ← remove_confirmed clientId confirmedExpiredShmIds t;
  let t := ClearMaybeExpiredShmIds clientId confirmedExpiredShmIds t in
  Some (t, GetMaybeExpiredShmIds clientId t).

(** *** The flush thread *)

Definition later (lhs rhs : MaybeExpiredShmItem) : bool := mx_expireTimeMs rhs <? mx_expireTimeMs lhs.

Definition pq_push `{StdAlgorithms MaybeExpiredShmItem} (queue : list MaybeExpiredShmItem) (item : MaybeExpiredShmItem) : list MaybeExpiredShmItem :=
  push_heap later (queue ++ [item]).

(** The loop pops an item per turn, so the length of the queue is enough fuel. *)
Fixpoint pop_expired `{StdAlgorithms MaybeExpiredShmItem} (fuel : nat) (nowMs : Z) (queue expired hard : list MaybeExpiredShmItem)
    : list MaybeExpiredShmItem * list MaybeExpiredShmItem * list MaybeExpiredShmItem :=
  match fuel, queue with
  | S fuel, top :: _ =>
      if mx_expireTimeMs top <=? nowMs then
        let rest := removelast (pop_heap later queue) in
        if mx_reclaimable top && (0 <? hardReclaimTimeoutMs) then pop_expired fuel nowMs rest expired (hard ++ [top])
        else pop_expired fuel nowMs rest (expired ++ [top]) hard
      else (queue, expired, hard)
  | _, _ => (queue, expired, hard)
  end.

Definition move_item (acc : SharedMemoryRefTable * list MaybeExpiredShmItem) (item : MaybeExpiredShmItem) : SharedMemoryRefTable * list MaybeExpiredShmItem :=
  let '(t, failed) := acc in
  if ClientContainsShm (mx_clientId item) (mx_shmId item) t then
    let ids := default ∅ (maybeExpiredShmTable_ t !! mx_clientId item) in
    (set_expiry (maybeExpiredShmQueue_ t) (maybeExpiredShmStagingQueue_ t) (<[mx_clientId item := <[mx_shmId item := tt]> ids]> (maybeExpiredShmTable_ t)) t,
     if has_value (ids !! mx_shmId item) then failed ++ [item] else failed)
  else (t, failed).

Fixpoint record_again (clock : nat -> Z) (items : list MaybeExpiredShmItem) (t : SharedMemoryRefTable) : SharedMemoryRefTable :=
  match items with
  | [] => t
  | item :: items =>
      record_again (fun i => clock (S i)) items
        (RecordMaybeExpiredShm (clock 0%nat) (mx_clientId item) (mx_shmId item) (mx_requestTimeoutMs item) (mx_reclaimable item) t)
  end.

Definition MoveExpiredToMaybeTable (clock : nat -> Z) (expiredItems : list MaybeExpiredShmItem) (t : SharedMemoryRefTable) : SharedMemoryRefTable :=
  let '(t, failed) := foldl move_item (t, []) expiredItems in record_again clock failed t.

Fixpoint HardReclaimExpiredShmUnits (items : list MaybeExpiredShmItem) (t : SharedMemoryRefTable) : option SharedMemoryRefTable :=
  match items with
  | [] => Some t
  | item :: items =>
      if ClientContainsShm (mx_clientId item) (mx_shmId item) t then
        '(t, _) ← RemoveShmUnit (mx_clientId item) (mx_shmId item) t;
        HardReclaimExpiredShmUnits items (ClearMaybeExpiredShmIds (mx_clientId item) [mx_shmId item] t)
      else HardReclaimExpiredShmUnits items t
  end.

Definition FlushMaybeExpiredQueue `{StdAlgorithms MaybeExpiredShmItem} (clock : nat -> Z) (nowMs : Z) (t : SharedMemoryRefTable) : option SharedMemoryRefTable :=
  let queue := foldl pq_push (maybeExpiredShmQueue_ t) (maybeExpiredShmStagingQueue_ t) in
  let '(queue, expired, hard) := pop_expired (length queue) nowMs queue [] [] in
  HardReclaimExpiredShmUnits hard (MoveExpiredToMaybeTable clock expired (set_expiry queue [] (maybeExpiredShmTable_ t) t)).
End expiry.
