(* ===== verification/ShmRefClaims.v ===== *)
(** * Shared-memory references: tables and unit counters agree *)

From S2P Require Import Prelude Ordered RepositoryCodec EvictionList HeatSelection RefTables ShmRefTable.

Notation Clients := (gmap string ObjectRefInfo).
Notation Entries := (gmap string (nat * gset string)).
Notation Units := (gmap nat ShmUnit).

(** ** The references to a unit *)

Definition total (clients : Clients) (id : string) : Z := map_fold (fun _ info sum => GetRefCount id info + sum) 0 clients.

Lemma ref_total_insert clients c info id : clients !! c = None -> total (<[c := info]> clients) id = GetRefCount id info + total clients id.
Proof. intros Hc. unfold total. rewrite map_fold_insert_L; [done| |done]. intros. lia. Qed.

Lemma total_split clients c info id : clients !! c = Some info -> total clients id = GetRefCount id info + total (delete c clients) id.
Proof. intros Hc. rewrite <-(insert_delete_id clients c info Hc) at 1. apply ref_total_insert. by rewrite lookup_delete, decide_True. Qed.

Lemma total_update clients c old info id : clients !! c = Some old -> total (<[c := info]> clients) id = total clients id - GetRefCount id old + GetRefCount id info.
Proof.
  intros Hc. rewrite (total_split clients c old id Hc). rewrite (total_split (<[c := info]> clients) c info id) by (by rewrite lookup_insert, decide_True).
  rewrite delete_insert_eq. lia.
Qed.

Record info_ok (info : ObjectRefInfo) : Prop := {
  io_positive id n : objectKeys_ info !! id = Some n -> 1 <= n;
  io_unique : isUniqueCnt_ info = true -> forall id n, objectKeys_ info !! id = Some n -> n = 1
}.

Definition uses (clients : Clients) (c id : string) : Prop := exists info, clients !! c = Some info /\ is_Some (objectKeys_ info !! id).

Section tables.
(** No client was removed while it referred several times to a unit. *)
Variable tidy : bool.

(** No counter exceeds [bound]; it counts at least the references of the clients, and
    exactly those when [tidy]. *)
Record shm_ok (bound : Z) (clients : Clients) (shm : Entries) (units : Units) : Prop := {
  so_info : map_Forall (fun _ info => info_ok info) clients;
  so_units a b u v : units !! a = Some u -> units !! b = Some v -> su_id u = su_id v -> a = b;
  so_entry id address cs : shm !! id = Some (address, cs) -> exists u, units !! address = Some u /\ su_id u = id /\ cs <> ∅ /\ forall c, c ∈ cs <-> uses clients c id;
  so_present c id : uses clients c id -> is_Some (shm !! id);
  so_count a u : units !! a = Some u -> total clients (su_id u) <= su_refCount u /\ (tidy = true -> su_refCount u = total clients (su_id u));
  so_bound a u : units !! a = Some u -> su_refCount u <= bound
}.

Lemma ref_total_nonneg clients id : map_Forall (fun _ info => info_ok info) clients -> 0 <= total clients id.
Proof.
  induction clients as [|c info clients Hc IH] using map_ind; intros Hall; [done|]. rewrite ref_total_insert by done. apply map_Forall_insert in Hall as [Hi Hall]; [|done]. specialize (IH Hall).
  unfold GetRefCount. destruct (objectKeys_ info !! id) as [n|] eqn:E; cbn; [|lia]. apply (io_positive _ Hi) in E. lia.
Qed.

Lemma total_unused clients id : (forall c, ~ uses clients c id) -> total clients id = 0.
Proof.
  induction clients as [|c info clients Hc IH] using map_ind; intros Hno; [done|]. rewrite ref_total_insert by done. rewrite IH.
  - unfold GetRefCount. destruct (objectKeys_ info !! id) as [n|] eqn:E; [|done]. destruct (Hno c). exists info. rewrite lookup_insert, decide_True by done. by rewrite E.
  - intros c' (info' & Hc' & Hid). destruct (Hno c'). exists info'. split; [|done]. by rewrite lookup_insert_ne by (intros ->; congruence).
Qed.

Lemma total_used clients c id : map_Forall (fun _ info => info_ok info) clients -> uses clients c id -> 1 <= total clients id.
Proof.
  intros Hall (info & Hc & [n Hn]). rewrite (total_split clients c info id Hc).
  pose proof (ref_total_nonneg (delete c clients) id (map_Forall_delete _ _ _ Hall)) as H0. unfold GetRefCount. rewrite Hn. cbn. apply (io_positive _ (Hall _ _ Hc)) in Hn. lia.
Qed.

(** ** Replacing the references of one client *)

Lemma uses_insert clients c info c' id : uses (<[c := info]> clients) c' id <-> (c' = c /\ is_Some (objectKeys_ info !! id)) \/ (c' <> c /\ uses clients c' id).
Proof.
  unfold uses. destruct (decide (c' = c)) as [->|Hne].
  - rewrite lookup_insert, decide_True by done. split; [intros (i & [= <-] & Hi); by left|]. intros [[_ Hi]|[? _]]; [by exists info|done].
  - rewrite lookup_insert_ne by done. split; [intros Hi; by right|]. by intros [[? _]|[_ Hi]].
Qed.

(** A client without references is no user. *)
Lemma fresh_client bound clients shm units c unique : clients !! c = None -> shm_ok bound clients shm units -> shm_ok bound (<[c := new_ObjectRefInfo unique]> clients) shm units.
Proof.
  intros Hc [H1 H2 H3 H4 H5 H6]. assert (Hu : forall c' id, uses (<[c := new_ObjectRefInfo unique]> clients) c' id <-> uses clients c' id).
  { intros c' id. rewrite uses_insert. split; [intros [[_ [? Hx]]|[_ Hx]]; [discriminate Hx|done]|]. intros Hx. right. split; [|done]. intros ->. destruct Hx as (? & Hx & _). congruence. }
  assert (Ht : forall id, total (<[c := new_ObjectRefInfo unique]> clients) id = total clients id) by (intros id; by rewrite ref_total_insert).
  split.
  - apply map_Forall_insert_2; [|done]. split; [intros id n Hx; discriminate Hx|intros _ id n Hx; discriminate Hx].
  - done.
  - intros id a cs He. destruct (H3 id a cs He) as (u & ? & ? & ? & Hcs). exists u. split_and!; [done..|]. intros c'. by rewrite Hu.
  - intros c' id Hx%Hu. by apply (H4 c').
  - intros a u Ha. rewrite Ht. by apply H5 with a.
  - done.
Qed.

Lemma empty_client bound clients shm units c info : clients !! c = Some info -> objectKeys_ info = ∅ -> shm_ok bound clients shm units -> shm_ok bound (delete c clients) shm units.
Proof.
  intros Hc He [H1 H2 H3 H4 H5 H6]. assert (Hu : forall c' id, uses (delete c clients) c' id <-> uses clients c' id).
  { intros c' id. unfold uses. destruct (decide (c' = c)) as [->|Hne]; [rewrite lookup_delete, decide_True by done|by rewrite lookup_delete_ne].
    split; [by intros (? & [=] & _)|]. intros (i & Hi & [n Hn]). rewrite Hc in Hi. injection Hi as <-. by rewrite He in Hn. }
  assert (Ht : forall id, total (delete c clients) id = total clients id) by (intros id; rewrite (total_split clients c info id Hc); unfold GetRefCount; by rewrite He).
  split.
  - by apply map_Forall_delete.
  - done.
  - intros id a cs Hx. destruct (H3 id a cs Hx) as (u & ? & ? & ? & Hcs). exists u. split_and!; [done..|]. intros c'. by rewrite Hu.
  - intros c' id Hx%Hu. by apply (H4 c').
  - intros a u Ha. rewrite Ht. by apply H5 with a.
  - done.
Qed.

(** One client changes its references to one unit; the entry of the unit follows. *)
Lemma table_update_ok bound bound' clients shm shm' units c old info address u u' : shm_ok bound clients shm units -> bound <= bound' ->
  units !! address = Some u -> clients !! c = Some old -> info_ok info ->
  (forall id, id <> su_id u -> objectKeys_ info !! id = objectKeys_ old !! id) ->
  su_id u' = su_id u -> su_refCount u - GetRefCount (su_id u) old <= su_refCount u' - GetRefCount (su_id u) info ->
  (tidy = true -> su_refCount u' = su_refCount u - GetRefCount (su_id u) old + GetRefCount (su_id u) info) -> su_refCount u' <= bound' ->
  (forall id, id <> su_id u -> shm' !! id = shm !! id) ->
  match shm' !! su_id u with
  | Some (a, cs) => a = address /\ cs <> ∅ /\ forall c', c' ∈ cs <-> uses (<[c := info]> clients) c' (su_id u)
  | None => forall c', ~ uses (<[c := info]> clients) c' (su_id u)
  end -> shm_ok bound' (<[c := info]> clients) shm' (<[address := u']> units).
Proof.
  intros [H1 H2 H3 H4 H5 H6] Hb Ha Hc Hi Hk Eid Ec Ect Hmax Hs He.
  assert (Hu : forall c' id, id <> su_id u -> uses (<[c := info]> clients) c' id <-> uses clients c' id).
  { intros c' id Hne. rewrite uses_insert. rewrite (Hk id Hne). split; [intros [[-> Hx]|[_ Hx]]; [by exists old|done]|].
    intros Hx. destruct (decide (c' = c)) as [->|]; [left; split; [done|]; destruct Hx as (i & Hi' & Hx); congruence|by right]. }
  assert (Ht : forall id, total (<[c := info]> clients) id =
    if decide (id = su_id u) then total clients id - GetRefCount id old + GetRefCount id info else total clients id).
  { intros id. rewrite (total_update clients c old info id Hc). case_decide as E; [done|]. unfold GetRefCount. rewrite (Hk id E). lia. }
  destruct (H5 _ _ Ha) as [Hle Hte].
  assert (Hun : forall a v, <[address := u']> units !! a = Some v -> exists w, units !! a = Some w /\ su_id w = su_id v /\ (a = address /\ v = u' \/ a <> address /\ w = v)).
  { intros a v Hv. apply lookup_insert_Some in Hv as [[<- <-]|[Hne Hv]]; [exists u; auto|exists v; auto]. }
  split.
  - by apply map_Forall_insert_2.
  - intros a b v w Hv Hw E. apply Hun in Hv as (v0 & Hv & Ev & _). apply Hun in Hw as (w0 & Hw & Ew & _). apply (H2 a b v0 w0); [done..|congruence].
  - intros id a cs Hid. destruct (decide (id = su_id u)) as [->|Hne].
    + rewrite Hid in He. destruct He as (-> & Hne & Hcs). exists u'. rewrite lookup_insert, decide_True by done. done.
    + rewrite (Hs id Hne) in Hid. destruct (H3 id a cs Hid) as (v & Hv & Ev & Hne' & Hcs). exists v. assert (a <> address) by congruence.
      rewrite lookup_insert_ne by done. split_and!; [done..|]. intros c'. by rewrite Hu.
  - intros c' id Hx. destruct (decide (id = su_id u)) as [->|Hne].
    + destruct (shm' !! su_id u); [done|by destruct (He c')].
    + rewrite (Hs id Hne). by apply (Hu c' id Hne), H4 in Hx.
  - intros a v Hv. rewrite Ht. apply Hun in Hv as (w & Hw & Ew & [[-> ->]|[Hne ->]]).
    + rewrite Eid, decide_True by done. split; [lia|]. intros Htidy. specialize (Ect Htidy). specialize (Hte Htidy). lia.
    + rewrite decide_False; [by apply H5 with a|]. intros E. destruct Hne. by apply (H2 a address v u).
  - intros a v Hv. apply Hun in Hv as (w & Hw & _ & [[-> ->]|[Hne ->]]); [done|]. specialize (H6 a v Hw). lia.
Qed.

(** ** Operations on one unit *)

Lemma i32_small z : - 2 ^ 31 <= z < 2 ^ 31 -> i32 z = z.
Proof. intros Hz. unfold i32. rewrite Z.mod_small; lia. Qed.

Lemma count_bound bound clients shm units c info id n : shm_ok bound clients shm units -> clients !! c = Some info -> objectKeys_ info !! id = Some n -> 1 <= n <= bound.
Proof.
  intros Hok Hc Hn. pose proof (io_positive _ (so_info _ _ _ _ Hok _ _ Hc) _ _ Hn).
  destruct (so_present _ _ _ _ Hok c id) as [[address cs] He]; [exists info; by rewrite Hn|].
  destruct (so_entry _ _ _ _ Hok _ _ _ He) as (u & Hu & Eid & _). pose proof (so_bound _ _ _ _ Hok _ _ Hu) as Hb'.
  destruct (so_count _ _ _ _ Hok _ _ Hu) as [Hb _]. rewrite Eid in Hb. rewrite (total_split clients c info id Hc) in Hb. pose proof (ref_total_nonneg (delete c clients) id (map_Forall_delete _ _ _ (so_info _ _ _ _ Hok))). unfold GetRefCount in Hb. rewrite Hn in Hb. cbn in Hb. lia.
Qed.

Lemma add_unit_ok bound c info address u t : shm_ok bound (st_clientRefTable_ t) (shmRefTable_ t) (st_units t) -> bound + 1 < 2 ^ 31 ->
  st_units t !! address = Some u -> st_clientRefTable_ t !! c = Some info ->
  let t' := add_unit c info address u t in
  shm_ok (bound + 1) (st_clientRefTable_ t') (shmRefTable_ t') (st_units t').
Proof.
  intros Hok Hb Ha Hc. pose proof (proj1 (so_count _ _ _ _ Hok _ _ Ha)) as Hcount. pose proof (so_bound _ _ _ _ Hok _ _ Ha) as Hle. pose proof (ref_total_nonneg _ (su_id u) (so_info _ _ _ _ Hok)) as H0.
  unfold add_unit. destruct (AddRef (su_id u) 1 info) as [info' added] eqn:Eadd. set (u' := if added then add_count 1 u else u).
  assert (Hu' : su_id u' = su_id u /\ su_refCount u' = su_refCount u + (if added then 1 else 0)).
  { unfold u'. destruct added; [|split; [done|lia]]. cbn. rewrite i32_small by lia. done. } destruct Hu' as [Eid Ecount]. rewrite Eid.
  assert (Hfacts : info_ok info' /\ (forall id, id <> su_id u -> objectKeys_ info' !! id = objectKeys_ info !! id) /\ is_Some (objectKeys_ info' !! su_id u) /\
    GetRefCount (su_id u) info' = GetRefCount (su_id u) info + (if added then 1 else 0)).
  { pose proof (so_info _ _ _ _ Hok _ _ Hc) as Hi. unfold AddRef in Eadd. destruct (objectKeys_ info !! su_id u) as [n|] eqn:E; [destruct (isUniqueCnt_ info) eqn:Eu|]; injection Eadd as <- <-.
    - split_and!; [done|done|by rewrite E|lia].
    - pose proof (count_bound _ _ _ _ _ _ _ _ Hok Hc E). rewrite u32_small by (unfold is_u32; lia). split_and!.
      + split; cbn; [|by rewrite Eu]. intros id m [[<- <-]|[_ Hm]]%lookup_insert_Some; [lia|by apply Hi in Hm].
      + intros id Hne. cbn. by rewrite lookup_insert_ne.
      + cbn. by rewrite lookup_insert, decide_True.
      + unfold GetRefCount. cbn. by rewrite lookup_insert, decide_True, E.
    - split_and!.
      + split; cbn.
        * intros id m [[<- <-]|[_ Hm]]%lookup_insert_Some; [lia|by apply Hi in Hm].
        * intros Hun id m [[<- <-]|[_ Hm]]%lookup_insert_Some; [done|by apply (io_unique _ Hi Hun) in Hm].
      + intros id Hne. cbn. by rewrite lookup_insert_ne.
      + cbn. by rewrite lookup_insert, decide_True.
      + unfold GetRefCount. cbn. by rewrite lookup_insert, decide_True, E. }
  destruct Hfacts as (Hi' & Hk & Hsome & Hget). set (t1 := set_refs _ _ _ t).
  assert (Hgoal : shm_ok (bound + 1) (st_clientRefTable_ t1) (shmRefTable_ t1) (st_units t1)); [|by destruct (su_refCount u' =? 1)].
  cbn [t1 set_refs st_clientRefTable_ shmRefTable_ st_units]. apply (table_update_ok bound _ _ (shmRefTable_ t) _ _ c info info' address u u'); try done; [lia|lia|lia|destruct added; lia| |].
  - intros id Hne. destruct (shmRefTable_ t !! su_id u) as [[first cs]|]; by rewrite lookup_insert_ne.
  - assert (Hself : forall c', uses (<[c := info']> (st_clientRefTable_ t)) c' (su_id u) <-> c' = c \/ uses (st_clientRefTable_ t) c' (su_id u)).
    { intros c'. rewrite uses_insert. destruct (decide (c' = c)); naive_solver. }
    destruct (shmRefTable_ t !! su_id u) as [[first cs]|] eqn:Es; rewrite lookup_insert, decide_True by done.
    + destruct (so_entry _ _ _ _ Hok _ _ _ Es) as (v & Hv & Ev & Hne & Hcs). split; [by apply (so_units _ _ _ _ Hok first address v u)|]. split; [set_solver|].
      intros c'. rewrite Hself, <-Hcs. set_solver.
    + split; [done|]. split; [set_solver|]. intros c'. rewrite Hself. split; [set_solver|]. intros [->|Hx]; [set_solver|]. apply (so_present _ _ _ _ Hok) in Hx as [? Hx]. congruence.
Qed.

(** Giving up a reference: what remains of the client's references. *)
Lemma remove_ref_ok bound clients shm units c info key : shm_ok bound clients shm units -> bound < 2 ^ 31 -> clients !! c = Some info ->
  let '(info', (removed, refCount)) := RemoveAndGetRefCnt key info in
  info_ok info' /\ (forall id, id <> key -> objectKeys_ info' !! id = objectKeys_ info !! id) /\
  GetRefCount key info' = GetRefCount key info - (if removed then 1 else 0) /\ removed = has_value (objectKeys_ info !! key) /\
  (0 <? refCount) = has_value (objectKeys_ info' !! key) /\ (GetRefCount key info <= 1 -> objectKeys_ info' = delete key (objectKeys_ info) /\ refCount = 0).
Proof.
  intros Hok Hb Hc. pose proof (so_info _ _ _ _ Hok _ _ Hc) as Hi. unfold RemoveAndGetRefCnt, GetRefCount. destruct (objectKeys_ info !! key) as [n|] eqn:E.
  2:{ cbn. rewrite E. split_and!; try done. intros _. split; [|done]. by rewrite delete_id. }
  pose proof (count_bound _ _ _ _ _ _ _ _ Hok Hc E) as Hn. destruct (isUniqueCnt_ info) eqn:Eu.
  - pose proof (io_unique _ Hi Eu _ _ E) as ->. cbn. rewrite lookup_delete, decide_True by done. split_and!; try done.
    + split; cbn; [intros id m [_ Hm]%lookup_delete_Some|intros _ id m [_ Hm]%lookup_delete_Some]; [by apply Hi in Hm|by apply (io_unique _ Hi Eu) in Hm].
    + intros id Hne. by rewrite lookup_delete_ne.
  - rewrite u32_small by (unfold is_u32; lia). cbn. destruct (Z.eqb_spec (n - 1) 0) as [E1|E1].
    + rewrite lookup_delete, decide_True by done. cbn. split_and!; try done; [| |by rewrite E1].
      * split; cbn; [intros id m [_ Hm]%lookup_delete_Some; by apply Hi in Hm|by rewrite Eu].
      * intros id Hne. by rewrite lookup_delete_ne.
    + rewrite lookup_insert, decide_True by done. cbn. split_and!; try done; [| |apply Z.ltb_lt; lia|lia].
      * split; cbn; [intros id m [[<- <-]|[_ Hm]]%lookup_insert_Some; [lia|by apply Hi in Hm]|by rewrite Eu].
      * intros id Hne. by rewrite lookup_insert_ne.
Qed.

Lemma detail_ok bound c key entry info t : shm_ok bound (st_clientRefTable_ t) (shmRefTable_ t) (st_units t) -> bound < 2 ^ 31 ->
  shmRefTable_ t !! key = Some entry -> st_clientRefTable_ t !! c = Some info ->
  exists t', RemoveShmUnitDetail c false key entry info t = Some t' /\ shm_ok bound (st_clientRefTable_ t') (shmRefTable_ t') (st_units t') /\
    st_clientRefTable_ t' = <[c := (RemoveAndGetRefCnt key info).1]> (st_clientRefTable_ t).
Proof.
  intros Hok Hb Hkey Hc. destruct entry as [address cs]. destruct (so_entry _ _ _ _ Hok _ _ _ Hkey) as (u & Ha & Eid & Hne & Hcs).
  unfold RemoveShmUnitDetail. cbn [fst snd]. rewrite Ha. cbn [mbind option_bind]. rewrite Eid.
  pose proof (remove_ref_ok bound _ _ _ c info key Hok Hb Hc) as Hr. destruct (RemoveAndGetRefCnt key info) as [info' [removed refCount]]. destruct Hr as (Hi' & Hk & Hget & Hrem & Hpos0 & Hone).
  assert (Hpos : 0 < refCount <-> is_Some (objectKeys_ info' !! key)) by (rewrite <-Z.ltb_lt, Hpos0; destruct (objectKeys_ info' !! key); split; intros Hx; try done; by destruct Hx).
  pose proof (proj1 (so_count _ _ _ _ Hok _ _ Ha)) as Hcount. rewrite Eid in Hcount. pose proof (so_bound _ _ _ _ Hok _ _ Ha) as Hle.
  assert (Hused : 1 <= total (st_clientRefTable_ t) key).
  { apply set_choose_L in Hne as (c0 & Hc0%Hcs). apply (total_used _ c0); [apply Hok|done]. }
  set (u' := if removed && (0 <? su_refCount u) then add_count (-1) u else u).
  assert (Hu' : su_id u' = key /\ su_refCount u' = su_refCount u - (if removed then 1 else 0)).
  { unfold u'. rewrite (proj2 (Z.ltb_lt 0 (su_refCount u))) by lia. destruct removed; cbn; [rewrite i32_small by lia|]; split; try done; lia. }
  destruct Hu' as [Eid' Ecount]. set (t1 := set_refs _ _ _ t). set (t2 := if su_refCount u' =? 0 then account (-1) (su_size u') t1 else t1).
  assert (E2 : st_clientRefTable_ t2 = <[c := info']> (st_clientRefTable_ t) /\ shmRefTable_ t2 = shmRefTable_ t /\ st_units t2 = <[address := u']> (st_units t)) by (unfold t2; by destruct (_ =? _)).
  destruct E2 as (Ec2 & Es2 & Eu2).
  assert (Hself : forall c', uses (<[c := info']> (st_clientRefTable_ t)) c' key <-> (c' <> c /\ c' ∈ cs) \/ (c' = c /\ 0 < refCount)).
  { intros c'. rewrite uses_insert, Hcs, Hpos. naive_solver. }
  assert (Hupd : forall shm', (forall id, id <> key -> shm' !! id = shmRefTable_ t !! id) ->
    match shm' !! key with Some (a, cs) => a = address /\ cs <> ∅ /\ forall c', c' ∈ cs <-> uses (<[c := info']> (st_clientRefTable_ t)) c' key
      | None => forall c', ~ uses (<[c := info']> (st_clientRefTable_ t)) c' key end ->
    shm_ok bound (<[c := info']> (st_clientRefTable_ t)) shm' (<[address := u']> (st_units t))).
  { intros shm' Hs He. apply (table_update_ok bound _ _ (shmRefTable_ t) _ _ c info info' address u u'); rewrite ?Eid; try done; [lia|lia|destruct removed; lia]. }
  cbn [negb andb]. destruct (0 <? refCount) eqn:Ef; eexists; (split; [done|]).
  - apply Z.ltb_lt in Ef as Hp. rewrite Ec2, Es2, Eu2. split; [|done]. apply Hupd; [done|]. rewrite Hkey. split; [done|]. split; [done|].
    intros c'. rewrite Hself. destruct (decide (c' = c)) as [->|]; [|naive_solver]. split; [by right|]. intros _. apply Hcs. exists info. split; [done|].
    destruct removed; [by destruct (objectKeys_ info !! key)|]. apply Hpos in Hp. destruct (objectKeys_ info !! key) eqn:En; [done|]. destruct Hp as [m Hm].
    unfold GetRefCount in Hget. rewrite Hm, En in Hget. cbn in Hget. apply (io_positive _ Hi') in Hm. lia.
  - assert (H0 : ~ 0 < refCount) by (apply Z.ltb_ge in Ef; lia).
    cbn [set_refs st_clientRefTable_ shmRefTable_ st_units]. rewrite Ec2, Es2, Eu2. split; [|done]. apply Hupd.
    + intros id Hn. case_bool_decide; [by rewrite lookup_delete_ne|by rewrite lookup_insert_ne].
    + case_bool_decide as Hemp; [rewrite lookup_delete, decide_True by done|rewrite lookup_insert, decide_True by done].
      * intros c' Hx%Hself. set_solver.
      * split; [done|]. split; [done|]. intros c'. rewrite Hself. set_solver.
Qed.

(** A client being removed gives up all its references to a unit, of which the unit's
    counter loses one.  [rest] are the references it still has to give up. *)
Lemma detail_force_ok bound c key entry info rest n t : shm_ok bound (<[c := rest]> (st_clientRefTable_ t)) (shmRefTable_ t) (st_units t) -> bound < 2 ^ 31 ->
  shmRefTable_ t !! key = Some entry -> objectKeys_ rest !! key = Some n -> objectKeys_ info !! key = Some n -> (tidy = true -> n = 1) ->
  exists t', RemoveShmUnitDetail c true key entry info t = Some t' /\
    shm_ok bound (<[c := set_keys (delete key (objectKeys_ rest)) rest]> (st_clientRefTable_ t')) (shmRefTable_ t') (st_units t') /\
    st_clientRefTable_ t' = <[c := (RemoveAndGetRefCnt key info).1]> (st_clientRefTable_ t).
Proof.
  intros Hok Hb Hkey Hrest Hinfo Hone. destruct entry as [address cs]. destruct (so_entry _ _ _ _ Hok _ _ _ Hkey) as (u & Ha & Eid & Hne & Hcs).
  set (clients := <[c := rest]> (st_clientRefTable_ t)) in *.
  assert (Hc : clients !! c = Some rest) by (unfold clients; by rewrite lookup_insert, decide_True).
  pose proof (so_info _ _ _ _ Hok _ _ Hc) as Hi. cbn in Hi. pose proof (io_positive _ Hi _ _ Hrest) as Hn1.
  unfold RemoveShmUnitDetail. cbn [fst snd]. rewrite Ha. cbn [mbind option_bind]. rewrite Eid.
  assert (Hrm : (RemoveAndGetRefCnt key info).2.1 = true) by (unfold RemoveAndGetRefCnt; rewrite Hinfo; by destruct (isUniqueCnt_ info)).
  destruct (RemoveAndGetRefCnt key info) as [info' [removed refCount]]. cbn in Hrm. subst removed.
  pose proof (proj1 (so_count _ _ _ _ Hok _ _ Ha)) as Hcount. rewrite Eid in Hcount. pose proof (so_bound _ _ _ _ Hok _ _ Ha) as Hle.
  assert (Hused : 1 <= total clients key) by (apply (total_used _ c); [apply Hok|exists rest; by rewrite Hrest]).
  rewrite (proj2 (Z.ltb_lt 0 (su_refCount u))) by lia. cbn [negb andb]. set (u' := add_count (-1) u).
  assert (Ecount : su_refCount u' = su_refCount u - 1) by (cbn; rewrite i32_small by lia; lia).
  set (t1 := set_refs _ _ _ t). set (t2 := if su_refCount u' =? 0 then account (-1) (su_size u') t1 else t1).
  assert (E2 : st_clientRefTable_ t2 = <[c := info']> (st_clientRefTable_ t) /\ shmRefTable_ t2 = shmRefTable_ t /\ st_units t2 = <[address := u']> (st_units t)) by (unfold t2; by destruct (_ =? _)).
  destruct E2 as (Ec2 & Es2 & Eu2). eexists. split; [done|]. cbn [set_refs st_clientRefTable_ shmRefTable_ st_units fst]. split; [|done].
  rewrite Ec2, Es2, Eu2. rewrite insert_insert_eq. set (rest' := set_keys _ rest).
  replace (<[c := rest']> (st_clientRefTable_ t)) with (<[c := rest']> clients) by (unfold clients; by rewrite insert_insert_eq).
  assert (Hk' : objectKeys_ rest' !! key = None) by (cbn; by rewrite lookup_delete, decide_True).
  assert (Hself : forall c', uses (<[c := rest']> clients) c' key <-> c' ∈ cs ∖ {[c]}).
  { intros c'. rewrite uses_insert, elem_of_difference, not_elem_of_singleton, Hcs, Hk'. split; [intros [[_ [? Hx]]|Hx]; [done|tauto]|]. tauto. }
  apply (table_update_ok bound _ _ (shmRefTable_ t) _ _ c rest rest' address u u'); rewrite ?Eid; try done.
  - split; cbn.
    + intros id m [_ Hm]%lookup_delete_Some. by apply (io_positive _ Hi) in Hm.
    + intros Hun id m [_ Hm]%lookup_delete_Some. by apply (io_unique _ Hi Hun) in Hm.
  - intros id Hne'. cbn. by rewrite lookup_delete_ne.
  - unfold GetRefCount. rewrite Hrest, Hk', Ecount. change (default 0 (Some n)) with n. change (default 0 (@None Z)) with 0. lia.
  - intros Ht. unfold GetRefCount. rewrite Hrest, Hk', Ecount, (Hone Ht). change (default 0 (Some 1)) with 1. change (default 0 (@None Z)) with 0. lia.
  - lia.
  - intros id Hn. case_bool_decide; [by rewrite lookup_delete_ne|by rewrite lookup_insert_ne].
  - case_bool_decide as Hemp; [rewrite lookup_delete, decide_True by done|rewrite lookup_insert, decide_True by done].
    + intros c' Hx%Hself. by rewrite Hemp in Hx.
    + split; [done|]. split; [done|]. intros c'. by rewrite Hself.
Qed.

(** ** Operations on the table *)

Definition table_ok (bound : Z) (t : SharedMemoryRefTable) : Prop := shm_ok bound (st_clientRefTable_ t) (shmRefTable_ t) (st_units t).

(** Expiry records are no references. *)
Definition same_refs (t t' : SharedMemoryRefTable) : Prop :=
  st_clientRefTable_ t' = st_clientRefTable_ t /\ shmRefTable_ t' = shmRefTable_ t /\ st_units t' = st_units t.

Lemma same_refs_ok bound t t' : same_refs t t' -> table_ok bound t -> table_ok bound t'.
Proof. intros (E1 & E2 & E3). unfold table_ok. by rewrite E1, E2, E3. Qed.

Lemma same_refs_trans t t' t'' : same_refs t t' -> same_refs t' t'' -> same_refs t t''.
Proof. intros (? & ? & ?) (? & ? & ?). split_and!; congruence. Qed.

Lemma record_same hard now c id timeout reclaimable t : same_refs t (RecordMaybeExpiredShm hard now c id timeout reclaimable t).
Proof. done. Qed.

Lemma clear_same c ids t : same_refs t (ClearMaybeExpiredShmIds c ids t).
Proof. unfold ClearMaybeExpiredShmIds. destruct (_ =? _)%nat; [done|]. by destruct (maybeExpiredShmTable_ t !! c). Qed.

Lemma record_again_same hard items : forall clock t, same_refs t (record_again hard clock items t).
Proof. induction items as [|item items IH]; intros clock t; [done|]. cbn. eapply same_refs_trans; [apply record_same|apply IH]. Qed.

Lemma move_same hard clock items t : same_refs t (MoveExpiredToMaybeTable hard clock items t).
Proof.
  unfold MoveExpiredToMaybeTable. assert (Hm : forall acc, same_refs t acc.1 -> same_refs t (foldl move_item acc items).1).
  { induction items as [|item items IH]; intros [t1 failed] Ht; [done|]. cbn [foldl]. apply IH. cbn [move_item]. destruct (ClientContainsShm _ _ t1); [|done]. cbn.
    eapply same_refs_trans; [exact Ht|done]. }
  specialize (Hm (t, []) ltac:(done)). destruct (foldl move_item (t, []) items) as [t1 failed]. eapply same_refs_trans; [exact Hm|apply record_again_same].
Qed.

Lemma shm_ok_mono bound bound' clients shm units : bound <= bound' -> shm_ok bound clients shm units -> shm_ok bound' clients shm units.
Proof. intros Hb [H1 H2 H3 H4 H5 H6]. split; try done. intros a u Hu. specialize (H6 a u Hu). lia. Qed.

Lemma remove_unit_ok bound c id t : table_ok bound t -> bound < 2 ^ 31 -> exists t' r, RemoveShmUnit c id t = Some (t', r) /\ table_ok bound t'.
Proof.
  intros Hok Hb. unfold RemoveShmUnit. destruct (st_clientRefTable_ t !! c) as [info|] eqn:Ec; [|by eauto]. destruct (shmRefTable_ t !! id) as [entry|] eqn:Es; [|by eauto].
  destruct (detail_ok bound c id entry info t Hok Hb Es Ec) as (t' & -> & Hok' & _). cbn [mbind option_bind]. do 2 eexists. split; [done|]. eapply same_refs_ok; [apply clear_same|done].
Qed.

Lemma remove_confirmed_ok bound c ids : forall t, table_ok bound t -> bound < 2 ^ 31 -> exists t', remove_confirmed c ids t = Some t' /\ table_ok bound t'.
Proof.
  induction ids as [|id ids IH]; intros t Hok Hb; [by exists t|]. cbn [remove_confirmed]. destruct (remove_unit_ok bound c id t Hok Hb) as (t1 & r & -> & Hok1). cbn [mbind option_bind]. by apply IH.
Qed.

Lemma hard_reclaim_ok bound items : forall t, table_ok bound t -> bound < 2 ^ 31 -> exists t', HardReclaimExpiredShmUnits items t = Some t' /\ table_ok bound t'.
Proof.
  induction items as [|item items IH]; intros t Hok Hb; [by exists t|]. cbn [HardReclaimExpiredShmUnits]. destruct (ClientContainsShm _ _ t); [|by apply IH].
  destruct (remove_unit_ok bound (mx_clientId item) (mx_shmId item) t Hok Hb) as (t1 & r & -> & Hok1). cbn [mbind option_bind]. apply IH; [|done]. eapply same_refs_ok; [apply clear_same|done].
Qed.

(** A client gives up the references [ids] it still has. *)
Lemma remove_units_ok bound c ids : forall t info rest, table_ok bound (set_refs (<[c := rest]> (st_clientRefTable_ t)) (shmRefTable_ t) (st_units t) t) -> bound < 2 ^ 31 ->
  st_clientRefTable_ t !! c = Some info -> NoDup ids -> (forall id, id ∈ ids <-> is_Some (objectKeys_ rest !! id)) ->
  (forall id, id ∈ ids -> objectKeys_ info !! id = objectKeys_ rest !! id) -> (tidy = true -> forall id, GetRefCount id rest <= 1) ->
  exists t' rest', remove_units c ids t = Some t' /\ objectKeys_ rest' = ∅ /\
    table_ok bound (set_refs (<[c := rest']> (st_clientRefTable_ t')) (shmRefTable_ t') (st_units t') t').
Proof.
  induction ids as [|id ids IH]; intros t info rest Hok Hb Hc Hd Hids Hsame Hone; cbn [remove_units].
  { exists t, rest. split_and!; [done| |done]. apply map_eq. intros id. rewrite lookup_empty. destruct (objectKeys_ rest !! id) eqn:E; [|done]. assert (id ∈ @nil string) by (apply Hids; by rewrite E). set_solver. }
  apply NoDup_cons in Hd as [Hid Hd]. destruct (proj1 (Hids id) ltac:(left)) as [n Hn].
  assert (Hinfo : objectKeys_ info !! id = Some n) by (rewrite Hsame by left; done).
  assert (Hu : uses (<[c := rest]> (st_clientRefTable_ t)) c id) by (exists rest; rewrite lookup_insert, decide_True by done; by rewrite Hn).
  destruct (so_present _ _ _ _ Hok _ _ Hu) as [entry He]. cbn in He. rewrite He, Hc. cbn [mbind option_bind].
  destruct (detail_force_ok bound c id entry info rest n t Hok Hb He Hn Hinfo) as (t1 & -> & Hok1 & Ec1).
  { intros Ht. specialize (Hone Ht id). unfold GetRefCount in Hone. rewrite Hn in Hone. cbn in Hone.
    assert (Hr : <[c := rest]> (st_clientRefTable_ t) !! c = Some rest) by (by rewrite lookup_insert, decide_True).
    pose proof (io_positive _ (so_info _ _ _ _ Hok _ _ Hr) _ _ Hn). lia. }
  cbn [mbind option_bind]. apply (IH t1 (RemoveAndGetRefCnt id info).1 (set_keys (delete id (objectKeys_ rest)) rest)); [done|done|rewrite Ec1; by rewrite lookup_insert, decide_True|done|..]; cbn [objectKeys_ set_keys].
  - intros id'. destruct (decide (id' = id)) as [->|Hne].
    + rewrite lookup_delete, decide_True by done. split; [done|by intros []].
    + rewrite lookup_delete_ne, <-Hids by done. set_solver.
  - intros id' Hin. assert (Hne : id' <> id) by (intros ->; done). rewrite lookup_delete_ne by done. rewrite <-Hsame by by right.
    unfold RemoveAndGetRefCnt. rewrite Hinfo. destruct (isUniqueCnt_ info); [|destruct (_ =? 0)]; cbn;
      rewrite ?lookup_delete_ne, ?lookup_insert_ne by done; done.
  - intros Ht id'. unfold GetRefCount. cbn. destruct (decide (id' = id)) as [->|Hne]; [by rewrite lookup_delete, decide_True|]. rewrite lookup_delete_ne by done. by apply Hone.
Qed.

Lemma remove_client_ok `{MapIterationLaws} bound c t : table_ok bound t -> bound < 2 ^ 31 ->
  (tidy = true -> forall info id, st_clientRefTable_ t !! c = Some info -> GetRefCount id info <= 1) ->
  exists t', RemoveClient c t = Some t' /\ table_ok bound t'.
Proof.
  intros Hok Hb Hone. unfold RemoveClient. destruct (st_clientRefTable_ t !! c) as [info|] eqn:Ec; [|by exists t].
  destruct (remove_units_ok bound c (GetRefIds info) t info info) as (t1 & rest & -> & He & Hok1).
  - unfold table_ok. cbn. by rewrite insert_id.
  - done.
  - done.
  - unfold GetRefIds. rewrite iterate_perm. apply NoDup_fst_map_to_list.
  - intros id. unfold GetRefIds. rewrite iterate_perm, list_elem_of_fmap. split.
    + intros ([k n] & -> & Hin%elem_of_map_to_list). by exists n.
    + intros [n Hn]. exists (id, n). split; [done|]. by apply elem_of_map_to_list.
  - done.
  - intros Ht id. by apply Hone.
  - cbn [mbind option_bind]. eexists. split; [done|].
    assert (Hr : <[c := rest]> (st_clientRefTable_ t1) !! c = Some rest) by (by rewrite lookup_insert, decide_True).
    pose proof (empty_client _ _ _ _ c rest Hr He Hok1) as Hok2. by rewrite delete_insert_eq in Hok2.
Qed.

(** *** Units come and go *)

(** A unit is allocated without references under an id no unit has. *)
Lemma alloc_ok bound address u t : table_ok bound t -> 0 <= bound -> st_units t !! address = None -> su_refCount u = 0 ->
  (forall a v, st_units t !! a = Some v -> su_id v <> su_id u) ->
  table_ok bound (set_refs (st_clientRefTable_ t) (shmRefTable_ t) (<[address := u]> (st_units t)) t).
Proof.
  intros [H1 H2 H3 H4 H5 H6] H0 Hnew Hz Hid. split; cbn; try done.
  - intros a b v w Hv Hw E. apply lookup_insert_Some in Hv as [[<- <-]|[Ha Hv]], Hw as [[<- <-]|[Hb' Hw]]; [done| | |by eapply H2].
    + by destruct (Hid _ _ Hw).
    + by destruct (Hid _ _ Hv).
  - intros id a cs He. destruct (H3 id a cs He) as (v & Hv & Hrest). exists v. split; [|done]. rewrite lookup_insert_ne by congruence. done.
  - intros a v [[<- <-]|[_ Hv]]%lookup_insert_Some; [|by apply H5 in Hv].
    assert (Ht : total (st_clientRefTable_ t) (su_id u) = 0); [|lia]. apply total_unused. intros c Hu.
    destruct (H4 _ _ Hu) as [[a cs] He]. destruct (H3 _ _ _ He) as (v & Hv & Ev & _). by destruct (Hid _ _ Hv).
  - intros a v [[<- <-]|[_ Hv]]%lookup_insert_Some; [lia|by apply H6 in Hv].
Qed.

(** A unit no entry points to is freed by its last owner. *)
Lemma free_ok bound address t : table_ok bound t -> (forall id cs, shmRefTable_ t !! id <> Some (address, cs)) ->
  table_ok bound (set_refs (st_clientRefTable_ t) (shmRefTable_ t) (delete address (st_units t)) t).
Proof.
  intros [H1 H2 H3 H4 H5 H6] Hno. split; cbn; try done.
  - intros a b v w [_ Hv]%lookup_delete_Some [_ Hw]%lookup_delete_Some. by apply H2.
  - intros id a cs He. destruct (H3 id a cs He) as (v & Hv & Hrest). exists v. split; [|done]. rewrite lookup_delete_ne; [done|]. intros ->. by apply (Hno id cs).
  - intros a v [_ Hv]%lookup_delete_Some. by apply H5 in Hv.
  - intros a v [_ Hv]%lookup_delete_Some. by apply H6 in Hv.
Qed.

(** ** The expiry queue *)

Section queue.
Context `{StdAlgorithmsLaws MaybeExpiredShmItem}.

Lemma later_order : weak_order_on later (fun _ => True).
Proof. unfold weak_order_on, later. split_and!; intros *; rewrite ?Z.ltb_lt, ?Z.ltb_ge; lia. Qed.

Lemma all_true {A} (l : list A) : Forall (fun _ => True) l.
Proof. by apply Forall_forall. Qed.

Lemma push_all items : forall queue, is_heap later queue -> is_heap later (foldl pq_push queue items) /\ foldl pq_push queue items ≡ₚ queue ++ items.
Proof.
  induction items as [|item items IH]; intros queue Hq; cbn; [by rewrite app_nil_r|].
  destruct (push_heap_spec later (fun _ => True) queue item later_order (all_true _) Hq) as [Hp Hh]. destruct (IH (pq_push queue item) Hh) as [Hh' Hp'].
  split; [done|]. rewrite Hp'. unfold pq_push. rewrite Hp. by rewrite <-app_assoc.
Qed.

(** The flush pops exactly the items whose time has come. *)
Theorem pop_expired_exact hardReclaimTimeoutMs nowMs fuel : forall queue expired hard, is_heap later queue -> (length queue <= fuel)%nat ->
  let '(rest, expired', hard') := pop_expired hardReclaimTimeoutMs fuel nowMs queue expired hard in
  is_heap later rest /\ Forall (fun item => nowMs < mx_expireTimeMs item) rest /\
  exists popped, queue ≡ₚ rest ++ popped /\ expired' ++ hard' ≡ₚ expired ++ hard ++ popped /\ Forall (fun item => mx_expireTimeMs item <= nowMs) popped.
Proof.
  induction fuel as [|fuel IH]; intros queue expired hard Hh Hl.
  { destruct queue; [|cbn in Hl; lia]. cbn. split_and!; [done|done|]. exists []. by rewrite !app_nil_r. }
  destruct queue as [|top queue]; cbn [pop_expired].
  { split_and!; [done|done|]. exists []. by rewrite !app_nil_r. }
  destruct (Z.leb_spec (mx_expireTimeMs top) nowMs) as [Hle|Hgt].
  - destruct (pop_heap_spec later (fun _ => True) top queue later_order (all_true _) Hh) as (rest & -> & Hp & Hr). rewrite removelast_last.
    assert (Hlen : (length rest <= fuel)%nat) by (rewrite Hp; cbn in Hl; lia).
    destruct (mx_reclaimable top && (0 <? hardReclaimTimeoutMs)).
    + specialize (IH rest expired (hard ++ [top]) Hr Hlen). destruct (pop_expired _ _ _ rest _ _) as [[q e] h]. destruct IH as (H1 & H2 & popped & H3 & H4 & H5). split_and!; [done|done|].
      exists (top :: popped). split_and!; [by rewrite <-Hp, H3, Permutation_middle|rewrite H4; by rewrite <-!app_assoc|by constructor].
    + specialize (IH rest (expired ++ [top]) hard Hr Hlen). destruct (pop_expired _ _ _ rest _ _) as [[q e] h]. destruct IH as (H1 & H2 & popped & H3 & H4 & H5). split_and!; [done|done|].
      exists (top :: popped). split_and!; [by rewrite <-Hp, H3, Permutation_middle|rewrite H4; rewrite <-!app_assoc; cbn; by rewrite Permutation_middle|by constructor].
  - split_and!; [done| |exists []; by rewrite !app_nil_r]. apply Forall_forall. intros y Hy. pose proof (heap_front later (fun _ => True) later_order top queue Hh (all_true _) y Hy) as Hf. unfold later in Hf. apply Z.ltb_ge in Hf. lia.
Qed.
End queue.

(** ** Sequences of operations *)

Section runs.
Context `{MapIterationLaws} `{StdAlgorithms MaybeExpiredShmItem}.
Variable hardReclaimTimeoutMs : Z.

Inductive ShmOp :=
  | OpInit (clientId : string) (supportMultiShmRefCount : bool)
  | OpAdd (clock : nat -> Z) (clientId : string) (address : nat) (requestTimeoutMs : Z) (reclaimable : bool)
  | OpAddMany (clock : nat -> Z) (clientId : string) (addresses : list (option nat)) (requestTimeoutMs : Z) (reclaimable : bool)
  | OpRemove (clientId shmId : string)
  | OpRemoveClient (clientId : string)
  | OpReconcile (clientId : string) (confirmed : list string)
  | OpFlush (clock : nat -> Z) (nowMs : Z).

Definition run_shm (op : ShmOp) (t : SharedMemoryRefTable) : option SharedMemoryRefTable :=
  match op with
  | OpInit c multi => Some (InitShmRefForClient c multi t)
  | OpAdd clock c address timeout reclaimable => AddShmUnit hardReclaimTimeoutMs clock c address timeout reclaimable t
  | OpAddMany clock c addresses timeout reclaimable => AddShmUnits hardReclaimTimeoutMs clock c addresses timeout reclaimable (ClientTableGetOrInsert c t).1
  | OpRemove c id => fst <$> RemoveShmUnit c id t
  | OpRemoveClient c => RemoveClient c t
  | OpReconcile c confirmed => fst <$> ReconcileClientShmRefs c confirmed t
  | OpFlush clock nowMs => FlushMaybeExpiredQueue hardReclaimTimeoutMs clock nowMs t
  end.

(** The units exist, which the caller's pointers keep alive; in a [tidy] run a client
    is only removed while it refers once to each unit. *)
Definition allowed (op : ShmOp) (t : SharedMemoryRefTable) : Prop :=
  match op with
  | OpAdd _ _ address _ _ => is_Some (st_units t !! address)
  | OpAddMany _ _ addresses _ _ => forall address, Some address ∈ addresses -> is_Some (st_units t !! address)
  | OpRemoveClient c => tidy = true -> forall info id, st_clientRefTable_ t !! c = Some info -> GetRefCount id info <= 1
  | _ => True
  end.

Definition adds (op : ShmOp) : Z := match op with OpAdd _ _ _ _ _ => 1 | OpAddMany _ _ addresses _ _ => Z.of_nat (length addresses) | _ => 0 end.

(** The operations, interleaved with the life of the units: one is allocated without
    references under a new id, and freed once the table holds no pointer to it. *)
Inductive reached : Z -> SharedMemoryRefTable -> Prop :=
  | reached_new : reached 0 (new_SharedMemoryRefTable ∅)
  | reached_op n t op t' : reached n t -> allowed op t -> run_shm op t = Some t' -> reached (n + adds op) t'
  | reached_alloc n t address u : reached n t -> st_units t !! address = None -> su_refCount u = 0 ->
      (forall a v, st_units t !! a = Some v -> su_id v <> su_id u) ->
      reached n (set_refs (st_clientRefTable_ t) (shmRefTable_ t) (<[address := u]> (st_units t)) t)
  | reached_free n t address : reached n t -> (forall id cs, shmRefTable_ t !! id <> Some (address, cs)) ->
      reached n (set_refs (st_clientRefTable_ t) (shmRefTable_ t) (delete address (st_units t)) t).

Lemma new_table_ok : table_ok 0 (new_SharedMemoryRefTable ∅).
Proof. split; cbn; try done. intros c id (info & Hc & _). by rewrite lookup_empty in Hc. Qed.

Lemma get_or_insert_ok bound c t : table_ok bound t -> let '(t', info) := ClientTableGetOrInsert c t in
  table_ok bound t' /\ st_clientRefTable_ t' !! c = Some info /\ st_units t' = st_units t.
Proof.
  intros Hok. unfold ClientTableGetOrInsert. destruct (st_clientRefTable_ t !! c) as [info|] eqn:E; [done|]. split; [by apply fresh_client|]. split; [|done]. cbn. by rewrite lookup_insert, decide_True.
Qed.

Lemma add_unit_client c info address u t : exists info', st_clientRefTable_ (add_unit c info address u t) !! c = Some info'.
Proof. unfold add_unit. destruct (AddRef _ _ _) as [info' added]. exists info'. destruct (_ =? _); cbn; by rewrite lookup_insert, decide_True. Qed.

Lemma add_unit_units c info address u t a : is_Some (st_units t !! a) -> is_Some (st_units (add_unit c info address u t) !! a).
Proof.
  intros Ha. unfold add_unit. destruct (AddRef _ _ _) as [info' added]. destruct (_ =? _); cbn; (destruct (decide (a = address)) as [->|Hne]; [by rewrite lookup_insert, decide_True|by rewrite lookup_insert_ne]).
Qed.

Lemma add_many_ok c addresses timeout reclaimable : forall clock bound t info, table_ok bound t -> bound + Z.of_nat (length addresses) < 2 ^ 31 ->
  st_clientRefTable_ t !! c = Some info -> (forall address, Some address ∈ addresses -> is_Some (st_units t !! address)) ->
  exists t', AddShmUnits hardReclaimTimeoutMs clock c addresses timeout reclaimable t = Some t' /\ table_ok (bound + Z.of_nat (length addresses)) t'.
Proof.
  induction addresses as [|[address|] addresses IH]; intros clock bound t info Hok Hb Hc Ha; cbn [AddShmUnits].
  - exists t. split; [done|]. by rewrite Z.add_0_r.
  - destruct (Ha address ltac:(left)) as [u Hu]. rewrite Hu, Hc. cbn [mbind option_bind]. cbn [length] in Hb |- *.
    destruct (add_unit_client c info address u t) as [info' Hc']. set (t1 := RecordMaybeExpiredShm _ _ _ _ _ _ _).
    destruct (IH (fun i => clock (S i)) (bound + 1) t1 info') as (t' & Hr & Hok').
    + by apply add_unit_ok; [|lia|..].
    + lia.
    + done.
    + intros a Hin. apply add_unit_units, Ha. by right.
    + exists t'. split; [done|]. replace (bound + Z.of_nat (S (length addresses))) with (bound + 1 + Z.of_nat (length addresses)) by lia. done.
  - cbn [length] in Hb |- *. destruct (IH clock bound t info Hok ltac:(lia) Hc) as (t' & Hr & Hok'); [intros a Hin; apply Ha; by right|].
    exists t'. split; [done|]. eapply shm_ok_mono; [|exact Hok']. lia.
Qed.

Lemma run_ok bound op t : table_ok bound t -> allowed op t -> bound + adds op < 2 ^ 31 -> exists t', run_shm op t = Some t' /\ table_ok (bound + adds op) t'.
Proof.
  intros Hok Hal Hb. destruct op as [c multi|clock c address timeout reclaimable|clock c addresses timeout reclaimable|c id|c|c confirmed|clock nowMs]; cbn [run_shm adds allowed] in *; rewrite ?Z.add_0_r in *.
  - eexists. split; [done|]. unfold InitShmRefForClient. destruct (st_clientRefTable_ t !! c) eqn:E; [done|]. by apply fresh_client.
  - destruct Hal as [u Hu]. unfold AddShmUnit. rewrite Hu. cbn [mbind option_bind]. pose proof (get_or_insert_ok bound c t Hok) as Hg. destruct (ClientTableGetOrInsert c t) as [t1 info]. destruct Hg as (Hok1 & Hc1 & Eu).
    eexists. split; [done|]. eapply same_refs_ok; [apply record_same|]. apply add_unit_ok; [done|lia|by rewrite Eu|done].
  - pose proof (get_or_insert_ok bound c t Hok) as Hg. destruct (ClientTableGetOrInsert c t) as [t1 info]. destruct Hg as (Hok1 & Hc1 & Eu). cbn [fst]. apply (add_many_ok c addresses timeout reclaimable clock bound t1 info); [done|done|done|by rewrite Eu].
  - destruct (remove_unit_ok bound c id t Hok Hb) as (t' & r & -> & Hok'). by exists t'.
  - by apply remove_client_ok.
  - unfold ReconcileClientShmRefs. destruct (remove_confirmed_ok bound c confirmed t Hok Hb) as (t' & -> & Hok'). cbn [mbind option_bind fmap option_fmap option_map fst]. eexists. split; [done|].
    eapply same_refs_ok; [apply clear_same|done].
  - unfold FlushMaybeExpiredQueue. destruct (pop_expired _ _ _ _ _ _) as [[queue expired] hard]. apply hard_reclaim_ok; [|done]. eapply same_refs_ok; [apply move_same|done].
Qed.

Lemma reached_ok n t : reached n t -> n < 2 ^ 31 -> 0 <= n /\ table_ok n t.
Proof.
  induction 1 as [|n t op t' Hr IH Hal Hrun|n t address u Hr IH Hnew Hz Hid|n t address Hr IH Hno]; intros Hn; [split; [done|by apply new_table_ok]|..].
  - assert (0 <= adds op) by (destruct op; cbn; lia). destruct (IH ltac:(lia)) as [Hn0 Hok]. split; [lia|].
    destruct (run_ok n op t Hok Hal ltac:(lia)) as (t1 & E & Hok1). congruence.
  - destruct (IH Hn). split; [done|by apply alloc_ok].
  - destruct (IH Hn). split; [done|by apply free_ok].
Qed.

(** C37: shared-memory references are counted right.  In every run with fewer than 2^31
    references added, of the operations of the table and of units that are allocated
    and that are freed once the table holds no pointer to them: the next operation on
    living units finds every unit it follows a pointer to; the table of the clients
    and the table of the units describe the same relation; every unit in the table is
    alive; the counter of a unit is never below the sum of the references of its
    clients, so a unit in the table never has a zero counter.  When in addition no client was
    removed while it referred several times to one unit ([tidy]), the counter is exactly
    that sum, and is zero exactly when the unit is not in the table. *)
Theorem shm_references_exact n t : reached n t -> n < 2 ^ 31 ->
  (forall op, allowed op t -> n + adds op < 2 ^ 31 -> is_Some (run_shm op t)) /\
  (forall c id, ClientContainsShm c id t = true <-> exists address cs, shmRefTable_ t !! id = Some (address, cs) /\ c ∈ cs) /\
  (forall id address, GetShmUnit id t = Ok address -> exists u, st_units t !! address = Some u /\ su_id u = id) /\
  (forall address u, st_units t !! address = Some u -> total (st_clientRefTable_ t) (su_id u) <= su_refCount u /\
     (ContainsShmUnit (su_id u) t = true -> 0 < su_refCount u)) /\
  (tidy = true -> forall address u, st_units t !! address = Some u -> su_refCount u = total (st_clientRefTable_ t) (su_id u) /\
     (su_refCount u = 0 <-> ContainsShmUnit (su_id u) t = false)).
Proof.
  intros Hr Hn. destruct (reached_ok n t Hr Hn) as [_ Hok].
  assert (Hmirror : forall c id, ClientContainsShm c id t = true <-> uses (st_clientRefTable_ t) c id).
  { intros c id. unfold ClientContainsShm, uses, Contains. destruct (st_clientRefTable_ t !! c) as [info|]; [|split; [done|by intros (? & [=] & _)]].
    destruct (objectKeys_ info !! id) eqn:E; cbn; split; try done; [intros _; exists info; by rewrite E|intros (i & [= <-] & [m Hm]); congruence]. }
  assert (Hpos : forall address u, st_units t !! address = Some u -> ContainsShmUnit (su_id u) t = true -> 0 < su_refCount u).
  { intros address u Hu Hin. destruct (so_count _ _ _ _ Hok _ _ Hu) as [Hle _]. unfold ContainsShmUnit in Hin.
    destruct (shmRefTable_ t !! su_id u) as [[a cs]|] eqn:E; [|done]. destruct (so_entry _ _ _ _ Hok _ _ _ E) as (v & _ & _ & Hne & Hcs).
    apply set_choose_L in Hne as (c & Hc%Hcs). pose proof (total_used _ c _ (so_info _ _ _ _ Hok) Hc). lia. }
  split_and!.
  - intros op Hal Hb. destruct (run_ok n op t Hok Hal Hb) as (t' & -> & _). done.
  - intros c id. rewrite Hmirror. split.
    + intros Hu. destruct (so_present _ _ _ _ Hok _ _ Hu) as [[address cs] He]. exists address, cs. split; [done|]. destruct (so_entry _ _ _ _ Hok _ _ _ He) as (u & _ & _ & _ & Hcs). by apply Hcs.
    + intros (address & cs & He & Hin). destruct (so_entry _ _ _ _ Hok _ _ _ He) as (u & _ & _ & _ & Hcs). by apply Hcs.
  - intros id address Hg. unfold GetShmUnit in Hg. destruct (shmRefTable_ t !! id) as [[a cs]|] eqn:E; [|done]. injection Hg as ->. destruct (so_entry _ _ _ _ Hok _ _ _ E) as (u & ? & ? & _). by exists u.
  - intros address u Hu. split; [apply (so_count _ _ _ _ Hok _ _ Hu)|by apply (Hpos address)].
  - intros Ht address u Hu. pose proof (proj2 (so_count _ _ _ _ Hok _ _ Hu) Ht) as Hc. split; [done|]. specialize (Hpos address u Hu).
    split; [intros Hz; destruct (ContainsShmUnit (su_id u) t); [specialize (Hpos eq_refl); lia|done]|].
    unfold ContainsShmUnit. intros Hin. rewrite Hc. apply total_unused. intros c [e He]%(so_present _ _ _ _ Hok). by rewrite He in Hin.
Qed.
End runs.
End tables.

(** ** The page counters

    They are kept apart from the references, and drift: a client that counts each
    unit once and is handed the same unit twice is accounted twice, and a client
    that counts all its references is removed with only one of them given up. *)

Import ReferenceAlgorithms.

Module ShmDemo.
#[export] Instance demo_order : MapIteration := {| iterate V m := map_to_list m |}.
#[export] Instance demo_order_laws : MapIterationLaws := {| iterate_perm V m := reflexivity _ |}.
Definition demo_units : gmap nat ShmUnit := {[0%nat := {| su_id := "s"; su_size := 10; su_refCount := 0 |}]}.

Definition after_ops (ops : list ShmOp) : option SharedMemoryRefTable :=
  foldl (fun t op => t ≫= run_shm 0 op) (Some (new_SharedMemoryRefTable demo_units)) ops.

Definition add_s : ShmOp := OpAdd (fun _ => 0) "c" 0 0 false.
End ShmDemo.
Import ShmDemo.

Theorem repeated_unit_accounted_twice : exists t, after_ops [add_s; add_s; OpRemove "c" "s"] = Some t /\
  shmRefTable_ t = ∅ /\ st_units t = demo_units /\ refPageCount t = 1 /\ tableBytes t = 10.
Proof. eexists. split; [vm_compute; reflexivity|]. split; [reflexivity|]. split; [reflexivity|]. split; reflexivity. Qed.

Theorem removed_client_leaves_count : exists t, after_ops [OpInit "c" true; add_s; add_s; OpRemoveClient "c"] = Some t /\
  st_clientRefTable_ t = ∅ /\ shmRefTable_ t = ∅ /\ su_refCount <$> st_units t !! 0%nat = Some 1 /\ refPageCount t = 1.
Proof. eexists. split; [vm_compute; reflexivity|]. split; [reflexivity|]. split; [reflexivity|]. split; reflexivity. Qed.

(** The unit is allocated, referred to twice, given up, removed from the table and freed. *)
Lemma shm_references_exact_witness : exists t, reached true 0 2 t /\ su_refCount <$> st_units t !! 0%nat = Some 2 /\
  total (st_clientRefTable_ t) "s" = 2 /\ (forall op, allowed true op t -> 2 + adds op < 2 ^ 31 -> is_Some (run_shm 0 op t)) /\
  exists t', reached true 0 2 t' /\ st_units t' = ∅.
Proof.
  destruct (after_ops [OpInit "c" true; add_s; add_s]) as [t|] eqn:E; [|vm_compute in E; discriminate E]. unfold after_ops in E. cbn [foldl mbind option_bind] in E.
  destruct (run_shm 0 (OpInit "c" true) (new_SharedMemoryRefTable demo_units)) as [t1|] eqn:E1; [|discriminate E1]. cbn [mbind option_bind] in E.
  destruct (run_shm 0 add_s t1) as [t2|] eqn:E2; [|discriminate E]. cbn [mbind option_bind] in E.
  destruct (run_shm 0 (OpRemove "c" "s") t) as [t3|] eqn:E3; [|vm_compute in E1; injection E1 as <-; vm_compute in E2; injection E2 as <-; vm_compute in E; injection E as <-; discriminate E3].
  destruct (run_shm 0 (OpRemove "c" "s") t3) as [t4|] eqn:E4; [|vm_compute in E1; injection E1 as <-; vm_compute in E2; injection E2 as <-; vm_compute in E; injection E as <-; vm_compute in E3; injection E3 as <-; discriminate E4].
  assert (H0 : reached true 0 0 (new_SharedMemoryRefTable demo_units)).
  { apply (reached_alloc true 0 0 (new_SharedMemoryRefTable ∅) 0%nat {| su_id := "s"; su_size := 10; su_refCount := 0 |}); [apply reached_new|reflexivity|reflexivity|].
    intros a v Ha. cbn in Ha. by rewrite lookup_empty in Ha. }
  assert (Hr : reached true 0 2 t).
  { apply (reached_op true 0 1 t2 add_s t); [|vm_compute in E1; injection E1 as <-; vm_compute in E2; injection E2 as <-; by eexists|exact E].
    apply (reached_op true 0 0 t1 add_s t2); [|vm_compute in E1; injection E1 as <-; by eexists|exact E2].
    apply (reached_op true 0 0 (new_SharedMemoryRefTable demo_units) (OpInit "c" true) t1); [exact H0|exact I|exact E1]. }
  assert (Hr4 : reached true 0 2 t4).
  { apply (reached_op true 0 2 t3 (OpRemove "c" "s") t4); [|exact I|exact E4]. by apply (reached_op true 0 2 t (OpRemove "c" "s") t3). }
  destruct (shm_references_exact true 0 2 t Hr ltac:(lia)) as (Hrun & _).
  assert (Hr5 := reached_free true 0 2 t4 0%nat Hr4).
  vm_compute in E1. injection E1 as <-. vm_compute in E2. injection E2 as <-. vm_compute in E. injection E as <-.
  vm_compute in E3. injection E3 as <-. vm_compute in E4. injection E4 as <-.
  eexists. split; [exact Hr|]. split; [reflexivity|]. split; [reflexivity|]. split; [exact Hrun|].
  eexists. split; [apply Hr5; intros id cs Hc; cbn in Hc; discriminate Hc|reflexivity].
Defined.
